(* ===== verification/_CoqProject ===== *)
-Q . S2P
Prelude.v
Text.v
Utf8.v
CLexer.v
ExportMacro.v
Unicode.v
Detect.v
DeadRegions.v
SplitArms.v
Chunker.v
Handle.v
WorkControl.v
WorkQueue.v
Framing.v
BriefGate.v
Target.v
CallPath.v
Checked.v
Effects.v
WatchQueue.v
StateWatcher.v
WatchLogic.v
WatchProofs.v
WatchTheorems.v
Scc.v
Order.v
ImportPaths.v
RustModules.v
ImportGraph.v
ImportCycles.v
SessionLedger.v
Impact.v
ImpactWalk.v
ImpactReport.v
Resolution.v
ReverseEdges.v
Resolver.v
ResolverProofs.v
ResolverTheorems.v
Float.v
Rounding.v
SearchConfig.v
SearchText.v
SearchQuery.v
SearchRank.v
SearchPage.v
SearchSmall.v
SearchStages.v
SearchMention.v
SearchProofs.v
SearchErase.v
SearchFusion.v
SearchCaches.v
SearchPenalties.v
SearchTheorems.v
GitLog.v
GitRenames.v
GitStore.v
GitHistory.v
GitScan.v
GitLogic.v
GitRekey.v
GitPasses.v
GitRuns.v
GitExact.v
GitSmall.v
GitTheorems.v
Fingerprint.v
FingerprintTheorems.v
Similar.v
SimilarTheorems.v
