(* ===== verification/Prelude.v ===== *)
(** * CodeSage: a verification library

    CodeSage is a code-intelligence engine: it indexes a project with tree-sitter
    into SQLite, answers structural and semantic queries over the index, and
    serves them to coding agents from a daemon.  This library models the parts of
    it whose results are computed by the program itself, rather than by SQLite,
    tree-sitter or ONNX Runtime, as definitions translated from the source, and proves
    what makes them correct.  All paths below are relative to [src/crates/].

    ** Conventions

    A byte is [Byte.byte], a [&str], [String] or path its UTF-8 bytes ([bytes]);
    [u32], [u64] and [usize] are [N], [Z] or [nat], with wrapping, saturation or a
    bound written out wherever it can matter.  Slice indexing, [expect] and unsigned
    subtraction that can panic are in the [outcome] monad of this file, or in the
    monad [T] of Checked, which also threads cooperative cancellation
    ([codesage_protocol::work::checkpoint]) and failed queries.  Loops that are
    not structural carry fuel; each such file proves that the fuel it is given
    is enough, and the theorems then say that the code returns.  A [HashMap] is a
    [gmap]; where its iteration order could reach a result, the order is a
    parameter.  A query of the database is a parameter, with what the code needs
    of it as hypotheses or as a class of laws that a concrete index satisfies.

    ** The parts

    Shared: this file (bytes, slices, panics, layouts), Text (the standard library's
    string operations, decimal numbers), Utf8 (character boundaries), Unicode (characters,
    their classes, splitting and trimming), Float (binary32 and binary64 arithmetic,
    on the Standard Library's [SpecFloat]), Rounding (a product with a factor of at most
    one is rounded to no more than the other factor), Order (the order of strings,
    stable sorting, [BTreeMap] iteration and the unspecified order of a [HashMap]'s),
    Checked (stoppable
    computations), Effects (programs that ask their surroundings, with traces of the
    calls), Detect (a file's language, parser/src/detect.rs).

    From source text to a tree (parser/src): CLexer and ExportMacro model
    export_macro.rs, whose lexer and whose pre-pass blank C/C++ export macros in
    the parser's copy; DeadRegions models preproc.rs, the dead arms
    of constant conditions; SplitArms models preproc_arms.rs, the arms that split a
    statement.  The pre-passes all write into a copy of the file that must keep every
    offset and line ([layout_eq]).  Theorems: [CLexer.tokenize_complete] (the token
    stream is the one lexing of the source), [ExportMacro.neutralize_safe],
    [neutralize_only_macros] and [neutralize_gate_exact], [DeadRegions.scan_covers],
    [SplitArms.select_split_arms_safe] and [sandboxed_arm_balanced].

    From source text to vectors: Chunker models embed/src/chunk.rs; the chunks
    cover the text, respect the size limit and cut at character boundaries.

    Names for entities: Handle models protocol/src/handle.rs, which prints and parses the
    text by which tools name symbols, files and chunks (round trip and
    confinement to the repository); Target models protocol/src/target.rs and the
    refusals of graph/src/resolver.rs.  Resolver models the target grammar of that file
    (handles, routes, commands, paths with lines, names narrowed by imports, leads)
    over the interface [Database] of its queries; ResolverProofs and ResolverTheorems
    prove that every answer names entities of the index ([resolution_sound]), that a
    candidate's handle given back resolves to that candidate alone
    ([retry_names_candidate]), and that the order of rows does not matter
    ([resolution_deterministic]).

    The import graph: ImportPaths models the path half of graph/src/bundle.rs
    (relative specifiers, quoted includes, Cargo layout, visibility) and
    Python module candidates (protocol/src/python.rs); RustModules models
    graph/src/rust_modules.rs, the module tree with its bounded memo; ImportGraph
    models graph/src/import_graph.rs, which uses ImportPaths; Scc models
    graph/src/scc.rs; ImportCycles models the cycles of
    graph/src/git_history/risk.rs, which composes ImportGraph and Scc.  Theorems:
    the predicate and the candidate list agree, joined paths stay in the project,
    the memo changes no answer whatever other threads insert
    ([RustModules.candidates_refine]), every recorded module context is justified and none is missing
    ([from_imports_correct]), the graph has the edges its directives give,
    components are the classes of mutual reachability ([Scc.tarjan_scc_correct]), and the
    reported cycles and suppressed lazy edges are exactly those of the graph.

    Queries over the index: CallPath models graph/src/call_path.rs against the
    interface [CodeIndex] with the laws [CodeIndexLaws]; a reported chain is
    real and shortest, an unbounded miss means that none exists, and every
    request ends.  Resolution models the callee resolution of graph/src/bundle.rs
    with its language and visibility gates, its tiers and the evidence of imports
    ([callee_resolution_gated]); ReverseEdges models the references to a
    symbol and their memo, [WalkCache] of graph/src/impact.rs
    ([reverse_edges_refine]: the memo changes no answer and stays within its limits).
    Impact models the impact walk of the same file, breadth first over reference and
    import edges under a frontier cap, a work budget and a deadline;
    ImpactWalk proves it against what the index connects to the target
    ([impact_report_real], [impact_uncapped_exact]), and ImpactReport models the reports
    made of it ([impact_report_accounts]).

    Semantic search (graph/src/search.rs): SearchConfig models the environment switches,
    SearchText what is read from the query and the FTS expression made of it,
    SearchQuery the intents, mentions and penalties of queries and paths, SearchRank the
    rows and the score stages with the trace each leaves, SearchPage the candidates,
    reciprocal-rank fusion, the stem index and its cache, the relevance cliff and
    [search_page] itself.  SearchStages and SearchMention say what each stage may do to a
    row; SearchProofs, SearchErase, SearchFusion, SearchCaches and SearchPenalties carry
    the proofs, SearchTheorems the results on the small index of SearchSmall: a page
    holds only chunks that answer the request ([search_page_sound]), no query escapes
    its quotes ([SearchText.fts_query_quoted]), fusion ranks every region by its
    reciprocal-rank score ([rrf_merge_ranks]), penalties never promote, rounding
    included ([SearchPenalties.penalties_only_demote]), an explanation accounts for the
    score and changes nothing else ([explanation_accounts],
    [explanation_changes_nothing]), the process-wide caches change no answer
    ([search_caches_transparent]), and what a failing part costs ([search_failures]).
    The vector and FTS lookups, regular expressions, globs, the reranker and
    [f32::powi] are parameters.

    Near clones: Fingerprint models parser/src/fingerprint.rs (MinHash over the kinds of
    a syntax tree, stopped at any poll, and the bands and blobs made of it), Similar models
    graph/src/similar.rs (seeds, candidate buckets, scores and the process-wide cache of
    a language's rows).  FingerprintTheorems proves that a stopped file gives no partial
    answer ([cancelled_file_refused]), that blobs read back, and that two fingerprints which agree
    on 49 of their 64 positions share a band; so SimilarTheorems can prove that no near
    clone is lost to banding, whatever the cache holds ([near_clones_found]).

    Git history (graph/src/git_history/indexer.rs): GitLog models the reader of
    [git log] output, GitRenames how changes are keyed to the names their files carry
    now, GitStore the tables and every SQL statement of storage/src/db/git_hist.rs and
    git_authors.rs with their savepoints and transaction, and GitHistory the passes, as
    computations over those tables that can fail at any statement.  The output of git,
    the glob sets and [f64::exp] are parameters ([Git], [GlobSets], [Exp]).  GitScan proves
    the loop over commits against a reference that counts, GitRekey that re-keying is
    one substitution of paths, GitLogic is a weakest precondition for the passes, GitPasses,
    GitRuns and GitExact carry the tables through decay, renames and deltas, and
    GitTheorems has the results, on the small repository of GitSmall: printed logs are read back
    ([GitLog.parse_print_log]), text injected into one is refused
    ([GitLog.injected_log_refused]), a full pass counts every commit for the path its
    file has now ([full_pass_exact]), an incremental pass leaves the counts of a full
    one ([incremental_pass_exact]), a pass that fails leaves the database as it was
    ([index_atomic]), and one that succeeds records HEAD and its policy
    ([index_stamped]).

    What the daemon keeps: WorkControl (protocol/src/work.rs) and WorkQueue
    (cli/src/mcp/work.rs) are step relations over the interleavings of threads:
    each registered callback runs exactly once, the admission limits hold in every
    reachable state, the books balance, no step panics, eligible work is admitted and a
    shut-down queue admits nothing.  Framing (cli/src/mcp/framing.rs) reads
    size-limited frames.  BriefGate (cli/src/brief_gate.rs) bounds what a
    session is served.  SessionLedger (graph/src/session_ledger.rs) records served
    handles in a file that refines an append-only log under torn writes, and prunes
    the directory within its limits.

    The file watcher (cli/src/statewatcher.rs): WatchQueue models the queues of work it
    owes, back-off and parking, the outcomes of passes, deferral under load and the
    admission of notifications; StateWatcher its loop, one [iteration] at a time,
    with the handlers it calls, as programs of Effects over the clock, the file
    system, the index and the threads beside it.  WatchLogic and WatchProofs carry
    the proofs (a weakest precondition with a clock that never goes back),
    WatchTheorems the results: an iteration forgets nothing it owes
    ([watch_keeps_obligations], [saved_file_kept]), every deadline is bounded and what
    is owed gets its turn ([watch_invariant], [owed_gets_its_turn]), the loop leaves for
    being idle only with nothing left to do ([idle_exit_quiet]), and a notification is
    queued or remembered as lost ([notification_not_forgotten]).

    ** Bounds and fuel

    [CLexer]: one round per byte; [Chunker]: the separators left and the
    bytes of the text; [Framing.fill_fuel]: the results the source will give;
    [Scc.dfs_fuel]: one round per node and per edge; [RustModules.load_fuel]: the
    queued contexts and, for each context below [MODULE_LIMIT], the declarations of
    one file; [ImportPaths.CANDIDATE_DEPTH]: the two resolvers call each
    other at most once; [Handle.unescape] and [Text.split_sub]: one round per byte;
    [CallPath]: proved to settle for some number of rounds;
    [StateWatcher.SCAN_FUEL]: a directory for each examined entry
    ([dir_scan_terminates]).  The git history passes need none: the reader recurses on
    the records of the log, and a rename chain is followed for as many steps as there are
    renames, as the code does.  [Fingerprint.collect_preorder]: one round per node.

    ** Not modelled

    SQLite storage, tree-sitter extraction, the embedding runtime, and the sockets
    and processes of the daemon are foreign code and I/O.  The risk score
    and coupling reports over the tables of git history, test recommendations,
    feature mapping, sessions and drift, and the MCP tool layer are the program's own and are not modelled; the manifest lists them
    with their sources.  Within modelled files: the process-wide cache of import
    cycles, the external-crate resolver of rust_modules, and the bundles of
    bundle.rs; in indexer.rs, the list of files changed since a revision, which only
    renders one git command, and tracing output.
*)
From stdpp Require Export countable base list list_numbers option strings.
From Stdlib Require Export Strings.Byte.
From Stdlib Require Import Lia ZArith NArith.

Set Default Proof Using "Type".

(** ** Bytes

    A Rust [u8] is a [byte]; a [&[u8]] is a [bytes].  Indices and lengths are
    [nat]: every index the modelled code computes is bounded by the length of
    an allocated slice plus a small constant, below [isize::MAX]. *)

Abbreviation bytes := (list byte).

Declare Scope codesage_scope.
Delimit Scope codesage_scope with cs.
#[global] Open Scope codesage_scope.

#[export] Instance byte_eq_decision : EqDecision byte := Byte.byte_eq_dec.

#[export] Instance byte_countable : Countable byte :=
  inj_countable Byte.to_N Byte.of_N Byte.of_to_N.

(** A byte-string literal [b"..."]. *)
Definition bs (s : string) : bytes := String.list_byte_of_string s.

Abbreviation LF := x0a (only parsing).
Abbreviation CR := x0d (only parsing).
Abbreviation SP := x20 (only parsing).

Notation "a =? b" := (Byte.eqb a b) (at level 70, no associativity) : codesage_scope.

Lemma beq_spec (a b : byte) : reflect (a = b) (Byte.eqb a b).
Proof.
  destruct (Byte.eqb a b) eqn:E; constructor.
  - by apply Byte.byte_dec_bl.
  - intros ->. by rewrite Byte.byte_dec_lb in E.
Qed.

Lemma beq_true (a b : byte) : (a =? b) = true ↔ a = b.
Proof. destruct (beq_spec a b); naive_solver. Qed.

Lemma beq_false (a b : byte) : (a =? b) = false ↔ a ≠ b.
Proof. destruct (beq_spec a b); naive_solver. Qed.

Lemma beq_refl (a : byte) : (a =? a) = true.
Proof. by apply beq_true. Qed.

Definition byte_in_range (lo hi b : byte) : bool :=
  (Byte.to_N lo <=? Byte.to_N b)%N && (Byte.to_N b <=? Byte.to_N hi)%N.

(** The [u8::is_ascii_*] predicates of the standard library. *)
Definition is_ascii_uppercase (b : byte) : bool := byte_in_range "A" "Z" b.
Definition is_ascii_lowercase (b : byte) : bool := byte_in_range "a" "z" b.
Definition is_ascii_digit (b : byte) : bool := byte_in_range "0" "9" b.
Definition is_ascii_alphabetic (b : byte) : bool :=
  is_ascii_uppercase b || is_ascii_lowercase b.
Definition is_ascii_alphanumeric (b : byte) : bool :=
  is_ascii_alphabetic b || is_ascii_digit b.
Definition is_ascii_whitespace (b : byte) : bool :=
  (b =? x20) || (b =? x09) || (b =? x0a) || (b =? x0c) || (b =? x0d).

(** [bytes] equality as a boolean, [==] on slices. *)
Fixpoint bytes_eqb (a b : bytes) : bool :=
  match a, b with
  | [], [] => true
  | x :: a', y :: b' => (x =? y) && bytes_eqb a' b'
  | _, _ => false
  end.

Lemma bytes_eqb_spec (a b : bytes) : reflect (a = b) (bytes_eqb a b).
Proof.
  revert b; induction a as [|x a IH]; intros [|y b]; simpl; try by constructor.
  destruct (beq_spec x y) as [->|Hne]; simpl.
  - destruct (IH b) as [->|Hne]; constructor; congruence.
  - constructor; congruence.
Qed.

Lemma bytes_eqb_true (a b : bytes) : bytes_eqb a b = true ↔ a = b.
Proof. destruct (bytes_eqb_spec a b); naive_solver. Qed.

(** [words.contains(&w)]. *)
Definition contains_word (words : list bytes) (w : bytes) : bool :=
  existsb (bytes_eqb w) words.

Lemma contains_word_true words w : contains_word words w = true ↔ w ∈ words.
Proof.
  unfold contains_word. rewrite existsb_exists. setoid_rewrite bytes_eqb_true.
  rewrite list_elem_of_In. naive_solver.
Qed.

(** [src.get(i) == Some(&b)]. *)
Definition at_is (src : bytes) (i : nat) (b : byte) : bool :=
  match src !! i with Some c => c =? b | None => false end.

Lemma at_is_true src i b : at_is src i b = true ↔ src !! i = Some b.
Proof.
  unfold at_is. destruct (src !! i) as [c|]; [rewrite beq_true|]; naive_solver.
Qed.

(** [s.starts_with(p)] and [s.ends_with(p)]. *)
Fixpoint starts_with (p s : bytes) : bool :=
  match p, s with
  | [], _ => true
  | x :: p', y :: s' => (x =? y) && starts_with p' s'
  | _, [] => false
  end.

Definition ends_with (p s : bytes) : bool := starts_with (reverse p) (reverse s).

Lemma starts_with_true p s : starts_with p s = true ↔ p `prefix_of` s.
Proof.
  revert s; induction p as [|x p IH]; intros [|y s]; simpl.
  - split; [intros _; apply prefix_nil | done].
  - split; [intros _; apply prefix_nil | done].
  - split; [done | intros [? ?]; done].
  - rewrite andb_true_iff, beq_true, IH. split.
    + intros [-> H]. by apply prefix_cons.
    + intros H. split; [by eapply prefix_cons_inv_1 | by eapply prefix_cons_inv_2].
Qed.

Lemma ends_with_true p s : ends_with p s = true ↔ p `suffix_of` s.
Proof.
  unfold ends_with. rewrite starts_with_true. symmetry. apply suffix_prefix_reverse.
Qed.

(** ** Half-open slices [l[a..b]] *)

Definition slice {A} (a b : nat) (l : list A) : list A := take (b - a) (drop a l).

Section slices.
Context {A : Type}.
Implicit Types l : list A.

Lemma length_slice a b l : length (slice a b l) = min (b - a) (length l - a).
Proof. unfold slice. by rewrite length_take, length_drop. Qed.

Lemma length_slice_in a b l : a ≤ b ≤ length l → length (slice a b l) = b - a.
Proof. rewrite length_slice. lia. Qed.

Lemma lookup_slice a b l i :
  i < b - a → slice a b l !! i = l !! (a + i).
Proof. intros. unfold slice. rewrite lookup_take_lt, lookup_drop by lia. done. Qed.

Lemma slice_app_parts a b l :
  a ≤ b → take a l ++ slice a b l ++ drop b l = l.
Proof.
  intros. unfold slice. replace (drop b l) with (drop (b - a) (drop a l)).
  - by rewrite take_drop, take_drop.
  - rewrite drop_drop. f_equal. lia.
Qed.

Lemma slice_full l : slice 0 (length l) l = l.
Proof. unfold slice. rewrite drop_0, Nat.sub_0_r. by rewrite take_ge. Qed.
End slices.

(** ** Scanning loops

    [while i < src.len() && p(src[i]) { i += 1 }] is [scan_while p src i]. *)

Fixpoint count_while {A} (p : A → bool) (l : list A) : nat :=
  match l with
  | x :: l' => if p x then S (count_while p l') else 0
  | [] => 0
  end.

Definition scan_while (p : byte → bool) (src : bytes) (i : nat) : nat :=
  i + count_while p (drop i src).

Section count_while.
Context {A : Type} (p : A → bool).

Lemma count_while_le l : count_while p l ≤ length l.
Proof. induction l as [|x l IH]; simpl; [done|]. destruct (p x); lia. Qed.

Lemma count_while_lookup l j x :
  j < count_while p l → l !! j = Some x → p x = true.
Proof.
  revert j; induction l as [|y l IH]; intros j; simpl; [lia|].
  destruct (p y) eqn:E; [|lia]. destruct j; simpl; [naive_solver|].
  intros. eapply IH; [|done]. lia.
Qed.

Lemma count_while_stop l x :
  l !! count_while p l = Some x → p x = false.
Proof.
  induction l as [|y l IH]; simpl; [done|].
  destruct (p y) eqn:E; simpl; naive_solver.
Qed.
End count_while.

Lemma scan_while_ge p src i : i ≤ scan_while p src i.
Proof. unfold scan_while. lia. Qed.

Lemma scan_while_le p src i : i ≤ length src → scan_while p src i ≤ length src.
Proof.
  intros. unfold scan_while.
  pose proof (count_while_le p (drop i src)) as H'. rewrite length_drop in H'. lia.
Qed.

Lemma scan_while_in p src i j b :
  i ≤ j < scan_while p src i → src !! j = Some b → p b = true.
Proof.
  unfold scan_while. intros Hj Hb.
  eapply (count_while_lookup p (drop i src) (j - i)); [lia|].
  rewrite lookup_drop. by replace (i + (j - i)) with j by lia.
Qed.

Lemma scan_while_end p src i b :
  src !! scan_while p src i = Some b → p b = false.
Proof.
  unfold scan_while. intros Hb. eapply (count_while_stop p (drop i src)).
  by rewrite lookup_drop.
Qed.

Lemma scan_while_step p src i b :
  src !! i = Some b → p b = true → i < scan_while p src i.
Proof.
  intros Hi Hp. unfold scan_while. rewrite (drop_S _ b) by done. simpl. rewrite Hp. lia.
Qed.

(** [l.windows(pat.len()).position(|w| w == pat)], for a non-empty [pat]. *)
Fixpoint find_sub (pat l : bytes) : option nat :=
  if starts_with pat l then Some 0
  else match l with [] => None | _ :: l' => S <$> find_sub pat l' end.

Lemma find_sub_Some pat l n :
  find_sub pat l = Some n → pat `prefix_of` drop n l.
Proof.
  revert n; induction l as [|x l IH]; intros n; cbn [find_sub].
  - destruct (starts_with pat []) eqn:E; [|done]. intros [= <-]. by apply starts_with_true.
  - destruct (starts_with pat (x :: l)) eqn:E.
    + intros [= <-]. by apply starts_with_true.
    + destruct (find_sub pat l) as [m|]; [|done]. intros [= <-]. by apply IH.
Qed.

Lemma find_sub_None pat l :
  find_sub pat l = None → ∀ n, ¬ pat `prefix_of` drop n l.
Proof.
  induction l as [|x l IH]; cbn [find_sub].
  - destruct (starts_with pat []) eqn:E; [done|]. intros _ n Hp.
    rewrite drop_nil in Hp. apply starts_with_true in Hp. congruence.
  - destruct (starts_with pat (x :: l)) eqn:E; [done|].
    destruct (find_sub pat l) as [m|]; [done|]. intros _ [|n] Hp; simpl in Hp.
    + apply starts_with_true in Hp. congruence.
    + by eapply IH.
Qed.

Lemma find_sub_bound pat l n :
  find_sub pat l = Some n → n + length pat ≤ length l ∨ length pat = 0.
Proof.
  intros H%find_sub_Some%prefix_length. rewrite length_drop in H. lia.
Qed.

(** [any window equals pat]. *)
Definition has_sub (pat l : bytes) : bool :=
  match find_sub pat l with Some _ => true | None => false end.

Lemma has_sub_true pat l : has_sub pat l = true ↔ ∃ n, pat `prefix_of` drop n l.
Proof.
  unfold has_sub. destruct (find_sub pat l) as [n|] eqn:E.
  - split; [intros _; exists n; by apply find_sub_Some | done].
  - split; [done|]. intros [n H]. by apply (find_sub_None _ _ E) in H.
Qed.

(** ** Panics

    Slice indexing, [copy_from_slice], [expect] and unsigned subtraction panic
    when their precondition fails.  Code whose panics matter is written in this
    monad, and a theorem states that it never reaches [Panic]. *)
Inductive outcome (A : Type) :=
| Done (a : A)
| Panic.
Arguments Done {A} _.
Arguments Panic {A}.

#[export] Instance outcome_ret : MRet outcome := λ A a, Done a.
#[export] Instance outcome_bind : MBind outcome := λ A B f m,
  match m with Done a => f a | Panic => Panic end.
#[export] Instance outcome_fmap : FMap outcome := λ A B f m,
  match m with Done a => Done (f a) | Panic => Panic end.

Definition of_option {A} (o : option A) : outcome A :=
  match o with Some a => Done a | None => Panic end.

(** [a - b] on [usize] with overflow checks. *)
Definition usize_sub (a b : nat) : outcome nat :=
  if b <=? a then Done (a - b) else Panic.

(** [&l[a..b]]. *)
Definition slice_get {A} (a b : nat) (l : list A) : outcome (list A) :=
  if (a <=? b) && (b <=? length l) then Done (slice a b l) else Panic.

(** Overwrite of [l[a..]] by [r], in range. *)
Definition splice {A} (a : nat) (r l : list A) : list A :=
  take a l ++ r ++ drop (a + length r) l.

(** [l[a..a + r.len()].copy_from_slice(r)]. *)
Definition copy_at {A} (a : nat) (r l : list A) : outcome (list A) :=
  if a + length r <=? length l then Done (splice a r l) else Panic.

Section splice.
Context {A : Type}.
Implicit Types l r : list A.

Lemma length_splice a r l : a + length r ≤ length l → length (splice a r l) = length l.
Proof. intros. unfold splice. rewrite !length_app, length_take, length_drop. lia. Qed.

Lemma lookup_splice_in a r l i :
  a + length r ≤ length l → a ≤ i < a + length r → splice a r l !! i = r !! (i - a).
Proof.
  intros. unfold splice. rewrite lookup_app_r; rewrite length_take; [|lia].
  rewrite lookup_app_l by lia. f_equal. lia.
Qed.

Lemma lookup_splice_out a r l i :
  a + length r ≤ length l → ¬ (a ≤ i < a + length r) → splice a r l !! i = l !! i.
Proof.
  intros. unfold splice. destruct (decide (i < a)).
  - rewrite lookup_app_l by (rewrite length_take; lia). by rewrite lookup_take_lt.
  - rewrite lookup_app_r; rewrite length_take; [|lia].
    rewrite lookup_app_r by lia. rewrite lookup_drop. f_equal. lia.
Qed.

Lemma slice_get_Done a b l : a ≤ b ≤ length l → slice_get a b l = Done (slice a b l).
Proof.
  intros. unfold slice_get.
  rewrite (proj2 (Nat.leb_le _ _)), (proj2 (Nat.leb_le _ _)) by lia. done.
Qed.

Lemma copy_at_Done a r l : a + length r ≤ length l → copy_at a r l = Done (splice a r l).
Proof. intros. unfold copy_at. by rewrite (proj2 (Nat.leb_le _ _)). Qed.
End splice.

(** ** Source layout

    The pre-passes over C and C++ hand the parser a copy of the source in which
    bytes may change but line breaks may not move.  [layout_eq] is that
    relation; byte offsets, line numbers and columns are invariant under it. *)
Definition is_break (b : byte) : bool := (b =? LF) || (b =? CR).

Definition same_break (a b : byte) : Prop :=
  a = b ∨ (is_break a = false ∧ is_break b = false).

Definition layout_eq : relation bytes := Forall2 same_break.

#[export] Instance same_break_equiv : Equivalence same_break.
Proof.
  split.
  - by left.
  - intros a b [->|[? ?]]; [by left|by right].
  - intros a b c [->|[? ?]] [->|[? ?]]; [by left|by right|by right|by right].
Qed.

#[export] Instance layout_eq_equiv : Equivalence layout_eq.
Proof. unfold layout_eq. apply _. Qed.

Lemma layout_eq_length a b : layout_eq a b → length a = length b.
Proof. apply Forall2_length. Qed.

(** The zero-based row of byte offset [i]: line feeds before it. *)
Definition row_of (src : bytes) (i : nat) : nat :=
  length (filter (λ b, b = LF) (take i src)).

(** The offset at which the line of [i] starts. *)
Definition line_begin (src : bytes) (i : nat) : nat :=
  i - count_while (λ b, negb (b =? LF)) (reverse (take i src)).

Lemma same_break_LF a b : same_break a b → (a =? LF) = (b =? LF).
Proof.
  intros [->|[Ha Hb]]; [done|]. apply orb_false_iff in Ha as [-> _].
  by apply orb_false_iff in Hb as [-> _].
Qed.

#[export] Instance row_of_layout : Proper (layout_eq ==> eq ==> eq) row_of.
Proof.
  intros a b Hab i _ <-. unfold row_of, layout_eq in *.
  apply (Forall2_take _ _ _ i) in Hab.
  induction Hab as [|x y l k Hxy _ IH]; [done|].
  pose proof (same_break_LF _ _ Hxy) as E. rewrite !filter_cons.
  destruct (beq_spec x LF), (beq_spec y LF); simplify_eq;
    repeat case_decide; simplify_eq/=; congruence.
Qed.

#[export] Instance line_begin_layout : Proper (layout_eq ==> eq ==> eq) line_begin.
Proof.
  intros a b Hab i _ <-. unfold line_begin, layout_eq in *. f_equal.
  apply (Forall2_take _ _ _ i), Forall2_reverse in Hab.
  induction Hab as [|x y l k Hxy _ IH]; simpl; [done|].
  rewrite (same_break_LF _ _ Hxy). destruct (y =? LF); simpl; congruence.
Qed.

(** Blanking: every byte but a line break becomes a space. *)
Definition blank_byte (b : byte) : byte := if is_break b then b else SP.

Lemma blank_byte_break b : same_break b (blank_byte b).
Proof. unfold blank_byte. destruct (is_break b) eqn:E; [by left|by right]. Qed.

Lemma blank_layout l : layout_eq l (map blank_byte l).
Proof. induction l; constructor; [apply blank_byte_break|done]. Qed.

Lemma layout_eq_app a a' b b' :
  layout_eq a a' → layout_eq b b' → layout_eq (a ++ b) (a' ++ b').
Proof. apply Forall2_app. Qed.

Lemma layout_eq_splice a r l :
  a + length r ≤ length l → layout_eq (slice a (a + length r) l) r →
  layout_eq l (splice a r l).
Proof.
  intros Hle Hr. rewrite <- (slice_app_parts a (a + length r) l) at 1 by lia.
  unfold splice. repeat apply layout_eq_app; done.
Qed.

Lemma forallb_Forall_true {A} (f : A → bool) (l : list A) :
  forallb f l = true ↔ Forall (λ x, f x = true) l.
Proof. rewrite forallb_forall, Forall_forall. by setoid_rewrite list_elem_of_In. Qed.

Lemma same_break_is_break a b : same_break a b → is_break a = is_break b.
Proof. intros [->|[-> ->]]; done. Qed.

Lemma layout_eq_lookup a b i x y :
  layout_eq a b → a !! i = Some x → b !! i = Some y → same_break x y.
Proof. intros H Hx Hy. eapply Forall2_lookup_lr; eauto. Qed.

(** No line break among the [n] bytes of [l] from [i]. *)
Definition unbroken_at (l : bytes) (i n : nat) : Prop :=
  ∀ j b, i ≤ j < i + n → l !! j = Some b → is_break b = false.

Lemma unbroken_at_layout a b i n : layout_eq a b → unbroken_at a i n → unbroken_at b i n.
Proof.
  intros Hab Ha j y Hj Hy. destruct (Forall2_lookup_r _ _ _ _ _ Hab Hy) as (x & Hx & Hxy).
  rewrite <- (same_break_is_break _ _ Hxy). by eapply Ha.
Qed.

Lemma unbroken_at_blank l i n : unbroken_at l i n → unbroken_at (map blank_byte l) i n.
Proof. apply unbroken_at_layout, blank_layout. Qed.

Lemma unbroken_at_slice l s e i n :
  unbroken_at l (s + i) n → unbroken_at (slice s e l) i n.
Proof.
  intros H j b Hj. unfold slice. rewrite lookup_take. case_decide; [|done].
  rewrite lookup_drop. intros Hb. by apply (H (s + j) b); [lia|].
Qed.

Lemma unbroken_at_mono l i n i' n' :
  unbroken_at l i n → i ≤ i' → i' + n' ≤ i + n → unbroken_at l i' n'.
Proof. intros H ? ? j b ? ?. apply (H j b); [lia|done]. Qed.

(** Writing break-free text over break-free text keeps the layout. *)
Lemma layout_eq_splice_text a r l :
  a + length r ≤ length l → Forall (λ b, is_break b = false) r →
  unbroken_at l a (length r) → layout_eq l (splice a r l).
Proof.
  intros Hle Hr Hl. apply layout_eq_splice; [done|].
  apply Forall2_same_length_lookup. split; [rewrite length_slice_in; lia|].
  intros j x y Hx Hy. right. pose proof (lookup_lt_Some _ _ _ Hy).
  rewrite lookup_slice in Hx by lia. split.
  - apply (Hl (a + j) x); [lia|done].
  - by eapply (Forall_lookup_1 _ _ _ _ Hr).
Qed.

(** [output] is [src] with some bytes blanked. *)
Definition blanked_copy (src output : bytes) : Prop :=
  length output = length src ∧
  ∀ j, output !! j = src !! j ∨ output !! j = blank_byte <$> src !! j.

Lemma blanked_copy_layout src output : blanked_copy src output → layout_eq src output.
Proof.
  intros [Hl H]. apply Forall2_same_length_lookup. split; [done|].
  intros j x y Hx Hy. destruct (H j) as [E|E]; rewrite Hx, Hy in E; simplify_eq/=; [done|].
  apply blank_byte_break.
Qed.

Lemma blanked_copy_restore src output a b :
  a ≤ b ≤ length src → blanked_copy src output →
  blanked_copy src (splice a (slice a b src) output).
Proof.
  intros Hab [Hl H]. assert (length (slice a b src) = b - a) as Hs by (apply length_slice_in; lia).
  split; [rewrite length_splice; lia|]. intros j. destruct (decide (a ≤ j < b)).
  - left. rewrite lookup_splice_in, lookup_slice by lia. f_equal. lia.
  - rewrite lookup_splice_out by lia. apply H.
Qed.

Lemma blank_byte_idemp b : blank_byte (blank_byte b) = blank_byte b.
Proof. unfold blank_byte. destruct (is_break b) eqn:E; [by rewrite E|done]. Qed.

Lemma blanked_copy_refl src : blanked_copy src src.
Proof. split; [done|]. by left. Qed.

Lemma blanked_copy_blank src : blanked_copy src (map blank_byte src).
Proof. split; [by rewrite length_map|]. intros j. right. apply list_lookup_fmap. Qed.

(** Blanking a range of a blanked copy. *)
Lemma blanked_copy_blank_range src output a b :
  a ≤ b ≤ length src → blanked_copy src output →
  blanked_copy src (splice a (map blank_byte (slice a b output)) output).
Proof.
  intros Hab [Hl H].
  assert (length (map blank_byte (slice a b output)) = b - a) as Hs
    by (rewrite length_map, length_slice_in; lia).
  split; [rewrite length_splice; lia|]. intros j. destruct (decide (a ≤ j < b)).
  - right. rewrite lookup_splice_in by lia. rewrite list_lookup_fmap, lookup_slice by lia.
    replace (a + (j - a)) with j by lia.
    destruct (H j) as [->| ->]; [done|]. destruct (src !! j); simpl; [|done].
    by rewrite blank_byte_idemp.
  - rewrite lookup_splice_out by lia. apply H.
Qed.
