(* ===== verification/Text.v ===== *)
(** * Text: the string operations of the standard library the code uses

    A Rust [String] or [&str] is its UTF-8 bytes.  Every pattern the modelled
    code searches for is ASCII, and an ASCII byte is never part of a longer
    UTF-8 sequence, so searching bytes and searching characters coincide. *)
From S2P Require Import Prelude.
From Stdlib Require Import Lia NArith.
Local Open Scope byte_scope.
Local Open Scope codesage_scope.

(** ** Searching and splitting *)

(** [s.find(b)], [s.iter().position(|c| c == b)]. *)
Definition find_byte (b : byte) (l : bytes) : option nat := find_sub [b] l.

(** [s.contains(b)]. *)
Definition has_byte (b : byte) (l : bytes) : bool := existsb (Byte.eqb b) l.

Definition strip_prefix (p s : bytes) : option bytes :=
  if starts_with p s then Some (drop (length p) s) else None.

Definition strip_suffix (p s : bytes) : option bytes :=
  if ends_with p s then Some (take (length s - length p) s) else None.

(** [s.split_once(c)]: around the first [c]. *)
Fixpoint split_once (c : byte) (s : bytes) : option (bytes * bytes) :=
  match s with
  | [] => None
  | b :: s' => if b =? c then Some ([], s')
               else '(x, y) ← split_once c s'; Some (b :: x, y)
  end.

(** [u8::to_ascii_lowercase]. *)
Definition to_ascii_lowercase (b : byte) : byte :=
  if is_ascii_uppercase b then default b (Byte.of_N (Byte.to_N b + 32)) else b.

(** [s.rsplit_once(c)]: around the last [c]. *)
Fixpoint rsplit_once (c : byte) (s : bytes) : option (bytes * bytes) :=
  match s with
  | [] => None
  | b :: s' => match rsplit_once c s' with
               | Some (x, y) => Some (b :: x, y)
               | None => if b =? c then Some ([], s') else None
               end
  end.

(** [s.split(c)]: the segments between the [c]s, at least one. *)
Fixpoint split_on (c : byte) (s : bytes) : list bytes :=
  match s with
  | [] => [[]]
  | b :: s' =>
      if b =? c then [] :: split_on c s'
      else match split_on c s' with
           | seg :: segs => (b :: seg) :: segs
           | [] => [[b]]
           end
  end.

(** [segs.join(c)]. *)
Fixpoint join_with (c : byte) (segs : list bytes) : bytes :=
  match segs with
  | [] => []
  | [seg] => seg
  | seg :: segs => seg ++ c :: join_with c segs
  end.

Lemma has_byte_true b l : has_byte b l = true ↔ b ∈ l.
Proof.
  unfold has_byte. rewrite existsb_exists. setoid_rewrite beq_true.
  rewrite list_elem_of_In. naive_solver.
Qed.

Lemma has_byte_false b l : has_byte b l = false ↔ b ∉ l.
Proof. rewrite <- has_byte_true. destruct (has_byte b l); naive_solver. Qed.

Lemma starts_with_app p s : starts_with p (p ++ s) = true.
Proof. apply starts_with_true. by exists s. Qed.

Lemma strip_prefix_app p s : strip_prefix p (p ++ s) = Some s.
Proof. unfold strip_prefix. by rewrite starts_with_app, drop_app_length. Qed.

Lemma strip_prefix_Some p s r : strip_prefix p s = Some r ↔ s = p ++ r.
Proof.
  split; [|intros ->; apply strip_prefix_app]. unfold strip_prefix.
  destruct (starts_with p s) eqn:E; [|done]. intros [= <-].
  apply starts_with_true in E as [k ->]. by rewrite drop_app_length.
Qed.

Lemma ends_with_app p s : ends_with p (s ++ p) = true.
Proof. apply ends_with_true. by exists s. Qed.

Lemma strip_suffix_Some p s r : strip_suffix p s = Some r ↔ s = r ++ p.
Proof.
  unfold strip_suffix. split.
  - destruct (ends_with p s) eqn:E; [|done]. intros [= <-].
    apply ends_with_true in E as [k ->]. rewrite length_app.
    by rewrite Nat.add_sub, take_app_length.
  - intros ->. rewrite ends_with_app, length_app. by rewrite Nat.add_sub, take_app_length.
Qed.

Lemma split_once_app c a b : c ∉ a → split_once c (a ++ c :: b) = Some (a, b).
Proof.
  induction a as [|x a IH]; intros Hc; simpl; [by rewrite beq_refl|].
  apply not_elem_of_cons in Hc as [Hx Hc].
  rewrite (proj2 (beq_false x c)) by congruence. by rewrite IH.
Qed.

Lemma split_once_Some c s a b : split_once c s = Some (a, b) → s = a ++ c :: b ∧ c ∉ a.
Proof.
  revert a b; induction s as [|x s IH]; intros a b; [done|]. cbn [split_once].
  destruct (beq_spec x c) as [->|Hx].
  - intros [= <- <-]. split; [done|apply not_elem_of_nil].
  - destruct (split_once c s) as [[a' b']|]; [|done]. intros [= <- <-].
    destruct (IH _ _ eq_refl) as [-> ?]. split; [done|]. apply not_elem_of_cons. split; congruence.
Qed.

Lemma rsplit_once_None c s : rsplit_once c s = None ↔ c ∉ s.
Proof.
  induction s as [|x s IH]; cbn [rsplit_once]; [split; [intros; apply not_elem_of_nil|done]|].
  rewrite not_elem_of_cons. destruct (rsplit_once c s) as [[a b]|].
  - split; [done|]. intros [_ H]. by apply IH in H.
  - destruct (beq_spec x c) as [->|Hx]; naive_solver.
Qed.

Lemma rsplit_once_app c a b : c ∉ b → rsplit_once c (a ++ c :: b) = Some (a, b).
Proof.
  intros Hc. induction a as [|x a IH]; simpl.
  - rewrite (proj2 (rsplit_once_None c b)) by done. by rewrite beq_refl.
  - by rewrite IH.
Qed.

Lemma rsplit_once_Some c s a b : rsplit_once c s = Some (a, b) → s = a ++ c :: b ∧ c ∉ b.
Proof.
  revert a b; induction s as [|x s IH]; intros a b; [done|]. cbn [rsplit_once].
  destruct (rsplit_once c s) as [[a' b']|] eqn:E.
  - intros [= <- <-]. destruct (IH _ _ eq_refl) as [-> ?]. done.
  - destruct (beq_spec x c) as [->|Hx]; [|done]. intros [= <- <-].
    split; [done|]. by apply rsplit_once_None.
Qed.

Lemma join_split c s : join_with c (split_on c s) = s.
Proof.
  induction s as [|x s IH]; [done|]. simpl.
  assert (split_on c s ≠ []) as Hne
    by (destruct s as [|y s']; simpl; [done|]; destruct (y =? c); [done|]; by destruct (split_on c s')).
  destruct (beq_spec x c) as [->|Hx].
  - destruct (split_on c s) as [|seg segs]; [done|]. simpl. by rewrite <- IH.
  - destruct (split_on c s) as [|seg segs]; [done|]. rewrite <- IH. by destruct segs.
Qed.

Lemma find_byte_split b l pos :
  find_byte b l = Some pos → (b ∉ take pos l) ∧ drop pos l = b :: drop (S pos) l.
Proof.
  unfold find_byte. revert pos; induction l as [|x l IH]; intros pos; [done|].
  cbn [find_sub starts_with]. rewrite andb_true_r. destruct (beq_spec b x) as [->|Hx].
  - intros [= <-]. by split; [apply not_elem_of_nil|].
  - destruct (find_sub [b] l) as [m|]; [|done]. intros [= <-].
    destruct (IH _ eq_refl) as [H1 H2]. split; [|done]. apply not_elem_of_cons. split; [congruence|done].
Qed.

Lemma find_byte_none b l : find_byte b l = None ↔ b ∉ l.
Proof.
  unfold find_byte. induction l as [|x l IH]; [split; [intros; apply not_elem_of_nil|done]|].
  cbn [find_sub starts_with]. rewrite andb_true_r, not_elem_of_cons.
  destruct (beq_spec b x) as [->|Hx]; [split; [done|tauto]|].
  rewrite <- IH. destruct (find_sub [b] l); simpl; naive_solver.
Qed.

Lemma find_byte_app b l1 l2 :
  b ∉ l1 → find_byte b (l1 ++ b :: l2) = Some (length l1).
Proof.
  unfold find_byte. induction l1 as [|x l1 IH]; intros H; cbn [app find_sub starts_with].
  - by rewrite beq_refl.
  - apply not_elem_of_cons in H as [Hx H]. rewrite andb_true_r, (proj2 (beq_false b x)) by done.
    by rewrite IH.
Qed.

Lemma find_byte_bound b l n : find_byte b l = Some n → n < length l.
Proof.
  intros [_ H]%find_byte_split. apply (f_equal length) in H. rewrite length_drop in H. simpl in H. lia.
Qed.

(** ** Decimal numbers *)

Definition digit (n : N) : byte :=
  match (n mod 10)%N with
  | 0%N => "0" | 1%N => "1" | 2%N => "2" | 3%N => "3" | 4%N => "4"
  | 5%N => "5" | 6%N => "6" | 7%N => "7" | 8%N => "8" | _ => "9"
  end.

Definition digit_value (b : byte) : N := (Byte.to_N b - 48)%N.

(** [Display] of an unsigned integer.  A number below [10^fuel] needs at most
    [fuel] digits. *)
Fixpoint show_loop (fuel : nat) (n : N) : bytes :=
  match fuel with
  | 0 => []
  | S fuel => if (n <? 10)%N then [digit n] else show_loop fuel (n / 10) ++ [digit n]
  end.

Definition U32_DIGITS : nat := 10.
Definition u32_bound : N := 4294967296.

Definition show_u32 (n : N) : bytes := show_loop U32_DIGITS n.

(** [Display] of a [u64]: at most twenty digits. *)
Definition show_u64 (n : N) : bytes := show_loop 20 n.

Definition dec_value (s : bytes) : N :=
  fold_left (λ acc b, acc * 10 + digit_value b)%N s 0%N.

(** [s.parse::<u32>()] of a string of ASCII digits. *)
Definition parse_u32 (s : bytes) : option N :=
  let v := dec_value s in if (v <? u32_bound)%N then Some v else None.

Lemma digit_cases n : (n < 10)%N →
  n = 0%N ∨ n = 1%N ∨ n = 2%N ∨ n = 3%N ∨ n = 4%N ∨ n = 5%N ∨ n = 6%N ∨ n = 7%N ∨ n = 8%N ∨ n = 9%N.
Proof. lia. Qed.

Lemma digit_value_digit n : digit_value (digit n) = (n mod 10)%N.
Proof.
  unfold digit. pose proof (N.mod_lt n 10 ltac:(done)) as H.
  destruct (digit_cases _ H) as [E|[E|[E|[E|[E|[E|[E|[E|[E|E]]]]]]]]]; by rewrite E.
Qed.

Lemma digit_is_digit n : is_ascii_digit (digit n) = true.
Proof.
  unfold digit. pose proof (N.mod_lt n 10 ltac:(done)) as H.
  destruct (digit_cases _ H) as [E|[E|[E|[E|[E|[E|[E|[E|[E|E]]]]]]]]]; by rewrite E.
Qed.

Lemma dec_value_snoc s b : dec_value (s ++ [b]) = (dec_value s * 10 + digit_value b)%N.
Proof. unfold dec_value. by rewrite fold_left_app. Qed.

Lemma show_loop_value fuel n : (n < 10 ^ N.of_nat fuel)%N → dec_value (show_loop fuel n) = n.
Proof.
  revert n; induction fuel as [|fuel IH]; intros n Hn; [simpl in Hn; by assert (n = 0%N) as -> by lia|].
  cbn [show_loop]. destruct (N.ltb_spec n 10).
  - unfold dec_value; simpl. rewrite digit_value_digit. by rewrite N.mod_small.
  - rewrite dec_value_snoc, digit_value_digit, IH.
    + pose proof (N.div_mod n 10 ltac:(done)). lia.
    + rewrite Nat2N.inj_succ, N.pow_succ_r' in Hn. apply N.Div0.div_lt_upper_bound. lia.
Qed.

Lemma show_loop_digits fuel n : Forall (λ b, is_ascii_digit b = true) (show_loop fuel n).
Proof.
  revert n; induction fuel as [|fuel IH]; intros n; simpl; [constructor|].
  destruct (n <? 10)%N; [by rewrite Forall_singleton; apply digit_is_digit|].
  rewrite Forall_app, Forall_singleton. split; [done|apply digit_is_digit].
Qed.

Lemma show_u32_digits n : Forall (λ b, is_ascii_digit b = true) (show_u32 n).
Proof. apply show_loop_digits. Qed.

Lemma show_u32_nonempty n : show_u32 n ≠ [].
Proof.
  unfold show_u32, U32_DIGITS. cbn [show_loop]. destruct (n <? 10)%N; [done|].
  intros H. by apply app_eq_nil in H as [_ ?].
Qed.

Lemma parse_show_u32 n : (n < u32_bound)%N → parse_u32 (show_u32 n) = Some n.
Proof.
  intros H. unfold parse_u32, show_u32. rewrite show_loop_value.
  - by rewrite (proj2 (N.ltb_lt _ _)).
  - unfold u32_bound, U32_DIGITS in *. simpl. lia.
Qed.

Lemma digits_lack b l : is_ascii_digit b = false → Forall (λ b, is_ascii_digit b = true) l → b ∉ l.
Proof.
  intros Hb Hl Hin. rewrite Forall_forall in Hl. specialize (Hl _ Hin). simpl in Hl. congruence.
Qed.

(** ** Substring patterns *)

(** [s.contains(pat)]. *)
Definition contains (pat s : bytes) : bool := has_sub pat s.

(** [s.rfind(pat)], for a non-empty [pat]. *)
Fixpoint rfind_sub (pat s : bytes) : option nat :=
  match s with
  | [] => None
  | _ :: s' =>
      match rfind_sub pat s' with
      | Some n => Some (S n)
      | None => if starts_with pat s then Some 0 else None
      end
  end.

(** [s.split(pat)], for a non-empty [pat]: the matches do not overlap.  Each
    match consumes a byte, so [length s] matches are enough. *)
Fixpoint split_sub_loop (fuel : nat) (pat s : bytes) : list bytes :=
  match fuel, find_sub pat s with
  | S fuel, Some n => take n s :: split_sub_loop fuel pat (drop (n + length pat) s)
  | _, _ => [s]
  end.

Definition split_sub (pat s : bytes) : list bytes := split_sub_loop (length s) pat s.

(** [segs.join(sep)]. *)
Fixpoint join_sub (sep : bytes) (segs : list bytes) : bytes :=
  match segs with
  | [] => []
  | [seg] => seg
  | seg :: segs => seg ++ sep ++ join_sub sep segs
  end.

(** [s.replace(pat, by_)], for a non-empty [pat]. *)
Definition replace_sub (pat by_ s : bytes) : bytes := join_sub by_ (split_sub pat s).

(** [s.rsplit_once(pat)], for a non-empty [pat]. *)
Definition rsplit_once_sub (pat s : bytes) : option (bytes * bytes) :=
  n ← rfind_sub pat s; Some (take n s, drop (n + length pat) s).

(** [s.trim_end_matches(pat)], for a non-empty [pat]. *)
Fixpoint trim_end_loop (fuel : nat) (pat s : bytes) : bytes :=
  match fuel, strip_suffix pat s with
  | S fuel, Some s' => trim_end_loop fuel pat s'
  | _, _ => s
  end.

Definition trim_end_matches (pat s : bytes) : bytes := trim_end_loop (length s) pat s.

(** [s.chars()], each character as its bytes. *)
Fixpoint chars_loop (s : bytes) : list bytes :=
  match s with
  | [] => []
  | b :: s' =>
      match chars_loop s', s' with
      | c :: cs, d :: _ => if (N.land (Byte.to_N d) 192 =? 128)%N then (b :: c) :: cs else [b] :: c :: cs
      | cs, _ => [b] :: cs
      end
  end.

Definition chars (s : bytes) : list bytes := chars_loop s.

(** [v.pop()]: the vector without its last element. *)
Definition pop_last {A} (v : list A) : option (list A) :=
  match v with [] => None | _ => Some (removelast v) end.

Lemma pop_last_snoc {A} (v : list A) x : pop_last (v ++ [x]) = Some v.
Proof. unfold pop_last. rewrite removelast_last. by destruct v. Qed.

Lemma pop_last_Some {A} (v w : list A) : pop_last v = Some w → ∃ x, v = w ++ [x].
Proof. destruct v as [|x v _] using rev_ind; [done|]. rewrite pop_last_snoc. intros [= ->]. eauto. Qed.

Lemma pop_last_None {A} (v : list A) : pop_last v = None ↔ v = [].
Proof. by destruct v. Qed.

Lemma split_on_length c s : split_on c s ≠ [].
Proof. destruct s as [|b s]; simpl; [done|]. destruct (b =? c); [done|]. by destruct (split_on c s). Qed.

Lemma split_on_segments c s : Forall (λ seg, c ∉ seg) (split_on c s).
Proof.
  induction s as [|b s IH]; simpl; [by repeat constructor; apply not_elem_of_nil|].
  destruct (beq_spec b c) as [->|Hne]; [constructor; [apply not_elem_of_nil|done]|].
  destruct (split_on c s) as [|seg segs]; [repeat constructor; by rewrite list_elem_of_singleton|].
  apply Forall_cons in IH as [? ?]. constructor; [|done]. by rewrite not_elem_of_cons.
Qed.

Lemma split_join c segs : segs ≠ [] → Forall (λ seg, c ∉ seg) segs → split_on c (join_with c segs) = segs.
Proof.
  intros Hne H. induction segs as [|seg segs IH]; [done|]. apply Forall_cons in H as [Hc H].
  assert (∀ rest, split_on c (seg ++ c :: rest) = seg :: split_on c rest) as Hcons.
  { intros rest. clear IH. induction seg as [|b seg IH]; simpl; [by rewrite beq_refl|].
    apply not_elem_of_cons in Hc as [? ?]. destruct (beq_spec b c); [congruence|]. by rewrite IH. }
  destruct segs as [|seg2 segs].
  - cbn [join_with]. clear IH H Hcons. induction seg as [|b seg IH]; simpl; [done|].
    apply not_elem_of_cons in Hc as [? ?]. destruct (beq_spec b c); [congruence|]. by rewrite IH.
  - change (join_with c (seg :: seg2 :: segs)) with (seg ++ c :: join_with c (seg2 :: segs)).
    rewrite Hcons, IH; done.
Qed.

Lemma rfind_sub_Some pat s n : rfind_sub pat s = Some n → pat `prefix_of` drop n s.
Proof.
  revert n. induction s as [|b s IH]; intros n; cbn [rfind_sub]; [done|].
  destruct (rfind_sub pat s) as [k|]; [intros [= <-]; by apply IH|].
  destruct (starts_with pat (b :: s)) eqn:E; [|done]. intros [= <-]. by apply starts_with_true.
Qed.

Lemma rsplit_once_sub_contains pat s p : rsplit_once_sub pat s = Some p → contains pat s = true.
Proof.
  unfold rsplit_once_sub. destruct (rfind_sub pat s) as [n|] eqn:E; [|done]. intros _.
  apply has_sub_true. exists n. by apply rfind_sub_Some.
Qed.
