(* ===== verification/Utf8.v ===== *)
(** * Utf8: character boundaries and slices of a [str]

    A [&str] is its bytes; [utf8] is the structure every Rust [str] has.  An
    index is a character boundary when it is an end of the string or a byte that
    does not continue a character; slicing elsewhere panics. *)
From S2P Require Import Prelude Text.
From Stdlib Require Import Lia NArith.
Local Open Scope codesage_scope.

(** [(b & 0xC0) == 0x80]. *)
Definition is_continuation (b : byte) : bool := (N.land (Byte.to_N b) 192 =? 128)%N.

Definition is_ascii (b : byte) : bool := (Byte.to_N b <? 128)%N.

(** One encoded character: an ASCII byte, or a lead byte and one to three
    continuation bytes. *)
Definition utf8_char (ch : bytes) : Prop :=
  ∃ lead rest, ch = lead :: rest ∧ is_continuation lead = false
    ∧ Forall (λ b, is_continuation b = true) rest ∧ (is_ascii lead = true → rest = []) ∧ length rest ≤ 3.

Inductive utf8 : bytes → Prop :=
| utf8_nil : utf8 []
| utf8_cons ch s : utf8_char ch → utf8 s → utf8 (ch ++ s).

(** [str::is_char_boundary]. *)
Definition is_char_boundary (s : bytes) (i : nat) : bool :=
  match s !! i with
  | Some b => negb (is_continuation b)
  | None => Nat.eqb i (length s)
  end.

(** [&s[a..b]]. *)
Definition str_slice (a b : nat) (s : bytes) : outcome bytes :=
  if (a <=? b) && (b <=? length s) && is_char_boundary s a && is_char_boundary s b
  then Done (slice a b s) else Panic.

(** [s.chars().count()]. *)
Definition count_chars (s : bytes) : nat := length (List.filter (λ b, negb (is_continuation b)) s).

(** [s.char_indices().nth(n)]: the offset of character [n]. *)
Fixpoint nth_char (s : bytes) (n : nat) : option nat :=
  match s with
  | [] => None
  | b :: s' =>
      if is_continuation b then S <$> nth_char s' n
      else match n with 0 => Some 0 | S n' => S <$> nth_char s' n' end
  end.

(** ** The structure of UTF-8 at an index *)

Lemma utf8_head s b : utf8 s → s !! 0 = Some b → is_continuation b = false.
Proof. destruct 1 as [|ch s (l & r & -> & Hl & _) _]; [done|]. simpl. by intros [= <-]. Qed.

Lemma utf8_boundary_0 s : utf8 s → is_char_boundary s 0 = true.
Proof.
  intros H. unfold is_char_boundary. destruct (s !! 0) eqn:E; [by rewrite (utf8_head _ _ H E)|].
  apply lookup_ge_None in E. destruct s; [done|simpl in *; lia].
Qed.

Lemma boundary_end s : is_char_boundary s (length s) = true.
Proof. unfold is_char_boundary. rewrite lookup_ge_None_2 by lia. apply Nat.eqb_refl. Qed.

Lemma boundary_le s i : is_char_boundary s i = true → i ≤ length s.
Proof.
  unfold is_char_boundary. destruct (s !! i) eqn:E; [apply lookup_lt_Some in E; lia|].
  intros ->%Nat.eqb_eq. done.
Qed.

Lemma boundary_lookup s i b :
  s !! i = Some b → is_char_boundary s i = negb (is_continuation b).
Proof. unfold is_char_boundary. by intros ->. Qed.

(** After an ASCII byte comes a character boundary. *)
Lemma utf8_after_ascii s i b :
  utf8 s → s !! i = Some b → is_ascii b = true → is_char_boundary s (S i) = true.
Proof.
  intros H; revert i b; induction H as [|ch s Hch Hs IH]; intros i b Hi Ha; [done|].
  destruct Hch as (l & r & -> & Hl & Hr & Hasc & _).
  assert (∀ c, is_continuation c = true → is_ascii c = false) as Hca.
  { intros c. unfold is_continuation, is_ascii. destruct c; vm_compute; congruence. }
  destruct (decide (i < length (l :: r))) as [Hlt|Hge].
  - rewrite lookup_app_l in Hi by done. destruct i as [|i]; simpl in Hi.
    + injection Hi as <-. rewrite (Hasc Ha). simpl.
      pose proof (utf8_boundary_0 s Hs) as H0. unfold is_char_boundary in *. simpl.
      destruct (s !! 0); [done|]. by destruct s.
    + assert (is_continuation b = true) as Hc by (by eapply (Forall_lookup_1 _ _ _ _ Hr)).
      rewrite (Hca _ Hc) in Ha. done.
  - rewrite lookup_app_r in Hi by lia. specialize (IH _ _ Hi Ha).
    unfold is_char_boundary in *. rewrite lookup_app_r by lia.
    replace (S i - length (l :: r)) with (S (i - length (l :: r))) by lia.
    destruct (s !! S (i - length (l :: r))); [done|]. apply Nat.eqb_eq in IH. apply Nat.eqb_eq.
    rewrite length_app. lia.
Qed.

Lemma boundary_slice s a b i :
  a ≤ b → is_char_boundary s a = true → is_char_boundary s b = true → a + i ≤ b →
  is_char_boundary (slice a b s) i = is_char_boundary s (a + i).
Proof.
  intros Hab Ha Hb Hi. pose proof (boundary_le _ _ Hb).
  destruct (decide (a + i = b)) as [<-|Hne].
  - rewrite Hb. replace i with (length (slice a (a + i) s)) at 2 by (rewrite length_slice_in; lia).
    apply boundary_end.
  - unfold is_char_boundary. rewrite lookup_slice by lia.
    destruct (s !! (a + i)) eqn:E; [done|]. apply lookup_ge_None in E. lia.
Qed.

Lemma str_slice_Done a b s :
  a ≤ b → is_char_boundary s a = true → is_char_boundary s b = true →
  str_slice a b s = Done (slice a b s).
Proof.
  intros Hab Ha Hb. unfold str_slice. rewrite Ha, Hb, (proj2 (Nat.leb_le _ _) Hab).
  by rewrite (proj2 (Nat.leb_le _ _) (boundary_le _ _ Hb)).
Qed.

(** ** Characters of a slice *)

Definition chars_in (s : bytes) (a b : nat) : nat := count_chars (slice a b s).

Lemma count_chars_app s t : count_chars (s ++ t) = count_chars s + count_chars t.
Proof. unfold count_chars. by rewrite List.filter_app, length_app. Qed.

Lemma slice_split {A} (a b c : nat) (l : list A) :
  a ≤ b → b ≤ c → slice a c l = slice a b l ++ slice b c l.
Proof.
  intros Hab Hbc. unfold slice. replace (c - a) with ((b - a) + (c - b)) by lia.
  rewrite <- take_take_drop, drop_drop. do 3 f_equal. lia.
Qed.

Lemma slice_slice {A} (a b i j : nat) (l : list A) :
  a + j ≤ b → slice i j (slice a b l) = slice (a + i) (a + j) l.
Proof.
  intros H. unfold slice. rewrite skipn_firstn_comm, take_take, drop_drop. f_equal; lia.
Qed.

Lemma chars_in_split s a b c : a ≤ b → b ≤ c → chars_in s a c = chars_in s a b + chars_in s b c.
Proof. intros. unfold chars_in. by rewrite (slice_split a b c), count_chars_app. Qed.

Lemma chars_in_nil s a : chars_in s a a = 0.
Proof. unfold chars_in, slice. by rewrite Nat.sub_diag. Qed.

Lemma chars_in_mono s a b c : a ≤ b → b ≤ c → chars_in s b c ≤ chars_in s a c.
Proof. intros. rewrite (chars_in_split s a b c) by done. lia. Qed.

Lemma slice_cons {A} (a b : nat) (l : list A) x :
  a < b → l !! a = Some x → slice a b l = x :: slice (S a) b l.
Proof.
  intros Hab Hx. unfold slice. rewrite (drop_S _ _ _ Hx). replace (b - a) with (S (b - S a)) by lia. done.
Qed.

Lemma chars_in_step s a b x :
  a < b → s !! a = Some x →
  chars_in s a b = (if is_continuation x then 0 else 1) + chars_in s (S a) b.
Proof.
  intros Hab Hx. unfold chars_in. rewrite (slice_cons a b s x) by done.
  unfold count_chars. simpl. by destruct (is_continuation x).
Qed.

Lemma count_chars_length s : count_chars s ≤ length s.
Proof. unfold count_chars. apply List.filter_length_le. Qed.

Lemma nth_char_Some s n off :
  nth_char s n = Some off →
  off < length s ∧ is_char_boundary s off = true ∧ count_chars (take off s) = n ∧ n ≤ off.
Proof.
  revert n off; induction s as [|b s IH]; intros n off; [done|]. cbn [nth_char].
  assert (∀ k o, nth_char s k = Some o → (if is_continuation b then k else S k) = n →
    S o < length (b :: s) ∧ is_char_boundary (b :: s) (S o) = true
    ∧ count_chars (take (S o) (b :: s)) = n ∧ n ≤ S o) as Hstep.
  { intros k o Ho Hk. destruct (IH k o Ho) as (H1 & H2 & H3 & H4). split_and!; simpl; [lia|exact H2| |].
    - unfold count_chars in *. simpl. destruct (is_continuation b); simpl; lia.
    - destruct (is_continuation b); lia. }
  destruct (is_continuation b) eqn:Eb.
  - destruct (nth_char s n) as [o|] eqn:E; [|done]. intros [= <-]. by apply (Hstep n).
  - destruct n as [|n].
    + intros [= <-]. split_and!; [simpl; lia| |done|lia]. unfold is_char_boundary. simpl. by rewrite Eb.
    + destruct (nth_char s n) as [o|] eqn:E; [|done]. intros [= <-]. by apply (Hstep n).
Qed.

Lemma nth_char_None s n : nth_char s n = None → count_chars s ≤ n.
Proof.
  revert n; induction s as [|b s IH]; intros n; [simpl; intros _; unfold count_chars; simpl; lia|].
  cbn [nth_char]. unfold count_chars. cbn [List.filter]. destruct (is_continuation b); simpl.
  - destruct (nth_char s n) eqn:E; [done|]. intros _. by apply IH.
  - destruct n as [|n]; [done|]. destruct (nth_char s n) eqn:E; [done|]. intros _.
    specialize (IH n E). unfold count_chars in IH. lia.
Qed.

(** A prefix and a suffix cut at a boundary are strings. *)
Lemma utf8_cut s i : utf8 s → is_char_boundary s i = true → utf8 (take i s) ∧ utf8 (drop i s).
Proof.
  intros H; revert i; induction H as [|ch s Hch Hs IH]; intros i Hi.
  { rewrite take_nil, drop_nil. split; constructor. }
  destruct (decide (i = 0)) as [->|Hi0]; [rewrite drop_0; split; [constructor|by constructor]|].
  destruct (decide (i < length ch)) as [Hlt|Hge].
  - exfalso. destruct Hch as (l & r & -> & Hl & Hr & _). destruct i as [|i]; [done|].
    unfold is_char_boundary in Hi. rewrite lookup_app_l in Hi by done. simpl in Hi, Hlt.
    destruct (lookup_lt_is_Some_2 r i) as [b Hb]; [lia|]. rewrite Hb in Hi.
    assert (is_continuation b = true) as Hc by (by eapply (Forall_lookup_1 _ _ _ _ Hr)).
    by rewrite Hc in Hi.
  - destruct (IH (i - length ch)) as [H1 H2].
    { unfold is_char_boundary in *. rewrite lookup_app_r in Hi by lia.
      destruct (s !! (i - length ch)); [done|]. rewrite length_app in Hi.
      apply Nat.eqb_eq in Hi. apply Nat.eqb_eq. lia. }
    rewrite take_app_ge, drop_app_ge by lia. split; [by constructor|done].
Qed.

Lemma utf8_slice s a b :
  utf8 s → a ≤ b → is_char_boundary s a = true → is_char_boundary s b = true → utf8 (slice a b s).
Proof.
  intros H Hab Ha Hb. destruct (utf8_cut s a H Ha) as [_ Hd]. unfold slice.
  apply (utf8_cut (drop a s) (b - a) Hd).
  pose proof (boundary_le _ _ Hb). unfold is_char_boundary in *. rewrite lookup_drop.
  replace (a + (b - a)) with b by lia. destruct (s !! b); [done|]. rewrite length_drop.
  apply Nat.eqb_eq in Hb. apply Nat.eqb_eq. lia.
Qed.
