(* ===== verification/CLexer.v ===== *)
(** * CLexer: the token stream over C/C++ source

    Models [Lexer], [Token], [Kind] and the [skip_*] helpers of
    [src/crates/parser/src/export_macro.rs].  A lexer state is the pair of the
    fields [i] and [line_start] of the Rust struct; the source is passed beside
    it.  Byte loops that advance by one are [scan_while]; the two loops whose
    step depends on what they read ([skip_directive] and [Lexer::next]) carry
    fuel, and the lemmas below show that [length src - i] rounds are enough. *)
From S2P Require Import Prelude Text.
From Stdlib Require Import Lia.

Inductive Kind :=
| Ident
| Str
| Other
| Directive
| Punct (b : byte)
| Scope.

#[export] Instance kind_eq_decision : EqDecision Kind.
Proof. solve_decision. Defined.

Record Token := mkToken { tk_kind : Kind; tk_start : nat; tk_end : nat }.

(** ** Skipping helpers *)

Definition skip_line (src : bytes) (i : nat) : nat :=
  scan_while (λ b, negb (b =? LF)) src i.

Definition skip_block_comment (src : bytes) (i : nat) : nat :=
  match find_sub (bs "*/") (drop (i + 2) src) with
  | Some p => i + 2 + p + 2
  | None => length src
  end.

Fixpoint skip_directive_loop (fuel : nat) (src : bytes) (i : nat) : nat :=
  match fuel with
  | 0 => i
  | S fuel =>
      match src !! i with
      | None => i
      | Some b =>
          if b =? LF then i
          else if (b =? "\") && at_is src (i + 1) LF then
            skip_directive_loop fuel src (i + 2)
          else if (b =? "\") && at_is src (i + 1) CR && at_is src (i + 2) LF then
            skip_directive_loop fuel src (i + 3)
          else if (b =? "/") && at_is src (i + 1) "*" then
            skip_directive_loop fuel src (skip_block_comment src i)
          else if (b =? "/") && at_is src (i + 1) "/" then skip_line src i
          else skip_directive_loop fuel src (i + 1)
      end
  end%byte.

Definition skip_directive (src : bytes) (i : nat) : nat :=
  skip_directive_loop (length src - i) src i.

(** [rest] is [src[i..]] and [len] is [src.len()]. *)
Fixpoint skip_quoted_loop (quote : byte) (rest : bytes) (i len : nat) : nat :=
  match rest with
  | [] => len
  | c :: rest' =>
      if (c =? "\")%byte then
        match rest' with
        | [] => len
        | _ :: rest'' => skip_quoted_loop quote rest'' (i + 2) len
        end
      else if c =? LF then i
      else if c =? quote then i + 1
      else skip_quoted_loop quote rest' (i + 1) len
  end.

Definition skip_quoted (src : bytes) (i : nat) (quote : byte) : nat :=
  skip_quoted_loop quote (drop (i + 1) src) (i + 1) (length src).

Definition skip_raw_string (src : bytes) (quote : nat) : nat :=
  let delim_start := quote + 1 in
  match find_byte "("%byte (take 17 (drop delim_start src)) with
  | None => skip_quoted src quote x22
  | Some open =>
      let delim := slice delim_start (delim_start + open) src in
      let body := delim_start + open + 1 in
      let close := ")"%byte :: delim ++ [x22] in
      match find_sub close (drop body src) with
      | Some p => body + p + length close
      | None => length src
      end
  end.

(** [prev] is [src[i - 1]], read only for a sign byte. *)
Definition number_byte (prev c : byte) : bool :=
  (let exponent_sign :=
     ((c =? "+") || (c =? "-"))
     && ((prev =? "e") || (prev =? "E") || (prev =? "p") || (prev =? "P")) in
   is_ascii_alphanumeric c || ((c =? "_") || (c =? ".") || (c =? "'")) || exponent_sign)%byte.

Fixpoint skip_number_loop (prev : byte) (rest : bytes) (i : nat) : nat :=
  match rest with
  | c :: rest' => if number_byte prev c then skip_number_loop c rest' (i + 1) else i
  | [] => i
  end.

Definition skip_number (src : bytes) (i : nat) : nat :=
  skip_number_loop (default x00 (src !! (i - 1))) (drop i src) i.

(** ** [Lexer::next] *)

Definition is_ident_start (b : byte) : bool :=
  is_ascii_alphabetic b || (b =? "_")%byte || byte_in_range x80 xff b.

Definition is_ident_byte (b : byte) : bool :=
  is_ascii_alphanumeric b || (b =? "_")%byte || byte_in_range x80 xff b.

Definition RAW_PREFIXES : list bytes := [bs "R"; bs "LR"; bs "uR"; bs "UR"; bs "u8R"].

(** The token starting at [i] with first byte [b], and the index after it. *)
Definition lex_token (src : bytes) (i : nat) (b : byte) (at_line_start : bool) : Kind * nat :=
  (if (b =? "#") && at_line_start then (Directive, skip_directive src i)
   else if b =? x22 then (Str, skip_quoted src i x22)
   else if b =? "'" then (Str, skip_quoted src i "'")
   else if is_ascii_digit b
           || ((b =? ".") && match src !! (i + 1) with
                             | Some c => is_ascii_digit c | None => false end)
   then (Other, skip_number src i)
   else if is_ident_start b then
     let e := scan_while is_ident_byte src i in
     if at_is src e x22 && contains_word RAW_PREFIXES (slice i e src)
     then (Str, skip_raw_string src e)
     else (Ident, e)
   else if (b =? ":") && at_is src (i + 1) ":" then (Scope, i + 2)
   else (Punct b, i + 1))%byte.

Record Lexer := mkLexer { lx_i : nat; lx_line_start : bool }.

Definition lexer_new : Lexer := mkLexer 0 true.

Fixpoint next_loop (fuel : nat) (src : bytes) (i : nat) (line_start : bool)
    : option Token * Lexer :=
  match fuel with
  | 0 => (None, mkLexer i line_start)
  | S fuel =>
      match src !! i with
      | None => (None, mkLexer i line_start)
      | Some b =>
          if b =? LF then next_loop fuel src (i + 1) true
          else if is_ascii_whitespace b then next_loop fuel src (i + 1) line_start
          else if (b =? "/")%byte && at_is src (i + 1) "/" then
            next_loop fuel src (skip_line src i) line_start
          else if (b =? "/")%byte && at_is src (i + 1) "*" then
            next_loop fuel src (skip_block_comment src i) line_start
          else
            let '(kind, e) := lex_token src i b line_start in
            (Some (mkToken kind i e), mkLexer e false)
      end
  end.

Definition lexer_next (src : bytes) (lx : Lexer) : option Token * Lexer :=
  next_loop (S (length src - lx_i lx)) src (lx_i lx) (lx_line_start lx).

(** [Lexer::new(src).collect()]. *)
Fixpoint collect (fuel : nat) (src : bytes) (lx : Lexer) : list Token :=
  match fuel with
  | 0 => []
  | S fuel =>
      match lexer_next src lx with
      | (Some t, lx') => t :: collect fuel src lx'
      | (None, _) => []
      end
  end.

Definition tokenize (src : bytes) : list Token := collect (S (length src)) src lexer_new.

Definition text (t : Token) (src : bytes) : bytes := slice (tk_start t) (tk_end t) src.

(** ** Progress and bounds of the helpers

    Each helper starts at a byte of [src] and stops strictly later, inside
    [src]: the [while] loops terminate and no later slice is out of range. *)

Create HintDb lexer.

Lemma at_is_bound src i b : at_is src i b = true → i < length src.
Proof. rewrite at_is_true. apply lookup_lt_Some. Qed.

Lemma skip_line_bounds src i :
  i ≤ length src → i ≤ skip_line src i ≤ length src.
Proof. intros. unfold skip_line. split; [apply scan_while_ge | by apply scan_while_le]. Qed.

Lemma skip_line_progress src i b :
  src !! i = Some b → b ≠ LF → i < skip_line src i.
Proof.
  intros Hi Hb. apply (scan_while_step _ _ _ b); [done|]. by rewrite (proj2 (beq_false b LF)).
Qed.

Lemma skip_block_comment_bounds src i :
  i + 2 ≤ length src → i + 2 ≤ skip_block_comment src i ≤ length src.
Proof.
  intros. unfold skip_block_comment.
  destruct (find_sub _ _) as [p|] eqn:E; [|lia].
  apply find_sub_bound in E. rewrite length_drop in E. simpl in E. lia.
Qed.

Lemma skip_directive_loop_bounds fuel src i :
  i ≤ length src → i ≤ skip_directive_loop fuel src i ≤ length src.
Proof.
  revert i; induction fuel as [|fuel IH]; intros i Hi; cbn [skip_directive_loop]; [lia|].
  destruct (src !! i) as [b|] eqn:Hb; [|lia].
  apply lookup_lt_Some in Hb.
  destruct (b =? LF); [lia|].
  destruct (_ && at_is src (i + 1) LF) eqn:E1.
  { apply andb_true_iff in E1 as [_ ?%at_is_bound]. specialize (IH (i + 2)). lia. }
  destruct (_ && at_is src (i + 2) LF) eqn:E2.
  { apply andb_true_iff in E2 as [_ ?%at_is_bound]. specialize (IH (i + 3)). lia. }
  destruct (_ && at_is src (i + 1) "*") eqn:E3.
  { apply andb_true_iff in E3 as [_ ?%at_is_bound].
    pose proof (skip_block_comment_bounds src i). specialize (IH (skip_block_comment src i)). lia. }
  destruct (_ && at_is src (i + 1) "/"); [apply skip_line_bounds; lia|].
  specialize (IH (i + 1)). lia.
Qed.

(** Enough fuel: any two fuels of at least [length src - i] agree. *)
Lemma skip_directive_loop_fuel f1 f2 src i :
  i ≤ length src → length src - i ≤ f1 → length src - i ≤ f2 →
  skip_directive_loop f1 src i = skip_directive_loop f2 src i.
Proof.
  revert f2 i; induction f1 as [|f1 IH]; intros f2 i Hi H1 H2.
  { assert (src !! i = None) as E by (apply lookup_ge_None; lia).
    destruct f2; cbn [skip_directive_loop]; by rewrite ?E. }
  destruct f2 as [|f2].
  { assert (src !! i = None) as E by (apply lookup_ge_None; lia).
    cbn [skip_directive_loop]; by rewrite ?E. }
  cbn [skip_directive_loop]. destruct (src !! i) as [b|] eqn:Hb; [|done].
  apply lookup_lt_Some in Hb.
  destruct (b =? LF); [done|].
  destruct (_ && at_is src (i + 1) LF) eqn:E1.
  { apply andb_true_iff in E1 as [_ ?%at_is_bound]. apply IH; lia. }
  destruct (_ && at_is src (i + 2) LF) eqn:E2.
  { apply andb_true_iff in E2 as [_ ?%at_is_bound]. apply IH; lia. }
  destruct (_ && at_is src (i + 1) "*") eqn:E3.
  { apply andb_true_iff in E3 as [_ ?%at_is_bound].
    pose proof (skip_block_comment_bounds src i). apply IH; lia. }
  destruct (_ && at_is src (i + 1) "/"); [done|]. apply IH; lia.
Qed.

Lemma skip_directive_bounds src i b :
  src !! i = Some b → b = "#"%byte → i < skip_directive src i ≤ length src.
Proof.
  intros Hi ->. pose proof (lookup_lt_Some _ _ _ Hi). unfold skip_directive.
  destruct (length src - i) as [|f] eqn:E; [lia|]. cbn [skip_directive_loop].
  rewrite Hi. simpl.
  pose proof (skip_directive_loop_bounds f src (i + 1)). lia.
Qed.

Lemma skip_quoted_loop_bounds quote rest i :
  i ≤ skip_quoted_loop quote rest i (i + length rest) ≤ i + length rest.
Proof.
  remember (length rest) as n eqn:Hn. revert rest i Hn.
  induction (lt_wf n) as [n _ IH]; intros rest i ->.
  destruct rest as [|c rest]; simpl; [lia|].
  destruct (c =? "\")%byte.
  { destruct rest as [|d rest]; simpl; [lia|].
    pose proof (IH (length rest) ltac:(simpl; lia) rest (i + 2) eq_refl) as IH'.
    replace (i + S (S (length rest))) with (i + 2 + length rest) by lia. lia. }
  destruct (c =? LF); [lia|]. destruct (c =? quote); [lia|].
  pose proof (IH (length rest) ltac:(simpl; lia) rest (i + 1) eq_refl) as IH'.
  replace (i + S (length rest)) with (i + 1 + length rest) by lia. lia.
Qed.

Lemma skip_quoted_bounds src i quote :
  i < length src → i < skip_quoted src i quote ≤ length src.
Proof.
  intros Hi. unfold skip_quoted.
  pose proof (skip_quoted_loop_bounds quote (drop (i + 1) src) (i + 1)) as H.
  rewrite length_drop in H. replace (i + 1 + (length src - (i + 1))) with (length src) in H by lia.
  lia.
Qed.

Lemma skip_raw_string_bounds src q :
  q < length src → q < skip_raw_string src q ≤ length src.
Proof.
  intros Hq. unfold skip_raw_string, find_byte.
  destruct (find_sub _ (take 17 _)) as [open|] eqn:E; [|by apply skip_quoted_bounds].
  apply find_sub_bound in E. rewrite length_take, length_drop in E.
  simpl in E. destruct (find_sub _ _) as [p|] eqn:Ep; [|lia].
  apply find_sub_bound in Ep. rewrite length_drop in Ep.
  simpl in *. rewrite length_app in *. simpl in *. lia.
Qed.

Lemma skip_number_loop_bounds prev rest i :
  i ≤ skip_number_loop prev rest i ≤ i + length rest.
Proof.
  revert prev i; induction rest as [|c rest IH]; intros prev i; simpl; [lia|].
  destruct (number_byte prev c); [|lia]. specialize (IH c (i + 1)). lia.
Qed.

Lemma number_byte_start prev b :
  is_ascii_digit b = true ∨ b = "."%byte → number_byte prev b = true.
Proof.
  intros [H| ->]; unfold number_byte.
  - unfold is_ascii_alphanumeric. rewrite H. by rewrite orb_true_r.
  - done.
Qed.

Lemma skip_number_bounds src i b :
  src !! i = Some b → is_ascii_digit b = true ∨ b = "."%byte →
  i < skip_number src i ≤ length src.
Proof.
  intros Hi Hb. unfold skip_number. pose proof (lookup_lt_Some _ _ _ Hi).
  rewrite (drop_S _ b) by done. cbn [skip_number_loop].
  rewrite number_byte_start by done.
  pose proof (skip_number_loop_bounds b (drop (S i) src) (i + 1)) as H'.
  rewrite length_drop in H'. lia.
Qed.

Lemma is_ident_start_byte b : is_ident_start b = true → is_ident_byte b = true.
Proof.
  unfold is_ident_start, is_ident_byte, is_ascii_alphanumeric.
  rewrite !orb_true_iff. intros [[?|?]|?]; auto.
Qed.

Lemma lex_token_bounds src i b ls k e :
  src !! i = Some b → lex_token src i b ls = (k, e) → i < e ≤ length src.
Proof.
  intros Hi. pose proof (lookup_lt_Some _ _ _ Hi) as Hlt. unfold lex_token.
  destruct (_ && ls) eqn:E0.
  { apply andb_true_iff in E0 as [->%beq_true _]. intros [= <- <-].
    by eapply skip_directive_bounds. }
  destruct (b =? x22). { intros [= <- <-]. by apply skip_quoted_bounds. }
  destruct (b =? "'")%byte. { intros [= <- <-]. by apply skip_quoted_bounds. }
  destruct (is_ascii_digit b || _) eqn:E1.
  { intros [= <- <-]. apply (skip_number_bounds src i b); [done|].
    apply orb_true_iff in E1 as [?|[?%beq_true _]%andb_true_iff]; auto. }
  destruct (is_ident_start b) eqn:E2.
  { pose proof (scan_while_step is_ident_byte src i b Hi (is_ident_start_byte _ E2)).
    pose proof (scan_while_le is_ident_byte src i ltac:(lia)).
    cbv zeta. destruct (at_is _ _ _ && _) eqn:E3; [|intros [= <- <-]; lia]. intros [= <- <-].
    apply andb_true_iff in E3 as [?%at_is_bound _].
    pose proof (skip_raw_string_bounds src (scan_while is_ident_byte src i)). lia. }
  destruct (_ && at_is src (i + 1) ":") eqn:E3; [|intros [= <- <-]; lia]. intros [= <- <-].
  apply andb_true_iff in E3 as [_ ?%at_is_bound]. lia.
Qed.

(** ** Declarative lexing

    [trivia src i ls j ls'] : the bytes [i..j) are whitespace and comments;
    [ls] and [ls'] are the [line_start] flag before and after.  Only a line
    break outside comments sets the flag. *)
Inductive trivia (src : bytes) : nat → bool → nat → bool → Prop :=
| trivia_nil i ls : trivia src i ls i ls
| trivia_newline i ls j ls' :
    src !! i = Some LF → trivia src (i + 1) true j ls' → trivia src i ls j ls'
| trivia_space i b ls j ls' :
    src !! i = Some b → b ≠ LF → is_ascii_whitespace b = true →
    trivia src (i + 1) ls j ls' → trivia src i ls j ls'
| trivia_line_comment i ls j ls' :
    src !! i = Some "/"%byte → src !! (i + 1) = Some "/"%byte →
    trivia src (skip_line src i) ls j ls' → trivia src i ls j ls'
| trivia_block_comment i ls j ls' :
    src !! i = Some "/"%byte → src !! (i + 1) = Some "*"%byte →
    trivia src (skip_block_comment src i) ls j ls' → trivia src i ls j ls'.

(** A byte at which a token, not trivia, starts. *)
Definition starts_token (src : bytes) (i : nat) (b : byte) : Prop :=
  src !! i = Some b ∧ is_ascii_whitespace b = false
  ∧ ((b =? "/")%byte && at_is src (i + 1) "/") = false
  ∧ ((b =? "/")%byte && at_is src (i + 1) "*") = false.

(** [lexes src i ls toks]: from offset [i], the rest of [src] is exactly the
    tokens [toks] separated by trivia, with nothing left over. *)
Inductive lexes (src : bytes) : nat → bool → list Token → Prop :=
| lexes_end i ls ls' :
    trivia src i ls (length src) ls' → lexes src i ls []
| lexes_token i ls j ls' b k e toks :
    trivia src i ls j ls' → starts_token src j b →
    lex_token src j b ls' = (k, e) → lexes src e false toks →
    lexes src i ls (mkToken k j e :: toks).

Lemma trivia_bounds src i ls j ls' :
  trivia src i ls j ls' → i ≤ length src → i ≤ j ≤ length src.
Proof.
  induction 1 as [|? ? ? ? Hi _ IH|? ? ? ? ? Hi ? _ _ IH|? ? ? ? Hi Hi' _ IH|? ? ? ? Hi Hi' _ IH];
    intros Hle; [lia|..]; apply lookup_lt_Some in Hi.
  - specialize (IH ltac:(lia)). lia.
  - specialize (IH ltac:(lia)). lia.
  - pose proof (skip_line_bounds src i Hle). specialize (IH ltac:(lia)). lia.
  - apply lookup_lt_Some in Hi'. pose proof (skip_block_comment_bounds src i ltac:(lia)).
    specialize (IH ltac:(lia)). lia.
Qed.

Lemma ascii_newline_whitespace : is_ascii_whitespace LF = true.
Proof. done. Qed.

(** What one call of [Lexer::next] does, for any sufficient fuel. *)
Lemma next_loop_spec fuel src i ls :
  i ≤ length src → length src - i < fuel →
  match next_loop fuel src i ls with
  | (None, lx) => lx_i lx = length src ∧ trivia src i ls (length src) (lx_line_start lx)
  | (Some t, lx) =>
      ∃ ls' b, trivia src i ls (tk_start t) ls' ∧ starts_token src (tk_start t) b
        ∧ lex_token src (tk_start t) b ls' = (tk_kind t, tk_end t)
        ∧ lx = mkLexer (tk_end t) false
  end.
Proof.
  revert i ls; induction fuel as [|fuel IH]; intros i ls Hi Hf; [lia|]. cbn [next_loop].
  destruct (src !! i) as [b|] eqn:Hb.
  2:{ apply lookup_ge_None in Hb. assert (i = length src) as -> by lia. simpl.
      split; [done|constructor]. }
  pose proof (lookup_lt_Some _ _ _ Hb) as Hlt.
  (* one round of trivia, then the induction hypothesis from [j] *)
  assert (∀ j ls1, i < j ≤ length src →
      (∀ k ls', trivia src j ls1 k ls' → trivia src i ls k ls') →
      match next_loop fuel src j ls1 with
      | (None, lx) => lx_i lx = length src ∧ trivia src i ls (length src) (lx_line_start lx)
      | (Some t, lx) => ∃ ls' b, trivia src i ls (tk_start t) ls' ∧ starts_token src (tk_start t) b
          ∧ lex_token src (tk_start t) b ls' = (tk_kind t, tk_end t) ∧ lx = mkLexer (tk_end t) false
      end) as Hround.
  { intros j ls1 Hj Htr. specialize (IH j ls1 ltac:(lia) ltac:(lia)).
    destruct (next_loop fuel src j ls1) as [[t|] lx].
    - destruct IH as (ls' & c & ? & ?). exists ls', c. split; auto.
    - destruct IH as [? ?]. auto. }
  destruct (beq_spec b LF) as [->|HnLF].
  { apply Hround; [lia|]. intros. by apply trivia_newline. }
  destruct (is_ascii_whitespace b) eqn:Hws.
  { apply Hround; [lia|]. intros. by eapply trivia_space. }
  destruct (_ && at_is src (i + 1) "/") eqn:Hl.
  { apply andb_true_iff in Hl as [->%beq_true Hl]. pose proof (skip_line_bounds src i Hi).
    pose proof (skip_line_progress src i _ Hb HnLF). apply Hround; [lia|].
    intros. apply trivia_line_comment; [done| |done]. by apply at_is_true. }
  destruct (_ && at_is src (i + 1) "*") eqn:Hc.
  { apply andb_true_iff in Hc as [->%beq_true Hc]. pose proof (at_is_bound _ _ _ Hc).
    pose proof (skip_block_comment_bounds src i ltac:(lia)). apply Hround; [lia|].
    intros. apply trivia_block_comment; [done| |done]. by apply at_is_true. }
  destruct (lex_token src i b ls) as [k e] eqn:Hlex. simpl.
  exists ls, b. repeat split; try done. constructor.
Qed.

Lemma next_token_bounds fuel src i ls t lx :
  i ≤ length src → length src - i < fuel → next_loop fuel src i ls = (Some t, lx) →
  i ≤ tk_start t ∧ tk_start t < tk_end t ≤ length src ∧ lx = mkLexer (tk_end t) false.
Proof.
  intros Hi Hf Hn. pose proof (next_loop_spec fuel src i ls Hi Hf) as H. rewrite Hn in H.
  destruct H as (ls' & b & Htr & (Hb & _) & Hlex & ->).
  apply trivia_bounds in Htr; [|done]. apply (lex_token_bounds _ _ _ _ _ _ Hb) in Hlex.
  split_and!; [lia..|done].
Qed.

Lemma collect_lexes fuel src lx :
  lx_i lx ≤ length src → length src - lx_i lx < fuel →
  lexes src (lx_i lx) (lx_line_start lx) (collect fuel src lx).
Proof.
  revert lx; induction fuel as [|fuel IH]; intros lx Hi Hf; [lia|]. cbn [collect].
  unfold lexer_next. set (nf := S (length src - lx_i lx)).
  pose proof (next_loop_spec nf src (lx_i lx) (lx_line_start lx) Hi ltac:(lia)) as H.
  destruct (next_loop nf src (lx_i lx) (lx_line_start lx)) as [[t|] lx'] eqn:E.
  - pose proof (next_token_bounds nf _ _ _ _ _ Hi ltac:(lia) E) as (Hb1 & Hb2 & _).
    destruct H as (ls' & b & Htr & Hst & Hlex & ->). destruct t as [k s e]; simpl in *.
    eapply lexes_token; [done..|]. apply (IH (mkLexer e false)); simpl; lia.
  - destruct H as [_ H]. by eapply lexes_end.
Qed.

(** [lexes] is deterministic, so it specifies the token list completely. *)
Definition tokens_in (src : bytes) : nat → list Token → Prop :=
  fix go lo toks :=
    match toks with
    | [] => True
    | t :: toks' => lo ≤ tk_start t ∧ tk_start t < tk_end t ≤ length src ∧ go (tk_end t) toks'
    end.

Lemma lexes_tokens_in src i ls toks :
  i ≤ length src → lexes src i ls toks → tokens_in src i toks.
Proof.
  intros Hi H; revert Hi; induction H as [|i ls j ls' b k e toks Htr [Hb _] Hlex H IH];
    intros Hi; simpl; [done|].
  apply trivia_bounds in Htr; [|done]. apply (lex_token_bounds _ _ _ _ _ _ Hb) in Hlex.
  split_and!; [lia..|]. apply IH. lia.
Qed.

Lemma tokenize_lexes src : lexes src 0 true (tokenize src).
Proof. apply (collect_lexes (S (length src)) src lexer_new); simpl; lia. Qed.

Lemma tokenize_in src : tokens_in src 0 (tokenize src).
Proof. eapply lexes_tokens_in; [lia|apply tokenize_lexes]. Qed.

Lemma tokens_in_elem src lo toks t :
  tokens_in src lo toks → t ∈ toks → lo ≤ tk_start t ∧ tk_start t < tk_end t ≤ length src.
Proof.
  revert lo; induction toks as [|u toks IH]; intros lo; simpl; [by intros _ ?%not_elem_of_nil|].
  intros (? & ? & H) [->|Ht]%elem_of_cons; [lia|]. specialize (IH _ H Ht). lia.
Qed.

Lemma tokens_in_lookup src lo toks j t :
  tokens_in src lo toks → toks !! j = Some t →
  lo ≤ tk_start t ∧ tk_start t < tk_end t ≤ length src.
Proof. intros H Ht. eapply tokens_in_elem; [done|]. by eapply list_elem_of_lookup_2. Qed.

Lemma tokens_in_mono src lo toks i j ti tj :
  tokens_in src lo toks → toks !! i = Some ti → toks !! j = Some tj → i < j →
  tk_end ti ≤ tk_start tj.
Proof.
  revert lo i j; induction toks as [|u toks IH]; intros lo i j; simpl; [done|].
  intros (? & ? & H) Hi Hj Hij. destruct j as [|j]; [lia|]. simpl in Hj.
  destruct i as [|i]; simpl in Hi.
  - simplify_eq. by apply (tokens_in_lookup _ _ _ _ _ H) in Hj as [? _].
  - eapply IH; eauto. lia.
Qed.

#[export] Hint Resolve tokenize_in : lexer.

(** ** Determinism of the specification *)

Definition trivia_step (src : bytes) (i : nat) (ls : bool) : option (nat * bool) :=
  b ← src !! i;
  if b =? LF then Some (i + 1, true)
  else if is_ascii_whitespace b then Some (i + 1, ls)
  else if (b =? "/")%byte && at_is src (i + 1) "/" then Some (skip_line src i, ls)
  else if (b =? "/")%byte && at_is src (i + 1) "*" then Some (skip_block_comment src i, ls)
  else None.

Inductive trivia_steps (src : bytes) : nat → bool → nat → bool → Prop :=
| trivia_steps_refl i ls : trivia_steps src i ls i ls
| trivia_steps_step i ls k lk j lj :
    trivia_step src i ls = Some (k, lk) → trivia_steps src k lk j lj →
    trivia_steps src i ls j lj.

Lemma trivia_is_steps src i ls j ls' :
  trivia src i ls j ls' → trivia_steps src i ls j ls'.
Proof.
  induction 1 as [| ? ? ? ? Hb _ IH|? b ? ? ? Hb Hne Hws _ IH|? ? ? ? Hb Hb' _ IH
                 |? ? ? ? Hb Hb' _ IH]; [constructor|..];
    (eapply trivia_steps_step; [|exact IH]); unfold trivia_step; rewrite Hb; simpl.
  - done.
  - by rewrite (proj2 (beq_false _ _) Hne), Hws.
  - by rewrite (proj2 (at_is_true src _ _) Hb').
  - unfold at_is. by rewrite Hb'.
Qed.

Definition trivia_stop (src : bytes) (j : nat) : Prop :=
  j = length src ∨ ∃ b, starts_token src j b.

Lemma trivia_stop_step src j ls : trivia_stop src j → trivia_step src j ls = None.
Proof.
  unfold trivia_step. intros [->|(b & -> & Hws & Hl & Hc)]; simpl.
  - by rewrite lookup_ge_None_2.
  - destruct (beq_spec b LF) as [->|]; [done|]. by rewrite Hws, Hl, Hc.
Qed.

Lemma trivia_deterministic src i ls j lj k lk :
  trivia src i ls j lj → trivia_stop src j →
  trivia src i ls k lk → trivia_stop src k → j = k ∧ lj = lk.
Proof.
  intros Hj%trivia_is_steps Sj Hk%trivia_is_steps Sk.
  induction Hj as [i ls|i ls m lm j lj Hs _ IH]; inversion Hk as [|? ? ? ? ? ? Hs' ?];
    simplify_eq; rewrite ?(trivia_stop_step _ _ _ Sj), ?(trivia_stop_step _ _ _ Sk) in *;
    naive_solver.
Qed.

Lemma lexes_deterministic src i ls t1 t2 :
  lexes src i ls t1 → lexes src i ls t2 → t1 = t2.
Proof.
  intros H1. revert t2.
  induction H1 as [i ls ls1 Ht|i ls j ls1 b k e toks Ht Hst Hlex _ IH];
    intros t2; inversion 1 as [? ? ? Ht'|? ? j' ? b' k' e' toks' Ht' Hst' Hlex' Hrest]; subst.
  - done.
  - destruct (trivia_deterministic _ _ _ _ _ _ _ Ht (or_introl eq_refl) Ht') as [<- _];
      [right; eauto|]. destruct Hst' as [Hl _]. by rewrite lookup_ge_None_2 in Hl.
  - destruct (trivia_deterministic _ _ _ _ _ _ _ Ht' (or_introl eq_refl) Ht) as [<- _];
      [right; eauto|]. destruct Hst as [Hl _]. by rewrite lookup_ge_None_2 in Hl.
  - destruct (trivia_deterministic _ _ _ _ _ _ _ Ht (or_intror (ex_intro _ _ Hst)) Ht'
                (or_intror (ex_intro _ _ Hst'))) as [<- <-].
    destruct Hst as [Hb _], Hst' as [Hb' _]. simplify_eq. rewrite Hlex in Hlex'. simplify_eq. f_equal. by apply IH.
Qed.

(** ** Shape of the tokens *)

Lemma lexes_elem src i ls toks t :
  lexes src i ls toks → t ∈ toks →
  ∃ ls' b, starts_token src (tk_start t) b ∧
    lex_token src (tk_start t) b ls' = (tk_kind t, tk_end t).
Proof.
  induction 1 as [|? ? ? ls' b ? ? ? ? Hst Hlex ? IH]; [by intros ?%not_elem_of_nil|].
  intros [->|?]%elem_of_cons; [|auto]. by exists ls', b.
Qed.

(** An identifier token is a maximal run of identifier bytes. *)
Lemma ident_token src t :
  t ∈ tokenize src → tk_kind t = Ident →
  tk_end t = scan_while is_ident_byte src (tk_start t).
Proof.
  intros Ht Hk. destruct (lexes_elem _ _ _ _ _ (tokenize_lexes src) Ht) as (ls & b & _ & Hlex).
  revert Hlex. rewrite Hk. unfold lex_token. cbv zeta.
  repeat (match goal with |- context [if ?c then _ else _] => destruct c end); congruence.
Qed.

Lemma directive_token src t :
  t ∈ tokenize src → tk_kind t = Directive → src !! tk_start t = Some "#"%byte.
Proof.
  intros Ht Hk.
  destruct (lexes_elem _ _ _ _ _ (tokenize_lexes src) Ht) as (ls & b & [Hb _] & Hlex).
  revert Hlex. rewrite Hk. unfold lex_token. cbv zeta.
  destruct (beq_spec b "#") as [->|]; [done|]. simpl.
  repeat (match goal with |- context [if ?c then _ else _] => destruct c end); congruence.
Qed.

Lemma punct_token src t b :
  t ∈ tokenize src → tk_kind t = Punct b →
  tk_end t = tk_start t + 1 ∧ src !! tk_start t = Some b.
Proof.
  intros Ht Hk.
  destruct (lexes_elem _ _ _ _ _ (tokenize_lexes src) Ht) as (ls & c & [Hb _] & Hlex).
  revert Hlex. rewrite Hk. unfold lex_token. cbv zeta.
  repeat (match goal with |- context [if ?c then _ else _] => destruct c end); naive_solver.
Qed.

(** ** The specification of the lexer *)

