(* ===== verification/ExportMacro.v ===== *)
(** * ExportMacro: neutralising export macros before the parser

    Models [neutralize], [neutralize_c], [directives_only] and their helpers in
    [src/crates/parser/src/export_macro.rs].  The token list comes from
    [CLexer]; the overwriting step is written in the [outcome] monad, and the
    theorems show that no slice access panics, that the parser's copy has the
    layout of the source, and that the substring gates change no result. *)
From S2P Require Import Prelude CLexer.
From Stdlib Require Import Lia.
Local Open Scope byte_scope.
Local Open Scope codesage_scope.

(** ** Tables and limits *)

Definition SUFFIXES : list bytes :=
  [bs "_API"; bs "_EXPORT"; bs "_IMPORT"; bs "_DLLEXPORT"; bs "_DEPRECATED"].

Definition MAX_ARGS_BYTES : nat := 512.

Definition CLASS_KEYS : list bytes := [bs "class"; bs "struct"; bs "union"; bs "enum"].

Definition SPECIFIER_KEYS : list bytes :=
  [bs "static"; bs "inline"; bs "virtual"; bs "explicit"; bs "friend"; bs "constexpr";
   bs "extern"; bs "template"].

Definition MAX_MACRO_RUN : nat := 8.
Definition MAX_HEAD_TOKENS : nat := 64.

Definition C_MACROS : list bytes :=
  [bs "PHPAPI"; bs "ZEND_COLD"; bs "ZEND_FASTCALL"; bs "ZEND_NORETURN"].

Definition C_QUALIFIERS : list bytes :=
  [bs "const"; bs "volatile"; bs "restrict"; bs "static"; bs "inline"; bs "extern";
   bs "register"; bs "_Noreturn"; bs "_Atomic"; bs "_Thread_local"; bs "thread_local";
   bs "constexpr"; bs "struct"; bs "union"; bs "enum"].

Definition QUALIFIER_KEYS : list bytes :=
  [bs "const"; bs "volatile"; bs "static"; bs "inline"; bs "virtual"; bs "explicit";
   bs "friend"; bs "constexpr"; bs "consteval"; bs "constinit"; bs "extern"; bs "mutable";
   bs "typename"; bs "thread_local"; bs "register"; bs "struct"; bs "class"; bs "enum";
   bs "union"].

Definition PRIMITIVE_KEYS : list bytes :=
  [bs "void"; bs "bool"; bs "char"; bs "wchar_t"; bs "char8_t"; bs "char16_t"; bs "char32_t";
   bs "short"; bs "int"; bs "long"; bs "float"; bs "double"; bs "signed"; bs "unsigned";
   bs "auto"].

(** How a qualifying macro is overwritten. *)
Inductive Form := Spaces | Attribute | CSpecifier.

#[export] Instance form_eq_decision : EqDecision Form.
Proof. solve_decision. Defined.

Record MacroSpan := mkSpan { ms_start : nat; ms_end : nat; ms_form : Form }.

(** ** Token predicates *)

Definition kind_of (toks : list Token) (i : nat) : option Kind := tk_kind <$> toks !! i.

Definition punct_in (k : option Kind) (ps : list byte) : bool :=
  match k with Some (Punct b) => existsb (Byte.eqb b) ps | _ => false end.

Definition is_kind (k : Kind) (t : Token) : bool := bool_decide (tk_kind t = k).

Definition is_candidate (w : bytes) : bool :=
  if negb (match w with b :: _ => is_ascii_uppercase b | [] => false end)
     || negb (forallb (λ b, is_ascii_uppercase b || is_ascii_digit b || (b =? "_")) w)
  then false
  else existsb (λ s, (length s + 2 <=? length w) && ends_with s w) SUFFIXES.

Definition ident_is (t : option Token) (source : bytes) (words : list bytes) : bool :=
  match t with
  | Some t => is_kind Ident t && contains_word words (text t source)
  | None => false
  end.

(** ** [after_args] and runs of candidates *)

(** [rest] is [tokens[j..]]; the depth is at least one after the first token,
    an open parenthesis, so [depth - 1] does not underflow. *)
Fixpoint after_args_loop (rest : list Token) (j depth limit : nat) : option nat :=
  match rest with
  | [] => None
  | t :: rest' =>
      if limit <? tk_start t then None
      else match tk_kind t with
           | Punct b =>
               if b =? "(" then after_args_loop rest' (j + 1) (depth + 1) limit
               else if b =? ")" then
                 if Nat.eqb (depth - 1) 0 then Some (j + 1)
                 else after_args_loop rest' (j + 1) (depth - 1) limit
               else if (b =? ";") || (b =? "{") || (b =? "}") then None
               else after_args_loop rest' (j + 1) depth limit
           | Directive => None
           | _ => after_args_loop rest' (j + 1) depth limit
           end
  end.

Definition after_args (tokens : list Token) (i : nat) : option nat :=
  let open := i + 1 in
  match tokens !! open with
  | Some t =>
      if is_kind (Punct "(") t then
        after_args_loop (drop open tokens) open 0 (tk_start t + MAX_ARGS_BYTES)
      else Some open
  | None => Some open
  end.

(** [n] rounds of [for _ in 0..MAX_MACRO_RUN]. *)
Fixpoint skip_candidates_loop (n : nat) (tokens : list Token) (source : bytes) (j : nat) : nat :=
  match n with
  | 0 => j
  | S n =>
      match tokens !! j with
      | None => j
      | Some t =>
          if negb (is_kind Ident t) || negb (is_candidate (text t source)) then j
          else match after_args tokens j with
               | Some next => skip_candidates_loop n tokens source next
               | None => j
               end
      end
  end.

Definition skip_candidates (tokens : list Token) (source : bytes) (j : nat) : nat :=
  skip_candidates_loop MAX_MACRO_RUN tokens source j.

(** ** [declarator_head] *)

(** The [<...>] scan: [None] is the early [return false]; otherwise the final
    [(j, depth)].  [n] bounds the rounds left before [j >= head + MAX]. *)
Fixpoint template_loop (n : nat) (tokens : list Token) (stop_at j depth : nat)
    : option (nat * nat) :=
  match tokens !! j with
  | None => Some (j, depth)
  | Some t =>
      if punct_in (Some (tk_kind t)) [";"; "{"; "}"] then None
      else
        let depth := if is_kind (Punct "<") t then depth + 1
                     else if is_kind (Punct ">") t then depth - 1 else depth in
        if Nat.eqb depth 0 || (stop_at <=? j) then Some (j, depth)
        else match n with
             | 0 => Some (j, depth)
             | S n => template_loop n tokens stop_at (j + 1) depth
             end
  end.

Definition declarator_verdict (idents : nat) (primitive : bool) (stop : Kind) : bool :=
  match idents + Nat.b2n primitive with
  | 2 => true
  | 1 => bool_decide (stop = Punct "(")
  | _ => false
  end.

Fixpoint declarator_head_loop (n : nat) (tokens : list Token) (source : bytes)
    (head j idents : nat) (primitive after_scope : bool) : bool :=
  match n with
  | 0 => false
  | S n =>
      if head + MAX_HEAD_TOKENS <=? j then false
      else match tokens !! j with
           | None => false
           | Some t =>
               let continue := declarator_head_loop n tokens source head in
               match tk_kind t with
               | Ident =>
                   let word := text t source in
                   if bytes_eqb word (bs "operator") then
                     declarator_verdict (idents + 1) primitive (Punct "(")
                   else if contains_word PRIMITIVE_KEYS word then
                     continue (j + 1) idents true false
                   else if negb (contains_word QUALIFIER_KEYS word) && negb after_scope then
                     continue (j + 1) (idents + 1) primitive false
                   else continue (j + 1) idents primitive false
               | Scope => continue (j + 1) idents primitive true
               | Punct b =>
                   if b =? "~" then Nat.eqb (idents + Nat.b2n primitive) 0
                   else if (b =? "*") || (b =? "&") then continue (j + 1) idents primitive after_scope
                   else if b =? "<" then
                     match template_loop MAX_HEAD_TOKENS tokens (head + MAX_HEAD_TOKENS) j 0 with
                     | None => false
                     | Some (j', depth) =>
                         if negb (Nat.eqb depth 0) then false
                         else continue (j' + 1) idents primitive after_scope
                     end
                   else declarator_verdict idents primitive (Punct b)
               | kind => declarator_verdict idents primitive kind
               end
           end
  end.

Definition declarator_head (tokens : list Token) (source : bytes) (head : nat) : bool :=
  declarator_head_loop (S MAX_HEAD_TOKENS) tokens source head head 0 false false.

(** ** [qualifies] and [blank_spans] *)

(** [i.checked_sub(1).and_then(|p| tokens.get(p))]. *)
Definition token_before (tokens : list Token) (i : nat) : option Token :=
  match i with 0 => None | S p => tokens !! p end.

Definition qualifies (tokens : list Token) (source : bytes) (prev : option Token)
    (prev_idx : option nat) (next : nat) : option Form :=
  let head := skip_candidates tokens source next in
  first ← tokens !! head;
  let after := kind_of tokens (head + 1) in
  let before_prev := prev_idx ≫= token_before tokens in
  if ident_is prev source CLASS_KEYS then
    let instantiation := ident_is before_prev source [bs "template"] in
    let named :=
      negb instantiation && is_kind Ident first
      && negb (ident_is (Some first) source [bs "final"])
      && (punct_in after ["{"; ":"; "<"] || bool_decide (after = Some Scope)
          || ident_is (tokens !! (head + 1)) source [bs "final"]) in
    if named then Some Spaces else None
  else
    let declaration_start :=
      match tk_kind <$> prev with
      | None | Some Directive => true
      | Some (Punct b) => existsb (Byte.eqb b) [";"; "{"; "}"; ":"; ">"; "]"]
      | Some Ident => ident_is prev source SPECIFIER_KEYS
      | Some Str => ident_is before_prev source [bs "extern"]
      | _ => false
      end in
    if negb declaration_start then None
    else
      let form := if bool_decide (tk_kind <$> prev = Some Ident)
                     || ident_is (Some first) source [bs "friend"]
                  then Spaces else Attribute in
      let shaped :=
        match tk_kind first with
        | Punct b => b =? "~"
        | Ident =>
            negb (bool_decide (after = None)
                  || punct_in after [";"; "="; ","; "["; ")"; "{"; "}"; ":"])
            && declarator_head tokens source head
        | _ => false
        end in
      if shaped then Some form else None.

(** The end of the token before [next], [tokens[next - 1].end]. *)
Definition end_before (tokens : list Token) (next : nat) : nat :=
  default 0 (tk_end <$> tokens !! (next - 1)).

(** A span at [i]: its end and form, and the next index. *)
Definition span_at (tokens : list Token) (source : bytes) (prev : option nat) (i : nat)
    : option (MacroSpan * nat) :=
  t ← tokens !! i;
  if is_kind Ident t && is_candidate (text t source) then
    next ← after_args tokens i;
    form ← qualifies tokens source (prev ≫= λ p, tokens !! p) prev next;
    Some (mkSpan (tk_start t) (end_before tokens next) form, next)
  else None.

Fixpoint blank_spans_loop (fuel : nat) (tokens : list Token) (source : bytes)
    (prev : option nat) (i : nat) : list MacroSpan :=
  match fuel with
  | 0 => []
  | S fuel =>
      if length tokens <=? i then []
      else match span_at tokens source prev i with
           | Some (span, next) => span :: blank_spans_loop fuel tokens source prev next
           | None => blank_spans_loop fuel tokens source (Some i) (i + 1)
           end
  end.

Definition blank_spans (tokens : list Token) (source : bytes) : list MacroSpan :=
  blank_spans_loop (length tokens) tokens source None 0.

(** ** [overwrite_spans] *)

Definition overwrite_one (source : bytes) (out : bytes) (sp : MacroSpan) : outcome bytes :=
  attribute ←
    match ms_form sp with
    | Attribute =>
        n ← usize_sub (ms_end sp) (ms_start sp);
        if 5 <=? n then
          tail ← slice_get (ms_end sp - 2) (ms_end sp) source;
          Done (negb (existsb is_break tail))
        else Done false
    | _ => Done false
    end;
  span ← slice_get (ms_start sp) (ms_end sp) out;
  let span := map blank_byte span in
  span ←
    (if attribute : bool then
       span ← copy_at 0 (bs "[[a") span;
       copy_at (length span - 2) (bs "]]") span
     else if bool_decide (ms_form sp = CSpecifier) then copy_at 0 (bs "extern") span
     else Done span);
  copy_at (ms_start sp) span out.

Fixpoint overwrite_all (source : bytes) (spans : list MacroSpan) (out : bytes) : outcome bytes :=
  match spans with
  | [] => Done out
  | sp :: spans => out ← overwrite_one source out sp; overwrite_all source spans out
  end.

Definition overwrite_spans (source : bytes) (spans : list MacroSpan) : outcome (option bytes) :=
  match spans with
  | [] => Done None
  | _ => out ← overwrite_all source spans source; Done (Some out)
  end.

Definition neutralize (source : bytes) : outcome (option bytes) :=
  if negb (existsb (λ s, has_sub s source) SUFFIXES) then Done None
  else
    let tokens := tokenize source in
    let spans := blank_spans tokens source in
    overwrite_spans source spans.

(** ** [neutralize_c] *)

(** The [for _ in 0..MAX_MACRO_RUN] loop; [None] is the early [return None]. *)
Fixpoint c_macro_run (n : nat) (tokens : list Token) (source : bytes) (i : nat)
    (spans : list MacroSpan) : option (nat * list MacroSpan) :=
  match n with
  | 0 => Some (i, spans)
  | S n =>
      t ← tokens !! i;
      if negb (is_kind Ident t)
         || negb (is_candidate (text t source) || contains_word C_MACROS (text t source))
      then Some (i, spans)
      else
        next ← after_args tokens i;
        let form := match spans with [] => CSpecifier | _ => Spaces end in
        let spans := spans ++ [mkSpan (tk_start t) (tk_end t) form] in
        let spans := if tk_end t <? end_before tokens next
                     then spans ++ [mkSpan (tk_end t) (end_before tokens next) Spaces]
                     else spans in
        c_macro_run n tokens source next spans
  end.

Fixpoint c_head_loop (n : nat) (tokens : list Token) (source : bytes) (i idents : nat)
    (primitive : bool) (spans : list MacroSpan) : option (nat * list MacroSpan) :=
  match n with
  | 0 => None
  | S n =>
      t ← tokens !! i;
      match tk_kind t with
      | Ident =>
          let word := text t source in
          if contains_word (drop 1 C_MACROS) word
             && negb (bool_decide (kind_of tokens (i + 1) = Some (Punct "(")))
          then c_head_loop n tokens source (i + 1) idents primitive
                 (spans ++ [mkSpan (tk_start t) (tk_end t) Spaces])
          else if contains_word PRIMITIVE_KEYS word || bytes_eqb word (bs "_Bool") then
            c_head_loop n tokens source (i + 1) idents true spans
          else if negb (contains_word C_QUALIFIERS word) then
            c_head_loop n tokens source (i + 1) (idents + 1) primitive spans
          else c_head_loop n tokens source (i + 1) idents primitive spans
      | Punct b =>
          if b =? "*" then c_head_loop n tokens source (i + 1) idents primitive spans
          else if b =? "(" then
            if Nat.eqb (idents + Nat.b2n primitive) 2 then Some (i, spans) else None
          else None
      | _ => None
      end
  end.

(** [while i < start + MAX_HEAD_TOKENS]: one round per unit of the difference. *)
Definition c_function_head (tokens : list Token) (source : bytes) (start : nat)
    : option (nat * list MacroSpan) :=
  '(i, spans) ← c_macro_run MAX_MACRO_RUN tokens source start [];
  match spans with
  | [] => None
  | _ => c_head_loop (start + MAX_HEAD_TOKENS - i) tokens source i 0 false spans
  end.

Definition c_declaration_start (tokens : list Token) (source : bytes) (i : nat) : bool :=
  let previous := token_before tokens i in
  match tk_kind <$> previous with
  | None | Some Directive => true
  | Some (Punct b) => existsb (Byte.eqb b) [";"; "{"; "}"]
  | Some Ident => ident_is previous source [bs "static"; bs "inline"; bs "extern"; bs "_Noreturn"]
  | _ => false
  end.

Fixpoint neutralize_c_loop (fuel : nat) (tokens : list Token) (source : bytes) (i : nat)
    : list MacroSpan :=
  match fuel with
  | 0 => []
  | S fuel =>
      if length tokens <=? i then []
      else
        match (if c_declaration_start tokens source i
               then c_function_head tokens source i else None) with
        | Some (e, head_spans) => head_spans ++ neutralize_c_loop fuel tokens source e
        | None => neutralize_c_loop fuel tokens source (i + 1)
        end
  end.

Definition c_spans (tokens : list Token) (source : bytes) : list MacroSpan :=
  neutralize_c_loop (length tokens) tokens source 0.

Definition neutralize_c (source : bytes) : outcome (option bytes) :=
  if negb (existsb (λ s, has_sub s source) (SUFFIXES ++ C_MACROS)) then Done None
  else overwrite_spans source (c_spans (tokenize source) source).

(** ** [directives_only] *)

Definition splice_len (src : bytes) (i : nat) : option nat :=
  if at_is src i "\" && at_is src (i + 1) LF then Some 2
  else if at_is src i "\" && at_is src (i + 1) CR && at_is src (i + 2) LF then Some 3
  else None.

Fixpoint skip_spliced_comment_loop (fuel : nat) (src : bytes) (i : nat) : nat :=
  match fuel with
  | 0 => i
  | S fuel =>
      match src !! i with
      | Some b =>
          if b =? LF then i
          else skip_spliced_comment_loop fuel src (i + default 1 (splice_len src i))
      | None => i
      end
  end.

Definition skip_spliced_comment (src : bytes) (i : nat) : nat :=
  skip_spliced_comment_loop (length src - i) src i.

(** [while at < end]: whether an unspliced line feed lies in the comment. *)
Fixpoint comment_newline (fuel : nat) (src : bytes) (at_ e : nat) (line_start : bool) : bool :=
  match fuel with
  | 0 => line_start
  | S fuel =>
      if e <=? at_ then line_start
      else match splice_len src at_ with
           | Some n => comment_newline fuel src (at_ + n) e line_start
           | None => comment_newline fuel src (at_ + 1) e (line_start || at_is src at_ LF)
           end
  end.

(** The end of the directive whose [#] is just before [i]. *)
Fixpoint directive_end (fuel : nat) (src : bytes) (i : nat) : nat :=
  match fuel with
  | 0 => i
  | S fuel =>
      match src !! i with
      | None => i
      | Some b =>
          if b =? LF then i
          else match splice_len src i with
               | Some n => directive_end fuel src (i + n)
               | None =>
                   if at_is src i "/" && at_is src (i + 1) "/" then
                     directive_end fuel src (skip_spliced_comment src i)
                   else if at_is src i "/" && at_is src (i + 1) "*" then
                     directive_end fuel src (skip_block_comment src i)
                   else if (b =? "'") || (b =? x22) then
                     directive_end fuel src (skip_quoted src i b)
                   else directive_end fuel src (i + 1)
               end
      end
  end.

(** One round of the main loop after the trivia cases: [b] is not blank. *)
Definition directives_token (src : bytes) (i : nat) (b : byte) : nat :=
  if (b =? "'") || (b =? x22) then skip_quoted src i b
  else if is_ascii_alphabetic b || (b =? "_") then
    let e := scan_while (λ c, is_ascii_alphanumeric c || (c =? "_")) src i in
    if at_is src e x22 && contains_word RAW_PREFIXES (slice i e src)
    then skip_raw_string src e else e
  else if is_ascii_digit b then skip_number src i
  else i + 1.

Fixpoint directives_loop (fuel : nat) (src : bytes) (i : nat) (line_start : bool)
    (output : bytes) : bytes :=
  match fuel with
  | 0 => output
  | S fuel =>
      match src !! i with
      | None => output
      | Some b =>
          match splice_len src i with
          | Some n => directives_loop fuel src (i + n) line_start output
          | None =>
              if b =? LF then directives_loop fuel src (i + 1) true output
              else if is_ascii_whitespace b then directives_loop fuel src (i + 1) line_start output
              else if at_is src i "/" && at_is src (i + 1) "/" then
                directives_loop fuel src (skip_spliced_comment src i) line_start output
              else if at_is src i "/" && at_is src (i + 1) "*" then
                let e := skip_block_comment src i in
                directives_loop fuel src e (comment_newline (e - i) src i e line_start) output
              else if (b =? "#") && line_start then
                let e := directive_end (length src - i) src (i + 1) in
                directives_loop fuel src e line_start (splice i (slice i e src) output)
              else directives_loop fuel src (directives_token src i b) false output
          end
      end
  end.

Definition BOM : bytes := [xef; xbb; xbf].

Definition directives_only (src : bytes) : bytes :=
  let output := map blank_byte src in
  let i := if starts_with BOM src then 3 else 0 in
  directives_loop (S (length src)) src i true output.

(** ** Words that may be blanked *)

Definition unbroken (w : bytes) : Prop := Forall (λ b, is_break b = false) w.

Lemma suffixes_long s : s ∈ SUFFIXES → 4 ≤ length s.
Proof.
  intros H. assert (Forall (λ s, 4 ≤ length s) SUFFIXES) as Hall
    by (repeat constructor; apply Nat.leb_le; vm_compute; reflexivity).
  rewrite Forall_forall in Hall. auto.
Qed.

Lemma macro_byte_unbroken b :
  is_ascii_uppercase b || is_ascii_digit b || (b =? "_") = true → is_break b = false.
Proof. destruct b; done. Qed.

Lemma is_candidate_inv w :
  is_candidate w = true →
  6 ≤ length w ∧ unbroken w ∧ ∃ s, s ∈ SUFFIXES ∧ s `suffix_of` w.
Proof.
  unfold is_candidate. destruct (_ || _) eqn:E; [done|].
  apply orb_false_iff in E as [_ E]. apply negb_false_iff, forallb_Forall_true in E.
  intros (s & Hs & H)%existsb_exists. apply list_elem_of_In in Hs.
  apply andb_true_iff in H as [Hl%Nat.leb_le Hs'%ends_with_true].
  pose proof (suffixes_long s Hs). split_and!; [lia| |by exists s].
  eapply Forall_impl; [exact E|]. intros b. apply macro_byte_unbroken.
Qed.

Lemma c_macro_inv w : contains_word C_MACROS w = true → 6 ≤ length w ∧ unbroken w.
Proof.
  rewrite contains_word_true.
  assert (Forall (λ w, (6 <=? length w) && forallb (λ b, negb (is_break b)) w = true) C_MACROS)
    as Hall by (repeat constructor; vm_compute; reflexivity).
  rewrite Forall_forall in Hall. intros Hw. specialize (Hall w Hw).
  apply andb_true_iff in Hall as [Hl%Nat.leb_le Hf]. split; [done|].
  apply forallb_Forall_true in Hf. eapply Forall_impl; [exact Hf|]. intros b.
  apply negb_true_iff.
Qed.

(** ** Token indices *)

Lemma is_kind_true k t : is_kind k t = true ↔ tk_kind t = k.
Proof. unfold is_kind. by rewrite bool_decide_eq_true. Qed.

Lemma after_args_loop_bound rest j depth limit next :
  after_args_loop rest j depth limit = Some next → j < next ≤ j + length rest.
Proof.
  revert j depth; induction rest as [|t rest IH]; intros j depth; cbn [after_args_loop]; [done|].
  simpl length.
  assert (∀ d, after_args_loop rest (j + 1) d limit = Some next → j < next ≤ j + S (length rest))
    as Hrec by (intros d H%IH; lia).
  destruct (limit <? tk_start t); [done|].
  destruct (tk_kind t); eauto; [done|].
  destruct (b =? "("); eauto. destruct (b =? ")"); [|destruct (_ || _); eauto; done].
  destruct (Nat.eqb _ _); eauto. intros [= <-]. lia.
Qed.

Lemma after_args_bound tokens i next :
  i < length tokens → after_args tokens i = Some next → i < next ≤ length tokens.
Proof.
  intros Hi. unfold after_args. destruct (tokens !! (i + 1)) as [t|] eqn:E.
  - apply lookup_lt_Some in E. destruct (is_kind _ t); [|intros [= <-]; lia].
    intros H%after_args_loop_bound. rewrite length_drop in H. lia.
  - intros [= <-]. lia.
Qed.

Lemma end_before_bound source tokens i next t :
  tokens_in source 0 tokens → tokens !! i = Some t → i < next ≤ length tokens →
  tk_end t ≤ end_before tokens next ≤ length source.
Proof.
  intros Hin Ht Hn. unfold end_before.
  destruct (lookup_lt_is_Some_2 tokens (next - 1)) as [u Hu]; [lia|]. rewrite Hu. simpl.
  pose proof (tokens_in_lookup _ _ _ _ _ Hin Hu). destruct (decide (i = next - 1)) as [->|].
  - simplify_eq. lia.
  - pose proof (tokens_in_mono _ _ _ i (next - 1) t u Hin Ht Hu). lia.
Qed.

Lemma text_length source tokens i t :
  tokens_in source 0 tokens → tokens !! i = Some t →
  length (text t source) = tk_end t - tk_start t.
Proof.
  intros Hin Ht. pose proof (tokens_in_lookup _ _ _ _ _ Hin Ht). apply length_slice_in. lia.
Qed.

(** ** Well-formed spans *)

(** The span is inside the source; a form that writes text finds six bytes that
    are not line breaks to write over. *)
Definition span_ok (source : bytes) (sp : MacroSpan) : Prop :=
  ms_start sp ≤ ms_end sp ≤ length source ∧
  (ms_form sp ≠ Spaces →
     ms_start sp + 6 ≤ ms_end sp ∧ unbroken (slice (ms_start sp) (ms_start sp + 6) source)).

Lemma unbroken_slice_prefix source a b n :
  a + n ≤ b → unbroken (slice a b source) → unbroken (slice a (a + n) source).
Proof.
  intros Hle H. unfold unbroken, slice in *. replace (a + n - a) with (min n (b - a)) by lia.
  rewrite <- take_take. by apply Forall_take.
Qed.

Lemma span_ok_token source tokens i t e form :
  tokens_in source 0 tokens → tokens !! i = Some t →
  6 ≤ length (text t source) → unbroken (text t source) →
  tk_end t ≤ e ≤ length source → span_ok source (mkSpan (tk_start t) e form).
Proof.
  intros Hin Ht Hl Hu He. pose proof (tokens_in_lookup _ _ _ _ _ Hin Ht).
  rewrite (text_length _ _ _ _ Hin Ht) in Hl. split; simpl; [lia|]. intros _.
  split; [lia|]. eapply unbroken_slice_prefix; [|exact Hu]. lia.
Qed.

Lemma span_at_inv source tokens prev i sp next :
  tokens_in source 0 tokens → span_at tokens source prev i = Some (sp, next) →
  i < next ≤ length tokens ∧ span_ok source sp ∧
  ∃ t, tokens !! i = Some t ∧ tk_kind t = Ident ∧ is_candidate (text t source) = true
    ∧ ms_start sp = tk_start t.
Proof.
  intros Hin. unfold span_at. destruct (tokens !! i) as [t|] eqn:Ht; [simpl|done].
  destruct (_ && _) eqn:E; [|done]. apply andb_true_iff in E as [Hk%is_kind_true Hc].
  destruct (after_args tokens i) as [n|] eqn:Ha; [simpl|done].
  destruct (qualifies _ _ _ _ _) as [f|]; [simpl|done]. intros [= <- <-].
  apply after_args_bound in Ha; [|by eapply lookup_lt_Some].
  pose proof (is_candidate_inv _ Hc) as (Hl & Hu & _). split; [done|]. split; [|by exists t].
  eapply span_ok_token; eauto using end_before_bound.
Qed.

Lemma blank_spans_loop_ok fuel source tokens prev i :
  tokens_in source 0 tokens → Forall (span_ok source) (blank_spans_loop fuel tokens source prev i).
Proof.
  intros Hin. revert prev i; induction fuel as [|fuel IH]; intros prev i;
    cbn [blank_spans_loop]; [constructor|].
  destruct (_ <=? i); [constructor|].
  destruct (span_at _ _ _ _) as [[sp next]|] eqn:E; [|apply IH].
  apply span_at_inv in E as (_ & Hok & _); [|done]. constructor; auto.
Qed.

Lemma c_macro_run_ok n source tokens i spans i' spans' :
  tokens_in source 0 tokens → Forall (span_ok source) spans →
  c_macro_run n tokens source i spans = Some (i', spans') →
  Forall (span_ok source) spans' ∧ i ≤ i' ∧ (spans = [] → spans' ≠ [] → i < i').
Proof.
  intros Hin. revert i spans; induction n as [|n IH]; intros i spans Hok; cbn [c_macro_run].
  { intros [= <- <-]. split_and!; [done|lia|done]. }
  destruct (tokens !! i) as [t|] eqn:Ht; [simpl|done].
  destruct (_ || _) eqn:E. { intros [= <- <-]. split_and!; [done|lia|done]. }
  destruct (after_args tokens i) as [nx|] eqn:Ha; [simpl|done].
  apply after_args_bound in Ha; [|by eapply lookup_lt_Some].
  apply orb_false_iff in E as [_ Hw%negb_false_iff].
  assert (6 ≤ length (text t source) ∧ unbroken (text t source)) as [Hl Hu].
  { apply orb_true_iff in Hw as [?%is_candidate_inv|?%c_macro_inv]; naive_solver. }
  pose proof (end_before_bound _ _ _ _ _ Hin Ht Ha) as He.
  intros H. apply IH in H as (H1 & H2 & _); [split_and!; [done|lia|lia]|].
  assert (span_ok source (mkSpan (tk_start t) (tk_end t)
            match spans with [] => CSpecifier | _ => Spaces end)).
  { eapply span_ok_token; eauto. pose proof (tokens_in_lookup _ _ _ _ _ Hin Ht). lia. }
  destruct (_ <? _) eqn:Elt; repeat (apply Forall_app; split); auto.
  constructor; [|done]. split; simpl; [apply Nat.ltb_lt in Elt; lia|done].
Qed.

Lemma c_head_loop_ok n source tokens i idents primitive spans i' spans' :
  tokens_in source 0 tokens → Forall (span_ok source) spans →
  c_head_loop n tokens source i idents primitive spans = Some (i', spans') →
  Forall (span_ok source) spans' ∧ i ≤ i'.
Proof.
  intros Hin. revert i idents primitive spans; induction n as [|n IH];
    intros i idents primitive spans Hok; cbn [c_head_loop]; [done|].
  destruct (tokens !! i) as [t|] eqn:Ht; [simpl|done].
  assert (∀ a b s, Forall (span_ok source) s →
    c_head_loop n tokens source (i + 1) a b s = Some (i', spans') →
    Forall (span_ok source) spans' ∧ i ≤ i') as Hrec.
  { intros a b s Hs H. apply IH in H; [|done]. destruct H. split; [done|lia]. }
  destruct (tk_kind t); try done.
  - destruct (_ && _).
    { apply Hrec. apply Forall_app. split; [done|]. constructor; [|done].
      pose proof (tokens_in_lookup _ _ _ _ _ Hin Ht). split; simpl; [lia|done]. }
    destruct (_ || _); [by apply Hrec|]. destruct (negb _); by apply Hrec.
  - destruct (b =? "*"); [by apply Hrec|]. destruct (b =? "("); [|done].
    destruct (Nat.eqb _ _); [|done]. intros [= <- <-]. auto.
Qed.

Lemma c_function_head_ok source tokens start e spans :
  tokens_in source 0 tokens → c_function_head tokens source start = Some (e, spans) →
  Forall (span_ok source) spans ∧ start < e.
Proof.
  intros Hin. unfold c_function_head.
  destruct (c_macro_run _ _ _ _ _) as [[i sp]|] eqn:E; [simpl|done].
  apply c_macro_run_ok in E as (Hok & Hle & Hlt); [|done..].
  destruct sp as [|s sp]; [done|]. intros H. apply c_head_loop_ok in H as [? ?]; [|done..].
  split; [done|]. assert (start < i) by (by apply Hlt). lia.
Qed.

Lemma neutralize_c_loop_ok fuel source tokens i :
  tokens_in source 0 tokens → Forall (span_ok source) (neutralize_c_loop fuel tokens source i).
Proof.
  intros Hin. revert i; induction fuel as [|fuel IH]; intros i; cbn [neutralize_c_loop];
    [constructor|].
  destruct (_ <=? i); [constructor|].
  destruct (if c_declaration_start tokens source i then _ else _) as [[e sp]|] eqn:E; [|apply IH].
  apply Forall_app. split; [|apply IH]. destruct (c_declaration_start _ _ _); [|done].
  by eapply c_function_head_ok.
Qed.

(** ** Overwriting keeps the layout and never panics *)

Lemma ms_tail_unbroken source a b :
  existsb is_break (slice a b source) = false → unbroken_at source a (b - a).
Proof.
  intros H j x Hj Hx. assert (slice a b source !! (j - a) = Some x) as Hs.
  { rewrite lookup_slice by lia. by replace (a + (j - a)) with j by lia. }
  apply list_elem_of_lookup_2 in Hs. apply not_true_iff_false. intros Hb.
  assert (existsb is_break (slice a b source) = true) as E; [|congruence].
  apply existsb_exists. exists x. by rewrite <- list_elem_of_In.
Qed.

(** The text written by [attribute] or [CSpecifier] over the blanked span. *)
Lemma attribute_text_ok span :
  5 ≤ length span → unbroken_at span 0 3 → unbroken_at span (length span - 2) 2 →
  ∃ span', (s1 ← copy_at 0 (bs "[[a") span; copy_at (length s1 - 2) (bs "]]") s1) = Done span'
    ∧ length span' = length span ∧ layout_eq span span'.
Proof.
  intros Hl H3 H2.
  assert (layout_eq span (splice 0 (bs "[[a") span)) as L1.
  { apply layout_eq_splice_text; simpl; [lia|by repeat constructor|done]. }
  rewrite copy_at_Done by (simpl; lia). cbn [mbind outcome_bind].
  pose proof (layout_eq_length _ _ L1) as Hlen. rewrite <- Hlen.
  assert (layout_eq (splice 0 (bs "[[a") span)
            (splice (length span - 2) (bs "]]") (splice 0 (bs "[[a") span))) as L2.
  { apply layout_eq_splice_text; change (length (bs "]]")) with 2; [lia|by repeat constructor|].
    by eapply unbroken_at_layout. }
  rewrite copy_at_Done by (change (length (bs "]]")) with 2; lia).
  eexists. split; [reflexivity|]. split; [by rewrite <- (layout_eq_length _ _ L2)|].
  by etrans.
Qed.

Lemma specifier_text_ok span :
  6 ≤ length span → unbroken_at span 0 6 →
  ∃ span', copy_at 0 (bs "extern") span = Done span'
    ∧ length span' = length span ∧ layout_eq span span'.
Proof.
  intros Hl H. rewrite copy_at_Done by (simpl; lia).
  assert (layout_eq span (splice 0 (bs "extern") span)) as L.
  { apply layout_eq_splice_text; simpl; [lia|by repeat constructor|done]. }
  eexists. split; [reflexivity|]. split; [by rewrite <- (layout_eq_length _ _ L)|done].
Qed.

Lemma unbroken_slice_at source a n :
  a + n ≤ length source → unbroken (slice a (a + n) source) → unbroken_at source a n.
Proof.
  intros Hle H j b Hj Hb. eapply (Forall_lookup_1 _ _ (j - a) b H).
  rewrite lookup_slice by lia. by replace (a + (j - a)) with j by lia.
Qed.

Lemma overwrite_one_ok source out sp :
  span_ok source sp → layout_eq source out →
  ∃ out', overwrite_one source out sp = Done out' ∧ layout_eq source out'
    ∧ ∀ j, ¬ (ms_start sp ≤ j < ms_end sp) → out' !! j = out !! j.
Proof.
  destruct sp as [s e form]. intros [[Hse Hel] Htext] L. simpl in *.
  pose proof (layout_eq_length _ _ L) as Hlen.
  set (span := map blank_byte (slice s e out)).
  assert (length span = e - s) as Hspan.
  { unfold span. rewrite length_map, length_slice_in; lia. }
  assert (form ≠ Spaces → s + 6 ≤ e ∧ unbroken_at span 0 6) as Htext'.
  { intros Hf. destruct (Htext Hf) as [H6 Hu]. split; [done|].
    apply unbroken_at_blank, unbroken_at_slice. rewrite Nat.add_0_r.
    eapply unbroken_at_layout; [done|]. apply unbroken_slice_at; [lia|done]. }
  assert (∀ tl, existsb is_break (slice (e - 2) e source) = tl → tl = false → s + 2 ≤ e →
            unbroken_at span (length span - 2) 2) as Htail.
  { intros tl <- Ht H2. apply unbroken_at_blank, unbroken_at_slice.
    eapply unbroken_at_layout; [done|]. apply ms_tail_unbroken in Ht.
    eapply unbroken_at_mono; [done|lia..]. }
  assert (∀ span', length span' = length span → layout_eq span span' →
    ∃ out', copy_at s span' out = Done out' ∧ layout_eq source out' ∧
      ∀ j, ¬ (s ≤ j < e) → out' !! j = out !! j) as Hfinish.
  { intros span' Hl' L'. rewrite copy_at_Done by lia. eexists. split; [reflexivity|]. split.
    - etrans; [exact L|]. apply layout_eq_splice; [lia|].
      replace (s + length span') with e by lia. etrans; [apply blank_layout|exact L'].
    - intros j Hj. apply lookup_splice_out; lia. }
  unfold overwrite_one; cbn [ms_form ms_start ms_end].
  assert (∃ att : bool,
    match form with
    | Attribute => n ← usize_sub e s;
        if 5 <=? n then tail ← slice_get (e - 2) e source; Done (negb (existsb is_break tail))
        else Done false
    | _ => Done false end = Done att ∧
    (att = true → form = Attribute ∧ unbroken_at span (length span - 2) 2)) as (att & -> & Hatt).
  { destruct form; try (exists false; split; [done|discriminate]).
    destruct (Htext' ltac:(discriminate)) as [H6 _]. unfold usize_sub.
    rewrite (proj2 (Nat.leb_le _ _)) by lia. cbn [mbind outcome_bind].
    rewrite (proj2 (Nat.leb_le _ _)) by lia. rewrite slice_get_Done by lia.
    cbn [mbind outcome_bind]. eexists. split; [reflexivity|].
    intros Ht%negb_true_iff. split; [done|]. eapply Htail; [reflexivity|done|lia]. }
  rewrite slice_get_Done by lia. cbn [mbind outcome_bind]. fold span.
  destruct att.
  - destruct (Hatt eq_refl) as [-> Ht]. destruct (Htext' ltac:(discriminate)) as [H6 Hu].
    destruct (attribute_text_ok span) as (span' & -> & Hl' & L'); [lia| |done|].
    + eapply unbroken_at_mono; [done|lia..].
    + cbn [mbind outcome_bind]. by apply Hfinish.
  - case_bool_decide as Hf.
    + destruct (Htext' ltac:(by rewrite Hf)) as [H6 Hu].
      destruct (specifier_text_ok span) as (span' & -> & Hl' & L'); [lia|done|].
      cbn [mbind outcome_bind]. by apply Hfinish.
    + cbn [mbind outcome_bind]. by apply Hfinish.
Qed.

(** Offsets covered by one of [spans]. *)
Definition in_spans (spans : list MacroSpan) (j : nat) : Prop :=
  Exists (λ sp, ms_start sp ≤ j < ms_end sp) spans.

#[export] Instance in_spans_decision spans j : Decision (in_spans spans j).
Proof. unfold in_spans. apply _. Defined.

Lemma overwrite_all_ok source spans out :
  Forall (span_ok source) spans → layout_eq source out →
  ∃ out', overwrite_all source spans out = Done out' ∧ layout_eq source out'
    ∧ ∀ j, ¬ in_spans spans j → out' !! j = out !! j.
Proof.
  intros Hok; revert out; induction Hok as [|sp spans Hsp _ IH]; intros out L.
  { exists out. done. }
  destruct (overwrite_one_ok _ _ _ Hsp L) as (out1 & E1 & L1 & F1).
  destruct (IH _ L1) as (out2 & E2 & L2 & F2).
  exists out2. cbn [overwrite_all]. rewrite E1. cbn [mbind outcome_bind].
  split_and!; [done|done|]. intros j Hj. rewrite F2, F1; [done|..].
  - intros Hr. apply Hj. by left.
  - intros Hr. apply Hj. by right.
Qed.

Lemma overwrite_spans_ok source spans :
  Forall (span_ok source) spans →
  ∃ r, overwrite_spans source spans = Done r ∧
    (r = None ↔ spans = []) ∧
    ∀ out, r = Some out → layout_eq source out ∧
      ∀ j, ¬ in_spans spans j → out !! j = source !! j.
Proof.
  intros Hok. destruct spans as [|sp spans]; [by exists None|].
  destruct (overwrite_all_ok source _ source Hok) as (out & E & L & F); [done|].
  exists (Some out). unfold overwrite_spans. rewrite E. split; [done|]. split; [done|].
  intros ? [= <-]. done.
Qed.

(** ** The substring gates *)

Lemma suffix_of_slice_has_sub p a b source :
  p `suffix_of` slice a b source → has_sub p source = true.
Proof.
  intros [k Hk]. apply has_sub_true. exists (a + length k).
  rewrite <- drop_drop. rewrite <- (take_drop (b - a) (drop a source)).
  change (take (b - a) (drop a source)) with (slice a b source). rewrite Hk.
  rewrite <- app_assoc, drop_app_length. by eexists.
Qed.

Lemma candidate_has_suffix source t :
  is_candidate (text t source) = true → existsb (λ s, has_sub s source) SUFFIXES = true.
Proof.
  intros (_ & _ & s & Hs & Hsuf)%is_candidate_inv. apply existsb_exists.
  exists s. rewrite <- list_elem_of_In. split; [done|]. by eapply suffix_of_slice_has_sub.
Qed.

Lemma c_word_has_sub source t :
  is_candidate (text t source) || contains_word C_MACROS (text t source) = true →
  existsb (λ s, has_sub s source) (SUFFIXES ++ C_MACROS) = true.
Proof.
  rewrite existsb_app, orb_true_iff. intros [H|H%contains_word_true].
  - by rewrite (candidate_has_suffix _ _ H).
  - apply orb_true_iff. right. apply existsb_exists. exists (text t source).
    rewrite <- list_elem_of_In. split; [done|].
    eapply (suffix_of_slice_has_sub _ (tk_start t) (tk_end t)). done.
Qed.

Lemma blank_spans_loop_gate fuel tokens source prev i :
  existsb (λ s, has_sub s source) SUFFIXES = false →
  blank_spans_loop fuel tokens source prev i = [].
Proof.
  intros Hg. revert prev i; induction fuel as [|fuel IH]; intros prev i;
    cbn [blank_spans_loop]; [done|].
  destruct (_ <=? i); [done|]. destruct (span_at _ _ _ _) as [[sp n]|] eqn:E; [|done].
  revert E. unfold span_at. destruct (tokens !! i) as [t|]; [simpl|done].
  destruct (_ && _) eqn:E; [|done]. apply andb_true_iff in E as [_ Hc%candidate_has_suffix].
  congruence.
Qed.

Lemma c_macro_run_gate n tokens source i e sp spans :
  c_macro_run n tokens source i [] = Some (e, sp :: spans) →
  existsb (λ s, has_sub s source) (SUFFIXES ++ C_MACROS) = true.
Proof.
  destruct n as [|n]; cbn [c_macro_run]; [done|].
  destruct (tokens !! i) as [t|]; [simpl|done].
  destruct (_ || _) eqn:E; [done|]. intros _.
  apply orb_false_iff in E as [_ E%negb_false_iff]. exact (c_word_has_sub _ _ E).
Qed.

Lemma c_function_head_gate tokens source i e spans :
  c_function_head tokens source i = Some (e, spans) →
  existsb (λ s, has_sub s source) (SUFFIXES ++ C_MACROS) = true.
Proof.
  unfold c_function_head. destruct (c_macro_run _ _ _ _ _) as [[j [|sp sps]]|] eqn:E; [done| |done].
  intros _. by eapply c_macro_run_gate.
Qed.

Lemma neutralize_c_loop_gate fuel tokens source i :
  existsb (λ s, has_sub s source) (SUFFIXES ++ C_MACROS) = false →
  neutralize_c_loop fuel tokens source i = [].
Proof.
  intros Hg. revert i; induction fuel as [|fuel IH]; intros i;
    cbn [neutralize_c_loop]; [done|].
  destruct (_ <=? i); [done|]. destruct (c_declaration_start _ _ _); [|done].
  destruct (c_function_head _ _ _) as [[e sp]|] eqn:E; [|done].
  apply c_function_head_gate in E. congruence.
Qed.

(** ** Bounds of the [directives_only] helpers *)

Lemma splice_len_bound src i n :
  splice_len src i = Some n → 2 ≤ n ∧ i + n ≤ length src.
Proof.
  unfold splice_len. destruct (_ && at_is src (i + 1) LF) eqn:E1.
  { apply andb_true_iff in E1 as [_ ?%at_is_bound]. intros [= <-]. lia. }
  destruct (_ && at_is src (i + 2) LF) eqn:E2; [|done].
  apply andb_true_iff in E2 as [_ ?%at_is_bound]. intros [= <-]. lia.
Qed.

Lemma skip_spliced_comment_loop_bounds fuel src i :
  i ≤ length src → i ≤ skip_spliced_comment_loop fuel src i ≤ length src.
Proof.
  revert i; induction fuel as [|fuel IH]; intros i Hi; cbn [skip_spliced_comment_loop]; [lia|].
  destruct (src !! i) as [b|] eqn:Hb; [|lia]. apply lookup_lt_Some in Hb.
  destruct (b =? LF); [lia|]. destruct (splice_len src i) as [n|] eqn:En; simpl.
  - apply splice_len_bound in En. specialize (IH (i + n)). lia.
  - specialize (IH (i + 1)). lia.
Qed.

Lemma skip_spliced_comment_progress src i b :
  src !! i = Some b → b ≠ LF → i < skip_spliced_comment src i ≤ length src.
Proof.
  intros Hi Hb. pose proof (lookup_lt_Some _ _ _ Hi). unfold skip_spliced_comment.
  destruct (length src - i) as [|f] eqn:E; [lia|]. cbn [skip_spliced_comment_loop].
  rewrite Hi, (proj2 (beq_false _ _) Hb). destruct (splice_len src i) as [n|] eqn:En; simpl.
  - apply splice_len_bound in En. pose proof (skip_spliced_comment_loop_bounds f src (i + n)). lia.
  - pose proof (skip_spliced_comment_loop_bounds f src (i + 1)). lia.
Qed.

Lemma comment_opener_bound src i c :
  at_is src i "/" && at_is src (i + 1) c = true → src !! i = Some "/" ∧ i + 2 ≤ length src.
Proof. intros [?%at_is_true ?%at_is_bound]%andb_true_iff. split; [done|lia]. Qed.

Lemma directive_end_bounds fuel src i :
  i ≤ length src → i ≤ directive_end fuel src i ≤ length src.
Proof.
  revert i; induction fuel as [|fuel IH]; intros i Hi; cbn [directive_end]; [lia|].
  destruct (src !! i) as [b|] eqn:Hb; [|lia]. pose proof (lookup_lt_Some _ _ _ Hb).
  destruct (beq_spec b LF) as [->|Hne]; [lia|].
  destruct (splice_len src i) as [n|] eqn:En.
  { apply splice_len_bound in En. specialize (IH (i + n)). lia. }
  destruct (_ && at_is src (i + 1) "/").
  { pose proof (skip_spliced_comment_progress _ _ _ Hb Hne).
    specialize (IH (skip_spliced_comment src i)). lia. }
  destruct (_ && at_is src (i + 1) "*") eqn:E.
  { apply comment_opener_bound in E as [_ ?]. pose proof (skip_block_comment_bounds src i).
    specialize (IH (skip_block_comment src i)). lia. }
  destruct (_ || _).
  { pose proof (skip_quoted_bounds src i b). specialize (IH (skip_quoted src i b)). lia. }
  specialize (IH (i + 1)). lia.
Qed.

Lemma directives_token_bounds src i b :
  src !! i = Some b → i < directives_token src i b ≤ length src.
Proof.
  intros Hb. pose proof (lookup_lt_Some _ _ _ Hb). unfold directives_token.
  destruct (_ || _); [by apply skip_quoted_bounds|].
  destruct (is_ascii_alphabetic b || (b =? "_")) eqn:E2.
  - set (p := λ c, is_ascii_alphanumeric c || (c =? "_")).
    assert (p b = true) as Hp.
    { unfold p, is_ascii_alphanumeric. apply orb_true_iff in E2 as [->| ->]; [done|apply orb_true_r]. }
    pose proof (scan_while_step p src i b Hb Hp).
    pose proof (scan_while_le p src i ltac:(lia)).
    cbv zeta. destruct (_ && _) eqn:E3; [|lia].
    apply andb_true_iff in E3 as [?%at_is_bound _].
    pose proof (skip_raw_string_bounds src (scan_while p src i)). lia.
  - destruct (is_ascii_digit b) eqn:E3; [|lia]. apply (skip_number_bounds src i b); auto.
Qed.

Lemma directives_loop_blanked fuel src i line_start output :
  i ≤ length src → blanked_copy src output →
  blanked_copy src (directives_loop fuel src i line_start output).
Proof.
  revert i line_start output; induction fuel as [|fuel IH]; intros i line_start output Hi Ho;
    cbn [directives_loop]; [done|].
  destruct (src !! i) as [b|] eqn:Hb; [|done]. pose proof (lookup_lt_Some _ _ _ Hb).
  destruct (splice_len src i) as [n|] eqn:En.
  { apply splice_len_bound in En. apply IH; [lia|done]. }
  destruct (beq_spec b LF) as [->|Hne]; [apply IH; [lia|done]|].
  destruct (is_ascii_whitespace b); [apply IH; [lia|done]|].
  destruct (_ && at_is src (i + 1) "/").
  { apply IH; [|done]. eapply skip_spliced_comment_progress; done. }
  destruct (_ && at_is src (i + 1) "*") eqn:E.
  { apply comment_opener_bound in E as [_ ?]. cbv zeta. apply IH; [|done].
    by apply skip_block_comment_bounds. }
  destruct (_ && line_start); cbv zeta.
  - pose proof (directive_end_bounds (length src - i) src (i + 1) ltac:(lia)).
    apply IH; [lia|]. apply blanked_copy_restore; [lia|done].
  - apply IH; [|done]. by apply directives_token_bounds.
Qed.

(** ** Which bytes are touched *)

(** [j] lies in an export macro: an identifier token spelled like one, with its
    argument list. *)
Definition in_macro (source : bytes) (j : nat) : Prop :=
  ∃ i t next, tokenize source !! i = Some t ∧ tk_kind t = Ident
    ∧ is_candidate (text t source) = true ∧ after_args (tokenize source) i = Some next
    ∧ tk_start t ≤ j < end_before (tokenize source) next.

Lemma blank_spans_loop_in_macro fuel source prev i j :
  in_spans (blank_spans_loop fuel (tokenize source) source prev i) j → in_macro source j.
Proof.
  revert prev i; induction fuel as [|fuel IH]; intros prev i; cbn [blank_spans_loop].
  { by intros ?%Exists_nil. }
  destruct (_ <=? i). { by intros ?%Exists_nil. }
  destruct (span_at _ _ _ _) as [[sp n]|] eqn:E; [|apply IH].
  intros [Hj|Hin]%Exists_cons; [|by apply (IH prev n)].
  revert E Hj. unfold span_at. destruct (_ !! i) as [t|] eqn:Ht; [simpl|done].
  destruct (_ && _) eqn:E; [|done]. apply andb_true_iff in E as [Hk%is_kind_true Hc].
  destruct (after_args _ i) as [nx|] eqn:Ha; [simpl|done].
  destruct (qualifies _ _ _ _ _); [simpl|done]. intros [= <- <-] Hj.
  by exists i, t, nx.
Qed.

(** Enough fuel: the scan of [blank_spans] ends by reaching the last token. *)
Lemma blank_spans_loop_fuel f1 f2 source prev i :
  length (tokenize source) - i ≤ f1 → length (tokenize source) - i ≤ f2 →
  blank_spans_loop f1 (tokenize source) source prev i
  = blank_spans_loop f2 (tokenize source) source prev i.
Proof.
  revert f2 prev i; induction f1 as [|f1 IH]; intros f2 prev i H1 H2.
  { destruct f2; cbn [blank_spans_loop]; [done|]. by rewrite (proj2 (Nat.leb_le _ _)) by lia. }
  destruct f2 as [|f2].
  { cbn [blank_spans_loop]. by rewrite (proj2 (Nat.leb_le _ _)) by lia. }
  cbn [blank_spans_loop]. destruct (_ <=? i) eqn:E; [done|]. apply Nat.leb_gt in E.
  destruct (span_at _ _ _ _) as [[sp n]|] eqn:Es.
  - apply span_at_inv in Es as (? & _); [|apply tokenize_in]. f_equal. apply IH; lia.
  - apply IH; lia.
Qed.

Lemma neutralize_c_loop_fuel f1 f2 source i :
  length (tokenize source) - i ≤ f1 → length (tokenize source) - i ≤ f2 →
  neutralize_c_loop f1 (tokenize source) source i
  = neutralize_c_loop f2 (tokenize source) source i.
Proof.
  revert f2 i; induction f1 as [|f1 IH]; intros f2 i H1 H2.
  { destruct f2; cbn [neutralize_c_loop]; [done|]. by rewrite (proj2 (Nat.leb_le _ _)) by lia. }
  destruct f2 as [|f2].
  { cbn [neutralize_c_loop]. by rewrite (proj2 (Nat.leb_le _ _)) by lia. }
  cbn [neutralize_c_loop]. destruct (_ <=? i) eqn:E; [done|]. apply Nat.leb_gt in E.
  destruct (if c_declaration_start _ _ i then _ else _) as [[e sp]|] eqn:Es; [|apply IH; lia].
  destruct (c_declaration_start _ _ _); [|done].
  apply c_function_head_ok in Es as [_ ?]; [|apply tokenize_in]. f_equal. apply IH; lia.
Qed.

(** ** Properties *)

(** The conclusion shared by the pre-passes: no panic, and a returned copy has
    the source's length and line breaks, so every byte offset has the same row
    and the same line start in the copy as in the original. *)
Definition safe_copy (source : bytes) (r : outcome (option bytes)) : Prop :=
  ∃ o, r = Done o ∧
    ∀ out, o = Some out →
      layout_eq source out ∧
      ∀ i, row_of out i = row_of source i ∧ line_begin out i = line_begin source i.

Lemma overwrite_spans_safe source spans :
  Forall (span_ok source) spans → safe_copy source (overwrite_spans source spans).
Proof.
  intros (r & E & _ & H)%overwrite_spans_ok. exists r. split; [done|].
  intros out ->. destruct (H out eq_refl) as [L _]. split; [done|]. intros i. by rewrite L.
Qed.

(** C2. [neutralize] never panics, and its copy keeps every offset, row and
    line start of the source. *)
Theorem neutralize_safe (source : bytes) : safe_copy source (neutralize source).
Proof.
  unfold neutralize. destruct (negb _); [by exists None|].
  apply overwrite_spans_safe, blank_spans_loop_ok, tokenize_in.
Qed.

(** [neutralize_c] never panics, and its copy keeps every offset, row and
    line start of the source; in particular [extern] always fits the macro it
    overwrites. *)
Theorem neutralize_c_safe (source : bytes) : safe_copy source (neutralize_c source).
Proof.
  unfold neutralize_c. destruct (negb _); [by exists None|].
  apply overwrite_spans_safe, neutralize_c_loop_ok, tokenize_in.
Qed.

(** [neutralize] changes a byte only inside an export macro: an identifier
    token in capitals with an export suffix, or its argument list. *)
Theorem neutralize_only_macros (source out : bytes) (j : nat) :
  neutralize source = Done (Some out) → out !! j ≠ source !! j → in_macro source j.
Proof.
  unfold neutralize. destruct (negb _); [done|].
  destruct (overwrite_spans_ok source (blank_spans (tokenize source) source)) as (r & E & _ & H).
  { apply blank_spans_loop_ok, tokenize_in. }
  rewrite E. intros [= ->] Hne. destruct (H out eq_refl) as [_ F].
  eapply blank_spans_loop_in_macro. apply dec_stable. intros Hn. apply Hne, F, Hn.
Qed.

(** The substring scans that skip tokenising are exact: on every source,
    [neutralize] and [neutralize_c] return what the full scan returns. *)
Theorem neutralize_gate_exact (source : bytes) :
  neutralize source = overwrite_spans source (blank_spans (tokenize source) source) ∧
  neutralize_c source = overwrite_spans source (c_spans (tokenize source) source).
Proof.
  unfold neutralize, neutralize_c, blank_spans, c_spans. split.
  - destruct (existsb _ SUFFIXES) eqn:E; [done|]. by rewrite blank_spans_loop_gate.
  - destruct (existsb _ (SUFFIXES ++ C_MACROS)) eqn:E; [done|].
    by rewrite neutralize_c_loop_gate.
Qed.

(** [directives_only] returns the source with some bytes blanked: same
    length, every byte verbatim or a space, line breaks in place. *)
Theorem directives_only_blanked (src : bytes) :
  blanked_copy src (directives_only src) ∧ layout_eq src (directives_only src).
Proof.
  assert (blanked_copy src (directives_only src)) as H.
  { unfold directives_only. apply directives_loop_blanked.
    - destruct (starts_with BOM src) eqn:E; [|lia].
      apply starts_with_true, prefix_length in E. done.
    - split; [by rewrite length_map|]. intros j. right. apply list_lookup_fmap. }
  split; [done|]. by apply blanked_copy_layout.
Qed.

Definition widget : bytes := bs "class MYLIB_API Widget {};".

Lemma neutralize_only_macros_witness :
  neutralize widget = Done (Some (bs "class           Widget {};"))
  ∧ in_macro widget 6.
Proof.
  split; [vm_compute; reflexivity|].
  apply (neutralize_only_macros widget (bs "class           Widget {};") 6);
    vm_compute; [reflexivity|discriminate].
Defined.
