(* ===== verification/Unicode.v ===== *)
(** * Unicode: characters and their classes

    A [char] is its UTF-8 encoding, a [&str] the concatenation of its
    characters ([Text.chars]).  White space is listed; the other classes of the
    standard library ([char::is_alphanumeric] and the like, [str::to_lowercase])
    come from the tables of the Unicode version Rust was built with, and are a
    class of operations with what they are on ASCII. *)
From S2P Require Import Prelude Text Utf8.
From Stdlib Require Import Lia.
Local Open Scope codesage_scope.

Abbreviation char := bytes (only parsing).

Definition one_byte (p : byte → bool) (c : char) : bool := match c with [b] => p b | _ => false end.

(** ** [char::is_whitespace] *)

Definition WHITE_SPACE : list char :=
  map (λ b, [b]) [x09; x0a; x0b; x0c; x0d; x20] ++
  [[xc2; x85]; [xc2; xa0]; [xe1; x9a; x80]; [xe2; x80; xa8]; [xe2; x80; xa9]; [xe2; x80; xaf]; [xe2; x81; x9f]; [xe3; x80; x80]] ++
  map (λ b, [xe2; x80; b]) [x80; x81; x82; x83; x84; x85; x86; x87; x88; x89; x8a].

Definition is_whitespace (c : char) : bool := contains_word WHITE_SPACE c.

(** ** Classes from the tables *)

Class Unicode := {
  is_alphanumeric : char → bool;
  is_alphabetic : char → bool;
  is_uppercase : char → bool;
  is_lowercase : char → bool;
  to_lowercase : bytes → bytes }.

Class UnicodeLaws (U : Unicode) := {
  alphanumeric_char c : is_alphanumeric c = true → utf8_char c;
  alphabetic_alphanumeric c : is_alphabetic c = true → is_alphanumeric c = true;
  alphanumeric_ascii b : (Byte.to_N b < 128)%N → is_alphanumeric [b] = is_ascii_alphanumeric b;
  alphabetic_ascii b : (Byte.to_N b < 128)%N → is_alphabetic [b] = is_ascii_alphabetic b;
  uppercase_ascii b : (Byte.to_N b < 128)%N → is_uppercase [b] = is_ascii_uppercase b;
  lowercase_ascii b : (Byte.to_N b < 128)%N → is_lowercase [b] = is_ascii_lowercase b;
  to_lowercase_ascii s : Forall (λ b, (Byte.to_N b < 128)%N) s → to_lowercase s = map to_ascii_lowercase s }.

(** The classes with no character beyond ASCII in them. *)
#[export] Instance ascii_only : Unicode := {
  is_alphanumeric := one_byte is_ascii_alphanumeric;
  is_alphabetic := one_byte is_ascii_alphabetic;
  is_uppercase := one_byte is_ascii_uppercase;
  is_lowercase := one_byte is_ascii_lowercase;
  to_lowercase := map to_ascii_lowercase }.

Lemma ascii_char b : is_ascii b = true → utf8_char [b].
Proof. intros H. exists b, []. split_and!; [done| |done..|cbn; lia]. by destruct b. Qed.

Lemma one_byte_char p c : (∀ b, p b = true → is_ascii b = true) → one_byte p c = true → utf8_char c.
Proof. intros Hp. destruct c as [|b [|]]; try done. intros ?%Hp. by apply ascii_char. Qed.

#[export] Instance ascii_only_laws : UnicodeLaws ascii_only.
Proof.
  constructor; try done.
  - intros c. apply one_byte_char. by intros [].
  - intros [|b [|]]; try done. cbn. unfold is_ascii_alphanumeric. by intros ->.
Qed.

(** ** Splitting and trimming by characters *)

(** [s.split(p)]. *)
Fixpoint split_list (p : char → bool) (cs : list char) : list (list char) :=
  match cs with
  | [] => [[]]
  | c :: cs =>
      match split_list p cs with
      | seg :: segs => if p c then [] :: seg :: segs else (c :: seg) :: segs
      | [] => []
      end
  end.

Definition split_by (p : char → bool) (s : bytes) : list bytes := map (λ seg, concat seg) (split_list p (chars s)).

(** [s.split_whitespace()]. *)
Definition split_whitespace (s : bytes) : list bytes :=
  List.filter (λ t, negb (bytes_eqb t [])) (split_by is_whitespace s).

(** [s.trim_matches(p)], and at one end. *)
Definition drop_while (p : char → bool) (cs : list char) : list char := drop (count_while p cs) cs.
Definition trim_start_by (p : char → bool) (s : bytes) : bytes := concat (drop_while p (chars s)).
Definition trim_end_by (p : char → bool) (s : bytes) : bytes := concat (rev (drop_while p (rev (chars s)))).
Definition trim_matches (p : char → bool) (s : bytes) : bytes := trim_end_by p (trim_start_by p s).

Definition trim (s : bytes) : bytes := trim_matches is_whitespace s.

(** ** Lemmas *)

Lemma chars_concat s : concat (chars s) = s.
Proof.
  unfold chars. induction s as [|b s IH]; [done|]. cbn [chars_loop].
  destruct (chars_loop s) as [|c cs]; [destruct s; cbn in *; congruence|]. destruct s as [|d s]; [cbn in *; congruence|].
  destruct (_ =? 128)%N; cbn in *; congruence.
Qed.

Lemma chars_nonempty s : Forall (λ c, c ≠ []) (chars s).
Proof.
  unfold chars. induction s as [|b s IH]; [constructor|]. cbn [chars_loop].
  destruct (chars_loop s) as [|c cs]; [by repeat constructor|]. destruct s as [|d s]; [by constructor|].
  destruct (_ =? 128)%N; [|by constructor]. apply Forall_cons in IH as [_ IH]. by constructor.
Qed.

Lemma split_list_segs p cs : Forall (λ seg, Forall (λ c, p c = false ∧ c ∈ cs) seg) (split_list p cs).
Proof.
  induction cs as [|c cs IH]; cbn; [by repeat constructor|]. destruct (split_list p cs) as [|seg segs]; [constructor|].
  assert (Forall (λ seg, Forall (λ d, p d = false ∧ d ∈ c :: cs) seg) (seg :: segs)) as H.
  { eapply Forall_impl; [exact IH|]. intros seg' Hs. eapply Forall_impl; [exact Hs|]. intros d [? ?]. split; [done|by right]. }
  destruct (p c) eqn:E; [by constructor|]. apply Forall_cons in H as [H1 H2]. constructor; [|done]. constructor; [|done].
  split; [done|]. apply list_elem_of_here.
Qed.

(** The segments of a split hold no separator. *)
Lemma split_by_segs p s t : t ∈ split_by p s → ∃ seg, t = concat seg ∧ Forall (λ c, p c = false ∧ c ∈ chars s) seg.
Proof.
  intros (seg & -> & H)%list_elem_of_fmap. exists seg. split; [done|]. pose proof (split_list_segs p (chars s)) as Hf.
  rewrite Forall_forall in Hf. by apply Hf.
Qed.

(** A part of a text. *)
Definition sub_of (t s : bytes) : Prop := ∃ l r, s = l ++ t ++ r.

Lemma slice_sub_of a b s : sub_of (slice a b s) s.
Proof. exists (take a s), (drop (b - a) (drop a s)). unfold slice. by rewrite take_drop, take_drop. Qed.

Lemma sub_of_trans a b c : sub_of a b → sub_of b c → sub_of a c.
Proof. intros (l & r & ->) (l' & r' & ->). exists (l' ++ l), (r ++ r'). by rewrite <- !app_assoc. Qed.

Lemma split_list_sub p cs :
  ∃ seg segs, split_list p cs = seg :: segs ∧ (∃ r, cs = seg ++ r) ∧ ∀ s, s ∈ seg :: segs → ∃ l r, cs = l ++ s ++ r.
Proof.
  induction cs as [|c cs (seg & segs & E & [r Hr] & IH)]; cbn.
  { exists [], []. split_and!; [done|by exists []|]. intros s ->%list_elem_of_singleton. by exists [], []. }
  rewrite E. destruct (p c).
  - exists [], (seg :: segs). split_and!; [done|by eexists|]. intros s [->|Hs]%elem_of_cons; [by exists [], (c :: cs)|].
    destruct (IH _ Hs) as (l & r' & ->). by exists (c :: l), r'.
  - exists (c :: seg), segs. split_and!; [done|exists r; by rewrite Hr|]. intros s [->|Hs]%elem_of_cons.
    + exists [], r. by rewrite Hr.
    + destruct (IH s ltac:(by right)) as (l & r' & ->). by exists (c :: l), r'.
Qed.

Lemma split_by_sub p s t : t ∈ split_by p s → sub_of t s.
Proof.
  intros (seg & -> & Hs)%list_elem_of_fmap. destruct (split_list_sub p (chars s)) as (? & ? & E & _ & H).
  rewrite E in Hs. destruct (H _ Hs) as (l & r & Hc). exists (concat l), (concat r).
  by rewrite <- (chars_concat s), Hc, !concat_app.
Qed.

(** Text whose characters are all of a class. *)
Definition all_chars (p : char → bool) (s : bytes) : Prop := ∃ cs, s = concat cs ∧ Forall (λ c, p c = true) cs ∧ Forall (λ c, c ≠ []) cs.
