(* ===== verification/Detect.v ===== *)
(** * Detect: the language of a file, from its path

    Models [Language] of [src/crates/protocol/src/lib.rs] and
    [src/crates/parser/src/detect.rs].  [extension] is [Path::extension] on a
    Unix path. *)
From S2P Require Import Prelude Text.
From Stdlib Require Import Lia.
Local Open Scope codesage_scope.

Inductive Language := Php | Python | C | Cpp | Java | Rust | JavaScript | TypeScript | Go.

#[export] Instance language_eq_decision : EqDecision Language.
Proof. solve_decision. Defined.

(** ** [Path::file_name] and [Path::extension] *)

(** The normal components of a path, and [..]. *)
Definition components (path : bytes) : list bytes :=
  List.filter (λ s, negb (bytes_eqb s [] || bytes_eqb s (bs "."))) (split_on "/" path).

Definition file_name (path : bytes) : option bytes :=
  match last (components path) with
  | Some s => if bytes_eqb s (bs "..") then None else Some s
  | None => None
  end.

Definition extension (path : bytes) : option bytes :=
  name ← file_name path;
  match rsplit_once "." name with
  | Some (stem, ext) => if bytes_eqb stem [] then None else Some ext
  | None => None
  end.

(** ** [detect_language] *)

Definition is_c_header_extension (ext : bytes) : bool :=
  contains_word (map bs ["h"; "hh"; "hpp"; "hxx"; "h++"; "cuh"; "tpp"; "ipp"]%string) ext.

Definition is_unambiguous_cpp_extension (ext : bytes) : bool :=
  contains_word (map bs ["cpp"; "cc"; "cxx"; "c++"; "cppm"; "ixx"; "hpp"; "hh"; "hxx"; "h++"; "tpp"; "ipp"]%string) ext.

Definition detect_language_with_dialect (path : bytes) (header_is_cpp : bool) : option Language :=
  ext ← extension path;
  let one_of (l : list string) := contains_word (map bs l) ext in
  if one_of ["php"]%string then Some Php
  else if one_of ["py"; "pyi"]%string then Some Python
  else if one_of ["c"]%string then Some C
  else if one_of ["h"]%string then Some (if header_is_cpp then Cpp else C)
  else if one_of ["cu"; "cuh"]%string then Some Cpp
  else if is_unambiguous_cpp_extension ext then Some Cpp
  else if one_of ["java"]%string then Some Java
  else if one_of ["rs"]%string then Some Rust
  else if one_of ["js"; "mjs"; "cjs"; "jsx"]%string then Some JavaScript
  else if one_of ["ts"; "tsx"; "mts"; "cts"]%string then Some TypeScript
  else if one_of ["go"]%string then Some Go
  else None.

Definition detect_language (path : bytes) : option Language := detect_language_with_dialect path false.

(** ** The extension of a path with a known end *)

Lemma split_on_snoc c s b : c ≠ b → ∃ segs x, split_on c s = segs ++ [x] ∧ split_on c (s ++ [b]) = segs ++ [x ++ [b]].
Proof.
  intros Hne. induction s as [|d s (segs & x & E & E2)]; simpl.
  - exists [], []. split; [done|]. destruct (beq_spec b c); [congruence|done].
  - destruct (d =? c)%byte eqn:Ed.
    + exists ([] :: segs), x. by rewrite E, E2.
    + rewrite E, E2. destruct segs as [|seg segs]; simpl; [exists [], (d :: x)|exists ((d :: seg) :: segs), x]; done.
Qed.

Lemma split_on_app_last c s t : c ∉ t → ∃ segs x, split_on c s = segs ++ [x] ∧ split_on c (s ++ t) = segs ++ [x ++ t].
Proof.
  induction t as [|b t IH] using rev_ind; intros Ht.
  - destruct (split_on_snoc c s (if (c =? x00)%byte then x01 else x00)) as (segs & x & E & _).
    { destruct (beq_spec c x00); congruence. }
    exists segs, x. by rewrite !app_nil_r.
  - apply not_elem_of_app in Ht as [Ht Hb%not_elem_of_cons]. destruct Hb as [Hb _].
    destruct (IH Ht) as (segs & x & E & E2). destruct (split_on_snoc c (s ++ t) b Hb) as (segs' & x' & E' & E2').
    rewrite E2 in E'. apply app_inj_tail in E' as [<- <-]. exists segs, x. split; [done|]. by rewrite !app_assoc, E2'.
Qed.

Lemma bool_filter_snoc {A} (f : A → bool) l x : f x = true → List.filter f (l ++ [x]) = List.filter f l ++ [x].
Proof. intros Hx. rewrite List.filter_app. simpl. by rewrite Hx. Qed.

(** A path that ends in a dot and [ext] has no other extension. *)
Lemma extension_app p ext e :
  "/"%byte ∉ ext → "."%byte ∉ ext → ext ≠ [] → extension (p ++ bs "." ++ ext) = Some e → e = ext.
Proof.
  intros Hs Hd Hne. unfold extension, file_name, components.
  destruct (split_on_app_last "/" p (bs "." ++ ext)) as (segs & x & _ & ->).
  { rewrite not_elem_of_app. split; [by apply has_byte_false|done]. }
  rewrite bool_filter_snoc, last_snoc.
  - destruct (bytes_eqb _ (bs "..")); [done|]. cbn [mbind option_bind].
    change (x ++ bs "." ++ ext) with (x ++ "."%byte :: ext). rewrite rsplit_once_app by done.
    destruct (bytes_eqb x []); [done|]. by intros [= <-].
  - rewrite negb_true_iff, orb_false_iff. split.
    + destruct (bytes_eqb_spec (x ++ bs "." ++ ext) []) as [E|]; [|done]. by apply app_eq_nil in E as [_ ?].
    + destruct (bytes_eqb_spec (x ++ bs "." ++ ext) (bs ".")) as [E|]; [|done]. exfalso.
      apply (f_equal length) in E. rewrite !length_app in E. simpl in E. destruct ext; [done|simpl in E; lia].
Qed.
