(* ===== verification/DeadRegions.v ===== *)
(** * DeadRegions: preprocessor groups no build can reach

    Models [src/crates/parser/src/preproc.rs].  The syntax tree is produced by
    the tree-sitter library; [Node] records what the code reads of it through
    the library's accessors.  [partition_point] and [binary_search] are given
    by their documented results on sorted input, and the lemmas show that the
    lists they run on are sorted. *)
From S2P Require Import Prelude Detect.
From stdpp Require Import sorting.
From Stdlib Require Import Lia.
Local Open Scope byte_scope.
Local Open Scope codesage_scope.

(** ** Syntax trees *)

Inductive Node := mkNode {
  nd_kind : string;
  nd_named : bool;
  nd_missing : bool;
  nd_start : nat;
  nd_end : nat;
  nd_field : option string;   (* the field the node has in its parent *)
  nd_children : list Node;
}.

Definition child_by_field_name (n : Node) (f : string) : option Node :=
  List.find (λ c, bool_decide (nd_field c = Some f)) (nd_children n).

Definition named_child_0 (n : Node) : option Node :=
  List.find nd_named (nd_children n).

Definition utf8_text (n : Node) (source : bytes) : bytes := slice (nd_start n) (nd_end n) source.

(** ** The dead spans of one node *)

(** [while condition.kind() == "parenthesized_expression"]; [None] is the early
    return of [?].  Each round descends to a child: the tree's depth bounds the
    rounds, and [fuel] is that depth. *)
Fixpoint strip_parens (fuel : nat) (condition : Node) : option Node :=
  if String.eqb (nd_kind condition) "parenthesized_expression" then
    match fuel with
    | 0 => None
    | S fuel => named_child_0 condition ≫= strip_parens fuel
    end
  else Some condition.

Fixpoint depth (n : Node) : nat :=
  S (list_max (map depth (nd_children n))).

Definition literal_condition (group : Node) (source : bytes) : option bool :=
  condition ← child_by_field_name group "condition";
  condition ← strip_parens (depth condition) condition;
  if negb (String.eqb (nd_kind condition) "number_literal") then None
  else
    let text := utf8_text condition source in
    if bytes_eqb text (bs "0") then Some false
    else if bytes_eqb text (bs "1") then Some true
    else None.

(** [parents] are the ancestors of [group], nearest first. *)
Fixpoint opener (group : Node) (parents : list Node) : option Node :=
  if existsb (String.eqb (nd_kind group)) ["preproc_elif"; "preproc_elifdef"; "preproc_else"]%string
  then match parents with
       | p :: ps => opener p ps
       | [] => None
       end
  else Some group.

Definition terminated_by_endif (group : Node) (parents : list Node) : bool :=
  match opener group parents with
  | None => false
  | Some o =>
      match last (nd_children o) with
      | None => false
      | Some l => String.eqb (nd_kind l) "#endif" && negb (nd_missing l)
      end
  end.

(** [(own_group_dead, else_chain_dead)], [None] for an early return. *)
Definition dead_arms (node : Node) (source : bytes) : option (bool * bool) :=
  if String.eqb (nd_kind node) "preproc_if" then
    match literal_condition node source with
    | Some false => Some (true, false)
    | Some true => Some (false, true)
    | None => None
    end
  else if String.eqb (nd_kind node) "preproc_elif"
          && bool_decide (literal_condition node source = Some false)
  then Some (true, false)
  else None.

Definition collect_dead_spans (node : Node) (parents : list Node) (source : bytes)
    : list (nat * nat) :=
  match dead_arms node source with
  | None => []
  | Some (own_group_dead, else_chain_dead) =>
      if negb (terminated_by_endif node parents) then []
      else
        let alternative := child_by_field_name node "alternative" in
        (if own_group_dead : bool then
           [(nd_start node, match alternative with
                            | Some alt => nd_start alt | None => nd_end node end)]
         else []) ++
        (if else_chain_dead : bool then
           match alternative with Some alt => [(nd_start alt, nd_end node)] | None => [] end
         else [])
  end.

(** ** Regions *)

Record DeadRegions := mkRegions { ranges : list (nat * nat); directives : list nat }.

Definition no_regions : DeadRegions := mkRegions [] [].

(** Lexicographic order on pairs, the order [sort_unstable] uses. *)
Definition range_le (a b : nat * nat) : Prop :=
  a.1 < b.1 ∨ (a.1 = b.1 ∧ a.2 ≤ b.2).

#[export] Instance range_le_decision a b : Decision (range_le a b).
Proof. unfold range_le. apply _. Defined.

(** [merged] so far, last range first. *)
Definition merge_range (acc : list (nat * nat)) (r : nat * nat) : list (nat * nat) :=
  match acc with
  | (ls, le) :: acc' => if r.1 <=? le then (ls, max le r.2) :: acc' else r :: acc
  | [] => [r]
  end.

Definition merged (rs : list (nat * nat)) : DeadRegions :=
  mkRegions (reverse (foldl merge_range [] (merge_sort range_le rs))) [].

(** The cursor walk visits the tree in pre-order; both vectors grow in that
    order. *)
Fixpoint walk (source : bytes) (parents : list Node) (n : Node) : list (nat * nat) * list nat :=
  let here_dirs := if negb (nd_named n) && String.prefix "#" (nd_kind n) then [nd_start n] else [] in
  let here_spans := collect_dead_spans n parents source in
  let below := map (walk source (n :: parents)) (nd_children n) in
  (here_spans ++ concat (map fst below), here_dirs ++ concat (map snd below)).

Definition scan (root : Node) (source : bytes) (language : Language) : DeadRegions :=
  if negb (bool_decide (language = C) || bool_decide (language = Cpp)) then no_regions
  else
    let '(rs, ds) := walk source [] root in
    mkRegions (ranges (merged rs)) ds.

(** [partition_point] on a list partitioned by [p]. *)
Definition partition_point {A} (p : A → bool) (l : list A) : nat := count_while p l.

Definition covers (self : DeadRegions) (node : Node) : bool :=
  let b := nd_start node in
  let idx := partition_point (λ r, r.1 <=? b) (ranges self) in
  match idx with
  | 0 => false
  | S i => match ranges self !! i with Some r => b <? r.2 | None => false end
  end.

(** [binary_search(&b).is_ok()] on a sorted list. *)
Definition has_directive_at (self : DeadRegions) (b : nat) : bool :=
  existsb (Nat.eqb b) (directives self).

(** ** Merging keeps the union *)

Definition in_ranges (rs : list (nat * nat)) (b : nat) : Prop :=
  ∃ r, r ∈ rs ∧ r.1 ≤ b < r.2.

Lemma in_ranges_nil b : in_ranges [] b ↔ False.
Proof. split; [intros (? & ?%not_elem_of_nil & _); done | done]. Qed.

Lemma in_ranges_cons r rs b : in_ranges (r :: rs) b ↔ r.1 ≤ b < r.2 ∨ in_ranges rs b.
Proof.
  unfold in_ranges. split.
  - intros (x & [->|Hx]%elem_of_cons & Hb); [by left|right; eauto].
  - intros [Hb|(x & Hx & Hb)]; [exists r; split; [by left|done]|exists x; split; [by right|done]].
Qed.

Lemma in_ranges_perm rs rs' b : rs ≡ₚ rs' → in_ranges rs b ↔ in_ranges rs' b.
Proof. intros H. unfold in_ranges. by setoid_rewrite H. Qed.

#[export] Instance range_le_total : Total range_le.
Proof. intros [a b] [c d]. unfold range_le; simpl. lia. Qed.

#[export] Instance range_le_trans : Transitive range_le.
Proof. intros [a b] [c d] [e f]. unfold range_le; simpl. lia. Qed.

(** Ranges before [b] end before it starts. *)
Definition before (a b : nat * nat) : Prop := a.2 < b.1 ∧ a.1 ≤ b.1.

Definition acc_ok (acc : list (nat * nat)) : Prop := StronglySorted (flip before) acc.

Lemma merge_range_ok acc r b :
  acc_ok acc → Forall (λ x, x.1 ≤ r.1) acc →
  acc_ok (merge_range acc r)
  ∧ Forall (λ x, x.1 ≤ r.1) (merge_range acc r)
  ∧ (in_ranges (merge_range acc r) b ↔ r.1 ≤ b < r.2 ∨ in_ranges acc b).
Proof.
  intros Hok Hle. destruct acc as [|[ls le] acc]; simpl.
  { split_and!; [repeat constructor|repeat constructor; done|].
    rewrite in_ranges_cons, in_ranges_nil. done. }
  inversion_clear Hok as [|? ? Hok' Hbelow]. inversion_clear Hle as [|? ? Hls Hle']. simpl in Hls.
  destruct (r.1 <=? le) eqn:E; [apply Nat.leb_le in E | apply Nat.leb_gt in E].
  - split_and!.
    + constructor; [done|]. eapply Forall_impl; [exact Hbelow|]. by intros x.
    + by constructor.
    + rewrite !in_ranges_cons; simpl. generalize (in_ranges acc b). intros P. destruct r; simpl in *.
      intuition lia.
  - split_and!.
    + constructor; [by constructor|]. unfold flip, before in *; simpl in *.
      constructor; [simpl; lia|].
      eapply Forall_impl; [exact Hbelow|]. intros x; simpl. lia.
    + constructor; [lia|]. by constructor.
    + by rewrite in_ranges_cons.
Qed.

Lemma foldl_merge_ok rs acc b :
  StronglySorted range_le rs → acc_ok acc →
  Forall (λ r : nat * nat, Forall (λ x, x.1 ≤ r.1) acc) rs →
  acc_ok (foldl merge_range acc rs)
  ∧ (in_ranges (foldl merge_range acc rs) b ↔ in_ranges rs b ∨ in_ranges acc b).
Proof.
  intros Hs; revert acc; induction Hs as [|r rs Hs IH Hr]; intros acc Hok Hacc; simpl.
  { rewrite in_ranges_nil. tauto. }
  inversion_clear Hacc as [|? ? Hle Hrest].
  destruct (merge_range_ok acc r b Hok Hle) as (Hok' & Hle' & Hin).
  destruct (IH (merge_range acc r) Hok') as [H1 H2].
  { rewrite Forall_forall in Hr |- *. intros x Hx. specialize (Hr x Hx).
    eapply Forall_impl; [exact Hle'|]. intros y Hy. unfold range_le in Hr; simpl in *; lia. }
  split; [done|]. rewrite H2, Hin, in_ranges_cons. tauto.
Qed.

Lemma StronglySorted_snoc {A} (R : relation A) l x :
  StronglySorted R l → Forall (λ y, R y x) l → StronglySorted R (l ++ [x]).
Proof.
  induction 1 as [|y l Hs IH Hy]; simpl; intros Hx; [repeat constructor|].
  inversion_clear Hx. constructor; [auto|]. apply Forall_app. split; [done|]. by constructor.
Qed.

Lemma StronglySorted_reverse_flip {A} (R : relation A) l :
  StronglySorted R l → StronglySorted (flip R) (reverse l).
Proof.
  induction 1 as [|x l _ IH Hx]; [constructor|]. rewrite reverse_cons.
  apply StronglySorted_snoc; [done|]. by apply Forall_reverse.
Qed.

Lemma merged_sorted rs : StronglySorted before (ranges (merged rs)).
Proof.
  unfold merged; simpl.
  destruct (foldl_merge_ok (merge_sort range_le rs) [] 0) as [H _].
  - apply StronglySorted_merge_sort; apply _.
  - constructor.
  - apply Forall_forall. constructor.
  - apply StronglySorted_reverse_flip in H. exact H.
Qed.

Lemma merged_in_ranges rs b : in_ranges (ranges (merged rs)) b ↔ in_ranges rs b.
Proof.
  unfold merged; simpl. rewrite (in_ranges_perm (reverse _) _ b (reverse_Permutation _)).
  destruct (foldl_merge_ok (merge_sort range_le rs) [] b) as [_ H].
  - apply StronglySorted_merge_sort; apply _.
  - constructor.
  - apply Forall_forall. constructor.
  - rewrite H, in_ranges_nil, (in_ranges_perm _ rs); [tauto|]. apply merge_sort_Permutation.
Qed.

(** The lookup of [covers] on a list of ranges. *)
Definition covered (rs : list (nat * nat)) (b : nat) : bool :=
  match partition_point (λ r, r.1 <=? b) rs with
  | 0 => false
  | S i => match rs !! i with Some r => b <? r.2 | None => false end
  end.

Lemma covered_spec rs b :
  StronglySorted before rs → covered rs b = true ↔ in_ranges rs b.
Proof.
  unfold covered, partition_point.
  induction 1 as [|x rs Hs IH Hx]; simpl; [by rewrite in_ranges_nil|].
  assert (∀ r, r ∈ rs → x.2 < r.1 ∧ x.1 ≤ r.1) as Hx' by (by apply Forall_forall).
  rewrite in_ranges_cons.
  destruct (x.1 <=? b) eqn:E; [apply Nat.leb_le in E | apply Nat.leb_gt in E].
  2:{ split; [done|]. intros [?|(r & Hr & ?)]; [lia|]. specialize (Hx' r Hr). lia. }
  destruct rs as [|y rs]; simpl in *.
  { rewrite in_ranges_nil, Nat.ltb_lt. intuition lia. }
  destruct (y.1 <=? b) eqn:Ey; [apply Nat.leb_le in Ey | apply Nat.leb_gt in Ey]; simpl.
  - rewrite IH. specialize (Hx' y (list_elem_of_here _ _)). intuition lia.
  - rewrite Nat.ltb_lt. split; [lia|]. intros [?|H]; [lia|]. apply IH in H. done.
Qed.

Lemma covers_covered rs n : covers rs n = covered (ranges rs) (nd_start n).
Proof. done. Qed.

(** The predicate of [partition_point] is monotone on merged ranges: binary
    search finds the boundary. *)
Lemma merged_partitioned rs b i j ri rj :
  ranges (merged rs) !! i = Some ri → ranges (merged rs) !! j = Some rj → i ≤ j →
  rj.1 ≤ b → ri.1 ≤ b.
Proof.
  intros Hi Hj Hij Hb. destruct (decide (i = j)) as [->|]; [simplify_eq; lia|].
  pose proof (merged_sorted rs) as Hs.
  assert (before ri rj) as [_ ?]; [|lia].
  revert i j Hi Hj Hij n. induction Hs as [|x l Hs IH Hx]; intros i j Hi Hj Hij Hne; [done|].
  destruct j as [|j]; [lia|]. destruct i as [|i]; simpl in *.
  - simplify_eq. eapply Forall_lookup_1 in Hx; eauto.
  - eapply (IH i j); eauto; lia.
Qed.

(** ** The walk over the tree *)

Definition Node_induction (P : Node → Prop)
    (step : ∀ n, Forall P (nd_children n) → P n) : ∀ n, P n :=
  fix go n := step n
    ((fix all (l : list Node) : Forall P l :=
        match l with
        | [] => Forall_nil_2 P
        | c :: l' => Forall_cons_2 P c l' (go c) (all l')
        end) (nd_children n)).

(** [visits ps n qs m]: walking [n], whose ancestors are [ps], reaches [m] with
    ancestors [qs]. *)
Inductive visits : list Node → Node → list Node → Node → Prop :=
| visits_here ps n : visits ps n ps n
| visits_child ps n c qs m :
    c ∈ nd_children n → visits (n :: ps) c qs m → visits ps n qs m.

Lemma walk_unfold source ps n :
  walk source ps n =
  (collect_dead_spans n ps source ++ concat (map fst (map (walk source (n :: ps)) (nd_children n))),
   (if negb (nd_named n) && String.prefix "#" (nd_kind n) then [nd_start n] else [])
   ++ concat (map snd (map (walk source (n :: ps)) (nd_children n)))).
Proof. by destruct n. Qed.

Lemma elem_of_concat_map {A B} (f : A → list B) (l : list A) (x : B) :
  x ∈ concat (map f l) ↔ ∃ a, a ∈ l ∧ x ∈ f a.
Proof.
  induction l as [|a l IH]; simpl.
  - split; [by intros ?%not_elem_of_nil | by intros (? & ?%not_elem_of_nil & _)].
  - rewrite elem_of_app, IH. setoid_rewrite elem_of_cons. naive_solver.
Qed.

Lemma walk_spans source n : ∀ ps r,
  r ∈ (walk source ps n).1 ↔
  ∃ qs m, visits ps n qs m ∧ r ∈ collect_dead_spans m qs source.
Proof.
  induction n as [n IH] using Node_induction. intros ps r. rewrite walk_unfold. simpl.
  rewrite elem_of_app, map_map, elem_of_concat_map. rewrite Forall_forall in IH. split.
  - intros [H|(c & Hc & H)]; [exists ps, n; split; [constructor|done]|].
    apply (IH c Hc) in H as (qs & m & ? & ?). exists qs, m. split; [|done]. by eapply visits_child.
  - intros (qs & m & Hv & H). inversion Hv as [|? ? c ? ? Hc Hv']; subst; [by left|].
    right. exists c. split; [done|]. apply (IH c Hc). eauto.
Qed.

(** The shape tree-sitter documents for a tree: children lie in order inside
    their parent. *)
Inductive wf_node : Node → Prop :=
| wf_node_intro n :
    nd_start n ≤ nd_end n → Forall wf_node (nd_children n) →
    Forall (λ c, nd_start n ≤ nd_start c ∧ nd_end c ≤ nd_end n) (nd_children n) →
    StronglySorted (λ a b, nd_end a ≤ nd_start b) (nd_children n) →
    wf_node n.

Definition sorted_within (lo hi : nat) (l : list nat) : Prop :=
  StronglySorted le l ∧ Forall (λ d, lo ≤ d ≤ hi) l.

Lemma sorted_within_nil lo hi : sorted_within lo hi [].
Proof. split; constructor. Qed.

Lemma sorted_within_app lo mid hi l1 l2 :
  lo ≤ mid ≤ hi → sorted_within lo mid l1 → sorted_within mid hi l2 →
  sorted_within lo hi (l1 ++ l2).
Proof.
  intros Hle [S1 F1] [S2 F2]. split.
  - induction S1 as [|x l1 S1 IH Hx]; simpl; [done|]. inversion_clear F1.
    constructor; [auto|]. apply Forall_app. split; [done|].
    eapply Forall_impl; [exact F2|]. simpl. lia.
  - apply Forall_app; split; (eapply Forall_impl; [eassumption|]); simpl; lia.
Qed.

Lemma sorted_within_children (f : Node → list nat) lo hi cs :
  lo ≤ hi → Forall (λ c, sorted_within (nd_start c) (nd_end c) (f c)) cs →
  Forall (λ c, nd_start c ≤ nd_end c) cs →
  Forall (λ c, lo ≤ nd_start c ∧ nd_end c ≤ hi) cs →
  StronglySorted (λ a b, nd_end a ≤ nd_start b) cs →
  sorted_within lo hi (concat (map f cs)).
Proof.
  intros Hlh Hf Hse Hin Hs. revert lo Hlh Hin.
  induction Hs as [|c cs Hs IH Hc]; intros lo Hlh Hin; simpl; [apply sorted_within_nil|].
  inversion_clear Hf as [|? ? Hfc Hf']. inversion_clear Hse as [|? ? Hsc Hse'].
  inversion_clear Hin as [|? ? [Hl Hh] Hin'].
  apply (sorted_within_app lo (nd_end c) hi); [lia| |].
  - destruct Hfc as [? F]. split; [done|]. eapply Forall_impl; [exact F|]. simpl. lia.
  - apply IH; [done..|lia|]. rewrite Forall_forall in *. intros y Hy.
    specialize (Hc y Hy). specialize (Hin' y Hy). simpl in *. lia.
Qed.

(** The directive offsets are sorted, as [binary_search] requires. *)
Lemma walk_directives_sorted source n : ∀ ps,
  wf_node n → sorted_within (nd_start n) (nd_end n) (walk source ps n).2.
Proof.
  induction n as [n IH] using Node_induction. intros ps Hwf. rewrite walk_unfold. simpl.
  inversion_clear Hwf as [? Hse Hwfc Hin Hs].
  apply (sorted_within_app _ (nd_start n)); [lia| |].
  { destruct (_ && _); [|apply sorted_within_nil]. split; repeat constructor. }
  rewrite map_map. apply sorted_within_children; [lia| | |done|done].
  - rewrite Forall_forall in *. intros c Hc. by apply IH, Hwfc.
  - eapply Forall_impl; [exact Hwfc|]. by inversion_clear 1.
Qed.

(** ** Properties *)

(** On a C or C++ tree, [covers] holds of a node exactly when the node
    starts inside a span that some visited node establishes as dead; sorting
    and merging the spans loses and adds nothing. In other languages nothing is
    covered. *)
Theorem scan_covers (root : Node) (source : bytes) (language : Language) (n : Node) :
  covers (scan root source language) n = true ↔
  (language = C ∨ language = Cpp) ∧
  ∃ parents m r, visits [] root parents m ∧ r ∈ collect_dead_spans m parents source
    ∧ r.1 ≤ nd_start n < r.2.
Proof.
  unfold scan. destruct (negb _) eqn:El.
  { apply negb_true_iff, orb_false_iff in El as [?%bool_decide_eq_false ?%bool_decide_eq_false].
    split; [done|]. intros [[?|?] _]; done. }
  apply negb_false_iff, orb_true_iff in El. rewrite !bool_decide_eq_true in El.
  destruct (walk source [] root) as [rs ds] eqn:Ew. rewrite covers_covered. simpl ranges.
  rewrite covered_spec by apply merged_sorted.
  change (ranges (mkRegions ?r ds)) with r. rewrite (merged_in_ranges rs). unfold in_ranges.
  pose proof (walk_spans source root []) as Hw. rewrite Ew in Hw. simpl in Hw.
  setoid_rewrite Hw. naive_solver.
Qed.
