(* ===== verification/SplitArms.v ===== *)
(** * SplitArms: reducing conditional groups whose arms split a statement

    Models [src/crates/parser/src/preproc_arms.rs].  [Scan] is the Rust struct:
    [sc_sinks] and [sc_groups] are the vectors used as stacks, top first;
    [sc_braces], [sc_parens], the arms of a group and every list of spans keep
    the vector's order, last element last.  Operations that index, [truncate]
    or [expect] are in the [outcome] monad. *)
From S2P Require Import Prelude Text CLexer DeadRegions.
From Stdlib Require Import ZArith Lia.
Local Open Scope byte_scope.
Local Open Scope codesage_scope.

(** ** Directives *)

Inductive ArmDirective :=
| DIf (literal : option bool)
| DElse (literal : option bool)
| DEndif.

Definition trim_start (text : bytes) : bytes :=
  drop (count_while is_ascii_whitespace text) text.

Definition trim (text : bytes) : bytes :=
  let text := trim_start text in
  take (length text - count_while is_ascii_whitespace (reverse text)) text.

Definition is_word (b : byte) : bool := is_ascii_alphanumeric b || (b =? "_").

(** The directive name after [#], or empty when [text] is not a directive. *)
Definition keyword (text : bytes) : bytes :=
  match strip_prefix (bs "#") text with
  | None => []
  | Some rest => let rest := trim_start rest in take (count_while is_word rest) rest
  end.

(** [windows(2).position(|w| w == "/*" || w == "//")]. *)
Fixpoint comment_position (l : bytes) : option nat :=
  if starts_with (bs "/*") l || starts_with (bs "//") l then Some 0
  else match l with [] => None | _ :: l' => S <$> comment_position l' end.

(** [while let Some(inner) = ...]: each round drops two bytes. *)
Fixpoint strip_literal_parens (fuel : nat) (text : bytes) : bytes :=
  match fuel with
  | 0 => text
  | S fuel =>
      match strip_prefix (bs "(") text ≫= strip_suffix (bs ")") with
      | Some inner => strip_literal_parens fuel (trim inner)
      | None => text
      end
  end.

Definition literal (condition : bytes) : option bool :=
  let e := default (length condition) (comment_position condition) in
  let text := trim (take e condition) in
  let text := strip_literal_parens (length text) text in
  if bytes_eqb text (bs "0") then Some false
  else if bytes_eqb text (bs "1") then Some true
  else None.

Definition directive (text : bytes) : option ArmDirective :=
  rest ← strip_prefix (bs "#") text;
  let rest := trim_start rest in
  let len := count_while is_word rest in
  let keyword := take len rest in
  let condition := drop len rest in
  if bytes_eqb keyword (bs "if") then Some (DIf (literal condition))
  else if contains_word [bs "ifdef"; bs "ifndef"] keyword then Some (DIf None)
  else if bytes_eqb keyword (bs "elif") then Some (DElse (literal condition))
  else if contains_word [bs "elifdef"; bs "elifndef"; bs "else"] keyword then Some (DElse None)
  else if bytes_eqb keyword (bs "endif") then Some DEndif
  else None.

(** ** Bracket accounting *)

Record Depth := mkDepth { net : Z; low : Z }.

Definition depth_default : Depth := mkDepth 0 0.

Definition depth_step (d : Depth) (delta : Z) : Depth :=
  let net' := (net d + delta)%Z in mkDepth net' (low d `min` net')%Z.

Definition depth_then (d next : Depth) : Depth :=
  mkDepth (net d + net next) (low d `min` (net d + low next)).

Definition balanced (d : Depth) : bool := (net d =? 0)%Z && (low d =? 0)%Z.

(** ** State *)

Inductive First := Unseen | FElse | FOther.
Inductive BraceKind := BFunction | BBlock | BOther.
Inductive Prev := Boundary | BodyHead | POther.
Inductive Position := PStart | AfterCloser | Inside.

#[export] Instance first_eq_decision : EqDecision First.
Proof. solve_decision. Defined.
#[export] Instance brace_kind_eq_decision : EqDecision BraceKind.
Proof. solve_decision. Defined.
#[export] Instance prev_eq_decision : EqDecision Prev.
Proof. solve_decision. Defined.
#[export] Instance position_eq_decision : EqDecision Position.
Proof. solve_decision. Defined.

Record Open := mkOpen { op_at : nat; op_kind : BraceKind; op_blocks : Z }.

Abbreviation Span := (nat * nat)%type.

Record Closer := mkCloser { cl_at : nat; cl_else_after : option Span }.

Record Sink := mkSink {
  brace_base : nat;
  paren_base : nat;
  closers : list Closer;
  paren_closed : bool;
  leading_else : option Span;
  position : Position;
  prev : Prev;
  opaque : bool;
}.

Definition sink_new (brace_base paren_base : nat) (prev : Prev) : Sink :=
  mkSink brace_base paren_base [] false None PStart prev false.

Record Arm := mkArm {
  arm_directive : Span;
  arm_literal : option bool;
  arm_braces : Depth;
  arm_parens : Depth;
  arm_first : First;
  arm_sandboxed : bool;
}.

Definition arm_new (directive : Span) (literal : option bool) (sandboxed : bool) : Arm :=
  mkArm directive literal depth_default depth_default Unseen sandboxed.

Definition whole (a : Arm) : bool :=
  balanced (arm_braces a) && balanced (arm_parens a)
  && negb (bool_decide (arm_first a = FElse)).

Record Group := mkGroup {
  arms : list Arm;
  kept : option nat;
  taken : bool;
  in_body : bool;
  g_blocks : Z;
  prev_at_open : Prev;
  pending : list Span;
}.

Record Scan := mkScan {
  sc_braces : list Open;
  sc_parens : list nat;
  sc_sinks : list Sink;
  sc_groups : list Group;
  sc_blanks : list Span;
}.

Definition scan_default : Scan := mkScan [] [] [] [] [].

(** ** Updates of the top of a stack and of fields *)

Definition set_braces f s := mkScan (f (sc_braces s)) (sc_parens s) (sc_sinks s) (sc_groups s) (sc_blanks s).
Definition set_parens f s := mkScan (sc_braces s) (f (sc_parens s)) (sc_sinks s) (sc_groups s) (sc_blanks s).
Definition set_sinks f s := mkScan (sc_braces s) (sc_parens s) (f (sc_sinks s)) (sc_groups s) (sc_blanks s).
Definition set_groups f s := mkScan (sc_braces s) (sc_parens s) (sc_sinks s) (f (sc_groups s)) (sc_blanks s).
Definition add_blanks bl s := mkScan (sc_braces s) (sc_parens s) (sc_sinks s) (sc_groups s) (sc_blanks s ++ bl).

Definition set_position p k := mkSink (brace_base k) (paren_base k) (closers k) (paren_closed k) (leading_else k) p (prev k) (opaque k).
Definition set_prev p k := mkSink (brace_base k) (paren_base k) (closers k) (paren_closed k) (leading_else k) (position k) p (opaque k).
Definition set_leading_else e k := mkSink (brace_base k) (paren_base k) (closers k) (paren_closed k) e (position k) (prev k) (opaque k).
Definition set_closers f k := mkSink (brace_base k) (paren_base k) (f (closers k)) (paren_closed k) (leading_else k) (position k) (prev k) (opaque k).
Definition set_paren_closed k := mkSink (brace_base k) (paren_base k) (closers k) true (leading_else k) (position k) (prev k) (opaque k).
Definition set_opaque k := mkSink (brace_base k) (paren_base k) (closers k) (paren_closed k) (leading_else k) (position k) (prev k) true.

Definition set_arms f g := mkGroup (f (arms g)) (kept g) (taken g) (in_body g) (g_blocks g) (prev_at_open g) (pending g).
Definition add_pending p g := mkGroup (arms g) (kept g) (taken g) (in_body g) (g_blocks g) (prev_at_open g) (pending g ++ p).

Definition set_arm_braces f a := mkArm (arm_directive a) (arm_literal a) (f (arm_braces a)) (arm_parens a) (arm_first a) (arm_sandboxed a).
Definition set_arm_parens f a := mkArm (arm_directive a) (arm_literal a) (arm_braces a) (f (arm_parens a)) (arm_first a) (arm_sandboxed a).
Definition set_arm_first v a := mkArm (arm_directive a) (arm_literal a) (arm_braces a) (arm_parens a) v (arm_sandboxed a).

(** [if let Some(x) = v.last_mut() { f(x) }]. *)
Fixpoint alter_last {A} (f : A → A) (l : list A) : list A :=
  match l with
  | [] => []
  | [x] => [f x]
  | x :: l' => x :: alter_last f l'
  end.

Definition alter_top {A} (f : A → A) (l : list A) : list A :=
  match l with [] => [] | x :: l' => f x :: l' end.

(** [Scan::sink]: the top sink, the root sink being pushed when there is none. *)
Definition root_sink : Sink := sink_new 0 0 Boundary.

Definition ensure_sink (s : Scan) : Scan :=
  set_sinks (λ sinks, match sinks with [] => [root_sink] | _ => sinks end) s.

Definition top_sink (s : Scan) : Sink := default root_sink (head (sc_sinks s)).

Definition with_sink (f : Sink → Sink) (s : Scan) : Scan :=
  set_sinks (alter_top f) (ensure_sink s).

(** ** [Scan::token] *)

Definition is_else (text : bytes) : bool := bytes_eqb text (bs "else").

(** The bracket and first-token accounting of the innermost open arm. *)
Definition arm_token (kind : Kind) (text : bytes) (a : Arm) : Arm :=
  let a := if bool_decide (arm_first a = Unseen)
           then set_arm_first (if is_else text then FElse else FOther) a else a in
  match kind with
  | Punct b =>
      if b =? "{" then set_arm_braces (λ d, depth_step d 1) a
      else if b =? "}" then set_arm_braces (λ d, depth_step d (-1)) a
      else if b =? "(" then set_arm_parens (λ d, depth_step d 1) a
      else if b =? ")" then set_arm_parens (λ d, depth_step d (-1)) a
      else a
  | _ => a
  end.

Definition token_in_group (kind : Kind) (text : bytes) (s : Scan) : Scan :=
  set_groups (alter_top (set_arms (alter_last (arm_token kind text)))) s.

Definition BODY_HEADS : list bytes :=
  [bs "else"; bs "do"; bs "try"; bs "const"; bs "override"; bs "final"; bs "noexcept"; bs "mutable"].

Definition ident_token_sink (start e : nat) (text : bytes) (k : Sink) : Sink :=
  let k :=
    if is_else text then
      match position k with
      | PStart => set_leading_else (Some (start, e)) k
      | AfterCloser =>
          set_closers (alter_last (λ c, mkCloser (cl_at c) (Some (start, e)))) k
      | Inside => k
      end
    else k in
  set_prev (if contains_word BODY_HEADS text then BodyHead else POther) (set_position Inside k).

Definition open_brace (start : nat) (s : Scan) : Scan :=
  let s := ensure_sink s in
  let outer := last (sc_braces s) in
  let in_body := match outer with Some o => negb (bool_decide (op_kind o = BOther)) | None => false end in
  let kind := match prev (top_sink s) with
              | BodyHead => if in_body then BBlock else BFunction
              | Boundary => if in_body then BBlock else BOther
              | POther => BOther
              end in
  let blocks := match kind, outer with
                | BBlock, Some o => if bool_decide (op_kind o = BBlock) then (op_blocks o + 1)%Z else 1%Z
                | BBlock, None => 1%Z
                | _, _ => 0%Z
                end in
  let s := set_braces (λ v, v ++ [mkOpen start kind blocks]) s in
  with_sink (λ k, set_prev Boundary (set_position Inside k)) s.

(** [v.pop()]. *)
Definition vec_pop {A} (v : list A) : list A := take (length v - 1) v.

Definition close_brace (start : nat) (s : Scan) : Scan :=
  let s := ensure_sink s in
  let base := brace_base (top_sink s) in
  let s := if base <? length (sc_braces s)
           then with_sink (set_position Inside) (set_braces vec_pop s)
           else with_sink (λ k, set_position AfterCloser
                                  (set_closers (λ v, v ++ [mkCloser start None]) k)) s in
  with_sink (set_prev Boundary) s.

Definition open_paren (start : nat) (s : Scan) : Scan :=
  with_sink (λ k, set_prev POther (set_position Inside k)) (set_parens (λ v, v ++ [start]) s).

Definition close_paren (s : Scan) : Scan :=
  let s := ensure_sink s in
  let base := paren_base (top_sink s) in
  let s := if base <? length (sc_parens s) then set_parens vec_pop s
           else with_sink set_paren_closed s in
  with_sink (λ k, set_prev BodyHead (set_position Inside k)) s.

Definition other_punct (b : byte) (s : Scan) : Scan :=
  with_sink (λ k, set_prev (if (b =? ";") || (b =? ":") then Boundary
                            else if b =? "]" then BodyHead else POther)
                           (set_position Inside k)) s.

Definition scan_token (kind : Kind) (start e : nat) (text : bytes) (s : Scan) : Scan :=
  let s := token_in_group kind text s in
  match kind with
  | Ident => with_sink (ident_token_sink start e text) s
  | Punct b =>
      if b =? "{" then open_brace start s
      else if b =? "}" then close_brace start s
      else if b =? "(" then open_paren start s
      else if b =? ")" then close_paren s
      else other_punct b s
  | _ => with_sink (λ k, set_prev POther (set_position Inside k)) s
  end.

(** ** [Scan::directive] *)

Definition start_arm (d : Span) (lit : option bool) (s : Scan) : outcome Scan :=
  match sc_groups s with
  | [] => Panic  (* expect("arm belongs to an open group") *)
  | group :: groups =>
      let index := length (arms group) in
      let is_kept := bool_decide (kept group = None) && negb (taken group)
                     && negb (bool_decide (lit = Some false)) in
      let group' :=
        mkGroup (arms group ++ [arm_new d lit (negb is_kept)])
          (if is_kept then Some index else kept group)
          (if is_kept then bool_decide (lit = Some true) else taken group)
          (in_body group) (g_blocks group) (prev_at_open group) (pending group) in
      let s := set_groups (λ _, group' :: groups) s in
      Done (if is_kept then s
            else set_sinks (λ sinks, sink_new (length (sc_braces s)) (length (sc_parens s))
                                       (prev_at_open group) :: sinks) s)
  end.

Definition closer_spans (c : Closer) : list Span :=
  (cl_at c, cl_at c + 1) :: match cl_else_after c with Some sp => [sp] | None => [] end.

Definition open_span (o : Open) : Span := (op_at o, op_at o + 1).

(** The arm is blanked whole: dead, opaque, or a piece of an expression. *)
Definition arm_whole_blank (group : Group) (arm : Arm) (k : Sink) (parens : list nat) : bool :=
  let dead := bool_decide (arm_literal arm = Some false)
              || (match kept group with Some _ => taken group | None => false end) in
  let expression := paren_closed k || (paren_base k <? length parens) in
  dead || opaque k || expression.

(** What ties a sandboxed arm to the code around it: a leading [else], closers
    without an opener and openers without a closer. *)
Definition arm_ties (k : Sink) (braces : list Open) : list Span :=
  match leading_else k with Some sp => [sp] | None => [] end
  ++ concat (map closer_spans (closers k))
  ++ map open_span (drop (brace_base k) braces).

Definition end_arm (e : nat) (s : Scan) : outcome Scan :=
  match sc_groups s with
  | [] => Panic  (* expect("arm belongs to an open group") *)
  | group :: groups =>
      arm ← of_option (last (arms group));
      if negb (arm_sandboxed arm) then Done s
      else
        match sc_sinks s with
        | [] => Panic  (* expect("sandboxed arm has a sink") *)
        | k :: sinks =>
            p ← (if arm_whole_blank group arm k (sc_parens s) then Done [((arm_directive arm).2, e)]
                 else if brace_base k <=? length (sc_braces s)
                 then Done (arm_ties k (sc_braces s))
                 else Panic  (* [self.braces[sink.brace_base..]] *));
            Done (mkScan (take (brace_base k) (sc_braces s)) (take (paren_base k) (sc_parens s))
                    sinks (add_pending p group :: groups) (sc_blanks s))
        end
  end.

Definition split_group (group : Group) (first : Arm) : bool :=
  negb (forallb whole (arms group))
  && in_body group
  && forallb (λ a, (- g_blocks group <=? low (arm_braces a))%Z) (arms group)
  && (if Nat.eqb (length (arms group)) 1
      then (net (arm_braces first) =? 0)%Z && (net (arm_parens first) =? 0)%Z
      else forallb (λ a, (net (arm_braces a) =? net (arm_braces first))%Z
                         && (net (arm_parens a) =? net (arm_parens first))%Z) (arms group)).

(** What an enclosing arm sees of a resolved group: its kept arm. *)
Definition absorb_arm (kept_arm parent : Arm) : Arm :=
  let parent := if bool_decide (arm_first parent = Unseen)
                then set_arm_first (arm_first kept_arm) parent else parent in
  set_arm_parens (λ d, depth_then d (arm_parens kept_arm))
    (set_arm_braces (λ d, depth_then d (arm_braces kept_arm)) parent).

Definition resolve (endif : Span) (s : Scan) : outcome Scan :=
  match sc_groups s with
  | [] => Panic  (* expect("endif closes an open group") *)
  | group :: groups =>
      let s := set_groups (λ _, groups) s in
      match kept group with
      | None => Done s
      | Some i =>
          first ← of_option (arms group !! 0);
          let s :=
            if split_group group first then
              add_blanks (pending group ++ map arm_directive (arms group) ++ [endif]) s
            else if negb (forallb whole (arms group)) then with_sink set_opaque s
            else s in
          kept_arm ← of_option (arms group !! i);
          Done (set_groups (alter_top (set_arms (alter_last (absorb_arm kept_arm)))) s)
      end
  end.

Definition open_group (s : Scan) : Scan :=
  let s := ensure_sink s in
  let outer := last (sc_braces s) in
  let in_body := match outer with Some o => negb (bool_decide (op_kind o = BOther)) | None => false end in
  let blocks := match outer with Some o => op_blocks o | None => 0%Z end in
  set_groups (cons (mkGroup [] None false in_body blocks (prev (top_sink s)) [])) s.

Definition scan_directive (start e : nat) (text : bytes) (s : Scan) : outcome Scan :=
  match directive text with
  | Some (DIf lit) => start_arm (start, e) lit (open_group s)
  | Some (DElse lit) =>
      match sc_groups s with
      | [] => Done s
      | _ => s ← end_arm start s; start_arm (start, e) lit s
      end
  | Some DEndif =>
      match sc_groups s with
      | [] => Done s
      | _ => s ← end_arm start s; resolve (start, e) s
      end
  | None => Done s
  end.

(** ** [select_split_arms] *)

Definition is_blank (b : byte) : bool := (b =? SP) || (b =? x09).

Fixpoint conditional_line (line_start : bool) (source : bytes) : bool :=
  match source with
  | [] => false
  | b :: rest =>
      if b =? LF then conditional_line true rest
      else if line_start && (b =? "#") then
        if starts_with (bs "if") (drop (count_while is_blank rest) rest) then true
        else conditional_line false rest
      else conditional_line (line_start && (is_blank b || (b =? CR))) rest
  end.

Definition has_conditional_directive (source : bytes) : bool := conditional_line true source.

Definition blank_range (out : bytes) (sp : Span) : outcome bytes :=
  span ← slice_get sp.1 sp.2 out;
  copy_at sp.1 (map blank_byte span) out.

Fixpoint blank_ranges (spans : list Span) (out : bytes) : outcome bytes :=
  match spans with
  | [] => Done out
  | sp :: spans => out ← blank_range out sp; blank_ranges spans out
  end.

Definition CHECK_EVERY : nat := 4096.

Section select.
(** [check n] is what the [n]-th call of [WorkControl::check] returns: [None] to
    continue, or the error that stops the work. *)
Context {E : Type} (check : nat → option E).

Fixpoint scan_tokens (source : bytes) (toks : list Token) (since_check calls : nat) (s : Scan)
    : outcome (Scan + E) :=
  match toks with
  | [] => Done (inl s)
  | t :: toks =>
      if bool_decide (tk_kind t = Directive) then
        match check calls with
        | Some err => Done (inr err)
        | None =>
            s ← scan_directive (tk_start t) (tk_end t) (text t source) s;
            scan_tokens source toks since_check (calls + 1) s
        end
      else
        let go := scan_token (tk_kind t) (tk_start t) (tk_end t) (text t source) s in
        if Nat.eqb (since_check + 1) CHECK_EVERY then
          match check calls with
          | Some err => Done (inr err)
          | None => scan_tokens source toks 0 (calls + 1) go
          end
        else scan_tokens source toks (since_check + 1) calls go
  end.

Definition select_split_arms (source : bytes) : outcome (option bytes + E) :=
  if negb (has_conditional_directive source) then Done (inl None)
  else
    r ← scan_tokens source (tokenize source) 0 0 scan_default;
    match r with
    | inr err => Done (inr err)
    | inl s =>
        match sc_blanks s with
        | [] => Done (inl None)
        | blanks => out ← blank_ranges blanks source; Done (inl (Some out))
        end
    end.
End select.

(** ** [blanked_conditions] *)

Definition memchr_newline (source : bytes) (from : nat) : nat :=
  let from' := min from (length source) in
  match find_byte LF (drop from' source) with
  | Some p => from + p
  | None => length source
  end.

Definition continues_line (source : bytes) (nl : nat) : bool :=
  let e := if (0 <? nl) && at_is source (nl - 1) CR then nl - 1 else nl in
  (0 <? e) && at_is source (e - 1) "\".

Fixpoint extend_line (fuel : nat) (source : bytes) (line_end : nat) : nat :=
  match fuel with
  | 0 => line_end
  | S fuel =>
      if (line_end <? length source) && continues_line source line_end
      then extend_line fuel source (memchr_newline source (line_end + 1))
      else line_end
  end.

Definition is_condition_keyword (w : bytes) : bool := contains_word [bs "if"; bs "elif"] w.

Fixpoint call_condition_line (fuel : nat) (source : bytes) (dead : DeadRegions) (i : nat) : bool :=
  match fuel with
  | 0 => false
  | S fuel =>
      if length source <=? i then false
      else
        let line_end := extend_line (length source) source (memchr_newline source i) in
        let hash := i + count_while is_blank (slice i line_end source) in
        if at_is source hash "#"
           && is_condition_keyword (keyword (slice hash line_end source))
           && has_byte "(" (slice hash line_end source)
           && negb (has_directive_at dead hash)
        then true
        else call_condition_line fuel source dead (line_end + 1)
  end.

Definition has_blanked_call_condition_line (source : bytes) (dead : DeadRegions) : bool :=
  call_condition_line (length source) source dead 0.

(** The directive tokens the tree lost, and whether a condition can call. *)
Definition blanked_directives (source : bytes) (dead : DeadRegions) : list Token :=
  filter (λ t, tk_kind t = Directive ∧ has_directive_at dead (tk_start t) = false
               ∧ is_Some (directive (text t source))) (tokenize source).

Definition is_call_condition (source : bytes) (t : Token) : bool :=
  is_condition_keyword (keyword (text t source)) && has_byte "(" (text t source).

Fixpoint copy_spans (source : bytes) (toks : list Token) (out : bytes) : outcome bytes :=
  match toks with
  | [] => Done out
  | t :: toks =>
      span ← slice_get (tk_start t) (tk_end t) source;
      out ← copy_at (tk_start t) span out;
      copy_spans source toks out
  end.

Definition blanked_conditions (source : bytes) (dead : DeadRegions) : outcome (option bytes) :=
  if negb (has_blanked_call_condition_line source dead) then Done None
  else
    let toks := blanked_directives source dead in
    if negb (existsb (is_call_condition source) toks) then Done None
    else out ← copy_spans source toks (map blank_byte source); Done (Some out).

(** ** Stack and vector lemmas *)

Lemma length_alter_last {A} (f : A → A) l : length (alter_last f l) = length l.
Proof. induction l as [|x [|y l] IH]; simpl in *; congruence. Qed.

Lemma alter_last_snoc {A} (f : A → A) l x : alter_last f (l ++ [x]) = l ++ [f x].
Proof.
  induction l as [|y l IH]; [done|]. destruct l as [|z l]; [done|].
  change (alter_last f ((y :: z :: l) ++ [x])) with (y :: alter_last f ((z :: l) ++ [x])).
  by rewrite IH.
Qed.

Lemma last_alter_last {A} (f : A → A) l : last (alter_last f l) = f <$> last l.
Proof.
  destruct l as [|x l _] using rev_ind; [done|]. by rewrite alter_last_snoc, !last_snoc.
Qed.

Lemma Forall_alter_last {A} (P : A → Prop) (f : A → A) l :
  (∀ x, P x → P (f x)) → Forall P l → Forall P (alter_last f l).
Proof.
  intros Hf. destruct l as [|x l _] using rev_ind; [done|].
  rewrite alter_last_snoc, !Forall_app, !Forall_singleton. naive_solver.
Qed.

Lemma map_alter_last {A B} (g : A → B) (f : A → A) l :
  (∀ x, g (f x) = g x) → map g (alter_last f l) = map g l.
Proof.
  intros Hf. destruct l as [|x l _] using rev_ind; [done|].
  rewrite alter_last_snoc, !map_app. simpl. by rewrite Hf.
Qed.

Lemma length_vec_pop {A} (v : list A) : length (vec_pop v) = length v - 1.
Proof. unfold vec_pop. rewrite length_take. lia. Qed.

(** ** Shape invariant

    Sinks carry increasing bases into the brace stack; every open group has an
    arm and a kept index inside it; every group whose current arm is sandboxed
    owns a sink.  This is what the [expect]s and the slice of [end_arm] rely on. *)
Fixpoint bases_ok (len : nat) (sinks : list Sink) : Prop :=
  match sinks with
  | [] => True
  | k :: ks => brace_base k ≤ len ∧ bases_ok (brace_base k) ks
  end.

Definition current_sandboxed (g : Group) : bool :=
  match last (arms g) with Some a => arm_sandboxed a | None => false end.

Definition sandboxes (gs : list Group) : nat := length (List.filter current_sandboxed gs).

Definition group_ok (g : Group) : Prop :=
  arms g ≠ [] ∧ ∀ i, kept g = Some i → i < length (arms g).

Definition shape_ok (s : Scan) : Prop :=
  bases_ok (length (sc_braces s)) (sc_sinks s)
  ∧ sandboxes (sc_groups s) ≤ length (sc_sinks s)
  ∧ Forall group_ok (sc_groups s).

Lemma bases_ok_mono len len' sinks : len ≤ len' → bases_ok len sinks → bases_ok len' sinks.
Proof. destruct sinks; simpl; [done|]. intros ? [? ?]. split; [lia|done]. Qed.

Lemma bases_ok_ensure len s : bases_ok len (sc_sinks s) → bases_ok len (sc_sinks (ensure_sink s)).
Proof. unfold ensure_sink; simpl. destruct (sc_sinks s); [|done]. intros _. split; [simpl; lia|done]. Qed.

Lemma length_ensure s : length (sc_sinks s) ≤ length (sc_sinks (ensure_sink s)).
Proof. unfold ensure_sink; simpl. destruct (sc_sinks s); simpl; lia. Qed.

Lemma shape_ok_ensure s : shape_ok s → shape_ok (ensure_sink s).
Proof.
  intros (H1 & H2 & H3). pose proof (length_ensure s).
  split_and!; [by apply (bases_ok_ensure _ s)|simpl in *; lia|done].
Qed.

Lemma shape_ok_with_sink f s :
  (∀ k, brace_base (f k) = brace_base k) → shape_ok s → shape_ok (with_sink f s).
Proof.
  intros Hf (H1 & H2 & H3)%shape_ok_ensure. unfold with_sink, shape_ok in *.
  simpl in *. destruct (match sc_sinks s with [] => _ | _ => _ end); simpl in *; [done|].
  by rewrite Hf.
Qed.

Lemma shape_ok_braces f s :
  (∀ v, length v ≤ length (f v)) → shape_ok s → shape_ok (set_braces f s).
Proof.
  intros Hf (H1 & H2 & H3). split_and!; simpl; [|done..]. eapply bases_ok_mono; [apply Hf|done].
Qed.

Lemma shape_ok_parens f s : shape_ok s → shape_ok (set_parens f s).
Proof. done. Qed.

(** A change of the current arm that keeps its [sandboxed] flag. *)
Lemma shape_ok_last_arm f s :
  (∀ a, arm_sandboxed (f a) = arm_sandboxed a) → shape_ok s →
  shape_ok (set_groups (alter_top (set_arms (alter_last f))) s).
Proof.
  intros Hf (H1 & H2 & H3). split_and!; simpl; [done| |].
  - destruct (sc_groups s) as [|g gs]; [done|]. simpl alter_top.
    unfold sandboxes in *. cbn [List.filter] in *.
    assert (current_sandboxed (set_arms (alter_last f) g) = current_sandboxed g) as E.
    { unfold current_sandboxed; simpl. rewrite last_alter_last.
      destruct (last (arms g)); simpl; [apply Hf|done]. }
    rewrite E. by destruct (current_sandboxed g).
  - destruct (sc_groups s) as [|g gs]; [done|]. simpl. inversion_clear H3 as [|? ? [Ha Hk] Hgs].
    constructor; [|done]. split; simpl; rewrite ?length_alter_last; [|done].
    intros E. apply Ha. destruct (arms g); [done|]. apply (f_equal length) in E.
    by rewrite length_alter_last in E.
Qed.

Lemma arm_token_sandboxed kind text a : arm_sandboxed (arm_token kind text a) = arm_sandboxed a.
Proof.
  unfold arm_token. case_bool_decide; destruct kind; simpl; try done;
    repeat case_match; done.
Qed.

#[local] Ltac shape_step :=
  first [ apply shape_ok_with_sink; [intros []; done|]
        | apply shape_ok_ensure
        | apply shape_ok_parens
        | apply shape_ok_braces; [intros v; rewrite length_app; simpl; lia|] ].

Lemma brace_base_ident start e text k :
  brace_base (ident_token_sink start e text k) = brace_base k.
Proof. unfold ident_token_sink. repeat case_match; done. Qed.

Lemma top_base_ok s :
  shape_ok s → brace_base (top_sink (ensure_sink s)) ≤ length (sc_braces s).
Proof.
  intros (H & _)%shape_ok_ensure. revert H. unfold top_sink, ensure_sink; simpl.
  destruct (sc_sinks s); simpl; [lia|tauto].
Qed.

Lemma shape_ok_close_brace start s : shape_ok s → shape_ok (close_brace start s).
Proof.
  intros H. unfold close_brace. apply shape_ok_with_sink; [intros []; done|].
  destruct (_ <? _) eqn:E; [|shape_step; by apply shape_ok_ensure].
  apply Nat.ltb_lt in E. shape_step.
  apply shape_ok_ensure in H. destruct H as (H1 & H2 & H3).
  split_and!; simpl in *; [|done..]. rewrite length_vec_pop.
  revert E H1. unfold top_sink; simpl. destruct (sc_sinks s) as [|k ks]; simpl; [lia|].
  intros ? [? ?]. split; [lia|done].
Qed.

Lemma scan_token_shape kind start e text s :
  shape_ok s → shape_ok (scan_token kind start e text s).
Proof.
  intros H. unfold scan_token.
  assert (shape_ok (token_in_group kind text s)) as H'.
  { apply shape_ok_last_arm; [apply arm_token_sandboxed|done]. }
  destruct kind; try (shape_step; done).
  - apply shape_ok_with_sink; [apply brace_base_ident|done].
  - destruct (b =? "{"); [unfold open_brace; repeat shape_step; done|].
    destruct (b =? "}"); [by apply shape_ok_close_brace|].
    destruct (b =? "("); [unfold open_paren; repeat shape_step; done|].
    destruct (b =? ")"); [|unfold other_punct; shape_step; done].
    unfold close_paren. shape_step. destruct (_ <? _); repeat shape_step; done.
Qed.

Lemma open_group_shape s :
  shape_ok s → ∃ g gs, sc_groups (open_group s) = g :: gs
    ∧ arms g = [] ∧ kept g = None ∧ shape_ok (set_groups (λ _, gs) (open_group s)).
Proof.
  intros H%shape_ok_ensure. unfold open_group. simpl. eexists _, _. split; [done|].
  split_and!; done.
Qed.

(** [start_arm] with the groups below the top in shape. *)
Lemma start_arm_shape d lit s g gs :
  sc_groups s = g :: gs → (∀ i, kept g = Some i → i < length (arms g)) →
  shape_ok (set_groups (λ _, gs) s) →
  ∃ s', start_arm d lit s = Done s' ∧ shape_ok s' ∧ sc_braces s' = sc_braces s.
Proof.
  intros Eg Hk (H1 & H2 & H3). unfold start_arm. rewrite Eg. eexists. split; [reflexivity|].
  simpl in *. destruct (_ && _) eqn:Ek; simpl.
  - split; [|done]. split_and!; simpl; [done| |].
    + unfold sandboxes, current_sandboxed in *. simpl. rewrite last_snoc. simpl. done.
    + constructor; [|done]. split; simpl; [by destruct (arms g)|].
      intros i [= <-]. rewrite length_app. simpl. lia.
  - split; [|done]. split_and!; simpl.
    + split; [lia|done].
    + unfold sandboxes, current_sandboxed in *. simpl. rewrite last_snoc. simpl. lia.
    + constructor; [|done]. split; simpl; [by destruct (arms g)|].
      intros i Hi%Hk. rewrite length_app. simpl. lia.
Qed.

(** [end_arm] leaves the groups below the top in shape. *)
Lemma end_arm_shape e s g gs :
  sc_groups s = g :: gs → shape_ok s →
  ∃ s' g', end_arm e s = Done s' ∧ sc_groups s' = g' :: gs
    ∧ arms g' = arms g ∧ kept g' = kept g ∧ shape_ok (set_groups (λ _, gs) s').
Proof.
  intros Eg (H1 & H2 & H3). unfold end_arm. rewrite Eg in *.
  inversion_clear H3 as [|? ? [Ha Hk] Hgs].
  unfold sandboxes in H2; cbn [List.filter] in H2.
  destruct (last (arms g)) as [arm|] eqn:El; [|by apply last_None in El].
  assert (current_sandboxed g = arm_sandboxed arm) as Ec
    by (unfold current_sandboxed; by rewrite El).
  rewrite Ec in H2. simpl. destruct (arm_sandboxed arm) eqn:Es; simpl.
  2:{ exists s, g. split_and!; try done. }
  destruct (sc_sinks s) as [|k sinks] eqn:Ek; [simpl in H2; lia|].
  simpl in H1, H2. destruct H1 as [Hb H1].
  assert (∃ p, (if arm_whole_blank g arm k (sc_parens s) then Done [((arm_directive arm).2, e)]
      else if brace_base k <=? length (sc_braces s) then Done (arm_ties k (sc_braces s)) else Panic)
      = Done p) as [p ->].
  { rewrite (proj2 (Nat.leb_le _ _) Hb). destruct (arm_whole_blank _ _ _ _); eauto. }
  simpl. eexists _, _. split; [reflexivity|]. unfold shape_ok. split_and!; try done; simpl.
  - rewrite length_take. eapply bases_ok_mono; [|exact H1]. lia.
  - unfold sandboxes. lia.
Qed.

Lemma resolve_shape endif s g gs :
  sc_groups s = g :: gs → group_ok g → shape_ok (set_groups (λ _, gs) s) →
  ∃ s', resolve endif s = Done s' ∧ shape_ok s'.
Proof.
  intros Eg [Ha Hk] H. unfold resolve. rewrite Eg.
  destruct (kept g) as [i|]; [|by eexists].
  destruct (arms g) as [|a0 as_] eqn:Ea; [done|].
  destruct (lookup_lt_is_Some_2 (a0 :: as_) i (Hk i eq_refl)) as [ka ->].
  cbn [of_option lookup list_lookup mbind outcome_bind].
  eexists. split; [reflexivity|]. apply shape_ok_last_arm.
  { intros a. unfold absorb_arm. by case_bool_decide. }
  destruct (split_group g a0); [done|]. destruct (negb _); [|done].
  by apply shape_ok_with_sink.
Qed.

Lemma scan_directive_shape start e text s :
  shape_ok s → ∃ s', scan_directive start e text s = Done s' ∧ shape_ok s'.
Proof.
  intros H. unfold scan_directive. destruct (directive text) as [[lit|lit|]|]; [..|eauto].
  - destruct (open_group_shape s H) as (g & gs & Eg & Ha & Hk & Hs).
    destruct (start_arm_shape (start, e) lit _ g gs Eg) as (s' & -> & ? & _); [by rewrite Hk|done|eauto].
  - destruct (sc_groups s) as [|g gs] eqn:Eg; [eauto|].
    pose proof H as (_ & _ & Hg). rewrite Eg in Hg. inversion_clear Hg as [|? ? [Hga Hgk] _].
    destruct (end_arm_shape start s g gs Eg H) as (s1 & g1 & -> & Eg1 & Ea1 & Ek1 & H1).
    simpl. destruct (start_arm_shape (start, e) lit s1 g1 gs Eg1) as (s' & -> & ? & _);
      [by rewrite Ea1, Ek1|done|eauto].
  - destruct (sc_groups s) as [|g gs] eqn:Eg; [eauto|].
    pose proof H as (_ & _ & Hg). rewrite Eg in Hg. inversion_clear Hg as [|? ? [Hga Hgk] _].
    destruct (end_arm_shape start s g gs Eg H) as (s1 & g1 & -> & Eg1 & Ea1 & Ek1 & H1).
    simpl. apply (resolve_shape _ _ g1 gs Eg1); [|done]. split; by rewrite ?Ea1, ?Ek1.
Qed.

(** ** Recorded positions

    Every span the scan has recorded ends at or before the current offset, so
    the blanking at the end stays inside the source. *)
Definition span_le (cur : nat) (sp : Span) : Prop := sp.1 ≤ sp.2 ≤ cur.

Definition sink_spans (k : Sink) : list Span :=
  match leading_else k with Some sp => [sp] | None => [] end
  ++ concat (map closer_spans (closers k)).

Definition group_spans (g : Group) : list Span := pending g ++ map arm_directive (arms g).

Definition spans_ok (cur : nat) (s : Scan) : Prop :=
  Forall (span_le cur) (map open_span (sc_braces s))
  ∧ Forall (λ k, Forall (span_le cur) (sink_spans k)) (sc_sinks s)
  ∧ Forall (λ g, Forall (span_le cur) (group_spans g)) (sc_groups s)
  ∧ Forall (span_le cur) (sc_blanks s).

Lemma span_le_mono cur cur' sp : cur ≤ cur' → span_le cur sp → span_le cur' sp.
Proof. unfold span_le. lia. Qed.

Lemma spans_le_mono cur cur' l :
  cur ≤ cur' → Forall (span_le cur) l → Forall (span_le cur') l.
Proof. intros H Hl. eapply Forall_impl; [exact Hl|]. intros sp. by apply span_le_mono. Qed.

Lemma spans_ok_mono cur cur' s : cur ≤ cur' → spans_ok cur s → spans_ok cur' s.
Proof.
  intros H (H1 & H2 & H3 & H4). split_and!.
  - by eapply spans_le_mono.
  - eapply Forall_impl; [exact H2|]. intros k. by apply spans_le_mono.
  - eapply Forall_impl; [exact H3|]. intros g. by apply spans_le_mono.
  - by eapply spans_le_mono.
Qed.

Definition keeps_spans (cur : nat) (f : Sink → Sink) : Prop :=
  ∀ k, Forall (span_le cur) (sink_spans k) → Forall (span_le cur) (sink_spans (f k)).

Lemma spans_ok_ensure cur s : spans_ok cur s → spans_ok cur (ensure_sink s).
Proof.
  intros (H1 & H2 & H3 & H4). split_and!; simpl; try done.
  destruct (sc_sinks s); [|done]. repeat constructor.
Qed.

Lemma spans_ok_with_sink cur f s :
  keeps_spans cur f → spans_ok cur s → spans_ok cur (with_sink f s).
Proof.
  intros Hf (H1 & H2 & H3 & H4)%spans_ok_ensure. split_and!; try done.
  unfold with_sink. simpl in *. destruct (match sc_sinks s with [] => _ | _ => _ end); [done|].
  inversion_clear H2. simpl. constructor; auto.
Qed.

Lemma spans_ok_last_arm cur f s :
  (∀ a, arm_directive (f a) = arm_directive a) → spans_ok cur s →
  spans_ok cur (set_groups (alter_top (set_arms (alter_last f))) s).
Proof.
  intros Hf (H1 & H2 & H3 & H4). split_and!; simpl; try done.
  destruct (sc_groups s) as [|g gs]; [done|]. inversion_clear H3 as [|? ? Hg Hgs].
  simpl. constructor; [|done]. unfold group_spans in *. simpl. by rewrite map_alter_last.
Qed.

Lemma arm_token_directive kind text a : arm_directive (arm_token kind text a) = arm_directive a.
Proof.
  unfold arm_token. case_bool_decide; destruct kind; simpl; try done;
    repeat case_match; done.
Qed.

Lemma sink_spans_closers_snoc k c :
  sink_spans (set_closers (λ v, v ++ [c]) k) = sink_spans k ++ closer_spans c.
Proof.
  unfold sink_spans; simpl. rewrite map_app, concat_app. simpl. by rewrite app_nil_r, app_assoc.
Qed.

Lemma keeps_spans_ident cur start e text :
  start ≤ e ≤ cur → keeps_spans cur (ident_token_sink start e text).
Proof.
  intros Hse k Hk. unfold ident_token_sink. simpl.
  destruct (is_else text); [|done]. destruct (position k); simpl; [| |done].
  - unfold sink_spans in *; simpl. apply Forall_app in Hk as [_ Hk].
    constructor; [|done]. by unfold span_le.
  - unfold sink_spans in *; simpl in *. apply Forall_app in Hk as [Hk1 Hk2].
    apply Forall_app. split; [done|]. clear Hk1.
    destruct (closers k) as [|c cs _] using rev_ind; [done|].
    rewrite alter_last_snoc, map_app, concat_app in *. simpl in *.
    apply Forall_app in Hk2 as [? Hc]. apply Forall_app. split; [done|].
    rewrite app_nil_r in *. inversion_clear Hc. simpl. constructor; [done|].
    constructor; [split; simpl; lia|constructor].
Qed.

Lemma keeps_spans_closer cur start :
  start + 1 ≤ cur →
  keeps_spans cur (λ k, set_position AfterCloser (set_closers (λ v, v ++ [mkCloser start None]) k)).
Proof.
  intros H k Hk. change (sink_spans (set_position _ ?x)) with (sink_spans x).
  rewrite sink_spans_closers_snoc. apply Forall_app. split; [done|].
  repeat constructor; simpl; lia.
Qed.

Lemma spans_ok_push_brace cur o s :
  op_at o + 1 ≤ cur → spans_ok cur s → spans_ok cur (set_braces (λ v, v ++ [o]) s).
Proof.
  intros Ho (H1 & H2 & H3 & H4). split_and!; simpl; try done.
  rewrite map_app, Forall_app. split; [done|]. repeat constructor; simpl; lia.
Qed.

Lemma spans_ok_pop_brace cur s : spans_ok cur s → spans_ok cur (set_braces vec_pop s).
Proof.
  intros (H1 & H2 & H3 & H4). split_and!; simpl; try done.
  unfold vec_pop. rewrite <- firstn_map. by apply Forall_take.
Qed.

(** A sink update that records no span. *)
#[local] Ltac keep_sink_spans := apply spans_ok_with_sink; [intros ? ?; assumption|].

Lemma scan_token_spans cur kind start e text s :
  cur ≤ start → start < e → spans_ok cur s → spans_ok e (scan_token kind start e text s).
Proof.
  intros Hc Hse H. apply (spans_ok_mono _ e) in H; [|lia]. unfold scan_token.
  assert (spans_ok e (token_in_group kind text s)) as H'.
  { apply spans_ok_last_arm; [apply arm_token_directive|done]. }
  destruct kind; try (keep_sink_spans; done).
  - apply spans_ok_with_sink; [apply keeps_spans_ident; lia|done].
  - destruct (b =? "{").
    { unfold open_brace. keep_sink_spans.
      apply spans_ok_push_brace; [simpl; lia|]. by apply spans_ok_ensure. }
    destruct (b =? "}").
    { unfold close_brace. keep_sink_spans. destruct (_ <? _).
      - keep_sink_spans. by apply spans_ok_pop_brace, spans_ok_ensure.
      - apply spans_ok_with_sink; [apply keeps_spans_closer; lia|]. by apply spans_ok_ensure. }
    destruct (b =? "("); [keep_sink_spans; done|].
    destruct (b =? ")"); [|keep_sink_spans; done].
    unfold close_paren. keep_sink_spans.
    apply spans_ok_ensure in H'. destruct (_ <? _); [done|]. keep_sink_spans; done.
Qed.

Lemma spans_ok_open_group cur s : spans_ok cur s → spans_ok cur (open_group s).
Proof.
  intros (H1 & H2 & H3 & H4)%spans_ok_ensure. split_and!; try done.
  simpl. constructor; [constructor|done].
Qed.

Lemma start_arm_spans cur d lit s s' :
  span_le cur d → spans_ok cur s → start_arm d lit s = Done s' → spans_ok cur s'.
Proof.
  intros Hd (H1 & H2 & H3 & H4). unfold start_arm.
  destruct (sc_groups s) as [|g gs]; [done|]. intros [= <-].
  inversion_clear H3 as [|? ? Hg Hgs].
  assert (Forall (span_le cur) (pending g ++ map arm_directive (arms g ++ [arm_new d lit false]))
    ∧ Forall (span_le cur) (pending g ++ map arm_directive (arms g ++ [arm_new d lit true]))) as [? ?].
  { rewrite !map_app, !app_assoc, !Forall_app. unfold group_spans in Hg.
    rewrite Forall_app in Hg. simpl. rewrite !Forall_singleton. simpl. tauto. }
  destruct (_ && _); split_and!; simpl; try done; constructor; try done; constructor.
Qed.

Lemma end_arm_spans cur e s s' :
  cur ≤ e → spans_ok cur s → end_arm e s = Done s' → spans_ok e s'.
Proof.
  intros Hc H. unfold end_arm. destruct (sc_groups s) as [|g gs] eqn:Eg; [done|].
  destruct (last (arms g)) as [arm|] eqn:El; [simpl|done].
  destruct (arm_sandboxed arm); simpl; [|intros [= <-]; by eapply spans_ok_mono].
  destruct (sc_sinks s) as [|k sinks] eqn:Ek; [done|].
  destruct H as (H1 & H2 & H3 & H4). rewrite Eg, Ek in *.
  inversion_clear H3 as [|? ? Hg Hgs]. inversion_clear H2 as [|? ? Hk Hks].
  assert (∀ p, Forall (span_le e) p →
    spans_ok e (mkScan (take (brace_base k) (sc_braces s)) (take (paren_base k) (sc_parens s))
                  sinks (add_pending p g :: gs) (sc_blanks s))) as Hfin.
  { intros p Hp. split_and!; simpl.
    - rewrite <- firstn_map. apply Forall_take. by eapply spans_le_mono.
    - eapply Forall_impl; [exact Hks|]. intros x. by apply spans_le_mono.
    - constructor; [|eapply Forall_impl; [exact Hgs|]; intros x; by apply spans_le_mono].
      unfold group_spans in *; simpl. rewrite !Forall_app in *. destruct Hg.
      split_and!; [by eapply spans_le_mono|done|by eapply spans_le_mono].
    - by eapply spans_le_mono. }
  destruct (arm_whole_blank _ _ _ _); simpl.
  - intros [= <-]. apply Hfin. repeat constructor; simpl.
    unfold group_spans in Hg. rewrite Forall_app in Hg. destruct Hg as [_ Hd].
    assert (span_le cur (arm_directive arm)) as [_ ?]; [|lia].
    eapply Forall_forall; [exact Hd|]. apply list_elem_of_fmap. exists arm. split; [done|].
    apply last_Some in El as [l ->]. apply elem_of_app. right. by left.
  - destruct (_ <=? _); simpl; [|done]. intros [= <-]. apply Hfin.
    unfold arm_ties. rewrite app_assoc. apply Forall_app. split.
    + by eapply spans_le_mono.
    + rewrite <- skipn_map. apply Forall_drop. by eapply spans_le_mono.
Qed.

Lemma resolve_spans cur endif s s' :
  span_le cur endif → spans_ok cur s → resolve endif s = Done s' → spans_ok cur s'.
Proof.
  intros He (H1 & H2 & H3 & H4). unfold resolve.
  destruct (sc_groups s) as [|g gs] eqn:Eg; [done|]. inversion_clear H3 as [|? ? Hg Hgs].
  assert (spans_ok cur (set_groups (λ _, gs) s)) as Hs by done.
  destruct (kept g) as [i|]; [|by intros [= <-]].
  destruct (arms g !! 0) as [a0|]; [simpl|done].
  destruct (arms g !! i) as [ka|]; [simpl|done]. intros [= <-].
  apply spans_ok_last_arm. { intros a. unfold absorb_arm. by case_bool_decide. }
  destruct (split_group g a0).
  - destruct Hs as (? & ? & ? & ?). split_and!; try done. simpl in *.
    rewrite app_assoc, !Forall_app. unfold group_spans in Hg. rewrite Forall_app in Hg.
    destruct Hg. split_and!; try done. by constructor.
  - destruct (negb _); [|done]. keep_sink_spans. done.
Qed.

Lemma scan_directive_spans cur start e text s s' :
  cur ≤ start → start < e → spans_ok cur s → scan_directive start e text s = Done s' →
  spans_ok e s'.
Proof.
  intros Hc Hse H. unfold scan_directive.
  assert (span_le e (start, e)) as Hd by (split; simpl; lia).
  destruct (directive text) as [[lit|lit|]|].
  - apply start_arm_spans; [done|]. apply spans_ok_open_group. eapply spans_ok_mono; [|done]. lia.
  - destruct (sc_groups s); [intros [= <-]; eapply spans_ok_mono; [|done]; lia|].
    destruct (end_arm start s) as [s1|] eqn:E; [simpl|done].
    apply start_arm_spans; [done|]. apply (spans_ok_mono start); [lia|]. by eapply end_arm_spans.
  - destruct (sc_groups s); [intros [= <-]; eapply spans_ok_mono; [|done]; lia|].
    destruct (end_arm start s) as [s1|] eqn:E; [simpl|done].
    apply resolve_spans; [done|]. apply (spans_ok_mono start); [lia|]. by eapply end_arm_spans.
  - intros [= <-]. eapply spans_ok_mono; [|done]. lia.
Qed.

(** ** The whole scan *)

Lemma scan_tokens_ok {E} (check : nat → option E) source toks since calls cur s :
  tokens_in source cur toks → cur ≤ length source → shape_ok s → spans_ok cur s →
  ∃ r, scan_tokens check source toks since calls s = Done r ∧
    match r with
    | inl s' => shape_ok s' ∧ spans_ok (length source) s'
    | inr err => ∃ n, check n = Some err
    end.
Proof.
  revert since calls cur s; induction toks as [|t toks IH]; intros since calls cur s Hin Hc Hs Hp;
    cbn [scan_tokens].
  { exists (inl s). split; [done|]. split; [done|]. by eapply spans_ok_mono. }
  destruct Hin as (Hcs & Hse & Hin). case_bool_decide.
  - destruct (check calls) as [err|] eqn:Ec; [exists (inr err); split; [done|by exists calls]|].
    destruct (scan_directive_shape (tk_start t) (tk_end t) (text t source) s Hs) as (s' & E1 & Hs').
    rewrite E1. cbn [mbind outcome_bind]. eapply IH; [done|lia|done|].
    eapply scan_directive_spans; [| |exact Hp|exact E1]; lia.
  - assert (shape_ok (scan_token (tk_kind t) (tk_start t) (tk_end t) (text t source) s))
      by (by apply scan_token_shape).
    assert (spans_ok (tk_end t) (scan_token (tk_kind t) (tk_start t) (tk_end t) (text t source) s))
      by (eapply scan_token_spans; [| |exact Hp]; lia).
    cbv zeta. destruct (Nat.eqb _ _).
    + destruct (check calls) as [err|] eqn:Ec; [exists (inr err); split; [done|by exists calls]|]. eapply IH; eauto; lia.
    + eapply IH; eauto; lia.
Qed.

Lemma scan_default_shape : shape_ok scan_default.
Proof. split_and!; [done|simpl; unfold sandboxes; simpl; lia|constructor]. Qed.

Lemma scan_default_spans cur : spans_ok cur scan_default.
Proof. split_and!; constructor. Qed.

Lemma blank_ranges_ok source spans out :
  Forall (span_le (length source)) spans → blanked_copy source out →
  ∃ out', blank_ranges spans out = Done out' ∧ blanked_copy source out'.
Proof.
  intros H; revert out; induction H as [|[a b] spans [Hab Hb] _ IH]; intros out Ho; [by exists out|].
  cbn [blank_ranges]. unfold blank_range. simpl in *. pose proof Ho as [Hl _].
  rewrite slice_get_Done by lia. cbn [mbind outcome_bind].
  rewrite copy_at_Done by (rewrite length_map, length_slice_in; lia). cbn [mbind outcome_bind].
  apply IH. apply blanked_copy_blank_range; [lia|done].
Qed.

Lemma blank_ranges_copy source spans :
  Forall (span_le (length source)) spans →
  ∃ out, blank_ranges spans source = Done out ∧ blanked_copy source out.
Proof. intros H. apply blank_ranges_ok; [done|apply blanked_copy_refl]. Qed.

(** The split-arm selection of any source, under any cancellation schedule,
    panics on no [expect], no stack truncation and no slice; what it hands the
    parser is the source with some bytes blanked and every line break in place;
    and it stops early only with an error the work control reported. *)
Theorem select_split_arms_safe {E} (check : nat → option E) source :
  ∃ r, select_split_arms check source = Done r ∧
    match r with
    | inl None => True
    | inl (Some out) => blanked_copy source out ∧ layout_eq source out
    | inr err => ∃ n, check n = Some err
    end.
Proof.
  unfold select_split_arms. destruct (negb _); [by exists (inl None)|].
  destruct (scan_tokens_ok check source (tokenize source) 0 0 0 scan_default)
    as (r & -> & Hr); [apply tokenize_in|lia|apply scan_default_shape|apply scan_default_spans|].
  cbn [mbind outcome_bind]. destruct r as [s|err]; [|by exists (inr err)].
  destruct Hr as [_ (_ & _ & _ & Hb)].
  destruct (sc_blanks s) as [|sp bl] eqn:Eb; [by exists (inl None)|]. rewrite <- Eb in *.
  destruct (blank_ranges_copy source (sc_blanks s) Hb) as (out & -> & Ho).
  cbn [mbind outcome_bind]. exists (inl (Some out)). split; [done|].
  split; [done|by apply blanked_copy_layout].
Qed.

(** ** The pre-filter *)

(** [has_conditional_directive] looks for [#] at the first non-blank byte of a
    line; the lexer also takes a [#] that follows a comment for a directive.
    This source has such a group, which the scan would reduce. *)
Definition commented_directives : bytes :=
  bs "void f() { /**/" ++ [LF] ++ bs "/**/ #ifdef X" ++ [LF] ++ bs "if (a) {" ++ [LF]
  ++ bs "/**/ #else" ++ [LF] ++ bs "if (b) {" ++ [LF] ++ bs "/**/ #endif" ++ [LF]
  ++ bs "g(); } }" ++ [LF].

Definition scan_blanks (source : bytes) : option (list Span) :=
  match scan_tokens (λ _, @None unit) source (tokenize source) 0 0 scan_default with
  | Done (inl s) => Some (sc_blanks s)
  | _ => None
  end.

(** A conditional group behind a comment passes the scan but not the
    pre-filter, so the reduction the scan asks for is not made. *)
Theorem split_gate_misses_commented :
  ∃ source spans, scan_blanks source = Some spans ∧ spans ≠ []
    ∧ select_split_arms (λ _, @None unit) source = Done (inl None).
Proof.
  exists commented_directives. eexists. split; [vm_compute; reflexivity|].
  split; [done|]. vm_compute. reflexivity.
Qed.

(** ** Bracket depths *)

Definition depth_of (deltas : list Z) : Depth := fold_left depth_step deltas depth_default.

Lemma depth_eta d : mkDepth (net d) (low d) = d.
Proof. by destruct d. Qed.

Lemma depth_then_step d e delta : depth_then d (depth_step e delta) = depth_step (depth_then d e) delta.
Proof. unfold depth_then, depth_step; simpl. f_equal; lia. Qed.

Lemma depth_then_default d : (low d ≤ net d)%Z → depth_then d depth_default = d.
Proof. intros. unfold depth_then; simpl. destruct d; simpl in *. f_equal; lia. Qed.

Lemma fold_depth_low deltas d : (low d ≤ net d)%Z →
  (low (fold_left depth_step deltas d) ≤ net (fold_left depth_step deltas d))%Z.
Proof. revert d; induction deltas as [|x l IH]; intros d H; simpl; [done|]. apply IH. simpl. lia. Qed.

Lemma fold_depth_then deltas d : (low d ≤ net d)%Z →
  fold_left depth_step deltas d = depth_then d (depth_of deltas).
Proof.
  intros H. induction deltas as [|x l IH] using rev_ind.
  - by rewrite depth_then_default.
  - unfold depth_of. rewrite !fold_left_app. simpl. by rewrite depth_then_step, IH.
Qed.

Lemma depth_of_app l1 l2 : depth_of (l1 ++ l2) = depth_then (depth_of l1) (depth_of l2).
Proof.
  unfold depth_of. rewrite fold_left_app. apply fold_depth_then, fold_depth_low. simpl. lia.
Qed.

Lemma depth_of_snoc l x : depth_of (l ++ [x]) = depth_step (depth_of l) x.
Proof. unfold depth_of. by rewrite fold_left_app. Qed.

Lemma depth_default_then d : (low d ≤ 0)%Z → depth_then depth_default d = d.
Proof. intros. unfold depth_then; simpl. destruct d; simpl in *. f_equal; lia. Qed.

Lemma fold_depth_nonpos deltas d : (low d ≤ 0)%Z → (low (fold_left depth_step deltas d) ≤ 0)%Z.
Proof. revert d; induction deltas as [|x l IH]; intros d H; simpl; [done|]. apply IH. simpl. lia. Qed.

Lemma depth_of_low_nonpos l : (low (depth_of l) ≤ 0)%Z.
Proof. apply fold_depth_nonpos. simpl. lia. Qed.

Lemma depth_of_low_net l : (low (depth_of l) ≤ net (depth_of l))%Z.
Proof. apply fold_depth_low. simpl. lia. Qed.

Lemma net_depth_of l : net (depth_of l) = fold_right Z.add 0%Z l.
Proof.
  induction l as [|x l IH]; [done|]. change (x :: l) with ([x] ++ l).
  rewrite depth_of_app. simpl. rewrite IH. lia.
Qed.

(** ** What remains of a sandboxed arm is balanced *)

Definition brace_delta (kind : Kind) : Z :=
  match kind with
  | Punct b => if b =? "{" then 1%Z else if b =? "}" then (-1)%Z else 0%Z
  | _ => 0%Z
  end.

Definition brace_depth (toks : list Token) : Depth :=
  depth_of (map (λ t, brace_delta (tk_kind t)) toks).

(** The stack discipline [close_brace] and [open_brace] follow inside one sink:
    unmatched closers, and unmatched openers with the innermost last. *)
Definition brace_step (t : Token) (v : list nat * list nat) : list nat * list nat :=
  match tk_kind t with
  | Punct b =>
      if b =? "{" then (v.1, v.2 ++ [tk_start t])
      else if b =? "}" then
        match v.2 with [] => (v.1 ++ [tk_start t], []) | _ => (v.1, vec_pop v.2) end
      else v
  | _ => v
  end.

Definition without (removed : list nat) (toks : list Token) : list Token :=
  List.filter (λ t, bool_decide (tk_start t ∉ removed)) toks.

Lemma without_app r l1 l2 : without r (l1 ++ l2) = without r l1 ++ without r l2.
Proof. apply List.filter_app. Qed.

Lemma without_ext r r' l :
  (∀ t, t ∈ l → tk_start t ∈ r ↔ tk_start t ∈ r') → without r l = without r' l.
Proof.
  induction l as [|t l IH]; intros H; [done|]. unfold without; cbn [List.filter].
  rewrite (bool_decide_ext (tk_start t ∉ r) (tk_start t ∉ r')) by (rewrite H by left; done).
  unfold without in IH. rewrite IH; [done|]. intros; apply H. by right.
Qed.

Lemma without_nil l : without [] l = l.
Proof.
  induction l as [|t l IH]; [done|]. unfold without in *; cbn [List.filter].
  rewrite bool_decide_true by (apply not_elem_of_nil). by rewrite IH.
Qed.

Lemma without_fresh r l : (∀ t, t ∈ l → tk_start t ∉ r) → without r l = l.
Proof.
  intros H. rewrite <- (without_nil l) at 2. apply without_ext. intros t Ht.
  pose proof (H t Ht). pose proof (not_elem_of_nil (tk_start t)). tauto.
Qed.

Definition starts (toks : list Token) : list nat := map tk_start toks.

(** A token sequence read as: closers without opener and text balanced without
    them, then each unmatched opener followed by balanced text. *)
Inductive reading : list nat → list Token → list nat → Prop :=
| reading_flat c toks :
    (∀ p, p ∈ c → p ∈ starts toks) → brace_depth (without c toks) = depth_default →
    reading c toks []
| reading_open c toks s t toks' :
    reading c toks s → tk_kind t = Punct "{" → brace_depth toks' = depth_default →
    reading c (toks ++ t :: toks') (s ++ [tk_start t]).

Lemma brace_depth_app l1 l2 : brace_depth (l1 ++ l2) = depth_then (brace_depth l1) (brace_depth l2).
Proof. unfold brace_depth. by rewrite map_app, depth_of_app. Qed.

Lemma brace_depth_zero t : brace_delta (tk_kind t) = 0%Z → brace_depth [t] = depth_default.
Proof. intros H. unfold brace_depth; simpl. by rewrite H. Qed.

Lemma balanced_app l1 l2 :
  brace_depth l1 = depth_default → brace_depth l2 = depth_default →
  brace_depth (l1 ++ l2) = depth_default.
Proof. intros H1 H2. by rewrite brace_depth_app, H1, H2. Qed.

(** Two states of [starts]: distinct positions, so what is unmatched in one part
    is not a token of another. *)
Lemma starts_disjoint l1 l2 t :
  NoDup (starts (l1 ++ l2)) → t ∈ l2 → tk_start t ∉ starts l1.
Proof.
  unfold starts. rewrite map_app, NoDup_app. intros (_ & H & _) Ht Hin.
  apply (H _ Hin). apply list_elem_of_fmap. by exists t.
Qed.

Lemma reading_closers c toks s : reading c toks s → ∀ p, p ∈ c → p ∈ starts toks.
Proof.
  induction 1 as [|c toks s t toks' _ IH]; [done|].
  intros p Hp. unfold starts in *. rewrite map_app. apply elem_of_app. left. by apply IH.
Qed.

Lemma reading_openers c toks s : reading c toks s → ∀ p, p ∈ s → p ∈ starts toks.
Proof.
  induction 1 as [|c toks s t toks' _ IH]; intros p; [by intros ?%not_elem_of_nil|].
  unfold starts in *. rewrite map_app, !elem_of_app. simpl. rewrite !elem_of_cons.
  pose proof (IH p). pose proof (not_elem_of_nil p). tauto.
Qed.

Lemma reading_balanced c toks s more :
  reading c toks s → NoDup (starts (toks ++ more)) → brace_depth more = depth_default →
  reading c (toks ++ more) s.
Proof.
  destruct 1 as [c toks Hc Hb|c toks s t toks' Hr Ht Hb]; intros Hnd Hm.
  - constructor.
    + intros p Hp. unfold starts in *. rewrite map_app. apply elem_of_app. left. by apply Hc.
    + rewrite without_app. apply balanced_app; [done|].
      rewrite without_fresh; [done|]. intros t Ht Hin. eapply starts_disjoint; eauto.
  - rewrite <- app_assoc. simpl. constructor; [done|done|]. by apply balanced_app.
Qed.

Lemma reading_step c toks s t :
  reading c toks s → NoDup (starts (toks ++ [t])) →
  reading (brace_step t (c, s)).1 (toks ++ [t]) (brace_step t (c, s)).2.
Proof.
  intros H Hnd. unfold brace_step; simpl.
  assert (brace_delta (tk_kind t) = 0%Z → reading c (toks ++ [t]) s) as Hzero.
  { intros Hz. by apply reading_balanced; [| |apply brace_depth_zero]. }
  unfold brace_delta in Hzero. destruct (tk_kind t) as [ | | | |b| ] eqn:Ek; auto.
  destruct (beq_spec b "{") as [->|Hb]; [by apply reading_open|].
  destruct (beq_spec b "}") as [->|Hb']; [|by apply Hzero].
  destruct H as [c toks Hc Hbal|c toks s t' toks' Hr Ht' Hbal]; simpl.
  - constructor.
    + intros p. rewrite elem_of_app, list_elem_of_singleton. unfold starts. rewrite map_app.
      intros [?| ->]; apply elem_of_app; [left; by apply Hc|right; by left].
    + rewrite without_app. apply balanced_app.
      * rewrite <- Hbal. f_equal. apply without_ext. intros u Hu.
        rewrite elem_of_app, list_elem_of_singleton. split; [|tauto]. intros [?|E]; [done|].
        exfalso. eapply (starts_disjoint toks [t] t); [done|by left|]. rewrite <- E.
        apply list_elem_of_fmap. by exists u.
      * unfold without; cbn [List.filter]. by rewrite bool_decide_false
          by (rewrite not_elem_of_app, list_elem_of_singleton; tauto).
  - replace (match s ++ [tk_start t'] with [] => _ | _ => _ end)
      with (c, s) by (unfold vec_pop; rewrite length_app; simpl;
        rewrite Nat.add_sub, take_app_length; by destruct s).
    simpl. rewrite <- app_assoc. apply reading_balanced; [done|by rewrite <- app_assoc in Hnd|].
    rewrite brace_depth_app. change (t' :: toks') with ([t'] ++ toks'). rewrite brace_depth_app, Hbal. unfold brace_depth; simpl. by rewrite Ht', Ek.
Qed.

Lemma reading_residual c toks s :
  reading c toks s → NoDup (starts toks) → brace_depth (without (c ++ s) toks) = depth_default.
Proof.
  induction 1 as [c toks Hc Hb|c toks s t toks' Hr IH Ht Hb]; intros Hnd; [by rewrite app_nil_r|].
  pose proof (reading_closers _ _ _ Hr) as Hcl. pose proof (reading_openers _ _ _ Hr) as Hop.
  assert (∀ u, u ∈ toks' → tk_start u ∉ c ++ s ++ [tk_start t]) as Hfresh.
  { intros u Hu Hin. rewrite !elem_of_app, list_elem_of_singleton in Hin.
    pose proof (starts_disjoint toks (t :: toks') u Hnd (list_elem_of_further _ _ _ Hu)) as Hd.
    destruct Hin as [?|[?|E]]; [by apply Hd, Hcl|by apply Hd, Hop|].
    unfold starts in Hnd. rewrite map_app, NoDup_app in Hnd. destruct Hnd as (_ & _ & Hnd).
    simpl in Hnd. apply NoDup_cons in Hnd as [Hnd _]. apply Hnd. rewrite <- E.
    apply list_elem_of_fmap. by exists u. }
  rewrite without_app. apply balanced_app.
  - rewrite <- IH. 2:{ unfold starts in *. rewrite map_app, NoDup_app in Hnd. tauto. }
    f_equal. apply without_ext. intros u Hu.
    rewrite !elem_of_app, list_elem_of_singleton. split; [|tauto].
    intros [?|[?|E]]; [tauto|tauto|]. exfalso.
    eapply (starts_disjoint toks (t :: toks') t); [done|by left|]. rewrite <- E.
    apply list_elem_of_fmap. by exists u.
  - change (t :: toks') with ([t] ++ toks'). rewrite without_app.
    rewrite (without_fresh _ toks') by done. apply balanced_app; [|done].
    unfold without; cbn [List.filter]. rewrite bool_decide_false; [done|].
    rewrite !not_elem_of_app, list_elem_of_singleton. tauto.
Qed.

(** What one sink sees of the brace stack. *)
Definition sink_view (k : Sink) (braces : list Open) : list nat * list nat :=
  (map cl_at (closers k), map op_at (drop (brace_base k) braces)).

Definition in_sink (ks : list Sink) (base : nat) (v : list nat * list nat) (s : Scan) : Prop :=
  ∃ k, sc_sinks s = k :: ks ∧ brace_base k = base ∧ base ≤ length (sc_braces s)
       ∧ sink_view k (sc_braces s) = v.

Lemma with_sink_top f s k ks :
  sc_sinks s = k :: ks → sc_sinks (with_sink f s) = f k :: ks.
Proof. intros E. unfold with_sink, ensure_sink. simpl. by rewrite E. Qed.

Lemma in_sink_with f ks base v s :
  (∀ k, brace_base (f k) = brace_base k ∧ map cl_at (closers (f k)) = map cl_at (closers k)) →
  in_sink ks base v s → in_sink ks base v (with_sink f s).
Proof.
  intros Hf (k & E & Hb & Hl & Hv). destruct (Hf k) as [H1 H2].
  exists (f k). unfold with_sink, ensure_sink. simpl. rewrite E. split_and!; try done.
  - by rewrite H1.
  - rewrite <- Hv. unfold sink_view. by rewrite H1, H2.
Qed.

Lemma in_sink_ensure ks base v s : in_sink ks base v s → in_sink ks base v (ensure_sink s).
Proof. intros (k & E & H). exists k. unfold ensure_sink; simpl. by rewrite E. Qed.

#[local] Ltac keep_view := apply in_sink_with; [done|].

Lemma ident_sink_keeps start e text k :
  brace_base (ident_token_sink start e text k) = brace_base k
  ∧ map cl_at (closers (ident_token_sink start e text k)) = map cl_at (closers k).
Proof.
  unfold ident_token_sink. destruct (is_else text); [|done].
  destruct (position k); try done. simpl. split; [done|]. by apply map_alter_last.
Qed.

Lemma in_sink_open ks base c op start s :
  in_sink ks base (c, op) s → in_sink ks base (c, op ++ [start]) (open_brace start s).
Proof.
  intros (k & E & Hb & Hl & [= H1 H2])%in_sink_ensure. unfold open_brace. keep_view.
  exists k. split_and!; [done|done|simpl; rewrite length_app; simpl in *; lia|].
  unfold sink_view. cbn [sc_braces set_braces]. rewrite drop_app_le by (simpl in *; lia).
  rewrite map_app, H1. cbn [map op_at]. by rewrite <- H2.
Qed.

Lemma in_sink_close ks base c op start s :
  in_sink ks base (c, op) s →
  in_sink ks base (match op with [] => (c ++ [start], []) | _ => (c, vec_pop op) end)
    (close_brace start s).
Proof.
  intros H%in_sink_ensure. pose proof H as (k & E & Hb & Hl & [= H1 H2]).
  unfold close_brace. keep_view. unfold top_sink. rewrite E. cbn [head default option_map].
  change (from_option id root_sink (Some k)) with k. cbn [id]. rewrite Hb in *.
  assert (length op = length (sc_braces (ensure_sink s)) - base) as Hop
    by (rewrite <- H2, length_map, length_drop; done).
  destruct (Nat.ltb_spec base (length (sc_braces (ensure_sink s)))) as [Hlt|Hge].
  - keep_view. destruct op as [|o op]; [cbn [length] in Hop; lia|].
    exists k. split_and!; [done|done|cbn [set_braces sc_braces]; rewrite length_vec_pop; lia|].
    unfold sink_view. rewrite Hb, H1. cbn [set_braces sc_braces]. f_equal.
    rewrite <- H2. unfold vec_pop. rewrite length_map, length_drop.
    rewrite firstn_map, skipn_firstn_comm. do 2 f_equal. change (sc_braces (ensure_sink s)) with (sc_braces s) in *. lia.
  - destruct op; [|cbn [length] in Hop; lia]. eexists; split; [by eapply with_sink_top|].
    split_and!; [done|done|]. unfold sink_view; cbn. rewrite map_app, H1, Hb. f_equal. exact H2.
Qed.

Lemma in_sink_group ks base v kind text s :
  in_sink ks base v s → in_sink ks base v (token_in_group kind text s).
Proof. done. Qed.

Lemma in_sink_parens f ks base v s : in_sink ks base v s → in_sink ks base v (set_parens f s).
Proof. done. Qed.

Lemma scan_token_view ks base v t text s :
  in_sink ks base v s →
  in_sink ks base (brace_step t v) (scan_token (tk_kind t) (tk_start t) (tk_end t) text s).
Proof.
  intros H. apply (in_sink_group _ _ _ (tk_kind t) text) in H. destruct v as [c op].
  unfold scan_token, brace_step.
  destruct (tk_kind t) as [ | | | |b| ]; try by keep_view.
  - by apply in_sink_with; [intros k; apply ident_sink_keeps|].
  - destruct (b =? "{"); [by apply in_sink_open|].
    destruct (b =? "}"); [by apply in_sink_close|].
    destruct (b =? "("); [by keep_view|]. destruct (b =? ")"); [|by keep_view].
    unfold close_paren. keep_view. destruct (_ <? _); [|keep_view]; by apply in_sink_ensure in H.
Qed.

(** The bracket accounting of the arm the tokens belong to. *)
Definition in_arm (gs : list Group) (d : Depth) (s : Scan) : Prop :=
  ∃ g a, sc_groups s = g :: gs ∧ last (arms g) = Some a ∧ arm_braces a = d.

Lemma scan_token_groups kind start e text s :
  sc_groups (scan_token kind start e text s) =
  alter_top (set_arms (alter_last (arm_token kind text))) (sc_groups s).
Proof.
  unfold scan_token. destruct kind; try done.
  destruct (b =? "{"); [done|]. destruct (b =? "}").
  { unfold close_brace. by destruct (_ <? _). }
  destruct (b =? "("); [done|]. destruct (b =? ")"); [|done].
  unfold close_paren. by destruct (_ <? _).
Qed.

Lemma arm_token_braces kind text a :
  (low (arm_braces a) ≤ net (arm_braces a))%Z →
  arm_braces (arm_token kind text a) = depth_step (arm_braces a) (brace_delta kind).
Proof.
  intros Hl. assert (depth_step (arm_braces a) 0 = arm_braces a) as H0.
  { unfold depth_step. destruct (arm_braces a); simpl in *. f_equal; lia. }
  unfold arm_token, brace_delta. case_bool_decide; destruct kind; simpl; try by rewrite H0.
  all: destruct (b =? "{"); [done|]; destruct (b =? "}"); [done|].
  all: destruct (b =? "("); [by rewrite H0|]; destruct (b =? ")"); by rewrite H0.
Qed.

(** The non-directive tokens of an arm, scanned in order. *)
Definition scan_run (source : bytes) (toks : list Token) (s : Scan) : Scan :=
  fold_left (λ s t, scan_token (tk_kind t) (tk_start t) (tk_end t) (text t source) s) toks s.

Definition brace_run (toks : list Token) : list nat * list nat :=
  fold_left (λ v t, brace_step t v) toks ([], []).

Lemma scan_run_view source ks base toks s :
  in_sink ks base ([], []) s → in_sink ks base (brace_run toks) (scan_run source toks s).
Proof.
  intros H. unfold brace_run, scan_run. induction toks as [|t toks IH] using rev_ind; [done|].
  rewrite !fold_left_app. simpl. by apply scan_token_view.
Qed.

Lemma scan_run_arm source gs toks s :
  in_arm gs depth_default s → in_arm gs (brace_depth toks) (scan_run source toks s).
Proof.
  intros H. unfold scan_run. induction toks as [|t toks IH] using rev_ind; [done|].
  rewrite fold_left_app. simpl. destruct IH as (g & a & Eg & Ea & Hd).
  eexists _, _. rewrite scan_token_groups, Eg. split_and!; [done| |].
  - simpl. rewrite last_alter_last, Ea. done.
  - rewrite arm_token_braces, Hd; [|rewrite Hd; apply depth_of_low_net].
    unfold brace_depth. rewrite map_app. cbn [map]. by rewrite depth_of_snoc.
Qed.

Lemma brace_run_reading toks :
  NoDup (starts toks) → reading (brace_run toks).1 toks (brace_run toks).2.
Proof.
  intros H. unfold brace_run. induction toks as [|t toks IH] using rev_ind.
  - constructor; [by intros p ?%not_elem_of_nil|done].
  - rewrite fold_left_app. simpl.
    destruct (fold_left (λ v t0, brace_step t0 v) toks ([], [])) as [c op]. apply reading_step; [|done].
    apply IH. unfold starts in *. rewrite map_app, NoDup_app in H. tauto.
Qed.

Lemma brace_run_depth toks :
  low (brace_depth toks) = (- Z.of_nat (length (brace_run toks).1))%Z
  ∧ net (brace_depth toks)
    = (Z.of_nat (length (brace_run toks).2) - Z.of_nat (length (brace_run toks).1))%Z.
Proof.
  unfold brace_run, brace_depth. induction toks as [|t toks IH] using rev_ind; [done|].
  rewrite map_app. cbn [map]. rewrite depth_of_snoc, fold_left_app. simpl.
  destruct (fold_left (λ v t0, brace_step t0 v) toks ([], [])) as [c op].
  destruct IH as [IH1 IH2]. rewrite IH1, IH2. unfold brace_step, brace_delta. simpl.
  destruct (tk_kind t) as [ | | | |b| ]; simpl; try lia.
  destruct (b =? "{"); simpl; [rewrite length_app; simpl; lia|].
  destruct (b =? "}"); simpl; [|lia]. destruct op as [|o op]; cbn [fst snd].
  - rewrite length_app; simpl; lia.
  - rewrite length_vec_pop. simpl. lia.
Qed.

Lemma tokens_in_starts source cur toks :
  tokens_in source cur toks → NoDup (starts toks) ∧ ∀ p, p ∈ starts toks → cur ≤ p.
Proof.
  revert cur; induction toks as [|t toks IH]; intros cur.
  - intros _. split; [constructor|by intros p ?%not_elem_of_nil].
  - intros (Hc & Ht & Hin). destruct (IH _ Hin) as [Hnd Hge]. split.
    + constructor; [|done]. intros Hp%Hge. lia.
    + intros p. simpl. rewrite elem_of_cons. intros [->|Hp%Hge]; lia.
Qed.

Lemma start_arm_fresh d lit s0 s :
  start_arm d lit s0 = Done s → from_option current_sandboxed false (head (sc_groups s)) = true →
  in_sink (sc_sinks s0) (length (sc_braces s)) ([], []) s ∧ in_arm (tail (sc_groups s0)) depth_default s.
Proof.
  unfold start_arm. destruct (sc_groups s0) as [|g gs]; [done|]. intros [= <-].
  destruct (_ && _); simpl; unfold current_sandboxed; simpl; rewrite last_snoc; [done|]. intros _.
  split.
  - eexists; split_and!; [done|done|done|]. unfold sink_view. simpl. by rewrite drop_all.
  - eexists _, _. split_and!; [done|by simpl; rewrite last_snoc|done].
Qed.

(** C17. For an arm that is not the kept one, from its directive to the next:
    the braces recorded as unmatched (closers without an opener, openers left on
    the stack) are exactly as many as the arm's depth says, and what is left of
    the arm without them is brace-balanced, for every token sequence. *)
Theorem sandboxed_arm_balanced source cur toks d lit s0 s :
  tokens_in source cur toks →
  start_arm d lit s0 = Done s →
  from_option current_sandboxed false (head (sc_groups s)) = true →
  ∃ k g a, let s' := scan_run source toks s in
    let opened := drop (brace_base k) (sc_braces s') in
    sc_sinks s' = k :: sc_sinks s0 ∧ head (sc_groups s') = Some g ∧ last (arms g) = Some a
    ∧ arm_braces a = brace_depth toks
    ∧ Z.of_nat (length (closers k)) = (- low (arm_braces a))%Z
    ∧ Z.of_nat (length opened) = (net (arm_braces a) - low (arm_braces a))%Z
    ∧ brace_depth (without (map cl_at (closers k) ++ map op_at opened) toks) = depth_default.
Proof.
  intros Hin Hs Hsb. destruct (tokens_in_starts _ _ _ Hin) as [Hnd _].
  destruct (start_arm_fresh _ _ _ _ Hs Hsb) as [Hk Ha].
  destruct (scan_run_view source _ _ toks _ Hk) as (k & Ek & Hb & Hl & Hv).
  destruct (scan_run_arm source _ toks _ Ha) as (g & a & Eg & Ea & Hd).
  pose proof (brace_run_reading toks Hnd) as Hr.
  pose proof (brace_run_depth toks) as [Hlow Hnet].
  exists k, g, a. simpl. rewrite Eg, Hd. rewrite <- Hv in *. simpl in *.
  rewrite !length_map in *. split_and!; try done; try lia.
  by apply reading_residual.
Qed.

(** An [#else] arm of an open loop header, at its directive. *)
Definition else_arm_source : bytes := bs "} else { f(); } while (x) {".

Lemma sandboxed_arm_balanced_witness :
  let s0 := scan_run (bs "{ ) {") (tokenize (bs "{ ) {")) scan_default in
  ∃ s k g a,
    (let s' := scan_run else_arm_source (tokenize else_arm_source) s in
    let opened := drop (brace_base k) (sc_braces s') in
    sc_sinks s' = k :: sc_sinks s0 ∧ head (sc_groups s') = Some g ∧ last (arms g) = Some a
    ∧ arm_braces a = brace_depth (tokenize else_arm_source)
    ∧ Z.of_nat (length (closers k)) = (- low (arm_braces a))%Z
    ∧ Z.of_nat (length opened) = (net (arm_braces a) - low (arm_braces a))%Z
    ∧ brace_depth (without (map cl_at (closers k) ++ map op_at opened) (tokenize else_arm_source))
      = depth_default).
Proof.
  intros s0.
  destruct (start_arm (0, 5) (Some false) (open_group s0)) as [s|] eqn:E; [|vm_compute in E; done].
  exists s. apply (sandboxed_arm_balanced else_arm_source 0 (tokenize else_arm_source)
                    (0, 5) (Some false) (open_group s0) s (tokenize_in _) E).
  vm_compute in E. injection E as <-. reflexivity.
Defined.

(** ** [blanked_conditions] *)

Lemma copy_spans_ok source cur toks out :
  (∀ t, t ∈ toks → tk_start t < tk_end t ≤ length source) → blanked_copy source out →
  cur = length source →
  ∃ out', copy_spans source toks out = Done out' ∧ blanked_copy source out'
    ∧ ∀ j, (∀ t, t ∈ toks → ¬ (tk_start t ≤ j < tk_end t)) → out' !! j = out !! j.
Proof.
  intros Hin Ho ->. revert out Ho; induction toks as [|t toks IH]; intros out Ho; [by exists out|].
  cbn [copy_spans]. destruct (Hin t) as [Hse He]; [by left|]. pose proof Ho as [Hl _].
  rewrite slice_get_Done by lia. cbn [mbind outcome_bind].
  rewrite copy_at_Done by (rewrite length_slice_in; lia). cbn [mbind outcome_bind].
  destruct (IH ltac:(intros; apply Hin; by right) (splice (tk_start t) (slice (tk_start t) (tk_end t) source) out))
    as (out' & E & Hb & Hout); [apply blanked_copy_restore; [lia|done]|].
  exists out'. split_and!; [done|done|]. intros j Hj. rewrite Hout by (intros; apply Hj; by right).
  apply lookup_splice_out; rewrite length_slice_in by lia; [lia|].
  intros ?. apply (Hj t); [by left|lia].
Qed.

(** The copy reference extraction parses for lost conditions never panics,
    keeps the layout, and shows text only inside directive tokens that the tree
    lost. *)
Theorem blanked_conditions_safe source dead :
  ∃ r, blanked_conditions source dead = Done r ∧
    match r with
    | None => True
    | Some out => blanked_copy source out ∧ layout_eq source out ∧
        ∀ j, (∀ t, t ∈ tokenize source → tk_start t ≤ j < tk_end t → tk_kind t = Directive →
                   has_directive_at dead (tk_start t) = true ∨ directive (text t source) = None) →
             out !! j = blank_byte <$> source !! j
    end.
Proof.
  unfold blanked_conditions. destruct (negb _); [by exists None|].
  destruct (negb _); [by exists None|].
  destruct (copy_spans_ok source (length source) (blanked_directives source dead)
              (map blank_byte source)) as (out & -> & Hb & Hj).
  - intros t [_ Ht]%list_elem_of_filter.
    destruct (tokens_in_elem source 0 (tokenize source) t (tokenize_in _) Ht). lia.
  - apply blanked_copy_blank.
  - done.
  - exists (Some out). split; [done|]. split_and!; [done|by apply blanked_copy_layout|].
    intros j H. rewrite Hj, list_lookup_fmap; [done|].
    intros t [(Hk & Hd & Ha) Ht]%list_elem_of_filter Hin.
    destruct (H t Ht Hin Hk) as [?|E]; [congruence|]. rewrite E in Ha. by destruct Ha.
Qed.
