(* ===== verification/Chunker.v ===== *)
(** * Chunker: splitting file content for embedding

    Models [src/crates/embed/src/chunk.rs].  Offsets are byte offsets into the
    UTF-8 text, sizes are character counts, and every [&text[a..b]] is a
    [str_slice], which panics off a character boundary. *)
From Stdlib Require Import Lia NArith ZArith Floats.SpecFloat.
From stdpp Require Import sorting.
From S2P Require Import Prelude Text Utf8.
Local Open Scope codesage_scope.

Definition DEFAULT_CHUNK_SIZE : nat := 1500.
Definition DEFAULT_MIN_CHUNK_SIZE : nat := 350.
Definition DEFAULT_CHUNK_OVERLAP : nat := 200.

Record ChunkConfig := mkConfig { chunk_size : nat; min_chunk_size : nat; overlap : nat }.

Definition config_default : ChunkConfig :=
  mkConfig DEFAULT_CHUNK_SIZE DEFAULT_MIN_CHUNK_SIZE DEFAULT_CHUNK_OVERLAP.

Definition SEPARATORS : list bytes := [[LF; LF]; [LF]; bs ". "; bs " "].

Record Chunk := mkChunk {
  ck_text : bytes; start_line : N; end_line : N; start_byte : nat; end_byte : nat
}.

(** [Segment]: its [start] and [end]. *)
Abbreviation Segment := (nat * nat)%type.

(** ** Moving by characters *)

Definition advance_by_chars (text : bytes) (pos n : nat) : outcome nat :=
  tail ← str_slice pos (length text) text;
  Done (match nth_char tail n with Some off => pos + off | None => length text end).

(** The backward loop: one byte per round, a character per lead byte. *)
Fixpoint retreat_loop (text : bytes) (p remaining : nat) : nat :=
  match p, remaining with
  | S p', S r =>
      match text !! p' with
      | Some b => retreat_loop text p' (if is_continuation b then remaining else r)
      | None => p
      end
  | _, _ => p
  end.

Definition retreat_by_chars (text : bytes) (pos n : nat) : nat :=
  retreat_loop text (min pos (length text)) n.

Fixpoint snap_loop (text : bytes) (p : nat) : nat :=
  match p with
  | 0 => 0
  | S p' => if is_char_boundary text p then p else snap_loop text p'
  end.

Definition snap_to_char_boundary (text : bytes) (pos : nat) : nat :=
  if length text <=? pos then length text else snap_loop text pos.

Fixpoint find_boundary_loop (fuel : nat) (text : bytes) (p : nat) : nat :=
  match fuel with
  | 0 => p
  | S fuel =>
      if negb (is_char_boundary text p) && (p <? length text) then find_boundary_loop fuel text (p + 1)
      else p
  end.

Definition find_char_boundary (text : bytes) (pos : nat) : nat :=
  if length text <=? pos then length text else find_boundary_loop (length text) text pos.

Definition find_line_boundary_after (text : bytes) (pos : nat) : outcome nat :=
  if Nat.eqb pos 0 then Done 0
  else
    let pos := snap_to_char_boundary text pos in
    tail ← str_slice pos (length text) text;
    Done (match find_byte LF tail with
          | Some offset => let nl := pos + offset + 1 in if nl <? length text then nl else pos
          | None => pos
          end).

(** ** Splitting *)

(** The loop over [match_indices(sep)]: a match starts at or after the end of
    the last one, which is where the next part starts. *)
Fixpoint split_loop (fuel : nat) (text sep : bytes) (start : nat) : list (nat * nat) :=
  match fuel with
  | 0 => []
  | S fuel =>
      match find_sub sep (drop start text) with
      | Some n =>
          let e := start + n + length sep in
          (if start <? e then [(start, e)] else []) ++ split_loop fuel text sep e
      | None => if start <? length text then [(start, length text)] else []
      end
  end.

Definition split_keeping_offsets (text sep : bytes) : list (nat * nat) :=
  split_loop (S (length text)) text sep 0.

(** The fallback: [max_size] characters at a time. *)
Fixpoint char_loop (fuel : nat) (text : bytes) (max_size pos : nat) : outcome (list Segment) :=
  match fuel with
  | 0 => Done []
  | S fuel =>
      if pos <? length text then
        e ← advance_by_chars text pos max_size;
        rest ← char_loop fuel text max_size e;
        Done ((pos, e) :: rest)
      else Done []
  end.

Record Packing := mkPacking {
  pk_segments : list Segment; current_start : nat; current_end : nat; current_len : nat
}.

Definition shift (by_ : nat) (s : Segment) : Segment := (by_ + s.1, by_ + s.2).

Definition flush (k : Packing) : list Segment :=
  pk_segments k ++ (if current_start k <? current_end k then [(current_start k, current_end k)] else []).

Section pack.
(** [split_recursive(part_text, max_size, sep_idx + 1)]. *)
Context (text : bytes) (max_size : nat) (recurse : bytes → outcome (list Segment)).

Definition pack_part (k : Packing) (part : nat * nat) : outcome Packing :=
  part_text ← str_slice part.1 part.2 text;
  let part_len := count_chars part_text in
  let candidate_len := if Nat.eqb (current_start k) (current_end k) then part_len
                       else current_len k + part_len in
  if candidate_len <=? max_size then
    Done (mkPacking (pk_segments k) (current_start k) part.2 candidate_len)
  else
    let segments := flush k in
    if max_size <? part_len then
      sub ← recurse part_text;
      Done (mkPacking (segments ++ map (shift part.1) sub) part.2 part.2 0)
    else Done (mkPacking segments part.1 part.2 part_len).

Fixpoint pack (k : Packing) (parts : list (nat * nat)) : outcome Packing :=
  match parts with
  | [] => Done k
  | part :: parts => k ← pack_part k part; pack k parts
  end.
End pack.

(** [seps] is [SEPARATORS[sep_idx..]]. *)
Fixpoint split_recursive (seps : list bytes) (text : bytes) (max_size : nat) : outcome (list Segment) :=
  if (length text <=? max_size) || (count_chars text <=? max_size) then Done [(0, length text)]
  else
    match seps with
    | [] => char_loop (S (length text)) text max_size 0
    | sep :: seps =>
        k ← pack text max_size (λ part, split_recursive seps part max_size) (mkPacking [] 0 0 0)
              (split_keeping_offsets text sep);
        Done (flush k)
    end.

(** ** Merging and overlapping *)

Definition segment_chars (text : bytes) (seg : Segment) : outcome nat :=
  s ← str_slice seg.1 seg.2 text; Done (count_chars s).

(** [merged] so far is kept last segment first. *)
Definition merge_one (text : bytes) (min_size max_size : nat) (merged : list Segment) (seg : Segment)
    : outcome (list Segment) :=
  match merged with
  | [] => Done [seg]
  | last :: before =>
      a ← segment_chars text last;
      b ← segment_chars text seg;
      if ((a <? min_size) || (b <? min_size)) && (a + b <=? max_size)
      then Done ((last.1, seg.2) :: before) else Done (seg :: merged)
  end.

Fixpoint merge_loop (text : bytes) (min_size max_size : nat) (merged segs : list Segment)
    : outcome (list Segment) :=
  match segs with
  | [] => Done merged
  | seg :: segs => m ← merge_one text min_size max_size merged seg; merge_loop text min_size max_size m segs
  end.

(** The last segment joins the one before it when it is small. *)
Definition merge_last (text : bytes) (min_size max_size : nat) (merged : list Segment)
    : outcome (list Segment) :=
  match merged with
  | last :: prev :: before =>
      b ← segment_chars text last;
      if b <? min_size then
        a ← segment_chars text prev;
        if a + b <=? max_size then Done ((prev.1, last.2) :: before) else Done merged
      else Done merged
  | _ => Done merged
  end.

Definition merge_small_chunks (segments : list Segment) (text : bytes) (min_size max_size : nat)
    : outcome (list Segment) :=
  m ← merge_loop text min_size max_size [] segments;
  m ← merge_last text min_size max_size m;
  Done (reverse m).

Definition overlap_start (text : bytes) (overlap chunk_size prev_end : nat) (seg : Segment) : outcome nat :=
  let target_start := retreat_by_chars text prev_end overlap in
  new_start ← find_line_boundary_after text target_start;
  let min_start := retreat_by_chars text seg.2 chunk_size in
  let new_start := max new_start min_start in
  Done (if new_start <? seg.1 then new_start else seg.1).

Fixpoint overlap_loop (text : bytes) (overlap chunk_size prev_end : nat) (segs : list Segment)
    : outcome (list Segment) :=
  match segs with
  | [] => Done []
  | seg :: segs =>
      s ← overlap_start text overlap chunk_size prev_end seg;
      rest ← overlap_loop text overlap chunk_size seg.2 segs;
      Done ((s, seg.2) :: rest)
  end.

Definition apply_overlap (segments : list Segment) (text : bytes) (overlap chunk_size : nat)
    : outcome (list Segment) :=
  match segments with
  | first :: rest =>
      if Nat.eqb overlap 0 then Done segments
      else rest ← overlap_loop text overlap chunk_size first.2 rest; Done (first :: rest)
  | [] => Done []
  end.

(** ** Chunks *)

(** [n as u32]. *)
Definition as_u32 (n : nat) : N := (N.of_nat n mod u32_bound)%N.

(** [newline_offsets] and the binary search [line_at] does in it. *)
Definition newline_offsets (content : bytes) : list nat :=
  List.filter (λ i, at_is content i LF) (seq 0 (length content)).

Definition line_at (content : bytes) (pos : nat) : N :=
  (1 + as_u32 (count_while (λ nl, (nl <? pos)%nat) (newline_offsets content)))%N.

(** IEEE 754 binary64: [n as f64] and the constant [0.35]. *)
Definition f64_of_nat (n : nat) : spec_float := binary_normalize 53 1024 (Z.of_nat n) 0 false.
Definition LITERAL_DATA_SHARE : spec_float := S754_finite false 6305039478318694 (-54).

Definition is_literal_byte (b : byte) : bool := is_ascii_digit b || (b =? ",")%byte.

Definition is_literal_data (text : bytes) : bool :=
  let literal := length (List.filter is_literal_byte text) in
  SFltb (SFmul 53 1024 LITERAL_DATA_SHARE (f64_of_nat (length text))) (f64_of_nat literal).

Definition chunk_of (content : bytes) (seg : Segment) : outcome Chunk :=
  let start := snap_to_char_boundary content seg.1 in
  let e := find_char_boundary content seg.2 in
  let count_end := if (start <? e) && at_is content (e - 1) LF then e - 1 else e in
  text ← str_slice start e content;
  Done (mkChunk text (line_at content start) (line_at content count_end) start e).

Fixpoint chunks_of (content : bytes) (segs : list Segment) : outcome (list Chunk) :=
  match segs with
  | [] => Done []
  | seg :: segs => c ← chunk_of content seg; cs ← chunks_of content segs; Done (c :: cs)
  end.

(** The segments the chunks are cut from. *)
Definition segments_of (content : bytes) (config : ChunkConfig) : outcome (list Segment) :=
  let chunk_size := max (chunk_size config) 1 in
  raw ← split_recursive SEPARATORS content chunk_size;
  merged ← merge_small_chunks raw content (min_chunk_size config) chunk_size;
  apply_overlap merged content (overlap config) chunk_size.

Definition chunk_text (content : bytes) (config : ChunkConfig) : outcome (list Chunk) :=
  match content with
  | [] => Done []
  | _ =>
      segs ← segments_of content config;
      chunks ← chunks_of content segs;
      Done (List.filter (λ c, negb (is_literal_data (ck_text c))) chunks)
  end.

(** ** Chains of segments

    [chain text limit a segs b]: the segments are consecutive from [a] to [b], none
    empty, all cut at character boundaries and at most [limit] characters long. *)
Fixpoint chain (text : bytes) (limit a : nat) (segs : list Segment) (b : nat) : Prop :=
  match segs with
  | [] => a = b
  | (s, e) :: rest =>
      s = a ∧ s < e ∧ is_char_boundary text s = true ∧ is_char_boundary text e = true
      ∧ chars_in text s e ≤ limit ∧ chain text limit e rest b
  end.

Lemma chain_app text limit a b c l1 l2 :
  chain text limit a l1 b → chain text limit b l2 c → chain text limit a (l1 ++ l2) c.
Proof.
  revert a; induction l1 as [|[s e] l1 IH]; intros a; simpl; [by intros ->|].
  intros (Hs & He & Bs & Be & Hc & H) H2. split_and!; try done. by apply IH.
Qed.

Lemma chain_app_inv text limit a c l1 l2 :
  chain text limit a (l1 ++ l2) c → ∃ b, chain text limit a l1 b ∧ chain text limit b l2 c.
Proof.
  revert a; induction l1 as [|[s e] l1 IH]; intros a; simpl; [by exists a|].
  intros (Hs & He & Bs & Be & Hc & H). destruct (IH e H) as (m & Hl & Hr). exists m. by split_and!.
Qed.

Lemma chain_one text limit s e :
  s < e → is_char_boundary text s = true → is_char_boundary text e = true →
  chars_in text s e ≤ limit → chain text limit s [(s, e)] e.
Proof. intros. by split_and!. Qed.

Lemma chain_le text limit a segs b : chain text limit a segs b → a ≤ b.
Proof.
  revert a; induction segs as [|[s e] segs IH]; intros a; simpl; [lia|].
  intros (-> & ? & _ & _ & _ & H%IH). lia.
Qed.

(** A chain of a slice, shifted to the text. *)
Lemma chain_shift text limit s e a segs b :
  s ≤ e → is_char_boundary text s = true → is_char_boundary text e = true → b ≤ e - s →
  chain (slice s e text) limit a segs b → chain text limit (s + a) (map (shift s) segs) (s + b).
Proof.
  intros Hse Hs He Hb. revert a; induction segs as [|[x y] segs IH]; intros a; simpl; [by intros ->|].
  intros (-> & Hxy & Bx & By & Hc & H). pose proof (chain_le _ _ _ _ _ H).
  rewrite boundary_slice in Bx, By by (done || lia).
  split_and!; [done|lia|done|done| |by apply IH].
  unfold chars_in in *. by rewrite slice_slice in Hc by lia.
Qed.

(** ** Moving by characters *)

Lemma advance_ok text pos n :
  is_char_boundary text pos = true → pos < length text → 1 ≤ n →
  ∃ e, advance_by_chars text pos n = Done e ∧ pos < e
    ∧ is_char_boundary text e = true ∧ chars_in text pos e ≤ n.
Proof.
  intros Hp Hlt Hn. unfold advance_by_chars. rewrite str_slice_Done by (lia || done || apply boundary_end).
  cbn [mbind outcome_bind]. eexists; split; [done|].
  destruct (nth_char (slice pos (length text) text) n) as [off|] eqn:E.
  - apply nth_char_Some in E as (Hoff & Hb & Hc & Hno). rewrite length_slice_in in Hoff by lia.
    rewrite boundary_slice in Hb by (done || lia || apply boundary_end).
    split_and!; [lia|done|]. unfold chars_in.
    replace (slice pos (pos + off) text) with (take off (slice pos (length text) text)); [lia|].
    unfold slice. rewrite take_take. f_equal. lia.
  - apply nth_char_None in E. split_and!; [lia|apply boundary_end|done].
Qed.

Lemma retreat_loop_ok text p n :
  utf8 text → p ≤ length text → (is_char_boundary text p = true ∨ 0 < n) →
  let r := retreat_loop text p n in
  r ≤ p ∧ is_char_boundary text r = true ∧ chars_in text r p ≤ n.
Proof.
  intros Hu. revert n; induction p as [|p IH]; intros n Hp Hb; simpl.
  { split_and!; [done|by apply utf8_boundary_0|]. rewrite chars_in_nil. lia. }
  destruct n as [|n]; [|].
  { split_and!; [done|by destruct Hb; [|lia]|]. rewrite chars_in_nil. lia. }
  destruct (lookup_lt_is_Some_2 text p) as [b Hbp]; [lia|]. rewrite Hbp.
  assert (∀ r, r ≤ p → chars_in text r (S p) = chars_in text r p + (if is_continuation b then 0 else 1)) as Hs.
  { intros r Hr. rewrite (chars_in_split text r p (S p)) by lia.
    rewrite (chars_in_step text p (S p) b), chars_in_nil by (lia || done). lia. }
  destruct (is_continuation b) eqn:Eb.
  - destruct (IH (S n)) as (H1 & H2 & H3); [lia|right; lia|]. rewrite Hs by done. split_and!; [lia|done|lia].
  - destruct (IH n) as (H1 & H2 & H3); [lia|left|].
    { by rewrite (boundary_lookup _ _ _ Hbp), Eb. }
    rewrite Hs by done. split_and!; [lia|done|lia].
Qed.

Lemma retreat_ok text pos n :
  utf8 text → is_char_boundary text pos = true →
  let r := retreat_by_chars text pos n in
  r ≤ pos ∧ is_char_boundary text r = true ∧ chars_in text r pos ≤ n.
Proof.
  intros Hu Hb. unfold retreat_by_chars. pose proof (boundary_le _ _ Hb). rewrite Nat.min_l by done.
  apply retreat_loop_ok; auto.
Qed.

Lemma snap_boundary text pos : is_char_boundary text pos = true → snap_to_char_boundary text pos = pos.
Proof.
  intros H. unfold snap_to_char_boundary. pose proof (boundary_le _ _ H).
  destruct (Nat.leb_spec (length text) pos); [lia|]. destruct pos; [done|]. simpl. by rewrite H.
Qed.

Lemma find_boundary text pos : is_char_boundary text pos = true → find_char_boundary text pos = pos.
Proof.
  intros H. unfold find_char_boundary. pose proof (boundary_le _ _ H).
  destruct (Nat.leb_spec (length text) pos); [lia|]. destruct (length text); [done|]. simpl. by rewrite H.
Qed.

Lemma find_byte_at b l n : find_byte b l = Some n → l !! n = Some b.
Proof.
  intros [k Hk]%find_sub_Some. rewrite <- (Nat.add_0_r n), <- lookup_drop, Hk. done.
Qed.

Lemma line_boundary_ok text pos :
  utf8 text → is_char_boundary text pos = true →
  ∃ r, find_line_boundary_after text pos = Done r ∧ is_char_boundary text r = true.
Proof.
  intros Hu Hb. unfold find_line_boundary_after. pose proof (boundary_le _ _ Hb).
  destruct (Nat.eqb_spec pos 0); [eexists; split; [done|by apply utf8_boundary_0]|].
  rewrite snap_boundary by done. rewrite str_slice_Done by (done || apply boundary_end).
  cbn [mbind outcome_bind]. eexists; split; [done|].
  destruct (find_byte LF _) as [off|] eqn:E; [|done]. cbv zeta. apply find_byte_at in E.
  destruct (Nat.ltb_spec (pos + off + 1) (length text)); [|done].
  rewrite lookup_slice in E by lia. replace (pos + off + 1) with (S (pos + off)) by lia.
  by eapply utf8_after_ascii.
Qed.

(** ** Splitting *)

Definition sep_ok (sep : bytes) : Prop := ∃ before b, sep = before ++ [b] ∧ is_ascii b = true.

Lemma separators_ok : Forall sep_ok SEPARATORS.
Proof.
  repeat apply Forall_cons_2; [..|apply Forall_nil_2].
  - by exists [LF], LF.
  - by exists [], LF.
  - by exists (bs "."), SP.
  - by exists [], SP.
Qed.

Lemma chars_in_length text a b : b ≤ length text → chars_in text a b ≤ length text.
Proof.
  intros. unfold chars_in. pose proof (count_chars_length (slice a b text)) as H'.
  rewrite length_slice in H'. lia.
Qed.

Lemma split_loop_ok fuel text sep start :
  utf8 text → sep_ok sep → is_char_boundary text start = true → length text - start < fuel →
  chain text (length text) start (split_loop fuel text sep start) (length text).
Proof.
  intros Hu (before & b & -> & Hasc). revert start; induction fuel as [|fuel IH]; intros start Hb Hf; [lia|].
  pose proof (boundary_le _ _ Hb). cbn [split_loop].
  destruct (find_sub (before ++ [b]) (drop start text)) as [n|] eqn:E.
  - apply find_sub_Some in E as [k Hk]. rewrite drop_drop in Hk. rewrite length_app. cbn [length]. cbv zeta.
    assert (text !! (start + n + length before) = Some b) as Hlast.
    { rewrite <- lookup_drop, Hk, <- app_assoc, lookup_app_r, Nat.sub_diag by done. done. }
    pose proof (lookup_lt_Some _ _ _ Hlast).
    assert (is_char_boundary text (start + n + (length before + 1)) = true) as He.
    { replace (start + n + (length before + 1)) with (S (start + n + length before)) by lia.
      by eapply utf8_after_ascii. }
    rewrite (proj2 (Nat.ltb_lt _ _)) by lia. eapply chain_app; [|by apply IH; [|lia]].
    apply chain_one; [lia|done|done|]. apply chars_in_length. lia.
  - destruct (Nat.ltb_spec start (length text)); [|simpl; lia].
    apply chain_one; [done|done|apply boundary_end|]. by apply chars_in_length.
Qed.

Lemma split_keeping_ok text sep :
  utf8 text → sep_ok sep → chain text (length text) 0 (split_keeping_offsets text sep) (length text).
Proof. intros Hu Hs. apply split_loop_ok; [done|done|by apply utf8_boundary_0|lia]. Qed.

Lemma char_loop_ok fuel text max_size pos :
  1 ≤ max_size → is_char_boundary text pos = true → length text - pos < fuel →
  ∃ segs, char_loop fuel text max_size pos = Done segs ∧ chain text max_size pos segs (length text).
Proof.
  intros Hm. revert pos; induction fuel as [|fuel IH]; intros pos Hb Hf; [lia|]. cbn [char_loop].
  pose proof (boundary_le _ _ Hb).
  destruct (Nat.ltb_spec pos (length text)); [|exists []; split; [done|simpl; lia]].
  destruct (advance_ok text pos max_size) as (e & -> & Hlt & He & Hc); [done..|]. cbn [mbind outcome_bind].
  destruct (IH e He) as (segs & -> & Hs); [lia|]. cbn [mbind outcome_bind].
  eexists; split; [done|]. by split_and!.
Qed.

(** What the packing loop keeps: closed segments up to [current_start], and an
    open one from there to the part boundary it reached. *)
Record packed (text : bytes) (max_size pos : nat) (k : Packing) : Prop := {
  pk_chain : chain text max_size 0 (pk_segments k) (current_start k);
  pk_pos : current_end k = pos;
  pk_order : current_start k ≤ current_end k;
  pk_start : is_char_boundary text (current_start k) = true;
  pk_end : is_char_boundary text (current_end k) = true;
  pk_len : current_start k < current_end k →
    current_len k = chars_in text (current_start k) (current_end k) ∧ current_len k ≤ max_size;
}.

Lemma flush_ok text max_size pos k :
  packed text max_size pos k → chain text max_size 0 (flush k) pos.
Proof.
  intros []. unfold flush. destruct (Nat.ltb_spec (current_start k) (current_end k)).
  - destruct pk_len0 as [El Hl]; [done|]. eapply chain_app; [done|].
    rewrite <- pk_pos0. apply chain_one; [done..|lia].
  - rewrite app_nil_r. by replace pos with (current_start k) by lia.
Qed.

Section pack_ok.
Context (text : bytes) (max_size : nat) (recurse : bytes → outcome (list Segment)).
Hypothesis Hrec : ∀ part, utf8 part → part ≠ [] →
  ∃ segs, recurse part = Done segs ∧ chain part max_size 0 segs (length part).
Hypothesis Hutf8 : utf8 text.

Lemma pack_part_ok pos e k :
  packed text max_size pos k → pos < e → is_char_boundary text pos = true →
  is_char_boundary text e = true →
  ∃ k', pack_part text max_size recurse k (pos, e) = Done k' ∧ packed text max_size e k'.
Proof using Hrec Hutf8.
  intros Hk Hlt Hp He. pose proof Hk as [Hch Hpos Hord Hcs Hce Hlen]. unfold pack_part. cbn [fst snd].
  rewrite str_slice_Done by (done || lia). cbn [mbind outcome_bind]. fold (chars_in text pos e).
  set (cand := if Nat.eqb _ _ then _ else _).
  assert (cand = chars_in text (current_start k) e) as Ecand.
  { unfold cand. destruct (Nat.eqb_spec (current_start k) (current_end k)) as [E|E]; [congruence|].
    rewrite (chars_in_split text (current_start k) pos e) by lia. destruct Hlen as [-> _]; [lia|]. by rewrite Hpos. }
  destruct (Nat.leb_spec cand max_size) as [Hfit|Hbig].
  - eexists; split; [done|]. split; simpl; try done. lia.
  - pose proof (flush_ok _ _ _ _ Hk) as Hfl. cbv zeta.
    destruct (Nat.ltb_spec max_size (chars_in text pos e)) as [Hlong|Hshort].
    + destruct (Hrec (slice pos e text)) as (sub & -> & Hsub).
      { by apply utf8_slice; [|lia| |]. }
      { intros E. unfold chars_in in Hlong. rewrite E in Hlong. simpl in Hlong. unfold count_chars in Hlong.
        simpl in Hlong. lia. }
      cbn [mbind outcome_bind]. eexists; split; [done|]. split; simpl; try done; [|lia].
      rewrite length_slice_in in Hsub by (pose proof (boundary_le _ _ He); lia).
      apply (chain_shift text max_size pos e) in Hsub; [|lia|done|done|lia].
      rewrite Nat.add_0_r in Hsub. replace (pos + (e - pos)) with e in Hsub by lia. by eapply chain_app.
    + eexists; split; [done|]. split; simpl; try done. lia.
Qed.

Lemma pack_ok pos parts k :
  packed text max_size pos k → chain text (length text) pos parts (length text) →
  ∃ k', pack text max_size recurse k parts = Done k' ∧ packed text max_size (length text) k'.
Proof using Hrec Hutf8.
  revert pos k; induction parts as [|[s e] parts IH]; intros pos k Hk; simpl; [intros ->; by exists k|].
  intros (-> & Hlt & Hs & He & _ & Hch). destruct (pack_part_ok pos e k Hk Hlt Hs He) as (k' & -> & Hk').
  cbn [mbind outcome_bind]. by apply (IH e).
Qed.
End pack_ok.

Lemma whole_chain text limit : utf8 text → text ≠ [] → count_chars text ≤ limit →
  chain text limit 0 [(0, length text)] (length text).
Proof.
  intros Hu Hne Hc. apply chain_one; [destruct text; [done|simpl; lia]|by apply utf8_boundary_0|apply boundary_end|].
  unfold chars_in. by rewrite slice_full.
Qed.

Lemma split_recursive_ok seps text max_size :
  1 ≤ max_size → Forall sep_ok seps → utf8 text → text ≠ [] →
  ∃ segs, split_recursive seps text max_size = Done segs ∧ chain text max_size 0 segs (length text).
Proof.
  intros Hm. revert text; induction seps as [|sep seps IH]; intros text Hsep Hu Hne; cbn [split_recursive];
    (destruct (_ || _) eqn:Efit;
      [eexists; split; [done|]; apply whole_chain; [done|done|];
       pose proof (count_chars_length text); apply orb_true_iff in Efit as [E%Nat.leb_le|E%Nat.leb_le]; lia|]).
  - apply char_loop_ok; [done|by apply utf8_boundary_0|lia].
  - apply Forall_cons in Hsep as [Hs Hseps].
    destruct (pack_ok text max_size (λ part, split_recursive seps part max_size)
                (λ part Hp Hn, IH part Hseps Hp Hn) Hu 0 (split_keeping_offsets text sep) (mkPacking [] 0 0 0))
      as (k & -> & Hk).
    + split; simpl; try done; try lia; by apply utf8_boundary_0.
    + by apply split_keeping_ok.
    + cbn [mbind outcome_bind]. eexists; split; [done|]. by apply flush_ok.
Qed.

(** ** Merging *)

Lemma segment_chars_ok text s e :
  s ≤ e → is_char_boundary text s = true → is_char_boundary text e = true →
  segment_chars text (s, e) = Done (chars_in text s e).
Proof. intros. unfold segment_chars. simpl. by rewrite str_slice_Done. Qed.

Lemma chain_last text limit a merged s e b :
  chain text limit a (reverse merged ++ [(s, e)]) b → e = b.
Proof. intros H. apply chain_app_inv in H as (m & _ & (_ & _ & _ & _ & _ & H)). done. Qed.

Lemma merge_one_ok text min_size max_size merged s e :
  chain text max_size 0 (reverse merged) s → s < e → is_char_boundary text s = true →
  is_char_boundary text e = true → chars_in text s e ≤ max_size →
  ∃ m, merge_one text min_size max_size merged (s, e) = Done m ∧ chain text max_size 0 (reverse m) e.
Proof.
  intros Hc Hlt Hs He Hsz. unfold merge_one. destruct merged as [|[ls le] before].
  { simpl in Hc. subst. eexists; split; [done|]. by apply chain_one. }
  pose proof Hc as Hc'. rewrite reverse_cons in Hc'.
  apply chain_app_inv in Hc' as (m & Hb & (-> & Hl & Bl & Be & Hlc & E)). simpl in E. subst le.
  rewrite !segment_chars_ok by (done || lia). cbn [mbind outcome_bind].
  destruct (_ && _) eqn:Ej.
  - apply andb_true_iff in Ej as [_ Hsum%Nat.leb_le]. eexists; split; [done|]. simpl. rewrite reverse_cons.
    eapply chain_app; [exact Hb|]. apply chain_one; [lia|done|done|].
    rewrite (chars_in_split text m s e) by lia. done.
  - eexists; split; [done|]. rewrite reverse_cons. eapply chain_app; [exact Hc|]. by apply chain_one.
Qed.

Lemma merge_loop_ok text min_size max_size merged segs pos b :
  chain text max_size 0 (reverse merged) pos → chain text max_size pos segs b →
  ∃ m, merge_loop text min_size max_size merged segs = Done m ∧ chain text max_size 0 (reverse m) b.
Proof.
  revert merged pos; induction segs as [|[s e] segs IH]; intros merged pos Hm; simpl; [intros <-; by exists merged|].
  intros (-> & Hlt & Hs & He & Hc & H).
  destruct (merge_one_ok text min_size max_size merged pos e Hm Hlt Hs He Hc) as (m & -> & Hm').
  cbn [mbind outcome_bind]. by apply (IH m e).
Qed.

Lemma merge_last_ok text min_size max_size merged b :
  chain text max_size 0 (reverse merged) b →
  ∃ m, merge_last text min_size max_size merged = Done m ∧ chain text max_size 0 (reverse m) b.
Proof.
  intros H. unfold merge_last. destruct merged as [|[s e] [|[ps pe] before]]; [by eexists..|].
  pose proof H as H'. rewrite !reverse_cons in H'.
  apply chain_app_inv in H' as (m & Hb & (-> & Hl & Bl & Be & Hlc & E)). simpl in E. subst e.
  apply chain_app_inv in Hb as (m' & Hb & (-> & Hl' & Bl' & Be' & Hlc' & E)). simpl in E. subst pe.
  rewrite !segment_chars_ok by (done || lia). cbn [mbind outcome_bind].
  destruct (_ <? _); [|by eexists].
  destruct (Nat.leb_spec (chars_in text m' m + chars_in text m b) max_size); [|by eexists].
  eexists; split; [done|]. simpl. rewrite reverse_cons. eapply chain_app; [exact Hb|].
  apply chain_one; [lia|done|done|]. by rewrite (chars_in_split text m' m b) by lia.
Qed.

Lemma merge_small_ok text min_size max_size segs b :
  chain text max_size 0 segs b →
  ∃ m, merge_small_chunks segs text min_size max_size = Done m ∧ chain text max_size 0 m b.
Proof.
  intros H. unfold merge_small_chunks.
  destruct (merge_loop_ok text min_size max_size [] segs 0 b) as (m & -> & Hm); [done|done|].
  cbn [mbind outcome_bind]. destruct (merge_last_ok text min_size max_size m b Hm) as (m' & -> & Hm').
  cbn [mbind outcome_bind]. by eexists.
Qed.

(** ** Overlapping *)

(** A segment of the result and the merged segment it came from. *)
Definition widened (text : bytes) (limit : nat) (old new : Segment) : Prop :=
  new.1 ≤ old.1 ∧ new.2 = old.2 ∧ old.1 < old.2 ∧ is_char_boundary text new.1 = true
  ∧ is_char_boundary text new.2 = true ∧ chars_in text new.1 new.2 ≤ limit.

Lemma overlap_start_ok text ov limit prev_end s e :
  utf8 text → is_char_boundary text prev_end = true → s < e → is_char_boundary text s = true →
  is_char_boundary text e = true → chars_in text s e ≤ limit →
  ∃ n, overlap_start text ov limit prev_end (s, e) = Done n ∧ widened text limit (s, e) (n, e).
Proof.
  intros Hu Hp Hlt Hs He Hc. unfold overlap_start. cbn [fst snd].
  destruct (retreat_ok text prev_end ov Hu Hp) as (_ & Ht & _).
  destruct (line_boundary_ok text _ Hu Ht) as (r & -> & Hr). cbn [mbind outcome_bind].
  destruct (retreat_ok text e limit Hu He) as (Hme & Hmb & Hmc).
  set (m := retreat_by_chars text e limit) in *. eexists; split; [done|].
  unfold widened. cbn [fst snd]. destruct (Nat.ltb_spec (max r m) s) as [Hw|Hw].
  - split_and!; [lia|done|done| |done|].
    + destruct (Nat.max_spec r m) as [[_ ->]|[_ ->]]; done.
    + pose proof (chars_in_mono text m (max r m) e). lia.
  - by split_and!.
Qed.

Lemma overlap_loop_ok text ov limit prev_end segs b :
  utf8 text → is_char_boundary text prev_end = true → chain text limit prev_end segs b →
  ∃ segs', overlap_loop text ov limit prev_end segs = Done segs' ∧ Forall2 (widened text limit) segs segs'.
Proof.
  intros Hu. revert prev_end; induction segs as [|[s e] segs IH]; intros prev_end Hp; simpl; [by eexists|].
  intros (-> & Hlt & Hs & He & Hc & H).
  destruct (overlap_start_ok text ov limit prev_end prev_end e) as (n & -> & Hn); [done..|].
  cbn [mbind outcome_bind]. destruct (IH e He H) as (segs' & -> & Hs'). cbn [mbind outcome_bind].
  eexists; split; [done|]. by constructor.
Qed.

Lemma chain_widened text limit a segs b :
  chain text limit a segs b → Forall2 (widened text limit) segs segs.
Proof.
  revert a; induction segs as [|[s e] segs IH]; intros a; [constructor|].
  intros (-> & Hlt & Hs & He & Hc & H). constructor; [by split_and!|by apply (IH e)].
Qed.

Lemma apply_overlap_ok text ov limit segs b :
  utf8 text → chain text limit 0 segs b →
  ∃ segs', apply_overlap segs text ov limit = Done segs' ∧ Forall2 (widened text limit) segs segs'.
Proof.
  intros Hu H. unfold apply_overlap. destruct segs as [|[s e] segs]; [by eexists|].
  destruct (Nat.eqb ov 0); [eexists; split; [done|]; by eapply chain_widened|].
  destruct H as (-> & Hlt & Hs & He & Hc & H). cbn [snd].
  destruct (overlap_loop_ok text ov limit e segs b Hu He H) as (segs' & -> & Hs').
  cbn [mbind outcome_bind]. eexists; split; [done|]. constructor; [by split_and!|done].
Qed.

Lemma segments_ok content config :
  utf8 content → content ≠ [] →
  ∃ merged segs, segments_of content config = Done segs
    ∧ chain content (max (chunk_size config) 1) 0 merged (length content)
    ∧ Forall2 (widened content (max (chunk_size config) 1)) merged segs.
Proof.
  intros Hu Hne. unfold segments_of.
  destruct (split_recursive_ok SEPARATORS content (max (chunk_size config) 1)) as (raw & -> & Hr);
    [lia|apply separators_ok|done|done|].
  cbn [mbind outcome_bind].
  destruct (merge_small_ok content (min_chunk_size config) (max (chunk_size config) 1) raw _ Hr) as (m & -> & Hm).
  cbn [mbind outcome_bind].
  destruct (apply_overlap_ok content (overlap config) (max (chunk_size config) 1) m _ Hu Hm) as (s & -> & Hs).
  by exists m, s.
Qed.

(** ** Lines *)

Lemma count_while_seq (f : nat → bool) pos a n :
  count_while (λ i, i <? pos) (List.filter f (seq a n)) = length (List.filter f (seq a (min n (pos - a)))).
Proof.
  revert a; induction n as [|n IH]; intros a; [done|]. cbn [seq List.filter].
  destruct (Nat.ltb_spec a pos) as [Hlt|Hge].
  - replace (min (S n) (pos - a)) with (S (min n (pos - S a))) by lia. cbn [seq List.filter].
    destruct (f a); cbn [count_while]; rewrite ?(proj2 (Nat.ltb_lt _ _) Hlt), IH; done.
  - replace (min (S n) (pos - a)) with 0 by lia. simpl.
    destruct (f a); cbn [count_while]; [by rewrite (proj2 (Nat.ltb_ge _ _) Hge)|].
    rewrite IH. by replace (pos - S a) with 0 by lia; rewrite Nat.min_0_r.
Qed.

Lemma newlines_before content pos :
  pos ≤ length content → length (List.filter (λ i, at_is content i LF) (seq 0 pos)) = row_of content pos.
Proof.
  unfold row_of. induction pos as [|pos IH]; intros Hp; [by rewrite take_0|].
  destruct (lookup_lt_is_Some_2 content pos) as [b Hb]; [lia|].
  rewrite seq_S, List.filter_app, length_app, IH by lia. simpl.
  rewrite (take_S_r _ _ _ Hb), filter_app, length_app, filter_cons, filter_nil. f_equal.
  unfold at_is. rewrite Hb. destruct (beq_spec b LF); [by rewrite decide_True|by rewrite decide_False].
Qed.

Lemma line_at_row content pos :
  pos ≤ length content → (N.of_nat (length content) < u32_bound)%N →
  line_at content pos = N.of_nat (S (row_of content pos)).
Proof.
  intros Hp Hl. unfold line_at, as_u32, newline_offsets. rewrite count_while_seq, Nat.sub_0_r, Nat.min_r by done.
  rewrite newlines_before by done. rewrite N.mod_small; [lia|].
  assert (row_of content pos ≤ length content); [|lia].
  unfold row_of. etrans; [apply length_filter|]. rewrite length_take. lia.
Qed.

Lemma row_of_step content pos b :
  content !! pos = Some b → row_of content (S pos) = row_of content pos + (if b =? LF then 1 else 0).
Proof.
  intros Hb. unfold row_of. rewrite (take_S_r _ _ _ Hb), filter_app, length_app, filter_cons, filter_nil.
  destruct (beq_spec b LF); [by rewrite decide_True|by rewrite decide_False].
Qed.

(** ** Chunks *)

(** What a chunk of [content] reports about itself. *)
Definition chunk_ok (content : bytes) (limit : nat) (c : Chunk) : Prop :=
  start_byte c < end_byte c ∧ end_byte c ≤ length content
  ∧ is_char_boundary content (start_byte c) = true ∧ is_char_boundary content (end_byte c) = true
  ∧ ck_text c = slice (start_byte c) (end_byte c) content ∧ count_chars (ck_text c) ≤ limit.

Definition cut_from (seg : Segment) (c : Chunk) : Prop := (start_byte c, end_byte c) = seg.

Lemma chunk_of_ok content limit old seg :
  widened content limit old seg →
  ∃ c, chunk_of content seg = Done c ∧ chunk_ok content limit c ∧ cut_from seg c
    ∧ start_line c = line_at content (start_byte c)
    ∧ end_line c = line_at content (if at_is content (end_byte c - 1) LF then end_byte c - 1 else end_byte c).
Proof.
  destruct seg as [s e]. intros (Hw & He & Hlt & Bs & Be & Hc). simpl in *. unfold chunk_of. cbn [fst snd].
  rewrite snap_boundary, find_boundary by done. rewrite str_slice_Done by (done || lia).
  cbn [mbind outcome_bind]. rewrite (proj2 (Nat.ltb_lt s e)) by lia. eexists; split; [done|].
  split; [|done]. pose proof (boundary_le _ _ Be). split_and!; simpl; try done. lia.
Qed.

Lemma chunks_of_ok content limit merged segs :
  Forall2 (widened content limit) merged segs →
  ∃ cs, chunks_of content segs = Done cs ∧ Forall (chunk_ok content limit) cs ∧ Forall2 cut_from segs cs.
Proof.
  induction 1 as [|old seg merged segs Hw _ IH]; simpl; [by eexists|].
  destruct (chunk_of_ok content limit old seg Hw) as (c & -> & Hc & Hcut & _). cbn [mbind outcome_bind].
  destruct IH as (cs & -> & Hcs & Hcuts). cbn [mbind outcome_bind].
  eexists; split; [done|]. split; by constructor.
Qed.

Lemma filter_Forall {A} (P : A → Prop) f (l : list A) : Forall P l → Forall P (List.filter f l).
Proof. induction 1 as [|x l Hx _ IH]; simpl; [done|]. destruct (f x); [by constructor|done]. Qed.

(** Chunking any UTF-8 content under any configuration returns, without a
    slice off a character boundary, and every chunk is a non-empty slice of the
    content at its byte range, cut at character boundaries, of at most
    [chunk_size] characters (one when [chunk_size] is zero), overlap included. *)
Theorem chunk_text_sized content config :
  utf8 content →
  ∃ chunks, chunk_text content config = Done chunks
    ∧ Forall (chunk_ok content (max (chunk_size config) 1)) chunks.
Proof.
  intros Hu. destruct (decide (content = [])) as [->|Hne]; [by exists []|].
  destruct (segments_ok content config Hu Hne) as (merged & segs & Hs & _ & Hw).
  destruct (chunks_of_ok content _ merged segs Hw) as (cs & Hcs & Hok & _).
  unfold chunk_text. rewrite Hs. destruct content; [done|]. cbn [mbind outcome_bind]. rewrite Hcs.
  cbn [mbind outcome_bind]. eexists; split; [done|]. by apply filter_Forall.
Qed.

Lemma utf8_ascii s : forallb is_ascii s = true → utf8 s.
Proof.
  induction s as [|b s IH]; [constructor|]. simpl. intros [Hb Hs]%andb_true_iff.
  apply (utf8_cons [b]); [|by apply IH]. exists b, []. split_and!; [done| |constructor|done|simpl; lia].
  revert Hb. unfold is_ascii, is_continuation. destruct b; vm_compute; congruence.
Qed.

Lemma chunk_text_sized_witness :
  ∃ chunks, chunk_text (bs "fn main() { a(); }") (mkConfig 6 2 2) = Done chunks
    ∧ Forall (chunk_ok (bs "fn main() { a(); }") 6) chunks.
Proof. apply (chunk_text_sized (bs "fn main() { a(); }") (mkConfig 6 2 2)). by apply utf8_ascii. Defined.

(** The chunks before literal data is dropped. *)
Definition all_chunks (content : bytes) (config : ChunkConfig) : outcome (list Chunk) :=
  segs ← segments_of content config; chunks_of content segs.

Lemma chain_covers text limit a segs b i :
  chain text limit a segs b → a ≤ i < b → ∃ sg, sg ∈ segs ∧ sg.1 ≤ i < sg.2.
Proof.
  revert a; induction segs as [|[s e] segs IH]; intros a; simpl; [lia|].
  intros (-> & Hlt & _ & _ & _ & H) Hi. destruct (decide (i < e)).
  - exists (a, e). split; [by left|simpl; lia].
  - destruct (IH e H) as (sg & Hin & ?); [lia|]. exists sg. split; [by right|done].
Qed.

Lemma chain_ends text limit a segs b :
  chain text limit a segs b → StronglySorted lt (map snd segs) ∧ Forall (λ sg, a < sg.2) segs.
Proof.
  revert a; induction segs as [|[s e] segs IH]; intros a; simpl; [by repeat constructor|].
  intros (-> & Hlt & _ & _ & _ & H). destruct (IH e H) as [Hs Hf]. split.
  - constructor; [done|]. by rewrite Forall_fmap.
  - constructor; [done|]. eapply Forall_impl; [exact Hf|]. simpl. lia.
Qed.

(** C34. No text is lost: before literal-data chunks are dropped, the chunks cover
    every byte of the content, each ends after the one before it, and dropping
    literal data is all that [chunk_text] removes. *)
Theorem chunk_text_covers content config :
  utf8 content → content ≠ [] →
  ∃ chunks, all_chunks content config = Done chunks
    ∧ chunk_text content config = Done (List.filter (λ c, negb (is_literal_data (ck_text c))) chunks)
    ∧ (∀ i, i < length content → ∃ c, c ∈ chunks ∧ start_byte c ≤ i < end_byte c)
    ∧ StronglySorted lt (map end_byte chunks).
Proof.
  intros Hu Hne. destruct (segments_ok content config Hu Hne) as (merged & segs & Hs & Hch & Hw).
  destruct (chunks_of_ok content _ merged segs Hw) as (cs & Hcs & _ & Hcut).
  exists cs. unfold all_chunks, chunk_text. rewrite Hs. cbn [mbind outcome_bind]. split_and!; [done| | |].
  - destruct content; [done|]. by rewrite Hcs.
  - intros i Hi. destruct (chain_covers _ _ _ _ _ i Hch) as (sg & [j Hj]%list_elem_of_lookup_1 & Hr); [lia|].
    destruct (Forall2_lookup_l _ _ _ _ _ Hw Hj) as (sg' & Hj' & Hle & He & _).
    destruct (Forall2_lookup_l _ _ _ _ _ Hcut Hj') as (c & Hjc & Hc).
    exists c. split; [by eapply list_elem_of_lookup_2|]. unfold cut_from in Hc. subst sg'. simpl in *. lia.
  - replace (map end_byte cs) with (map snd merged); [by eapply chain_ends|].
    clear -Hw Hcut. revert cs Hcut. induction Hw as [|old sg merged segs (_ & He & _) _ IH]; intros cs Hcut;
      inversion Hcut as [|? c ? cs' Hc Hcs]; subst; [done|]. simpl.
    rewrite <- He, <- Hc. f_equal. by apply IH.
Qed.

Lemma chunk_text_covers_witness :
  let content := bs "let a = 1; let b = f(a); 1,2,3,4,5,6,7,8,9" in
  ∃ chunks, all_chunks content (mkConfig 12 2 3) = Done chunks
    ∧ chunk_text content (mkConfig 12 2 3) = Done (List.filter (λ c, negb (is_literal_data (ck_text c))) chunks)
    ∧ (∀ i, i < length content → ∃ c, c ∈ chunks ∧ start_byte c ≤ i < end_byte c)
    ∧ StronglySorted lt (map end_byte chunks).
Proof. intros content. apply (chunk_text_covers content (mkConfig 12 2 3)); [by apply utf8_ascii|done]. Defined.

(** The line range of a chunk is that of its first and last byte, one-based,
    a newline counting with the line it ends. *)
Theorem chunk_lines content config c chunks :
  utf8 content → (N.of_nat (length content) < u32_bound)%N →
  chunk_text content config = Done chunks → c ∈ chunks →
  start_line c = N.of_nat (S (row_of content (start_byte c)))
  ∧ end_line c = N.of_nat (S (row_of content (end_byte c - 1))).
Proof.
  intros Hu Hl Hct Hin. destruct (decide (content = [])) as [->|Hne].
  { injection Hct as <-. by apply not_elem_of_nil in Hin. }
  destruct (segments_ok content config Hu Hne) as (merged & segs & Hs & _ & Hw).
  assert (∀ cs, chunks_of content segs = Done cs → ∀ c, c ∈ cs → ∃ old sg, widened content (max (chunk_size config) 1) old sg
    ∧ chunk_of content sg = Done c) as Hfrom.
  { clear -Hw. induction Hw as [|old sg merged segs Hw _ IH]; intros cs; simpl.
    - intros [= <-] c Hc. by apply not_elem_of_nil in Hc.
    - destruct (chunk_of content sg) as [c0|] eqn:E; [|done]. cbn [mbind outcome_bind].
      destruct (chunks_of content segs) as [cs'|]; [|done]. intros [= <-] c [->|Hc]%elem_of_cons; [by eauto|].
      by eapply IH. }
  unfold chunk_text in Hct. rewrite Hs in Hct. destruct content as [|b0 rest] eqn:Econt; [done|]. rewrite <- Econt in *.
  cbn [mbind outcome_bind] in Hct. destruct (chunks_of content segs) as [cs|]; [|done].
  injection Hct as <-. apply list_elem_of_In, List.filter_In in Hin as [Hin _].
  destruct (Hfrom cs eq_refl c) as (old & sg & Hwd & Hc); [by apply list_elem_of_In|].
  destruct (chunk_of_ok content _ old sg Hwd) as (c' & Hc' & (Hlt & Hle & _) & _ & Es & Ee).
  rewrite Hc in Hc'. injection Hc' as <-. rewrite Es, Ee.
  destruct (lookup_lt_is_Some_2 content (end_byte c - 1)) as [b Hb]; [lia|].
  unfold at_is. rewrite Hb. pose proof (row_of_step content (end_byte c - 1) b Hb) as Hrow.
  replace (S (end_byte c - 1)) with (end_byte c) in Hrow by lia.
  destruct (b =? LF); rewrite !line_at_row by (lia || done); [done|]. by rewrite Hrow, Nat.add_0_r.
Qed.

Lemma chunk_lines_witness :
  let content := bs "ab" ++ [LF] ++ bs "cd" ++ [LF] in
  let c := mkChunk (bs "cd" ++ [LF]) 2 2 3 6 in
  start_line c = N.of_nat (S (row_of content (start_byte c)))
  ∧ end_line c = N.of_nat (S (row_of content (end_byte c - 1))).
Proof.
  intros content c.
  apply (chunk_lines content (mkConfig 3 1 0) c [mkChunk (bs "ab" ++ [LF]) 1 1 0 3; c]).
  - by apply utf8_ascii.
  - reflexivity.
  - vm_compute. reflexivity.
  - right. left.
Defined.
