(* ===== verification/Handle.v ===== *)
(** * Handle: textual entity handles

    Models [src/crates/protocol/src/handle.rs]: [Handle], [escape], [unescape],
    [valid_path], [parse_line], the constructors, [parse], [Display] and
    [mark_overloads].  [str::len] is a byte count, so a path is its UTF-8 bytes;
    line numbers are [N] below [2^32]. *)
From stdpp Require Import gmap.
From S2P Require Import Prelude Text.
From Stdlib Require Import Lia NArith.
Local Open Scope byte_scope.
Local Open Scope codesage_scope.

Inductive Handle :=
| HSymbol (path qualified : bytes) (line : option N)
| HFile (path : bytes)
| HDir (path : bytes)
| HChunk (path : bytes) (start e : N)
| HFeature (id : bytes).

#[export] Instance handle_eq_decision : EqDecision Handle.
Proof. solve_decision. Defined.

Definition FEATURE_PREFIX : bytes := bs "feat_".
Definition FEATURE_HEX_LEN : nat := 16.

(** ** Escaping *)

Definition escape_char (c : byte) : bytes :=
  if c =? "%" then bs "%25" else if c =? "#" then bs "%23" else if c =? "@" then bs "%40" else [c].

Definition escape (component : bytes) : bytes := concat (map escape_char component).

(** [match after.get(..3)]. *)
Definition decode_escape (after : bytes) : option byte :=
  if starts_with (bs "%25") after then Some "%"%byte
  else if starts_with (bs "%23") after then Some "#"%byte
  else if starts_with (bs "%40") after then Some "@"%byte
  else None.

(** Each round of [while let Some(pos) = rest.find('%')] shortens [rest]. *)
Fixpoint unescape_loop (fuel : nat) (rest out : bytes) : bytes :=
  match fuel with
  | 0 => out ++ rest
  | S fuel =>
      match find_byte "%" rest with
      | None => out ++ rest
      | Some pos =>
          let out := out ++ take pos rest in
          let after := drop pos rest in
          match decode_escape after with
          | Some c => unescape_loop fuel (drop 3 after) (out ++ [c])
          | None => unescape_loop fuel (drop 1 after) (out ++ ["%"%byte])
          end
      end
  end.

Definition unescape (component : bytes) : bytes := unescape_loop (S (length component)) component [].

(** ** Paths and lines *)

(** [char::is_control] over UTF-8: C0, DEL, and C1, which is encoded as [C2]
    followed by [80]..[9F]. *)
Fixpoint any_control (s : bytes) : bool :=
  match s with
  | [] => false
  | b :: s' =>
      byte_in_range x00 x1f b || (b =? x7f)
      || ((b =? xc2) && match s' with c :: _ => byte_in_range x80 x9f c | [] => false end)
      || any_control s'
  end.

Definition valid_path (path : bytes) : bool :=
  negb (bytes_eqb path [])
  && negb (starts_with (bs "/") path)
  && negb (has_byte "\" path)
  && negb (any_control path)
  && negb (existsb (bytes_eqb (bs "..")) (split_on "/" path)).

Definition parse_line (digits : bytes) : option N :=
  if negb (bytes_eqb digits []) && forallb is_ascii_digit digits then parse_u32 digits else None.

(** ** Constructors *)

Definition symbol (path qualified : bytes) (line : option N) : Handle := HSymbol path qualified line.

Definition file (path : bytes) : option Handle := if valid_path path then Some (HFile path) else None.

Definition dir (path : bytes) : option Handle := if valid_path path then Some (HDir path) else None.

Definition chunk (path : bytes) (start e : N) : Handle := HChunk path start e.

Definition handle_path (h : Handle) : option bytes :=
  match h with
  | HSymbol path _ _ | HFile path | HDir path | HChunk path _ _ => Some path
  | HFeature _ => None
  end.

(** ** Parsing and printing *)

Definition is_feature_hex (b : byte) : bool := is_ascii_digit b || byte_in_range "a" "f" b.

Definition parse_feature (input hex : bytes) : option Handle :=
  if Nat.eqb (length hex) FEATURE_HEX_LEN && forallb is_feature_hex hex
  then Some (HFeature input) else None.

Definition parse_symbol (rest : bytes) : option Handle :=
  '(path, tail) ← split_once "#" rest;
  '(qualified, line) ←
    match rsplit_once "@" tail with
    | Some (qualified, digits) => n ← parse_line digits; Some (qualified, Some n)
    | None => Some (tail, None)
    end;
  if has_byte "@" qualified then None
  else
    let path := unescape path in
    let qualified := unescape qualified in
    if valid_path path && negb (bytes_eqb qualified []) then Some (HSymbol path qualified line)
    else None.

Definition parse_dir (rest : bytes) : option Handle :=
  let trimmed := default rest (strip_suffix (bs "/") rest) in
  let path := unescape trimmed in
  if valid_path path then Some (HDir path) else None.

Definition parse_chunk (rest : bytes) : option Handle :=
  '(path, range) ← rsplit_once ":" rest;
  '(start, e) ← split_once "-" range;
  start ← parse_line start;
  e ← parse_line e;
  let path := unescape path in
  if valid_path path && (start <=? e)%N then Some (HChunk path start e) else None.

Definition parse (input : bytes) : option Handle :=
  match strip_prefix FEATURE_PREFIX input with
  | Some hex => parse_feature input hex
  | None =>
  match strip_prefix (bs "sym:") input with
  | Some rest => parse_symbol rest
  | None =>
  match strip_prefix (bs "file:") input with
  | Some rest => file (unescape rest)
  | None =>
  match strip_prefix (bs "dir:") input with
  | Some rest => parse_dir rest
  | None =>
  match strip_prefix (bs "chunk:") input with
  | Some rest => parse_chunk rest
  | None => None
  end end end end end.

(** [Display for Handle]. *)
Definition to_string (h : Handle) : bytes :=
  match h with
  | HSymbol path qualified line =>
      bs "sym:" ++ escape path ++ bs "#" ++ escape qualified
      ++ match line with Some n => bs "@" ++ show_u32 n | None => [] end
  | HFile path => bs "file:" ++ escape path
  | HDir path => bs "dir:" ++ escape path
  | HChunk path start e => bs "chunk:" ++ escape path ++ bs ":" ++ show_u32 start ++ bs "-" ++ show_u32 e
  | HFeature id => id
  end.

(** ** Symbols *)

Inductive SymbolKind :=
  | KFunction | KMethod | KClass | KTrait | KInterface | KStruct | KEnum | KConstant | KMacro | KModule | KNamespace.

#[export] Instance symbol_kind_eq_decision : EqDecision SymbolKind.
Proof. solve_decision. Defined.

Inductive Visibility := Public | Private | Protected | Crate | ModuleVisible | FileVisible.

(** The fields of [Symbol] (protocol/src/lib.rs) a handle is computed from, its
    kind and visibility, the last line of the body, and whether it is test code. *)
Record Symbol := mkSymbol {
  sy_name : bytes;
  qualified_name : bytes;
  sy_kind : SymbolKind;
  file_path : bytes;
  line_start : N;
  line_end : N;
  overloaded : bool;
  visibility : option Visibility;
  sy_is_test : bool;
}.

Definition symbol_handle (s : Symbol) : Handle :=
  let qualified := if bytes_eqb (qualified_name s) [] then sy_name s else qualified_name s in
  symbol (file_path s) qualified (if overloaded s then Some (line_start s) else None).

Definition overload_key (s : Symbol) : bytes * bytes := (file_path s, qualified_name s).

Definition count_keys (symbols : list Symbol) : gmap (bytes * bytes) nat :=
  fold_left (λ counts s, <[overload_key s := default 0 (counts !! overload_key s) + 1]> counts)
    symbols ∅.

Definition set_overloaded (s : Symbol) (flag : bool) : Symbol :=
  mkSymbol (sy_name s) (qualified_name s) (sy_kind s) (file_path s) (line_start s) (line_end s) flag (visibility s)
    (sy_is_test s).

(** [counts[&key]] panics on a missing key; every key was counted. *)
Definition mark_overloads (symbols : list Symbol) : list Symbol :=
  let counts := count_keys symbols in
  let overloaded := map (λ s, 1 <? default 0 (counts !! overload_key s)) symbols in
  zip_with set_overloaded symbols overloaded.

(** ** Escaping round trip *)

Lemma escape_cons c s : escape (c :: s) = escape_char c ++ escape s.
Proof. done. Qed.

Lemma escape_char_lacks d c :
  d = "#"%byte ∨ d = "@"%byte → d ∉ escape_char c.
Proof.
  intros Hd. unfold escape_char. destruct (beq_spec c "%"); [|destruct (beq_spec c "#");
    [|destruct (beq_spec c "@")]].
  4: { rewrite list_elem_of_singleton. destruct Hd as [-> | ->]; congruence. }
  all: rewrite <- has_byte_false; destruct Hd as [-> | ->]; reflexivity.
Qed.

Lemma escape_lacks d s : d = "#"%byte ∨ d = "@"%byte → d ∉ escape s.
Proof.
  intros Hd. induction s as [|c s IH]; [apply not_elem_of_nil|]. rewrite escape_cons, not_elem_of_app.
  split; [by apply escape_char_lacks|done].
Qed.

(** [unescape] as a structural function: what each round does at the first
    byte of [rest]. *)
Fixpoint unescape_spec (fuel : nat) (s : bytes) : bytes :=
  match fuel, s with
  | 0, _ => s
  | _, [] => []
  | S fuel, c :: s' =>
      if c =? "%" then
        match decode_escape s with
        | Some d => d :: unescape_spec fuel (drop 3 s)
        | None => "%"%byte :: unescape_spec fuel s'
        end
      else c :: unescape_spec fuel s'
  end.

Lemma unescape_loop_out fuel rest out :
  unescape_loop fuel rest out = out ++ unescape_loop fuel rest [].
Proof.
  revert rest out; induction fuel as [|fuel IH]; intros rest out; [done|]. cbn [unescape_loop].
  destruct (find_byte "%" rest) as [pos|]; [|done]. cbv zeta.
  destruct (decode_escape _); rewrite IH; symmetry; rewrite IH; by rewrite <- !app_assoc.
Qed.

Lemma unescape_loop_plain fuel a rest :
  "%"%byte ∉ a → unescape_loop fuel (a ++ rest) [] = a ++ unescape_loop fuel rest [].
Proof.
  intros Ha. destruct fuel as [|fuel]; [done|]. cbn [unescape_loop].
  destruct (find_byte "%" rest) as [pos|] eqn:E.
  - destruct (find_byte_split _ _ _ E) as [Hpos Hd].
    assert (find_byte "%" (a ++ rest) = Some (length a + pos)) as ->.
    { rewrite <- (take_drop pos rest), Hd, app_assoc, find_byte_app, length_app, length_take.
      - f_equal. apply f_equal. apply Nat.min_l.
        assert (length (drop pos rest) ≠ 0) as Hl by (rewrite Hd; done).
        rewrite length_drop in Hl. lia.
      - by rewrite not_elem_of_app. }
    cbv zeta. rewrite take_app_add, <- drop_drop, drop_app_length.
    destruct (decode_escape _); rewrite unescape_loop_out; symmetry;
      rewrite unescape_loop_out; by rewrite <- !app_assoc.
  - rewrite (proj2 (find_byte_none "%" (a ++ rest))); [done|].
    apply not_elem_of_app. split; [done|by apply find_byte_none].
Qed.

Lemma unescape_loop_escape s fuel :
  length s < fuel → unescape_loop fuel (escape s) [] = s.
Proof.
  revert fuel; induction s as [|c s IH]; intros fuel Hf; (destruct fuel as [|fuel]; [simpl in Hf; lia|]);
    [done|]. simpl in Hf. rewrite escape_cons.
  assert (∀ d e, decode_escape (e ++ escape s) = Some d → length e = 3 → find_byte "%" (e ++ escape s) = Some 0 →
     unescape_loop (S fuel) (e ++ escape s) [] = d :: s) as Hesc.
  { intros d e Hd He Hp. cbn [unescape_loop]. rewrite Hp. cbv zeta. rewrite drop_0, Hd, <- He, drop_app_length.
    rewrite unescape_loop_out, IH by lia. done. }
  unfold escape_char. destruct (beq_spec c "%") as [->|H1]; [by apply Hesc|].
  destruct (beq_spec c "#") as [->|H2]; [by apply Hesc|].
  destruct (beq_spec c "@") as [->|H3]; [by apply Hesc|].
  rewrite unescape_loop_plain by (apply not_elem_of_cons; split; [congruence|apply not_elem_of_nil]).
  simpl. f_equal.
  assert (∀ f, length s < f → unescape_loop f (escape s) [] = s) by (intros; apply IH; lia).
  change (unescape_loop (S fuel) (escape s) [] = s). apply IH. lia.
Qed.

Lemma length_escape s : length s ≤ length (escape s).
Proof.
  induction s as [|c s IH]; [simpl; lia|]. rewrite escape_cons, length_app. simpl.
  assert (1 ≤ length (escape_char c)); [|lia]. unfold escape_char.
  destruct (_ =? _); [simpl; lia|]. destruct (_ =? _); [simpl; lia|].
  destruct (_ =? _); simpl; lia.
Qed.

Lemma unescape_escape s : unescape (escape s) = s.
Proof. unfold unescape. apply unescape_loop_escape. pose proof (length_escape s). lia. Qed.

(** ** Printing round trip *)

Lemma parse_line_show n : (n < u32_bound)%N → parse_line (show_u32 n) = Some n.
Proof.
  intros H. unfold parse_line. rewrite (proj2 (forallb_Forall_true _ _)) by apply show_u32_digits.
  destruct (bytes_eqb_spec (show_u32 n) []) as [E|]; [by apply show_u32_nonempty in E|].
  by apply parse_show_u32.
Qed.

Lemma show_u32_lacks b n : is_ascii_digit b = false → b ∉ show_u32 n.
Proof. intros H. by eapply digits_lack, show_u32_digits. Qed.

(** The handles whose text reads back: a valid path, a name, and a line range
    in order; a directory path is written without a trailing slash. *)
Definition well_formed (h : Handle) : Prop :=
  match h with
  | HSymbol path qualified line =>
      valid_path path = true ∧ qualified ≠ [] ∧ ∀ n, line = Some n → (n < u32_bound)%N
  | HFile path => valid_path path = true
  | HDir path => valid_path path = true ∧ ends_with (bs "/") path = false
  | HChunk path start e => valid_path path = true ∧ (start ≤ e)%N ∧ (e < u32_bound)%N
  | HFeature id => ∃ hex, id = FEATURE_PREFIX ++ hex ∧ length hex = FEATURE_HEX_LEN
                          ∧ Forall (λ b, is_feature_hex b = true) hex
  end.

Lemma strip_suffix_none p s : ends_with p s = false → strip_suffix p s = None.
Proof. unfold strip_suffix. by intros ->. Qed.

Lemma ends_with_cons_single c b s :
  s ≠ [] → ends_with [c] (b :: s) = ends_with [c] s.
Proof.
  intros Hs. destruct s as [|x s _] using rev_ind; [done|].
  unfold ends_with. rewrite app_comm_cons, !reverse_snoc. simpl. done.
Qed.

Lemma ends_with_escape s : ends_with (bs "/") (escape s) = ends_with (bs "/") s.
Proof.
  destruct s as [|c s _] using rev_ind; [done|].
  assert (escape (s ++ [c]) = escape s ++ escape_char c) as ->
    by (unfold escape; rewrite map_app, concat_app; simpl; by rewrite app_nil_r).
  assert (∀ l x, ends_with (bs "/") (l ++ [x]) = ("/" =? x)) as Hl.
  { intros l x. unfold ends_with. rewrite reverse_snoc. simpl. by rewrite andb_true_r. }
  rewrite Hl. unfold escape_char.
  destruct (beq_spec c "%") as [->|]; [change (bs "%25") with (bs "%2" ++ ["5"%byte]); by rewrite app_assoc, Hl|].
  destruct (beq_spec c "#") as [->|]; [change (bs "%23") with (bs "%2" ++ ["3"%byte]); by rewrite app_assoc, Hl|].
  destruct (beq_spec c "@") as [->|]; [change (bs "%40") with (bs "%4" ++ ["0"%byte]); by rewrite app_assoc, Hl|].
  apply Hl.
Qed.

Lemma parse_symbol_display path qualified line :
  well_formed (HSymbol path qualified line) →
  parse_symbol (escape path ++ bs "#" ++ escape qualified
      ++ match line with Some n => bs "@" ++ show_u32 n | None => [] end)
    = Some (HSymbol path qualified line).
Proof.
  intros (Hp & Hq & Hn). unfold parse_symbol. change (bs "#" ++ ?x) with ("#"%byte :: x).
  rewrite split_once_app by (apply escape_lacks; auto). cbn [mbind option_bind].
  assert (has_byte "@" (escape qualified) = false) as Ha by (apply has_byte_false, escape_lacks; auto).
  destruct line as [n|].
  - change (bs "@" ++ ?x) with ("@"%byte :: x).
    rewrite rsplit_once_app by (by apply show_u32_lacks). cbn [mbind option_bind].
    rewrite parse_line_show by auto. cbn [mbind option_bind]. rewrite Ha, !unescape_escape, Hp.
    by destruct (bytes_eqb_spec qualified []).
  - rewrite app_nil_r. rewrite (proj2 (rsplit_once_None "@" _)) by (by apply has_byte_false).
    cbn [mbind option_bind]. rewrite Ha, !unescape_escape, Hp.
    by destruct (bytes_eqb_spec qualified []).
Qed.

Lemma parse_chunk_display path start e :
  well_formed (HChunk path start e) →
  parse_chunk (escape path ++ bs ":" ++ show_u32 start ++ bs "-" ++ show_u32 e)
    = Some (HChunk path start e).
Proof.
  intros (Hp & Hle & He). unfold parse_chunk. change (bs ":" ++ ?x) with (":"%byte :: x).
  change (bs "-" ++ ?x) with ("-"%byte :: x).
  rewrite rsplit_once_app.
  2:{ rewrite not_elem_of_app, not_elem_of_cons. split_and!; [by apply show_u32_lacks|done|by apply show_u32_lacks]. }
  cbn [mbind option_bind]. rewrite split_once_app by (by apply show_u32_lacks). cbn [mbind option_bind].
  rewrite !parse_line_show by lia. cbn [mbind option_bind]. rewrite unescape_escape, Hp.
  by rewrite (proj2 (N.leb_le _ _)).
Qed.

Lemma display_parses h : well_formed h → parse (to_string h) = Some h.
Proof.
  intros Hw. destruct h as [path q l|path|path|path s e|id].
  - by apply parse_symbol_display.
  - change (file (unescape (escape path)) = Some (HFile path)). unfold file.
    by rewrite unescape_escape, Hw.
  - change (parse_dir (escape path) = Some (HDir path)). destruct Hw as [Hp Hs]. unfold parse_dir.
    rewrite strip_suffix_none by (by rewrite ends_with_escape).
    change (default (escape path) None) with (escape path). by rewrite unescape_escape, Hp.
  - by apply parse_chunk_display.
  - destruct Hw as (hex & -> & Hl & Hh). unfold parse, to_string. rewrite strip_prefix_app.
    unfold parse_feature. by rewrite Hl, (proj2 (forallb_Forall_true _ _) Hh).
Qed.

(** C35. Printing round-trips: the text of every well-formed handle parses to
    that handle, whatever bytes its path and name hold. *)
Theorem parse_to_string h : well_formed h → parse (to_string h) = Some h.
Proof.
  apply display_parses.
Qed.

Lemma parse_to_string_witness :
  let h := HSymbol (bs "odd/a#b@c:d%e.rs") (bs "Ns::f#g@h%") (Some 7%N) in
  parse (to_string h) = Some h.
Proof.
  intros h. apply (parse_to_string h). split_and!; [reflexivity|done|].
  intros n [= <-]. reflexivity.
Defined.

(** ** What parses *)

(** A repository-relative path: not empty, not absolute, no backslash, no
    control character, and no [..] segment. *)
Definition repo_relative (path : bytes) : Prop :=
  path ≠ [] ∧ (∀ rest, path ≠ "/"%byte :: rest) ∧ ("\"%byte ∉ path) ∧ any_control path = false
  ∧ bs ".." ∉ split_on "/" path.

Lemma valid_path_true path : valid_path path = true ↔ repo_relative path.
Proof.
  unfold valid_path, repo_relative. rewrite !andb_true_iff, !negb_true_iff, has_byte_false.
  assert (existsb (bytes_eqb (bs "..")) (split_on "/" path) = false ↔ bs ".." ∉ split_on "/" path) as ->.
  { rewrite <- contains_word_true. unfold contains_word. by rewrite not_true_iff_false. }
  assert (bytes_eqb path [] = false ↔ path ≠ []) as ->
    by (destruct (bytes_eqb_spec path []); naive_solver).
  assert (starts_with (bs "/") path = false ↔ ∀ rest, path ≠ "/"%byte :: rest) as ->; [|tauto].
  destruct path as [|b path]; [by split|]. simpl. rewrite andb_true_r, beq_false. split.
  - intros H rest [= E _]. by apply H.
  - intros H E. by apply (H path); rewrite E.
Qed.

Lemma parse_line_bound digits n : parse_line digits = Some n → (n < u32_bound)%N.
Proof.
  unfold parse_line, parse_u32. destruct (_ && _); [|done]. cbv zeta.
  destruct (N.ltb_spec (dec_value digits) u32_bound); [|done]. by intros [= <-].
Qed.

(** [well_formed] but for the trailing slash of a directory. *)
Definition readable (h : Handle) : Prop :=
  match h with HDir path => valid_path path = true | _ => well_formed h end.

Lemma parse_symbol_readable rest h : parse_symbol rest = Some h → readable h.
Proof.
  unfold parse_symbol. destruct (split_once _ _) as [[path tail]|]; [|done]. cbn [mbind option_bind].
  intros Hs. assert (∀ q l, (∀ n, l = Some n → (n < u32_bound)%N) →
    (if has_byte "@" q then None
     else if valid_path (unescape path) && negb (bytes_eqb (unescape q) [])
     then Some (HSymbol (unescape path) (unescape q) l) else None) = Some h → readable h) as Hq.
  { intros q l Hl. destruct (has_byte "@" q); [done|].
    destruct (valid_path _) eqn:Ev; [|done]. destruct (bytes_eqb_spec (unescape q) []); [done|].
    intros [= <-]. done. }
  destruct (rsplit_once _ _) as [[q d]|].
  - destruct (parse_line d) as [n|] eqn:En; [|done]. cbn [mbind option_bind] in Hs.
    eapply Hq; [|exact Hs]. intros ? [= <-]. by eapply parse_line_bound.
  - by eapply Hq; [|exact Hs].
Qed.

Lemma parse_chunk_readable rest h : parse_chunk rest = Some h → readable h.
Proof.
  unfold parse_chunk. destruct (rsplit_once _ _) as [[path range]|]; [|done]. cbn [mbind option_bind].
  destruct (split_once _ _) as [[s e]|]; [|done]. cbn [mbind option_bind].
  destruct (parse_line s) as [ns|] eqn:Es; [|done]. cbn [mbind option_bind].
  destruct (parse_line e) as [ne|] eqn:Ee; [|done]. cbn [mbind option_bind]. cbv zeta.
  destruct (valid_path _) eqn:Ev; [|done]. destruct (N.leb_spec ns ne); [|done]. simpl.
  intros [= <-]. split_and!; [done|done|]. by eapply parse_line_bound.
Qed.

Lemma parse_readable input h : parse input = Some h → readable h.
Proof.
  unfold parse. destruct (strip_prefix FEATURE_PREFIX input) as [hex|] eqn:E1.
  { unfold parse_feature. destruct (Nat.eqb_spec (length hex) FEATURE_HEX_LEN); [|done].
    destruct (forallb is_feature_hex hex) eqn:Eh; [|done]. intros [= <-].
    apply strip_prefix_Some in E1. exists hex. split_and!; [done|done|]. by apply forallb_Forall_true. }
  destruct (strip_prefix (bs "sym:") input); [apply parse_symbol_readable|].
  destruct (strip_prefix (bs "file:") input) as [r|].
  { unfold file. destruct (valid_path _) eqn:Ev; [|done]. by intros [= <-]. }
  destruct (strip_prefix (bs "dir:") input) as [r|].
  { unfold parse_dir. cbv zeta. destruct (valid_path _) eqn:Ev; [|done]. by intros [= <-]. }
  destruct (strip_prefix (bs "chunk:") input); [apply parse_chunk_readable|done].
Qed.

(** Nothing outside the repository parses: whatever text a caller sends, the
    path of a parsed handle is repository-relative, its name is not empty and
    its lines are [u32]s in order. *)
Theorem parse_confined input :
  match parse input with
  | None => True
  | Some h =>
      (∀ path, handle_path h = Some path → repo_relative path)
      ∧ match h with
        | HSymbol _ q l => q ≠ [] ∧ ∀ n, l = Some n → (n < u32_bound)%N
        | HChunk _ s e => (s ≤ e < u32_bound)%N
        | _ => True
        end
  end.
Proof.
  destruct (parse input) as [h|] eqn:E; [|done]. apply parse_readable in E.
  destruct h; simpl in *; setoid_rewrite <- valid_path_true.
  - destruct E as (? & ? & ?). split; [by intros ? [= <-]|done].
  - split; [by intros ? [= <-]|done].
  - split; [by intros ? [= <-]|done].
  - destruct E as (? & ? & ?). split; [by intros ? [= <-]|lia].
  - done.
Qed.

(** A directory handle does not always read back: [dir] accepts a path with
    a trailing slash, and its text parses to the handle without it. *)
Theorem dir_trailing_slash :
  ∃ path h, dir path = Some h ∧ parse (to_string h) ≠ Some h ∧ parse (to_string h) ≠ None.
Proof.
  exists (bs "src/"), (HDir (bs "src/")).
  split; [vm_compute; reflexivity|]. by split; vm_compute.
Qed.

(** ** Overloads *)

Lemma count_keys_lookup symbols k :
  default 0 (count_keys symbols !! k) = length (filter (λ s, overload_key s = k) symbols).
Proof.
  unfold count_keys. induction symbols as [|s l IH] using rev_ind; [done|].
  rewrite fold_left_app, filter_app, length_app. simpl. rewrite filter_cons, filter_nil.
  destruct (decide (overload_key s = k)) as [<-|Hne].
  - rewrite lookup_insert_eq. simpl. by rewrite <- IH.
  - rewrite lookup_insert_ne by done. simpl. by rewrite IH, Nat.add_0_r.
Qed.

Lemma filter_two {A} (P : A → Prop) `{∀ x, Decision (P x)} (l : list A) i j x y :
  i ≠ j → l !! i = Some x → l !! j = Some y → P x → P y → 1 < length (filter P l).
Proof.
  assert (∀ a b z w, a < b → l !! a = Some z → l !! b = Some w → P z → P w → 1 < length (filter P l)) as Hw.
  { intros a b z w Hab Ha Hb Pz Pw.
    rewrite <- (take_drop_middle l a z Ha), filter_app, filter_cons, length_app, decide_True by done.
    assert (w ∈ drop (S a) l) as Hin.
    { apply (list_elem_of_lookup_2 _ (b - S a)). rewrite lookup_drop. rewrite <- Hb. f_equal. lia. }
    assert (w ∈ filter P (drop (S a) l)) as Hf by (by apply list_elem_of_filter).
    destruct (filter P (drop (S a) l)); [by apply not_elem_of_nil in Hf|]. simpl. lia. }
  intros Hij Hi Hj Hx Hy. destruct (decide (i < j)); [by eapply Hw|].
  eapply (Hw j i); eauto. lia.
Qed.

Lemma mark_overloads_lookup symbols i s' :
  mark_overloads symbols !! i = Some s' →
  ∃ s, symbols !! i = Some s ∧ s' = set_overloaded s (1 <? length (filter (λ t, overload_key t = overload_key s) symbols)).
Proof.
  unfold mark_overloads. cbv zeta. rewrite lookup_zip_with, list_lookup_fmap.
  destruct (symbols !! i) as [s|]; [|done]. simpl. intros [= <-]. exists s.
  by rewrite count_keys_lookup.
Qed.

(** After [mark_overloads], symbol handles are unambiguous: two entries of
    the list with qualified names can only share a handle text when they agree
    on file, qualified name and start line. *)
Theorem mark_overloads_unambiguous symbols i j a b :
  i ≠ j →
  mark_overloads symbols !! i = Some a → mark_overloads symbols !! j = Some b →
  qualified_name a ≠ [] → qualified_name b ≠ [] →
  valid_path (file_path a) = true → valid_path (file_path b) = true →
  (line_start a < u32_bound)%N → (line_start b < u32_bound)%N →
  to_string (symbol_handle a) = to_string (symbol_handle b) →
  file_path a = file_path b ∧ qualified_name a = qualified_name b ∧ line_start a = line_start b
  ∧ overloaded a = true ∧ overloaded b = true.
Proof.
  intros Hij Ha Hb Hqa Hqb Hpa Hpb Hla Hlb Hs.
  assert (∀ s, qualified_name s ≠ [] → symbol_handle s =
    HSymbol (file_path s) (qualified_name s) (if overloaded s then Some (line_start s) else None)) as Hh.
  { intros s Hq. unfold symbol_handle, symbol. by destruct (bytes_eqb_spec (qualified_name s) []). }
  assert (∀ s, qualified_name s ≠ [] → valid_path (file_path s) = true → (line_start s < u32_bound)%N →
    parse (to_string (symbol_handle s)) = Some (symbol_handle s)) as Hrt.
  { intros s Hq Hp Hl. apply display_parses. rewrite Hh by done. split_and!; [done|done|].
    destruct (overloaded s); [by intros ? [= <-]|done]. }
  assert (symbol_handle a = symbol_handle b) as Heq.
  { apply (inj Some). rewrite <- !Hrt by done. by rewrite Hs. }
  rewrite !Hh in Heq by done. injection Heq as Hf Hq Hl.
  destruct (mark_overloads_lookup _ _ _ Ha) as (sa & Hsa & ->).
  destruct (mark_overloads_lookup _ _ _ Hb) as (sb & Hsb & ->). simpl in *.
  assert (overload_key sa = overload_key sb) as Hk by (unfold overload_key; congruence).
  assert (1 < length (filter (λ t, overload_key t = overload_key sa) symbols)) as Hc
    by (eapply filter_two; [exact Hij|exact Hsa|exact Hsb|done|done]).
  rewrite Hk in Hl, Hc |- *. rewrite (proj2 (Nat.ltb_lt _ _)) in Hl |- * by done.
  injection Hl. done.
Qed.

Lemma mark_overloads_unambiguous_witness :
  let s := mkSymbol (bs "f") (bs "N::f") KFunction (bs "src/a.rs") 3 9 false None false in
  let t := mkSymbol (bs "g") (bs "N::f") KFunction (bs "src/a.rs") 3 9 false None false in
  let a := set_overloaded s true in
  let b := set_overloaded t true in
  file_path a = file_path b ∧ qualified_name a = qualified_name b ∧ line_start a = line_start b
  ∧ overloaded a = true ∧ overloaded b = true.
Proof.
  intros s t a b.
  apply (mark_overloads_unambiguous [s; t] 0 1 a b); try done; vm_compute; reflexivity.
Defined.
