(* ===== verification/WorkControl.v ===== *)
(** * WorkControl: cooperative cancellation shared between threads

    Models [src/crates/protocol/src/work.rs].  [Shared] is the Rust [Inner] with
    the threads that are inside one of its methods; every atomic access and
    every critical section is one step of [step], so the traces of the relation
    are the interleavings of concurrent [cancel], [on_cancel] and registration
    drops.  A callback is identified by the id [on_cancel] gives it; [called]
    logs the calls in order. *)
From stdpp Require Import gmap fin_maps sorting.
From S2P Require Import Prelude.
From Stdlib Require Import Lia.

(** ** Reasons *)

Inductive StopReason :=
| ClientCancelled | ConnectionClosed | DeadlineExceeded | NoConsumers | Shutdown | Incomplete.

#[export] Instance stop_reason_eq_decision : EqDecision StopReason.
Proof. solve_decision. Defined.

(** [reason as u8]. *)
Definition reason_u8 (r : StopReason) : nat :=
  match r with
  | ClientCancelled => 1 | ConnectionClosed => 2 | DeadlineExceeded => 3
  | NoConsumers => 4 | Shutdown => 5 | Incomplete => 6
  end.

Definition as_str (r : StopReason) : bytes :=
  match r with
  | ClientCancelled | ConnectionClosed | NoConsumers => bs "cancelled"
  | DeadlineExceeded => bs "timeout"
  | Shutdown => bs "shutdown"
  | Incomplete => bs "incomplete"
  end.

(** The [match] of [WorkControl::reason] on the loaded byte. *)
Definition reason_of_u8 (b : nat) : option StopReason :=
  match b with
  | 1 => Some ClientCancelled
  | 2 => Some ConnectionClosed
  | 3 => Some DeadlineExceeded
  | 4 => Some NoConsumers
  | 5 => Some Shutdown
  | 6 => Some Incomplete
  | _ => None
  end.

(** ** The shared object *)

(** A thread inside [cancel] after its exchange succeeded. *)
Inductive Canceller :=
| NoCanceller                 (* no exchange has succeeded *)
| WonExchange                 (* before the callbacks are collected *)
| Calling (ids : list nat).  (* collected, these are still to be called *)

(** The holder of the [callbacks] lock: a registration that has read [reason]
    and not yet acted on it. *)
Inductive Lock :=
| Free
| Registering (id : nat) (saw : nat).

Record Shared := mkShared {
  reason : nat;
  next_callback : nat;
  callbacks : gset nat;
  lock : Lock;
  canceller : Canceller;
  entering : gset nat;    (* [on_cancel] has an id, before the lock *)
  late : gset nat;        (* [on_cancel] saw a reason, callback not called yet *)
  registered : gset nat;  (* [on_cancel] returned, its registration is alive *)
  called : list nat;
}.

Definition new : Shared := mkShared 0 1 ∅ Free NoCanceller ∅ ∅ ∅ [].

(** [cancel]'s compare-and-exchange. *)
Definition cancel_exchange (r : StopReason) (s : Shared) : Shared :=
  if Nat.eqb (reason s) 0 then
    mkShared (reason_u8 r) (next_callback s) (callbacks s) (lock s) WonExchange
      (entering s) (late s) (registered s) (called s)
  else s.

(** [callbacks.lock()...values().cloned().collect()]: in key order. *)
Definition collect_callbacks (s : Shared) : option Shared :=
  match canceller s, lock s with
  | WonExchange, Free =>
      Some (mkShared (reason s) (next_callback s) (callbacks s) Free
              (Calling (merge_sort Nat.le (elements (callbacks s))))
              (entering s) (late s) (registered s) (called s))
  | _, _ => None
  end.

Definition call_next (s : Shared) : option Shared :=
  match canceller s with
  | Calling (id :: rest) =>
      Some (mkShared (reason s) (next_callback s) (callbacks s) (lock s) (Calling rest)
              (entering s) (late s) (registered s) (called s ++ [id]))
  | _ => None
  end.

(** [next_callback.fetch_add(1)]; [2^64] registrations on one control are out
    of reach, so the counter does not wrap. *)
Definition take_id (s : Shared) : Shared :=
  mkShared (reason s) (next_callback s + 1) (callbacks s) (lock s) (canceller s)
    ({[next_callback s]} ∪ entering s) (late s) (registered s) (called s).

(** The lock is taken and [reason] read. *)
Definition lock_and_read (id : nat) (s : Shared) : option Shared :=
  match lock s with
  | Free =>
      if decide (id ∈ entering s) then
        Some (mkShared (reason s) (next_callback s) (callbacks s) (Registering id (reason s))
                (canceller s) (entering s ∖ {[id]}) (late s) (registered s) (called s))
      else None
  | Registering _ _ => None
  end.

(** The callback is inserted, or the lock released to call it. *)
Definition act_and_unlock (s : Shared) : option Shared :=
  match lock s with
  | Registering id saw =>
      Some (if Nat.eqb saw 0 then
              mkShared (reason s) (next_callback s) ({[id]} ∪ callbacks s) Free (canceller s)
                (entering s) (late s) ({[id]} ∪ registered s) (called s)
            else
              mkShared (reason s) (next_callback s) (callbacks s) Free (canceller s)
                (entering s) ({[id]} ∪ late s) (registered s) (called s))
  | Free => None
  end.

Definition call_late (id : nat) (s : Shared) : option Shared :=
  if decide (id ∈ late s) then
    Some (mkShared (reason s) (next_callback s) (callbacks s) (lock s) (canceller s)
            (entering s) (late s ∖ {[id]}) ({[id]} ∪ registered s) (called s ++ [id]))
  else None.

(** [Drop for CancelRegistration]. *)
Definition drop_registration (id : nat) (s : Shared) : option Shared :=
  match lock s with
  | Free =>
      if decide (id ∈ registered s) then
        Some (mkShared (reason s) (next_callback s) (callbacks s ∖ {[id]}) Free (canceller s)
                (entering s) (late s) (registered s ∖ {[id]}) (called s))
      else None
  | Registering _ _ => None
  end.

Inductive step : Shared → Shared → Prop :=
| step_cancel r s : step s (cancel_exchange r s)
| step_collect s s' : collect_callbacks s = Some s' → step s s'
| step_call s s' : call_next s = Some s' → step s s'
| step_take_id s : step s (take_id s)
| step_lock id s s' : lock_and_read id s = Some s' → step s s'
| step_act s s' : act_and_unlock s = Some s' → step s s'
| step_late id s s' : call_late id s = Some s' → step s s'
| step_drop id s s' : drop_registration id s = Some s' → step s s'.

Inductive reachable : Shared → Prop :=
| reachable_new : reachable new
| reachable_step s s' : reachable s → step s s' → reachable s'.

(** [WorkControl::reason] at time [now]: a passed deadline cancels first. *)
Definition reason_at (deadline : option nat) (now : nat) (s : Shared) : option StopReason * Shared :=
  let s := match deadline with
           | Some d => if d <=? now then cancel_exchange DeadlineExceeded s else s
           | None => s
           end in
  (reason_of_u8 (reason s), s).

Definition check (deadline : option nat) (now : nat) (s : Shared) : option StopReason :=
  (reason_at deadline now s).1.

(** ** Current control of a thread *)

(** [enter] replaces the thread's slot and keeps what it held; dropping the
    scope puts it back. *)
Definition enter {C} (control : C) (slot : option C) : option C * option C := (Some control, slot).

Definition drop_scope {C} (previous : option C) (_slot : option C) : option C := previous.

Definition checkpoint {C} (chk : C → option StopReason) (slot : option C) : option StopReason :=
  match slot with Some c => chk c | None => None end.

(** ** Invariant *)

Definition to_call (s : Shared) : list nat :=
  match canceller s with Calling ids => ids | _ => [] end.

Definition collected (s : Shared) : bool :=
  match canceller s with Calling _ => true | _ => false end.

Definition locked_id (s : Shared) : gset nat :=
  match lock s with Registering id _ => {[id]} | Free => ∅ end.

Record invariant (s : Shared) : Prop := {
  inv_once : NoDup (called s ++ to_call s);
  inv_old : ∀ id, id ∈ called s ++ to_call s → id < next_callback s;
  inv_ids : ∀ id, id ∈ entering s ∪ late s ∪ registered s ∪ callbacks s ∪ locked_id s → id < next_callback s;
  (* a registration is in one place, and uncalled until it is called *)
  inv_entering : ∀ id, id ∈ entering s → (id ∉ late s ∪ registered s ∪ callbacks s ∪ locked_id s)
                                          ∧ id ∉ called s ++ to_call s;
  inv_locked : ∀ id, id ∈ locked_id s → (id ∉ late s ∪ registered s ∪ callbacks s)
                                          ∧ id ∉ called s ++ to_call s;
  inv_late : ∀ id, id ∈ late s → (id ∉ registered s ∪ callbacks s) ∧ id ∉ called s ++ to_call s;
  inv_fresh : collected s = false → ∀ id, id ∈ callbacks s → id ∉ called s;
  inv_done : collected s = true → ∀ id, id ∈ callbacks s → id ∈ called s ++ to_call s;
  (* a live registration is stored or was called *)
  inv_registered : ∀ id, id ∈ registered s → id ∈ callbacks s ∨ id ∈ called s;
  inv_subset : callbacks s ⊆ registered s;
  inv_reason : canceller s = NoCanceller ↔ reason s = 0;
  inv_saw : ∀ id saw, lock s = Registering id saw → saw = 0 → collected s = false;
  inv_late_reason : late s ≠ ∅ → reason s ≠ 0;
  inv_saw_reason : ∀ id saw, lock s = Registering id saw → saw ≠ 0 → reason s ≠ 0;
  inv_uncalled : reason s = 0 → called s = [];
  inv_byte : reason s = 0 ∨ is_Some (reason_of_u8 (reason s));
}.

Lemma reason_u8_decode r : reason_of_u8 (reason_u8 r) = Some r.
Proof. by destruct r. Qed.

Lemma reason_u8_nonzero r : reason_u8 r ≠ 0.
Proof. by destruct r. Qed.

Lemma invariant_new : invariant new.
Proof. split; simpl; try set_solver; try (by constructor); try done; try lia. Qed.

#[local] Ltac split_invariant H := destruct H; split; unfold to_call, collected, locked_id in *; simpl in *.

Lemma exchange_invariant r s : invariant s → invariant (cancel_exchange r s).
Proof.
  intros H. unfold cancel_exchange. destruct (Nat.eqb_spec (reason s) 0) as [E|E]; [|done].
  assert (canceller s = NoCanceller) as Hc by (by apply (inv_reason s)).
  pose proof (reason_u8_nonzero r) as Hr. pose proof (reason_u8_decode r) as Hd.
  split_invariant H; rewrite Hc in *; try done; try set_solver.
Qed.

Lemma collect_invariant s s' : collect_callbacks s = Some s' → invariant s → invariant s'.
Proof.
  unfold collect_callbacks. destruct (canceller s) eqn:Ec; try done.
  destruct (lock s) eqn:El; [|done]. intros [= <-] H.
  assert (∀ id, id ∈ merge_sort Nat.le (elements (callbacks s)) ↔ id ∈ callbacks s) as Hm.
  { intros id. rewrite merge_sort_Permutation. apply elem_of_elements. }
  assert (NoDup (merge_sort Nat.le (elements (callbacks s)))) as Hn.
  { rewrite merge_sort_Permutation. apply NoDup_elements. }
  split_invariant H; rewrite ?Ec, ?El in *; rewrite ?app_nil_r in *; try done.
  - apply NoDup_app. split_and!; [done| |done]. intros x Hx Hx'%Hm. by eapply inv_fresh0.
  - intros id. rewrite elem_of_app, Hm. intros [?|?]; [auto|apply inv_ids0; set_solver].
  - intros id Hid. destruct (inv_entering0 id Hid). rewrite elem_of_app, Hm. set_solver.
  - set_solver.
  - intros _ id Hid. rewrite elem_of_app, Hm. auto.
  - split; [done|]. intros E. by apply inv_reason0 in E.
Qed.

Lemma call_next_invariant s s' : call_next s = Some s' → invariant s → invariant s'.
Proof.
  unfold call_next. destruct (canceller s) as [| |[|id rest]] eqn:Ec; try done. intros [= <-] H.
  assert (reason s ≠ 0) as Hr.
  { intros E%(inv_reason s H). congruence. }
  split_invariant H; rewrite ?Ec in *; rewrite <- ?app_assoc in *; simpl in *; try done.
  - intros k Hk. destruct (inv_registered0 k Hk); [by left|right]. apply elem_of_app. by left.
Qed.

Lemma take_id_invariant s : invariant s → invariant (take_id s).
Proof.
  intros H. split_invariant H; try done.
  - intros id Hid. specialize (inv_old0 id Hid). lia.
  - intros id Hid. destruct (decide (id = next_callback s)) as [->|]; [lia|].
    assert (id < next_callback s); [apply inv_ids0; set_solver|lia].
  - intros id [->%elem_of_singleton|Hid]%elem_of_union; [|by apply inv_entering0]. split.
    + intros Hin. assert (next_callback s < next_callback s); [apply inv_ids0; set_solver|lia].
    + intros Hin%inv_old0. lia.
Qed.

Lemma lock_invariant id s s' : lock_and_read id s = Some s' → invariant s → invariant s'.
Proof.
  unfold lock_and_read. destruct (lock s) eqn:El; [|done]. case_decide as Hin; [|done].
  intros [= <-] H. pose proof (inv_entering s H id Hin) as [Hfree Hnew].
  split_invariant H; rewrite ?El in *; try done.
  - intros k Hk. apply inv_ids0. clear -Hk Hin. set_solver.
  - intros k [Hk Hne]%elem_of_difference. destruct (inv_entering0 k Hk) as [Hf Hn].
    split; [clear -Hf Hne; set_solver|done].
  - intros k ->%elem_of_singleton. split; [clear -Hfree; set_solver|done].
  - intros k saw [= <- <-] E. apply inv_reason0 in E. by rewrite E.
  - intros k saw [= <- <-]. done.
Qed.

Lemma act_invariant s s' : act_and_unlock s = Some s' → invariant s → invariant s'.
Proof.
  unfold act_and_unlock. destruct (lock s) as [|id saw] eqn:El; [done|].
  intros E0 H. pose proof (inv_locked s H id) as Hid. unfold locked_id in Hid. rewrite El in Hid.
  destruct Hid as [Hfree Hnew]; [by apply elem_of_singleton|].
  destruct (Nat.eqb_spec saw 0) as [E|E]; injection E0 as <-.
  - assert (collected s = false) as Hc by (by eapply (inv_saw s H)).
    split_invariant H; rewrite ?El in *; try done.
    + intros k Hk. apply inv_ids0. clear -Hk. set_solver.
    + intros k Hk. destruct (inv_entering0 k Hk) as [Hf Hn]. split; [clear -Hf; set_solver|done].
    + intros k Hk. destruct (inv_late0 k Hk) as [Hf Hn].
      split; [clear -Hf Hk Hfree; set_solver|done].
    + intros _ k [->%elem_of_singleton|Hk]%elem_of_union; [|by apply inv_fresh0].
      clear -Hnew. set_solver.
    + by rewrite Hc.
    + intros k [->%elem_of_singleton|Hk]%elem_of_union; [left; set_solver|].
      destruct (inv_registered0 k Hk); [left; set_solver|by right].
    + clear -inv_subset0. set_solver.
  - assert (reason s ≠ 0) as Hr by (by eapply (inv_saw_reason s H)).
    split_invariant H; rewrite ?El in *; try done.
    + intros k Hk. apply inv_ids0. clear -Hk. set_solver.
    + intros k Hk. destruct (inv_entering0 k Hk) as [Hf Hn]. split; [clear -Hf; set_solver|done].
    + intros k [->%elem_of_singleton|Hk]%elem_of_union; [|by apply inv_late0].
      split; [clear -Hfree; set_solver|done].
Qed.

Lemma late_invariant id s s' : call_late id s = Some s' → invariant s → invariant s'.
Proof.
  unfold call_late. case_decide as Hin; [|done]. intros [= <-] H.
  assert (reason s ≠ 0) as Hr by (apply (inv_late_reason s H); set_solver).
  destruct (inv_late s H id Hin) as [Hl1 Hl2].
  assert (∀ l, (called s ++ [id]) ++ l ≡ₚ id :: called s ++ l) as Hp.
  { intros l. rewrite <- app_assoc. simpl. by rewrite Permutation_middle. }
  split_invariant H; try done.
  - rewrite Hp. by constructor.
  - intros k. rewrite Hp, elem_of_cons. intros [->|?]; [apply inv_ids0; set_solver|auto].
  - intros k Hk. apply inv_ids0. clear -Hk Hin. set_solver.
  - intros k Hk. destruct (inv_entering0 k Hk) as [Hf Hn]. rewrite Hp, not_elem_of_cons.
    clear -Hf Hn Hin. set_solver.
  - intros k Hk. destruct (inv_locked0 k Hk) as [Hf Hn]. rewrite Hp, not_elem_of_cons.
    clear -Hf Hn Hin. set_solver.
  - intros k [Hk Hne]%elem_of_difference. destruct (inv_late0 k Hk) as [Hf Hn].
    rewrite Hp, not_elem_of_cons. clear -Hf Hn Hne. set_solver.
  - intros Hc k Hk. specialize (inv_fresh0 Hc k Hk). clear -Hl1 Hk inv_fresh0. set_solver.
  - intros Hc k Hk. specialize (inv_done0 Hc k Hk). rewrite Hp, elem_of_cons. by right.
  - intros k [->%elem_of_singleton|Hk]%elem_of_union; [right; apply elem_of_app; right; by left|].
    destruct (inv_registered0 k Hk); [by left|right]. apply elem_of_app. by left.
  - clear -inv_subset0. set_solver.
Qed.

Lemma drop_invariant id s s' : drop_registration id s = Some s' → invariant s → invariant s'.
Proof.
  unfold drop_registration. destruct (lock s) eqn:El; [|done]. case_decide as Hin; [|done].
  intros [= <-] H. split_invariant H; rewrite ?El in *; try done.
  - intros k Hk. apply inv_ids0. clear -Hk. set_solver.
  - intros k Hk. destruct (inv_entering0 k Hk) as [Hf Hn]. split; [clear -Hf; set_solver|done].
  - intros k Hk. destruct (inv_late0 k Hk) as [Hf Hn]. split; [clear -Hf; set_solver|done].
  - intros Hc k [Hk _]%elem_of_difference. by apply inv_fresh0.
  - intros Hc k [Hk _]%elem_of_difference. by apply inv_done0.
  - intros k [Hk Hne]%elem_of_difference. destruct (inv_registered0 k Hk); [left|by right].
    by apply elem_of_difference.
  - clear -inv_subset0. set_solver.
Qed.

Lemma step_invariant s s' : step s s' → invariant s → invariant s'.
Proof.
  destruct 1; eauto using exchange_invariant, collect_invariant, call_next_invariant,
    take_id_invariant, lock_invariant, act_invariant, late_invariant, drop_invariant.
Qed.

Lemma reachable_invariant s : reachable s → invariant s.
Proof. induction 1; [apply invariant_new|by eapply step_invariant]. Qed.

(** ** Properties *)

(** C16. In every interleaving of cancellations, registrations and drops, no
    callback is called twice, none is called unless a reason is set, and once
    the winning [cancel] has made its calls, every registration whose
    [on_cancel] returned and that is still alive has been called: no cancellation
    is lost between the exchange and the lock. *)
Theorem callbacks_exactly_once s :
  reachable s →
  NoDup (called s) ∧ (called s ≠ [] → reason s ≠ 0)
  ∧ (reason s ≠ 0 → canceller s = Calling [] → ∀ id, id ∈ registered s → id ∈ called s).
Proof.
  intros H%reachable_invariant. split_and!.
  - pose proof (inv_once s H) as Hn. by apply NoDup_app in Hn as (? & _).
  - intros Hc E. by apply Hc, inv_uncalled.
  - intros _ Hc id Hid. destruct (inv_registered s H id Hid) as [Hk|]; [|done].
    apply (inv_done s H) in Hk; [|by unfold collected; rewrite Hc].
    unfold to_call in Hk. by rewrite Hc, app_nil_r in Hk.
Qed.

(** A registration entering while another thread cancels: it read no reason
    under the lock, the exchange happens, it is stored, and it is called. *)
Lemma callbacks_exactly_once_witness :
  ∃ s, reachable s ∧ registered s = {[1]} ∧ called s = [1]
    ∧ NoDup (called s) ∧ (called s ≠ [] → reason s ≠ 0)
    ∧ (reason s ≠ 0 → canceller s = Calling [] → ∀ id, id ∈ registered s → id ∈ called s).
Proof.
  set (s := mkShared 1 2 {[1]} Free (Calling []) ∅ ∅ {[1]} [1]).
  assert (reachable s) as H.
  { eapply (reachable_step (mkShared 1 2 {[1]} Free (Calling [1]) ∅ ∅ {[1]} [])); [|by apply step_call].
    eapply (reachable_step (mkShared 1 2 {[1]} Free WonExchange ∅ ∅ {[1]} [])); [|by apply step_collect].
    eapply (reachable_step (mkShared 1 2 ∅ (Registering 1 0) WonExchange ∅ ∅ ∅ [])); [|by apply step_act].
    eapply (reachable_step (mkShared 0 2 ∅ (Registering 1 0) NoCanceller ∅ ∅ ∅ []));
      [|exact (step_cancel ClientCancelled _)].
    eapply (reachable_step (mkShared 0 2 ∅ Free NoCanceller {[1]} ∅ ∅ [])); [|by apply (step_lock 1)].
    eapply (reachable_step new); [apply reachable_new|exact (step_take_id new)]. }
  exists s. split; [exact H|]. split; [reflexivity|]. split; [reflexivity|].
  apply callbacks_exactly_once. exact H.
Defined.

Lemma step_reason s s' : step s s' → reason s ≠ 0 → reason s' = reason s.
Proof.
  destruct 1 as [r s|s s' H|s s' H|s|id s s' H|s s' H|id s s' H|id s s' H]; intros Hr.
  - unfold cancel_exchange. by destruct (Nat.eqb_spec (reason s) 0).
  - unfold collect_callbacks in H. destruct (canceller s), (lock s); by simplify_eq.
  - unfold call_next in H. destruct (canceller s) as [| |[|]]; by simplify_eq.
  - done.
  - unfold lock_and_read in H. destruct (lock s); [|done]. case_decide; by simplify_eq.
  - unfold act_and_unlock in H. destruct (lock s) as [|? saw]; [done|].
    destruct (Nat.eqb saw 0); by simplify_eq.
  - unfold call_late in H. case_decide; by simplify_eq.
  - unfold drop_registration in H. destruct (lock s); [|done]. case_decide; by simplify_eq.
Qed.

Lemma rtc_reason s s' : rtc step s s' → reason s ≠ 0 → reason s' = reason s.
Proof.
  induction 1 as [|s s1 s2 Hs _ IH]; [done|]. intros Hr.
  rewrite <- (step_reason _ _ Hs Hr). apply IH. by rewrite (step_reason _ _ Hs Hr).
Qed.

Lemma reason_u8_of b r : reason_of_u8 b = Some r → b = reason_u8 r.
Proof. do 7 (destruct b as [|b]; [by intros [= <-]|]). done. Qed.

(** The first reason wins: whatever other threads do, a control that
    reports a reason reports the same one ever after, at any later time, its
    deadline notwithstanding. *)
Theorem first_reason_wins deadline now s r s1 s2 now' :
  reason_at deadline now s = (Some r, s1) → rtc step s1 s2 → check deadline now' s2 = Some r.
Proof.
  unfold reason_at. intros [= Hr E1] Hs. rewrite E1 in Hr. clear E1. pose proof (reason_u8_of _ _ Hr) as Hb.
  assert (reason s1 ≠ 0) as Hnz by (rewrite Hb; apply reason_u8_nonzero).
  pose proof (rtc_reason _ _ Hs Hnz) as E. unfold check, reason_at. simpl.
  destruct deadline as [d|]; [destruct (d <=? now')|]; unfold cancel_exchange;
    rewrite E, ?(proj2 (Nat.eqb_neq _ _) Hnz); simpl; by rewrite ?E.
Qed.

Lemma first_reason_wins_witness : check (Some 5) 9 (cancel_exchange Shutdown (cancel_exchange DeadlineExceeded new)) = Some DeadlineExceeded.
Proof.
  apply (first_reason_wins (Some 5) 6 new DeadlineExceeded (cancel_exchange DeadlineExceeded new)).
  - reflexivity.
  - apply rtc_once, step_cancel.
Defined.

(** ** Completion *)

Lemma drain_calls s ids :
  canceller s = Calling ids → rtc step s
    (mkShared (reason s) (next_callback s) (callbacks s) (lock s) (Calling [])
       (entering s) (late s) (registered s) (called s ++ ids)).
Proof.
  revert s; induction ids as [|id ids IH]; intros s Hc.
  - rewrite app_nil_r, <- Hc. by destruct s.
  - eapply rtc_l; [apply step_call; unfold call_next; by rewrite Hc|].
    set (s1 := mkShared _ _ _ _ _ _ _ _ (called s ++ [id])).
    specialize (IH s1 eq_refl). simpl in IH. by rewrite <- app_assoc in IH.
Qed.

Lemma unlock_step s : ∃ s', rtc step s s' ∧ lock s' = Free ∧ registered s ⊆ registered s'
  ∧ canceller s' = canceller s ∧ reason s' = reason s.
Proof.
  destruct (lock s) as [|id saw] eqn:El; [by exists s|].
  destruct (act_and_unlock s) as [s'|] eqn:Ea; [|by unfold act_and_unlock in Ea; rewrite El in Ea].
  exists s'. split; [apply rtc_once; by apply step_act|]. unfold act_and_unlock in Ea. rewrite El in Ea.
  destruct (Nat.eqb saw 0); injection Ea as <-; simpl; split_and!; try done; set_solver.
Qed.

Lemma rtc_reachable s s' : reachable s → rtc step s s' → reachable s'.
Proof. intros H; induction 1; [done|]. eauto using reachable_step. Qed.

(** Cancellation completes: from any state of the interleaving in which a
    reason is set, the threads that are inside the control can run to a point
    where every live registration has been called. *)
Theorem cancellation_completes s :
  reachable s → reason s ≠ 0 →
  ∃ s', rtc step s s' ∧ canceller s' = Calling [] ∧ registered s ⊆ registered s'
    ∧ ∀ id, id ∈ registered s → id ∈ called s'.
Proof.
  intros Hs Hr. destruct (unlock_step s) as (s1 & R1 & Hl & Hreg & Hc & Hr1).
  assert (∃ s2 ids, rtc step s1 s2 ∧ canceller s2 = Calling ids ∧ registered s2 = registered s1) as
    (s2 & ids & R2 & Hc2 & Hreg2).
  { destruct (canceller s1) as [| |ids] eqn:E1.
    - exfalso. apply Hr. apply (inv_reason s); [by apply reachable_invariant|congruence].
    - destruct (collect_callbacks s1) as [s2|] eqn:E2;
        [|unfold collect_callbacks in E2; by rewrite E1, Hl in E2].
      exists s2, (merge_sort Nat.le (elements (callbacks s1))).
      split; [by apply rtc_once, step_collect|].
      unfold collect_callbacks in E2. rewrite E1, Hl in E2. by injection E2 as <-.
    - by exists s1, ids. }
  pose proof (drain_calls s2 ids Hc2) as R3. eexists. split_and!.
  - etrans; [exact R1|]. etrans; [exact R2|exact R3].
  - done.
  - simpl. by rewrite Hreg2.
  - intros id Hid. set (s3 := mkShared _ _ _ _ _ _ _ _ _) in *.
    assert (reachable s3) as H3.
    { eapply rtc_reachable; [|exact R3]. eapply rtc_reachable; [|exact R2]. by eapply rtc_reachable. }
    pose proof (reachable_invariant _ H3) as Hi.
    assert (id ∈ registered s3) as Hid3 by (simpl; rewrite Hreg2; set_solver).
    destruct (inv_registered s3 Hi id Hid3) as [Hk|]; [|done].
    apply (inv_done s3 Hi) in Hk; [|done]. by rewrite app_nil_r in Hk.
Qed.

Lemma cancellation_completes_witness :
  let s := cancel_exchange Shutdown new in
  ∃ s', rtc step s s' ∧ canceller s' = Calling [] ∧ registered s ⊆ registered s'
    ∧ ∀ id, id ∈ registered s → id ∈ called s'.
Proof.
  intros s. apply (cancellation_completes s).
  - eapply reachable_step; [apply reachable_new|apply step_cancel].
  - done.
Defined.

(** A registration no longer in the object that was not collected. *)
Definition gone (id : nat) (s : Shared) : Prop :=
  id < next_callback s ∧ (id ∉ entering s ∪ late s ∪ callbacks s ∪ locked_id s)
  ∧ id ∉ called s ++ to_call s.

Lemma gone_step id s s' : step s s' → gone id s → gone id s'.
Proof.
  unfold gone, locked_id, to_call.
  destruct 1 as [r s|s s' H|s s' H|s|k s s' H|s s' H|k s s' H|k s s' H]; intros (Hn & Hg & Hc).
  - unfold cancel_exchange. destruct (Nat.eqb _ _); [simpl|done].
    split_and!; [done|done|]. apply not_elem_of_app in Hc as [Hc _]. by rewrite app_nil_r.
  - unfold collect_callbacks in H. destruct (canceller s), (lock s); simplify_eq/=.
    split_and!; [done|done|]. rewrite not_elem_of_app, merge_sort_Permutation, elem_of_elements.
    split; [set_solver|]. clear -Hg. set_solver.
  - unfold call_next in H. destruct (canceller s) as [| |[|i rest]]; simplify_eq/=.
    split_and!; [done|done|]. by rewrite <- app_assoc.
  - simpl. split_and!; [lia| |done]. clear -Hn Hg. assert (id ≠ next_callback s) by lia. set_solver.
  - unfold lock_and_read in H. destruct (lock s); [|done]. case_decide; [|done].
    simplify_eq/=. split_and!; [done| |done]. clear -Hg H0. set_solver.
  - unfold act_and_unlock in H. destruct (lock s) as [|i saw]; [done|].
    destruct (Nat.eqb saw 0); simplify_eq/=; (split_and!; [done| |done]); clear -Hg; set_solver.
  - unfold call_late in H. case_decide; [|done]. simplify_eq/=.
    split_and!; [done|clear -Hg; set_solver|]. clear -Hg Hc H0. set_solver.
  - unfold drop_registration in H. destruct (lock s); [|done]. case_decide; [|done].
    simplify_eq/=. split_and!; [done|clear -Hg; set_solver|done].
Qed.

(** Dropping a registration before the callbacks are collected revokes it:
    its callback is not called by any later step of any thread. *)
Theorem dropped_never_called id s s' s'' :
  reachable s → drop_registration id s = Some s' → id ∉ called s ++ to_call s →
  rtc step s' s'' → id ∉ called s''.
Proof.
  intros Hi%reachable_invariant Hd Hc Hr.
  assert (gone id s') as Hg.
  { unfold drop_registration in Hd. destruct (lock s) eqn:El; [|done].
    case_decide as Hin; [|done]. injection Hd as <-. unfold gone, to_call, locked_id in *. simpl.
    split_and!; [apply (inv_ids s Hi); set_solver| |done].
    pose proof (inv_entering s Hi id) as He. pose proof (inv_late s Hi id) as Hl.
    clear -He Hl Hin. set_solver. }
  clear Hd. induction Hr as [|s1 s2 s3 Hs _ IH]; [|by apply IH, (gone_step id s1)].
  destruct Hg as (_ & _ & Hn). by apply not_elem_of_app in Hn as [].
Qed.

Lemma dropped_never_called_witness :
  1 ∉ called (cancel_exchange Shutdown (mkShared 0 2 ∅ Free NoCanceller ∅ ∅ ∅ [])).
Proof.
  apply (dropped_never_called 1 (mkShared 0 2 {[1]} Free NoCanceller ∅ ∅ {[1]} [])
           (mkShared 0 2 ∅ Free NoCanceller ∅ ∅ ∅ [])).
  - eapply (reachable_step (mkShared 0 2 ∅ (Registering 1 0) NoCanceller ∅ ∅ ∅ [])); [|by apply step_act].
    eapply (reachable_step (mkShared 0 2 ∅ Free NoCanceller {[1]} ∅ ∅ [])); [|by apply (step_lock 1)].
    eapply (reachable_step new); [apply reachable_new|exact (step_take_id new)].
  - reflexivity.
  - apply not_elem_of_nil.
  - apply rtc_once, step_cancel.
Defined.

(** ** Scopes *)

(** Scopes entered and dropped in stack order leave the thread's slot as it was. *)
Inductive scoped {C} : option C → option C → Prop :=
| scoped_nil slot : scoped slot slot
| scoped_enter c slot slot1 slot2 :
    scoped (enter c slot).1 slot1 → scoped (drop_scope (enter c slot).2 slot1) slot2 →
    scoped slot slot2.

Lemma scoped_restores {C} (slot slot' : option C) : scoped slot slot' → slot' = slot.
Proof. induction 1; [done|]. by simpl in *. Qed.
