(* ===== verification/WorkQueue.v ===== *)
(** * WorkQueue: admission of daemon work

    Models [src/crates/cli/src/mcp/work.rs].  A critical section of the
    coordinator's mutex is one function on [State]; [World] adds what lives
    outside the mutex (the controls, the phase cells shared between a waiting
    call and its cancel callback, the leases callers hold), and [step] is one
    event of one thread.  The atomic loads of [eligible] are taken with the
    exchange that follows them: a cell or a weak reference only ever moves away
    from what [eligible] looks for, so a load seen earlier gives no other
    admission.  Indexing, [expect] and [-= 1] are in the [outcome] monad. *)
From stdpp Require Import gmap fin_maps.
From S2P Require Import Prelude WorkControl.
From Stdlib Require Import Lia NArith.

Inductive WorkClass := Interactive | Analysis | Native.

#[export] Instance work_class_eq_decision : EqDecision WorkClass.
Proof. solve_decision. Defined.

(** [[T; 3]] indexed by [WorkClass::index]. *)
Record Vec3 (A : Type) := mkVec3 { v0 : A; v1 : A; v2 : A }.
Arguments mkVec3 {A}.
Arguments v0 {A}.
Arguments v1 {A}.
Arguments v2 {A}.

#[export] Instance vec3_eq_decision {A} `{EqDecision A} : EqDecision (Vec3 A).
Proof. solve_decision. Defined.

Definition at_class {A} (v : Vec3 A) (k : WorkClass) : A :=
  match k with Interactive => v0 v | Analysis => v1 v | Native => v2 v end.

Definition set_class {A} (k : WorkClass) (x : A) (v : Vec3 A) : Vec3 A :=
  match k with
  | Interactive => mkVec3 x (v1 v) (v2 v)
  | Analysis => mkVec3 (v0 v) x (v2 v)
  | Native => mkVec3 (v0 v) (v1 v) x
  end.

Definition all3 {A} (x : A) : Vec3 A := mkVec3 x x x.

(** ** Limits *)

Record LaneLimits := mkLane {
  l_running : nat; l_running_per_project : nat; l_queued : nat; l_queued_per_project : nat
}.

Record WorkLimits := mkLimits {
  l_requests : nat; l_requests_per_project : nat;
  l_interactive : LaneLimits; l_analysis : LaneLimits; l_native : LaneLimits
}.

Definition limits_default : WorkLimits :=
  mkLimits 64 32 (mkLane 2 1 64 64) (mkLane 2 1 32 32) (mkLane 1 1 16 16).

Definition lane (l : WorkLimits) (k : WorkClass) : LaneLimits :=
  match k with Interactive => l_interactive l | Analysis => l_analysis l | Native => l_native l end.

Inductive AdmissionError :=
| Saturated | ShutDown | Stopped (r : StopReason) | InvalidLimits | ProjectAlreadyAttached.

Definition lane_invalid (l : LaneLimits) : bool :=
  Nat.eqb (l_running l) 0 || Nat.eqb (l_running_per_project l) 0
  || (l_running l <? l_running_per_project l)
  || Nat.eqb (l_queued l) 0 || Nat.eqb (l_queued_per_project l) 0
  || (l_queued l <? l_queued_per_project l).

Definition validate (l : WorkLimits) : option AdmissionError :=
  if Nat.eqb (l_requests l) 0 || Nat.eqb (l_requests_per_project l) 0
     || (l_requests l <? l_requests_per_project l)
     || existsb lane_invalid [l_interactive l; l_analysis l; l_native l]
  then Some InvalidLimits else None.

(** ** State *)

Abbreviation Path := bytes.
Abbreviation Ctl := N.   (* identity of a [WorkControl] *)
Abbreviation Cell := N.  (* address of an [AtomicU8] *)

Inductive Phase := PENDING | ADMITTED | STOPPED.

#[export] Instance phase_eq_decision : EqDecision Phase.
Proof. solve_decision. Defined.

Record ProjectCounts := mkCounts {
  pc_requests : nat; pc_queued : Vec3 nat; pc_running : Vec3 nat
}.

Definition no_counts : ProjectCounts := mkCounts 0 (all3 0) (all3 0).

#[export] Instance project_counts_eq_decision : EqDecision ProjectCounts.
Proof. solve_decision. Defined.

Record Pending := mkPending {
  pd_id : N; pd_project : Path; pd_class : WorkClass; pd_control : Ctl; pd_phase : Cell
}.

Record Running := mkRunning { rn_project : Path; rn_class : WorkClass; rn_control : Ctl }.

Record State := mkState {
  closed : bool;
  next_id : N;
  requests : gmap N Ctl;
  projects : gmap Path ProjectCounts;
  queued : list Pending;
  running : gmap N Running;
  last_project : Vec3 (option Path);
}.

Definition state_default : State := mkState false 0 ∅ ∅ [] ∅ (all3 None).

Definition set_projects f s := mkState (closed s) (next_id s) (requests s) (f (projects s)) (queued s) (running s) (last_project s).

Definition u64_bound : N := 18446744073709551616.

(** [next_id.checked_add(1)]. *)
Definition fresh_id (s : State) : option N :=
  if (next_id s + 1 <? u64_bound)%N then Some (next_id s + 1)%N else None.

(** [projects.entry(p).or_default()] updated by [f]. *)
Definition or_default (p : Path) (f : ProjectCounts → ProjectCounts) (m : gmap Path ProjectCounts)
    : gmap Path ProjectCounts :=
  <[p := f (default no_counts (m !! p))]> m.

Definition add_queued (k : WorkClass) (c : ProjectCounts) : ProjectCounts :=
  mkCounts (pc_requests c) (set_class k (at_class (pc_queued c) k + 1) (pc_queued c)) (pc_running c).

Definition add_running (k : WorkClass) (c : ProjectCounts) : ProjectCounts :=
  mkCounts (pc_requests c) (pc_queued c) (set_class k (at_class (pc_running c) k + 1) (pc_running c)).

Definition add_request (c : ProjectCounts) : ProjectCounts :=
  mkCounts (pc_requests c + 1) (pc_queued c) (pc_running c).

Definition sub_queued (k : WorkClass) (c : ProjectCounts) : outcome ProjectCounts :=
  n ← usize_sub (at_class (pc_queued c) k) 1;
  Done (mkCounts (pc_requests c) (set_class k n (pc_queued c)) (pc_running c)).

Definition sub_running (k : WorkClass) (c : ProjectCounts) : outcome ProjectCounts :=
  n ← usize_sub (at_class (pc_running c) k) 1;
  Done (mkCounts (pc_requests c) (pc_queued c) (set_class k n (pc_running c))).

Definition sub_request (c : ProjectCounts) : outcome ProjectCounts :=
  n ← usize_sub (pc_requests c) 1;
  Done (mkCounts n (pc_queued c) (pc_running c)).

(** [if let Some(counts) = projects.get_mut(p) { f(counts) }]. *)
Definition get_mut (p : Path) (f : ProjectCounts → outcome ProjectCounts)
    (m : gmap Path ProjectCounts) : outcome (gmap Path ProjectCounts) :=
  match m !! p with
  | Some c => c ← f c; Done (<[p := c]> m)
  | None => Done m
  end.

Definition prune_project (p : Path) (m : gmap Path ProjectCounts) : gmap Path ProjectCounts :=
  if decide (m !! p = Some no_counts) then delete p m else m.

(** ** Requests *)

(** [try_request] after its [check_control]. *)
Definition try_request (lim : WorkLimits) (control : Ctl) (s : State) : (AdmissionError + N) * State :=
  if closed s then (inl ShutDown, s)
  else if Nat.eqb (size (requests s)) (l_requests lim) then (inl Saturated, s)
  else match fresh_id s with
       | None => (inl Saturated, s)
       | Some id =>
           (inr id, mkState (closed s) id (<[id := control]> (requests s)) (projects s) (queued s)
                      (running s) (last_project s))
       end.

(** [RequestLease::attach_project]; the lease is its [project] field. *)
Definition attach_project (lim : WorkLimits) (lease : option Path) (project : Path) (s : State)
    : option AdmissionError * (option Path * State) :=
  match lease with
  | Some attached =>
      (if decide (attached = project) then None else Some ProjectAlreadyAttached, (lease, s))
  | None =>
      if closed s then (Some ShutDown, (lease, s))
      else if match projects s !! project with
              | Some c => l_requests_per_project lim <=? pc_requests c
              | None => false
              end then (Some Saturated, (lease, s))
      else (None, (Some project, set_projects (or_default project add_request) s))
  end.

(** [Drop for RequestLease]. *)
Definition drop_request (id : N) (lease : option Path) (s : State) : outcome State :=
  let s := mkState (closed s) (next_id s) (delete id (requests s)) (projects s) (queued s)
             (running s) (last_project s) in
  match lease with
  | None => Done s
  | Some p => m ← get_mut p sub_request (projects s); Done (set_projects (λ _, prune_project p m) s)
  end.

(** ** Executions *)

Definition class_count (k : WorkClass) (q : list Pending) : nat :=
  length (filter (λ e, pd_class e = k) q).

(** The section of [acquire_execution] that queues the call. *)
Definition enqueue (lim : WorkLimits) (project : Path) (k : WorkClass) (control : Ctl) (phase : Cell)
    (s : State) : (AdmissionError + N) * State :=
  if closed s then (inl ShutDown, s)
  else
    let l := lane lim k in
    let project_queued := match projects s !! project with
                          | Some c => at_class (pc_queued c) k | None => 0 end in
    if (l_queued l <=? class_count k (queued s)) || (l_queued_per_project l <=? project_queued)
    then (inl Saturated, s)
    else match fresh_id s with
         | None => (inl Saturated, s)
         | Some id =>
             (inr id, mkState (closed s) id (requests s) (or_default project (add_queued k) (projects s))
                        (queued s ++ [mkPending id project k control phase]) (running s) (last_project s))
         end.

Definition running_count (k : WorkClass) (m : gmap N Running) : nat :=
  size (filter (λ kv, rn_class kv.2 = k) m).

Section eligible.
(** The loads of the phase cells and the weak references. *)
Context (cells : gmap Cell Phase) (alive : Ctl → bool).

Definition entry_eligible (s : State) (k : WorkClass) (l : LaneLimits) (e : Pending) : bool :=
  bool_decide (pd_class e = k)
  && match projects s !! pd_project e with
     | Some c => at_class (pc_running c) k <? l_running_per_project l
     | None => false
     end
  && bool_decide (cells !! pd_phase e = Some PENDING)
  && alive (pd_control e).

Definition eligible (s : State) (k : WorkClass) (l : LaneLimits) : option N :=
  if l_running l <=? running_count k (running s) then None
  else
    let ok := List.filter (entry_eligible s k l) (queued s) in
    match List.find (λ e, negb (bool_decide (at_class (last_project s) k = Some (pd_project e)))) ok with
    | Some e => Some (pd_id e)
    | None => pd_id <$> List.find (entry_eligible s k l) (queued s)
    end.

(** [queued.iter().position(|e| e.id == id)]. *)
Definition position (id : N) (q : list Pending) : option nat :=
  fst <$> list_find (λ e, pd_id e = id) q.

(** [queued.remove(i)]. *)
Definition remove_at (i : nat) (q : list Pending) : outcome (Pending * list Pending) :=
  e ← of_option (q !! i); Done (e, delete i q).

(** The bookkeeping of an admission, [id] being eligible. *)
Definition grant (k : WorkClass) (id : N) (s : State) : outcome State :=
  i ← of_option (position id (queued s));
  '(e, q) ← remove_at i (queued s);
  c ← of_option (projects s !! pd_project e);
  c ← sub_queued k c;
  Done (mkState (closed s) (next_id s) (requests s)
          (<[pd_project e := add_running k c]> (projects s)) q
          (<[pd_id e := mkRunning (pd_project e) k (pd_control e)]> (running s))
          (set_class k (Some (pd_project e)) (last_project s))).

Inductive Poll :=
| PollErr (e : AdmissionError)
| PollWait                (* no admission now: the call waits for a change *)
| PollAdmitted (s : State).

(** One round of the loop of [acquire_execution] under the lock; the exchange
    of the call's own cell is the first thing an eligible call does. *)
Definition poll (lim : WorkLimits) (k : WorkClass) (id : N) (phase : Cell) (s : State) : outcome Poll :=
  if closed s then Done (PollErr ShutDown)
  else if decide (eligible s k (lane lim k) = Some id) then
    if decide (cells !! phase = Some PENDING) then s ← grant k id s; Done (PollAdmitted s)
    else Done PollWait
  else Done PollWait.
End eligible.

(** [Drop for PendingLease]. *)
Definition drop_pending (id : N) (s : State) : outcome State :=
  match position id (queued s) with
  | None => Done s
  | Some i =>
      '(e, q) ← remove_at i (queued s);
      m ← get_mut (pd_project e) (sub_queued (pd_class e)) (projects s);
      Done (mkState (closed s) (next_id s) (requests s) (prune_project (pd_project e) m) q
              (running s) (last_project s))
  end.

(** [Drop for ExecutionLease]. *)
Definition drop_execution (id : N) (s : State) : outcome State :=
  match running s !! id with
  | None => Done s
  | Some r =>
      m ← get_mut (rn_project r) (sub_running (rn_class r)) (projects s);
      Done (mkState (closed s) (next_id s) (requests s) (prune_project (rn_project r) m) (queued s)
              (delete id (running s)) (last_project s))
  end.

(** The section of [shutdown], and the controls it collects. *)
Definition shutdown (alive : Ctl → bool) (s : State) : list Ctl * State :=
  (List.filter alive ((map_to_list (requests s)).*2 ++ map pd_control (queued s)
                      ++ map (λ kv, rn_control kv.2) (map_to_list (running s))),
   mkState true (next_id s) (requests s) (projects s) (queued s) (running s) (last_project s)).

Record WorkSnapshot := mkSnapshot {
  sn_closed : bool; sn_requests : nat; sn_projects : nat; sn_queued : Vec3 nat; sn_running : Vec3 nat
}.

Definition snapshot (s : State) : WorkSnapshot :=
  let per {A} (f : WorkClass → A) := mkVec3 (f Interactive) (f Analysis) (f Native) in
  mkSnapshot (closed s) (size (requests s)) (size (projects s))
    (per (λ k, class_count k (queued s))) (per (λ k, running_count k (running s))).

(** ** The world outside the mutex *)

Inductive Stage := Entered | Waiting (id : N) | Granted (id : N).

#[export] Instance stage_eq_decision : EqDecision Stage.
Proof. solve_decision. Defined.

(** A call of [acquire_execution] on the stack, keyed by its phase cell. *)
Record Acquire := mkAcquire { aq_project : Path; aq_class : WorkClass; aq_control : Ctl; aq_stage : Stage }.

Definition set_stage (g : Stage) (a : Acquire) : Acquire :=
  mkAcquire (aq_project a) (aq_class a) (aq_control a) g.

Record World := mkWorld {
  st : State;
  ctls : gmap Ctl (option StopReason);  (* live controls and what stopped them *)
  cells : gmap Cell Phase;
  leases : gmap N (option Path);        (* request leases callers hold *)
  acquires : gmap Cell Acquire;
  execs : gset N;                       (* execution leases callers hold *)
  stopping : list Ctl;                  (* collected by [shutdown], not cancelled yet *)
}.

Definition world_new : World := mkWorld state_default ∅ ∅ ∅ ∅ ∅ [].

Definition set_st s w := mkWorld s (ctls w) (cells w) (leases w) (acquires w) (execs w) (stopping w).

Definition alive (w : World) (c : Ctl) : bool := bool_decide (is_Some (ctls w !! c)).

(** [WorkControl::check]: a deadline that passes is an [EStop] event. *)
Definition check_control (w : World) (c : Ctl) : bool := bool_decide (ctls w !! c = Some None).

(** [WorkControl::cancel]: the first reason stays. *)
Definition cancel (r : StopReason) (c : Ctl) (w : World) : World :=
  match ctls w !! c with
  | Some None => mkWorld (st w) (<[c := Some r]> (ctls w)) (cells w) (leases w) (acquires w) (execs w) (stopping w)
  | _ => w
  end.

(** The callback [acquire_execution] registers. *)
Definition callback (a : Cell) (w : World) : World :=
  if decide (cells w !! a = Some PENDING)
  then mkWorld (st w) (ctls w) (<[a := STOPPED]> (cells w)) (leases w) (acquires w) (execs w) (stopping w)
  else w.

Inductive Event :=
| ENewControl (c : Ctl)
| EStop (c : Ctl) (r : StopReason)
| EDropControl (c : Ctl)
| ERequest (c : Ctl)
| EAttach (id : N) (p : Path)
| EDropRequest (id : N)
| EAcquire (a : Cell) (p : Path) (k : WorkClass) (c : Ctl)
| ECallback (a : Cell)
| EEnqueue (a : Cell)
| EPoll (a : Cell)
| ELeave (a : Cell)
| EDropExecution (id : N)
| EShutdown
| EShutdownCancel.

Section world.
Context (lim : WorkLimits).

Definition step_request (c : Ctl) (w : World) : World :=
  if check_control w c then
    match try_request lim c (st w) with
    | (inl _, s) => set_st s w
    | (inr id, s) => mkWorld s (ctls w) (cells w) (<[id := None]> (leases w)) (acquires w) (execs w) (stopping w)
    end
  else w.

Definition step_attach (id : N) (lease : option Path) (p : Path) (w : World) : World :=
  let '(_, (lease, s)) := attach_project lim lease p (st w) in
  mkWorld s (ctls w) (cells w) (<[id := lease]> (leases w)) (acquires w) (execs w) (stopping w).

Definition step_drop_request (id : N) (lease : option Path) (w : World) : outcome World :=
  s ← drop_request id lease (st w);
  Done (mkWorld s (ctls w) (cells w) (delete id (leases w)) (acquires w) (execs w) (stopping w)).

Definition step_acquire (a : Cell) (p : Path) (k : WorkClass) (c : Ctl) (w : World) : World :=
  if check_control w c then
    mkWorld (st w) (ctls w) (<[a := PENDING]> (cells w)) (leases w)
      (<[a := mkAcquire p k c Entered]> (acquires w)) (execs w) (stopping w)
  else w.

Definition step_enqueue (a : Cell) (q : Acquire) (w : World) : World :=
  match enqueue lim (aq_project q) (aq_class q) (aq_control q) a (st w) with
  | (inl _, s) => mkWorld s (ctls w) (cells w) (leases w) (delete a (acquires w)) (execs w) (stopping w)
  | (inr id, s) => mkWorld s (ctls w) (cells w) (leases w) (<[a := set_stage (Waiting id) q]> (acquires w))
                     (execs w) (stopping w)
  end.

Definition step_poll (a : Cell) (q : Acquire) (id : N) (w : World) : outcome World :=
  if check_control w (aq_control q) then
    r ← poll (cells w) (alive w) lim (aq_class q) id a (st w);
    match r with
    | PollErr _ | PollWait => Done w
    | PollAdmitted s =>
        Done (mkWorld s (ctls w) (<[a := ADMITTED]> (cells w)) (leases w)
                (<[a := set_stage (Granted id) q]> (acquires w)) ({[id]} ∪ execs w) (stopping w))
    end
  else Done w.

(** The call returns or its future is dropped; [PendingLease] is dropped. *)
Definition step_leave (a : Cell) (q : Acquire) (w : World) : outcome World :=
  s ← match aq_stage q with
      | Entered => Done (st w)
      | Waiting id | Granted id => drop_pending id (st w)
      end;
  Done (mkWorld s (ctls w) (cells w) (leases w) (delete a (acquires w)) (execs w) (stopping w)).

Definition step_drop_execution (id : N) (w : World) : outcome World :=
  s ← drop_execution id (st w);
  Done (mkWorld s (ctls w) (cells w) (leases w) (acquires w) (execs w ∖ {[id]}) (stopping w)).

Definition step_shutdown (w : World) : World :=
  let '(cs, s) := shutdown (alive w) (st w) in
  mkWorld s (ctls w) (cells w) (leases w) (acquires w) (execs w) (stopping w ++ cs).

(** Some call on the stack borrows control [c]. *)
Definition borrowed (c : Ctl) (w : World) : Prop :=
  map_Exists (λ _ q, aq_control q = c) (acquires w).

(** [None]: the event cannot happen in this world. *)
Definition step (ev : Event) (w : World) : option (outcome World) :=
  match ev with
  | ENewControl c =>
      if decide (ctls w !! c = None) then
        Some (Done (mkWorld (st w) (<[c := None]> (ctls w)) (cells w) (leases w) (acquires w) (execs w) (stopping w)))
      else None
  | EStop c r => if alive w c then Some (Done (cancel r c w)) else None
  | EDropControl c =>
      if decide (borrowed c w ∨ c ∈ stopping w) then None
      else Some (Done (mkWorld (st w) (delete c (ctls w)) (cells w) (leases w) (acquires w) (execs w) (stopping w)))
  | ERequest c => if alive w c then Some (Done (step_request c w)) else None
  | EAttach id p => lease ← leases w !! id; Some (Done (step_attach id lease p w))
  | EDropRequest id => lease ← leases w !! id; Some (step_drop_request id lease w)
  | EAcquire a p k c =>
      if alive w c && bool_decide (cells w !! a = None) then Some (Done (step_acquire a p k c w)) else None
  | ECallback a =>
      q ← acquires w !! a;
      if check_control w (aq_control q) then None else Some (Done (callback a w))
  | EEnqueue a =>
      q ← acquires w !! a;
      if decide (aq_stage q = Entered) then Some (Done (step_enqueue a q w)) else None
  | EPoll a =>
      q ← acquires w !! a;
      match aq_stage q with Waiting id => Some (step_poll a q id w) | _ => None end
  | ELeave a => q ← acquires w !! a; Some (step_leave a q w)
  | EDropExecution id => if decide (id ∈ execs w) then Some (step_drop_execution id w) else None
  | EShutdown => Some (Done (step_shutdown w))
  | EShutdownCancel =>
      match stopping w with
      | [] => None
      | c :: cs => Some (Done (cancel Shutdown c
                     (mkWorld (st w) (ctls w) (cells w) (leases w) (acquires w) (execs w) cs)))
      end
  end.

Inductive reachable : World → Prop :=
| reachable_new : reachable world_new
| reachable_step ev w w' : reachable w → step ev w = Some (Done w') → reachable w'.
End world.

(** ** Arithmetic of the counts *)

Lemma at_set_class {A} k j (x : A) v :
  at_class (set_class k x v) j = if decide (j = k) then x else at_class v j.
Proof. by destruct k, j. Qed.

Lemma at_all3 {A} (x : A) k : at_class (all3 x) k = x.
Proof. by destruct k. Qed.

Definition counts_of (m : gmap Path ProjectCounts) (p : Path) : ProjectCounts := default no_counts (m !! p).

Lemma counts_of_insert m p q c : counts_of (<[p := c]> m) q = if decide (q = p) then c else counts_of m q.
Proof.
  unfold counts_of. destruct (decide (q = p)) as [->|]; [by rewrite lookup_insert_eq|].
  by rewrite lookup_insert_ne.
Qed.

Lemma counts_of_prune p q m : counts_of (prune_project p m) q = counts_of m q.
Proof.
  unfold prune_project, counts_of. case_decide as H; [|done].
  destruct (decide (q = p)) as [->|]; [by rewrite lookup_delete_eq, H|by rewrite lookup_delete_ne].
Qed.

(** No record of a project that has nothing. *)
Definition pruned (m : gmap Path ProjectCounts) : Prop := map_Forall (λ _ c, c ≠ no_counts) m.

Lemma pruned_insert p c m : c ≠ no_counts → pruned m → pruned (<[p := c]> m).
Proof. intros. by apply map_Forall_insert_2. Qed.

Lemma pruned_prune p c m : pruned m → pruned (prune_project p (<[p := c]> m)).
Proof.
  intros H. unfold prune_project. rewrite lookup_insert_eq. case_decide as Hc.
  - rewrite delete_insert_eq. by apply map_Forall_delete.
  - apply map_Forall_insert_2; [congruence|done].
Qed.

Definition queued_of (p : Path) (k : WorkClass) (q : list Pending) : nat :=
  length (filter (λ e, pd_project e = p ∧ pd_class e = k) q).

Definition running_of (p : Path) (k : WorkClass) (m : gmap N Running) : nat :=
  size (filter (λ kv, rn_project kv.2 = p ∧ rn_class kv.2 = k) m).

Definition attached_to (p : Path) (ls : gmap N (option Path)) : nat :=
  size (filter (λ kv, kv.2 = Some p) ls).

Definition one (P : Prop) `{Decision P} : nat := if decide P then 1 else 0.

Section count.
Context {A : Type} (P : N * A → Prop) `{!∀ x, Decision (P x)}.

Lemma count_insert (m : gmap N A) i x :
  m !! i = None → size (filter P (<[i := x]> m)) = size (filter P m) + one (P (i, x)).
Proof.
  intros Hi. unfold one. case_decide as Hp.
  - rewrite map_filter_insert_True by done. rewrite map_size_insert_None; [lia|].
    apply map_lookup_filter_None. by left.
  - rewrite map_filter_insert_not' by (done || (intros ? E; congruence)). lia.
Qed.

Lemma count_delete (m : gmap N A) i x :
  m !! i = Some x → size (filter P m) = size (filter P (delete i m)) + one (P (i, x)).
Proof.
  intros Hi. rewrite <- (insert_delete_id m i x Hi) at 1.
  apply count_insert, lookup_delete_eq.
Qed.
End count.

Lemma filter_delete_at {A} (P : A → Prop) `{!∀ x, Decision (P x)} (l : list A) i x :
  l !! i = Some x → length (filter P l) = length (filter P (delete i l)) + one (P x).
Proof.
  intros Hi. rewrite <- (take_drop_middle l i x Hi) at 1. rewrite delete_take_drop, !filter_app, filter_cons, !length_app.
  unfold one. case_decide; simpl; lia.
Qed.

Lemma filter_snoc {A} (P : A → Prop) `{!∀ x, Decision (P x)} (l : list A) x :
  length (filter P (l ++ [x])) = length (filter P l) + one (P x).
Proof. rewrite filter_app, filter_cons, filter_nil, length_app. unfold one. case_decide; simpl; lia. Qed.

Section count_update.
Context {A : Type} (P : N * A → Prop) `{!∀ x, Decision (P x)}.
Lemma count_update (m : gmap N A) i x y :
  m !! i = Some x →
  size (filter P (<[i := y]> m)) + one (P (i, x)) = size (filter P m) + one (P (i, y)).
Proof.
  intros Hi. rewrite (count_delete P m i x Hi), <- (insert_delete_eq m i y).
  rewrite count_insert by apply lookup_delete_eq. lia.
Qed.
End count_update.

(** ** Bookkeeping of the project records

    [booked A s]: the record of every project holds exactly its queued and
    running entries and the [A] attached requests, and no record is all zero. *)
Record booked (A : Path → nat) (s : State) : Prop := {
  bk_requests : ∀ p, pc_requests (counts_of (projects s) p) = A p;
  bk_queued : ∀ p k, at_class (pc_queued (counts_of (projects s) p)) k = queued_of p k (queued s);
  bk_running : ∀ p k, at_class (pc_running (counts_of (projects s) p)) k = running_of p k (running s);
  bk_pruned : pruned (projects s);
}.

Lemma booked_ext A B s : (∀ p, A p = B p) → booked A s → booked B s.
Proof. intros E []. split; try done. intros p. by rewrite <- E. Qed.

Lemma booked_state A s s' :
  projects s' = projects s → queued s' = queued s → running s' = running s →
  booked A s → booked A s'.
Proof. intros E1 E2 E3 []. by split; rewrite ?E1, ?E2, ?E3. Qed.

Lemma add_request_nonzero c : add_request c ≠ no_counts.
Proof. unfold add_request, no_counts. intros [= ? _ _]. lia. Qed.

Lemma add_queued_nonzero k c : add_queued k c ≠ no_counts.
Proof.
  unfold add_queued, no_counts. intros [= _ E _]. pose proof (at_set_class k k (at_class (pc_queued c) k + 1) (pc_queued c)) as H.
  rewrite E, at_all3, decide_True in H by done. lia.
Qed.

Lemma add_running_nonzero k c : add_running k c ≠ no_counts.
Proof.
  unfold add_running, no_counts. intros [= _ _ E].
  pose proof (at_set_class k k (at_class (pc_running c) k + 1) (pc_running c)) as H.
  rewrite E, at_all3, decide_True in H by done. lia.
Qed.

#[local] Ltac one_cases := unfold one; repeat case_decide; destruct_and?; subst; simplify_eq; try tauto; try lia; try congruence.

Lemma booked_add_request A p s :
  booked A s → booked (λ q, A q + one (q = p)) (set_projects (or_default p add_request) s).
Proof.
  intros H; pose proof H as []. unfold or_default. split; simpl; [..|apply pruned_insert;
    [apply add_request_nonzero|done]]; intros q; rewrite counts_of_insert; fold (counts_of (projects s) p);
    case_decide; subst; simpl; rewrite ?bk_requests0, ?bk_queued0, ?bk_running0; try done; one_cases.
Qed.

Lemma booked_add_queued A e s s' :
  projects s' = or_default (pd_project e) (add_queued (pd_class e)) (projects s) →
  queued s' = queued s ++ [e] → running s' = running s → booked A s → booked A s'.
Proof.
  intros E1 E2 E3 H; pose proof H as []. unfold or_default in E1.
  split; rewrite ?E1, ?E2, ?E3; [..|apply pruned_insert; [apply add_queued_nonzero|done]];
    intros q; rewrite counts_of_insert; fold (counts_of (projects s) (pd_project e)).
  - case_decide; subst; apply bk_requests0.
  - intros k. unfold queued_of. rewrite filter_snoc. fold (queued_of q k (queued s)).
    case_decide; subst; simpl; rewrite ?at_set_class, ?bk_queued0; [|one_cases].
    case_decide; subst; rewrite ?bk_queued0; one_cases.
  - intros k. case_decide; subst; apply bk_running0.
Qed.

(** Removing an entry, pruning its project: the subtraction cannot underflow. *)
Lemma booked_sub_queued A i e s :
  booked A s → queued s !! i = Some e →
  ∃ c, projects s !! pd_project e = Some c ∧ ∃ c', sub_queued (pd_class e) c = Done c' ∧
  pc_requests c' = pc_requests c ∧ pc_running c' = pc_running c ∧
  ∀ k, at_class (pc_queued c') k = queued_of (pd_project e) k (delete i (queued s)).
Proof.
  intros H Hi. pose proof (bk_queued A s H (pd_project e)) as Hq.
  assert (∀ k, queued_of (pd_project e) k (queued s)
    = queued_of (pd_project e) k (delete i (queued s)) + one (k = pd_class e)) as Hd.
  { intros k. unfold queued_of at 1. rewrite (filter_delete_at _ _ _ _ Hi). f_equal. one_cases. }
  destruct (projects s !! pd_project e) as [c|] eqn:Ec; unfold counts_of in Hq; rewrite Ec in Hq; simpl in Hq.
  - exists c. split; [done|]. unfold sub_queued, usize_sub.
    assert (1 ≤ at_class (pc_queued c) (pd_class e)) as H1.
    { rewrite Hq, Hd. unfold one. rewrite decide_True by done. lia. }
    rewrite (proj2 (Nat.leb_le _ _) H1). eexists; split; [done|]. simpl. split_and!; [done|done|].
    intros k. rewrite at_set_class, !Hq, !Hd. unfold one. case_decide; subst; [rewrite decide_True by done; lia|lia].
  - exfalso. specialize (Hq (pd_class e)). rewrite at_all3, Hd in Hq. unfold one in Hq.
    rewrite decide_True in Hq by done. lia.
Qed.

Lemma booked_sub_running A id r s :
  booked A s → running s !! id = Some r →
  ∃ c, projects s !! rn_project r = Some c ∧ ∃ c', sub_running (rn_class r) c = Done c' ∧
  pc_requests c' = pc_requests c ∧ pc_queued c' = pc_queued c ∧
  ∀ k, at_class (pc_running c') k = running_of (rn_project r) k (delete id (running s)).
Proof.
  intros H Hi. pose proof (bk_running A s H (rn_project r)) as Hq.
  assert (∀ k, running_of (rn_project r) k (running s)
    = running_of (rn_project r) k (delete id (running s)) + one (k = rn_class r)) as Hd.
  { intros k. unfold running_of at 1. rewrite (count_delete _ _ _ _ Hi). f_equal. simpl. one_cases. }
  destruct (projects s !! rn_project r) as [c|] eqn:Ec; unfold counts_of in Hq; rewrite Ec in Hq; simpl in Hq.
  - exists c. split; [done|]. unfold sub_running, usize_sub.
    assert (1 ≤ at_class (pc_running c) (rn_class r)) as H1.
    { rewrite Hq, Hd. unfold one. rewrite decide_True by done. lia. }
    rewrite (proj2 (Nat.leb_le _ _) H1). eexists; split; [done|]. simpl. split_and!; [done|done|].
    intros k. rewrite at_set_class, !Hq, !Hd. unfold one. case_decide; subst; [rewrite decide_True by done; lia|lia].
  - exfalso. specialize (Hq (rn_class r)). rewrite at_all3, Hd in Hq. unfold one in Hq.
    rewrite decide_True in Hq by done. lia.
Qed.

Lemma queued_of_other p k i e q :
  q !! i = Some e → p ≠ pd_project e → queued_of p k q = queued_of p k (delete i q).
Proof. intros Hi Hp. unfold queued_of at 1. rewrite (filter_delete_at _ _ _ _ Hi). fold (queued_of p k (delete i q)). one_cases. Qed.

Lemma running_of_other p k id r m :
  m !! id = Some r → p ≠ rn_project r → running_of p k m = running_of p k (delete id m).
Proof. intros Hi Hp. unfold running_of at 1. rewrite (count_delete _ _ _ _ Hi). fold (running_of p k (delete id m)). simpl. one_cases. Qed.

(** ** The operations never panic and keep the books *)

Lemma position_Some id q i :
  position id q = Some i → ∃ e, q !! i = Some e ∧ pd_id e = id.
Proof.
  unfold position. destruct (list_find _ q) as [[j e]|] eqn:E; [|done].
  intros [= <-]. apply list_find_Some in E as (? & ? & _). eauto.
Qed.

Lemma position_None id q : position id q = None → ∀ e, e ∈ q → pd_id e ≠ id.
Proof.
  unfold position. destruct (list_find _ q) as [[j e]|] eqn:E; [done|].
  intros _. apply list_find_None in E. by rewrite Forall_forall in E.
Qed.

(** The state after an entry is removed and its project pruned. *)
Definition without_entry (i : nat) (e : Pending) (s s' : State) : Prop :=
  queued s !! i = Some e ∧ queued s' = delete i (queued s) ∧ running s' = running s
  ∧ requests s' = requests s ∧ next_id s' = next_id s ∧ closed s' = closed s
  ∧ last_project s' = last_project s.

Lemma drop_pending_ok A id s :
  booked A s → ∃ s', drop_pending id s = Done s' ∧ booked A s' ∧
    ((s' = s ∧ ∀ e, e ∈ queued s → pd_id e ≠ id)
     ∨ ∃ i e, pd_id e = id ∧ without_entry i e s s').
Proof.
  intros H. unfold drop_pending. destruct (position id (queued s)) as [i|] eqn:Ep.
  2:{ exists s. split; [done|]. split; [done|]. left. split; [done|]. by apply position_None. }
  destruct (position_Some _ _ _ Ep) as (e & He & Hid). unfold remove_at. rewrite He.
  cbn [of_option mbind outcome_bind].
  destruct (booked_sub_queued A i e s H He) as (c & Hc & c' & Hc' & Hr & Hrun & Hq).
  unfold get_mut. rewrite Hc, Hc'. cbn [mbind outcome_bind]. eexists; split; [done|]. split.
  - pose proof H as []. split; simpl; [..|by apply pruned_prune]; intros p;
      rewrite counts_of_prune, counts_of_insert.
    + case_decide; [subst|done]. rewrite Hr, <- (bk_requests0 (pd_project e)). unfold counts_of. by rewrite Hc.
    + intros k. case_decide; [by subst|]. rewrite bk_queued0. by apply (queued_of_other p k i e).
    + intros k. case_decide; [subst|done]. rewrite Hrun, <- (bk_running0 (pd_project e)). unfold counts_of. by rewrite Hc.
  - right. by exists i, e.
Qed.

Lemma drop_execution_ok A id s :
  booked A s → ∃ s', drop_execution id s = Done s' ∧ booked A s' ∧
    running s' = delete id (running s) ∧ queued s' = queued s ∧ requests s' = requests s
    ∧ next_id s' = next_id s ∧ closed s' = closed s ∧ last_project s' = last_project s.
Proof.
  intros H. unfold drop_execution. destruct (running s !! id) as [r|] eqn:Er.
  2:{ exists s. split; [done|]. split; [done|]. by rewrite delete_id. }
  destruct (booked_sub_running A id r s H Er) as (c & Hc & c' & Hc' & Hr & Hqu & Hq).
  unfold get_mut. rewrite Hc, Hc'. cbn [mbind outcome_bind]. eexists; split; [done|]. split; [|done].
  pose proof H as []. split; simpl; [..|by apply pruned_prune]; intros p;
    rewrite counts_of_prune, counts_of_insert.
  - case_decide; [subst|done]. rewrite Hr, <- (bk_requests0 (rn_project r)). unfold counts_of. by rewrite Hc.
  - intros k. case_decide; [subst|done]. rewrite Hqu, <- (bk_queued0 (rn_project r)). unfold counts_of. by rewrite Hc.
  - intros k. case_decide; [by subst|]. rewrite bk_running0. by apply (running_of_other p k id r).
Qed.

Definition lease_of (lease : option Path) (p : Path) : nat := one (lease = Some p).

Lemma drop_request_ok A id lease s :
  booked (λ q, A q + lease_of lease q) s →
  ∃ s', drop_request id lease s = Done s' ∧ booked A s' ∧
    requests s' = delete id (requests s) ∧ queued s' = queued s ∧ running s' = running s
    ∧ next_id s' = next_id s ∧ closed s' = closed s ∧ last_project s' = last_project s.
Proof.
  intros H. unfold drop_request. destruct lease as [p|]; simpl.
  2:{ eexists; split; [done|]. split; [|done]. apply (booked_state _ s); [done..|].
      eapply booked_ext; [|exact H]. intros q. simpl. unfold lease_of, one. rewrite decide_False by done. lia. }
  pose proof H as []. pose proof (bk_requests0 p) as Hp. unfold lease_of, one in Hp.
  rewrite decide_True in Hp by done. unfold counts_of in Hp.
  destruct (projects s !! p) as [c|] eqn:Ec; simpl in Hp; [|lia].
  unfold get_mut. rewrite Ec. unfold sub_request, usize_sub.
  rewrite (proj2 (Nat.leb_le 1 _)) by lia. cbn [mbind outcome_bind].
  eexists; split; [done|]. split; [|done].
  split; simpl; [..|by apply pruned_prune]; intros q; rewrite counts_of_prune, counts_of_insert.
  - case_decide; subst; simpl; [lia|]. rewrite bk_requests0. unfold lease_of. one_cases.
  - intros k. case_decide; [subst|done]. simpl. rewrite <- bk_queued0. unfold counts_of. by rewrite Ec.
  - intros k. case_decide; [subst|done]. simpl. rewrite <- bk_running0. unfold counts_of. by rewrite Ec.
Qed.

Lemma find_Some_first {A} (f : A → bool) (l : list A) x :
  List.find f l = Some x ↔
  ∃ i, l !! i = Some x ∧ f x = true ∧ ∀ j y, j < i → l !! j = Some y → f y = false.
Proof.
  induction l as [|a l IH]; cbn [List.find].
  - split; [done|]. intros (i & Hi & _). by rewrite lookup_nil in Hi.
  - destruct (f a) eqn:Ea.
    + split.
      * intros [= ->]. exists 0. split_and!; [done|done|lia].
      * intros (i & Hi & Hx & Hj). destruct i as [|i]; [by simplify_eq|].
        specialize (Hj 0 a ltac:(lia) eq_refl). congruence.
    + rewrite IH. split.
      * intros (i & Hi & Hx & Hj). exists (S i). split_and!; [done|done|].
        intros [|j] y Hji Hy; simplify_eq/=; [done|]. apply (Hj j); [lia|done].
      * intros (i & Hi & Hx & Hj). destruct i as [|i]; [simplify_eq/=; congruence|].
        exists i. split_and!; [done|done|]. intros j y Hji Hy. apply (Hj (S j)); [lia|done].
Qed.

Lemma find_None_all {A} (f : A → bool) (l : list A) :
  List.find f l = None ↔ ∀ x, x ∈ l → f x = false.
Proof.
  induction l as [|a l IH]; cbn [List.find].
  - split; [|done]. intros _ x Hx. by apply not_elem_of_nil in Hx.
  - destruct (f a) eqn:Ea.
    + split; [done|]. intros H. rewrite (H a) in Ea; [done|by left].
    + rewrite IH. split; [|intros H x Hx; apply H; by right].
      intros H x [->|Hx]%elem_of_cons; [done|auto].
Qed.

Lemma find_filter {A} (f g : A → bool) (l : list A) :
  List.find f (List.filter g l) = List.find (λ x, g x && f x) l.
Proof.
  induction l as [|a l IH]; [done|]. cbn [List.filter List.find].
  destruct (g a); simpl; [|done]. by destruct (f a).
Qed.

Section eligible_spec.
Context (cells : gmap Cell Phase) (alive : Ctl → bool).

(** The project of the entry is not the one last admitted in the class. *)
Definition rotates (s : State) (k : WorkClass) (e : Pending) : bool :=
  negb (bool_decide (at_class (last_project s) k = Some (pd_project e))).

Definition first_in (s : State) (i : nat) (e : Pending) (f : Pending → bool) : Prop :=
  queued s !! i = Some e ∧ f e = true ∧ ∀ j e', j < i → queued s !! j = Some e' → f e' = false.

Lemma eligible_iff s k l id :
  eligible cells alive s k l = Some id ↔
  running_count k (running s) < l_running l ∧
  let ok := entry_eligible cells alive s k l in
  ∃ i e, pd_id e = id ∧
    (first_in s i e (λ e, ok e && rotates s k e)
     ∨ (first_in s i e ok ∧ ∀ e', e' ∈ queued s → ok e' && rotates s k e' = false)).
Proof.
  unfold eligible. destruct (Nat.leb_spec (l_running l) (running_count k (running s))).
  { split; [done|]. intros [? _]. lia. }
  cbv zeta. rewrite find_filter.
  set (f := λ x, _ && _). assert (f = λ e, entry_eligible cells alive s k l e && rotates s k e) as -> by done.
  split.
  - intros Hf. split; [lia|]. destruct (List.find _ (queued s)) as [e|] eqn:E1.
    + injection Hf as <-. apply find_Some_first in E1 as (i & Hi). exists i, e. split; [done|]. by left.
    + destruct (List.find (entry_eligible cells alive s k l) (queued s)) as [e|] eqn:E2; [|done].
      injection Hf as <-. apply find_Some_first in E2 as (i & Hi). exists i, e. split; [done|]. right.
      split; [done|]. by apply find_None_all.
  - intros (_ & i & e & <- & [Hi|[Hi Hn]]).
    + by erewrite (proj2 (find_Some_first _ _ _) (ex_intro _ i Hi)).
    + by erewrite (proj2 (find_None_all _ _) Hn), (proj2 (find_Some_first _ _ _) (ex_intro _ i Hi)).
Qed.

Lemma eligible_entry s k l id :
  eligible cells alive s k l = Some id →
  running_count k (running s) < l_running l ∧
  ∃ i e, queued s !! i = Some e ∧ pd_id e = id ∧ entry_eligible cells alive s k l e = true.
Proof.
  intros [Hr (i & e & Hid & [(Hi & He & _)|[(Hi & He & _) _]])]%eligible_iff; (split; [done|]);
    exists i, e; split_and!; try done. by apply andb_true_iff in He as [? _].
Qed.

Lemma entry_eligible_true s k l e :
  entry_eligible cells alive s k l e = true ↔
  pd_class e = k
  ∧ (∃ c, projects s !! pd_project e = Some c ∧ at_class (pc_running c) k < l_running_per_project l)
  ∧ cells !! pd_phase e = Some PENDING ∧ alive (pd_control e) = true.
Proof.
  unfold entry_eligible. rewrite !andb_true_iff, !bool_decide_eq_true.
  destruct (projects s !! pd_project e) as [c|]; [rewrite Nat.ltb_lt|]; naive_solver.
Qed.
End eligible_spec.

Lemma nodup_position q i e :
  NoDup (map pd_id q) → q !! i = Some e → position (pd_id e) q = Some i.
Proof.
  intros Hn Hi. destruct (position (pd_id e) q) as [j|] eqn:E.
  - destruct (position_Some _ _ _ E) as (e' & Hj & Hid). f_equal.
    eapply (NoDup_lookup (map pd_id q)); [done| |].
    + by rewrite list_lookup_fmap, Hj.
    + by rewrite list_lookup_fmap, Hi; simpl; rewrite Hid.
  - exfalso. by eapply (position_None _ _ E e); [eapply list_elem_of_lookup_2|].
Qed.

(** What an admission does to the state. *)
Definition admitted_from (k : WorkClass) (i : nat) (e : Pending) (s s' : State) : Prop :=
  queued s !! i = Some e ∧ pd_class e = k ∧ queued s' = delete i (queued s)
  ∧ running s' = <[pd_id e := mkRunning (pd_project e) k (pd_control e)]> (running s)
  ∧ requests s' = requests s ∧ next_id s' = next_id s ∧ closed s' = closed s
  ∧ last_project s' = set_class k (Some (pd_project e)) (last_project s).

Lemma admit_ok A i e s :
  booked A s → NoDup (map pd_id (queued s)) → queued s !! i = Some e → running s !! pd_id e = None →
  ∃ s', grant (pd_class e) (pd_id e) s = Done s' ∧ booked A s' ∧ admitted_from (pd_class e) i e s s'.
Proof.
  intros H Hn Hi Hr. unfold grant. rewrite (nodup_position _ _ _ Hn Hi). cbn [of_option mbind outcome_bind].
  unfold remove_at. rewrite Hi. cbn [of_option mbind outcome_bind].
  destruct (booked_sub_queued A i e s H Hi) as (c & Hc & c' & Hc' & Hreq & Hrun & Hq).
  rewrite Hc. cbn [of_option mbind outcome_bind]. rewrite Hc'. cbn [mbind outcome_bind].
  eexists; split; [done|]. split; [|done]. pose proof H as [].
  split; simpl; [..|by apply pruned_insert; [apply add_running_nonzero|]]; intros p; rewrite counts_of_insert.
  - case_decide; [subst|done]. simpl. rewrite Hreq, <- (bk_requests0 (pd_project e)). unfold counts_of. by rewrite Hc.
  - intros k. case_decide; [by subst; simpl|]. rewrite bk_queued0. by apply (queued_of_other p k i e).
  - intros k. unfold running_of. rewrite count_insert by done. fold (running_of p k (running s)). simpl.
    case_decide as Hp; [subst|].
    + simpl. rewrite at_set_class, Hrun.
      assert (∀ j, at_class (pc_running c) j = running_of (pd_project e) j (running s)) as Hc2.
      { intros j. rewrite <- (bk_running0 (pd_project e)). unfold counts_of. by rewrite Hc. }
      rewrite !Hc2. case_decide; subst; one_cases.
    + rewrite bk_running0. one_cases.
Qed.

(** ** The invariant of every reachable world *)

Record within_limits (lim : WorkLimits) (ls : gmap N (option Path)) (s : State) : Prop := {
  lm_requests : size (requests s) ≤ l_requests lim;
  lm_project_requests : ∀ p, attached_to p ls ≤ l_requests_per_project lim;
  lm_queued : ∀ k, class_count k (queued s) ≤ l_queued (lane lim k);
  lm_project_queued : ∀ p k, queued_of p k (queued s) ≤ l_queued_per_project (lane lim k);
  lm_running : ∀ k, running_count k (running s) ≤ l_running (lane lim k);
  lm_project_running : ∀ p k, running_of p k (running s) ≤ l_running_per_project (lane lim k);
}.

(** Ids name one request, waiter or execution; none was given out twice. *)
Record ids_ok (s : State) : Prop := {
  id_requests : ∀ id, is_Some (requests s !! id) → (id ≤ next_id s)%N;
  id_running : ∀ id, is_Some (running s !! id) → (id ≤ next_id s)%N;
  id_queued : ∀ e, e ∈ queued s → (pd_id e ≤ next_id s)%N;
  id_distinct : NoDup (map pd_id (queued s));
  id_apart : ∀ e, e ∈ queued s → running s !! pd_id e = None;
}.

(** Queue entries and waiting calls correspond. *)
Record calls_ok (q : list Pending) (next : N) (aqs : gmap Cell Acquire) (cs : gmap Cell Phase) : Prop := {
  cl_entry : ∀ e, e ∈ q → ∃ a, aqs !! pd_phase e = Some a ∧ aq_stage a = Waiting (pd_id e)
      ∧ aq_class a = pd_class e ∧ aq_control a = pd_control e ∧ aq_project a = pd_project e;
  cl_waiting : ∀ c a id, aqs !! c = Some a → aq_stage a = Waiting id →
      ∃ e, e ∈ q ∧ pd_id e = id ∧ pd_phase e = c;
  cl_admitted : ∀ c a id, aqs !! c = Some a → aq_stage a = Granted id →
      (id ≤ next)%N ∧ cs !! c = Some ADMITTED ∧ ∀ e, e ∈ q → pd_id e ≠ id;
  cl_cell : ∀ c a, aqs !! c = Some a → (∀ id, aq_stage a ≠ Granted id) →
      cs !! c = Some PENDING ∨ cs !! c = Some STOPPED;
}.

Record invariant (lim : WorkLimits) (w : World) : Prop := {
  iv_booked : booked (λ p, attached_to p (leases w)) (st w);
  iv_limits : within_limits lim (leases w) (st w);
  iv_ids : ids_ok (st w);
  iv_calls : calls_ok (queued (st w)) (next_id (st w)) (acquires w) (cells w);
  iv_leases : ∀ id, is_Some (requests (st w) !! id) ↔ is_Some (leases w !! id);
  iv_execs : ∀ id, is_Some (running (st w) !! id) ↔ id ∈ execs w;
  iv_borrow : ∀ c a, acquires w !! c = Some a → is_Some (ctls w !! aq_control a);
}.

Lemma elem_of_delete_at {A} (l : list A) i x y : l !! i = Some x → y ∈ l → y ≠ x → y ∈ delete i l.
Proof.
  intros Hi Hy Hne. rewrite <- (take_drop_middle l i x Hi) in Hy. rewrite delete_take_drop.
  rewrite elem_of_app, elem_of_cons in *. tauto.
Qed.

Lemma delete_at_elem {A} (l : list A) i y : y ∈ delete i l → y ∈ l.
Proof. apply list_elem_of_delete_inv. Qed.

Lemma delete_at_nodup {A B} (f : A → B) (l : list A) i x y :
  NoDup (map f l) → l !! i = Some x → y ∈ delete i l → f y ≠ f x.
Proof.
  intros Hn Hi Hy E. rewrite <- (take_drop_middle l i x Hi), map_app in Hn. rewrite delete_take_drop in Hy.
  simpl in Hn. apply NoDup_app in Hn as (_ & H1 & H2). apply NoDup_cons in H2 as [H2 _].
  apply elem_of_app in Hy as [Hy|Hy].
  - apply (H1 (f y)); [apply list_elem_of_fmap; by exists y|]. rewrite E. by left.
  - apply H2. rewrite <- E. apply list_elem_of_fmap. by exists y.
Qed.

Lemma nodup_same {A B} (f : A → B) (l : list A) x y :
  NoDup (map f l) → x ∈ l → y ∈ l → f x = f y → x = y.
Proof.
  intros Hn [i Hi]%list_elem_of_lookup_1 [j Hj]%list_elem_of_lookup_1 E.
  assert (i = j) as ->; [|congruence].
  apply (NoDup_lookup (map f l) i j (f x) Hn); rewrite list_lookup_fmap, ?Hi, ?Hj; simpl; congruence.
Qed.

Lemma delete_at_distinct {A B} (f : A → B) (l : list A) i :
  NoDup (map f l) → NoDup (map f (delete i l)).
Proof. intros H. eapply sublist_NoDup; [exact H|]. apply fmap_sublist, sublist_delete. Qed.

Lemma delete_at_None {A} (l : list A) i : l !! i = None → delete i l = l.
Proof.
  revert i; induction l as [|x l IH]; intros [|i] Hi; simplify_eq/=; [done|done|]. f_equal. by apply IH.
Qed.

Lemma class_count_delete k q i : class_count k (delete i q) ≤ class_count k q.
Proof.
  unfold class_count. destruct (q !! i) as [x|] eqn:E; [rewrite (filter_delete_at _ _ _ _ E); lia|].
  by rewrite delete_at_None.
Qed.

Lemma queued_of_delete p k q i : queued_of p k (delete i q) ≤ queued_of p k q.
Proof.
  unfold queued_of. destruct (q !! i) as [x|] eqn:E; [rewrite (filter_delete_at _ _ _ _ E); lia|].
  by rewrite delete_at_None.
Qed.

Lemma running_count_delete k m id : running_count k (delete id m) ≤ running_count k m.
Proof.
  unfold running_count. destruct (m !! id) as [x|] eqn:E; [rewrite (count_delete _ _ _ _ E); lia|].
  by rewrite delete_id.
Qed.

Lemma running_of_delete p k m id : running_of p k (delete id m) ≤ running_of p k m.
Proof.
  unfold running_of. destruct (m !! id) as [x|] eqn:E; [rewrite (count_delete _ _ _ _ E); lia|].
  by rewrite delete_id.
Qed.

Lemma attached_update ls id old new p :
  ls !! id = Some old →
  attached_to p (<[id := new]> ls) + lease_of old p = attached_to p ls + lease_of new p.
Proof. apply count_update. Qed.

Lemma attached_delete ls id old p :
  ls !! id = Some old → attached_to p ls = attached_to p (delete id ls) + lease_of old p.
Proof. apply count_delete. Qed.

Lemma fresh_id_next s id : fresh_id s = Some id → id = (next_id s + 1)%N.
Proof. unfold fresh_id. destruct (_ <? _)%N; by intros [= <-]. Qed.

(** ** Removing entries keeps the invariants *)

Lemma limits_shrink lim ls ls' s s' :
  within_limits lim ls s → size (requests s') ≤ size (requests s) →
  (∀ p, attached_to p ls' ≤ attached_to p ls) →
  (queued s' = queued s ∨ ∃ i, queued s' = delete i (queued s)) →
  (running s' = running s ∨ ∃ id, running s' = delete id (running s)) →
  within_limits lim ls' s'.
Proof.
  intros [] Hr Hl Hq Hrun. split.
  - lia.
  - intros p. specialize (Hl p). specialize (lm_project_requests0 p). lia.
  - intros k. specialize (lm_queued0 k). destruct Hq as [-> |[i ->]]; [done|].
    pose proof (class_count_delete k (queued s) i). lia.
  - intros p k. specialize (lm_project_queued0 p k). destruct Hq as [-> |[i ->]]; [done|].
    pose proof (queued_of_delete p k (queued s) i). lia.
  - intros k. specialize (lm_running0 k). destruct Hrun as [-> |[i ->]]; [done|].
    pose proof (running_count_delete k (running s) i). lia.
  - intros p k. specialize (lm_project_running0 p k). destruct Hrun as [-> |[i ->]]; [done|].
    pose proof (running_of_delete p k (running s) i). lia.
Qed.

Lemma ids_shrink s s' :
  ids_ok s → next_id s' = next_id s →
  (∀ id, is_Some (requests s' !! id) → is_Some (requests s !! id)) →
  (∀ id, is_Some (running s' !! id) → is_Some (running s !! id)) →
  (queued s' = queued s ∨ ∃ i, queued s' = delete i (queued s)) →
  ids_ok s'.
Proof.
  intros [] En Hr Hrun Hq.
  assert (∀ e, e ∈ queued s' → e ∈ queued s) as Hin.
  { intros e. destruct Hq as [-> |[i ->]]; [done|apply delete_at_elem]. }
  split; rewrite ?En; auto.
  - destruct Hq as [-> |[i ->]]; [done|by apply delete_at_distinct].
  - intros e He. destruct (running s' !! pd_id e) eqn:E; [|done].
    destruct (Hrun (pd_id e)) as [x Hx]; [by rewrite E|]. by rewrite (id_apart0 e (Hin e He)) in Hx.
Qed.

(** An entry leaves the queue together with its call, or changing its stage. *)
Lemma calls_remove q next aqs cs i e :
  NoDup (map pd_id q) → q !! i = Some e → calls_ok q next aqs cs →
  calls_ok (delete i q) next (delete (pd_phase e) aqs) cs.
Proof.
  intros Hn Hi [].
  assert (e ∈ q) as He by (by eapply list_elem_of_lookup_2).
  assert (∀ e', e' ∈ delete i q → pd_phase e' ≠ pd_phase e) as Hne.
  { intros e' He' E. destruct (cl_entry0 e He) as (a & Ha & Hs & _).
    destruct (cl_entry0 e' (delete_at_elem _ _ _ He')) as (a' & Ha' & Hs' & _).
    rewrite E, Ha in Ha'. simplify_eq. rewrite Hs in Hs'. injection Hs' as Hid.
    by apply (delete_at_nodup pd_id q i e e' Hn Hi He'). }
  split.
  - intros e' He'. rewrite lookup_delete_ne by (intros E; by apply (Hne e')).
    by apply cl_entry0, (delete_at_elem _ i).
  - intros c a id [Hc Ha]%lookup_delete_Some Hs. destruct (cl_waiting0 c a id Ha Hs) as (e' & He' & Hid & Hp).
    exists e'. split_and!; [|done|done]. eapply elem_of_delete_at; [done|done|]. intros ->. congruence.
  - intros c a id [Hc Ha]%lookup_delete_Some Hs. destruct (cl_admitted0 c a id Ha Hs) as (? & ? & Hq).
    split_and!; [done|done|]. intros e' He'. by apply Hq, (delete_at_elem _ i).
  - intros c a [Hc Ha]%lookup_delete_Some. by apply cl_cell0.
Qed.

Lemma calls_forget q next aqs cs c a :
  aqs !! c = Some a → (∀ id, aq_stage a ≠ Waiting id) → calls_ok q next aqs cs →
  calls_ok q next (delete c aqs) cs.
Proof.
  intros Ha Hw []. split.
  - intros e He. destruct (cl_entry0 e He) as (a' & Ha' & Hs & H). exists a'.
    rewrite lookup_delete_ne; [done|]. intros ->. simplify_eq. by eapply Hw.
  - intros c' a' id [_ Ha']%lookup_delete_Some. by apply cl_waiting0.
  - intros c' a' id [_ Ha']%lookup_delete_Some. by apply cl_admitted0.
  - intros c' a' [_ Ha']%lookup_delete_Some. by apply cl_cell0.
Qed.

(** ** Every event keeps the invariant and none panics *)

Section events.
Context (lim : WorkLimits).

Definition keeps (w : World) (o : outcome World) : Prop := ∃ w', o = Done w' ∧ invariant lim w'.

Lemma world_invariant_new : invariant lim world_new.
Proof.
  assert (∀ (P : N * Running → Prop) `{!∀ x, Decision (P x)}, size (filter P (∅ : gmap N Running)) = 0) as H1
    by (intros; by rewrite map_filter_empty).
  assert (∀ (P : N * option Path → Prop) `{!∀ x, Decision (P x)}, size (filter P (∅ : gmap N (option Path))) = 0) as H2
    by (intros; by rewrite map_filter_empty).
  split; simpl.
  - split; simpl; unfold attached_to, running_of; intros; rewrite ?H1, ?H2; unfold counts_of; simpl;
      rewrite ?lookup_empty; simpl; try apply at_all3; try done.
  - split; simpl; unfold attached_to, running_of, running_count, class_count, queued_of; intros;
      rewrite ?map_size_empty, ?H1, ?H2, ?filter_nil; simpl; lia.
  - split; simpl; try (intros ? [? ?]; simplify_map_eq); try (intros ? ?%not_elem_of_nil; done). constructor.
  - split; try (by intros ? ?%not_elem_of_nil); intros; simplify_map_eq.
  - intros id. by rewrite !lookup_empty.
  - intros id. rewrite lookup_empty. split; [by intros []|set_solver].
  - intros; simplify_map_eq.
Qed.

Lemma request_keeps c w : invariant lim w → keeps w (Done (step_request lim c w)).
Proof.
  intros H. eexists; split; [done|]. unfold step_request, try_request.
  assert (set_st (st w) w = w) as Hw by (by destruct w).
  destruct (check_control w c); [|done]. destruct (closed (st w)); [by rewrite Hw|].
  destruct (Nat.eqb_spec (size (requests (st w))) (l_requests lim)) as [|Hne]; [by rewrite Hw|].
  destruct (fresh_id (st w)) as [id|] eqn:Ef; [|by rewrite Hw]. apply fresh_id_next in Ef.
  destruct H as [Hb Hl Hi Hc Hle He Hbo].
  assert (requests (st w) !! id = None) as Hfr.
  { destruct (requests (st w) !! id) eqn:E; [|done]. pose proof (id_requests _ Hi id) as Hid.
    rewrite E in Hid. specialize (Hid ltac:(done)). lia. }
  assert (leases w !! id = None) as Hfl.
  { rewrite eq_None_not_Some, <- Hle, Hfr. by intros []. }
  assert (∀ p, attached_to p (<[id := None]> (leases w)) = attached_to p (leases w)) as Ha.
  { intros p. unfold attached_to. rewrite count_insert by done. simpl. unfold one. rewrite decide_False by done. lia. }
  split; simpl; try done.
  - apply (booked_state _ (st w)); [done..|]. eapply booked_ext; [|exact Hb]. intros p. by rewrite Ha.
  - destruct Hl. split; simpl; try done; [|intros p; by rewrite Ha].
    rewrite map_size_insert_None by done. lia.
  - destruct Hi. split; simpl; try done.
    + intros i Hs. destruct (decide (i = id)) as [->|]; [lia|]. rewrite lookup_insert_ne in Hs by done.
      specialize (id_requests0 i Hs). lia.
    + intros i Hs. specialize (id_running0 i Hs). lia.
    + intros e Hs. specialize (id_queued0 e Hs). lia.
  - destruct Hc. split; try done. intros c' a id' Ha' Hs'.
    destruct (cl_admitted0 c' a id' Ha' Hs') as (? & ? & ?). split_and!; [lia|done|done].
  - intros i. rewrite !lookup_insert_is_Some, Hle. done.
Qed.


(** [WorkCoordinator::new] refuses other limits. *)
Hypothesis Hvalid : validate lim = None.

Lemma valid_requests : 1 ≤ l_requests_per_project lim.
Proof using Hvalid.
  revert Hvalid. unfold validate. destruct (_ || _) eqn:E; [done|].
  rewrite !orb_false_iff, !Nat.eqb_neq in E. lia.
Qed.

Lemma valid_lane k : 1 ≤ l_queued_per_project (lane lim k).
Proof using Hvalid.
  revert Hvalid. unfold validate. destruct (_ || _) eqn:E; [done|].
  simpl in E. unfold lane_invalid in E. rewrite !orb_false_iff, !Nat.eqb_neq in E.
  destruct k; simpl; lia.
Qed.

Lemma attach_keeps id lease p w :
  leases w !! id = Some lease → invariant lim w → keeps w (Done (step_attach lim id lease p w)).
Proof using Hvalid.
  intros Hlk H. eexists; split; [done|]. unfold step_attach, attach_project.
  assert (mkWorld (st w) (ctls w) (cells w) (<[id := lease]> (leases w)) (acquires w) (execs w) (stopping w) = w) as Hw.
  { rewrite insert_id by done. by destruct w. }
  destruct lease as [q|]; [by rewrite Hw|]. destruct (closed (st w)); [by rewrite Hw|].
  destruct (match projects (st w) !! p with Some _ => _ | None => _ end) eqn:Ep; [by rewrite Hw|].
  destruct H as [Hb Hl Hi Hc Hle He Hbo].
  assert (∀ q, attached_to q (<[id := Some p]> (leases w)) = attached_to q (leases w) + one (q = p)) as Ha.
  { intros q. pose proof (attached_update (leases w) id None (Some p) q Hlk) as E.
    unfold lease_of in E. revert E. one_cases. }
  assert (attached_to p (leases w) + 1 ≤ l_requests_per_project lim) as Hroom.
  { pose proof (bk_requests _ _ Hb p) as Hp. simpl in Hp. rewrite <- Hp. unfold counts_of in *.
    destruct (projects (st w) !! p) as [c|]; simpl in *; [apply Nat.leb_gt in Ep; lia|apply valid_requests]. }
  split; simpl; try done.
  - eapply booked_ext; [|by apply booked_add_request]. intros q. by rewrite Ha.
  - destruct Hl. split; simpl; try done. intros q. rewrite Ha. specialize (lm_project_requests0 q). one_cases.
  - by destruct Hi.
  - intros i. rewrite Hle, lookup_insert_is_Some. split; [|by intros [<-|[_ ?]]].
    intros ?. destruct (decide (id = i)); [by left|by right].
Qed.

Lemma drop_request_keeps id lease w :
  leases w !! id = Some lease → invariant lim w → keeps w (step_drop_request id lease w).
Proof.
  intros Hlk [Hb Hl Hi Hc Hle He Hbo]. unfold step_drop_request.
  destruct (drop_request_ok (λ p, attached_to p (delete id (leases w))) id lease (st w))
    as (s' & -> & Hb' & Er & Eq & Erun & En & Ec & _).
  { eapply booked_ext; [|exact Hb]. intros p. by apply attached_delete. }
  cbn [mbind outcome_bind]. eexists; split; [done|]. split; simpl; rewrite ?Eq, ?Erun, ?En; try done.
  - eapply limits_shrink; [done|..]; [| |by left|by left].
    + rewrite Er. apply map_subseteq_size, delete_subseteq.
    + intros p. rewrite (attached_delete _ _ _ p Hlk). lia.
  - eapply ids_shrink; [done|done| |by rewrite Erun|by left].
    intros i. rewrite Er. by intros [_ ?]%lookup_delete_is_Some.
  - intros i. rewrite Er, !lookup_delete_is_Some, Hle. done.
Qed.

Lemma acquire_keeps a p k c w :
  alive w c = true → cells w !! a = None → invariant lim w → keeps w (Done (step_acquire a p k c w)).
Proof.
  intros Hal Hfr H. eexists; split; [done|]. unfold step_acquire. destruct (check_control w c); [|done].
  destruct H as [Hb Hl Hi Hc Hle He Hbo]. split; simpl; try done.
  - assert (acquires w !! a = None) as Hna.
    { destruct (acquires w !! a) as [q|] eqn:E; [|done].
      destruct (aq_stage q) as [| |id] eqn:Hs.
      3: { destruct (cl_admitted _ _ _ _ Hc a q id E Hs) as (_ & ? & _). congruence. }
      all: destruct (cl_cell _ _ _ _ Hc a q E) as [?|?]; congruence. }
    destruct Hc. split.
    + intros e He'. destruct (cl_entry0 e He') as (q & Hq & Hs). exists q.
      rewrite lookup_insert_ne; [done|]. congruence.
    + intros c' q id [[<- <-]|[_ Hq]]%lookup_insert_Some; [done|]. by apply cl_waiting0.
    + intros c' q id [[<- <-]|[Hne Hq]]%lookup_insert_Some; [done|]. rewrite lookup_insert_ne by done.
      by apply cl_admitted0.
    + intros c' q [[<- <-]|[Hne Hq]]%lookup_insert_Some.
      * intros _. left. by rewrite lookup_insert_eq.
      * rewrite lookup_insert_ne by done. by apply cl_cell0.
  - intros c' q [[<- <-]|[_ Hq]]%lookup_insert_Some; [|by eapply Hbo]. simpl.
    unfold alive in Hal. by apply bool_decide_eq_true in Hal.
Qed.

Lemma enqueue_keeps a q w :
  acquires w !! a = Some q → aq_stage q = Entered → invariant lim w → keeps w (Done (step_enqueue lim a q w)).
Proof using Hvalid.
  intros Hq Hst H. eexists; split; [done|]. unfold step_enqueue, enqueue.
  assert (∀ s, s = st w → invariant lim
    (mkWorld s (ctls w) (cells w) (leases w) (delete a (acquires w)) (execs w) (stopping w))) as Hfail.
  { intros s ->. destruct H as [Hb Hl Hi Hc Hle He Hbo]. split; simpl; try done.
    - eapply calls_forget; [exact Hq| |done]. by rewrite Hst.
    - intros c' q' [_ Hq']%lookup_delete_Some. by eapply Hbo. }
  destruct (closed (st w)); [by apply Hfail|].
  set (k := aq_class q). set (p := aq_project q).
  set (pq := match projects (st w) !! p with Some _ => _ | None => _ end).
  destruct (_ || _) eqn:Efull; [by apply Hfail|].
  apply orb_false_iff in Efull as [Hcl Hpr]. apply Nat.leb_gt in Hcl, Hpr.
  destruct (fresh_id (st w)) as [id|] eqn:Ef; [|by apply Hfail]. apply fresh_id_next in Ef.
  destruct H as [Hb Hl Hi Hc Hle He Hbo].
  assert (pq = queued_of p k (queued (st w))) as Hpq.
  { pose proof (bk_queued _ _ Hb p k) as E. unfold counts_of in E. rewrite <- E. unfold pq.
    destruct (projects (st w) !! p); simpl; [done|]. by rewrite at_all3. }
  set (e := mkPending id p k (aq_control q) a).
  split; simpl; try done.
  - by apply (booked_add_queued _ e (st w)).
  - destruct Hl. split; simpl; try done.
    + intros j. unfold class_count. rewrite filter_snoc. fold (class_count j (queued (st w))). simpl.
      specialize (lm_queued0 j). one_cases.
    + intros p' j. unfold queued_of. rewrite filter_snoc. fold (queued_of p' j (queued (st w))). simpl.
      specialize (lm_project_queued0 p' j). rewrite Hpq in Hpr. one_cases.
  - destruct Hi. split; simpl; try done.
    + intros i Hs. specialize (id_requests0 i Hs). lia.
    + intros i Hs. specialize (id_running0 i Hs). lia.
    + intros e' [He'| ->%list_elem_of_singleton]%elem_of_app; [specialize (id_queued0 e' He'); lia|simpl; lia].
    + rewrite map_app. apply NoDup_app. split_and!; [done| |simpl; apply NoDup_singleton].
      intros i (e' & -> & He')%list_elem_of_fmap Hin. apply list_elem_of_singleton in Hin.
      specialize (id_queued0 e' He'). simpl in Hin. lia.
    + intros e' [He'| ->%list_elem_of_singleton]%elem_of_app; [auto|]. simpl.
      destruct (running (st w) !! id) eqn:E; [|done].
      specialize (id_running0 id). rewrite E in id_running0. specialize (id_running0 ltac:(done)). lia.
  - destruct Hc. split.
    + intros e' [He'| ->%list_elem_of_singleton]%elem_of_app.
      * destruct (cl_entry0 e' He') as (q' & Hq' & Hs'). exists q'. rewrite lookup_insert_ne; [done|].
        intros E. rewrite <- E in Hq'. simplify_eq. destruct Hs' as [Hs' _]. congruence.
      * exists (set_stage (Waiting id) q). simpl. by rewrite lookup_insert_eq.
    + intros c' q' i [[<- <-]|[Hne Hq']]%lookup_insert_Some Hs'.
      * injection Hs' as <-. exists e. split; [apply elem_of_app; right; by left|done].
      * destruct (cl_waiting0 c' q' i Hq' Hs') as (e' & ? & ?). exists e'. split; [apply elem_of_app; by left|done].
    + intros c' q' i [[<- <-]|[Hne Hq']]%lookup_insert_Some Hs'; [done|].
      destruct (cl_admitted0 c' q' i Hq' Hs') as (? & ? & Hn). split_and!; [lia|done|].
      intros e' [He'| ->%list_elem_of_singleton]%elem_of_app; [by apply Hn|]. simpl. lia.
    + intros c' q' [[<- <-]|[Hne Hq']]%lookup_insert_Some Hs'; [|by eapply cl_cell0].
      eapply cl_cell0; [exact Hq|]. by rewrite Hst.
  - intros c' q' [[<- <-]|[Hne Hq']]%lookup_insert_Some; [|by eapply Hbo]. simpl. by eapply Hbo.
Qed.

(** An admission under the lock: the entry is the caller's own. *)
Lemma poll_ok a q id w :
  acquires w !! a = Some q → aq_stage q = Waiting id → invariant lim w →
  ∃ r, poll (cells w) (alive w) lim (aq_class q) id a (st w) = Done r ∧
  match r with
  | PollAdmitted s =>
      closed (st w) = false ∧ cells w !! a = Some PENDING
      ∧ running_count (aq_class q) (running (st w)) < l_running (lane lim (aq_class q))
      ∧ ∃ i e, pd_id e = id ∧ pd_phase e = a ∧ entry_eligible (cells w) (alive w) (st w) (aq_class q) (lane lim (aq_class q)) e = true
        ∧ admitted_from (aq_class q) i e (st w) s ∧ booked (λ p, attached_to p (leases w)) s
  | _ => True
  end.
Proof.
  intros Hq Hst [Hb Hl Hi Hc Hle He Hbo]. unfold poll.
  destruct (closed (st w)) eqn:Ecl; [by eexists|]. case_decide as Hel; [|by eexists].
  case_decide as Hcell; [|by eexists].
  apply eligible_entry in Hel as (Hrun & i & e & Hei & Hid & Hee).
  assert (e ∈ queued (st w)) as Hin by (by eapply list_elem_of_lookup_2).
  destruct (entry_eligible_true (cells w) (alive w) (st w) (aq_class q) (lane lim (aq_class q)) e) as [Het _].
  destruct (Het Hee) as (Hk & _).
  destruct (admit_ok _ i e (st w) Hb (id_distinct _ Hi) Hei (id_apart _ Hi e Hin)) as (s' & Es & Hb' & Hadm).
  rewrite <- Hk, <- Hid, Es. cbn [mbind outcome_bind]. eexists; split; [done|]. simpl.
  rewrite Hk. split_and!; [done|done|done|]. exists i, e. split_and!; try done.
  - destruct (cl_waiting _ _ _ _ Hc a q id Hq Hst) as (e' & He' & Hid' & Hp').
    assert (e' = e) as ->; [|done]. apply (nodup_same pd_id _ _ _ (id_distinct _ Hi)); [done|done|congruence].
  - by rewrite <- Hk.
Qed.

Lemma running_of_eligible A e s cs al k l :
  booked A s → entry_eligible cs al s k l e = true → running_of (pd_project e) k (running s) < l_running_per_project l.
Proof.
  intros Hb (_ & (c & Hc & Hlt) & _)%entry_eligible_true.
  rewrite <- (bk_running _ _ Hb (pd_project e) k). unfold counts_of. by rewrite Hc.
Qed.

Lemma admitted_limits A ls k i e s s' cs al :
  booked A s → ids_ok s → within_limits lim ls s → running_count k (running s) < l_running (lane lim k) →
  entry_eligible cs al s k (lane lim k) e = true → admitted_from k i e s s' → within_limits lim ls s'.
Proof.
  intros Hb Hi Hl Hr He (Hie & Hk & Eq & Erun & Er & En & Ec & _).
  pose proof (running_of_eligible _ _ _ _ _ _ _ Hb He) as Hpr.
  assert (running s !! pd_id e = None) as Hfr by (apply (id_apart _ Hi); by eapply list_elem_of_lookup_2).
  destruct Hl. split; rewrite ?Eq, ?Erun, ?Er; try done.
  - intros j. pose proof (class_count_delete j (queued s) i). specialize (lm_queued0 j). lia.
  - intros p j. pose proof (queued_of_delete p j (queued s) i). specialize (lm_project_queued0 p j). lia.
  - intros j. unfold running_count. rewrite count_insert by done. fold (running_count j (running s)). simpl.
    specialize (lm_running0 j). one_cases.
  - intros p j. unfold running_of. rewrite count_insert by done. fold (running_of p j (running s)). simpl.
    specialize (lm_project_running0 p j). one_cases.
Qed.

Lemma poll_keeps a q id w :
  acquires w !! a = Some q → aq_stage q = Waiting id → invariant lim w → keeps w (step_poll lim a q id w).
Proof.
  intros Hq Hst H. unfold step_poll. destruct (check_control w (aq_control q)); [|by eexists].
  destruct (poll_ok a q id w Hq Hst H) as (r & -> & Hr). cbn [mbind outcome_bind].
  destruct r as [| |s']; [by eexists..|]. eexists; split; [done|].
  destruct Hr as (Hcl & Hcell & Hrun & i & e & Hid & Hpa & Hee & Hadm & Hb').
  destruct H as [Hb Hl Hi Hc Hle He Hbo].
  pose proof (admitted_limits _ _ _ i e _ s' _ _ Hb Hi Hl Hrun Hee Hadm) as Hl'.
  destruct Hadm as (Hie & Hk & Eq & Erun & Er & En & Ec & _).
  assert (e ∈ queued (st w)) as Hin by (by eapply list_elem_of_lookup_2).
  split; simpl; rewrite ?Er; try done.
  - destruct Hi. split; rewrite ?En, ?Er, ?Erun, ?Eq; try done.
    + intros j [<-|[_ Hj]]%lookup_insert_is_Some; [by apply id_queued0|by apply id_running0].
    + intros e' He'. by eapply id_queued0, delete_at_elem.
    + by apply delete_at_distinct.
    + intros e' He'. rewrite lookup_insert_ne; [by eapply id_apart0, delete_at_elem|].
      intros E. by apply (delete_at_nodup pd_id _ _ _ _ id_distinct0 Hie He').
  - rewrite Eq, En. pose proof (calls_remove _ _ _ _ i e (id_distinct _ Hi) Hie Hc) as Hc'.
    rewrite Hpa in Hc'. rewrite <- insert_delete_eq. destruct Hc'. split.
    + intros e' He'. destruct (cl_entry0 e' He') as (q' & [Hne Hq']%lookup_delete_Some & Hs').
      exists q'. rewrite lookup_insert_ne, lookup_delete_ne; done.
    + intros c' q' j [[<- <-]|[_ Hq']]%lookup_insert_Some Hs'; [done|]. by eapply cl_waiting0.
    + intros c' q' j [[<- <-]|[Hne Hq']]%lookup_insert_Some Hs'.
      * injection Hs' as <-. split_and!; [rewrite <- Hid; by apply (id_queued _ Hi)|by rewrite lookup_insert_eq|].
        intros e' He'. rewrite <- Hid. by apply (delete_at_nodup pd_id _ _ _ _ (id_distinct _ Hi) Hie He').
      * rewrite lookup_insert_ne by done. by eapply cl_admitted0.
    + intros c' q' [[<- <-]|[Hne Hq']]%lookup_insert_Some Hs'; [by destruct (Hs' id)|].
      rewrite lookup_insert_ne by done. by eapply cl_cell0.
  - intros j. rewrite Erun, lookup_insert_is_Some, elem_of_union, elem_of_singleton, Hid, He.
    split; [intros [->|[_ ?]]; auto|]. intros [->|Hj]; [by left|]. destruct (decide (id = j)); auto.
  - intros c' q' [[<- <-]|[_ Hq']]%lookup_insert_Some; [|by eapply Hbo]. simpl. by eapply Hbo.
Qed.

Lemma leave_keeps a q w :
  acquires w !! a = Some q → invariant lim w → keeps w (step_leave a q w).
Proof.
  intros Hq [Hb Hl Hi Hc Hle He Hbo]. unfold step_leave.
  assert (∀ s', booked (λ p, attached_to p (leases w)) s' → requests s' = requests (st w) →
    running s' = running (st w) → next_id s' = next_id (st w) →
    (queued s' = queued (st w) ∨ ∃ i, queued s' = delete i (queued (st w))) →
    calls_ok (queued s') (next_id (st w)) (delete a (acquires w)) (cells w) →
    invariant lim (mkWorld s' (ctls w) (cells w) (leases w) (delete a (acquires w)) (execs w) (stopping w))) as Hdone.
  { intros s' Hb' Er Erun En Eq Hc'. split; simpl; rewrite ?Er, ?Erun, ?En; try done.
    - eapply limits_shrink; [done|by rewrite Er|done|done|by left].
    - eapply ids_shrink; [done|done|by rewrite Er|by rewrite Erun|done].
    - intros c' q' [_ Hq']%lookup_delete_Some. by eapply Hbo. }
  assert ((∀ id, aq_stage q ≠ Waiting id) →
    calls_ok (queued (st w)) (next_id (st w)) (delete a (acquires w)) (cells w)) as Hforget
    by (intros; by eapply calls_forget).
  destruct (aq_stage q) as [|id|id] eqn:Hst.
  - cbn [mbind outcome_bind]. eexists; split; [done|]. apply Hdone; auto; by apply Hforget.
  - destruct (drop_pending_ok _ id _ Hb) as (s' & -> & Hb' & Hs'). cbn [mbind outcome_bind].
    eexists; split; [done|]. destruct (cl_waiting _ _ _ _ Hc a q id Hq Hst) as (e & Hin & Hid & Hpa).
    destruct Hs' as [[-> Hno]|(i & e' & Hid' & Hie & Eq & Erun & Er & En & Ec & _)]; [by destruct (Hno e Hin)|].
    apply Hdone; auto; [right; by exists i|]. rewrite Eq.
    assert (e' = e) as ->.
    { apply (nodup_same pd_id _ _ _ (id_distinct _ Hi)); [by eapply list_elem_of_lookup_2|done|congruence]. }
    rewrite <- Hpa. by apply calls_remove; [apply (id_distinct _ Hi)|..].
  - destruct (drop_pending_ok _ id _ Hb) as (s' & -> & Hb' & Hs'). cbn [mbind outcome_bind].
    eexists; split; [done|]. destruct (cl_admitted _ _ _ _ Hc a q id Hq Hst) as (_ & _ & Hno).
    destruct Hs' as [[-> _]|(i & e' & Hid' & Hie & _)].
    + apply Hdone; auto; by apply Hforget.
    + exfalso. apply (Hno e'); [by eapply list_elem_of_lookup_2|done].
Qed.

Lemma drop_execution_keeps id w :
  id ∈ execs w → invariant lim w → keeps w (step_drop_execution id w).
Proof.
  intros Hid [Hb Hl Hi Hc Hle He Hbo]. unfold step_drop_execution.
  destruct (drop_execution_ok _ id _ Hb) as (s' & -> & Hb' & Erun & Eq & Er & En & Ec & _).
  cbn [mbind outcome_bind]. eexists; split; [done|]. split; simpl; rewrite ?Er, ?Eq, ?En; try done.
  - eapply limits_shrink; [done|by rewrite Er|done|by left|right; by exists id].
  - eapply ids_shrink; [done|done|by rewrite Er| |by left].
    intros j. rewrite Erun. by intros [_ ?]%lookup_delete_is_Some.
  - intros j. rewrite Erun, lookup_delete_is_Some, He, elem_of_difference, elem_of_singleton. naive_solver.
Qed.

(** Events that leave the coordinator's state and the calls alone. *)
Lemma world_keeps w w' :
  invariant lim w → projects (st w') = projects (st w) → queued (st w') = queued (st w) →
  running (st w') = running (st w) → requests (st w') = requests (st w) → next_id (st w') = next_id (st w) →
  leases w' = leases w → execs w' = execs w → acquires w' = acquires w →
  (∀ c a, acquires w !! c = Some a → is_Some (ctls w' !! aq_control a)) →
  (∀ c, cells w' !! c = cells w !! c ∨ (cells w !! c = Some PENDING ∧ cells w' !! c = Some STOPPED)) →
  invariant lim w'.
Proof.
  intros [Hb Hl Hi Hc Hle He Hbo] E1 E2 E3 E4 E5 E6 E7 E8 Hct Hce.
  split; rewrite ?E2, ?E3, ?E4, ?E5, ?E6, ?E7, ?E8; try done.
  - by apply (booked_state _ (st w)).
  - destruct Hl. by split; rewrite ?E2, ?E3, ?E4.
  - destruct Hi. by split; rewrite ?E2, ?E3, ?E4, ?E5.
  - destruct Hc. split; try done.
    + intros c a id Ha Hs. destruct (cl_admitted0 c a id Ha Hs) as (? & Hcc & ?).
      split_and!; [done| |done]. destruct (Hce c) as [->|[? _]]; congruence.
    + intros c a Ha Hs. specialize (cl_cell0 c a Ha Hs). destruct (Hce c) as [->|[? ?]]; auto.
Qed.

Lemma cancel_keeps r c w : invariant lim w → invariant lim (cancel r c w).
Proof.
  intros H. unfold cancel. destruct (ctls w !! c) as [[?|]|] eqn:E; [done| |done].
  eapply world_keeps; [exact H|done..| |by left]. intros c' a Ha. simpl.
  destruct (iv_borrow _ _ H c' a Ha) as [x Hx]. destruct (decide (c = aq_control a)) as [->|];
    [rewrite lookup_insert_eq|rewrite lookup_insert_ne]; eauto.
Qed.

Lemma step_keeps ev w o : step lim ev w = Some o → invariant lim w → keeps w o.
Proof using Hvalid.
  intros Hs H. destruct ev as [c|c r|c|c|id p|id|a p k c|a|a|a|a|id| |]; simpl in Hs.
  - case_decide as Hc; [|done]. injection Hs as <-. eexists; split; [done|].
    eapply world_keeps; [exact H|done..| |by left]. intros c' a Ha. simpl.
    destruct (iv_borrow _ _ H c' a Ha) as [x Hx]. rewrite lookup_insert_ne; [eauto|congruence].
  - destruct (alive w c); [|done]. injection Hs as <-. eexists; split; [done|]. by apply cancel_keeps.
  - case_decide as Hb; [done|]. injection Hs as <-. eexists; split; [done|].
    eapply world_keeps; [exact H|done..| |by left]. intros c' a Ha. simpl.
    destruct (iv_borrow _ _ H c' a Ha) as [x Hx]. rewrite lookup_delete_ne; [eauto|].
    intros ->. apply Hb. left. by exists c', a.
  - destruct (alive w c); [|done]. injection Hs as <-. by apply request_keeps.
  - destruct (leases w !! id) as [l|] eqn:E; [|done]. injection Hs as <-. by apply attach_keeps.
  - destruct (leases w !! id) as [l|] eqn:E; [|done]. injection Hs as <-. by apply drop_request_keeps.
  - destruct (alive w c) eqn:Ea; [|done]. case_bool_decide; [|done]. injection Hs as <-. by apply acquire_keeps.
  - destruct (acquires w !! a) as [q|] eqn:E; [|done]. simpl in Hs. destruct (check_control _ _); [done|].
    injection Hs as <-. eexists; split; [done|]. unfold callback. case_decide as Hp; [|done].
    eapply world_keeps; [exact H|done..|apply (iv_borrow _ _ H)|]. intros c'. simpl.
    destruct (decide (a = c')) as [->|]; [rewrite lookup_insert_eq; by right|rewrite lookup_insert_ne by done; by left].
  - destruct (acquires w !! a) as [q|] eqn:E; [|done]. simpl in Hs. case_decide; [|done].
    injection Hs as <-. by apply enqueue_keeps.
  - destruct (acquires w !! a) as [q|] eqn:E; [|done]. simpl in Hs.
    destruct (aq_stage q) as [|i|] eqn:Est; [done| |done]. injection Hs as <-. by apply poll_keeps.
  - destruct (acquires w !! a) as [q|] eqn:E; [|done]. injection Hs as <-. by apply leave_keeps.
  - case_decide; [|done]. injection Hs as <-. by apply drop_execution_keeps.
  - injection Hs as <-. eexists; split; [done|].
    eapply world_keeps; [exact H|done..|apply (iv_borrow _ _ H)|by left].
  - destruct (stopping w) as [|c cs]; [done|]. injection Hs as <-. eexists; split; [done|].
    apply cancel_keeps. eapply world_keeps; [exact H|done..|apply (iv_borrow _ _ H)|by left].
Qed.

Lemma reachable_world_invariant w : reachable lim w → invariant lim w.
Proof using Hvalid.
  induction 1 as [|ev w w' _ IH Hs]; [apply world_invariant_new|].
  destruct (step_keeps ev w _ Hs IH) as (? & [= <-] & ?). done.
Qed.
End events.

(** [WorkCoordinator::new]. *)
Definition coordinator_new (lim : WorkLimits) : AdmissionError + State :=
  match validate lim with Some e => inl e | None => inr state_default end.

Lemma coordinator_valid lim s : coordinator_new lim = inr s → validate lim = None.
Proof. unfold coordinator_new. by destruct (validate lim). Qed.

(** ** Properties *)

(** The books balance: in every interleaving, the record of a project holds
    exactly its attached requests, its queued entries and its running
    executions per class, and a project with none of them has no record. *)
Theorem work_books_balance lim s0 w :
  coordinator_new lim = inr s0 → reachable lim w →
  (∀ p, let c := counts_of (projects (st w)) p in
     pc_requests c = attached_to p (leases w)
     ∧ ∀ k, at_class (pc_queued c) k = queued_of p k (queued (st w))
            ∧ at_class (pc_running c) k = running_of p k (running (st w)))
  ∧ ∀ p c, projects (st w) !! p = Some c → c ≠ no_counts.
Proof.
  intros Hv%coordinator_valid H. destruct (reachable_world_invariant lim Hv w H) as [[] _ _ _ _ _ _].
  split; [|done]. intros p. simpl. auto.
Qed.

(** C1. The configured limits hold in every interleaving: requests, attached
    requests per project, and per class the queued and running work, in total
    and per project. *)
Theorem work_limits_hold lim s0 w :
  coordinator_new lim = inr s0 → reachable lim w → within_limits lim (leases w) (st w).
Proof. intros Hv%coordinator_valid H. by destruct (reachable_world_invariant lim Hv w H). Qed.

(** No thread panics: in every reachable world, no event meets a failed
    [expect], an out-of-range [remove] or an underflowing count. *)
Theorem work_never_panics lim s0 w ev :
  coordinator_new lim = inr s0 → reachable lim w → step lim ev w ≠ Some Panic.
Proof.
  intros Hv%coordinator_valid H Hp.
  by destruct (step_keeps lim Hv ev w _ Hp (reachable_world_invariant lim Hv w H)) as (? & ? & _).
Qed.

(** Nothing leaks: once callers hold no lease and no call is on the stack,
    the coordinator is back to no requests, no queue, no running work and no
    project records. *)
Theorem work_quiesces lim s0 w :
  coordinator_new lim = inr s0 → reachable lim w →
  leases w = ∅ → acquires w = ∅ → execs w = ∅ →
  requests (st w) = ∅ ∧ queued (st w) = [] ∧ running (st w) = ∅ ∧ projects (st w) = ∅.
Proof.
  intros Hv%coordinator_valid H El Ea Ee.
  destruct (reachable_world_invariant lim Hv w H) as [Hb Hl Hi Hc Hle He Hbo]. rewrite El, Ea, Ee in *.
  assert (requests (st w) = ∅) as Er.
  { apply map_empty. intros i. rewrite eq_None_not_Some, Hle, lookup_empty. by intros []. }
  assert (queued (st w) = []) as Eq.
  { destruct (queued (st w)) as [|e q]; [done|]. destruct (cl_entry _ _ _ _ Hc e) as (a & Ha & _); [by left|].
    by rewrite lookup_empty in Ha. }
  assert (running (st w) = ∅) as Erun.
  { apply map_empty. intros i. rewrite eq_None_not_Some, He. set_solver. }
  split_and!; try done. apply map_empty. intros p. destruct (projects (st w) !! p) as [c|] eqn:Ec; [|done].
  destruct Hb as [Br Bq Brun Bp]. exfalso. apply (Bp p c Ec).
  specialize (Br p). unfold counts_of in *. rewrite Ec in Br. simpl in Br.
  pose proof (λ k, Bq p k) as Bq'. pose proof (λ k, Brun p k) as Brun'.
  rewrite Eq in Bq'. rewrite Erun in Brun'. rewrite Ec in Bq', Brun'. simpl in Bq', Brun'.
  unfold attached_to in Br. rewrite map_filter_empty, map_size_empty in Br.
  unfold running_of in Brun'. setoid_rewrite map_filter_empty in Brun'.
  destruct c as [r [q0 q1 q2] [r0 r1 r2]]. unfold no_counts, all3.
  pose proof (Bq' Interactive). pose proof (Bq' Analysis). pose proof (Bq' Native).
  pose proof (Brun' Interactive). pose proof (Brun' Analysis). pose proof (Brun' Native).
  simpl in *. by subst.
Qed.

(** A short run: one call is queued, admitted and released. *)
Definition run_events (lim : WorkLimits) (evs : list Event) (w : World) : option World :=
  fold_left (λ ow ev, w ← ow; match step lim ev w with Some (Done w') => Some w' | _ => None end) evs (Some w).

Lemma run_events_none lim evs :
  fold_left (λ ow ev, w ← ow; match step lim ev w with Some (Done w') => Some w' | _ => None end) evs None = None.
Proof. induction evs; done. Qed.

Lemma run_events_reachable lim evs w w' :
  reachable lim w → run_events lim evs w = Some w' → reachable lim w'.
Proof.
  unfold run_events. revert w; induction evs as [|ev evs IH]; intros w H; simpl; [by intros [= <-]|].
  destruct (step lim ev w) as [[w1|]|] eqn:E; [|by rewrite run_events_none..].
  apply IH. by eapply reachable_step.
Qed.

Definition sample_events : list Event :=
  [ENewControl 1; ERequest 1; EAttach 1 (bs "p"); EAcquire 7 (bs "p") Analysis 1; EEnqueue 7;
   EAcquire 8 (bs "p") Analysis 1; EEnqueue 8; EPoll 7; ELeave 7].

Definition sample_world : World := default world_new (run_events limits_default sample_events world_new).

Lemma sample_reachable : reachable limits_default sample_world.
Proof.
  apply (run_events_reachable _ sample_events world_new); [constructor|]. vm_compute. reflexivity.
Qed.

Lemma work_books_balance_witness :
  pc_running (counts_of (projects (st sample_world)) (bs "p")) = mkVec3 0 1 0 ∧
  (∀ p, let c := counts_of (projects (st sample_world)) p in
     pc_requests c = attached_to p (leases sample_world)
     ∧ ∀ k, at_class (pc_queued c) k = queued_of p k (queued (st sample_world))
            ∧ at_class (pc_running c) k = running_of p k (running (st sample_world)))
  ∧ ∀ p c, projects (st sample_world) !! p = Some c → c ≠ no_counts.
Proof.
  split; [vm_compute; reflexivity|].
  exact (work_books_balance limits_default state_default sample_world eq_refl sample_reachable).
Defined.

Lemma work_limits_hold_witness :
  within_limits limits_default (leases sample_world) (st sample_world).
Proof. exact (work_limits_hold limits_default state_default sample_world eq_refl sample_reachable). Defined.

Lemma work_never_panics_witness : step limits_default (EDropExecution 2) sample_world ≠ Some Panic.
Proof. exact (work_never_panics limits_default state_default sample_world (EDropExecution 2) eq_refl sample_reachable). Defined.

Definition drained_world : World :=
  default world_new (run_events limits_default
    (sample_events ++ [EDropExecution 2; ELeave 8; EDropRequest 1]) world_new).

Lemma drained_reachable : reachable limits_default drained_world.
Proof.
  apply (run_events_reachable _ (sample_events ++ [EDropExecution 2; ELeave 8; EDropRequest 1]) world_new);
    [constructor|]. vm_compute. reflexivity.
Qed.

Lemma work_quiesces_witness :
  requests (st drained_world) = ∅ ∧ queued (st drained_world) = []
  ∧ running (st drained_world) = ∅ ∧ projects (st drained_world) = ∅.
Proof.
  apply (work_quiesces limits_default state_default drained_world eq_refl drained_reachable);
    vm_compute; reflexivity.
Defined.

(** [eligible] is fair and loses no capacity: it picks an entry of the class
    that may run, never one of the project last admitted while another project
    has an eligible entry, and no earlier eligible entry is passed over but for
    that rotation; it picks none only when the class is full or no entry of it
    may run. *)
Theorem eligible_fair cells alive s k l :
  let ok := entry_eligible cells alive s k l in
  match eligible cells alive s k l with
  | Some id =>
      running_count k (running s) < l_running l
      ∧ ∃ i e, queued s !! i = Some e ∧ pd_id e = id ∧ ok e = true
        ∧ (rotates s k e = false → ∀ e', e' ∈ queued s → ok e' = true → rotates s k e' = false)
        ∧ ∀ j e', j < i → queued s !! j = Some e' → ok e' = true →
            rotates s k e = true ∧ rotates s k e' = false
  | None => l_running l ≤ running_count k (running s) ∨ ∀ e, e ∈ queued s → ok e = false
  end.
Proof.
  intros ok. destruct (eligible cells alive s k l) as [id|] eqn:E.
  - apply eligible_iff in E as [Hr (i & e & Hid & H)]. split; [done|]. exists i, e.
    destruct H as [(Hi & He & Hj)|[(Hi & He & Hj) Hn]].
    + apply andb_true_iff in He as [He1 He2]. split_and!; [done|done|done|congruence|].
      intros j e' Hlt Hj' Hok. split; [done|]. specialize (Hj j e' Hlt Hj'). simpl in Hj. fold ok in Hj.
      by rewrite Hok in Hj.
    + split_and!; [done|done|done| |].
      * intros _ e' He' Hok. specialize (Hn e' He'). fold ok in Hn. by rewrite Hok in Hn.
      * intros j e' Hlt Hj' Hok. specialize (Hj j e' Hlt Hj'). fold ok in Hj. congruence.
  - unfold eligible in E. destruct (Nat.leb_spec (l_running l) (running_count k (running s))); [by left|right].
    destruct (List.find _ (List.filter _ _)); [done|].
    destruct (List.find (entry_eligible cells alive s k l) (queued s)) eqn:Ef; [done|]. by apply find_None_all.
Qed.

(** Waiting work is not stuck: when the coordinator is open and [eligible]
    names an entry, that entry is a call on the stack, and its next round admits
    it unless its own control has been stopped meanwhile. *)
Theorem eligible_call_admitted lim s0 w k id :
  coordinator_new lim = inr s0 → reachable lim w → closed (st w) = false →
  eligible (cells w) (alive w) (st w) k (lane lim k) = Some id →
  ∃ a q, acquires w !! a = Some q ∧ aq_stage q = Waiting id ∧ aq_class q = k
    ∧ (check_control w (aq_control q) = true →
       ∃ w', step lim (EPoll a) w = Some (Done w') ∧ execs w' = {[id]} ∪ execs w
         ∧ running (st w') !! id = Some (mkRunning (aq_project q) k (aq_control q))).
Proof.
  intros Hv%coordinator_valid H Hopen Hel. pose proof (reachable_world_invariant lim Hv w H) as Hi.
  pose proof (eligible_entry _ _ _ _ _ _ Hel) as (_ & i & e & Hei & Hid & Hee).
  pose proof (proj1 (entry_eligible_true _ _ _ _ _ _) Hee) as (Hk & _ & Hcell & _).
  assert (e ∈ queued (st w)) as Hin by (by eapply list_elem_of_lookup_2).
  destruct (cl_entry _ _ _ _ (iv_calls _ _ Hi) e Hin) as (q & Hq & Hst & Hcls & Hctl & Hprj).
  exists (pd_phase e), q. rewrite Hid in Hst. split_and!; [done|done|congruence|].
  intros Hch. simpl. rewrite Hq. simpl. rewrite Hst.
  destruct (poll_ok lim (pd_phase e) q id w Hq Hst Hi) as (r & Hr & Hadm).
  unfold step_poll. rewrite Hch, Hr. cbn [mbind outcome_bind].
  unfold poll in Hr. rewrite Hopen in Hr. rewrite Hcls, Hk in Hr. rewrite decide_True in Hr by done.
  rewrite decide_True in Hr by done. destruct (grant k id (st w)) as [s'|]; [|done]. injection Hr as <-.
  eexists; split; [done|]. simpl. split; [done|].
  destruct Hadm as (_ & _ & _ & i' & e' & Hid' & Hpa & _ & (Hie' & Hk' & _ & Erun & _) & _).
  rewrite Erun, <- Hid', lookup_insert_eq.
  assert (e' = e) as ->; [|congruence].
  apply (nodup_same pd_id (queued (st w))); [apply (id_distinct _ (iv_ids _ _ Hi))|by eapply list_elem_of_lookup_2|done|congruence].
Qed.

Lemma eligible_call_admitted_witness :
  ∃ a q, acquires (default world_new (run_events limits_default (sample_events ++ [EDropExecution 2]) world_new)) !! a = Some q
    ∧ aq_stage q = Waiting 3 ∧ aq_class q = Analysis.
Proof.
  set (w := default world_new (run_events limits_default (sample_events ++ [EDropExecution 2]) world_new)).
  destruct (eligible_call_admitted limits_default state_default w Analysis 3) as (a & q & H1 & H2 & H3 & _).
  - reflexivity.
  - apply (run_events_reachable _ (sample_events ++ [EDropExecution 2]) world_new); [constructor|].
    vm_compute. reflexivity.
  - vm_compute. reflexivity.
  - vm_compute. reflexivity.
  - by exists a, q.
Defined.

(** ** Shutdown *)

Lemma drop_pending_same id s s' :
  drop_pending id s = Done s' →
  closed s' = closed s ∧ running s' = running s ∧ requests s' = requests s ∧ queued s' `sublist_of` queued s.
Proof.
  unfold drop_pending. destruct (position id (queued s)) as [i|]; [|by intros [= <-]].
  unfold remove_at. destruct (queued s !! i); [|done]. cbn [of_option mbind outcome_bind].
  destruct (get_mut _ _ _); [|done]. cbn [mbind outcome_bind]. intros [= <-]. simpl.
  split_and!; try done. apply sublist_delete.
Qed.

Lemma drop_execution_same id s s' :
  drop_execution id s = Done s' →
  closed s' = closed s ∧ running s' ⊆ running s ∧ requests s' = requests s ∧ queued s' = queued s.
Proof.
  unfold drop_execution. destruct (running s !! id); [|by intros [= <-]].
  destruct (get_mut _ _ _); [|done]. cbn [mbind outcome_bind]. intros [= <-]. simpl.
  split_and!; try done. apply delete_subseteq.
Qed.

Lemma drop_request_same id lease s s' :
  drop_request id lease s = Done s' →
  closed s' = closed s ∧ running s' = running s ∧ requests s' ⊆ requests s ∧ queued s' = queued s.
Proof.
  unfold drop_request. destruct lease as [p|]; simpl.
  - destruct (get_mut _ _ _); [|done]. cbn [mbind outcome_bind]. intros [= <-]. simpl.
    split_and!; try done. apply delete_subseteq.
  - intros [= <-]. simpl. split_and!; try done. apply delete_subseteq.
Qed.

Lemma cancel_st r c w : st (cancel r c w) = st w.
Proof. unfold cancel. by destruct (ctls w !! c) as [[|]|]. Qed.

(** Shutdown is final: from a closed coordinator no event admits a request,
    queues a call or starts an execution; what is there only goes away. *)
Theorem shutdown_admits_nothing lim ev w w' :
  closed (st w) = true → step lim ev w = Some (Done w') →
  closed (st w') = true ∧ requests (st w') ⊆ requests (st w)
  ∧ queued (st w') `sublist_of` queued (st w) ∧ running (st w') ⊆ running (st w).
Proof.
  intros Hc Hs.
  assert (∀ x, st x = st w → closed (st x) = true ∧ requests (st x) ⊆ requests (st w)
    ∧ queued (st x) `sublist_of` queued (st w) ∧ running (st x) ⊆ running (st w)) as Hsame
    by (by intros x ->).
  destruct ev as [c|c r|c|c|id p|id|a p k c|a|a|a|a|id| |]; simpl in Hs.
  - case_decide; [|done]. injection Hs as <-. by apply Hsame.
  - destruct (alive w c); [|done]. injection Hs as <-. apply Hsame, cancel_st.
  - case_decide; [done|]. injection Hs as <-. by apply Hsame.
  - destruct (alive w c); [|done]. injection Hs as <-. unfold step_request, try_request. rewrite Hc.
    destruct (check_control w c); by apply Hsame.
  - destruct (leases w !! id) as [[l|]|]; [| |done]; injection Hs as <-; unfold step_attach, attach_project;
      rewrite ?Hc; by apply Hsame.
  - destruct (leases w !! id) as [l|]; [|done]. simpl in Hs. unfold step_drop_request in Hs.
    destruct (drop_request id l (st w)) as [s'|] eqn:E; [|done]. injection Hs as <-.
    apply drop_request_same in E as (E1 & E2 & E3 & E4). simpl. by rewrite E1, E2, E4.
  - destruct (_ && _); [|done]. injection Hs as <-. unfold step_acquire. by destruct (check_control w c); apply Hsame.
  - destruct (acquires w !! a) as [q|]; [|done]. simpl in Hs. destruct (check_control _ _); [done|].
    injection Hs as <-. unfold callback. case_decide; by apply Hsame.
  - destruct (acquires w !! a) as [q|]; [|done]. simpl in Hs. case_decide; [|done]. injection Hs as <-.
    unfold step_enqueue, enqueue. rewrite Hc. by apply Hsame.
  - destruct (acquires w !! a) as [q|]; [|done]. simpl in Hs. destruct (aq_stage q) as [|i|]; [done| |done].
    unfold step_poll in Hs. destruct (check_control _ _); [|injection Hs as <-; by apply Hsame].
    unfold poll in Hs. rewrite Hc in Hs. injection Hs as <-. by apply Hsame.
  - destruct (acquires w !! a) as [q|]; [|done]. simpl in Hs. unfold step_leave in Hs.
    destruct (aq_stage q) as [|i|i]; [injection Hs as <-; by apply Hsame| |].
    all: destruct (drop_pending i (st w)) as [s'|] eqn:E; [|done]; injection Hs as <-;
      apply drop_pending_same in E as (E1 & E2 & E3 & E4); simpl; by rewrite E1, E2, E3.
  - case_decide; [|done]. injection Hs as Hs. unfold step_drop_execution in Hs.
    destruct (drop_execution id (st w)) as [s'|] eqn:E; [|done]. injection Hs as <-.
    apply drop_execution_same in E as (E1 & E2 & E3 & E4). simpl. by rewrite E1, E3, E4.
  - injection Hs as <-. by split_and!.
  - destruct (stopping w); [done|]. injection Hs as <-. apply Hsame. by rewrite cancel_st.
Qed.

Lemma shutdown_admits_nothing_witness :
  let w := step_shutdown sample_world in
  queued (st w) ≠ [] ∧ running (st w) ≠ ∅ ∧ ∀ w', step limits_default (ELeave 8) w = Some (Done w') →
  closed (st w') = true ∧ requests (st w') ⊆ requests (st w)
  ∧ queued (st w') `sublist_of` queued (st w) ∧ running (st w') ⊆ running (st w).
Proof.
  intros w. split; [by vm_compute|]. split; [by vm_compute|]. intros w' Hs.
  exact (shutdown_admits_nothing limits_default (ELeave 8) w w' eq_refl Hs).
Defined.

Lemma stopped_cell_step lim ev x y a :
  step lim ev x = Some (Done y) → cells x !! a = Some STOPPED → cells y !! a = Some STOPPED.
Proof.
  intros Hs Hcell.
  destruct ev as [c|c r|c|c|i p|i|b p k c|b|b|b|b|i| |]; simpl in Hs.
  - case_decide; [|done]. by injection Hs as <-.
  - destruct (alive x c); [|done]. injection Hs as <-. unfold cancel. by destruct (ctls x !! c) as [[|]|].
  - case_decide; [done|]. by injection Hs as <-.
  - destruct (alive x c); [|done]. injection Hs as <-. unfold step_request.
    destruct (check_control x c); [|done]. by destruct (try_request lim c (st x)) as [[|] ?].
  - destruct (leases x !! i) as [l|]; [|done]. injection Hs as <-. unfold step_attach.
    by destruct (attach_project lim l p (st x)) as [? [? ?]].
  - destruct (leases x !! i) as [l|]; [|done]. simpl in Hs. unfold step_drop_request in Hs.
    destruct (drop_request i l (st x)); [|done]. by injection Hs as <-.
  - destruct (alive x c); [|done]. case_bool_decide as Hb; [|done]. injection Hs as <-.
    unfold step_acquire. destruct (check_control x c); [|done]. simpl.
    rewrite lookup_insert_ne; [done|congruence].
  - destruct (acquires x !! b) as [q'|]; [|done]. simpl in Hs. destruct (check_control _ _); [done|].
    injection Hs as <-. unfold callback. case_decide; [|done]. simpl.
    destruct (decide (b = a)) as [->|]; [by rewrite lookup_insert_eq|by rewrite lookup_insert_ne].
  - destruct (acquires x !! b) as [q'|]; [|done]. simpl in Hs. case_decide; [|done]. injection Hs as <-.
    unfold step_enqueue. by destruct (enqueue _ _ _ _ _ _) as [[|] ?].
  - destruct (acquires x !! b) as [q'|]; [|done]. simpl in Hs. destruct (aq_stage q') as [|j|]; [done| |done].
    unfold step_poll in Hs. destruct (check_control _ _); [|by injection Hs as <-].
    unfold poll in Hs. destruct (closed (st x)); [by injection Hs as <-|].
    case_decide; [|by injection Hs as <-]. case_decide; [|by injection Hs as <-].
    destruct (grant _ _ _); [|done]. injection Hs as <-. simpl. rewrite lookup_insert_ne; [done|congruence].
  - destruct (acquires x !! b) as [q'|]; [|done]. simpl in Hs. unfold step_leave in Hs.
    destruct (aq_stage q') as [|j|j]; [by injection Hs as <-| |];
      (destruct (drop_pending j (st x)); [|done]); by injection Hs as <-.
  - case_decide; [|done]. injection Hs as Hs. unfold step_drop_execution in Hs.
    destruct (drop_execution i (st x)); [|done]. by injection Hs as <-.
  - by injection Hs as <-.
  - destruct (stopping x) as [|c cs]; [done|]. injection Hs as <-. unfold cancel. simpl.
    by destruct (ctls x !! c) as [[|]|].
Qed.

(** A stopped call stays out: once the cancel callback has won a waiting
    call's phase cell, no later event of any thread admits that call. *)
Theorem stopped_call_not_admitted lim s0 w w' a q id :
  coordinator_new lim = inr s0 → reachable lim w → cells w !! a = Some STOPPED →
  rtc (λ x y, ∃ ev, step lim ev x = Some (Done y)) w w' →
  acquires w' !! a = Some q → aq_stage q ≠ Granted id.
Proof.
  intros Hv%coordinator_valid H Hcell Hr.
  assert (reachable lim w' ∧ cells w' !! a = Some STOPPED) as [H' Hcell'].
  { induction Hr as [|x y z [ev Hs] _ IH]; [done|]. apply IH; [by eapply reachable_step|]. clear IH.
    by eapply stopped_cell_step. }
  intros Hq Hst. destruct (cl_admitted _ _ _ _ (iv_calls _ _ (reachable_world_invariant lim Hv w' H')) a q id Hq Hst)
    as (_ & ? & _). congruence.
Qed.

Lemma stopped_call_not_admitted_witness :
  let w := default world_new (run_events limits_default (sample_events ++ [EStop 1 ClientCancelled; ECallback 8]) world_new) in
  ∃ q, acquires w !! 8%N = Some q ∧ aq_stage q ≠ Granted 3.
Proof.
  intros w. assert (acquires w !! 8%N = Some (mkAcquire (bs "p") Analysis 1 (Waiting 3))) as Hq by (vm_compute; reflexivity).
  eexists. split; [exact Hq|].
  apply (stopped_call_not_admitted limits_default state_default w w 8 _ 3 eq_refl); [| |constructor|exact Hq].
  - apply (run_events_reachable _ (sample_events ++ [EStop 1 ClientCancelled; ECallback 8]) world_new); [constructor|].
    vm_compute. reflexivity.
  - vm_compute. reflexivity.
Defined.
