(* ===== verification/Framing.v ===== *)
(** * Framing: size-limited JSONL frames

    Models [FrameReader] of [src/crates/cli/src/mcp/framing.rs].  The wrapped
    [BufReader] is its unconsumed buffer and the results its source will give,
    in order: bytes, not ready, or an error; after the last one it is at end of
    file.  [capacity] is what the code asked [reserve_exact] for. *)
From S2P Require Import Prelude Text.
From Stdlib Require Import Lia.
Local Open Scope codesage_scope.

Definition MAX_FRAME_BYTES : nat := 16 * 1024 * 1024.

Inductive Fill := Bytes (b : bytes) | NotReady | Failed.

Record BufReader := mkBuf { buffer : bytes; source : list Fill }.

Record FrameReader := mkReader {
  inner : BufReader;
  frame : bytes;
  offset : nat;
  ready : bool;
  ended : bool;
  limit : nat;
  capacity : nat;
}.

Definition with_limit (inner : BufReader) (limit : nat) : FrameReader :=
  mkReader inner [] 0 false false limit 0.

Definition new (inner : BufReader) : FrameReader := with_limit inner MAX_FRAME_BYTES.

Inductive IoError := Source | OversizedFrame.

Inductive Poll (A : Type) := Pending | ReadyErr (e : IoError) | ReadyOk (a : A).
Arguments Pending {A}.
Arguments ReadyErr {A}.
Arguments ReadyOk {A}.

(** [poll_fill_buf]: the buffer, refilled when empty; empty at end of file. *)
Definition poll_fill_buf (r : BufReader) : Poll bytes * BufReader :=
  match buffer r with
  | [] =>
      match source r with
      | [] => (ReadyOk [], r)
      | Bytes b :: src => (ReadyOk b, mkBuf b src)
      | NotReady :: src => (Pending, mkBuf [] src)
      | Failed :: src => (ReadyErr Source, mkBuf [] src)
      end
  | b => (ReadyOk b, r)
  end.

Definition consume (n : nat) (r : BufReader) : BufReader := mkBuf (drop n (buffer r)) (source r).

(** [this.ended = true; this.frame.clear()]. *)
Definition fail (inner : BufReader) (this : FrameReader) : FrameReader :=
  mkReader inner [] (offset this) (ready this) true (limit this) (capacity this).

Definition grow (needed : nat) (this : FrameReader) : outcome nat :=
  if capacity this <? needed then
    let capacity' := min (max needed (capacity this * 2)) (limit this + 1) in
    additional ← usize_sub capacity' (length (frame this));
    Done (length (frame this) + additional)
  else Done (capacity this).

(** One round of the loop that completes a frame; [None] when the loop goes on
    or is over. *)
Definition fill_round (this : FrameReader) : outcome (option (Poll ()) * FrameReader) :=
  let '(polled, inner) := poll_fill_buf (inner this) in
  match polled with
  | Pending => Done (Some Pending, mkReader inner (frame this) (offset this) (ready this) (ended this) (limit this) (capacity this))
  | ReadyErr e => Done (Some (ReadyErr e), fail inner this)
  | ReadyOk [] =>
      Done (None, mkReader inner (frame this) (offset this) (negb (bytes_eqb (frame this) [])) true (limit this) (capacity this))
  | ReadyOk available =>
      let newline := find_byte LF available in
      let payload := default (length available) newline in
      room ← usize_sub (limit this) (length (frame this));
      if room <? payload then Done (Some (ReadyErr OversizedFrame), fail inner this)
      else
        let consumed := payload + match newline with Some _ => 1 | None => 0 end in
        capacity' ← grow (length (frame this) + consumed) this;
        taken ← slice_get 0 consumed available;
        Done (None, mkReader (consume consumed inner) (frame this ++ taken) (offset this)
                      (match newline with Some _ => true | None => false end) (ended this)
                      (limit this) capacity')
  end.

Fixpoint fill_loop (fuel : nat) (this : FrameReader) : outcome (option (Poll ()) * FrameReader) :=
  match fuel with
  | 0 => Done (Some Pending, this)
  | S fuel =>
      if negb (ready this) && negb (ended this) then
        '(r, this) ← fill_round this;
        match r with
        | Some p => Done (Some p, this)
        | None => fill_loop fuel this
        end
      else Done (None, this)
  end.

(** Every round takes the buffer or one result of the source, or ends. *)
Definition fill_fuel (r : BufReader) : nat := length (source r) + 3.

Definition deliver (remaining : nat) (this : FrameReader) : outcome (bytes * FrameReader) :=
  if ready this then
    left ← usize_sub (length (frame this)) (offset this);
    let count := min remaining left in
    out ← slice_get (offset this) (offset this + count) (frame this);
    let offset' := offset this + count in
    Done (out, if Nat.eqb offset' (length (frame this))
               then mkReader (inner this) [] 0 false (ended this) (limit this) (capacity this)
               else mkReader (inner this) (frame this) offset' (ready this) (ended this) (limit this) (capacity this))
  else Done ([], this).

(** [poll_read] into a buffer with [remaining] bytes of room. *)
Definition poll_read (remaining : nat) (this : FrameReader) : outcome (Poll bytes * FrameReader) :=
  if Nat.eqb remaining 0 then Done (ReadyOk [], this)
  else
    '(r, this) ← fill_loop (fill_fuel (inner this)) this;
    match r with
    | Some Pending => Done (Pending, this)
    | Some (ReadyErr e) => Done (ReadyErr e, this)
    | Some (ReadyOk _) | None => '(out, this) ← deliver remaining this; Done (ReadyOk out, this)
    end.

(** ** What a reader delivers *)

(** The bytes the source will still give, up to an error. *)
Fixpoint source_bytes (src : list Fill) : bytes :=
  match src with
  | [] => []
  | Bytes b :: src => b ++ source_bytes src
  | NotReady :: src => source_bytes src
  | Failed :: _ => []
  end.

Definition input_left (r : BufReader) : bytes := buffer r ++ source_bytes (source r).

(** A real source never gives zero bytes before its end. *)
Definition source_ok (src : list Fill) : Prop := Forall (λ f, f ≠ Bytes []) src.

(** Complete frames: nothing, or text that ends in a line feed. *)
Definition whole_frames (s : bytes) : Prop := s = [] ∨ ∃ s', s = s' ++ [LF].

(** No run of [limit + 1] bytes of [s] is without a line feed. *)
Definition frames_within (limit : nat) (s : bytes) : Prop :=
  ∀ a line b, s = a ++ line ++ b → LF ∉ line → length line ≤ limit.

(** [d] has been delivered, [used] consumed from the input. *)
Record reading (used d : bytes) (this : FrameReader) : Prop := {
  rd_used : used = d ++ drop (offset this) (frame this);
  rd_offset : offset this ≤ length (frame this);
  rd_left : ready this = true → offset this < length (frame this);
  rd_open : ready this = false → offset this = 0 ∧ (LF ∉ frame this) ∧ length (frame this) ≤ limit this
              ∧ (ended this = false → whole_frames d);
  rd_within : frames_within (limit this) used;
  rd_ready : ready this = true → ended this = false → whole_frames used;
  rd_source : source_ok (source (inner this));
  rd_ended : ended this = true → ready this = false → frame this = [];
  rd_capacity : capacity this ≤ limit this + 1 ∧ length (frame this) ≤ limit this + 1;
}.

Lemma frames_within_nil limit : frames_within limit [].
Proof. intros a line b E _. symmetry in E. apply app_eq_nil in E as [_ E]. apply app_eq_nil in E as [-> _]. simpl. lia. Qed.

(** A line added after whole frames. *)
Lemma frames_within_app limit s t :
  whole_frames s → frames_within limit s → LF ∉ t → length t ≤ limit → frames_within limit (s ++ t).
Proof.
  intros Hw Hs Ht Hl a line b E Hlf.
  destruct Hw as [->|[s' ->]].
  - simpl in E. subst t. rewrite !length_app in Hl. lia.
  - destruct (decide (length (s' ++ [LF]) ≤ length a)) as [Hge|Hlt].
    + apply (f_equal (drop (length (s' ++ [LF])))) in E. rewrite drop_app_length, drop_app_le in E by done.
      subst t. rewrite !length_app in Hl. lia.
    + destruct (decide (length a + length line < length (s' ++ [LF]))) as [Hin|Hout].
      * apply (Hs a line (drop (length a + length line) (s' ++ [LF]))); [|done].
        rewrite <- (take_drop (length a + length line) (s' ++ [LF])) at 1.
        rewrite app_assoc. f_equal. apply (f_equal (take (length a + length line))) in E.
        rewrite take_app_le in E by lia. rewrite E, app_assoc, take_app_length'; [done|]. by rewrite length_app.
      * exfalso. apply Hlf.
        assert ((a ++ line ++ b) !! length s' = Some LF) as Hlook.
        { rewrite <- E, <- app_assoc, lookup_app_r, Nat.sub_diag by done. done. }
        rewrite length_app in *. simpl in *. rewrite lookup_app_r in Hlook by lia.
        rewrite lookup_app_l in Hlook by lia. by eapply list_elem_of_lookup_2.
Qed.

Lemma frames_within_snoc limit s : frames_within limit s → frames_within limit (s ++ [LF]).
Proof.
  intros Hs a line b E Hlf. destruct b as [|x b _] using rev_ind.
  - rewrite app_nil_r in E. destruct line as [|y line _] using rev_ind; [simpl; lia|].
    exfalso. rewrite app_assoc in E. apply app_inj_tail in E as [_ <-]. apply Hlf. apply elem_of_app. right. by left.
  - rewrite !app_assoc in E. apply app_inj_tail in E as [E _]. apply (Hs a line b); [|done]. by rewrite <- app_assoc in E.
Qed.

Lemma whole_frames_app s t : whole_frames (s ++ t ++ [LF]).
Proof. right. exists (s ++ t). by rewrite <- app_assoc. Qed.

Lemma grow_ok needed this :
  length (frame this) ≤ needed → length (frame this) ≤ limit this + 1 → needed ≤ limit this + 1 →
  capacity this ≤ limit this + 1 →
  ∃ c, grow needed this = Done c ∧ c ≤ limit this + 1.
Proof.
  intros H1 H2 H3 H4. unfold grow. destruct (Nat.ltb_spec (capacity this) needed); [|by eexists].
  unfold usize_sub. rewrite (proj2 (Nat.leb_le _ _)) by lia. cbn [mbind outcome_bind]. eexists; split; [done|]. lia.
Qed.

Definition rounds_left (this : FrameReader) : nat :=
  if ready this || ended this then 0
  else length (source (inner this)) + (match buffer (inner this) with [] => 0 | _ => 1 end) + 1.

(** A line longer than the limit starts [s]. *)
Definition oversized (limit : nat) (s : bytes) : Prop :=
  ∃ line b, s = line ++ b ∧ (LF ∉ line) ∧ limit < length line.

Definition round_post (used d : bytes) (this : FrameReader) (r : option (Poll ())) (this' : FrameReader) : Prop :=
  limit this' = limit this ∧
  match r with
  | None =>
      rounds_left this' < rounds_left this ∧ ∃ used', reading used' d this'
        ∧ used ++ input_left (inner this) = used' ++ input_left (inner this')
        ∧ (ended this' = true → input_left (inner this') = [])
  | Some Pending =>
      reading used d this' ∧ ended this' = false ∧ input_left (inner this) = input_left (inner this')
  | Some (ReadyOk _) => False
  | Some (ReadyErr e) =>
      whole_frames d ∧ used = d ++ frame this
      ∧ (e = OversizedFrame → oversized (limit this) (frame this ++ input_left (inner this)))
  end.

(** A round with bytes at hand. *)
Lemma bytes_round used d this available inner' :
  reading used d this → ready this = false → ended this = false → available ≠ [] →
  input_left (inner this) = available ++ source_bytes (source inner') → buffer inner' = available →
  source_ok (source inner') →
  length (source inner') + 1 < rounds_left this →
  ∃ r this', (room ← usize_sub (limit this) (length (frame this));
      let newline := find_byte LF available in
      let payload := default (length available) newline in
      if room <? payload then Done (Some (ReadyErr OversizedFrame), fail inner' this)
      else
        let consumed := payload + match newline with Some _ => 1 | None => 0 end in
        capacity' ← grow (length (frame this) + consumed) this;
        taken ← slice_get 0 consumed available;
        Done (None, mkReader (consume consumed inner') (frame this ++ taken) (offset this)
                      (match newline with Some _ => true | None => false end) (ended this)
                      (limit this) capacity')) = Done (r, this') ∧ round_post used d this r this'.
Proof.
  intros [] Hr He Hne Hin Hbuf Hsrc Hleft. destruct (rd_open0 Hr) as (Ho & Hlf & Hlen & Hw).
  specialize (Hw He). rewrite Ho, drop_0 in rd_used0.
  unfold usize_sub. rewrite (proj2 (Nat.leb_le _ _) Hlen). cbn [mbind outcome_bind].
  cbv zeta. destruct (find_byte LF available) as [n|] eqn:En; cbn [default from_option]; unfold id.
  - destruct (find_byte_split _ _ _ En) as [Hnl Hd]. pose proof (find_byte_bound _ _ _ En) as Hn.
    destruct (Nat.ltb_spec (limit this - length (frame this)) n) as [Hbig|Hfit].
    + eexists _, _. split; [done|]. split; [done|]. split_and!; [done|done|]. intros _.
      exists (frame this ++ take n available), (drop n available ++ source_bytes (source inner')).
      split_and!; [by rewrite <- app_assoc, Hin, (app_assoc (take n available)), take_drop|by apply not_elem_of_app|].
      rewrite length_app, length_take. lia.
    + destruct (grow_ok (length (frame this) + (n + 1)) this) as (c & -> & Hc); [lia..|tauto|].
      cbn [mbind outcome_bind]. rewrite slice_get_Done by lia. cbn [mbind outcome_bind].
      eexists _, _. split; [done|]. split; [done|].
      assert (slice 0 (n + 1) available = take n available ++ [LF]) as ->.
      { unfold slice. rewrite drop_0, Nat.sub_0_r, <- (take_drop n available) at 1.
        rewrite Hd, take_app_ge by (rewrite length_take; lia). rewrite length_take, Nat.min_l by lia.
        by replace (n + 1 - n) with 1 by lia. }
      unfold rounds_left in *. rewrite Hr, He in *. cbn [ready ended orb]. split; [lia|].
      exists (used ++ take n available ++ [LF]). split_and!.
      * split; simpl; try done.
        -- by rewrite Ho, drop_0, rd_used0, <- app_assoc.
        -- lia.
        -- rewrite !length_app. simpl. lia.
        -- rewrite app_assoc. apply frames_within_snoc. rewrite rd_used0, <- app_assoc.
           apply frames_within_app; [done| |by apply not_elem_of_app|rewrite length_app, length_take; lia].
           intros a line b E. apply (rd_within0 a line (b ++ frame this)). by rewrite rd_used0, E, <- !app_assoc.
        -- intros _ _. apply whole_frames_app.
        -- split; [done|]. rewrite !length_app, length_take. simpl. lia.
      * rewrite Hin. unfold consume, input_left. simpl. rewrite Hbuf, <- !app_assoc. do 1 f_equal.
        rewrite <- (take_drop n available) at 1. rewrite Hd, <- app_assoc. simpl. do 2 f_equal.
        by replace (n + 1) with (S n) by lia.
      * done.
  - apply find_byte_none in En.
    destruct (Nat.ltb_spec (limit this - length (frame this)) (length available)) as [Hbig|Hfit].
    + eexists _, _. split; [done|]. split; [done|]. split_and!; [done|done|]. intros _.
      exists (frame this ++ available), (source_bytes (source inner')).
      split_and!; [by rewrite <- app_assoc, Hin|by apply not_elem_of_app|rewrite length_app; lia].
    + rewrite Nat.add_0_r.
      destruct (grow_ok (length (frame this) + length available) this) as (c & -> & Hc); [lia..|tauto|].
      cbn [mbind outcome_bind]. rewrite slice_get_Done by lia. cbn [mbind outcome_bind]. rewrite slice_full.
      eexists _, _. split; [done|]. split; [done|]. unfold consume. rewrite Hbuf, drop_all.
      unfold rounds_left in *. simpl. rewrite Hr, He in *. simpl. split; [simpl in Hleft; lia|].
      exists (used ++ available). split_and!.
      * split; simpl; try done.
        -- by rewrite Ho, drop_0, rd_used0, <- app_assoc.
        -- lia.
        -- intros _. split_and!; [done|by apply not_elem_of_app|rewrite length_app; lia|done].
        -- rewrite rd_used0, <- app_assoc.
           apply frames_within_app; [done| |by apply not_elem_of_app|rewrite length_app; lia].
           intros a line b E. apply (rd_within0 a line (b ++ frame this)). by rewrite rd_used0, E, <- !app_assoc.
        -- split; [done|]. rewrite length_app. lia.
      * rewrite Hin. unfold input_left. simpl. by rewrite <- app_assoc.
      * done.
Qed.

Lemma reading_same used d this this' :
  frame this' = frame this → offset this' = offset this → ready this' = ready this →
  ended this' = ended this → limit this' = limit this → capacity this' = capacity this →
  source_ok (source (inner this')) → reading used d this → reading used d this'.
Proof.
  intros E1 E2 E3 E4 E5 E6 Hs []. split; rewrite ?E1, ?E2, ?E3, ?E4, ?E5, ?E6; done.
Qed.

Lemma fill_round_ok used d this :
  reading used d this → ready this = false → ended this = false →
  ∃ r this', fill_round this = Done (r, this') ∧ round_post used d this r this'.
Proof.
  intros Hrd Hr He. unfold fill_round, poll_fill_buf.
  assert (∀ src, source_ok (source (inner this)) → source (inner this) = src → source_ok src) as Hok by (by intros ? ? <-).
  pose proof (rd_source _ _ _ Hrd) as Hsrc. pose proof (rd_open _ _ _ Hrd Hr) as (Ho & Hlf & Hlen & Hw).
  assert (rounds_left this = length (source (inner this)) + (match buffer (inner this) with [] => 0 | _ => 1 end) + 1) as Hm
    by (unfold rounds_left; by rewrite Hr, He).
  destruct (buffer (inner this)) as [|x buf] eqn:Eb.
  2:{ apply (bytes_round used d); [done..|by rewrite <- Eb|done|done|]. rewrite Hm. lia. }
  destruct (source (inner this)) as [|[b| |] src] eqn:Es.
  - eexists _, _. split; [done|]. split; [done|]. unfold rounds_left at 1. cbn [ready ended]. rewrite orb_true_r, Hm.
    split; [lia|]. exists used. split_and!; [|done|].
    + pose proof Hrd as []. split; simpl; try done.
      * intros Hf. rewrite Ho. destruct (frame this); [done|simpl; lia].
      * intros _. by destruct (bytes_eqb_spec (frame this) []).
    + intros _. unfold input_left. simpl. by rewrite Eb, Es.
  - inversion Hsrc as [|? ? Hb Hs']; subst. destruct b as [|x b]; [done|].
    apply (bytes_round used d); [done|done|done|done| |done|done|].
    + unfold input_left. by rewrite Eb, Es.
    + rewrite Hm. simpl. lia.
  - eexists _, _. split; [done|]. split; [done|]. inversion Hsrc; subst. split_and!; [|done|].
    + by apply (reading_same used d this).
    + unfold input_left. by rewrite Eb, Es.
  - eexists _, _. split; [done|]. split; [done|]. split_and!; [by apply Hw| |done].
    pose proof (rd_used _ _ _ Hrd) as E. by rewrite Ho, drop_0 in E.
Qed.

Definition fill_post (used d : bytes) (this : FrameReader) (r : option (Poll ())) (this' : FrameReader) : Prop :=
  limit this' = limit this ∧
  match r with
  | None => ∃ used', used ++ input_left (inner this) = used' ++ input_left (inner this')
      ∧ reading used' d this' ∧ (ready this' = true ∨ ended this' = true)
      ∧ (ended this' = true → input_left (inner this') = [])
  | Some Pending => ∃ used', used ++ input_left (inner this) = used' ++ input_left (inner this')
      ∧ reading used' d this' ∧ ended this' = false
  | Some (ReadyErr e) => whole_frames d ∧ ∃ rest, used ++ input_left (inner this) = d ++ rest
      ∧ (e = OversizedFrame → oversized (limit this) rest)
  | Some (ReadyOk _) => False
  end.

Lemma fill_loop_ok fuel used d this :
  reading used d this → rounds_left this < fuel →
  (ended this = true → input_left (inner this) = []) →
  ∃ r this', fill_loop fuel this = Done (r, this') ∧ fill_post used d this r this'.
Proof.
  revert used this; induction fuel as [|fuel IH]; intros used this Hrd Hf Hend; [lia|]. cbn [fill_loop].
  destruct (negb (ready this) && negb (ended this)) eqn:Eg.
  - apply andb_true_iff in Eg as [Hr%negb_true_iff He%negb_true_iff].
    destruct (fill_round_ok used d this Hrd Hr He) as (r & this1 & -> & Hlim & Hpost).
    cbn [mbind outcome_bind]. destruct r as [[|e|p]|]; [..|done|].
    + destruct Hpost as (Hrd1 & He1 & Hin). eexists _, _. split; [done|]. split; [done|].
      exists used. by rewrite Hin.
    + destruct Hpost as (Hw & Hu & Hov). eexists _, _. split; [done|]. split; [done|]. split; [done|].
      exists (frame this ++ input_left (inner this)). split; [by rewrite Hu, <- app_assoc|done].
    + destruct Hpost as (Hm & used1 & Hrd1 & Hin & Hend1).
      destruct (IH used1 this1 Hrd1) as (r & this' & -> & H); [lia|done|].
      exists r, this'. split; [done|]. unfold fill_post in *. by rewrite Hin, <- Hlim.
  - eexists _, _. split; [done|]. split; [done|]. exists used. split_and!; try done.
    destruct (ready this), (ended this); auto.
Qed.

Lemma fill_fuel_enough this : rounds_left this < fill_fuel (inner this).
Proof.
  unfold rounds_left, fill_fuel. destruct (_ || _); [lia|]. destruct (buffer (inner this)); lia.
Qed.

Lemma deliver_ok remaining used d this :
  reading used d this → 0 < remaining →
  ∃ out this', deliver remaining this = Done (out, this') ∧ reading used (d ++ out) this'
    ∧ inner this' = inner this ∧ ended this' = ended this ∧ limit this' = limit this
    ∧ (out = [] → ready this = false).
Proof.
  intros Hrd Hrem. unfold deliver. destruct (ready this) eqn:Er.
  2:{ eexists _, _. split; [done|]. by rewrite app_nil_r. }
  pose proof Hrd as []. specialize (rd_left0 Er). unfold usize_sub. rewrite (proj2 (Nat.leb_le _ _)) by done.
  cbn [mbind outcome_bind]. set (n := min remaining (length (frame this) - offset this)).
  rewrite slice_get_Done by lia. cbn [mbind outcome_bind].
  assert (length (slice (offset this) (offset this + n) (frame this)) = n) as Hn
    by (rewrite length_slice_in; lia).
  assert (d ++ slice (offset this) (offset this + n) (frame this) ++ drop (offset this + n) (frame this) = used) as Hu.
  { rewrite rd_used0. f_equal. rewrite <- (take_drop n (drop (offset this) (frame this))), drop_drop.
    unfold slice. do 2 f_equal. lia. }
  assert (slice (offset this) (offset this + n) (frame this) = [] → true = false) as Hne.
  { intros E. rewrite E in Hn. simpl in Hn. lia. }
  destruct (Nat.eqb_spec (offset this + n) (length (frame this))) as [E|E].
  - eexists _, _. split; [done|]. split_and!; try done. rewrite drop_ge, app_nil_r in Hu by lia.
    split; simpl; try done; try lia.
    + by rewrite app_nil_r, Hu.
    + intros _. split_and!; [done|apply not_elem_of_nil|lia|]. intros He. rewrite Hu. by apply rd_ready0.
  - eexists _, _. split; [done|]. split_and!; try done.
    split; simpl; try done; try lia.
    1: by rewrite <- app_assoc, Hu.
    all: intros; try congruence; by apply rd_ready0.
Qed.

(** The state between two polls: what is delivered, buffered and left to read
    make up the input. *)
Definition tracks (input d : bytes) (this : FrameReader) : Prop :=
  ∃ used, reading used d this ∧ input = used ++ input_left (inner this)
    ∧ (ended this = true → input_left (inner this) = []).

Lemma poll_read_ok remaining input d this :
  tracks input d this →
  ∃ p this', poll_read remaining this = Done (p, this') ∧ limit this' = limit this ∧
  match p with
  | Pending => tracks input d this'
  | ReadyOk out => tracks input (d ++ out) this' ∧ (out = [] → 0 < remaining → input = d)
  | ReadyErr e => whole_frames d ∧ ∃ rest, input = d ++ rest ∧ (e = OversizedFrame → oversized (limit this) rest)
  end.
Proof.
  intros (used & Hrd & Hin & Hend). unfold poll_read. destruct (Nat.eqb_spec remaining 0) as [->|Hrem].
  { eexists _, _. split; [done|]. split; [done|]. rewrite app_nil_r. split; [by exists used|lia]. }
  destruct (fill_loop_ok (fill_fuel (inner this)) used d this Hrd (fill_fuel_enough this) Hend)
    as (r & this1 & -> & Hlim & Hpost).
  cbn [mbind outcome_bind]. destruct r as [[|e|p]|]; [| |done|].
  - destruct Hpost as (used1 & E & Hrd1 & He1). eexists _, _. split; [done|]. split; [done|].
    exists used1. split_and!; [done|by rewrite Hin, E|]. congruence.
  - destruct Hpost as (Hw & rest & E & Hov). eexists _, _. split; [done|]. split; [done|]. split; [done|].
    exists rest. by rewrite Hin.
  - destruct Hpost as (used1 & E & Hrd1 & Hre & Hend1).
    destruct (deliver_ok remaining used1 d this1 Hrd1) as (out & this2 & -> & Hrd2 & E1 & E2 & E3 & Hout); [lia|].
    cbn [mbind outcome_bind]. eexists _, _. split; [done|]. split; [congruence|]. split.
    + exists used1. rewrite E1, E2. split_and!; [done|by rewrite Hin, E|done].
    + intros Hnil _. specialize (Hout Hnil). destruct Hre as [?|He]; [congruence|].
      pose proof (rd_used _ _ _ Hrd1) as Hu. rewrite (rd_ended _ _ _ Hrd1 He Hout), drop_nil, app_nil_r in Hu.
      by rewrite Hin, E, (Hend1 He), app_nil_r.
Qed.

(** A caller polling with buffers of the given sizes until an error. *)
Fixpoint drive (sizes : list nat) (this : FrameReader) : outcome (bytes * option IoError * FrameReader) :=
  match sizes with
  | [] => Done ([], None, this)
  | n :: sizes =>
      '(p, this) ← poll_read n this;
      match p with
      | Pending => drive sizes this
      | ReadyErr e => Done ([], Some e, this)
      | ReadyOk out => '(rest, e, this) ← drive sizes this; Done (out ++ rest, e, this)
      end
  end.

Lemma drive_ok sizes input d this :
  tracks input d this →
  ∃ out e this', drive sizes this = Done (out, e, this') ∧ limit this' = limit this ∧
  match e with
  | None => tracks input (d ++ out) this'
  | Some e => whole_frames (d ++ out)
      ∧ ∃ rest, input = (d ++ out) ++ rest ∧ (e = OversizedFrame → oversized (limit this) rest)
  end.
Proof.
  revert d this; induction sizes as [|n sizes IH]; intros d this Ht; cbn [drive].
  { eexists _, _, _. split; [done|]. split; [done|]. by rewrite app_nil_r. }
  destruct (poll_read_ok n input d this Ht) as (p & this1 & -> & Hlim & Hp). cbn [mbind outcome_bind].
  destruct p as [|e|out].
  - destruct (IH d this1 Hp) as (out & e & this' & -> & Hl & H). eexists _, _, _. split; [done|].
    rewrite Hlim in *. done.
  - eexists _, _, _. split; [done|]. split; [done|]. rewrite app_nil_r. done.
  - destruct Hp as [Hp _]. destruct (IH (d ++ out) this1 Hp) as (out' & e & this' & -> & Hl & H).
    cbn [mbind outcome_bind]. eexists _, _, _. split; [done|]. rewrite Hlim in *. by rewrite app_assoc.
Qed.

Lemma tracks_new src limit : source_ok src → tracks (source_bytes src) [] (with_limit (mkBuf [] src) limit).
Proof.
  intros Hs. exists []. split_and!; [|done|done]. split; simpl; try done; try lia.
  - intros _. split_and!; [done|apply not_elem_of_nil|lia|]. by left.
  - apply frames_within_nil.
Qed.

Lemma frames_within_prefix limit s t : frames_within limit (s ++ t) → frames_within limit s.
Proof. intros H a line b E. apply (H a line (b ++ t)). by rewrite E, <- !app_assoc. Qed.

(** C37. However the source splits its bytes and whatever buffers the caller
    polls with, the reader never panics, delivers a prefix of the input with no
    frame over the limit, keeps its buffer within [limit + 1], and reports an
    oversized frame only after delivering exactly the whole frames before one
    that is really longer than the limit. *)
Theorem framing_faithful src limit0 sizes :
  source_ok src →
  ∃ d e this, drive sizes (with_limit (mkBuf [] src) limit0) = Done (d, e, this)
    ∧ ∃ rest, source_bytes src = d ++ rest
    ∧ match e with
      | None => frames_within limit0 d ∧ capacity this ≤ limit0 + 1
      | Some e => whole_frames d ∧ (e = OversizedFrame → oversized limit0 rest)
      end.
Proof.
  intros Hs. destruct (drive_ok sizes _ [] _ (tracks_new src limit0 Hs)) as (d & e & this & E & Hl & H).
  exists d, e, this. split; [done|]. destruct e as [e|].
  - destruct H as (Hw & rest & Hin & Hov). by exists rest.
  - destruct H as (used & Hrd & Hin & _). simpl in Hl, Hrd, Hin. pose proof Hrd as [].
    exists (drop (offset this) (frame this) ++ input_left (inner this)).
    split; [by rewrite Hin, rd_used0, <- app_assoc|]. rewrite Hl in *. split; [|tauto].
    rewrite rd_used0 in rd_within0. by apply frames_within_prefix in rd_within0.
Qed.

Definition two_frames : list Fill :=
  [Bytes (bs "ab"); NotReady; Bytes (bs "cd" ++ [LF] ++ bs "e"); Bytes (bs "fghij" ++ [LF])].

Lemma framing_faithful_witness :
  ∃ d e this, drive [3; 3; 3; 3] (with_limit (mkBuf [] two_frames) 4) = Done (d, e, this)
    ∧ ∃ rest, source_bytes two_frames = d ++ rest
    ∧ match e with
      | None => frames_within 4 d ∧ capacity this ≤ 4 + 1
      | Some e => whole_frames d ∧ (e = OversizedFrame → oversized 4 rest)
      end.
Proof. apply (framing_faithful two_frames 4 [3; 3; 3; 3]). unfold two_frames, source_ok. by repeat constructor. Defined.

(** End of file means everything was delivered: a poll with room that
    returns no bytes is only made after the whole input went out, an unfinished
    last line included. *)
Theorem framing_end_complete src limit0 sizes d this n this' :
  source_ok src → drive sizes (with_limit (mkBuf [] src) limit0) = Done (d, None, this) →
  0 < n → poll_read n this = Done (ReadyOk [], this') → d = source_bytes src.
Proof.
  intros Hs Hd Hn Hp. destruct (drive_ok sizes _ [] _ (tracks_new src limit0 Hs)) as (d' & e & t & E & _ & H).
  rewrite Hd in E. injection E as <- <- <-. destruct (poll_read_ok n _ _ _ H) as (p & t' & E & _ & Hpost).
  rewrite Hp in E. injection E as <- <-. destruct Hpost as [_ Hin]. by rewrite Hin.
Qed.

Lemma framing_end_complete_witness : bs "ab" ++ [LF] ++ bs "c" = source_bytes [Bytes (bs "ab" ++ [LF] ++ bs "c")].
Proof.
  set (src := [Bytes (bs "ab" ++ [LF] ++ bs "c")]).
  destruct (drive [9; 9] (with_limit (mkBuf [] src) 4)) as [[[d e] this]|] eqn:E; [|vm_compute in E; done].
  assert (e = None ∧ d = bs "ab" ++ [LF] ++ bs "c") as [-> <-] by (vm_compute in E; by injection E as <- <- _).
  destruct (poll_read 9 this) as [[p this']|] eqn:Ep; [|vm_compute in E; injection E as <- <-; vm_compute in Ep; done].
  assert (p = ReadyOk []) as -> by (vm_compute in E; injection E as <- <-; vm_compute in Ep; by injection Ep as <- _).
  refine (framing_end_complete src 4 [9; 9] d this 9 this' _ E _ Ep); [unfold src; by repeat constructor|lia].
Defined.
