(* ===== verification/BriefGate.v ===== *)
(** * BriefGate: the session budget of served briefs

    Models [src/crates/cli/src/brief_gate.rs].  The state file, the lock and the
    clock are arguments of [evaluate]; [serde_json] is a parameter with its round
    trip as hypothesis.  [usize] and [u64] are [N] below [2^64]. *)
From stdpp Require Import gmap.
From S2P Require Import Prelude Text.
From Stdlib Require Import Lia NArith.
Local Open Scope codesage_scope.

Definition SESSION_TOKEN_BUDGET : N := 1500.
Definition PATH_COOLDOWN_SECS : N := 900.
Definition CHARS_PER_TOKEN : N := 4.
Definition u64_size : N := 18446744073709551616.

Record GateState := mkGate {
  tokens : N;
  served : gmap bytes N;
  last_path : gmap bytes N;
}.

Definition gate_default : GateState := mkGate 0 ∅ ∅.

Inductive Decision := Served | Empty | Repeat | Cooldown | Budget | Unavailable | DecisionError.

#[export] Instance decision_eq_decision : EqDecision Decision.
Proof. solve_decision. Defined.

Definition as_str (d : Decision) : bytes :=
  match d with
  | Served => bs "served" | Empty => bs "empty" | Repeat => bs "repeat" | Cooldown => bs "cooldown"
  | Budget => bs "budget" | Unavailable => bs "unavailable" | DecisionError => bs "error"
  end.

(** ** Digest *)

Definition FNV_OFFSET : N := 0xcbf29ce484222325.
Definition FNV_PRIME : N := 0x00000100000001b3.

Definition digest (s : bytes) : N :=
  fold_left (λ h b, (N.lxor h (Byte.to_N b) * FNV_PRIME) mod u64_size)%N s FNV_OFFSET.

Definition hex_digit (n : N) : byte :=
  match n with
  | 0%N => "0" | 1%N => "1" | 2%N => "2" | 3%N => "3" | 4%N => "4" | 5%N => "5" | 6%N => "6" | 7%N => "7"
  | 8%N => "8" | 9%N => "9" | 10%N => "a" | 11%N => "b" | 12%N => "c" | 13%N => "d" | 14%N => "e" | _ => "f"
  end%byte.

(** [{:x}] of a [u64], at most sixteen digits. *)
Fixpoint hex_loop (fuel : nat) (n : N) : bytes :=
  match fuel with
  | 0 => []
  | S fuel => if (n <? 16)%N then [hex_digit n] else hex_loop fuel (n / 16) ++ [hex_digit (n mod 16)]
  end.

Definition hex (n : N) : bytes := hex_loop 16 n.

(** ** The decision *)

Definition payload_cost (payload : bytes) : N :=
  ((N.of_nat (length payload) + (CHARS_PER_TOKEN - 1)) / CHARS_PER_TOKEN)%N.

Definition served_key (path payload : bytes) : bytes := path ++ x00 :: hex (digest payload).

(** [state.tokens + cost], [now.saturating_sub(prev)] on 64 bits. *)
Definition wrapping_add (a b : N) : N := ((a + b) mod u64_size)%N.

Definition cooling (state : GateState) (path : bytes) (now : N) : bool :=
  match last_path state !! path with
  | Some prev => (now - prev <? PATH_COOLDOWN_SECS)%N
  | None => false
  end.

Definition decide_fire (state : GateState) (path payload : bytes) (now : N) : Decision * GateState :=
  let cost := payload_cost payload in
  if (SESSION_TOKEN_BUDGET <? wrapping_add (tokens state) cost)%N then (Budget, state)
  else
    let key := served_key path payload in
    if bool_decide (is_Some (served state !! key)) then (Repeat, state)
    else if cooling state path now then (Cooldown, state)
    else (Served, mkGate (wrapping_add (tokens state) cost) (<[key := now]> (served state))
                    (<[path := now]> (last_path state))).

(** ** Session file names *)

Definition session_char (c : byte) : bool :=
  is_ascii_alphanumeric c || (c =? "-")%byte || (c =? "_")%byte || (c =? ".")%byte.

Definition trim_dots (s : bytes) : bytes := drop (count_while (Byte.eqb ".") s) s.

Definition sanitize (session : bytes) : bytes :=
  let cleaned := trim_dots (take 128 (List.filter session_char session)) in
  if bytes_eqb cleaned [] then hex (digest session) else cleaned.

Definition state_file (session : bytes) : bytes := bs "brief-" ++ sanitize session ++ bs ".json".

(** [Path::is_absolute] and [Path::join] of a relative name. *)
Definition is_absolute (p : bytes) : bool := starts_with (bs "/") p.
Definition join (p name : bytes) : bytes := if ends_with (bs "/") p then p ++ name else p ++ bs "/" ++ name.

Definition absolute (v : option bytes) : option bytes :=
  match v with Some p => if is_absolute p then Some p else None | None => None end.

Definition ledger_dir_from (xdg_state_home home : option bytes) (fallback : bytes) : bytes :=
  match absolute xdg_state_home with
  | Some dir => join dir (bs "codesage")
  | None =>
      match absolute home with
      | Some home => join (join (join home (bs ".local")) (bs "state")) (bs "codesage")
      | None => fallback
      end
  end.

(** ** Evaluation against the state file *)

Inductive Read := ReadOk (raw : bytes) | NotFound | ReadFailed.

(** What the file system answers to one call. *)
Record Io := mkIo {
  dir_ok : bool;       (* create_dir_all *)
  lock_opened : bool;
  locked : bool;       (* try_lock *)
  readable : bool;     (* reading fails other than by absence when false *)
  replaced : bool;     (* state_file::replace *)
}.

Section evaluate.
(** [serde_json::to_string] and [from_str] on [GateState]. *)
Context (encode : GateState → option bytes) (decode : bytes → option GateState).

(** [file] is the state file of the session; the result carries it after. *)
Definition evaluate (io : Io) (file : option bytes) (path payload : bytes) (now : N)
    : Decision * option bytes :=
  if bytes_eqb payload [] then (Empty, file)
  else if negb (dir_ok io) then (Unavailable, file)
  else if negb (lock_opened io) then (Unavailable, file)
  else if negb (locked io) then (Unavailable, file)
  else
    match (if readable io then match file with Some raw => ReadOk raw | None => NotFound end else ReadFailed) with
    | ReadFailed => (Unavailable, file)
    | r =>
        match (match r with ReadOk raw => decode raw | _ => Some gate_default end) with
        | None => (Unavailable, file)
        | Some state =>
            let '(decision, state) := decide_fire state path payload now in
            if decide (decision = Served) then
              match encode state with
              | None => (Unavailable, file)
              | Some encoded => if replaced io then (Served, Some encoded) else (Unavailable, file)
              end
            else (decision, file)
        end
    end.

(** A fire: what was asked, and when. *)
Record Fire := mkFire { f_io : Io; f_path : bytes; f_payload : bytes; f_now : N }.

(** A session: its fires one after the other, with their decisions. *)
Fixpoint session (file : option bytes) (fires : list Fire) : list (Fire * Decision) * option bytes :=
  match fires with
  | [] => ([], file)
  | f :: fires =>
      let '(d, file) := evaluate (f_io f) file (f_path f) (f_payload f) (f_now f) in
      let '(rest, file) := session file fires in
      ((f, d) :: rest, file)
  end.
End evaluate.

(** ** The ledger line *)

Section ledger.
(** [serde_json::to_string] of a string. *)
Context (json : bytes → option bytes).

Definition quote : bytes := [x22].

Definition escape (s : bytes) : bytes := match json s with Some e => e | None => quote ++ quote end.

Definition fire_line (now : N) (session project path : bytes) (d : Decision) (payload : bytes) : bytes :=
  bs "{" ++ quote ++ bs "t" ++ quote ++ bs ":" ++ show_u64 now
  ++ bs "," ++ quote ++ bs "s" ++ quote ++ bs ":" ++ quote ++ sanitize session ++ quote
  ++ bs "," ++ quote ++ bs "p" ++ quote ++ bs ":" ++ escape project
  ++ bs "," ++ quote ++ bs "f" ++ quote ++ bs ":" ++ escape path
  ++ bs "," ++ quote ++ bs "d" ++ quote ++ bs ":" ++ quote ++ as_str d ++ quote
  ++ (if bytes_eqb payload [] then []
      else bs "," ++ quote ++ bs "h" ++ quote ++ bs ":" ++ quote ++ hex (digest payload) ++ quote
           ++ bs "," ++ quote ++ bs "tok" ++ quote ++ bs ":" ++ show_u64 (payload_cost payload))
  ++ bs "}" ++ [LF].
End ledger.

(** ** Sessions *)

Lemma payload_cost_bound payload :
  (N.of_nat (length payload) < u64_size)%N → (payload_cost payload + SESSION_TOKEN_BUDGET < u64_size)%N.
Proof.
  intros H. unfold payload_cost, CHARS_PER_TOKEN, SESSION_TOKEN_BUDGET.
  assert ((N.of_nat (length payload) + (4 - 1)) / 4 ≤ N.of_nat (length payload) / 4 + 1)%N as Hd.
  { transitivity ((N.of_nat (length payload) + 1 * 4) / 4)%N.
    - apply N.Div0.div_le_mono. lia.
    - by rewrite N.div_add. }
  assert (N.of_nat (length payload) / 4 * 4 ≤ N.of_nat (length payload))%N
    by (pose proof (N.Div0.mul_div_le (N.of_nat (length payload)) 4); lia).
  unfold u64_size in *. lia.
Qed.

Definition served_fires (log : list (Fire * Decision)) : list Fire :=
  map fst (List.filter (λ p, bool_decide (p.2 = Served)) log).

Definition spent (fires : list Fire) : N := fold_right N.add 0%N (map (λ f, payload_cost (f_payload f)) fires).

Lemma spent_snoc fires f : spent (fires ++ [f]) = (spent fires + payload_cost (f_payload f))%N.
Proof.
  unfold spent. induction fires as [|g fires IH]; [simpl; lia|].
  cbn [map app fold_right]. rewrite IH. lia.
Qed.

(** The state reflects the fires served so far. *)
Record reflects (history : list Fire) (state : GateState) : Prop := {
  rf_tokens : tokens state = spent history;
  rf_budget : (spent history ≤ SESSION_TOKEN_BUDGET)%N;
  rf_served : ∀ f, f ∈ history → is_Some (served state !! served_key (f_path f) (f_payload f));
  rf_last : ∀ f, f ∈ history → ∃ t, last_path state !! f_path f = Some t ∧ (f_now f ≤ t)%N;
  rf_pairs : ∀ i j f g, i < j → history !! i = Some f → history !! j = Some g → f_path f = f_path g →
    f_payload f ≠ f_payload g ∧ (f_now f + PATH_COOLDOWN_SECS ≤ f_now g)%N;
}.

Lemma reflects_default : reflects [] gate_default.
Proof. split; simpl; try done; try (by intros ? ?%not_elem_of_nil). Qed.

Lemma decide_fire_reflects history state io path payload now d state' :
  reflects history state → (N.of_nat (length payload) < u64_size)%N →
  decide_fire state path payload now = (d, state') →
  if decide (d = Served) then reflects (history ++ [mkFire io path payload now]) state' else state' = state.
Proof.
  intros [] Hlen. pose proof (payload_cost_bound payload Hlen) as Hc. unfold decide_fire.
  assert (wrapping_add (tokens state) (payload_cost payload) = (spent history + payload_cost payload)%N) as ->.
  { unfold wrapping_add. rewrite rf_tokens0. apply N.mod_small. lia. }
  destruct (N.ltb_spec SESSION_TOKEN_BUDGET (spent history + payload_cost payload)); [by intros [= <- <-]|].
  case_bool_decide as Hkey; [by intros [= <- <-]|].
  destruct (cooling state path now) eqn:Ecool; [by intros [= <- <-]|]. intros [= <- <-].
  destruct (decide (Served = Served)) as [_|?]; [|done]. split; simpl.
  - by rewrite spent_snoc.
  - by rewrite spent_snoc.
  - intros f [Hf| ->%list_elem_of_singleton]%elem_of_app; simpl; apply lookup_insert_is_Some'; [right; by apply rf_served0|by left].
  - intros f [Hf| ->%list_elem_of_singleton]%elem_of_app; simpl.
    + destruct (rf_last0 f Hf) as (t & Ht & Hle). destruct (decide (path = f_path f)) as [->|Hne].
      * rewrite lookup_insert_eq. exists now. split; [done|]. unfold cooling in Ecool. rewrite Ht in Ecool.
        apply N.ltb_ge in Ecool. unfold PATH_COOLDOWN_SECS in Ecool. lia.
      * rewrite lookup_insert_ne by done. by exists t.
    + rewrite lookup_insert_eq. by exists now.
  - intros i j f g Hij Hi Hj Hp. destruct (decide (j < length history)) as [Hlt|Hge].
    + rewrite lookup_app_l in Hi, Hj by lia. exact (rf_pairs0 i j f g Hij Hi Hj Hp).
    + assert (j = length history) as -> by (apply lookup_lt_Some in Hj; rewrite length_app in Hj; simpl in Hj; lia).
      rewrite lookup_app_r, Nat.sub_diag in Hj by done. injection Hj as <-. rewrite lookup_app_l in Hi by lia.
      apply list_elem_of_lookup_2 in Hi. simpl in *. split.
      * intros Heq. apply Hkey. rewrite <- Hp, <- Heq. by apply rf_served0.
      * destruct (rf_last0 f Hi) as (t & Ht & Hle). unfold cooling in Ecool. rewrite <- Hp, Ht in Ecool.
        apply N.ltb_ge in Ecool. unfold PATH_COOLDOWN_SECS in *. lia.
Qed.

Section session.
Context (encode : GateState → option bytes) (decode : bytes → option GateState).
Hypothesis serde_round_trip : ∀ s e, encode s = Some e → decode e = Some s.

Definition stored (file : option bytes) (history : list Fire) : Prop :=
  match file with
  | None => history = []
  | Some raw => ∃ state, decode raw = Some state ∧ reflects history state
  end.

Lemma evaluate_stored file history f d file' :
  stored file history → (N.of_nat (length (f_payload f)) < u64_size)%N →
  evaluate encode decode (f_io f) file (f_path f) (f_payload f) (f_now f) = (d, file') →
  stored file' (if decide (d = Served) then history ++ [f] else history).
Proof using serde_round_trip.
  intros Hst Hlen. unfold evaluate.
  assert (∀ r, r ≠ Served → (r, file) = (d, file') →
    stored file' (if decide (d = Served) then history ++ [f] else history)) as Hkeep.
  { intros r Hr [= <- <-]. by rewrite decide_False. }
  destruct (bytes_eqb (f_payload f) []); [by apply Hkeep|]. destruct (negb (dir_ok _)); [by apply Hkeep|].
  destruct (negb (lock_opened _)); [by apply Hkeep|]. destruct (negb (locked _)); [by apply Hkeep|].
  assert (∀ state, reflects history state →
    (let '(decision, state0) := decide_fire state (f_path f) (f_payload f) (f_now f) in
     if decide (decision = Served) then
       match encode state0 with
       | None => (Unavailable, file)
       | Some encoded => if replaced (f_io f) then (Served, Some encoded) else (Unavailable, file)
       end
     else (decision, file)) = (d, file') →
    stored file' (if decide (d = Served) then history ++ [f] else history)) as Hrun.
  { intros state Hrf. destruct (decide_fire state _ _ _) as [d0 s0] eqn:Ed.
    pose proof (decide_fire_reflects history state (f_io f) _ _ _ _ _ Hrf Hlen Ed) as Hd.
    case_decide as Es; [|by apply Hkeep]. destruct (encode s0) as [e|] eqn:Ee; [|by apply Hkeep].
    destruct (replaced (f_io f)); [|by apply Hkeep]. intros [= <- <-]. rewrite decide_True by done.
    exists s0. split; [by apply serde_round_trip|]. by destruct f. }
  destruct (readable (f_io f)); [|by apply Hkeep]. destruct file as [raw|]; simpl in Hst.
  - destruct Hst as (state & -> & Hrf). by apply Hrun.
  - subst history. apply Hrun, reflects_default.
Qed.

Lemma session_stored file history fires log file' :
  stored file history → Forall (λ f, (N.of_nat (length (f_payload f)) < u64_size)%N) fires →
  session encode decode file fires = (log, file') → stored file' (history ++ served_fires log).
Proof using serde_round_trip.
  intros Hst Hall. revert file history log Hst; induction Hall as [|f fires Hf _ IH]; intros file history log Hst.
  { intros [= <- <-]. unfold served_fires. simpl. by rewrite app_nil_r. }
  simpl. destruct (evaluate _ _ _ _ _ _ _) as [d file1] eqn:Ee.
  destruct (session encode decode file1 fires) as [rest file2] eqn:Es. intros [= <- <-].
  pose proof (evaluate_stored file history f d file1 Hst Hf Ee) as H1.
  pose proof (IH _ _ _ H1 Es) as H2. unfold served_fires in *. cbn [List.filter].
  destruct (decide (d = Served)) as [->|Hd].
  - rewrite bool_decide_true by done. simpl. by rewrite <- app_assoc in H2.
  - by rewrite bool_decide_false.
Qed.

(** A session that starts without a state file never spends more than its
    token budget on served briefs, never serves the same payload for a path
    twice, and leaves at least the cooldown between two briefs for one path,
    whatever fails in between and however the clock moves. *)
Theorem session_bounded fires log file' :
  Forall (λ f, (N.of_nat (length (f_payload f)) < u64_size)%N) fires →
  session encode decode None fires = (log, file') →
  (spent (served_fires log) ≤ SESSION_TOKEN_BUDGET)%N
  ∧ ∀ i j f g, i < j → served_fires log !! i = Some f → served_fires log !! j = Some g →
      f_path f = f_path g →
      f_payload f ≠ f_payload g ∧ (f_now f + PATH_COOLDOWN_SECS ≤ f_now g)%N.
Proof using serde_round_trip.
  intros Hall Hs. pose proof (session_stored None [] fires log file' eq_refl Hall Hs) as Hst. simpl in Hst.
  destruct file' as [raw|]; simpl in Hst; [by destruct Hst as (state & _ & [])|]. rewrite Hst.
  split; [by vm_compute|]. intros i j f g _ Hi. by rewrite lookup_nil in Hi.
Qed.
End session.

(** A state file encoded as nothing but its place in a table of two states. *)
Definition fire1 : Fire := mkFire (mkIo true true true true true) (bs "src/a.rs") (bs "callers: 3") 1000.
Definition fire2 : Fire := mkFire (mkIo true true true true true) (bs "src/a.rs") (bs "callers: 4") 1100.
Definition fire3 : Fire := mkFire (mkIo true true true true true) (bs "src/a.rs") (bs "callers: 4") 1900.

Definition state_after (fires : list Fire) : GateState :=
  fold_left (λ s f, (decide_fire s (f_path f) (f_payload f) (f_now f)).2) fires gate_default.

#[export] Instance gate_eq_decision : EqDecision GateState.
Proof. solve_decision. Defined.

Definition toy_encode (s : GateState) : option bytes :=
  if decide (s = state_after [fire1]) then Some (bs "1")
  else if decide (s = state_after [fire1; fire3]) then Some (bs "2") else None.

Definition toy_decode (raw : bytes) : option GateState :=
  if bytes_eqb raw (bs "1") then Some (state_after [fire1])
  else if bytes_eqb raw (bs "2") then Some (state_after [fire1; fire3]) else None.

Lemma toy_round_trip s e : toy_encode s = Some e → toy_decode e = Some s.
Proof.
  unfold toy_encode. case_decide as H1; [by intros [= <-]; rewrite H1|].
  case_decide as H2; [by intros [= <-]; rewrite H2|done].
Qed.

Definition toy_log : list (Fire * Decision) * option bytes :=
  session toy_encode toy_decode None [fire1; fire2; fire3].

Lemma session_bounded_witness :
  map snd toy_log.1 = [Served; Cooldown; Served]
  ∧ (spent (served_fires toy_log.1) ≤ SESSION_TOKEN_BUDGET)%N
  ∧ ∀ i j f g, i < j → served_fires toy_log.1 !! i = Some f → served_fires toy_log.1 !! j = Some g →
      f_path f = f_path g →
      f_payload f ≠ f_payload g ∧ (f_now f + PATH_COOLDOWN_SECS ≤ f_now g)%N.
Proof.
  split; [vm_compute; reflexivity|].
  apply (session_bounded toy_encode toy_decode toy_round_trip [fire1; fire2; fire3] toy_log.1 toy_log.2).
  - repeat constructor.
  - apply surjective_pairing.
Defined.

(** ** File names and ledger lines *)

Lemma hex_loop_chars fuel n : Forall (λ b, session_char b = true ∧ b ≠ "."%byte) (hex_loop fuel n).
Proof.
  assert (∀ m, session_char (hex_digit m) = true ∧ hex_digit m ≠ "."%byte) as Hd.
  { intros m. unfold hex_digit. repeat case_match; by split. }
  revert n; induction fuel as [|fuel IH]; intros n; simpl; [constructor|].
  destruct (n <? 16)%N; [by constructor; [apply Hd|constructor]|].
  apply Forall_app. split; [done|by constructor; [apply Hd|constructor]].
Qed.

Lemma length_hex_loop fuel n : length (hex_loop fuel n) ≤ fuel.
Proof.
  revert n; induction fuel as [|fuel IH]; intros n; simpl; [lia|]. destruct (n <? 16)%N; simpl; [lia|].
  rewrite length_app. simpl. specialize (IH (n / 16)%N). lia.
Qed.

Lemma hex_nonempty n : hex n ≠ [].
Proof. unfold hex. cbn [hex_loop]. destruct (n <? 16)%N; [done|]. intros H. by apply app_eq_nil in H as [_ ?]. Qed.

Lemma Forall_filter_true {A} (f : A → bool) l : Forall (λ x, f x = true) (List.filter f l).
Proof. induction l as [|x l IH]; simpl; [constructor|]. destruct (f x) eqn:E; [by constructor|done]. Qed.

Lemma sanitize_ok session :
  sanitize session ≠ [] ∧ length (sanitize session) ≤ 128
  ∧ Forall (λ b, session_char b = true) (sanitize session)
  ∧ head (sanitize session) ≠ Some "."%byte.
Proof.
  unfold sanitize. set (t := take 128 (List.filter session_char session)).
  destruct (bytes_eqb_spec (trim_dots t) []) as [E|E].
  - split_and!; [apply hex_nonempty|pose proof (length_hex_loop 16 (digest session)); unfold hex; lia|..];
      pose proof (hex_loop_chars 16 (digest session)) as H; fold (hex (digest session)) in H.
    + eapply Forall_impl; [exact H|]. by intros ? [? _].
    + destruct (hex (digest session)) as [|b l]; [done|]. apply Forall_cons in H as [[_ H] _]. simpl. congruence.
  - split_and!; [done| | |].
    + unfold trim_dots. rewrite length_drop. unfold t. rewrite length_take. lia.
    + unfold trim_dots, t. by apply Forall_drop, Forall_take, Forall_filter_true.
    + unfold trim_dots. intros H. rewrite head_lookup, lookup_drop, Nat.add_0_r in H.
      apply count_while_stop in H. by rewrite beq_refl in H.
Qed.

(** The state file of any session is one plain file name: whatever the
    caller sends as session id, it starts with [brief-], holds no path separator
    and no NUL, and is at most 139 bytes long. *)
Theorem state_file_contained session :
  ("/"%byte ∉ state_file session) ∧ (x00 ∉ state_file session)
  ∧ (∃ name, state_file session = bs "brief-" ++ name ++ bs ".json" ∧ name ≠ [] ∧ head name ≠ Some "."%byte)
  ∧ length (state_file session) ≤ 139.
Proof.
  destruct (sanitize_ok session) as (Hne & Hlen & Hall & Hdot).
  assert (∀ b, session_char b = false → b ∉ bs "brief-" → b ∉ bs ".json" → b ∉ state_file session) as Hno.
  { intros b Hb H1 H2. unfold state_file. rewrite !not_elem_of_app. split_and!; [done| |done].
    intros Hin. rewrite Forall_forall in Hall. specialize (Hall b Hin). simpl in Hall. congruence. }
  split_and!.
  - apply Hno; [done|by apply has_byte_false|by apply has_byte_false].
  - apply Hno; [done|by apply has_byte_false|by apply has_byte_false].
  - by exists (sanitize session).
  - unfold state_file. rewrite !length_app. simpl. lia.
Qed.

(** Every fire is one line of the ledger: given that JSON strings escape
    line feeds, the line ends in a line feed and holds no other. *)
Theorem fire_line_single json now session project path d payload :
  (∀ s e, json s = Some e → LF ∉ e) →
  ∃ l, fire_line json now session project path d payload = l ++ [LF] ∧ LF ∉ l.
Proof.
  intros Hj0.
  assert (∀ s, LF ∉ escape json s) as Hj.
  { intros s. unfold escape. destruct (json s) as [e|] eqn:E; [by eapply Hj0|by apply has_byte_false]. }
  destruct (sanitize_ok session) as (_ & _ & Hall & _).
  assert (LF ∉ sanitize session) as Hs.
  { intros Hin. rewrite Forall_forall in Hall. by specialize (Hall LF Hin). }
  assert (∀ n, LF ∉ show_u64 n) as Hn by (intros n; by apply (digits_lack LF), show_loop_digits).
  assert (LF ∉ hex (digest payload)) as Hh.
  { intros Hin. pose proof (hex_loop_chars 16 (digest payload)) as H. rewrite Forall_forall in H.
    by destruct (H LF Hin). }
  assert (∀ s, has_byte LF s = false → LF ∉ s) as Hc by (intros; by apply has_byte_false).
  assert (LF ∉ as_str d) as Hd by (apply Hc; by destruct d).
  unfold fire_line. eexists. rewrite !app_assoc. split; [done|].
  destruct (bytes_eqb payload []); rewrite !not_elem_of_app; split_and!; auto using not_elem_of_nil.
Qed.

Lemma fire_line_single_witness :
  ∃ l, fire_line (λ s, Some (quote ++ List.filter (λ b, negb (Byte.eqb LF b)) s ++ quote))
         7 (bs "s") (bs "/p") (bs "a.rs") Served (bs "x") = l ++ [LF] ∧ LF ∉ l.
Proof.
  apply fire_line_single. intros s e He.
  assert (e = quote ++ List.filter (λ b, negb (Byte.eqb LF b)) s ++ quote) as -> by congruence.
  rewrite !not_elem_of_app.
  split_and!; [by apply has_byte_false| |by apply has_byte_false].
  rewrite list_elem_of_In, List.filter_In. intros [_ H]. by rewrite beq_refl in H.
Defined.
