(* ===== verification/Target.v ===== *)
(** * Target: what an input named, and the refusals it implies

    Models [src/crates/protocol/src/target.rs] and the refusal half of
    [src/crates/graph/src/resolver.rs]: [TargetError], [require_one] and
    [matched_symbols].  A confidence is an IEEE 754 binary32 number. *)
From S2P Require Import Prelude Text.
From Stdlib Require Import Lia NArith ZArith Floats.SpecFloat.
Local Open Scope codesage_scope.

(** ** Candidates *)

Inductive TargetKind :=
  KSymbol | KFile | KDir | KChunk | KFeature | KRoute | KCommand | KText.

Inductive ResolveVia := Exact | Qualified | Unique | Import | Casefold | Suffix.

#[export] Instance kind_eq_decision : EqDecision TargetKind.
Proof. solve_decision. Defined.
#[export] Instance via_eq_decision : EqDecision ResolveVia.
Proof. solve_decision. Defined.

(** The [f32] literals [0.8], [1.0], [0.9], [0.5] and [0.4]. *)
Definition CONFIDENT : spec_float := S754_finite false 13421773 (-24).

Definition confidence_of (via : ResolveVia) : spec_float :=
  match via with
  | Exact | Qualified => S754_finite false 8388608 (-23)
  | Unique => S754_finite false 15099494 (-24)
  | Import => S754_finite false 13421773 (-24)
  | Casefold => S754_finite false 8388608 (-24)
  | Suffix => S754_finite false 13421773 (-25)
  end.

Record ResolvedTarget := mkTarget {
  handle : bytes;
  target_kind : bytes;
  target_path : option bytes;
  target_line_start : option N;
  target_line_end : option N;
  is_test : bool;
  confidence : spec_float;
  via : ResolveVia;
}.

Definition confident (c : ResolvedTarget) : bool := SFleb CONFIDENT (confidence c).

(** ** Resolutions *)

Record TargetResolution := mkResolution {
  input : bytes;
  kind : TargetKind;
  resolved : list ResolvedTarget;
  ambiguous : bool;
  candidates_total : N;
  overloads : N;
}.

Definition new_resolution (input : bytes) (kind : TargetKind) (resolved : list ResolvedTarget)
    (candidates_total overloads : N) : TargetResolution :=
  mkResolution input kind resolved (1 <? candidates_total)%N candidates_total overloads.

Definition text (input : bytes) : TargetResolution := new_resolution input KText [] 0 0.

Definition sole (r : TargetResolution) : option ResolvedTarget :=
  match resolved r with
  | [only] => if negb (ambiguous r) && confident only then Some only else None
  | _ => None
  end.

Definition guessed (r : TargetResolution) : bool :=
  match resolved r with [] => false | _ => forallb (λ c, negb (confident c)) (resolved r) end.

Definition handles (r : TargetResolution) : list bytes := map handle (resolved r).

(** ** Refusals *)

Inductive TargetError :=
  | Ambiguous (input : bytes) (candidates : list ResolvedTarget) (candidates_total overloads : N)
  | NotFound (input : bytes) (nearest : list ResolvedTarget)
  | Unsupported (input : bytes) (kind : TargetKind) (accepted : bytes).

(** [TargetError::of]. *)
Definition refusal (r : TargetResolution) : option TargetError :=
  if guessed r then Some (NotFound (input r) (resolved r))
  else if ambiguous r then Some (Ambiguous (input r) (resolved r) (candidates_total r) (overloads r))
  else match sole r with
       | None => Some (NotFound (input r) (resolved r))
       | Some _ => None
       end.

Definition code (e : TargetError) : bytes :=
  match e with
  | Ambiguous _ _ _ _ => bs "E_AMBIGUOUS"
  | NotFound _ _ => bs "E_NOT_FOUND"
  | Unsupported _ _ _ => bs "E_PARAM"
  end.

Definition error_handles (e : TargetError) : list bytes :=
  match e with
  | Ambiguous _ candidates _ _ | NotFound _ candidates => map handle candidates
  | Unsupported _ _ _ => []
  end.

Definition error_input (e : TargetError) : bytes :=
  match e with Ambiguous i _ _ _ | NotFound i _ | Unsupported i _ _ => i end.

Definition kind_name (k : TargetKind) : bytes :=
  bs match k with
     | KSymbol => "symbol" | KFile => "file" | KDir => "directory" | KChunk => "chunk"
     | KFeature => "feature" | KRoute => "route" | KCommand => "command" | KText => "text"
     end.

Definition SHOWN : nat := 5.

(** [strings.join(", ")]. *)
Fixpoint join_comma (l : list bytes) : bytes :=
  match l with
  | [] => []
  | [s] => s
  | s :: l => s ++ bs ", " ++ join_comma l
  end.

Definition sample (candidates : list ResolvedTarget) : bytes :=
  let shown := join_comma (map handle (take SHOWN candidates)) in
  if SHOWN <? length candidates
  then shown ++ bs ", +" ++ show_u64 (N.of_nat (length candidates - SHOWN)) ++ bs " more"
  else shown.

(** The UTF-8 bytes of a dash between spaces. *)
Definition DASH : bytes := [x20; xe2; x80; x94; x20].

Definition fmt (e : TargetError) : bytes :=
  match e with
  | Ambiguous input candidates total overloads =>
      bs "ambiguous target '" ++ input ++ bs "': " ++ show_u64 total ++ bs " definitions"
      ++ (if (0 <? overloads)%N
          then bs " (" ++ show_u64 overloads ++ bs " of them are same-file overloads, addressed by @line)"
          else [])
      ++ DASH ++ bs "retry with one handle: " ++ sample candidates
  | NotFound input nearest =>
      bs "no indexed target named '" ++ input ++ bs "'"
      ++ match nearest with [] => [] | _ => DASH ++ bs "nearest: " ++ sample nearest end
  | Unsupported input kind accepted =>
      bs "'" ++ input ++ bs "' names a " ++ kind_name kind
      ++ bs ", which this tool does not take; accepted targets: " ++ accepted
  end.

(** The one entity of a resolution, or the refusal; [expect] panics. *)
Definition require_one (r : TargetResolution) : outcome (TargetError + ResolvedTarget) :=
  match refusal r with
  | Some error => Done (inl error)
  | None => match sole r with Some c => Done (inr c) | None => Panic end
  end.

Definition matched_symbols {S} (r : TargetResolution) (symbols : list S) : list S :=
  if guessed r then [] else symbols.

(** ** What the refusals mean *)

Lemma guessed_spec r :
  guessed r = true ↔ resolved r ≠ [] ∧ Forall (λ c, confident c = false) (resolved r).
Proof.
  unfold guessed. destruct (resolved r) as [|c l]; [split; [done|by intros [? _]]|].
  rewrite forallb_forall, Forall_forall. setoid_rewrite list_elem_of_In.
  setoid_rewrite negb_true_iff. naive_solver.
Qed.

Lemma sole_spec r c :
  sole r = Some c ↔ resolved r = [c] ∧ ambiguous r = false ∧ confident c = true.
Proof.
  unfold sole. destruct (resolved r) as [|x [|y l]]; try by (split; [done|intros [? _]]).
  split.
  - destruct (ambiguous r), (confident x) eqn:E; simpl; try done. by intros [= <-].
  - intros ([= ->] & -> & ->). done.
Qed.

(** The reference reading of the refusals. *)
Inductive refusal_of (r : TargetResolution) : TargetError + ResolvedTarget → Prop :=
  | one_entity c : resolved r = [c] → ambiguous r = false → confident c = true → refusal_of r (inr c)
  | several_entities c :
      c ∈ resolved r → confident c = true → ambiguous r = true →
      refusal_of r (inl (Ambiguous (input r) (resolved r) (candidates_total r) (overloads r)))
  | ambiguous_cut :
      resolved r = [] → ambiguous r = true →
      refusal_of r (inl (Ambiguous (input r) [] (candidates_total r) (overloads r)))
  | nothing_named :
      Forall (λ c, confident c = false) (resolved r) → ¬ (resolved r = [] ∧ ambiguous r = true) →
      refusal_of r (inl (NotFound (input r) (resolved r)))
  | several_unmarked c d l :
      resolved r = c :: d :: l → ambiguous r = false → guessed r = false →
      refusal_of r (inl (NotFound (input r) (resolved r))).

Lemma guessed_false r : guessed r = false → resolved r = [] ∨ ∃ c, c ∈ resolved r ∧ confident c = true.
Proof.
  unfold guessed. destruct (resolved r) as [|c l] eqn:E; [by left|]. intros H. right. rewrite <- E in *.
  clear E. induction (resolved r) as [|x xs IH]; [done|]. simpl in H.
  destruct (confident x) eqn:Ex; [exists x; split; [left|done]|].
  destruct (IH H) as (y & Hy & Hc). exists y. split; [by right|done].
Qed.

(** [require_one] never reaches its [expect], whatever the candidates and
    their confidences: it returns an entity exactly when the input named that one
    and no guess was made, an ambiguity only with a confident candidate to retry
    with (or none at all), and otherwise that nothing was found. *)
Lemma require_one_refusal r : ∃ a, require_one r = Done a ∧ refusal_of r a.
Proof.
  unfold require_one, refusal. destruct (guessed r) eqn:G.
  - eexists. split; [done|]. apply guessed_spec in G as [Hne Hall]. apply nothing_named; [done|by intros [? _]].
  - destruct (ambiguous r) eqn:A.
    + eexists. split; [done|]. destruct (guessed_false r G) as [E|(c & Hc & Hconf)].
      * rewrite E. by apply ambiguous_cut.
      * by eapply several_entities.
    + destruct (sole r) as [c|] eqn:S.
      * exists (inr c). split; [done|]. apply sole_spec in S as (? & _ & ?). by apply one_entity.
      * eexists. split; [done|]. destruct (resolved r) as [|c [|d l]] eqn:E.
        -- rewrite <- E. apply nothing_named; rewrite E; [constructor|]. intros [_ ?]; congruence.
        -- destruct (confident c) eqn:Ec.
           { exfalso. assert (sole r = Some c) by (by apply sole_spec). congruence. }
           unfold guessed in G. rewrite E in G. simpl in G. by rewrite Ec in G.
        -- rewrite <- E. by eapply several_unmarked.
Qed.

(** Only the two nearest-neighbour rungs of the ladder are below the floor. *)
Lemma confidence_ladder v : SFleb CONFIDENT (confidence_of v) = bool_decide (v ≠ Casefold ∧ v ≠ Suffix).
Proof. by destruct v; vm_compute. Qed.
