(* ===== verification/CallPath.v ===== *)
(** * CallPath: the shortest call chain between two symbols

    Models [src/crates/graph/src/call_path.rs].  The database and the name
    resolver ([WalkCache] of impact.rs) are used through the interface
    [CodeIndex]; what the search relies on is [CodeIndexLaws].  A cooperative
    checkpoint asks [stopped] with the number of checkpoints passed before. *)
From stdpp Require Import gmap.
From S2P Require Import Prelude Text Handle Target.
From Stdlib Require Import Lia NArith.
Local Open Scope codesage_scope.

(** ** Data *)

Inductive ReferenceKind :=
  RImport | RInclude | RCall | RInstantiation | RInheritance | RTraitUse | RTypeHint
  | RRouteHandler | RImportBinding.

(** The fields of [Reference] (protocol/src/lib.rs) the search reads. *)
Record Reference := mkRef {
  from_file : bytes;
  from_symbol : option bytes;
  to_name : bytes;
  ref_kind : ReferenceKind;
  ref_line : N;
}.

Record CallPathRequest := mkRequest { req_from : bytes; req_to : bytes; max_depth : nat }.

Record CallPathStep := mkStep {
  st_handle : bytes;
  st_name : bytes;
  st_qualified_name : bytes;
  st_file_path : bytes;
  st_line_start : N;
  call_line : option N;
}.

Record CallPathReport := mkReport {
  found : bool;
  steps : list CallPathStep;
  path_length : nat;
  note : option bytes;
  bounded : bool;
  counts_floor : bool;
}.

Definition is_call_edge (k : ReferenceKind) : bool :=
  match k with RCall | RInstantiation | RRouteHandler => true | _ => false end.

Definition MAX_VISITED : nat := 4000.
Definition MAX_REFS_PER_SYMBOL : nat := 200.

Abbreviation SymbolKey := (bytes * bytes * N)%type.

Definition key_of (s : Symbol) : SymbolKey := (file_path s, qualified_name s, line_start s).

(** [codesage_protocol::python::is_python_path]. *)
Definition is_python_path (path : bytes) : bool := ends_with (bs ".py") path || ends_with (bs ".pyi") path.

Definition step_of (s : Symbol) (call_line : option N) : CallPathStep :=
  mkStep (to_string (symbol_handle s)) (sy_name s) (qualified_name s) (file_path s) (line_start s) call_line.

Definition unfound (note : bytes) (bounded : bool) : CallPathReport := mkReport false [] 0 (Some note) bounded true.

(** ** The interfaces the search is written against *)

Class CodeIndex := {
  WalkCache : Type;
  cache_default : WalkCache;
  context_capped : WalkCache → bool;
  references_in_file_range : bytes → N → N → option (list Reference);
  resolve_name : WalkCache → bytes → bytes → option (list Symbol * WalkCache);
  resolve_reference : WalkCache → Reference → option (list Symbol * WalkCache);
  resolve_target : bytes → option (TargetResolution * list Symbol);
}.

Inductive Failure := Stopped | Query | Refused (e : TargetError) | OutOfFuel.

(** ** A monad of checkpoints, the resolver's cache and errors *)

Section monad.
Context `{CodeIndex}.

Record World := mkWorld { ticks : nat; cache : WalkCache }.

Definition M (A : Type) : Type := World → Failure + (A * World).

Definition ret {A} (a : A) : M A := λ w, inr (a, w).
Definition raise {A} (e : Failure) : M A := λ _, inl e.
Definition bind {A B} (m : M A) (f : A → M B) : M B :=
  λ w, match m w with inl e => inl e | inr (a, w) => f a w end.

Definition lift {A} (r : option A) : M A := match r with Some a => ret a | None => raise Query end.

Definition with_cache {A} (f : WalkCache → option (A * WalkCache)) : M A :=
  λ w, match f (cache w) with
       | Some (a, c) => inr (a, mkWorld (ticks w) c)
       | None => inl Query
       end.

Context (stopped : nat → bool).

Definition checkpoint : M () :=
  λ w, if stopped (ticks w) then inl Stopped else inr ((), mkWorld (S (ticks w)) (cache w)).
End monad.

#[export] Instance M_ret `{CodeIndex} : MRet M := λ A a, ret a.
#[export] Instance M_bind `{CodeIndex} : MBind M := λ A B f m, bind m f.

Section search.
Context `{CodeIndex} (stopped : nat → bool).

(** ** Endpoints *)

Inductive Endpoint := Found (symbols : list Symbol) | Missing (note : bytes).

Definition resolve_endpoint (input : bytes) : M Endpoint :=
  '(resolution, symbols) ← lift (resolve_target input);
  match refusal resolution with
  | Some (Ambiguous i c t o) => raise (Refused (Ambiguous i c t o))
  | _ =>
      match matched_symbols resolution symbols with
      | [] =>
          ret (Missing (bs "symbol '" ++ input ++ bs "' not found"
                        ++ match handles resolution with
                           | [] => []
                           | nearest => bs "; nearest: " ++ join_comma nearest
                           end))
      | symbols => ret (Found symbols)
      end
  end.
(** ** The callees of one symbol *)

Record Gather := mkGather {
  out : list (Symbol * N);
  seen : gset SymbolKey;
  memo : gmap (bytes * bytes) (list Symbol);
  examined : nat;
}.

Definition gather_start : Gather := mkGather [] ∅ ∅ 0.

Definition push_callee (line : N) (g : Gather) (def : Symbol) : Gather :=
  if bool_decide (key_of def ∈ seen g) then g
  else mkGather (out g ++ [(def, line)]) ({[key_of def]} ∪ seen g) (memo g) (examined g).

Definition same_symbol (def sym : Symbol) : bool :=
  bytes_eqb (file_path def) (file_path sym) && bytes_eqb (qualified_name def) (qualified_name sym)
  && (line_start def =? line_start sym)%N.

Fixpoint push_resolved (sym : Symbol) (line : N) (defs : list Symbol) (g : Gather) : M Gather :=
  match defs with
  | [] => ret g
  | def :: defs =>
      checkpoint stopped ;;
      push_resolved sym line defs (if same_symbol def sym then g else push_callee line g def)
  end.

Definition foreign_owner (sym : Symbol) (r : Reference) : bool :=
  match from_symbol r with Some owner => negb (bytes_eqb owner (qualified_name sym)) | None => false end.

(** The definitions of [to_name], resolved once per name. *)
Definition resolve_memo (sym : Symbol) (name : bytes) (g : Gather) : M (list Symbol * Gather) :=
  let key := (file_path sym, name) in
  match memo g !! key with
  | Some defs => ret (defs, g)
  | None =>
      defs ← with_cache (λ c, resolve_name c (file_path sym) name);
      ret (defs, mkGather (out g) (seen g) (<[key := defs]> (memo g)) (examined g))
  end.

Fixpoint gather (sym : Symbol) (refs : list Reference) (g : Gather) : M (list (Symbol * N) * bool) :=
  match refs with
  | [] => ret (out g, false)
  | r :: refs =>
      checkpoint stopped ;;
      if negb (is_call_edge (ref_kind r)) then gather sym refs g
      else if foreign_owner sym r then gather sym refs g
      else
        let g := mkGather (out g) (seen g) (memo g) (S (examined g)) in
        if MAX_REFS_PER_SYMBOL <? examined g then ret (out g, true)
        else if is_python_path (from_file r) then
          defs ← with_cache (λ c, resolve_reference c r);
          gather sym refs (fold_left (push_callee (ref_line r)) defs g)
        else
          '(defs, g) ← resolve_memo sym (to_name r) g;
          g ← push_resolved sym (ref_line r) defs g;
          gather sym refs g
  end.

(** The callees, and whether the cap on examined call sites was hit. *)
Definition callees_of (sym : Symbol) : M (list (Symbol * N) * bool) :=
  refs ← lift (references_in_file_range (file_path sym) (line_start sym) (line_end sym));
  gather sym refs gather_start.

(** ** The breadth-first search *)

Record Search := mkSearch {
  queue : list (Symbol * nat);
  visited : gset SymbolKey;
  parents : gmap SymbolKey (Symbol * N);
  hit_bound : bool;
}.

Fixpoint chain_loop (fuel : nat) (parents : gmap SymbolKey (Symbol * N)) (origin_keys : gset SymbolKey)
    (cur : Symbol) (chain : list (Symbol * option N)) : option (list (Symbol * option N)) :=
  match fuel with
  | 0 => None
  | S fuel =>
      let k := key_of cur in
      let chain := (cur, snd <$> parents !! k) :: chain in
      if bool_decide (k ∈ origin_keys) then Some chain
      else match parents !! k with
           | Some (parent, _) => chain_loop fuel parents origin_keys parent chain
           | None => Some chain
           end
  end.

(** The chain from an origin to [target], built from its end. *)
Definition reconstruct (target : Symbol) (parents : gmap SymbolKey (Symbol * N)) (origin_keys : gset SymbolKey)
    : option (list CallPathStep) :=
  map (λ '(s, line), step_of s line) <$> chain_loop (S (size parents)) parents origin_keys target [].

Definition shorter_note : bytes :=
  bs "A call chain was found, but a resolution bound may have hidden a shorter chain.".

Definition found_report (steps : list CallPathStep) (hit : bool) : CallPathReport :=
  mkReport true steps (length steps - 1) (if hit then Some shorter_note else None) hit true.

Context (target_keys origin_keys : gset SymbolKey).

Fixpoint expand (sym : Symbol) (depth : nat) (callees : list (Symbol * N)) (s : Search)
    : M (CallPathReport + Search) :=
  match callees with
  | [] => ret (inr s)
  | (def, line) :: callees =>
      checkpoint stopped ;;
      let k := key_of def in
      if bool_decide (k ∈ target_keys) then
        match reconstruct def (<[k := (sym, line)]> (parents s)) origin_keys with
        | Some steps => ret (inl (found_report steps (hit_bound s)))
        | None => raise OutOfFuel
        end
      else if bool_decide (k ∈ visited s) then expand sym depth callees s
      else
        expand sym depth callees
          (mkSearch (queue s ++ [(def, S depth)]) ({[k]} ∪ visited s) (<[k := (sym, line)]> (parents s))
             (hit_bound s))
  end.

Definition ask_capped : M bool := λ w, inr (context_capped (cache w), w).

Definition set_hit (hit : bool) (s : Search) : Search := mkSearch (queue s) (visited s) (parents s) hit.

Fixpoint walk (fuel : nat) (max_depth : nat) (s : Search) : M (CallPathReport + Search) :=
  match fuel with
  | 0 => raise OutOfFuel
  | S fuel =>
      match queue s with
      | [] => ret (inr s)
      | (sym, depth) :: queue =>
          let s := mkSearch queue (visited s) (parents s) (hit_bound s) in
          checkpoint stopped ;;
          if max_depth <=? depth then walk fuel max_depth (set_hit true s)
          else if MAX_VISITED <=? size (visited s) then ret (inr (set_hit true s))
          else
            '(callees, hit) ← callees_of sym;
            capped ← ask_capped;
            r ← expand sym depth callees (set_hit (hit_bound s || hit || capped) s);
            match r with
            | inl report => ret (inl report)
            | inr s => walk fuel max_depth s
            end
      end
  end.

(** The origins, stopping at one that is also a target. *)
Fixpoint seed (origins : list Symbol) (keys : gset SymbolKey) (s : Search)
    : M (CallPathReport + Search * gset SymbolKey) :=
  match origins with
  | [] => ret (inr (s, keys))
  | o :: origins =>
      checkpoint stopped ;;
      let k := key_of o in
      let keys := {[k]} ∪ keys in
      if bool_decide (k ∈ target_keys) then
        ret (inl (mkReport true [step_of o None] 0 (Some (bs "origin and target are the same symbol")) false true))
      else if bool_decide (k ∈ visited s) then seed origins keys s
      else
        seed origins keys (mkSearch (queue s ++ [(o, 0)]) ({[k]} ∪ visited s) (parents s) (hit_bound s))
  end.
End search.

(** ** The whole request *)

Definition search_start : Search := mkSearch [] ∅ ∅ false.

Definition keys_of (l : list Symbol) : gset SymbolKey := list_to_set (map key_of l).

Definition exhausted_note (req : CallPathRequest) (hit : bool) : bytes :=
  if hit then
    bs "no call chain within " ++ show_u64 (N.of_nat (max_depth req)) ++ bs " hop"
    ++ (if Nat.eqb (max_depth req) 1 then [] else bs "s")
    ++ bs " via resolved name-based edges (search stopped at a bound, so an omitted path may exist)"
  else
    bs "'" ++ req_from req ++ bs "' does not reach '" ++ req_to req
    ++ bs "' through any resolved name-based call edge in the index; dynamic dispatch, reflection, and callbacks leave no edge, so this is not proof no path exists".

Section trace.
Context `{CodeIndex} (stopped : nat → bool).

Definition trace_from (fuel : nat) (req : CallPathRequest) (origins targets : list Symbol) : M CallPathReport :=
  let target_keys := keys_of targets in
  r ← seed stopped target_keys origins ∅ search_start;
  match r with
  | inl report => ret report
  | inr (s, origin_keys) =>
      r ← walk stopped target_keys origin_keys fuel (max_depth req) s;
      match r with
      | inl report => ret report
      | inr s => ret (unfound (exhausted_note req (hit_bound s)) (hit_bound s))
      end
  end.

Definition trace_call_path (fuel : nat) (req : CallPathRequest) : M CallPathReport :=
  checkpoint stopped ;;
  a ← resolve_endpoint (req_from req);
  match a with
  | Missing note => ret (unfound note false)
  | Found origins =>
      b ← resolve_endpoint (req_to req);
      match b with
      | Missing note => ret (unfound note false)
      | Found targets => trace_from fuel req origins targets
      end
  end.

(** One request: the search starts with an empty cache. *)
Definition run (fuel : nat) (req : CallPathRequest) : Failure + CallPathReport :=
  match trace_call_path fuel req (mkWorld 0 cache_default) with
  | inl e => inl e
  | inr (report, _) => inr report
  end.
End trace.

(** ** What the search relies on *)

(** While the resolver's context is complete a name always resolves to the same
    definitions, and a context once cut stays cut. *)
Class CodeIndexLaws `{CodeIndex} := {
  symbols : list Symbol;
  definitions : bytes → bytes → list Symbol;
  reference_definitions : Reference → list Symbol;
  resolve_name_exact c f n l c' :
    resolve_name c f n = Some (l, c') → context_capped c' = false →
    context_capped c = false ∧ l = definitions f n;
  resolve_reference_exact c r l c' :
    resolve_reference c r = Some (l, c') → context_capped c' = false →
    context_capped c = false ∧ l = reference_definitions r;
  definitions_indexed f n t : t ∈ definitions f n → t ∈ symbols;
  reference_definitions_indexed r t : t ∈ reference_definitions r → t ∈ symbols;
  targets_indexed i r l t : resolve_target i = Some (r, l) → t ∈ l → t ∈ symbols;
}.

Section edges.
Context `{CodeIndexLaws}.

(** The definitions a call site names. *)
Definition resolution (s : Symbol) (r : Reference) : list Symbol :=
  if is_python_path (from_file r) then reference_definitions r else definitions (file_path s) (to_name r).

(** The definitions the resolver may have answered with, its context cut or not. *)
Definition answered (s : Symbol) (r : Reference) (t : Symbol) : Prop :=
  ∃ c l c', t ∈ l ∧
    (if is_python_path (from_file r) then resolve_reference c r else resolve_name c (file_path s) (to_name r))
    = Some (l, c').

(** A call site of the body of [s]: nested functions' calls are not. *)
Definition call_site (s : Symbol) (r : Reference) : Prop :=
  (∃ refs, references_in_file_range (file_path s) (line_start s) (line_end s) = Some refs ∧ r ∈ refs)
  ∧ is_call_edge (ref_kind r) = true ∧ foreign_owner s r = false.

Definition calls (s t : Symbol) (line : N) : Prop :=
  ∃ r, call_site s r ∧ ref_line r = line ∧ t ∈ resolution s r.

Definition reported (s t : Symbol) (line : N) : Prop :=
  ∃ r, call_site s r ∧ ref_line r = line ∧ answered s r t.

(** A chain of edges [R] from one of [origins], each symbol with the line of the
    call in the body before it. *)
Inductive is_chain (R : Symbol → Symbol → N → Prop) (origins : list Symbol) : list (Symbol * option N) → Prop :=
  | chain_origin o : o ∈ origins → is_chain R origins [(o, None)]
  | chain_call l s m t line :
      is_chain R origins (l ++ [(s, m)]) → R s t line → is_chain R origins (l ++ [(s, m); (t, Some line)]).
End edges.

(** ** Reading monadic runs *)

Section runs.
Context `{CodeIndex}.

Lemma bind_run {A B} (m : M A) (f : A → M B) w :
  (m ≫= f) w = match m w with inl e => inl e | inr (a, w1) => f a w1 end.
Proof. done. Qed.

Lemma bind_ok {A B} (m : M A) (f : A → M B) w b w' :
  (m ≫= f) w = inr (b, w') ↔ ∃ a w1, m w = inr (a, w1) ∧ f a w1 = inr (b, w').
Proof.
  rewrite bind_run.
  destruct (m w) as [e|[a w1]]; split; [done|by intros (? & ? & ? & _)| |].
  - intros E. by exists a, w1.
  - by intros (? & ? & [= <- <-] & E).
Qed.

Lemma checkpoint_ok stopped w a w' : checkpoint stopped w = inr (a, w') → cache w' = cache w.
Proof. unfold checkpoint. destruct (stopped (ticks w)); [done|]. by intros [= _ <-]. Qed.

Lemma with_cache_ok {A} (f : WalkCache → option (A * WalkCache)) w a w' :
  with_cache f w = inr (a, w') → f (cache w) = Some (a, cache w').
Proof. unfold with_cache. destruct (f (cache w)) as [[x c]|]; [|done]. by intros [= <- <-]. Qed.
End runs.

Ltac run_step :=
  match goal with
  | E : (_ ≫= _) _ = inr _ |- _ =>
      let a := fresh "a" in let w1 := fresh "w" in let E1 := fresh "E" in let E2 := fresh "E" in
      apply bind_ok in E as (a & w1 & E1 & E2)
  | E : ret _ _ = inr _ |- _ => unfold ret in E; simplify_eq
  | E : raise _ _ = inr _ |- _ => done
  | E : checkpoint _ _ = inr _ |- _ => apply checkpoint_ok in E
  end.

(** ** The callees of a symbol *)

Section callees.
Context `{CodeIndexLaws} (stopped : nat → bool) (sym : Symbol).

Definition callee_keys (l : list (Symbol * N)) : list SymbolKey := map (λ x, key_of x.1) l.

(** [g'] extends [g] with call sites on [line] of definitions [defs], and lacks
    none of them but [sym] itself. *)
Record pushes (line : N) (defs : list Symbol) (g g' : Gather) : Prop := {
  pu_keep x : x ∈ out g → x ∈ out g';
  pu_new x : x ∈ out g' → x ∈ out g ∨ (x.1 ∈ defs ∧ x.2 = line);
  pu_all t : t ∈ defs → key_of t ∈ callee_keys (out g') ∨ key_of t = key_of sym;
}.

Definition seen_ok (g : Gather) : Prop := ∀ k, k ∈ seen g ↔ k ∈ callee_keys (out g).

Lemma pushes_nil line g : pushes line [] g g.
Proof. split; [done|by left|by intros t ?%not_elem_of_nil]. Qed.

Lemma callee_keys_mono (l l' : list (Symbol * N)) k :
  (∀ x, x ∈ l → x ∈ l') → k ∈ callee_keys l → k ∈ callee_keys l'.
Proof.
  unfold callee_keys. rewrite !list_elem_of_fmap. intros Hl (x & -> & Hx). exists x. split; [done|by apply Hl].
Qed.

Lemma pushes_trans line d1 d2 g1 g2 g3 :
  pushes line d1 g1 g2 → pushes line d2 g2 g3 → pushes line (d1 ++ d2) g1 g3.
Proof.
  intros [k1 n1 a1] [k2 n2 a2]. split.
  - intros x Hx. by apply k2, k1.
  - intros x Hx. setoid_rewrite elem_of_app. apply n2 in Hx as [Hx|[? ?]]; [|tauto]. apply n1 in Hx. tauto.
  - intros t [Ht|Ht]%elem_of_app; [|by apply a2]. apply a1 in Ht as [Ht|Ht]; [left|by right].
    by apply (callee_keys_mono (out g2)).
Qed.

Lemma push_callee_ok line g t :
  seen_ok g →
  pushes line [t] g (push_callee line g t) ∧ seen_ok (push_callee line g t) ∧ memo (push_callee line g t) = memo g.
Proof.
  intros Hs. unfold push_callee. case_bool_decide as Hk.
  - split_and!; [|done..]. split; [done|by left|]. intros ? ->%list_elem_of_singleton. left. by apply Hs.
  - split_and!; [split| |done]; simpl.
    + intros x Hx. apply elem_of_app. by left.
    + intros x [Hx| ->%list_elem_of_singleton]%elem_of_app; [by left|]. right. split; [by left|done].
    + intros ? ->%list_elem_of_singleton. left. unfold callee_keys. rewrite map_app. apply elem_of_app. right. by left.
    + intros k. unfold callee_keys. cbn [out seen]. rewrite map_app, elem_of_app. simpl.
      rewrite elem_of_union, elem_of_singleton, list_elem_of_singleton. rewrite (Hs k). unfold callee_keys. tauto.
Qed.

Lemma push_callees_ok line defs g :
  seen_ok g →
  let g' := fold_left (push_callee line) defs g in pushes line defs g g' ∧ seen_ok g' ∧ memo g' = memo g.
Proof.
  revert g; induction defs as [|t defs IH]; intros g Hs; simpl; [split_and!; [apply pushes_nil|done..]|].
  destruct (push_callee_ok line g t Hs) as (H1 & H2 & H3). destruct (IH _ H2) as (H4 & H5 & H6).
  split_and!; [|done|by rewrite H6]. exact (pushes_trans _ _ _ _ _ _ H1 H4).
Qed.

Lemma same_symbol_key t s : same_symbol t s = true → key_of t = key_of s.
Proof.
  unfold same_symbol, key_of. rewrite !andb_true_iff. intros [[Hf Hq] Hl].
  destruct (bytes_eqb_spec (file_path t) (file_path s)) as [->|]; [|done].
  destruct (bytes_eqb_spec (qualified_name t) (qualified_name s)) as [->|]; [|done].
  by apply N.eqb_eq in Hl as ->.
Qed.

Lemma push_resolved_ok line defs g w g' w' :
  seen_ok g → push_resolved stopped sym line defs g w = inr (g', w') →
  pushes line defs g g' ∧ seen_ok g' ∧ memo g' = memo g ∧ cache w' = cache w.
Proof.
  revert g w; induction defs as [|t defs IH]; intros g w Hs E; simpl in E.
  { run_step. split_and!; [apply pushes_nil|done..]. }
  repeat run_step. rewrite <- E0. set (g1 := if same_symbol t sym then g else push_callee line g t) in *.
  assert (pushes line [t] g g1 ∧ seen_ok g1 ∧ memo g1 = memo g) as (H1 & H2 & H3).
  { unfold g1. destruct (same_symbol t sym) eqn:Et; [|by apply push_callee_ok]. split_and!; [|done..].
    split; [done|by left|]. intros ? ->%list_elem_of_singleton. right. by apply same_symbol_key. }
  destruct (IH _ _ H2 E1) as (H4 & H5 & H6 & H7). split_and!; [|done|by rewrite H6|done].
  exact (pushes_trans _ _ _ _ _ _ H1 H4).
Qed.

Definition edge (r : Reference) : Prop := is_call_edge (ref_kind r) = true ∧ foreign_owner sym r = false.

Definition memo_ok (g : Gather) (c : WalkCache) : Prop :=
  ∀ f n defs, memo g !! (f, n) = Some defs →
    (∃ c1 c2, resolve_name c1 f n = Some (defs, c2)) ∧ (context_capped c = false → defs = definitions f n).

(** What the rest [refs] of the call sites adds to [g], from [c] to [c']. *)
Record gathered (refs : list Reference) (g : Gather) (c : WalkCache) (outs : list (Symbol * N)) (hit : bool)
    (c' : WalkCache) : Prop := {
  ga_keep x : x ∈ out g → x ∈ outs;
  ga_answered x : x ∈ outs → x ∈ out g ∨ ∃ r, r ∈ refs ∧ edge r ∧ ref_line r = x.2 ∧ answered sym r x.1;
  ga_capped : context_capped c' = false → context_capped c = false;
  ga_exact x : context_capped c' = false → x ∈ outs →
    x ∈ out g ∨ ∃ r, r ∈ refs ∧ edge r ∧ ref_line r = x.2 ∧ x.1 ∈ resolution sym r;
  ga_all r t : context_capped c' = false → hit = false → r ∈ refs → edge r → t ∈ resolution sym r →
    key_of t ∈ callee_keys outs ∨ key_of t = key_of sym;
}.

Lemma gathered_skip r refs g c outs hit c' :
  ¬ edge r → gathered refs g c outs hit c' → gathered (r :: refs) g c outs hit c'.
Proof.
  intros Hr [k a m e l]. split; [done| |done| |].
  - intros x Hx. destruct (a x Hx) as [?|(r' & ? & ?)]; [by left|]. right. exists r'. split; [by right|done].
  - intros x Hc Hx. destruct (e x Hc Hx) as [?|(r' & ? & ?)]; [by left|]. right. exists r'. split; [by right|done].
  - intros r' t Hc Hh [->|Hin]%elem_of_cons He; [done|by eapply l].
Qed.

Lemma gathered_cons r refs defs g g1 c c1 outs hit c' :
  edge r → pushes (ref_line r) defs g g1 → (∀ t, t ∈ defs → answered sym r t) →
  (context_capped c1 = false → context_capped c = false ∧ defs = resolution sym r) →
  gathered refs g1 c1 outs hit c' → gathered (r :: refs) g c outs hit c'.
Proof.
  intros He [pk pn pa] Ha Hc1 [k a m e l]. split.
  - intros x Hx. by apply k, pk.
  - intros x Hx. destruct (a x Hx) as [Hx'|(r' & ? & ?)].
    + apply pn in Hx' as [?|[Hd Hl]]; [by left|]. right. exists r. split_and!; [by left|done|done|by apply Ha].
    + right. exists r'. split; [by right|done].
  - intros Hc. by apply Hc1, m.
  - intros x Hc Hx. destruct (Hc1 (m Hc)) as [_ Hd]. destruct (e x Hc Hx) as [Hx'|(r' & ? & ?)].
    + apply pn in Hx' as [?|[Hi Hl]]; [by left|]. right. exists r. split_and!; [by left|done|done|by rewrite <- Hd].
    + right. exists r'. split; [by right|done].
  - intros r' t Hc Hh [->|Hin]%elem_of_cons He' Ht; [|by eapply l].
    destruct (Hc1 (m Hc)) as [_ Hd]. rewrite <- Hd in Ht. apply pa in Ht as [Ht|Ht]; [left|by right].
    by apply (callee_keys_mono (out g1)).
Qed.

Lemma resolve_memo_ok r g w defs g' w' :
  is_python_path (from_file r) = false → memo_ok g (cache w) →
  resolve_memo sym (to_name r) g w = inr ((defs, g'), w') →
  out g' = out g ∧ seen g' = seen g ∧ memo_ok g' (cache w') ∧ (∀ t, t ∈ defs → answered sym r t)
  ∧ (context_capped (cache w') = false → context_capped (cache w) = false ∧ defs = resolution sym r).
Proof.
  intros Hpy Hm. unfold resolve_memo, answered, resolution. rewrite Hpy.
  destruct (memo g !! (file_path sym, to_name r)) as [l|] eqn:E.
  - intros [= <- <- <-]. destruct (Hm _ _ _ E) as [(c1 & c2 & Hr) Hd]. split_and!; try done.
    + intros t Ht. by exists c1, l, c2.
    + intros Hc. by split; [|apply Hd].
  - intros Er. run_step. apply with_cache_ok in E0. repeat run_step. split_and!; try done.
    + intros f n l. simpl. destruct (decide ((f, n) = (file_path sym, to_name r))) as [[= -> ->]|Hne].
      * rewrite lookup_insert_eq. intros [= <-]. split; [by eauto|]. intros Hc. by destruct (resolve_name_exact _ _ _ _ _ E0 Hc).
      * rewrite lookup_insert_ne by done. intros Hl. destruct (Hm _ _ _ Hl) as [? Hd]. split; [done|].
        intros Hc. apply Hd. by destruct (resolve_name_exact _ _ _ _ _ E0 Hc).
    + intros t Ht. eauto.
    + intros Hc. by apply (resolve_name_exact _ _ _ _ _ E0).
Qed.

Lemma memo_ok_mono g g' c c' :
  memo g' = memo g → (context_capped c' = false → context_capped c = false) → memo_ok g c → memo_ok g' c'.
Proof. intros Hg Hc Hm f n defs. rewrite Hg. intros Hl. destruct (Hm f n defs Hl) as [? Hd]. split; [done|auto]. Qed.

Lemma gathered_done refs g c hit :
  (hit = false → refs = []) → gathered refs g c (out g) hit c.
Proof.
  intros Hh. split; [done|by left|done|by left|]. intros r t _ Hf Hin. rewrite (Hh Hf) in Hin.
  by apply not_elem_of_nil in Hin.
Qed.

Lemma gather_ok refs g w outs hit w' :
  seen_ok g → memo_ok g (cache w) → gather stopped sym refs g w = inr ((outs, hit), w') →
  gathered refs g (cache w) outs hit (cache w').
Proof.
  revert g w; induction refs as [|r refs IH]; intros g w Hs Hm E; simpl in E.
  { run_step. by apply gathered_done. }
  run_step. run_step. rewrite <- E0 in *.
  destruct (is_call_edge (ref_kind r)) eqn:Hk; simpl in E1;
    [|apply gathered_skip; [intros []; congruence|]; by apply IH].
  destruct (foreign_owner sym r) eqn:Ho; [apply gathered_skip; [intros []; congruence|]; by apply IH|].
  assert (edge r) as He by done.
  destruct (MAX_REFS_PER_SYMBOL <? S (examined g)) eqn:Hmax.
  { run_step. by apply gathered_done. }
  set (g1 := mkGather (out g) (seen g) (memo g) (S (examined g))) in *.
  destruct (is_python_path (from_file r)) eqn:Hpy.
  - run_step. apply with_cache_ok in E.
    destruct (push_callees_ok (ref_line r) a0 g1 Hs) as (Hp & Hs2 & Hm2).
    assert (context_capped (cache w1) = false →
            context_capped (cache w0) = false ∧ a0 = resolution sym r) as Hc1.
    { unfold resolution. rewrite Hpy. by apply resolve_reference_exact. }
    apply (gathered_cons r refs a0 g (fold_left (push_callee (ref_line r)) a0 g1) (cache w0) (cache w1)); [done|by destruct Hp| |done|].
    + intros t Ht. unfold answered. rewrite Hpy. by exists (cache w0), a0, (cache w1).
    + apply IH; [done| |done]. apply (memo_ok_mono g1 _ (cache w0)); [exact Hm2|by intros [? _]%Hc1|exact Hm].
  - run_step. destruct a0 as [defs g2]. run_step.
    apply (resolve_memo_ok r g1) in E as (Ho2 & Hs2 & Hm2 & Ha & Hc1); [|done|done].
    assert (seen_ok g2) as Hs2' by (intros k; rewrite Hs2, Ho2; apply Hs).
    apply push_resolved_ok in E1 as (Hp & Hs3 & Hm3 & Hw); [|done].
    apply (gathered_cons r refs defs g a0 (cache w0) (cache w1)); [done| |done|done|].
    + destruct Hp as [k n all]. rewrite Ho2 in k, n. by split.
    + rewrite <- Hw. apply IH; [done| |done]. rewrite Hw. by apply (memo_ok_mono g2 _ (cache w1)).
Qed.
End callees.

Section callees_of.
Context `{CodeIndexLaws} (stopped : nat → bool).

Lemma callees_of_ok sym w outs hit w' :
  callees_of stopped sym w = inr ((outs, hit), w') →
  (∀ x, x ∈ outs → reported sym x.1 x.2)
  ∧ (context_capped (cache w') = false →
     (∀ x, x ∈ outs → calls sym x.1 x.2)
     ∧ (hit = false → ∀ t line, calls sym t line → key_of t ∈ callee_keys outs ∨ key_of t = key_of sym)).
Proof.
  intros E. unfold callees_of in E. run_step. rename a into refs.
  unfold lift in E0. destruct (references_in_file_range _ _ _) as [refs'|] eqn:Er; [|done]. run_step.
  assert (∀ r, r ∈ refs → edge sym r → call_site sym r) as Hc by (intros r Hr []; split; [eauto|done]).
  apply gather_ok in E1 as [_ Ha Hm He Hall];
    [|intros k; split; [by intros ?%elem_of_empty|by intros ?%not_elem_of_nil]|intros f n defs; simpl; by rewrite lookup_empty].
  split; [|intros Hcap; split].
  - intros x Hx. destruct (Ha x Hx) as [[]%not_elem_of_nil|(r & ? & ? & ? & ?)]. exists r. auto.
  - intros x Hx. destruct (He x Hcap Hx) as [[]%not_elem_of_nil|(r & ? & ? & ? & ?)]. exists r. auto.
  - intros -> t line (r & ((refs' & E & Hr) & Hk & Ho) & _ & Ht).
    apply (Hall r); [done..| |done|done]. congruence.
Qed.
End callees_of.

(** ** The tree of parents *)

Section traced.
Context (R : Symbol → Symbol → N → Prop) (origins : list Symbol).

(** A symbol at depth [n] of the search tree the parents record. *)
Inductive traced (ps : gmap SymbolKey (Symbol * N)) : nat → Symbol → Prop :=
  | traced_origin o : o ∈ origins → traced ps 0 o
  | traced_call n s t line :
      key_of t ∉ keys_of origins → ps !! key_of t = Some (s, line) → R s t line → traced ps n s →
      traced ps (S n) t.

Lemma elem_of_keys_of l k : k ∈ keys_of l ↔ ∃ s, k = key_of s ∧ s ∈ l.
Proof. unfold keys_of. rewrite elem_of_list_to_set. apply list_elem_of_fmap. Qed.

Lemma traced_insert ps k v n s : ps !! k = None → traced ps n s → traced (<[k := v]> ps) n s.
Proof.
  intros Hk. induction 1 as [o Ho|n s t line Ht Hl HR _ IH]; [by constructor|].
  econstructor; [done| |done|done]. rewrite lookup_insert_ne; [done|congruence].
Qed.

Lemma traced_depth ps n m s t : traced ps n s → traced ps m t → key_of s = key_of t → n = m.
Proof.
  intros Hs. revert m t. induction Hs as [o Ho|n p s line Hs Hl _ _ IH]; intros m t Ht Hk; inversion Ht; subst.
  - done.
  - exfalso. match goal with H : _ ∉ keys_of _ |- _ => apply H end. rewrite <- Hk. apply elem_of_keys_of. eauto.
  - exfalso. apply Hs. rewrite Hk. apply elem_of_keys_of. eauto.
  - f_equal. rewrite Hk in Hl. simplify_eq. by eapply IH.
Qed.

(** The keys above an origin are all different, so depths are at most the number
    of parents. *)
Lemma traced_keys ps n s :
  traced ps n s → ∃ ks : list SymbolKey, length ks = n ∧ NoDup ks ∧
    ∀ k, k ∈ ks → k ∈ dom ps ∧ ∃ m x, m ≤ n ∧ traced ps m x ∧ key_of x = k.
Proof.
  induction 1 as [o Ho|n p s line Hs Hl HR Hp (ks & Hlen & Hnd & Hks)].
  { exists []. split_and!; [done|constructor|by intros k ?%not_elem_of_nil]. }
  assert (traced ps (S n) s) as Ht by (by econstructor).
  exists (key_of s :: ks). split_and!; [simpl; lia| |].
  - constructor; [|done]. intros Hin. destruct (Hks _ Hin) as [_ (m & x & Hm & Hx & Hk)].
    pose proof (traced_depth _ _ _ _ _ Hx Ht Hk). lia.
  - intros k [->|Hin]%elem_of_cons.
    + split; [apply elem_of_dom; eauto|]. exists (S n), s. auto.
    + destruct (Hks _ Hin) as [Hd (m & x & Hm & Hx & Hk)]. split; [done|]. exists m, x. auto with lia.
Qed.

Lemma traced_size ps n s : traced ps n s → n ≤ size ps.
Proof.
  intros (ks & <- & Hnd & Hks)%traced_keys. rewrite <- size_dom. rewrite <- (size_list_to_set (C := gset SymbolKey) ks) by done.
  apply subseteq_size. intros k Hk. apply elem_of_list_to_set in Hk. by destruct (Hks k Hk).
Qed.

Lemma chain_loop_ok ps n s fuel acc :
  traced ps n s → dom ps ## keys_of origins → n < fuel →
  ∃ l m, chain_loop fuel ps (keys_of origins) s acc = Some (l ++ (s, m) :: acc)
    ∧ is_chain R origins (l ++ [(s, m)]) ∧ length l = n.
Proof.
  intros Hs Hdis. revert fuel acc. induction Hs as [o Ho|n p s line Hs Hl HR Hp IH]; intros [|fuel] acc Hf; try lia.
  - assert (key_of o ∈ keys_of origins) as Hk by (apply elem_of_keys_of; eauto).
    assert (ps !! key_of o = None) as Hn by (apply not_elem_of_dom; set_solver).
    exists [], None. cbn [chain_loop]. rewrite bool_decide_true, Hn by done. split_and!; [done|by constructor|done].
  - cbn [chain_loop]. rewrite bool_decide_false, Hl by done.
    destruct (IH fuel ((s, Some line) :: acc)) as (l & m & E & Hc & Hlen); [lia|].
    exists (l ++ [(p, m)]), (Some line). cbn [fmap option_fmap option_map snd]. rewrite E.
    split_and!; [by rewrite <- !app_assoc|rewrite <- app_assoc; by apply chain_call|].
    rewrite length_app. simpl. lia.
Qed.
End traced.

(** ** The search *)

Section walking.
Context `{CodeIndexLaws} (stopped : nat → bool) (origins targets : list Symbol) (max_depth : nat).

Definition walk_keys : gset SymbolKey := keys_of origins.
Definition goal_keys : gset SymbolKey := keys_of targets.

Record walking (s : Search) : Prop := {
  wk_queue x d : (x, d) ∈ queue s → traced reported origins (parents s) d x ∧ d ≤ max_depth;
  wk_visited : visited s = dom (parents s) ∪ walk_keys;
  wk_disjoint : dom (parents s) ## walk_keys;
  wk_targets : visited s ## goal_keys;
}.

(** [k] was reached within [d] edges, all of them exact. *)
Definition known (s : Search) (d : nat) (k : SymbolKey) : Prop :=
  k ∈ visited s ∧ ∃ y m, m ≤ d ∧ traced calls origins (parents s) m y ∧ key_of y = k.

Definition explored (s : Search) (e : nat) (x : Symbol) : Prop :=
  ∀ t line, calls x t line → known s (S e) (key_of t).

(** While no bound was hit: the queue holds two levels, and every visited symbol
    waits in it, was explored, or is the one [cur] being explored. *)
Record exact (cur : option Symbol) (d : nat) (s : Search) : Prop := {
  ex_levels : ∃ A B, queue s = map (λ x, (x, d)) A ++ map (λ x, (x, S d)) B;
  ex_queue x e : (x, e) ∈ queue s → traced calls origins (parents s) e x;
  ex_known k : k ∈ visited s → ∃ x e, key_of x = k ∧ traced calls origins (parents s) e x ∧ e ≤ S d
    ∧ ((x, e) ∈ queue s ∨ explored s e x ∨ (e = d ∧ cur = Some x));
}.

Lemma known_mono s s' d d' k :
  (∀ k, k ∈ visited s → k ∈ visited s') → (∀ n x, traced calls origins (parents s) n x → traced calls origins (parents s') n x) →
  d ≤ d' → known s d k → known s' d' k.
Proof.
  intros Hv Ht Hd (Hk & y & m & Hm & Hy & E). split; [auto|]. exists y, m. split_and!; [lia|auto|done].
Qed.

Definition visit (sym : Symbol) (depth : nat) (def : Symbol) (line : N) (s : Search) : Search :=
  mkSearch (queue s ++ [(def, S depth)]) ({[key_of def]} ∪ visited s)
    (<[key_of def := (sym, line)]> (parents s)) (hit_bound s).

Lemma not_visited s k : walking s → k ∉ visited s → parents s !! k = None ∧ k ∉ walk_keys.
Proof.
  intros [] Hk. rewrite wk_visited0 in Hk. apply not_elem_of_union in Hk as [Hd Hw].
  split; [by apply not_elem_of_dom|done].
Qed.

Lemma visit_walking sym depth def line s :
  walking s → key_of def ∉ visited s → key_of def ∉ goal_keys →
  traced reported origins (parents s) depth sym → depth < max_depth → reported sym def line →
  walking (visit sym depth def line s).
Proof.
  intros Hs Hk Hg Ht Hd HR. destruct (not_visited s _ Hs Hk) as [Hn Hw]. destruct Hs as [q v dj tg].
  split; unfold visit; cbn [queue visited parents].
  - intros x e [Hx| [= -> ->]%list_elem_of_singleton]%elem_of_app.
    + destruct (q x e Hx). split; [by apply traced_insert|done].
    + split; [|lia]. apply (traced_call _ _ _ depth sym def line); [done|by rewrite lookup_insert_eq|done|].
      by apply traced_insert.
  - rewrite dom_insert_L, v. set_solver.
  - rewrite dom_insert_L. apply disjoint_union_l. by rewrite disjoint_singleton_l.
  - apply disjoint_union_l. by rewrite disjoint_singleton_l.
Qed.

Lemma visit_exact cur sym depth def line s :
  walking s → exact cur depth s → key_of def ∉ visited s →
  traced calls origins (parents s) depth sym → calls sym def line → exact cur depth (visit sym depth def line s).
Proof.
  intros Hs [lv q kn] Hk Ht HR. destruct (not_visited s _ Hs Hk) as [Hn Hw].
  assert (∀ n x, traced calls origins (parents s) n x → traced calls origins (parents (visit sym depth def line s)) n x)
    as Hins by (intros n x; by apply traced_insert).
  assert (traced calls origins (parents (visit sym depth def line s)) (S depth) def) as Hdef.
  { apply (traced_call _ _ _ depth sym def line); [done|by apply lookup_insert_eq|done|by apply Hins]. }
  split; cbn [visit queue visited].
  - destruct lv as (A & B & ->). exists A, (B ++ [def]). by rewrite map_app, app_assoc.
  - intros x e [Hx| [= -> ->]%list_elem_of_singleton]%elem_of_app; [by apply Hins, q|done].
  - intros k [->%elem_of_singleton|Hv]%elem_of_union.
    + exists def, (S depth). split_and!; [done..|]. left. apply elem_of_app. right. by left.
    + destruct (kn k Hv) as (x & e & Hx & Htx & He & Hcase). exists x, e. split_and!; [done|by apply Hins|done|].
      destruct Hcase as [Hq|[Hex|Hcur]]; [left; apply elem_of_app; by left| |by right; right].
      right; left. intros t l Hc. eapply known_mono; [| |done|by eapply Hex]; [|done]. set_solver.
Qed.

(** No two indexed definitions share file, name and line. *)
Definition keys_unique : Prop := ∀ s t, s ∈ symbols → t ∈ symbols → key_of s = key_of t → s = t.

(** What a report of a found chain says. *)
Definition found_chain (report : CallPathReport) : Prop :=
  found report = true ∧ ∃ l x m, steps report = map (λ '(s, line), step_of s line) (l ++ [(x, m)])
    ∧ path_length report = length l ∧ length l ≤ max_depth
    ∧ is_chain reported origins (l ++ [(x, m)]) ∧ key_of x ∈ goal_keys
    ∧ (bounded report = false →
       is_chain calls origins (l ++ [(x, m)])
       ∧ (keys_unique →
          ∀ l' y m', is_chain calls origins (l' ++ [(y, m')]) → key_of y ∈ goal_keys → length l ≤ length l')).

Context (origins_indexed : ∀ o, o ∈ origins → o ∈ symbols).

Lemma calls_indexed s t line : calls s t line → t ∈ symbols.
Proof.
  intros (r & _ & _ & Ht). unfold resolution in Ht. destruct (is_python_path _).
  - by eapply reference_definitions_indexed.
  - by eapply definitions_indexed.
Qed.

Lemma traced_indexed ps n s : traced calls origins ps n s → s ∈ symbols.
Proof using origins_indexed. destruct 1; [auto|by eapply calls_indexed]. Qed.

Lemma chain_indexed l s m : is_chain calls origins (l ++ [(s, m)]) → s ∈ symbols.
Proof using origins_indexed.
  inversion 1 as [o Ho E|l' s' m' t line Hc HR E].
  - change [(o, None)] with ([] ++ [(o, @None N)]) in E. apply app_inj_tail in E as [_ [= <- <-]]. auto.
  - change [(s', m'); (t, Some line)] with ([(s', m')] ++ [(t, Some line)]) in E. rewrite app_assoc in E.
    apply app_inj_tail in E as [_ [= <- <-]]. by eapply calls_indexed.
Qed.

(** Every chain shorter than the queue's first level ends in a known symbol. *)
Lemma exact_reach cur d s l t m :
  keys_unique → exact cur d s → walk_keys ⊆ visited s → is_chain calls origins (l ++ [(t, m)]) →
  (∀ x e, (x, e) ∈ queue s → length l ≤ e) → (cur = None ∨ length l ≤ d) → known s (length l) (key_of t).
Proof using origins_indexed.
  intros unique [lv q kn] Ho Hc. remember (l ++ [(t, m)]) as c eqn:Ec. revert l t m Ec.
  induction Hc as [o Hin|l0 p m0 t line Hc IH HR]; intros l t' m' Ec Hq Hcur.
  - change [(o, @None N)] with ([] ++ [(o, @None N)]) in Ec. apply app_inj_tail in Ec as [<- [= <- <-]].
    assert (key_of o ∈ visited s) as Hv by (apply Ho, elem_of_keys_of; eauto).
    split; [done|]. exists o, 0. split_and!; [lia|by constructor|done].
  - change [(p, m0); (t, Some line)] with ([(p, m0)] ++ [(t, Some line)]) in Ec. rewrite app_assoc in Ec.
    apply app_inj_tail in Ec as [<- [= <- <-]]. rewrite length_app in *. simpl in *.
    destruct (IH l0 p m0 eq_refl) as (Hv & y & n & Hn & Hy & Hk);
      [intros x e He; specialize (Hq x e He); lia|destruct Hcur; [by left|right; lia]|].
    destruct (kn _ Hv) as (x & e & Hx & Htx & _ & Hcase).
    pose proof (traced_depth _ _ _ _ _ _ _ Htx Hy (eq_trans Hx (eq_sym Hk))) as ->.
    assert (x = p) as -> by (apply unique; [by eapply traced_indexed|by eapply chain_indexed|done]).
    destruct Hcase as [Hin|[Hex|[-> Hc']]].
    + specialize (Hq _ _ Hin). lia.
    + eapply known_mono; [done..| |by eapply Hex]. lia.
    + destruct Hcur as [->|Hcur]; [done|lia].
Qed.

Lemma levels_ge cur d s x e : exact cur d s → (x, e) ∈ queue s → d ≤ e ≤ S d.
Proof.
  intros [(A & B & E) _ _] Hx. rewrite E in Hx.
  apply elem_of_app in Hx as [Hx|Hx]; apply list_elem_of_fmap in Hx as (? & [= -> ->] & _); lia.
Qed.

Lemma traced_visited R s n x : walking s → traced R origins (parents s) n x → key_of x ∈ visited s.
Proof.
  intros [] Ht. rewrite wk_visited0. apply elem_of_union. destruct Ht as [o Ho|].
  - right. apply elem_of_keys_of. eauto.
  - left. apply elem_of_dom. eauto.
Qed.

Lemma walk_keys_visited s : walking s → walk_keys ⊆ visited s.
Proof. intros []. rewrite wk_visited0. apply union_subseteq_r. Qed.

(** A target gets a parent last; the tree above it stays. *)
Lemma target_parent sym depth def line s (ps := <[key_of def := (sym, line)]> (parents s)) :
  walking s → key_of def ∈ goal_keys →
  dom ps ## keys_of origins
  ∧ ∀ R, traced R origins (parents s) depth sym → R sym def line → traced R origins ps (S depth) def.
Proof.
  intros Hs Hg. pose proof (wk_targets s Hs) as Htg. rewrite elem_of_disjoint in Htg.
  assert (key_of def ∉ visited s) as Hnv by (intros ?; by eapply Htg).
  destruct (not_visited s _ Hs Hnv) as [Hn Hw]. split.
  - unfold ps. rewrite dom_insert_L. apply disjoint_union_l. rewrite disjoint_singleton_l. split; [done|apply Hs].
  - intros R HtR HR. apply (traced_call _ _ _ depth sym def line); [done|by apply lookup_insert_eq|done|].
    by apply traced_insert.
Qed.

(** The chain built when a callee is a target. *)
Lemma reconstruct_ok R sym depth def line s (ps := <[key_of def := (sym, line)]> (parents s)) :
  walking s → key_of def ∈ goal_keys → traced R origins (parents s) depth sym → R sym def line →
  ∃ l m, chain_loop (S (size ps)) ps walk_keys def [] = Some (l ++ [(def, m)])
    ∧ is_chain R origins (l ++ [(def, m)]) ∧ length l = S depth.
Proof.
  intros Hs Hg Ht HR. destruct (target_parent sym depth def line s Hs Hg) as [Hdj Hdef].
  apply chain_loop_ok; [by apply Hdef|done|]. apply le_n_S. by eapply (traced_size R origins ps (S depth) def), Hdef.
Qed.

Lemma reconstruct_found sym depth def line s steps :
  walking s → depth < max_depth → key_of def ∈ goal_keys →
  traced reported origins (parents s) depth sym → reported sym def line →
  (hit_bound s = false → exact (Some sym) depth s ∧ traced calls origins (parents s) depth sym ∧ calls sym def line) →
  reconstruct def (<[key_of def := (sym, line)]> (parents s)) walk_keys = Some steps →
  found_chain (found_report steps (hit_bound s)).
Proof using origins_indexed.
  intros Hs Hd Hg Ht HR Hex Hr.
  destruct (reconstruct_ok reported sym depth def line s Hs Hg Ht HR) as (l & m & El & Hc & Hlen).
  unfold reconstruct in Hr. rewrite El in Hr. cbn in Hr. injection Hr as <-.
  split; [done|]. exists l, def, m. unfold found_report. cbn. rewrite length_map, length_app. simpl.
  split_and!; [done|lia|lia|done|done|]. intros Hb. destruct (Hex Hb) as (He & Htc & HRc).
  destruct (reconstruct_ok calls sym depth def line s Hs Hg Htc HRc) as (l2 & m2 & El2 & Hc2 & Hlen2).
  rewrite El in El2. injection El2 as E2. apply app_inj_tail in E2 as [<- [= <-]]. split; [done|].
  intros unique l' y m' Hy Hgy. destruct (decide (length l ≤ length l')); [done|exfalso].
  destruct (exact_reach (Some sym) depth s l' y m' unique He) as [Hv _]; [by apply walk_keys_visited|done| |right; lia|].
  - intros x e Hx. pose proof (levels_ge _ _ _ _ _ He Hx). lia.
  - pose proof (wk_targets s Hs) as Htg. rewrite elem_of_disjoint in Htg. by eapply Htg.
Qed.

Lemma expand_ok sym depth callees s w r w' :
  expand stopped goal_keys walk_keys sym depth callees s w = inr (r, w') →
  walking s → depth < max_depth → traced reported origins (parents s) depth sym →
  (∀ x, x ∈ callees → reported sym x.1 x.2) →
  (hit_bound s = false → exact (Some sym) depth s ∧ traced calls origins (parents s) depth sym
                         ∧ ∀ x, x ∈ callees → calls sym x.1 x.2) →
  match r with
  | inl report => found_chain report
  | inr s' => walking s' ∧ hit_bound s' = hit_bound s ∧ (∀ k, k ∈ visited s → k ∈ visited s')
      ∧ (∀ k, k ∈ callee_keys callees → k ∈ visited s')
      ∧ (hit_bound s' = false → exact (Some sym) depth s' ∧ traced calls origins (parents s') depth sym)
  end.
Proof using origins_indexed.
  revert s w; induction callees as [|[def line] callees IH]; intros s w E Hs Hd Ht HR Hex; simpl in E.
  { run_step. split_and!; [done..|by intros k ?%not_elem_of_nil|]. intros Hh. destruct (Hex Hh) as (? & ? & _). done. }
  repeat run_step. clear E0.
  assert (reported sym def line) as HR1 by (apply (HR (def, line)); left).
  case_bool_decide as Hg.
  { destruct (reconstruct _ _ _) as [steps|] eqn:Er; run_step.
    apply (reconstruct_found sym depth def line s steps); [done..| |done]. intros Hh.
    destruct (Hex Hh) as (? & ? & Hc). split_and!; [done..|]. apply (Hc (def, line)). left. }
  case_bool_decide as Hv.
  - specialize (IH s _ E1 Hs Hd Ht (λ x Hx, HR x (proj2 (elem_of_cons _ _ _) (or_intror Hx)))).
    destruct r as [report|s'].
    + apply IH. intros Hh. destruct (Hex Hh) as (? & ? & Hc). split_and!; [done..|]. intros x Hx. apply Hc. by right.
    + destruct IH as (? & ? & Hm & Hk & ?).
      { intros Hh. destruct (Hex Hh) as (? & ? & Hc). split_and!; [done..|]. intros x Hx. apply Hc. by right. }
      split_and!; try done. intros k [->|Hin]%elem_of_cons; [by apply Hm|by apply Hk].
  - change (mkSearch _ _ _ _) with (visit sym depth def line s) in E1.
    destruct (not_visited s _ Hs Hv) as [Hn _].
    apply IH in E1; [|by apply visit_walking|done|by apply traced_insert|intros x Hx; apply HR; by right|].
    + destruct r as [report|s']; [done|]. destruct E1 as (? & ? & Hm & Hk & ?). split_and!; try done.
      * intros k Hin. apply Hm. cbn. apply elem_of_union. by right.
      * intros k [->|Hin]%elem_of_cons; [|by apply Hk]. apply Hm. cbn. apply elem_of_union. left. by apply elem_of_singleton.
    + intros Hh. destruct (Hex Hh) as (He & Htc & Hc). split_and!.
      * apply visit_exact; [done..|]. apply (Hc (def, line)). left.
      * by apply traced_insert.
      * intros x Hx. apply Hc. by right.
Qed.

Lemma pop_walking x q s hit :
  queue s = x :: q → walking s → walking (mkSearch q (visited s) (parents s) hit).
Proof.
  intros Hq [wq v d t]. split; [|done..]. intros y e Hy. apply wq. rewrite Hq. by right.
Qed.

Lemma pop_exact sym depth q s d :
  queue s = (sym, depth) :: q → exact None d s → exact (Some sym) depth (mkSearch q (visited s) (parents s) false).
Proof.
  intros Hq [(A & B & HAB) xq kn]. rewrite Hq in HAB.
  assert (d ≤ depth ∧ ∃ A B, q = map (λ x, (x, depth)) A ++ map (λ x, (x, S depth)) B) as [Hd Hlv].
  { destruct A as [|a A]; simpl in HAB.
    - destruct B as [|b B]; [done|]. injection HAB as -> -> ->. split; [lia|]. exists B, []. by rewrite app_nil_r.
    - injection HAB as -> -> ->. split; [lia|]. by exists A, B. }
  split; [done| |].
  - intros x e Hx. apply xq. rewrite Hq. by right.
  - intros k Hk. destruct (kn k Hk) as (x & e & Hx & Ht & He & Hc). exists x, e. split_and!; [done|done|lia|].
    destruct Hc as [Hin|[Hex|[_ ?]]]; [|by right; left|done].
    rewrite Hq in Hin. apply elem_of_cons in Hin as [[= -> ->]|Hin]; [by right; right|by left].
Qed.

Lemma exact_finish sym depth s :
  exact (Some sym) depth s → explored s depth sym → exact None depth s.
Proof.
  intros [lv q kn] Hex. split; [done..|]. intros k Hk. destruct (kn k Hk) as (x & e & ? & ? & ? & Hc).
  exists x, e. split_and!; [done..|]. destruct Hc as [?|[?|[-> [= ->]]]]; auto.
Qed.

Lemma exact_explored cur depth s sym (callees : list (Symbol * N)) :
  walking s → exact cur depth s → traced calls origins (parents s) depth sym →
  (∀ k, k ∈ callee_keys callees → k ∈ visited s) →
  (∀ t line, calls sym t line → key_of t ∈ callee_keys callees ∨ key_of t = key_of sym) →
  explored s depth sym.
Proof.
  intros Hs [_ _ kn] Ht Hv Hall t line Hc.
  assert (key_of t ∈ visited s) as Hk.
  { destruct (Hall t line Hc) as [?| ->]; [by apply Hv|by eapply traced_visited]. }
  split; [done|]. destruct (kn _ Hk) as (x & e & ? & ? & ? & _). by exists x, e.
Qed.

Definition no_chain : Prop :=
  keys_unique → ∀ l x m, is_chain calls origins (l ++ [(x, m)]) → key_of x ∉ goal_keys.

Lemma walk_ok fuel s w r w' :
  walk stopped goal_keys walk_keys fuel max_depth s w = inr (r, w') →
  walking s → (hit_bound s = false → ∃ d, exact None d s) →
  match r with
  | inl report => found_chain report
  | inr s' => hit_bound s' = false → no_chain
  end.
Proof using origins_indexed.
  revert s w; induction fuel as [|fuel IH]; intros s w E Hs Hex; [done|]. cbn [walk] in E.
  destruct (queue s) as [|[sym depth] q] eqn:Hq.
  { run_step. intros Hh unique l x m Hc Hg. destruct (Hex Hh) as [d He].
    destruct (exact_reach None d s l x m unique He) as [Hv _]; [by apply walk_keys_visited|done| |by left|].
    - intros y e Hy. rewrite Hq in Hy. by apply not_elem_of_nil in Hy.
    - pose proof (wk_targets s Hs) as Htg. rewrite elem_of_disjoint in Htg. by eapply Htg. }
  repeat run_step. clear E0. destruct (Nat.leb_spec max_depth depth) as [Hd|Hd].
  { eapply IH; [done|by apply (pop_walking (sym, depth) q s true)|done]. }
  destruct (MAX_VISITED <=? _); [by run_step|].
  apply bind_ok in E1 as ([callees hit] & w1 & Ec & E).
  apply bind_ok in E as (capped & w2 & [= <- <-] & E).
  apply bind_ok in E as (r' & w3 & Ee & E).
  apply callees_of_ok in Ec as [HR Hcap]. cbn [visited parents hit_bound set_hit queue] in Ee.
  set (s1 := mkSearch q (visited s) (parents s) (hit_bound s || hit || context_capped (cache w1))) in *.
  change (set_hit _ _) with s1 in Ee.
  assert (walking s1) as Hs1 by (by eapply pop_walking).
  assert (hit_bound s1 = false → hit_bound s = false ∧ hit = false ∧ context_capped (cache w1) = false) as Hh1.
  { simpl. rewrite !orb_false_iff. tauto. }
  destruct (wk_queue s Hs sym depth) as [Ht _]; [rewrite Hq; left|].
  apply expand_ok in Ee; [|done..|].
  - destruct r' as [report|s']; [run_step; done|].
    destruct Ee as (Hs' & Hhb & Hv & Hk & He'). eapply IH; [done..|]. intros Hh. destruct (He' Hh) as [He'' Htc].
    rewrite Hhb in Hh. destruct (Hh1 Hh) as (_ & -> & Hc). destruct (Hcap Hc) as [_ Hall].
    exists depth. apply (exact_finish sym); [done|]. eapply exact_explored; [done..|]. by apply Hall.
  - intros Hh. destruct (Hh1 Hh) as (Hh0 & -> & Hc). destruct (Hex Hh0) as [d He]. split_and!.
    + unfold s1. rewrite Hh0, Hc. by eapply pop_exact.
    + apply (ex_queue _ _ _ He). rewrite Hq. left.
    + by apply Hcap.
Qed.

(** ** Seeding *)

(** The origins [seeded] so far, none of them a target. *)
Record seeding (seeded : list Symbol) (s : Search) : Prop := {
  sd_visited : visited s = keys_of seeded;
  sd_parents : parents s = ∅;
  sd_hit : hit_bound s = false;
  sd_targets : keys_of seeded ## goal_keys;
  sd_queue : ∃ A, queue s = map (λ x, (x, 0)) A ∧ (∀ x, x ∈ A → x ∈ seeded) ∧ keys_of seeded ⊆ keys_of A;
}.

Lemma keys_of_snoc l o : keys_of (l ++ [o]) = {[key_of o]} ∪ keys_of l.
Proof. unfold keys_of. rewrite map_app, list_to_set_app_L. simpl. by rewrite union_empty_r_L, union_comm_L. Qed.

Lemma seeding_step seeded s o :
  seeding seeded s → key_of o ∉ goal_keys →
  seeding (seeded ++ [o])
    (if bool_decide (key_of o ∈ visited s) then s
     else mkSearch (queue s ++ [(o, 0)]) ({[key_of o]} ∪ visited s) (parents s) (hit_bound s)).
Proof.
  intros [sv sp sh st (A & Eq & HA & Hkeys)] Hg.
  assert (keys_of (seeded ++ [o]) ## goal_keys) as Hdj.
  { rewrite keys_of_snoc. apply disjoint_union_l. by rewrite disjoint_singleton_l. }
  case_bool_decide as Hv.
  - assert (keys_of (seeded ++ [o]) = keys_of seeded) as Ek.
    { rewrite keys_of_snoc. apply subseteq_union_1_L. by rewrite <- sv; apply singleton_subseteq_l. }
    split; rewrite ?Ek; try done. exists A. split_and!; [done| |done]. intros x Hx. apply elem_of_app. left. auto.
  - split; cbn [visited parents hit_bound queue]; try done; [by rewrite keys_of_snoc, sv|].
    exists (A ++ [o]). split_and!; [by rewrite Eq, map_app| |by rewrite !keys_of_snoc; apply union_mono_l].
    intros x [Hx|Hx]%elem_of_app; apply elem_of_app; [left; auto|by right].
Qed.

Lemma seeding_done s :
  seeding origins s → walking s ∧ exact None 0 s ∧ hit_bound s = false.
Proof.
  intros [sv sp sh st (A & Eq & HA & Hkeys)]. split_and!; [split|split|done].
  - rewrite Eq. intros x d (y & [= -> ->] & Hy)%list_elem_of_fmap. split; [apply traced_origin; auto|lia].
  - by rewrite sv, sp, dom_empty_L, union_empty_l_L.
  - rewrite sp, dom_empty_L. apply disjoint_empty_l.
  - by rewrite sv.
  - exists A, []. by rewrite app_nil_r.
  - rewrite Eq. intros x d (y & [= -> ->] & Hy)%list_elem_of_fmap. apply traced_origin; auto.
  - rewrite sv. intros k Hk. apply Hkeys, elem_of_keys_of in Hk as (x & -> & Hx). exists x, 0.
    split_and!; [done|apply traced_origin; auto|lia|]. left. rewrite Eq. apply list_elem_of_fmap. eauto.
Qed.

Lemma seed_ok seeded os s w r w' :
  origins = seeded ++ os → seeding seeded s →
  seed stopped goal_keys os (keys_of seeded) s w = inr (r, w') →
  match r with
  | inl report => found_chain report
  | inr (s', keys) => keys = walk_keys ∧ walking s' ∧ exact None 0 s' ∧ hit_bound s' = false
  end.
Proof.
  revert seeded s w; induction os as [|o os IH]; intros seeded s w Ho Hs E; cbn [seed] in E.
  { run_step. rewrite app_nil_r in Ho. subst seeded. split; [done|by apply seeding_done]. }
  repeat run_step. clear E0. case_bool_decide as Hg.
  { run_step. assert (o ∈ origins) as Hin by (rewrite Ho; apply elem_of_app; right; left).
    split; [done|]. exists [], o, None. split_and!; [done|done|simpl; lia|by apply (chain_origin _ _ o)|done|].
    intros _. split; [by apply (chain_origin _ _ o)|simpl; intros; lia]. }
  rewrite <- keys_of_snoc in E1. pose proof (seeding_step seeded s o Hs Hg) as Hs'.
  case_bool_decide; eapply IH; try exact E1; try exact Hs'; by rewrite <- app_assoc.
Qed.
End walking.

(** ** Every request gets an answer *)

Create HintDb total.

Section total.
Context `{CodeIndexLaws} (stopped : nat → bool).

(** [m] ends with a result or a failure of its own. *)
Definition total {A} (m : M A) : Prop := ∀ w, m w ≠ inl OutOfFuel.

Lemma total_bind {A B} (m : M A) (f : A → M B) : total m → (∀ a, total (f a)) → total (m ≫= f).
Proof.
  intros Hm Hf w. rewrite bind_run. destruct (m w) as [e|[a w1]] eqn:E.
  - intros [= ->]. by apply (Hm w).
  - apply Hf.
Qed.

Lemma total_ret {A} (a : A) : total (ret a).
Proof. done. Qed.

Lemma total_checkpoint : total (checkpoint stopped).
Proof. intros w. unfold checkpoint. by destruct (stopped _). Qed.

Lemma total_lift {A} (r : option A) : total (lift r).
Proof. intros w. by destruct r. Qed.

Lemma total_with_cache {A} (f : WalkCache → option (A * WalkCache)) : total (with_cache f).
Proof. intros w. unfold with_cache. by destruct (f _) as [[]|]. Qed.

#[local] Hint Resolve total_bind total_ret total_checkpoint total_lift total_with_cache : total.

Lemma total_push_resolved sym line defs g : total (push_resolved stopped sym line defs g).
Proof. revert g; induction defs as [|d defs IH]; intros g; cbn [push_resolved]; auto with total. Qed.

Lemma total_resolve_memo sym name g : total (resolve_memo sym name g).
Proof. unfold resolve_memo. destruct (memo g !! _); auto with total. Qed.

#[local] Hint Resolve total_push_resolved total_resolve_memo : total.

Lemma total_gather sym refs g : total (gather stopped sym refs g).
Proof.
  revert g; induction refs as [|r refs IH]; intros g; cbn [gather]; [auto with total|].
  apply total_bind; [auto with total|intros _]. destruct (negb _); [done|]. destruct (foreign_owner _ _); [done|].
  destruct (_ <? _); [auto with total|]. destruct (is_python_path _).
  - apply total_bind; auto with total.
  - apply total_bind; [auto with total|]. intros [defs g']. apply total_bind; auto with total.
Qed.

Lemma total_callees_of sym : total (callees_of stopped sym).
Proof. apply total_bind; [auto with total|]. intros refs. apply total_gather. Qed.

Lemma total_resolve_endpoint input : total (resolve_endpoint input).
Proof.
  apply total_bind; [auto with total|]. intros [r l].
  destruct (refusal r) as [[]|]; try done; by destruct (matched_symbols r l).
Qed.

Lemma total_seed targets os keys s : total (seed stopped targets os keys s).
Proof.
  revert keys s; induction os as [|o os IH]; intros keys s; cbn [seed]; [auto with total|].
  apply total_bind; [auto with total|intros _]. case_bool_decide; [auto with total|]. by case_bool_decide.
Qed.

Lemma expand_total origins targets md sym depth callees s w :
  walking origins targets md s → depth < md → traced reported origins (parents s) depth sym →
  (∀ x, x ∈ callees → reported sym x.1 x.2) →
  match expand stopped (keys_of targets) (keys_of origins) sym depth callees s w with
  | inl e => e ≠ OutOfFuel
  | inr (inl _, _) => True
  | inr (inr s', _) => length (queue s') + size (visited s) = length (queue s) + size (visited s')
                       ∧ size (visited s) ≤ size (visited s')
  end.
Proof.
  revert s w; induction callees as [|[def line] callees IH]; intros s w Hs Hd Ht HR; cbn [expand]; [simpl; lia|].
  assert (reported sym def line) as HR1 by (apply (HR (def, line)); left).
  assert (∀ x, x ∈ callees → reported sym x.1 x.2) as HR2 by (intros x Hx; apply HR; by right).
  rewrite bind_run. unfold checkpoint at 1. destruct (stopped _); [done|].
  case_bool_decide as Hg.
  { destruct (reconstruct_ok origins targets md reported sym depth def line s Hs Hg Ht HR1) as (l & m & El & _).
    unfold reconstruct. unfold walk_keys in El. by rewrite El. }
  case_bool_decide as Hv; [by apply IH|]. fold (visit sym depth def line s).
  destruct (not_visited _ _ _ s _ Hs Hv) as [Hn _].
  specialize (IH (visit sym depth def line s) (mkWorld (S (ticks w)) (cache w))).
  destruct (expand _ _ _ _ _ _ (visit _ _ _ _ _) _) as [e|[[report|s'] w']] eqn:E;
    (specialize (IH ltac:(by apply visit_walking) Hd ltac:(by apply traced_insert) HR2)); [done..|].
  cbn [visit queue visited] in IH. rewrite length_app, size_union, size_singleton in IH
    by (clear -Hv; set_solver). simpl in IH. lia.
Qed.

Lemma expand_walking origins targets md sym depth callees s w s' w' :
  expand stopped (keys_of targets) (keys_of origins) sym depth callees s w = inr (inr s', w') →
  walking origins targets md s → depth < md → traced reported origins (parents s) depth sym →
  (∀ x, x ∈ callees → reported sym x.1 x.2) → walking origins targets md s'.
Proof.
  revert s w; induction callees as [|[def line] callees IH]; intros s w E Hs Hd Ht HR; cbn [expand] in E; [by run_step|].
  repeat run_step. assert (∀ x, x ∈ callees → reported sym x.1 x.2) as HR2 by (intros x Hx; apply HR; by right).
  case_bool_decide as Hg; [destruct (reconstruct _ _ _); by repeat run_step|].
  case_bool_decide as Hv; [by eapply IH|]. destruct (not_visited _ _ _ s _ Hs Hv) as [Hn _].
  fold (visit sym depth def line s) in E1. eapply IH; [exact E1| |done| |done].
  - apply visit_walking; [done..|]. apply (HR (def, line)). left.
  - by apply traced_insert.
Qed.

(** The search settles: past some fuel its result is the same, and not a lack of fuel. *)
Definition settles {A} (f : nat → Failure + A) : Prop :=
  ∃ n, f n ≠ inl OutOfFuel ∧ ∀ fuel, n ≤ fuel → f fuel = f n.

Lemma settles_at {A} (f : nat → Failure + A) r : r ≠ inl OutOfFuel → (∀ fuel, f (S fuel) = r) → settles f.
Proof. intros Hr Hf. exists 1. split; [by rewrite Hf|]. intros [|fuel] Hl; [lia|]. by rewrite !Hf. Qed.

Lemma settles_later {A} (f g : nat → Failure + A) : (∀ fuel, f (S fuel) = g fuel) → settles g → settles f.
Proof.
  intros Hf (n & Hn & Heq). exists (S n). split; [by rewrite Hf|]. intros [|fuel] Hl; [lia|].
  rewrite !Hf. apply Heq. lia.
Qed.

Lemma walk_settles origins targets md s w :
  walking origins targets md s →
  settles (λ fuel, walk stopped (keys_of targets) (keys_of origins) fuel md s w).
Proof.
  remember (MAX_VISITED - size (visited s)) as a eqn:Ea. remember (length (queue s)) as b eqn:Eb.
  revert b s w Ea Eb. induction a as [a IHa] using lt_wf_ind. intros b.
  induction b as [b IHb] using lt_wf_ind. intros s w Ea Eb Hs.
  destruct (queue s) as [|[sym depth] q] eqn:Hq.
  { apply (settles_at _ (inr (inr s, w))); [done|]. intros fuel. cbn [walk]. by rewrite Hq. }
  destruct (checkpoint stopped w) as [e|[u w0]] eqn:Ec.
  { apply (settles_at _ (inl e)).
    - intros [= ->]. by apply (total_checkpoint w).
    - intros fuel. cbn [walk]. rewrite Hq. by rewrite bind_run, Ec. }
  destruct (Nat.leb_spec md depth) as [Hd|Hd].
  { set (s1 := set_hit true (mkSearch q (visited s) (parents s) (hit_bound s))).
    apply (settles_later _ (λ fuel, walk stopped (keys_of targets) (keys_of origins) fuel md s1 w0)).
    - intros fuel. cbn [walk]. rewrite Hq. rewrite bind_run, Ec.
      by rewrite (proj2 (Nat.leb_le md depth) Hd).
    - eapply IHb; [|exact Ea|done|by apply (pop_walking _ _ _ (sym, depth) q s true)]. simpl in *; lia. }
  destruct (MAX_VISITED <=? size (visited s)) eqn:Hmax.
  { apply (settles_at _ (inr (inr (set_hit true (mkSearch q (visited s) (parents s) (hit_bound s))), w0))); [done|].
    intros fuel. cbn [walk]. rewrite Hq, bind_run, Ec, (proj2 (Nat.leb_gt md depth) Hd). cbn [visited]. by rewrite Hmax. }
  destruct (callees_of stopped sym w0) as [e|[[callees hit] w1]] eqn:Ek.
  { apply (settles_at _ (inl e)).
    - intros [= ->]. by apply (total_callees_of sym w0).
    - intros fuel. cbn [walk]. rewrite Hq, bind_run, Ec, (proj2 (Nat.leb_gt md depth) Hd). cbn [visited].
      by rewrite Hmax, bind_run, Ek. }
  set (s1 := mkSearch q (visited s) (parents s) (hit_bound s || hit || context_capped (cache w1))).
  assert (walking origins targets md s1) as Hs1 by (by eapply pop_walking).
  destruct (wk_queue _ _ _ s Hs sym depth) as [Ht _]; [rewrite Hq; left|].
  pose proof (expand_total origins targets md sym depth callees s1 w1 Hs1 Hd Ht
                (proj1 (callees_of_ok stopped sym w0 callees hit w1 Ek))) as Htot.
  assert (∀ fuel, walk stopped (keys_of targets) (keys_of origins) (S fuel) md s w
    = match expand stopped (keys_of targets) (keys_of origins) sym depth callees s1 w1 with
      | inl e => inl e
      | inr (inl report, w2) => inr (inl report, w2)
      | inr (inr s', w2) => walk stopped (keys_of targets) (keys_of origins) fuel md s' w2
      end) as Hunf.
  { intros fuel. cbn [walk]. rewrite Hq, bind_run, Ec, (proj2 (Nat.leb_gt md depth) Hd). cbn [visited].
    rewrite Hmax, bind_run, Ek, bind_run. unfold ask_capped at 1. rewrite bind_run.
    change (set_hit _ (mkSearch q _ _ _)) with s1.
    by destruct (expand _ _ _ _ _ _ s1 w1) as [e|[[report|s'] w2]]. }
  destruct (expand _ _ _ _ _ _ s1 w1) as [e|[[report|s'] w2]] eqn:Ee.
  - apply (settles_at _ (inl e)); [by intros [= ->]|done].
  - by apply (settles_at _ (inr (inl report, w2))).
  - eapply settles_later; [exact Hunf|]. apply Nat.leb_gt in Hmax. cbn [s1 queue visited] in Htot.
    assert (walking origins targets md s') as Hs'.
    { eapply expand_walking; [exact Ee|done..|]. by apply (callees_of_ok stopped sym w0 callees hit w1). }
    destruct Htot as [Hlen Hge]. destruct (decide (size (visited s') = size (visited s))) as [E|E].
    + eapply IHb; [|by rewrite E|done|done]. simpl in *. lia.
    + eapply IHa; [|done|done|done]. lia.
Qed.

Lemma settles_const {A} (r : Failure + A) : r ≠ inl OutOfFuel → settles (λ _, r).
Proof. intros Hr. by exists 0. Qed.

Lemma settles_then {A B} (m : nat → M A) (f : A → M B) w :
  settles (λ fuel, m fuel w) → (∀ a, total (f a)) → settles (λ fuel, (m fuel ≫= f) w).
Proof.
  intros (n & Hn & Heq) Hf. exists n. split.
  - rewrite bind_run. destruct (m n w) as [e|[a w']] eqn:E; [by intros [= ->]|by apply Hf].
  - intros fuel Hl. by rewrite !bind_run, (Heq fuel Hl).
Qed.

Lemma settles_bind {A B} (m : M A) (f : nat → A → M B) w :
  total m → (∀ a w', m w = inr (a, w') → settles (λ fuel, f fuel a w')) → settles (λ fuel, (m ≫= f fuel) w).
Proof.
  intros Hm Hf. destruct (m w) as [e|[a w']] eqn:E.
  - exists 0. split; [rewrite bind_run, E; intros [= ->]; by apply (Hm w)|]. intros fuel _. by rewrite !bind_run, E.
  - destruct (Hf a w' eq_refl) as (n & Hn & Heq). exists n. split; [by rewrite bind_run, E|].
    intros fuel Hl. rewrite !bind_run, E. by apply Heq.
Qed.

(** Nothing was seeded before the first origin. *)
Lemma seeding_start targets : seeding targets [] search_start.
Proof. split; [done..|apply disjoint_empty_l|]. by exists []. Qed.

Lemma trace_from_settles req origins targets w :
  settles (λ fuel, trace_from stopped fuel req origins targets w).
Proof.
  unfold trace_from. apply settles_bind; [apply total_seed|]. intros [report|[s keys]] w' E; [by apply settles_const|].
  apply (seed_ok stopped origins targets (max_depth req) []) in E as (-> & Hs & _); [|done|apply seeding_start].
  apply (settles_then (λ fuel, walk stopped (keys_of targets) (keys_of origins) fuel (max_depth req) s)).
  - by apply walk_settles.
  - by intros [report|s'].
Qed.

Lemma trace_settles req w : settles (λ fuel, trace_call_path stopped fuel req w).
Proof.
  unfold trace_call_path. apply settles_bind; [auto with total|]. intros _ w1 _.
  apply settles_bind; [apply total_resolve_endpoint|]. intros [origins|note] w2 _; [|by apply settles_const].
  apply settles_bind; [apply total_resolve_endpoint|]. intros [targets|note] w3 _; [|by apply settles_const].
  apply trace_from_settles.
Qed.
End total.

(** ** The answers *)

Section answers.
Context `{CodeIndexLaws} (stopped : nat → bool).

(** The definitions an endpoint names, none of them a guess. *)
Definition names (input : bytes) (l : list Symbol) : Prop :=
  ∃ r all, resolve_target input = Some (r, all) ∧ matched_symbols r all = l ∧ l ≠ [].

Lemma names_indexed input l t : names input l → t ∈ l → t ∈ symbols.
Proof.
  intros (r & all & Hr & <- & _) Ht. unfold matched_symbols in Ht. destruct (guessed r); [by apply not_elem_of_nil in Ht|].
  by eapply targets_indexed.
Qed.

Lemma names_inj input l l' : names input l → names input l' → l = l'.
Proof. intros (r & all & Hr & <- & _) (r' & all' & Hr' & <- & _). congruence. Qed.

Lemma resolve_endpoint_ok input w a w' :
  resolve_endpoint input w = inr (a, w') →
  match a with Found l => names input l | Missing _ => ∀ l, ¬ names input l end.
Proof.
  intros E. unfold resolve_endpoint in E. run_step. destruct a0 as [r all]. unfold lift in E0.
  destruct (resolve_target input) as [[r' all']|] eqn:Et; [|done]. run_step.
  assert (match matched_symbols r all with [] => (∀ l, ¬ names input l)
          | l => names input l end) as Hm.
  { destruct (matched_symbols r all) as [|x l] eqn:Em; [|by exists r, all].
    intros l (r' & all' & Hr & Hl & Hne). rewrite Et in Hr. injection Hr as <- <-. congruence. }
  destruct (refusal r) as [[]|]; try done; destruct (matched_symbols r all); run_step; done.
Qed.

Lemma run_inv fuel req report :
  run stopped fuel req = inr report →
  (found report = false ∧ bounded report = false
   ∧ ((∀ l, ¬ names (req_from req) l) ∨ (∀ l, ¬ names (req_to req) l)))
  ∨ ∃ origins targets w w', names (req_from req) origins ∧ names (req_to req) targets
      ∧ trace_from stopped fuel req origins targets w = inr (report, w').
Proof.
  intros E. unfold run in E. destruct (trace_call_path _ _ _ _) as [|[report' w']] eqn:Et; [done|].
  injection E as ->. unfold trace_call_path in Et. apply bind_ok in Et as (u & w0 & _ & Et).
  apply bind_ok in Et as (a & w1 & Ea & Et). apply resolve_endpoint_ok in Ea.
  destruct a as [origins|note]; [|injection Et as <- <-; left; auto].
  apply bind_ok in Et as (b & w2 & Eb & Et). apply resolve_endpoint_ok in Eb.
  destruct b as [targets|note]; [|injection Et as <- <-; left; auto].
  right. exists origins, targets, w2, w'. auto.
Qed.

Lemma trace_from_ok fuel req origins targets w report w' :
  (∀ o, o ∈ origins → o ∈ symbols) →
  trace_from stopped fuel req origins targets w = inr (report, w') →
  found_chain origins targets (max_depth req) report
  ∨ found report = false ∧ (bounded report = false → no_chain origins targets).
Proof.
  intros Ho E. unfold trace_from in E. apply bind_ok in E as (r & w1 & Es & E).
  apply (seed_ok stopped origins targets (max_depth req) []) in Es; [|done|apply seeding_start].
  destruct r as [report'|[s keys]]; [injection E as <- <-; by left|].
  destruct Es as (-> & Hs & Hex & Hh). apply bind_ok in E as (r & w2 & Ew & E).
  apply (walk_ok stopped origins targets (max_depth req) Ho) in Ew; [|done|by exists 0].
  destruct r as [report'|s']; injection E as <- <-; [by left|by right].
Qed.

(** C3. A chain the search reports is real: it starts at a definition the
    request's origin names, ends at one its target names, each step is called
    from the body before it on the line shown, and it has no more hops than asked
    for.  When the report is not marked as bounded every step is an exact edge of
    the index and, if no two definitions share file, name and line, no call chain
    between the endpoints is shorter. *)
Theorem call_path_found fuel req report :
  run stopped fuel req = inr report → found report = true →
  ∃ origins targets, names (req_from req) origins ∧ names (req_to req) targets
    ∧ found_chain origins targets (max_depth req) report.
Proof.
  intros E Hf. apply run_inv in E as [(Hf' & _)|(origins & targets & w & w' & Ho & Ht & E)]; [congruence|].
  exists origins, targets. split_and!; [done..|].
  apply trace_from_ok in E as [?|[Hf' _]]; [done|congruence|]. intros o. by eapply names_indexed.
Qed.

(** A search that found nothing and is not marked as bounded is exhaustive:
    no call chain of any length leads from a definition of the origin to one of
    the target through the edges of the index, if no two definitions share file,
    name and line. *)
Theorem call_path_unfound fuel req report origins targets :
  run stopped fuel req = inr report → found report = false → bounded report = false →
  names (req_from req) origins → names (req_to req) targets → no_chain origins targets.
Proof.
  intros E Hf Hb Ho Ht. apply run_inv in E as [(_ & _ & [Hn|Hn])|(o & t & w & w' & Ho' & Ht' & E)];
    [by destruct (Hn origins)|by destruct (Hn targets)|].
  rewrite (names_inj _ _ _ Ho Ho'), (names_inj _ _ _ Ht Ht').
  apply trace_from_ok in E as [[? _]|[_ Hno]]; [congruence|by apply Hno|]. intros x. by eapply names_indexed.
Qed.

(** Every request is answered: the search ends whatever the index holds,
    with a report or with an error of a query, of a checkpoint or of an ambiguous
    endpoint, and its chain is always rebuilt. *)
Theorem call_path_settles req : settles (λ fuel, run stopped fuel req).
Proof.
  destruct (trace_settles stopped req (mkWorld 0 cache_default)) as (n & Hn & Heq). exists n. unfold run. split.
  - destruct (trace_call_path _ n _ _) as [e|[]]; [by intros [= ->]|done].
  - intros fuel Hl. by rewrite (Heq fuel Hl).
Qed.
End answers.

(** ** A small index *)

(** [main] calls [help], which calls [sink]; nothing calls back. *)
Definition ex_symbol (name : bytes) (line : N) : Symbol := mkSymbol name name KFunction (bs "src/a.rs") line (line + 3) false None false.
Definition ex_symbols : list Symbol := [ex_symbol (bs "main") 1; ex_symbol (bs "help") 11; ex_symbol (bs "sink") 21].
Definition ex_refs : list Reference :=
  [mkRef (bs "src/a.rs") (Some (bs "main")) (bs "help") RCall 2;
   mkRef (bs "src/a.rs") (Some (bs "main")) (bs "sink") RTypeHint 3;
   mkRef (bs "src/a.rs") None (bs "sink") RCall 12].

Definition ex_named (name : bytes) : list Symbol := List.filter (λ s, bytes_eqb (sy_name s) name) ex_symbols.

Definition ex_target (s : Symbol) : ResolvedTarget :=
  mkTarget (to_string (symbol_handle s)) (bs "function") None None None false (confidence_of Unique) Unique.

#[export] Instance ex_index : CodeIndex := {|
  WalkCache := ();
  cache_default := ();
  context_capped := λ _, false;
  references_in_file_range f a b := Some (List.filter (λ r, (a <=? ref_line r)%N && (ref_line r <=? b)%N) ex_refs);
  resolve_name c f n := Some (ex_named n, c);
  resolve_reference c r := Some (ex_named (to_name r), c);
  resolve_target i :=
    let l := ex_named i in
    Some (new_resolution i KSymbol (map ex_target l) (N.of_nat (length l)) 0, l);
|}.

Lemma ex_named_indexed n t : t ∈ ex_named n → t ∈ ex_symbols.
Proof. unfold ex_named. rewrite !list_elem_of_In, List.filter_In. by intros [? _]. Qed.

#[export] Instance ex_laws : CodeIndexLaws.
Proof.
  refine {| symbols := ex_symbols; definitions := λ _ n, ex_named n; reference_definitions := λ r, ex_named (to_name r) |}.
  - by intros c f n l c' [= <- <-].
  - by intros c r l c' [= <- <-].
  - intros f n t. apply ex_named_indexed.
  - intros r t. apply ex_named_indexed.
  - intros i r l t [= _ <-]. apply ex_named_indexed.
Defined.

Definition ex_down : CallPathRequest := mkRequest (bs "main") (bs "sink") 6.
Definition ex_up : CallPathRequest := mkRequest (bs "sink") (bs "main") 6.

Definition ex_report (req : CallPathRequest) : CallPathReport :=
  match run (λ _, false) 9 req with inr report => report | inl _ => unfound [] true end.

Lemma call_path_found_witness :
  map st_name (steps (ex_report ex_down)) = [bs "main"; bs "help"; bs "sink"]
  ∧ map call_line (steps (ex_report ex_down)) = [None; Some 2%N; Some 12%N]
  ∧ ∃ origins targets, names (req_from ex_down) origins ∧ names (req_to ex_down) targets
      ∧ found_chain origins targets 6 (ex_report ex_down).
Proof.
  split; [vm_compute; reflexivity|]. split; [vm_compute; reflexivity|].
  apply (call_path_found (λ _, false) 9 ex_down); vm_compute; reflexivity.
Defined.

Lemma call_path_unfound_witness :
  keys_unique ∧ no_chain [ex_symbol (bs "sink") 21] [ex_symbol (bs "main") 1].
Proof.
  split.
  { intros s t Hs Ht Hk. cbn [symbols ex_laws] in Hs, Ht. unfold ex_symbols in Hs, Ht.
    repeat (apply elem_of_cons in Hs as [->|Hs]); try (by apply not_elem_of_nil in Hs);
      repeat (apply elem_of_cons in Ht as [->|Ht]); try (by apply not_elem_of_nil in Ht); done. }
  apply (call_path_unfound (λ _, false) 9 ex_up (ex_report ex_up)).
  - vm_compute; reflexivity.
  - vm_compute; reflexivity.
  - vm_compute; reflexivity.
  - exists (new_resolution (bs "sink") KSymbol [ex_target (ex_symbol (bs "sink") 21)] 1 0), [ex_symbol (bs "sink") 21].
    split; [vm_compute; reflexivity|]. split; [vm_compute; reflexivity|done].
  - exists (new_resolution (bs "main") KSymbol [ex_target (ex_symbol (bs "main") 1)] 1 0), [ex_symbol (bs "main") 1].
    split; [vm_compute; reflexivity|]. split; [vm_compute; reflexivity|done].
Defined.
