(* ===== verification/Checked.v ===== *)
(** * Checked: computations that can be stopped, panic or run out of fuel

    Long loops of the code call [codesage_protocol::work::checkpoint()?], which
    returns an error once the work is cancelled, and index vectors, which panics
    out of range.  [T] threads the number of checkpoints passed; [stopped] says
    at which of them the work is found cancelled.  [safe stopped m Q]: whenever it is
    stopped [m] only ever fails by being stopped, and its results satisfy [Q]. *)
From S2P Require Import Prelude.
From Stdlib Require Import Lia.

Inductive fault := Cancelled | Panicked | Exhausted | QueryFailed.

Definition T (A : Type) : Type := nat → fault + (A * nat).

#[export] Instance T_ret : MRet T := λ A a t, inr (a, t).
#[export] Instance T_bind : MBind T := λ A B f m t,
  match m t with inl e => inl e | inr (a, t') => f a t' end.

Definition fails {A} (e : fault) : T A := λ _, inl e.

Definition check_at (stopped : nat → bool) : T () :=
  λ t, if stopped t then inl Cancelled else inr ((), S t).

(** [l[i]], and [l[i] = x]. *)
Definition vget {A} (l : list A) (i : nat) : T A :=
  match l !! i with Some x => mret x | None => fails Panicked end.

Definition vset {A} (l : list A) (i : nat) (x : A) : T (list A) :=
  if i <? length l then mret (<[i := x]> l) else fails Panicked.

Definition safe (stopped : nat → bool) {A} (m : T A) (Q : A → Prop) : Prop :=
  ∀ t, match m t with inl e => e = Cancelled ∧ ∃ t', stopped t' = true | inr (a, _) => Q a end.

Section safe.
Context (stopped : nat → bool) {A B : Type}.

Lemma safe_ret (a : A) (Q : A → Prop) : Q a → safe stopped (mret a) Q.
Proof. intros H t. exact H. Qed.

Lemma safe_bind (m : T A) (f : A → T B) (P : A → Prop) (Q : B → Prop) :
  safe stopped m P → (∀ a, P a → safe stopped (f a) Q) → safe stopped (m ≫= f) Q.
Proof.
  intros Hm Hf t. specialize (Hm t). unfold mbind, T_bind. destruct (m t) as [e|[a t']]; [done|]. by apply Hf.
Qed.

Lemma safe_ret_bind (a : A) (f : A → T B) (Q : B → Prop) : safe stopped (f a) Q → safe stopped (mret a ≫= f) Q.
Proof. intros H. exact H. Qed.

Lemma safe_mono (m : T A) (P Q : A → Prop) : safe stopped m P → (∀ a, P a → Q a) → safe stopped m Q.
Proof. intros Hm HPQ t. specialize (Hm t). destruct (m t) as [|[]]; auto. Qed.

Lemma safe_check (f : () → T B) (Q : B → Prop) : safe stopped (f ()) Q → safe stopped (check_at stopped ≫= f) Q.
Proof.
  intros Hf t. unfold mbind, T_bind, check_at. destruct (stopped t) eqn:E; [by eauto|]. apply Hf.
Qed.

Lemma safe_vget (l : list A) i x (f : A → T B) (Q : B → Prop) :
  l !! i = Some x → safe stopped (f x) Q → safe stopped (vget l i ≫= f) Q.
Proof. intros Hl Hf t. unfold mbind, T_bind, vget. rewrite Hl. apply Hf. Qed.

Lemma safe_vset (l : list A) i x (f : list A → T B) (Q : B → Prop) :
  i < length l → safe stopped (f (<[i := x]> l)) Q → safe stopped (vset l i x ≫= f) Q.
Proof.
  intros Hl Hf t. unfold mbind, T_bind, vset. rewrite (proj2 (Nat.ltb_lt i (length l))) by done. apply Hf.
Qed.
End safe.

Lemma safe_vset_ret stopped {A} (l : list A) i x (Q : list A → Prop) : i < length l → Q (<[i := x]> l) → safe stopped (vset l i x) Q.
Proof. intros Hl Hq t. unfold vset. by rewrite (proj2 (Nat.ltb_lt i (length l))). Qed.

(** [for x in l { s = body(s, x)? }]. *)
Fixpoint for_each {A S} (body : S → A → T S) (l : list A) (s : S) : T S :=
  match l with
  | [] => mret s
  | x :: l => s ← body s x; for_each body l s
  end.

(** [I done s] before the rest of the list runs. *)
Lemma safe_for_each stopped {A S} (body : S → A → T S) (I : list A → S → Prop) l s :
  (∀ a x b s, l = a ++ x :: b → I a s → safe stopped (body s x) (I (a ++ [x]))) →
  I [] s → safe stopped (for_each body l s) (I l).
Proof.
  intros Hb H0. cut (∀ b a s, l = a ++ b → I a s → safe stopped (for_each body b s) (I l)).
  { intros H. by apply (H l []). }
  induction b as [|x b IH]; intros a s' El Ha; simpl.
  - apply safe_ret. by rewrite El, app_nil_r.
  - eapply safe_bind; [by eapply Hb|]. intros s2 Hs2. apply (IH (a ++ [x])); [|done]. by rewrite <- app_assoc.
Qed.

(** With no cancellation there is a result. *)
Lemma safe_result {A} (m : T A) (Q : A → Prop) t :
  safe (λ _, false) m Q → ∃ a t', m t = inr (a, t') ∧ Q a.
Proof. intros H. specialize (H t). destruct (m t) as [e|[a t']]; [by destruct H as [_ [? ?]]|eauto]. Qed.

(** [yields m Q]: [m] fails only by being stopped or by a query that fails,
    and its results satisfy [Q]. *)
Definition yields {A} (m : T A) (Q : A → Prop) : Prop :=
  ∀ t, match m t with inl e => e = Cancelled ∨ e = QueryFailed | inr (a, _) => Q a end.

Section yields.
Context {A B : Type}.

Lemma yields_ret (a : A) (Q : A → Prop) : Q a → yields (mret a) Q.
Proof. intros H t. exact H. Qed.

Lemma yields_bind (m : T A) (f : A → T B) (P : A → Prop) (Q : B → Prop) :
  yields m P → (∀ a, P a → yields (f a) Q) → yields (m ≫= f) Q.
Proof.
  intros Hm Hf t. specialize (Hm t). unfold mbind, T_bind. destruct (m t) as [e|[a t']]; [done|]. by apply Hf.
Qed.

Lemma yields_ret_bind (a : A) (f : A → T B) (Q : B → Prop) : yields (f a) Q → yields (mret a ≫= f) Q.
Proof. intros H. exact H. Qed.

Lemma yields_mono (m : T A) (P Q : A → Prop) : yields m P → (∀ a, P a → Q a) → yields m Q.
Proof. intros Hm HPQ t. specialize (Hm t). destruct (m t) as [|[]]; auto. Qed.

Lemma yields_check stopped (f : () → T B) (Q : B → Prop) : yields (f ()) Q → yields (check_at stopped ≫= f) Q.
Proof. intros Hf t. unfold mbind, T_bind, check_at. destruct (stopped t) eqn:E; [by left|]. apply Hf. Qed.

Lemma yields_vget (l : list A) i x (f : A → T B) (Q : B → Prop) :
  l !! i = Some x → yields (f x) Q → yields (vget l i ≫= f) Q.
Proof. intros Hl Hf t. unfold mbind, T_bind, vget. rewrite Hl. apply Hf. Qed.
End yields.

(** A query of the database, [None] an error. *)
Definition query {A} (q : option A) : T A := match q with Some a => mret a | None => fails QueryFailed end.

Lemma yields_query {A B} (q : option A) (f : A → T B) (Q : B → Prop) :
  (∀ a, q = Some a → yields (f a) Q) → yields (query q ≫= f) Q.
Proof.
  intros Hf t. unfold mbind, T_bind, query. destruct q as [a|]; [by apply Hf|by right].
Qed.

(** [I done s] before the rest of the list runs. *)
Lemma yields_for_each {A S} (body : S → A → T S) (I : list A → S → Prop) l s :
  (∀ a x b s, l = a ++ x :: b → I a s → yields (body s x) (I (a ++ [x]))) →
  I [] s → yields (for_each body l s) (I l).
Proof.
  intros Hb H0. cut (∀ b a s, l = a ++ b → I a s → yields (for_each body b s) (I l)).
  { intros H. by apply (H l []). }
  induction b as [|x b IH]; intros a s' El Ha; simpl.
  - apply yields_ret. by rewrite El, app_nil_r.
  - eapply yields_bind; [by eapply Hb|]. intros s2 Hs2. apply (IH (a ++ [x])); [|done]. by rewrite <- app_assoc.
Qed.

(** [computes m a]: [m], never stopped, gives [a] whatever came before. *)
Definition computes {A} (m : T A) (a : A) : Prop := ∀ t, ∃ t', m t = inr (a, t').

Definition never : nat → bool := λ _, false.

Section computes.
Context {A B : Type}.

Lemma computes_ret (a : A) : computes (mret a) a.
Proof. intros t. by exists t. Qed.

Lemma computes_bind (m : T A) (f : A → T B) a b : computes m a → computes (f a) b → computes (m ≫= f) b.
Proof. intros Hm Hf t. destruct (Hm t) as [t1 E1]. destruct (Hf t1) as [t2 E2]. exists t2. unfold mbind, T_bind. by rewrite E1. Qed.

Lemma computes_check (f : () → T B) b : computes (f ()) b → computes (check_at never ≫= f) b.
Proof. intros H t. apply H. Qed.

Lemma computes_query (q : option A) a : q = Some a → computes (query q) a.
Proof. intros ->. apply computes_ret. Qed.
End computes.

Lemma for_each_snoc {A S} (body : S → A → T S) l x s t :
  for_each body (l ++ [x]) s t = (for_each body l s ≫= λ s1, body s1 x) t.
Proof.
  revert s t. induction l as [|y l IH]; intros s t; cbn [app for_each]; unfold mbind, T_bind in *.
  - unfold mret, T_ret. by destruct (body s x t) as [|[]].
  - destruct (body s y t) as [|[s' t']]; [done|]. apply IH.
Qed.

Lemma computes_for_each_snoc {A S} (body : S → A → T S) l x s s1 s2 :
  computes (for_each body l s) s1 → computes (body s1 x) s2 → computes (for_each body (l ++ [x]) s) s2.
Proof.
  intros H1 H2 t. destruct (computes_bind _ (λ s1, body s1 x) _ _ H1 H2 t) as [t' E]. exists t'. by rewrite for_each_snoc.
Qed.

Lemma computes_inj {A} (m : T A) a b : computes m a → computes m b → a = b.
Proof. intros H1 H2. destruct (H1 0) as [t1 E1], (H2 0) as [t2 E2]. congruence. Qed.
