(* ===== verification/Effects.v ===== *)
(** * Effects: handlers that ask their surroundings

    The file watcher reads the clock, the file system, the index database and
    the state of other threads while it works.  A [prog] is such code: a
    result, or a call and what is done with its answer.  Nothing is assumed of
    the answers: a theorem about every execution of a [prog] is one about every
    sequence of answers.  [runs p tr a] says that [p] can return [a] after the
    calls and answers [tr]; [after p P] is its weakest precondition, by which
    the theorems are proved; [run] evaluates a [prog] with a given surrounding. *)
From S2P Require Import Prelude.

Section effects.
Context {Call : Type} {answer : Call → Type}.

Inductive prog (A : Type) : Type :=
| Ret (a : A)
| Ask (c : Call) (k : answer c → prog A).
#[global] Arguments Ret {_} _.
#[global] Arguments Ask {_} _ _.

#[global] Instance prog_ret : MRet prog := @Ret.
#[global] Instance prog_bind : MBind prog := λ A B f, fix bind p :=
  match p with Ret a => f a | Ask c k => Ask c (λ r, bind (k r)) end.

Definition ask (c : Call) : prog (answer c) := Ask c Ret.

(** A call and its answer. *)
Definition event : Type := {c : Call & answer c}.
Definition trace : Type := list event.
Definition obs (c : Call) (r : answer c) : event := existT c r.

Fixpoint runs {A} (p : prog A) (tr : trace) (a : A) : Prop :=
  match p with
  | Ret b => tr = [] ∧ b = a
  | Ask c k => ∃ r tr', tr = obs c r :: tr' ∧ runs (k r) tr' a
  end.

Fixpoint after {A} (p : prog A) (P : trace → A → Prop) : Prop :=
  match p with
  | Ret a => P [] a
  | Ask c k => ∀ r, after (k r) (λ tr a, P (obs c r :: tr) a)
  end.

(** The surroundings may answer by what was asked before. *)
Fixpoint run {A} (env : trace → ∀ c, answer c) (tr : trace) (p : prog A) : trace * A :=
  match p with
  | Ret a => (tr, a)
  | Ask c k => let r := env tr c in run env (tr ++ [obs c r]) (k r)
  end.

(** [for x in l { body }], the state of the loop threaded. *)
Fixpoint for_all {A S} (body : S → A → prog S) (l : list A) (s : S) : prog S :=
  match l with
  | [] => Ret s
  | x :: l => s ← body s x; for_all body l s
  end.

Lemma after_runs {A} (p : prog A) (P : trace → A → Prop) : after p P ↔ ∀ tr a, runs p tr a → P tr a.
Proof.
  revert P. induction p as [b|c k IH]; intros P; simpl.
  - split; [by intros H tr a [-> <-]|]. intros H. by apply H.
  - split.
    + intros H tr a (r & tr' & -> & Hr). by apply (proj1 (IH r _) (H r)).
    + intros H r. apply IH. intros tr a Hr. apply H. eauto.
Qed.

Lemma runs_bind {A B} (p : prog A) (f : A → prog B) tr b :
  runs (p ≫= f) tr b ↔ ∃ tr1 a tr2, tr = tr1 ++ tr2 ∧ runs p tr1 a ∧ runs (f a) tr2 b.
Proof.
  revert tr. induction p as [a|c k IH]; intros tr; simpl.
  - split; [intros H; by exists [], a, tr|]. by intros (tr1 & a' & tr2 & -> & [-> <-] & H).
  - split.
    + intros (r & tr' & -> & (tr1 & a & tr2 & -> & H1 & H2)%IH). exists (obs c r :: tr1), a, tr2. eauto 10.
    + intros (tr1 & a & tr2 & -> & (r & tr' & -> & H1) & H2). exists r, (tr' ++ tr2). split; [done|]. apply IH. eauto 10.
Qed.

Lemma after_mono {A} (p : prog A) (P Q : trace → A → Prop) :
  after p P → (∀ tr a, runs p tr a → P tr a → Q tr a) → after p Q.
Proof. rewrite !after_runs. eauto. Qed.

Lemma after_bind {A B} (p : prog A) (f : A → prog B) (Q : trace → A → Prop) (P : trace → B → Prop) :
  after p Q → (∀ tr a, runs p tr a → Q tr a → after (f a) (λ tr' b, P (tr ++ tr') b)) → after (p ≫= f) P.
Proof.
  rewrite !after_runs. intros Hp Hf tr b (tr1 & a & tr2 & -> & H1 & H2)%runs_bind.
  specialize (Hf tr1 a H1 (Hp _ _ H1)). rewrite after_runs in Hf. by apply Hf.
Qed.

(** The loop, with an invariant of what was done and what happened. *)
Lemma after_for_all {A S} (body : S → A → prog S) (I : list A → trace → S → Prop) l s :
  (∀ done x rest s tr, l = done ++ x :: rest → I done tr s → after (body s x) (λ tr' s', I (done ++ [x]) (tr ++ tr') s')) →
  I [] [] s → after (for_all body l s) (I l).
Proof.
  intros Hb H0. cut (∀ rest done s tr, l = done ++ rest → I done tr s → after (for_all body rest s) (λ tr' s', I l (tr ++ tr') s')).
  { intros H. by apply (H l [] s []). }
  induction rest as [|x rest IH]; intros done s' tr El Hd; simpl.
  - by rewrite El, !app_nil_r.
  - eapply after_bind; [by eapply Hb|]. intros tr1 s1 _ H1. simpl in H1.
    eapply after_mono; [apply (IH (done ++ [x]) s1 (tr ++ tr1)); [by rewrite <- app_assoc|done]|].
    intros tr2 s2 _ H2. by rewrite app_assoc.
Qed.

(** [m] was executed in [tr], and returned [a]. *)
Definition did {A} (tr : trace) (m : prog A) (a : A) : Prop := ∃ tr1 tr2 tr3, tr = tr1 ++ tr2 ++ tr3 ∧ runs m tr2 a.

Lemma did_here {A} (m : prog A) tr a : runs m tr a → did tr m a.
Proof. intros H. exists [], tr, []. by rewrite app_nil_r. Qed.

Lemma did_left {A} (m : prog A) tr tr' a : did tr m a → did (tr ++ tr') m a.
Proof. intros (tr1 & tr2 & tr3 & -> & H). exists tr1, tr2, (tr3 ++ tr'). by rewrite <- !app_assoc. Qed.

Lemma did_right {A} (m : prog A) tr tr' a : did tr' m a → did (tr ++ tr') m a.
Proof. intros (tr1 & tr2 & tr3 & -> & H). exists (tr ++ tr1), tr2, tr3. by rewrite <- !app_assoc. Qed.

Lemma did_cons {A} (m : prog A) e tr a : did tr m a → did (e :: tr) m a.
Proof. apply (did_right m [e]). Qed.

(** What [run] finds is an execution. *)
Lemma run_runs {A} env (p : prog A) tr : ∃ tr', (run env tr p).1 = tr ++ tr' ∧ runs p tr' (run env tr p).2.
Proof.
  revert tr. induction p as [a|c k IH]; intros tr; simpl; [exists []; by rewrite app_nil_r|].
  destruct (IH (env tr c) (tr ++ [obs c (env tr c)])) as (tr' & E & H). exists (obs c (env tr c) :: tr').
  split; [by rewrite E, <- app_assoc|]. eauto.
Qed.

Lemma run_self {A} env (p : prog A) : runs p (run env [] p).1 (run env [] p).2.
Proof. destruct (run_runs env p []) as (tr & -> & H). done. Qed.
End effects.

#[global] Arguments prog {_} _ _ : assert.
#[global] Arguments trace {_} _ : assert.
