(* ===== verification/WatchQueue.v ===== *)
(** * WatchQueue: what the file watcher still owes, and when it tries again

    Models the parts of [src/crates/cli/src/statewatcher.rs] that keep work: the
    queues of files ([Work]), the refresh of the filter ([FilterRefresh]), the
    outcome of each kind of pass, back-off and parking, deferral under load, and
    the admission of notifications.  An instant and a duration are nanoseconds;
    a duration of the code is below [DURATION_MAX], at which
    [Duration::saturating_mul] stops, and [now.duration_since(t)] is 0 for a
    later [t].  A path is its bytes. *)
From stdpp Require Import gmap sorting.
From S2P Require Import Prelude Text Detect.
From Stdlib Require Import Lia.
Local Open Scope codesage_scope.

Local Open Scope Z_scope.

Definition secs (n : Z) : Z := n * 1000000000.
Definition millis (n : Z) : Z := n * 1000000.
Definition DURATION_MAX : Z := 18446744073709551615 * 1000000000 + 999999999.
Definition U32_MAX : Z := 4294967295.

Definition duration_since (now t : Z) : Z := Z.max 0 (now - t).
Definition saturating_mul (d n : Z) : Z := Z.min DURATION_MAX (d * n).

Definition MIN_DEBOUNCE_MS : Z := 1000.
Definition BACKPRESSURE_MAX_DEFER : Z := secs (15 * 60).
Definition BATCH_THRESHOLD : nat := 10.
Definition BATCH_WINDOW : Z := secs 3.
Definition EVENT_QUEUE_CAPACITY : nat := 256.
Definition EVENT_PATH_LIMIT : nat := 64.
Definition EVENT_PATH_BYTES : Z := 64 * 1024.
Definition PENDING_PATH_LIMIT : Z := 4096.
Definition PENDING_PATH_BYTES : Z := 4 * 1024 * 1024.
Definition BULK_COOLDOWN : Z := secs 3.
Definition MAX_REMOVAL_FAILURES : Z := 10.
Definition MAX_WORK_RETRIES : Z := 5.
Definition PARKED_RETRY_INTERVAL : Z := secs (30 * 60).
Definition MAX_WORK_RETRY_EXTRA : Z := secs 600.

Definition floor_debounce_ms (ms : Z) : Z := Z.max ms MIN_DEBOUNCE_MS.

(** ** Back-off *)

Definition saturating_pow (b e : Z) : Z := Z.min U32_MAX (b ^ e).
Definition saturating_sub (a b : Z) : Z := Z.max 0 (a - b).

Definition work_retry_extra_delay (attempt debounce : Z) : Z :=
  let factor := saturating_sub (saturating_pow 2 (saturating_sub attempt 1)) 1 in
  Z.min (saturating_mul debounce factor) MAX_WORK_RETRY_EXTRA.

Inductive WorkOutcome := Done | Skipped | Failed.

#[export] Instance outcome_eq_decision : EqDecision WorkOutcome.
Proof. solve_decision. Defined.

(** ** The refresh of the filter *)

Record FilterRefresh := mkRefresh { reload : bool; reconciling : bool; failures : Z; retry_at : option Z }.

Definition no_refresh : FilterRefresh := mkRefresh false false 0 None.

Definition request (r : FilterRefresh) (now : Z) : FilterRefresh :=
  mkRefresh true (reconciling r) (failures r)
    (if failures r =? 0 then Some (Z.max (default now (retry_at r)) now) else retry_at r).

Definition refresh_pending (r : FilterRefresh) : bool := reload r || reconciling r.
Definition refresh_parked (r : FilterRefresh) : bool := MAX_WORK_RETRIES <? failures r.
Definition refresh_due (r : FilterRefresh) (now : Z) : bool :=
  refresh_pending r && match retry_at r with Some at_ => at_ <=? now | None => true end.

Definition refresh_failed (r : FilterRefresh) (now debounce : Z) : FilterRefresh :=
  let n := Z.min U32_MAX (failures r + 1) in
  let counted := mkRefresh (reload r) (reconciling r) n (retry_at r) in
  let delay := if refresh_parked counted then PARKED_RETRY_INTERVAL
               else let base := Z.max debounce (secs 1) in base + work_retry_extra_delay n base in
  mkRefresh (reload r) (reconciling r) n (Some (now + delay)).

(** ** The queues of files *)

Record Work := mkWork {
  pending : gmap bytes Z;
  currently_indexing : gset bytes;
  recheck_queue : gset bytes;
  work_retries : gmap bytes Z;
  parked : gmap bytes Z }.

Definition no_work : Work := mkWork ∅ ∅ ∅ ∅ ∅.

Definition set_pending (m : gmap bytes Z) (w : Work) : Work :=
  mkWork m (currently_indexing w) (recheck_queue w) (work_retries w) (parked w).
Definition set_indexing (c : gset bytes) (w : Work) : Work := mkWork (pending w) c (recheck_queue w) (work_retries w) (parked w).
Definition set_recheck (q : gset bytes) (w : Work) : Work := mkWork (pending w) (currently_indexing w) q (work_retries w) (parked w).
Definition set_parked (m : gmap bytes Z) (w : Work) : Work :=
  mkWork (pending w) (currently_indexing w) (recheck_queue w) (work_retries w) m.

(** [pending.insert(path, t)], [pending.remove(path)], [parked.insert(path, t)]. *)
Definition enqueue (p : bytes) (t : Z) (w : Work) : Work := set_pending (<[p := t]> (pending w)) w.
Definition dequeue (p : bytes) (w : Work) : Work := set_pending (delete p (pending w)) w.
Definition park (p : bytes) (t : Z) (w : Work) : Work := set_parked (<[p := t]> (parked w)) w.
(** [work_retries.remove(path); parked.remove(path)]. *)
Definition settle (p : bytes) (w : Work) : Work :=
  mkWork (pending w) (currently_indexing w) (recheck_queue w) (delete p (work_retries w)) (delete p (parked w)).

Definition compute_ready (pending : gmap bytes Z) (now debounce : Z) : list bytes :=
  map fst (List.filter (λ e, debounce <=? duration_since now e.2) (map_to_list pending)).

(** One path of [requeue_failed_work]; [inr] an abandoned one. *)
Definition requeue_one (debounce now : Z) (w : Work) (p : bytes) : Work * bool :=
  let attempt := default 0 (work_retries w !! p) + 1 in
  if MAX_WORK_RETRIES <? attempt
  then (mkWork (delete p (pending w)) (currently_indexing w) (recheck_queue w) (delete p (work_retries w)) (parked w), true)
  else (mkWork (<[p := now + work_retry_extra_delay attempt debounce]> (pending w))
               (currently_indexing w) (recheck_queue w) (<[p := attempt]> (work_retries w)) (parked w), false).

Fixpoint requeue_failed_work (debounce now : Z) (paths : list bytes) (w : Work) : Work * list bytes :=
  match paths with
  | [] => (w, [])
  | p :: paths =>
      let '(w, abandoned) := requeue_one debounce now w p in
      let '(w, l) := requeue_failed_work debounce now paths w in
      (w, if abandoned then p :: l else l)
  end.

(** [requeue_failed_work] and the parking of what it abandons, by its callers. *)
Definition requeue_or_park (debounce now : Z) (paths : list bytes) (w : Work) : Work :=
  let '(w, exhausted) := requeue_failed_work debounce now paths w in
  fold_left (λ w p, park p now w) exhausted w.

(** The answer of [semantic_reindex_batch]: the paths still stale, or an outcome. *)
Definition BatchResult : Type := list bytes + WorkOutcome.

Definition semantic_step (outcome : BatchResult) (now : Z) (s : Work * list bytes) (p : bytes) : Work * list bytes :=
  let '(w, failed) := s in
  match outcome with
  | inl failed_paths => if contains_word failed_paths p then (w, failed ++ [p]) else (settle p w, failed)
  | inr Skipped => (enqueue p now w, failed)
  | inr _ => (w, failed ++ [p])
  end.

Definition apply_semantic_outcome (outcome : BatchResult) (paths : list bytes) (debounce now : Z) (w : Work) : Work :=
  let '(w, failed) := fold_left (semantic_step outcome now) paths (w, []) in
  requeue_or_park debounce now failed w.

Definition is_due (now since : Z) : bool := PARKED_RETRY_INTERVAL <=? duration_since now since.

Definition revive_one (now : Z) (w : Work) (p : bytes) : Work :=
  mkWork (<[p := now]> (pending w)) (currently_indexing w) (recheck_queue w) (delete p (work_retries w)) (parked w).

Definition revive_due_parked (now : Z) (w : Work) : Work * nat :=
  let due := map fst (List.filter (λ e, is_due now e.2) (map_to_list (parked w))) in
  let w := set_parked (filter (λ e, is_due now e.2 = false) (parked w)) w in
  (fold_left (revive_one now) due w, length due).

(** ** Passes over the whole project *)

Definition bulk_cooldown_after (outcome : WorkOutcome) (now : Z) : option Z :=
  match outcome with Done => Some (now + BULK_COOLDOWN) | _ => None end.

Definition in_bulk_cooldown (cooldown_until : option Z) (now : Z) : bool :=
  match cooldown_until with Some until => now <? until | None => false end.

(** The queues after the pass, and when it is to be tried again. *)
Definition apply_bulk_outcome (outcome : WorkOutcome) (removed_paths : list bytes) (now debounce : Z) (cooldown_until : option Z)
    (w : Work) : Work * list bytes * option Z :=
  match outcome with
  | Done => (set_pending ∅ w, [], None)
  | Skipped =>
      let retry_at := match cooldown_until with Some cd => Z.max (now + debounce) cd | None => now + debounce end in
      (set_pending ((λ _, retry_at - debounce) <$> pending w) w, removed_paths, Some retry_at)
  | Failed => (w, removed_paths, None)
  end.

Definition schedule_watch_error_catchup (removed_paths : list bytes) (now debounce : Z) (cooldown_until : option Z) (w : Work) :=
  apply_bulk_outcome Skipped removed_paths now debounce cooldown_until w.

Definition startup_outcome (outcome : WorkOutcome) (failures : option Z) : WorkOutcome * option Z :=
  match failures with
  | None => (outcome, None)
  | Some count =>
      match outcome with
      | Done => (Done, None)
      | Failed => if count + 1 <? 3 then (Skipped, Some (count + 1)) else (Failed, None)
      | Skipped => (Skipped, Some count)
      end
  end.

(** ** Removals *)

Record Removals := mkRemovals { removed_paths : list bytes; removed_prefixes : list bytes; removal_fail_count : Z }.

Definition no_removals : Removals := mkRemovals [] [] 0.

Definition apply_removal_outcome (outcome : WorkOutcome) (now debounce : Z) (r : Removals) : Removals * option Z :=
  match outcome with
  | Done => (no_removals, None)
  | Skipped => (r, Some (now + debounce))
  | Failed =>
      if MAX_REMOVAL_FAILURES <=? removal_fail_count r + 1 then (no_removals, None)
      else (mkRemovals (removed_paths r) (removed_prefixes r) (removal_fail_count r + 1), Some (now + debounce))
  end.

(** ** Deferral under load *)

Definition should_defer {R} (reason : option R) (deferred_since : option Z) (now : Z) : bool * option Z :=
  match reason with
  | None => (false, None)
  | Some _ =>
      let since := default now deferred_since in
      if BACKPRESSURE_MAX_DEFER <=? duration_since now since then (false, None) else (true, Some since)
  end.

(** ** The budget of unfinished work *)

Fixpoint exceeds_loop (index bytes_ : Z) (lengths : list Z) : bool :=
  match lengths with
  | [] => false
  | len :: lengths =>
      let bytes_ := Z.min (2 ^ 64 - 1) (bytes_ + len) in
      if (PENDING_PATH_LIMIT <=? index) || (PENDING_PATH_BYTES <? bytes_) then true
      else exceeds_loop (index + 1) bytes_ lengths
  end.

Definition pending_work_exceeds_budget (lengths : list Z) : bool := exceeds_loop 0 0 lengths.

(** ** The admission of notifications

    [NName] is [Modify(ModifyKind::Name)], [NModify] any other [Modify];
    [NOther] the kinds that change nothing. *)

Inductive EventKind := NCreate | NModify | NName | NRemove | NOther.

Record Event := mkEvent { kind : EventKind; need_rescan : bool; paths : list bytes }.

Definition changes_files (k : EventKind) : bool := match k with NOther => false | _ => true end.

Definition path_bytes (l : list bytes) : Z := foldr (λ p n, Z.of_nat (length p) + n) 0 l.

Record Admission := mkAdmission { channel : list Event; lost : bool }.

(** [None] for a backend error.  [try_send] fails on a full channel. *)
Definition admit_event (result : option Event) (a : Admission) : Admission :=
  let lose := mkAdmission (channel a) true in
  match result with
  | None => lose
  | Some e =>
      if need_rescan e then lose
      else if negb (changes_files (kind e)) then a
      else if (EVENT_PATH_LIMIT <? length (paths e))%nat || (EVENT_PATH_BYTES <? path_bytes (paths e)) then lose
      else if (length (channel a) <? EVENT_QUEUE_CAPACITY)%nat
           then mkAdmission (channel a ++ [mkEvent (kind e) false (paths e)]) (lost a)
           else lose
  end.

(** [strip_prefix(root)], the rest spelled with single slashes. *)
Fixpoint strip_components (root path : list bytes) : option (list bytes) :=
  match root, path with
  | [], rest => Some rest
  | r :: root, c :: path => if bytes_eqb r c then strip_components root path else None
  | _ :: _, [] => None
  end.

Definition strip_root (root path : bytes) : option bytes :=
  join_with "/" <$> strip_components (components root) (components path).

Definition is_gitignore (path : bytes) : bool :=
  match file_name path with Some name => bytes_eqb name (bs ".gitignore") | None => false end.

Definition relevant_watch_path (root path : bytes) : bool :=
  match strip_root root path with
  | None => false
  | Some relative => is_gitignore relative || negb (existsb (starts_with (bs ".")) (components relative))
  end.

(** The callback of [event_watcher]. *)
Definition notify_callback (root : bytes) (result : option Event) (a : Admission) : Admission :=
  match result with
  | Some e =>
      if need_rescan e then admit_event result a
      else
        let kept := List.filter (relevant_watch_path root) (paths e) in
        match kept with
        | [] => a
        | _ => admit_event (Some (mkEvent (kind e) (need_rescan e) kept)) a
        end
  | None => admit_event None a
  end.
