(* ===== verification/StateWatcher.v ===== *)
(** * StateWatcher: the loop of the file watcher

    Models [run_statewatcher_with_admission] of
    [src/crates/cli/src/statewatcher.rs] and the handlers it calls: each pass of
    its loop is [iteration], which takes the state [Watch] and may leave with an
    [Exit].  The clock, the channel, the file system, the ignore rules, the
    index lock, the database and the embedder are calls ([Call]) of whose
    answers nothing is assumed; a failed call answers [None] or [inl].  Guards
    held until the end of a handler (the index lock) are not tracked, and
    [tracing] output is left out. *)
From stdpp Require Import gmap sorting.
From S2P Require Import Prelude Text Unicode Detect Effects WatchQueue.
From Stdlib Require Import Lia.
Local Open Scope codesage_scope.
Local Open Scope Z_scope.

(** ** The surroundings *)

Inductive ReadResult := ReadSource (empty : bool) (content_hash : bytes) | TooLarge | NotFound | ReadError.
Inductive LockOutcome := Acquired | AlreadyHeld.
Inductive Received := Notified (e : Event) | RecvTimeout | Disconnected.

(** The codes [is_retryable_db_error] names, and the others. *)
Inductive ErrorCode := DatabaseBusy | DatabaseLocked | DiskFull | OperationInterrupted | OtherCode.
(** [sqlite_error_code] of the chain, and the message of the chain. *)
Record DbError := mkDbError { sqlite_error_code : option ErrorCode; message : bytes }.

Record FileInfo := mkFileInfo { fi_path : bytes; fi_language : Language; fi_hash : bytes; fi_test : bool }.

Record Process := mkProcess { pid : Z; comm : option bytes; cwd : option bytes }.

Inductive Call :=
| CNow | CRecv
| CLost  (* whether the notify thread stored [lost] since it was last read *)
| CShutdown | CMarker
| CIsDir (path : bytes) | CExists (path : bytes) | CFileLen (path : bytes)
| CReadDir (path : bytes)
| CIgnored (path : bytes) (is_dir : bool)
| CNewFilter | CEventWatcher | CRegister | CWatch (path : bytes)
| CWriteStatus (status : nat * bool * bool * bool)
| CTryLock
| CReadIndexable (rel : bytes) | CDiscover | CIsTestLike (rel : bytes)
| CDbExists | COpen | COpenExisting | COpenForModel | COpenForExistingModel | CFingerprint
| CFileHash (rel : bytes) | CInterpretation (rel : bytes) | CSemanticHash (rel : bytes)
| CFilesWithLanguage | CAllPaths
| CIndexFiles (files : list FileInfo) | CIncrementalIndex
| CSemanticIndexFiles (files : list FileInfo) | CSemanticIncremental
| CRemoveFiles (paths : list bytes) | CSemanticRemove (paths : list bytes)
| CLoadEmbedder
| CDotGit | CReadDotGit | CIsAbsolute (path : bytes) | CLoadAboveCpus | COwnPid | CProcesses.

Inductive Metadata := MDir | MFile.

Definition answer (c : Call) : Type :=
  match c with
  | CNow | COwnPid => Z
  | CRecv => Received
  | CLost | CShutdown | CMarker | CIsDir _ | CExists _ | CIgnored _ _ | CNewFilter | CEventWatcher | CRegister | CWatch _
  | CWriteStatus _ | CIsTestLike _ | CDbExists | COpen | COpenExisting | COpenForModel | COpenForExistingModel | CFingerprint
  | CLoadEmbedder | CIsAbsolute _ | CLoadAboveCpus => bool
  | CFileLen _ => option Z
  | CReadDir _ => option (list (bytes * bool))
  | CTryLock => option LockOutcome
  | CReadIndexable _ => ReadResult
  | CDiscover | CFilesWithLanguage => option (list (bytes * Language))
  | CFileHash _ => DbError + option bytes
  | CSemanticHash _ => option (option bytes)
  | CInterpretation _ => option bool
  | CAllPaths => option (list bytes)
  | CIndexFiles _ => DbError + Z * Z  (* files_failed, files_indexed *)
  | CIncrementalIndex | CSemanticIncremental => DbError + Z  (* files_failed *)
  | CSemanticIndexFiles _ => DbError + list bytes  (* failed_paths *)
  | CRemoveFiles _ => DbError + Z
  | CSemanticRemove _ => option DbError
  | CDotGit => option Metadata
  | CReadDotGit => option bytes
  | CProcesses => option (list Process)
  end.

Abbreviation wprog := (@prog Call answer).

Definition io (c : Call) : wprog (answer c) := ask c.

Definition now : wprog Z := io CNow.

Record Config := mkConfig {
  project_root : bytes; debounce_ms : Z; idle_timeout : Z; backpressure : bool;
  embedder : bool  (* a provider is configured *) }.

Definition debounce_of (config : Config) : Z := millis (debounce_ms config).

Definition join_root (config : Config) (rel : bytes) : bytes := project_root config ++ bs "/" ++ rel.

Definition is_retryable_db_error (err : DbError) : bool :=
  match sqlite_error_code err with
  | Some (DatabaseBusy | DatabaseLocked | DiskFull | OperationInterrupted) => true
  | Some OtherCode => false
  | None => let msg := map to_ascii_lowercase (message err) in contains (bs "is locked") msg || contains (bs "busy") msg
  end.

(** ** Load *)

Definition git_index_lock_present (config : Config) : wprog bool :=
  let dot_git := join_root config (bs ".git") in
  meta ← io CDotGit;
  match meta with
  | None => mret false
  | Some MDir => io (CExists (dot_git ++ bs "/index.lock"))
  | Some MFile =>
      read ← io CReadDotGit;
      match read with
      | None => mret false
      | Some pointer =>
          match strip_prefix (bs "gitdir:") (trim pointer) with
          | None => mret false
          | Some rest =>
              let target := trim rest in
              absolute ← io (CIsAbsolute target);
              io (CExists ((if absolute : bool then target else join_root config target) ++ bs "/index.lock"))
          end
      end
  end.

Definition is_build_process_name (comm : bytes) : bool :=
  contains_word (map bs ["cargo"; "rustc"; "pytest"; "py.test"; "pytest-xdist"]%string) comm || starts_with (bs "cargo-") comm.

(** Entries of /proc whose name is no number are left out of the answer. *)
Fixpoint build_process (root : bytes) (own : Z) (entries : list Process) : option bytes :=
  match entries with
  | [] => None
  | e :: entries =>
      if pid e =? own then build_process root own entries
      else match comm e with
           | None => build_process root own entries
           | Some c =>
               let c := trim c in
               if negb (is_build_process_name c) then build_process root own entries
               else match cwd e with
                    | None => build_process root own entries
                    | Some dir => match strip_root root dir with Some _ => Some c | None => build_process root own entries end
                    end
           end
  end.

Definition build_process_under (config : Config) : wprog (option bytes) :=
  entries ← io CProcesses;
  match entries with
  | None => mret None
  | Some entries => own ← io COwnPid; mret (build_process (project_root config) own entries)
  end.

Inductive Reason := GitIndexLock | LoadAverage | BuildProcess (name : bytes).

Definition backpressure_reason (config : Config) : wprog (option Reason) :=
  git ← git_index_lock_present config;
  if git : bool then mret (Some GitIndexLock)
  else load ← io CLoadAboveCpus;
       if load : bool then mret (Some LoadAverage)
       else name ← build_process_under config; mret (option_map BuildProcess name).

(** The guard of both kinds of passes. *)
Definition deferred (config : Config) (deferred_since : option Z) : wprog (bool * option Z) :=
  if backpressure config then
    reason ← backpressure_reason config;
    t ← now;
    mret (should_defer reason deferred_since t)
  else mret (false, deferred_since).

(** ** Removal of rows *)

Definition retry_or_fail (err : DbError) : WorkOutcome := if is_retryable_db_error err then Skipped else Failed.

Definition purge_index_rows (paths : list bytes) : wprog WorkOutcome :=
  exists_ ← io CDbExists;
  if negb exists_ then mret Done
  else
    opened ← io COpenExisting;
    if negb opened then mret Failed
    else
      removed ← io (CRemoveFiles paths);
      match removed with
      | inl e => mret (retry_or_fail e)
      | inr _ =>
          opened ← io COpenForExistingModel;
          if negb opened then mret Failed
          else
            failed ← io (CSemanticRemove paths);
            mret (match failed with Some e => retry_or_fail e | None => Done end)
      end.

Definition with_lock (body : wprog WorkOutcome) : wprog WorkOutcome :=
  lock ← io CTryLock;
  match lock with
  | None => mret Failed
  | Some AlreadyHeld => mret Skipped
  | Some Acquired => body
  end.

Definition purge_one_locked (rel : bytes) : wprog WorkOutcome := with_lock (purge_index_rows [rel]).

Definition under_prefix (prefixes : list bytes) (p : bytes) : bool :=
  existsb (λ pre, bytes_eqb p pre || (starts_with pre p && starts_with (bs "/") (drop (length pre) p))) prefixes.

Definition expand_removed_prefixes (prefixes : list bytes) : wprog (option (list bytes)) :=
  exists_ ← io CDbExists;
  if negb exists_ then mret (Some [])
  else
    opened ← io COpenExisting;
    if negb opened then mret None
    else all ← io CAllPaths; mret (option_map (List.filter (under_prefix prefixes)) all).

Definition add_candidate (candidates : list bytes) (p : bytes) : list bytes :=
  if contains_word candidates p then candidates else candidates ++ [p].

Definition keep_vanished (config : Config) (kept : list bytes) (p : bytes) : wprog (list bytes) :=
  exists_ ← io (CExists (join_root config p)); mret (if exists_ : bool then kept else kept ++ [p]).

Definition handle_removals (config : Config) (paths prefixes : list bytes) : wprog WorkOutcome :=
  match paths, prefixes with
  | [], [] => mret Done
  | _, _ => with_lock (
      expanded ← match prefixes with [] => mret (Some []) | _ => expand_removed_prefixes prefixes end;
      match expanded with
      | None => mret Failed
      | Some expanded =>
          to_remove ← for_all (keep_vanished config) (fold_left add_candidate expanded paths) [];
          match to_remove with [] => mret Done | _ => purge_index_rows to_remove end
      end)
  end.

(** ** One saved file *)

Definition semantic_hash_is_fresh (rel content_hash : bytes) : wprog bool :=
  opened ← io COpenForExistingModel;
  if negb opened then mret false
  else stored ← io (CSemanticHash rel);
       mret (match stored with Some (Some h) => bytes_eqb h content_hash | _ => false end).

Definition structural_hash_is_fresh (rel content_hash : bytes) : wprog bool :=
  opened ← io COpen;
  if negb opened then mret false
  else
    stored ← io (CFileHash rel);
    match stored with
    | inr (Some h) =>
        if bytes_eqb h content_hash
        then matches ← io (CInterpretation rel); mret (match matches with Some true => true | _ => false end)
        else mret false
    | _ => mret false
    end.

Definition listed_as (rel : bytes) (lang : Language) (files : list (bytes * Language)) : bool :=
  existsb (λ f, bytes_eqb f.1 rel && bool_decide (f.2 = lang)) files.

(** The recorded language of a header must be the one it has now. *)
Definition header_recorded (rel : bytes) (lang : Language) : wprog bool :=
  if negb (ends_with (bs ".h") rel) then mret true
  else
    opened ← io COpenExisting;
    if negb opened then mret false
    else files ← io CFilesWithLanguage; mret (match files with Some files => listed_as rel lang files | None => false end).

(** [None]: the dialect cannot be established. *)
Definition header_dialect (header_is_cpp : bool) (rel : bytes) : wprog (option bool) :=
  if header_is_cpp && match extension rel with Some ext => bytes_eqb ext (bs "h") | None => false end
  then files ← io CDiscover; mret (option_map (listed_as rel Cpp) files)
  else mret (Some false).

(** The outcome, and the file whose semantic rows are stale. *)
Definition Reindexed : Type := WorkOutcome * option FileInfo.

Definition with_hash (f : FileInfo) (h : bytes) : FileInfo := mkFileInfo (fi_path f) (fi_language f) h (fi_test f).

(** The write, under the lock. *)
Definition reindex_locked (rel : bytes) (semantic_enabled : bool) (file_info : FileInfo) (stale : option FileInfo) : wprog Reindexed :=
  opened ← io COpen;
  if negb opened then mret (Failed, None)
  else
    indexed ← io (CIndexFiles [file_info]);
    match indexed with
    | inl e => mret (retry_or_fail e, None)
    | inr (files_failed, files_indexed) =>
        if 0 <? files_failed then mret (Failed, None)
        else if (0 <? files_indexed) && semantic_enabled then
          stored ← io (CFileHash rel);
          mret (match stored with
                | inr (Some hash) => (Done, Some (with_hash file_info hash))
                | inr None => (Failed, None)
                | inl e => (retry_or_fail e, None)
                end)
        else mret (Done, stale)
    end.

Definition reindex_source (rel : bytes) (semantic_enabled header_is_cpp : bool) (hash : bytes) : wprog Reindexed :=
  dialect ← header_dialect header_is_cpp rel;
  match dialect with
  | None => mret (Failed, None)
  | Some dialect =>
      match detect_language_with_dialect rel dialect with
      | None => mret (Done, None)
      | Some lang =>
          is_test ← io (CIsTestLike rel);
          let file_info := mkFileInfo rel lang hash is_test in
          semantic_fresh ← (if semantic_enabled then semantic_hash_is_fresh rel hash else mret true);
          let stale := if semantic_fresh : bool then None else Some file_info in
          structural_fresh ← structural_hash_is_fresh rel hash;
          recorded ← (if structural_fresh : bool then header_recorded rel lang else mret false);
          if recorded : bool then mret (Done, stale)
          else
            lock ← io CTryLock;
            match lock with
            | Some AlreadyHeld => mret (Skipped, None)
            | None => mret (Failed, None)
            | Some Acquired => reindex_locked rel semantic_enabled file_info stale
            end
      end
  end.

Definition purged (o : wprog WorkOutcome) : wprog Reindexed := o ≫= λ outcome, mret (outcome, None).

Definition reindex_one (rel : bytes) (semantic_enabled header_is_cpp : bool) : wprog Reindexed :=
  source ← io (CReadIndexable rel);
  match source with
  | TooLarge | ReadError => mret (Failed, None)
  | NotFound => purged (purge_one_locked rel)
  | ReadSource true _ => purged (purge_one_locked rel)
  | ReadSource false hash => reindex_source rel semantic_enabled header_is_cpp hash
  end.

Definition file_has_content (config : Config) (rel : bytes) : wprog bool :=
  len ← io (CFileLen (join_root config rel)); mret (match len with Some n => 0 <? n | None => false end).

Definition recheck_needs_reindex (rel : bytes) : wprog bool :=
  source ← io (CReadIndexable rel);
  match source with
  | ReadSource _ hash =>
      opened ← io COpen;
      if negb opened then mret true
      else stored ← io (CFileHash rel);
           mret (match stored with inr (Some h) => negb (bytes_eqb h hash) | _ => true end)
  | _ => mret true
  end.

(** ** A batch of stale files, and the whole project *)

Inductive EmbedderLookup := EDisabled | ELoaded | ELoadFailed.

Definition get_embedder (config : Config) : wprog EmbedderLookup :=
  if embedder config then loaded ← io CLoadEmbedder; mret (if loaded : bool then ELoaded else ELoadFailed)
  else mret EDisabled.

Definition semantic_batch_outcome (result : DbError + list bytes) : BatchResult :=
  match result with inr failed_paths => inl failed_paths | inl e => inr (retry_or_fail e) end.

Definition semantic_reindex_batch (config : Config) (files : list FileInfo) : wprog BatchResult :=
  emb ← get_embedder config;
  match emb with
  | EDisabled | ELoadFailed => mret (inr Failed)
  | ELoaded =>
      lock ← io CTryLock;
      match lock with
      | Some AlreadyHeld => mret (inr Skipped)
      | None => mret (inr Failed)
      | Some Acquired =>
          opened ← io COpenForModel;
          if negb opened then mret (inr Failed)
          else
            fingerprint ← io CFingerprint;
            if negb fingerprint then mret (inr Failed)
            else result ← io (CSemanticIndexFiles files); mret (semantic_batch_outcome result)
      end
  end.

Definition run_bulk_incremental (config : Config) : wprog WorkOutcome :=
  with_lock (
    opened ← io COpen;
    if negb opened then mret Failed
    else
      structural ← io CIncrementalIndex;
      match structural with
      | inl _ => mret Failed
      | inr files_failed =>
          if negb (files_failed =? 0) then mret Failed
          else
            emb ← get_embedder config;
            match emb with
            | EDisabled => mret Done
            | ELoadFailed => mret Failed
            | ELoaded =>
                opened ← io COpenForModel;
                if negb opened then mret Failed
                else
                  fingerprint ← io CFingerprint;
                  if negb fingerprint then mret Failed
                  else
                    semantic ← io CSemanticIncremental;
                    mret (match semantic with inr n => if n =? 0 then Done else Failed | inl _ => Failed end)
            end
      end).

(** [work_retries.clear(); parked.clear()] after a complete pass. *)
Definition clear_retries (w : Work) : Work := mkWork (pending w) (currently_indexing w) (recheck_queue w) ∅ ∅.

Definition run_bulk_guarded (config : Config) (deferred_since : option Z) (w : Work) : wprog (WorkOutcome * option Z * Work) :=
  '(defer, since) ← deferred config deferred_since;
  if defer : bool then mret (Skipped, since, w)
  else
    outcome ← run_bulk_incremental config;
    mret (outcome, since, match outcome with Done => clear_retries w | _ => w end).

Definition is_cpp_path (p : bytes) : bool := match extension p with Some ext => is_unambiguous_cpp_extension ext | None => false end.

Definition header_context_changed (rel : bytes) : bool :=
  match extension rel with Some ext => bytes_eqb ext (bs "h") || is_unambiguous_cpp_extension ext | None => false end.

Definition header_dialect_is_cpp : wprog bool :=
  opened ← io COpenExisting;
  if negb opened then mret false
  else paths ← io CAllPaths; mret (match paths with Some paths => existsb is_cpp_path paths | None => false end).

Definition removed_paths_may_unflip_header (header_is_cpp : bool) (paths : list bytes) : bool :=
  header_is_cpp && existsb is_cpp_path paths.

(** ** The ready files *)

(** What [process_ready] threads through its loop: the queues, the files whose
    semantic rows are stale, and whether the header dialect may have changed. *)
Record Batch := mkBatch { b_work : Work; semantic_todo : list (bytes * FileInfo); rederive_header : bool }.

Definition on_batch (f : Work → Work) (b : Batch) : Batch := mkBatch (f (b_work b)) (semantic_todo b) (rederive_header b).

(** After the outcome of one path. *)
Definition finish_ready (config : Config) (header_is_cpp : bool) (b : Batch) (path : bytes) (outcome : WorkOutcome) (stale : option FileInfo)
    : wprog Batch :=
  match outcome with
  | Failed =>
      t ← now;
      mret (on_batch (requeue_or_park (debounce_of config) t [path]) b)
  | Skipped => t ← now; mret (on_batch (enqueue path t) b)
  | Done =>
      let b := match stale with
               | Some info => mkBatch (b_work b) (semantic_todo b ++ [(path, info)]) (rederive_header b)
               | None => on_batch (settle path) b
               end in
      b ← (if header_is_cpp && is_cpp_path path
           then content ← file_has_content config path;
                mret (if negb content then mkBatch (b_work b) (semantic_todo b) true else b)
           else mret b);
      if bool_decide (path ∈ recheck_queue (b_work b)) then
        let b := on_batch (λ w, set_recheck (recheck_queue w ∖ {[path]}) w) b in
        again ← recheck_needs_reindex path;
        if again : bool then t ← now; mret (on_batch (enqueue path t) b) else mret b
      else mret b
  end.

Definition ready_step (config : Config) (header_is_cpp : bool) (b : Batch) (path : bytes) : wprog Batch :=
  let b := on_batch (dequeue path) b in
  ignored ← io (CIgnored (join_root config path) false);
  if ignored : bool then mret (on_batch (settle path) b)
  else if bool_decide (path ∈ currently_indexing (b_work b))
  then mret (on_batch (λ w, set_recheck (recheck_queue w ∪ {[path]}) w) b)
  else
    let b := on_batch (λ w, set_indexing (currently_indexing w ∪ {[path]}) w) b in
    '(outcome, stale) ← reindex_one path (embedder config) header_is_cpp;
    let b := on_batch (λ w, set_indexing (currently_indexing w ∖ {[path]}) w) b in
    finish_ready config header_is_cpp b path outcome stale.

Definition process_ready (config : Config) (header_is_cpp : bool) (ready : list bytes) (w : Work) : wprog (Work * bool) :=
  b ← for_all (ready_step config header_is_cpp) ready (mkBatch w [] false);
  match semantic_todo b with
  | [] => mret (b_work b, rederive_header b)
  | todo =>
      outcome ← semantic_reindex_batch config (map snd todo);
      t ← now;
      mret (apply_semantic_outcome outcome (map fst todo) (debounce_of config) t (b_work b), rederive_header b)
  end.

(** Ready work under load waits for another debounce. *)
Definition drain_pending (config : Config) (header_is_cpp : bool) (deferred_since : option Z) (w : Work) : wprog (Work * option Z * bool) :=
  t ← now;
  match compute_ready (pending w) t (debounce_of config) with
  | [] => mret (w, deferred_since, false)
  | ready =>
      '(defer, since) ← deferred config deferred_since;
      if defer : bool then
        t ← now;
        mret (fold_left (λ w p, enqueue p t w) ready w, since, false)
      else
        '(w, rederive) ← process_ready config header_is_cpp ready w;
        mret (w, since, rederive)
  end.

Definition drain_pending_force (config : Config) (header_is_cpp : bool) (w : Work) : wprog (Work * bool) :=
  process_ready config header_is_cpp (map fst (map_to_list (pending w))) w.

(** ** The state of the loop *)

Record Watch := mkWatch {
  work : Work;
  removals : Removals;
  batch_event_times : list Z;
  status_written : option (nat * bool * bool * bool);
  bulk_retry_at : option Z;
  startup_failures : option Z;
  startup_reconciled : bool;
  bulk_cooldown_until : option Z;
  removal_retry_at : option Z;
  last_activity : Z;
  header_is_cpp : bool;
  deferred_since : option Z;
  refresh : FilterRefresh;
  lost_flag : bool }.

(** The variables at the start of the loop. *)
Definition initial (bulk_retry last : Z) (header : bool) : Watch :=
  mkWatch no_work no_removals [] None (Some bulk_retry) (Some 0) false None None last header None no_refresh false.

Section setters.
Context (s : Watch).
Local Definition upd w r b st br sf sr bc rr la hc df rf lo :=
  mkWatch w r b st br sf sr bc rr la hc df rf lo.
Definition set_work v := upd v (removals s) (batch_event_times s) (status_written s) (bulk_retry_at s) (startup_failures s) (startup_reconciled s) (bulk_cooldown_until s) (removal_retry_at s) (last_activity s) (header_is_cpp s) (deferred_since s) (refresh s) (lost_flag s).
Definition set_removals v := upd (work s) v (batch_event_times s) (status_written s) (bulk_retry_at s) (startup_failures s) (startup_reconciled s) (bulk_cooldown_until s) (removal_retry_at s) (last_activity s) (header_is_cpp s) (deferred_since s) (refresh s) (lost_flag s).
Definition set_batch v := upd (work s) (removals s) v (status_written s) (bulk_retry_at s) (startup_failures s) (startup_reconciled s) (bulk_cooldown_until s) (removal_retry_at s) (last_activity s) (header_is_cpp s) (deferred_since s) (refresh s) (lost_flag s).
Definition set_status v := upd (work s) (removals s) (batch_event_times s) v (bulk_retry_at s) (startup_failures s) (startup_reconciled s) (bulk_cooldown_until s) (removal_retry_at s) (last_activity s) (header_is_cpp s) (deferred_since s) (refresh s) (lost_flag s).
Definition set_bulk_retry v := upd (work s) (removals s) (batch_event_times s) (status_written s) v (startup_failures s) (startup_reconciled s) (bulk_cooldown_until s) (removal_retry_at s) (last_activity s) (header_is_cpp s) (deferred_since s) (refresh s) (lost_flag s).
Definition set_startup_failures v := upd (work s) (removals s) (batch_event_times s) (status_written s) (bulk_retry_at s) v (startup_reconciled s) (bulk_cooldown_until s) (removal_retry_at s) (last_activity s) (header_is_cpp s) (deferred_since s) (refresh s) (lost_flag s).
Definition set_startup_reconciled v := upd (work s) (removals s) (batch_event_times s) (status_written s) (bulk_retry_at s) (startup_failures s) v (bulk_cooldown_until s) (removal_retry_at s) (last_activity s) (header_is_cpp s) (deferred_since s) (refresh s) (lost_flag s).
Definition set_cooldown v := upd (work s) (removals s) (batch_event_times s) (status_written s) (bulk_retry_at s) (startup_failures s) (startup_reconciled s) v (removal_retry_at s) (last_activity s) (header_is_cpp s) (deferred_since s) (refresh s) (lost_flag s).
Definition set_removal_retry v := upd (work s) (removals s) (batch_event_times s) (status_written s) (bulk_retry_at s) (startup_failures s) (startup_reconciled s) (bulk_cooldown_until s) v (last_activity s) (header_is_cpp s) (deferred_since s) (refresh s) (lost_flag s).
Definition set_last_activity v := upd (work s) (removals s) (batch_event_times s) (status_written s) (bulk_retry_at s) (startup_failures s) (startup_reconciled s) (bulk_cooldown_until s) (removal_retry_at s) v (header_is_cpp s) (deferred_since s) (refresh s) (lost_flag s).
Definition set_header v := upd (work s) (removals s) (batch_event_times s) (status_written s) (bulk_retry_at s) (startup_failures s) (startup_reconciled s) (bulk_cooldown_until s) (removal_retry_at s) (last_activity s) v (deferred_since s) (refresh s) (lost_flag s).
Definition set_deferred v := upd (work s) (removals s) (batch_event_times s) (status_written s) (bulk_retry_at s) (startup_failures s) (startup_reconciled s) (bulk_cooldown_until s) (removal_retry_at s) (last_activity s) (header_is_cpp s) v (refresh s) (lost_flag s).
Definition set_refresh v := upd (work s) (removals s) (batch_event_times s) (status_written s) (bulk_retry_at s) (startup_failures s) (startup_reconciled s) (bulk_cooldown_until s) (removal_retry_at s) (last_activity s) (header_is_cpp s) (deferred_since s) v (lost_flag s).
Definition set_lost v := upd (work s) (removals s) (batch_event_times s) (status_written s) (bulk_retry_at s) (startup_failures s) (startup_reconciled s) (bulk_cooldown_until s) (removal_retry_at s) (last_activity s) (header_is_cpp s) (deferred_since s) (refresh s) v.
End setters.

Definition set_removed_paths (l : list bytes) (s : Watch) : Watch :=
  set_removals s (mkRemovals l (removed_prefixes (removals s)) (removal_fail_count (removals s))).
Definition set_removed_prefixes (l : list bytes) (s : Watch) : Watch :=
  set_removals s (mkRemovals (removed_paths (removals s)) l (removal_fail_count (removals s))).

Definition nonempty {A} (l : list A) : bool := match l with [] => false | _ => true end.
Definition some {A} (o : option A) : bool := match o with Some _ => true | None => false end.

(** ** Lost notifications and the budget *)

Definition unfinished_lengths (s : Watch) : list Z :=
  map (λ p, Z.of_nat (length p))
    (map fst (map_to_list (pending (work s))) ++ elements (currently_indexing (work s)) ++ elements (recheck_queue (work s)) ++
     map fst (map_to_list (work_retries (work s))) ++ map fst (map_to_list (parked (work s))) ++
     removed_paths (removals s) ++ removed_prefixes (removals s)).

Definition enforce_budget (s : Watch) : Watch :=
  if pending_work_exceeds_budget (unfinished_lengths s) then
    let s := set_work s (mkWork ∅ (currently_indexing (work s)) ∅ ∅ ∅) in
    let s := set_removed_prefixes [] (set_removed_paths [] s) in
    set_lost (set_batch s []) true
  else s.

(** [lost.swap(false)], and the reconciliation it asks for. *)
Definition take_lost (s : Watch) : wprog Watch :=
  other ← io CLost;
  if lost_flag s || other then
    t ← now;
    let r := request (refresh s) t in
    at_ ← match retry_at r with Some a => mret a | None => now end;
    cooldown ← match bulk_cooldown_until s with Some c => mret c | None => now end;
    mret (set_lost (set_refresh s (mkRefresh (reload r) (reconciling r) (failures r) (Some (Z.max at_ cooldown)))) false)
  else mret s.

(** ** Notifications *)

Definition is_source_file (rel : bytes) : bool := some (detect_language rel).

Definition is_dir_adoption_kind (k : EventKind) : bool := match k with NCreate | NName => true | _ => false end.

(** [bulk_cooldown_until.map_or(now + debounce, |until| until.max(now + debounce))]. *)
Definition debounced_retry (config : Config) (s : Watch) : wprog Watch :=
  t ← now;
  match bulk_cooldown_until s with
  | None => mret (set_bulk_retry s (Some (t + debounce_of config)))
  | Some until => t ← now; mret (set_bulk_retry s (Some (Z.max until (t + debounce_of config))))
  end.

Definition request_refresh (s : Watch) : wprog Watch :=
  t ← now;
  u ← now;
  mret (set_bulk_retry (set_refresh s (request (refresh s) t)) (Some u)).

Definition push_batch (t : Z) (s : Watch) : Watch :=
  if (length (batch_event_times s) <? BATCH_THRESHOLD)%nat then set_batch s (batch_event_times s ++ [t]) else s.

Definition forget_removed (rel : bytes) (s : Watch) : Watch :=
  set_removed_paths (List.filter (λ p, negb (bytes_eqb p rel)) (removed_paths (removals s))) s.

Definition ADOPTION_SCAN_ENTRY_CAP : nat := 2048.

Inductive DirScan := Files (files : list bytes) | OverThreshold.

(** The entries of one directory; [None] when a limit was passed. *)
Fixpoint scan_entries (config : Config) (threshold : nat) (entries : list (bytes * bool)) (examined : nat) (stack found : list bytes)
    : wprog (option (nat * list bytes * list bytes)) :=
  match entries with
  | [] => mret (Some (examined, stack, found))
  | (path, is_dir) :: entries =>
      if (ADOPTION_SCAN_ENTRY_CAP <? S examined)%nat then mret None
      else if is_dir then
        ignored ← io (CIgnored path true);
        scan_entries config threshold entries (S examined) (if ignored : bool then stack else path :: stack) found
      else match strip_root (project_root config) path with
           | Some rel =>
               if is_source_file rel then
                 ignored ← io (CIgnored path false);
                 if ignored : bool then scan_entries config threshold entries (S examined) stack found
                 else if (threshold <=? length (found ++ [rel]))%nat then mret None
                 else scan_entries config threshold entries (S examined) stack (found ++ [rel])
               else scan_entries config threshold entries (S examined) stack found
           | None => scan_entries config threshold entries (S examined) stack found
           end
  end.

(** The top of the stack is its head; [None] when out of fuel. *)
Fixpoint scan_loop (fuel : nat) (config : Config) (threshold : nat) (examined : nat) (stack found : list bytes) : wprog (option DirScan) :=
  match fuel, stack with
  | _, [] => mret (Some (Files found))
  | O, _ => mret None
  | S fuel, d :: stack =>
      entries ← io (CReadDir d);
      match entries with
      | None => scan_loop fuel config threshold examined stack found
      | Some entries =>
          r ← scan_entries config threshold entries examined stack found;
          match r with
          | None => mret (Some OverThreshold)
          | Some (examined, stack, found) => scan_loop fuel config threshold examined stack found
          end
      end
  end.

(** A directory but the first is on the stack once for an examined entry. *)
Definition SCAN_FUEL : nat := S ADOPTION_SCAN_ENTRY_CAP.

Definition scan_dir_source_files (config : Config) (dir : bytes) (threshold : nat) : wprog (option DirScan) :=
  match strip_root (project_root config) dir with
  | None => mret (Some (Files []))
  | Some _ =>
      ignored ← io (CIgnored dir true);
      if ignored : bool then mret (Some (Files [])) else scan_loop SCAN_FUEL config threshold 0 [dir] []
  end.

Definition is_child (root path : bytes) : bool :=
  match strip_components (components root) (components path) with Some [_] => true | _ => false end.

Definition maybe_watch_new_dir (config : Config) (path : bytes) : wprog () :=
  if is_child (project_root config) path then
    ignored ← io (CIgnored path true);
    if ignored : bool then mret () else _ ← io (CWatch path); mret ()
  else mret ().

Definition adopt_file (t : Z) (s : Watch) (rel : bytes) : Watch :=
  let s := forget_removed rel s in
  match pending (work s) !! rel with
  | Some _ => s
  | None => push_batch t (set_work s (enqueue rel t (work s)))
  end.

Definition set_after_bulk (s : Watch) (r : Work * list bytes * option Z) : Watch :=
  let '(w, removed, at_) := r in set_bulk_retry (set_removed_paths removed (set_work s w)) at_.

Definition adopt_dir (config : Config) (s : Watch) (path : bytes) : wprog Watch :=
  s ← match strip_root (project_root config) path with
      | Some _ =>
          ignored ← io (CIgnored path true);
          if ignored : bool then mret s else request_refresh s
      | None => mret s
      end;
  _ ← maybe_watch_new_dir config path;
  scan ← scan_dir_source_files config path BATCH_THRESHOLD;
  match scan with
  | Some (Files files) => t ← now; mret (fold_left (adopt_file t) files s)
  | _ =>
      t ← now;
      mret (set_after_bulk s (schedule_watch_error_catchup (removed_paths (removals s)) t (debounce_of config) (bulk_cooldown_until s) (work s)))
  end.

(** A path that has vanished may have been a directory. *)
Definition note_vanished (config : Config) (k : EventKind) (s : Watch) (path rel : bytes) : wprog Watch :=
  if match k with NRemove | NName => true | _ => false end && nonempty rel then
    exists_ ← io (CExists path);
    if exists_ : bool then mret s
    else
      ignored ← io (CIgnored path true);
      if ignored : bool then mret s
      else
        let prefixes := removed_prefixes (removals s) in
        debounced_retry config (if contains_word prefixes rel then s else set_removed_prefixes (prefixes ++ [rel]) s)
  else mret s.

Definition save_file (s : Watch) (rel : bytes) : wprog Watch :=
  let s := if negb (header_is_cpp s) && is_cpp_path rel then set_header s true else s in
  let s := forget_removed rel s in
  t ← now;
  let s := set_work s (enqueue rel t (work s)) in
  if (length (batch_event_times s) <? BATCH_THRESHOLD)%nat then t ← now; mret (set_batch s (batch_event_times s ++ [t]))
  else mret s.

Definition on_file (config : Config) (k : EventKind) (s : Watch) (path rel : bytes) : wprog Watch :=
  s ← note_vanished config k s path rel;
  if negb (is_source_file rel) then mret s
  else
    ignored ← io (CIgnored path false);
    if ignored : bool then mret s
    else
      s ← (if changes_files k && header_context_changed rel then debounced_retry config s else mret s);
      match k with
      | NCreate | NModify | NName => save_file s rel
      | NRemove => mret (set_removed_paths (removed_paths (removals s) ++ [rel]) s)
      | NOther => mret s
      end.

(** One path of a notification. *)
Definition on_path (config : Config) (k : EventKind) (s : Watch) (path : bytes) : wprog Watch :=
  let rel := strip_root (project_root config) path in
  if some rel && is_gitignore path && changes_files k then request_refresh s
  else
    is_dir ← io (CIsDir path);
    if is_dir && is_dir_adoption_kind k then adopt_dir config s path
    else match rel with None => mret s | Some rel => on_file config k s path rel end.

(** ** The loop *)

Definition publish_status (next : nat * bool * bool * bool) (s : Watch) : wprog Watch :=
  if bool_decide (status_written s = Some next) then mret s
  else written ← io (CWriteStatus next); mret (if written : bool then set_status s (Some next) else s).

(** The state after a bulk pass: cool-down, what it cleared, when to retry. *)
Definition finish_bulk (config : Config) (outcome : WorkOutcome) (s : Watch) : wprog Watch :=
  t ← now;
  let s := set_cooldown s (bulk_cooldown_after outcome t) in
  s ← (if bool_decide (outcome = Done)
       then header ← header_dialect_is_cpp;
            mret (set_removed_prefixes [] (set_header (set_startup_reconciled s true) header))
       else mret s);
  t ← now;
  mret (set_after_bulk s (apply_bulk_outcome outcome (removed_paths (removals s)) t (debounce_of config) (bulk_cooldown_until s) (work s))).

Definition guarded (config : Config) (s : Watch) : wprog (WorkOutcome * Watch) :=
  '(outcome, since, w) ← run_bulk_guarded config (deferred_since s) (work s);
  mret (outcome, set_work (set_deferred s since) w).

Definition counted (outcome : WorkOutcome) (s : Watch) : WorkOutcome * Watch :=
  let '(outcome, failures) := startup_outcome outcome (startup_failures s) in (outcome, set_startup_failures s failures).

(** A burst of saves: a bulk pass, but not within the cool-down of the last. *)
Definition on_burst (config : Config) (t : Z) (s : Watch) : wprog Watch :=
  let s := set_batch s [] in
  if in_bulk_cooldown (bulk_cooldown_until s) t then
    t ← now;
    mret (set_after_bulk s (apply_bulk_outcome Skipped (removed_paths (removals s)) t (debounce_of config) (bulk_cooldown_until s) (work s)))
  else
    '(raw, s) ← guarded config s;
    let '(outcome, s) := counted raw s in
    finish_bulk config outcome s.

(** A notification; [true] when the iteration ends with it. *)
Definition on_event (config : Config) (e : Event) (s : Watch) : wprog (Watch * bool) :=
  s ← publish_status (size (parked (work s)), true, refresh_parked (refresh s), startup_reconciled s) s;
  s ← for_all (on_path config (kind e)) (paths e) s;
  t ← now;
  let s := set_batch s (List.filter (λ u, duration_since t u <? BATCH_WINDOW) (batch_event_times s)) in
  if negb (refresh_pending (refresh s)) && (BATCH_THRESHOLD <=? length (batch_event_times s))%nat
  then s ← on_burst config t s; mret (s, true)
  else mret (s, false).

(** Shutting down: the queued removals and every pending file, at once. *)
Definition drain_at_shutdown (config : Config) (s : Watch) : wprog Watch :=
  let r := removals s in
  _ ← (if nonempty (removed_paths r) || nonempty (removed_prefixes r)
       then handle_removals config (removed_paths r) (removed_prefixes r) else mret Done);
  '(w, _) ← drain_pending_force config (header_is_cpp s) (work s);
  mret (set_work s w).

(** Whether another thread's [lost] was seen, [lost.load()]. *)
Definition load_lost (s : Watch) : wprog Watch :=
  other ← io CLost; mret (set_lost s (lost_flag s || other)).

Definition unfinished (s : Watch) : bool :=
  negb (bool_decide (pending (work s) = ∅)) || negb (bool_decide (currently_indexing (work s) = ∅)) ||
  negb (bool_decide (recheck_queue (work s) = ∅)) || nonempty (removed_paths (removals s)) || nonempty (removed_prefixes (removals s)) ||
  negb (bool_decide (parked (work s) = ∅)).

Definition report_status (received : bool) (s : Watch) : wprog Watch :=
  let known := refresh_pending (refresh s) || received || some (bulk_retry_at s) || unfinished s ||
               negb (bool_decide (work_retries (work s) = ∅)) in
  s ← (if known then mret s else load_lost s);
  publish_status (size (parked (work s)), known || lost_flag s, refresh_parked (refresh s), startup_reconciled s) s.

(** The watcher and the filter built from the current ignore rules. *)
Definition replace_filter : wprog bool :=
  filter_ ← io CNewFilter;
  if negb filter_ then mret false
  else watcher ← io CEventWatcher;
       if negb watcher then mret false else io CRegister.

Definition refresh_filter (config : Config) (s : Watch) : wprog Watch :=
  if reload (refresh s) then
    t ← now;
    if refresh_due (refresh s) t then
      replaced ← replace_filter;
      if replaced : bool then mret (set_refresh s (mkRefresh false true (failures (refresh s)) (retry_at (refresh s))))
      else t ← now; mret (set_refresh s (refresh_failed (refresh s) t (debounce_of config)))
    else mret s
  else mret s.

Definition bulk_due (s : Watch) : wprog bool :=
  if reload (refresh s) then mret false
  else if reconciling (refresh s) then t ← now; mret (refresh_due (refresh s) t)
  else match bulk_retry_at s with Some at_ => t ← now; mret (at_ <=? t) | None => mret false end.

Definition reconciled (config : Config) (raw : WorkOutcome) (s : Watch) : wprog Watch :=
  match raw with
  | Done => mret (set_refresh s no_refresh)
  | Skipped => t ← now; mret (set_refresh s (mkRefresh (reload (refresh s)) (reconciling (refresh s)) (failures (refresh s)) (Some (t + debounce_of config))))
  | Failed => t ← now; mret (set_refresh s (refresh_failed (refresh s) t (debounce_of config)))
  end.

Definition retry_bulk (config : Config) (s : Watch) : wprog Watch :=
  due ← bulk_due s;
  if due : bool then
    '(raw, s) ← guarded config s;
    '(outcome, s) ← (if reconciling (refresh s) then s ← reconciled config raw s; mret (raw, s) else mret (counted raw s));
    finish_bulk config outcome s
  else mret s.

Definition removal_due (s : Watch) : wprog bool :=
  match removal_retry_at s with None => mret true | Some at_ => t ← now; mret (at_ <=? t) end.

Definition retry_removals (config : Config) (s : Watch) : wprog Watch :=
  let r := removals s in
  if negb (nonempty (removed_paths r)) && negb (nonempty (removed_prefixes r))
  then mret (set_removal_retry (set_removals s (mkRemovals [] [] 0)) None)
  else
    due ← removal_due s;
    if due : bool then
      let may_unflip := removed_paths_may_unflip_header (header_is_cpp s) (removed_paths r) ||
                        (header_is_cpp s && nonempty (removed_prefixes r)) in
      outcome ← handle_removals config (removed_paths r) (removed_prefixes r);
      s ← (if bool_decide (outcome = Done) && may_unflip
           then header ← header_dialect_is_cpp; mret (set_header s header) else mret s);
      t ← now;
      let '(r, at_) := apply_removal_outcome outcome t (debounce_of config) r in
      mret (set_removal_retry (set_removals s r) at_)
    else mret s.

Definition drain (config : Config) (s : Watch) : wprog Watch :=
  '(w, since, rederive) ← drain_pending config (header_is_cpp s) (deferred_since s) (work s);
  let s := set_deferred (set_work s w) since in
  s ← (if rederive : bool then header ← header_dialect_is_cpp; mret (set_header s header) else mret s);
  t ← now;
  mret (set_work s (revive_due_parked t (work s)).1).

Definition is_idle (idle_timeout elapsed : Z) : bool := negb (idle_timeout =? 0) && (idle_timeout <=? elapsed).

Inductive Exit := ChannelClosed | Shutdown | MarkerPresent | IdleTimeout.

Definition rest (config : Config) (s : Watch) : wprog (Watch * option Exit) :=
  let busy := unfinished s || some (bulk_retry_at s) || refresh_pending (refresh s) in
  s ← (if busy then mret s else load_lost s);
  t ← now;
  if busy || lost_flag s then mret (set_last_activity s t, None)
  else if is_idle (idle_timeout config) (duration_since t (last_activity s)) then mret (s, Some IdleTimeout)
  else mret (s, None).

Definition after_event (config : Config) (received : bool) (s : Watch) : wprog (Watch * option Exit) :=
  shutdown ← io CShutdown;
  if shutdown : bool then s ← drain_at_shutdown config s; mret (s, Some Shutdown)
  else
    marker ← io CMarker;
    if marker : bool then mret (s, Some MarkerPresent)
    else
      s ← report_status received s;
      s ← refresh_filter config s;
      s ← retry_bulk config s;
      if reconciling (refresh s) then t ← now; mret (set_last_activity s t, None)
      else
        s ← retry_removals config s;
        s ← drain config s;
        rest config s.

Definition handle_received (config : Config) (received : Received) (s : Watch) : wprog (Watch * option Exit) :=
  match received with
  | Disconnected => mret (s, Some ChannelClosed)
  | RecvTimeout => after_event config false s
  | Notified e =>
      '(s, ended) ← on_event config e s;
      if ended : bool then mret (s, None) else after_event config true s
  end.

Definition iteration (config : Config) (s : Watch) : wprog (Watch * option Exit) :=
  s ← take_lost (enforce_budget s);
  received ← io CRecv;
  handle_received config received s.

(** The states the loop passes through, with the reading of the clock that is
    never earlier than any before it. *)
Definition reading (e : @event Call answer) : option Z :=
  match e with existT CNow t => Some t | _ => None end.

(** The readings of [tr] are in order, from [t] to [t']. *)
Fixpoint clock (t : Z) (tr : @trace Call answer) (t' : Z) : Prop :=
  match tr with
  | [] => t ≤ t'
  | e :: tr => match reading e with Some u => t ≤ u ∧ clock u tr t' | None => clock t tr t' end
  end.

Inductive reachable (config : Config) : Z → Watch → Prop :=
| at_start t bulk_retry last header :
    bulk_retry ≤ t → last ≤ t → reachable config t (initial bulk_retry last header)
| next_iteration t s tr s' t' :
    reachable config t s → clock t tr t' → runs (iteration config s) tr (s', None) → reachable config t' s'.
