(* ===== verification/WatchLogic.v ===== *)
(** * WatchLogic: reasoning about the file watcher

    [holds t tr p P]: started when the clock has read [t] and the calls [tr]
    were made, every execution of [p] ends with [P]; the clock never goes back.
    Then what each operation on the queues of [WatchQueue] preserves: [WorkOk],
    and whether a path is still [owed]. *)
From stdpp Require Import gmap sorting.
From S2P Require Import Prelude Text Detect Effects WatchQueue StateWatcher.
From Stdlib Require Import Lia.
Local Open Scope codesage_scope.
Local Open Scope Z_scope.

Abbreviation wtrace := (@trace Call answer).

(** The reading of the clock after a call. *)
Definition tick (t : Z) (c : Call) : answer c → Z → Prop :=
  match c with CNow => λ r u, t ≤ r ∧ u = r | _ => λ _ u, u = t end.

Fixpoint holds {A} (t : Z) (tr : wtrace) (p : wprog A) (P : Z → wtrace → A → Prop) : Prop :=
  match p with
  | Ret a => P t tr a
  | Ask c k => ∀ r u, tick t c r u → holds u (tr ++ [obs c r]) (k r) P
  end.

Lemma tick_le t c r u : tick t c r u → t ≤ u.
Proof. destruct c; simpl; lia. Qed.

Lemma tick_clock t c r tr t' : clock t (obs c r :: tr) t' → ∃ u, tick t c r u ∧ clock u tr t'.
Proof.
  destruct c; cbn [clock reading obs tick]; intros H; try by exists t. destruct H. by exists r.
Qed.

Lemma clock_le t tr t' : clock t tr t' → t ≤ t'.
Proof. revert t. induction tr as [|[c r] tr IH]; intros t; [done|]. intros (u & H1%tick_le & H2%IH)%(tick_clock _ c r). lia. Qed.

Lemma holds_runs {A} t tr (p : wprog A) P tr' a t' :
  holds t tr p P → runs p tr' a → clock t tr' t' → ∃ u, u ≤ t' ∧ P u (tr ++ tr') a.
Proof.
  revert t tr tr'. induction p as [b|c k IH]; intros t tr tr'; cbn [holds runs].
  - intros H [-> <-] Hc. exists t. rewrite app_nil_r. split; [by eapply clock_le|done].
  - intros H (r & tr2 & -> & Hr) (u & Hu & Hc)%tick_clock.
    destruct (IH r u (tr ++ [obs c r]) tr2 (H r u Hu) Hr Hc) as (v & Hv & HP).
    exists v. by rewrite <- app_assoc in HP.
Qed.

(** Every execution takes time forward, extends the trace, and is one of [p]. *)
Lemma holds_mono {A} t tr (p : wprog A) (P Q : Z → wtrace → A → Prop) :
  holds t tr p P → (∀ u tr' a, t ≤ u → tr `prefix_of` tr' → did tr' p a → P u tr' a → Q u tr' a) → holds t tr p Q.
Proof.
  intros H HPQ.
  cut (∀ u tr2 (q : wprog A), t ≤ u → (∀ tr3 a, runs q tr3 a → runs p (tr2 ++ tr3) a) → holds u (tr ++ tr2) q P → holds u (tr ++ tr2) q Q).
  { intros Hc. specialize (Hc t [] p). rewrite app_nil_r in Hc. apply Hc; [lia|done|done]. }
  clear H. intros u tr2 q. revert u tr2. induction q as [b|c k IH]; intros u tr2 Hle Hr; cbn [holds].
  - intros HP. apply HPQ; [done|by apply prefix_app_r| |done]. apply did_right, did_here.
    specialize (Hr [] b). rewrite app_nil_r in Hr. by apply Hr.
  - intros HP r v Hv. rewrite <- app_assoc. apply IH; [apply tick_le in Hv; lia| |].
    + intros tr3 a Hk. rewrite <- app_assoc. apply Hr. cbn [runs]. eauto.
    + rewrite app_assoc. by apply HP.
Qed.

Lemma holds_ret {A} t tr (a : A) (P : Z → wtrace → A → Prop) : P t tr a → holds t tr (mret a) P.
Proof. done. Qed.

Lemma holds_true {A} t tr (p : wprog A) : holds t tr p (λ _ _ _, True).
Proof. revert t tr. induction p; cbn [holds]; auto. Qed.

Lemma holds_bind {A B} t tr (p : wprog A) (f : A → wprog B) (P : Z → wtrace → B → Prop) :
  holds t tr p (λ u tr' a, holds u tr' (f a) P) → holds t tr (p ≫= f) P.
Proof. revert t tr. induction p as [a|c k IH]; intros t tr; cbn [holds mbind prog_bind]; [done|]. intros H r u Hu. by apply IH, H. Qed.

(** The parts that only ask: what matters is that they were done. *)
Lemma holds_did {A B} t tr (p : wprog A) (f : A → wprog B) (P : Z → wtrace → B → Prop) :
  (∀ u tr' a, t ≤ u → tr `prefix_of` tr' → did tr' p a → holds u tr' (f a) P) → holds t tr (p ≫= f) P.
Proof. intros H. apply holds_bind. eapply holds_mono; [apply holds_true|]. eauto. Qed.

Lemma holds_now {B} t tr (f : Z → wprog B) (P : Z → wtrace → B → Prop) :
  (∀ u, t ≤ u → holds u (tr ++ [obs CNow u]) (f u) P) → holds t tr (now ≫= f) P.
Proof. intros H. apply holds_bind. intros r u [Hle ->]. by apply H. Qed.

Lemma holds_and {A} t tr (p : wprog A) (P Q : Z → wtrace → A → Prop) :
  holds t tr p P → holds t tr p Q → holds t tr p (λ u tr' a, P u tr' a ∧ Q u tr' a).
Proof. revert t tr. induction p as [a|c k IH]; intros t tr; cbn [holds]; auto. Qed.

Lemma did_io (tr : wtrace) c r : did tr (io c) r → obs c r ∈ tr.
Proof.
  intros (tr1 & tr2 & tr3 & -> & r' & tr' & -> & -> & <-). apply elem_of_app. right. apply elem_of_app. left. apply list_elem_of_here.
Qed.

(** ** The invariant of the queues *)

(** A path owed work: waiting, or parked. *)
Definition owed (w : Work) (p : bytes) : Prop := is_Some (pending w !! p) ∨ is_Some (parked w !! p).

(** At the reading [t], a path with failed attempts is still waiting, but for
    those of [X]; nothing waits beyond the longest back-off. *)
Record WorkOk (t : Z) (X : list bytes) (w : Work) : Prop := {
  no_indexing : currently_indexing w = ∅;
  no_recheck : recheck_queue w = ∅;
  retries_ok p a : work_retries w !! p = Some a → 1 ≤ a ≤ MAX_WORK_RETRIES ∧ (is_Some (pending w !! p) ∨ p ∈ X);
  pending_ok p u : pending w !! p = Some u → u ≤ t + MAX_WORK_RETRY_EXTRA;
  parked_ok p u : parked w !! p = Some u → u ≤ t }.

Lemma workok_weaken t t' X Y w : WorkOk t X w → t ≤ t' → (∀ p, p ∈ X → p ∈ Y) → WorkOk t' Y w.
Proof.
  intros H Ht HX. constructor; [apply H|apply H| | |].
  - intros p a [? [?|?]]%H; auto.
  - intros p u Hu%H. lia.
  - intros p u Hu%H. lia.
Qed.

Lemma workok_later t t' X w : WorkOk t X w → t ≤ t' → WorkOk t' X w.
Proof. intros. by eapply workok_weaken. Qed.

Lemma extra_bounded a d : work_retry_extra_delay a d ≤ MAX_WORK_RETRY_EXTRA.
Proof. unfold work_retry_extra_delay. lia. Qed.

Lemma max_extra_pos : 0 ≤ MAX_WORK_RETRY_EXTRA.
Proof. by vm_compute. Qed.

Lemma workok_dequeue t X p w : WorkOk t X w → WorkOk t (p :: X) (dequeue p w).
Proof.
  intros H. constructor; cbn; [apply H|apply H| |intros q u; rewrite lookup_delete_Some; intros [_ ?]; by eapply H|apply H].
  intros q a Hq. destruct (retries_ok _ _ _ H q a Hq) as [? Hor]. split; [done|].
  destruct (decide (p = q)) as [-> |Hne]; [right; apply list_elem_of_here|].
  rewrite lookup_delete_ne by done. destruct Hor; [by left|right]. by apply list_elem_of_further.
Qed.

Lemma workok_enqueue t X p u w : WorkOk t (p :: X) w → u ≤ t + MAX_WORK_RETRY_EXTRA → WorkOk t X (enqueue p u w).
Proof.
  intros H Hu. constructor; cbn; [apply H|apply H| | |apply H].
  - intros q a Hq. destruct (retries_ok _ _ _ H q a Hq) as [? Hor]. split; [done|].
    destruct (decide (p = q)) as [-> |Hne]; [left; by rewrite lookup_insert_eq|]. rewrite lookup_insert_ne by done.
    destruct Hor as [?|[-> |?]%elem_of_cons]; [by left|done|by right].
  - intros q v [[<- <-]|[_ Hv]]%lookup_insert_Some; [done|by eapply H].
Qed.

Lemma workok_settle t X p w : WorkOk t (p :: X) w → WorkOk t X (settle p w).
Proof.
  intros H. constructor; cbn; [apply H|apply H| |apply H|].
  - intros q a [Hne Hq]%lookup_delete_Some. destruct (retries_ok _ _ _ H q a Hq) as [? Hor]. split; [done|].
    destruct Hor as [?|[-> |?]%elem_of_cons]; [by left|done|by right].
  - intros q u [_ Hq]%lookup_delete_Some. by eapply H.
Qed.

Lemma workok_park t X p w : WorkOk t X w → WorkOk t X (park p t w).
Proof.
  intros H. constructor; cbn; [apply H|apply H|apply H|apply H|].
  intros q u [[<- <-]|[_ Hv]]%lookup_insert_Some; [lia|by eapply H].
Qed.

Lemma owed_enqueue p q t w : owed w q ∨ q = p → owed (enqueue p t w) q.
Proof.
  intros H. unfold owed. cbn. destruct (decide (p = q)) as [-> |Hne]; [left; by rewrite lookup_insert_eq|].
  rewrite lookup_insert_ne by done. destruct H as [H| ->]; done.
Qed.

Lemma owed_dequeue p q w : owed w q → owed (dequeue p w) q ∨ q = p.
Proof.
  unfold owed. cbn. destruct (decide (p = q)) as [-> |Hne]; [by right|]. rewrite lookup_delete_ne by done. by left.
Qed.

Lemma owed_settle p q w : owed w q → owed (settle p w) q ∨ q = p.
Proof.
  unfold owed. cbn. destruct (decide (p = q)) as [-> |Hne]; [by right|]. rewrite lookup_delete_ne by done. by left.
Qed.

(** ** Failed work *)

Lemma requeue_one_ok d t X p w : WorkOk t (p :: X) w → WorkOk t X (requeue_one d t w p).1.
Proof.
  intros H. unfold requeue_one. set (attempt := default 0 (work_retries w !! p) + 1).
  assert (1 ≤ attempt) as Ha.
  { unfold attempt. destruct (work_retries w !! p) as [a|] eqn:E; [|done]. apply H in E. cbn. lia. }
  destruct (Z.ltb_spec MAX_WORK_RETRIES attempt) as [Hm|Hm]; constructor; cbn; try apply H.
  - intros q a [Hne Hq]%lookup_delete_Some. rewrite lookup_delete_ne by done. destruct (retries_ok _ _ _ H q a Hq) as [? Hor].
    split; [done|]. destruct Hor as [?|[-> |?]%elem_of_cons]; [by left|done|by right].
  - intros q u [_ Hq]%lookup_delete_Some. by eapply H.
  - intros q a [[<- <-]|[Hne Hq]]%lookup_insert_Some; [split; [done|left; by rewrite lookup_insert_eq]|].
    rewrite lookup_insert_ne by done. destruct (retries_ok _ _ _ H q a Hq) as [? Hor].
    split; [done|]. destruct Hor as [?|[-> |?]%elem_of_cons]; [by left|done|by right].
  - intros q u [[<- <-]|[_ Hv]]%lookup_insert_Some; [pose proof (extra_bounded attempt d); lia|by eapply H].
Qed.

Lemma requeue_ok d t X paths w : WorkOk t (paths ++ X) w → WorkOk t X (requeue_failed_work d t paths w).1.
Proof.
  revert w. induction paths as [|p paths IH]; intros w H; [done|]. cbn [requeue_failed_work].
  pose proof (requeue_one_ok d t (paths ++ X) p w H) as H1. destruct (requeue_one d t w p) as [w1 ab].
  specialize (IH w1 H1). by destruct (requeue_failed_work d t paths w1) as [w2 l].
Qed.

(** A requeued or abandoned path is accounted for. *)
Lemma requeue_one_owed d t p q w : let r := requeue_one d t w p in
  (owed w q ∨ q = p → owed r.1 q ∨ (r.2 = true ∧ q = p)) ∧ parked r.1 = parked w.
Proof.
  unfold requeue_one. destruct (_ <? _); cbn; (split; [|done]); unfold owed; cbn; destruct (decide (p = q)) as [-> |Hne].
  - tauto.
  - rewrite lookup_delete_ne by done. intros [?| ->]; tauto.
  - rewrite lookup_insert_eq. intros _. left. left. done.
  - rewrite lookup_insert_ne by done. intros [?| ->]; tauto.
Qed.

Lemma requeue_owed d t paths q w : owed w q ∨ q ∈ paths →
  owed (requeue_failed_work d t paths w).1 q ∨ q ∈ (requeue_failed_work d t paths w).2.
Proof.
  revert w. induction paths as [|p paths IH]; intros w H; cbn [requeue_failed_work].
  - destruct H as [H|H%elem_of_nil]; [by left|done].
  - destruct (requeue_one_owed d t p q w) as [H1 _]. destruct (requeue_one d t w p) as [w1 ab]. cbn in H1.
    specialize (IH w1). destruct (requeue_failed_work d t paths w1) as [w2 l]. cbn in IH |- *.
    assert (owed w1 q ∨ (ab = true ∧ q = p) ∨ q ∈ paths) as [Ho|[[-> ->]|Hin]].
    { destruct H as [H|[-> |H]%elem_of_cons]; [|destruct H1; auto..|auto]; destruct H1; auto. }
    + destruct IH; [by left|by left|right]. destruct ab; [by apply list_elem_of_further|done].
    + right. apply list_elem_of_here.
    + destruct IH; [by right|by left|right]. destruct ab; [by apply list_elem_of_further|done].
Qed.

Lemma park_all_ok t X l w : WorkOk t X w → WorkOk t X (fold_left (λ w p, park p t w) l w).
Proof. revert w. induction l as [|p l IH]; intros w H; [done|]. by apply IH, workok_park. Qed.

Lemma park_all_owed t l w q : owed w q ∨ q ∈ l → owed (fold_left (λ w p, park p t w) l w) q.
Proof.
  revert w. induction l as [|p l IH]; intros w H; cbn; [by destruct H as [H|H%elem_of_nil]|]. apply IH.
  destruct H as [H|[-> |H]%elem_of_cons]; [left|left|by right].
  - unfold owed in *. cbn. destruct (decide (p = q)) as [-> |Hne]; [right; by rewrite lookup_insert_eq|]. by rewrite lookup_insert_ne.
  - right. cbn. by rewrite lookup_insert_eq.
Qed.

Lemma requeue_or_park_ok d t X paths w : WorkOk t (paths ++ X) w → WorkOk t X (requeue_or_park d t paths w).
Proof.
  intros H%(requeue_ok d). unfold requeue_or_park. destruct (requeue_failed_work d t paths w) as [w1 l]. by apply park_all_ok.
Qed.

Lemma requeue_or_park_owed d t paths w q : owed w q ∨ q ∈ paths → owed (requeue_or_park d t paths w) q.
Proof.
  intros H%(requeue_owed d t). unfold requeue_or_park. destruct (requeue_failed_work d t paths w) as [w1 l]. by apply park_all_owed.
Qed.

(** ** A semantic batch *)

Lemma contains_word_elem l p : contains_word l p = true ↔ p ∈ l.
Proof. rewrite contains_word_true. by rewrite list_elem_of_In. Qed.

(** The paths of the batch that stay owed are those whose rows remain stale. *)
Definition batch_fresh (outcome : BatchResult) (p : bytes) : Prop := ∃ failed, outcome = inl failed ∧ (p ∉ failed).

Lemma semantic_step_ok o t X w failed p : WorkOk t (p :: failed ++ X) w →
  let r := semantic_step o t (w, failed) p in WorkOk t (r.2 ++ X) r.1.
Proof.
  intros H. assert (WorkOk t ((failed ++ [p]) ++ X) w) as H1 by (eapply workok_weaken; [done|lia|set_solver]).
  unfold semantic_step. destruct o as [l|[]]; [|done| |done].
  - destruct (contains_word l p); [done|]. by apply workok_settle.
  - apply workok_enqueue; [done|]. pose proof max_extra_pos. lia.
Qed.

Lemma semantic_steps_ok o t X paths w failed : WorkOk t (paths ++ failed ++ X) w →
  let r := fold_left (semantic_step o t) paths (w, failed) in WorkOk t (r.2 ++ X) r.1.
Proof.
  revert w failed. induction paths as [|p paths IH]; intros w failed H; [done|]. cbn [fold_left].
  assert (WorkOk t (p :: failed ++ (paths ++ X)) w) as H1 by (eapply workok_weaken; [done|lia|set_solver]).
  apply (semantic_step_ok o) in H1. cbn zeta in H1. destruct (semantic_step o t (w, failed) p) as [w1 f1]. apply IH.
  eapply workok_weaken; [done|lia|set_solver].
Qed.

Lemma semantic_steps_owed o t paths w failed q : owed w q ∨ q ∈ failed ∨ q ∈ paths →
  let r := fold_left (semantic_step o t) paths (w, failed) in owed r.1 q ∨ q ∈ r.2 ∨ (batch_fresh o q ∧ q ∈ paths).
Proof.
  revert w failed. induction paths as [|p paths IH]; intros w failed H; [set_solver|]. cbn [fold_left].
  assert (let r := semantic_step o t (w, failed) p in owed r.1 q ∨ q ∈ r.2 ∨ (batch_fresh o q ∧ q = p) ∨ q ∈ paths) as H1.
  { assert (owed w q ∨ q ∈ failed ∨ q = p ∨ q ∈ paths) as H' by set_solver; clear H; rename H' into H.
    unfold semantic_step. destruct o as [l|[]]; cbn.
    - destruct (contains_word l p) eqn:E; cbn; [set_solver|]. apply not_true_iff_false in E. rewrite contains_word_elem in E.
      destruct H as [H|[H|[-> |H]]]; auto.
      + destruct (owed_settle p q w H) as [?| ->]; [by auto|]. do 2 right. left. split; [by exists l|done].
      + do 2 right. left. split; [by exists l|done].
    - set_solver.
    - destruct H as [H|[H|[H|H]]]; auto; left; apply owed_enqueue; auto.
    - set_solver. }
  cbn zeta in H1. destruct (semantic_step o t (w, failed) p) as [w1 f1]. cbn in H1.
  destruct H1 as [H1|[H1|[[Hf ->]|H1]]].
  - destruct (IH w1 f1) as [|[?|[? ?]]]; auto. do 2 right. split; [done|by apply list_elem_of_further].
  - destruct (IH w1 f1) as [|[?|[? ?]]]; auto. do 2 right. split; [done|by apply list_elem_of_further].
  - do 2 right. split; [done|apply list_elem_of_here].
  - destruct (IH w1 f1) as [|[?|[? ?]]]; auto. do 2 right. split; [done|by apply list_elem_of_further].
Qed.

Lemma apply_semantic_ok o paths d t X w : WorkOk t (paths ++ X) w → WorkOk t X (apply_semantic_outcome o paths d t w).
Proof.
  intros H. unfold apply_semantic_outcome. pose proof (semantic_steps_ok o t X paths w [] H) as H1. cbn zeta in H1.
  destruct (fold_left _ paths (w, [])) as [w1 failed]. by apply requeue_or_park_ok.
Qed.

Lemma apply_semantic_owed o paths d t w q : owed w q ∨ q ∈ paths →
  owed (apply_semantic_outcome o paths d t w) q ∨ (batch_fresh o q ∧ q ∈ paths).
Proof.
  intros H. unfold apply_semantic_outcome. pose proof (semantic_steps_owed o t paths w [] q) as H1. cbn zeta in H1.
  destruct (fold_left _ paths (w, [])) as [w1 failed]. cbn in H1.
  destruct H1 as [H1|[H1|H1]]; [set_solver|left; apply requeue_or_park_owed; auto..|by right].
Qed.

(** ** Parked paths *)

Lemma revive_one_ok t X p w : WorkOk t X w → WorkOk t X (revive_one t w p).
Proof.
  intros H. constructor; cbn; try apply H.
  - intros q a [Hne Hq]%lookup_delete_Some. rewrite lookup_insert_ne by done. by eapply H.
  - intros q u [[<- <-]|[_ Hv]]%lookup_insert_Some; [pose proof max_extra_pos; lia|by eapply H].
Qed.

Lemma revive_all_ok t X l w : WorkOk t X w → WorkOk t X (fold_left (revive_one t) l w).
Proof. revert w. induction l as [|p l IH]; intros w H; [done|]. by apply IH, revive_one_ok. Qed.

Lemma revive_all_lookup t l w q :
  (q ∈ l ∨ is_Some (pending w !! q) → is_Some (pending (fold_left (revive_one t) l w) !! q)) ∧
  parked (fold_left (revive_one t) l w) = parked w.
Proof.
  revert w. induction l as [|p l IH]; intros w; cbn.
  - split; [|done]. intros [H%elem_of_nil|H]; done.
  - destruct (IH (revive_one t w p)) as [H1 ->]. split; [|done]. intros H. apply H1. cbn.
    destruct (decide (p = q)) as [->|Hne]; [right; by rewrite lookup_insert_eq|]. rewrite lookup_insert_ne by done.
    destruct H as [[->|H]%elem_of_cons|H]; auto. done.
Qed.

Lemma due_elem (t : Z) (m : gmap bytes Z) (q : bytes) :
  q ∈ map fst (List.filter (λ e, is_due t e.2) (map_to_list m)) ↔ ∃ u, m !! q = Some u ∧ is_due t u = true.
Proof.
  rewrite list_elem_of_In, in_map_iff. split.
  - intros ([q' u] & <- & [H1 H2]%filter_In). exists u. split; [|done]. by apply elem_of_map_to_list, list_elem_of_In.
  - intros (u & H1 & H2). exists (q, u). split; [done|]. apply filter_In. split; [|done]. by apply list_elem_of_In, elem_of_map_to_list.
Qed.

Lemma revive_ok t X w : WorkOk t X w → WorkOk t X (revive_due_parked t w).1.
Proof.
  intros H. apply revive_all_ok. constructor; try apply H. cbn. intros p u [Hu _]%map_lookup_filter_Some. by eapply H.
Qed.

(** Reviving moves due paths to the queue, and no other. *)
Lemma revive_lookup t w q u : parked w !! q = Some u →
  if is_due t u then is_Some (pending (revive_due_parked t w).1 !! q) else parked (revive_due_parked t w).1 !! q = Some u.
Proof.
  intros Hu. unfold revive_due_parked. cbn [fst].
  destruct (revive_all_lookup t (map fst (List.filter (λ e, is_due t e.2) (map_to_list (parked w))))
    (set_parked (filter (λ e, is_due t e.2 = false) (parked w)) w) q) as [H1 ->].
  destruct (is_due t u) eqn:E; [apply H1; left; apply due_elem; eauto|]. cbn. by apply map_lookup_filter_Some.
Qed.

Lemma revive_pending t w q : is_Some (pending w !! q) → is_Some (pending (revive_due_parked t w).1 !! q).
Proof. intros H. apply revive_all_lookup. by right. Qed.

Lemma revive_owed t w q : owed w q → owed (revive_due_parked t w).1 q.
Proof.
  intros [H|[u Hu]]; [left; by apply revive_pending|]. pose proof (revive_lookup t w q u Hu) as H.
  destruct (is_due t u); [by left|right; by eexists].
Qed.

(** ** Bulk passes *)

Lemma apply_bulk_ok o removed t d cd w :
  0 ≤ d → (∀ c, cd = Some c → c ≤ t + BULK_COOLDOWN) → WorkOk t [] w → (o = Done → work_retries w = ∅) →
  let r := apply_bulk_outcome o removed t d cd w in
  WorkOk t [] r.1.1 ∧ (∀ a, r.2 = Some a → a ≤ t + d + BULK_COOLDOWN) ∧ (o ≠ Done → ∀ p, owed w p → owed r.1.1 p).
Proof.
  intros Hd Hcd H Hr. destruct o; cbn zeta; cbn [apply_bulk_outcome fst snd].
  - split; [|done]. constructor; try apply H; cbn.
    + intros p a. rewrite (Hr eq_refl), lookup_empty. done.
    + intros p u. rewrite lookup_empty. done.
  - set (at_ := match cd with Some cd => _ | None => _ end).
    assert (t + d ≤ at_ ∧ at_ ≤ t + d + BULK_COOLDOWN) as [Hlo Hhi].
    { unfold at_. assert (0 ≤ BULK_COOLDOWN) by (by vm_compute). destruct cd as [c|]; [|lia]. specialize (Hcd c eq_refl). lia. }
    split; [|split].
    + constructor; try apply H; cbn.
      * intros p a [? Hp]%H. split; [done|]. rewrite lookup_fmap. destruct Hp as [[u Hu]|Hp]; [left; rewrite Hu; by eexists|by right].
      * intros p u. rewrite lookup_fmap, fmap_Some. intros (v & _ & ->).
        assert (BULK_COOLDOWN ≤ MAX_WORK_RETRY_EXTRA) by (by vm_compute). lia.
    + intros a [= <-]. done.
    + intros _ p [[u Hu]|Hp]; [left|by right]. cbn. rewrite lookup_fmap, Hu. by eexists.
  - split; [done|]. split; [done|]. auto.
Qed.
