(* ===== verification/WatchProofs.v ===== *)
(** * WatchProofs: the file watcher loses nothing it owes

    [Ok] is the invariant of the state of the loop of [StateWatcher], [Kept]
    says of an obligation that it is still outstanding, subsumed by a pending
    reconciliation of the project, or discharged by work that was done.  Every
    handler is shown to preserve both ([Step]); the theorems are about one
    iteration of the loop from any state it can reach. *)
From stdpp Require Import gmap sorting.
From S2P Require Import Prelude Text Detect Effects WatchQueue StateWatcher WatchLogic.
From Stdlib Require Import Lia.
Local Open Scope codesage_scope.
Local Open Scope Z_scope.

(** What the watcher can owe: the rows of a saved file, the removal of a path,
    the removal of what was under a directory. *)
Inductive Obligation := OFile (p : bytes) | ORemoval (p : bytes) | OPrefix (p : bytes).

Section watcher.
Context (config : Config).

(** The whole project was reconciled. *)
Definition bulk_done (tr : wtrace) : Prop := did tr (run_bulk_incremental config) Done.

(** The file was found ignored, or indexed and its semantic rows not stale, or
    indexed and embedded with a batch that does not report it failed. *)
Definition file_done (tr : wtrace) (p : bytes) : Prop :=
  did tr (io (CIgnored (join_root config p) false)) true ∨
  (∃ sem hdr, did tr (reindex_one p sem hdr) (Done, None)) ∨
  (∃ sem hdr info files failed, did tr (reindex_one p sem hdr) (Done, Some info) ∧ info ∈ files ∧
     did tr (semantic_reindex_batch config files) (inl failed) ∧ (p ∉ failed)).

(** The rows are gone, or given up on after [MAX_REMOVAL_FAILURES] hard
    failures of which [n] came before. *)
Definition removal_done (n : Z) (tr : wtrace) (mine : list bytes → list bytes → Prop) : Prop :=
  ∃ paths prefixes, mine paths prefixes ∧
    (did tr (handle_removals config paths prefixes) Done ∨
     (did tr (handle_removals config paths prefixes) Failed ∧ MAX_REMOVAL_FAILURES ≤ n + 1)).

Definition discharged (n : Z) (tr : wtrace) (o : Obligation) : Prop :=
  bulk_done tr ∨
  match o with
  | OFile p => file_done tr p
  | ORemoval p => file_done tr p ∨ removal_done n tr (λ paths _, p ∈ paths)
  | OPrefix p => removal_done n tr (λ _ prefixes, p ∈ prefixes)
  end.

(** A path that is saved again is to be indexed instead of removed. *)
Definition outstanding (s : Watch) (o : Obligation) : Prop :=
  match o with
  | OFile p => owed (work s) p
  | ORemoval p => p ∈ removed_paths (removals s) ∨ owed (work s) p
  | OPrefix p => p ∈ removed_prefixes (removals s)
  end.

Definition Kept (n : Z) (tr : wtrace) (o : Obligation) (s : Watch) : Prop :=
  outstanding s o ∨ refresh_pending (refresh s) = true ∨ lost_flag s = true ∨ discharged n tr o.

(** The longest wait for the next try of a reconciliation. *)
Definition refresh_wait : Z := Z.max PARKED_RETRY_INTERVAL (Z.max (debounce_of config) (secs 1) + MAX_WORK_RETRY_EXTRA).

Record Ok (t : Z) (s : Watch) : Prop := {
  ok_work : WorkOk t [] (work s);
  ok_fail : 0 ≤ removal_fail_count (removals s) < MAX_REMOVAL_FAILURES;
  ok_startup c : startup_failures s = Some c → 0 ≤ c < 3;
  ok_batch : (length (batch_event_times s) ≤ BATCH_THRESHOLD)%nat;
  ok_cooldown c : bulk_cooldown_until s = Some c → c ≤ t + BULK_COOLDOWN;
  ok_bulk a : bulk_retry_at s = Some a → a ≤ t + debounce_of config + BULK_COOLDOWN;
  ok_removal a : removal_retry_at s = Some a → a ≤ t + debounce_of config;
  ok_refresh a : retry_at (refresh s) = Some a → a ≤ t + refresh_wait;
  ok_failures : 0 ≤ failures (refresh s);
  ok_activity : last_activity s ≤ t }.

Context (debounce_nonneg : 0 ≤ debounce_of config).

Definition Step (n : Z) (tr : wtrace) (s : Watch) : Z → wtrace → Watch → Prop := λ u tr' s',
  Ok u s' ∧ (∀ o, Kept n tr o s → Kept n tr' o s') ∧ removal_fail_count (removals s') = removal_fail_count (removals s).

Lemma ok_later t t' s : Ok t s → t ≤ t' → Ok t' s.
Proof using Type.
  intros [] Hle. constructor; [by eapply workok_later|done|done|done| | | | |done|lia].
  all: intros a Ha; match goal with H : ∀ _, _ = Some _ → _ ≤ _ |- _ => apply H in Ha; lia end.
Qed.

Lemma did_prefix {A} (m : wprog A) tr tr' a : did tr m a → tr `prefix_of` tr' → did tr' m a.
Proof using Type. intros H [k ->]. by apply did_left. Qed.

Lemma discharged_prefix n tr tr' o : discharged n tr o → tr `prefix_of` tr' → discharged n tr' o.
Proof using Type.
  intros [H|H] Hp; [left; by eapply did_prefix|right].
  assert (∀ p, file_done tr p → file_done tr' p) as Hf.
  { intros p [H1|[(sem & hdr & H1)|(sem & hdr & info & files & failed & H1 & H2 & H3 & H4)]]; [left|right; left|right; right].
    - by eapply did_prefix.
    - exists sem, hdr. by eapply did_prefix.
    - exists sem, hdr, info, files, failed. split_and!; try done; by eapply did_prefix. }
  assert (∀ mine, removal_done n tr mine → removal_done n tr' mine) as Hr.
  { intros mine (paths & prefixes & Hm & [H1|[H1 H2]]); exists paths, prefixes; (split; [done|]); [left|right; split; [|done]]; by eapply did_prefix. }
  destruct o; [by apply Hf|destruct H as [H|H]; [left; by apply Hf|right; by apply Hr]|by apply Hr].
Qed.

Lemma kept_prefix n tr tr' o s : Kept n tr o s → tr `prefix_of` tr' → Kept n tr' o s.
Proof using Type. intros [H|[H|[H|H]]] Hp; unfold Kept; auto. do 3 right. by eapply discharged_prefix. Qed.

(** The part of the state obligations depend on did not lose anything. *)
Definition no_less (s s' : Watch) : Prop :=
  (∀ p, owed (work s) p → owed (work s') p) ∧
  (∀ p, p ∈ removed_paths (removals s) → p ∈ removed_paths (removals s') ∨ owed (work s') p) ∧
  (∀ p, p ∈ removed_prefixes (removals s) → p ∈ removed_prefixes (removals s')) ∧
  (refresh_pending (refresh s) = true → refresh_pending (refresh s') = true) ∧
  (lost_flag s = true → lost_flag s' = true ∨ refresh_pending (refresh s') = true).

Lemma no_less_refl s : no_less s s.
Proof using Type. unfold no_less. auto 10. Qed.

Lemma no_less_kept n tr s s' o : no_less s s' → Kept n tr o s → Kept n tr o s'.
Proof using Type.
  intros (H1 & H2 & H3 & H4 & H5) [H|[H|[H|H]]]; unfold Kept; auto.
  - left. destruct o; cbn in *; auto. destruct H; auto.
  - destruct (H5 H); auto.
Qed.

Lemma step_refl n t tr tr' s : Ok t s → tr `prefix_of` tr' → Step n tr s t tr' s.
Proof using Type. intros H Hp. split; [done|]. split; [|done]. intros o Ho. by eapply kept_prefix. Qed.

Lemma step_same n t tr tr' s s' : Ok t s' → tr `prefix_of` tr' → no_less s s' →
  removal_fail_count (removals s') = removal_fail_count (removals s) → Step n tr s t tr' s'.
Proof using Type. intros H Hp Hl Hc. split; [done|]. split; [|done]. intros o Ho. eapply no_less_kept; [done|]. by eapply kept_prefix. Qed.

Lemma step_trans n tr s t1 tr1 s1 t2 tr2 s2 : Step n tr s t1 tr1 s1 → Step n tr1 s1 t2 tr2 s2 → Step n tr s t2 tr2 s2.
Proof using Type. intros (_ & H1 & E1) (H2 & H3 & E2). split; [done|]. split; [auto|congruence]. Qed.

(** A handler followed by the rest. *)
Lemma holds_step {B} n t0 t tr0 s0 tr s (h : wprog Watch) (f : Watch → wprog B) (P : Z → wtrace → B → Prop) :
  Step n tr0 s0 t0 tr s → holds t tr h (Step n tr s) →
  (∀ u tr' s', Step n tr0 s0 u tr' s' → holds u tr' (f s') P) → holds t tr (h ≫= f) P.
Proof using Type.
  intros H0 Hh Hf. apply holds_bind. eapply holds_mono; [exact Hh|]. intros u tr' s' _ _ _ Hs. apply Hf. by eapply step_trans.
Qed.

(** ** The small handlers *)

Ltac ok_fields H := constructor; cbn;
  try first [exact (ok_work _ _ H) | exact (ok_fail _ _ H) | exact (ok_startup _ _ H) | exact (ok_batch _ _ H) | exact (ok_cooldown _ _ H) |
             exact (ok_bulk _ _ H) | exact (ok_removal _ _ H) | exact (ok_refresh _ _ H) | exact (ok_failures _ _ H) | exact (ok_activity _ _ H)].
Ltac untouched := unfold no_less; cbn; auto 10.

Lemma publish_step n t tr s next : Ok t s → holds t tr (publish_status next s) (Step n tr s).
Proof using Type.
  intros H. unfold publish_status. case_bool_decide; [by apply step_refl|].
  apply holds_did. intros u tr' written Hle Hp _. apply (ok_later _ u) in H; [|done]. apply holds_ret.
  destruct written; [|by apply step_refl]. apply step_same; [|done|untouched|done]. ok_fields H.
Qed.

Lemma load_lost_step n t tr s : Ok t s → holds t tr (load_lost s) (Step n tr s).
Proof using Type.
  intros H. unfold load_lost. apply holds_did. intros u tr' other Hle Hp _. apply (ok_later _ u) in H; [|done]. apply holds_ret.
  apply step_same; [ok_fields H|done| |done]. untouched. cbn. split_and!; auto. intros ->. by left.
Qed.

Lemma report_step n t tr s received : Ok t s → holds t tr (report_status received s) (Step n tr s).
Proof using Type.
  intros H. unfold report_status. eapply holds_step; [by apply step_refl| |].
  - destruct (_ || _); [by apply holds_ret, step_refl|by apply load_lost_step].
  - intros u tr' s' Hs. eapply holds_mono; [apply publish_step, Hs|]. intros ? ? ? _ _ _ H2. by eapply step_trans.
Qed.

Lemma enforce_budget_step n t tr s : Ok t s → Step n tr s t tr (enforce_budget s).
Proof using Type.
  intros H. unfold enforce_budget. destruct (pending_work_exceeds_budget _); [|by apply step_refl].
  split; [|split; [|done]].
  - destruct H as [[]]. constructor; cbn; try done; try lia.
  - intros o _. right. right. by left.
Qed.

Lemma request_ok r now t : (∀ a, retry_at r = Some a → a ≤ t + refresh_wait) → now ≤ t →
  ∀ a, retry_at (request r now) = Some a → a ≤ t + refresh_wait.
Proof using debounce_nonneg.
  intros Hr Hn a. unfold request. cbn. destruct (failures r =? 0); [|apply Hr]. intros [= <-].
  assert (0 ≤ refresh_wait) by (unfold refresh_wait; assert (0 ≤ PARKED_RETRY_INTERVAL) by (by vm_compute); lia).
  destruct (retry_at r) as [b|]; cbn; [specialize (Hr b eq_refl)|]; lia.
Qed.

Lemma take_lost_step n t tr s : Ok t s → holds t tr (take_lost s) (Step n tr s).
Proof using debounce_nonneg.
  intros H. unfold take_lost. apply holds_did. intros u tr1 other Hle Hp _.
  destruct (lost_flag s || other) eqn:El; [|apply holds_ret, step_refl; [by eapply ok_later|done]].
  apply holds_now. intros u1 Hu1. apply (ok_later _ u1) in H; [|lia].
  assert (∀ B (o : option Z) (f : Z → wprog B) t tr P,
    (∀ u tr' a, t ≤ u → tr `prefix_of` tr' → a = default a o → (o = None → a ≤ u) → holds u tr' (f a) P) →
    holds t tr (match o with Some a => mret a | None => now end ≫= f) P) as Hread.
  { intros B [a|] f t2 tr2 P Hf; [by apply Hf|]. apply holds_now. intros v Hv. apply Hf; [done|by apply prefix_app_r|done|done]. }
  apply Hread. intros u2 tr2 at_ Hu2 Hp2 Ea Ha. apply Hread. intros u3 tr3 cooldown Hu3 Hp3 Ec Hc. apply holds_ret.
  apply (ok_later _ u3) in H; [|lia]. apply step_same; [| |untouched|done].
  - ok_fields H. intros a [= <-]. apply Z.max_lub.
    + destruct (retry_at (request (refresh s) u1)) as [b|] eqn:Er; cbn in Ea; subst.
      * eapply request_ok; [apply H| |done]. lia.
      * specialize (Ha eq_refl). unfold refresh_wait. assert (0 ≤ PARKED_RETRY_INTERVAL) by (by vm_compute). lia.
    + assert (0 ≤ PARKED_RETRY_INTERVAL ∧ BULK_COOLDOWN ≤ PARKED_RETRY_INTERVAL) by (by vm_compute). unfold refresh_wait.
      destruct (bulk_cooldown_until s) as [b|] eqn:Er; cbn in Ec; subst.
      * pose proof (ok_cooldown _ _ H _ Er). lia.
      * specialize (Hc eq_refl). lia.
  - etrans; [done|]. etrans; [|done]. etrans; [|done]. by apply prefix_app_r.
Qed.

(** ** Notifications *)

Lemma debounced_step n t tr s : Ok t s → holds t tr (debounced_retry config s) (Step n tr s).
Proof using debounce_nonneg.
  intros H. unfold debounced_retry. apply holds_now. intros u Hu.
  assert (0 ≤ BULK_COOLDOWN) by (by vm_compute).
  assert (tr `prefix_of` tr ++ [obs CNow u]) as Hp by by apply prefix_app_r.
  destruct (bulk_cooldown_until s) as [c|] eqn:Ec.
  - pose proof (ok_cooldown _ _ H _ Ec). apply holds_now. intros v Hv. apply holds_ret. apply (ok_later _ v) in H; [|lia].
    apply step_same; [|by apply prefix_app_r|untouched|done]. ok_fields H. intros a [= <-]. lia.
  - apply holds_ret. apply (ok_later _ u) in H; [|lia]. apply step_same; [|done|untouched|done].
    ok_fields H. intros a [= <-]. lia.
Qed.

Lemma request_step n t tr s : Ok t s → holds t tr (request_refresh s) (Step n tr s).
Proof using debounce_nonneg.
  intros H. unfold request_refresh. apply holds_now. intros u Hu. apply holds_now. intros v Hv. apply holds_ret.
  apply (ok_later _ v) in H; [|lia]. assert (0 ≤ BULK_COOLDOWN) by (by vm_compute).
  apply step_same; [|rewrite <- app_assoc; by apply prefix_app_r|untouched|done].
  ok_fields H.
  - intros a [= <-]. lia.
  - eapply request_ok; [apply H|lia].
Qed.

Lemma set_after_bulk_step n t tr s o :
  Ok t s → (o = Done → work_retries (work s) = ∅ ∧ bulk_done tr) →
  Step n tr s t tr (set_after_bulk s (apply_bulk_outcome o (removed_paths (removals s)) t (debounce_of config) (bulk_cooldown_until s) (work s))).
Proof using debounce_nonneg.
  intros H Hd.
  destruct (apply_bulk_ok o (removed_paths (removals s)) t (debounce_of config) (bulk_cooldown_until s) (work s)) as (H1 & H2 & H3);
    [done|apply H|apply H|by intros ->; destruct Hd|].
  split; [|split].
  - destruct (apply_bulk_outcome _ _ _ _ _ _) as [[w removed] at_]. cbn in H1, H2. ok_fields H; done.
  - intros ob Hk. destruct (decide (o = Done)) as [->|Ho]; [do 3 right; left; by apply Hd|].
    assert ((apply_bulk_outcome o (removed_paths (removals s)) t (debounce_of config) (bulk_cooldown_until s) (work s)).1.2 = removed_paths (removals s)) as Er
      by (destruct o; done).
    specialize (H3 Ho). destruct (apply_bulk_outcome _ _ _ _ _ _) as [[w removed] at_]. cbn in H3, Er. subst removed.
    eapply no_less_kept; [|done]. untouched.
  - by destruct (apply_bulk_outcome _ _ _ _ _ _) as [[w removed] at_].
Qed.

Lemma forget_then_enqueue_no_less s rel t :
  no_less s (set_work (forget_removed rel s) (enqueue rel t (work s))).
Proof using Type.
  unfold no_less. cbn. split_and!; auto.
  - intros p Hp. apply owed_enqueue. by left.
  - intros p Hp. destruct (decide (p = rel)) as [->|Hne]; [right; apply owed_enqueue; by right|left].
    apply list_elem_of_In, filter_In. split; [by apply list_elem_of_In|]. by destruct (bytes_eqb_spec p rel).
Qed.

Lemma workok_enqueue_now t u p w : WorkOk t [] w → u ≤ t → WorkOk t [] (enqueue p u w).
Proof using Type.
  intros H Hu. apply workok_enqueue; [|pose proof max_extra_pos; lia]. eapply workok_weaken; [done|lia|by intros q ?%elem_of_nil].
Qed.

Lemma push_batch_ok t u s : Ok t s → Ok t (push_batch u s).
Proof using debounce_nonneg.
  intros H. unfold push_batch. destruct (Nat.ltb_spec (length (batch_event_times s)) BATCH_THRESHOLD); [|done].
  ok_fields H. rewrite length_app. cbn. lia.
Qed.

Lemma save_file_step n t tr s rel : Ok t s → holds t tr (save_file s rel) (λ u tr' s', Step n tr s u tr' s' ∧ owed (work s') rel).
Proof using debounce_nonneg.
  intros H. unfold save_file.
  set (s1 := if negb (header_is_cpp s) && is_cpp_path rel then _ else _).
  assert (work s1 = work s ∧ removals s1 = removals s ∧ refresh s1 = refresh s ∧ lost_flag s1 = lost_flag s ∧
          batch_event_times s1 = batch_event_times s) as (Ew & Er & Ef & El & Eb) by (unfold s1; by destruct (_ && _)).
  assert (Ok t s1) as H1 by (unfold s1; destruct (_ && _); [ok_fields H|done]).
  assert (no_less s s1) as Hl by (unfold no_less; rewrite Ew, Er, Ef, El; auto 10).
  apply holds_now. intros u Hu. apply (ok_later _ u) in H1; [|lia].
  set (s2 := set_work _ _). cbn zeta.
  assert (Ok u s2) as H2 by (ok_fields H1; apply workok_enqueue_now; [apply H1|lia]).
  assert (no_less s1 s2) as Hl2 by exact (forget_then_enqueue_no_less s1 rel u).
  assert (owed (work s2) rel) as Ho by (apply owed_enqueue; by right).
  assert (Step n tr s u (tr ++ [obs CNow u]) s2) as Hs.
  { split; [done|split; [|cbn; by rewrite Er]]. intros o Hk. eapply no_less_kept; [done|]. eapply no_less_kept; [done|].
    eapply kept_prefix; [done|by apply prefix_app_r]. }
  destruct (Nat.ltb_spec (length (batch_event_times s2)) BATCH_THRESHOLD); [|by apply holds_ret].
  apply holds_now. intros v Hv. apply holds_ret. split; [|done]. eapply step_trans; [done|].
  apply (ok_later _ v) in H2; [|lia]. apply step_same; [|by apply prefix_app_r|untouched|done].
  ok_fields H2. rewrite length_app. unfold s2 in *. cbn in *. lia.
Qed.

Lemma adopt_file_ok n t tr s rel : Ok t s → Step n tr s t tr (adopt_file t s rel).
Proof using debounce_nonneg.
  intros H. unfold adopt_file. cbn. destruct (pending (work s) !! rel) as [u|] eqn:E.
  - apply step_same; [ok_fields H|done| |done]. unfold no_less. cbn. split_and!; auto. intros p Hp.
    destruct (decide (p = rel)) as [->|Hne]; [right; left; by rewrite E|left].
    apply list_elem_of_In, filter_In. split; [by apply list_elem_of_In|]. by destruct (bytes_eqb_spec p rel).
  - set (s1 := set_work _ _). assert (Ok t s1) as H1 by (ok_fields H; apply workok_enqueue_now; [apply H|lia]).
    apply step_same; [by apply push_batch_ok|done| |].
    + pose proof (forget_then_enqueue_no_less s rel t) as Hl. unfold push_batch. by destruct (_ <? _)%nat.
    + unfold push_batch. by destruct (_ <? _)%nat.
Qed.

Lemma adopt_files_ok n t tr l s : Ok t s → Step n tr s t tr (fold_left (adopt_file t) l s).
Proof using debounce_nonneg.
  revert s. induction l as [|p l IH]; intros s H; [by apply step_refl|]. cbn.
  eapply step_trans; [by apply adopt_file_ok|]. apply IH, (adopt_file_ok n t tr s p H).
Qed.

(** A handler that keeps the invariant and the obligations. *)
Definition handles (h : Watch → wprog Watch) : Prop := ∀ n t tr s, Ok t s → holds t tr (h s) (Step n tr s).

Lemma handles_ret : handles mret.
Proof using Type. intros n t tr s H. by apply holds_ret, step_refl. Qed.

Lemma handles_bind g h : handles g → handles h → handles (λ s, g s ≫= h).
Proof using Type.
  intros Hg Hh n t tr s H. eapply holds_step; [by apply step_refl|by apply Hg|]. intros u tr' s' Hs.
  eapply holds_mono; [apply Hh, Hs|]. intros ? ? ? _ _ _ H2. by eapply step_trans.
Qed.

(** A call whose answer selects the handler. *)
Lemma handles_call {A} (m : wprog A) (f : A → Watch → wprog Watch) : (∀ a, handles (f a)) → handles (λ s, m ≫= λ a, f a s).
Proof using Type.
  intros Hf n t tr s H. apply holds_did. intros u tr' a Hle Hp _. eapply holds_mono; [apply Hf; by eapply ok_later|].
  intros v tr2 s2 _ _ _ Hs. eapply step_trans; [|done]. apply step_refl; [by eapply ok_later|done].
Qed.

Lemma handles_for_all {A} (body : Watch → A → wprog Watch) l : (∀ x, handles (λ s, body s x)) → handles (for_all body l).
Proof using Type.
  intros Hb. induction l as [|x l IH]; [by apply handles_ret|]. apply (handles_bind (λ s, body s x)); [apply Hb|done].
Qed.

(** A handler that starts with a pure change. *)
Lemma handles_after f h n t tr s : Step n tr s t tr (f s) → handles h → holds t tr (h (f s)) (Step n tr s).
Proof using Type.
  intros Hs Hh. eapply holds_mono; [apply Hh, Hs|]. intros ? ? ? _ _ _ H2. by eapply step_trans.
Qed.

Lemma note_vanished_handles k path rel : handles (λ s, note_vanished config k s path rel).
Proof using debounce_nonneg.
  unfold note_vanished. destruct (match k with NRemove | NName => true | _ => false end && nonempty rel); [|apply handles_ret].
  apply (handles_call (io (CExists path))). intros []; [apply handles_ret|].
  apply (handles_call (io (CIgnored path true))). intros []; [apply handles_ret|]. intros n t tr s H.
  apply (handles_after (λ s, if contains_word (removed_prefixes (removals s)) rel then s
                             else set_removed_prefixes (removed_prefixes (removals s) ++ [rel]) s) (debounced_retry config));
    [|intros ? ? ? ? ?; by apply debounced_step].
  destruct (contains_word _ _); [by apply step_refl|]. apply step_same; [ok_fields H|done| |done].
  unfold no_less. cbn. split_and!; auto. intros p Hp. apply elem_of_app. by left.
Qed.

Lemma on_file_handles k path rel : handles (λ s, on_file config k s path rel).
Proof using debounce_nonneg.
  unfold on_file. apply (handles_bind (λ s, note_vanished config k s path rel)); [apply note_vanished_handles|].
  destruct (negb (is_source_file rel)); [apply handles_ret|].
  apply (handles_call (io (CIgnored path false))). intros []; [apply handles_ret|].
  apply (handles_bind (λ s, if changes_files k && header_context_changed rel then debounced_retry config s else mret s)).
  - destruct (changes_files k && _); [intros ? ? ? ? ?; by apply debounced_step|apply handles_ret].
  - assert (handles (λ s, save_file s rel)) as Hs.
    { intros n t tr s H. eapply holds_mono; [by apply save_file_step|]. by intros ? ? ? _ _ _ [? _]. }
    destruct k; [exact Hs|exact Hs|exact Hs| |apply handles_ret]. intros n t tr s H. apply holds_ret.
    apply step_same; [ok_fields H|done| |done]. unfold no_less. cbn. split_and!; auto. intros p Hp. left. apply elem_of_app. by left.
Qed.

Lemma adopt_dir_handles path : handles (λ s, adopt_dir config s path).
Proof using debounce_nonneg.
  unfold adopt_dir. eapply (handles_bind (λ s, match strip_root (project_root config) path with Some _ => _ | None => _ end)).
  { destruct (strip_root (project_root config) path); [|apply handles_ret].
    apply (handles_call (io (CIgnored path true))). intros []; [apply handles_ret|]. intros ? ? ? ? ?. by apply request_step. }
  apply handles_call. intros _. apply handles_call. intros scan n t tr s H.
  destruct scan as [[files|]|].
  - apply holds_now. intros u Hu. apply holds_ret. eapply step_trans; [eapply (step_refl n u); [by eapply ok_later|by apply prefix_app_r]|].
    apply adopt_files_ok. by eapply ok_later.
  - apply holds_now. intros u Hu. apply holds_ret. eapply step_trans; [eapply (step_refl n u); [by eapply ok_later|by apply prefix_app_r]|].
    apply (set_after_bulk_step _ _ _ _ Skipped); [by eapply ok_later|done].
  - apply holds_now. intros u Hu. apply holds_ret. eapply step_trans; [eapply (step_refl n u); [by eapply ok_later|by apply prefix_app_r]|].
    apply (set_after_bulk_step _ _ _ _ Skipped); [by eapply ok_later|done].
Qed.

Lemma on_path_handles k path : handles (λ s, on_path config k s path).
Proof using debounce_nonneg.
  unfold on_path. destruct (some _ && _ && _); [intros ? ? ? ? ?; by apply request_step|].
  apply (handles_call (io (CIsDir path))). intros is_dir. destruct (is_dir && is_dir_adoption_kind k); [apply adopt_dir_handles|].
  destruct (strip_root (project_root config) path) as [rel|]; [apply on_file_handles|apply handles_ret].
Qed.

(** ** Bulk passes *)

(** What a finished pass guarantees. *)
Definition finished (tr : wtrace) (outcome : WorkOutcome) (s : Watch) : Prop :=
  outcome = Done → work_retries (work s) = ∅ ∧ bulk_done tr.

Lemma workok_clear t X w : WorkOk t X w → WorkOk t X (clear_retries w).
Proof using Type.
  intros H. constructor; cbn; try apply H; intros p u; by rewrite lookup_empty.
Qed.

Lemma guarded_step n t tr s : Ok t s →
  holds t tr (guarded config s) (λ u tr' r, Step n tr s u tr' r.2 ∧ finished tr' r.1 r.2).
Proof using Type.
  intros H. unfold guarded, run_bulk_guarded. apply holds_bind. apply holds_did. intros u tr1 [defer since] Hle Hp _.
  assert (∀ u tr' w, t ≤ u → tr `prefix_of` tr' → (WorkOk u [] (work s) → WorkOk u [] w) →
    ((∀ q, owed (work s) q → owed w q) ∨ bulk_done tr') → Step n tr s u tr' (set_work (set_deferred s since) w)) as Hstep.
  { intros v tr2 w Hv Hpv Hw Hd. pose proof (ok_later _ v _ H Hv) as Hv'. split; [|split; [|done]].
    - ok_fields Hv'. apply Hw, Hv'.
    - intros o Hk. destruct Hd as [Hd|Hd]; [|do 3 right; by left]. eapply no_less_kept; [|by eapply kept_prefix].
      unfold no_less. cbn. auto 10. }
  destruct defer; [apply holds_ret; split; [apply Hstep; auto|done]|].
  apply holds_did. intros v tr2 outcome Hle2 Hp2 Hd.
  assert (tr `prefix_of` tr2) by (by etrans). assert (t ≤ v) by lia.
  destruct outcome; (split; [apply Hstep; auto using workok_clear|try done]).
Qed.

Lemma counted_step n t tr raw s : Ok t s → finished tr raw s →
  Step n tr s t tr (counted raw s).2 ∧ finished tr (counted raw s).1 (counted raw s).2.
Proof using Type.
  intros H Hf. unfold counted, startup_outcome.
  assert (∀ f, (∀ c, f = Some c → 0 ≤ c < 3) → Step n tr s t tr (set_startup_failures s f)) as Hs.
  { intros f Hc. apply step_same; [ok_fields H; done|done|untouched|done]. }
  destruct (startup_failures s) as [c|] eqn:Ec; [|split; [apply Hs|]; done].
  pose proof (ok_startup _ _ H c Ec). destruct raw; cbn.
  - split; [by apply Hs|done].
  - split; [apply Hs; intros ? [= <-]; lia|done].
  - destruct (Z.ltb_spec (c + 1) 3); (split; [apply Hs|done]); [intros ? [= <-]; lia|done].
Qed.

Lemma finish_bulk_step n t tr s outcome : Ok t s → finished tr outcome s →
  holds t tr (finish_bulk config outcome s) (Step n tr s).
Proof using debounce_nonneg.
  intros H Hf. unfold finish_bulk. apply holds_now. intros u Hu. cbn zeta.
  set (tr1 := tr ++ [obs CNow u]). assert (tr `prefix_of` tr1) as Hp by by apply prefix_app_r.
  set (s1 := set_cooldown s (bulk_cooldown_after outcome u)).
  assert (Step n tr s u tr1 s1) as Hs1.
  { pose proof (ok_later _ u _ H Hu) as Hu'. apply step_same; [|done|untouched|done]. ok_fields Hu'.
    intros c. destruct outcome; [|done|done]. intros [= <-]. lia. }
  assert (finished tr1 outcome s1) as Hf1 by (intros E; destruct (Hf E); split; [done|by eapply did_prefix]).
  apply holds_bind. eapply holds_mono with (P := λ v tr' s', Step n tr1 s1 v tr' s' ∧ finished tr' outcome s').
  { case_bool_decide as Eo; [|apply holds_ret; split; [apply step_refl; [apply Hs1|done]|done]].
    apply holds_did. intros v tr2 header Hv Hp2 _. apply holds_ret.
    destruct (Hf1 Eo) as [Er Hb]. apply (did_prefix _ _ tr2) in Hb; [|done].
    destruct Hs1 as [H1 _]. apply (ok_later _ v) in H1; [|done].
    split; [split; [|split; [|done]]|done]; [ok_fields H1|]. intros o _. do 3 right. by left. }
  intros v tr2 s2 Hv Hp2 _ [Hs2 Hf2]. apply holds_now. intros w Hw. apply holds_ret.
  eapply step_trans; [done|]. eapply step_trans; [done|].
  assert (tr2 `prefix_of` tr2 ++ [obs CNow w]) as Hp3 by by apply prefix_app_r.
  assert (Ok w s2) as H2 by (eapply ok_later; [apply Hs2|done]).
  eapply step_trans; [eapply (step_refl n w _ _ s2); done|]. apply set_after_bulk_step; [done|].
  intros E. destruct (Hf2 E). split; [done|by eapply did_prefix].
Qed.

Lemma on_burst_step n t tr s u : Ok t s → holds t tr (on_burst config u s) (Step n tr s).
Proof using debounce_nonneg.
  intros H. unfold on_burst.
  assert (Step n tr s t tr (set_batch s [])) as Hs.
  { apply step_same; [ok_fields H|done|untouched|done]. cbn. lia. }
  destruct (in_bulk_cooldown _ u).
  - apply holds_now. intros v Hv. apply holds_ret. pose proof (ok_later _ v _ (proj1 Hs) Hv) as H1.
    eapply step_trans; [done|]. eapply step_trans; [apply (step_refl n v); [done|by apply prefix_app_r]|].
    by apply (set_after_bulk_step _ _ _ _ Skipped).
  - apply holds_bind. eapply holds_mono; [by apply (guarded_step n), Hs|].
    intros v tr' [raw s1] _ _ _ [Hs1 Hf]. cbn in Hs1, Hf.
    destruct (counted_step n v tr' raw s1) as [Hs2 Hf2]; [apply Hs1|done|]. destruct (counted raw s1) as [outcome s2]. cbn in Hs2, Hf2.
    eapply holds_mono; [apply (finish_bulk_step n); [apply Hs2|done]|].
    intros ? ? ? _ _ _ H3. eapply step_trans; [exact Hs|]. eapply step_trans; [exact Hs1|]. eapply step_trans; [exact Hs2|exact H3].
Qed.

Lemma on_event_step n t tr s e : Ok t s → holds t tr (on_event config e s) (λ u tr' r, Step n tr s u tr' r.1).
Proof using debounce_nonneg.
  intros H. unfold on_event. eapply holds_step; [by apply step_refl|by apply publish_step|]. intros u tr1 s1 Hs1.
  eapply holds_step; [done|apply handles_for_all; [apply on_path_handles|apply Hs1]|]. intros v tr2 s2 Hs2.
  apply holds_now. intros w Hw. cbn zeta. set (s3 := set_batch s2 _).
  assert (Step n tr2 s2 w (tr2 ++ [obs CNow w]) s3) as Hs3.
  { pose proof (ok_later _ w _ (proj1 Hs2) Hw) as H2. apply step_same; [|by apply prefix_app_r|untouched|done].
    ok_fields H2. pose proof (filter_length_le (λ u, duration_since w u <? BATCH_WINDOW) (batch_event_times s2)).
    pose proof (ok_batch _ _ H2). lia. }
  destruct (_ && _); [|apply holds_ret; by eapply step_trans].
  eapply holds_step; [exact Hs3|apply on_burst_step, Hs3|]. intros x tr4 s4 Hs4. apply holds_ret. by eapply step_trans.
Qed.

(** ** The ready files *)

(** The files to embed were indexed, and their semantic rows found stale. *)
Definition todo_ok (tr : wtrace) (todo : list (bytes * FileInfo)) : Prop :=
  ∀ p info, (p, info) ∈ todo → ∃ sem hdr, did tr (reindex_one p sem hdr) (Done, Some info).

Definition BatchOk (t : Z) (tr : wtrace) (b : Batch) : Prop :=
  WorkOk t (map fst (semantic_todo b)) (b_work b) ∧ todo_ok tr (semantic_todo b).

(** Owed, done, or in the batch to embed. *)
Definition BKept (tr : wtrace) (b : Batch) (p : bytes) : Prop :=
  owed (b_work b) p ∨ file_done tr p ∨ p ∈ map fst (semantic_todo b).

Lemma file_done_prefix tr tr' p : file_done tr p → tr `prefix_of` tr' → file_done tr' p.
Proof using Type.
  intros [H1|[(sem & hdr & H1)|(sem & hdr & info & files & failed & H1 & H2 & H3 & H4)]] Hp; [left|right; left|right; right].
  - by eapply did_prefix.
  - exists sem, hdr. by eapply did_prefix.
  - exists sem, hdr, info, files, failed. split_and!; try done; by eapply did_prefix.
Qed.

Lemma todo_prefix tr tr' todo : todo_ok tr todo → tr `prefix_of` tr' → todo_ok tr' todo.
Proof using Type. intros H Hp p info (sem & hdr & Hd)%H. exists sem, hdr. by eapply did_prefix. Qed.

Lemma bkept_prefix tr tr' b p : BKept tr b p → tr `prefix_of` tr' → BKept tr' b p.
Proof using Type. intros [H|[H|H]] Hp; [by left|right; left; by eapply file_done_prefix|by right; right]. Qed.

Lemma batchok_later t tr u tr' b : BatchOk t tr b → t ≤ u → tr `prefix_of` tr' → BatchOk u tr' b.
Proof using Type. intros [H1 H2] Hle Hp. split; [by eapply workok_later|by eapply todo_prefix]. Qed.

(** [b'] keeps what [b] kept. *)
Definition BStep (tr : wtrace) (b : Batch) : Z → wtrace → Batch → Prop := λ u tr' b',
  BatchOk u tr' b' ∧ ∀ p, BKept tr b p → BKept tr' b' p.

(** While [path] is being indexed, it is not accounted for. *)
Definition BMid (tr : wtrace) (b : Batch) (path : bytes) (t : Z) (tr' : wtrace) (b' : Batch) : Prop :=
  WorkOk t (path :: map fst (semantic_todo b')) (b_work b') ∧ todo_ok tr' (semantic_todo b') ∧
  ∀ p, BKept tr b p → BKept tr' b' p ∨ p = path.

Lemma bmid_later tr b path t u tr' tr2 b' : BMid tr b path t tr' b' → t ≤ u → tr' `prefix_of` tr2 → BMid tr b path u tr2 b'.
Proof using Type.
  intros (H1 & H2 & H3) Hle Hp. split; [by eapply workok_later|]. split; [by eapply todo_prefix|].
  intros p Hk. destruct (H3 p Hk); [left; by eapply bkept_prefix|by right].
Qed.

(** Putting it back, or setting it aside as done. *)
Lemma bmid_owed tr b path t tr' b' (f : Work → Work) : BMid tr b path t tr' b' →
  (WorkOk t (path :: map fst (semantic_todo b')) (b_work b') → WorkOk t (map fst (semantic_todo b')) (f (b_work b'))) →
  (∀ p, owed (b_work b') p ∨ p = path → owed (f (b_work b')) p) → BStep tr b t tr' (on_batch f b').
Proof using Type.
  intros (H1 & H2 & H3) Hw Ho. split; [split; [by apply Hw|done]|]. intros p Hk.
  destruct (H3 p Hk) as [[H|[H|H]]| ->]; [left|right; by left|right; by right|left]; apply Ho; [by left|by right].
Qed.

Lemma bmid_done tr b path t tr' b' : BMid tr b path t tr' b' → file_done tr' path → BStep tr b t tr' (on_batch (settle path) b').
Proof using Type.
  intros (H1 & H2 & H3) Hd. split; [split; [by apply workok_settle|done]|]. intros p Hk.
  destruct (H3 p Hk) as [[H|[H|H]]| ->]; [|right; by left|right; by right|right; by left].
  destruct (owed_settle path p _ H) as [?| ->]; [by left|right; by left].
Qed.

Lemma bmid_todo tr b path t tr' b' info sem h : BMid tr b path t tr' b' → did tr' (reindex_one path sem h) (Done, Some info) →
  BStep tr b t tr' (mkBatch (b_work b') (semantic_todo b' ++ [(path, info)]) (rederive_header b')).
Proof using debounce_nonneg.
  intros (H1 & H2 & H3) Hd. split; [split|]; cbn.
  - rewrite map_app. eapply workok_weaken; [exact H1|lia|]. cbn. set_solver.
  - intros p i [Hi|Hi]%elem_of_app; [by eapply H2|]. apply list_elem_of_singleton in Hi as [= -> ->]. by exists sem, h.
  - unfold BKept. cbn. rewrite map_app. intros p Hk. destruct (H3 p Hk) as [[H|[H|H]]| ->]; [by left|right; by left|right; right|right; right].
    + apply elem_of_app. by left.
    + apply elem_of_app. right. by apply list_elem_of_singleton.
Qed.

Lemma finish_ready_step tr b path hdr outcome stale sem h t tr' b' :
  BMid tr b path t tr' b' → did tr' (reindex_one path sem h) (outcome, stale) →
  holds t tr' (finish_ready config hdr b' path outcome stale) (BStep tr b).
Proof using debounce_nonneg.
  intros Hm Hd. destruct outcome; cbn [finish_ready].
  - set (b1 := match stale with Some _ => _ | None => _ end).
    assert (BStep tr b t tr' b1) as Hb.
    { unfold b1. destruct stale as [info|]; [by eapply bmid_todo|]. apply bmid_done; [done|]. right. left. by exists sem, h. }
    clearbody b1. cbn zeta. apply holds_bind. eapply holds_mono with (P := BStep tr b).
    { destruct (hdr && is_cpp_path path); [|by apply holds_ret].
      apply holds_did. intros u tr2 content Hle Hp _. apply holds_ret. destruct Hb as [H1 H2].
      assert (BStep tr b u tr2 b1) as Hb1 by (split; [by eapply batchok_later|intros p Hk; eapply bkept_prefix; [by apply H2|done]]).
      by destruct (negb content). }
    intros u tr2 b2 _ _ _ Hb2. rewrite (no_recheck _ _ _ (proj1 (proj1 Hb2))), bool_decide_eq_false_2 by set_solver. by apply holds_ret.
  - apply holds_now. intros u Hu. apply holds_ret. eapply bmid_owed; [eapply bmid_later; [done|done|by apply prefix_app_r]| |].
    + intros H. apply workok_enqueue; [done|]. pose proof max_extra_pos. lia.
    + intros p Hp. by apply owed_enqueue.
  - apply holds_now. intros u Hu. apply holds_ret. eapply bmid_owed; [eapply bmid_later; [done|done|by apply prefix_app_r]| |].
    + intros H. by apply requeue_or_park_ok.
    + intros p Hp. apply requeue_or_park_owed. destruct Hp as [?| ->]; [by left|right; by apply list_elem_of_singleton].
Qed.

Lemma ready_step_ok t tr b path hdr : BatchOk t tr b → holds t tr (ready_step config hdr b path) (BStep tr b).
Proof using debounce_nonneg.
  intros H. unfold ready_step. set (b1 := on_batch (dequeue path) b).
  assert (BMid tr b path t tr b1) as Hm.
  { split; [by apply workok_dequeue, H|]. split; [apply H|]. intros p [Hk|[Hk|Hk]]; [|left; right; by left|left; right; by right].
    destruct (owed_dequeue path p _ Hk) as [?| ->]; [left; by left|by right]. }
  clearbody b1. apply holds_did. intros u tr1 ignored Hle Hp Hi. apply (bmid_later _ _ _ _ u _ tr1) in Hm; [|done|done].
  destruct ignored.
  - apply holds_ret. apply bmid_done; [done|by left].
  - destruct Hm as (H1 & H2 & H3). rewrite (no_indexing _ _ _ H1), bool_decide_eq_false_2 by set_solver. cbn zeta.
    apply holds_did. intros v tr2 [outcome stale] Hle2 Hp2 Hd. eapply finish_ready_step; [|exact Hd]. split; [|split].
    + cbn. constructor; cbn; [rewrite (no_indexing _ _ _ H1); set_solver|apply H1|apply H1| |].
      * intros q w Hq. apply H1 in Hq. lia.
      * intros q w Hq. apply H1 in Hq. lia.
    + by eapply todo_prefix.
    + intros p Hk. destruct (H3 p Hk) as [Hb|]; [left|by right]. by eapply bkept_prefix in Hb.
Qed.

Lemma process_ready_ok t tr w hdr ready : WorkOk t [] w →
  holds t tr (process_ready config hdr ready w) (λ u tr' r, WorkOk u [] r.1 ∧ ∀ p, owed w p → owed r.1 p ∨ file_done tr' p).
Proof using debounce_nonneg.
  intros H. unfold process_ready. apply holds_bind. eapply holds_mono with (P := BStep tr (mkBatch w [] false)).
  { cut (∀ l b t tr, BatchOk t tr b → holds t tr (for_all (ready_step config hdr) l b) (BStep tr b)).
    { intros Hc. apply Hc. split; [done|]. by intros p i ?%elem_of_nil. }
    clear -debounce_nonneg. induction l as [|p l IH]; intros b t tr H; [apply holds_ret; by split|]. cbn [for_all]. apply holds_bind.
    eapply holds_mono; [by apply ready_step_ok|]. intros u tr1 b1 _ _ _ [H1 H2].
    eapply holds_mono; [by apply IH|]. intros v tr2 b2 _ _ _ [H3 H4]. split; [done|auto]. }
  intros u tr1 b _ _ _ [[Hb Ht] Hk].
  assert (∀ p, owed w p → BKept tr1 b p) as Hk' by (intros p Hp; apply Hk; by left). clear Hk.
  destruct (semantic_todo b) as [|e todo] eqn:Et.
  - apply holds_ret. split; [done|]. intros p Hp. destruct (Hk' p Hp) as [?|[?|Hi]]; [by left|by right|].
    rewrite Et in Hi. by apply elem_of_nil in Hi.
  - apply holds_did. intros v tr2 outcome Hle Hp Hd. apply holds_now. intros x Hx. apply holds_ret. split.
    + apply apply_semantic_ok. eapply workok_weaken; [exact Hb|lia|]. intros q. by rewrite app_nil_r.
    + assert (tr2 `prefix_of` tr2 ++ [obs CNow x]) as Hp2 by by apply prefix_app_r.
      intros p [Ho|[Ho|Ho]]%Hk'; [|right; eapply file_done_prefix; [exact Ho|by etrans]|].
      all: destruct (apply_semantic_owed outcome (map fst (e :: todo)) (debounce_of config) x (b_work b) p)
             as [?|[(failed & -> & Hf) Hin]]; [first [by left|rewrite Et in Ho; by right]|by left|right].
      all: apply list_elem_of_In, in_map_iff in Hin as ([q info] & <- & Hin); apply list_elem_of_In in Hin.
      all: destruct (Ht q info Hin) as (sem & h & Hr); right; right; exists sem, h, info, (map snd (e :: todo)), failed; split_and!;
             [eapply did_prefix; [exact Hr|by etrans]|by apply (list_elem_of_In _ _), (in_map snd _ (q, info)), list_elem_of_In
             |eapply did_prefix; [exact Hd|done]|done].
Qed.

Lemma enqueue_all_ok t X l w : WorkOk t X w → WorkOk t X (fold_left (λ w p, enqueue p t w) l w).
Proof using Type.
  revert w. induction l as [|p l IH]; intros w H; [done|]. apply IH, workok_enqueue; [|pose proof max_extra_pos; lia].
  eapply workok_weaken; [done|lia|]. intros q Hq. by apply list_elem_of_further.
Qed.

Lemma enqueue_all_owed t l w q : owed w q → owed (fold_left (λ w p, enqueue p t w) l w) q.
Proof using Type. revert w. induction l as [|p l IH]; intros w H; [done|]. apply IH, owed_enqueue. by left. Qed.

Lemma drain_pending_ok t tr w hdr since : WorkOk t [] w →
  holds t tr (drain_pending config hdr since w) (λ u tr' r, WorkOk u [] r.1.1 ∧ ∀ p, owed w p → owed r.1.1 p ∨ file_done tr' p).
Proof using debounce_nonneg.
  intros H. unfold drain_pending. apply holds_now. intros u Hu. apply (workok_later _ u) in H; [|done].
  destruct (compute_ready (pending w) u (debounce_of config)) as [|p ready]; [apply holds_ret; split; [done|by left]|].
  apply holds_did. intros v tr1 [defer since2] Hv Hp _. apply (workok_later _ v) in H; [|done]. destruct defer.
  - apply holds_now. intros x Hx. apply holds_ret. split; [by apply enqueue_all_ok, (workok_later v)|].
    intros q Hq. left. by apply enqueue_all_owed.
  - apply holds_bind. eapply holds_mono; [by apply process_ready_ok|]. intros x tr2 [w2 rederive] _ _ _ [H1 H2]. by apply holds_ret.
Qed.

Lemma work_step n t tr tr' s w : Ok t s → tr `prefix_of` tr' → WorkOk t [] w →
  (∀ p, owed (work s) p → owed w p ∨ file_done tr' p) → Step n tr s t tr' (set_work s w).
Proof using Type.
  intros H Hp Hw Ho. split; [ok_fields H; done|]. split; [|done]. intros o Hk. apply (kept_prefix _ _ tr') in Hk; [|done].
  destruct Hk as [Hk|[Hk|[Hk|Hk]]]; unfold Kept; auto. destruct o as [p|p|p]; cbn in Hk |- *; [| |by left].
  - destruct (Ho p Hk); [by left|do 3 right; by right].
  - destruct Hk as [Hk|Hk]; [left; by left|]. destruct (Ho p Hk); [left; by right|do 3 right; right; by left].
Qed.

Lemma drain_handles : handles (drain config).
Proof using debounce_nonneg.
  intros n t tr s H. unfold drain. apply holds_bind. eapply holds_mono; [apply drain_pending_ok, H|].
  intros u tr1 [[w since] rederive] Hle Hp _ [Hw Ho]. cbn in Hw, Ho. apply (ok_later _ u) in H; [|done].
  set (s1 := set_deferred (set_work s w) since).
  assert (Step n tr s u tr1 s1) as Hs1.
  { eapply step_trans; [by apply (work_step n u tr tr1 s w)|]. apply step_same; [ok_fields H; done|done|untouched|done]. }
  apply holds_bind. eapply holds_mono with (P := Step n tr1 s1).
  { destruct rederive; [|apply holds_ret, step_refl; [apply Hs1|done]]. apply holds_did. intros v tr2 header Hv Hp2 _. apply holds_ret.
    destruct Hs1 as [H1 _]. apply (ok_later _ v) in H1; [|done]. apply step_same; [ok_fields H1|done|untouched|done]. }
  intros v tr2 s2 _ _ _ Hs2. apply holds_now. intros x Hx. apply holds_ret. eapply step_trans; [exact Hs1|]. eapply step_trans; [exact Hs2|].
  destruct Hs2 as [H2 _]. apply (ok_later _ x) in H2; [|done]. apply work_step; [done|by apply prefix_app_r|apply revive_ok, H2|].
  intros p Hq. left. by apply revive_owed.
Qed.

Lemma drain_at_shutdown_handles : handles (drain_at_shutdown config).
Proof using debounce_nonneg.
  intros n t tr s H. unfold drain_at_shutdown. cbn zeta. apply holds_did. intros u tr1 a Hle Hp _. apply (ok_later _ u) in H; [|done].
  apply holds_bind. eapply holds_mono; [apply process_ready_ok, H|]. intros v tr2 [w r] Hv Hp2 _ [Hw Ho]. apply holds_ret.
  apply (ok_later _ v) in H; [|done]. apply work_step; [done|by etrans|done|done].
Qed.

(** ** The refresh of the filter *)

Lemma refresh_failed_ok r now t : 0 ≤ failures r → now ≤ t →
  0 ≤ failures (refresh_failed r now (debounce_of config)) ∧
  ∀ a, retry_at (refresh_failed r now (debounce_of config)) = Some a → a ≤ t + refresh_wait.
Proof using Type.
  intros Hf Hn. unfold refresh_failed. cbn. split; [unfold U32_MAX; lia|]. intros a [= <-].
  set (n := Z.min _ _). pose proof (extra_bounded n (Z.max (debounce_of config) (secs 1))). unfold refresh_wait.
  destruct (refresh_parked _); lia.
Qed.

Lemma refresh_wait_pos : 0 ≤ refresh_wait ∧ debounce_of config ≤ refresh_wait.
Proof using Type.
  unfold refresh_wait. pose proof max_extra_pos. assert (0 ≤ PARKED_RETRY_INTERVAL) by (by vm_compute). lia.
Qed.

Lemma refresh_filter_handles : handles (refresh_filter config).
Proof using Type.
  intros n t tr s H. unfold refresh_filter. destruct (reload (refresh s)) eqn:Er; [|by apply holds_ret, step_refl].
  apply holds_now. intros u Hu. apply (ok_later _ u) in H; [|done].
  destruct (refresh_due _ u); [|apply holds_ret, step_refl; [done|by apply prefix_app_r]].
  apply holds_did. intros v tr1 replaced Hv Hp _. apply (ok_later _ v) in H; [|done].
  assert (tr `prefix_of` tr1) by (etrans; [|done]; by apply prefix_app_r). destruct replaced.
  - apply holds_ret. apply step_same; [ok_fields H|done|untouched|done].
  - apply holds_now. intros x Hx. apply holds_ret. apply (ok_later _ x) in H; [|done].
    destruct (refresh_failed_ok (refresh s) x x) as [H1 H2]; [apply (ok_failures _ _ H)|lia|].
    apply step_same; [ok_fields H; done|by apply prefix_app_r|untouched|done].
Qed.

Lemma reconciled_step n t tr raw s : Ok t s → finished tr raw s →
  holds t tr (reconciled config raw s) (λ u tr' s', Step n tr s u tr' s' ∧ finished tr' raw s').
Proof using debounce_nonneg.
  intros H Hf. unfold reconciled. destruct raw.
  - apply holds_ret. split; [|exact Hf]. split; [ok_fields H; done|]. split; [|done]. intros o _. do 3 right. left. by apply Hf.
  - apply holds_now. intros u Hu. apply holds_ret. apply (ok_later _ u) in H; [|done]. split; [|done].
    apply step_same; [|by apply prefix_app_r|untouched|done]. ok_fields H. intros a [= <-]. pose proof refresh_wait_pos. lia.
  - apply holds_now. intros u Hu. apply holds_ret. apply (ok_later _ u) in H; [|done]. split; [|done].
    destruct (refresh_failed_ok (refresh s) u u) as [H1 H2]; [apply (ok_failures _ _ H)|lia|].
    apply step_same; [ok_fields H; done|by apply prefix_app_r|untouched|done].
Qed.

Lemma retry_bulk_handles : handles (retry_bulk config).
Proof using debounce_nonneg.
  intros n t tr s H. unfold retry_bulk. apply holds_did. intros u tr1 due Hle Hp _. apply (ok_later _ u) in H; [|done].
  destruct due; [|by apply holds_ret, step_refl].
  apply holds_bind. eapply holds_mono; [by apply (guarded_step n)|]. intros v tr2 [raw s1] _ _ _ [Hs1 Hf1]. cbn in Hs1, Hf1.
  apply holds_bind. eapply holds_mono with (P := λ x tr3 r, Step n tr2 s1 x tr3 r.2 ∧ finished tr3 r.1 r.2).
  { destruct (reconciling (refresh s1)).
    - apply holds_bind. eapply holds_mono; [apply (reconciled_step n); [apply Hs1|done]|]. intros ? ? ? _ _ _ Hr. by apply holds_ret.
    - apply holds_ret. apply counted_step; [apply Hs1|done]. }
  intros x tr3 [outcome s2] _ _ _ [Hs2 Hf2]. cbn in Hs2, Hf2.
  eapply holds_mono; [apply (finish_bulk_step n); [apply Hs2|done]|]. intros ? ? ? _ _ _ Hs3.
  eapply step_trans; [by apply (step_refl n u tr tr1 s)|]. eapply step_trans; [exact Hs1|]. eapply step_trans; [exact Hs2|exact Hs3].
Qed.

(** ** Removals *)

(** As [Step], but the failures of removals may be counted. *)
Definition RStep (n : Z) (tr : wtrace) (s : Watch) : Z → wtrace → Watch → Prop := λ u tr' s',
  Ok u s' ∧ ∀ o, Kept n tr o s → Kept n tr' o s'.

Lemma rstep_trans n tr s t1 tr1 s1 t2 tr2 s2 : RStep n tr s t1 tr1 s1 → RStep n tr1 s1 t2 tr2 s2 → RStep n tr s t2 tr2 s2.
Proof using Type. intros (_ & H1) (H2 & H3). split; [done|auto]. Qed.

Lemma step_rstep n tr s t tr' s' : Step n tr s t tr' s' → RStep n tr s t tr' s'.
Proof using Type. intros (? & ? & _). by split. Qed.

(** The obligations of the lists, after an outcome on exactly these lists. *)
Lemma removal_outcome_step n t tr s outcome paths prefixes :
  Ok t s → removal_fail_count (removals s) = n → removed_paths (removals s) = paths → removed_prefixes (removals s) = prefixes →
  did tr (handle_removals config paths prefixes) outcome →
  RStep n tr s t tr (let '(r, at_) := apply_removal_outcome outcome t (debounce_of config) (removals s) in
                     set_removal_retry (set_removals s r) at_).
Proof using debounce_nonneg.
  intros H Hn Hpa Hpr Hd. unfold apply_removal_outcome.
  assert (0 ≤ 0 < MAX_REMOVAL_FAILURES) as H0 by done. pose proof (ok_fail _ _ H) as Hf.
  assert (∀ s2, (outcome = Done ∨ (outcome = Failed ∧ MAX_REMOVAL_FAILURES ≤ n + 1)) → work s2 = work s → refresh s2 = refresh s → lost_flag s2 = lost_flag s →
    ∀ o, Kept n tr o s → Kept n tr o s2) as Hgone.
  { intros s2 Hor Ew Er El o Hk. unfold Kept, outstanding in *. rewrite Ew, Er, El.
    assert (∀ mine : list bytes → list bytes → Prop, mine paths prefixes → removal_done n tr mine) as Hr.
    { intros mine Hm. exists paths, prefixes. split; [done|]. destruct Hor as [->|[-> ?]]; [by left|by right]. }
    destruct Hk as [Hk|[Hk|[Hk|Hk]]]; auto. destruct o; [by left| |].
    - destruct Hk as [Hk|Hk]; [do 4 right; right|left; by right]. apply Hr. congruence.
    - do 4 right. apply Hr. congruence. }
  destruct outcome.
  - split; [ok_fields H; done|]. apply Hgone; auto.
  - split; [ok_fields H; intros a [= <-]; lia|]. intros o. apply no_less_kept. untouched.
  - destruct (Z.leb_spec MAX_REMOVAL_FAILURES (removal_fail_count (removals s) + 1)) as [Hm|Hm].
    + split; [ok_fields H; done|]. apply Hgone; auto. right. split; [done|lia].
    + split; [ok_fields H; try (intros a [= <-]); lia|]. intros o. apply no_less_kept. untouched.
Qed.

Lemma retry_removals_step n t tr s : Ok t s → removal_fail_count (removals s) = n →
  holds t tr (retry_removals config s) (RStep n tr s).
Proof using debounce_nonneg.
  intros H Hn. unfold retry_removals. cbn zeta.
  destruct (negb (nonempty (removed_paths (removals s))) && negb (nonempty (removed_prefixes (removals s)))) eqn:E.
  { apply andb_true_iff in E as [E1 E2]. apply holds_ret. split; [ok_fields H; done|]. intros o. apply no_less_kept. unfold no_less. cbn.
    destruct (removed_paths (removals s)); [|done]. destruct (removed_prefixes (removals s)); [|done]. auto 10. }
  apply holds_did. intros u tr1 due Hle Hp _. apply (ok_later _ u) in H; [|done].
  destruct due; [|by apply holds_ret, step_rstep, step_refl].
  apply holds_did. intros v tr2 outcome Hv Hp2 Hd. apply (ok_later _ v) in H; [|done].
  apply holds_bind. eapply holds_mono with (P := λ x tr3 s', Step n tr s x tr3 s' ∧ tr2 `prefix_of` tr3 ∧ removals s' = removals s).
  { assert (tr `prefix_of` tr2) by by etrans.
    destruct (bool_decide _ && _); [|apply holds_ret; split; [by apply step_refl|done]].
    apply holds_did. intros x tr3 header Hx Hp3 _. apply (ok_later _ x) in H; [|done]. apply holds_ret. split; [|done].
    apply step_same; [ok_fields H|by etrans|untouched|done]. }
  intros x tr3 s1 _ _ _ (Hs1 & Hp3 & Er). apply holds_now. intros y Hy. rewrite <- Er in Hd |- *.
  pose proof (ok_later _ y _ (proj1 Hs1) Hy) as H1.
  pose proof (removal_outcome_step n y (tr3 ++ [obs CNow y]) s1 outcome (removed_paths (removals s1)) (removed_prefixes (removals s1)) H1) as Ho.
  destruct (apply_removal_outcome outcome y (debounce_of config) (removals s1)) as [r at_]. apply holds_ret.
  eapply rstep_trans; [by apply step_rstep|]. eapply rstep_trans; [apply step_rstep, (step_refl n y); [done|by apply prefix_app_r]|].
  apply Ho; [by rewrite Er|done|done|]. eapply did_prefix; [exact Hd|]. by apply prefix_app_r.
Qed.

(** ** One iteration *)

(** Nothing is left to do. *)
Definition quiet (s : Watch) : Prop :=
  pending (work s) = ∅ ∧ currently_indexing (work s) = ∅ ∧ recheck_queue (work s) = ∅ ∧ work_retries (work s) = ∅ ∧ parked (work s) = ∅ ∧
  removed_paths (removals s) = [] ∧ removed_prefixes (removals s) = [] ∧ bulk_retry_at s = None ∧
  refresh_pending (refresh s) = false ∧ lost_flag s = false.

(** What an iteration ends with: when it leaves for being idle, nothing is
    left to do, and the last activity is [idle_timeout] ago. *)
Definition IStep (n : Z) (tr : wtrace) (s : Watch) : Z → wtrace → Watch * option Exit → Prop := λ u tr' r,
  RStep n tr s u tr' r.1 ∧
  (r.2 = Some IdleTimeout → quiet r.1 ∧ 0 ≠ idle_timeout config ∧ idle_timeout config ≤ duration_since u (last_activity r.1)).

Lemma istep_none n tr s u tr' s' e : RStep n tr s u tr' s' → e ≠ Some IdleTimeout → IStep n tr s u tr' (s', e).
Proof using Type. intros H He. by split. Qed.

Lemma istep_trans n tr s t tr1 s1 u tr2 r : RStep n tr s t tr1 s1 → IStep n tr1 s1 u tr2 r → IStep n tr s u tr2 r.
Proof using Type. intros H [H1 H2]. split; [by eapply rstep_trans|done]. Qed.

Lemma nonempty_false {A} (l : list A) : nonempty l = false → l = [].
Proof using Type. clear. by destruct l. Qed.

Lemma quiet_when_idle t s : Ok t s → unfinished s || some (bulk_retry_at s) || refresh_pending (refresh s) || lost_flag s = false → quiet s.
Proof using Type.
  intros H Hb. unfold unfinished in Hb. rewrite !orb_false_iff, !negb_false_iff, !bool_decide_eq_true in Hb.
  destruct Hb as [[[[[[[[H1 H2] H3] H4] H5] H6] H7] H8] H9]. apply nonempty_false in H4, H5. unfold quiet.
  assert (work_retries (work s) = ∅) as Hr.
  { apply map_eq. intros p. rewrite lookup_empty. destruct (work_retries (work s) !! p) as [a|] eqn:E; [|done]. exfalso.
    apply (ok_work _ _ H) in E as [_ [[u Hu]|Hp]]; [|by apply elem_of_nil in Hp]. by rewrite H1, lookup_empty in Hu. }
  split_and!; try done. by destruct (bulk_retry_at s).
Qed.

Lemma rest_step n t tr s : Ok t s → holds t tr (rest config s) (IStep n tr s).
Proof using Type.
  intros H. unfold rest. set (busy := unfinished s || some (bulk_retry_at s) || refresh_pending (refresh s)). cbn zeta.
  apply holds_bind. eapply holds_mono with (P := λ u tr' s', Step n tr s u tr' s' ∧
    unfinished s' || some (bulk_retry_at s') || refresh_pending (refresh s') = busy).
  { destruct busy eqn:Eb; [apply holds_ret; split; [by apply step_refl|done]|].
    unfold load_lost. apply holds_did. intros u tr' other Hle Hp _. apply holds_ret. apply (ok_later _ u) in H; [|done]. split; [|done].
    apply step_same; [ok_fields H|done| |done]. untouched. cbn. split_and!; auto. intros ->. by left. }
  intros u tr1 s1 _ _ _ [Hs1 Eb]. apply holds_now. intros v Hv. pose proof (ok_later _ v _ (proj1 Hs1) Hv) as H1.
  assert (RStep n tr s v (tr1 ++ [obs CNow v]) s1) as Hs.
  { eapply rstep_trans; [by apply step_rstep|]. apply step_rstep, step_refl; [done|by apply prefix_app_r]. }
  destruct (busy || lost_flag s1) eqn:El.
  - apply holds_ret, istep_none; [|done]. eapply rstep_trans; [exact Hs|]. apply step_rstep, step_same; [|done|untouched|done].
    ok_fields H1. lia.
  - destruct (is_idle (idle_timeout config) (duration_since v (last_activity s1))) eqn:Ei; [|by apply holds_ret, istep_none].
    apply holds_ret. split; [done|]. intros _. cbn [fst]. split; [apply (quiet_when_idle v); [done|by rewrite Eb]|].
    unfold is_idle in Ei. apply andb_true_iff in Ei as [E1 E2]. cbn. destruct (Z.eqb_spec (idle_timeout config) 0); [done|]. split; [lia|].
    by apply Z.leb_le.
Qed.

Lemma after_event_step n t tr s received : Ok t s → removal_fail_count (removals s) = n →
  holds t tr (after_event config received s) (IStep n tr s).
Proof using debounce_nonneg.
  intros H Hn. unfold after_event. apply holds_did. intros u tr1 shutdown Hle Hp _. apply (ok_later _ u) in H; [|done].
  assert (Step n tr s u tr1 s) as Hs by by apply step_refl.
  destruct shutdown.
  { eapply holds_step; [exact Hs|by apply drain_at_shutdown_handles|]. intros v tr2 s2 Hs2. apply holds_ret, istep_none; [by apply step_rstep|done]. }
  apply holds_did. intros v tr2 marker Hv Hp2 _. apply (ok_later _ v) in H; [|done].
  assert (Step n tr s v tr2 s) as Hs2 by (apply step_refl; [done|by etrans]).
  destruct marker; [apply holds_ret, istep_none; [by apply step_rstep|done]|].
  eapply holds_step; [exact Hs2|by apply report_step|]. intros x tr3 s3 Hs3.
  eapply holds_step; [exact Hs3|apply refresh_filter_handles, Hs3|]. intros y tr4 s4 Hs4.
  eapply holds_step; [exact Hs4|apply retry_bulk_handles, Hs4|]. intros z tr5 s5 Hs5.
  destruct (reconciling (refresh s5)).
  - apply holds_now. intros w Hw. apply holds_ret, istep_none; [|done]. eapply rstep_trans; [by apply step_rstep|].
    pose proof (ok_later _ w _ (proj1 Hs5) Hw) as H5. apply step_rstep, step_same; [|by apply prefix_app_r|untouched|done]. ok_fields H5. lia.
  - apply holds_bind. eapply holds_mono; [apply (retry_removals_step n); [apply Hs5|by rewrite (proj2 (proj2 Hs5))]|].
    intros w tr6 s6 _ _ _ Hs6. apply holds_bind. eapply holds_mono; [apply (drain_handles n), Hs6|]. intros a tr7 s7 _ _ _ Hs7.
    eapply holds_mono; [apply (rest_step n), Hs7|]. intros b tr8 r _ _ _ Hr.
    eapply istep_trans; [by apply step_rstep|]. eapply istep_trans; [exact Hs6|]. eapply istep_trans; [by apply step_rstep|exact Hr].
Qed.

(** A file is saved by the notification of a change of it, when it is neither
    found to be a directory nor ignored. *)
Definition saves (e : Event) (path rel : bytes) : Prop :=
  path ∈ paths e ∧ (kind e = NCreate ∨ kind e = NModify ∨ kind e = NName) ∧ is_gitignore path = false ∧
  strip_root (project_root config) path = Some rel ∧ is_source_file rel = true.

Definition taken (tr : wtrace) (path : bytes) : Prop :=
  (obs (CIsDir path) true ∉ tr) ∧ (obs (CIgnored path false) true ∉ tr).

Lemma taken_prefix tr tr' path : taken tr' path → tr `prefix_of` tr' → taken tr path.
Proof using Type. clear. intros [H1 H2] [k ->]. split; intros H; [apply H1|apply H2]; apply elem_of_app; by left. Qed.

Lemma on_file_saves t tr s k path rel : Ok t s → k = NCreate ∨ k = NModify ∨ k = NName → is_source_file rel = true →
  holds t tr (on_file config k s path rel) (λ _ tr' s', taken tr' path → owed (work s') rel).
Proof using debounce_nonneg.
  intros H Hk Hsrc. unfold on_file. apply holds_bind. eapply holds_mono; [by apply (note_vanished_handles k path rel 0)|].
  intros u tr1 s1 _ _ _ [H1 _]. rewrite Hsrc. cbn [negb]. apply holds_did. intros v tr2 ignored Hv _ Hi%did_io. apply (ok_later _ v) in H1; [|done].
  destruct ignored.
  { apply holds_ret. intros [_ Ht]. done. }
  apply holds_bind. eapply holds_mono with (P := λ x _ s', Ok x s').
  { destruct (changes_files k && _); [|by apply holds_ret]. eapply holds_mono; [by apply (debounced_step 0)|]. by intros ? ? ? _ _ _ [? _]. }
  intros x tr3 s3 _ _ _ H3. destruct Hk as [->|[->| ->]]; (eapply holds_mono; [by apply (save_file_step 0)|]); by intros ? ? ? _ _ _ [_ ?].
Qed.

Lemma on_path_saves t tr s k path rel : Ok t s → k = NCreate ∨ k = NModify ∨ k = NName → is_gitignore path = false →
  strip_root (project_root config) path = Some rel → is_source_file rel = true →
  holds t tr (on_path config k s path) (λ _ tr' s', taken tr' path → owed (work s') rel).
Proof using debounce_nonneg.
  intros H Hk Hg Hr Hsrc. unfold on_path. rewrite Hr, Hg. cbn [some andb]. apply holds_did. intros u tr1 is_dir Hu Hp Hd%did_io.
  apply (ok_later _ u) in H; [|done]. destruct is_dir; [|by apply on_file_saves].
  destruct (is_dir_adoption_kind k); [|by apply on_file_saves]. cbn [andb].
  eapply holds_mono; [apply holds_true|]. intros v tr2 s2 _ Hp2 _ _ Ht. by apply (taken_prefix _ _ _ Ht) in Hp2 as [? _].
Qed.

Lemma paths_saves n t tr s k l path rel : Ok t s → path ∈ l → k = NCreate ∨ k = NModify ∨ k = NName → is_gitignore path = false →
  strip_root (project_root config) path = Some rel → is_source_file rel = true →
  holds t tr (for_all (on_path config k) l s) (λ _ tr' s', taken tr' path → Kept n tr' (OFile rel) s').
Proof using debounce_nonneg.
  intros H Hin Hk Hg Hr Hsrc. revert t tr s H. induction Hin as [path l|path x l Hin IH]; intros t tr s H; cbn [for_all]; apply holds_bind.
  - eapply holds_mono; [apply holds_and; [by apply (on_path_handles k path n)|by apply (on_path_saves t tr s k path rel)]|].
    intros u tr1 s1 _ _ _ [Hs Ho]. eapply holds_mono; [apply (handles_for_all _ l (λ x, on_path_handles k x) n), Hs|].
    intros v tr2 s2 _ Hp2 _ Hs2 Ht. apply Hs2. left. apply Ho. by eapply taken_prefix.
  - eapply holds_mono; [by apply (on_path_handles k x 0)|]. intros u tr1 s1 _ _ _ [H1 _]. by apply IH.
Qed.

Lemma on_event_saves n t tr s e path rel : Ok t s → saves e path rel →
  holds t tr (on_event config e s) (λ _ tr' r, taken tr' path → Kept n tr' (OFile rel) r.1).
Proof using debounce_nonneg.
  intros H (Hin & Hk & Hg & Hr & Hsrc). unfold on_event. apply holds_bind. eapply holds_mono; [by apply (publish_step n)|].
  intros u tr1 s1 _ _ _ [H1 _]. apply holds_bind.
  eapply holds_mono; [apply holds_and; [by apply (paths_saves n u tr1 s1 (kind e) (paths e) path rel)|
                                        apply (handles_for_all _ (paths e) (λ x, on_path_handles (kind e) x) n), H1]|].
  intros v tr2 s2 _ _ _ [Hs [H2 _]]. apply holds_now. intros w Hw. cbn zeta. set (s3 := set_batch s2 _).
  assert (Step n tr2 s2 w (tr2 ++ [obs CNow w]) s3) as Hs3.
  { apply (ok_later _ w) in H2; [|done]. apply step_same; [|by apply prefix_app_r|untouched|done].
    ok_fields H2. pose proof (filter_length_le (λ u, duration_since w u <? BATCH_WINDOW) (batch_event_times s2)).
    pose proof (ok_batch _ _ H2). lia. }
  assert (∀ tr', taken tr' path → tr2 `prefix_of` tr' → Kept n tr2 (OFile rel) s2) as Hs' by (intros ? Ht Hp; by apply Hs, (taken_prefix _ _ _ Ht)).
  destruct (_ && _).
  - apply holds_bind. eapply holds_mono; [apply (on_burst_step n), Hs3|]. intros x tr4 s4 _ Hp4 _ Hs4. apply holds_ret. intros Ht.
    apply Hs4, Hs3, (Hs' tr4); [done|]. etrans; [|done]. by apply prefix_app_r.
  - apply holds_ret. intros Ht. apply Hs3, (Hs' _ Ht). by apply prefix_app_r.
Qed.

Lemma handle_step t tr s received n : Ok t s → removal_fail_count (removals s) = n →
  holds t tr (handle_received config received s) (IStep n tr s).
Proof using debounce_nonneg.
  intros H Hn. destruct received as [e| |]; cbn [handle_received].
  - apply holds_bind. eapply holds_mono; [by apply (on_event_step n)|]. intros x tr3 [s3 ended] _ _ _ Hs3. cbn in Hs3.
    destruct ended; [apply holds_ret, istep_none; [by apply step_rstep|done]|].
    eapply holds_mono; [apply (after_event_step n); [apply Hs3|by rewrite (proj2 (proj2 Hs3))]|]. intros ? ? ? _ _ _ Hr.
    eapply istep_trans; [by apply step_rstep|exact Hr].
  - by apply after_event_step.
  - apply holds_ret, istep_none; [apply step_rstep, step_refl|]; done.
Qed.

Lemma handle_saves t tr s e path rel n : Ok t s → removal_fail_count (removals s) = n → saves e path rel →
  holds t tr (handle_received config (Notified e) s) (λ _ tr' r, taken tr' path → Kept n tr' (OFile rel) r.1).
Proof using debounce_nonneg.
  intros H Hn Hsv. cbn [handle_received]. apply holds_bind.
  eapply holds_mono; [apply holds_and; [by apply (on_event_step n)|by apply (on_event_saves n _ _ _ _ _ _ H Hsv)]|].
  intros x tr3 [s3 ended] _ _ _ [Hs3 Hk]. cbn in Hs3, Hk. destruct ended; [by apply holds_ret|].
  eapply holds_mono; [apply (after_event_step n); [apply Hs3|by rewrite (proj2 (proj2 Hs3))]|]. intros y tr4 r _ Hp4 _ [[_ Hr] _] Ht.
  apply Hr, Hk. by eapply taken_prefix.
Qed.

Lemma iteration_step t s : Ok t s → holds t [] (iteration config s) (IStep (removal_fail_count (removals s)) [] s).
Proof using debounce_nonneg.
  intros H. set (n := removal_fail_count (removals s)). unfold iteration.
  pose proof (enforce_budget_step n t [] s H) as H0.
  eapply holds_step; [exact H0|apply take_lost_step, H0|]. intros u tr1 s1 Hs1.
  apply holds_did. intros v tr2 received Hv Hp _. pose proof (ok_later _ v _ (proj1 Hs1) Hv) as H1.
  assert (Step n [] s v tr2 s1) as Hs2 by (eapply step_trans; [exact Hs1|by apply step_refl]).
  eapply holds_mono; [apply (handle_step v tr2 s1 received n); [done|by rewrite (proj2 (proj2 Hs2))]|]. intros ? ? ? _ _ _ Hr.
  eapply istep_trans; [by apply step_rstep|exact Hr].
Qed.

(** Every state the loop can reach satisfies the invariant. *)
Lemma reachable_ok t s : reachable config t s → Ok t s.
Proof using debounce_nonneg.
  induction 1 as [t b l hdr Hb Hl|t s tr s' t' _ IH Hc Hr].
  - assert (0 ≤ BULK_COOLDOWN) by done. pose proof refresh_wait_pos.
    constructor; cbn; try done; try lia.
    + intros c [= <-]. lia.
    + intros a [= <-]. lia.
  - destruct (holds_runs _ _ _ _ _ _ _ (iteration_step t s IH) Hr Hc) as (u & Hu & [[H _] _]). by eapply ok_later.
Qed.
End watcher.
