(* ===== verification/WatchTheorems.v ===== *)
(** * WatchTheorems: what the file watcher guarantees

    The theorems about the loop of [StateWatcher], from the lemmas of
    [WatchProofs], and about the parts of [WatchQueue]: the work it owes is kept
    until it is done, waits are bounded, it leaves for being idle only with
    nothing left to do, a notification it cannot queue is not forgotten. *)
From stdpp Require Import gmap sorting.
From S2P Require Import Prelude Text Detect Effects WatchQueue StateWatcher WatchLogic WatchProofs.
From Stdlib Require Import Lia.
Local Open Scope codesage_scope.
Local Open Scope Z_scope.

(** ** Admission *)

Definition admissible (e : Event) : Prop :=
  changes_files (kind e) = true ∧ (length (paths e) ≤ EVENT_PATH_LIMIT)%nat ∧ path_bytes (paths e) ≤ EVENT_PATH_BYTES.

Lemma admit_event_cases r a :
  lost (admit_event r a) = true ∧ channel (admit_event r a) = channel a ∨
  (∃ e, r = Some e ∧ need_rescan e = false ∧
     (changes_files (kind e) = false ∧ admit_event r a = a ∨
      admissible e ∧ (length (channel a) < EVENT_QUEUE_CAPACITY)%nat ∧
      admit_event r a = mkAdmission (channel a ++ [mkEvent (kind e) false (paths e)]) (lost a))).
Proof.
  unfold admit_event. destruct r as [e|]; [|by left]. destruct (need_rescan e) eqn:En; [by left|].
  destruct (changes_files (kind e)) eqn:Ec; cbn [negb]; [|right; exists e; auto].
  destruct (Nat.ltb_spec EVENT_PATH_LIMIT (length (paths e))) as [|Hl]; cbn [orb]; [by left|].
  destruct (Z.ltb_spec EVENT_PATH_BYTES (path_bytes (paths e))); cbn [orb]; [by left|].
  destruct (Nat.ltb_spec (length (channel a)) EVENT_QUEUE_CAPACITY) as [Hq|Hq]; [|by left].
  right. exists e. split; [done|]. split; [done|]. right. unfold admissible. auto.
Qed.

(** C31. A notification the callback receives is handed on, or remembered as
    lost, or concerns nothing: an event that changes files and has a relevant
    path is queued with exactly its relevant paths unless [lost] is set; [lost]
    is never reset; the queue keeps what it had, in order, and stays within its
    capacity, with events within their limits. *)
Theorem notification_not_forgotten root r a :
  (length (channel a) ≤ EVENT_QUEUE_CAPACITY)%nat → Forall admissible (channel a) →
  let a' := notify_callback root r a in
  (length (channel a') ≤ EVENT_QUEUE_CAPACITY)%nat ∧ Forall admissible (channel a') ∧ channel a `prefix_of` channel a' ∧
  (lost a = true → lost a' = true) ∧
  match r with
  | None => lost a' = true
  | Some e =>
      lost a' = true ∨
      let kept := List.filter (relevant_watch_path root) (paths e) in
      if need_rescan e then False
      else if changes_files (kind e) && nonempty kept
           then channel a' = channel a ++ [mkEvent (kind e) false kept]
           else a' = a
  end.
Proof.
  intros Hc Hf. cbn zeta.
  assert (∀ r', let a' := admit_event r' a in
    (length (channel a') ≤ EVENT_QUEUE_CAPACITY)%nat ∧ Forall admissible (channel a') ∧ channel a `prefix_of` channel a' ∧ (lost a = true → lost a' = true)) as Hadmit.
  { intros r'. destruct (admit_event_cases r' a) as [[H1 H2]|(e & -> & _ & [[_ H1]|(He & Hq & H1)])]; cbn zeta.
    - by rewrite H1, H2.
    - by rewrite H1.
    - rewrite H1. cbn. rewrite length_app. cbn. split_and!; [lia| |by apply prefix_app_r|done].
      apply Forall_app. split; [done|]. constructor; [exact He|constructor]. }
  unfold notify_callback. destruct r as [e|]; [|destruct (Hadmit None) as (? & ? & ? & ?); split_and!; done].
  destruct (need_rescan e) eqn:En.
  { destruct (Hadmit (Some e)) as (? & ? & ? & ?). split_and!; try done. left. unfold admit_event. by rewrite En. }
  destruct (List.filter _ (paths e)) as [|p kept] eqn:Ek.
  { split_and!; try done. right. by rewrite andb_false_r. }
  set (e' := mkEvent _ _ _). destruct (Hadmit (Some e')) as (H1 & H2 & H3 & H4). split_and!; try done. cbn [nonempty]. rewrite andb_true_r.
  destruct (admit_event_cases (Some e') a) as [[Hl _]|(e2 & [= <-] & _ & [[Hch H]|(He & _ & H)])]; [by left|right..].
  - cbn in Hch. by rewrite Hch, H.
  - destruct He as [He _]. cbn in He. by rewrite He, H.
Qed.

Lemma notification_not_forgotten_witness :
  let e := mkEvent NModify false [bs "/w/a.rs"; bs "/w/.git/index"; bs "/other"] in
  channel (notify_callback (bs "/w") (Some e) (mkAdmission [] false)) = [mkEvent NModify false [bs "/w/a.rs"]] ∧
  (length (channel (notify_callback (bs "/w") (Some e) (mkAdmission [] false))) ≤ EVENT_QUEUE_CAPACITY)%nat.
Proof.
  split; [by vm_compute|].
  apply (notification_not_forgotten (bs "/w") (Some (mkEvent NModify false [bs "/w/a.rs"; bs "/w/.git/index"; bs "/other"])) (mkAdmission [] false));
    [cbn; unfold EVENT_QUEUE_CAPACITY; lia|constructor].
Defined.

(** ** The budget *)

Lemma exceeds_loop_spec lengths : ∀ index bytes_, 0 ≤ bytes_ ≤ PENDING_PATH_BYTES → 0 ≤ index ≤ PENDING_PATH_LIMIT → Forall (λ n, 0 ≤ n) lengths →
  exceeds_loop index bytes_ lengths = true ↔
    PENDING_PATH_LIMIT < index + Z.of_nat (length lengths) ∨ PENDING_PATH_BYTES < bytes_ + foldr Z.add 0 lengths.
Proof.
  assert (PENDING_PATH_BYTES < 2 ^ 64 - 1) as Hb by done.
  induction lengths as [|n lengths IH]; intros index bytes_ Hby Hi Hn; cbn [exceeds_loop foldr length]; [split; [done|lia]|].
  apply Forall_cons in Hn as [Hn1 Hn]. set (b := Z.min _ _).
  assert (0 ≤ foldr Z.add 0 lengths) by (clear -Hn; induction Hn; cbn; lia).
  destruct (Z.leb_spec PENDING_PATH_LIMIT index); cbn [orb].
  - split; [intros _; left; lia|done].
  - destruct (Z.ltb_spec PENDING_PATH_BYTES b).
    + split; [intros _; right; unfold b in *; lia|done].
    + rewrite IH by (unfold b in *; try done; lia). assert (b = bytes_ + n) as -> by (unfold b in *; lia). lia.
Qed.

Lemma exceeds_spec lengths : Forall (λ n, 0 ≤ n) lengths →
  pending_work_exceeds_budget lengths = true ↔
    PENDING_PATH_LIMIT < Z.of_nat (length lengths) ∨ PENDING_PATH_BYTES < foldr Z.add 0 lengths.
Proof. intros H. unfold pending_work_exceeds_budget. rewrite exceeds_loop_spec; [lia|done|done|done]. Qed.

(** ** Back-off *)

(** The delays of the retries of a file grow with its attempts and never
    pass the cap, whatever the debounce; an attempt below the limit leaves the
    file waiting with one more attempt counted, the one that reaches it parks
    the file with a fresh budget; no other file is touched. *)
Theorem retry_backoff (d t : Z) (w : Work) (p : bytes) (a : Z) :
  0 ≤ d → default 0 (work_retries w !! p) = a → 0 ≤ a ≤ MAX_WORK_RETRIES →
  let w' := requeue_or_park d t [p] w in
  (∀ q, q ≠ p → pending w' !! q = pending w !! q ∧ work_retries w' !! q = work_retries w !! q ∧ parked w' !! q = parked w !! q) ∧
  (if a =? MAX_WORK_RETRIES
   then pending w' !! p = None ∧ work_retries w' !! p = None ∧ parked w' !! p = Some t
   else work_retries w' !! p = Some (a + 1) ∧ parked w' !! p = parked w !! p ∧
        ∃ delay, pending w' !! p = Some (t + delay) ∧ delay = Z.min (d * (2 ^ a - 1)) MAX_WORK_RETRY_EXTRA ∧
          0 ≤ delay ∧ work_retry_extra_delay a d ≤ delay).
Proof.
  intros Hd Ha Hr. unfold requeue_or_park. cbn [requeue_failed_work]. unfold requeue_one. rewrite Ha. cbn zeta.
  destruct (Z.eqb_spec a MAX_WORK_RETRIES) as [->|Hne].
  - rewrite (proj2 (Z.ltb_lt MAX_WORK_RETRIES (MAX_WORK_RETRIES + 1))) by lia. cbn. split.
    + intros q Hq. rewrite !lookup_delete_ne, lookup_insert_ne by done. done.
    + by rewrite !lookup_delete_eq, lookup_insert_eq.
  - rewrite (proj2 (Z.ltb_ge MAX_WORK_RETRIES (a + 1))) by lia. cbn. split; [intros q Hq; by rewrite !lookup_insert_ne by done|].
    rewrite !lookup_insert_eq. split; [done|]. split; [done|]. exists (work_retry_extra_delay (a + 1) d). split; [done|].
    assert (∀ n, 0 ≤ n ≤ MAX_WORK_RETRIES → work_retry_extra_delay (n + 1) d = Z.min (d * (2 ^ n - 1)) MAX_WORK_RETRY_EXTRA) as Hx.
    { intros n Hn. unfold work_retry_extra_delay, saturating_sub, saturating_pow, saturating_mul. replace (Z.max 0 (n + 1 - 1)) with n by lia. assert (1 ≤ 2 ^ n) by (pose proof (Z.pow_pos_nonneg 2 n); lia).
      assert (2 ^ n ≤ 2 ^ MAX_WORK_RETRIES) by (apply Z.pow_le_mono_r; lia). assert (2 ^ MAX_WORK_RETRIES ≤ U32_MAX) by done.
      rewrite (Z.min_r U32_MAX), (Z.max_r 0) by lia.
      assert (MAX_WORK_RETRY_EXTRA ≤ DURATION_MAX) by done. lia. }
    rewrite (Hx a) by lia. split; [done|].
    assert (1 ≤ 2 ^ a) by (pose proof (Z.pow_pos_nonneg 2 a); lia). pose proof max_extra_pos.
    split; [apply Z.min_glb; [nia|done]|]. destruct (Z.eq_dec a 0) as [->|Hz].
    + unfold work_retry_extra_delay, saturating_sub, saturating_pow, saturating_mul.
      assert (Z.max 0 (Z.min U32_MAX (2 ^ Z.max 0 (0 - 1)) - 1) = 0) as -> by done. assert (2 ^ 0 - 1 = 0) as -> by done.
      assert (0 ≤ DURATION_MAX) by done. lia.
    + replace a with (a - 1 + 1) at 1 by lia. rewrite (Hx (a - 1)) by lia. apply Z.min_le_compat_r.
      apply Z.mul_le_mono_nonneg_l; [done|]. assert (2 ^ (a - 1) ≤ 2 ^ a) by (apply Z.pow_le_mono_r; lia). lia.
Qed.

Lemma retry_backoff_witness :
  0 ≤ secs 30 ∧ work_retries (requeue_or_park (secs 30) (secs 100) [bs "a.rs"] (mkWork ∅ ∅ ∅ {[bs "a.rs" := 2]} ∅)) !! bs "a.rs" = Some 3 ∧
  pending (requeue_or_park (secs 30) (secs 100) [bs "a.rs"] (mkWork ∅ ∅ ∅ {[bs "a.rs" := 2]} ∅)) !! bs "a.rs" = Some (secs 190).
Proof.
  split; [done|]. pose proof (retry_backoff (secs 30) (secs 100) (mkWork ∅ ∅ ∅ {[bs "a.rs" := 2]} ∅) (bs "a.rs") 2) as H.
  destruct H as [_ H]; [done|by vm_compute|done|]. cbn [Z.eqb Pos.eqb MAX_WORK_RETRIES] in H.
  destruct H as (H1 & _ & delay & H2 & -> & _). split; [exact H1|]. rewrite H2. by vm_compute.
Defined.

(** ** The loop *)

(** C30. In every state the loop can reach, no file is left marked as being
    indexed, every file with failed attempts is waiting for its next one and has
    attempts left, and every time the watcher waits for is within a fixed
    distance of the clock: nothing is postponed for ever. *)
Theorem watch_invariant (config : Config) (t : Z) (s : Watch) :
  0 ≤ debounce_of config → reachable config t s → Ok config t s.
Proof. intros Hd. by apply reachable_ok. Qed.

(** C28. One iteration of the loop forgets nothing it owes: a file to index, a
    path or a directory to remove is still outstanding afterwards, or is subsumed
    by a pending reconciliation of the project, or was dealt with: the project
    reconciled, the file ignored, or indexed and its semantic rows embedded, the
    rows removed, or given up on after ten hard failures. *)
Theorem watch_keeps_obligations (config : Config) (t t' : Z) (s : Watch) (tr : wtrace) (r : Watch * option Exit) (o : Obligation) :
  0 ≤ debounce_of config → reachable config t s → clock t tr t' → runs (iteration config s) tr r →
  outstanding s o → Kept config (removal_fail_count (removals s)) tr o r.1.
Proof.
  intros Hd Hr Hc Hi Ho. pose proof (reachable_ok config Hd t s Hr) as H.
  destruct (holds_runs _ _ _ _ _ _ _ (iteration_step config Hd t s H) Hi Hc) as (u & _ & [[_ Hk] _]). apply Hk. by left.
Qed.

(** C29. A saved file becomes an obligation: when the loop receives the change
    of a source file that is neither found to be a directory nor ignored, that
    file is owed at the end of the iteration, or already dealt with. *)
Theorem saved_file_kept (config : Config) (t t' : Z) (s : Watch) (e : Event) (path rel : bytes) (tr : wtrace) (r : Watch * option Exit) :
  0 ≤ debounce_of config → reachable config t s → saves config e path rel →
  clock t tr t' → runs (handle_received config (Notified e) s) tr r → taken tr path →
  Kept config (removal_fail_count (removals s)) tr (OFile rel) r.1.
Proof.
  intros Hd Hr Hsv Hc Hi Ht. pose proof (reachable_ok config Hd t s Hr) as H.
  destruct (holds_runs _ _ _ _ _ _ _ (handle_saves config Hd t [] s e path rel _ H eq_refl Hsv) Hi Hc) as (u & _ & Hk). by apply Hk.
Qed.

(** The loop leaves for being idle only when nothing is left to do: no file
    waits, is parked or has failed attempts, no removal, bulk pass or
    reconciliation is pending, no notification was lost, and a non-zero timeout
    has passed since the last activity. *)
Theorem idle_exit_quiet (config : Config) (t t' : Z) (s s' : Watch) (tr : wtrace) :
  0 ≤ debounce_of config → reachable config t s → clock t tr t' → runs (iteration config s) tr (s', Some IdleTimeout) →
  quiet s' ∧ idle_timeout config ≠ 0 ∧ ∃ u, u ≤ t' ∧ idle_timeout config ≤ duration_since u (last_activity s').
Proof.
  intros Hd Hr Hc Hi. pose proof (reachable_ok config Hd t s Hr) as H.
  destruct (holds_runs _ _ _ _ _ _ _ (iteration_step config Hd t s H) Hi Hc) as (u & Hu & [_ Hq]).
  destruct (Hq eq_refl) as (H1 & H2 & H3). split; [done|]. split; [congruence|]. by exists u.
Qed.

(** What is owed gets its turn: once the longest back-off and a debounce
    have passed, a waiting file is among the ready ones; once the parking
    interval has, a parked file is put back in the queue. *)
Theorem owed_gets_its_turn (config : Config) (t u : Z) (s : Watch) (p : bytes) :
  0 ≤ debounce_of config → reachable config t s → owed (work s) p →
  t + MAX_WORK_RETRY_EXTRA + debounce_of config ≤ u → t + PARKED_RETRY_INTERVAL ≤ u →
  p ∈ compute_ready (pending (work s)) u (debounce_of config) ∨
  is_Some (pending (revive_due_parked u (work s)).1 !! p).
Proof.
  intros Hd Hr [[v Hv]|[v Hv]] H1 H2; pose proof (ok_work _ _ _ (reachable_ok config Hd t s Hr)) as H.
  - left. pose proof (pending_ok _ _ _ H _ _ Hv). unfold compute_ready. apply list_elem_of_In, in_map_iff. exists (p, v). split; [done|].
    apply filter_In. split; [by apply list_elem_of_In, elem_of_map_to_list|]. apply Z.leb_le. unfold duration_since. cbn. lia.
  - right. pose proof (parked_ok _ _ _ H _ _ Hv). pose proof (revive_lookup u (work s) p v Hv) as Hl.
    unfold is_due, duration_since in Hl. rewrite (proj2 (Z.leb_le _ _)) in Hl by lia. done.
Qed.

(** ** A run of the loop *)

(** A file is saved, its index is locked by another process; then all is quiet. *)
Definition demo_config : Config := mkConfig (bs "/w") 1000 (secs 1) false false.

Definition demo_answer (received : Received) (tr : wtrace) (c : Call) : answer c :=
  match c with
  | CNow => secs (Z.of_nat (length tr)) | COwnPid => 1
  | CRecv => received
  | CNewFilter | CEventWatcher | CRegister | COpen | CWriteStatus _ | CExists _ => true
  | CLost | CShutdown | CMarker | CIsDir _ | CIgnored _ _ | CWatch _ | CIsTestLike _ | CDbExists | COpenExisting | COpenForModel
  | COpenForExistingModel | CFingerprint | CLoadEmbedder | CIsAbsolute _ | CLoadAboveCpus => false
  | CFileLen _ => None | CReadDir _ => None | CTryLock => Some AlreadyHeld | CReadIndexable _ => ReadSource false (bs "h")
  | CDiscover => None | CFilesWithLanguage => None | CFileHash _ => inr None | CSemanticHash _ => None | CInterpretation _ => None
  | CAllPaths => None | CIndexFiles _ => inr (0, 1) | CIncrementalIndex => inr 0 | CSemanticIncremental => inr 0
  | CSemanticIndexFiles _ => inr [] | CRemoveFiles _ => inr 0 | CSemanticRemove _ => None | CDotGit => None | CReadDotGit => None
  | CProcesses => None
  end.

Definition demo_event : Event := mkEvent NModify false [bs "/w/a.rs"].
Definition demo_start : Watch := initial 0 0 false.

(** The first iteration, and a second that finds the lock held. *)
Definition demo_first : wtrace * (Watch * option Exit) := run (demo_answer (Notified demo_event)) [] (iteration demo_config demo_start).
Definition demo_second : wtrace * (Watch * option Exit) :=
  run (λ tr c, demo_answer RecvTimeout (demo_first.1 ++ tr) c) [] (iteration demo_config demo_first.2.1).

Lemma pair_second {A B} (x : A * B) b : x.2 = b → (x.1, b) = x.
Proof. destruct x. by intros <-. Qed.

Lemma demo_reachable : reachable demo_config (secs 24) demo_first.2.1.
Proof.
  apply (next_iteration _ 0 demo_start demo_first.1); [by apply at_start| |].
  - vm_compute. repeat split; discriminate.
  - rewrite (pair_second demo_first.2); [exact (run_self (demo_answer (Notified demo_event)) (iteration demo_config demo_start))|by vm_compute].
Qed.

Lemma demo_second_clock : clock (secs 24) demo_second.1 (secs 60).
Proof. vm_compute. repeat split; discriminate. Qed.

Lemma watch_invariant_witness : 0 ≤ debounce_of demo_config ∧ Ok demo_config (secs 24) demo_first.2.1.
Proof. split; [done|]. apply watch_invariant; [done|apply demo_reachable]. Defined.

Lemma watch_keeps_obligations_witness :
  outstanding demo_first.2.1 (OFile (bs "a.rs")) ∧
  Kept demo_config (removal_fail_count (removals demo_first.2.1)) demo_second.1 (OFile (bs "a.rs")) demo_second.2.1.
Proof.
  split; [left; exists (secs 21); by vm_compute|]. apply (watch_keeps_obligations demo_config (secs 24) (secs 60)); [done|apply demo_reachable|apply demo_second_clock| |].
  - exact (run_self (λ tr c, demo_answer RecvTimeout (demo_first.1 ++ tr) c) (iteration demo_config demo_first.2.1)).
  - left. exists (secs 21). by vm_compute.
Defined.

(** [taken], evaluated. *)
Definition not_taken (path : bytes) (e : @event Call answer) : bool :=
  match e with
  | existT (CIsDir p) true => bytes_eqb p path
  | existT (CIgnored p false) true => bytes_eqb p path
  | _ => false
  end.

Lemma taken_check tr path : existsb (not_taken path) tr = false → taken tr path.
Proof.
  intros H. split; intros Hin; apply not_true_iff_false in H; apply H, existsb_exists; eexists; (split; [by apply list_elem_of_In, Hin|]);
    cbn; by rewrite bytes_eqb_true.
Qed.

Definition demo_saved : wtrace * (Watch * option Exit) :=
  run (λ tr c, demo_answer RecvTimeout (demo_first.1 ++ tr) c) [] (handle_received demo_config (Notified demo_event) demo_first.2.1).

Lemma saved_file_kept_witness :
  saves demo_config demo_event (bs "/w/a.rs") (bs "a.rs") ∧
  Kept demo_config (removal_fail_count (removals demo_first.2.1)) demo_saved.1 (OFile (bs "a.rs")) demo_saved.2.1.
Proof.
  assert (saves demo_config demo_event (bs "/w/a.rs") (bs "a.rs")) as Hs.
  { split_and!; [by apply list_elem_of_singleton|by right; left|by vm_compute..]. }
  split; [done|]. apply (saved_file_kept demo_config (secs 24) (secs 60) _ demo_event (bs "/w/a.rs")); [done|apply demo_reachable|done| | |].
  - vm_compute. repeat split; discriminate.
  - exact (run_self (λ tr c, demo_answer RecvTimeout (demo_first.1 ++ tr) c) (handle_received demo_config (Notified demo_event) demo_first.2.1)).
  - by apply taken_check; vm_compute.
Defined.

(** The lock is free, nothing changes: the project is reconciled, and the
    watcher leaves for being idle. *)
Definition idle_answer (tr : wtrace) (c : Call) : answer c :=
  match c with CTryLock => Some Acquired | c => demo_answer RecvTimeout tr c end.
Definition demo_idle : wtrace * (Watch * option Exit) := run idle_answer [] (iteration demo_config demo_start).

Lemma idle_exit_quiet_witness : demo_idle.2.2 = Some IdleTimeout ∧ quiet demo_idle.2.1.
Proof.
  split; [by vm_compute|]. refine (proj1 (idle_exit_quiet demo_config 0 (secs 60) demo_start demo_idle.2.1 demo_idle.1 _ _ _ _)).
  - done.
  - by apply at_start.
  - vm_compute. repeat split; discriminate.
  - rewrite (pair_second demo_idle.2); [exact (run_self idle_answer (iteration demo_config demo_start))|by vm_compute].
Defined.

Lemma owed_gets_its_turn_witness :
  owed (work demo_first.2.1) (bs "a.rs") ∧
  (bs "a.rs" ∈ compute_ready (pending (work demo_first.2.1)) (secs 2000) (debounce_of demo_config) ∨
   is_Some (pending (revive_due_parked (secs 2000) (work demo_first.2.1)).1 !! bs "a.rs")).
Proof.
  split; [left; exists (secs 21); by vm_compute|]. apply (owed_gets_its_turn demo_config (secs 24)); [done|apply demo_reachable|left; exists (secs 21); by vm_compute|done|done].
Defined.

(** ** Deferral *)

(** The answers of [should_defer] at each of the readings [ts], the streak
    threaded as the watcher does. *)
Fixpoint defer_all {R} (reason : R) (since : option Z) (ts : list Z) : list bool :=
  match ts with
  | [] => []
  | t :: ts => let '(d, since) := should_defer (Some reason) since t in d :: defer_all reason since ts
  end.

Lemma defer_streak {R} (reason : R) ts : ∀ since, Forall (λ u, since ≤ u) ts →
  forallb id (defer_all reason (Some since) ts) = true → Forall (λ u, u - since < BACKPRESSURE_MAX_DEFER) ts.
Proof.
  induction ts as [|t ts IH]; intros since Hle H; [done|]. apply Forall_cons in Hle as [Ht Hle].
  cbn [defer_all] in H. unfold should_defer in H. cbn in H.
  destruct (Z.leb_spec BACKPRESSURE_MAX_DEFER (duration_since t since)) as [|Hd]; [done|].
  unfold duration_since in Hd. constructor; [lia|]. by apply IH.
Qed.

(** Load does not postpone indexing for ever: readings of the clock at
    which the watcher defers in an unbroken streak lie within fifteen minutes of
    the first. *)
Theorem deferral_bounded {R} (reason : R) (t : Z) (ts : list Z) :
  Forall (λ u, t ≤ u) ts → forallb id (defer_all reason None (t :: ts)) = true →
  Forall (λ u, u - t < BACKPRESSURE_MAX_DEFER) ts.
Proof.
  intros Hle H. cbn [defer_all] in H. unfold should_defer in H. cbn in H.
  destruct (Z.leb_spec BACKPRESSURE_MAX_DEFER (duration_since t t)) as [|_]; [done|].
  by apply (defer_streak reason).
Qed.

Lemma deferral_bounded_witness :
  forallb id (defer_all LoadAverage None [secs 0; secs 500; secs 899]) = true ∧ secs 899 - secs 0 < BACKPRESSURE_MAX_DEFER.
Proof.
  split; [by vm_compute|]. pose proof (deferral_bounded LoadAverage (secs 0) [secs 500; secs 899]) as H.
  assert (Forall (λ u, u - secs 0 < BACKPRESSURE_MAX_DEFER) [secs 500; secs 899]) as H2.
  { apply H; [repeat constructor; done|by vm_compute]. }
  apply Forall_cons in H2 as [_ H2]. by apply Forall_cons in H2 as [H2 _].
Defined.

(** ** The scan of an adopted directory *)

Lemma scan_entries_examined config threshold entries : ∀ examined stack found,
  after (scan_entries config threshold entries examined stack found) (λ _ r,
    match r with
    | None => True
    | Some (examined', stack', found') =>
        (examined ≤ examined')%nat ∧ (length stack' + examined ≤ length stack + examined')%nat ∧
        (examined' ≤ Nat.max examined ADOPTION_SCAN_ENTRY_CAP)%nat ∧
        ((length found < threshold)%nat → (length found' < threshold)%nat) ∧
        (Forall (λ p, is_source_file p = true) found → Forall (λ p, is_source_file p = true) found')
    end).
Proof.
  induction entries as [|[path is_dir] entries IH]; intros examined stack found; cbn [scan_entries].
  - cbn. split_and!; auto; lia.
  - destruct (Nat.ltb_spec ADOPTION_SCAN_ENTRY_CAP (S examined)) as [|Hcap]; [done|].
    assert (∀ st fo, (length st ≤ S (length stack))%nat → ((length found < threshold)%nat → (length fo < threshold)%nat) →
      (Forall (λ p, is_source_file p = true) found → Forall (λ p, is_source_file p = true) fo) →
      after (scan_entries config threshold entries (S examined) st fo) (λ _ r, match r with
        | None => True
        | Some (examined', stack', found') =>
            (examined ≤ examined')%nat ∧ (length stack' + examined ≤ length stack + examined')%nat ∧
            (examined' ≤ Nat.max examined ADOPTION_SCAN_ENTRY_CAP)%nat ∧
            ((length found < threshold)%nat → (length found' < threshold)%nat) ∧
            (Forall (λ p, is_source_file p = true) found → Forall (λ p, is_source_file p = true) found')
        end)) as Hnext.
    { intros st fo Hst Hfo Hsrc. eapply after_mono; [apply IH|]. intros tr [[[e' s'] f']|] _; [|done]. intros (H1 & H2 & H3 & H4 & H5).
      split_and!; auto; lia. }
    destruct is_dir.
    + intros r. destruct r; apply Hnext; cbn; auto.
    + destruct (strip_root (project_root config) path) as [rel|]; [|apply Hnext; auto].
      destruct (is_source_file rel) eqn:Es; [|apply Hnext; auto]. intros r. cbn. destruct r; [apply Hnext; auto|].
      destruct (Nat.leb_spec threshold (length (found ++ [rel]))); [done|]. apply Hnext; auto.
      intros Hf. apply Forall_app. split; [done|]. by constructor.
Qed.

Lemma scan_loop_total config threshold fuel : ∀ examined stack found,
  (examined ≤ ADOPTION_SCAN_ENTRY_CAP)%nat → (length stack + (ADOPTION_SCAN_ENTRY_CAP - examined) ≤ fuel)%nat → (length found < threshold)%nat →
  Forall (λ p, is_source_file p = true) found →
  after (scan_loop fuel config threshold examined stack found) (λ _ r,
    r = Some OverThreshold ∨ ∃ files, r = Some (Files files) ∧ (length files < threshold)%nat ∧ Forall (λ p, is_source_file p = true) files).
Proof.
  induction fuel as [|fuel IH]; intros examined stack found He Hl Hf Hs; (destruct stack as [|d stack]; [right; by exists found|]).
  - cbn [length] in Hl. lia.
  - intros entries. destruct entries as [entries|]; cbn [length] in Hl; [|apply IH; done || lia].
    eapply after_mono; [|intros tr a _ H; exact H]. eapply after_bind; [apply scan_entries_examined|].
    intros tr [[[e' s'] f']|] _ H; [|by left]. destruct H as (H1 & H2 & H3 & H4 & H5). apply IH; auto; lia.
Qed.

(** The scan of an adopted directory ends within its fuel, whatever the
    file system answers: it is over the threshold, or
    lists fewer source files than it, all of them source files. *)
Theorem dir_scan_terminates (config : Config) (dir : bytes) (threshold : nat) (tr : wtrace) (r : option DirScan) :
  (0 < threshold)%nat → runs (scan_dir_source_files config dir threshold) tr r →
  r = Some OverThreshold ∨ ∃ files, r = Some (Files files) ∧ (length files < threshold)%nat ∧ Forall (λ p, is_source_file p = true) files.
Proof.
  intros Ht. revert tr r. apply after_runs. unfold scan_dir_source_files.
  destruct (strip_root (project_root config) dir); [|right; by exists []].
  intros ignored. destruct ignored; [right; by exists []|]. apply scan_loop_total; [lia|cbn [length]; unfold SCAN_FUEL; lia|done|done].
Qed.

Definition loop_answer (tr : wtrace) (c : Call) : answer c :=
  match c with CReadDir p => Some [(p ++ bs "/x", true); (p ++ bs "/m.rs", false)] | c => demo_answer RecvTimeout tr c end.

Lemma dir_scan_terminates_witness :
  (0 < 3)%nat ∧ (run loop_answer [] (scan_dir_source_files demo_config (bs "/w/d") 3)).2 = Some OverThreshold.
Proof.
  split; [lia|].
  destruct (dir_scan_terminates demo_config (bs "/w/d") 3 _ _ (ltac:(lia)) (run_self loop_answer (scan_dir_source_files demo_config (bs "/w/d") 3)))
    as [H|(files & H & _)]; [exact H|exfalso; revert H; vm_compute; discriminate].
Defined.
