(* ===== verification/Scc.v ===== *)
(** * Scc: strongly connected components of the import graph

    Models [src/crates/graph/src/scc.rs], the iterative Tarjan algorithm.  [stack]
    and [work] are the vectors used as stacks, top first; the [i32] numbers are
    [Z], and every number stays between [-1] and the number of nodes. *)
From stdpp Require Import gmap relations sorting.
From S2P Require Import Prelude Checked.
From Stdlib Require Import Lia ZArith.

(** ** The algorithm *)

Record Numbering := mkNum { idx_of : gmap bytes nat; nodes : list bytes }.

Definition number_node (s : Numbering) (n : bytes) : Numbering :=
  match idx_of s !! n with
  | Some _ => s
  | None => mkNum (<[n := length (nodes s)]> (idx_of s)) (nodes s ++ [n])
  end.

Definition UNVISITED : Z := -1.

Record Dfs := mkDfs {
  index_counter : Z;
  index : list Z;
  lowlink : list Z;
  on_stack : list bool;
  stack : list nat;
  components : list (list bytes);
  work : list (nat * nat);
}.

Definition map_get (m : gmap bytes nat) (n : bytes) : T nat :=
  match m !! n with Some i => mret i | None => fails Panicked end.

Section tarjan.
Context (stopped : nat → bool).

Definition number_edges (edges : list (bytes * bytes)) : T Numbering :=
  for_each (λ s '(a, b), check_at stopped ;; mret (number_node (number_node s a) b)) edges (mkNum ∅ []).

Definition adjacency (num : Numbering) (edges : list (bytes * bytes)) : T (list (list nat)) :=
  for_each (λ adj '(a, b),
    check_at stopped ;;
    u ← map_get (idx_of num) a;
    v ← map_get (idx_of num) b;
    l ← vget adj u;
    vset adj u (l ++ [v])) edges (replicate (length (nodes num)) []).

Context (names : list bytes) (adj : list (list nat)).

(** Number [w], push it on both stacks. *)
Definition discover (w : nat) (s : Dfs) : T Dfs :=
  index' ← vset (index s) w (index_counter s);
  lowlink' ← vset (lowlink s) w (index_counter s);
  on_stack' ← vset (on_stack s) w true;
  mret (mkDfs (index_counter s + 1) index' lowlink' on_stack' (w :: stack s) (components s) ((w, 0) :: work s)).

(** Pop the component of [v]; [expect] panics on an empty stack. *)
Fixpoint pop_component (v : nat) (stack : list nat) (on_stack : list bool) (component : list bytes)
    : T (list bytes * list nat * list bool) :=
  check_at stopped ;;
  match stack with
  | [] => fails Panicked
  | w :: stack =>
      on_stack ← vset on_stack w false;
      name ← vget names w;
      let component := component ++ [name] in
      if Nat.eqb w v then mret (component, stack, on_stack) else pop_component v stack on_stack component
  end.

Definition set_work (work : list (nat * nat)) (s : Dfs) : Dfs :=
  mkDfs (index_counter s) (index s) (lowlink s) (on_stack s) (stack s) (components s) work.

Definition set_lowlink (lowlink : list Z) (s : Dfs) : Dfs :=
  mkDfs (index_counter s) (index s) lowlink (on_stack s) (stack s) (components s) (work s).

Definition lower (v : nat) (bound : Z) (s : Dfs) : T Dfs :=
  low ← vget (lowlink s) v;
  lowlink' ← vset (lowlink s) v (Z.min low bound);
  mret (set_lowlink lowlink' s).

(** The next child of [v]. *)
Definition visit_child (v i : nat) (children : list nat) (rest : list (nat * nat)) (s : Dfs) : T Dfs :=
  w ← vget children i;
  let s := set_work ((v, S i) :: rest) s in
  iw ← vget (index s) w;
  if (iw =? UNVISITED)%Z then discover w s
  else
    on ← vget (on_stack s) w;
    if on : bool then lower v iw s else mret s.

(** All children of [v] were seen. *)
Definition finish (v : nat) (rest : list (nat * nat)) (s : Dfs) : T Dfs :=
  low ← vget (lowlink s) v;
  iv ← vget (index s) v;
  s ← (if (low =? iv)%Z then
         '(component, stack', on_stack') ← pop_component v (stack s) (on_stack s) [];
         mret (mkDfs (index_counter s) (index s) (lowlink s) on_stack' stack' (components s ++ [component]) (work s))
       else mret s);
  let s := set_work rest s in
  match rest with
  | [] => mret s
  | (parent, _) :: _ => low ← vget (lowlink s) v; lower parent low s
  end.

Fixpoint dfs_loop (fuel : nat) (s : Dfs) : T Dfs :=
  match fuel with
  | 0 => fails Exhausted
  | S fuel =>
      match work s with
      | [] => mret s
      | (v, i) :: rest =>
          check_at stopped ;;
          children ← vget adj v;
          s ← (if i <? length children then visit_child v i children rest s else finish v rest s);
          dfs_loop fuel s
      end
  end.

Definition visit_root (fuel : nat) (s : Dfs) (start : nat) : T Dfs :=
  check_at stopped ;;
  i ← vget (index s) start;
  if negb (i =? UNVISITED)%Z then mret s else s ← discover start (set_work [] s); dfs_loop fuel s.
End tarjan.

(** Enough rounds for the depth-first search of any start node. *)
Definition dfs_fuel (adj : list (list nat)) : nat := S (sum_list_with (λ l, S (length l)) adj).

Definition dfs_start (n : nat) : Dfs :=
  mkDfs 0 (replicate n UNVISITED) (replicate n 0%Z) (replicate n false) [] [] [].

Definition tarjan_scc (stopped : nat → bool) (edges : list (bytes * bytes)) : T (list (list bytes)) :=
  check_at stopped ;;
  num ← number_edges stopped edges;
  adj ← adjacency stopped num edges;
  let n := length (nodes num) in
  s ← for_each (visit_root stopped (nodes num) adj (dfs_fuel adj)) (seq 0 n) (dfs_start n);
  mret (components s).

Example scc_demo :
  let e (a b : string) := (bs a, bs b) in
  tarjan_scc (λ _, false) [e "a" "b"; e "b" "c"; e "c" "a"; e "c" "d"]%string 0
  = inr ([[bs "d"]; [bs "c"; bs "b"; bs "a"]]%string, 25).
Proof. vm_compute. reflexivity. Qed.

(** ** Numbering the nodes *)

Record numbering (names : gset bytes) (s : Numbering) : Prop := {
  nu_idx n i : idx_of s !! n = Some i ↔ nodes s !! i = Some n;
  nu_nodes n : n ∈ nodes s ↔ n ∈ names;
}.

Lemma numbering_inj names s i j n : numbering names s → nodes s !! i = Some n → nodes s !! j = Some n → i = j.
Proof. intros [H _] Hi%H Hj%H. congruence. Qed.

Lemma number_node_ok names s n : numbering names s → numbering ({[n]} ∪ names) (number_node s n).
Proof.
  intros [Hi Hn]. unfold number_node. destruct (idx_of s !! n) as [k|] eqn:E.
  - split; [done|]. intros m. rewrite Hn, elem_of_union, elem_of_singleton.
    split; [by right|]. intros [->|?]; [|done]. apply Hn. apply Hi in E. by eapply list_elem_of_lookup_2.
  - split; simpl.
    + intros m i. destruct (decide (m = n)) as [->|Hne].
      * rewrite lookup_insert_eq, lookup_snoc_Some. split; [intros [= <-]; by right|].
        intros [[_ Hl]|[-> _]]; [|done]. apply Hi in Hl. congruence.
      * rewrite lookup_insert_ne, Hi, lookup_snoc_Some by done. split; [|intros [[_ ?]|[_ ?]]; [done|congruence]].
        intros Hl. left. split; [by eapply lookup_lt_Some|done].
    + intros m. rewrite elem_of_app, list_elem_of_singleton, Hn, elem_of_union, elem_of_singleton. tauto.
Qed.

Definition endpoints (edges : list (bytes * bytes)) : gset bytes :=
  list_to_set (map fst edges) ∪ list_to_set (map snd edges).

Lemma endpoints_snoc edges a b : endpoints (edges ++ [(a, b)]) = {[b]} ∪ ({[a]} ∪ endpoints edges).
Proof. unfold endpoints. rewrite !map_app, !list_to_set_app_L. simpl. set_solver. Qed.

Lemma elem_of_endpoints edges n : n ∈ endpoints edges ↔ ∃ a b, (a, b) ∈ edges ∧ (n = a ∨ n = b).
Proof.
  unfold endpoints. rewrite elem_of_union, !elem_of_list_to_set, !list_elem_of_fmap. split.
  - intros [([a b] & -> & H)|([a b] & -> & H)]; exists a, b; auto.
  - intros (a & b & H & [->| ->]); [left|right]; by exists (a, b).
Qed.

Lemma number_edges_ok stopped edges : safe stopped (number_edges stopped edges) (numbering (endpoints edges)).
Proof.
  apply (safe_for_each _ _ (λ done, numbering (endpoints done))).
  - intros done [a b] rest s _ Hs. apply safe_check, safe_ret. rewrite endpoints_snoc.
    by apply number_node_ok, number_node_ok.
  - split; simpl.
    + intros n i. by rewrite lookup_empty, lookup_nil.
    + intros n. rewrite elem_of_endpoints. split; [by intros ?%not_elem_of_nil|].
      by intros (? & ? & ?%not_elem_of_nil & _).
Qed.

(** ** Adjacency *)

Definition arc (adj : list (list nat)) (u w : nat) : Prop := ∃ l, adj !! u = Some l ∧ w ∈ l.

Record adjacent (num : Numbering) (edges : list (bytes * bytes)) (adj : list (list nat)) : Prop := {
  ad_length : length adj = length (nodes num);
  ad_arc u w : arc adj u w ↔ ∃ a b, (a, b) ∈ edges ∧ nodes num !! u = Some a ∧ nodes num !! w = Some b;
}.

Lemma arc_insert adj u l v x y :
  adj !! u = Some l → arc (<[u := l ++ [v]]> adj) x y ↔ arc adj x y ∨ (x = u ∧ y = v).
Proof.
  intros Hu. pose proof (lookup_lt_Some _ _ _ Hu) as Hlt. unfold arc. destruct (decide (x = u)) as [->|Hne].
  - rewrite list_lookup_insert_eq by done. split.
    + intros (l' & [= <-] & [Hy|Hy]%elem_of_app); [left; eauto|]. right. by apply list_elem_of_singleton in Hy.
    + intros [(l' & Hl & Hy)|[_ ->]]; (eexists; split; [done|]); apply elem_of_app; [left; congruence|right; by left].
  - rewrite list_lookup_insert_ne by done. naive_solver.
Qed.

Lemma adjacency_ok stopped num edges :
  numbering (endpoints edges) num → safe stopped (adjacency stopped num edges) (adjacent num edges).
Proof.
  intros Hnum.
  assert (∀ n, n ∈ endpoints edges → ∃ i, idx_of num !! n = Some i ∧ nodes num !! i = Some n) as Hidx.
  { intros n Hn. apply (nu_nodes _ _ Hnum), list_elem_of_lookup in Hn as [i Hi].
    exists i. split; [by apply (nu_idx _ _ Hnum)|done]. }
  apply (safe_for_each _ _ (adjacent num)).
  - intros done [a b] rest adj E [Hl Ha]. apply safe_check.
    assert ((a, b) ∈ edges) as Hin by (rewrite E; apply elem_of_app; right; left).
    destruct (Hidx a) as (u & Hu & Hua); [apply elem_of_endpoints; eauto|].
    destruct (Hidx b) as (v & Hv & Hvb); [apply elem_of_endpoints; eauto|].
    unfold map_get. rewrite Hu, Hv. cbn.
    assert (u < length adj) as Hlt by (rewrite Hl; by eapply lookup_lt_Some).
    destruct (lookup_lt_is_Some_2 adj u Hlt) as [l Hadj].
    apply (safe_vget _ adj u l); [done|]. apply safe_vset_ret; [done|]. split; [by rewrite length_insert|].
    intros x y. rewrite arc_insert, Ha by done. setoid_rewrite elem_of_app. setoid_rewrite list_elem_of_singleton. split.
    + intros [(a' & b' & ? & ? & ?)|[-> ->]]; [exists a', b'; auto|exists a, b; auto].
    + intros (a' & b' & [?|[= -> ->]] & Hx & Hy); [left; eauto|right].
      split; by eapply numbering_inj.
  - split; [by rewrite length_replicate|]. intros u w. split.
    + intros (l & [-> _]%lookup_replicate & []%not_elem_of_nil).
    + by intros (? & ? & ?%not_elem_of_nil & _).
Qed.

(** ** The invariant of the search

    A frame is an entry of [work] with the finished nodes above it on [stack]:
    [stack] is the frames' nodes one after the other, and each frame is strongly
    connected. *)

Record frame := mkFrame { fr_node : nat; fr_next : nat; fr_done : list nat }.

Definition frame_nodes (f : frame) : list nat := fr_done f ++ [fr_node f].
Definition frame_work (f : frame) : nat * nat := (fr_node f, fr_next f).
Definition frames_stack (fs : list frame) : list nat := concat (map frame_nodes fs).

Section dfs.
Context (stopped : nat → bool) (names : list bytes) (adj : list (list nat)).

Notation "u ⟶ w" := (arc adj u w) (at level 70).
Notation "u ⟶* w" := (rtc (arc adj) u w) (at level 70).

Definition idx (s : Dfs) (v : nat) : Z := index s !!! v.
Definition low (s : Dfs) (v : nat) : Z := lowlink s !!! v.

(** The arcs of the frame that were followed. *)
Definition followed (f : frame) (x y : nat) : Prop :=
  (x ∈ fr_done f ∧ x ⟶ y) ∨ (x = fr_node f ∧ ∃ l, adj !! x = Some l ∧ y ∈ take (fr_next f) l).

Definition visited (D : list (list nat)) (s : Dfs) (y : nat) : Prop := y ∈ stack s ∨ y ∈ concat D.

Record frame_ok (D : list (list nat)) (s : Dfs) (f : frame) : Prop := {
  fo_done x : x ∈ fr_done f → fr_node f ⟶* x ∧ x ⟶* fr_node f;
  fo_low_le : (low s (fr_node f) ≤ idx s (fr_node f))%Z;
  fo_low_in : ∃ y, y ∈ stack s ∧ idx s y = low s (fr_node f) ∧ fr_node f ⟶* y;
  fo_visited x y : followed f x y → visited D s y;
  fo_edges x y : followed f x y → y ∈ stack s → (low s (fr_node f) ≤ idx s y)%Z;
}.

(** Each frame's node is a child of the frame below. *)
Fixpoint chain (fs : list frame) : Prop :=
  match fs with
  | f :: (p :: _) as fs => fr_node p ⟶ fr_node f ∧ chain fs
  | _ => True
  end.

Definition scc (c : list nat) : Prop := c ≠ [] ∧ ∀ x y, x ∈ c → (y ∈ c ↔ x ⟶* y ∧ y ⟶* x).

Record searching (fs : list frame) (D : list (list nat)) (s : Dfs) : Prop := {
  se_work : work s = map frame_work fs;
  se_stack : stack s = frames_stack fs;
  se_comps : components s = map (map (λ w, names !!! w)) D;
  se_index : length (index s) = length adj;
  se_lowlink : length (lowlink s) = length adj;
  se_on_stack : length (on_stack s) = length adj;
  se_on v b : on_stack s !! v = Some b → (b = true ↔ v ∈ stack s);
  se_nodup : NoDup (stack s ++ concat D);
  se_bound v : visited D s v → v < length adj ∧ (0 ≤ idx s v < index_counter s)%Z;
  se_unvisited v : v < length adj → ¬ visited D s v → idx s v = UNVISITED;
  se_sorted : StronglySorted (λ a b, idx s b < idx s a)%Z (stack s);
  se_counter : index_counter s = Z.of_nat (length (stack s ++ concat D));
  se_chain : chain fs;
  se_frames : Forall (frame_ok D s) fs;
  se_next : Forall (λ f, fr_next f ≤ length (adj !!! fr_node f)) fs;
  se_closed x y : x ∈ concat D → x ⟶ y → y ∈ concat D;
  se_sccs : Forall scc D;
}.

Lemma frame_node_in fs f : f ∈ fs → fr_node f ∈ frames_stack fs.
Proof.
  intros Hf. apply list_elem_of_In, in_concat. exists (frame_nodes f). split.
  - apply in_map. by apply list_elem_of_In.
  - apply list_elem_of_In, elem_of_app. right. by left.
Qed.

Lemma in_frames_stack fs x : x ∈ frames_stack fs → ∃ f, f ∈ fs ∧ x ∈ frame_nodes f.
Proof.
  intros Hx%list_elem_of_In%in_concat. destruct Hx as (l & Hl & Hx). apply in_map_iff in Hl as (f & <- & Hf).
  exists f. split; by apply list_elem_of_In.
Qed.

(** Lower frames reach higher ones. *)
Lemma chain_reach p fs f : chain (p :: fs) → f ∈ p :: fs → fr_node f ⟶* fr_node p.
Proof.
  revert p; induction fs as [|q fs IH]; intros p Hc Hf.
  - apply list_elem_of_singleton in Hf as ->. done.
  - destruct Hc as [He Hc]. apply elem_of_cons in Hf as [->|Hf]; [done|].
    eapply rtc_r; [by apply IH|done].
Qed.

(** Everything on the stack reaches the top frame's node. *)
Lemma stack_reach D s p fs y :
  chain (p :: fs) → Forall (frame_ok D s) (p :: fs) → y ∈ frames_stack (p :: fs) → y ⟶* fr_node p.
Proof.
  intros Hc Hf Hy. apply in_frames_stack in Hy as (f & Hin & Hy). rewrite Forall_forall in Hf.
  trans (fr_node f); [|by eapply chain_reach].
  apply elem_of_app in Hy as [Hy| ->%list_elem_of_singleton]; [|done]. by apply (Hf f Hin).
Qed.

(** A frame stays well formed while its numbers and those of its arcs do. *)
Lemma frame_ok_ext D D' s s' f :
  frame_ok D s f →
  low s' (fr_node f) = low s (fr_node f) → idx s' (fr_node f) = idx s (fr_node f) →
  (∀ y, y ∈ stack s → (idx s y ≤ idx s (fr_node f))%Z → y ∈ stack s' ∧ idx s' y = idx s y) →
  (∀ y, visited D s y → visited D' s' y) →
  (∀ y, visited D s y → y ∈ stack s' → y ∈ stack s ∧ idx s' y = idx s y) →
  frame_ok D' s' f.
Proof.
  intros [d l (y & Hy & Ey & Hr) v e] El Ei Hst Hv Hback. split.
  - done.
  - by rewrite El, Ei.
  - exists y. destruct (Hst y Hy) as [? ->]; [by rewrite Ey|]. by rewrite El.
  - intros x z Hz. by eapply Hv, v.
  - intros x z Hz Hin. destruct (Hback z) as [Hz' ->]; [by eapply v|done|]. rewrite El. by eapply e.
Qed.

Lemma idx_insert s v x y s' : index s' = <[v := x]> (index s) → y ≠ v → idx s' y = idx s y.
Proof. intros E Hne. unfold idx. rewrite E. by rewrite list_lookup_total_insert_ne. Qed.

Lemma lookup_idx s v : v < length (index s) → index s !! v = Some (idx s v).
Proof. intros Hv. by apply list_lookup_lookup_total_lt. Qed.

Lemma lookup_low s v : v < length (lowlink s) → lowlink s !! v = Some (low s v).
Proof. intros Hv. by apply list_lookup_lookup_total_lt. Qed.

(** The nodes above [v] in a sorted stack are those with a greater number. *)
Lemma sorted_above s a v b :
  StronglySorted (λ a b, idx s b < idx s a)%Z (a ++ v :: b) →
  ∀ y, y ∈ a ++ v :: b → (idx s v ≤ idx s y)%Z → y ∈ a ++ [v].
Proof.
  intros Hs y Hy Hle. apply elem_of_app in Hy as [Hy|[->|Hy]%elem_of_cons].
  - apply elem_of_app. by left.
  - apply elem_of_app. right. by left.
  - exfalso. apply StronglySorted_app_1_r in Hs. apply StronglySorted_cons in Hs as [Hall _].
    rewrite Forall_forall in Hall. specialize (Hall y Hy). simpl in Hall. lia.
Qed.

Lemma sorted_idx_ext s s' l :
  (∀ y, y ∈ l → idx s' y = idx s y) →
  StronglySorted (λ a b, idx s b < idx s a)%Z l → StronglySorted (λ a b, idx s' b < idx s' a)%Z l.
Proof.
  intros Hl. induction 1 as [|a l Hs IH Ha]; constructor.
  - apply IH. intros y Hy. apply Hl. by right.
  - rewrite Forall_forall in Ha |- *. intros b Hb. rewrite !Hl; [by apply Ha|by left|by right].
Qed.

(** ** The steps *)

Lemma frame_ok_more D s f f2 :
  frame_ok D s f → fr_node f2 = fr_node f → fr_done f2 = fr_done f →
  (∀ x y, followed f2 x y → followed f x y ∨ (visited D s y ∧ (y ∈ stack s → (low s (fr_node f) ≤ idx s y)%Z))) →
  frame_ok D s f2.
Proof.
  intros [d l li v e] En Ed Hf. split; rewrite ?En, ?Ed; [done..| |].
  - intros x y [Hxy|[Hv _]]%Hf; [by eapply v|done].
  - intros x y [Hxy|[_ Hle]]%Hf Hy; [by eapply e|by apply Hle].
Qed.

(** [f2] is [f] after following one more arc, to [w]. *)
Definition advanced (w : nat) (f f2 : frame) : Prop :=
  fr_node f2 = fr_node f ∧ fr_done f2 = fr_done f
  ∧ ∀ x y, followed f2 x y → followed f x y ∨ y = w.

Lemma advanced_refl w f : advanced w f f.
Proof. split_and!; [done..|by left]. Qed.

Lemma advanced_stack w fs fs2 : Forall2 (advanced w) fs fs2 → frames_stack fs2 = frames_stack fs.
Proof.
  unfold frames_stack. induction 1 as [|f f2 fs fs2 (En & Ed & _) _ IH]; simpl; [done|].
  unfold frame_nodes at 1 3. by rewrite En, Ed, IH.
Qed.

Lemma advanced_chain w fs fs2 : Forall2 (advanced w) fs fs2 → chain fs → chain fs2.
Proof.
  induction 1 as [|f f2 fs fs2 (En & _ & _) Hfs IH]; simpl; [done|].
  destruct Hfs as [|p p2 fs fs2 (Ep & _ & _) Hfs]; [done|]. intros [He Hc]. split; [by rewrite En, Ep|by apply IH].
Qed.

Lemma discover_ok fs fs2 D s w :
  searching fs D s → w < length adj → ¬ visited D s w → Forall2 (advanced w) fs fs2 →
  Forall (λ f, fr_next f ≤ length (adj !!! fr_node f)) fs2 →
  match fs2 with [] => True | p :: _ => fr_node p ⟶ w end →
  safe stopped (discover w (set_work (map frame_work fs2) s)) (λ s', searching (mkFrame w 0 [] :: fs2) D s'
    ∧ stack s' = w :: stack s).
Proof.
  intros Hs Hw Hnv Hadv Hnext Hp. pose proof Hs as [].
  unfold discover. cbn [set_work index lowlink on_stack stack components work index_counter].
  do 3 (apply safe_vset; [congruence|]). apply safe_ret. split; [|done].
  set (s' := mkDfs _ _ _ _ _ _ _).
  assert (∀ y, y ≠ w → idx s' y = idx s y) as Hidx by (intros y Hy; unfold idx; simpl; by rewrite list_lookup_total_insert_ne).
  assert (idx s' w = index_counter s) as Hiw by (unfold idx; simpl; rewrite list_lookup_total_insert_eq; [done|congruence]).
  assert (∀ y, y ≠ w → low s' y = low s y) as Hlow by (intros y Hy; unfold low; simpl; by rewrite list_lookup_total_insert_ne).
  assert (low s' w = index_counter s) as Hlw by (unfold low; simpl; rewrite list_lookup_total_insert_eq; [done|congruence]).
  assert (∀ y, visited D s y → y ≠ w) as Hne by (intros y Hy ->; done).
  assert (∀ y, visited D s' y ↔ visited D s y ∨ y = w) as Hvis.
  { intros y. unfold visited. simpl. rewrite elem_of_cons. tauto. }
  assert (∀ f, f ∈ fs → frame_ok D s' f) as Hok.
  { intros f Hf. rewrite Forall_forall in se_frames0. pose proof (se_frames0 f Hf) as Hfo.
    assert (fr_node f ≠ w) as Hfw.
    { apply Hne. left. rewrite se_stack0. by apply frame_node_in. }
    apply (frame_ok_ext D D s s' f Hfo); [by apply Hlow|by apply Hidx| | |].
    - intros y Hy _. split; [by right|]. apply Hidx, Hne. by left.
    - intros y Hy. apply Hvis. by left.
    - intros y Hy Hy'. apply elem_of_cons in Hy' as [->|Hy']; [done|]. split; [done|]. by apply Hidx, Hne. }
  split; cbn [s' index lowlink on_stack stack components work index_counter].
  - done.
  - unfold frames_stack. simpl. f_equal. fold (frames_stack fs2). by rewrite (advanced_stack w fs fs2).
  - done.
  - by rewrite length_insert.
  - by rewrite length_insert.
  - by rewrite length_insert.
  - intros v b. destruct (decide (v = w)) as [->|Hvw].
    + rewrite list_lookup_insert_eq by congruence. intros [= <-]. split; [by left|done].
    + rewrite list_lookup_insert_ne by done. intros Hb%se_on0. rewrite Hb, elem_of_cons. naive_solver.
  - simpl. constructor; [|done]. rewrite elem_of_app. exact Hnv.
  - intros v [Hv| ->]%Hvis; [|rewrite Hiw; lia]. rewrite Hidx by auto. destruct (se_bound0 v Hv). lia.
  - intros v Hv Hnv'. rewrite Hvis in Hnv'. rewrite Hidx by tauto. apply se_unvisited0; tauto.
  - constructor.
    + apply (sorted_idx_ext s); [|done]. intros y Hy. apply Hidx, Hne. by left.
    + apply Forall_forall. intros y Hy. rewrite Hiw, Hidx by (apply Hne; by left).
      destruct (se_bound0 y (or_introl Hy)). lia.
  - rewrite se_counter0. cbn [app length]. lia.
  - destruct fs2 as [|p fs2]; [done|]. split; [done|]. by eapply advanced_chain.
  - constructor.
    + split; cbn [fr_node fr_done fr_next].
      * by intros x ?%not_elem_of_nil.
      * by rewrite Hlw, Hiw.
      * exists w. split_and!; [by left|by rewrite Hlw, Hiw|done].
      * by intros x y [[[]%not_elem_of_nil _]|(_ & l & _ & []%not_elem_of_nil)].
      * by intros x y [[[]%not_elem_of_nil _]|(_ & l & _ & []%not_elem_of_nil)].
    + apply Forall_forall. intros f2 Hf2. apply list_elem_of_lookup in Hf2 as [i Hi].
      destruct (Forall2_lookup_r _ _ _ _ _ Hadv Hi) as (f & Hfi & En & Ed & Hfo).
      apply list_elem_of_lookup_2 in Hfi as Hfin. apply (frame_ok_more D s' f); [by apply Hok|done|done|].
      intros x y [Hxy| ->]%Hfo; [by left|right]. split; [apply Hvis; by right|]. intros _.
      assert (fr_node f ∈ stack s) as Hin by (rewrite se_stack0; by apply frame_node_in).
      rewrite Hiw, Hlow by (apply Hne; by left). destruct (se_bound0 (fr_node f) (or_introl Hin)) as [_ Hlt].
      rewrite Forall_forall in se_frames0. pose proof (fo_low_le _ _ _ (se_frames0 f Hfin)). lia.
  - constructor; [simpl; lia|done].
  - done.
  - done.
Qed.

Context (Hnames : length names = length adj) (Harc : ∀ u w, arc adj u w → w < length adj).

Lemma lookup_name w : w < length adj → names !! w = Some (names !!! w).
Proof using Hnames. intros Hw. apply list_lookup_lookup_total_lt. by rewrite Hnames. Qed.

(** Popping takes the nodes above [v], and [v], off the stack. *)
Lemma pop_component_ok v a b on component :
  v ∉ a → length on = length adj → Forall (λ w, w < length adj) (a ++ [v]) →
  safe stopped (pop_component stopped names v (a ++ v :: b) on component) (λ '(c, stack', on'),
    c = component ++ map (λ w, names !!! w) (a ++ [v]) ∧ stack' = b ∧ length on' = length adj
    ∧ ∀ w x, on' !! w = Some x → (w ∈ a ++ [v] ∧ x = false) ∨ ((w ∉ a ++ [v]) ∧ on !! w = Some x)).
Proof using Hnames.
  revert on component. induction a as [|w a IH]; intros on component Hv Hon Hall; simpl in Hall;
    apply Forall_cons in Hall as [Hw Hall]; cbn [app pop_component]; apply safe_check.
  - apply safe_vset; [by rewrite Hon|]. apply (safe_vget _ _ _ (names !!! v)); [by apply lookup_name|].
    rewrite Nat.eqb_refl. apply safe_ret. split_and!; [done|done|by rewrite length_insert|].
    intros w x. rewrite list_elem_of_singleton. destruct (decide (w = v)) as [->|Hne].
    + rewrite list_lookup_insert_eq by (by rewrite Hon). intros [= <-]. by left.
    + rewrite list_lookup_insert_ne by done. by right.
  - apply not_elem_of_cons in Hv as [Hvw Hv].
    apply safe_vset; [by rewrite Hon|]. apply (safe_vget _ _ _ (names !!! w)); [by apply lookup_name|].
    rewrite (proj2 (Nat.eqb_neq w v)) by done.
    eapply safe_mono; [apply IH; [done|by rewrite length_insert|done]|]. intros [[c st'] on'] (-> & -> & Hl & Hw').
    split_and!; [by rewrite <- app_assoc|done|done|]. intros y x Hy. rewrite elem_of_cons.
    destruct (Hw' y x Hy) as [[? ?]|[Hn Hy']]; [left; auto|]. destruct (decide (y = w)) as [->|Hne].
    + left. rewrite list_lookup_insert_eq in Hy' by (by rewrite Hon). injection Hy' as <-. auto.
    + right. rewrite list_lookup_insert_ne in Hy' by done. tauto.
Qed.

(** [lower] on the top frame. *)
Lemma safe_lower v bound s (Q : Dfs → Prop) :
  v < length (lowlink s) →
  Q (set_lowlink (<[v := Z.min (low s v) bound]> (lowlink s)) s) → safe stopped (lower v bound s) Q.
Proof.
  intros Hv HQ. unfold lower. apply (safe_vget _ _ _ (low s v)); [by apply lookup_low|].
  apply safe_vset; [done|]. by apply safe_ret.
Qed.

(** Only the frames, [work] and [lowlink] change. *)
Lemma searching_frames fs0 fs D s s' :
  searching fs0 D s → index_counter s' = index_counter s → index s' = index s → on_stack s' = on_stack s →
  stack s' = stack s → components s' = components s → length (lowlink s') = length (lowlink s) →
  work s' = map frame_work fs → frames_stack fs = frames_stack fs0 → chain fs → Forall (frame_ok D s') fs →
  Forall (λ f, fr_next f ≤ length (adj !!! fr_node f)) fs → searching fs D s'.
Proof.
  intros [] Ec Ei Eo Es Ecm El Ew Ef Hc Hf Hn.
  assert (∀ v, visited D s' v ↔ visited D s v) as Hv by (intros v; unfold visited; by rewrite Es).
  assert (∀ v, idx s' v = idx s v) as Hi by (intros v; unfold idx; by rewrite Ei).
  split; try done; rewrite ?Ec, ?Ei, ?Eo, ?Es, ?Ecm, ?El; try done.
  - by rewrite se_stack0.
  - intros v. rewrite Hv, Hi. apply se_bound0.
  - intros v. rewrite Hv, Hi. apply se_unvisited0.
  - apply (sorted_idx_ext s); [done|]. done.
Qed.

(** A frame whose node's [lowlink] is not the one that changed. *)
Lemma frame_ok_lowlink D s s' f :
  frame_ok D s f → index s' = index s → stack s' = stack s → low s' (fr_node f) = low s (fr_node f) →
  frame_ok D s' f.
Proof.
  intros Hf Ei Es El. apply (frame_ok_ext D D s s' f Hf); [done|by unfold idx; rewrite Ei|..].
  - intros y Hy _. rewrite Es. unfold idx. by rewrite Ei.
  - intros y. unfold visited. by rewrite Es.
  - intros y _. rewrite Es. unfold idx. by rewrite Ei.
Qed.

Lemma low_set_other s v x w y : y ≠ v → low (set_lowlink (<[v := x]> (lowlink s)) w) y = low s y.
Proof. intros. unfold low. simpl. by rewrite list_lookup_total_insert_ne. Qed.

Lemma low_set s v x w : v < length (lowlink s) → low (set_lowlink (<[v := x]> (lowlink s)) w) v = x.
Proof. intros. unfold low. simpl. by rewrite list_lookup_total_insert_eq. Qed.

Lemma frames_nodup f fs D s : searching (f :: fs) D s →
  NoDup (frames_stack fs) ∧ ∀ x, x ∈ frame_nodes f → x ∉ frames_stack fs.
Proof.
  intros Hs. pose proof (se_nodup _ _ _ Hs) as H. rewrite (se_stack _ _ _ Hs) in H.
  apply NoDup_app in H as (H & _ & _). unfold frames_stack in H. simpl in H. apply NoDup_app in H as (_ & Hd & H).
  split; [done|]. intros x Hx. by apply Hd.
Qed.

Definition weight (v : nat) : nat := S (length (adj !!! v)).
Definition pending (fs : list frame) : nat := sum_list_with (λ f, weight (fr_node f) - fr_next f) fs.
Definition reached (D : list (list nat)) (s : Dfs) : nat := sum_list_with weight (stack s ++ concat D).

(** One more step of the search was taken. *)
Definition stepped (fs fs' : list frame) (D D' : list (list nat)) (s s' : Dfs) : Prop :=
  (∀ k, reached D s = k + pending fs → reached D' s' = S k + pending fs')
  ∧ ∀ v, visited D s v → visited D' s' v.

Lemma visit_child_ok f fs D s children :
  searching (f :: fs) D s → adj !! fr_node f = Some children → fr_next f < length children →
  safe stopped (visit_child (fr_node f) (fr_next f) children (map frame_work fs) s)
    (λ s', ∃ fs', searching fs' D s' ∧ stepped (f :: fs) fs' D D s s').
Proof using Harc.
  clear Hnames. intros Hs Hc Hn. pose proof Hs as [].
  destruct (lookup_lt_is_Some_2 children (fr_next f) Hn) as [w Hw].
  assert (fr_node f ⟶ w) as Harcw by (exists children; split; [done|by eapply list_elem_of_lookup_2]).
  pose proof (Harc _ _ Harcw) as Hwn. set (f2 := mkFrame (fr_node f) (S (fr_next f)) (fr_done f)).
  assert (adj !!! fr_node f = children) as Hct by (by apply list_lookup_total_correct).
  assert (∀ x y, followed f2 x y → followed f x y ∨ (x = fr_node f ∧ y = w)) as Hfol.
  { intros x y [[? ?]|(-> & l & Hl & Hy)]; [by left; left|]. cbn [f2 fr_node fr_next] in *.
    rewrite Hc in Hl. injection Hl as <-. rewrite (take_S_r _ _ w) in Hy by done.
    apply elem_of_app in Hy as [Hy|Hy%list_elem_of_singleton]; [left; right; eauto|by right]. }
  assert (Forall (λ f, fr_next f ≤ length (adj !!! fr_node f)) (f2 :: fs)) as Hnext.
  { apply Forall_cons in se_next0 as [_ ?]. constructor; [cbn [f2 fr_node fr_next]; rewrite Hct; lia|done]. }
  assert (∀ k, reached D s = k + pending (f :: fs) → reached D s = S k + pending (f2 :: fs)) as Hpend.
  { intros k ->. unfold pending. cbn [sum_list_with f2 fr_node fr_next]. unfold weight. rewrite Hct. lia. }
  unfold visit_child. apply (safe_vget _ _ _ w); [done|].
  change ((fr_node f, S (fr_next f)) :: map frame_work fs) with (map frame_work (f2 :: fs)).
  change (index (set_work _ s)) with (index s). change (on_stack (set_work _ s)) with (on_stack s).
  apply (safe_vget _ _ _ (idx s w)); [apply lookup_idx; by rewrite se_index0|].
  destruct (Z.eqb_spec (idx s w) UNVISITED) as [Hun|Hvis].
  { assert (¬ visited D s w) as Hnv by (intros Hv; destruct (se_bound0 w Hv); unfold UNVISITED in Hun; lia).
    eapply safe_mono; [apply (discover_ok (f :: fs) (f2 :: fs) D s w); try done|].
    - constructor; [split_and!; [done..|]|].
      + intros x y Hxy%Hfol. tauto.
      + apply Forall_Forall2_diag, Forall_forall. intros. apply advanced_refl.
    - intros s' [Hs' Est]. eexists. split; [exact Hs'|]. split.
      + intros k Hk. apply Hpend in Hk. unfold reached in *. rewrite Est. cbn [app sum_list_with].
        rewrite Hk. unfold pending. cbn [sum_list_with fr_node fr_next]. lia.
      + intros v. unfold visited. rewrite Est, elem_of_cons. tauto. }
  assert (visited D s w) as Hvw.
  { destruct (decide (w ∈ stack s)) as [?|?]; [by left|]. destruct (decide (w ∈ concat D)) as [?|?]; [by right|].
    destruct Hvis. apply se_unvisited0; [done|]. by intros []. }
  destruct (lookup_lt_is_Some_2 (on_stack s) w) as [on Hon]; [by rewrite se_on_stack0|].
  apply (safe_vget _ _ _ on); [done|]. pose proof (se_on0 w on Hon) as Hin.
  destruct (frames_nodup f fs D s Hs) as [_ Hdj].
  assert (fr_node f ∉ frames_stack fs) as Hnf by (apply Hdj, elem_of_app; right; by left).
  apply Forall_cons in se_frames0 as [Hf Hfs].
  assert (fr_node f ∈ stack s) as Hfin by (rewrite se_stack0; apply (frame_node_in (f :: fs)); by left).
  destruct (se_bound0 _ (or_introl Hfin)) as [Hfn _].
  assert (∀ s', index s' = index s → stack s' = stack s → (∀ v, v ≠ fr_node f → low s' v = low s v) →
          Forall (frame_ok D s') fs) as Hfs'.
  { intros s' Ei Es El. rewrite Forall_forall in Hfs |- *. intros g Hg. apply (frame_ok_lowlink D s); [by apply Hfs|done..|].
    apply El. intros E. apply Hnf. rewrite <- E. by apply frame_node_in. }
  destruct on.
  - assert (w ∈ stack s) as Hws by (by apply Hin). apply safe_lower; [simpl; congruence|].
    set (s' := set_lowlink _ _). exists (f2 :: fs). split; [|split; [exact Hpend|done]].
    assert (low s' (fr_node f) = Z.min (low s (fr_node f)) (idx s w)) as Hlow by (apply (low_set s); by rewrite se_lowlink0).
    apply (searching_frames (f :: fs) _ D s); try done; [cbn; by rewrite length_insert|].
    constructor; [|apply Hfs'; [done..|]; intros v Hv; by apply (low_set_other s)].
    destruct Hf as [d l (y & Hy & Ey & Hr) v e]. split; cbn [f2 fr_node fr_done]; rewrite ?Hlow.
    + done.
    + change (idx s' ?v) with (idx s v). lia.
    + destruct (Z.min_spec (low s (fr_node f)) (idx s w)) as [[_ ->]|[_ ->]]; [by exists y|].
      exists w. split_and!; [done|done|by apply rtc_once].
    + intros x z [Hxz|[_ ->]]%Hfol; [by eapply v|by left].
    + intros x z [Hxz|[_ ->]]%Hfol Hz; change (idx s' ?v) with (idx s v); [|lia]. pose proof (e x z Hxz Hz). lia.
  - apply safe_ret. exists (f2 :: fs). split; [|split; [exact Hpend|done]].
    apply (searching_frames (f :: fs) _ D s); try done. constructor; [|by apply Hfs'].
    apply (frame_ok_lowlink D s); [|done..]. apply (frame_ok_more D s f); [done..|].
    intros x z [Hxz|[_ ->]]%Hfol; [by left|right]. split; [done|]. by intros ?%Hin.
Qed.

(** A frame all of whose arcs were followed. *)
Definition exhausted (f : frame) : Prop := fr_next f = length (adj !!! fr_node f).

Lemma exhausted_followed f x y : exhausted f → x ∈ frame_nodes f → x ⟶ y → followed f x y.
Proof.
  intros He [Hx| ->%list_elem_of_singleton]%elem_of_app Hxy; [by left|]. right. split; [done|].
  destruct Hxy as (l & Hl & Hy). exists l. split; [done|]. rewrite He.
  rewrite (list_lookup_total_correct _ _ _ Hl). by rewrite take_ge.
Qed.

Lemma top_frame_sorted f fs D s x y :
  searching (f :: fs) D s → x ∈ frame_nodes f → y ∈ frames_stack fs → (idx s y < idx s x)%Z.
Proof.
  intros Hs Hx Hy. pose proof (se_sorted _ _ _ Hs) as H. rewrite (se_stack _ _ _ Hs) in H.
  unfold frames_stack in H. simpl in H. by apply (StronglySorted_app_1_elem_of _ _ _ x y H).
Qed.

Lemma top_frame_above f fs D s y :
  searching (f :: fs) D s → y ∈ stack s → (idx s (fr_node f) ≤ idx s y)%Z → y ∈ frame_nodes f.
Proof.
  intros Hs Hy Hle. rewrite (se_stack _ _ _ Hs) in Hy. unfold frames_stack in Hy. simpl in Hy.
  apply elem_of_app in Hy as [Hy|Hy]; [done|]. exfalso.
  assert (fr_node f ∈ frame_nodes f) as Hn by (apply elem_of_app; right; by left).
  pose proof (top_frame_sorted f fs D s _ _ Hs Hn Hy). lia.
Qed.

Lemma rtc_closed (P : nat → Prop) x y : (∀ x y, P x → x ⟶ y → P y) → x ⟶* y → P x → P y.
Proof. intros HP. induction 1; eauto. Qed.

(** The top frame of a root is a component. *)
Lemma root_scc f fs D s :
  searching (f :: fs) D s → exhausted f → low s (fr_node f) = idx s (fr_node f) →
  (∀ x y, x ∈ frame_nodes f → x ⟶ y → y ∈ frame_nodes f ∨ y ∈ concat D) ∧ scc (frame_nodes f).
Proof.
  intros Hs He Hroot. pose proof Hs as []. apply Forall_cons in se_frames0 as [Hf _].
  assert (∀ x y, x ∈ frame_nodes f → x ⟶ y → y ∈ frame_nodes f ∨ y ∈ concat D) as Hclosed.
  { intros x y Hx Hxy. pose proof (exhausted_followed f x y He Hx Hxy) as Hfol.
    destruct (fo_visited _ _ _ Hf x y Hfol) as [Hy|Hy]; [left|by right].
    pose proof (fo_edges _ _ _ Hf x y Hfol Hy). apply (top_frame_above f fs D s); [done|done|lia]. }
  split; [done|]. split; [by intros [_ ?]%app_eq_nil|]. intros x y Hx.
  assert (∀ z, z ∈ frame_nodes f → fr_node f ⟶* z ∧ z ⟶* fr_node f) as Hconn.
  { intros z [Hz| ->%list_elem_of_singleton]%elem_of_app; [by apply Hf|done]. }
  split.
  - intros Hy. destruct (Hconn x Hx), (Hconn y Hy). split; by trans (fr_node f).
  - intros [Hxy Hyx].
    assert (y ∈ frame_nodes f ∨ y ∈ concat D) as [?|HyD]; [|done|].
    { apply (rtc_closed (λ y, y ∈ frame_nodes f ∨ y ∈ concat D) x); [|done|by left].
      intros a b' [Ha|Ha] Hab; [by eapply Hclosed|right; by eapply se_closed0]. }
    exfalso. assert (x ∈ concat D) as HxD by (by apply (rtc_closed (λ y, y ∈ concat D) y)).
    apply NoDup_app in se_nodup0 as (_ & Hd & _). apply (Hd x); [|done].
    rewrite se_stack0. unfold frames_stack. simpl. apply elem_of_app. by left.
Qed.

Lemma stack_perm f fs D :
  frames_stack fs ++ concat (D ++ [frame_nodes f]) ≡ₚ frames_stack (f :: fs) ++ concat D.
Proof.
  unfold frames_stack. simpl. rewrite concat_app. simpl. rewrite app_nil_r.
  rewrite (Permutation_app_comm (concat D)), app_assoc, (Permutation_app_comm (concat (map _ fs))). done.
Qed.

Lemma pop_searching f fs D s on s1 :
  searching (f :: fs) D s → exhausted f → low s (fr_node f) = idx s (fr_node f) →
  length on = length adj →
  (∀ w x, on !! w = Some x → (w ∈ frame_nodes f ∧ x = false) ∨ ((w ∉ frame_nodes f) ∧ on_stack s !! w = Some x)) →
  s1 = mkDfs (index_counter s) (index s) (lowlink s) on (frames_stack fs)
         (components s ++ [map (λ w, names !!! w) (frame_nodes f)]) (map frame_work fs) →
  searching fs (D ++ [frame_nodes f]) s1 ∧ stepped (f :: fs) fs D (D ++ [frame_nodes f]) s s1.
Proof.
  intros Hs He Hroot Hl Hon ->. destruct (root_scc f fs D s Hs He Hroot) as [Hclosed Hscc].
  pose proof Hs as []. destruct (frames_nodup f fs D s Hs) as [_ Hdj].
  set (s1 := mkDfs _ _ _ _ _ _ _).
  assert (∀ y, visited (D ++ [frame_nodes f]) s1 y ↔ visited D s y) as Hv.
  { intros y. unfold visited. rewrite <- !elem_of_app. cbn [stack s1]. rewrite se_stack0. by rewrite stack_perm. }
  split; [|split; [|intros v; apply Hv]].
  - split; cbn [s1 work stack components index lowlink on_stack index_counter]; try done.
    + by rewrite se_comps0, map_app.
    + intros w x Hx. destruct (Hon w x Hx) as [[Hw ->]|[Hw Hx']]; [split; [done|by intros ?%Hdj]|].
      rewrite (se_on0 w x Hx'), se_stack0. unfold frames_stack at 1. simpl. rewrite elem_of_app. tauto.
    + rewrite stack_perm. by rewrite <- se_stack0.
    + intros v Hvv. by apply se_bound0, Hv.
    + intros v Hlt Hnv. apply se_unvisited0; [done|]. by rewrite <- Hv.
    + rewrite se_stack0 in se_sorted0. unfold frames_stack in se_sorted0. simpl in se_sorted0.
      by apply StronglySorted_app_1_r in se_sorted0.
    + rewrite se_counter0. f_equal. by rewrite stack_perm, <- se_stack0.
    + destruct fs; [done|]. apply se_chain0.
    + apply Forall_cons in se_frames0 as [_ Hfs]. rewrite Forall_forall in Hfs |- *. intros g Hg.
      apply (frame_ok_ext D _ s _ g (Hfs g Hg)); [done|done| | |].
      * intros y Hy Hle. split; [|done]. cbn. rewrite se_stack0 in Hy. unfold frames_stack in Hy. simpl in Hy.
        apply elem_of_app in Hy as [Hy|Hy]; [|done]. exfalso.
        pose proof (top_frame_sorted f fs D s y (fr_node g) Hs Hy (frame_node_in fs g Hg)). lia.
      * intros y. apply Hv.
      * intros y _ Hy. split; [|done]. rewrite se_stack0. unfold frames_stack. simpl. apply elem_of_app. by right.
    + by apply Forall_cons in se_next0 as [_ ?].
    + intros x y. rewrite concat_app, !elem_of_app. simpl. rewrite app_nil_r. intros [Hx|Hx] Hxy.
      * left. by eapply se_closed0.
      * destruct (Hclosed x y Hx Hxy); tauto.
    + apply Forall_app. by split; [|constructor].
  - intros k Hk. unfold reached in *. cbn [s1 stack]. rewrite stack_perm, <- se_stack0, Hk.
    unfold pending. cbn [sum_list_with]. unfold exhausted in He. unfold weight at 1. rewrite He. lia.
Qed.

(** The top frame of a node that is no root joins the frame below. *)
Lemma join_frames f p fs D s :
  searching (f :: p :: fs) D s → exhausted f → low s (fr_node f) ≠ idx s (fr_node f) →
  let f2 := mkFrame (fr_node p) (fr_next p) (frame_nodes f ++ fr_done p) in
  let s' := set_lowlink (<[fr_node p := Z.min (low s (fr_node p)) (low s (fr_node f))]> (lowlink s))
              (set_work (map frame_work (p :: fs)) s) in
  searching (f2 :: fs) D s' ∧ stepped (f :: p :: fs) (f2 :: fs) D D s s'.
Proof.
  intros Hs He Hne f2 s'. pose proof Hs as [].
  pose proof (top_frame_sorted f (p :: fs) D s) as Hsort.
  apply Forall_cons in se_frames0 as [Hf Hfs]. pose proof Hfs as Hpfs. apply Forall_cons in Hfs as [Hp Hfs].
  destruct se_chain0 as [Hpf Hchain].
  destruct (fo_low_in _ _ _ Hf) as (y & Hy & Ey & Hr).
  assert (fr_node p ∈ stack s) as Hpin by (rewrite se_stack0; apply (frame_node_in (f :: p :: fs)); right; by left).
  destruct (se_bound0 _ (or_introl Hpin)) as [Hpn _].
  assert (low s' (fr_node p) = Z.min (low s (fr_node p)) (low s (fr_node f))) as Hlow
    by (apply (low_set s); by rewrite se_lowlink0).
  assert (fr_node p ∉ frames_stack fs) as Hnp.
  { pose proof se_nodup0 as Hnd. rewrite se_stack0 in Hnd. apply NoDup_app in Hnd as (Hnd & _).
    unfold frames_stack in Hnd. simpl in Hnd. apply NoDup_app in Hnd as (_ & _ & Hnd).
    apply NoDup_app in Hnd as (_ & Hd & _). apply Hd, elem_of_app. right. by left. }
  assert (fr_node f ⟶* fr_node p) as Hback.
  { trans y; [done|]. apply (stack_reach D s p fs); [done..|]. rewrite se_stack0 in Hy. unfold frames_stack in Hy. simpl in Hy.
    apply elem_of_app in Hy as [Hy|Hy]; [|done]. exfalso. pose proof (fo_low_le _ _ _ Hf).
    pose proof se_sorted0 as Hst. rewrite se_stack0 in Hst. unfold frames_stack in Hst. simpl in Hst.
    apply StronglySorted_app_1_l in Hst. unfold frame_nodes in Hst, Hy.
    apply elem_of_app in Hy as [Hy| ->%list_elem_of_singleton]; [|lia].
    assert (fr_node f ∈ [fr_node f]) as Hself by (by left).
    pose proof (StronglySorted_app_1_elem_of _ _ _ _ _ Hst Hy Hself) as Hlt. simpl in Hlt. lia. }
  assert (∀ x z, followed f2 x z → followed p x z ∨ followed f x z) as Hfol.
  { intros x z [[[Hx|Hx]%elem_of_app Hxz]|Hx]; [right; by apply exhausted_followed|left; by left|left; by right]. }
  split; [|split; [|done]].
  - apply (searching_frames (f :: p :: fs) _ D s); try done.
    + cbn. by rewrite length_insert.
    + unfold frames_stack, f2. simpl. unfold frame_nodes. simpl. by rewrite <- !app_assoc.
    + constructor.
      * split; cbn [f2 fr_node fr_done]; rewrite ?Hlow.
        -- assert (∀ x, x ∈ frame_nodes f → fr_node f ⟶* x ∧ x ⟶* fr_node f) as Hconn.
           { intros x [Hx| ->%list_elem_of_singleton]%elem_of_app; [by apply Hf|done]. }
           intros x [Hx|Hx]%elem_of_app; [|by apply Hp]. destruct (Hconn x Hx). split.
           ++ by eapply rtc_l.
           ++ by trans (fr_node f).
        -- change (idx s' ?v) with (idx s v). pose proof (fo_low_le _ _ _ Hp). lia.
        -- destruct (Z.min_spec (low s (fr_node p)) (low s (fr_node f))) as [[_ ->]|[_ ->]]; [by apply Hp|].
           exists y. split_and!; [done|done|by eapply rtc_l].
        -- intros x z [Hxz|Hxz]%Hfol; [by eapply Hp|by eapply Hf].
        -- intros x z Hxz Hz. change (idx s' ?v) with (idx s v).
           destruct (Hfol x z Hxz) as [H|H]; [pose proof (fo_edges _ _ _ Hp x z H Hz)|pose proof (fo_edges _ _ _ Hf x z H Hz)]; lia.
      * rewrite Forall_forall in Hfs |- *. intros g Hg. apply (frame_ok_lowlink D s); [by apply Hfs|done..|].
        apply (low_set_other s). intros E. apply Hnp. rewrite <- E. by apply frame_node_in.
    + apply Forall_cons in se_next0 as [_ Hn]. apply Forall_cons in Hn as [? ?]. by constructor.
  - intros k Hk. unfold reached in *. cbn [stack s' set_lowlink set_work]. rewrite Hk.
    unfold pending. cbn [sum_list_with f2 fr_node fr_next]. unfold exhausted in He. unfold weight at 1. rewrite He. lia.
Qed.

Lemma finish_ok f fs D s :
  searching (f :: fs) D s → exhausted f →
  safe stopped (finish stopped names (fr_node f) (map frame_work fs) s)
    (λ s', ∃ fs' D', searching fs' D' s' ∧ stepped (f :: fs) fs' D D' s s').
Proof using Hnames.
  intros Hs He. pose proof Hs as [].
  assert (∀ g, g ∈ f :: fs → fr_node g < length adj) as Hbound.
  { intros g Hg. assert (fr_node g ∈ stack s) as Hin by (rewrite se_stack0; by apply frame_node_in).
    by destruct (se_bound0 _ (or_introl Hin)). }
  assert (fr_node f < length adj) as Hfn by (apply Hbound; by left).
  unfold finish. apply (safe_vget _ _ _ (low s (fr_node f))); [apply lookup_low; by rewrite se_lowlink0|].
  apply (safe_vget _ _ _ (idx s (fr_node f))); [apply lookup_idx; by rewrite se_index0|].
  destruct (Z.eqb_spec (low s (fr_node f)) (idx s (fr_node f))) as [Hroot|Hroot].
  - assert (stack s = fr_done f ++ fr_node f :: frames_stack fs) as Est.
    { rewrite se_stack0. unfold frames_stack. simpl. unfold frame_nodes at 1. by rewrite <- app_assoc. }
    eapply safe_bind with (P := λ s1, ∃ D', searching fs D' (set_work (map frame_work fs) s1)
        ∧ stepped (f :: fs) fs D D' s (set_work (map frame_work fs) s1)
        ∧ lowlink s1 = lowlink s ∧ index s1 = index s).
    { rewrite Est. eapply safe_bind; [apply pop_component_ok|].
      - pose proof se_nodup0 as Hnd. rewrite Est in Hnd. apply NoDup_app in Hnd as (Hnd & _).
        apply NoDup_app in Hnd as (_ & Hd & _). intros Hin. apply (Hd _ Hin). by left.
      - done.
      - apply Forall_forall. intros w Hw. assert (w ∈ stack s) as Hin.
        { rewrite Est. change (fr_node f :: frames_stack fs) with ([fr_node f] ++ frames_stack fs).
          rewrite app_assoc. apply elem_of_app. by left. }
        by destruct (se_bound0 w (or_introl Hin)).
      - intros [[c st'] on'] (-> & -> & Hl & Hon). apply safe_ret. exists (D ++ [frame_nodes f]).
        edestruct (pop_searching f fs D s on') as [H1 H2]; [done..|]. split_and!; [exact H1|exact H2|done|done]. }
    intros s1 (D' & Hs1 & Hst & El & Ei).
    destruct fs as [|p fs]; [apply safe_ret; by exists [], D'|]. cbn [map frame_work].
    change (lowlink (set_work _ s1)) with (lowlink s1).
    apply (safe_vget _ _ _ (low s (fr_node f))); [rewrite El; apply lookup_low; by rewrite se_lowlink0|].
    assert (fr_node p < length adj) as Hpn by (apply Hbound; right; by left).
    apply safe_lower; [cbn; rewrite El; congruence|]. exists (p :: fs), D'.
    match goal with |- searching _ _ ?s' ∧ _ => set (s2 := s') end.
    assert (∀ v, low s2 v = low (set_work (map frame_work (p :: fs)) s1) v) as Hlow.
    { intros v. destruct (decide (v = fr_node p)) as [->|Hv]; [|by apply low_set_other].
      unfold s2. rewrite low_set by (cbn; rewrite El; congruence).
      pose proof Hs1 as Hs1'. apply se_frames, Forall_cons in Hs1' as [Hp _]. apply fo_low_le in Hp.
      apply Z.min_l. rewrite Hroot. etrans; [exact Hp|].
      assert (idx (set_work (map frame_work (p :: fs)) s1) (fr_node p) = idx s (fr_node p)) as ->
        by (unfold idx; cbn; by rewrite Ei).
      apply Z.lt_le_incl. apply (top_frame_sorted f (p :: fs) D s); [done| |apply frame_node_in; by left].
      apply elem_of_app. right. by left. }
    split; [|exact Hst]. pose proof Hs1 as [].
    apply (searching_frames (p :: fs) _ D' (set_work (map frame_work (p :: fs)) s1)); try done.
    + cbn. by rewrite length_insert.
    + rewrite Forall_forall in se_frames1 |- *. intros g Hg.
      by apply (frame_ok_lowlink D' (set_work (map frame_work (p :: fs)) s1)); [apply se_frames1|..].
  - apply safe_ret_bind. destruct fs as [|p fs].
    + exfalso. apply Forall_cons in se_frames0 as [Hf _]. destruct (fo_low_in _ _ _ Hf) as (y & Hy & Ey & _).
      pose proof (fo_low_le _ _ _ Hf). rewrite se_stack0 in Hy, se_sorted0. unfold frames_stack in Hy, se_sorted0.
      simpl in Hy, se_sorted0. rewrite app_nil_r in Hy, se_sorted0. unfold frame_nodes in Hy, se_sorted0.
      apply elem_of_app in Hy as [Hy| ->%list_elem_of_singleton]; [|lia].
      assert (fr_node f ∈ [fr_node f]) as Hself by (by left).
      pose proof (StronglySorted_app_1_elem_of _ _ _ _ _ se_sorted0 Hy Hself) as Hlt. simpl in Hlt. lia.
    + cbn [map frame_work]. change (lowlink (set_work _ s)) with (lowlink s).
      apply (safe_vget _ _ _ (low s (fr_node f))); [apply lookup_low; by rewrite se_lowlink0|].
      assert (fr_node p < length adj) as Hpn by (apply Hbound; right; by left).
      apply safe_lower; [cbn; congruence|]. edestruct (join_frames f p fs D s) as [H1 H2]; [done..|].
      eexists _, D. split; [exact H1|exact H2].
Qed.

(** ** The loops *)

Definition total_weight : nat := sum_list_with (λ l, S (length l)) adj.

Lemma total_weight_seq : sum_list_with weight (seq 0 (length adj)) = total_weight.
Proof.
  unfold total_weight, weight. clear Hnames Harc. induction adj as [|l ls IH] using rev_ind; [done|].
  rewrite length_app. simpl. rewrite Nat.add_1_r, seq_S, !sum_list_with_app. simpl.
  rewrite lookup_total_app_r, Nat.sub_diag by done. simpl. rewrite Nat.add_0_r. f_equal. rewrite <- IH.
  clear IH. assert (∀ k, k ≤ length ls →
    sum_list_with (λ v, S (length ((ls ++ [l]) !!! v))) (seq 0 k) = sum_list_with (λ v, S (length (ls !!! v))) (seq 0 k)) as H.
  { induction k as [|k IHk]; intros Hk; [done|]. rewrite seq_S, !sum_list_with_app, IHk by lia. simpl.
    by rewrite lookup_total_app_l by lia. }
  by rewrite H.
Qed.

Lemma reached_le fs D s : searching fs D s → reached D s ≤ total_weight.
Proof.
  intros []. unfold reached. rewrite <- total_weight_seq.
  assert (stack s ++ concat D ⊆+ seq 0 (length adj)) as Hsub.
  { apply NoDup_submseteq; [done|]. intros v Hv. apply elem_of_seq. apply elem_of_app in Hv.
    destruct (se_bound0 v Hv). lia. }
  apply submseteq_Permutation in Hsub as [l' Hl]. rewrite Hl.
  rewrite (sum_list_with_app _ (stack s ++ concat D)). lia.
Qed.

(** The numbers given out fit the number of nodes. *)
Lemma index_counter_le fs D s : searching fs D s → (index_counter s ≤ Z.of_nat (length adj))%Z.
Proof.
  intros []. rewrite se_counter0. apply inj_le.
  rewrite <- (length_seq (length adj) 0). apply submseteq_length, NoDup_submseteq; [done|].
  intros v Hv. apply elem_of_seq. apply elem_of_app in Hv. destruct (se_bound0 v Hv). lia.
Qed.

Lemma dfs_loop_ok fuel fs D s k :
  searching fs D s → reached D s = k + pending fs → total_weight < fuel + k →
  safe stopped (dfs_loop stopped names adj fuel s)
    (λ s', ∃ D', searching [] D' s' ∧ ∀ v, visited D s v → visited D' s' v).
Proof using Hnames Harc.
  revert fs D s k. induction fuel as [|fuel IH]; intros fs D s k Hs Hk Hf.
  { pose proof (reached_le fs D s Hs). lia. }
  cbn [dfs_loop]. rewrite (se_work _ _ _ Hs). destruct fs as [|f fs]; cbn [map frame_work].
  { apply safe_ret. by exists D. }
  apply safe_check. pose proof (se_next _ _ _ Hs) as Hn. apply Forall_cons in Hn as [Hn _].
  assert (fr_node f < length adj) as Hfn.
  { assert (fr_node f ∈ stack s) as Hin by (rewrite (se_stack _ _ _ Hs); apply frame_node_in; by left).
    by destruct (se_bound _ _ _ Hs _ (or_introl Hin)). }
  destruct (lookup_lt_is_Some_2 adj (fr_node f) Hfn) as [children Hc].
  pose proof (list_lookup_total_correct _ _ _ Hc) as Hct.
  apply (safe_vget _ _ _ children); [done|].
  apply (safe_bind _ _ _ (λ s', ∃ fs' D', searching fs' D' s' ∧ stepped (f :: fs) fs' D D' s s')).
  - destruct (Nat.ltb_spec (fr_next f) (length children)) as [Hlt|Hge].
    + eapply safe_mono; [by apply visit_child_ok|]. intros s' (fs' & ? & ?). eauto.
    + apply finish_ok; [done|]. unfold exhausted. rewrite Hct in *. lia.
  - intros s' (fs' & D' & Hs' & Hst & Hv). eapply safe_mono; [eapply (IH fs' D' s' (S k)); [done|by apply Hst|lia]|].
    intros s2 (D2 & Hs2 & Hv2). exists D2. split; [done|]. intros v Hvis. by apply Hv2, Hv.
Qed.

Lemma visit_root_ok D s start :
  searching [] D s → start < length adj →
  safe stopped (visit_root stopped names adj (dfs_fuel adj) s start)
    (λ s', ∃ D', searching [] D' s' ∧ (∀ v, visited D s v → visited D' s' v) ∧ visited D' s' start).
Proof using Hnames Harc.
  intros Hs Hlt. pose proof Hs as []. unfold visit_root. apply safe_check.
  apply (safe_vget _ _ _ (idx s start)); [apply lookup_idx; by rewrite se_index0|].
  destruct (Z.eqb_spec (idx s start) UNVISITED) as [Hun|Hvis]; simpl.
  - assert (¬ visited D s start) as Hnv by (intros Hv; destruct (se_bound0 start Hv); unfold UNVISITED in Hun; lia).
    eapply safe_bind; [apply (discover_ok [] [] D s start); try done|]. intros s1 [Hs1 Est].
    eapply safe_mono; [apply (dfs_loop_ok (dfs_fuel adj) _ D s1 (reached D s) Hs1)|].
    + unfold reached. rewrite Est. unfold pending. cbn [app sum_list_with fr_node fr_next]. lia.
    + unfold dfs_fuel. fold total_weight. lia.
    + intros s2 (D2 & Hs2 & Hv). exists D2. split_and!; [done| |].
      * intros v Hvv. apply Hv. unfold visited. rewrite Est, elem_of_cons. unfold visited in Hvv. tauto.
      * apply Hv. unfold visited. rewrite Est. left. by left.
  - apply safe_ret. exists D. split_and!; [done..|].
    destruct (decide (start ∈ stack s)) as [?|?]; [by left|]. destruct (decide (start ∈ concat D)) as [?|?]; [by right|].
    destruct Hvis. apply se_unvisited0; [done|]. by intros [].
Qed.

Lemma dfs_start_ok : searching [] [] (dfs_start (length adj)).
Proof.
  split; cbn; rewrite ?length_replicate; try done.
  - intros v b [-> _]%lookup_replicate. split; [done|by intros ?%not_elem_of_nil].
  - constructor.
  - by intros v [[]%not_elem_of_nil|[]%not_elem_of_nil].
  - intros v Hv _. unfold idx. cbn. by rewrite lookup_total_replicate_2.
  - constructor.
  - by intros x y ?%not_elem_of_nil.
Qed.

Lemma all_roots_ok :
  safe stopped (for_each (visit_root stopped names adj (dfs_fuel adj)) (seq 0 (length adj)) (dfs_start (length adj)))
    (λ s, ∃ D, components s = map (map (λ w, names !!! w)) D ∧ NoDup (concat D)
      ∧ (∀ v, v ∈ concat D ↔ v < length adj) ∧ Forall scc D).
Proof using Hnames Harc.
  eapply safe_mono; [eapply (safe_for_each _ _ (λ seen s, ∃ D, searching [] D s ∧ ∀ v, v ∈ seen → visited D s v))|].
  - intros seen start rest s El (D & Hs & Hseen).
    eapply safe_mono; [apply (visit_root_ok D s start Hs)|].
    + assert (start ∈ seq 0 (length adj)) as Hin by (rewrite El; apply elem_of_app; right; by left).
      apply elem_of_seq in Hin. lia.
    + intros s' (D' & Hs' & Hv & Hst). exists D'. split; [done|].
      intros v [Hv'| ->%list_elem_of_singleton]%elem_of_app; [by apply Hv, Hseen|done].
  - exists []. split; [apply dfs_start_ok|by intros v ?%not_elem_of_nil].
  - intros s (D & Hs & Hseen). pose proof Hs as []. exists D.
    assert (∀ v, visited D s v ↔ v ∈ concat D) as Hvis.
    { intros v. unfold visited. rewrite se_stack0. simpl. split; [by intros [[]%not_elem_of_nil|?]|by right]. }
    split_and!; [done| | |done].
    + by apply NoDup_app in se_nodup0 as (_ & _ & ?).
    + intros v. split.
      * intros Hv. apply Hvis in Hv. by destruct (se_bound0 v Hv).
      * intros Hv. apply Hvis, Hseen, elem_of_seq. lia.
Qed.
End dfs.

(** ** The result *)

Definition imports (edges : list (bytes * bytes)) (a b : bytes) : Prop := (a, b) ∈ edges.

(** [comps] partitions the endpoints into the classes of mutual reachability. *)
Record strongly_connected (edges : list (bytes * bytes)) (comps : list (list bytes)) : Prop := {
  sc_nodup : NoDup (concat comps);
  sc_nodes n : n ∈ concat comps ↔ n ∈ endpoints edges;
  sc_class c x y : c ∈ comps → x ∈ c → (y ∈ c ↔ rtc (imports edges) x y ∧ rtc (imports edges) y x);
  sc_nonempty c : c ∈ comps → c ≠ [];
}.

Section names.
Context (num : Numbering) (edges : list (bytes * bytes)) (adj : list (list nat)).
Context (Hnum : numbering (endpoints edges) num) (Hadj : adjacent num edges adj).

Abbreviation name v := (nodes num !!! v).

Lemma name_lookup v : v < length adj → nodes num !! v = Some (name v).
Proof using Hadj. intros Hv. apply list_lookup_lookup_total_lt. by rewrite <- (ad_length _ _ _ Hadj). Qed.

Lemma name_inj u v : u < length adj → v < length adj → name u = name v → u = v.
Proof using Hnum Hadj.
  intros Hu Hv E. eapply (numbering_inj _ _ u v (name u) Hnum); [by apply name_lookup|]. rewrite E. by apply name_lookup.
Qed.

Lemma arc_imports u w : arc adj u w → imports edges (name u) (name w) ∧ w < length adj.
Proof using Hadj.
  intros (a & b & H & Hu & Hw)%(ad_arc _ _ _ Hadj). unfold imports.
  rewrite (list_lookup_total_correct _ _ _ Hu), (list_lookup_total_correct _ _ _ Hw). split; [done|].
  rewrite (ad_length _ _ _ Hadj). by eapply lookup_lt_Some.
Qed.

Lemma rtc_arc_imports u w : rtc (arc adj) u w → rtc (imports edges) (name u) (name w).
Proof using Hadj. induction 1 as [|x y z Hxy _ IH]; [done|]. eapply rtc_l; [by apply arc_imports|done]. Qed.

Lemma imports_rtc_arc u b :
  u < length adj → rtc (imports edges) (name u) b → ∃ w, w < length adj ∧ name w = b ∧ rtc (arc adj) u w.
Proof using Hnum Hadj.
  intros Hu. remember (name u) as a eqn:Ea. intros Hr. revert u Hu Ea.
  induction Hr as [a|a c b Hac _ IH]; intros u Hu ->; [by exists u|].
  assert (c ∈ nodes num) as Hc by (apply (nu_nodes _ _ Hnum), elem_of_endpoints; exists (name u), c; auto).
  apply list_elem_of_lookup in Hc as [w Hw].
  assert (arc adj u w) as Harc by (apply (ad_arc _ _ _ Hadj); exists (name u), c; auto using name_lookup).
  pose proof (list_lookup_total_correct _ _ _ Hw) as Ew. destruct (arc_imports u w Harc) as [_ Hlt].
  destruct (IH w Hlt (eq_sym Ew)) as (x & Hx & <- & Hr). exists x. split_and!; [done..|]. by eapply rtc_l.
Qed.

Lemma components_named D :
  NoDup (concat D) → (∀ v, v ∈ concat D ↔ v < length adj) → Forall (scc adj) D →
  strongly_connected edges (map (map (λ w, name w)) D).
Proof using Hnum Hadj.
  intros Hnd Hall Hscc.
  assert (concat (map (map (λ w, name w)) D) = map (λ w, name w) (concat D)) as Ec by (symmetry; apply concat_map).
  assert (∀ c, c ∈ D → ∀ v, v ∈ c → v < length adj) as Hlt.
  { intros c Hc v Hv. apply Hall. apply list_elem_of_In, in_concat. exists c. by rewrite <- !list_elem_of_In. }
  split.
  - rewrite Ec. apply (NoDup_fmap_2_strong (λ w, name w)); [|done].
    intros u v Hu%Hall Hv%Hall. by apply name_inj.
  - intros n. rewrite Ec, list_elem_of_fmap, <- (nu_nodes _ _ Hnum). split.
    + intros (v & -> & Hv%Hall). eapply list_elem_of_lookup_2. by apply name_lookup.
    + intros [v Hv]%list_elem_of_lookup. exists v. split; [symmetry; by apply list_lookup_total_correct|].
      apply Hall. rewrite (ad_length _ _ _ Hadj). by eapply lookup_lt_Some.
  - intros c x y (c' & -> & Hc)%list_elem_of_fmap Hx. apply list_elem_of_fmap in Hx as (u & -> & Hu).
    rewrite Forall_forall in Hscc. destruct (Hscc c' Hc) as [_ Hcl]. pose proof (Hlt c' Hc u Hu) as Hun.
    rewrite list_elem_of_fmap. split.
    + intros (v & -> & Hv). apply (Hcl u v Hu) in Hv as [? ?]. split; by apply rtc_arc_imports.
    + intros [Hxy Hyx]. destruct (imports_rtc_arc u y Hun Hxy) as (v & Hv & <- & Huv). exists v. split; [done|].
      apply (Hcl u v Hu). split; [done|]. destruct (imports_rtc_arc v _ Hv Hyx) as (u' & Hu' & E & Hvu).
      by rewrite (name_inj _ _ Hun Hu' (eq_sym E)).
  - intros c (c' & -> & Hc)%list_elem_of_fmap. rewrite Forall_forall in Hscc. destruct (Hscc c' Hc) as [Hne _].
    by destruct c'.
Qed.
End names.

Lemma tarjan_scc_ok stopped edges : safe stopped (tarjan_scc stopped edges) (strongly_connected edges).
Proof.
  unfold tarjan_scc. apply safe_check. eapply safe_bind; [apply number_edges_ok|]. intros num Hnum.
  eapply safe_bind; [by apply adjacency_ok|]. intros adj Hadj.
  rewrite <- (ad_length _ _ _ Hadj). eapply safe_bind.
  - apply (all_roots_ok stopped (nodes num) adj); [by rewrite (ad_length _ _ _ Hadj)|].
    intros u w Hu. by destruct (arc_imports num edges adj Hadj u w Hu).
  - intros s (D & -> & Hnd & Hall & Hscc). apply safe_ret. by apply (components_named num edges adj Hnum Hadj).
Qed.

(** C4. [tarjan_scc] never panics, never loops, and fails only when the work was
    cancelled; the components it returns partition the files of the graph into
    the classes of mutual reachability, each file in exactly one. *)
Theorem tarjan_scc_correct stopped edges t :
  match tarjan_scc stopped edges t with
  | inl e => e = Cancelled ∧ ∃ t', stopped t' = true
  | inr (comps, _) => strongly_connected edges comps
  end.
Proof. apply tarjan_scc_ok. Qed.
