(* ===== verification/Order.v ===== *)
(** * Order: the order of Rust strings and of pairs of them, and sorting

    [String]'s [Ord] compares bytes, and a tuple's compares its components in
    turn; a [BTreeMap] iterates its keys in that order.  [slice::sort_by] is stable. *)
From stdpp Require Import gmap sorting.
From S2P Require Import Prelude.
From Stdlib Require Import Lia NArith.
Local Open Scope codesage_scope.

Fixpoint bytes_leb (a b : bytes) : bool :=
  match a, b with
  | [], _ => true
  | _ :: _, [] => false
  | x :: a', y :: b' => (Byte.to_N x <? Byte.to_N y)%N || (x =? y) && bytes_leb a' b'
  end.

Definition bytes_le (a b : bytes) : Prop := bytes_leb a b = true.

#[export] Instance bytes_le_decision a b : Decision (bytes_le a b) := decide (bytes_leb a b = true).

Lemma to_N_inj x y : Byte.to_N x = Byte.to_N y → x = y.
Proof. intros H. pose proof (Byte.of_to_N x) as Hx. rewrite H, Byte.of_to_N in Hx. congruence. Qed.

Lemma bytes_le_cons x y a b :
  bytes_le (x :: a) (y :: b) ↔ (Byte.to_N x < Byte.to_N y)%N ∨ x = y ∧ bytes_le a b.
Proof. unfold bytes_le. cbn [bytes_leb]. by rewrite orb_true_iff, andb_true_iff, N.ltb_lt, beq_true. Qed.

#[export] Instance bytes_le_total : Total bytes_le.
Proof.
  intros a; induction a as [|x a IH]; intros [|y b]; [by left..|by right|]. rewrite !bytes_le_cons.
  destruct (N.lt_trichotomy (Byte.to_N x) (Byte.to_N y)) as [?|[->%to_N_inj|?]]; [by left; left| |by right; left].
  destruct (IH b); [left|right]; by right.
Qed.

#[export] Instance bytes_le_trans : Transitive bytes_le.
Proof.
  intros a; induction a as [|x a IH]; intros [|y b] [|z c]; try done. rewrite !bytes_le_cons.
  intros [?|[-> Hab]] [?|[-> Hbc]]; [left; lia|by left|by left|right; by eauto].
Qed.

#[export] Instance bytes_le_antisymm : AntiSymm (=) bytes_le.
Proof.
  intros a; induction a as [|x a IH]; intros [|y b]; [done..|]. rewrite !bytes_le_cons.
  intros [?|[-> Hab]] [?|[E Hba]]; subst; try lia. f_equal. by apply IH.
Qed.

Definition pair_le (p q : bytes * bytes) : Prop := p.1 ≠ q.1 ∧ bytes_le p.1 q.1 ∨ p.1 = q.1 ∧ bytes_le p.2 q.2.

#[export] Instance pair_le_decision p q : Decision (pair_le p q).
Proof. unfold pair_le. apply _. Defined.

#[export] Instance pair_le_total : Total pair_le.
Proof.
  intros [a b] [c d]. unfold pair_le; simpl. destruct (decide (a = c)) as [->|Hne].
  - destruct (total bytes_le b d); [left|right]; by right.
  - destruct (total bytes_le a c); [left|right]; by left.
Qed.

#[export] Instance pair_le_trans : Transitive pair_le.
Proof.
  intros [a b] [c d] [e f]. unfold pair_le; simpl. intros [[? ?]|[-> ?]] [[? ?]|[-> ?]].
  - left. split; [|by etrans]. intros ->. by apply (anti_symm bytes_le) in H0.
  - by left.
  - by left.
  - right. split; [done|]. by etrans.
Qed.

#[export] Instance pair_le_antisymm : AntiSymm (=) pair_le.
Proof.
  intros [a b] [c d]. unfold pair_le; simpl. intros [[? ?]|[-> ?]] [[? ?]|[? ?]]; subst; try done.
  - exfalso. by apply H, (anti_symm bytes_le).
  - f_equal. by apply (anti_symm bytes_le).
Qed.



(** The keys of a [BTreeSet] of strings, and the entries of a [BTreeMap] keyed
    by pairs, in iteration order. *)
Definition sorted_keys (s : gset bytes) : list bytes := merge_sort bytes_le (elements s).

Lemma elem_of_sorted_keys s x : x ∈ sorted_keys s ↔ x ∈ s.
Proof. unfold sorted_keys. by rewrite merge_sort_Permutation, elem_of_elements. Qed.

Lemma NoDup_sorted_keys s : NoDup (sorted_keys s).
Proof. unfold sorted_keys. rewrite merge_sort_Permutation. apply NoDup_elements. Qed.

Lemma elem_of_concat {A} (x : A) (ls : list (list A)) : x ∈ concat ls ↔ ∃ l, l ∈ ls ∧ x ∈ l.
Proof. rewrite list_elem_of_In, in_concat. by setoid_rewrite list_elem_of_In. Qed.

(** The unspecified order in which a hash table is walked. *)
Class HashOrder := { hash_order : ∀ {A : Type}, list A → list A }.
Class HashOrderLaws (H : HashOrder) := { hash_order_perm : ∀ A (l : list A), hash_order l ≡ₚ l }.

(** ** [slice::sort_by]

    A stable sort: the earlier of two elements that compare equal stays first.
    On an order that is total the result of any stable sort is the same. *)
Section sort_by.
Context {A : Type} (cmp : A → A → comparison).

Fixpoint insert_by (x : A) (l : list A) : list A :=
  match l with
  | [] => [x]
  | y :: l' => match cmp x y with Gt => y :: insert_by x l' | _ => x :: l end
  end.

Definition sort_by (l : list A) : list A := fold_right insert_by [] l.

Lemma insert_by_perm x l : insert_by x l ≡ₚ x :: l.
Proof.
  induction l as [|y l IH]; cbn; [done|]. destruct (cmp x y); [done..|]. rewrite IH. constructor.
Qed.

Lemma sort_by_perm l : sort_by l ≡ₚ l.
Proof. induction l as [|x l IH]; cbn; [done|]. by rewrite insert_by_perm, IH. Qed.

Lemma sort_by_Forall (P : A → Prop) l : Forall P l → Forall P (sort_by l).
Proof. by rewrite sort_by_perm. Qed.

Lemma length_sort_by l : length (sort_by l) = length l.
Proof. by rewrite sort_by_perm. Qed.

(** On elements where the comparison is a total preorder the result is
    ordered. *)
Context (P : A → Prop) (le : A → A → Prop).
Hypothesis le_cmp : ∀ x y, P x → P y → cmp x y ≠ Gt → le x y.
Hypothesis gt_cmp : ∀ x y, P x → P y → cmp x y = Gt → le y x.
Hypothesis le_trans : ∀ x y z, P x → P y → P z → le x y → le y z → le x z.

Lemma insert_by_sorted x l : P x → Forall P l → StronglySorted le l → StronglySorted le (insert_by x l).
Proof using le_cmp gt_cmp le_trans.
  intros Hx HP Hs. induction Hs as [|y l Hs IH Hf]; cbn; [by repeat constructor|].
  apply Forall_cons in HP as [Hy HP]. destruct (cmp x y) eqn:E.
  1,2: assert (le x y) by (apply le_cmp; [done..|by rewrite E]); constructor; [by constructor|];
    constructor; [done|]; rewrite Forall_forall in HP, Hf |- *; intros z Hz; apply (le_trans x y z); auto.
  constructor; [by apply IH|]. rewrite insert_by_perm. constructor; [by apply gt_cmp|done].
Qed.

Lemma sort_by_sorted l : Forall P l → StronglySorted le (sort_by l).
Proof using le_cmp gt_cmp le_trans.
  induction l as [|x l IH]; cbn; intros HP; [constructor|]. apply Forall_cons in HP as [Hx HP].
  apply insert_by_sorted; [done| |by apply IH]. by apply sort_by_Forall.
Qed.
End sort_by.

(** Sorting commutes with a map that the comparison does not see. *)
Lemma sort_by_map {A B} (f : A → B) (ca : A → A → comparison) (cb : B → B → comparison) l :
  (∀ x y, cb (f x) (f y) = ca x y) → sort_by cb (map f l) = map f (sort_by ca l).
Proof.
  intros H. induction l as [|x l IH]; [done|].
  change (insert_by cb (f x) (sort_by cb (map f l)) = map f (insert_by ca x (sort_by ca l))). rewrite IH. clear IH.
  induction (sort_by ca l) as [|y l' IH]; cbn; [done|]. rewrite H. destruct (ca x y); cbn; [done..|]. by rewrite IH.
Qed.

(** ** Comparisons

    [a.cmp(&b)] of two strings, and [Ordering::then_with]. *)
Definition bytes_cmp (a b : bytes) : comparison :=
  if bytes_leb a b then (if bytes_leb b a then Eq else Lt) else Gt.

Definition then_with (c d : comparison) : comparison := match c with Eq => d | _ => c end.

(** A comparison that is a total preorder. *)
Record ordering {A} (c : A → A → comparison) : Prop := {
  ordering_sym x y : c y x = CompOpp (c x y);
  ordering_trans x y z : c x y ≠ Gt → c y z ≠ Gt → c x z ≠ Gt }.

Lemma ordering_bytes : ordering bytes_cmp.
Proof.
  split.
  - intros x y. unfold bytes_cmp. destruct (bytes_leb x y) eqn:E1, (bytes_leb y x) eqn:E2; try done.
    destruct (total bytes_le x y) as [H|H]; unfold bytes_le in H; congruence.
  - intros x y z. unfold bytes_cmp. destruct (bytes_leb x y) eqn:E1; [intros _|done].
    destruct (bytes_leb y z) eqn:E2; [intros _|done].
    assert (bytes_leb x z = true) as -> by (by eapply (transitivity (R := bytes_le))). by destruct (bytes_leb z x).
Qed.

Lemma bytes_cmp_eq a b : bytes_cmp a b = Eq → a = b.
Proof.
  unfold bytes_cmp. destruct (bytes_leb a b) eqn:E1; [|done]. destruct (bytes_leb b a) eqn:E2; [|done].
  intros _. by apply (anti_symm bytes_le).
Qed.

Lemma ordering_N : ordering N.compare.
Proof. split; [intros; apply N.compare_antisym|]. intros x y z. rewrite !N.compare_le_iff. lia. Qed.

Lemma ordering_on {A B} (f : A → B) c : ordering c → ordering (λ x y, c (f x) (f y)).
Proof. intros [Hs Ht]. split; [intros; apply Hs|intros x y z; apply Ht]. Qed.

Lemma ordering_then {A} (c d : A → A → comparison) :
  ordering c → ordering d → ordering (λ x y, then_with (c x y) (d x y)).
Proof.
  intros [Sc Tc] [Sd Td]. split.
  - intros x y. rewrite (Sc x y). destruct (c x y); cbn; [apply Sd|done|done].
  - intros x y z. pose proof (Tc x y z) as T1. pose proof (Tc z x y) as T2. pose proof (Tc y z x) as T3.
    rewrite (Sc x z) in T2, T3. rewrite (Sc y z) in T2. rewrite (Sc x y) in T3. specialize (Td x y z).
    destruct (c x y), (c y z), (c x z); cbn in *; intros; try done; try (by apply Td);
      try (exfalso; by apply T1); try (exfalso; by apply T2); exfalso; by apply T3.
Qed.

Section ordered.
Context {A : Type} (cmp : A → A → comparison) (Hc : ordering cmp).

Lemma sort_by_ordered l : StronglySorted (λ x y, cmp x y ≠ Gt) (sort_by cmp l).
Proof using Hc.
  apply (sort_by_sorted _ (λ _, True)); [done| | |by apply Forall_true].
  - intros x y _ _ E. rewrite (ordering_sym _ Hc x y), E. done.
  - intros x y z _ _ _. apply (ordering_trans _ Hc).
Qed.

(** Whatever order the elements come in, the sorted list is the same. *)
Lemma sort_by_unique l l' :
  (∀ x y, x ∈ l → y ∈ l → cmp x y = Eq → x = y) → l ≡ₚ l' → sort_by cmp l = sort_by cmp l'.
Proof using Hc.
  intros Hinj Hp. apply (StronglySorted_unique_strong (λ x y, cmp x y ≠ Gt)).
  - intros x y Hx Hy H1 H2. rewrite sort_by_perm in Hx, Hy. rewrite <- Hp in Hy. apply Hinj; [done..|].
    rewrite (ordering_sym _ Hc x y) in H2. by destruct (cmp x y).
  - apply sort_by_ordered.
  - apply sort_by_ordered.
  - by rewrite !sort_by_perm.
Qed.
End ordered.
