(* ===== verification/ImportPaths.v ===== *)
(** * ImportPaths: the files an import directive may name

    Models the path half of [src/crates/graph/src/bundle.rs]: relative
    JavaScript/TypeScript specifiers, C/C++ quoted includes and Rust [use]
    paths against Cargo's conventional layout, with [module_candidates] and
    [is_python_path] of [src/crates/protocol/src/python.rs] for Python.  A path
    is its bytes; [is_alphanumeric] stands for [char::is_alphanumeric] on the
    encoded character, Unicode's table. *)
From S2P Require Import Prelude Text Detect Handle.
From Stdlib Require Import Lia ZArith.
Local Open Scope codesage_scope.

(** The directory part of [path.rsplit_once('/').map_or("", |(dir, _)| dir)]. *)
Definition base_dir (path : bytes) : bytes :=
  match rsplit_once "/" path with Some (d, _) => d | None => [] end.

Definition is_python_path (path : bytes) : bool := ends_with (bs ".py") path || ends_with (bs ".pyi") path.

(** ** [lexical_join] *)

Definition join_segment (parts : option (list bytes)) (seg : bytes) : option (list bytes) :=
  parts ← parts;
  if bytes_eqb seg [] || bytes_eqb seg (bs ".") then Some parts
  else if bytes_eqb seg (bs "..") then pop_last parts
  else Some (parts ++ [seg]).

Definition lexical_join (base spec : bytes) : option bytes :=
  let parts := if bytes_eqb base [] then [] else split_on "/" base in
  join_with "/" <$> foldl join_segment (Some parts) (split_on "/" spec).

(** ** The importer's dialect *)

Inductive ImporterDialect := DJavaScript | DTypeScript | DCFamily | DOther.

#[export] Instance importer_dialect_eq_decision : EqDecision ImporterDialect.
Proof. solve_decision. Defined.

Definition importer_dialect (importer_file : bytes) : ImporterDialect :=
  match detect_language importer_file with
  | Some JavaScript => DJavaScript
  | Some TypeScript => DTypeScript
  | Some C | Some Cpp => DCFamily
  | _ => DOther
  end.

Definition TS_EXTENSION_ORDER : list bytes :=
  map bs ["ts"; "tsx"; "d.ts"; "js"; "jsx"; "mts"; "cts"; "mjs"; "cjs"]%string.

Definition JS_EXTENSION_ORDER : list bytes :=
  map bs ["js"; "jsx"; "mjs"; "cjs"; "ts"; "tsx"; "d.ts"; "mts"; "cts"]%string.

Definition emitted_extension_sources (ext : bytes) : list bytes :=
  if bytes_eqb ext (bs "js") then map bs ["ts"; "tsx"; "d.ts"]%string
  else if bytes_eqb ext (bs "jsx") then map bs ["tsx"]%string
  else if bytes_eqb ext (bs "mjs") then map bs ["mts"]%string
  else if bytes_eqb ext (bs "cjs") then map bs ["cts"]%string
  else [].

Definition is_complete_module_extension (ext : bytes) : bool :=
  contains_word (map bs ["js"; "jsx"; "mjs"; "cjs"; "ts"; "tsx"; "mts"; "cts"; "json"]%string) ext.

(** [resolved] split at the last dot of its last segment. *)
Definition last_dot (resolved : bytes) : option (bytes * bytes) :=
  let segment_start := match rfind_sub (bs "/") resolved with Some i => S i | None => 0 end in
  dot ← rfind_sub (bs ".") (drop segment_start resolved);
  Some (take (segment_start + dot) resolved, drop (S (segment_start + dot)) resolved).

Definition appended (resolved : bytes) (order : list bytes) : list bytes :=
  [resolved] ++ map (λ ext, resolved ++ bs "." ++ ext) order
  ++ map (λ ext, resolved ++ bs "/index." ++ ext) order.

Definition module_file_candidates (resolved : bytes) (dialect : ImporterDialect) (order : list bytes) : list bytes :=
  match last_dot resolved with
  | Some (stem, ext) =>
      if is_complete_module_extension ext then
        let sources := map (λ source, stem ++ bs "." ++ source) (emitted_extension_sources ext) in
        if decide (dialect = DTypeScript) then sources ++ [resolved] else [resolved] ++ sources
      else appended resolved order
  | None => appended resolved order
  end.

Definition relative_file_candidates (resolved : bytes) (dialect : ImporterDialect) : list bytes :=
  match dialect with
  | DTypeScript => module_file_candidates resolved dialect TS_EXTENSION_ORDER
  | DJavaScript => module_file_candidates resolved dialect JS_EXTENSION_ORDER
  | DCFamily | DOther => [resolved]
  end.

Definition relative_file_matches (resolved sym_file : bytes) (dialect : ImporterDialect) : bool :=
  existsb (λ candidate, bytes_eqb candidate sym_file) (relative_file_candidates resolved dialect).

Definition is_relative (spec : bytes) : bool := starts_with (bs "./") spec || starts_with (bs "../") spec.

Definition quoted_include_candidates (import_ref importer_file : bytes) : list bytes :=
  let applies := negb (starts_with (bs "<") import_ref) && (has_byte "/" import_ref || has_byte "." import_ref) in
  if applies then option_list (lexical_join (base_dir importer_file) import_ref) ++ [import_ref] else [].

Definition path_import_candidates (import_ref importer_file : bytes) : list bytes :=
  let dialect := importer_dialect importer_file in
  let relative_candidates :=
    match lexical_join (base_dir importer_file) import_ref with
    | Some resolved => relative_file_candidates resolved dialect
    | None => []
    end in
  match dialect with
  | DJavaScript | DTypeScript => if is_relative import_ref then relative_candidates else []
  | DCFamily =>
      if is_relative import_ref then relative_candidates
      else if negb (contains (bs "::") import_ref) then quoted_include_candidates import_ref importer_file
      else []
  | DOther => []
  end.

(** ** Cargo's conventional layout *)

(** Where directory [marker] last starts in [file]. *)
Definition marker_start (marker file : bytes) : option nat :=
  match rfind_sub (bs "/" ++ marker) file with
  | Some i => Some (S i)
  | None => if starts_with marker file then Some 0 else None
  end.

Definition TARGET_MARKERS : list bytes := map bs ["src/bin/"; "tests/"; "benches/"; "examples/"]%string.

Fixpoint target_layout (markers : list bytes) (file : bytes) : option (bytes * bool) :=
  match markers with
  | [] => None
  | marker :: markers =>
      match marker_start marker file with
      | Some start =>
          let e := start + length marker in
          Some (match find_byte "/" (drop e file) with
                | Some subdir =>
                    let root_end := e + subdir + 1 in
                    (take root_end file, bytes_eqb (drop root_end file) (bs "main.rs"))
                | None => (take e file, true)
                end)
      | None => target_layout markers file
      end
  end.

Definition rust_crate_layout (file : bytes) : option (bytes * bool) :=
  match marker_start (bs "src/") file with
  | Some start =>
      if negb (starts_with (bs "src/bin/") (drop start file)) then
        let root_end := start + length (bs "src/") in
        Some (take root_end file, contains_word [bs "lib.rs"; bs "main.rs"] (drop root_end file))
      else target_layout TARGET_MARKERS file
  | None => target_layout TARGET_MARKERS file
  end.

Definition is_root (file : bytes) : bool :=
  match rust_crate_layout file with Some (_, root) => root | None => false end.

Definition rust_module_subtree (def_file : bytes) : option bytes :=
  let '(d, name) := match rsplit_once "/" def_file with Some p => p | None => ([], def_file) end in
  stem ← strip_suffix (bs ".rs") name;
  let dir_prefix := if bytes_eqb d [] then [] else d ++ bs "/" in
  if contains_word (map bs ["mod"; "lib"; "main"]%string) stem || is_root def_file
  then Some dir_prefix
  else Some (dir_prefix ++ stem ++ bs "/").

Definition rust_shared_target_module (container nested : bytes) : bool :=
  existsb (λ marker, bytes_eqb container marker || ends_with (bs "/" ++ marker) container) TARGET_MARKERS
  && starts_with container nested.

Definition is_root_sibling_target (caller_file : bytes) : bool :=
  bytes_eqb caller_file (bs "build.rs")
  || existsb (λ d, starts_with d caller_file) (map bs ["tests/"; "benches/"; "examples/"]%string).

(** ** Visibility *)

(** The arm for [Visibility::Crate]. *)
Definition same_target (sym_file caller_file : bytes) : bool :=
  match fst <$> rust_crate_layout caller_file, fst <$> rust_crate_layout sym_file with
  | Some a, Some b => bytes_eqb a b || rust_shared_target_module a b || rust_shared_target_module b a
  | None, Some def_root =>
      let package_dir := match strip_suffix (bs "src/") def_root with Some d => d | None => def_root end in
      if bytes_eqb package_dir [] then negb (is_root_sibling_target caller_file)
      else negb (starts_with package_dir caller_file)
  | _, None => true
  end.

Definition visibility_admits (sym_file : bytes) (visibility : option Visibility) (caller_file : bytes) : bool :=
  if bytes_eqb sym_file caller_file then true
  else match visibility with
       | None | Some Public | Some Private | Some Protected => true
       | Some FileVisible => false
       | Some ModuleVisible =>
           match rust_module_subtree sym_file with Some prefix => starts_with prefix caller_file | None => false end
       | Some Crate => same_target sym_file caller_file
       end.

(** ** Rust module paths *)

(** [path.rs] and [path/mod.rs]. *)
Definition module_files (path : bytes) : list bytes := [path ++ bs ".rs"; path ++ bs "/mod.rs"].

Definition anchored (module : bytes) : bool :=
  existsb (λ root, bytes_eqb module root || starts_with (root ++ bs "::") module)
    (map bs ["crate"; "self"; "super"]%string).

(** [while module_parts.peek() == Some("super")]. *)
Fixpoint climb (module_parts parts : list bytes) : option (list bytes * list bytes) :=
  match module_parts with
  | seg :: rest =>
      if bytes_eqb seg (bs "super") then parts ← pop_last parts; climb rest parts
      else Some (module_parts, parts)
  | [] => Some ([], parts)
  end.

(** The module path of [importer_file] below its crate root. *)
Definition importer_parts (root importer_file : bytes) (root_file : bool) : list bytes :=
  let parts := split_on "/" (trim_end_matches (bs ".rs") (drop (length root) importer_file)) in
  if root_file then []
  else match last parts with
       | Some l => if contains_word (map bs ["lib"; "main"; "mod"]%string) l then removelast parts else parts
       | None => parts
       end.

Definition resolved_parts (root importer_file : bytes) (root_file : bool) (module_parts parts : list bytes) : list bytes :=
  let parts := parts ++ module_parts in
  match parts with
  | [] => if root_file then [importer_file] else [root ++ bs "lib.rs"; root ++ bs "main.rs"]
  | _ => module_files (root ++ join_with "/" parts)
  end.

(** [rust_module_candidates] ([glob = false]) and [rust_glob_module_candidates]
    ([glob = true]) call each other; [fuel] bounds the depth. *)
Fixpoint module_candidates_loop (fuel : nat) (glob : bool) (module importer_file : bytes) : option (list bytes) :=
  match fuel with
  | 0 => None
  | S fuel =>
      if glob then
        let '(root, root_file) := match rust_crate_layout importer_file with Some l => l | None => ([], false) end in
        let parts := importer_parts root importer_file root_file in
        let resolve := resolved_parts root importer_file root_file in
        match split_sub (bs "::") module with
        | seg :: rest =>
            if bytes_eqb seg (bs "crate") then Some (resolve rest [])
            else if bytes_eqb seg (bs "self") then Some (resolve rest parts)
            else if bytes_eqb seg (bs "super") then
              match climb (seg :: rest) parts with
              | Some (module_parts, parts) => Some (resolve module_parts parts)
              | None => Some []
              end
            else module_candidates_loop fuel false module importer_file
        | [] => module_candidates_loop fuel false module importer_file
        end
      else if anchored module then module_candidates_loop fuel true module importer_file
      else
        let module := match strip_prefix (bs "crate::") module with Some m => m | None => module end in
        if bytes_eqb module [] || bytes_eqb module (bs "crate") then Some []
        else
          let module_path := replace_sub (bs "::") (bs "/") module in
          match rust_crate_layout importer_file with
          | Some (src_root, _) => Some (module_files (src_root ++ module_path))
          | None => Some (module_files module_path ++ module_files (bs "src/" ++ module_path))
          end
  end.

(** Neither function calls the other twice. *)
Definition CANDIDATE_DEPTH : nat := 2.

Definition rust_module_candidates (module importer_file : bytes) : list bytes :=
  default [] (module_candidates_loop CANDIDATE_DEPTH false module importer_file).

Definition rust_glob_module_candidates (module importer_file : bytes) : list bytes :=
  default [] (module_candidates_loop CANDIDATE_DEPTH true module importer_file).

Definition import_path_targets_file (spec caller_file sym_file : bytes) : bool :=
  if ends_with (bs ".rs") caller_file && starts_with (bs "./") spec then
    match rust_module_subtree caller_file with
    | Some base =>
        match lexical_join (trim_end_matches (bs "/") base) spec with
        | Some path => bytes_eqb sym_file (path ++ bs ".rs") || bytes_eqb sym_file (path ++ bs "/mod.rs")
        | None => false
        end
    | None => false
    end
  else if is_relative spec then
    match lexical_join (base_dir caller_file) spec with
    | Some resolved => relative_file_matches resolved sym_file (importer_dialect caller_file)
    | None => false
    end
  else
    match importer_dialect caller_file with
    | DJavaScript | DTypeScript => false
    | _ => bytes_eqb spec sym_file || ends_with (bs "/" ++ spec) sym_file
    end.

(** ** Python modules, and the file predicate *)

Section python.
Context (is_alphanumeric : bytes → bool).

Definition python_name (name : bytes) : bool :=
  forallb (λ part, negb (bytes_eqb part []) && forallb (λ c, is_alphanumeric c || bytes_eqb c (bs "_")) (chars part))
    (split_on "." name).

Definition strip_star (module : bytes) : bytes :=
  match strip_suffix (bs "*") module with
  | Some prefix =>
      if forallb (λ b, b =? ".") prefix then prefix
      else match strip_suffix (bs ".") prefix with Some p => p | None => prefix end
  | None => module
  end.

Fixpoint leading_dots (module : bytes) : nat :=
  match module with b :: module' => if b =? "." then S (leading_dots module') else 0 | [] => 0 end.

(** [for _ in 1..dots { if parts.pop().is_none() { return } }]. *)
Fixpoint pop_n (n : nat) (parts : list bytes) : option (list bytes) :=
  match n with 0 => Some parts | S n => pop_last parts ≫= pop_n n end.

Definition nonempty (segs : list bytes) : list bytes := List.filter (λ p, negb (bytes_eqb p [])) segs.

Definition python_module_candidates (module from : bytes) : list bytes :=
  let module := strip_star module in
  let dots := leading_dots module in
  let name := drop dots module in
  if negb (bytes_eqb name []) && negb (python_name name) then []
  else
    let parts := if Nat.eqb dots 0 then [] else nonempty (split_on "/" (base_dir from)) in
    match pop_n (dots - 1) parts with
    | None => []
    | Some parts =>
        let path := join_with "/" (parts ++ nonempty (split_on "." name)) in
        (if bytes_eqb path [] then [bs "__init__.py"] else [path ++ bs "/__init__.py"; path ++ bs ".py"])
        ++ (if Nat.eqb dots 0 then [bs "src/" ++ path ++ bs "/__init__.py"; bs "src/" ++ path ++ bs ".py"] else [])
    end.

Definition among (target_file : bytes) (candidates : list bytes) : bool :=
  existsb (λ candidate, bytes_eqb candidate target_file) candidates.

Definition import_ref_targets_file (import_ref importer_file target_file : bytes) : bool :=
  if is_python_path importer_file && is_python_path target_file then
    among target_file (python_module_candidates import_ref importer_file)
  else if is_relative import_ref then import_path_targets_file import_ref importer_file target_file
  else if contains (bs "::") import_ref then
    match strip_suffix (bs "::*") import_ref with
    | Some module => among target_file (rust_glob_module_candidates module importer_file)
    | None =>
        if among target_file (rust_module_candidates import_ref importer_file) then true
        else match rsplit_once_sub (bs "::") import_ref with
             | Some (module, _) => among target_file (rust_module_candidates module importer_file)
             | None => false
             end
    end
  else
    bool_decide (importer_dialect importer_file = DCFamily)
    && among target_file (quoted_include_candidates import_ref importer_file).
End python.

(** ** Facts of the source's own tests *)

Example visibility_levels :
  map (λ '(v, def, caller), visibility_admits (bs def) (Some v) (bs caller))
    [(FileVisible, "util.c", "main.c"); (ModuleVisible, "src/store.rs", "src/store/cache.rs");
     (ModuleVisible, "src/store.rs", "src/storefront.rs"); (Crate, "crates/a/src/x.rs", "crates/a/src/y/z.rs");
     (Crate, "crates/a/src/x.rs", "crates/a/tests/t.rs"); (Crate, "src/x.rs", "build.rs");
     (Crate, "src/bin/tool/main.rs", "src/bin/other/main.rs")]%string
  = [false; true; false; true; false; false; false].
Proof. reflexivity. Qed.
Example glob_super : rust_glob_module_candidates (bs "super::super") (bs "src/api/nested/client.rs")
  = map bs ["src/api.rs"; "src/api/mod.rs"]%string.
Proof. reflexivity. Qed.
Example glob_crate : rust_module_candidates (bs "crate::api") (bs "src/client.rs") = map bs ["src/api.rs"; "src/api/mod.rs"]%string.
Proof. reflexivity. Qed.
Example tests_self : rust_glob_module_candidates (bs "self::support") (bs "tests/t.rs") = map bs ["tests/support.rs"; "tests/support/mod.rs"]%string.
Proof. reflexivity. Qed.
Example python_parent : python_module_candidates (λ _, true) (bs "..*") (bs "pkg/nested/client.py") = map bs ["pkg/__init__.py"; "pkg.py"]%string.
Proof. reflexivity. Qed.

(** ** The file predicate and the candidate list *)

Lemma among_true t candidates : among t candidates = true ↔ t ∈ candidates.
Proof.
  unfold among. rewrite existsb_exists. setoid_rewrite bytes_eqb_true. setoid_rewrite <- list_elem_of_In. naive_solver.
Qed.

(** A path ending in [.ext] has the language of that extension. *)
Lemma dialect_ends ext path :
  "/"%byte ∉ ext → "."%byte ∉ ext → ext ≠ [] →
  (∀ e, extension path = Some e → e = ext → importer_dialect path = DOther) →
  importer_dialect path ≠ DOther → ends_with (bs "." ++ ext) path = false.
Proof.
  intros Hs Hd Hne He Ho. destruct (ends_with (bs "." ++ ext) path) eqn:E; [|done].
  apply ends_with_true in E as [q ->]. exfalso. apply Ho.
  destruct (extension (q ++ bs "." ++ ext)) as [e|] eqn:Ee.
  - apply (He e); [done|]. by apply extension_app in Ee.
  - unfold importer_dialect, detect_language, detect_language_with_dialect. by rewrite Ee.
Qed.

Ltac other_language ext :=
  apply (dialect_ends (bs ext)); [by apply has_byte_false|by apply has_byte_false|done| |done];
  let He := fresh in intros ? He ->; unfold importer_dialect, detect_language, detect_language_with_dialect;
  rewrite He; reflexivity.

Lemma not_python path : importer_dialect path ≠ DOther → is_python_path path = false.
Proof.
  intros H. unfold is_python_path. rewrite orb_false_iff. split.
  - by other_language "py"%string.
  - by other_language "pyi"%string.
Qed.

Lemma not_rust path : importer_dialect path ≠ DOther → ends_with (bs ".rs") path = false.
Proof. intros H. by other_language "rs"%string. Qed.

(** For a JavaScript, TypeScript, C or C++ importer, a specifier that is
    relative or has no [::] names a file exactly when the file is among the
    specifier's candidates: the dependency listing and the cycle graph, which
    use one each, agree on what an import may name.  Every other importer has
    no path candidate. *)
Theorem candidates_agree is_alphanumeric spec importer t :
  (is_relative spec = true ∨ contains (bs "::") spec = false) →
  if decide (importer_dialect importer = DOther) then path_import_candidates spec importer = []
  else import_ref_targets_file is_alphanumeric spec importer t = true ↔ t ∈ path_import_candidates spec importer.
Proof.
  intros Hspec. destruct (decide _) as [E|Hd]; [unfold path_import_candidates; by rewrite E|].
  unfold import_ref_targets_file, import_path_targets_file, path_import_candidates, relative_file_matches.
  rewrite not_python, not_rust by done. cbn [andb].
  destruct (is_relative spec) eqn:Er.
  - destruct (lexical_join _ _) as [resolved|].
    + destruct (importer_dialect importer); [| | |done]; apply among_true.
    + split; [done|]. by destruct (importer_dialect importer); intros ?%elem_of_nil.
  - destruct Hspec as [|Hc]; [done|]. rewrite Hc. cbn [negb].
    destruct (importer_dialect importer); [| |cbn; apply among_true|done];
      (split; [done|by intros ?%elem_of_nil]).
Qed.

Lemma candidates_agree_witness :
  import_ref_targets_file (λ _, true) (bs "./b.js") (bs "lib/a.ts") (bs "lib/b.ts") = true
  ∧ bs "lib/b.ts" ∈ path_import_candidates (bs "./b.js") (bs "lib/a.ts").
Proof.
  pose proof (candidates_agree (λ _, true) (bs "./b.js") (bs "lib/a.ts") (bs "lib/b.ts")
    (or_introl (eq_refl (is_relative (bs "./b.js"))))) as H.
  change (if decide (importer_dialect (bs "lib/a.ts") = DOther) then _ else ?P) with P in H.
  split; [reflexivity|]. by apply H.
Defined.

(** ** A joined path stays inside the project *)

(** A path component that is neither empty nor a dot directory. *)
Definition normal (seg : bytes) : Prop := seg ≠ [] ∧ seg ≠ bs "." ∧ seg ≠ bs "..".

Definition path_parts (path : bytes) : list bytes := if bytes_eqb path [] then [] else split_on "/" path.

(** How far below its start a walk along [segs] ends. *)
Definition step_level (seg : bytes) : Z :=
  (if bytes_eqb seg [] || bytes_eqb seg (bs ".") then 0 else if bytes_eqb seg (bs "..") then -1 else 1)%Z.

Definition level (segs : list bytes) : Z := foldr (λ seg z, step_level seg + z)%Z 0%Z segs.

Lemma level_app a b : level (a ++ b) = (level a + level b)%Z.
Proof. unfold level. induction a; simpl; lia. Qed.

Lemma level_cons seg segs : level (seg :: segs) = (step_level seg + level segs)%Z.
Proof. done. Qed.

Lemma foldl_join_None segs : foldl join_segment None segs = None.
Proof. by induction segs. Qed.

Lemma join_segment_cases parts seg :
  match join_segment (Some parts) seg with
  | Some parts' => Z.of_nat (length parts') = (Z.of_nat (length parts) + step_level seg)%Z
      ∧ (∀ P : bytes → Prop, Forall P parts → (normal seg → P seg) → Forall P parts')
  | None => seg = bs ".." ∧ parts = []
  end.
Proof.
  unfold join_segment, step_level. cbn [mbind option_bind].
  destruct (bytes_eqb_spec seg []) as [->|Hne]; [split; [simpl; lia|done]|].
  destruct (bytes_eqb_spec seg (bs ".")) as [->|Hd]; [split; [simpl; lia|done]|]. cbn [orb].
  destruct (bytes_eqb_spec seg (bs "..")) as [->|Hu].
  - destruct (pop_last parts) as [w|] eqn:E; [|by apply pop_last_None in E].
    apply pop_last_Some in E as [x ->]. rewrite length_app. split; [simpl; lia|].
    intros P [? _]%Forall_app _. done.
  - rewrite length_app. split; [simpl; lia|]. intros P Hp Hs. apply Forall_app. repeat constructor; [done|].
    by apply Hs.
Qed.

Lemma join_segments_cases segs parts :
  match foldl join_segment (Some parts) segs with
  | Some parts' => Z.of_nat (length parts') = (Z.of_nat (length parts) + level segs)%Z
      ∧ (∀ a b, segs = a ++ b → 0 ≤ Z.of_nat (length parts) + level a)%Z
      ∧ (∀ P : bytes → Prop, Forall P parts → (∀ seg, seg ∈ segs → normal seg → P seg) → Forall P parts')
  | None => ∃ a b, segs = a ++ b ∧ (Z.of_nat (length parts) + level a < 0)%Z
  end.
Proof.
  revert parts; induction segs as [|seg segs IH]; intros parts; cbn [foldl].
  - split; [rewrite ?level_cons; cbn; lia|]. split; [|done]. intros a b E. symmetry in E. apply app_eq_nil in E as [-> ->]. rewrite ?level_cons; cbn; lia.
  - pose proof (join_segment_cases parts seg) as H. destruct (join_segment (Some parts) seg) as [parts1|].
    + destruct H as [Hl HP]. specialize (IH parts1). destruct (foldl _ _ segs) as [parts2|].
      * destruct IH as (Hl2 & Hpre & HP2). split; [rewrite level_cons; lia|]. split.
        { intros [|x a] b E; [rewrite ?level_cons; cbn; lia|]. injection E as <- ->. specialize (Hpre a b eq_refl). rewrite level_cons; lia. }
        intros P Hp Hs. apply HP2; [apply HP; [done|]; intros; apply Hs; [by left|done]|].
        intros; apply Hs; [by right|done].
      * destruct IH as (a & b & -> & Ha). exists (seg :: a), b. split; [done|]. rewrite level_cons; lia.
    + destruct H as [-> ->]. rewrite foldl_join_None. exists [bs ".."], segs. split; [done|]. rewrite ?level_cons; cbn; lia.
Qed.

(** Joining a specifier onto a directory of the project gives no path
    exactly when some prefix of the specifier climbs above the project root;
    otherwise the path has no empty, [.] or [..] component and lies as deep as
    the specifier's steps say, so it never names a file outside the project. *)
Theorem lexical_join_in_project base spec :
  Forall normal (path_parts base) →
  match lexical_join base spec with
  | Some path => Forall normal (path_parts path)
      ∧ Z.of_nat (length (path_parts path)) = (Z.of_nat (length (path_parts base)) + level (split_on "/" spec))%Z
      ∧ ∀ a b, split_on "/" spec = a ++ b → (0 ≤ Z.of_nat (length (path_parts base)) + level a)%Z
  | None => ∃ a b, split_on "/" spec = a ++ b ∧ (Z.of_nat (length (path_parts base)) + level a < 0)%Z
  end.
Proof.
  intros Hb. unfold lexical_join. fold (path_parts base).
  pose proof (join_segments_cases (split_on "/" spec) (path_parts base)) as H.
  destruct (foldl _ _ _) as [parts|]; cbn [fmap option_fmap option_map]; [|done].
  destruct H as (Hl & Hpre & HP).
  assert (Forall (λ seg, normal seg ∧ "/"%byte ∉ seg) parts) as Hparts.
  { apply HP.
    - apply Forall_forall. intros seg Hin. split; [by eapply Forall_forall in Hb|].
      unfold path_parts in Hin. destruct (bytes_eqb base []); [by apply elem_of_nil in Hin|].
      pose proof (split_on_segments "/" base) as Hs. by rewrite Forall_forall in Hs; apply Hs.
    - intros seg Hin Hn. split; [done|]. pose proof (split_on_segments "/" spec) as Hs.
      by rewrite Forall_forall in Hs; apply Hs. }
  apply Forall_and in Hparts as [Hn Hs].
  assert (path_parts (join_with "/" parts) = parts) as ->; [|done].
  unfold path_parts. destruct (bytes_eqb_spec (join_with "/" parts) []) as [E|E].
  - destruct parts as [|seg [|seg2 parts]]; [done| |].
    + simpl in E. subst seg. by apply Forall_cons in Hn as [[? _] _].
    + simpl in E. by apply app_eq_nil in E as [_ ?].
  - apply split_join; [by intros ->|done].
Qed.

Lemma lexical_join_in_project_witness :
  Forall normal (path_parts (bs "lib/sub")) ∧ lexical_join (bs "lib/sub") (bs "../b.js") = Some (bs "lib/b.js")
  ∧ Forall normal (path_parts (bs "lib/b.js")).
Proof.
  assert (Forall normal (path_parts (bs "lib/sub"))) as Hb by (repeat constructor; done).
  pose proof (lexical_join_in_project (bs "lib/sub") (bs "../b.js") Hb) as H.
  split; [done|]. split; [reflexivity|]. apply H.
Defined.

(** ** Rust candidates *)

Lemma split_sub_head pat s : pat ≠ [] →
  ∃ rest, split_sub pat s = (match find_sub pat s with Some n => take n s | None => s end) :: rest.
Proof.
  intros Hp. unfold split_sub. destruct s as [|b s].
  - assert (find_sub pat [] = None) as -> by (by destruct pat). by exists [].
  - cbn [length split_sub_loop]. destruct (find_sub pat (b :: s)); eauto.
Qed.

Lemma anchored_true module :
  anchored module = true ↔ ∃ root rest, root ∈ map bs ["crate"; "self"; "super"]%string
    ∧ (module = root ∧ rest = [] ∨ module = root ++ bs "::" ++ rest).
Proof.
  unfold anchored. rewrite existsb_exists. setoid_rewrite <- list_elem_of_In.
  setoid_rewrite orb_true_iff. setoid_rewrite bytes_eqb_true. setoid_rewrite starts_with_true. split.
  - intros (root & Hin & [-> | [rest ->]]); [exists root, []; by split; [|left]|].
    exists root, rest. split; [done|right]. by rewrite app_assoc.
  - intros (root & rest & Hin & [[-> _] | ->]); exists root; (split; [done|]); [by left|right].
    exists rest. by rewrite app_assoc.
Qed.

(** A module path is anchored when its first segment is [crate], [self] or
    [super]. *)
Lemma anchored_split module :
  ∃ seg rest, split_sub (bs "::") module = seg :: rest
  ∧ (anchored module = true ↔ seg ∈ map bs ["crate"; "self"; "super"]%string).
Proof.
  destruct (split_sub_head (bs "::") module) as [rest ->]; [done|]. eexists _, rest. split; [done|].
  rewrite anchored_true. split.
  - intros (root & r & Hin & Hm).
    assert (match find_sub (bs "::") module with Some n => take n module | None => module end = root) as ->; [|done].
    repeat (apply elem_of_cons in Hin as [->|Hin]); [..|by apply elem_of_nil in Hin];
      destruct Hm as [[-> _]| ->]; reflexivity.
  - intros Hin. destruct (find_sub (bs "::") module) as [n|] eqn:E.
    + apply find_sub_Some in E as [r E]. exists (take n module), r. split; [done|right]. by rewrite <- E, take_drop.
    + exists module, []. split; [done|by left].
Qed.

Definition in_dir (root : bytes) (candidates : list bytes) : Prop := Forall (λ c, root `prefix_of` c) candidates.

Lemma module_files_in_dir root path : in_dir root (module_files (root ++ path)).
Proof. repeat constructor; rewrite <- app_assoc; by apply prefix_app_r. Qed.

Lemma target_layout_prefix markers file root r : target_layout markers file = Some (root, r) → root `prefix_of` file.
Proof.
  induction markers as [|m markers IH]; simpl; [done|]. destruct (marker_start m file); [|done].
  destruct (find_byte _ _); intros [= <- _]; apply prefix_take.
Qed.

Lemma layout_prefix file root r : rust_crate_layout file = Some (root, r) → root `prefix_of` file.
Proof.
  unfold rust_crate_layout. destruct (marker_start _ file); [|apply target_layout_prefix].
  destruct (negb _); [intros [= <- _]; apply prefix_take|apply target_layout_prefix].
Qed.

Section layout.
Context (importer root : bytes) (root_file : bool) (Hlayout : rust_crate_layout importer = Some (root, root_file)).

Lemma resolved_in_dir module_parts parts : in_dir root (resolved_parts root importer root_file module_parts parts).
Proof using Hlayout.
  unfold resolved_parts. destruct (parts ++ module_parts); [|apply module_files_in_dir].
  destruct root_file.
  - repeat constructor. by eapply layout_prefix.
  - repeat constructor; by apply prefix_app_r.
Qed.

Lemma loop_in_dir fuel glob module candidates :
  module_candidates_loop fuel glob module importer = Some candidates → in_dir root candidates.
Proof using Hlayout.
  revert glob; induction fuel as [|fuel IH]; intros glob; cbn [module_candidates_loop]; [done|].
  rewrite Hlayout. destruct glob.
  - destruct (split_sub (bs "::") module) as [|seg rest]; [apply IH|].
    destruct (bytes_eqb seg (bs "crate")); [intros [= <-]; apply resolved_in_dir|].
    destruct (bytes_eqb seg (bs "self")); [intros [= <-]; apply resolved_in_dir|].
    destruct (bytes_eqb seg (bs "super")); [|apply IH].
    destruct (climb _ _) as [[? ?]|]; intros [= <-]; [apply resolved_in_dir|constructor].
  - destruct (anchored module); [apply IH|]. destruct (_ || _); intros [= <-]; [constructor|].
    apply module_files_in_dir.
Qed.
End layout.

(** One call suffices for a glob path that is anchored, or another that is not;
    the others take two. *)
Lemma loop_settles fuel glob module importer :
  ∃ candidates, module_candidates_loop (2 + fuel) glob module importer = Some candidates
    ∧ module_candidates_loop CANDIDATE_DEPTH glob module importer = Some candidates.
Proof.
  destruct (anchored_split module) as (seg & rest & Es & Ha).
  assert (anchored module = bytes_eqb seg (bs "crate") || bytes_eqb seg (bs "self") || bytes_eqb seg (bs "super")) as Eb.
  { apply eq_true_iff_eq. rewrite Ha, !orb_true_iff, !bytes_eqb_true. cbn [map].
    rewrite !elem_of_cons, elem_of_nil. tauto. }
  unfold CANDIDATE_DEPTH. cbn [Nat.add module_candidates_loop]. rewrite Es, Eb. clear Es Eb Ha.
  destruct glob, (bytes_eqb seg (bs "crate")), (bytes_eqb seg (bs "self")), (bytes_eqb seg (bs "super")); cbn [orb];
    destruct (rust_crate_layout importer) as [[root root_file]|];
    repeat match goal with |- context [climb ?a ?b] => destruct (climb a b) as [[? ?]|] end;
    try (eexists; split; reflexivity);
    destruct (_ || _); eexists; split; reflexivity.
Qed.

(** The two mutually recursive resolvers of Rust module paths answer within
    two calls, whatever the path; and for an importer inside a conventional
    Cargo target every candidate lies in that target's directory, so a path in
    a test or a binary never names the library's file of the same module. *)
Theorem rust_candidates_in_target glob module importer :
  ∃ candidates, (∀ fuel, module_candidates_loop (2 + fuel) glob module importer = Some candidates)
    ∧ candidates = (if glob then rust_glob_module_candidates else rust_module_candidates) module importer
    ∧ ∀ root root_file c, rust_crate_layout importer = Some (root, root_file) → c ∈ candidates → root `prefix_of` c.
Proof.
  destruct (loop_settles 0 glob module importer) as (candidates & _ & E). exists candidates. split; [|split].
  - intros fuel. destruct (loop_settles fuel glob module importer) as (c2 & E2 & E3). congruence.
  - unfold rust_glob_module_candidates, rust_module_candidates. destruct glob; by rewrite E.
  - intros root root_file c Hl Hc. pose proof (loop_in_dir importer root root_file Hl _ _ _ _ E) as H.
    unfold in_dir in H. rewrite Forall_forall in H. by apply H.
Qed.
