(* ===== verification/RustModules.v ===== *)
(** * RustModules: the module contexts of indexed Rust files

    Models the state of [src/crates/graph/src/rust_modules.rs]: [from_imports],
    which follows the indexed [mod] declarations breadth first from the crate
    roots, [candidates] with its bounded memo, and the queries over the loaded
    contexts.  A [HashMap] is a [gmap]; the order in which a [HashSet] of
    children is visited is the parameter [child_order].  A [usize] is [N] and
    its saturating operations saturate at [usize::MAX]. *)
From stdpp Require Import gmap relations sorting.
From S2P Require Import Prelude Text Detect Checked Order ImportPaths.
From Stdlib Require Import Lia NArith.
Local Open Scope codesage_scope.

Record Module := mkModule { root_file : bytes; root_dir : bytes; mod_path : list bytes }.

#[export] Instance module_eq_decision : EqDecision Module.
Proof. solve_decision. Defined.

Record CandidateCache := mkCache {
  rows : gmap bytes (gmap bytes (list bytes));
  entries : N;
  cache_bytes : N;
}.

Definition CANDIDATE_CACHE_ENTRIES : N := 16384.
Definition CANDIDATE_CACHE_BYTES : N := 8 * 1024 * 1024.

Definition empty_cache : CandidateCache := mkCache ∅ 0 0.

(** The part of [RustModules] fixed once loaded. *)
Record RustModules := mkRustModules {
  modules : gmap bytes (list Module);
  declared : gset bytes;
  capped : bool;
}.

Definition USIZE_MAX : N := 18446744073709551615.
Definition saturating_add (a b : N) : N := N.min (a + b) USIZE_MAX.
Definition saturating_mul (a b : N) : N := N.min (a * b) USIZE_MAX.

(** [size_of::<String>()] on a 64-bit target. *)
Definition STRING_SIZE : N := 24.

Definition blen (s : bytes) : N := N.of_nat (length s).

(** ** [uncached_candidates] *)

Definition context_candidates (context : Module) (module : bytes) : option (list bytes) :=
  let anchored_at parts segments :=
    let parts := parts ++ segments in
    match parts with
    | [] => Some [root_file context]
    | _ => Some (module_files (root_dir context ++ join_with "/" parts))
    end in
  match split_sub (bs "::") module with
  | seg :: rest =>
      if bytes_eqb seg (bs "crate") then anchored_at [] rest
      else if bytes_eqb seg (bs "self") then anchored_at (mod_path context) rest
      else if bytes_eqb seg (bs "super") then
        match climb (seg :: rest) (mod_path context) with
        | Some (segments, parts) => anchored_at parts segments
        | None => None
        end
      else anchored_at [] (seg :: rest)
  | [] => anchored_at [] []
  end.

(** The candidates every context shares, in the first one's order; a context
    the path climbs out of ends the search with none. *)
Fixpoint common_candidates (contexts : list Module) (module : bytes) (common : option (list bytes)) : list bytes :=
  match contexts with
  | [] => default [] common
  | context :: contexts =>
      match context_candidates context module with
      | None => []
      | Some candidates =>
          common_candidates contexts module
            (Some (match common with
                   | Some common => List.filter (contains_word candidates) common
                   | None => candidates
                   end))
      end
  end.

Definition uncached_candidates (m : RustModules) (file module : bytes) : option (list bytes) :=
  if capped m then Some []
  else match modules m !! file with
       | None => if decide (file ∈ declared m) then Some [] else None
       | Some contexts => Some (common_candidates contexts module None)
       end.

(** ** [candidates]: the memo *)

(** [cache.rows.get(file).and_then(|rows| rows.get(module))]. *)
Definition cached (c : CandidateCache) (file module : bytes) : option (list bytes) :=
  rows c !! file ≫= λ r, r !! module.

Definition row_bytes (c : CandidateCache) (file module : bytes) (candidates : list bytes) : N :=
  let file_bytes := match rows c !! file with Some _ => 0%N | None => blen file end in
  saturating_add
    (saturating_add
       (foldl (λ n candidate, saturating_add n (blen candidate))
          (saturating_mul (N.of_nat (length candidates)) STRING_SIZE) candidates)
       (blen module))
    file_bytes.

(** The second critical section, after the candidates are computed. *)
Definition retain (c : CandidateCache) (file module : bytes) (candidates : list bytes) : CandidateCache :=
  match cached c file module with
  | Some _ => c
  | None =>
      let n := row_bytes c file module candidates in
      if (entries c <? CANDIDATE_CACHE_ENTRIES)%N && (n <=? CANDIDATE_CACHE_BYTES - cache_bytes c)%N
      then mkCache (<[file := <[module := candidates]> (default ∅ (rows c !! file))]> (rows c))
             (entries c + 1) (cache_bytes c + n)
      else c
  end.

(** The first critical section finds a row, or the caller goes on to compute
    the candidates and to [retain] them in the cache it then finds. *)
Definition candidates_hit (c : CandidateCache) (file module : bytes) : option (list bytes) := cached c file module.

Definition candidates_miss (m : RustModules) (c : CandidateCache) (file module : bytes)
    : CandidateCache * option (list bytes) :=
  match uncached_candidates m file module with
  | Some result => (retain c file module result, Some result)
  | None => (c, None)
  end.

Definition candidates (m : RustModules) (c : CandidateCache) (file module : bytes)
    : CandidateCache * option (list bytes) :=
  match candidates_hit c file module with
  | Some result => (c, Some result)
  | None => candidates_miss m c file module
  end.

(** ** Queries *)

Definition roles (m : RustModules) (file : bytes) : option (list Module) :=
  if capped m then None
  else match modules m !! file with Some [] | None => None | Some contexts => Some contexts end.

Definition same_crate (m : RustModules) (left_ right_ : bytes) : option bool :=
  l ← roles m left_; r ← roles m right_;
  Some (existsb (λ a, existsb (λ b, bytes_eqb (root_file a) (root_file b)) r) l).

Fixpoint path_starts_with (path prefix : list bytes) : bool :=
  match prefix, path with
  | [], _ => true
  | x :: prefix, y :: path => bytes_eqb x y && path_starts_with path prefix
  | _ :: _, [] => false
  end.

Definition module_contains (m : RustModules) (definition caller : bytes) : option bool :=
  definitions ← roles m definition; callers ← roles m caller;
  Some (existsb (λ d, existsb (λ c, bytes_eqb (root_file c) (root_file d)
                                    && path_starts_with (mod_path c) (mod_path d)) callers) definitions).

(** ** [from_imports] *)

Definition declaration_map (files : gset bytes) (imports : list (bytes * bytes)) : gmap bytes (list bytes) :=
  foldl (λ d '(file, name),
    if decide (file ∈ files) then
      match strip_prefix (bs "./") name with
      | Some name => <[file := default [] (d !! file) ++ [name]]> d
      | None => d
      end
    else d) ∅ imports.

Definition MODULE_LIMIT : nat := N.to_nat 16384.

Section load.
Context (stopped : nat → bool) (child_order : gset bytes → list bytes).
Context (files : gset bytes) (declarations : gmap bytes (list bytes)).

Definition declared_in (file : bytes) : list bytes := default [] (declarations !! file).

(** The directory of a crate root: the [roots] map. *)
Definition root_directory (file : bytes) : option bytes :=
  match rust_crate_layout file with Some (directory, true) => Some directory | _ => None end.

Definition roots : list (bytes * bytes) :=
  omap (λ file, directory ← root_directory file; Some (file, directory)) (sorted_keys files).

(** The one indexed file of a module, if there is exactly one. *)
Definition module_file (path : bytes) : option bytes :=
  match List.filter (λ c, bool_decide (c ∈ files)) (module_files path) with
  | [candidate] => Some candidate
  | _ => None
  end.

Definition is_root_key (file : bytes) : bool := existsb (λ r, bytes_eqb r.1 file) roots.

Record Links := mkLinks { parents : gmap bytes nat; children : gmap bytes (gset bytes) }.

Definition add_child (file directory : bytes) (l : Links) (declaration : bytes) : T Links :=
  match module_file (directory ++ declaration) with
  | Some candidate =>
      if is_root_key candidate && negb (bool_decide (candidate ∈ default ∅ (children l !! file))) then
        match parents l !! candidate with
        | Some count =>
            mret (mkLinks (<[candidate := S count]> (parents l))
                          (<[file := {[candidate]} ∪ default ∅ (children l !! file)]> (children l)))
        | None => fails Panicked
        end
      else mret l
  | None => mret l
  end.

Definition root_links : T Links :=
  for_each (λ l '(file, directory), for_each (add_child file directory) (declared_in file) l) roots
    (mkLinks (list_to_map (map (λ r, (r.1, 0)) roots)) ∅).

Record Loading := mkLoading {
  result : RustModules;
  total : nat;
  pending : list (bytes * Module);
}.

Definition declare (context : Module) (s : Loading) (declaration : bytes) : Loading :=
  let path := mod_path context ++ split_on "/" declaration in
  match module_file (root_dir context ++ join_with "/" path) with
  | Some candidate =>
      mkLoading (mkRustModules (modules (result s)) ({[candidate]} ∪ declared (result s)) (capped (result s)))
        (total s) (pending s ++ [(candidate, mkModule (root_file context) (root_dir context) path)])
  | None => s
  end.

(** One turn of the [while let Some(..) = pending.pop_front()] loop; [true] when the
    limit is hit. *)
Definition load_context (file : bytes) (context : Module) (s : Loading) : bool * Loading :=
  let contexts := default [] (modules (result s) !! file) in
  let put c := mkRustModules (<[file := c]> (modules (result s))) (declared (result s)) (capped (result s)) in
  if bool_decide (context ∈ contexts) then (false, mkLoading (put contexts) (total s) (pending s))
  else if MODULE_LIMIT <? S (total s) then
    (true, mkLoading (mkRustModules (modules (put contexts)) (declared (result s)) true) (S (total s)) (pending s))
  else
    (false, foldl (declare context) (mkLoading (put (contexts ++ [context])) (S (total s)) (pending s))
              (declared_in file)).

Fixpoint load_loop (fuel : nat) (s : Loading) : T (bool * Loading) :=
  match fuel with
  | 0 => fails Exhausted
  | S fuel =>
      match pending s with
      | [] => mret (false, s)
      | (file, context) :: rest =>
          check_at stopped ;;
          match load_context file context (mkLoading (result s) (total s) rest) with
          | (true, s) => mret (true, s)
          | (false, s) => load_loop fuel s
          end
      end
  end.

(** Every pop but a duplicate adds a context, and each context queues at most
    the declarations of its file. *)
Definition most_declared : nat := foldr max 0 (map (λ d, length d.2) (map_to_list declarations)).
Definition load_fuel (pending total : nat) : nat := 1 + pending + (S MODULE_LIMIT - total) * S most_declared.

Definition release (s : gmap bytes nat * list bytes) (child : bytes) : T (gmap bytes nat * list bytes) :=
  let '(counts, queue) := s in
  match counts !! child with
  | None => fails Panicked
  | Some 0 => fails Panicked
  | Some (S count) =>
      mret (<[child := count]> counts, if Nat.eqb count 0 then queue ++ [child] else queue)
  end.

Definition seed (root directory : bytes) (s : Loading) : Loading :=
  mkLoading (result s) (total s) [(root, mkModule root directory [])].

(** The [while let Some(root) = root_queue.pop_front()] loop; [roots[root]] panics
    on a missing key. *)
Fixpoint root_loop (fuel : nat) (kids : gmap bytes (gset bytes)) (counts : gmap bytes nat) (queue : list bytes)
    (s : Loading) : T (bool * Loading) :=
  match fuel with
  | 0 => fails Exhausted
  | S fuel =>
      match queue with
      | [] => mret (false, s)
      | root :: queue =>
          '(full, s) ←
            (if bool_decide (root ∈ declared (result s)) then mret (false, s)
             else match (if is_root_key root then root_directory root else None) with
                  | None => fails Panicked
                  | Some directory => load_loop (load_fuel 1 (total s)) (seed root directory s)
                  end);
          if (full : bool) then mret (true, s)
          else
            '(counts, queue) ← for_each release (child_order (default ∅ (kids !! root))) (counts, queue);
            root_loop fuel kids counts queue s
      end
  end.

Definition or_default (m : gmap bytes (list Module)) (file : bytes) : gmap bytes (list Module) :=
  match m !! file with Some _ => m | None => <[file := []]> m end.

Definition load_modules : T RustModules :=
  links ← root_links;
  let queue := map fst (List.filter (λ r, bool_decide (parents links !! r.1 = Some 0)) roots) in
  '(full, s) ← root_loop (S (length roots)) (children links) (parents links) queue
                 (mkLoading (mkRustModules ∅ ∅ false) 0 []);
  let r := result s in
  if (full : bool) then mret r
  else mret (mkRustModules (foldl or_default (modules r) (map fst roots)) (declared r) (capped r)).
End load.

Definition from_imports (stopped : nat → bool) (child_order : gset bytes → list bytes)
    (indexed : list bytes) (imports : list (bytes * bytes)) : T RustModules :=
  let files := list_to_set (List.filter (ends_with (bs ".rs")) indexed) in
  load_modules stopped child_order files (declaration_map files imports).

(** ** The memo changes no answer *)

(** The caches other threads may leave between two critical sections: any
    sequence of insertions of computed candidates. *)
Definition cache_step (m : RustModules) (c c' : CandidateCache) : Prop :=
  ∃ file module, c' = (candidates_miss m c file module).1.

Definition cache_reachable (m : RustModules) (c : CandidateCache) : Prop := rtc (cache_step m) empty_cache c.

Definition cache_rows (c : CandidateCache) : gset (bytes * bytes) :=
  set_bind (λ file, set_map (pair file) (dom (default ∅ (rows c !! file)))) (dom (rows c)).

Lemma elem_of_cache_rows c file module : (file, module) ∈ cache_rows c ↔ is_Some (cached c file module).
Proof.
  unfold cache_rows, cached. rewrite elem_of_set_bind. split.
  - intros (f & [r Hr]%elem_of_dom & (m' & [= -> ->] & Hm)%elem_of_map). rewrite Hr in Hm |- *.
    by apply elem_of_dom in Hm.
  - intros [r Hr]. destruct (rows c !! file) as [row|] eqn:E; [|done]. exists file. split; [by apply elem_of_dom|].
    rewrite E. apply elem_of_map. exists module. split; [done|]. by apply elem_of_dom.
Qed.

Record cache_ok (m : RustModules) (c : CandidateCache) : Prop := {
  co_rows file module result : cached c file module = Some result → uncached_candidates m file module = Some result;
  co_entries : entries c = N.of_nat (size (cache_rows c));
  co_entry_bound : (entries c ≤ CANDIDATE_CACHE_ENTRIES)%N;
  co_byte_bound : (cache_bytes c ≤ CANDIDATE_CACHE_BYTES)%N;
}.

Lemma cached_insert c file module result f m' n b :
  cached (mkCache (<[file := <[module := result]> (default ∅ (rows c !! file))]> (rows c)) n b) f m'
  = if decide ((f, m') = (file, module)) then Some result else cached c f m'.
Proof.
  unfold cached. cbn [rows]. destruct (decide ((f, m') = (file, module))) as [[= -> ->]|Hne].
  - rewrite lookup_insert_eq. cbn. by rewrite lookup_insert_eq.
  - destruct (decide (f = file)) as [->|Hf].
    + rewrite lookup_insert_eq. cbn. rewrite lookup_insert_ne by congruence. by destruct (rows c !! file).
    + by rewrite lookup_insert_ne.
Qed.

Lemma retain_ok m c file module result :
  uncached_candidates m file module = Some result → cache_ok m c → cache_ok m (retain c file module result).
Proof.
  intros Hu [Hrows He Heb Hbb]. unfold retain. destruct (cached c file module) as [|] eqn:Ec; [done|].
  destruct (_ && _) eqn:Eb; [|done]. apply andb_true_iff in Eb as [E1%N.ltb_lt E2%N.leb_le].
  split; cbn [entries cache_bytes]; [| |lia..].
  - intros f m' r. rewrite cached_insert. destruct (decide _) as [[= -> ->]|]; [by intros [= <-]|by apply Hrows].
  - assert (cache_rows (mkCache (<[file := <[module := result]> (default ∅ (rows c !! file))]> (rows c)) (entries c + 1)
              (cache_bytes c + row_bytes c file module result)) = {[(file, module)]} ∪ cache_rows c) as ->.
    { apply set_eq. intros [f m']. rewrite elem_of_union, elem_of_singleton, !elem_of_cache_rows, cached_insert.
      destruct (decide _); naive_solver. }
    rewrite size_union, size_singleton, He; [lia|].
    apply disjoint_singleton_l. rewrite elem_of_cache_rows, Ec. by intros [? ?].
Qed.

Lemma cache_reachable_ok m c : cache_reachable m c → cache_ok m c.
Proof.
  unfold cache_reachable. intros H. assert (cache_ok m empty_cache) as H0.
  { split; [done|reflexivity|by vm_compute|by vm_compute]. }
  revert H0. induction H as [c|c c' c'' (file & module & ->) _ IH]; [done|]. intros Hc. apply IH.
  unfold candidates_miss. destruct (uncached_candidates m file module) as [r|] eqn:E; [|done]. by apply retain_ok.
Qed.

(** C19. Whatever insertions other threads made before the look-up and between
    the two critical sections, [candidates] answers what the contexts say: the memo, with
    its limits on rows and bytes, is invisible; it never holds more than its
    limits, and its row count is the number of rows it holds. *)
Theorem candidates_refine m c file module :
  cache_reachable m c →
  (∀ result, candidates_hit c file module = Some result → uncached_candidates m file module = Some result)
  ∧ (candidates_miss m c file module).2 = uncached_candidates m file module
  ∧ (candidates m c file module).2 = uncached_candidates m file module
  ∧ cache_reachable m (candidates m c file module).1
  ∧ (entries c ≤ CANDIDATE_CACHE_ENTRIES ∧ cache_bytes c ≤ CANDIDATE_CACHE_BYTES)%N
  ∧ entries c = N.of_nat (size (cache_rows c)).
Proof.
  intros Hr. destruct (cache_reachable_ok _ _ Hr) as [Hrows He Heb Hbb].
  assert ((candidates_miss m c file module).2 = uncached_candidates m file module) as Hmiss.
  { unfold candidates_miss. by destruct (uncached_candidates m file module). }
  unfold candidates, candidates_hit. destruct (cached c file module) as [r|] eqn:E.
  - split_and!; [intros ? [= <-]; auto|done|cbn [snd]; symmetry; auto|done|done|done|done].
  - split_and!; [done|done|done| |done|done|done]. eapply rtc_r; [done|]. by exists file, module.
Qed.

Definition demo_modules : RustModules :=
  mkRustModules {[bs "src/nested/child.rs" := [mkModule (bs "src/lib.rs") (bs "src/") [bs "nested"; bs "child"]]]} ∅ false.

Example demo_candidates :
  map (λ module, (candidates demo_modules empty_cache (bs "src/nested/child.rs") (bs module)).2)
    ["crate"; "crate::api"; "super"; "super::super::super"; "other"]%string
  = [Some [bs "src/lib.rs"]; Some (map bs ["src/api.rs"; "src/api/mod.rs"]); Some (map bs ["src/nested.rs"; "src/nested/mod.rs"]);
     Some []; Some (map bs ["src/other.rs"; "src/other/mod.rs"])]%string.
Proof. vm_compute. reflexivity. Qed.

Lemma candidates_refine_witness :
  let f := bs "src/nested/child.rs" in
  let c := (candidates demo_modules empty_cache f (bs "crate")).1 in
  cache_reachable demo_modules c ∧ candidates_hit c f (bs "crate") = Some [bs "src/lib.rs"]
  ∧ uncached_candidates demo_modules f (bs "crate") = Some [bs "src/lib.rs"].
Proof.
  intros f c. assert (cache_reachable demo_modules c) as Hc.
  { eapply rtc_l; [|apply rtc_refl]. by exists f, (bs "crate"). }
  split; [done|]. destruct (candidates_refine demo_modules c f (bs "crate") Hc) as [H _].
  assert (candidates_hit c f (bs "crate") = Some [bs "src/lib.rs"]) as Hh by (vm_compute; reflexivity).
  split; [done|]. by apply H.
Defined.

(** ** What [from_imports] loads *)

Section loaded.
Context (stopped : nat → bool) (child_order : gset bytes → list bytes).
Context (files : gset bytes) (declarations : gmap bytes (list bytes)).

#[local] Abbreviation declared_in := (declared_in declarations).
#[local] Abbreviation module_file := (module_file files).
#[local] Abbreviation roots := (roots files).

(** The file and the context a declaration of a file in [context] gives. *)
Definition declares (context : Module) (declaration : bytes) : option (bytes * Module) :=
  let path := mod_path context ++ split_on "/" declaration in
  candidate ← module_file (root_dir context ++ join_with "/" path);
  Some (candidate, mkModule (root_file context) (root_dir context) path).

(** A file has a module context when it is a crate root, or a file that has one
    declares it and it is the one indexed file of that module. *)
Inductive in_crate : bytes → Module → Prop :=
| in_root file directory :
    file ∈ files → root_directory file = Some directory → in_crate file (mkModule file directory [])
| in_child file context declaration child context' :
    in_crate file context → declaration ∈ declared_in file →
    declares context declaration = Some (child, context') → in_crate child context'.

(** [r] is declared by the root file of some crate. *)
Definition declared_by_root (r : bytes) : Prop :=
  ∃ file directory declaration, file ∈ files ∧ root_directory file = Some directory
    ∧ declaration ∈ declared_in file ∧ module_file (directory ++ declaration) = Some r.

Definition contexts_of (r : RustModules) (file : bytes) : list Module := default [] (modules r !! file).

Record well_loaded (r : RustModules) : Prop := {
  wl_sound file context : context ∈ contexts_of r file → in_crate file context;
  wl_distinct file : NoDup (contexts_of r file);
  wl_bound : ∃ all, NoDup all ∧ length all ≤ MODULE_LIMIT
    ∧ ∀ file context, (file, context) ∈ all ↔ context ∈ contexts_of r file;
  wl_closed file context declaration child context' :
    capped r = false → context ∈ contexts_of r file → declaration ∈ declared_in file →
    declares context declaration = Some (child, context') →
    child ∈ declared r ∧ context' ∈ contexts_of r child;
  wl_roots file directory :
    capped r = false → file ∈ files → root_directory file = Some directory →
    is_Some (modules r !! file)
    ∧ (¬ declared_by_root file → file ∈ declared r ∨ mkModule file directory [] ∈ contexts_of r file);
}.

(** *** Following the declarations of one root *)

Record loading (s : Loading) : Prop := {
  ld_sound file context : context ∈ contexts_of (result s) file → in_crate file context;
  ld_distinct file : NoDup (contexts_of (result s) file);
  ld_all : ∃ all, NoDup all ∧ length all = total s
    ∧ ∀ file context, (file, context) ∈ all ↔ context ∈ contexts_of (result s) file;
  ld_total : total s ≤ MODULE_LIMIT;
  ld_uncapped : capped (result s) = false;
  ld_pending file context : (file, context) ∈ pending s → in_crate file context;
  ld_closed file context declaration child context' :
    context ∈ contexts_of (result s) file → declaration ∈ declared_in file →
    declares context declaration = Some (child, context') →
    child ∈ declared (result s) ∧ (context' ∈ contexts_of (result s) child ∨ (child, context') ∈ pending s);
}.

Definition grows (s s' : Loading) : Prop :=
  declared (result s) ⊆ declared (result s')
  ∧ (∀ file context, context ∈ contexts_of (result s) file → context ∈ contexts_of (result s') file).

(** A limited load keeps only what it can justify. *)
Definition limited (s : Loading) : Prop :=
  capped (result s) = true
  ∧ (∀ file context, context ∈ contexts_of (result s) file → in_crate file context)
  ∧ (∀ file, NoDup (contexts_of (result s) file))
  ∧ ∃ all, NoDup all ∧ length all ≤ MODULE_LIMIT
      ∧ ∀ file context, (file, context) ∈ all ↔ context ∈ contexts_of (result s) file.

Definition declared_files (context : Module) (ds : list bytes) : list (bytes * Module) := omap (declares context) ds.

Lemma declare_all context ds s :
  foldl (declare files context) s ds =
  mkLoading (mkRustModules (modules (result s)) (list_to_set (map fst (declared_files context ds)) ∪ declared (result s))
               (capped (result s)))
    (total s) (pending s ++ declared_files context ds).
Proof.
  revert s; induction ds as [|d ds IH]; intros s; simpl foldl.
  - destruct s as [[] ? ?]. cbn. rewrite app_nil_r. f_equal. f_equal. set_solver.
  - rewrite IH. unfold declare, declared_files at 3 4, declares. cbn [omap list_omap].
    destruct (module_file _) as [c|]; cbn [mbind option_bind result modules declared capped total pending map list_to_set fst].
    + rewrite <- app_assoc. f_equal. f_equal. unfold declared_files, declares. set_solver.
    + done.
Qed.

Lemma contexts_put r file l d cap f :
  contexts_of (mkRustModules (<[file := l]> (modules r)) d cap) f = if decide (f = file) then l else contexts_of r f.
Proof.
  unfold contexts_of. cbn [modules]. destruct (decide (f = file)) as [->|]; [by rewrite lookup_insert_eq|].
  by rewrite lookup_insert_ne.
Qed.
Lemma declared_in_length file : length (declared_in file) ≤ most_declared declarations.
Proof.
  unfold RustModules.declared_in, most_declared. destruct (declarations !! file) as [l|] eqn:E; [|simpl; lia].
  apply elem_of_map_to_list in E. cbn [default]. induction (map_to_list declarations) as [|x ds IH]; simpl.
  - by apply elem_of_nil in E.
  - apply elem_of_cons in E as [<-|E]; [simpl; lia|]. specialize (IH E). simpl in *. lia.
Qed.

Lemma declared_files_length context ds : length (declared_files context ds) ≤ length ds.
Proof. unfold declared_files. induction ds as [|d ds IH]; cbn [omap list_omap length]; [lia|]. destruct (declares context d); cbn [length]; lia. Qed.

(** The pops a load still needs. *)
Definition load_measure (s : Loading) : nat :=
  length (pending s) + (S MODULE_LIMIT - total s) * S (most_declared declarations).

Lemma put_unchanged r file l :
  contexts_of r file = l → ∀ f, contexts_of (mkRustModules (<[file := l]> (modules r)) (declared r) (capped r)) f = contexts_of r f.
Proof. intros <- f. rewrite contexts_put. by destruct (decide (f = file)) as [->|]. Qed.

Lemma all_contexts_extended r all file context r' :
  context ∉ contexts_of r file →
  (∀ f, contexts_of r' f = if decide (f = file) then contexts_of r file ++ [context] else contexts_of r f) →
  NoDup all → (∀ f c, (f, c) ∈ all ↔ c ∈ contexts_of r f) →
  NoDup ((file, context) :: all) ∧ ∀ f c, (f, c) ∈ (file, context) :: all ↔ c ∈ contexts_of r' f.
Proof.
  intros Hn Hr Hnd Hall. split; [constructor; [by rewrite Hall|done]|]. intros f c.
  rewrite elem_of_cons, Hall, Hr. destruct (decide (f = file)) as [->|].
  - rewrite elem_of_app, list_elem_of_singleton. naive_solver.
  - naive_solver.
Qed.

Lemma load_context_ok file context rest s :
  loading s → pending s = (file, context) :: rest →
  match load_context files declarations file context (mkLoading (result s) (total s) rest) with
  | (true, s') => limited s'
  | (false, s') => loading s' ∧ grows s s' ∧ context ∈ contexts_of (result s') file
      ∧ (∀ p, p ∈ rest → p ∈ pending s') ∧ load_measure s' < load_measure s
  end.
Proof.
  intros [Hsound Hdist (all & Hnd & Hlen & Hall) Htot Hunc Hpend Hclosed] Hp.
  assert (in_crate file context) as Hic by (apply Hpend; rewrite Hp; by left).
  unfold load_context. cbn [result total pending]. fold (contexts_of (result s) file).
  destruct (bool_decide_reflect (context ∈ contexts_of (result s) file)) as [Hin|Hnew].
  - pose proof (put_unchanged (result s) file _ eq_refl) as Heq. split_and!.
    + split; cbn [result total pending capped declared]; try setoid_rewrite Heq; try done.
      * by exists all.
      * intros f c Hfc. apply Hpend. rewrite Hp. by right.
      * intros f c d ch c' Hc Hd Hch. destruct (Hclosed f c d ch c' Hc Hd Hch) as [? [?|Hq]]; [by auto|].
        split; [done|]. rewrite Hp in Hq. apply elem_of_cons in Hq as [[= -> ->]|?]; by auto.
    + split; [done|]. cbn [result]. intros f c. by rewrite Heq.
    + cbn [result]. by rewrite Heq.
    + done.
    + unfold load_measure. cbn [pending total]. rewrite Hp. simpl. lia.
  - cbn [modules]. destruct (Nat.ltb_spec MODULE_LIMIT (S (total s))) as [Hlim|Hlim].
    + assert (∀ f, contexts_of (mkRustModules (<[file := contexts_of (result s) file]> (modules (result s)))
          (declared (result s)) true) f = contexts_of (result s) f) as Heq.
      { intros f. rewrite contexts_put. by destruct (decide (f = file)) as [->|]. }
      split; [done|]. cbn [result]. split; [intros f c; rewrite Heq; apply Hsound|].
      split; [intros f; rewrite Heq; apply Hdist|]. exists all. split; [done|]. split; [lia|].
      intros f c. by rewrite Heq.
    + rewrite declare_all. cbn [result total pending modules declared capped].
      set (kids := declared_files context (declared_in file)).
      match goal with |- loading ?s' ∧ _ => set (s2 := s') end.
      assert (∀ f, contexts_of (result s2) f
        = if decide (f = file) then contexts_of (result s) file ++ [context] else contexts_of (result s) f) as Heq.
      { intros f. subst s2. cbn [result]. by rewrite contexts_put. }
      assert (∀ f c, c ∈ contexts_of (result s2) f ↔ c ∈ contexts_of (result s) f ∨ (f, c) = (file, context)) as Hmem.
      { intros f c. rewrite Heq. destruct (decide (f = file)) as [->|]; [|naive_solver].
        rewrite elem_of_app, list_elem_of_singleton. naive_solver. }
      assert (∀ ch c', (ch, c') ∈ kids ↔ ∃ d, d ∈ declared_in file ∧ declares context d = Some (ch, c')) as Hkids.
      { intros ch c'. unfold kids, declared_files. by rewrite list_elem_of_omap. }
      split_and!.
      * split; cbn [total pending].
        -- intros f c [Hc|[= -> ->]]%Hmem; [by apply Hsound|done].
        -- intros f. rewrite Heq. destruct (decide (f = file)) as [->|]; [|done]. apply NoDup_app.
           split; [done|]. split; [|apply NoDup_singleton]. intros c Hc ->%list_elem_of_singleton. done.
        -- destruct (all_contexts_extended (result s) all file context (result s2) Hnew Heq Hnd Hall) as [Hnd' Hall'].
           exists ((file, context) :: all). split; [done|]. split; [simpl; lia|done].
        -- exact Hlim.
        -- exact Hunc.
        -- intros f c [Hr|(d & Hd & Hdc)%Hkids]%elem_of_app; [apply Hpend; rewrite Hp; by right|]. by eapply in_child.
        -- intros f c d ch c' [Hc|[= -> ->]]%Hmem Hd Hch.
           ++ destruct (Hclosed f c d ch c' Hc Hd Hch) as [Hdecl Hq]. split; [subst s2; cbn [result declared]; set_solver|].
              rewrite Hmem. destruct Hq as [Hq|Hq]; [by left; left|]. rewrite Hp in Hq.
              apply elem_of_cons in Hq as [[= -> ->]|Hq]; [by left; right|]. right. apply elem_of_app. by left.
           ++ assert ((ch, c') ∈ kids) as Hk by (apply Hkids; eauto). split.
              ** subst s2. cbn [result declared]. apply elem_of_union_l, elem_of_list_to_set, list_elem_of_fmap.
                 by exists (ch, c').
              ** right. apply elem_of_app. by right.
      * split; [subst s2; cbn [result declared]; set_solver|]. intros f c Hc. apply Hmem. by left.
      * apply Hmem. by right.
      * intros p Hr. subst s2. cbn [pending]. apply elem_of_app. by left.
      * unfold load_measure. subst s2. cbn [pending total]. rewrite Hp, length_app.
        pose proof (declared_files_length context (declared_in file)) as Hk. fold kids in Hk.
        pose proof (declared_in_length file) as Hd.
        replace (S MODULE_LIMIT - total s) with (S (S MODULE_LIMIT - S (total s))) by lia.
        rewrite Nat.mul_succ_l. cbn [length]. lia.
Qed.
Lemma load_loop_ok fuel s :
  loading s → load_measure s < fuel →
  safe stopped (load_loop stopped files declarations fuel s) (λ '(full, s'),
    if full then limited s'
    else loading s' ∧ grows s s' ∧ pending s' = [] ∧ ∀ f c, (f, c) ∈ pending s → c ∈ contexts_of (result s') f).
Proof.
  revert s; induction fuel as [|fuel IH]; intros s Hs Hm; [lia|]. cbn [load_loop].
  destruct (pending s) as [|[file context] rest] eqn:Ep.
  - apply safe_ret. split_and!; [done|by split|done|]. by intros f c ?%elem_of_nil.
  - apply safe_check. pose proof (load_context_ok file context rest s Hs Ep) as H.
    destruct (load_context _ _ _ _ _) as [[] s2].
    + by apply safe_ret.
    + destruct H as (Hs2 & [Hg1 Hg2] & Hin & Hrest & Hlt). eapply safe_mono; [apply IH; [done|lia]|].
      intros [[] s3]; [done|]. intros (Hs3 & [Hg3 Hg4] & He & Hp). split_and!; [done| |done|].
      * split; [set_solver|]. intros f c Hc. by apply Hg4, Hg2.
      * intros f c [[= -> ->]|Hc]%elem_of_cons; [by apply Hg4|]. by apply Hp, Hrest.
Qed.

Lemma load_one_root root directory s :
  root ∈ files → root_directory root = Some directory → loading s → pending s = [] →
  safe stopped (load_loop stopped files declarations (load_fuel declarations 1 (total s)) (seed root directory s))
    (λ '(full, s'), if full then limited s'
       else loading s' ∧ grows s s' ∧ pending s' = [] ∧ mkModule root directory [] ∈ contexts_of (result s') root).
Proof.
  intros Hr Hd [Hsound Hdist Hall Htot Hunc Hpend Hclosed] He.
  eapply safe_mono; [apply load_loop_ok|].
  - split; try done; cbn [seed pending result].
    + intros f c [= -> ->]%list_elem_of_singleton. by apply in_root.
    + intros f c d ch c' Hc Hdd Hch. destruct (Hclosed f c d ch c' Hc Hdd Hch) as [? [?|Hq]]; [by auto|].
      rewrite He in Hq. by apply elem_of_nil in Hq.
  - unfold load_measure, load_fuel. cbn [seed pending total length]. lia.
  - intros [[] s']; [done|]. intros (? & ? & ? & Hp). split_and!; [done..|]. apply Hp. by left.
Qed.

(** *** The crate roots, in an order where a parent comes before its children *)

Definition keys : gset bytes := list_to_set (map fst roots).

Lemma elem_of_roots file directory :
  (file, directory) ∈ roots ↔ file ∈ files ∧ root_directory file = Some directory.
Proof.
  unfold RustModules.roots. rewrite list_elem_of_omap. setoid_rewrite elem_of_sorted_keys. split.
  - intros (f & Hf & E). destruct (root_directory f) as [d|] eqn:Ed; [|done]. by injection E as -> ->.
  - intros [Hf Hd]. exists file. by rewrite Hd.
Qed.

Lemma elem_of_keys file : file ∈ keys ↔ ∃ directory, (file, directory) ∈ roots.
Proof.
  unfold keys. rewrite elem_of_list_to_set, list_elem_of_fmap. split.
  - intros ([f d] & -> & H). eauto.
  - intros [d H]. by exists (file, d).
Qed.

Lemma is_root_key_true file : is_root_key files file = true ↔ file ∈ keys.
Proof.
  unfold is_root_key. rewrite existsb_exists, elem_of_keys. setoid_rewrite <- list_elem_of_In.
  setoid_rewrite bytes_eqb_true. split.
  - intros ([f d] & H & E). simpl in E. subst. eauto.
  - intros [d H]. by exists (file, d).
Qed.

Lemma root_names_nodup : NoDup (map fst roots).
Proof.
  unfold RustModules.roots. pose proof (NoDup_sorted_keys files) as H. induction H as [|f l Hf Hnd IH]; [constructor|].
  cbn [omap list_omap]. destruct (root_directory f) as [d|]; cbn [mbind option_bind]; [|done].
  cbn [map fst]. constructor; [|done]. intros ([f' d'] & E & H)%list_elem_of_fmap. simpl in E. subst f'.
  apply list_elem_of_omap in H as (f'' & Hin & E). destruct (root_directory f''); [|done]. injection E as -> _. done.
Qed.

Lemma size_keys : size keys = length roots.
Proof. unfold keys. rewrite size_list_to_set by apply root_names_nodup. by rewrite length_map. Qed.

Definition kids_of (kids : gmap bytes (gset bytes)) (p : bytes) : gset bytes := default ∅ (kids !! p).

(** The roots outside [done] that have [r] as a child. *)
Definition waiting (kids : gmap bytes (gset bytes)) (done : gset bytes) (r : bytes) : gset bytes :=
  filter (λ p, r ∈ kids_of kids p) (keys ∖ done).

Record linked (l : Links) : Prop := {
  lk_counts r : r ∈ keys → parents l !! r = Some (size (waiting (children l) ∅ r));
  lk_kids p r : r ∈ kids_of (children l) p → p ∈ keys ∧ r ∈ keys ∧ declared_by_root r;
}.

Lemma kids_of_insert kids p s q : kids_of (<[p := s]> kids) q = if decide (q = p) then s else kids_of kids q.
Proof.
  unfold kids_of. destruct (decide (q = p)) as [->|]; [by rewrite lookup_insert_eq|by rewrite lookup_insert_ne].
Qed.

Lemma add_child_ok file directory declaration l :
  (file, directory) ∈ roots → declaration ∈ declared_in file → linked l →
  safe stopped (add_child files file directory l declaration) linked.
Proof.
  intros Hf Hd [Hc Hk]. assert (file ∈ keys) as Hfk by (apply elem_of_keys; eauto). unfold add_child.
  destruct (module_file (directory ++ declaration)) as [candidate|] eqn:Em; [|by apply safe_ret].
  destruct (is_root_key files candidate) eqn:Er; [|by apply safe_ret]. apply is_root_key_true in Er.
  fold (kids_of (children l) file). cbn [andb].
  destruct (bool_decide_reflect (candidate ∈ kids_of (children l) file)) as [|Hn]; [by apply safe_ret|].
  cbn [negb]. rewrite (Hc _ Er). apply safe_ret. split; cbn [parents children].
  - intros r Hr. destruct (decide (r = candidate)) as [->|Hne].
    + rewrite lookup_insert_eq. f_equal.
      replace (waiting (<[file := {[candidate]} ∪ kids_of (children l) file]> (children l)) ∅ candidate)
        with ({[file]} ∪ waiting (children l) ∅ candidate).
      * rewrite size_union, size_singleton; [done|]. apply disjoint_singleton_l. unfold waiting.
        rewrite elem_of_filter. by intros [? _].
      * apply set_eq. intros q. unfold waiting.
        rewrite elem_of_union, elem_of_singleton, !elem_of_filter, kids_of_insert, difference_empty_L.
        destruct (decide (q = file)) as [->|]; set_solver.
    + rewrite lookup_insert_ne by done. rewrite (Hc _ Hr). f_equal. f_equal. unfold waiting.
      apply set_eq. intros q. rewrite !elem_of_filter, kids_of_insert. destruct (decide (q = file)) as [->|]; set_solver.
  - intros p r. rewrite kids_of_insert. destruct (decide (p = file)) as [->|]; [|apply Hk].
    rewrite elem_of_union, elem_of_singleton. intros [->|H]; [|by apply Hk]. split; [done|]. split; [done|].
    apply elem_of_roots in Hf as [? ?]. by exists file, directory, declaration.
Qed.

Lemma root_links_ok : safe stopped (root_links files declarations) linked.
Proof.
  unfold root_links. apply (safe_for_each stopped _ (λ _, linked)).
  - intros a [file directory] b l El Hl. apply (safe_for_each stopped _ (λ _, linked)); [|done].
    intros a' d b' l' Ed Hl'. apply add_child_ok; [rewrite El|rewrite Ed|done]; apply elem_of_app; right; by left.
  - split; cbn [parents children].
    + intros r [d Hr]%elem_of_keys.
      assert (size (waiting ∅ ∅ r) = 0) as ->.
      { apply size_empty_iff. unfold waiting. intros q. rewrite elem_of_filter. unfold kids_of. rewrite lookup_empty. set_solver. }
      apply elem_of_list_to_map_1.
      * rewrite map_map. cbn [fst]. apply root_names_nodup.
      * apply list_elem_of_fmap. by exists (r, d).
    + intros p r. unfold kids_of. rewrite lookup_empty. by intros ?%elem_of_empty.
Qed.
(** The queue of Kahn's algorithm: the roots not [done] whose parents all are. *)
Record queued (kids : gmap bytes (gset bytes)) (done : gset bytes) (extra : bytes → nat)
    (counts : gmap bytes nat) (queue : list bytes) : Prop := {
  qd_counts r : r ∈ keys → counts !! r = Some (size (waiting kids done r) + extra r);
  qd_queue r : r ∈ queue ↔ r ∈ keys ∧ (r ∉ done) ∧ counts !! r = Some 0;
  qd_done r : r ∈ done → r ∈ keys ∧ counts !! r = Some 0;
  qd_nodup : NoDup queue;
}.

Definition unreleased (todo : list bytes) (r : bytes) : nat := if bool_decide (r ∈ todo) then 1 else 0.

Lemma release_ok kids done_ child rest counts queue :
  child ∈ keys → child ∉ rest → queued kids done_ (unreleased (child :: rest)) counts queue →
  safe stopped (release (counts, queue) child)
    (λ '(counts', queue'), queued kids done_ (unreleased rest) counts' queue' ∧ ∀ r, r ∈ queue → r ∈ queue').
Proof.
  intros Hk Hr [Hc Hq Hdn Hnd]. unfold release. rewrite (Hc _ Hk). unfold unreleased at 1.
  rewrite bool_decide_eq_true_2 by (by left). rewrite Nat.add_1_r.
  set (n := size (waiting kids done_ child)).
  assert (counts !! child = Some (S n)) as Hcc.
  { rewrite (Hc _ Hk). unfold unreleased. rewrite bool_decide_eq_true_2 by (by left). by rewrite Nat.add_1_r. }
  assert (∀ r, r ≠ child → unreleased (child :: rest) r = unreleased rest r) as Hu.
  { intros r Hne. unfold unreleased. by rewrite (bool_decide_ext (r ∈ child :: rest) (r ∈ rest)) by set_solver. }
  assert (unreleased rest child = 0) as Hu0 by (unfold unreleased; by rewrite bool_decide_eq_false_2).
  assert ((child ∉ queue) ∧ (child ∉ done_)) as [Hnq Hnd'].
  { split; [intros (_ & _ & E)%Hq|intros [_ E]%Hdn]; congruence. }
  apply safe_ret. split; [split|].
  - intros r Hrk. destruct (decide (r = child)) as [->|Hne].
    + rewrite lookup_insert_eq, Hu0. f_equal. unfold n. lia.
    + rewrite lookup_insert_ne by done. by rewrite (Hc _ Hrk), Hu.
  - intros r. destruct (decide (r = child)) as [->|Hne].
    + rewrite lookup_insert_eq. destruct (Nat.eqb_spec n 0) as [->|Hn].
      * rewrite elem_of_app, list_elem_of_singleton. naive_solver.
      * split; [done|]. intros (_ & _ & [= ?]). lia.
    + rewrite lookup_insert_ne by done. rewrite <- Hq. destruct (Nat.eqb n 0); [|done].
      rewrite elem_of_app, list_elem_of_singleton. naive_solver.
  - intros r Hrd. destruct (decide (r = child)) as [->|Hne]; [done|]. rewrite lookup_insert_ne by done. by apply Hdn.
  - destruct (Nat.eqb n 0); [|done]. apply NoDup_app. split; [done|]. split; [|apply NoDup_singleton].
    intros r Hrq ->%list_elem_of_singleton. done.
  - intros r Hrq. destruct (Nat.eqb n 0); [|done]. apply elem_of_app. by left.
Qed.
Lemma release_all kids done_ l counts queue :
  NoDup l → (∀ r, r ∈ l → r ∈ keys) → queued kids done_ (unreleased l) counts queue →
  safe stopped (for_each release l (counts, queue))
    (λ '(counts', queue'), queued kids done_ (λ _, 0) counts' queue' ∧ ∀ r, r ∈ queue → r ∈ queue').
Proof.
  intros Hnd Hk. revert counts queue. induction Hnd as [|child l Hnew Hnd IH]; intros counts queue Hq; cbn [for_each].
  - by apply safe_ret.
  - eapply safe_bind; [apply (release_ok kids done_ child l); [apply Hk; by left|done|done]|].
    intros [counts' queue'] [Hq' Hsub]. eapply safe_mono.
    { apply IH; [intros r Hr; apply Hk; by right|exact Hq']. }
    intros [counts2 queue2] [Hq2 Hsub2]. split; [done|]. intros r Hr. by apply Hsub2, Hsub.
Qed.

Lemma queued_pop kids done_ root queue counts l :
  l ≡ₚ elements (kids_of kids root) →
  queued kids done_ (λ _, 0) counts (root :: queue) →
  queued kids ({[root]} ∪ done_) (unreleased l) counts queue.
Proof.
  intros Hl [Hc Hq Hdn Hnd]. apply NoDup_cons in Hnd as [Hroot Hnd].
  assert (root ∈ root :: queue) as (Hk & Hnd' & H0)%Hq by by left.
  assert (∀ r, r ∈ l ↔ r ∈ kids_of kids root) as Hlk by (intros r; by rewrite Hl, elem_of_elements).
  split; [| | |done].
  - intros r Hr. rewrite (Hc _ Hr). f_equal. unfold unreleased.
    destruct (bool_decide_reflect (r ∈ l)) as [Hin|Hin]; rewrite Hlk in Hin.
    + replace (waiting kids done_ r) with ({[root]} ∪ waiting kids ({[root]} ∪ done_) r).
      * rewrite size_union, size_singleton; [lia|]. apply disjoint_singleton_l. unfold waiting.
        rewrite elem_of_filter. set_solver.
      * apply set_eq. intros q. unfold waiting. rewrite elem_of_union, elem_of_singleton, !elem_of_filter.
        destruct (decide (q = root)) as [->|]; set_solver.
    + f_equal. f_equal. unfold waiting. apply set_eq. intros q. rewrite !elem_of_filter.
      destruct (decide (q = root)) as [->|]; set_solver.
  - intros r. rewrite not_elem_of_union, not_elem_of_singleton. split.
    + intros Hr. assert (r ∈ root :: queue) as (? & ? & ?)%Hq by by right.
      split; [done|]. split; [|done]. split; [|done]. by intros ->.
    + intros (Hr & [Hne Hrd] & H). assert (r ∈ root :: queue) as [?|?]%elem_of_cons; [by apply Hq|done|done].
  - intros r [->%elem_of_singleton|Hr]%elem_of_union; [done|by apply Hdn].
Qed.

Definition settled (s : Loading) (r : bytes) : Prop :=
  ∀ directory, root_directory r = Some directory →
    r ∈ declared (result s) ∨ mkModule r directory [] ∈ contexts_of (result s) r.

Lemma grows_settled s s' r : grows s s' → settled s r → settled s' r.
Proof. intros [Hd Hc] H d Hr. destruct (H d Hr); [left; by apply Hd|right; by apply Hc]. Qed.

Lemma grows_trans s1 s2 s3 : grows s1 s2 → grows s2 s3 → grows s1 s3.
Proof. intros [? H12] [? H23]. split; [set_solver|]. intros f c ?. by apply H23, H12. Qed.

Section roots.
Context (Horder : ∀ s, child_order s ≡ₚ elements s).

Lemma root_loop_ok links fuel done_ counts queue s :
  linked links → queued (children links) done_ (λ _, 0) counts queue → loading s → pending s = [] →
  done_ ⊆ keys → size keys - size done_ < fuel →
  safe stopped (root_loop stopped child_order files declarations fuel (children links) counts queue s)
    (λ '(full, s'), if full then limited s'
       else loading s' ∧ pending s' = [] ∧ grows s s' ∧ ∀ r, r ∈ queue → settled s' r).
Proof using Horder.
  intros Hl. revert done_ counts queue s. induction fuel as [|fuel IH]; intros done_ counts queue s Hq Hs Hp Hd Hf; [lia|].
  cbn [root_loop]. destruct queue as [|root queue].
  - apply safe_ret. split_and!; [done|done|done|]. by intros r ?%elem_of_nil.
  - assert (root ∈ root :: queue) as (Hk & Hnd & _)%(qd_queue _ _ _ _ _ Hq) by by left.
    pose proof Hk as [directory [Hrf Hrd]%elem_of_roots]%elem_of_keys.
    eapply (safe_bind _ _ _ (λ fs : bool * Loading, if fs.1 then limited fs.2
        else loading fs.2 ∧ grows s fs.2 ∧ pending fs.2 = [] ∧ settled fs.2 root)).
    + destruct (bool_decide_reflect (root ∈ declared (result s))) as [Hin|Hin].
      * apply safe_ret. split_and!; [done|done|done|]. by left.
      * rewrite (proj2 (is_root_key_true root) Hk), Hrd. eapply safe_mono; [by apply load_one_root|].
        intros [[] s2]; [done|]. intros (? & ? & ? & ?). split_and!; [done..|].
        intros d Hd'. right. by assert (d = directory) as -> by congruence.
    + intros [[] s2]; [intros ?; by apply safe_ret|]. intros (Hs2 & Hg & Hp2 & Hset).
      fold (kids_of (children links) root). eapply safe_bind.
      * eapply release_all; [rewrite Horder; apply NoDup_elements| |eapply queued_pop; [apply Horder|exact Hq]].
        intros r. rewrite Horder, elem_of_elements. intros Hr. by apply (lk_kids _ Hl root).
      * intros [counts2 queue2] [Hq2 Hsub]. eapply safe_mono; [eapply IH; [exact Hq2|done|done|set_solver|]|].
        { rewrite size_union, size_singleton by (by apply disjoint_singleton_l).
          assert (size done_ < size keys); [|lia]. apply subset_size. set_solver. }
        intros [[] s3]; [done|]. intros (? & ? & Hg3 & Hset3). split_and!; [done|done|by eapply grows_trans|].
        intros r [->|Hr]%elem_of_cons; [by eapply grows_settled|]. by apply Hset3, Hsub.
Qed.

Lemma or_default_contexts l ms file :
  default [] (foldl or_default ms l !! file) = default [] (ms !! file)
  ∧ (is_Some (ms !! file) ∨ file ∈ l → is_Some (foldl or_default ms l !! file)).
Proof.
  revert ms; induction l as [|r l IH]; intros ms; simpl.
  - split; [done|]. by intros [?|?%elem_of_nil].
  - destruct (IH (or_default ms r)) as [H1 H2].
    assert (default [] (or_default ms r !! file) = default [] (ms !! file)
      ∧ (is_Some (ms !! file) ∨ file = r → is_Some (or_default ms r !! file))) as [E1 E2].
    { unfold or_default. destruct (ms !! r) eqn:E.
      - split; [done|]. intros [? | ->]; [done|by rewrite E].
      - destruct (decide (file = r)) as [->|]; [by rewrite lookup_insert_eq, E|].
        rewrite lookup_insert_ne by done. naive_solver. }
    split; [by rewrite H1|]. rewrite elem_of_cons. intros [?|[?|?]]; apply H2; auto.
Qed.

Lemma load_modules_ok :
  safe stopped (load_modules stopped child_order files declarations) well_loaded.
Proof using Horder.
  unfold load_modules. eapply safe_bind; [apply root_links_ok|]. intros links Hl.
  set (queue := map fst (List.filter _ _)).
  assert (∀ r, r ∈ queue ↔ r ∈ keys ∧ parents links !! r = Some 0) as Hqueue.
  { intros r. unfold queue. rewrite list_elem_of_fmap, elem_of_keys. split.
    - intros ([r' d] & -> & Hr%list_elem_of_In). apply List.filter_In in Hr as [Hr%list_elem_of_In Hb].
      apply bool_decide_eq_true in Hb. eauto.
    - intros [[d Hd] Hb]. exists (r, d). split; [done|]. apply list_elem_of_In, List.filter_In.
      split; [by apply list_elem_of_In|]. by apply bool_decide_eq_true. }
  eapply safe_bind.
  - apply (root_loop_ok links _ ∅); [done| | |done|set_solver|rewrite size_keys; lia].
    + split.
      * intros r Hr. rewrite Nat.add_0_r. by apply lk_counts.
      * intros r. rewrite Hqueue. set_solver.
      * by intros r ?%elem_of_empty.
      * unfold queue. pose proof root_names_nodup as Hnd. revert Hnd. generalize (roots). intros l Hnd.
        induction l as [|[r d] l IH]; [constructor|]. cbn [map fst] in Hnd. apply NoDup_cons in Hnd as [Hn Hnd].
        cbn [List.filter]. destruct (bool_decide _); [|by apply IH]. cbn [map fst]. constructor; [|by apply IH].
        intros (x & E & Hx%list_elem_of_In)%list_elem_of_fmap. apply List.filter_In in Hx as [Hx%list_elem_of_In _].
        apply Hn. rewrite E. by apply list_elem_of_fmap_2.
    + split; cbn [result modules declared pending total capped contexts_of]; unfold contexts_of; cbn [modules].
      * intros f c. rewrite lookup_empty. by intros ?%elem_of_nil.
      * intros f. rewrite lookup_empty. constructor.
      * exists []. split; [constructor|]. split; [done|]. intros f c. rewrite lookup_empty. cbn. by rewrite !elem_of_nil.
      * lia.
      * done.
      * by intros f c ?%elem_of_nil.
      * intros f c d ch c'. rewrite lookup_empty. by intros ?%elem_of_nil.
  - intros [[] s].
    + intros (Hcap & Hsound & Hdist & Hall). apply safe_ret. split; [done|done|done|congruence|congruence].
    + intros (Hs & Hp & _ & Hset). apply safe_ret. destruct Hs as [Hsound Hdist (all & Hnd & Hlen & Hall) Htot Hunc Hpend Hclosed].
      assert (∀ f, contexts_of (mkRustModules (foldl or_default (modules (result s)) (map fst roots)) (declared (result s))
        (capped (result s))) f = contexts_of (result s) f) as Heq.
      { intros f. unfold contexts_of. cbn [modules]. apply or_default_contexts. }
      split; cbn [declared capped]; try setoid_rewrite Heq; try done.
      * exists all. split; [done|]. split; [lia|done].
      * intros f c d ch c' _ Hc Hd Hch. destruct (Hclosed f c d ch c' Hc Hd Hch) as [? [?|Hq]]; [done|].
        rewrite Hp in Hq. by apply elem_of_nil in Hq.
      * intros f d _ Hf Hd. assert ((f, d) ∈ roots) as Hr by by apply elem_of_roots. split.
        -- cbn [modules]. apply or_default_contexts. right. apply (list_elem_of_fmap_2 fst) in Hr. exact Hr.
        -- intros Hnp. apply (Hset f); [|done]. apply Hqueue. assert (f ∈ keys) as Hk by (apply elem_of_keys; eauto).
           split; [done|]. rewrite (lk_counts _ Hl _ Hk). f_equal. apply size_empty_iff, elem_of_equiv_empty. intros p. unfold waiting.
           rewrite elem_of_filter. intros [Hkid _]. by apply Hnp, (lk_kids _ Hl p).
Qed.
End roots.
End loaded.

(** Loading the module tree never panics, always ends, and fails only when
    the work is cancelled, whatever the order in which children are visited.
    Every context it records is justified by a chain of [mod] declarations from
    a crate root, none twice and at most [MODULE_LIMIT] in all; unless the limit
    was hit, every declaration of a recorded context has been followed, and
    every crate root that no crate root declares has its own context or
    is declared by another crate's file. *)
Theorem from_imports_correct stopped child_order indexed imports t :
  (∀ s, child_order s ≡ₚ elements s) →
  let files := list_to_set (List.filter (ends_with (bs ".rs")) indexed) in
  match from_imports stopped child_order indexed imports t with
  | inl e => e = Cancelled ∧ ∃ t', stopped t' = true
  | inr (r, _) => well_loaded files (declaration_map files imports) r
  end.
Proof. intros Ho files. unfold from_imports. by apply load_modules_ok. Qed.

Definition demo_files : list bytes := map bs ["src/lib.rs"; "src/api.rs"; "src/api/v1.rs"; "README.md"]%string.
Definition demo_imports : list (bytes * bytes) :=
  [(bs "src/lib.rs", bs "./api"); (bs "src/lib.rs", bs "crate::api::f"); (bs "src/api.rs", bs "./v1")].

Lemma from_imports_correct_witness :
  let files := list_to_set (List.filter (ends_with (bs ".rs")) demo_files) in
  ∃ r t, from_imports (λ _, false) elements demo_files demo_imports 0 = inr (r, t)
    ∧ contexts_of r (bs "src/api/v1.rs") = [mkModule (bs "src/lib.rs") (bs "src/") [bs "api"; bs "v1"]]
    ∧ (candidates r empty_cache (bs "src/api/v1.rs") (bs "super::util")).2
      = Some (map bs ["src/api/util.rs"; "src/api/util/mod.rs"]%string)
    ∧ well_loaded files (declaration_map files demo_imports) r.
Proof.
  intros files. pose proof (from_imports_correct (λ _, false) elements demo_files demo_imports 0 ltac:(done)) as H.
  cbv zeta in H. fold files in H.
  destruct (from_imports (λ _, false) elements demo_files demo_imports 0) as [e|[r t]] eqn:E.
  - by destruct H as (_ & ? & ?).
  - exists r, t. split; [done|]. vm_compute in E. injection E as <- <-.
    split; [vm_compute; reflexivity|]. split; [vm_compute; reflexivity|exact H].
Defined.
