(* ===== verification/ImportGraph.v ===== *)
(** * ImportGraph: the file-level import graph

    Models [src/crates/graph/src/import_graph.rs]: symbol-joined pairs and
    path specifiers become one set of edges, each either load-time (eager) or
    only ever lazy.  A query of the database is its result, [None] an error;
    a [HashSet] of files is a [gset] and the [BTreeMap] of pairs a [gmap] read
    in key order. *)
From stdpp Require Import gmap sorting.
From S2P Require Import Prelude Text Checked Order ImportPaths.
From Stdlib Require Import Lia.
Local Open Scope codesage_scope.

Record ImportPairs := mkPairs { eager : list (bytes * bytes); lazy_only : list (bytes * bytes) }.

(** The queries [file_import_pairs] makes. *)
Record Tables := mkTables {
  enumerate_file_import_pairs : option ImportPairs;
  path_import_refs : option (list (bytes * bytes * bool));
  all_file_paths : option (list bytes);
}.


Definition DECLARATION_SUFFIXES : list bytes := map bs [".d.ts"; ".d.mts"; ".d.cts"]%string.

Definition is_declaration_file (path : bytes) : bool :=
  existsb (λ suffix, ends_with suffix path) DECLARATION_SUFFIXES.

Definition loaded_target (spec from : bytes) (indexed : gset bytes) : option bytes :=
  if is_declaration_file from then None
  else List.find (λ candidate, negb (is_declaration_file candidate) && bool_decide (candidate ∈ indexed))
         (path_import_candidates spec from).

(** ** [PairSet] *)

Abbreviation PairSet := (gmap (bytes * bytes) bool).

(** Self pairs and declaration files are never edges. *)
Definition is_edge (from to_ : bytes) : bool :=
  negb (bytes_eqb from to_ || is_declaration_file from || is_declaration_file to_).

Definition add (s : PairSet) (from to_ : bytes) (lazy : bool) : PairSet :=
  if is_edge from to_ then
    <[(from, to_) := match s !! (from, to_) with Some l => l && lazy | None => lazy end]> s
  else s.

(** The entries in key order. *)
Definition sorted_entries (s : PairSet) : list ((bytes * bytes) * bool) :=
  omap (λ p, l ← s !! p; Some (p, l)) (merge_sort pair_le (map fst (map_to_list s))).

Definition into_import_pairs (s : PairSet) : ImportPairs :=
  foldl (λ out '(p, lazy),
    if (lazy : bool) then mkPairs (eager out) (lazy_only out ++ [p])
    else mkPairs (eager out ++ [p]) (lazy_only out)) (mkPairs [] []) (sorted_entries s).

Definition add_path_ref (stopped : nat → bool) (files : gset bytes) (s : PairSet) (r : bytes * bytes * bool) : T PairSet :=
  let '(from, spec, lazy) := r in
  check_at stopped ;;
  mret (match loaded_target spec from files with Some to_ => add s from to_ lazy | None => s end).

Definition file_import_pairs (stopped : nat → bool) (db : Tables) : T ImportPairs :=
  symbol_pairs ← query (enumerate_file_import_pairs db);
  path_refs ← query (path_import_refs db);
  let pairs := foldl (λ s '(from, to_), add s from to_ false) ∅ (eager symbol_pairs) in
  let pairs := foldl (λ s '(from, to_), add s from to_ true) pairs (lazy_only symbol_pairs) in
  pairs ← (match path_refs with
           | [] => mret pairs
           | _ => paths ← query (all_file_paths db);
                  for_each (add_path_ref stopped (list_to_set paths)) path_refs pairs
           end);
  mret (into_import_pairs pairs).

(** ** The edges a set of routes gives *)

(** The routes added so far decide each entry: lazy exactly when all are. *)
Definition routed (routes : list (bytes * bytes * bool)) (s : PairSet) : Prop :=
  ∀ from to_, s !! (from, to_) =
    if is_edge from to_ && bool_decide ((from, to_) ∈ map fst routes)
    then Some (bool_decide ((from, to_, false) ∉ routes)) else None.

Lemma routed_add routes s from to_ lazy : routed routes s → routed (routes ++ [(from, to_, lazy)]) (add s from to_ lazy).
Proof.
  intros H a b. rewrite map_app. unfold add.
  destruct (decide ((a, b) = (from, to_))) as [[= -> ->]|Hne].
  - destruct (is_edge from to_) eqn:Ee; cbn [andb]; [|by rewrite H, Ee].
    rewrite lookup_insert_eq, H, Ee. cbn [andb]. rewrite (bool_decide_eq_true_2 (_ ∈ _ ++ _)) by set_solver.
    f_equal. destruct (bool_decide_reflect ((from, to_) ∈ map fst routes)) as [Hin|Hin].
    + apply eq_true_iff_eq. rewrite andb_true_iff, !bool_decide_eq_true. rewrite not_elem_of_app, list_elem_of_singleton.
      destruct lazy; naive_solver.
    + assert ((from, to_, false) ∉ routes) as Hn by (intros Hr%(list_elem_of_fmap_2 fst); done).
      apply eq_true_iff_eq. rewrite bool_decide_eq_true, not_elem_of_app, list_elem_of_singleton. destruct lazy; naive_solver.
  - assert ((if is_edge from to_ then <[(from, to_) := match s !! (from, to_) with Some l => l && lazy | None => lazy end]> s
             else s) !! (a, b) = s !! (a, b)) as ->.
    { destruct (is_edge from to_); [|done]. by rewrite lookup_insert_ne. }
    rewrite H. rewrite (bool_decide_ext ((a, b) ∈ map fst routes ++ _) ((a, b) ∈ map fst routes)) by set_solver.
    by rewrite (bool_decide_ext ((a, b, false) ∉ routes ++ _) ((a, b, false) ∉ routes)) by set_solver.
Qed.

Lemma routed_adds lazy pairs routes s :
  routed routes s →
  routed (routes ++ map (λ p, (p.1, p.2, lazy)) pairs) (foldl (λ s '(from, to_), add s from to_ lazy) s pairs).
Proof.
  revert routes s; induction pairs as [|[a b] pairs IH]; intros routes s H; cbn [foldl map]; [by rewrite app_nil_r|].
  apply (routed_add _ _ a b lazy), IH in H. cbn [fst snd]. by rewrite <- app_assoc in H.
Qed.

Lemma sorted_entries_spec s :
  map fst (sorted_entries s) = merge_sort pair_le (map fst (map_to_list s))
  ∧ ∀ p l, (p, l) ∈ sorted_entries s ↔ s !! p = Some l.
Proof.
  unfold sorted_entries. set (ks := merge_sort pair_le _).
  assert (∀ p, p ∈ ks ↔ is_Some (s !! p)) as Hks.
  { intros p. unfold ks. rewrite merge_sort_Permutation, list_elem_of_fmap. split.
    - intros ([q l] & -> & H%elem_of_map_to_list). by eexists.
    - intros [l H%elem_of_map_to_list]. by exists (p, l). }
  split.
  - assert (∀ p, p ∈ ks → is_Some (s !! p)) as H by (intros p; apply Hks). clearbody ks. clear Hks.
    induction ks as [|p ks IH]; [done|]. cbn [omap list_omap]. destruct (H p ltac:(by left)) as [l Hl].
    rewrite Hl. cbn [mbind option_bind map fst]. rewrite IH; [done|]. intros q Hq. apply H. by right.
  - intros p l. rewrite list_elem_of_omap. split.
    + intros (q & Hq & E). destruct (s !! q) as [l'|] eqn:El; [|done]. by injection E as -> ->.
    + intros H. exists p. rewrite Hks, H. split; [by eexists|done].
Qed.

Lemma into_import_pairs_spec s :
  let out := into_import_pairs s in
  eager out = map fst (List.filter (λ e, negb e.2) (sorted_entries s))
  ∧ lazy_only out = map fst (List.filter (λ e, e.2) (sorted_entries s)).
Proof.
  unfold into_import_pairs. set (f := λ out _, _). cbv zeta.
  cut (∀ l out, eager (foldl f out l) = eager out ++ map fst (List.filter (λ e : (bytes * bytes) * bool, negb e.2) l)
    ∧ lazy_only (foldl f out l) = lazy_only out ++ map fst (List.filter (λ e : (bytes * bytes) * bool, e.2) l)).
  { intros H. destruct (H (sorted_entries s) (mkPairs [] [])) as [-> ->]. done. }
  induction l as [|[p []] l IH]; intros out; cbn [foldl List.filter map negb snd fst]; [by rewrite !app_nil_r| |];
    destruct (IH (f out (p, true))) as [Et Lt]; destruct (IH (f out (p, false))) as [Ef Lf];
    rewrite ?Et, ?Ef, ?Lt, ?Lf; unfold f; cbn [eager lazy_only]; by rewrite <- ?app_assoc.
Qed.

Lemma elem_of_filtered (g : bool → bool) s p :
  p ∈ map fst (List.filter (λ e : (bytes * bytes) * bool, g e.2) (sorted_entries s)) ↔ ∃ l, s !! p = Some l ∧ g l = true.
Proof.
  rewrite list_elem_of_fmap. destruct (sorted_entries_spec s) as [_ Hs]. split.
  - intros ([q l] & -> & H%list_elem_of_In). apply List.filter_In in H as [H%list_elem_of_In Hg]. exists l.
    split; [by apply Hs|done].
  - intros (l & H%Hs & Hg). exists (p, l). split; [done|]. apply list_elem_of_In, List.filter_In.
    split; [by apply list_elem_of_In|done].
Qed.

Lemma filter_sublist {A} (f : A → bool) l : List.filter f l `sublist_of` l.
Proof. induction l as [|x l IH]; simpl; [constructor|]. destruct (f x); by constructor. Qed.

Lemma sublist_sorted (R : relation (bytes * bytes)) l1 l2 :
  l1 `sublist_of` l2 → StronglySorted R l2 → NoDup l2 → StronglySorted R l1 ∧ NoDup l1.
Proof.
  induction 1 as [|x l1 l2 Hs IH|x l1 l2 Hs IH]; intros Hr Hnd.
  - by split; constructor.
  - apply StronglySorted_inv in Hr as [Hr Hx]. apply NoDup_cons in Hnd as [Hn Hnd]. destruct (IH Hr Hnd).
    assert (∀ y, y ∈ l1 → y ∈ l2) as Hsub.
    { intros y Hy. by eapply elem_of_sublist. }
    split; constructor; try done.
    + rewrite Forall_forall in Hx |- *. auto.
    + intros Hin. by apply Hn, Hsub.
  - apply StronglySorted_inv in Hr as [Hr _]. apply NoDup_cons in Hnd as [_ Hnd]. by apply IH.
Qed.

(** The result is ordered and has no pair twice. *)
Definition strictly_sorted (l : list (bytes * bytes)) : Prop := StronglySorted pair_le l ∧ NoDup l.

Lemma filtered_sorted (g : bool → bool) s :
  strictly_sorted (map fst (List.filter (λ e : (bytes * bytes) * bool, g e.2) (sorted_entries s))).
Proof.
  assert (map fst (List.filter (λ e : (bytes * bytes) * bool, g e.2) (sorted_entries s))
    `sublist_of` merge_sort pair_le (map fst (map_to_list s))) as Hsub.
  { destruct (sorted_entries_spec s) as [<- _]. apply fmap_sublist, filter_sublist. }
  eapply sublist_sorted; [exact Hsub| |].
  - apply Sorted_StronglySorted; [apply _|]. apply (Sorted_merge_sort pair_le).
  - rewrite merge_sort_Permutation. apply NoDup_fst_map_to_list.
Qed.

(** The directives that reach [to_] from [from], and whether each is lazy. *)
Inductive route (symbols : ImportPairs) (refs : list (bytes * bytes * bool)) (files : gset bytes) : bytes → bytes → bool → Prop :=
| route_eager from to_ : (from, to_) ∈ eager symbols → route symbols refs files from to_ false
| route_lazy from to_ : (from, to_) ∈ lazy_only symbols → route symbols refs files from to_ true
| route_path from spec lazy to_ :
    (from, spec, lazy) ∈ refs → loaded_target spec from files = Some to_ → route symbols refs files from to_ lazy.

(** Two distinct source files, neither a declaration file. *)
Definition edge (from to_ : bytes) : Prop :=
  from ≠ to_ ∧ is_declaration_file from = false ∧ is_declaration_file to_ = false.

Lemma is_edge_true from to_ : is_edge from to_ = true ↔ edge from to_.
Proof.
  unfold is_edge, edge. destruct (bytes_eqb_spec from to_), (is_declaration_file from), (is_declaration_file to_);
    simpl; naive_solver.
Qed.

Record import_edges (symbols : ImportPairs) (refs : list (bytes * bytes * bool)) (files : gset bytes) (out : ImportPairs) : Prop := {
  ie_eager from to_ : (from, to_) ∈ eager out ↔ edge from to_ ∧ route symbols refs files from to_ false;
  ie_lazy from to_ : (from, to_) ∈ lazy_only out ↔
    edge from to_ ∧ route symbols refs files from to_ true ∧ ¬ route symbols refs files from to_ false;
  ie_sorted : strictly_sorted (eager out) ∧ strictly_sorted (lazy_only out);
}.

Definition ref_route (files : gset bytes) (r : bytes * bytes * bool) : option (bytes * bytes * bool) :=
  let '(from, spec, lazy) := r in to_ ← loaded_target spec from files; Some (from, to_, lazy).

Definition all_routes (symbols : ImportPairs) (refs : list (bytes * bytes * bool)) (files : gset bytes) :=
  (map (λ p, (p.1, p.2, false)) (eager symbols) ++ map (λ p, (p.1, p.2, true)) (lazy_only symbols))
  ++ omap (ref_route files) refs.

Lemma elem_of_all_routes symbols refs files from to_ lazy :
  (from, to_, lazy) ∈ all_routes symbols refs files ↔ route symbols refs files from to_ lazy.
Proof.
  unfold all_routes. rewrite !elem_of_app, !list_elem_of_fmap, list_elem_of_omap. split.
  - intros [[([a b] & E & H)|([a b] & E & H)]|([[a sp] l] & H & E)].
    + injection E as -> -> ->. by apply route_eager.
    + injection E as -> -> ->. by apply route_lazy.
    + cbn in E. destruct (loaded_target sp a files) eqn:El; [|done]. injection E as -> -> ->. by eapply route_path.
  - intros [a b H|a b H|a sp l b H El]; [left; left; by exists (a, b)|left; right; by exists (a, b)|right].
    exists (a, sp, l). split; [done|]. cbn. by rewrite El.
Qed.

Lemma routed_import_edges symbols refs files s :
  routed (all_routes symbols refs files) s → import_edges symbols refs files (into_import_pairs s).
Proof.
  intros Hs. destruct (into_import_pairs_spec s) as [Ee El].
  assert (∀ from to_ l, s !! (from, to_) = Some l ↔ edge from to_ ∧
    (∃ lazy, route symbols refs files from to_ lazy) ∧ (l = false ↔ route symbols refs files from to_ false)) as Hlk.
  { intros from to_ l. rewrite Hs, <- is_edge_true, <- elem_of_all_routes.
    assert ((from, to_) ∈ map fst (all_routes symbols refs files) ↔ ∃ lazy, route symbols refs files from to_ lazy) as Hr.
    { setoid_rewrite <- elem_of_all_routes. rewrite list_elem_of_fmap. split.
      - intros ([[a b] lz] & [= -> ->] & H). eauto.
      - intros [lz H]. by exists (from, to_, lz). }
    rewrite <- Hr. destruct (is_edge from to_); cbn [andb]; [|naive_solver].
    destruct (bool_decide_reflect ((from, to_) ∈ map fst (all_routes symbols refs files))); [|naive_solver].
    destruct (bool_decide_reflect ((from, to_, false) ∉ all_routes symbols refs files)) as [Hn|Hn];
      [|apply dec_stable in Hn]; destruct l; naive_solver. }
  split; [| |by rewrite Ee, El; split; apply (filtered_sorted negb) || apply (filtered_sorted (λ b, b))].
  - intros from to_. rewrite Ee, (elem_of_filtered negb). setoid_rewrite Hlk. split.
    + intros ([] & (He & Hr & Hl) & Ht); [done|]. split; [done|]. by apply Hl.
    + intros [? ?]. exists false. split; [|done]. split; [done|]. split; [by eexists|done].
  - intros from to_. rewrite El, (elem_of_filtered (λ b, b)). setoid_rewrite Hlk. split.
    + intros ([] & (He & [lz Hr] & Hl) & Ht); [|done]. split; [done|].
      assert (¬ route symbols refs files from to_ false) as Hn by (intros ?%Hl; done). by destruct lz.
    + intros (? & ? & Hn). exists true. split; [|done]. split; [done|]. split; [by eexists|]. split; [done|by intros ?%Hn].
Qed.

Lemma path_refs_routed stopped files base refs s :
  routed base s →
  safe stopped (for_each (add_path_ref stopped files) refs s) (routed (base ++ omap (ref_route files) refs)).
Proof.
  intros H. apply (safe_for_each stopped _ (λ done, routed (base ++ omap (ref_route files) done))).
  - intros a [[from spec] lazy] b s' _ Hs. unfold add_path_ref. apply safe_check, safe_ret.
    rewrite omap_app. cbn [omap list_omap ref_route]. destruct (loaded_target spec from files); cbn [mbind option_bind].
    + rewrite app_assoc. by apply routed_add.
    + by rewrite app_nil_r.
  - cbn. by rewrite app_nil_r.
Qed.

(** [file_import_pairs] on a database that answers. *)
Lemma file_import_pairs_ok stopped db symbols refs paths :
  enumerate_file_import_pairs db = Some symbols → path_import_refs db = Some refs →
  (refs = [] ∨ all_file_paths db = Some paths) →
  safe stopped (file_import_pairs stopped db) (import_edges symbols refs (list_to_set paths)).
Proof.
  intros Es Er Ep. unfold file_import_pairs. rewrite Es, Er. cbn [query]. do 2 apply safe_ret_bind.
  assert (routed [] ∅) as H0 by (intros a b; rewrite lookup_empty; by destruct (is_edge a b)).
  apply (routed_adds false (eager symbols)) in H0. apply (routed_adds true (lazy_only symbols)) in H0.
  rewrite app_nil_l in H0.
  eapply (safe_bind _ _ _ (routed (all_routes symbols refs (list_to_set paths)))).
  - destruct refs as [|r refs].
    + apply safe_ret. unfold all_routes. cbn. by rewrite app_nil_r.
    + destruct Ep as [|Ep]; [done|]. rewrite Ep. apply safe_ret_bind. by apply path_refs_routed.
  - intros s Hs. apply safe_ret. by apply routed_import_edges.
Qed.

(** The import graph has exactly one edge for each pair of distinct files,
    declaration files apart, that some directive joins: eager when a load-time directive does,
    by symbol or through the first indexed candidate of a specifier, lazy when
    only lazy ones do; both lists are sorted without repetition.  It
    fails only when a query it makes fails or the work is cancelled. *)
Theorem file_import_pairs_correct stopped db t :
  match file_import_pairs stopped db t with
  | inl QueryFailed => enumerate_file_import_pairs db = None ∨ path_import_refs db = None ∨ all_file_paths db = None
  | inl e => e = Cancelled ∧ ∃ t', stopped t' = true
  | inr (out, _) => ∃ symbols refs paths,
      enumerate_file_import_pairs db = Some symbols ∧ path_import_refs db = Some refs
      ∧ (refs = [] ∨ all_file_paths db = Some paths)
      ∧ import_edges symbols refs (list_to_set paths) out
  end.
Proof.
  destruct (enumerate_file_import_pairs db) as [symbols|] eqn:Es;
    [|unfold file_import_pairs; rewrite Es; cbn; by left].
  destruct (path_import_refs db) as [refs|] eqn:Er;
    [|unfold file_import_pairs; rewrite Es, Er; cbn; by right; left].
  destruct (decide (refs = [] ∨ all_file_paths db ≠ None)) as [Hq|Hq].
  - assert (∃ paths, refs = [] ∨ all_file_paths db = Some paths) as [paths Hp].
    { destruct Hq as [|Hq]; [by exists []; left|]. destruct (all_file_paths db) as [p|]; [by exists p; right|done]. }
    pose proof (file_import_pairs_ok stopped db symbols refs paths Es Er Hp t) as H.
    destruct (file_import_pairs stopped db t) as [e|[out t']]; [by destruct H as [-> H]|].
    by exists symbols, refs, paths.
  - assert (all_file_paths db = None ∧ ∃ r refs', refs = r :: refs') as [Ep (r & refs' & ->)].
    { destruct refs as [|r refs]; [tauto|]. split; [|eauto]. destruct (all_file_paths db); [|done]. exfalso. apply Hq. by right. }
    unfold file_import_pairs. rewrite Es, Er, Ep. cbn. by right; right.
Qed.

Example import_graph_demo :
  let e (a b : string) := (bs a, bs b) in
  let db := mkTables (Some (mkPairs [e "a.py" "b.py"] [e "a.py" "b.py"; e "b.py" "c.py"]))
    (Some [(bs "src/m.ts", bs "./n.js", false); (bs "src/n.ts", bs "./types", false)])
    (Some (map bs ["src/m.ts"; "src/n.ts"; "src/types.d.ts"]))%string in
  file_import_pairs (λ _, false) db 0
  = inr (mkPairs [e "a.py" "b.py"; e "src/m.ts" "src/n.ts"] [e "b.py" "c.py"], 2)%string.
Proof. vm_compute. reflexivity. Qed.
