(* ===== verification/ImportCycles.v ===== *)
(** * ImportCycles: import cycles, and the lazy imports that avoid them

    Models [ImportCycles] and [component_index] of
    [src/crates/graph/src/git_history/risk.rs], over the graph of ImportGraph
    and the components of Scc, and [find_cycles_touching],
    [cycle_entry_for_file] and [pick_max_churn] that report them.  A [u32] is [N],
    wrapped at [2^32]. *)
From stdpp Require Import gmap relations sorting.
From S2P Require Import Prelude Text Checked Order Scc ImportGraph.
From Stdlib Require Import Lia NArith.
Local Open Scope codesage_scope.

Record ImportCycles := mkCycles {
  components : list (list bytes);
  suppressed_pairs : list (bytes * bytes);
  suppressed_by_file : gmap bytes N;
  suppressed_from : gmap bytes (list bytes);
  component_edges : list (bytes * bytes);
}.

Definition U32 : N := 4294967296.
Definition as_u32 (n : N) : N := (n mod U32)%N.
Definition u32_add (a b : N) : N := as_u32 (a + b).
Definition u32_sub (a b : N) : N := as_u32 (a + U32 - b).

Definition component_index (comps : list (list bytes)) : gmap bytes nat :=
  foldl (λ index '(i, component), foldl (λ index file, <[file := i]> index) index component) ∅
    (List.filter (λ ic : nat * list bytes, 2 <=? length ic.2) (imap pair comps)).

Definition same_component (index : gmap bytes nat) (p : bytes * bytes) : bool :=
  match index !! p.1, index !! p.2 with Some a, Some b => Nat.eqb a b | _, _ => false end.

Definition count_pair (m : gmap bytes N) (p : bytes * bytes) : gmap bytes N :=
  let m := <[p.1 := u32_add (default 0%N (m !! p.1)) 1]> m in
  <[p.2 := u32_add (default 0%N (m !! p.2)) 1]> m.

Definition push_from (m : gmap bytes (list bytes)) (p : bytes * bytes) : gmap bytes (list bytes) :=
  <[p.1 := default [] (m !! p.1) ++ [p.2]]> m.

Definition load (stopped : nat → bool) (db : Tables) : T ImportCycles :=
  pairs ← file_import_pairs stopped db;
  comps ← tarjan_scc stopped (eager pairs);
  let index := component_index comps in
  let edges := List.filter (same_component index) (eager pairs) in
  suppressed ←
    (match lazy_only pairs with
     | [] => mret []
     | _ =>
         full ← tarjan_scc stopped (eager pairs ++ lazy_only pairs);
         let full_component := component_index full in
         mret (List.filter (λ p, same_component full_component p && negb (same_component index p)) (lazy_only pairs))
     end);
  mret (mkCycles comps suppressed (foldl count_pair ∅ suppressed) (foldl push_from ∅ suppressed) edges).

Definition empty : ImportCycles := mkCycles [] [] ∅ ∅ [].

Definition edges_within (c : ImportCycles) (members : list bytes) : list (bytes * bytes) :=
  let set : gset bytes := list_to_set members in
  List.filter (λ p, bool_decide (p.1 ∈ set) && bool_decide (p.2 ∈ set)) (component_edges c).

Definition lazy_edges_for (c : ImportCycles) (file : bytes) : N := default 0%N (suppressed_by_file c !! file).

Definition lazy_edges_touching (c : ImportCycles) (members : list bytes) : N :=
  let set : gset bytes := list_to_set members in
  let incident := foldl u32_add 0%N (map (lazy_edges_for c) members) in
  let internal := length (List.filter (λ to_, bool_decide (to_ ∈ set))
                            (concat (omap (λ m, suppressed_from c !! m) members))) in
  u32_sub incident (as_u32 (N.of_nat internal)).

(** ** Reporting cycles *)

Record CycleEntry := mkEntry {
  members : list bytes;
  size_ : N;
  max_churn_file : option bytes;
  lazy_edges : N;
}.

(** [Vec<String>]'s order. *)
Fixpoint names_leb (a b : list bytes) : bool :=
  match a, b with
  | [], _ => true
  | _ :: _, [] => false
  | x :: a', y :: b' => if bytes_eqb x y then names_leb a' b' else bytes_leb x y
  end.

(** The comparison of [out.sort_by]: larger cycles first. *)
Definition entry_le (a b : CycleEntry) : Prop :=
  if N.eqb (size_ a) (size_ b) then names_leb (members a) (members b) = true else (size_ b < size_ a)%N.

#[export] Instance entry_le_decision a b : Decision (entry_le a b).
Proof. unfold entry_le. destruct (N.eqb _ _); apply _. Defined.

Section report.
(** [F] is [f64], [F_le] its [<=], and [git_file] the churn score the history
    table gives for a file. *)
Context {F : Type} (F_le : F → F → bool) (git_file : bytes → option (option F)) (stopped : nat → bool).

Definition churn_step (best : option (F * bytes)) (m : bytes) : T (option (F * bytes)) :=
  check_at stopped ;;
  row ← query (git_file m);
  mret (match row with
        | Some churn =>
            match best with
            | Some (score, _) => if F_le churn score then best else Some (churn, m)
            | None => Some (churn, m)
            end
        | None => best
        end).

Definition pick_max_churn (ms : list bytes) : T (option bytes) :=
  best ← for_each churn_step ms None; mret (snd <$> best).

Definition cycle_entry (c : ImportCycles) (component : list bytes) : T CycleEntry :=
  churn ← pick_max_churn component;
  let ms := merge_sort bytes_le component in
  mret (mkEntry ms (as_u32 (N.of_nat (length ms))) churn (lazy_edges_touching c component)).

Definition report_component (patch : gset bytes) (c : ImportCycles) (out : list CycleEntry) (component : list bytes)
    : T (list CycleEntry) :=
  check_at stopped ;;
  if length component <? 2 then mret out
  else if negb (existsb (λ f, bool_decide (f ∈ patch)) component) then mret out
  else entry ← cycle_entry c component; mret (out ++ [entry]).

Definition find_cycles_touching (c : ImportCycles) (patch_files : list bytes) : T (list CycleEntry) :=
  let patch : gset bytes := list_to_set patch_files in
  out ← for_each (report_component patch c) (components c) [];
  mret (merge_sort entry_le out).

Fixpoint cycle_entry_for_file (c : ImportCycles) (comps : list (list bytes)) (file_path : bytes) : T (option CycleEntry) :=
  match comps with
  | [] => mret None
  | component :: comps =>
      if length component <? 2 then cycle_entry_for_file c comps file_path
      else if negb (existsb (λ f, bytes_eqb f file_path) component) then cycle_entry_for_file c comps file_path
      else
        let ms := merge_sort bytes_le component in
        churn ← pick_max_churn ms;
        mret (Some (mkEntry ms (as_u32 (N.of_nat (length ms))) churn (lazy_edges_touching c ms)))
  end.
End report.

(** ** Components and their index *)

Lemma index_component (ic : nat * list bytes) (index : gmap bytes nat) (file : bytes) :
  foldl (λ index file, <[file := ic.1]> index) index ic.2 !! file
  = if bool_decide (file ∈ ic.2) then Some ic.1 else index !! file.
Proof.
  destruct ic as [i c]; cbn [fst snd]. revert index. induction c as [|x c IH]; intros index; cbn [foldl]; [done|].
  rewrite IH. destruct (decide (x = file)) as [->|Hne].
  - rewrite lookup_insert_eq, (bool_decide_eq_true_2 (file ∈ file :: c)) by (by left). by destruct (bool_decide _).
  - rewrite lookup_insert_ne by done. by rewrite (bool_decide_ext (file ∈ x :: c) (file ∈ c)) by set_solver.
Qed.

Lemma index_components (l : list (nat * list bytes)) (index : gmap bytes nat) (file : bytes) (i : nat) :
  NoDup (concat (map snd l)) →
  foldl (λ index '(i, component), foldl (λ index file, <[file := i]> index) index component) index l !! file = Some i
  ↔ (∃ c, (i, c) ∈ l ∧ file ∈ c) ∨ (index !! file = Some i ∧ file ∉ concat (map snd l)).
Proof.
  revert index; induction l as [|[j c] l IH]; intros index Hnd; cbn [foldl map snd concat].
  - split; [intros H; right; split; [done|apply not_elem_of_nil]|]. intros [(c & ?%elem_of_nil & _)|[? _]]; done.
  - cbn [map snd concat] in Hnd. apply NoDup_app in Hnd as (Hc & Hd & Hnd).
    rewrite IH by done. rewrite (index_component (j, c)). cbn [fst snd].
    assert (∀ k d, (k, d) ∈ l → file ∈ d → file ∈ concat (map snd l)) as Hcat.
    { intros k d Hk Hf. apply elem_of_concat. exists d. split; [|done]. apply list_elem_of_fmap. by exists (k, d). }
    rewrite not_elem_of_app. setoid_rewrite elem_of_cons.
    destruct (bool_decide_reflect (file ∈ c)) as [Hf|Hf].
    + assert (file ∉ concat (map snd l)) as Hn by by apply Hd. naive_solver.
    + naive_solver.
Qed.

Lemma imap_pairs_filter (g : list bytes → bool) (f : nat → list bytes → nat * list bytes) comps :
  (∀ i c, (f i c).2 = c) → map snd (List.filter (λ ic, g ic.2) (imap f comps)) = List.filter g comps.
Proof.
  revert f; induction comps as [|c comps IH]; intros f Hf; [done|]. cbn [imap List.filter]. rewrite Hf.
  specialize (IH (f ∘ S) ltac:(intros; apply Hf)). destruct (g c); cbn [map]; rewrite IH; [by rewrite Hf|done].
Qed.

Lemma NoDup_concat_filter {A} (g : list A → bool) (ls : list (list A)) :
  NoDup (concat ls) → NoDup (concat (List.filter g ls)) ∧ ∀ x, x ∈ concat (List.filter g ls) → x ∈ concat ls.
Proof.
  induction ls as [|l ls IH]; cbn [concat List.filter]; [done|]. intros (Hl & Hd & Hls)%NoDup_app.
  destruct (IH Hls) as [Hn Hs]. destruct (g l); cbn [concat].
  - split; [apply NoDup_app; naive_solver|]. intros x. rewrite !elem_of_app. naive_solver.
  - split; [done|]. intros x ?. rewrite elem_of_app. auto.
Qed.

Lemma component_index_lookup comps (file : bytes) i :
  NoDup (concat comps) →
  component_index comps !! file = Some i ↔ ∃ c, comps !! i = Some c ∧ 2 ≤ length c ∧ file ∈ c.
Proof.
  intros Hnd. unfold component_index. set (l := List.filter _ _).
  assert (∀ j c, (j, c) ∈ l ↔ comps !! j = Some c ∧ 2 ≤ length c) as Hl.
  { intros j c. unfold l. rewrite list_elem_of_In, List.filter_In, <- list_elem_of_In. cbn [snd].
    rewrite list_elem_of_lookup, Nat.leb_le. setoid_rewrite list_lookup_imap_Some. split.
    - intros [(k & d & Hd & [= -> ->]) ?]. done.
    - intros [Hd ?]. split; [|done]. by exists j, c. }
  rewrite index_components.
  - setoid_rewrite Hl. rewrite lookup_empty. naive_solver.
  - unfold l. rewrite (imap_pairs_filter (λ c, 2 <=? length c)) by done. by apply NoDup_concat_filter.
Qed.

(** Two distinct files share a component when each reaches the other. *)
Lemma same_component_true edges comps a b :
  strongly_connected edges comps → a ≠ b →
  same_component (component_index comps) (a, b) = true ↔ rtc (imports edges) a b ∧ rtc (imports edges) b a.
Proof.
  intros [Hnd Hnodes Hclass _] Hne. unfold same_component. cbn [fst snd]. split.
  - destruct (component_index comps !! a) as [i|] eqn:Ea; [|done].
    destruct (component_index comps !! b) as [j|] eqn:Eb; [|done]. intros ->%Nat.eqb_eq.
    apply component_index_lookup in Ea as (c & Hc & _ & Ha); [|done].
    apply component_index_lookup in Eb as (c' & Hc' & _ & Hb); [|done]. simplify_eq.
    apply (Hclass c); [by apply list_elem_of_lookup_2 in Hc|done|done].
  - intros [Hab Hba].
    assert (a ∈ concat comps) as (c & Hc & Ha)%elem_of_concat.
    { apply Hnodes, elem_of_endpoints. destruct Hab as [|a b' b Hs _]; [done|]. exists a, b'. split; [exact Hs|by left]. }
    assert (b ∈ c) as Hb by by apply (Hclass c a b Hc Ha).
    apply list_elem_of_lookup in Hc as [i Hi].
    assert (2 ≤ length c) as Hlen.
    { destruct c as [|x [|y c]]; simpl; [by apply elem_of_nil in Ha| |lia].
      apply list_elem_of_singleton in Ha, Hb. congruence. }
    assert (∀ f, f ∈ c → component_index comps !! f = Some i) as Hidx.
    { intros f Hf. apply component_index_lookup; [done|]. eauto. }
    rewrite (Hidx a Ha), (Hidx b Hb). apply Nat.eqb_refl.
Qed.

(** ** Counting suppressed pairs *)

Definition count_where {A} (f : A → bool) (l : list A) : nat := length (List.filter f l).

Lemma count_where_cons {A} (f : A → bool) x l : count_where f (x :: l) = (if f x then 1 else 0) + count_where f l.
Proof. unfold count_where. cbn [List.filter]. by destruct (f x). Qed.

Lemma count_where_nil {A} (f : A → bool) : count_where f [] = 0.
Proof. done. Qed.

Lemma count_where_app {A} (f : A → bool) l1 l2 : count_where f (l1 ++ l2) = count_where f l1 + count_where f l2.
Proof. unfold count_where. by rewrite List.filter_app, length_app. Qed.

Lemma count_where_ext {A} (f g : A → bool) l : (∀ x, f x = g x) → count_where f l = count_where g l.
Proof. intros H. unfold count_where. by rewrite (List.filter_ext _ _ H). Qed.

Lemma count_where_or {A} (f g : A → bool) l :
  count_where f l + count_where g l = count_where (λ x, f x || g x) l + count_where (λ x, f x && g x) l.
Proof.
  induction l as [|x l IH]; [done|]. rewrite !count_where_cons. destruct (f x), (g x); simpl; lia.
Qed.

Lemma count_where_le {A} (f : A → bool) l : count_where f l ≤ length l.
Proof. unfold count_where. induction l as [|x l IH]; simpl; [lia|]. destruct (f x); simpl; lia. Qed.

(** Summing over the values of a key counts each element once. *)
Lemma count_by_key {A} (key : A → bytes) (g : A → bool) (ms : list bytes) l :
  NoDup ms →
  sum_list_with (λ m, count_where (λ x, bytes_eqb (key x) m && g x) l) ms
  = count_where (λ x, bool_decide (key x ∈ ms) && g x) l.
Proof.
  induction 1 as [|m ms Hm Hms IH]; cbn [sum_list_with].
  - unfold count_where. induction l as [|x l IH]; [done|]. cbn [List.filter].
    by rewrite bool_decide_eq_false_2 by apply not_elem_of_nil.
  - rewrite IH. clear IH. induction l as [|x l IH]; [done|]. rewrite !count_where_cons.
    destruct (bytes_eqb_spec (key x) m) as [->|Hne].
    + rewrite (bool_decide_eq_false_2 (m ∈ ms)), (bool_decide_eq_true_2 (m ∈ m :: ms)) by (done || by left).
      destruct (g x); simpl in *; lia.
    + rewrite (bool_decide_ext (key x ∈ m :: ms) (key x ∈ ms)) by set_solver.
      destruct (bool_decide _), (g x); simpl in *; lia.
Qed.

(** The pairs with [f] at one end, a pair of [f] with itself twice. *)
Definition occurrences (f : bytes) (l : list (bytes * bytes)) : nat :=
  count_where (λ p, bytes_eqb p.1 f) l + count_where (λ p, bytes_eqb p.2 f) l.

Lemma u32_add_as_u32 a b : u32_add (as_u32 a) b = as_u32 (a + b).
Proof. unfold u32_add, as_u32. by rewrite N.Div0.add_mod_idemp_l. Qed.

Lemma u32_sub_small x y : (y ≤ x → x < U32 → u32_sub (as_u32 x) (as_u32 y) = x - y)%N.
Proof.
  intros Hle Hx. unfold u32_sub, as_u32. rewrite (N.mod_small x), (N.mod_small y) by lia.
  replace (x + U32 - y)%N with (x - y + 1 * U32)%N by lia. rewrite N.Div0.mod_add, N.mod_small by lia. done.
Qed.

Lemma suppressed_by_file_count f l : default 0%N (foldl count_pair ∅ l !! f) = as_u32 (N.of_nat (occurrences f l)).
Proof.
  induction l as [|p l IH] using rev_ind; [done|]. rewrite foldl_snoc. unfold occurrences in *.
  rewrite !count_where_app. rewrite !(count_where_cons _ p []).
  set (m := foldl count_pair ∅ l) in *. unfold count_pair.
  assert (∀ (m : gmap bytes N) k, default 0%N (<[k := u32_add (default 0%N (m !! k)) 1]> m !! f)
    = if bytes_eqb k f then u32_add (default 0%N (m !! f)) 1 else default 0%N (m !! f)) as Hins.
  { intros m' k. destruct (bytes_eqb_spec k f) as [->|]; [by rewrite lookup_insert_eq|by rewrite lookup_insert_ne]. }
  rewrite Hins, Hins, IH, !count_where_nil.
  destruct (bytes_eqb p.1 f), (bytes_eqb p.2 f); rewrite ?u32_add_as_u32; f_equal; lia.
Qed.

Lemma suppressed_from_pairs f l :
  default [] (foldl push_from ∅ l !! f) = map snd (List.filter (λ p, bytes_eqb p.1 f) l).
Proof.
  induction l as [|p l IH] using rev_ind; [done|]. rewrite foldl_snoc, List.filter_app, map_app, <- IH.
  unfold push_from. cbn [List.filter]. destruct (bytes_eqb_spec p.1 f) as [<-|Hne].
  - by rewrite lookup_insert_eq.
  - rewrite lookup_insert_ne by done. by rewrite app_nil_r.
Qed.

Lemma sum_u32 (f : bytes → nat) ms :
  foldl u32_add 0%N (map (λ m, as_u32 (N.of_nat (f m))) ms) = as_u32 (N.of_nat (sum_list_with f ms)).
Proof.
  cut (∀ n, foldl u32_add (as_u32 n) (map (λ m, as_u32 (N.of_nat (f m))) ms) = as_u32 (n + N.of_nat (sum_list_with f ms))).
  { intros H. apply (H 0%N). }
  induction ms as [|m ms IH]; intros n; cbn [map foldl sum_list_with]; [by rewrite N.add_0_r|].
  assert (u32_add (as_u32 n) (as_u32 (N.of_nat (f m))) = as_u32 (n + N.of_nat (f m))) as ->.
  { unfold u32_add, as_u32. by rewrite <- N.Div0.add_mod. }
  rewrite IH. f_equal. lia.
Qed.

Lemma internal_count c ms l (g : bytes → bool) :
  NoDup ms → suppressed_from c = foldl push_from ∅ l →
  length (List.filter g (concat (omap (λ m, suppressed_from c !! m) ms)))
  = count_where (λ p, bool_decide (p.1 ∈ ms) && g p.2) l.
Proof.
  intros Hnd Hc. rewrite <- (count_by_key fst (λ p, g p.2) ms l Hnd). clear Hnd. rewrite Hc.
  induction ms as [|m ms IH]; [done|]. cbn [sum_list_with omap list_omap].
  assert (count_where (λ x : bytes * bytes, bytes_eqb x.1 m && g x.2) l
    = length (List.filter g (default [] (foldl push_from ∅ l !! m)))) as ->.
  { rewrite suppressed_from_pairs. unfold count_where. clear. induction l as [|p l IH]; [done|].
    cbn [List.filter]. destruct (bytes_eqb p.1 m); cbn [andb]; [|done]. cbn [map List.filter].
    destruct (g p.2); cbn [length]; by rewrite IH. }
  destruct (foldl push_from ∅ l !! m) as [tos|]; cbn [default from_option concat]; [|done].
  by rewrite List.filter_app, length_app, <- IH.
Qed.

Lemma lazy_edges_touching_count c ms :
  NoDup ms → suppressed_by_file c = foldl count_pair ∅ (suppressed_pairs c) →
  suppressed_from c = foldl push_from ∅ (suppressed_pairs c) →
  (2 * N.of_nat (length (suppressed_pairs c)) < U32)%N →
  lazy_edges_touching c ms
  = N.of_nat (count_where (λ p, bool_decide (p.1 ∈ ms) || bool_decide (p.2 ∈ ms)) (suppressed_pairs c)).
Proof.
  intros Hnd Hby Hfrom Hbound. unfold lazy_edges_touching. set (l := suppressed_pairs c) in *.
  rewrite (internal_count c ms l) by done.
  rewrite (map_ext (lazy_edges_for c) (λ m, as_u32 (N.of_nat (occurrences m l)))).
  2:{ intros m. unfold lazy_edges_for. rewrite Hby. apply suppressed_by_file_count. }
  rewrite sum_u32.
  assert (sum_list_with (λ m, occurrences m l) ms
    = count_where (λ p, bool_decide (p.1 ∈ ms)) l + count_where (λ p, bool_decide (p.2 ∈ ms)) l) as ->.
  { rewrite <- (count_where_ext (λ x, bool_decide (x.1 ∈ ms) && true) (λ p, bool_decide (p.1 ∈ ms)))
      by (intros; apply andb_true_r).
    rewrite <- (count_where_ext (λ x, bool_decide (x.2 ∈ ms) && true) (λ p, bool_decide (p.2 ∈ ms)))
      by (intros; apply andb_true_r).
    rewrite <- (count_by_key fst (λ _, true)), <- (count_by_key snd (λ _, true)) by done.
    unfold occurrences. clear. induction ms as [|m ms IH]; [done|]. cbn [sum_list_with]. rewrite IH.
    rewrite (count_where_ext (λ x, bytes_eqb x.1 m && true) (λ p, bytes_eqb p.1 m)) by (intros; apply andb_true_r).
    rewrite (count_where_ext (λ x, bytes_eqb x.2 m && true) (λ p, bytes_eqb p.2 m)) by (intros; apply andb_true_r). lia. }
  rewrite (count_where_ext (λ p, bool_decide (p.1 ∈ ms) && bool_decide (p.2 ∈ (list_to_set ms : gset bytes)))
             (λ p, bool_decide (p.1 ∈ ms) && bool_decide (p.2 ∈ ms))).
  2:{ intros p. by rewrite (bool_decide_ext (p.2 ∈ (list_to_set ms : gset bytes)) (p.2 ∈ ms)) by apply elem_of_list_to_set. }
  pose proof (count_where_or (λ p, bool_decide (p.1 ∈ ms)) (λ p, bool_decide (p.2 ∈ ms)) l) as Hor.
  pose proof (count_where_le (λ p, bool_decide (p.1 ∈ ms)) l). pose proof (count_where_le (λ p, bool_decide (p.2 ∈ ms)) l).
  cbn beta in Hor. rewrite Hor, u32_sub_small by lia. lia.
Qed.

(** ** What [load] finds *)

Definition touched (ms : list bytes) (l : list (bytes * bytes)) : nat :=
  count_where (λ p, bool_decide (p.1 ∈ ms) || bool_decide (p.2 ∈ ms)) l.

Record describes (pairs : ImportPairs) (c : ImportCycles) : Prop := {
  ds_components : strongly_connected (eager pairs) (components c);
  ds_edges a b : (a, b) ∈ component_edges c ↔ (a, b) ∈ eager pairs ∧ rtc (imports (eager pairs)) b a;
  ds_suppressed a b : (a, b) ∈ suppressed_pairs c ↔
    (a, b) ∈ lazy_only pairs ∧ rtc (imports (eager pairs ++ lazy_only pairs)) b a
    ∧ ¬ (rtc (imports (eager pairs)) a b ∧ rtc (imports (eager pairs)) b a);
  ds_touching ms : NoDup ms → (2 * N.of_nat (length (suppressed_pairs c)) < U32)%N →
    lazy_edges_touching c ms = N.of_nat (touched ms (suppressed_pairs c));
}.

Lemma elem_of_list_filter {A} (f : A → bool) l x : x ∈ List.filter f l ↔ x ∈ l ∧ f x = true.
Proof. by rewrite !list_elem_of_In, List.filter_In. Qed.

Lemma describe pairs comps full suppressed :
  (∀ a b, (a, b) ∈ eager pairs ∨ (a, b) ∈ lazy_only pairs → a ≠ b) →
  strongly_connected (eager pairs) comps → strongly_connected (eager pairs ++ lazy_only pairs) full →
  suppressed = List.filter (λ p, same_component (component_index full) p
                                 && negb (same_component (component_index comps) p)) (lazy_only pairs) →
  describes pairs (mkCycles comps suppressed (foldl count_pair ∅ suppressed) (foldl push_from ∅ suppressed)
                     (List.filter (same_component (component_index comps)) (eager pairs))).
Proof.
  intros Hne Hc Hf ->. split; cbn [components suppressed_pairs component_edges].
  - done.
  - intros a b. rewrite elem_of_list_filter. split.
    + intros [He Hs]. split; [done|]. apply (same_component_true _ _ _ _ Hc) in Hs; [tauto|by apply Hne; left].
    + intros [He Hr]. split; [done|]. apply (same_component_true _ _ _ _ Hc); [by apply Hne; left|].
      split; [|done]. by apply rtc_once.
  - intros a b. rewrite elem_of_list_filter, andb_true_iff, negb_true_iff, <- not_true_iff_false.
    assert ((a, b) ∈ lazy_only pairs → a ≠ b) as Hne' by (intros; apply Hne; by right). split.
    + intros (Hl & Hs & Hn). specialize (Hne' Hl). rewrite (same_component_true _ _ _ _ Hc) in Hn by done.
      apply (same_component_true _ _ _ _ Hf) in Hs; [tauto|done].
    + intros (Hl & Hr & Hn). specialize (Hne' Hl). split; [done|].
      rewrite (same_component_true _ _ _ _ Hc), (same_component_true _ _ _ _ Hf) by done. split; [|done].
      split; [|done]. apply rtc_once. apply elem_of_app. by right.
  - intros ms Hnd Hb. by apply lazy_edges_touching_count.
Qed.

Lemma load_ok stopped db symbols refs paths :
  enumerate_file_import_pairs db = Some symbols → path_import_refs db = Some refs →
  (refs = [] ∨ all_file_paths db = Some paths) →
  safe stopped (load stopped db)
    (λ c, ∃ pairs, import_edges symbols refs (list_to_set paths) pairs ∧ describes pairs c).
Proof.
  intros Es Er Ep. unfold load. eapply safe_bind; [by apply file_import_pairs_ok|]. intros pairs Hp.
  assert (∀ a b, (a, b) ∈ eager pairs ∨ (a, b) ∈ lazy_only pairs → a ≠ b) as Hne.
  { intros a b [[[? _] _]%(ie_eager _ _ _ _ Hp)|[[? _] _]%(ie_lazy _ _ _ _ Hp)]; done. }
  eapply safe_bind; [apply tarjan_scc_ok|]. intros comps Hc.
  eapply (safe_bind _ _ _ (λ suppressed, ∃ full, strongly_connected (eager pairs ++ lazy_only pairs) full
    ∧ suppressed = List.filter (λ p, same_component (component_index full) p
                                 && negb (same_component (component_index comps) p)) (lazy_only pairs))).
  - destruct (lazy_only pairs) as [|p l] eqn:El.
    + apply safe_ret. exists comps. by rewrite app_nil_r.
    + rewrite <- El. eapply safe_bind; [apply tarjan_scc_ok|]. intros full Hfull. apply safe_ret. by exists full.
  - intros suppressed (full & Hf & Hsup). apply safe_ret. exists pairs. split; [done|]. by eapply describe.
Qed.

(** C20. The import cycles of an answering database are those of its import graph:
    the components are the classes of files that import each other at load
    time, the component edges are the load-time edges on a cycle, and a
    lazy edge is suppressed exactly when it lies on a cycle of the whole graph
    whose ends no load-time cycle joins; the lazy edges reported for
    a set of files are the suppressed ones touching it, each once, with no underflow. *)
Theorem import_cycles_correct stopped db symbols refs paths t :
  enumerate_file_import_pairs db = Some symbols → path_import_refs db = Some refs → all_file_paths db = Some paths →
  match load stopped db t with
  | inl e => e = Cancelled ∧ ∃ t', stopped t' = true
  | inr (c, _) => ∃ pairs, import_edges symbols refs (list_to_set paths) pairs ∧ describes pairs c
  end.
Proof. intros Es Er Ep. by eapply load_ok; [|done|right]. Qed.

Definition demo_tables : Tables :=
  let e (a b : string) := (bs a, bs b) in
  mkTables (Some (mkPairs [e "a" "b"; e "b" "a"; e "b" "c"] [e "c" "a"; e "a" "b"; e "b" "a"])%string) (Some []) (Some []).

Lemma import_cycles_correct_witness :
  ∃ c t, load (λ _, false) demo_tables 0 = inr (c, t) ∧ components c = [[bs "c"]; [bs "b"; bs "a"]]%string
    ∧ suppressed_pairs c = [(bs "c", bs "a")] ∧ lazy_edges_touching c [bs "b"; bs "a"] = 1%N
    ∧ ∃ pairs, describes pairs c.
Proof.
  pose proof (import_cycles_correct (λ _, false) demo_tables _ _ _ 0 eq_refl eq_refl eq_refl) as H.
  destruct (load (λ _, false) demo_tables 0) as [e|[c t]] eqn:E.
  - by destruct H as (_ & ? & ?).
  - exists c, t. split; [done|]. destruct H as (pairs & Hp & Hd).
    assert (c = mkCycles [[bs "c"]; [bs "b"; bs "a"]] [(bs "c", bs "a")] (foldl count_pair ∅ [(bs "c", bs "a")])
      (foldl push_from ∅ [(bs "c", bs "a")]) [(bs "a", bs "b"); (bs "b", bs "a")])%string as ->.
    { vm_compute in E. injection E as <- _. vm_compute. reflexivity. }
    split; [reflexivity|]. split; [reflexivity|]. split; [vm_compute; reflexivity|].
    by exists pairs.
Defined.

(** ** The report *)

#[export] Instance entry_le_total : Total entry_le.
Proof.
  intros a b. unfold entry_le. rewrite (N.eqb_sym (size_ b)). destruct (N.eqb_spec (size_ a) (size_ b)) as [E|E].
  - generalize (members a) (members b). clear. intros l. induction l as [|x l IH]; intros [|y k]; simpl; auto.
    destruct (bytes_eqb_spec x y) as [->|Hne].
    + destruct (bytes_eqb_spec y y); [apply IH|done].
    + destruct (bytes_eqb_spec y x); [congruence|]. apply (total bytes_le).
  - destruct (N.lt_total (size_ a) (size_ b)) as [?|[?|?]]; [by right|done|by left].
Qed.

(** A cycle of at least two files with one in the patch. *)
Definition reported (patch_files component : list bytes) : bool :=
  (2 <=? length component) && existsb (λ f, bool_decide (f ∈ (list_to_set patch_files : gset bytes))) component.

Record entry_of (c : ImportCycles) (component : list bytes) (e : CycleEntry) : Prop := {
  eo_members : members e = merge_sort bytes_le component;
  eo_size : size_ e = as_u32 (N.of_nat (length component));
  eo_churn m : max_churn_file e = Some m → m ∈ component;
  eo_lazy : lazy_edges e = lazy_edges_touching c component;
}.

Section report_ok.
Context {F : Type} (F_le : F → F → bool) (git_file : bytes → option (option F)) (stopped : nat → bool).
Context (Hgit : ∀ m, is_Some (git_file m)).

Lemma pick_max_churn_ok ms :
  safe stopped (pick_max_churn F_le git_file stopped ms) (λ best, ∀ m, best = Some m → m ∈ ms).
Proof using Hgit.
  unfold pick_max_churn.
  eapply (safe_bind _ _ _ (λ best : option (F * bytes), ∀ s m, best = Some (s, m) → m ∈ ms)).
  - apply (safe_for_each stopped _ (λ seen (best : option (F * bytes)), ∀ s m, best = Some (s, m) → m ∈ seen)); [|done].
    intros a x b best -> Hb. unfold churn_step. apply safe_check. destruct (Hgit x) as [row ->]. apply safe_ret_bind, safe_ret.
    assert (∀ s m, best = Some (s, m) → m ∈ a ++ [x]) as Hb'.
    { intros s m ?%Hb. apply elem_of_app. by left. }
    assert (∀ (churn s : F) m, Some (churn, x) = Some (s, m) → m ∈ a ++ [x]) as Hx.
    { intros ? ? ? [= _ ->]. apply elem_of_app. right. by left. }
    destruct row as [churn|]; [|done]. destruct best as [[score m0]|]; [|by apply Hx].
    destruct (F_le churn score); [done|by apply Hx].
  - intros [[s m]|] Hb; apply safe_ret; cbn; [|done]. intros ? [= <-]. by eapply Hb.
Qed.

Lemma report_component_ok patch_files c out component :
  safe stopped (report_component F_le git_file stopped (list_to_set patch_files) c out component)
    (λ out', if reported patch_files component then ∃ e, out' = out ++ [e] ∧ entry_of c component e else out' = out).
Proof using Hgit.
  unfold report_component, reported. apply safe_check. rewrite Nat.ltb_antisym.
  destruct (2 <=? length component); cbn [negb andb]; [|by apply safe_ret].
  destruct (existsb _ component); cbn [negb]; [|by apply safe_ret].
  eapply (safe_bind _ _ _ (entry_of c component)).
  - unfold cycle_entry. eapply safe_bind; [apply pick_max_churn_ok|]. intros churn Hc. apply safe_ret.
    split; [done| |exact Hc|done]. cbn [size_]. by rewrite merge_sort_Permutation.
  - intros e He. apply safe_ret. by exists e.
Qed.

Lemma find_cycles_touching_ok c patch_files :
  safe stopped (find_cycles_touching F_le git_file stopped c patch_files)
    (λ out, Sorted entry_le out
      ∧ ∃ entries, out ≡ₚ entries ∧ Forall2 (entry_of c) (List.filter (reported patch_files) (components c)) entries).
Proof using Hgit.
  unfold find_cycles_touching.
  eapply (safe_bind _ _ _ (Forall2 (entry_of c) (List.filter (reported patch_files) (components c)))).
  - apply (safe_for_each stopped _ (λ seen, Forall2 (entry_of c) (List.filter (reported patch_files) seen))); [|constructor].
    intros a component b out _ Ho. eapply safe_mono; [apply report_component_ok|]. intros out' H.
    rewrite List.filter_app. cbn [List.filter]. destruct (reported patch_files component).
    + destruct H as (e & -> & He). by apply Forall2_app; [|constructor].
    + by rewrite H, app_nil_r.
  - intros entries He. apply safe_ret. split; [apply (Sorted_merge_sort entry_le)|].
    exists entries. split; [apply merge_sort_Permutation|done].
Qed.
End report_ok.

(** The cycles reported for a patch are exactly the components of two or
    more files that contain a file of the patch, each with its members in order,
    a churn file among them and its exact count of lazy edges; larger
    cycles come first. *)
Theorem find_cycles_touching_correct {F : Type} (F_le : F → F → bool) git_file stopped c patch_files t :
  (∀ m, is_Some (git_file m)) →
  match find_cycles_touching F_le git_file stopped c patch_files t with
  | inl e => e = Cancelled ∧ ∃ t', stopped t' = true
  | inr (out, _) => Sorted entry_le out
      ∧ ∃ entries, out ≡ₚ entries ∧ Forall2 (entry_of c) (List.filter (reported patch_files) (components c)) entries
  end.
Proof. intros Hg. by apply find_cycles_touching_ok. Qed.

Lemma find_cycles_touching_correct_witness :
  let c := mkCycles [[bs "c"]; [bs "b"; bs "a"]] [] ∅ ∅ [(bs "a", bs "b"); (bs "b", bs "a")] in
  ∃ e t, find_cycles_touching Nat.leb (λ _, Some (Some 1)) (λ _, false) c [bs "a"] 0 = inr ([e], t)
    ∧ members e = [bs "a"; bs "b"] ∧ max_churn_file e = Some (bs "b")
    ∧ ∃ entries, [e] ≡ₚ entries ∧ Forall2 (entry_of c) (List.filter (reported [bs "a"]) (components c)) entries.
Proof.
  intros c.
  pose proof (find_cycles_touching_correct Nat.leb (λ _, Some (Some 1)) (λ _, false) c [bs "a"] 0 (λ _, ltac:(by eexists))) as H.
  destruct (find_cycles_touching Nat.leb (λ _, Some (Some 1)) (λ _, false) c [bs "a"] 0) as [e|[out t]] eqn:E.
  - by destruct H as (_ & ? & ?).
  - vm_compute in E. injection E as <- <-. destruct H as [_ H]. eexists _, _. split; [done|].
    split; [reflexivity|]. split; [reflexivity|exact H].
Defined.
