(* ===== verification/SessionLedger.v ===== *)
(** * SessionLedger: the per-session record of served handles

    Models [src/crates/graph/src/session_ledger.rs]: the handles a response
    served ([response_handles], [retain_indexed]), the append-only ledger file
    ([append_call], [read_session_ledger]) with writes torn by a crash, and the
    pruning of a ledger directory ([prune_ledgers_with_limits]).

    A JSON value is serde_json's [Value], an object its entries in map order.
    Parameters: [relative_to_root] is [Path::strip_prefix] of the project root
    as UTF-8; [encode] and [decode] are serde_json on a [LedgerCall], with
    the facts of JSON lines the ledger relies on as the class [JsonLines].
    [u64] and [usize] values are [N] and [nat]. *)
From stdpp Require Import gmap sorting.
From S2P Require Import Prelude Text Order Handle.
From Stdlib Require Import Lia NArith.
Local Open Scope codesage_scope.

Definition LEDGER_SUFFIX : bytes := bs ".calls.jsonl".
Definition MAX_LEDGER_FILES : nat := 256.
Definition MAX_LEDGER_BYTES : N := 2 * 1024 * 1024.
Definition MAX_LEDGER_TOTAL_BYTES : N := 8 * MAX_LEDGER_BYTES.
Definition PRUNE_STEP_BYTES : N := 256 * 1024.
Definition MAX_HANDLES : nat := 64.
Definition MAX_HANDLE_BYTES : nat := 1024.

Definition SKIP_KEYS : list bytes := map bs [
  "next"; "expand"; "recover"; "recovery"; "remedy"; "retry"; "index"; "cost"; "completeness"; "query"; "input";
  "pattern"; "code"; "trace"; "candidates"; "notes"; "summary_notes"; "why"; "legend"; "commands"; "error";
  "snapshot_path"; "structural_overlay_paths"; "unindexed_files"; "unsupported_files"; "unscored_files";
  "no_symbol_files"; "failed_paths"; "omitted_files"]%string.

(** ** [response_handles] *)

Inductive Value :=
| VNull
| VBool (b : bool)
| VNumber
| VString (text : bytes)
| VArray (items : list Value)
| VObject (map : list (bytes * Value)).

Definition is_path_key (key : bytes) : bool :=
  contains_word (map bs ["file"; "path"; "files"; "paths"; "primary"; "reachable"; "coupled"]%string) key
  || ends_with (bs "_file") key || ends_with (bs "_files") key || ends_with (bs "_path") key.

Definition get (entries : list (bytes * Value)) (key : bytes) : option Value :=
  snd <$> List.find (λ e, bytes_eqb e.1 key) entries.

(** [status: "unresolved"] or [found: false]. *)
Definition unresolved (entries : list (bytes * Value)) : bool :=
  match get entries (bs "status") with Some (VString s) => bytes_eqb s (bs "unresolved") | _ => false end
  || match get entries (bs "found") with Some (VBool b) => negb b | _ => false end.

Record Collected := mkCollected { out : list bytes; seen : gset bytes }.

Section collect.
Context (relative_to_root : bytes → option bytes).

(** The handle a string names. *)
Definition named_handle (text : bytes) (path_key : bool) : option Handle :=
  match parse text with
  | Some (HFile _ | HSymbol _ _ _ | HChunk _ _ _) as handle => handle
  | Some _ => None
  | None => if path_key then file (default text (relative_to_root text)) else None
  end.

Definition push_handle (s : Collected) (handle : Handle) : Collected :=
  let rendered := to_string handle in
  if decide (rendered ∈ seen s) then s else mkCollected (out s ++ [rendered]) ({[rendered]} ∪ seen s).

Fixpoint collect (value : Value) (path_key : bool) (s : Collected) : Collected :=
  if MAX_HANDLES <=? length (out s) then s
  else
    match value with
    | VObject entries =>
        if unresolved entries then s
        else (fix children (entries : list (bytes * Value)) (s : Collected) {struct entries} : Collected :=
                match entries with
                | [] => s
                | (key, child) :: entries =>
                    children entries (if contains_word SKIP_KEYS key then s else collect child (is_path_key key) s)
                end) entries s
    | VArray items =>
        (fix each (items : list Value) (s : Collected) {struct items} : Collected := match items with [] => s | item :: items => each items (collect item path_key s) end) items s
    | VString text =>
        if length text <=? MAX_HANDLE_BYTES then
          match named_handle text path_key with Some handle => push_handle s handle | None => s end
        else s
    | _ => s
    end.

Definition response_handles (value : Value) : list bytes := out (collect value false (mkCollected [] ∅)).
End collect.

(** ** [retain_indexed] *)

Definition ledger_handle_path (handle : bytes) : option bytes :=
  match parse handle with
  | Some (HFile path) | Some (HSymbol path _ _) | Some (HChunk path _ _) => Some path
  | _ => None
  end.

Definition retain_one (file_id_for_path : bytes → bool) (s : gmap bytes bool * list bytes) (handle : bytes)
    : gmap bytes bool * list bytes :=
  let '(indexed, kept) := s in
  match ledger_handle_path handle with
  | None => s
  | Some path =>
      match indexed !! path with
      | Some known => (indexed, if (known : bool) then kept ++ [handle] else kept)
      | None =>
          let known := file_id_for_path path in
          (<[path := known]> indexed, if known then kept ++ [handle] else kept)
      end
  end.

(** [file_id_for_path] says whether the query finds a row: an error is a miss. *)
Definition retain_indexed (file_id_for_path : bytes → bool) (handles : list bytes) : list bytes :=
  (foldl (retain_one file_id_for_path) (∅, []) handles).2.

(** ** The ledger file *)

Record LedgerCall := mkCall {
  ts : N;
  tool : bytes;
  target_handles : list bytes;
  detail : option bytes;
  call_bytes : N;
}.

Inductive AppendOutcome := Written (prune : bool) | Capped.

Record LedgerRead := mkRead { present : bool; capped : bool; calls : list LedgerCall }.

Definition saturating_u64 (n : N) : N := N.min n 18446744073709551615.

Definition flen (s : bytes) : N := N.of_nat (length s).

Section file.
Context (encode : LedgerCall → bytes) (decode : bytes → option LedgerCall).

(** [content] is the ledger's bytes, [[]] for a file just created; [wrote] is how
    many bytes [write_all] got out before an error, all of them when [None]. *)
Definition append_call (content : bytes) (call : LedgerCall) (wrote : option nat) : bytes * option AppendOutcome :=
  let line := encode call ++ [LF] in
  let len := flen content in
  if (MAX_LEDGER_BYTES <=? len)%N then (content, Some Capped)
  else
    let line := match last content with
                | Some b => if b =? LF then line else LF :: line
                | None => line
                end in
    match wrote with
    | Some n => (content ++ take n line, None)
    | None =>
        let after := saturating_u64 (len + flen line) in
        (content ++ line,
         Some (Written ((len =? 0)%N || negb (len / PRUNE_STEP_BYTES =? after / PRUNE_STEP_BYTES)%N)))
    end.

Definition READ_LIMIT : N := MAX_LEDGER_BYTES + N.of_nat MAX_HANDLES * N.of_nat MAX_HANDLE_BYTES + 4096.

Definition decode_lines (bytes_ : bytes) : list LedgerCall := omap decode (split_on LF bytes_).

(** [None] is a missing file. *)
Definition read_session_ledger (content : option bytes) (since_ms : N) : LedgerRead :=
  match content with
  | None => mkRead false false []
  | Some content =>
      let bytes_ := take (N.to_nat READ_LIMIT) content in
      mkRead true (MAX_LEDGER_BYTES <=? flen content)%N
        (List.filter (λ call, (since_ms <=? ts call)%N) (decode_lines bytes_))
  end.
End file.

(** ** Pruning *)

Record Ledger := mkLedger { mtime : N; len : N; path : bytes }.

Definition newer (a b : Ledger) : Prop :=
  (mtime b < mtime a)%N ∨ mtime a = mtime b ∧ bytes_le (path a) (path b).

#[export] Instance newer_decision a b : Decision (newer a b).
Proof. unfold newer. apply _. Defined.

Record Pruning := mkPruning { kept_files : nat; kept_bytes : N; kept : list Ledger; doomed : list Ledger }.

Definition prune_one (max_files : nat) (max_bytes cutoff : N) (s : Pruning) (l : Ledger) : Pruning :=
  if (cutoff <=? mtime l)%N && (kept_files s <? max_files) && (saturating_u64 (kept_bytes s + len l) <=? max_bytes)%N
  then mkPruning (S (kept_files s)) (saturating_u64 (kept_bytes s + len l)) (kept s ++ [l]) (doomed s)
  else mkPruning (kept_files s) (kept_bytes s) (kept s) (doomed s ++ [l]).

(** [listed] is the directory's other ledgers, [keep_len] the length of [keep].
    The second result is [remove_file] called on each, in order. *)
Definition prune_ledgers_with_limits (max_files : nat) (max_bytes cutoff keep_len : N) (listed : list Ledger)
    : list Ledger * list Ledger :=
  let s := foldl (prune_one max_files max_bytes cutoff) (mkPruning 1 keep_len [] []) (merge_sort newer listed) in
  (kept s, doomed s).

(** ** The handles a response serves *)

Section value_ind.
Context (P : Value → Prop).
Context (Hnull : P VNull) (Hbool : ∀ b, P (VBool b)) (Hnum : P VNumber) (Hstr : ∀ s, P (VString s)).
Context (Harr : ∀ items, Forall P items → P (VArray items)).
Context (Hobj : ∀ entries, Forall (λ e, P e.2) entries → P (VObject entries)).

Fixpoint value_nested_ind (v : Value) : P v :=
  match v with
  | VNull => Hnull
  | VBool b => Hbool b
  | VNumber => Hnum
  | VString s => Hstr s
  | VArray items =>
      Harr items ((fix go l : Forall P l :=
        match l with [] => Forall_nil_2 P | x :: l => Forall_cons_2 P x l (value_nested_ind x) (go l) end) items)
  | VObject entries =>
      Hobj entries ((fix go l : Forall (λ e : bytes * Value, P e.2) l :=
        match l with
        | [] => Forall_nil_2 _
        | x :: l => Forall_cons_2 (λ e : bytes * Value, P e.2) x l (value_nested_ind x.2) (go l)
        end) entries)
  end.
End value_ind.

Section served.
Context (relative_to_root : bytes → option bytes).

#[local] Abbreviation collect := (collect relative_to_root).
#[local] Abbreviation named_handle := (named_handle relative_to_root).

(** Every handle in the value, in traversal order, with repetitions. *)
Fixpoint served (value : Value) (path_key : bool) : list Handle :=
  match value with
  | VObject entries =>
      if unresolved entries then []
      else concat (map (λ e, if contains_word SKIP_KEYS e.1 then [] else served e.2 (is_path_key e.1)) entries)
  | VArray items => concat (map (λ item, served item path_key) items)
  | VString text => if length text <=? MAX_HANDLE_BYTES then option_list (named_handle text path_key) else []
  | _ => []
  end.

(** The distinct strings of a list, each at its first place. *)
Definition first_occurrences (l : list bytes) : list bytes :=
  foldl (λ acc x, if decide (x ∈ acc) then acc else acc ++ [x]) [] l.

Definition push_capped (s : Collected) (handle : Handle) : Collected :=
  if MAX_HANDLES <=? length (out s) then s else push_handle s handle.

Lemma push_capped_full s hs : (MAX_HANDLES <=? length (out s)) = true → foldl push_capped s hs = s.
Proof. intros H. induction hs as [|h hs IH]; [done|]. cbn [foldl]. unfold push_capped at 2. by rewrite H. Qed.

Lemma collect_served v path_key s : collect v path_key s = foldl push_capped s (served v path_key).
Proof.
  revert path_key s. induction v as [| | |text|items IH|entries IH] using value_nested_ind; intros path_key s;
    cbn [SessionLedger.collect served]; (destruct (MAX_HANDLES <=? length (out s)) eqn:Ef; [by rewrite push_capped_full|]).
  - done.
  - done.
  - done.
  - destruct (length text <=? MAX_HANDLE_BYTES); [|done].
    destruct (named_handle text path_key) as [h|]; [|done]. cbn [option_list option_rect foldl]. unfold push_capped.
    by rewrite Ef.
  - clear Ef. revert s. induction IH as [|item items Hi _ IH]; intros s; [done|].
    cbn [map concat]. rewrite foldl_app, <- Hi. apply IH.
  - destruct (unresolved entries); [done|]. clear Ef. revert s.
    induction IH as [|[key child] entries Hi _ IH]; intros s; [done|].
    cbn [map concat fst snd]. rewrite foldl_app. destruct (contains_word SKIP_KEYS key); [apply IH|].
    cbn [snd] in Hi. rewrite <- Hi. apply IH.
Qed.

Lemma first_occurrences_snoc l x :
  first_occurrences (l ++ [x]) = if decide (x ∈ first_occurrences l) then first_occurrences l else first_occurrences l ++ [x].
Proof. unfold first_occurrences. by rewrite foldl_snoc. Qed.

Lemma elem_of_first_occurrences l x : x ∈ first_occurrences l ↔ x ∈ l.
Proof.
  induction l as [|y l IH] using rev_ind; [done|]. rewrite first_occurrences_snoc, elem_of_app, list_elem_of_singleton.
  destruct (decide (y ∈ first_occurrences l)); [|rewrite elem_of_app, list_elem_of_singleton]; naive_solver.
Qed.

Lemma first_occurrences_nodup l : NoDup (first_occurrences l).
Proof.
  induction l as [|y l IH] using rev_ind; [constructor|]. rewrite first_occurrences_snoc.
  destruct (decide (y ∈ first_occurrences l)); [done|]. apply NoDup_app. split; [done|].
  split; [|apply NoDup_singleton]. by intros x Hx ->%list_elem_of_singleton.
Qed.

Lemma push_all hs :
  let s := foldl push_capped (mkCollected [] ∅) hs in
  out s = take MAX_HANDLES (first_occurrences (map to_string hs))
  ∧ (∀ x, x ∈ seen s ↔ x ∈ out s).
Proof.
  induction hs as [|h hs [Ho Hs]] using rev_ind; cbv zeta in *.
  { split; [done|]. intros x. cbn. by rewrite elem_of_empty, elem_of_nil. }
  rewrite foldl_snoc, map_app.
  set (s := foldl push_capped (mkCollected [] ∅) hs) in *. cbn [map]. rewrite first_occurrences_snoc.
  set (l := first_occurrences (map to_string hs)) in *. unfold push_capped.
  destruct (Nat.leb_spec MAX_HANDLES (length (out s))) as [Hf|Hf].
  - split; [|done]. rewrite Ho, length_take in Hf. destruct (decide _); [done|]. by rewrite take_app_le by lia.
  - assert (out s = l) as El.
    { rewrite Ho in Hf |- *. rewrite length_take in Hf. apply take_ge. lia. }
    unfold push_handle. destruct (decide (to_string h ∈ seen s)) as [Hin|Hin].
    + split; [|done]. rewrite decide_True by (by rewrite <- El, <- Hs). rewrite <- El. by rewrite take_ge by lia.
    + rewrite decide_False by (by rewrite <- El, <- Hs). cbn [out seen]. split.
      * rewrite El in Hf |- *. by rewrite take_ge by (rewrite length_app; simpl; lia).
      * intros x. rewrite elem_of_union, elem_of_singleton, elem_of_app, list_elem_of_singleton, Hs. tauto.
Qed.

(** Only files, symbols and chunks are recorded, and their text reads back. *)
Definition ledger_handle (h : Handle) : Prop :=
  well_formed h ∧ match h with HFile _ | HSymbol _ _ _ | HChunk _ _ _ => True | _ => False end.

Lemma named_handle_ok text path_key h : named_handle text path_key = Some h → ledger_handle h.
Proof.
  unfold SessionLedger.named_handle. destruct (parse text) as [h'|] eqn:E.
  - pose proof (parse_readable _ _ E) as Hr. destruct h'; try done; intros [= <-]; by split.
  - destruct path_key; [|done]. unfold file. destruct (valid_path _) eqn:Ev; [|done]. intros [= <-]. by split.
Qed.

Lemma served_ok v path_key : Forall ledger_handle (served v path_key).
Proof.
  revert path_key. induction v as [| | |text|items IH|entries IH] using value_nested_ind; intros path_key;
    cbn [served]; try by constructor.
  - destruct (length text <=? MAX_HANDLE_BYTES); [|constructor].
    destruct (named_handle text path_key) as [h|] eqn:E; [|constructor]. cbn. constructor; [|constructor]. by eapply named_handle_ok.
  - induction IH as [|item items Hi _ IH]; [constructor|]. cbn [map concat]. by apply Forall_app.
  - destruct (unresolved entries); [constructor|]. induction IH as [|[key child] entries Hi _ IH]; [constructor|].
    cbn [map concat fst snd]. apply Forall_app. split; [|done]. by destruct (contains_word SKIP_KEYS key).
Qed.

Lemma response_handles_served v :
  response_handles relative_to_root v = take MAX_HANDLES (first_occurrences (map to_string (served v false))).
Proof. unfold response_handles. rewrite collect_served. apply push_all. Qed.

(** The handles of a response are the first [MAX_HANDLES] distinct ones of
    its traversal: stopping early and the seen set lose and reorder nothing. *)
Theorem response_handles_first v :
  response_handles relative_to_root v = take MAX_HANDLES (first_occurrences (map to_string (served v false))).
Proof. apply response_handles_served. Qed.

(** ** [retain_indexed] *)

Definition indexed_handle (file_id_for_path : bytes → bool) (handle : bytes) : bool :=
  match ledger_handle_path handle with Some path => file_id_for_path path | None => false end.

Lemma retain_indexed_ok q handles : retain_indexed q handles = List.filter (indexed_handle q) handles.
Proof.
  unfold retain_indexed.
  cut (∀ memo kept, (∀ p b, memo !! p = Some b → b = q p) →
    (foldl (retain_one q) (memo, kept) handles).2 = kept ++ List.filter (indexed_handle q) handles).
  { intros H. by apply (H ∅ []). }
  induction handles as [|h handles IH]; intros memo kept Hm; cbn [foldl List.filter]; [by rewrite app_nil_r|].
  unfold retain_one at 2, indexed_handle at 1. destruct (ledger_handle_path h) as [p|]; [|by apply IH].
  destruct (memo !! p) as [b|] eqn:E.
  - rewrite (Hm _ _ E), IH by done. destruct (q p); [by rewrite <- app_assoc|done].
  - rewrite IH.
    + destruct (q p); [by rewrite <- app_assoc|done].
    + intros p' b. destruct (decide (p' = p)) as [->|]; [rewrite lookup_insert_eq; congruence|].
      rewrite lookup_insert_ne by done. apply Hm.
Qed.

(** C36. What a call records is safe to read back: at most [MAX_HANDLES] distinct
    handles, each the text of a file, symbol or chunk of an indexed,
    repository-relative path, in the order the response served them; the path
    memo of [retain_indexed] answers as the index does. *)
Theorem recorded_handles_indexed q v :
  let recorded := retain_indexed q (response_handles relative_to_root v) in
  recorded = List.filter (indexed_handle q) (response_handles relative_to_root v)
  ∧ length recorded ≤ MAX_HANDLES ∧ NoDup recorded
  ∧ Forall (λ text, ∃ h p, parse text = Some h ∧ to_string h = text ∧ handle_path h = Some p
                           ∧ repo_relative p ∧ q p = true) recorded.
Proof.
  cbv zeta. rewrite retain_indexed_ok, response_handles_served.
  set (l := first_occurrences (map to_string (served v false))).
  pose proof (first_occurrences_nodup (map to_string (served v false))) as Hnd. fold l in Hnd.
  split; [done|]. split; [|split].
  - pose proof (filter_length_le (indexed_handle q) (take MAX_HANDLES l)). rewrite length_take in H. lia.
  - apply NoDup_ListNoDup, List.NoDup_filter, NoDup_ListNoDup.
    rewrite <- (take_drop MAX_HANDLES l) in Hnd. by apply NoDup_app in Hnd as [? _].
  - apply Forall_forall. intros text Hin%list_elem_of_In. apply List.filter_In in Hin as [Hin%list_elem_of_In Hq].
    apply elem_of_take in Hin as (i & Hi & _). apply list_elem_of_lookup_2 in Hi.
    apply elem_of_first_occurrences, list_elem_of_fmap in Hi as (h & -> & Hh).
    pose proof (served_ok v false) as Hok. rewrite Forall_forall in Hok. destruct (Hok h Hh) as [Hw Hk].
    unfold indexed_handle, ledger_handle_path in Hq. rewrite display_parses in Hq by done.
    destruct h as [p qn ln|p|p|p s e|f]; try done; eexists _, p;
      (split; [by apply display_parses|]); (split; [done|]); (split; [done|]);
      rewrite <- valid_path_true; (split; [by destruct Hw|done]).
Qed.
End served.

(** ** The file refines an append-only log *)

(** What JSON lines give: an object prints on one line, reads back, and no proper
    prefix of its text is JSON. *)
Class JsonLines (encode : LedgerCall → bytes) (decode : bytes → option LedgerCall) : Prop := {
  json_round c : decode (encode c) = Some c;
  json_line c : LF ∉ encode c;
  json_prefix c n : n < length (encode c) → decode (take n (encode c)) = None;
}.

Lemma split_on_app_sep c a b : split_on c (a ++ c :: b) = split_on c a ++ split_on c b.
Proof.
  induction a as [|x a IH]; simpl; [by rewrite beq_refl|]. destruct (x =? c); [by rewrite IH|]. rewrite IH.
  destruct (split_on c a) as [|seg segs] eqn:E; [by apply split_on_length in E|done].
Qed.

Lemma split_on_none c a : c ∉ a → split_on c a = [a].
Proof. intros H. apply (split_join c [a]); [done|by repeat constructor]. Qed.

(** The abstract log: which calls a history of appends records.  A torn write
    records its call when only the line's end is missing. *)
Inductive logged : list (LedgerCall * option AppendOutcome) → list LedgerCall → Prop :=
| logged_nil : logged [] []
| logged_written h log c prune : logged h log → logged (h ++ [(c, Some (Written prune))]) (log ++ [c])
| logged_capped h log c : logged h log → logged (h ++ [(c, Some Capped)]) log
| logged_torn h log c : logged h log → logged (h ++ [(c, None)]) log
| logged_torn_whole h log c : logged h log → logged (h ++ [(c, None)]) (log ++ [c]).

Section refines.
Context (encode : LedgerCall → bytes) (decode : bytes → option LedgerCall) `{JsonLines encode decode}.

#[local] Abbreviation decode_lines := (decode_lines decode).

Definition append_step (st : bytes * list (LedgerCall * option AppendOutcome)) (e : LedgerCall * option nat) :=
  let '(content, outcome) := append_call encode st.1 e.1 e.2 in (content, st.2 ++ [(e.1, outcome)]).

(** The ledger after a sequence of appends, each whole or torn. *)
Definition run_appends (events : list (LedgerCall * option nat)) : bytes * list (LedgerCall * option AppendOutcome) :=
  foldl append_step ([], []) events.

Lemma decode_nil : decode [] = None.
Proof.
  destruct (encode (mkCall 0 [] [] None 0)) as [|b l] eqn:E.
  - pose proof (json_round (mkCall 0 [] [] None 0)) as H0. pose proof (json_round (mkCall 1 [] [] None 0)) as H1.
    pose proof (json_prefix (mkCall 1 [] [] None 0) 0) as H2. rewrite take_0 in H2. apply H2.
    destruct (encode (mkCall 1 [] [] None 0)); [congruence|simpl; lia].
  - pose proof (json_prefix (mkCall 0 [] [] None 0) 0) as H0. rewrite E, take_0 in H0. apply H0. simpl; lia.
Qed.

Lemma decode_lines_app a b : decode_lines (a ++ LF :: b) = decode_lines a ++ decode_lines b.
Proof. unfold SessionLedger.decode_lines. by rewrite split_on_app_sep, omap_app. Qed.

Lemma decode_lines_one a : LF ∉ a → decode_lines a = option_list (decode a).
Proof. intros Ha. unfold SessionLedger.decode_lines. rewrite split_on_none by done. simpl. by destruct (decode a). Qed.

Lemma decode_lines_nil : decode_lines [] = [].
Proof. rewrite decode_lines_one by apply not_elem_of_nil. by rewrite decode_nil. Qed.

(** The first [n] bytes of a line, on a line of their own. *)
Lemma decode_lines_torn c n :
  decode_lines (take n (encode c ++ [LF])) = if n <? length (encode c) then [] else [c].
Proof.
  destruct (Nat.ltb_spec n (length (encode c))) as [Hn|Hn].
  - rewrite take_app_le by lia. rewrite decode_lines_one; [by rewrite json_prefix|].
    intros Hin. apply (json_line c). rewrite <- (take_drop n (encode c)). apply elem_of_app. by left.
  - rewrite take_app_ge by done. destruct (n - length (encode c)) as [|k]; cbn [take].
    + rewrite app_nil_r, decode_lines_one, json_round by apply json_line. done.
    + rewrite take_nil, decode_lines_app, decode_lines_nil, app_nil_r.
      rewrite decode_lines_one, json_round by apply json_line. done.
Qed.

(** A line goes on a line of its own whatever the file ends with. *)
Definition own_line (content line : bytes) : bytes :=
  match last content with Some b => if b =? LF then line else LF :: line | None => line end.

Lemma own_line_lines content line n :
  ∃ k, k ≤ n ∧ decode_lines (content ++ take n (own_line content line)) = decode_lines content ++ decode_lines (take k line)
    ∧ (length (own_line content line) ≤ n → length line ≤ k).
Proof.
  unfold own_line. destruct content as [|b content _] using rev_ind.
  - exists n. by rewrite decode_lines_nil.
  - rewrite last_snoc. destruct (beq_spec b LF) as [->|Hb].
    + exists n. rewrite <- app_assoc. cbn [app]. rewrite !decode_lines_app, decode_lines_nil, app_nil_r. done.
    + destruct n as [|n].
      * exists 0. split; [lia|]. split; [by rewrite !take_0, decode_lines_nil, !app_nil_r|simpl; lia].
      * exists n. split; [lia|]. split; [|simpl; lia]. cbn [take]. by rewrite decode_lines_app.
Qed.

Lemma append_call_ok content call wrote :
  let '(content', outcome) := append_call encode content call wrote in
  (∀ h log, logged h log → decode_lines content = log →
     logged (h ++ [(call, outcome)]) (decode_lines content'))
  ∧ (content' = content ∨ (flen content < MAX_LEDGER_BYTES)%N ∧ length content' ≤ length content + length (encode call) + 2)
  ∧ (wrote = None → outcome ≠ None).
Proof.
  unfold append_call. fold (own_line content (encode call ++ [LF])).
  destruct (N.leb_spec MAX_LEDGER_BYTES (flen content)) as [Hc|Hc].
  - split; [|by split; [left|]]. intros h log Hl ->. by apply logged_capped.
  - assert (length (own_line content (encode call ++ [LF])) ≤ length (encode call) + 2) as Hlen.
    { unfold own_line. destruct (last content) as [b|]; [destruct (b =? LF)|]; simpl; rewrite length_app; simpl; lia. }
    destruct wrote as [n|].
    + split; [|split; [right; split; [done|]|done]]; [|rewrite length_app, length_take; lia]. intros h log Hl <-.
      destruct (own_line_lines content (encode call ++ [LF]) n) as (k & _ & -> & _). rewrite decode_lines_torn.
      destruct (k <? length (encode call)); [rewrite app_nil_r; by apply logged_torn|by apply logged_torn_whole].
    + split; [|split; [right; split; [done|]|done]]; [|rewrite length_app; lia]. intros h log Hl <-.
      destruct (own_line_lines content (encode call ++ [LF]) (length (own_line content (encode call ++ [LF])))) as (k & _ & E & Hk).
      rewrite firstn_all in E. rewrite E, decode_lines_torn. specialize (Hk ltac:(lia)). rewrite length_app in Hk. simpl in Hk.
      rewrite (proj2 (Nat.ltb_ge k (length (encode call)))) by lia. by apply logged_written.
Qed.

Lemma run_appends_ok events :
  (∀ e, e ∈ events → (N.of_nat (length (encode e.1)) + 2 ≤ READ_LIMIT - MAX_LEDGER_BYTES + 1)%N) →
  let '(content, history) := run_appends events in
  logged history (decode_lines content) ∧ (flen content ≤ READ_LIMIT)%N.
Proof.
  intros Hlen. induction events as [|[c w] events IH] using rev_ind.
  - unfold run_appends. cbn [foldl]. rewrite decode_lines_nil. split; [constructor|by vm_compute].
  - unfold run_appends in *. rewrite foldl_snoc. 
    assert (∀ e, e ∈ events → (N.of_nat (length (encode e.1)) + 2 ≤ READ_LIMIT - MAX_LEDGER_BYTES + 1)%N) as Hlen'
      by (intros e He; apply Hlen, elem_of_app; by left).
    specialize (IH Hlen'). destruct (foldl append_step ([], []) events) as [content history]. destruct IH as [Hl Hb].
    unfold append_step. cbn [fst snd]. pose proof (append_call_ok content c w) as Ha.
    destruct (append_call encode content c w) as [content' outcome]. destruct Ha as (Hlog & Hsize & _).
    split; [by eapply Hlog|]. destruct Hsize as [->|[Hm Hsize]]; [done|].
    specialize (Hlen (c, w) ltac:(apply elem_of_app; right; by left)). cbn [fst] in Hlen.
    unfold flen in *. assert (MAX_LEDGER_BYTES < READ_LIMIT)%N by by vm_compute. lia.
Qed.

End refines.

(** *** JSON lines exist: a codec over decimal digits *)

#[export] Instance ledger_call_eq_decision : EqDecision LedgerCall.
Proof. solve_decision. Defined.

#[export] Instance ledger_call_countable : Countable LedgerCall :=
  inj_countable' (λ c, (ts c, tool c, target_handles c, detail c, call_bytes c))
    (λ '(a, b, c, d, e), mkCall a b c d e) ltac:(by intros []).

Definition toy_encode (c : LedgerCall) : bytes :=
  let n := Npos (countable.encode c) in bs "{" ++ show_loop (S (N.size_nat n)) n ++ bs "}".

Definition toy_decode (line : bytes) : option LedgerCall :=
  rest ← strip_prefix (bs "{") line; digits ← strip_suffix (bs "}") rest;
  match dec_value digits with Npos p => countable.decode p | N0 => None end.

Lemma show_size n : dec_value (show_loop (S (N.size_nat n)) n) = n.
Proof.
  apply show_loop_value. destruct n as [|p]; [done|]. cbn [N.size_nat].
  assert (Npos p < 2 ^ N.of_nat (Pos.size_nat p))%N as Hs.
  { clear. induction p as [p IH|p IH|]; cbn [Pos.size_nat]; rewrite ?Nat2N.inj_succ, ?N.pow_succ_r'; [lia|lia|done]. }
  eapply N.lt_le_trans; [exact Hs|]. etrans; [apply (N.pow_le_mono_l 2 10); lia|]. apply N.pow_le_mono_r; lia.
Qed.

#[export] Instance toy_json : JsonLines toy_encode toy_decode.
Proof.
  assert (∀ c : LedgerCall, Forall (λ b, is_ascii_digit b = true) (show_loop (S (N.size_nat (Npos (countable.encode c)))) (Npos (countable.encode c)))) as Hd.
  { intros c. apply show_loop_digits. }
  split.
  - intros c. unfold toy_encode, toy_decode. cbv zeta. rewrite strip_prefix_app. cbn [mbind option_bind].
    set (d := show_loop _ _). rewrite (proj2 (strip_suffix_Some (bs "}") (d ++ bs "}") d) eq_refl). cbn [mbind option_bind].
    unfold d. rewrite show_size. apply countable.decode_encode.
  - intros c. unfold toy_encode. cbv zeta. rewrite !not_elem_of_app. split; [by apply has_byte_false|].
    split; [by eapply digits_lack|by apply has_byte_false].
  - intros c n. unfold toy_encode, toy_decode. cbv zeta. set (d := show_loop _ _) in *. rewrite !length_app. intros Hn.
    destruct n as [|n]; [done|]. change (take (S n) (bs "{" ++ d ++ bs "}")) with (bs "{" ++ take n (d ++ bs "}")).
    rewrite strip_prefix_app. cbn [mbind option_bind]. simpl in Hn. rewrite take_app_le by lia.
    destruct (strip_suffix (bs "}") (take n d)) as [r|] eqn:E; [|done]. apply strip_suffix_Some in E. exfalso.
    pose proof (digits_lack "}" d eq_refl (Hd c)) as Hl. apply Hl.
    rewrite <- (take_drop n d), E. apply elem_of_app. left. apply elem_of_app. right. by left.
Qed.

Definition demo_call (n : N) : LedgerCall := mkCall n [] [] None 7.


(** ** Pruning *)

Definition total_bytes (l : list Ledger) : N := foldr (λ x n, len x + n)%N 0%N l.

Lemma total_bytes_snoc l x : total_bytes (l ++ [x]) = (total_bytes l + len x)%N.
Proof. unfold total_bytes. induction l as [|y l IH]; simpl; lia. Qed.

#[export] Instance newer_total : Total newer.
Proof.
  intros a b. unfold newer. destruct (N.lt_total (mtime a) (mtime b)) as [?|[E|?]]; [by right; left| |by left; left].
  destruct (total bytes_le (path a) (path b)); [left|right]; by right.
Qed.

#[export] Instance newer_trans : Transitive newer.
Proof.
  intros a b c. unfold newer. intros [?|[? ?]] [?|[? ?]]; [left; lia..|]. right. split; [lia|]. by etrans.
Qed.

Section prune.
Context (max_files : nat) (max_bytes cutoff keep_len : N).
Context (Hmax : (max_bytes < 18446744073709551615)%N).

(** Keeping [l] as well as the files already kept would break a limit. *)
Definition overflows (before : list Ledger) (l : Ledger) : Prop :=
  max_files ≤ S (length before) ∨ (max_bytes < keep_len + total_bytes before + len l)%N.

Record pruned (done : list Ledger) (s : Pruning) : Prop := {
  pr_perm : kept s ++ doomed s ≡ₚ done;
  pr_files : kept_files s = S (length (kept s));
  pr_bytes : kept_bytes s = (keep_len + total_bytes (kept s))%N;
  pr_fits : kept s = [] ∨ (kept_files s ≤ max_files ∧ (kept_bytes s ≤ max_bytes)%N);
  pr_fresh : Forall (λ l, cutoff ≤ mtime l)%N (kept s);
  pr_sub : kept s `sublist_of` done;
  pr_doomed : Forall (λ l, (mtime l < cutoff)%N ∨ ∃ before, before `prefix_of` kept s
                ∧ Forall (λ k, newer k l) before ∧ overflows before l) (doomed s);
}.

Lemma prune_one_ok seen s l :
  pruned seen s → (∀ k, k ∈ seen → newer k l) → pruned (seen ++ [l]) (prune_one max_files max_bytes cutoff s l).
Proof using Hmax.
  intros [Hp Hf Hb Hfit Hfr Hsub Hd] Hn. unfold prune_one.
  destruct (N.leb_spec cutoff (mtime l)) as [Hc|Hc]; [destruct (Nat.ltb_spec (kept_files s) max_files) as [Hk|Hk]|];
    cbn [andb]; [destruct (N.leb_spec (saturating_u64 (kept_bytes s + len l)) max_bytes) as [Hm|Hm]| |].
  1:{ assert (saturating_u64 (kept_bytes s + len l) = kept_bytes s + len l)%N as Es by (unfold saturating_u64 in *; lia).
      rewrite Es in *. split; cbn [kept doomed kept_files kept_bytes].
      - rewrite <- Hp. rewrite <- app_assoc. rewrite (Permutation_app_comm [l]). by rewrite app_assoc.
      - rewrite length_app. simpl. lia.
      - rewrite total_bytes_snoc. lia.
      - right. split; [lia|done].
      - apply Forall_app. by repeat constructor.
      - by apply sublist_app.
      - eapply Forall_impl; [exact Hd|]. intros x [?|(b & Hb1 & ?)]; [by left|right]. exists b. split; [|done].
        by apply prefix_app_r. }
  all: split; cbn [kept doomed kept_files kept_bytes]; try done;
    [by rewrite app_assoc, Hp|by apply sublist_inserts_r|apply Forall_app; split; [done|]; constructor; [|constructor]].
  3:{ by left. }
  all: right; exists (kept s); split; [done|]; split;
    [apply Forall_forall; intros k Hk'; apply Hn; by eapply elem_of_sublist|].
  - right. unfold saturating_u64 in Hm. lia.
  - left. lia.
Qed.

Lemma prune_all_ok listed : StronglySorted newer listed →
  pruned listed (foldl (prune_one max_files max_bytes cutoff) (mkPruning 1 keep_len [] []) listed).
Proof using Hmax.
  induction listed as [|l listed IH] using rev_ind; intros Hs.
  - split; cbn; try done; try (by constructor); lia.
  - rewrite foldl_snoc. apply prune_one_ok.
    + apply IH. by apply StronglySorted_app_1_l in Hs.
    + intros k Hk. eapply StronglySorted_app_1_elem_of; [exact Hs|done|by left].
Qed.
End prune.

(** Pruning splits the directory's ledgers into those kept and those
    removed: the kept ones are recent, in order from the newest, and with [keep]
    within both limits; a recent ledger is removed only when it would
    break a limit together with newer ones that are kept. *)
Theorem prune_within_limits max_files max_bytes cutoff keep_len listed :
  (max_bytes < 18446744073709551615)%N →
  let '(kept, doomed) := prune_ledgers_with_limits max_files max_bytes cutoff keep_len listed in
  kept ++ doomed ≡ₚ listed
  ∧ (kept = [] ∨ S (length kept) ≤ max_files ∧ (keep_len + total_bytes kept ≤ max_bytes)%N)
  ∧ Forall (λ l, cutoff ≤ mtime l)%N kept ∧ kept `sublist_of` merge_sort newer listed
  ∧ Forall (λ l, (mtime l < cutoff)%N ∨ ∃ before, before `prefix_of` kept
       ∧ Forall (λ k, newer k l) before ∧ overflows max_files max_bytes keep_len before l) doomed.
Proof.
  intros Hmax. unfold prune_ledgers_with_limits.
  pose proof (prune_all_ok max_files max_bytes cutoff keep_len Hmax (merge_sort newer listed)) as H.
  destruct H as [Hp Hf Hb Hfit Hfr Hsub Hd].
  { apply Sorted_StronglySorted; [apply _|]. apply (Sorted_merge_sort newer). }
  split; [by rewrite Hp, merge_sort_Permutation|]. split; [by rewrite <- Hf, <- Hb|]. done.
Qed.

Lemma prune_within_limits_witness :
  let listed := [mkLedger 10 60 (bs "a"); mkLedger 30 50 (bs "b"); mkLedger 20 30 (bs "c"); mkLedger 1 1 (bs "d")] in
  prune_ledgers_with_limits 3 100 5 15 listed
  = ([mkLedger 30 50 (bs "b"); mkLedger 20 30 (bs "c")], [mkLedger 10 60 (bs "a"); mkLedger 1 1 (bs "d")])
  ∧ Forall (λ l, 5 ≤ mtime l)%N (prune_ledgers_with_limits 3 100 5 15 listed).1.
Proof.
  intros listed. pose proof (prune_within_limits 3 100 5 15 listed eq_refl) as H.
  assert (prune_ledgers_with_limits 3 100 5 15 listed
    = ([mkLedger 30 50 (bs "b"); mkLedger 20 30 (bs "c")], [mkLedger 10 60 (bs "a"); mkLedger 1 1 (bs "d")])) as E
    by (vm_compute; reflexivity).
  rewrite E in H |- *. split; [done|]. apply H.
Defined.
