(* ===== verification/Impact.v ===== *)
(** * Impact: the files a change may break

    Models the walk of [src/crates/graph/src/impact.rs]: reverse dependencies of
    the target breadth first, one level per distance, under a frontier cap, a work
    budget and a deadline, and [FileCategory::classify] of
    [src/crates/protocol/src/lib.rs].

    The database and the resolver are parameters: [references] is the resolved
    reverse edges of a symbol ([WalkCache::references]), the others are the queries
    of the same name; [None] is a failed query.  [late] is the clock: whether its [n]-th reading is past
    the deadline.  [usize] is [N] or [nat]; products saturate. *)
From stdpp Require Import gmap sorting.
From S2P Require Import Prelude Text Order Checked Handle Target CallPath ImportPaths RustModules.
From Stdlib Require Import Lia NArith.
Local Open Scope codesage_scope.

#[export] Instance reference_kind_eq_decision : EqDecision ReferenceKind.
Proof. solve_decision. Defined.

#[export] Instance reference_kind_countable : Countable ReferenceKind :=
  inj_countable
    (λ k, match k with
          | RImport => 0 | RInclude => 1 | RCall => 2 | RInstantiation => 3 | RInheritance => 4
          | RTraitUse => 5 | RTypeHint => 6 | RRouteHandler => 7 | RImportBinding => 8 end)
    (λ n, [RImport; RInclude; RCall; RInstantiation; RInheritance; RTraitUse; RTypeHint; RRouteHandler; RImportBinding] !! n)
    ltac:(by intros []).

(** ** Categories *)

Inductive FileCategory := Source | Test | Config.

#[export] Instance file_category_eq_decision : EqDecision FileCategory.
Proof. solve_decision. Defined.

Definition TEST_DIRS : list bytes := map bs ["test"; "tests"; "__tests__"; "spec"]%string.
Definition TEST_SUFFIXES : list bytes :=
  map bs [".test.ts"; ".test.tsx"; ".test.js"; ".test.jsx"; ".spec.ts"; ".spec.tsx"; ".spec.js"; ".spec.jsx"]%string.
Definition CASED_TEST_SUFFIXES : list bytes := map bs ["Test.php"; "Test.java"; "Tests.java"]%string.
Definition LOWER_TEST_SUFFIXES : list bytes := map bs ["_test.py"; "_test.go"; ".phpt"]%string.
Definition CONFIG_SUFFIXES : list bytes :=
  map bs [".toml"; ".yaml"; ".yml"; ".json"; ".ini"; ".env"; ".conf"]%string.

Definition ends_with_any (suffixes : list bytes) (s : bytes) : bool := existsb (λ suffix, ends_with suffix s) suffixes.

(** [to_lowercase] is [str::to_lowercase], Unicode's mapping. *)
Definition classify (to_lowercase : bytes → bytes) (path : bytes) : FileCategory :=
  let lower_owned := to_lowercase path in
  let lower := match strip_prefix (bs "./") lower_owned with Some l => l | None => lower_owned end in
  let has_dir seg := contains (bs "/" ++ seg ++ bs "/") lower || starts_with (seg ++ bs "/") lower in
  if existsb has_dir TEST_DIRS || ends_with_any TEST_SUFFIXES lower || ends_with_any CASED_TEST_SUFFIXES path
     || ends_with_any LOWER_TEST_SUFFIXES lower
  then Test
  else
    let basename := match rsplit_once "/" lower with Some (_, b) => b | None => lower end in
    if starts_with (bs "test_") basename then Test
    else if ends_with_any CONFIG_SUFFIXES basename || bytes_eqb basename (bs ".env") then Config
    else Source.

(** ** Requests, results and limits *)

Inductive ImpactTarget := TSymbol (name : bytes) | TFile (path : bytes).

Record ImpactRequest := mkImpact { target : ImpactTarget; depth : nat; source_only : bool }.

Record ImpactReason := mkReason { via_symbol : bytes; reason_kind : ReferenceKind; reason_line : N }.

Record ImpactEntry := mkEntry {
  entry_handle : bytes;
  entry_path : bytes;
  distance : nat;
  category : FileCategory;
  reasons : list ImpactReason;
}.

Record WalkOutcome := mkOutcome {
  entries : list ImpactEntry;
  capped : bool;
  edge_counts : gmap bytes nat;
  seed_count : nat;
}.

Definition MAX_FRONTIER : nat := 512.
Definition MAX_REASONS : nat := 10.

Record WalkBudget := mkBudget {
  remaining : N;
  exhausted : bool;
  deadline : bool;
  deadline_hit : bool;
  candidate_counts : gmap bytes N;
  caller_file_counts : gmap bytes N;
  clock : nat;
}.

(** [file_reasons]: shortest distance, first reasons, distinct reason keys. *)
Abbreviation ReasonKey := (bytes * ReferenceKind * N)%type.

Record FileReasons := mkFileReasons { fr_distance : nat; fr_reasons : list ImpactReason; fr_edges : gset ReasonKey }.

(** The part of [WalkCache] the walk itself fills. *)
Record WalkCache := mkWalkCache {
  file_imports : option (list Reference);
  import_matches : gmap bytes (list nat);
  rust_modules : option RustModules;
}.

Record Walk := mkWalk {
  file_reasons : gmap bytes FileReasons;
  visited_files : gset bytes;
  visited_symbols : gset SymbolKey;
  seeds : nat;
  frontier_capped : bool;
  budget : option WalkBudget;
  icache : WalkCache;
}.

Definition set_budget (b : option WalkBudget) (w : Walk) : Walk :=
  mkWalk (file_reasons w) (visited_files w) (visited_symbols w) (seeds w) (frontier_capped w) b (icache w).
Definition set_capped (w : Walk) : Walk :=
  mkWalk (file_reasons w) (visited_files w) (visited_symbols w) (seeds w) true (budget w) (icache w).
Definition visit_symbol (k : SymbolKey) (w : Walk) : Walk :=
  mkWalk (file_reasons w) (visited_files w) ({[k]} ∪ visited_symbols w) (seeds w) (frontier_capped w) (budget w) (icache w).
Definition visit_file (f : bytes) (w : Walk) : Walk :=
  mkWalk (file_reasons w) ({[f]} ∪ visited_files w) (visited_symbols w) (seeds w) (frontier_capped w) (budget w) (icache w).

(** ** Budgets *)

Section budget.
Context (late : nat → bool) (count_referencing_files count_symbols_named : bytes → option N).

Definition new_budget (steps : N) (deadline : bool) : WalkBudget :=
  mkBudget steps (steps =? 0)%N deadline false ∅ ∅ 0.

Definition reset (steps : N) (b : WalkBudget) : WalkBudget :=
  mkBudget steps ((steps =? 0)%N || deadline_hit b) (deadline b) (deadline_hit b) (candidate_counts b)
    (caller_file_counts b) (clock b).

Definition exhaust (b : WalkBudget) : WalkBudget :=
  mkBudget (remaining b) true (deadline b) (deadline_hit b) (candidate_counts b) (caller_file_counts b) (clock b).

Definition charge (steps : N) (b : WalkBudget) : WalkBudget :=
  mkBudget (remaining b - steps) (exhausted b) (deadline b) (deadline_hit b) (candidate_counts b)
    (caller_file_counts b) (clock b).

Definition over_deadline (b : WalkBudget) : bool * WalkBudget :=
  if deadline_hit b then (true, b)
  else if deadline b then
    let hit := late (clock b) in
    (hit, mkBudget (remaining b) (exhausted b || hit) (deadline b) hit (candidate_counts b) (caller_file_counts b)
            (S (clock b)))
  else (false, b).

Definition memo_files (name : bytes) (b : WalkBudget) : T (N * WalkBudget) :=
  match caller_file_counts b !! name with
  | Some n => mret (n, b)
  | None =>
      n ← query (count_referencing_files name);
      mret (n, mkBudget (remaining b) (exhausted b) (deadline b) (deadline_hit b) (candidate_counts b)
                 (<[name := n]> (caller_file_counts b)) (clock b))
  end.

Definition memo_candidates (name : bytes) (b : WalkBudget) : T (N * WalkBudget) :=
  match candidate_counts b !! name with
  | Some n => mret (n, b)
  | None =>
      n ← query (count_symbols_named name);
      let n := N.max n 1 in
      mret (n, mkBudget (remaining b) (exhausted b) (deadline b) (deadline_hit b) (<[name := n]> (candidate_counts b))
                 (caller_file_counts b) (clock b))
  end.

Definition USIZE_MAX : N := 18446744073709551615.

Definition cost (sym : Symbol) (b : WalkBudget) : T (N * WalkBudget) :=
  '(files, b) ← memo_files (sy_name sym) b;
  '(candidates, b) ← memo_candidates (sy_name sym) b;
  mret (N.min (files * candidates) USIZE_MAX, b).
End budget.

(** ** Import rows *)

(** [import_ref_targets_file_with_modules]; the memo inside [candidates] is
    left out, [RustModules.candidates_refine] shows that it changes nothing. *)
Definition import_ref_targets_file_with_modules (is_alphanumeric : bytes → bool)
    (import_ref importer_file target_file : bytes) (m : RustModules) : bool :=
  let module_targets :=
    if ends_with (bs ".rs") importer_file then
      match strip_prefix (bs "./") import_ref with
      | Some declaration =>
          among target_file <$> uncached_candidates m importer_file (bs "self::" ++ replace_sub (bs "/") (bs "::") declaration)
      | None =>
          if contains (bs "::") import_ref then
            let module := match strip_suffix (bs "::*") import_ref with Some l => l | None => import_ref end in
            candidates ← uncached_candidates m importer_file module;
            let parent_candidates :=
              if ends_with (bs "::*") import_ref then None
              else '(parent, _) ← rsplit_once_sub (bs "::") module; uncached_candidates m importer_file parent in
            Some (among target_file (candidates ++ default [] parent_candidates))
          else None
      end
    else None in
  match module_targets with Some b => b | None => import_ref_targets_file is_alphanumeric import_ref importer_file target_file end.

(** [RustModules::default()]. *)
Definition no_modules : RustModules := mkRustModules ∅ ∅ false.

(** Whether an import row loads a file: the test of the file loop. [indexed_targets]
    is [python_import_targets_indexed]; its memo in the cache is left out. *)
Definition import_targets (is_alphanumeric : bytes → bool) (indexed_targets : Reference → option (list bytes))
    (m : RustModules) (r : Reference) (target_file : bytes) : option bool :=
  if is_python_path (from_file r) then
    targets ← (if bool_decide (ref_kind r = RImport) then indexed_targets r else Some []);
    Some (among target_file targets)
  else Some (import_ref_targets_file_with_modules is_alphanumeric (to_name r) (from_file r) target_file m).

(** ** The walk *)

Section walk.
Context (stopped late : nat → bool) (count_referencing_files count_symbols_named : bytes → option N).
Context (references : Symbol → option (list Reference)) (targets_file : Reference → bytes → option bool).
Context (symbols_for_files : list bytes → option (gmap bytes (list Symbol))).
(** Whether [remember_imports] has room for the matches of a file. *)
Context (has_room : WalkCache → bytes → list nat → bool).

#[local] Abbreviation over_deadline := (over_deadline late).
#[local] Abbreviation cost := (cost count_referencing_files count_symbols_named).

Context (req : ImpactRequest) (max_frontier : nat).

(** [budget.as_deref_mut()] and its deadline. *)
Definition check_deadline (w : Walk) : bool * Walk :=
  match budget w with
  | Some b => let '(hit, b) := over_deadline b in (hit, set_budget (Some b) w)
  | None => (false, w)
  end.

Definition record_reason (depth : nat) (from_file : bytes) (reason : ImpactReason) (w : Walk) : Walk :=
  let entry := match file_reasons w !! from_file with Some e => e | None => mkFileReasons depth [] ∅ end in
  let key := (via_symbol reason, reason_kind reason, reason_line reason) in
  let distinct := negb (bool_decide (key ∈ fr_edges entry)) in
  let reasons :=
    if distinct && (length (fr_reasons entry) <? MAX_REASONS) then fr_reasons entry ++ [reason] else fr_reasons entry in
  let entry := mkFileReasons (min (fr_distance entry) depth) reasons ({[key]} ∪ fr_edges entry) in
  mkWalk (<[from_file := entry]> (file_reasons w)) (visited_files w) (visited_symbols w) (seeds w) (frontier_capped w)
    (budget w) (icache w).

(** *** Choosing the symbols of a level *)

Abbreviation Level := (list (Symbol * list Reference)).

Fixpoint open_level (frontier : list Symbol) (w : Walk) (level : Level) : T (Walk * Level) :=
  match frontier with
  | [] => mret (w, level)
  | sym :: frontier =>
      check_at stopped ;;
      if bool_decide (key_of sym ∈ visited_symbols w) then open_level frontier w level
      else
        let w := visit_symbol (key_of sym) w in
        rows ← query (references sym);
        open_level frontier w (level ++ [(sym, rows)])
  end.

(** The pricing loop over [frontier.iter().enumerate()]. *)
Fixpoint price_level (idx : nat) (frontier : list Symbol) (w : Walk) (b : WalkBudget) (priced : list (N * nat))
    : T (Walk * WalkBudget * list (N * nat)) :=
  match frontier with
  | [] => mret (w, b, priced)
  | sym :: frontier =>
      check_at stopped ;;
      let '(hit, b) := if Nat.eqb (idx mod 256) 0 then over_deadline b else (false, b) in
      if (hit : bool) then mret (w, b, priced)
      else if bool_decide (key_of sym ∈ visited_symbols w) then price_level (S idx) frontier w b priced
      else
        let w := visit_symbol (key_of sym) w in
        '(c, b) ← cost sym b;
        price_level (S idx) frontier w b (priced ++ [(c, idx)])
  end.

Definition priced_le (p q : N * nat) : Prop := (p.1 < q.1)%N ∨ p.1 = q.1 ∧ p.2 ≤ q.2.

#[local] Instance priced_le_decision p q : Decision (priced_le p q).
Proof. unfold priced_le. apply _. Defined.

Fixpoint admit_level (priced : list (N * nat)) (b : WalkBudget) (admitted : list bool) : T (WalkBudget * list bool) :=
  match priced with
  | [] => mret (b, admitted)
  | (c, idx) :: priced =>
      check_at stopped ;;
      if (remaining b <? c)%N then mret (exhaust b, admitted)
      else
        let b := charge c b in
        admitted ← vset admitted idx true;
        admit_level priced b admitted
  end.

Fixpoint fetch_level (idx : nat) (frontier : list Symbol) (admitted : list bool) (b : WalkBudget) (level : Level)
    : T (WalkBudget * Level) :=
  match frontier with
  | [] => mret (b, level)
  | sym :: frontier =>
      chosen ← vget admitted idx;
      if negb chosen then check_at stopped ;; fetch_level (S idx) frontier admitted b level
      else
        let '(hit, b) := over_deadline b in
        if (hit : bool) then mret (b, level)
        else rows ← query (references sym); fetch_level (S idx) frontier admitted b (level ++ [(sym, rows)])
  end.

(** The level's symbols with their references, and whether the budget is spent. *)
Definition choose_level (frontier : list Symbol) (w : Walk) : T (Walk * Level * bool) :=
  match budget w with
  | Some b =>
      '(w, b, priced) ← price_level 0 frontier w b [];
      '(b, admitted) ← admit_level (merge_sort priced_le priced) b (replicate (length frontier) false);
      '(b, level) ← fetch_level 0 frontier admitted b [];
      mret (set_budget (Some b) w, level, exhausted b)
  | None =>
      '(w, level) ← open_level frontier w [];
      mret (w, level, false)
  end.

(** *** Following references and imports *)

Record Next := mkNext { next_files : list bytes; pending_callers : list (bytes * option bytes * N) }.

Definition is_file_target : bool := match target req with TFile _ => true | TSymbol _ => false end.

Section origin.
Context (origin_files : gset bytes).

Definition follow_reference (depth_ : nat) (sym : Symbol) (s : Walk * Next) (r : Reference) : T (Walk * Next) :=
  let '(w, n) := s in
  check_at stopped ;;
  if bool_decide (from_file r ∈ origin_files) then mret (w, n)
  else
    let w := record_reason depth_ (from_file r) (mkReason (sy_name sym) (ref_kind r) (ref_line r)) w in
    if depth_ <? depth req then
      mret (w, mkNext (if is_file_target then next_files n ++ [from_file r] else next_files n)
                      (pending_callers n ++ [(from_file r, from_symbol r, ref_line r)]))
    else mret (w, n).

Definition follow_symbol (depth_ : nat) (s : Walk * Next) (sr : Symbol * list Reference) : T (Walk * Next) :=
  check_at stopped ;; for_each (follow_reference depth_ sr.1) sr.2 s.

Definition follow_import (depth_ : nat) (r : Reference) (s : Walk * Next) : Walk * Next :=
  let '(w, n) := s in
  let w := mkWalk (file_reasons w) (visited_files w) (visited_symbols w) (max (seeds w) 1) (frontier_capped w) (budget w)
             (icache w) in
  let w := record_reason depth_ (from_file r) (mkReason (to_name r) (ref_kind r) (ref_line r)) w in
  (w, if depth_ <? depth req then
        mkNext (next_files n ++ [from_file r]) (pending_callers n ++ [(from_file r, from_symbol r, ref_line r)])
      else n).

(** The loop over the import rows of a file, [indices] those it visits; [spent]
    is true when the deadline breaks it. *)
Fixpoint import_loop (depth_ : nat) (file : bytes) (imports : list Reference) (known : bool) (index : nat)
    (indices : list nat) (matches : list nat) (s : Walk * Next) : T (bool * list nat * (Walk * Next)) :=
  match indices with
  | [] => mret (false, matches, s)
  | reference_index :: indices =>
      check_at stopped ;;
      let '(hit, w) := if Nat.eqb (index mod 256) 0 then check_deadline s.1 else (false, s.1) in
      let s := (w, s.2) in
      if (hit : bool) then mret (true, matches, s)
      else
        r ← vget imports reference_index;
        matched ← (if known then mret true else query (targets_file r file));
        if negb matched then import_loop depth_ file imports known (S index) indices matches s
        else
          let matches := if known then matches else matches ++ [reference_index] in
          let s := if bool_decide (from_file r ∈ origin_files) then s else follow_import depth_ r s in
          import_loop depth_ file imports known (S index) indices matches s
  end.

Definition remember_imports (c : WalkCache) (file : bytes) (matches : list nat) : WalkCache :=
  if has_room c file matches then mkWalkCache (file_imports c) (<[file := matches]> (import_matches c)) (rust_modules c) else c.

(** [b.exhausted || b.over_deadline() || file_imports.len() > b.remaining], or the
    charge for the file. *)
Definition afford_file (imports : list Reference) (w : Walk) : bool * Walk :=
  match budget w with
  | None => (true, w)
  | Some b =>
      let '(late_, b) := if exhausted b then (true, b) else over_deadline b in
      if (late_ : bool) || (remaining b <? N.of_nat (length imports))%N then (false, set_budget (Some (exhaust b)) w)
      else (true, set_budget (Some (charge (N.of_nat (length imports)) b)) w)
  end.

Fixpoint file_loop (depth_ : nat) (imports : list Reference) (files : list bytes) (spent : bool) (s : Walk * Next)
    : T (bool * (Walk * Next)) :=
  match files with
  | [] => mret (spent, s)
  | file :: files =>
      check_at stopped ;;
      let '(w, n) := s in
      if bool_decide (file ∈ visited_files w) then file_loop depth_ imports files spent s
      else
        let w := visit_file file w in
        let '(affordable, w) := afford_file imports w in
        if negb affordable then mret (true, (w, n))
        else
          let known := import_matches (icache w) !! file in
          let indices := match known with Some rows => rows | None => seq 0 (length imports) end in
          '(broke, matches, (w, n)) ← import_loop depth_ file imports (bool_decide (is_Some known)) 0 indices [] (w, n);
          let spent := spent || broke in
          let w :=
            if negb spent && negb (bool_decide (is_Some known)) then
              mkWalk (file_reasons w) (visited_files w) (visited_symbols w) (seeds w) (frontier_capped w) (budget w)
                (remember_imports (icache w) file matches)
            else w in
          file_loop depth_ imports files spent (w, n)
  end.

(** *** The next frontier *)

Definition span (s : Symbol) : N := line_end s - line_start s.

Definition innermost (line : N) (best : option Symbol) (s : Symbol) : option Symbol :=
  if (line_start s <=? line)%N && (line <=? line_end s)%N then
    match best with
    | Some b => if (span b <=? span s)%N then best else Some s
    | None => Some s
    end
  else best.

Definition recorded_owner (syms : list Symbol) (from_symbol : option bytes) : option Symbol :=
  from_symbol ≫= (λ qn, List.find (λ s, bytes_eqb (qualified_name s) qn) syms).

(** A row's owner: the recorded one, or the innermost around the line. *)
Definition owner_step (syms_by_file : gmap bytes (list Symbol)) (next : list Symbol) (p : bytes * option bytes * N)
    : T (list Symbol) :=
  let '(file, from_symbol, line) := p in
  check_at stopped ;;
  match syms_by_file !! file with
  | None => mret next
  | Some syms =>
      match recorded_owner syms from_symbol with
      | Some s => mret (next ++ [s])
      | None =>
          best ← for_each (λ best s, check_at stopped ;; mret (innermost line best s)) syms None;
          mret (next ++ option_list best)
      end
  end.

(** [retain(|s| seen.insert(key))]. *)
Definition distinct_symbols (l : list Symbol) : list Symbol :=
  foldl (λ kept s, if bool_decide (key_of s ∈ map key_of kept) then kept else kept ++ [s]) [] l.

Fixpoint dedup_sorted (l : list bytes) : list bytes :=
  match l with
  | x :: (y :: _) as rest => if bytes_eqb x y then dedup_sorted rest else x :: dedup_sorted rest
  | l => l
  end.

Definition sorted_files (l : list bytes) (visited : gset bytes) : list bytes :=
  List.filter (λ f, negb (bool_decide (f ∈ visited))) (dedup_sorted (merge_sort bytes_le l)).

Definition cut {A} (l : list A) : bool * list A := (max_frontier <? length l, take max_frontier l).

(** One level; [None] when the walk stops after it. *)
Definition walk_level (imports : list Reference) (depth_ : nat) (frontier : list Symbol) (file_frontier : list bytes)
    (w : Walk) : T (Walk * option (list Symbol * list bytes)) :=
  check_at stopped ;;
  '(w, level, spent) ← choose_level frontier w;
  s ← for_each (follow_symbol depth_) level (w, mkNext [] []);
  '(spent, (w, n)) ← file_loop depth_ imports file_frontier spent s;
  if (spent : bool) then mret (set_capped w, None)
  else if bool_decide (pending_callers n = []) && bool_decide (next_files n = []) then mret (w, None)
  else
    let distinct_files := elements (list_to_set (map (λ p, p.1.1) (pending_callers n)) : gset bytes) in
    let '(hit, w) := check_deadline w in
    if (hit : bool) then mret (set_capped w, None)
    else
      syms_by_file ← query (symbols_for_files distinct_files);
      next ← for_each (owner_step syms_by_file) (pending_callers n) [];
      let '(cut_symbols, next_frontier) := cut (distinct_symbols next) in
      let '(cut_files, files) := cut (sorted_files (next_files n) (visited_files w)) in
      let w := if cut_symbols || cut_files then set_capped w else w in
      if bool_decide (next_frontier = []) && bool_decide (files = []) then mret (w, None)
      else mret (w, Some (next_frontier, files)).

(** [for depth in 1..=req.depth]. *)
Fixpoint walk_levels (imports : list Reference) (depths : list nat) (frontier : list Symbol) (file_frontier : list bytes)
    (w : Walk) : T Walk :=
  match depths with
  | [] => mret w
  | depth_ :: depths =>
      '(w, next) ← walk_level imports depth_ frontier file_frontier w;
      match next with
      | None => mret w
      | Some (frontier, file_frontier) => walk_levels imports depths frontier file_frontier w
      end
  end.

End origin.
End walk.

(** ** The report *)

Section report.
Context (to_lowercase : bytes → bytes) (req : ImpactRequest).

Definition entry_le (a b : ImpactEntry) : Prop :=
  distance a < distance b
  ∨ distance a = distance b
    ∧ (length (reasons b) < length (reasons a)
       ∨ length (reasons a) = length (reasons b) ∧ bytes_le (entry_path a) (entry_path b)).

#[local] Instance entry_le_decision a b : Decision (entry_le a b).
Proof. unfold entry_le. apply _. Defined.

Definition entry_of (p : bytes * FileReasons) : ImpactEntry :=
  mkEntry (match Handle.file p.1 with Some h => to_string h | None => [] end) p.1 (fr_distance p.2)
    (classify to_lowercase p.1) (fr_reasons p.2).

Definition context_capped (c : WalkCache) : bool :=
  match rust_modules c with Some m => RustModules.capped m | None => false end.

Definition report (w : Walk) : WalkOutcome :=
  let all := map entry_of (map_to_list (file_reasons w)) in
  mkOutcome
    (merge_sort entry_le (List.filter (λ e, negb (source_only req) || bool_decide (category e = Source)) all))
    (frontier_capped w || context_capped (icache w))
    ((λ e, size (fr_edges e)) <$> file_reasons w)
    (seeds w).

End report.

(** ** [impact_analysis_walk_shared] *)

Section shared.
Context (stopped late : nat → bool) (count_referencing_files count_symbols_named : bytes → option N).
Context (to_lowercase : bytes → bytes) (is_alphanumeric : bytes → bool).
Context (references : Symbol → option (list Reference)) (file_import_references : option (list Reference)).
Context (indexed_targets : Reference → option (list bytes)).
Context (symbols_for_file : bytes → option (list Symbol)).
Context (symbols_for_files : list bytes → option (gmap bytes (list Symbol))).
Context (resolve_impact_target : ImpactTarget → option (TargetResolution * list Symbol)).
(** [RustModules::load]. *)
Context (load_modules : option RustModules).
Context (has_room : WalkCache → bytes → list nat → bool).
Context (req : ImpactRequest) (max_frontier : nat).

Definition no_outcome (capped : bool) : WalkOutcome := mkOutcome [] capped ∅ 0.

Definition seed_target (resolution : TargetResolution) (candidates : list Symbol) : T (list Symbol * list bytes) :=
  match kind resolution with
  | KSymbol => mret (matched_symbols resolution candidates, [])
  | _ =>
      match sole resolution ≫= target_path with
      | Some path => syms ← query (symbols_for_file path); mret (syms, [path])
      | None => mret ([], [])
      end
  end.

(** [cache.file_imports], loaded when missing. *)
Definition load_imports (file_frontier : list bytes) (c : WalkCache) : T (list Reference * WalkCache) :=
  match file_frontier with
  | [] => mret ([], c)
  | _ =>
      match file_imports c with
      | Some rows => mret (rows, c)
      | None => rows ← query file_import_references; mret (rows, mkWalkCache (Some rows) (import_matches c) (rust_modules c))
      end
  end.

Definition involves_rust (seeds : list Symbol) (files : list bytes) : bool :=
  existsb (ends_with (bs ".rs")) files || existsb (λ s, ends_with (bs ".rs") (file_path s)) seeds.

(** [cache.rust_modules]. *)
Definition cached_modules (c : WalkCache) : T (RustModules * WalkCache) :=
  match rust_modules c with
  | Some m => mret (m, c)
  | None => m ← query load_modules; mret (m, mkWalkCache (file_imports c) (import_matches c) (Some m))
  end.

(** The budget and the cache are the caller's: it gets them back with the result. *)
Definition impact_analysis_walk_shared (b : option WalkBudget) (c : WalkCache)
    : T (option WalkBudget * WalkCache * (TargetError + WalkOutcome)) :=
  check_at stopped ;;
  let '(spent, b) :=
    match b with
    | Some b => if exhausted b then (true, Some b) else let '(hit, b) := over_deadline late b in (hit, Some b)
    | None => (false, None)
    end in
  if (spent : bool) then mret (b, c, inr (no_outcome true))
  else
    '(resolution, candidates) ← query (resolve_impact_target (target req));
    match refusal resolution with
    | Some (Ambiguous i cs t o) => mret (b, c, inl (Ambiguous i cs t o))
    | _ =>
        '(seed_symbols, file_frontier) ← seed_target resolution candidates;
        if bool_decide (seed_symbols = []) && bool_decide (file_frontier = []) then mret (b, c, inr (no_outcome false))
        else
          '(m, c) ← (if involves_rust seed_symbols file_frontier then cached_modules c else mret (no_modules, c));
          let origin_files : gset bytes :=
            list_to_set (match file_frontier with [] => map file_path seed_symbols | _ => file_frontier end) in
          '(imports, c) ← load_imports file_frontier c;
          let w := mkWalk ∅ ∅ ∅ (length seed_symbols) false b c in
          w ← walk_levels stopped late count_referencing_files count_symbols_named references
                (import_targets is_alphanumeric indexed_targets m) symbols_for_files has_room req max_frontier
                origin_files imports (seq 1 (depth req)) seed_symbols file_frontier w;
          mret (budget w, icache w, inr (report to_lowercase req w))
    end.
End shared.
