(* ===== verification/ImpactWalk.v ===== *)
(** * ImpactWalk: the impact walk against what it reaches

    [sym_at], [file_at] and [row_at] say declaratively what the index connects to
    the target at each distance.  The walk of [Impact] is proved against them: it
    records only real dependents, at a distance they have; and a walk that reports
    no cap has every dependent within the depth, at its shortest distance. *)
From stdpp Require Import gmap sorting.
From S2P Require Import Prelude Text Order Checked Handle Target CallPath ImportPaths RustModules Impact.
From Stdlib Require Import Lia NArith.
Local Open Scope codesage_scope.

(** ** What a walk reaches *)

(** The symbol that owns a row. *)
Definition owner_of (syms : list Symbol) (from_symbol : option bytes) (line : N) : option Symbol :=
  match recorded_owner syms from_symbol with
  | Some s => Some s
  | None => foldl (innermost line) None syms
  end.

Section reach.
Context (references : Symbol → option (list Reference)) (targets_file : Reference → bytes → option bool).
(** The indexed symbols of a file. *)
Context (syms_of : bytes → option (list Symbol)).
Context (file_target : bool) (origin_files : gset bytes) (imports : list Reference).
Context (seed_symbols : list Symbol) (seed_files : list bytes).

Definition owner_at (r : Reference) : option Symbol :=
  syms ← syms_of (from_file r); owner_of syms (from_symbol r) (ref_line r).

(** [sym_at d], [file_at d]: the symbols and files whose dependents are at
    distance [d]; [row_at via d r]: the reference ([via = false]) or import
    ([via = true]) row [r] reaches its file at distance [d]. *)
Inductive sym_at : nat → Symbol → Prop :=
| sym_seed s : s ∈ seed_symbols → sym_at 1 s
| sym_owner via d r s : row_at via d r → owner_at r = Some s → sym_at (S d) s
with file_at : nat → bytes → Prop :=
| file_seed f : f ∈ seed_files → file_at 1 f
| file_dependent via d r : row_at via d r → via || file_target = true → file_at (S d) (from_file r)
with row_at : bool → nat → Reference → Prop :=
| row_reference d s rows r :
    sym_at d s → references s = Some rows → r ∈ rows → from_file r ∉ origin_files → row_at false d r
| row_import d f r :
    file_at d f → r ∈ imports → targets_file r f = Some true → from_file r ∉ origin_files → row_at true d r.

Lemma sym_at_pos d s : sym_at d s → 1 ≤ d.
Proof. destruct 1; lia. Qed.

Lemma file_at_pos d f : file_at d f → 1 ≤ d.
Proof. destruct 1; lia. Qed.

Lemma row_at_pos via d r : row_at via d r → 1 ≤ d.
Proof. destruct 1; [by eapply sym_at_pos|by eapply file_at_pos]. Qed.

(** Nothing is reached from nothing, and no file from symbols alone. *)
Lemma nothing_reached via d r : seed_symbols = [] → seed_files = [] → ¬ row_at via d r.
Proof.
  intros Es Ef. cut ((∀ s, ¬ sym_at d s) ∧ ∀ f, ¬ file_at d f); [by intros [H1 H2] H; destruct H; [eapply H1|eapply H2]|].
  clear via r. induction d as [|d [IH1 IH2]].
  - split; [intros s ?%sym_at_pos|intros f ?%file_at_pos]; lia.
  - assert (∀ via r, ¬ row_at via d r) as IH by (by intros via r H; destruct H; [eapply IH1|eapply IH2]).
    split; [intros s H|intros f H]; inversion H; subst; try (by eapply IH); rewrite ?Es, ?Ef in *; by eapply elem_of_nil.
Qed.

Lemma no_file_reached d f : seed_files = [] → file_target = false → ¬ file_at d f.
Proof.
  intros Ef Et. revert f. induction d as [|d IH]; intros f H; [by apply file_at_pos in H; lia|].
  inversion H as [? Hf|via d' r Hr Hv]; subst; [rewrite Ef in *; by eapply elem_of_nil|].
  destruct Hr; [by rewrite Et in Hv|by eapply IH].
Qed.
End reach.

(** ** Budgets only run down *)

(** The deadline, once hit, has exhausted the budget. *)
Definition budget_ok (b : WalkBudget) : Prop := deadline_hit b = true → exhausted b = true.

Definition budgets_ok (w : Walk) : Prop := ∀ b, budget w = Some b → budget_ok b.

(** [b'] is [b] after spending some of it. *)
Definition later (b b' : WalkBudget) : Prop :=
  (budget_ok b → budget_ok b') ∧ (exhausted b = true → exhausted b' = true).

#[export] Instance later_preorder : PreOrder later.
Proof. split; [by split|]. intros a b c [H1 H2] [H3 H4]. split; auto. Qed.

Lemma exhaust_later b : later b (exhaust b).
Proof. by split. Qed.

Lemma charge_later n b : later b (charge n b).
Proof. by split. Qed.

Lemma over_deadline_later late b hit b' :
  over_deadline late b = (hit, b') → later b b' ∧ (budget_ok b → hit = true → exhausted b' = true).
Proof.
  unfold over_deadline. destruct (deadline_hit b) eqn:Eh.
  - intros [= <- <-]. split; [done|]. intros Hb _. by apply Hb.
  - destruct (deadline b); intros [= <- <-]; (split; [|done || (intros _ ->; by rewrite orb_true_r)]).
    + split; [|cbn [exhausted]; by intros ->]. intros _. unfold budget_ok. cbn [deadline_hit exhausted].
      intros ->. apply orb_true_r.
    + done.
Qed.

Lemma cost_later files named s b : yields (cost files named s b) (λ r, later b r.2).
Proof.
  unfold cost. eapply yields_bind with (P := λ r, later b r.2).
  - unfold memo_files. destruct (caller_file_counts b !! sy_name s); [by apply yields_ret|].
    apply yields_query. intros n _. by apply yields_ret.
  - intros [n b1] H1. eapply yields_bind with (P := λ r, later b r.2).
    + unfold memo_candidates. destruct (candidate_counts b1 !! sy_name s); [by apply yields_ret|].
      apply yields_query. intros m _. apply yields_ret. cbn [snd] in *. by destruct H1.
    + intros [m b2] H2. by apply yields_ret.
Qed.

(** ** Choosing a level *)

Section choose.
Context (stopped late : nat → bool) (count_referencing_files count_symbols_named : bytes → option N).
Context (references : Symbol → option (list Reference)).

(** All but the visited symbols and the budget. *)
Definition same_walk (w w' : Walk) : Prop :=
  file_reasons w' = file_reasons w ∧ visited_files w' = visited_files w ∧ seeds w' = seeds w
  ∧ frontier_capped w' = frontier_capped w ∧ icache w' = icache w.

(** The symbols visited are now those of the frontier too. *)
Definition visits (frontier : list Symbol) (w w' : Walk) : Prop :=
  ∀ k, k ∈ visited_symbols w' ↔ k ∈ visited_symbols w ∨ k ∈ map key_of frontier.

Definition fetched (frontier : list Symbol) (x : Symbol * list Reference) : Prop :=
  x.1 ∈ frontier ∧ references x.1 = Some x.2.

(** Every symbol not visited is in the level, up to its key. *)
Definition opened (frontier : list Symbol) (w : Walk) (level : list (Symbol * list Reference)) : Prop :=
  ∀ s, s ∈ frontier → key_of s ∉ visited_symbols w → ∃ x, x ∈ level ∧ key_of x.1 = key_of s.

Lemma visits_nil w : visits [] w w.
Proof. intros k. cbn [map]. rewrite elem_of_nil. tauto. Qed.

Lemma visits_skip s frontier w w' : key_of s ∈ visited_symbols w → visits frontier w w' → visits (s :: frontier) w w'.
Proof. unfold visits. cbn [map]. intros Hs H k. rewrite (H k), elem_of_cons. naive_solver. Qed.

Lemma visits_cons s frontier w w' : visits frontier (visit_symbol (key_of s) w) w' → visits (s :: frontier) w w'.
Proof.
  unfold visits. cbn [map visit_symbol visited_symbols]. intros H k.
  rewrite (H k), elem_of_union, elem_of_singleton, elem_of_cons. tauto.
Qed.

Lemma open_level_ok frontier w level :
  yields (open_level stopped references frontier w level) (λ r,
    same_walk w r.1 ∧ budget r.1 = budget w ∧ visits frontier w r.1
    ∧ (∀ x, x ∈ r.2 → x ∈ level ∨ fetched frontier x) ∧ level ⊆ r.2 ∧ opened frontier w r.2).
Proof.
  revert w level. induction frontier as [|s frontier IH]; intros w level; cbn [open_level].
  - apply yields_ret. cbn [fst snd]. split; [done|]. split; [done|]. split; [apply visits_nil|].
    split; [by left|]. split; [done|]. by intros s ?%elem_of_nil.
  - apply yields_check. case_bool_decide as Hs.
    + eapply yields_mono; [apply IH|]. intros [w' l'] (H1 & H2 & H3 & H4 & H5 & H6). cbn [fst snd] in *.
      split; [done|]. split; [done|]. split; [by apply visits_skip|]. split; [|split; [done|]].
      * intros x Hx. destruct (H4 x Hx) as [?|[? ?]]; [by left|]. right. split; [by right|done].
      * intros s' [->|Hs']%elem_of_cons Hn; [done|]. by apply H6.
    + apply yields_query. intros rows Hrows. eapply yields_mono; [apply IH|].
      intros [w' l'] (H1 & H2 & H3 & H4 & H5 & H6). cbn [fst snd] in *.
      split; [done|]. split; [done|]. split; [by apply visits_cons|]. split; [|split; [set_solver|]].
      * intros x Hx. destruct (H4 x Hx) as [[?| ->%list_elem_of_singleton]%elem_of_app|[? ?]]; [by left| |].
        -- right. split; [by left|done].
        -- right. split; [by right|done].
      * intros s' Hs' Hn. destruct (decide (key_of s' = key_of s)) as [E|E].
        -- exists (s, rows). split; [apply H5; set_solver|done].
        -- apply elem_of_cons in Hs' as [->|Hs']; [done|]. apply H6; [done|]. cbn. set_solver.
Qed.

(** [idx] is the index of the head of [frontier]. *)
Definition priced_by (idx : nat) (frontier : list Symbol) (p : N * nat) : Prop := idx ≤ p.2 < idx + length frontier.

Definition prices (idx : nat) (frontier : list Symbol) (w : Walk) (priced : list (N * nat)) : Prop :=
  ∀ s, s ∈ frontier → key_of s ∉ visited_symbols w →
    ∃ c i s', (c, idx + i) ∈ priced ∧ frontier !! i = Some s' ∧ key_of s' = key_of s.

Lemma prices_cons idx (s s0 : Symbol) frontier (priced : list (N * nat)) c i s' :
  (c, S idx + i) ∈ priced → frontier !! i = Some s' → key_of s' = key_of s →
  ∃ c i s', (c, idx + i) ∈ priced ∧ (s0 :: frontier) !! i = Some s' ∧ key_of s' = key_of s.
Proof. intros ? ? ?. exists c, (S i), s'. by rewrite <- plus_n_Sm. Qed.

Lemma price_level_ok idx frontier w b priced :
  budget_ok b →
  yields (price_level stopped late count_referencing_files count_symbols_named idx frontier w b priced) (λ r,
    let '(w', b', priced') := r in
    same_walk w w' ∧ later b b' ∧ (∀ p, p ∈ priced' → p ∈ priced ∨ priced_by idx frontier p) ∧ priced ⊆ priced'
    ∧ (exhausted b' = false → visits frontier w w' ∧ prices idx frontier w priced')).
Proof.
  revert idx w b priced. induction frontier as [|s frontier IH]; intros idx w b priced Hb; cbn [price_level].
  - apply yields_ret. split; [done|]. split; [done|]. split; [by left|]. split; [done|].
    intros _. split; [apply visits_nil|]. by intros s ?%elem_of_nil.
  - apply yields_check.
    assert (∃ hit b1, (if Nat.eqb (idx mod 256) 0 then over_deadline late b else (false, b)) = (hit, b1)
              ∧ later b b1 ∧ (hit = true → exhausted b1 = true)) as (hit & b1 & -> & L1 & Hhit).
    { destruct (Nat.eqb _ _); [|by exists false, b]. destruct (over_deadline late b) as [hit b1] eqn:E.
      apply over_deadline_later in E as [? H]. exists hit, b1. split; [done|]. split; [done|]. by apply H. }
    assert (budget_ok b1) as Hb1 by by apply L1.
    destruct hit.
    { apply yields_ret. unfold same_walk. split; [done|]. split; [done|]. split; [by left|]. split; [done|].
      rewrite Hhit by done. done. }
    case_bool_decide as Hs.
    + eapply yields_mono; [by apply IH|]. intros [[w' b'] p'] (H1 & H2 & H3 & H4 & H5).
      split; [done|]. split; [by etransitivity|]. split; [|split; [done|]].
      * intros p Hp. destruct (H3 p Hp) as [?|H]; [by left|]. right. unfold priced_by in *. cbn [length]. lia.
      * intros Hx. destruct (H5 Hx) as [Hv Hp]. split; [by apply visits_skip|].
        intros s' [->|Hs']%elem_of_cons Hn; [done|]. destruct (Hp s' Hs' Hn) as (c & i & s2 & ? & ? & ?).
        by eapply prices_cons.
    + eapply yields_bind; [apply cost_later|]. intros [c b2] L2. cbn [snd] in L2.
      assert (budget_ok b2) as Hb2 by by apply L2.
      eapply yields_mono; [by apply IH|]. intros [[w' b'] p'] (H1 & H2 & H3 & H4 & H5).
      split; [done|]. split; [by do 2 (etransitivity; [done|])|]. split; [|split; [set_solver|]].
      * intros p Hp. destruct (H3 p Hp) as [[?| ->%list_elem_of_singleton]%elem_of_app|H]; [by left| |];
          right; unfold priced_by in *; cbn [length snd]; lia.
      * intros Hx. destruct (H5 Hx) as [Hv Hp]. split; [by apply visits_cons|].
        intros s' Hs' Hn. destruct (decide (key_of s' = key_of s)) as [E|E].
        -- exists c, 0, s. rewrite Nat.add_0_r. split; [apply H4; set_solver|done].
        -- apply elem_of_cons in Hs' as [->|Hs']; [done|].
           destruct (Hp s' Hs') as (c' & i & s2 & ? & ? & ?); [cbn; set_solver|]. by eapply prices_cons.
Qed.
Lemma admit_level_ok priced b admitted :
  budget_ok b → (∀ p, p ∈ priced → p.2 < length admitted) →
  yields (admit_level stopped priced b admitted) (λ r,
    later b r.1 ∧ length r.2 = length admitted ∧ (∀ i, admitted !! i = Some true → r.2 !! i = Some true)
    ∧ (exhausted r.1 = false → ∀ p, p ∈ priced → r.2 !! p.2 = Some true)).
Proof.
  revert b admitted. induction priced as [|[c idx] priced IH]; intros b admitted Hb Hp; cbn [admit_level].
  - apply yields_ret. cbn [fst snd]. split; [done|]. split; [done|]. split; [done|]. by intros _ p ?%elem_of_nil.
  - apply yields_check. destruct (remaining b <? c)%N.
    { apply yields_ret. cbn [fst snd]. split; [apply exhaust_later|]. done. }
    assert (idx < length admitted) as Hi by (apply (Hp (c, idx)); by left).
    unfold vset. rewrite (proj2 (Nat.ltb_lt _ _)) by done. apply yields_ret_bind.
    eapply yields_mono.
    { apply IH; [by apply charge_later|]. intros p Hin. rewrite length_insert. apply Hp. by right. }
    intros [b' adm'] (H1 & H2 & H3 & H4). cbn [fst snd] in *. rewrite length_insert in H2.
    assert (adm' !! idx = Some true) as Hidx by by apply H3, list_lookup_insert_eq.
    split; [by etransitivity; [apply charge_later|]|]. split; [done|]. split.
    + intros i Ha. destruct (decide (i = idx)) as [->|Hne]; [done|]. apply H3. by rewrite list_lookup_insert_ne.
    + intros Hx p [->|Hin]%elem_of_cons; [done|]. by apply H4.
Qed.

Lemma fetch_level_ok idx frontier admitted b level :
  budget_ok b → idx + length frontier = length admitted →
  yields (fetch_level stopped late references idx frontier admitted b level) (λ r,
    later b r.1 ∧ (∀ x, x ∈ r.2 → x ∈ level ∨ fetched frontier x) ∧ level ⊆ r.2
    ∧ (exhausted r.1 = false → ∀ i s, frontier !! i = Some s → admitted !! (idx + i) = Some true →
        ∃ x, x ∈ r.2 ∧ x.1 = s)).
Proof.
  revert idx b level. induction frontier as [|s frontier IH]; intros idx b level Hb Hl; cbn [fetch_level].
  - apply yields_ret. cbn [fst snd]. split; [done|]. split; [by left|]. by split.
  - destruct (lookup_lt_is_Some_2 admitted idx) as [chosen Hc]; [cbn [length] in Hl; lia|].
    eapply yields_vget; [done|].
    assert (∀ x, fetched frontier x → fetched (s :: frontier) x) as Hmono by (intros x [? ?]; split; [by right|done]).
    destruct chosen; cbn [negb].
    + destruct (over_deadline late b) as [hit b1] eqn:E. apply over_deadline_later in E as [L Hhit].
      destruct hit.
      { apply yields_ret. cbn [fst snd]. split; [done|]. split; [by left|]. split; [done|]. by rewrite Hhit. }
      apply yields_query. intros rows Hrows. eapply yields_mono.
      { apply IH; [by apply L|cbn [length] in Hl; lia]. }
      intros [b' l'] (H1 & H2 & H3 & H4). cbn [fst snd] in *.
      split; [by etransitivity|]. split; [|split; [set_solver|]].
      * intros x Hx. destruct (H2 x Hx) as [[?| ->%list_elem_of_singleton]%elem_of_app|?]; [by left| |by right; apply Hmono].
        right. split; [by left|done].
      * intros Hx [|i] s' Hs' Ha; simplify_eq/=; [exists (s', rows); split; [apply H3; set_solver|done]|].
        apply (H4 Hx i); [done|]. by rewrite Nat.add_succ_r in Ha.
    + apply yields_check. eapply yields_mono; [apply IH; [done|cbn [length] in Hl; lia]|].
      intros [b' l'] (H1 & H2 & H3 & H4). cbn [fst snd] in *.
      split; [done|]. split; [|split; [done|]].
      * intros x Hx. destruct (H2 x Hx) as [?|?]; [by left|right; by apply Hmono].
      * intros Hx [|i] s' Hs' Ha; simplify_eq/=; [by rewrite Nat.add_0_r, Hc in Ha|].
        apply (H4 Hx i); [done|]. by rewrite Nat.add_succ_r in Ha.
Qed.

Lemma choose_level_ok frontier w :
  budgets_ok w →
  yields (choose_level stopped late count_referencing_files count_symbols_named references frontier w) (λ r,
    let '(w', level, spent) := r in
    same_walk w w' ∧ budgets_ok w' ∧ (∀ x, x ∈ level → fetched frontier x)
    ∧ (spent = false → visits frontier w w' ∧ opened frontier w level)).
Proof.
  intros Hb. unfold choose_level. destruct (budget w) as [b|] eqn:Eb.
  - eapply yields_bind; [by apply price_level_ok, Hb|]. intros [[w1 b1] priced] (S1 & L1 & P1 & _ & V1).
    assert (budget_ok b1) as Hb1 by by apply L1, Hb.
    eapply yields_bind.
    { apply admit_level_ok; [done|]. intros p Hp. rewrite merge_sort_Permutation in Hp.
      rewrite length_replicate. destruct (P1 p Hp) as [?%elem_of_nil|[_ ?]]; done. }
    intros [b2 admitted] (L2 & A2 & _ & A3). cbn [fst snd] in *. rewrite length_replicate in A2.
    eapply yields_bind; [apply fetch_level_ok; [by apply L2|done]|].
    intros [b3 level] (L3 & F1 & _ & F2). cbn [fst snd] in *. apply yields_ret.
    split; [done|]. split; [intros ? [= <-]; by apply L3, L2|].
    split; [intros x Hx; by destruct (F1 x Hx) as [?%elem_of_nil|?]|]. intros Hx3.
    assert (exhausted b2 = false) as Hx2.
    { destruct (exhausted b2) eqn:E; [|done]. apply L3 in E. congruence. }
    assert (exhausted b1 = false) as Hx1.
    { destruct (exhausted b1) eqn:E; [|done]. apply L2 in E. congruence. }
    destruct (V1 Hx1) as [Hv Hp]. split; [done|]. intros s Hs Hn.
    destruct (Hp s Hs Hn) as (c & i & s' & Hc & Hi & Hk).
    destruct (F2 Hx3 i s') as (x & Hx & <-); [done| |by exists x].
    apply (A3 Hx2 (c, i)). by rewrite merge_sort_Permutation.
  - eapply yields_bind; [apply open_level_ok|]. intros [w1 level] (S1 & B1 & V1 & O1 & _ & O2). cbn [fst snd] in *.
    apply yields_ret. split; [done|]. split; [intros b; rewrite B1; congruence|].
    split; [intros x Hx; by destruct (O1 x Hx) as [?%elem_of_nil|?]|]. done.
Qed.
End choose.

(** ** The next frontier *)

Lemma elem_of_distinct_symbols l :
  (∀ s, s ∈ distinct_symbols l → s ∈ l) ∧ (∀ s, s ∈ l → key_of s ∈ map key_of (distinct_symbols l)).
Proof.
  unfold distinct_symbols. set (step := λ kept s, if bool_decide _ then kept else _).
  cut (∀ kept, (∀ s, s ∈ foldl step kept l → s ∈ kept ∨ s ∈ l)
        ∧ ∀ s, s ∈ kept ∨ s ∈ l → key_of s ∈ map key_of (foldl step kept l)).
  { intros H. destruct (H []) as [A B]. split; [|by auto]. intros s Hs. by destruct (A s Hs) as [?%elem_of_nil|?]. }
  induction l as [|x l IH]; intros kept; cbn [foldl].
  - split; [by left|]. intros s [Hs|?%elem_of_nil]; [|done]. by apply (list_elem_of_fmap_2 key_of).
  - destruct (IH (step kept x)) as [A B].
    assert (∀ s, s ∈ step kept x → s ∈ kept ∨ s = x) as Hstep.
    { intros s. unfold step. case_bool_decide; [by left|]. intros [?| ->%list_elem_of_singleton]%elem_of_app; auto. }
    assert (∀ s, s ∈ kept → s ∈ step kept x) as Hkept by (intros s ?; unfold step; case_bool_decide; set_solver).
    split.
    + intros s Hs. destruct (A s Hs) as [[?| ->]%Hstep|?]; [by left|right; by left|right; by right].
    + intros s [Hs|[->|Hs]%elem_of_cons]; [apply B; left; by apply Hkept| |apply B; by right].
      destruct (decide (key_of x ∈ map key_of kept)) as [Hk|Hk].
      * apply (list_elem_of_fmap key_of) in Hk as (s & -> & Hs). apply B. left. by apply Hkept.
      * apply B. left. unfold step. rewrite bool_decide_eq_false_2 by done. set_solver.
Qed.

Lemma elem_of_dedup_sorted f l : f ∈ dedup_sorted l ↔ f ∈ l.
Proof.
  induction l as [|x l IH]; [done|]. destruct l as [|y l]; [done|]. cbn [dedup_sorted] in *.
  destruct (bytes_eqb_spec x y) as [->|_]; rewrite !elem_of_cons in *; rewrite IH; set_solver.
Qed.

Lemma elem_of_sorted_files f l visited : f ∈ sorted_files l visited ↔ f ∈ l ∧ (f ∉ visited).
Proof.
  unfold sorted_files. rewrite list_elem_of_In, filter_In, <- list_elem_of_In, elem_of_dedup_sorted, merge_sort_Permutation.
  rewrite negb_true_iff, bool_decide_eq_false. done.
Qed.

Lemma cut_ok {A} max (l l' : list A) capped : cut max l = (capped, l') → (∀ x, x ∈ l' → x ∈ l) ∧ (capped = false → l' = l).
Proof.
  unfold cut. intros [= <- <-]. split; [intros x (i & ? & _)%elem_of_take; by eapply list_elem_of_lookup_2|].
  intros H%Nat.ltb_ge. by apply take_ge.
Qed.

(** The owner found is that of [owner_of], the checkpoints apart. *)
Lemma owner_of_ok stopped syms from_symbol line next (Q : list Symbol → Prop) :
  Q (next ++ option_list (owner_of syms from_symbol line)) →
  yields (match recorded_owner syms from_symbol with
          | Some s => mret (next ++ [s])
          | None =>
              best ← for_each (λ best s, check_at stopped ;; mret (innermost line best s)) syms None;
              mret (next ++ option_list best)
          end) Q.
Proof.
  unfold owner_of. destruct (recorded_owner syms from_symbol) as [s|]; [by apply yields_ret|]. intros HQ.
  eapply yields_bind with (P := λ best, best = foldl (innermost line) None syms); [|by intros best ->; apply yields_ret].
  apply yields_for_each with (I := λ seen best, best = foldl (innermost line) None seen); [|done].
  intros a s b best _ ->. apply yields_check, yields_ret. by rewrite foldl_app.
Qed.

Lemma owner_steps_ok (stopped : nat → bool) (syms : gmap bytes (list Symbol)) pending :
  yields (for_each (owner_step stopped syms) pending []) (λ next, ∀ s, s ∈ next ↔
    ∃ p l, p ∈ pending ∧ syms !! p.1.1 = Some l ∧ owner_of l p.1.2 p.2 = Some s).
Proof.
  eapply yields_for_each with (I := λ seen next, ∀ s, s ∈ next ↔
    ∃ p l, p ∈ seen ∧ syms !! p.1.1 = Some l ∧ owner_of l p.1.2 p.2 = Some s).
  - intros a [[f o] line] b next _ H. unfold owner_step. apply yields_check.
    destruct (syms !! f) as [l|] eqn:E.
    2:{ apply yields_ret. intros s. rewrite (H s). split.
        - intros (p & l' & ? & ?). exists p, l'. split; [set_solver|done].
        - intros (p & l' & [Hp| ->%list_elem_of_singleton]%elem_of_app & Hl & Ho); [by exists p, l'|]. cbn in Hl. by simplify_eq. }
    apply owner_of_ok. intros s. rewrite elem_of_app, (H s). split.
    + intros [(p & l' & ? & ?)|Hs].
      * exists p, l'. split; [set_solver|done].
      * exists (f, o, line), l. split; [set_solver|]. split; [done|]. cbn. destruct (owner_of l o line); [|by apply elem_of_nil in Hs].
        apply list_elem_of_singleton in Hs. by subst.
    + intros (p & l' & [Hp| ->%list_elem_of_singleton]%elem_of_app & Hl & Ho); [left; by exists p, l'|]. right.
      cbn in Hl, Ho. simplify_eq. rewrite Ho. by apply list_elem_of_singleton.
  - intros s. split; [by intros ?%elem_of_nil|]. by intros (p & l & ?%elem_of_nil & _).
Qed.

(** ** The walk against what it reaches *)

Section walk_ok.
Context (stopped late : nat → bool) (count_referencing_files count_symbols_named : bytes → option N).
Context (references : Symbol → option (list Reference)) (targets_file : Reference → bytes → option bool).
Context (syms_of : bytes → option (list Symbol)).
Context (has_room : WalkCache → bytes → list nat → bool) (req : ImpactRequest).
Context (origin_files : gset bytes) (imports : list Reference).
Context (seed_symbols : list Symbol) (seed_files : list bytes).
(** The Rust modules the cache holds. *)
Context (cached : option RustModules).

(** A definition's references are found by its identity. *)
Context (Hkey : ∀ s s', key_of s = key_of s' → references s = references s').

#[local] Abbreviation file_target := (is_file_target req).
#[local] Abbreviation sym_at := (sym_at references targets_file syms_of file_target origin_files imports seed_symbols seed_files).
#[local] Abbreviation file_at := (file_at references targets_file syms_of file_target origin_files imports seed_symbols seed_files).
#[local] Abbreviation row_at := (row_at references targets_file syms_of file_target origin_files imports seed_symbols seed_files).
#[local] Abbreviation owner_at := (owner_at syms_of).

Definition matching (l : list Reference) (file : bytes) (i : nat) : Prop := ∃ r, l !! i = Some r ∧ targets_file r file = Some true.

(** The memo of import matches lists, for each of its files, the matching rows. *)
Definition cache_ok (c : WalkCache) : Prop :=
  ∀ file rows, import_matches c !! file = Some rows →
    ∃ l, file_imports c = Some l ∧ ∀ i, i ∈ rows ↔ matching l file i.

Definition within (w : Walk) (g : bytes) (d : nat) : Prop := ∃ e, file_reasons w !! g = Some e ∧ fr_distance e ≤ d.

Definition edge_reasons (e : FileReasons) : Prop :=
  length (fr_reasons e) = min MAX_REASONS (size (fr_edges e))
  ∧ NoDup (map (λ x, (via_symbol x, reason_kind x, reason_line x)) (fr_reasons e))
  ∧ ∀ x, x ∈ fr_reasons e → (via_symbol x, reason_kind x, reason_line x) ∈ fr_edges e.

Definition row_pending (r : Reference) : bytes * option bytes * N := (from_file r, from_symbol r, ref_line r).

(** Everything recorded so far is real. *)
Record sound (d : nat) (w : Walk) (n : Next) : Prop := {
  so_reasons g e : file_reasons w !! g = Some e →
    edge_reasons e ∧ fr_distance e ≤ depth req ∧ ∃ via r, row_at via (fr_distance e) r ∧ from_file r = g;
  so_pending p : p ∈ pending_callers n → ∃ via r, row_at via d r ∧ p = row_pending r;
  so_files f : f ∈ next_files n → file_at (S d) f;
  so_budget : budgets_ok w;
  so_cache : cache_ok (icache w);
  so_imports k f : file_at k f → file_imports (icache w) = Some imports;
  so_modules : rust_modules (icache w) = cached;
  so_last : depth req ≤ d → pending_callers n = [] ∧ next_files n = [];
}.

(** What a step of a level leaves alone, and what it only adds to. *)
Record extends (w : Walk) (n : Next) (w' : Walk) (n' : Next) : Prop := {
  ex_within g d : within w g d → within w' g d;
  ex_symbols : visited_symbols w' = visited_symbols w;
  ex_files : visited_files w ⊆ visited_files w';
  ex_capped : frontier_capped w' = frontier_capped w;
  ex_pending p : p ∈ pending_callers n → p ∈ pending_callers n';
  ex_next f : f ∈ next_files n → f ∈ next_files n';
}.

(** The cache and the visited files are left alone. *)
Definition kept (w w' : Walk) : Prop := (icache w', visited_files w') = (icache w, visited_files w).

Lemma extends_refl w n : extends w n w n.
Proof. by split. Qed.

Lemma extends_trans w1 n1 w2 n2 w3 n3 : extends w1 n1 w2 n2 → extends w2 n2 w3 n3 → extends w1 n1 w3 n3.
Proof.
  intros [A1 A2 A3 A4 A5 A6] [B1 B2 B3 B4 B5 B6]. split; [by auto|congruence|set_solver|congruence|by auto|by auto].
Qed.

(** A row is recorded and, short of the last level, queued. *)
Definition covered (d : nat) (w : Walk) (n : Next) (via : bool) (r : Reference) : Prop :=
  within w (from_file r) d
  ∧ (d < depth req → row_pending r ∈ pending_callers n ∧ (via || file_target = true → from_file r ∈ next_files n)).

Lemma covered_extends d w n w' n' via r : extends w n w' n' → covered d w n via r → covered d w' n' via r.
Proof. intros E [? H]. split; [by apply (ex_within _ _ _ _ E)|]. intros Hd. destruct (H Hd) as [? Hf]. split; [by apply (ex_pending _ _ _ _ E)|]. intros ?. by apply (ex_next _ _ _ _ E), Hf. Qed.

(** *** Recording *)

Lemma record_lookup depth_ f reason w g :
  file_reasons (record_reason depth_ f reason w) !! g
  = if decide (g = f) then
      let entry := match file_reasons w !! f with Some e => e | None => mkFileReasons depth_ [] ∅ end in
      let key := (via_symbol reason, reason_kind reason, reason_line reason) in
      Some (mkFileReasons (min (fr_distance entry) depth_)
              (if negb (bool_decide (key ∈ fr_edges entry)) && (length (fr_reasons entry) <? MAX_REASONS)
               then fr_reasons entry ++ [reason] else fr_reasons entry)
              ({[key]} ∪ fr_edges entry))
    else file_reasons w !! g.
Proof.
  unfold record_reason. cbn [file_reasons]. destruct (decide (g = f)) as [->|]; [by rewrite lookup_insert_eq|].
  by rewrite lookup_insert_ne.
Qed.

Lemma edge_reasons_add e reason d :
  edge_reasons e →
  let key := (via_symbol reason, reason_kind reason, reason_line reason) in
  edge_reasons (mkFileReasons d
    (if negb (bool_decide (key ∈ fr_edges e)) && (length (fr_reasons e) <? MAX_REASONS) then fr_reasons e ++ [reason] else fr_reasons e)
    ({[key]} ∪ fr_edges e)).
Proof.
  intros (Hl & Hn & Hs) key. unfold edge_reasons. cbn [fr_reasons fr_edges].
  destruct (bool_decide_reflect (key ∈ fr_edges e)) as [Hin|Hin]; cbn [negb andb].
  - replace ({[key]} ∪ fr_edges e) with (fr_edges e) by set_solver. done.
  - rewrite size_union, size_singleton by set_solver.
    destruct (Nat.ltb_spec (length (fr_reasons e)) MAX_REASONS) as [Hk|Hk].
    + rewrite length_app. cbn [length]. split; [lia|]. split.
      * rewrite map_app. apply NoDup_app. split; [done|]. split; [|apply NoDup_singleton].
        intros k (x & Ek & Hx)%list_elem_of_fmap Hk2%list_elem_of_singleton. apply Hin.
        subst key. rewrite <- Hk2, Ek. by apply Hs.
      * intros x [Hx| ->%list_elem_of_singleton]%elem_of_app; [apply elem_of_union_r; by apply Hs|].
        apply elem_of_union_l. by apply elem_of_singleton.
    + split; [lia|]. split; [done|]. intros x Hx. apply elem_of_union_r. by apply Hs.
Qed.

Lemma record_within depth_ f reason w : within (record_reason depth_ f reason w) f depth_.
Proof. eexists. rewrite record_lookup, decide_True by done. split; [done|]. cbn [fr_distance]. lia. Qed.

Lemma record_mono depth_ f reason w g d : within w g d → within (record_reason depth_ f reason w) g d.
Proof.
  intros (e & He & Hd). unfold within. rewrite record_lookup. destruct (decide (g = f)) as [->|]; [|by eauto].
  eexists. split; [done|]. rewrite He. cbn [fr_distance]. lia.
Qed.

Lemma record_sound d via r reason w n :
  d ≤ depth req → row_at via d r → sound d w n → sound d (record_reason d (from_file r) reason w) n.
Proof.
  intros Hd Hr [Hs Hp Hf Hb Hc Hi Hl Hk]. split; [|done..]. intros g e. rewrite record_lookup.
  destruct (decide (g = from_file r)) as [->|]; [|apply Hs]. intros [= <-].
  destruct (file_reasons w !! from_file r) as [e0|] eqn:E.
  - destruct (Hs _ _ E) as (He & Hd0 & Hrow). split; [by apply edge_reasons_add|]. cbn [fr_distance].
    split; [lia|]. destruct (Nat.min_spec (fr_distance e0) d) as [[_ ->]|[_ ->]]; [done|]. by exists via, r.
  - split; [apply edge_reasons_add; split; [done|]; split; [constructor|by intros x ?%elem_of_nil]|].
    cbn [fr_distance]. rewrite Nat.min_id. split; [done|]. by exists via, r.
Qed.

(** *** Following the rows of a level *)

(** What recording a row queues. *)
Definition enqueue (d : nat) (via : bool) (r : Reference) (n : Next) : Next :=
  if d <? depth req then
    mkNext (if via || file_target then next_files n ++ [from_file r] else next_files n) (pending_callers n ++ [row_pending r])
  else n.

Lemma record_enqueue d via r reason w n :
  d ≤ depth req → row_at via d r → sound d w n →
  let w' := record_reason d (from_file r) reason w in
  sound d w' (enqueue d via r n) ∧ extends w n w' (enqueue d via r n) ∧ covered d w' (enqueue d via r n) via r.
Proof.
  intros Hd Hr Hs w'. pose proof (record_sound d via r reason w n Hd Hr Hs) as [A1 A2 A3 A4 A5 A6 A7 A8].
  unfold enqueue. destruct (Nat.ltb_spec d (depth req)) as [Hlt|Hge].
  - split; [|split].
    + split; [done| | |done..|lia]; cbn [pending_callers next_files].
      * intros p [?| ->%list_elem_of_singleton]%elem_of_app; [by apply A2|by exists via, r].
      * intros f. destruct (via || file_target) eqn:Ev; [|by apply A3].
        intros [?| ->%list_elem_of_singleton]%elem_of_app; [by apply A3|by eapply file_dependent].
    + split; [by apply record_mono|done..| |]; cbn [pending_callers next_files]; [set_solver|].
      intros f Hf. destruct (via || file_target); set_solver.
    + split; [apply record_within|]. intros _. cbn [pending_callers next_files]. split; [set_solver|].
      intros ->. set_solver.
  - split; [done|]. split; [split; [by apply record_mono|done..]|]. split; [apply record_within|lia].
Qed.

(** The rows among [rows] that leave the origin are covered. *)
Definition all_covered (d : nat) (w : Walk) (n : Next) (via : bool) (rows : list Reference) : Prop :=
  ∀ r, r ∈ rows → from_file r ∉ origin_files → covered d w n via r.

Lemma all_covered_extends d w n w' n' via rows :
  extends w n w' n' → all_covered d w n via rows → all_covered d w' n' via rows.
Proof. intros E H r Hr Ho. eapply covered_extends; [done|by apply H]. Qed.

Lemma all_covered_snoc d w n via rows r :
  all_covered d w n via rows → (from_file r ∉ origin_files → covered d w n via r) → all_covered d w n via (rows ++ [r]).
Proof. intros H Hr r' [?| ->%list_elem_of_singleton]%elem_of_app ?; [by apply H|by apply Hr]. Qed.

Lemma follow_reference_ok d s r w n :
  d ≤ depth req → (from_file r ∉ origin_files → row_at false d r) → sound d w n →
  yields (follow_reference stopped req origin_files d s (w, n) r) (λ s',
    sound d s'.1 s'.2 ∧ extends w n s'.1 s'.2 ∧ kept w s'.1 ∧ (from_file r ∉ origin_files → covered d s'.1 s'.2 false r)).
Proof.
  intros Hd Hr Hs. apply yields_check. case_bool_decide as Ho.
  - apply yields_ret. split; [done|]. split; [apply extends_refl|]. by split.
  - pose proof (record_enqueue d false r (mkReason (sy_name s) (ref_kind r) (ref_line r)) w n Hd (Hr Ho) Hs) as H.
    unfold enqueue in H. cbn [orb] in H. destruct (d <? depth req); apply yields_ret; naive_solver.
Qed.

Lemma follow_symbol_ok d x w n :
  d ≤ depth req → sym_at d x.1 → references x.1 = Some x.2 → sound d w n →
  yields (follow_symbol stopped req origin_files d (w, n) x) (λ s',
    sound d s'.1 s'.2 ∧ extends w n s'.1 s'.2 ∧ kept w s'.1 ∧ all_covered d s'.1 s'.2 false x.2).
Proof.
  intros Hd Hx Hrows Hs. apply yields_check.
  apply yields_for_each with (I := λ seen s', sound d s'.1 s'.2 ∧ extends w n s'.1 s'.2 ∧ kept w s'.1 ∧ all_covered d s'.1 s'.2 false seen).
  - intros a r b [w1 n1] El (H1 & H2 & K1 & H3). cbn [fst snd] in *. eapply yields_mono.
    { apply follow_reference_ok; [done| |done]. intros Ho. eapply row_reference; [done..| |done]. rewrite El. set_solver. }
    intros [w2 n2] (G1 & G2 & K2 & G3). cbn [fst snd] in *. split; [done|]. split; [by eapply extends_trans|]. split; [unfold kept in *; congruence|].
    apply all_covered_snoc; [by eapply all_covered_extends|done].
  - split; [done|]. split; [apply extends_refl|]. split; [done|]. by intros r ?%elem_of_nil.
Qed.

Lemma follow_level_ok d level w n :
  d ≤ depth req → (∀ x, x ∈ level → sym_at d x.1 ∧ references x.1 = Some x.2) → sound d w n →
  yields (for_each (follow_symbol stopped req origin_files d) level (w, n)) (λ s',
    sound d s'.1 s'.2 ∧ extends w n s'.1 s'.2 ∧ kept w s'.1 ∧ ∀ x, x ∈ level → all_covered d s'.1 s'.2 false x.2).
Proof.
  intros Hd Hl Hs.
  apply yields_for_each with (I := λ seen s', sound d s'.1 s'.2 ∧ extends w n s'.1 s'.2 ∧ kept w s'.1
    ∧ ∀ x, x ∈ seen → all_covered d s'.1 s'.2 false x.2).
  - intros a x b [w1 n1] El (H1 & H2 & K1 & H3). cbn [fst snd] in *.
    destruct (Hl x) as [Hx Hrows]; [rewrite El; set_solver|].
    eapply yields_mono; [by apply follow_symbol_ok|]. intros [w2 n2] (G1 & G2 & K2 & G3). cbn [fst snd] in *.
    split; [done|]. split; [by eapply extends_trans|]. split; [unfold kept in *; congruence|].
    intros y [Hy| ->%list_elem_of_singleton]%elem_of_app; [eapply all_covered_extends; [done|by apply H3]|done].
  - split; [done|]. split; [apply extends_refl|]. split; [done|]. by intros x ?%elem_of_nil.
Qed.
(** *** The files of a level *)

Lemma sound_budget d b w n :
  budgets_ok (set_budget b w) → sound d w n → sound d (set_budget b w) n ∧ extends w n (set_budget b w) n.
Proof. intros Hb [A1 A2 A3 A4 A5 A6]. by split; split. Qed.

Lemma check_deadline_ok d w n hit w' :
  check_deadline late w = (hit, w') → sound d w n → sound d w' n ∧ extends w n w' n ∧ kept w w'.
Proof.
  unfold check_deadline. destruct (budget w) as [b|] eqn:Eb; [|by intros [= <- <-]].
  destruct (over_deadline late b) as [h b'] eqn:E. apply over_deadline_later in E as [[L _] _].
  intros [= <- <-] Hs. destruct (sound_budget d (Some b') w n) as [? ?]; [|done..].
  intros ? [= <-]. by apply L, (so_budget _ _ _ Hs).
Qed.

Lemma follow_import_ok d r w n w' n' :
  d ≤ depth req → row_at true d r → sound d w n → follow_import req d r (w, n) = (w', n') →
  sound d w' n' ∧ extends w n w' n' ∧ covered d w' n' true r ∧ kept w w'.
Proof.
  intros Hd Hr [A1 A2 A3 A4 A5 A6] [= <- <-].
  set (w1 := mkWalk _ _ _ (max (seeds w) 1) _ _ _).
  destruct (record_enqueue d true r (mkReason (to_name r) (ref_kind r) (ref_line r)) w1 n) as (B1 & B2 & B3); [done..| |].
  - by split.
  - split; [exact B1|]. split; [|split; [exact B3|done]]. by destruct B2; split.
Qed.

Lemma import_loop_ok d file known index indices matches w n :
  d ≤ depth req → file_at d file → (∀ i, i ∈ indices → i < length imports) →
  (known = true → ∀ i, i ∈ indices → matching imports file i) → sound d w n →
  yields (import_loop stopped late targets_file req origin_files d file imports known index indices matches (w, n)) (λ res,
    let '(broke, matches', (w', n')) := res in
    sound d w' n' ∧ extends w n w' n' ∧ kept w w'
    ∧ (broke = false →
        (∀ i r, i ∈ indices → imports !! i = Some r → targets_file r file = Some true →
          from_file r ∉ origin_files → covered d w' n' true r)
        ∧ (known = false → ∀ i, i ∈ matches' ↔ i ∈ matches ∨ i ∈ indices ∧ matching imports file i))).
Proof.
  intros Hd Hf. revert index matches w n.
  induction indices as [|i indices IH]; intros index matches w n Hlen Hknown Hs; cbn [import_loop].
  { apply yields_ret. split; [done|]. split; [apply extends_refl|]. split; [done|]. intros _.
    split; [by intros i r ?%elem_of_nil|]. intros _ i. rewrite elem_of_nil. tauto. }
  apply yields_check. cbn [fst snd].
  assert (∃ hit w1, (if Nat.eqb (index mod 256) 0 then check_deadline late w else (false, w)) = (hit, w1)
            ∧ sound d w1 n ∧ extends w n w1 n ∧ kept w w1) as (hit & w1 & -> & S1 & E1 & C1).
  { destruct (Nat.eqb _ _); [|by exists false, w]. destruct (check_deadline late w) as [hit w1] eqn:E.
    exists hit, w1. split; [done|]. by eapply check_deadline_ok. }
  destruct hit; [by apply yields_ret|].
  destruct (lookup_lt_is_Some_2 imports i) as [r Hr]; [apply Hlen; by left|]. eapply yields_vget; [done|].
  assert (Hlen' : ∀ i, i ∈ indices → i < length imports) by (intros; apply Hlen; by right).
  assert (Hknown' : known = true → ∀ i, i ∈ indices → matching imports file i)
    by (intros; apply Hknown; [done|by right]).
  eapply yields_bind with (P := λ m, targets_file r file = Some m).
  { destruct known; [|unfold query; destruct (targets_file r file) as [m|] eqn:E; [by apply yields_ret|by right]].
    apply yields_ret. destruct (Hknown eq_refl i) as (r' & Hr' & Hm); [by left|]. by simplify_eq. }
  intros matched Hm. destruct matched; cbn [negb].
  - set (s1 := if bool_decide (from_file r ∈ origin_files) then (w1, n) else follow_import req d r (w1, n)).
    assert (∃ w2 n2, s1 = (w2, n2) ∧ sound d w2 n2 ∧ extends w n w2 n2 ∧ kept w w2
              ∧ (from_file r ∉ origin_files → covered d w2 n2 true r)) as (w2 & n2 & -> & S2 & E2 & C2 & V2).
    { unfold s1. case_bool_decide as Ho; [by exists w1, n|].
      destruct (follow_import req d r (w1, n)) as [w2 n2] eqn:E. exists w2, n2. split; [done|].
      eapply follow_import_ok in E as (? & ? & ? & ?); [|done| |done].
      - split; [done|]. split; [by eapply extends_trans|]. by split; [unfold kept in *; congruence|].
      - eapply row_import; [done| |done..]. by eapply list_elem_of_lookup_2. }
    eapply yields_mono; [by apply IH|]. intros [[broke m'] [w3 n3]] (S3 & E3 & C3 & H3).
    split; [done|]. split; [by eapply extends_trans|]. split; [unfold kept in *; congruence|]. intros Hb. destruct (H3 Hb) as [G1 G2]. split.
    + intros j r' [->|Hj]%elem_of_cons Hr' Hm' Ho; [|by eapply G1]. simplify_eq. eapply covered_extends; [done|by apply V2].
    + intros Hk j. rewrite (G2 Hk j), Hk, elem_of_app, list_elem_of_singleton, elem_of_cons.
      assert (matching imports file i) by by exists r. naive_solver.
  - eapply yields_mono; [by apply IH|]. intros [[broke m'] [w3 n3]] (S3 & E3 & C3 & H3).
    split; [done|]. split; [by eapply extends_trans|]. split; [unfold kept in *; congruence|]. intros Hb. destruct (H3 Hb) as [G1 G2]. split.
    + intros j r' [->|Hj]%elem_of_cons Hr' Hm' Ho; [|by eapply G1]. simplify_eq.
    + intros Hk j. rewrite (G2 Hk j), elem_of_cons.
      assert (¬ matching imports file i) by (intros (? & ? & ?); simplify_eq). naive_solver.
Qed.
Lemma afford_file_ok d w n affordable w' :
  afford_file late imports w = (affordable, w') → sound d w n → sound d w' n ∧ extends w n w' n ∧ kept w w'.
Proof.
  unfold afford_file. intros H Hs. destruct (budget w) as [b|] eqn:Eb; [|by injection H as <- <-].
  assert (∃ l b1, (if exhausted b then (true, b) else over_deadline late b) = (l, b1) ∧ budget_ok b1) as (l & b1 & El & Hb1).
  { pose proof (so_budget _ _ _ Hs _ Eb). destruct (exhausted b); [by exists true, b|].
    destruct (over_deadline late b) as [l b1] eqn:E. exists l, b1. split; [done|].
    apply over_deadline_later in E as [[L _] _]. by apply L. }
  rewrite El in H. destruct (l || _); injection H as <- <-.
  - destruct (sound_budget d (Some (exhaust b1)) w n) as [? ?]; [|done..]. by intros ? [= <-].
  - destruct (sound_budget d (Some (charge (N.of_nat (length imports)) b1)) w n) as [? ?]; [|done..]. by intros ? [= <-].
Qed.

Lemma visit_file_ok d f w n : sound d w n → sound d (visit_file f w) n ∧ extends w n (visit_file f w) n.
Proof. intros [A1 A2 A3 A4 A5 A6 A7 A8]. split; [by split|]. split; [done|done| |done..]. cbn [visit_file visited_files]. set_solver. Qed.

Lemma remember_imports_ok c file matches :
  cache_ok c → file_imports c = Some imports → (∀ i, i ∈ matches ↔ matching imports file i) →
  cache_ok (remember_imports has_room c file matches).
Proof.
  unfold remember_imports. intros Hc Hi Hm. destruct (has_room c file matches); [|done].
  intros f rows. cbn [import_matches file_imports]. rewrite lookup_insert_Some.
  intros [[-> <-]|[_ ?]]; [by exists imports|by apply Hc].
Qed.

Definition remember (file : bytes) (matches : list nat) (w : Walk) : Walk :=
  mkWalk (file_reasons w) (visited_files w) (visited_symbols w) (seeds w) (frontier_capped w) (budget w)
    (remember_imports has_room (icache w) file matches).

Lemma remember_ok d file matches w n :
  file_imports (icache w) = Some imports → (∀ i, i ∈ matches ↔ matching imports file i) → sound d w n →
  sound d (remember file matches w) n ∧ extends w n (remember file matches w) n.
Proof.
  intros Hi Hm [A1 A2 A3 A4 A5 A6 A7 A8]. split; [|by split]. split; [done..| | | |done].
  - by apply remember_imports_ok.
  - intros k f Hf. cbn [remember icache]. unfold remember_imports. destruct (has_room _ _ _); by eapply A6.
  - cbn [remember icache]. unfold remember_imports. by destruct (has_room _ _ _).
Qed.

(** The files whose import rows are all followed. *)
Definition files_covered (d : nat) (w : Walk) (n : Next) (files : list bytes) (visited : gset bytes) : Prop :=
  ∀ f r, f ∈ files → (f ∉ visited) → r ∈ imports → targets_file r f = Some true → from_file r ∉ origin_files →
    covered d w n true r.

Lemma file_step_ok d file w n :
  d ≤ depth req → file_at d file → sound d w n →
  let known := import_matches (icache w) !! file in
  let indices := match known with Some rows => rows | None => seq 0 (length imports) end in
  yields (import_loop stopped late targets_file req origin_files d file imports (bool_decide (is_Some known)) 0 indices [] (w, n))
    (λ res, let '(broke, matches', (w', n')) := res in
      sound d w' n' ∧ extends w n w' n' ∧ kept w w'
      ∧ (broke = false → files_covered d w' n' [file] ∅ ∧ (known = None → ∀ i, i ∈ matches' ↔ matching imports file i))).
Proof.
  intros Hd Hf Hs known indices.
  assert (∀ l f i, matching l f i → i < length l) as Hlt by (intros l f i (r & Hr & _); by eapply lookup_lt_Some).
  assert (Hindices : ∀ i, matching imports file i → i ∈ indices).
  { unfold indices. destruct known as [rows|] eqn:E; intros i Hi.
    - destruct (so_cache _ _ _ Hs _ _ E) as (l & Hl & H). apply H. rewrite (so_imports _ _ _ Hs _ _ Hf) in Hl. by simplify_eq.
    - apply elem_of_seq. specialize (Hlt _ _ _ Hi). lia. }
  assert (Hrows : bool_decide (is_Some known) = true → ∀ i, i ∈ indices → matching imports file i).
  { unfold indices. intros [rows E]%bool_decide_eq_true i. rewrite E. intros Hi.
    destruct (so_cache _ _ _ Hs _ _ E) as (l & Hl & H). apply H in Hi. rewrite (so_imports _ _ _ Hs _ _ Hf) in Hl. by simplify_eq. }
  eapply yields_mono.
  { apply import_loop_ok; [done|done| |done|done]. intros i Hi. destruct (decide (is_Some known)) as [K|K].
    - eapply Hlt, Hrows; [by apply bool_decide_eq_true|done].
    - unfold indices in Hi. apply eq_None_not_Some in K. rewrite K in Hi. apply elem_of_seq in Hi. lia. }
  intros [[broke matches'] [w' n']] (S1 & E1 & C1 & H1). split; [done|]. split; [done|]. split; [done|].
  intros Hb. destruct (H1 Hb) as [G1 G2]. split.
  - intros f r ->%list_elem_of_singleton _ Hr Hm Ho. apply list_elem_of_lookup in Hr as [i Hi].
    eapply G1; [|done..]. apply Hindices. by exists r.
  - intros K i. rewrite G2 by by rewrite K. rewrite elem_of_nil. split; [naive_solver|]. intros Hi. right. split; [by apply Hindices|done].
Qed.

Lemma file_loop_ok d files spent w n :
  d ≤ depth req → (∀ f, f ∈ files → file_at d f) → sound d w n →
  yields (file_loop stopped late targets_file has_room req origin_files d imports files spent (w, n)) (λ res,
    let '(spent', (w', n')) := res in
    sound d w' n' ∧ extends w n w' n' ∧ (spent = true → spent' = true)
    ∧ (spent' = false → (∀ f, f ∈ visited_files w' ↔ f ∈ visited_files w ∨ f ∈ files)
        ∧ files_covered d w' n' files (visited_files w))).
Proof.
  intros Hd. revert spent w n. induction files as [|file files IH]; intros spent w n Hf Hs; cbn [file_loop].
  { apply yields_ret. split; [done|]. split; [apply extends_refl|]. split; [done|]. intros _.
    split; [intros f; rewrite elem_of_nil; tauto|]. by intros f r ?%elem_of_nil. }
  assert (Hf' : ∀ f, f ∈ files → file_at d f) by (intros; apply Hf; by right).
  apply yields_check. case_bool_decide as Hv.
  { eapply yields_mono; [by apply IH|]. intros [spent' [w' n']] (S1 & E1 & P1 & H1).
    split; [done|]. split; [done|]. split; [done|]. intros Hsp. destruct (H1 Hsp) as [V1 F1]. split.
    - intros f. rewrite (V1 f), elem_of_cons. naive_solver.
    - intros f r [->|?]%elem_of_cons ?; [done|by eapply F1]. }
  destruct (visit_file_ok d file w n Hs) as [S0 E0].
  destruct (afford_file late imports (visit_file file w)) as [affordable w1] eqn:Ea.
  destruct (afford_file_ok d _ n _ _ Ea S0) as (S1 & E1 & K1). destruct affordable; cbn [negb].
  2:{ apply yields_ret. split; [done|]. split; [by eapply extends_trans|]. done. }
  eapply yields_bind; [apply file_step_ok; [done|apply Hf; by left|done]|].
  intros [[broke matches'] [w2 n2]] (S2 & E2 & K2 & H2).
  set (w3 := if negb (spent || broke) && _ then _ else w2).
  assert (sound d w3 n2 ∧ extends w2 n2 w3 n2 ∧ visited_files w3 = visited_files w2) as (S3 & E3 & V3).
  { unfold w3. destruct (negb (spent || broke) && _) eqn:Eb; [|by split; [done|split; [apply extends_refl|]]].
    apply andb_true_iff in Eb as [[_ ->]%negb_true_iff%orb_false_iff Eb%negb_true_iff%bool_decide_eq_false].
    apply eq_None_not_Some in Eb. injection K2 as K2 _.
    destruct (remember_ok d file matches' w2 n2) as [A B]; [|by apply H2|done|by split; [exact A|split; [exact B|]]].
    rewrite K2. eapply (so_imports _ _ _ S1), Hf. by left. }
  eapply yields_mono; [by apply IH|]. intros [spent' [w' n']] (S4 & E4 & P4 & H4).
  split; [done|]. split; [by do 4 (eapply extends_trans; [done|])|]. split; [intros ->; by apply P4|].
  intros Hsp. destruct (H4 Hsp) as [V4 F4].
  assert (broke = false) as Hb by (destruct spent, broke; cbn in P4; try done; by rewrite P4 in Hsp).
  injection K1 as _ K1. injection K2 as _ K2.
  assert (visited_files w3 = {[file]} ∪ visited_files w) as Hw3 by by rewrite V3, K2, K1.
  split.
  - intros f. rewrite (V4 f), Hw3, elem_of_cons. set_solver.
  - intros f r Hin Hn Hr Hm Ho. destruct (decide (f = file)) as [->|Hne].
    + do 2 (eapply covered_extends; [done|]). eapply (proj1 (H2 Hb)); [by left|set_solver|done..].
    + apply elem_of_cons in Hin as [?|Hin]; [done|]. apply (F4 f r); [done| |done..]. rewrite Hw3. set_solver.
Qed.
(** *** Levels *)

(** The source of a row is among the visited. *)
Inductive from_visited (w : Walk) : bool → Reference → Prop :=
| from_symbol_visited s rows r :
    key_of s ∈ visited_symbols w → references s = Some rows → r ∈ rows → from_file r ∉ origin_files → from_visited w false r
| from_file_visited f r :
    f ∈ visited_files w → r ∈ imports → targets_file r f = Some true → from_file r ∉ origin_files → from_visited w true r.

(** What a row leads to is visited or in the frontier. *)
Definition leads (frontier : list Symbol) (files : list bytes) (w : Walk) (via : bool) (r : Reference) : Prop :=
  (∀ s, owner_at r = Some s → key_of s ∈ visited_symbols w ∨ key_of s ∈ map key_of frontier)
  ∧ (via || file_target = true → from_file r ∈ visited_files w ∨ from_file r ∈ files).

Definition settled (d : nat) (frontier : list Symbol) (files : list bytes) (w : Walk) (via : bool) (r : Reference) : Prop :=
  (∃ k, k < d ∧ within w (from_file r) k) ∧ leads frontier files w via r.

(** Every dependent nearer than [d] is recorded at its distance. *)
Definition complete_to (d : nat) (w : Walk) : Prop :=
  ∀ d' via r, d' < d → row_at via d' r → within w (from_file r) d'.

(** At the start of level [d] nothing nearer was left out. *)
Record closed (d : nat) (frontier : list Symbol) (files : list bytes) (w : Walk) : Prop := {
  cl_complete : complete_to d w;
  cl_sym d' s : d' ≤ d → sym_at d' s → key_of s ∈ visited_symbols w ∨ key_of s ∈ map key_of frontier;
  cl_file d' f : d' ≤ d → file_at d' f → f ∈ visited_files w ∨ f ∈ files;
  cl_rows via r : from_visited w via r → settled d frontier files w via r;
}.

Lemma within_le w g k d : within w g k → k ≤ d → within w g d.
Proof. intros (e & He & ?) ?. exists e. split; [done|lia]. Qed.

(** The state of a level whose frontier has been followed. *)
Section level.
Context (d : nat) (frontier : list Symbol) (files : list bytes) (w w' : Walk) (followed : bool → Reference → Prop).
Context (Hd : 1 ≤ d) (Hclosed : closed d frontier files w) (Hwithin : ∀ g k, within w g k → within w' g k).
Context (Hsyms' : ∀ k, k ∈ visited_symbols w' ↔ k ∈ visited_symbols w ∨ k ∈ map key_of frontier).
Context (Hfiles' : ∀ f, f ∈ visited_files w' ↔ f ∈ visited_files w ∨ f ∈ files).
Context (Hfollowed : ∀ via r, from_visited w' via r → settled d frontier files w via r ∨ within w' (from_file r) d ∧ followed via r).

Lemma row_visited d' via r : d' ≤ d → row_at via d' r → from_visited w' via r.
Proof using Hclosed Hsyms' Hfiles'.
  intros Hle Hr. destruct Hr.
  - eapply from_symbol_visited; [|done..]. apply Hsyms'. by eapply (cl_sym _ _ _ _ Hclosed).
  - eapply from_file_visited; [|done..]. apply Hfiles'. by eapply (cl_file _ _ _ _ Hclosed).
Qed.

Lemma level_complete : complete_to (S d) w'.
Proof using Hd Hclosed Hsyms' Hfiles' Hfollowed Hwithin.
  intros d' via r Hlt Hr. destruct (decide (d' = d)) as [->|Hne].
  - destruct (Hfollowed via r) as [[(k & Hk & Hw) _]|[Hw _]]; [by eapply (row_visited d)| |done].
    apply Hwithin. eapply within_le; [done|lia].
  - apply Hwithin. apply (cl_complete _ _ _ _ Hclosed) with (via := via); [lia|done].
Qed.

Context (frontier' : list Symbol) (files' : list bytes).
Context (Hnext : ∀ via r, followed via r → leads frontier' files' w' via r).

Lemma visited_leads via r : from_visited w' via r → leads frontier' files' w' via r.
Proof using Hfollowed Hsyms' Hfiles' Hnext.
  intros Hr. destruct (Hfollowed via r Hr) as [[_ [Ho Hf]]|[_ ?]]; [|by apply Hnext]. split.
  - intros s Hs. left. apply Hsyms'. by apply Ho.
  - intros Hv. left. apply Hfiles'. by apply Hf.
Qed.

Lemma level_closed : closed (S d) frontier' files' w'.
Proof using Hd Hclosed Hwithin Hsyms' Hfiles' Hfollowed Hnext.
  split; [apply level_complete| | |].
  - intros d' s Hle Hs. destruct Hs as [s Hs|via d' r s Hr Ho].
    + left. apply Hsyms'. apply (cl_sym _ _ _ _ Hclosed 1); [done|by apply sym_seed].
    + apply (visited_leads via r); [eapply row_visited; [|done]; lia|done].
  - intros d' f Hle Hf. destruct Hf as [f Hf|via d' r Hr Hv].
    + left. apply Hfiles'. apply (cl_file _ _ _ _ Hclosed 1); [done|by apply file_seed].
    + apply (visited_leads via r); [eapply row_visited; [|done]; lia|done].
  - intros via r Hr. split; [|by apply visited_leads].
    destruct (Hfollowed via r Hr) as [[(k & Hk & Hw) _]|[Hw _]]; [exists k|exists d]; (split; [lia|]); [by apply Hwithin|done].
Qed.
End level.

(** With nothing left to follow everything has been found. *)
Lemma closed_done d k w : 1 ≤ d → closed d [] [] w → complete_to (d + k) w.
Proof.
  intros Hd Hc. cut (closed (d + k) [] [] w); [by intros []|]. induction k as [|k IH]; [by rewrite Nat.add_0_r|].
  rewrite Nat.add_succ_r. apply level_closed with (frontier := []) (files := []) (w := w) (followed := λ _ _, False); [lia|done|done| | | |].
  - intros key. cbn [map]. rewrite elem_of_nil. tauto.
  - intros f. rewrite elem_of_nil. tauto.
  - intros via r Hr. left. by apply (cl_rows _ _ _ _ IH).
  - done.
Qed.
(** *** One level *)

Abbreviation choose := (choose_level stopped late count_referencing_files count_symbols_named references).
Abbreviation follow := (follow_symbol stopped req origin_files).
Abbreviation loop := (file_loop stopped late targets_file has_room req origin_files).

(** The frontiers hold what lies at the distance. *)
Definition real (d : nat) (frontier : list Symbol) (files : list bytes) : Prop :=
  (∀ s, s ∈ frontier → sym_at d s) ∧ (∀ f, f ∈ files → file_at d f).

(** A level followed to its end. *)
Record advanced (d : nat) (frontier : list Symbol) (files : list bytes) (w w' : Walk) (n : Next) : Prop := {
  ad_within g k : within w g k → within w' g k;
  ad_syms : visits frontier w w';
  ad_files f : f ∈ visited_files w' ↔ f ∈ visited_files w ∨ f ∈ files;
  ad_rows via r : from_visited w' via r → from_visited w via r ∨ covered d w' n via r;
}.

Lemma same_sound d w w' n : same_walk w w' → budgets_ok w' → sound d w n → sound d w' n.
Proof. intros (E1 & E2 & E3 & E4 & E5) Hb [A1 A2 A3 A4 A5 A6 A7 A8]. split; rewrite ?E1, ?E5; done. Qed.

Lemma sound_start d w n : sound d w n → ∀ k, sound k w (mkNext [] []).
Proof. intros [A1 A2 A3 A4 A5 A6 A7 A8] k. split; try done; cbn; by intros ? ?%elem_of_nil. Qed.

Lemma advance d frontier files w w1 level w2 n2 w3 n3 :
  same_walk w w1 → visits frontier w w1 → (∀ x, x ∈ level → fetched references frontier x) → opened frontier w level →
  extends w1 (mkNext [] []) w2 n2 → kept w1 w2 → (∀ x, x ∈ level → all_covered d w2 n2 false x.2) →
  extends w2 n2 w3 n3 → (∀ f, f ∈ visited_files w3 ↔ f ∈ visited_files w2 ∨ f ∈ files) →
  files_covered d w3 n3 files (visited_files w2) →
  advanced d frontier files w w3 n3.
Proof using Hkey.
  intros (E1 & E2 & E3 & E4 & E5) Hv Hf Ho X2 K2 C2 X3 V3 C3. injection K2 as _ K2.
  split.
  - intros g k Hw. apply (ex_within _ _ _ _ X3), (ex_within _ _ _ _ X2). unfold within in *. by rewrite E1.
  - intros k. by rewrite (ex_symbols _ _ _ _ X3), (ex_symbols _ _ _ _ X2).
  - intros f. by rewrite V3, K2, E2.
  - intros via r Hr. destruct Hr as [s rows r Hs Hrows Hin Hor|f r Hfv Hin Hm Hor].
    + rewrite (ex_symbols _ _ _ _ X3), (ex_symbols _ _ _ _ X2), (Hv _) in Hs.
      destruct (decide (key_of s ∈ visited_symbols w)) as [Hold|Hnew]; [left; by eapply from_symbol_visited|]. right.
      destruct Hs as [?|Hs]; [done|]. apply (list_elem_of_fmap key_of) in Hs as (s' & Hk & Hs').
      destruct (Ho s') as (x & Hx & Hxk); [done|by rewrite <- Hk|]. destruct (Hf x Hx) as [_ Hxr].
      eapply covered_extends; [done|]. apply (C2 x Hx); [|done].
      rewrite (Hkey x.1 s) in Hxr by congruence. by simplify_eq.
    + destruct (decide (f ∈ visited_files w)) as [Hold|Hnew]; [left; by eapply from_file_visited|]. right.
      apply V3 in Hfv. rewrite K2, E2 in Hfv. destruct Hfv as [?|Hfv]; [done|].
      apply (C3 f r); [done|by rewrite K2, E2|done..].
Qed.

(** The first half of a level, up to what its rows lead to. *)
Lemma follow_frontier_ok {B} d frontier files w (next : bool * (Walk * Next) → T B) (Q : B → Prop) :
  d ≤ depth req → real d frontier files → sound d w (mkNext [] []) →
  (∀ spent w' n, sound d w' n → frontier_capped w' = frontier_capped w →
    (spent = false → advanced d frontier files w w' n) → yields (next (spent, (w', n))) Q) →
  yields ('(w, level, spent) ← choose frontier w;
          s ← for_each (follow d) level (w, mkNext [] []);
          p ← loop d imports files spent s; next p) Q.
Proof using Hkey.
  intros Hd [Hsym Hfile] Hs Hnext. eapply yields_bind; [apply choose_level_ok, (so_budget _ _ _ Hs)|].
  intros [[w1 level] spent] (S1 & B1 & F1 & O1). pose proof (same_sound _ _ _ _ S1 B1 Hs) as Hs1.
  eapply yields_bind.
  { apply follow_level_ok; [done| |done]. intros x Hx. destruct (F1 x Hx) as [? ?]. split; [by apply Hsym|done]. }
  intros [w2 n2] (Hs2 & X2 & K2 & C2). cbn [fst snd] in *. eapply yields_bind; [by apply file_loop_ok|].
  intros [spent' [w3 n3]] (Hs3 & X3 & P3 & V3). apply Hnext; [done| |].
  - rewrite (ex_capped _ _ _ _ X3), (ex_capped _ _ _ _ X2). by apply S1.
  - intros ->. destruct V3 as [V3 C3]; [done|]. assert (spent = false) as -> by (destruct spent; [by discriminate P3|done]).
    destruct O1 as [Hv Ho]; [done|]. by eapply advance.
Qed.
Lemma from_visited_same w w' via r :
  visited_symbols w' = visited_symbols w → visited_files w' = visited_files w → from_visited w' via r → from_visited w via r.
Proof.
  intros Es Ef Hr. destruct Hr; rewrite ?Es, ?Ef in *; [by eapply from_symbol_visited|by eapply from_file_visited].
Qed.

Lemma advanced_budget d frontier files w w' n b :
  advanced d frontier files w w' n → advanced d frontier files w (set_budget b w') n.
Proof. intros [A1 A2 A3 A4]. split; [done..|]. intros via r Hr. apply A4. by eapply from_visited_same in Hr. Qed.

Lemma advanced_followed d frontier files w w' n via r :
  closed d frontier files w → advanced d frontier files w w' n → from_visited w' via r →
  settled d frontier files w via r ∨ within w' (from_file r) d ∧ covered d w' n via r.
Proof.
  intros Hc Ha Hr. destruct (ad_rows _ _ _ _ _ _ Ha via r Hr) as [?|Hcov]; [left; by apply (cl_rows _ _ _ _ Hc)|].
  right. split; [apply Hcov|done].
Qed.

Lemma advanced_complete d frontier files w w' n :
  1 ≤ d → closed d frontier files w → advanced d frontier files w w' n → complete_to (S d) w'.
Proof.
  intros Hd Hc Ha. pose proof Ha as [A1 A2 A3 A4].
  apply level_complete with (frontier := frontier) (files := files) (w := w) (followed := covered d w' n); try done.
  intros via r. by apply advanced_followed.
Qed.

Lemma advanced_closed d frontier files w w' n frontier' files' :
  1 ≤ d → closed d frontier files w → advanced d frontier files w w' n →
  (∀ via r, covered d w' n via r → leads frontier' files' w' via r) → closed (S d) frontier' files' w'.
Proof.
  intros Hd Hc Ha Hn. pose proof Ha as [A1 A2 A3 A4].
  apply level_closed with (frontier := frontier) (files := files) (w := w) (followed := covered d w' n); try done.
  intros via r. by apply advanced_followed.
Qed.

(** A level that queues nothing ends the walk with all found. *)
Lemma advanced_done d frontier files w w' n :
  1 ≤ d ≤ depth req → closed d frontier files w → advanced d frontier files w w' n →
  pending_callers n = [] → complete_to (S (depth req)) w'.
Proof.
  intros Hd Hc Ha Hn. destruct (decide (d = depth req)) as [<-|Hne]; [eapply advanced_complete; [lia|done..]|].
  replace (S (depth req)) with (S d + (depth req - d)) by lia. apply closed_done; [lia|].
  eapply advanced_closed; [lia|done..|]. intros via r [_ Hq]. destruct Hq as [Hq _]; [lia|].
  rewrite Hn in Hq. by apply elem_of_nil in Hq.
Qed.

(** *** The start *)

Lemma start_sound k b c :
  (∀ b', b = Some b' → budget_ok b') → cache_ok c → (∀ d f, file_at d f → file_imports c = Some imports) →
  rust_modules c = cached → sound 1 (mkWalk ∅ ∅ ∅ k false b c) (mkNext [] []).
Proof. intros Hb Hc Hi Hm. split; try done; cbn; by intros ? ?%elem_of_nil. Qed.

Lemma start_closed k b c : closed 1 seed_symbols seed_files (mkWalk ∅ ∅ ∅ k false b c).
Proof.
  split.
  - intros d via r Hd Hr%row_at_pos. lia.
  - intros d s Hd Hs. right. inversion Hs as [? Hin|via d' r ? Hr]; subst; [by apply (list_elem_of_fmap_2 key_of)|].
    apply row_at_pos in Hr. lia.
  - intros d f Hd Hf. right. inversion Hf as [? Hin|via d' r Hr]; subst; [done|]. apply row_at_pos in Hr. lia.
  - intros via r Hr. destruct Hr as [s rows r Hs|f r Hf]; [by apply not_elem_of_empty in Hs|by apply not_elem_of_empty in Hf].
Qed.

(** The symbols of a file do not depend on the other files asked for. *)
Context (symbols_for_files : list bytes → option (gmap bytes (list Symbol))) (max_frontier : nat).
Context (Hsyms : ∀ l m f, symbols_for_files l = Some m → f ∈ l → m !! f = syms_of f).

Definition caller_files (n : Next) : list bytes := elements (list_to_set (map (λ p, p.1.1) (pending_callers n)) : gset bytes).

Lemma elem_of_caller_files n p : p ∈ pending_callers n → p.1.1 ∈ caller_files n.
Proof. intros Hp. unfold caller_files. rewrite elem_of_elements, elem_of_list_to_set. by apply (list_elem_of_fmap_2 (λ p, p.1.1)). Qed.

(** The frontier of the next level. *)
Lemma next_frontier_ok d w n syms next capped1 capped2 frontier files :
  sound d w n → symbols_for_files (caller_files n) = Some syms →
  (∀ s, s ∈ next ↔ ∃ p l, p ∈ pending_callers n ∧ syms !! p.1.1 = Some l ∧ owner_of l p.1.2 p.2 = Some s) →
  cut max_frontier (distinct_symbols next) = (capped1, frontier) →
  cut max_frontier (sorted_files (next_files n) (visited_files w)) = (capped2, files) →
  real (S d) frontier files
  ∧ (d < depth req → capped1 || capped2 = false → ∀ via r, covered d w n via r → leads frontier files w via r).
Proof using Hsyms.
  intros Hs Hm Hnext Hc1 Hc2. apply cut_ok in Hc1 as [I1 E1]. apply cut_ok in Hc2 as [I2 E2].
  destruct (elem_of_distinct_symbols next) as [D1 D2]. split.
  - split.
    + intros s Hin%I1%D1. apply Hnext in Hin as (p & l & Hp & Hl & Ho).
      rewrite (Hsyms _ _ _ Hm) in Hl by by apply elem_of_caller_files.
      destruct (so_pending _ _ _ Hs p Hp) as (via & r & Hr & ->). eapply sym_owner; [done|].
      unfold owner_at. cbn in Hl, Ho. by rewrite Hl.
    + intros f [Hin _]%I2%elem_of_sorted_files. by apply (so_files _ _ _ Hs).
  - intros Hd [-> ->]%orb_false_iff via r [_ Hq]. destruct (Hq Hd) as [Hp Hf]. rewrite E1, E2 by done. split.
    + intros s Ho. right. apply D2, Hnext. unfold owner_at in Ho.
      destruct (syms_of (from_file r)) as [l|] eqn:El; [|done]. exists (row_pending r), l. split; [done|].
      split; [|done]. rewrite (Hsyms _ _ _ Hm) by by apply elem_of_caller_files. done.
    + intros Hv. destruct (decide (from_file r ∈ visited_files w)); [by left|right].
      apply elem_of_sorted_files. split; [by apply Hf|done].
Qed.
(** What a level hands on: the next frontier, or everything found. *)
Definition handed (d : nat) (w : Walk) (next : option (list Symbol * list bytes)) : Prop :=
  match next with
  | None => frontier_capped w = false → complete_to (S (depth req)) w
  | Some (frontier, files) =>
      d < depth req ∧ real (S d) frontier files ∧ (frontier_capped w = false → closed (S d) frontier files w)
  end.

Lemma set_capped_sound d w n : sound d w n → sound d (set_capped w) n.
Proof. intros [A1 A2 A3 A4 A5 A6 A7 A8]. by split. Qed.

Lemma check_deadline_budget w hit w' : check_deadline late w = (hit, w') → ∃ b, w' = set_budget b w.
Proof.
  unfold check_deadline. destruct (budget w) as [b|] eqn:Eb.
  - destruct (over_deadline late b) as [h b']. intros [= <- <-]. by exists (Some b').
  - intros [= <- <-]. exists None. unfold set_budget. rewrite <- Eb. by destruct w.
Qed.

Lemma walk_level_ok d frontier files w :
  1 ≤ d ≤ depth req → real d frontier files → sound d w (mkNext [] []) →
  (frontier_capped w = false → closed d frontier files w) →
  yields (walk_level stopped late count_referencing_files count_symbols_named references targets_file symbols_for_files
            has_room req max_frontier origin_files imports d frontier files w)
    (λ r, sound d r.1 (mkNext [] []) ∧ handed d r.1 r.2).
Proof using Hkey Hsyms.
  intros Hd Hr Hs Hc. unfold walk_level. apply yields_check. apply follow_frontier_ok; [lia|done..|].
  intros spent w1 n Hs1 Hcap Hadv. destruct spent.
  { apply yields_ret. split; [by eapply sound_start, set_capped_sound|]. done. }
  specialize (Hadv eq_refl). rewrite <- Hcap in Hc.
  destruct (bool_decide (pending_callers n = []) && bool_decide (next_files n = [])) eqn:Eq.
  { apply andb_true_iff in Eq as [Ep%bool_decide_eq_true _]. apply yields_ret. split; [by eapply sound_start|].
    intros Hu. eapply advanced_done; eauto. }
  assert (d < depth req) as Hlt.
  { apply Nat.nle_gt. intros Hge. destruct (so_last _ _ _ Hs1 Hge) as [E1 E2]. by rewrite E1, E2 in Eq. }
  destruct (check_deadline late w1) as [hit w2] eqn:Ed. pose proof (check_deadline_ok d w1 n _ _ Ed Hs1) as (Hs2 & _ & _).
  apply check_deadline_budget in Ed as [b ->]. apply advanced_budget with (b := b) in Hadv.
  change (frontier_capped w1) with (frontier_capped (set_budget b w1)) in Hc. set (w2 := set_budget b w1) in *.
  destruct hit.
  { apply yields_ret. split; [by eapply sound_start, set_capped_sound|]. done. }
  apply yields_query. intros syms Hm. eapply yields_bind; [apply owner_steps_ok|]. intros next Hnext.
  destruct (cut max_frontier (distinct_symbols next)) as [capped1 frontier'] eqn:E1.
  destruct (cut max_frontier (sorted_files (next_files n) (visited_files w2))) as [capped2 files'] eqn:E2.
  destruct (next_frontier_ok d w2 n syms next capped1 capped2 frontier' files' Hs2 Hm Hnext E1 E2) as [Hreal Hleads].
  set (w3 := if capped1 || capped2 then set_capped w2 else w2).
  assert (sound d w3 (mkNext [] [])) as Hs3.
  { eapply sound_start. unfold w3. destruct (capped1 || capped2); [by apply set_capped_sound|done]. }
  assert (frontier_capped w3 = false → closed (S d) frontier' files' w3) as Hc3.
  { unfold w3. destruct (capped1 || capped2); [done|]. intros Hu.
    eapply advanced_closed; [lia|by apply Hc|done|]. by apply Hleads. }
  destruct (bool_decide (frontier' = []) && bool_decide (files' = [])) eqn:Ee; apply yields_ret; (split; [done|]).
  - apply andb_true_iff in Ee as [->%bool_decide_eq_true ->%bool_decide_eq_true]. intros Hu.
    replace (S (depth req)) with (S d + (depth req - d)) by lia. apply closed_done; [lia|]. by apply Hc3.
  - done.
Qed.

Lemma walk_levels_ok k d frontier files w :
  1 ≤ d → d + k = S (depth req) → real d frontier files → sound d w (mkNext [] []) →
  (frontier_capped w = false → closed d frontier files w) →
  yields (walk_levels stopped late count_referencing_files count_symbols_named references targets_file symbols_for_files
            has_room req max_frontier origin_files imports (seq d k) frontier files w)
    (λ w', sound d w' (mkNext [] []) ∧ (frontier_capped w' = false → complete_to (S (depth req)) w')).
Proof using Hkey Hsyms.
  revert d frontier files w. induction k as [|k IH]; intros d frontier files w Hd Hk Hr Hs Hc; cbn [seq walk_levels].
  - apply yields_ret. split; [done|]. intros Hu. rewrite <- Hk, Nat.add_0_r. apply Hc, Hu.
  - eapply yields_bind; [apply walk_level_ok; [lia|done..]|]. intros [w1 [[frontier1 files1]|]] [Hs1 Hh]; cbn [fst snd handed] in *.
    + destruct Hh as (Hlt & Hr1 & Hc1). eapply yields_mono; [apply IH; [lia|lia|done| |done]; by eapply sound_start|].
      intros w2 [Hs2 Hc2]. split; [by eapply sound_start|done].
    + by apply yields_ret.
Qed.
End walk_ok.

(** ** The report *)

#[export] Instance entry_le_total : Total entry_le.
Proof.
  intros a b. unfold entry_le. destruct (bytes_le_total (entry_path a) (entry_path b)),
    (Nat.lt_trichotomy (distance a) (distance b)) as [?|[?|?]],
    (Nat.lt_trichotomy (length (reasons a)) (length (reasons b))) as [?|[?|?]]; auto 8.
Qed.

#[export] Instance entry_le_trans : Transitive entry_le.
Proof.
  intros a b c. unfold entry_le. intros [?|[? [?|[? Hab]]]] [?|[? [?|[? Hbc]]]]; try (left; lia); right; (split; [lia|]);
    try (left; lia). right. split; [lia|]. by etrans.
Qed.

Section report.
Context (to_lowercase : bytes → bytes) (req : ImpactRequest).

#[local] Abbreviation shown p := (negb (source_only req) || bool_decide (classify to_lowercase p = Source)).
#[local] Abbreviation report := (report to_lowercase req).

Lemma elem_of_report w e :
  e ∈ entries (report w) ↔ ∃ p fr, file_reasons w !! p = Some fr ∧ e = entry_of to_lowercase (p, fr) ∧ shown p = true.
Proof.
  unfold report. cbn [entries]. rewrite merge_sort_Permutation, list_elem_of_In, filter_In, <- list_elem_of_In.
  rewrite (list_elem_of_fmap (entry_of to_lowercase)). split.
  - intros [([p fr] & -> & H%elem_of_map_to_list) Hs]. by exists p, fr.
  - intros (p & fr & Hp & -> & Hs). split; [|done]. exists (p, fr). split; [done|]. by apply elem_of_map_to_list.
Qed.

Lemma report_sorted w : StronglySorted entry_le (entries (report w)).
Proof. unfold report. cbn [entries]. apply Sorted_StronglySorted; [apply _|]. apply Sorted_merge_sort; apply _. Qed.

Lemma report_distinct w : NoDup (map entry_path (entries (report w))).
Proof.
  unfold report. cbn [entries]. set (l := List.filter _ _).
  assert (NoDup (map entry_path l)) as H.
  { unfold l. assert (NoDup (map entry_path (map (entry_of to_lowercase) (map_to_list (file_reasons w))))) as H.
    { rewrite map_map. apply (NoDup_fst_map_to_list (file_reasons w)). }
    revert H. generalize (map (entry_of to_lowercase) (map_to_list (file_reasons w))).
    induction l0 as [|e l0 IH]; [done|]. cbn [map List.filter]. intros [Hn Hd]%NoDup_cons.
    destruct (negb (source_only req) || _); [|by apply IH]. apply NoDup_cons. split; [|by apply IH].
    contradict Hn. apply (list_elem_of_fmap entry_path) in Hn as (x & -> & Hx). apply (list_elem_of_fmap_2 entry_path).
    apply list_elem_of_In, filter_In in Hx as [Hx _]. by apply list_elem_of_In. }
  eapply NoDup_Permutation_proper; [|exact H]. apply Permutation_map, merge_sort_Permutation.
Qed.
End report.

(** ** [impact_analysis_walk_shared] *)

Section shared.
Context (stopped late : nat → bool) (count_referencing_files count_symbols_named : bytes → option N).
Context (to_lowercase : bytes → bytes) (is_alphanumeric : bytes → bool).
Context (references : Symbol → option (list Reference)) (file_import_references : option (list Reference)).
Context (indexed_targets : Reference → option (list bytes)).
Context (symbols_for_file : bytes → option (list Symbol)).
Context (symbols_for_files : list bytes → option (gmap bytes (list Symbol))) (syms_of : bytes → option (list Symbol)).
Context (resolve_impact_target : ImpactTarget → option (TargetResolution * list Symbol)).
Context (load_modules : option RustModules) (has_room : WalkCache → bytes → list nat → bool).
Context (req : ImpactRequest) (max_frontier : nat).

Context (Hkey : ∀ s s', key_of s = key_of s' → references s = references s').
Context (Hsyms : ∀ l m f, symbols_for_files l = Some m → f ∈ l → m !! f = syms_of f).
(** A file target names no symbol. *)
Context (Hfile : is_file_target req = true →
  ∀ res candidates, resolve_impact_target (target req) = Some (res, candidates) → kind res ≠ KSymbol).

#[local] Abbreviation file_test := (Impact.import_targets is_alphanumeric indexed_targets).
#[local] Abbreviation walk_shared := (impact_analysis_walk_shared stopped late count_referencing_files count_symbols_named
  to_lowercase is_alphanumeric references file_import_references indexed_targets symbols_for_file symbols_for_files
  resolve_impact_target load_modules has_room req max_frontier).

(** The seeds of the target, and what the index holds for them. *)
Definition seeded : option (list Symbol * list bytes) :=
  '(resolution, candidates) ← resolve_impact_target (target req);
  match kind resolution with
  | KSymbol => Some (matched_symbols resolution candidates, [])
  | _ =>
      match sole resolution ≫= target_path with
      | Some path => syms ← symbols_for_file path; Some (syms, [path])
      | None => Some ([], [])
      end
  end.

Definition modules_for (c : WalkCache) (symbols : list Symbol) (files : list bytes) : option RustModules :=
  if involves_rust symbols files then match rust_modules c with Some m => Some m | None => load_modules end else Some no_modules.

Definition imports_for (c : WalkCache) (files : list bytes) : option (list Reference) :=
  match files with
  | [] => Some []
  | _ => match file_imports c with Some rows => Some rows | None => file_import_references end
  end.

Definition origins (symbols : list Symbol) (files : list bytes) : gset bytes :=
  list_to_set (match files with [] => map file_path symbols | _ => files end).

(** Row [r] makes its file a dependent of the target at distance [d]. *)
Definition dependent (c : WalkCache) (via : bool) (d : nat) (r : Reference) : Prop :=
  ∃ symbols files m imports,
    seeded = Some (symbols, files) ∧ modules_for c symbols files = Some m ∧ imports_for c files = Some imports
    ∧ row_at references (file_test m) syms_of (is_file_target req) (origins symbols files) imports symbols files via d r.

(** The memo of the cache agrees with the Rust modules this walk uses. *)
Definition memo_ok (c : WalkCache) : Prop :=
  ∀ symbols files m, seeded = Some (symbols, files) → modules_for c symbols files = Some m → cache_ok (file_test m) c.

Record real_entry (c : WalkCache) (o : WalkOutcome) (e : ImpactEntry) : Prop := {
  re_distance : 1 ≤ distance e ≤ depth req;
  re_dependent : ∃ via r, dependent c via (distance e) r ∧ from_file r = entry_path e;
  re_category : category e = classify to_lowercase (entry_path e);
  re_source : source_only req = true → category e = Source;
  re_reasons : NoDup (map (λ x, (via_symbol x, reason_kind x, reason_line x)) (Impact.reasons e));
  re_count : ∃ n, edge_counts o !! entry_path e = Some n ∧ length (Impact.reasons e) = min MAX_REASONS n;
}.

Record real_outcome (c : WalkCache) (o : WalkOutcome) : Prop := {
  ro_entries e : e ∈ entries o → real_entry c o e;
  ro_sorted : StronglySorted entry_le (entries o);
  ro_distinct : NoDup (map entry_path (entries o));
}.

Definition complete_outcome (c : WalkCache) (o : WalkOutcome) : Prop :=
  ∀ via d r, dependent c via d r → d ≤ depth req →
    source_only req = false ∨ classify to_lowercase (from_file r) = Source →
    ∃ e, e ∈ entries o ∧ entry_path e = from_file r ∧ distance e ≤ d.

Lemma no_outcome_real c capped : real_outcome c (no_outcome capped).
Proof. split; cbn; [by intros e ?%elem_of_nil|constructor|constructor]. Qed.

Lemma seed_target_ok res candidates :
  resolve_impact_target (target req) = Some (res, candidates) →
  yields (seed_target symbols_for_file res candidates) (λ p, seeded = Some p).
Proof.
  intros E. unfold seed_target, seeded. rewrite E. cbn [mbind option_bind].
  destruct (kind res); try (by apply yields_ret);
    (destruct (sole res ≫= target_path) as [path|]; [apply yields_query; intros syms ->|]; by apply yields_ret).
Qed.

Lemma cached_modules_ok c symbols files :
  yields (if involves_rust symbols files then cached_modules load_modules c else mret (no_modules, c)) (λ p,
    modules_for c symbols files = Some p.1 ∧ (∀ c', rust_modules c' = rust_modules p.2 → modules_for c' symbols files = Some p.1)
    ∧ file_imports p.2 = file_imports c ∧ import_matches p.2 = import_matches c).
Proof.
  unfold modules_for. destruct (involves_rust symbols files); [|by apply yields_ret].
  unfold cached_modules. destruct (rust_modules c) as [m|] eqn:E.
  - apply yields_ret. split; [done|]. split; [|done]. intros c' ->. cbn [snd]. by rewrite E.
  - apply yields_query. intros m ->. apply yields_ret. split; [done|]. split; [|done]. by intros c' ->.
Qed.

Lemma load_imports_ok c files :
  yields (load_imports file_import_references files c) (λ p,
    imports_for c files = Some p.1 ∧ import_matches p.2 = import_matches c ∧ rust_modules p.2 = rust_modules c
    ∧ (files ≠ [] → file_imports p.2 = Some p.1) ∧ (∀ l, file_imports c = Some l → file_imports p.2 = Some l)).
Proof.
  unfold load_imports, imports_for. destruct files as [|f files]; [by apply yields_ret|].
  destruct (file_imports c) as [l|] eqn:E; [apply yields_ret; naive_solver|].
  apply yields_query. intros l ->. by apply yields_ret.
Qed.

Lemma imports_for_same c c' files : file_imports c' = file_imports c → imports_for c' files = imports_for c files.
Proof. intros E. unfold imports_for. by rewrite E. Qed.

(** What the walk leaves is a real report. *)
Lemma report_real c symbols files m imports cached d w n :
  seeded = Some (symbols, files) → modules_for c symbols files = Some m → imports_for c files = Some imports →
  sound references (file_test m) syms_of req (origins symbols files) imports symbols files cached d w n →
  real_outcome c (report to_lowercase req w).
Proof.
  intros Hs Hm Hi Hw. split; [|apply report_sorted|apply report_distinct].
  intros e (p & fr & Hp & -> & Hshown)%elem_of_report.
  destruct (so_reasons _ _ _ _ _ _ _ _ _ _ _ _ Hw _ _ Hp) as ((Hl & Hn & _) & Hd & via & r & Hr & Hf).
  split; cbn.
  - split; [by eapply row_at_pos|done].
  - exists via, r. split; [by exists symbols, files, m, imports|done].
  - done.
  - intros Es. rewrite Es in Hshown. by apply bool_decide_eq_true in Hshown.
  - done.
  - exists (size (fr_edges fr)). by rewrite lookup_fmap, Hp.
Qed.

Lemma report_complete c symbols files m imports w :
  seeded = Some (symbols, files) → modules_for c symbols files = Some m → imports_for c files = Some imports →
  complete_to references (file_test m) syms_of req (origins symbols files) imports symbols files (S (depth req)) w →
  complete_outcome c (report to_lowercase req w).
Proof.
  intros Hs Hm Hi Hw via d r (symbols' & files' & m' & imports' & Hs' & Hm' & Hi' & Hr) Hd Hshown. simplify_eq.
  destruct (Hw d via r) as (fr & Hfr & Hle); [lia|done|].
  exists (entry_of to_lowercase (from_file r, fr)). split; [|done].
  apply elem_of_report. exists (from_file r), fr. split; [done|]. split; [done|].
  apply orb_true_iff. rewrite negb_true_iff, bool_decide_eq_true. done.
Qed.
Lemma walk_from_seeds_ok b c symbols files m imports c1 :
  seeded = Some (symbols, files) → modules_for c symbols files = Some m → imports_for c files = Some imports →
  (symbols ≠ [] ∨ files ≠ []) → (∀ b', b = Some b' → budget_ok b') → cache_ok (file_test m) c1 →
  (files ≠ [] → file_imports c1 = Some imports) →
  yields (walk_levels stopped late count_referencing_files count_symbols_named references (file_test m) symbols_for_files
            has_room req max_frontier (origins symbols files) imports (seq 1 (depth req)) symbols files
            (mkWalk ∅ ∅ ∅ (length symbols) false b c1))
    (λ w, (∀ b', budget w = Some b' → budget_ok b') ∧ cache_ok (file_test m) (icache w)
          ∧ rust_modules (icache w) = rust_modules c1
          ∧ real_outcome c (report to_lowercase req w)
          ∧ (capped (report to_lowercase req w) = false → complete_outcome c (report to_lowercase req w))).
Proof using Hkey Hsyms Hfile.
  intros Hs Hm Hi Hne Hb Hc Himp.
  assert (∀ d f, file_at references (file_test m) syms_of (is_file_target req) (origins symbols files) imports symbols files d f →
            file_imports c1 = Some imports) as Hfiles.
  { intros d f Hf. destruct files as [|f0 files]; [|by apply Himp]. exfalso.
    destruct (is_file_target req) eqn:Et; [|by eapply no_file_reached in Hf].
    unfold seeded in Hs. destruct (resolve_impact_target (target req)) as [[res candidates]|] eqn:E; [|done].
    cbn [mbind option_bind] in Hs. pose proof (Hfile eq_refl _ _ eq_refl) as Hk.
    destruct (kind res); try done;
      (destruct (sole res ≫= target_path) as [path|]; [destruct (symbols_for_file path); [cbn in Hs; congruence|done]|]);
      injection Hs as <-; by destruct Hne. }
  eapply yields_mono.
  { eapply walk_levels_ok with (seed_symbols := symbols) (seed_files := files); [done|done|lia|lia| | |].
    - split; intros; [by apply sym_seed|by apply file_seed].
    - by apply start_sound.
    - intros _. apply start_closed. }
  intros w [Hw Hcomplete]. split; [apply (so_budget _ _ _ _ _ _ _ _ _ _ _ _ Hw)|].
  split; [apply (so_cache _ _ _ _ _ _ _ _ _ _ _ _ Hw)|].
  split; [apply (so_modules _ _ _ _ _ _ _ _ _ _ _ _ Hw)|]. split; [by eapply report_real|].
  intros [Hu _]%orb_false_iff. eapply report_complete; [done..|]. by apply Hcomplete.
Qed.

(** Every outcome is real, and one that is not capped is complete; the budget
    and the cache stay as the next walk needs them. *)
Lemma walk_shared_ok b c :
  (∀ b', b = Some b' → budget_ok b') → memo_ok c →
  yields (walk_shared b c) (λ out, let '(b', c', result) := out in
    (∀ b0, b' = Some b0 → budget_ok b0) ∧ memo_ok c'
    ∧ match result with
      | inl e => ∃ res candidates, resolve_impact_target (target req) = Some (res, candidates) ∧ refusal res = Some e
      | inr o => real_outcome c o ∧ (capped o = false → complete_outcome c o)
      end).
Proof using Hkey Hsyms Hfile.
  intros Hb Hc. unfold impact_analysis_walk_shared. apply yields_check.
  assert (∃ spent b1, match b with
      | Some b => if exhausted b then (true, Some b) else let '(hit, b) := over_deadline late b in (hit, Some b)
      | None => (false, None) end = (spent, b1) ∧ ∀ b', b1 = Some b' → budget_ok b') as (spent & b1 & -> & Hb1).
  { destruct b as [b|]; [|by eexists _, _]. destruct (exhausted b); [by eexists _, _|].
    destruct (over_deadline late b) as [hit b1] eqn:E. eexists _, _. split; [done|]. intros ? [= <-].
    apply over_deadline_later in E as [[L _] _]. by apply L, Hb. }
  destruct spent.
  { apply yields_ret. split; [done|]. split; [done|]. split; [apply no_outcome_real|done]. }
  apply yields_query. intros [res candidates] Hres.
  set (rest := seed_target symbols_for_file res candidates ≫= _).
  assert (∀ Q, yields rest Q → (∀ e, refusal res = Some e → yields (mret (b1, c, inl e)) Q) →
            yields (match refusal res with Some (Ambiguous i cs t o) => mret (b1, c, inl (Ambiguous i cs t o)) | _ => rest end) Q)
    as Hcases by (intros Q H1 H2; destruct (refusal res) as [[]|]; auto).
  apply Hcases.
  2:{ intros e He. apply yields_ret. split; [done|]. split; [done|]. by exists res, candidates. }
  clear Hcases. unfold rest. clear rest. eapply yields_bind; [by apply seed_target_ok|].
  intros [symbols files] Hs.
  destruct (bool_decide (symbols = []) && bool_decide (files = [])) eqn:Ee.
  { apply andb_true_iff in Ee as [->%bool_decide_eq_true ->%bool_decide_eq_true]. apply yields_ret.
    split; [done|]. split; [done|]. split; [apply no_outcome_real|].
    intros _ via d r (symbols' & files' & m & imports & Hs' & _ & _ & Hr) _ _. simplify_eq. by apply nothing_reached in Hr. }
  assert (symbols ≠ [] ∨ files ≠ []) as Hne.
  { destruct symbols; [|by left]. destruct files; [done|by right]. }
  eapply yields_bind; [apply cached_modules_ok|]. intros [m c1] (Hm & Hmods & Ei & Em). cbn [fst snd] in *.
  eapply yields_bind; [apply load_imports_ok|]. intros [imports c2] (Hi & Em2 & Er & Himp & Hkeep). cbn [fst snd] in *.
  rewrite (imports_for_same c) in Hi by done.
  assert (cache_ok (file_test m) c2) as Hc2.
  { intros f rows Hf. rewrite Em2, Em in Hf. destruct (Hc symbols files m Hs Hm f rows Hf) as (l & Hl & H).
    exists l. split; [|done]. apply Hkeep. by rewrite Ei. }
  eapply yields_bind; [by eapply walk_from_seeds_ok|]. intros w (Hbw & Hcw & Hrw & Hreal & Hcomplete).
  apply yields_ret. split; [done|]. split; [|done].
  intros symbols' files' m' Hs' Hm'. simplify_eq. rewrite (Hmods (icache w)) in Hm' by congruence. by simplify_eq.
Qed.
(** The dependents of the target within the depth, each at its shortest distance. *)
Definition shortest (c : WalkCache) (path : bytes) (d : nat) : Prop :=
  d ≤ depth req ∧ (source_only req = false ∨ classify to_lowercase path = Source)
  ∧ (∃ via r, dependent c via d r ∧ from_file r = path)
  ∧ ∀ via d' r, dependent c via d' r → from_file r = path → d ≤ d'.

Lemma outcome_shortest c o path d :
  real_outcome c o → complete_outcome c o →
  (∃ e, e ∈ entries o ∧ entry_path e = path ∧ distance e = d) ↔ shortest c path d.
Proof.
  intros [Hreal _ Hdistinct] Hcomplete.
  assert (Hleast : ∀ e via d' r, e ∈ entries o → dependent c via d' r → from_file r = entry_path e → distance e ≤ d').
  { intros e via d' r He Hr Hf. destruct (Hreal e He) as [[_ Hd] _ Hcat Hsrc _ _].
    destruct (decide (d' ≤ depth req)) as [Hle|?]; [|lia]. destruct (Hcomplete via d' r Hr Hle) as (e' & He' & Hp & Hle').
    { rewrite Hf, <- Hcat. destruct (source_only req); [right; by apply Hsrc|by left]. }
    replace e with e'; [done|]. apply list_elem_of_lookup in He as [i Hi], He' as [j Hj].
    assert (i = j) as ->; [|congruence]. eapply (NoDup_lookup _ _ _ (entry_path e) Hdistinct); rewrite list_lookup_fmap.
    - by rewrite Hi.
    - rewrite Hj. cbn. congruence. }
  split.
  - intros (e & He & <- & <-). destruct (Hreal e He) as [[_ Hd] Hdep Hcat Hsrc _ _]. split; [done|]. split; [|split; [done|]].
    + rewrite <- Hcat. destruct (source_only req); [right; by apply Hsrc|by left].
    + intros via d' r. by apply Hleast.
  - intros (Hd & Hshown & (via & r & Hr & <-) & Hmin). destruct (Hcomplete via d r Hr Hd Hshown) as (e & He & Hp & Hle).
    exists e. split; [done|]. split; [done|]. destruct (re_dependent _ _ _ (Hreal e He)) as (via' & r' & Hr' & Hf').
    apply Nat.le_antisymm; [done|]. apply (Hmin via' _ r' Hr'). congruence.
Qed.


End shared.

(** ** A small index *)

(** [b.c] calls a function of [a.c]; [c.c] includes [b.c]. *)
Definition demo_caller : Symbol := mkSymbol (bs "fb") (bs "fb") KFunction (bs "b.c") 1 9 false None false.
Definition demo_callee : Symbol := mkSymbol (bs "fa") (bs "fa") KFunction (bs "a.c") 1 3 false None false.
Definition demo_files : gmap bytes (list Symbol) := {[ bs "a.c" := [demo_callee]; bs "b.c" := [demo_caller] ]}.
Definition demo_references (s : Symbol) : option (list Reference) :=
  Some (if bytes_eqb (file_path s) (bs "a.c") then [mkRef (bs "b.c") None (bs "fa") RCall 4] else []).
Definition demo_imports : list Reference := [mkRef (bs "c.c") None (bs "b.c") RInclude 1].
Definition demo_resolution : TargetResolution :=
  new_resolution (bs "a.c") KFile
    [mkTarget (bs "file:a.c") (bs "file") (Some (bs "a.c")) None None false (confidence_of Exact) Exact] 1 0.
Definition demo_request : ImpactRequest := mkImpact (TFile (bs "a.c")) 2 false.

Abbreviation demo_walk b c :=
  (impact_analysis_walk_shared (λ _, false) (λ _, false) (λ _, Some 1%N) (λ _, Some 1%N) id (λ _, true) demo_references
    (Some demo_imports) (λ _, Some []) (λ f, demo_files !! f) (λ _, Some demo_files)
    (λ _, Some (demo_resolution, [])) (Some no_modules) (λ _ _ _, true) demo_request 512 b c).

Definition demo_cache : WalkCache := mkWalkCache None ∅ None.

Definition demo_result (b : option WalkBudget) : option (list (bytes * nat) * bool) :=
  match demo_walk b demo_cache 0 with
  | inr (_, _, inr o, _) => Some (map (λ e, (entry_path e, distance e)) (entries o), capped o)
  | _ => None
  end.

(** Two levels without a budget; one step pays for no level. *)
Example demo_walks :
  (demo_result None, demo_result (Some (new_budget 9 false)), demo_result (Some (new_budget 1 false)))
  = (Some ([(bs "b.c", 1); (bs "c.c", 2)], false), Some ([(bs "b.c", 1); (bs "c.c", 2)], false), Some ([(bs "b.c", 1)], true)).
Proof. vm_compute. reflexivity. Qed.

Lemma demo_key s s' : key_of s = key_of s' → demo_references s = demo_references s'.
Proof. intros [= E _ _]. unfold demo_references. by rewrite E. Qed.

Lemma demo_cache_ok targets_file : cache_ok targets_file demo_cache.
Proof. intros f rows Hf. cbn [import_matches demo_cache] in Hf. by apply lookup_empty_Some in Hf. Qed.


