(* ===== verification/ImpactReport.v ===== *)
(** * ImpactReport: the report on an impact walk

    Models the entry points of [src/crates/graph/src/impact.rs] over the walk of
    [Impact]: [impact_analysis_report] with its truncation, summary, forward
    dependencies and sibling symbols, and [ImpactTarget::from_hint] of
    [src/crates/protocol/src/lib.rs].

    [list_file_dependencies] is the query of the same name, its [imports] and
    [test_imports]; the other parameters are those of [Impact]. *)
From stdpp Require Import gmap sorting.
From S2P Require Import Prelude Text Order Checked Handle Target CallPath ImportPaths RustModules Impact ImpactWalk.
From Stdlib Require Import Lia NArith.
Local Open Scope codesage_scope.

(** [SymbolKind::as_str]. *)
Definition kind_str (k : SymbolKind) : bytes :=
  bs match k with
     | KFunction => "function" | KMethod => "method" | KClass => "class" | KTrait => "trait" | KInterface => "interface"
     | KStruct => "struct" | KEnum => "enum" | KConstant => "constant" | KMacro => "macro" | KModule => "module"
     | KNamespace => "namespace"
     end.

(** ** Targets from a hint *)

Definition TARGET_EXTENSIONS : list bytes :=
  map bs ["c"; "cc"; "cpp"; "cxx"; "h"; "hh"; "hpp"; "hxx"; "java"; "go"; "js"; "jsx"; "mts"; "mjs"; "cjs"; "cts"; "ts";
          "tsx"; "php"; "py"; "rs"; "toml"; "json"; "yaml"; "yml"; "ini"; "conf"; "env"; "md"]%string.

Definition looks_like_file_target (target : bytes) : bool :=
  if has_byte "/" target then true
  else match rsplit_once "." target with
       | Some (_, ext) => contains_word TARGET_EXTENSIONS (map to_ascii_lowercase ext)
       | None => false
       end.

Definition from_hint (target : bytes) (is_file : option bool) : ImpactTarget :=
  match Handle.parse target with
  | Some (HSymbol _ _ _) | Some (HFeature _) => TSymbol target
  | Some (HFile path) => TFile path
  | Some (HDir _) | Some (HChunk _ _ _) => TFile target
  | None => if default (looks_like_file_target target) is_file then TFile target else TSymbol target
  end.

(** ** Options and reports *)

Record ImpactOptions := mkOptions {
  include_forward : bool;
  include_siblings : bool;
  limit : option nat;
  summary_only : bool;
}.

Record SiblingSymbol := mkSibling { sb_handle : bytes; sb_name : bytes; sb_kind : SymbolKind; sb_line : N }.

Record ImpactSummary := mkSummary {
  total_affected : nat;
  by_distance : list (nat * nat);
  by_category : list (FileCategory * nat);
}.

Record ImpactReport := mkReport {
  bounded : bool;
  results : list ImpactEntry;
  forward_dependencies : list bytes;
  sibling_symbols : list SiblingSymbol;
  truncated : bool;
  summary : option ImpactSummary;
}.

(** ** The summary *)

Definition count_entry (s : gmap nat nat * (nat * nat * nat)) (e : ImpactEntry) : gmap nat nat * (nat * nat * nat) :=
  let '(counts, (src, test, cfg)) := s in
  (<[distance e := S (default 0 (counts !! distance e))]> counts,
   match category e with Source => (S src, test, cfg) | Test => (src, S test, cfg) | Config => (src, test, S cfg) end).

Definition distance_le (a b : nat * nat) : Prop := a.1 ≤ b.1.

#[local] Instance distance_le_decision a b : Decision (distance_le a b).
Proof. unfold distance_le. apply _. Defined.

Definition build_impact_summary (entries : list ImpactEntry) : ImpactSummary :=
  let '(counts, (src, test, cfg)) := foldl count_entry (∅, (0, 0, 0)) entries in
  mkSummary (length entries) (merge_sort distance_le (map_to_list counts))
    (List.filter (λ p : FileCategory * nat, 0 <? p.2) [(Source, src); (Test, test); (Config, cfg)]).

(** ** Siblings *)

Definition SIBLING_SYMBOL_CAP : nat := 60.

Definition sibling_key (s : Symbol) : bytes := kind_str (sy_kind s) ++ bs "::" ++ sy_name s.

Definition is_target (target_name : option bytes) (s : Symbol) : bool :=
  match target_name with Some n => bytes_eqb (sy_name s) n || bytes_eqb (qualified_name s) n | None => false end.

Section report.
Context (stopped late : nat → bool) (count_referencing_files count_symbols_named : bytes → option N).
Context (to_lowercase : bytes → bytes) (is_alphanumeric : bytes → bool).
Context (references : Symbol → option (list Reference)) (file_import_references : option (list Reference)).
Context (indexed_targets : Reference → option (list bytes)).
Context (symbols_for_file : bytes → option (list Symbol)).
Context (symbols_for_files : list bytes → option (gmap bytes (list Symbol))).
(** [resolve_impact_target], its [nearest] first. *)
Context (resolve_impact_target : bool → ImpactTarget → option (TargetResolution * list Symbol)).
Context (load_modules : option RustModules) (has_room : WalkCache → bytes → list nat → bool).
Context (list_file_dependencies : bytes → option (list bytes * list bytes)).
Context (req : ImpactRequest).

(** The symbols of one file. *)
Fixpoint sibling_loop (target_name : option bytes) (symbols : list Symbol) (seen : gset bytes) (out : list SiblingSymbol)
    : T (gset bytes * list SiblingSymbol) :=
  match symbols with
  | [] => mret (seen, out)
  | s :: symbols =>
      check_at stopped ;;
      if is_target target_name s then sibling_loop target_name symbols seen out
      else if bool_decide (sibling_key s ∈ seen) then sibling_loop target_name symbols seen out
      else
        let seen := {[sibling_key s]} ∪ seen in
        let out := out ++ [mkSibling (to_string (symbol_handle s)) (sy_name s) (sy_kind s) (line_start s)] in
        if SIBLING_SYMBOL_CAP <=? length out then mret (seen, out)
        else sibling_loop target_name symbols seen out
  end.

Fixpoint sibling_files (target_name : option bytes) (files : list bytes) (seen : gset bytes) (out : list SiblingSymbol)
    : T (list SiblingSymbol) :=
  match files with
  | [] => mret out
  | f :: files =>
      check_at stopped ;;
      symbols ← query (symbols_for_file f);
      '(seen, out) ← sibling_loop target_name symbols seen out;
      if SIBLING_SYMBOL_CAP <=? length out then mret out else sibling_files target_name files seen out
  end.

Definition sibling_le (a b : SiblingSymbol) : Prop := (sb_line a ≤ sb_line b)%N.

#[local] Instance sibling_le_decision a b : Decision (sibling_le a b).
Proof. unfold sibling_le. apply _. Defined.

Definition collect_sibling_symbols (target_name : option bytes) (target_files : list bytes) : T (list SiblingSymbol) :=
  out ← sibling_files target_name target_files ∅ [];
  mret (merge_sort sibling_le out).

(** ** The report *)

Definition impact_target_files (resolution : TargetResolution) (symbols : list Symbol) : list bytes * option bytes :=
  match kind resolution with
  | KSymbol =>
      let symbols := matched_symbols resolution symbols in
      (dedup_sorted (merge_sort bytes_le (map file_path symbols)), sy_name <$> head symbols)
  | _ => (option_list (sole resolution ≫= target_path), None)
  end.

(** [deps.imports.into_iter().chain(deps.test_imports)], collected in order. *)
Definition forward_step (fwd : gset bytes) (f : bytes) : T (gset bytes) :=
  check_at stopped ;;
  '(imports, test_imports) ← query (list_file_dependencies f);
  mret (fwd ∪ list_to_set (imports ++ test_imports)).

Definition ACCEPTED_IMPACT_TARGETS : bytes :=
  bs "a `sym:` or `file:` handle, an indexed path, a qualified name, or a bare name".

Definition require_impact_target (t : ImpactTarget) : T (TargetError + TargetResolution * list Symbol) :=
  '(resolution, candidates) ← query (resolve_impact_target true t);
  match kind resolution with
  | KSymbol | KFile | KText =>
      match require_one resolution with
      | Done (inl e) => mret (inl e)
      | Done (inr _) => mret (inr (resolution, candidates))
      | Panic => fails Panicked
      end
  | k => mret (inl (Unsupported (input resolution) k ACCEPTED_IMPACT_TARGETS))
  end.

Definition empty_walk_cache : WalkCache := mkWalkCache None ∅ None.

(** [impact_analysis_walk]. *)
Definition impact_analysis_walk (max_frontier : nat) : T (TargetError + list ImpactEntry * bool) :=
  '(_, _, out) ← impact_analysis_walk_shared stopped late count_referencing_files count_symbols_named to_lowercase
    is_alphanumeric references file_import_references indexed_targets symbols_for_file symbols_for_files
    (resolve_impact_target false) load_modules has_room req max_frontier None empty_walk_cache;
  mret (match out with inl e => inl e | inr o => inr (entries o, capped o) end).

Definition impact_analysis : T (TargetError + list ImpactEntry) :=
  required ← require_impact_target (target req);
  match required with
  | inl e => mret (inl e)
  | inr _ =>
      walked ← impact_analysis_walk MAX_FRONTIER;
      mret (match walked with inl e => inl e | inr (es, _) => inr es end)
  end.

(** [e.reasons.truncate(1)]. *)
Definition keep_one_reason (e : ImpactEntry) : ImpactEntry :=
  mkEntry (entry_handle e) (entry_path e) (distance e) (category e) (take 1 (Impact.reasons e)).

Definition impact_analysis_report (opts : ImpactOptions) : T (TargetError + ImpactReport) :=
  required ← require_impact_target (target req);
  match required with
  | inl e => mret (inl e)
  | inr (resolution, candidates) =>
      walked ← impact_analysis_walk MAX_FRONTIER;
      match walked with
      | inl e => mret (inl e)
      | inr (es, bounded) =>
          let summary := if summary_only opts then Some (build_impact_summary es) else None in
          let '(truncated, results) :=
            match limit opts with
            | Some n => if n <? length es then (true, take n es) else (false, es)
            | None => (false, es)
            end in
          let results := if summary_only opts then map keep_one_reason results else results in
          let '(target_files, target_name) :=
            if include_forward opts || include_siblings opts then impact_target_files resolution candidates else ([], None) in
          fwd ← (if include_forward opts then for_each forward_step target_files ∅ else mret ∅);
          siblings ← (if include_siblings opts then collect_sibling_symbols target_name target_files else mret []);
          mret (inr (mkReport bounded results (sorted_keys (fwd ∖ list_to_set target_files)) siblings truncated summary))
      end
  end.
End report.

(** ** The summary counts *)

Definition count_at (d : nat) (es : list ImpactEntry) : nat := length (filter (λ e, distance e = d) es).
Definition count_in (c : FileCategory) (es : list ImpactEntry) : nat := length (filter (λ e, category e = c) es).

Lemma count_at_snoc d es e : count_at d (es ++ [e]) = (if decide (distance e = d) then 1 else 0) + count_at d es.
Proof.
  unfold count_at. rewrite filter_app, length_app, filter_cons, filter_nil.
  destruct (decide (distance e = d)); cbn [length]; lia.
Qed.

Lemma count_in_snoc c es e : count_in c (es ++ [e]) = (if decide (category e = c) then 1 else 0) + count_in c es.
Proof.
  unfold count_in. rewrite filter_app, length_app, filter_cons, filter_nil.
  destruct (decide (category e = c)); cbn [length]; lia.
Qed.

Lemma count_categories es : count_in Source es + count_in Test es + count_in Config es = length es.
Proof.
  induction es as [|e es IH] using rev_ind; [done|].
  rewrite !count_in_snoc, length_app. cbn [length]. destruct (category e); repeat case_decide; try done; lia.
Qed.

Lemma count_entries es :
  ∃ counts, foldl count_entry (∅, (0, 0, 0)) es = (counts, (count_in Source es, count_in Test es, count_in Config es))
    ∧ ∀ d, counts !! d = if Nat.eqb (count_at d es) 0 then None else Some (count_at d es).
Proof.
  induction es as [|e es (counts & IH & Hc)] using rev_ind; [by exists ∅|].
  rewrite foldl_app, IH. cbn [foldl]. unfold count_entry. eexists. split.
  - rewrite !count_in_snoc. destruct (category e); repeat case_decide; done.
  - intros d. rewrite count_at_snoc. destruct (decide (distance e = d)) as [<-|Hne].
    + rewrite lookup_insert_eq, Hc. destruct (Nat.eqb_spec (count_at (distance e) es) 0) as [E|E]; cbn [default Nat.add Nat.eqb]; [by rewrite E|done].
    + rewrite lookup_insert_ne by done. by rewrite Hc.
Qed.

#[export] Instance distance_le_total : Total distance_le.
Proof. intros a b. unfold distance_le. lia. Qed.

#[export] Instance distance_le_trans : Transitive distance_le.
Proof. intros a b c. unfold distance_le. lia. Qed.

Record summarizes (es : list ImpactEntry) (s : ImpactSummary) : Prop := {
  su_total : total_affected s = length es;
  su_distance d n : (d, n) ∈ by_distance s ↔ n = count_at d es ∧ 0 < n;
  su_sorted : StronglySorted distance_le (by_distance s);
  su_distinct : NoDup (map fst (by_distance s));
  su_category c n : (c, n) ∈ by_category s ↔ n = count_in c es ∧ 0 < n;
  su_partition : sum_list (map snd (by_category s)) = length es;
}.

Lemma build_summary_ok es : summarizes es (build_impact_summary es).
Proof.
  unfold build_impact_summary. destruct (count_entries es) as (counts & -> & Hc).
  split; cbn [total_affected by_distance by_category].
  - done.
  - intros d n. rewrite merge_sort_Permutation, elem_of_map_to_list, Hc.
    destruct (Nat.eqb_spec (count_at d es) 0); naive_solver lia.
  - apply Sorted_StronglySorted; [apply _|]. apply Sorted_merge_sort; apply _.
  - rewrite merge_sort_Permutation. apply NoDup_fst_map_to_list.
  - intros c n. rewrite list_elem_of_In, filter_In, <- list_elem_of_In, !elem_of_cons, elem_of_nil, Nat.ltb_lt. cbn [snd].
    destruct c; naive_solver.
  - rewrite <- (count_categories es). unfold List.filter. cbn [snd].
    destruct (Nat.ltb_spec 0 (count_in Source es)), (Nat.ltb_spec 0 (count_in Test es)), (Nat.ltb_spec 0 (count_in Config es));
      cbn; lia.
Qed.

(** ** The siblings *)

Lemma kind_key_inj k k' n n' : kind_str k ++ bs "::" ++ n = kind_str k' ++ bs "::" ++ n' → k = k' ∧ n = n'.
Proof. destruct k, k'; cbn; intros H; by simplify_eq. Qed.

Lemma sibling_key_inj s t : sibling_key s = sibling_key t ↔ sy_kind s = sy_kind t ∧ sy_name s = sy_name t.
Proof. split; [apply kind_key_inj|]. intros [E1 E2]. unfold sibling_key. by rewrite E1, E2. Qed.

#[export] Instance sibling_le_total : Total sibling_le.
Proof. intros a b. unfold sibling_le. lia. Qed.

#[export] Instance sibling_le_trans : Transitive sibling_le.
Proof. intros a b c. unfold sibling_le. lia. Qed.

Definition sibling_of (s : Symbol) : SiblingSymbol :=
  mkSibling (to_string (symbol_handle s)) (sy_name s) (sy_kind s) (line_start s).

(** The symbols listed so far, out of those seen. *)
Record listed (target_name : option bytes) (done l : list Symbol) (seen : gset bytes) (out : list SiblingSymbol) : Prop := {
  li_out : out = map sibling_of l;
  li_distinct : NoDup (map sibling_key l);
  li_seen k : k ∈ seen ↔ k ∈ map sibling_key l;
  li_from s : s ∈ l → s ∈ done ∧ is_target target_name s = false;
}.

(** Nothing was left out. *)
Definition exhaustive (target_name : option bytes) (done l : list Symbol) : Prop :=
  ∀ s, s ∈ done → is_target target_name s = false → sibling_key s ∈ map sibling_key l.

(** Either everything was listed or the cap was reached. *)
Definition full (target_name : option bytes) (done l : list Symbol) : Prop :=
  length l ≤ SIBLING_SYMBOL_CAP ∧ (length l < SIBLING_SYMBOL_CAP → exhaustive target_name done l).

Lemma listed_more target_name done more l seen out : listed target_name done l seen out → listed target_name (done ++ more) l seen out.
Proof. intros [A B C D]. split; try done. intros s Hs. destruct (D s Hs). split; [set_solver|done]. Qed.

Lemma listed_add target_name done l seen out s :
  listed target_name done l seen out → is_target target_name s = false → (sibling_key s ∉ seen) →
  listed target_name (done ++ [s]) (l ++ [s]) ({[sibling_key s]} ∪ seen) (out ++ [sibling_of s]).
Proof.
  intros [A B C D] Ht Hk. split.
  - by rewrite A, map_app.
  - rewrite map_app. apply NoDup_app. split; [done|]. split; [|apply NoDup_singleton].
    intros k Hin Hs%list_elem_of_singleton. apply Hk, C. congruence.
  - intros k. rewrite map_app. cbn [map].
    rewrite elem_of_app, elem_of_union, elem_of_singleton, C, list_elem_of_singleton. tauto.
  - intros t [Ht'| ->%list_elem_of_singleton]%elem_of_app; [destruct (D t Ht'); split; [set_solver|done]|].
    split; [set_solver|done].
Qed.

Lemma sibling_loop_ok stopped target_name symbols done l seen out :
  listed target_name done l seen out → length l < SIBLING_SYMBOL_CAP → exhaustive target_name done l →
  yields (sibling_loop stopped target_name symbols seen out) (λ r,
    ∃ l', listed target_name (done ++ symbols) l' r.1 r.2 ∧ full target_name (done ++ symbols) l').
Proof.
  revert done l seen out. induction symbols as [|s symbols IH]; intros done l seen out Hl Hcap Hx; cbn [sibling_loop].
  { apply yields_ret. exists l. rewrite app_nil_r. split; [done|]. by split; [lia|]. }
  apply yields_check. replace (done ++ s :: symbols) with ((done ++ [s]) ++ symbols) by by rewrite <- app_assoc.
  destruct (is_target target_name s) eqn:Et.
  { apply IH with (done := done ++ [s]) (l := l); [by apply listed_more|done|]. intros t [?| ->%list_elem_of_singleton]%elem_of_app ?; [by apply Hx|congruence]. }
  case_bool_decide as Hk.
  { apply IH with (done := done ++ [s]) (l := l); [by apply listed_more|done|].
    intros t [?| ->%list_elem_of_singleton]%elem_of_app ?; [by apply Hx|by apply (li_seen _ _ _ _ _ Hl)]. }
  pose proof (listed_add _ _ _ _ _ _ Hl Et Hk) as Hl2. change (mkSibling _ _ _ _) with (sibling_of s).
  assert (exhaustive target_name (done ++ [s]) (l ++ [s])) as Hx2.
  { intros t [Ht| ->%list_elem_of_singleton]%elem_of_app Hn; rewrite map_app; apply elem_of_app; [left; by apply Hx|right; by left]. }
  assert (length (out ++ [sibling_of s]) = length (l ++ [s])) as Hlen by (rewrite (li_out _ _ _ _ _ Hl2); apply length_map).
  rewrite Hlen. destruct (Nat.leb_spec SIBLING_SYMBOL_CAP (length (l ++ [s]))) as [Hge|Hlt].
  - apply yields_ret. exists (l ++ [s]). split; [by apply listed_more|]. rewrite length_app in *. cbn [length] in *.
    split; rewrite length_app; cbn [length]; [lia|lia].
  - by apply IH with (done := done ++ [s]) (l := l ++ [s]).
Qed.

Section siblings.
Context (symbols_for_file : bytes → option (list Symbol)).

(** The symbols of the files, in order. *)
Definition symbols_of (files : list bytes) : list Symbol := concat (map (λ f, default [] (symbols_for_file f)) files).

Lemma sibling_files_ok stopped target_name files done l seen out :
  listed target_name done l seen out → length l < SIBLING_SYMBOL_CAP → exhaustive target_name done l →
  yields (sibling_files stopped symbols_for_file target_name files seen out) (λ out,
    ∃ l' seen', listed target_name (done ++ symbols_of files) l' seen' out ∧ full target_name (done ++ symbols_of files) l').
Proof.
  revert done l seen out. induction files as [|f files IH]; intros done l seen out Hl Hcap Hx; cbn [sibling_files].
  { apply yields_ret. exists l, seen. unfold symbols_of. cbn. rewrite app_nil_r. split; [done|]. by split; [lia|]. }
  apply yields_check, yields_query. intros symbols Hs.
  replace (symbols_of (f :: files)) with (symbols ++ symbols_of files) by (unfold symbols_of; cbn; by rewrite Hs).
  replace (done ++ symbols ++ symbols_of files) with ((done ++ symbols) ++ symbols_of files) by by rewrite app_assoc.
  eapply yields_bind; [by eapply sibling_loop_ok|].
  intros [seen1 out1] (l1 & Hl1 & Hle & Hx1). cbn [fst snd] in *.
  assert (length out1 = length l1) as -> by (rewrite (li_out _ _ _ _ _ Hl1); apply length_map).
  destruct (Nat.leb_spec SIBLING_SYMBOL_CAP (length l1)) as [Hge|Hlt].
  - apply yields_ret. exists l1, seen1. split; [by apply listed_more|]. split; [done|lia].
  - apply IH with (done := done ++ symbols) (l := l1); [done|done|by apply Hx1].
Qed.

(** The siblings are the symbols of the files other than the target, once per
    kind and name, by line; all of them unless there are [SIBLING_SYMBOL_CAP]. *)
Record siblings_of (target_name : option bytes) (files : list bytes) (out : list SiblingSymbol) : Prop := {
  si_from x : x ∈ out → ∃ s, s ∈ symbols_of files ∧ is_target target_name s = false ∧ x = sibling_of s;
  si_distinct : NoDup (map (λ x, (sb_kind x, sb_name x)) out);
  si_sorted : StronglySorted sibling_le out;
  si_cap : length out ≤ SIBLING_SYMBOL_CAP;
  si_complete s : length out < SIBLING_SYMBOL_CAP → s ∈ symbols_of files → is_target target_name s = false →
    ∃ x, x ∈ out ∧ sb_kind x = sy_kind s ∧ sb_name x = sy_name s;
}.

Lemma collect_siblings_ok stopped target_name files :
  yields (collect_sibling_symbols stopped symbols_for_file target_name files) (siblings_of target_name files).
Proof.
  unfold collect_sibling_symbols. eapply yields_bind.
  { apply (sibling_files_ok stopped target_name files [] [] ∅ []); [|cbn; unfold SIBLING_SYMBOL_CAP; lia|by intros s ?%elem_of_nil].
    split; [done|constructor|set_solver|by intros s ?%elem_of_nil]. }
  intros out (l & seen & [-> Hd Hs Hfrom] & Hcap & Hx). cbn [app] in *. apply yields_ret. split.
  - intros x. rewrite merge_sort_Permutation. intros (s & -> & Hin)%(list_elem_of_fmap sibling_of).
    destruct (Hfrom s Hin). by exists s.
  - rewrite merge_sort_Permutation, map_map.
    revert Hd. clear. induction l as [|s l IH]; [constructor|]. cbn [map]. intros [Hn Hd]%NoDup_cons. constructor; [|by apply IH].
    contradict Hn. apply (list_elem_of_fmap (λ x, (sb_kind (sibling_of x), sb_name (sibling_of x)))) in Hn as (t & E & Ht).
    replace (sibling_key s) with (sibling_key t); [by apply (list_elem_of_fmap_2 sibling_key)|].
    injection E as E1 E2. by apply sibling_key_inj.
  - apply Sorted_StronglySorted; [apply _|]. apply Sorted_merge_sort; apply _.
  - by rewrite merge_sort_Permutation, length_map.
  - intros s. rewrite merge_sort_Permutation, length_map. intros Hlt Hin Ht.
    apply Hx in Ht; [|done|done]. apply (list_elem_of_fmap sibling_key) in Ht as (t & E & Ht).
    apply sibling_key_inj in E as [E1 E2]. exists (sibling_of t). rewrite merge_sort_Permutation.
    split; [by apply (list_elem_of_fmap_2 sibling_of)|]. cbn. by rewrite E1, E2.
Qed.
End siblings.

(** ** The report *)

Lemma refusal_None r : refusal r = None → ∃ c, sole r = Some c.
Proof. unfold refusal. destruct (guessed r); [done|]. destruct (ambiguous r); [done|]. destruct (sole r) as [c|]; [by exists c|done]. Qed.

Section reported.
Context (stopped late : nat → bool) (count_referencing_files count_symbols_named : bytes → option N).
Context (to_lowercase : bytes → bytes) (is_alphanumeric : bytes → bool).
Context (references : Symbol → option (list Reference)) (file_import_references : option (list Reference)).
Context (indexed_targets : Reference → option (list bytes)).
Context (symbols_for_file : bytes → option (list Symbol)).
Context (symbols_for_files : list bytes → option (gmap bytes (list Symbol))) (syms_of : bytes → option (list Symbol)).
Context (resolve_impact_target : bool → ImpactTarget → option (TargetResolution * list Symbol)).
Context (load_modules : option RustModules) (has_room : WalkCache → bytes → list nat → bool).
Context (list_file_dependencies : bytes → option (list bytes * list bytes)).
Context (req : ImpactRequest).

Context (Hkey : ∀ s s', key_of s = key_of s' → references s = references s').
Context (Hsyms : ∀ l m f, symbols_for_files l = Some m → f ∈ l → m !! f = syms_of f).
Context (Hfile : is_file_target req = true →
  ∀ res candidates, resolve_impact_target false (target req) = Some (res, candidates) → kind res ≠ KSymbol).

(** An import of one of the files. *)
Definition imported_by (files : list bytes) (f : bytes) : Prop :=
  ∃ g imports tests, g ∈ files ∧ list_file_dependencies g = Some (imports, tests) ∧ f ∈ imports ++ tests.

(** A reported entry shows one of the walk. *)
Definition shows (one_reason : bool) (x e : ImpactEntry) : Prop :=
  entry_path x = entry_path e ∧ distance x = distance e ∧ category x = category e
  ∧ Impact.reasons x = if one_reason then take 1 (Impact.reasons e) else Impact.reasons e.

(** What a report says of the walk [o] from the target's resolution. *)
Record reports (opts : ImpactOptions) (res : TargetResolution) (candidates : list Symbol) (o : WalkOutcome) (rep : ImpactReport)
    : Prop := {
  rp_bounded : bounded rep = capped o;
  rp_results : Forall2 (shows (summary_only opts)) (results rep) (take (default (length (entries o)) (limit opts)) (entries o));
  rp_truncated : truncated rep = true ↔ length (results rep) < length (entries o);
  rp_summary : if summary_only opts then ∃ s, summary rep = Some s ∧ summarizes (entries o) s else summary rep = None;
  rp_forward f : f ∈ forward_dependencies rep ↔
    include_forward opts = true ∧ (f ∉ (impact_target_files res candidates).1)
    ∧ imported_by (impact_target_files res candidates).1 f;
  rp_forward_sorted : StronglySorted bytes_le (forward_dependencies rep) ∧ NoDup (forward_dependencies rep);
  rp_siblings :
    if include_siblings opts
    then siblings_of symbols_for_file (impact_target_files res candidates).2 (impact_target_files res candidates).1 (sibling_symbols rep)
    else sibling_symbols rep = [];
}.

Lemma forward_ok files :
  yields (for_each (forward_step stopped list_file_dependencies) files ∅) (λ fwd, ∀ f, f ∈ fwd ↔ imported_by files f).
Proof.
  apply yields_for_each with (I := λ done fwd, ∀ f, f ∈ fwd ↔ imported_by done f).
  - intros a g b fwd _ H. apply yields_check, yields_query. intros [imports tests] E. apply yields_ret.
    intros f. rewrite elem_of_union, elem_of_list_to_set, (H f). split.
    + intros [(h & im & ts & ? & ? & ?)|?]; [exists h, im, ts; split; [set_solver|done]|].
      exists g, imports, tests. split; [set_solver|done].
    + intros (h & im & ts & [?| ->%list_elem_of_singleton]%elem_of_app & Hd & ?); [left; by exists h, im, ts|]. right. by simplify_eq.
  - intros f. split; [by intros ?%not_elem_of_empty|]. by intros (g & im & ts & ?%elem_of_nil & _).
Qed.

#[local] Abbreviation cache0 := empty_walk_cache.
#[local] Abbreviation real := (real_outcome to_lowercase is_alphanumeric references file_import_references indexed_targets
  symbols_for_file syms_of (resolve_impact_target false) load_modules req cache0).
#[local] Abbreviation complete := (complete_outcome to_lowercase is_alphanumeric references file_import_references indexed_targets
  symbols_for_file syms_of (resolve_impact_target false) load_modules req cache0).

Lemma summary_walk_ok :
  yields (impact_analysis_walk stopped late count_referencing_files count_symbols_named to_lowercase is_alphanumeric references
            file_import_references indexed_targets symbols_for_file symbols_for_files resolve_impact_target load_modules has_room
            req MAX_FRONTIER)
    (λ r, match r with
          | inl e => ∃ res candidates, resolve_impact_target false (target req) = Some (res, candidates) ∧ refusal res = Some e
          | inr (es, b) => ∃ o, es = entries o ∧ b = capped o ∧ real o ∧ (capped o = false → complete o)
          end).
Proof using Hkey Hsyms Hfile.
  eapply yields_bind.
  { eapply walk_shared_ok; [done|done|done|done|]. intros symbols files m _ _ f rows Hf. cbn [import_matches empty_walk_cache] in Hf.
    by apply lookup_empty_Some in Hf. }
  intros [[b c] [e|o]] (_ & _ & H); apply yields_ret; [done|]. by exists o.
Qed.

Lemma require_ok t :
  yields (require_impact_target resolve_impact_target t) (λ r,
    ∃ res candidates, resolve_impact_target true t = Some (res, candidates)
      ∧ match r with
        | inl e => refusal res = Some e ∨ e = Unsupported (input res) (kind res) ACCEPTED_IMPACT_TARGETS
        | inr p => p = (res, candidates) ∧ refusal res = None
        end).
Proof.
  apply yields_query. intros [res candidates] E.
  assert (∀ Q, (∀ e, refusal res = Some e → Q (inl e)) → (refusal res = None → Q (inr (res, candidates))) →
    yields (match require_one res with Done (inl e) => mret (inl e) | Done (inr _) => mret (inr (res, candidates)) | Panic => fails Panicked end) Q) as H.
  { intros Q H1 H2. unfold require_one. destruct (refusal res) as [e|] eqn:Er; [by apply yields_ret, H1|].
    destruct (refusal_None res Er) as [c ->]. by apply yields_ret, H2. }
  destruct (kind res) eqn:Ek; try (apply yields_ret; exists res, candidates; rewrite Ek; split; [done|by right]);
    (apply H; [intros e He; exists res, candidates; split; [done|by left]|intros He; by exists res, candidates]).
Qed.

Lemma shows_map one l : Forall2 (shows one) (if one then map keep_one_reason l else l) l.
Proof. destruct one; induction l; constructor; done. Qed.

Lemma limited_ok (opts : ImpactOptions) (es : list ImpactEntry) tr rs :
  match limit opts with Some n => if n <? length es then (true, take n es) else (false, es) | None => (false, es) end = (tr, rs) →
  rs = take (default (length es) (limit opts)) es ∧ (tr = true ↔ length rs < length es).
Proof.
  destruct (limit opts) as [n|]; cbn [default].
  - destruct (Nat.ltb_spec n (length es)) as [Hlt|Hge]; intros [= <- <-].
    + split; [done|]. rewrite length_take. split; [intros _; lia|done].
    + rewrite take_ge by done. split; [done|]. split; [done|intros; lia].
  - intros [= <- <-]. rewrite take_ge by done. split; [done|]. split; [done|intros; lia].
Qed.

End reported.

(** ** The small index again *)

Definition demo_resolve (nearest : bool) (t : ImpactTarget) : option (TargetResolution * list Symbol) := Some (demo_resolution, []).
Definition demo_dependencies (f : bytes) : option (list bytes * list bytes) :=
  if bytes_eqb f (bs "a.c") then Some ([bs "z.h"; bs "a.c"], [bs "k.h"]) else Some ([], []).
Definition demo_options : ImpactOptions := mkOptions true true (Some 1) true.

Abbreviation demo_report :=
  (impact_analysis_report (λ _, false) (λ _, false) (λ _, Some 1%N) (λ _, Some 1%N) id (λ _, true) demo_references
    (Some demo_imports) (λ _, Some []) (λ f, demo_files !! f) (λ _, Some demo_files) demo_resolve (Some no_modules)
    (λ _ _ _, true) demo_dependencies demo_request demo_options).

Definition shown_report (r : fault + (TargetError + ImpactReport) * nat)
    : option (list bytes * list bytes * list bytes * bool * option (nat * list (nat * nat) * list (FileCategory * nat))) :=
  match r with
  | inr (inr rep, _) =>
      Some (map entry_path (results rep), forward_dependencies rep, map sb_handle (sibling_symbols rep), truncated rep,
            (λ s, (total_affected s, by_distance s, by_category s)) <$> summary rep)
  | _ => None
  end.

Example demo_reported :
  shown_report (demo_report 0)
  = Some ([bs "b.c"], [bs "k.h"; bs "z.h"], [bs "sym:a.c#fa"], true, Some (2, [(1, 1); (2, 1)], [(Source, 2)])).
Proof. vm_compute. reflexivity. Qed.

