(* ===== verification/Resolution.v ===== *)
(** * Resolution: which definitions a reference names

    Models callee resolution of [src/crates/graph/src/bundle.rs]:
    [resolve_callee_definitions_with_modules] with its gates and tiers, the evidence an
    import gives for a symbol, and the import rows of a file.

    [find_symbols] is the query for a name, [None] a failure; [external_definitions] and
    [qualified_target] are those of [rust_modules.rs], which read the database;
    [references_in_file_range] is the query, over the whole file, and [python_reference] is
    [python_bindings::resolve_reference]. *)
From stdpp Require Import gmap sorting.
From S2P Require Import Prelude Text Order Detect Checked Handle CallPath ImportPaths RustModules Impact.
From Stdlib Require Import Lia NArith.
Local Open Scope codesage_scope.

#[export] Instance language_eq_decision : EqDecision Language.
Proof. solve_decision. Defined.

(** [str::eq_ignore_ascii_case]. *)
Definition eq_ignore_ascii_case (a b : bytes) : bool := bytes_eqb (map to_ascii_lowercase a) (map to_ascii_lowercase b).

Definition is_qualified_symbol_name (name : bytes) : bool :=
  has_byte "\" name || has_byte "." name || contains (bs "::") name.

Definition qualified_name_matches_normalized (s : Symbol) (to_name : bytes) : bool :=
  eq_ignore_ascii_case (qualified_name s) to_name || eq_ignore_ascii_case (sy_name s) to_name.

(** ** Gates *)

Definition same_family (caller target : Language) : bool :=
  match caller, target with
  | C, C | C, Cpp | Cpp, C | Cpp, Cpp => true
  | JavaScript, JavaScript | JavaScript, TypeScript | TypeScript, JavaScript | TypeScript, TypeScript => true
  | _, _ => bool_decide (caller = target)
  end.

Definition language_admits (caller_file : bytes) (caller : option Language) (s : Symbol) : bool :=
  match caller with
  | None => true
  | Some caller =>
      match detect_language (file_path s) with
      | None => true
      | Some target =>
          if ends_with (bs ".c") caller_file && match sy_kind s with KMethod => true | _ => false end then false
          else same_family caller target
      end
  end.

(** The visibility filter: what the module tree knows, else the paths. *)
Definition may_name (m : RustModules) (caller_file : bytes) (s : Symbol) : bool :=
  let known :=
    match visibility s with
    | Some ModuleVisible => module_contains m (file_path s) caller_file
    | Some Crate => same_crate m caller_file (file_path s)
    | _ => None
    end in
  match known with Some admits => admits | None => visibility_admits (file_path s) (visibility s) caller_file end.

(** ** Import evidence *)

Definition is_package_import (kind : ReferenceKind) (from_file to_name : bytes) : bool :=
  if negb (bool_decide (kind = RImport)) then false
  else if ends_with (bs ".go") from_file || ImportPaths.is_python_path from_file then true
  else match importer_dialect from_file with
       | DJavaScript | DTypeScript => negb (is_relative to_name || starts_with (bs "/") to_name)
       | _ => false
       end.

Definition binds_names (kind : ReferenceKind) : bool :=
  match kind with RImport | RImportBinding | RInclude | RTraitUse => true | _ => false end.

(** [outgoing] is [refs_outgoing_for_file_id], and [None] for a file not indexed. *)
Definition import_refs_for_file (outgoing : bytes → option (option (list (bytes * ReferenceKind)))) (caller_file : bytes)
    : option (list bytes) :=
  rows ← outgoing caller_file;
  Some (dedup_sorted (merge_sort bytes_le
    (omap (λ r : bytes * ReferenceKind,
            if negb (is_package_import r.2 caller_file r.1) && binds_names r.2 then Some r.1 else None)
       (default [] rows)))).

Definition is_path_specifier (s : bytes) : bool := is_relative s || has_byte "/" s.

Section evidence.
Context (is_alphanumeric : bytes → bool).

#[local] Abbreviation import_ref_targets_file := (import_ref_targets_file is_alphanumeric).
#[local] Abbreviation import_ref_targets_file_with_modules := (import_ref_targets_file_with_modules is_alphanumeric).

Definition import_ref_targets_symbol (import_ref caller_file callee_name : bytes) (s : Symbol) : bool :=
  if ends_with (bs "::*") import_ref || ImportPaths.is_python_path caller_file && ends_with (bs ".*") import_ref then
    import_ref_targets_file import_ref caller_file (file_path s)
  else if bytes_eqb import_ref (qualified_name s) || bytes_eqb import_ref (sy_name s) then true
  else if is_path_specifier import_ref then import_path_targets_file import_ref caller_file (file_path s)
  else
    match rsplit_once_sub (bs "::") import_ref with
    | None => bytes_eqb import_ref callee_name && bytes_eqb import_ref (sy_name s)
    | Some (module, tail) =>
        if negb (bytes_eqb tail callee_name) && negb (bytes_eqb tail (sy_name s)) then false
        else among (file_path s) (rust_module_candidates module caller_file)
    end.

Definition import_ref_targets_symbol_with_modules (import_ref caller_file callee_name : bytes) (s : Symbol) (m : RustModules)
    : bool :=
  let known :=
    if ends_with (bs ".rs") caller_file then
      if starts_with (bs "./") import_ref then Some false
      else if ends_with (bs "::*") import_ref then
        Some (import_ref_targets_file_with_modules import_ref caller_file (file_path s) m)
      else
        '(module, tail) ← rsplit_once_sub (bs "::") import_ref;
        if bytes_eqb tail callee_name || bytes_eqb tail (sy_name s) then
          candidates ← uncached_candidates m caller_file module; Some (among (file_path s) candidates)
        else None
    else None in
  match known with Some b => b | None => import_ref_targets_symbol import_ref caller_file callee_name s end.

(** ** Resolution *)

Context (stopped : nat → bool) (find_symbols : bytes → option (list Symbol)).
Context (external_definitions : bytes → bytes → option (option (list Symbol))).
Context (qualified_target : bytes → bytes → Symbol → option bool).
Context (references_in_file_range : bytes → option (list Reference)).
Context (python_reference : Reference → option (option (list Symbol))).
Context (m : RustModules).

(** The symbols the rows of a Python file bind the name to, once each. *)
Definition bind_symbol (resolved : list Symbol) (s : Symbol) : list Symbol :=
  if bool_decide (key_of s ∈ map key_of resolved) then resolved else resolved ++ [s].

Definition bind_row (to_name : bytes) (resolved : list Symbol) (row : Reference) : T (list Symbol) :=
  if negb (bytes_eqb (CallPath.to_name row) to_name) then mret resolved
  else
    bound ← query (python_reference row);
    mret (foldl bind_symbol resolved (default [] bound)).

Definition python_definitions (caller_file to_name : bytes) : T (list Symbol) :=
  rows ← query (references_in_file_range caller_file);
  for_each (bind_row to_name) rows [].

(** The keys that occur more than once. *)
Definition ambiguous_keys (l : list Symbol) : gset SymbolKey :=
  (foldl (λ '(seen, ambiguous) s,
     if bool_decide (key_of s ∈ (seen : gset SymbolKey)) then (seen, {[key_of s]} ∪ ambiguous) else ({[key_of s]} ∪ seen, ambiguous))
   (∅, ∅) l).2.

Definition qualify_step (caller_file to_name : bytes) (ambiguous : gset SymbolKey) (found : list Symbol) (s : Symbol)
    : T (list Symbol) :=
  check_at stopped ;;
  if bool_decide (key_of s ∈ ambiguous) then mret found
  else
    targets ← query (qualified_target caller_file to_name s);
    mret (if targets : bool then found ++ [s] else found).

(** The candidates for a name, and whether the module path found them. *)
Definition candidates_for (caller_file to_name : bytes) : T (list Symbol * bool) :=
  all ← query (find_symbols to_name);
  match all, rsplit_once_sub (bs "::") to_name with
  | [], Some (_, tail) =>
      if ends_with (bs ".rs") caller_file then
        tail_candidates ← query (find_symbols tail);
        found ← for_each (qualify_step caller_file to_name (ambiguous_keys tail_candidates)) tail_candidates [];
        mret (found, true)
      else mret (all, false)
  | _, _ => mret (all, false)
  end.

Definition filter_symbols (p : Symbol → bool) (l : list Symbol) : list Symbol := List.filter p l.

(** Loading the caller's imports may fill a cache, of type [St]. *)
Context {St : Type} (load_imports : St → T (list bytes * St)).

(** The tiers over the candidates that pass the gates, [total] those before the visibility
    gate. *)
Definition choose_tier (st : St) (caller_file to_name : bytes) (total : nat) (candidates : list Symbol) : T (list Symbol * St) :=
  let qualified := is_qualified_symbol_name to_name in
  let exact := filter_symbols (λ s, bytes_eqb (qualified_name s) to_name || bytes_eqb (sy_name s) to_name) candidates in
  let folded := filter_symbols (λ s, qualified_name_matches_normalized s to_name) candidates in
  if qualified && negb (bool_decide (exact = [])) then mret (exact, st)
  else if qualified && negb (bool_decide (folded = [])) then mret (folded, st)
  else if total <=? 1 then mret (candidates, st)
  else
    '(import_refs, st) ← load_imports st;
    mret (filter_symbols (λ s, bytes_eqb (file_path s) caller_file
            || existsb (λ imp, import_ref_targets_symbol_with_modules imp caller_file to_name s m) import_refs) candidates, st).

Definition resolve_callee_definitions_with_modules (st : St) (caller_file to_name : bytes) : T (list Symbol * St) :=
  external ← (if ends_with (bs ".rs") caller_file then query (external_definitions caller_file to_name) else mret None);
  match external with
  | Some resolved => mret (resolved, st)
  | None =>
      if ImportPaths.is_python_path caller_file then
        resolved ← python_definitions caller_file to_name;
        mret (resolved, st)
      else
        '(all, module_qualified) ← candidates_for caller_file to_name;
        let admitted := filter_symbols (language_admits caller_file (detect_language caller_file)) all in
        let candidates := filter_symbols (may_name m caller_file) admitted in
        if module_qualified : bool then mret (candidates, st)
        else choose_tier st caller_file to_name (length admitted) candidates
  end.
End evidence.

(** ** What resolution promises *)

Lemma elem_of_filter_symbols p l s : s ∈ filter_symbols p l ↔ s ∈ l ∧ p s = true.
Proof. unfold filter_symbols. by rewrite list_elem_of_In, filter_In, <- list_elem_of_In. Qed.

Lemma filter_symbols_sublist p l : filter_symbols p l `sublist_of` l.
Proof. induction l as [|s l IH]; cbn; [constructor|]. destruct (p s); [by apply sublist_skip|by apply sublist_cons]. Qed.

Lemma same_family_refl l : same_family l l = true.
Proof. by destruct l. Qed.

Lemma path_starts_with_refl p : path_starts_with p p = true.
Proof. induction p as [|x p IH]; [done|]. cbn. rewrite IH, andb_true_r. by apply bytes_eqb_true. Qed.

Lemma roles_nonempty m f l : roles m f = Some l → ∃ x, x ∈ l.
Proof. unfold roles. destruct (RustModules.capped m); [done|]. destruct (modules m !! f) as [[|x l']|]; [done| |done]. intros [= <-]. exists x. by left. Qed.

(** A file may name its own definitions, whatever the module tree says. *)
Lemma may_name_local m caller_file s : file_path s = caller_file → may_name m caller_file s = true.
Proof.
  intros <-. unfold may_name.
  assert (visibility_admits (file_path s) (visibility s) (file_path s) = true) as Hv.
  { unfold visibility_admits. by rewrite (proj2 (bytes_eqb_true _ _)). }
  destruct (visibility s) as [[]|]; try done.
  - unfold same_crate. destruct (roles m (file_path s)) as [l|] eqn:E; [|done]. cbn.
    destruct (roles_nonempty _ _ _ E) as [x Hx%list_elem_of_In]. apply existsb_exists. exists x. split; [done|].
    apply existsb_exists. exists x. split; [done|]. by apply bytes_eqb_true.
  - unfold module_contains. destruct (roles m (file_path s)) as [l|] eqn:E; [|done]. cbn.
    destruct (roles_nonempty _ _ _ E) as [x Hx%list_elem_of_In]. apply existsb_exists. exists x. split; [done|].
    apply existsb_exists. exists x. split; [done|]. rewrite path_starts_with_refl, andb_true_r. by apply bytes_eqb_true.
Qed.

(** A method in a C file, which only a C++ file can hold. *)
Definition c_method (s : Symbol) : bool := ends_with (bs ".c") (file_path s) && bool_decide (sy_kind s = KMethod).

Lemma language_admits_local caller_file s :
  file_path s = caller_file → c_method s = false → language_admits caller_file (detect_language caller_file) s = true.
Proof.
  intros <- Hm. unfold language_admits. destruct (detect_language (file_path s)) as [l|]; [|done].
  unfold c_method in Hm. destruct (ends_with (bs ".c") (file_path s)); cbn [andb] in *; [|apply same_family_refl].
  destruct (sy_kind s); try apply same_family_refl. by rewrite bool_decide_eq_true_2 in Hm.
Qed.

Section promises.
Context (is_alphanumeric : bytes → bool) (stopped : nat → bool) (find_symbols : bytes → option (list Symbol)).
Context (external_definitions : bytes → bytes → option (option (list Symbol))).
Context (qualified_target : bytes → bytes → Symbol → option bool).
Context (references_in_file_range : bytes → option (list Reference)).
Context (python_reference : Reference → option (option (list Symbol))).
Context (m : RustModules) {St : Type} (load_imports : St → T (list bytes * St)).

#[local] Abbreviation resolve := (resolve_callee_definitions_with_modules is_alphanumeric stopped find_symbols external_definitions
  qualified_target references_in_file_range python_reference m load_imports).
#[local] Abbreviation candidates_for := (candidates_for stopped find_symbols qualified_target).
#[local] Abbreviation choose_tier := (choose_tier is_alphanumeric m load_imports).

(** A symbol found under the name, or at its module path. *)
Definition candidate (caller_file to_name : bytes) (s : Symbol) : Prop :=
  (∃ all, find_symbols to_name = Some all ∧ s ∈ all)
  ∨ ends_with (bs ".rs") caller_file = true ∧ find_symbols to_name = Some []
    ∧ ∃ parent tail found, rsplit_once_sub (bs "::") to_name = Some (parent, tail) ∧ find_symbols tail = Some found ∧ s ∈ found
      ∧ qualified_target caller_file to_name s = Some true.

Lemma qualify_ok caller_file to_name ambiguous l :
  yields (for_each (qualify_step stopped qualified_target caller_file to_name ambiguous) l [])
    (λ found, found `sublist_of` l ∧ ∀ s, s ∈ found → qualified_target caller_file to_name s = Some true).
Proof.
  apply yields_for_each with
    (I := λ done found, found `sublist_of` done ∧ ∀ s, s ∈ found → qualified_target caller_file to_name s = Some true).
  - intros a x b found _ [Hs Hq]. unfold qualify_step. apply yields_check. case_bool_decide.
    { apply yields_ret. split; [by apply sublist_inserts_r|done]. }
    apply yields_query. intros [] E; apply yields_ret.
    + split; [by apply sublist_app|]. intros s [?| ->%list_elem_of_singleton]%elem_of_app; [by apply Hq|done].
    + split; [by apply sublist_inserts_r|done].
  - split; [done|]. by intros s ?%elem_of_nil.
Qed.

Lemma candidates_for_ok caller_file to_name :
  yields (candidates_for caller_file to_name) (λ r,
    (∀ s, s ∈ r.1 → candidate caller_file to_name s)
    ∧ (r.2 = false → find_symbols to_name = Some r.1)
    ∧ (r.2 = true → is_qualified_symbol_name to_name = true)).
Proof.
  apply yields_query. intros all Eall.
  assert (yields (mret (all, false)) (λ r : list Symbol * bool,
    (∀ s, s ∈ r.1 → candidate caller_file to_name s) ∧ (r.2 = false → find_symbols to_name = Some r.1)
    ∧ (r.2 = true → is_qualified_symbol_name to_name = true))) as Hplain.
  { apply yields_ret. split; [|by split]. intros s Hs. left. by exists all. }
  destruct all as [|s0 all]; [|done]. destruct (rsplit_once_sub (bs "::") to_name) as [[parent tail]|] eqn:Er; [|done].
  destruct (ends_with (bs ".rs") caller_file) eqn:Ers; [|done]. clear Hplain.
  apply yields_query. intros tails Et. eapply yields_bind; [apply qualify_ok|]. intros found [Hsub Hq]. apply yields_ret.
  split; [|split; [done|]; intros _; unfold is_qualified_symbol_name; by rewrite (rsplit_once_sub_contains _ _ _ Er), orb_true_r].
  intros s Hs. right. split; [done|]. split; [done|]. exists parent, tail, tails.
  split; [done|]. split; [done|]. split; [by eapply elem_of_sublist|by apply Hq].
Qed.

(** The evidence that lets one of several candidates stand. *)
Definition evident (import_refs : list bytes) (caller_file to_name : bytes) (s : Symbol) : bool :=
  bytes_eqb (file_path s) caller_file
  || existsb (λ imp, import_ref_targets_symbol_with_modules is_alphanumeric imp caller_file to_name s m) import_refs.

(** A definition a reference may stand for. *)
Definition nameable (caller_file to_name : bytes) (s : Symbol) : Prop :=
  candidate caller_file to_name s ∧ language_admits caller_file (detect_language caller_file) s = true
  ∧ may_name m caller_file s = true.

Lemma choose_tier_ok st import_refs caller_file to_name total candidates :
  yields (load_imports st) (λ r, r.1 = import_refs) →
  yields (choose_tier st caller_file to_name total candidates) (λ r, let out := r.1 in
    out `sublist_of` candidates
    ∧ (∀ s, s ∈ out → is_qualified_symbol_name to_name = false → total ≤ 1 ∨ evident import_refs caller_file to_name s = true)
    ∧ (∀ s, s ∈ candidates → is_qualified_symbol_name to_name = false → evident import_refs caller_file to_name s = true → s ∈ out)).
Proof.
  intros Hload. unfold choose_tier. set (exact := filter_symbols _ candidates). set (folded := filter_symbols _ candidates).
  destruct (is_qualified_symbol_name to_name && negb (bool_decide (exact = []))) eqn:E1.
  { apply andb_true_iff in E1 as [-> _]. apply yields_ret. split; [apply filter_symbols_sublist|by split]. }
  destruct (is_qualified_symbol_name to_name && negb (bool_decide (folded = []))) eqn:E2.
  { apply andb_true_iff in E2 as [-> _]. apply yields_ret. split; [apply filter_symbols_sublist|by split]. }
  destruct (Nat.leb_spec total 1).
  { apply yields_ret. split; [done|]. split; [by left|done]. }
  eapply yields_bind; [done|]. intros [refs st'] [= ->]. apply yields_ret. split; [apply filter_symbols_sublist|]. split.
  - intros s [_ Hs]%elem_of_filter_symbols _. by right.
  - intros s Hs _ He. by apply elem_of_filter_symbols.
Qed.

(** C26. Resolution is gated.  Outside Python and the external crates that
    [external_definitions] knows, every definition a reference resolves to was found under the
    name it spells (or, for a Rust path, at that module path), passes the language and the
    visibility gate, and for a bare name with several candidates before the visibility gate
    is local to the caller or named by one of its imports: a
    candidate the caller cannot name never comes back through a looser tier.  And a bare name
    always resolves to the caller's own definitions of it. *)
Theorem callee_resolution_gated st import_refs caller_file to_name :
  yields (load_imports st) (λ r, r.1 = import_refs) →
  ImportPaths.is_python_path caller_file = false →
  (ends_with (bs ".rs") caller_file = true → external_definitions caller_file to_name = Some None) →
  yields (resolve st caller_file to_name) (λ r, let out := r.1 in
    (∀ s, s ∈ out → nameable caller_file to_name s)
    ∧ (is_qualified_symbol_name to_name = false → ∀ all, find_symbols to_name = Some all →
        (∀ s t, s ∈ out → t ∈ all → language_admits caller_file (detect_language caller_file) t = true →
          key_of s ≠ key_of t → evident import_refs caller_file to_name s = true)
        ∧ (∀ s, s ∈ all → file_path s = caller_file → c_method s = false → s ∈ out))).
Proof.
  intros Hload Hpy Hext. unfold resolve_callee_definitions_with_modules.
  eapply yields_bind with (P := λ e, e = None).
  { destruct (ends_with (bs ".rs") caller_file); [|by apply yields_ret]. rewrite Hext by done. by apply yields_ret. }
  intros ? ->. rewrite Hpy. eapply yields_bind; [apply candidates_for_ok|]. intros [all qualified] (Hcand & Hplain & Hmod).
  cbn [fst snd] in *. set (admitted := filter_symbols (language_admits _ _) all).
  set (candidates := filter_symbols (may_name m caller_file) admitted).
  assert (∀ s, s ∈ candidates → nameable caller_file to_name s) as Hname.
  { intros s [[Hs Hl]%elem_of_filter_symbols Hm]%elem_of_filter_symbols. split; [by apply Hcand|done]. }
  destruct qualified.
  { apply yields_ret. split; [done|]. rewrite Hmod by done. done. }
  eapply yields_mono; [by apply choose_tier_ok|]. intros [out st'] (Hsub & Hone & Hin). cbn [fst] in *. split.
  { intros s Hs. apply Hname. by eapply elem_of_sublist. }
  rewrite Hplain by done. intros Hbare ? [= <-]. split.
  - intros s t Hs Ht Hl Hne. destruct (Hone s Hs Hbare) as [Hle|?]; [|done]. exfalso.
    assert (s ∈ admitted) as Hsa.
    { eapply elem_of_sublist in Hsub; [|done]. by apply elem_of_filter_symbols in Hsub as [? _]. }
    assert (t ∈ admitted) as Hta by by apply elem_of_filter_symbols.
    destruct admitted as [|a [|b l]]; [by apply elem_of_nil in Hsa| |cbn in Hle; lia].
    apply list_elem_of_singleton in Hsa, Hta. congruence.
  - intros s Hs Hf Hc. apply Hin; [|done|].
    + apply elem_of_filter_symbols. split; [|by apply may_name_local]. apply elem_of_filter_symbols.
      split; [done|by apply language_admits_local].
    + unfold evident. by rewrite (proj2 (bytes_eqb_true _ _)).
Qed.
End promises.

(** ** Homonyms in two files *)

Definition demo_symbol (file : bytes) : Symbol := mkSymbol (bs "f") (bs "f") KFunction file 1 5 false None false.
Definition demo_symbols (name : bytes) : option (list Symbol) := Some (map demo_symbol (map bs ["a.c"; "b.c"; "c.c"; "f.go"]%string)).

Abbreviation demo_resolve imports := (resolve_callee_definitions_with_modules (λ _, true) (λ _, false) demo_symbols (λ _ _, Some None)
  (λ _ _ _, Some false) (λ _, Some []) (λ _, Some None) no_modules (λ _ : (), mret (imports, ()))).

(** The file's own definition, the included file's, and no other. *)
Example demo_homonyms :
  (λ r : fault + list Symbol * () * nat, match r with inr (out, _, _) => map file_path out | inl _ => [] end)
    <$> [demo_resolve [] () (bs "b.c") (bs "f") 0; demo_resolve [bs "./a.c"] () (bs "b.c") (bs "f") 0]
  = [[bs "b.c"]; [bs "a.c"; bs "b.c"]].
Proof. vm_compute. reflexivity. Qed.

Lemma callee_resolution_gated_witness :
  yields (demo_resolve [bs "./a.c"] () (bs "b.c") (bs "f")) (λ r, let out := r.1 in
    (∀ s, s ∈ out → nameable demo_symbols (λ _ _ _, Some false) no_modules (bs "b.c") (bs "f") s)
    ∧ (is_qualified_symbol_name (bs "f") = false → ∀ all, demo_symbols (bs "f") = Some all →
        (∀ s t, s ∈ out → t ∈ all → language_admits (bs "b.c") (detect_language (bs "b.c")) t = true →
          key_of s ≠ key_of t → evident (λ _, true) no_modules [bs "./a.c"] (bs "b.c") (bs "f") s = true)
        ∧ (∀ s, s ∈ all → file_path s = bs "b.c" → c_method s = false → s ∈ out))).
Proof. apply callee_resolution_gated; [by apply yields_ret|done|done]. Defined.
