(* ===== verification/ReverseEdges.v ===== *)
(** * ReverseEdges: the references to a symbol, and their memo

    Models [references_for_symbol] of [src/crates/graph/src/impact.rs] and the memo
    of [WalkCache] over it: reverse edges, resolutions and caller imports, retained
    under a limit on entries and on bytes.

    The queries are parameters, [None] a failure; [edges_bytes], [resolution_bytes] and
    [imports_bytes] are the sizes the memo charges, which depend on the capacities of
    the allocations.  [others] counts the entries of the memo that other code fills. *)
From stdpp Require Import gmap sorting.
From S2P Require Import Prelude Text Order Detect Checked Handle CallPath ImportPaths RustModules Impact Resolution.
From Stdlib Require Import Lia NArith.
Local Open Scope codesage_scope.

Record EdgeCache := mkEdgeCache {
  edges : gmap SymbolKey (list Reference);
  resolutions : gmap (bytes * bytes) (list SymbolKey);
  caller_imports : gmap bytes (list bytes);
  others : nat;
  reference_bytes : N;
  loaded_modules : option RustModules;
}.

Definition MAX_SYMBOLS : nat := N.to_nat 8192.
Definition MAX_REFERENCE_BYTES : N := 16 * 1024 * 1024.

Definition entry_count (c : EdgeCache) : nat :=
  size (edges c) + size (resolutions c) + size (caller_imports c) + others c.

(** Whether an entry of a size is retained. *)
Definition fits (bytes_ : N) (c : EdgeCache) : bool :=
  (entry_count c <? MAX_SYMBOLS) && (bytes_ <=? MAX_REFERENCE_BYTES - reference_bytes c)%N.

Section edges.
Context (is_alphanumeric : bytes → bool).
Context (find_references : bytes → option (list Reference)) (find_symbols : bytes → option (list Symbol)).
Context (external_definitions : bytes → bytes → option (option (list Symbol))).
Context (qualified_target : bytes → bytes → Symbol → option bool).
Context (references_in_file_range : bytes → option (list Reference)).
Context (python_reference : Reference → option (option (list Symbol))).
Context (outgoing : bytes → option (option (list (bytes * ReferenceKind)))).
Context (load_modules : option RustModules).
Context (stopped : nat → bool).

#[local] Abbreviation resolve_with := (resolve_callee_definitions_with_modules is_alphanumeric stopped find_symbols
  external_definitions qualified_target references_in_file_range python_reference).

(** ** The rows that resolve to a symbol *)

Section scan.
Context {C : Type} (resolve_keys : C → bytes → bytes → T (list SymbolKey * C)).

(** [cache], the lookups of this scan, then [cache[&cache_key]]. *)
Definition edge_step (identity : SymbolKey) (s : list Reference * gmap (bytes * bytes) (list SymbolKey) * C) (r : Reference)
    : T (list Reference * gmap (bytes * bytes) (list SymbolKey) * C) :=
  let '(out, cache, shared) := s in
  check_at stopped ;;
  bound ← query (python_reference r);
  match bound with
  | Some resolved =>
      mret (if existsb (λ s, bool_decide (key_of s = identity)) resolved then out ++ [r] else out, cache, shared)
  | None =>
      if is_package_import (ref_kind r) (from_file r) (to_name r) then mret (out, cache, shared)
      else
        let key := (from_file r, to_name r) in
        '(cache, shared) ← match cache !! key with
                           | Some _ => mret (cache, shared)
                           | None =>
                               '(resolved, shared) ← resolve_keys shared (from_file r) (to_name r);
                               mret (<[key := resolved]> cache, shared)
                           end;
        match cache !! key with
        | Some resolved => mret (if bool_decide (identity ∈ resolved) then out ++ [r] else out, cache, shared)
        | None => fails Panicked
        end
  end.

Definition resolve_references_to_symbol (sym : Symbol) (raw : list Reference) (shared : C) : T (list Reference * C) :=
  '(out, _, shared) ← for_each (edge_step (key_of sym)) raw ([], ∅, shared);
  mret (out, shared).
End scan.

(** ** Without the memo *)

Definition modules_of (caller_file : bytes) : T RustModules :=
  if ends_with (bs ".rs") caller_file then query load_modules else mret no_modules.

Definition load_imports (caller_file : bytes) (u : ()) : T (list bytes * ()) :=
  refs ← query (import_refs_for_file outgoing caller_file); mret (refs, u).

Definition resolved_definition_keys (u : ()) (caller_file spelling : bytes) : T (list SymbolKey * ()) :=
  m ← modules_of caller_file;
  '(symbols, u) ← resolve_with m (load_imports caller_file) u caller_file spelling;
  mret (map key_of symbols, u).

Definition references_for_symbol (sym : Symbol) : T (list Reference * ()) :=
  raw ← query (find_references (sy_name sym));
  resolve_references_to_symbol resolved_definition_keys sym raw ().

(** ** With the memo *)

Context (edges_bytes : SymbolKey → list Reference → N) (resolution_bytes : bytes * bytes → list SymbolKey → N).
Context (imports_bytes : bytes → list bytes → N).

Definition rust_modules_shared (c : EdgeCache) : T (RustModules * EdgeCache) :=
  match loaded_modules c with
  | Some m => mret (m, c)
  | None =>
      m ← query load_modules;
      mret (m, mkEdgeCache (edges c) (resolutions c) (caller_imports c) (others c) (reference_bytes c) (Some m))
  end.

Definition caller_imports_shared (caller_file : bytes) (c : EdgeCache) : T (list bytes * EdgeCache) :=
  check_at stopped ;;
  match caller_imports c !! caller_file with
  | Some imports => mret (imports, c)
  | None =>
      imports ← query (import_refs_for_file outgoing caller_file);
      let bytes_ := imports_bytes caller_file imports in
      mret (imports,
            if fits bytes_ c then
              mkEdgeCache (edges c) (resolutions c) (<[caller_file := imports]> (caller_imports c)) (others c)
                (reference_bytes c + bytes_) (loaded_modules c)
            else c)
  end.

Definition resolve_symbols (c : EdgeCache) (caller_file spelling : bytes) : T (list Symbol * EdgeCache) :=
  '(m, c) ← (if ends_with (bs ".rs") caller_file then rust_modules_shared c else mret (no_modules, c));
  resolve_with m (caller_imports_shared caller_file) c caller_file spelling.

Definition resolve_reference (c : EdgeCache) (row : Reference) : T (list Symbol * EdgeCache) :=
  bound ← query (python_reference row);
  match bound with
  | Some resolved => mret (resolved, c)
  | None => resolve_symbols c (from_file row) (to_name row)
  end.

Definition resolve (c : EdgeCache) (caller_file spelling : bytes) : T (list SymbolKey * EdgeCache) :=
  check_at stopped ;;
  let key := (caller_file, spelling) in
  match resolutions c !! key with
  | Some rows => mret (rows, c)
  | None =>
      '(symbols, c) ← resolve_symbols c caller_file spelling;
      let rows := map key_of symbols in
      let bytes_ := resolution_bytes key rows in
      mret (rows,
            if fits bytes_ c then
              mkEdgeCache (edges c) (<[key := rows]> (resolutions c)) (caller_imports c) (others c)
                (reference_bytes c + bytes_) (loaded_modules c)
            else c)
  end.

Definition references (c : EdgeCache) (sym : Symbol) : T (list Reference * EdgeCache) :=
  check_at stopped ;;
  let key := key_of sym in
  match edges c !! key with
  | Some rows => mret (rows, c)
  | None =>
      raw ← query (find_references (sy_name sym));
      '(rows, c) ← resolve_references_to_symbol resolve sym raw c;
      let bytes_ := edges_bytes key rows in
      mret (rows,
            if fits bytes_ c then
              mkEdgeCache (<[key := rows]> (edges c)) (resolutions c) (caller_imports c) (others c)
                (reference_bytes c + bytes_) (loaded_modules c)
            else c)
  end.
End edges.

(** ** The memo changes no answer *)

Section memo.
Context (is_alphanumeric : bytes → bool).
Context (find_references : bytes → option (list Reference)) (find_symbols : bytes → option (list Symbol)).
Context (external_definitions : bytes → bytes → option (option (list Symbol))).
Context (qualified_target : bytes → bytes → Symbol → option bool).
Context (references_in_file_range : bytes → option (list Reference)).
Context (python_reference : Reference → option (option (list Symbol))).
Context (outgoing : bytes → option (option (list (bytes * ReferenceKind)))).
Context (load_modules : option RustModules) (stopped : nat → bool).
Context (edges_bytes : SymbolKey → list Reference → N) (resolution_bytes : bytes * bytes → list SymbolKey → N).
Context (imports_bytes : bytes → list bytes → N).

#[local] Abbreviation resolve_with stopped := (resolve_callee_definitions_with_modules is_alphanumeric stopped find_symbols
  external_definitions qualified_target references_in_file_range python_reference).
#[local] Abbreviation keys_computed := (resolved_definition_keys is_alphanumeric find_symbols external_definitions qualified_target
  references_in_file_range python_reference outgoing load_modules never).
#[local] Abbreviation references_computed := (references_for_symbol is_alphanumeric find_references find_symbols external_definitions
  qualified_target references_in_file_range python_reference outgoing load_modules never).
#[local] Abbreviation imports_computed := (load_imports outgoing).
#[local] Abbreviation modules_computed := (modules_of load_modules).
#[local] Abbreviation imports_memo := (caller_imports_shared outgoing stopped imports_bytes).
#[local] Abbreviation symbols_memo := (resolve_symbols is_alphanumeric find_symbols external_definitions qualified_target
  references_in_file_range python_reference outgoing load_modules stopped imports_bytes).
#[local] Abbreviation resolve_memo := (resolve is_alphanumeric find_symbols external_definitions qualified_target
  references_in_file_range python_reference outgoing load_modules stopped resolution_bytes imports_bytes).
#[local] Abbreviation references_memo := (references is_alphanumeric find_references find_symbols external_definitions
  qualified_target references_in_file_range python_reference outgoing load_modules stopped edges_bytes resolution_bytes imports_bytes).

(** The indexed definitions: the name is determined by the identity. *)
Context (indexed : Symbol → Prop) (Hname : ∀ s s', indexed s → indexed s' → key_of s = key_of s' → sy_name s = sy_name s').

(** Every entry is what would be computed without the memo, within the limits. *)
Record memo_sound (c : EdgeCache) : Prop := {
  ms_edges s rows : edges c !! key_of s = Some rows → indexed s → computes (references_computed s) (rows, ());
  ms_resolutions f n rows : resolutions c !! (f, n) = Some rows → computes (keys_computed () f n) (rows, ());
  ms_imports f l : caller_imports c !! f = Some l → import_refs_for_file outgoing f = Some l;
  ms_modules m : loaded_modules c = Some m → load_modules = Some m;
  ms_entries : entry_count c ≤ MAX_SYMBOLS;
  ms_bytes : (reference_bytes c ≤ MAX_REFERENCE_BYTES)%N;
}.

Lemma fits_true b c : fits b c = true → entry_count c < MAX_SYMBOLS ∧ (b ≤ MAX_REFERENCE_BYTES - reference_bytes c)%N.
Proof. unfold fits. by rewrite andb_true_iff, Nat.ltb_lt, N.leb_le. Qed.

Lemma size_insert_le {K V} `{Countable K} (m : gmap K V) k v : size (<[k := v]> m) ≤ S (size m).
Proof. rewrite map_size_insert. destruct (m !! k); cbn; unfold id; lia. Qed.

Lemma imports_memo_ok f c :
  memo_sound c → yields (imports_memo f c) (λ r, computes (imports_computed f ()) (r.1, ()) ∧ memo_sound r.2).
Proof.
  intros Hc. apply yields_check. destruct (caller_imports c !! f) as [l|] eqn:E.
  - apply yields_ret. split; [|done]. cbn [fst]. eapply computes_bind; [by apply computes_query, (ms_imports _ Hc)|apply computes_ret].
  - apply yields_query. intros l El. apply yields_ret. cbn [fst snd]. split.
    { eapply computes_bind; [by apply computes_query|apply computes_ret]. }
    destruct (fits (imports_bytes f l) c) eqn:Ef; [|done]. apply fits_true in Ef as [F1 F2].
    destruct Hc as [A1 A2 A3 A4 A5 A6]. split; [done|done| |done| |]; cbn.
    + intros g l'. rewrite lookup_insert_Some. intros [[<- <-]|[_ ?]]; [done|by apply A3].
    + unfold entry_count in *. cbn. pose proof (size_insert_le (caller_imports c) f l). lia.
    + lia.
Qed.

Lemma modules_memo_ok c : memo_sound c → yields (rust_modules_shared load_modules c) (λ r, load_modules = Some r.1 ∧ memo_sound r.2).
Proof.
  intros Hc. unfold rust_modules_shared. destruct (loaded_modules c) as [m|] eqn:E.
  - apply yields_ret. split; [by apply (ms_modules _ Hc)|done].
  - apply yields_query. intros m Em. apply yields_ret. split; [done|].
    destruct Hc as [A1 A2 A3 A4 A5 A6]. split; try done. cbn. by intros ? [= <-].
Qed.

(** *** Resolution with a memo of the imports *)

Lemma python_definitions_computes f n :
  yields (python_definitions references_in_file_range python_reference f n)
    (λ l, computes (python_definitions references_in_file_range python_reference f n) l).
Proof.
  unfold python_definitions. apply yields_query. intros rows Er.
  eapply yields_mono with (P := λ l, computes (for_each (bind_row python_reference n) rows []) l).
  - apply yields_for_each with (I := λ done l, computes (for_each (bind_row python_reference n) done []) l); [|apply computes_ret].
    intros a r b l _ Hl. unfold bind_row at 1. destruct (negb (bytes_eqb (to_name r) n)) eqn:En.
    + apply yields_ret. eapply computes_for_each_snoc; [done|]. unfold bind_row. rewrite En. apply computes_ret.
    + apply yields_query. intros bound Eb. apply yields_ret. eapply computes_for_each_snoc; [done|].
      unfold bind_row. rewrite En. eapply computes_bind; [by apply computes_query|apply computes_ret].
  - intros l Hl. eapply computes_bind; [by apply computes_query|done].
Qed.

Lemma candidates_for_computes f n :
  yields (candidates_for stopped find_symbols qualified_target f n)
    (λ r, computes (candidates_for never find_symbols qualified_target f n) r).
Proof.
  unfold candidates_for. apply yields_query. intros all Eall.
  destruct all as [|s0 all];
    [|apply yields_ret; eapply computes_bind; [by apply computes_query|apply computes_ret]].
  destruct (rsplit_once_sub (bs "::") n) as [[p tail]|];
    [|apply yields_ret; eapply computes_bind; [by apply computes_query|apply computes_ret]].
  destruct (ends_with (bs ".rs") f);
    [|apply yields_ret; eapply computes_bind; [by apply computes_query|apply computes_ret]].
  apply yields_query. intros tails Et. set (ambiguous := ambiguous_keys tails).
  eapply yields_bind with (P := λ l, computes (for_each (qualify_step never qualified_target f n ambiguous) tails []) l).
  - apply yields_for_each with (I := λ done l, computes (for_each (qualify_step never qualified_target f n ambiguous) done []) l);
      [|apply computes_ret].
    intros a s b l _ Hl. apply yields_check. case_bool_decide as Ha.
    + apply yields_ret. eapply computes_for_each_snoc; [done|]. apply computes_check. rewrite bool_decide_eq_true_2 by done. apply computes_ret.
    + apply yields_query. intros targets Eq. apply yields_ret. eapply computes_for_each_snoc; [done|].
      apply computes_check. rewrite bool_decide_eq_false_2 by done. eapply computes_bind; [by apply computes_query|apply computes_ret].
  - intros found Hfound. apply yields_ret. eapply computes_bind; [by apply computes_query|].
    eapply computes_bind; [by apply computes_query|]. eapply computes_bind; [done|apply computes_ret].
Qed.

Lemma choose_tier_computes m f n total candidates c :
  memo_sound c →
  yields (choose_tier is_alphanumeric m (imports_memo f) c f n total candidates) (λ r,
    computes (choose_tier is_alphanumeric m (imports_computed f) () f n total candidates) (r.1, ()) ∧ memo_sound r.2).
Proof.
  intros Hc. unfold choose_tier. set (exact := filter_symbols _ candidates). set (folded := filter_symbols _ candidates).
  destruct (is_qualified_symbol_name n && negb (bool_decide (exact = []))); [apply yields_ret; split; [apply computes_ret|done]|].
  destruct (is_qualified_symbol_name n && negb (bool_decide (folded = []))); [apply yields_ret; split; [apply computes_ret|done]|].
  destruct (total <=? 1); [apply yields_ret; split; [apply computes_ret|done]|].
  eapply yields_bind; [by apply imports_memo_ok|]. intros [refs c'] [Hr Hc']. apply yields_ret. split; [|done].
  eapply computes_bind; [done|apply computes_ret].
Qed.

Lemma resolve_with_computes m f n c :
  memo_sound c →
  yields (resolve_with stopped m (imports_memo f) c f n) (λ r,
    computes (resolve_with never m (imports_computed f) () f n) (r.1, ()) ∧ memo_sound r.2).
Proof.
  intros Hc. unfold resolve_callee_definitions_with_modules.
  eapply yields_bind with (P := λ e, computes (if ends_with (bs ".rs") f then query (external_definitions f n) else mret None) e).
  { destruct (ends_with (bs ".rs") f); [|apply yields_ret, computes_ret].
    unfold query. destruct (external_definitions f n); [apply yields_ret, computes_ret|by right]. }
  intros [resolved|] He.
  { apply yields_ret. split; [|done]. eapply computes_bind; [done|apply computes_ret]. }
  destruct (ImportPaths.is_python_path f) eqn:Ep.
  { eapply yields_bind; [apply python_definitions_computes|]. intros l Hl. apply yields_ret. split; [|done].
    eapply computes_bind; [done|]. cbn beta iota. eapply computes_bind; [done|apply computes_ret]. }
  eapply yields_bind; [apply candidates_for_computes|]. intros [all qualified] Hall. destruct qualified.
  { apply yields_ret. split; [|done]. eapply computes_bind; [done|]. cbn beta iota.
    eapply computes_bind; [done|apply computes_ret]. }
  eapply yields_mono; [by apply choose_tier_computes|]. intros [l c'] [Hl Hc']. split; [|done].
  eapply computes_bind; [done|]. cbn beta iota. eapply computes_bind; [done|exact Hl].
Qed.
(** *** Keys and edges *)

Lemma symbols_memo_ok f n c :
  memo_sound c →
  yields (symbols_memo c f n) (λ r, computes (keys_computed () f n) (map key_of r.1, ()) ∧ memo_sound r.2).
Proof.
  intros Hc. unfold resolve_symbols, resolved_definition_keys, modules_of.
  eapply yields_bind with (P := λ r, computes (modules_computed f) r.1 ∧ memo_sound r.2).
  { unfold modules_of. destruct (ends_with (bs ".rs") f); [|apply yields_ret; split; [apply computes_ret|done]].
    eapply yields_mono; [by apply modules_memo_ok|]. intros [m c'] [Hm Hc']. split; [by apply computes_query|done]. }
  intros [m c'] [Hm Hc']. cbn [fst snd] in *. eapply yields_mono; [by apply resolve_with_computes|].
  intros [l c2] [Hl Hc2]. split; [|done]. eapply computes_bind; [done|]. eapply computes_bind; [done|apply computes_ret].
Qed.

Lemma edge_resolve_memo_ok f n c :
  memo_sound c → yields (resolve_memo c f n) (λ r, computes (keys_computed () f n) (r.1, ()) ∧ memo_sound r.2).
Proof.
  intros Hc. apply yields_check. cbn beta zeta. destruct (resolutions c !! (f, n)) as [rows|] eqn:E.
  { apply yields_ret. split; [by apply (ms_resolutions _ Hc)|done]. }
  eapply yields_bind; [by apply symbols_memo_ok|]. intros [l c'] [Hl Hc']. cbn [fst snd] in *. apply yields_ret.
  split; [done|]. cbn [snd]. destruct (fits (resolution_bytes (f, n) (map key_of l)) c') eqn:Ef; [|done].
  apply fits_true in Ef as [F1 F2]. destruct Hc' as [A1 A2 A3 A4 A5 A6]. split; [done| |done|done| |]; cbn.
  - intros g n' rows. rewrite lookup_insert_Some. intros [[[= <- <-] <-]|[_ ?]]; [done|by apply A2].
  - unfold entry_count in *. cbn. pose proof (size_insert_le (resolutions c') (f, n) (map key_of l)). lia.
  - lia.
Qed.

Abbreviation scan_memo := (edge_step python_reference stopped resolve_memo).
Abbreviation scan_computed := (edge_step python_reference never keys_computed).

(** The scan with the memo follows the scan without it. *)
Definition follows (identity : SymbolKey) (seen : list Reference)
    (s : list Reference * gmap (bytes * bytes) (list SymbolKey) * EdgeCache) : Prop :=
  computes (for_each (scan_computed identity) seen ([], ∅, ())) (s.1.1, s.1.2, ()) ∧ memo_sound s.2.

Lemma scan_step_ok identity seen r s : follows identity seen s → yields (scan_memo identity s r) (follows identity (seen ++ [r])).
Proof.
  destruct s as [[out cache] c]. intros [Hs Hc]. cbn [fst snd] in *. unfold follows.
  assert (Hnext : ∀ out' cache', computes (scan_computed identity (out, cache, ()) r) (out', cache', ()) →
    computes (for_each (scan_computed identity) (seen ++ [r]) ([], ∅, ())) (out', cache', ()))
    by (intros ? ? ?; by eapply computes_for_each_snoc).
  apply yields_check, yields_query. intros bound Eb. destruct bound as [resolved|].
  { apply yields_ret. split; [|done]. apply Hnext, computes_check. eapply computes_bind; [by apply computes_query|apply computes_ret]. }
  destruct (is_package_import (ref_kind r) (from_file r) (to_name r)) eqn:Ep.
  { apply yields_ret. split; [|done]. apply Hnext, computes_check. eapply computes_bind; [by apply computes_query|].
    cbn beta iota. rewrite Ep. apply computes_ret. }
  set (key := (from_file r, to_name r)).
  eapply yields_bind with (P := λ p, memo_sound p.2 ∧ is_Some (p.1 !! key)
    ∧ computes (match cache !! key with
                | Some _ => mret (cache, ())
                | None => '(resolved, u) ← keys_computed () (from_file r) (to_name r); mret (<[key := resolved]> cache, u)
                end) (p.1, ())).
  { destruct (cache !! key) as [l|] eqn:El; [apply yields_ret; split; [done|]; split; [by exists l|apply computes_ret]|].
    eapply yields_bind; [by apply edge_resolve_memo_ok|]. intros [l c'] [Hl Hc']. apply yields_ret. split; [done|].
    cbn [fst snd] in *. split; [exists l; apply lookup_insert_eq|]. eapply computes_bind; [done|apply computes_ret]. }
  intros [cache' c'] (Hc' & [l Hl] & Hcache). cbn [fst snd] in *. rewrite Hl. apply yields_ret. split; [|done].
  apply Hnext, computes_check. eapply computes_bind; [by apply computes_query|]. cbn beta iota. rewrite Ep.
  eapply computes_bind; [done|]. cbn beta iota. change (from_file r, to_name r) with key. rewrite Hl. apply computes_ret.
Qed.

Lemma scan_ok sym raw c :
  memo_sound c →
  yields (resolve_references_to_symbol python_reference stopped resolve_memo sym raw c) (λ r,
    computes (resolve_references_to_symbol python_reference never keys_computed sym raw ()) (r.1, ()) ∧ memo_sound r.2).
Proof.
  intros Hc. unfold resolve_references_to_symbol. eapply yields_bind.
  { apply yields_for_each with (I := follows (key_of sym)); [intros; by apply scan_step_ok|]. split; [apply computes_ret|done]. }
  intros [[out cache] c'] [H Hc']. apply yields_ret. split; [|done]. eapply computes_bind; [done|apply computes_ret].
Qed.

Lemma references_same s s' : indexed s → indexed s' → key_of s = key_of s' → references_computed s = references_computed s'.
Proof using Hname.
  intros H H' E. unfold references_for_symbol, resolve_references_to_symbol. by rewrite (Hname _ _ H H' E), E.
Qed.

(** C27. The memo of reverse edges refines their computation: whatever it retained
    before, in whatever order, [references] gives the rows that
    [references_for_symbol] computes afresh, and leaves a memo that is
    right for every later lookup and within its limits on entries and bytes. *)
Theorem reverse_edges_refine c sym :
  memo_sound c → indexed sym →
  yields (references_memo c sym) (λ r, computes (references_computed sym) (r.1, ()) ∧ memo_sound r.2).
Proof using Hname.
  intros Hc Hsym. apply yields_check. cbn beta zeta. destruct (edges c !! key_of sym) as [rows|] eqn:E.
  { apply yields_ret. split; [by apply (ms_edges _ Hc)|done]. }
  apply yields_query. intros raw Eraw. eapply yields_bind; [by apply scan_ok|]. intros [rows c'] [Hrows Hc'].
  cbn [fst snd] in *.
  assert (computes (references_computed sym) (rows, ())) as Hcomp by (eapply computes_bind; [by apply computes_query|done]).
  apply yields_ret. split; [done|]. cbn [snd]. destruct (fits (edges_bytes (key_of sym) rows) c') eqn:Ef; [|done].
  apply fits_true in Ef as [F1 F2]. destruct Hc' as [A1 A2 A3 A4 A5 A6]. split; [|done..| |]; cbn.
  - intros s rows'. rewrite lookup_insert_Some. intros [[Ek <-]|[_ ?]] Hs; [by rewrite (references_same s sym)|by apply A1].
  - unfold entry_count in *. cbn. pose proof (size_insert_le (edges c') (key_of sym) rows). lia.
  - lia.
Qed.
End memo.

(** ** A small index *)

Definition demo_rows (name : bytes) : option (list Reference) :=
  Some [mkRef (bs "b.c") None (bs "f") RCall 3; mkRef (bs "d.c") None (bs "f") RCall 4; mkRef (bs "b.c") None (bs "f") RCall 9].
Definition demo_outgoing (f : bytes) : option (option (list (bytes * ReferenceKind))) :=
  Some (Some (if bytes_eqb f (bs "d.c") then [(bs "./b.c", RInclude)] else [])).
Definition no_memo : EdgeCache := mkEdgeCache ∅ ∅ ∅ 0 0 None.

Abbreviation demo_references c sym :=
  (references (λ _, true) demo_rows demo_symbols (λ _ _, Some None) (λ _ _ _, Some false) (λ _, Some []) (λ _, Some None)
    demo_outgoing (Some no_modules) (λ _, false) (λ _ rows, N.of_nat (length rows)) (λ _ rows, N.of_nat (length rows))
    (λ _ l, N.of_nat (length l)) c sym).

Definition callers_found (r : fault + list Reference * EdgeCache * nat) : option (list (bytes * N) * nat * nat) :=
  match r with
  | inr (rows, c, _) => Some (map (λ r, (from_file r, ref_line r)) rows, entry_count c, size (resolutions c))
  | inl _ => None
  end.

(** The second lookup, of another homonym, reuses the resolutions. *)
Example demo_reverse :
  callers_found (demo_references no_memo (demo_symbol (bs "b.c")) 0)
    = Some ([(bs "b.c", 3); (bs "d.c", 4); (bs "b.c", 9)]%N, 5, 2)
  ∧ match demo_references no_memo (demo_symbol (bs "b.c")) 0 with
    | inr (_, c, _) => callers_found (demo_references c (demo_symbol (bs "a.c")) 0) = Some ([], 6, 2)
    | inl _ => False
    end.
Proof. split; vm_compute; reflexivity. Qed.

Lemma reverse_edges_refine_witness :
  yields (demo_references no_memo (demo_symbol (bs "b.c"))) (λ r,
    computes (references_for_symbol (λ _, true) demo_rows demo_symbols (λ _ _, Some None) (λ _ _ _, Some false) (λ _, Some [])
      (λ _, Some None) demo_outgoing (Some no_modules) never (demo_symbol (bs "b.c"))) (r.1, ())
    ∧ memo_sound (λ _, true) demo_rows demo_symbols (λ _ _, Some None) (λ _ _ _, Some false) (λ _, Some [])
        (λ _, Some None) demo_outgoing (Some no_modules) (λ s, ∃ f, s = demo_symbol f) r.2).
Proof.
  apply reverse_edges_refine.
  - by intros s s' [f ->] [f' ->] _.
  - split; [by intros s rows H; apply (lookup_empty_Some (key_of s) rows) in H|by intros f n rows H; apply (lookup_empty_Some (f, n) rows) in H
            |by intros f l H; apply (lookup_empty_Some f l) in H|done| |done].
    apply Nat.leb_le. vm_compute. reflexivity.
  - by eexists.
Defined.
