(* ===== verification/Resolver.v ===== *)
(** * Resolver: what a target string names

    Models [src/crates/graph/src/resolver.rs]: the grammar of targets in its fixed
    order, the definitions behind a symbol, the leads offered when nothing matches, and
    the kind of a file path ([FileCategory::classify], protocol/src/lib.rs).  The
    refusals are in Target.

    The queries of the database may fail ([None]); [resolve_callee_definitions] is that
    of bundle.rs, which Resolution models. *)
From stdpp Require Import gmap sorting.
From S2P Require Import Prelude Text Unicode Order Checked Handle Target CallPath Resolution.
From Stdlib Require Import Lia NArith.
Local Open Scope byte_scope.
Local Open Scope codesage_scope.

(** ** Paths that are tests *)

Inductive FileCategory := Source | Test | Config.

Section category.
Context {U : Unicode}.

Definition has_dir (lower : bytes) (seg : string) : bool :=
  contains ("/" :: bs seg ++ ["/"]) lower || starts_with (bs seg ++ ["/"]) lower.

Definition any_suffix (s : bytes) (suffixes : list string) : bool := existsb (λ x, ends_with (bs x) s) suffixes.

Definition classify (path : bytes) : FileCategory :=
  let lower_owned := to_lowercase path in
  let lower := default lower_owned (strip_prefix (bs "./") lower_owned) in
  if existsb (has_dir lower) ["test"; "tests"; "__tests__"; "spec"]%string
     || any_suffix lower [".test.ts"; ".test.tsx"; ".test.js"; ".test.jsx"; ".spec.ts"; ".spec.tsx"; ".spec.js"; ".spec.jsx"]%string
     || any_suffix path ["Test.php"; "Test.java"; "Tests.java"]%string
     || any_suffix lower ["_test.py"; "_test.go"; ".phpt"]%string
  then Test
  else
    let basename := match rsplit_once "/" lower with Some (_, name) => name | None => lower end in
    if starts_with (bs "test_") basename then Test
    else if any_suffix basename [".toml"; ".yaml"; ".yml"; ".json"; ".ini"; ".env"; ".conf"]%string then Config
    else Source.

Definition is_test_path (path : bytes) : bool := match classify path with Test => true | _ => false end.
End category.

(** ** Options *)

Record ResolveOptions := mkOptions {
  kind_hint : option TargetKind;
  from_file : option bytes;
  include_modules : bool;
  opt_kind : option SymbolKind;
  opt_limit : nat;
  nearest : bool }.

Definition DEFAULT_CANDIDATE_LIMIT : nat := 10.
Definition MAX_NEAREST : nat := 10.

Definition default_options : ResolveOptions := mkOptions None None false None DEFAULT_CANDIDATE_LIMIT true.
Definition symbol_options : ResolveOptions := mkOptions (Some KSymbol) None false None DEFAULT_CANDIDATE_LIMIT true.
Definition file_options : ResolveOptions := mkOptions (Some KFile) None false None DEFAULT_CANDIDATE_LIMIT true.

Definition allows_paths (o : ResolveOptions) : bool :=
  match kind_hint o with None | Some (KFile | KDir | KChunk) => true | _ => false end.
Definition allows_symbols (o : ResolveOptions) : bool :=
  match kind_hint o with None | Some KSymbol => true | _ => false end.
Definition allows_features (o : ResolveOptions) : bool :=
  match kind_hint o with None | Some (KFeature | KRoute | KCommand) => true | _ => false end.

(** ** Definitions *)

Definition is_module_declaration (s : Symbol) : bool :=
  match sy_kind s with KModule | KNamespace => (line_start s =? line_end s)%N | _ => false end.

Definition retain_definitions (include_modules : bool) (l : list Symbol) : list Symbol :=
  if include_modules then l else List.filter (λ s, negb (is_module_declaration s)) l.

Definition retain_kind (o : ResolveOptions) (l : list Symbol) : list Symbol :=
  match opt_kind o with Some k => List.filter (λ s, bool_decide (sy_kind s = k)) l | None => l end.

Definition retain (o : ResolveOptions) (l : list Symbol) : list Symbol :=
  retain_kind o (retain_definitions (include_modules o) l).

Definition names (s : Symbol) (qualified : bytes) : bool :=
  bytes_eqb (qualified_name s) qualified || bytes_eqb (qualified_name s) [] && bytes_eqb (sy_name s) qualified.

Definition identity (s : Symbol) : bytes * bytes * N := (file_path s, qualified_name s, line_start s).

Definition definition_cmp (a b : Symbol) : comparison :=
  then_with (then_with (bytes_cmp (file_path a) (file_path b)) (N.compare (line_start a) (line_start b)))
    (bytes_cmp (qualified_name a) (qualified_name b)).

Definition sort_definitions (l : list Symbol) : list Symbol := sort_by definition_cmp l.

Definition kind_str (k : SymbolKind) : bytes :=
  bs match k with
     | KFunction => "function" | KMethod => "method" | KClass => "class" | KTrait => "trait" | KInterface => "interface"
     | KStruct => "struct" | KEnum => "enum" | KConstant => "constant" | KMacro => "macro" | KModule => "module"
     | KNamespace => "namespace"
     end.

(** ** Features *)

Inductive FeatureKind := CliCommand | Route | Service | Library | TestSuite | FConfig | Job | Unknown.

#[export] Instance feature_kind_eq_decision : EqDecision FeatureKind.
Proof. solve_decision. Defined.

(** The fields of [FeatureRecord] a target is matched against. *)
Record Feature := mkFeature {
  feature_id : bytes;
  feature_kind : FeatureKind;
  entry_path : bytes;
  entry_route : option bytes;
  entry_command : option bytes }.

(** ** Candidates *)

Definition candidate_of (s : Symbol) (v : ResolveVia) : ResolvedTarget :=
  mkTarget (to_string (symbol_handle s)) (kind_str (sy_kind s)) (Some (file_path s)) (Some (line_start s)) (Some (line_end s))
    (sy_is_test s) (confidence_of v) v.

Definition candidates (l : list Symbol) (v : ResolveVia) (limit : nat) : list ResolvedTarget :=
  map (λ s, candidate_of s v) (take limit l).

Definition file_candidate {U : Unicode} (path : bytes) (v : ResolveVia) : ResolvedTarget :=
  mkTarget (from_option to_string [] (Handle.file path)) (bs "file") (Some path) None None (is_test_path path) (confidence_of v) v.

Definition feature_candidate (id entry_path : bytes) (v : ResolveVia) : ResolvedTarget :=
  mkTarget id (bs "feature") (Some entry_path) None None false (confidence_of v) v.

Definition dir_candidate (path : bytes) : ResolvedTarget :=
  mkTarget (to_string (HDir path)) (bs "dir") (Some path) None None false (confidence_of Exact) Exact.

Definition chunk_candidate {U : Unicode} (path : bytes) (start e : N) : ResolvedTarget :=
  mkTarget (to_string (Handle.chunk path start e)) (bs "chunk") (Some path) (Some start) (Some e) (is_test_path path)
    (confidence_of Exact) Exact.

Definition one (input : bytes) (kind : TargetKind) (c : ResolvedTarget) : TargetResolution := new_resolution input kind [c] 1 0.

Definition none (input : bytes) (kind : TargetKind) : TargetResolution := new_resolution input kind [] 0 0.

Definition count_overloads (l : list Symbol) : N := N.of_nat (length (List.filter overloaded l)).

Definition symbol_resolution (input : bytes) (l : list Symbol) (v : ResolveVia) (limit : nat) (overloads : N) : TargetResolution :=
  new_resolution input KSymbol (candidates l v limit) (N.of_nat (length l)) overloads.

Definition with_input (input : bytes) (r : TargetResolution) : TargetResolution :=
  mkResolution input (Target.kind r) (resolved r) (ambiguous r) (candidates_total r) (overloads r).

(** ** Spellings *)

(** Each round of [while let Some(..)] drops two bytes. *)
Fixpoint strip_current_dir_loop (fuel : nat) (rest : bytes) : bytes :=
  match fuel with
  | 0 => rest
  | S fuel => match strip_prefix (bs "./") rest with Some stripped => strip_current_dir_loop fuel stripped | None => rest end
  end.

Definition strip_current_dir (input : bytes) : bytes := strip_current_dir_loop (length input) input.

Definition split_path_line (input : bytes) : option (bytes * N) :=
  '(path, digits) ← rsplit_once ":" input;
  if bytes_eqb path [] || bytes_eqb digits [] || negb (forallb is_ascii_digit digits) then None
  else line ← parse_u32 digits; Some (path, line).

Definition to_ascii_uppercase (b : byte) : byte := 
  if byte_in_range "a" "z" b then default b (Byte.of_N (Byte.to_N b - 32)) else b.

Definition case_variants (input : bytes) : list bytes :=
  let lower := map to_ascii_lowercase input in
  let upper := map to_ascii_uppercase input in
  let capitalized := match lower with b :: rest => to_ascii_uppercase b :: rest | [] => [] end in
  fold_left (λ out v, if bytes_eqb v input || contains_word out v then out else out ++ [v]) [lower; upper; capitalized] [].

Definition last_segment (name : bytes) : option bytes :=
  let cuts := omap (λ sep, pos ← rfind_sub sep name; Some (pos + length sep)) (map bs ["::"; "\"; "."; "/"]%string) in
  match cuts with
  | [] => None
  | c :: cs =>
      let tail := drop (fold_left Nat.max cs c) name in
      if bytes_eqb tail [] || bytes_eqb tail name then None else Some tail
  end.

Definition path_suffix_matches (indexed input : bytes) (fold : bool) : bool :=
  let lower := if fold then map to_ascii_lowercase else id in
  let indexed := lower indexed in
  let input := lower input in
  bytes_eqb indexed input
  || match strip_suffix input indexed with Some head => ends_with (bs "/") head | None => false end.

(** [max_by_key]: the last of the greatest. *)
Definition max_by_line (l : list Symbol) : option Symbol :=
  fold_left (λ best s, match best with
    | Some m => if (line_start m <=? line_start s)%N then Some s else best
    | None => Some s
    end) l None.

(** ** Resolution *)

(** The queries; outer [None] is a failure. *)
Class Database := {
  file_id_for_path : bytes → option (option Z);
  symbols_for_file : bytes → option (list Symbol);
  find_symbols : bytes → option (list Symbol);
  indexed_files_with_prefix : bytes → option (list bytes);
  load_feature : bytes → option (option Feature);
  list_features : FeatureKind → option (list Feature);
  all_file_paths : option (list bytes);
  resolve_callee_definitions : bytes → bytes → T (list Symbol) }.

(** The next arm, when this one has no answer. *)
Definition or_else {A} (m k : T (option A)) : T (option A) :=
  r ← m; match r with Some a => mret (Some a) | None => k end.

(** [cond && ..]. *)
Definition on {A} (cond : bool) (m : T (option A)) : T (option A) := if cond then m else mret None.

Section resolver.
Context {U : Unicode} {D : Database}.

Abbreviation Answer := (TargetResolution * list Symbol)%type.

Definition indexed (path : bytes) : T bool := id ← query (file_id_for_path path); mret (bool_decide (is_Some id)).

(** ** Leads *)

Definition seen_step (v : ResolveVia) (acc : gset (bytes * bytes * N) * list (Symbol * ResolveVia)) (s : Symbol)
    : gset (bytes * bytes * N) * list (Symbol * ResolveVia) :=
  let '(seen, found) := acc in
  if decide (identity s ∈ seen) then acc else ({[identity s]} ∪ seen, found ++ [(s, v)]).

Definition lead_step (o : ResolveOptions) (v : ResolveVia) (acc : gset (bytes * bytes * N) * list (Symbol * ResolveVia))
    (name : bytes) : T (gset (bytes * bytes * N) * list (Symbol * ResolveVia)) :=
  symbols ← query (find_symbols name);
  mret (foldl (seen_step v) acc (retain o symbols)).

Definition lead_cmp (a b : Symbol * ResolveVia) : comparison :=
  then_with (bytes_cmp (file_path a.1) (file_path b.1)) (N.compare (line_start a.1) (line_start b.1)).

Definition nearest_symbols (input : bytes) (o : ResolveOptions) : T (option Answer) :=
  acc ← for_each (lead_step o Casefold) (case_variants input) (∅, []);
  acc ← (match acc.2, last_segment input with
         | [], Some tail => lead_step o Suffix acc tail
         | _, _ => mret acc
         end);
  match acc.2 with
  | [] => mret None
  | _ =>
      let found := sort_by lead_cmp acc.2 in
      let resolved := map (λ p, candidate_of p.1 p.2) (take (opt_limit o `min` MAX_NEAREST) found) in
      mret (Some (new_resolution input KSymbol resolved (N.of_nat (length found)) 0, map fst found))
  end.

Definition nearest_paths (input : bytes) (o : ResolveOptions) : T (option TargetResolution) :=
  if negb (has_byte "/" input) && negb (has_byte "." input) then mret None
  else
    paths ← query all_file_paths;
    let suffix := List.filter (λ p, path_suffix_matches p input false) paths in
    let '(matched, v) := match suffix with
      | [] => (List.filter (λ p, path_suffix_matches p input true) paths, Casefold)
      | _ => (suffix, Suffix)
      end in
    match matched with
    | [] => mret None
    | _ =>
        let resolved := map (λ p, file_candidate p v) (take (opt_limit o `min` MAX_NEAREST) matched) in
        mret (Some (new_resolution input KFile resolved (N.of_nat (length matched)) 0))
    end.

Definition moved_definition (input qualified : bytes) (o : ResolveOptions) : T (option Answer) :=
  symbols ← query (find_symbols qualified);
  match retain o symbols with
  | [] =>
      r ← nearest_symbols qualified o;
      mret (option_map (λ a : Answer, (with_input input a.1, a.2)) r)
  | _ =>
      let symbols := sort_definitions (retain o symbols) in
      mret (Some (symbol_resolution input symbols Suffix (opt_limit o) 0, symbols))
  end.

(** ** Handles *)

Definition resolve_symbol_handle (input path qualified : bytes) (line : option N) (o : ResolveOptions) : T Answer :=
  symbols ← query (symbols_for_file path);
  let symbols := List.filter (λ s, names s qualified && match line with Some l => (line_start s =? l)%N | None => true end) symbols in
  let symbols := sort_definitions (retain_kind o symbols) in
  moved ← on (bool_decide (symbols = []) && nearest o) (moved_definition input qualified o);
  match moved with
  | Some answer => mret answer
  | None => mret (symbol_resolution input symbols Exact (opt_limit o) (count_overloads symbols), symbols)
  end.

Definition resolve_handle (input : bytes) (h : Handle) (o : ResolveOptions) : T Answer :=
  match h with
  | HSymbol path qualified line => resolve_symbol_handle input path qualified line o
  | HFile path =>
      found ← indexed path;
      mret (if found : bool then one input KFile (file_candidate path Exact) else none input KFile, [])
  | HDir path =>
      let prefix := trim_end_matches (bs "/") path ++ ["/"%byte] in
      files ← query (indexed_files_with_prefix prefix);
      mret (if existsb (starts_with prefix) files then one input KDir (dir_candidate path) else none input KDir, [])
  | HChunk path start e =>
      found ← indexed path;
      mret (if found : bool then one input KChunk (chunk_candidate path start e) else none input KChunk, [])
  | HFeature id =>
      f ← query (load_feature id);
      mret (match f with
            | Some f => one input KFeature (feature_candidate (feature_id f) (entry_path f) Exact)
            | None => none input KFeature
            end, [])
  end.

(** ** The other arms *)

Definition resolve_feature_entry (input entry : bytes) (kind : TargetKind) (o : ResolveOptions) : T TargetResolution :=
  let is_route := match kind with KRoute => true | _ => false end in
  features ← query (list_features (if is_route then Route else CliCommand));
  let matches := List.filter (λ f, match (if is_route then entry_route f else entry_command f) with
    | Some stored => eq_ignore_ascii_case stored entry
    | None => false
    end) features in
  let resolved := map (λ f, feature_candidate (feature_id f) (entry_path f) Exact) (take (opt_limit o) matches) in
  mret (new_resolution input kind resolved (N.of_nat (length matches)) 0).

Definition set_lines (line : N) (c : ResolvedTarget) : ResolvedTarget :=
  mkTarget (handle c) (target_kind c) (target_path c) (Some line) (Some line) (is_test c) (confidence c) (via c).

Definition resolve_path_line (input path : bytes) (line : N) (o : ResolveOptions) : T Answer :=
  symbols ← query (symbols_for_file path);
  match max_by_line (List.filter (λ s, (line_start s <=? line)%N && (line <=? line_end s)%N) (retain o symbols)) with
  | Some s => mret (symbol_resolution input [s] Exact (opt_limit o) (if overloaded s then 1 else 0), [s])
  | None => mret (one input KFile (set_lines line (file_candidate path Exact)), [])
  end.

Definition narrow_by_imports (from_file name : bytes) (symbols : list Symbol) : T (option Symbol) :=
  narrowed ← resolve_callee_definitions from_file name;
  mret (match narrowed with
        | [only] => if existsb (λ s, bool_decide (identity s = identity only)) symbols then Some only else None
        | _ => None
        end).

Definition resolve_symbol_name (input : bytes) (o : ResolveOptions) : T (option Answer) :=
  symbols ← query (find_symbols input);
  match retain o symbols with
  | [] => mret None
  | _ =>
      let symbols := sort_definitions (retain o symbols) in
      let v := if is_qualified_symbol_name input then Qualified else Unique in
      narrowed ← (match from_file o with
                  | Some f => on (1 <? length symbols) (narrow_by_imports f input symbols)
                  | None => mret None
                  end);
      mret (Some (match narrowed with
        | Some s => (one input KSymbol (candidate_of s Import), [s])
        | None => (symbol_resolution input symbols v (opt_limit o) (count_overloads symbols), symbols)
        end))
  end.

(** An indexed path, or a line of one. *)
Definition resolve_path (input path_input : bytes) (o : ResolveOptions) : T (option Answer) :=
  exact ← indexed path_input;
  if exact : bool then mret (Some (one input KFile (file_candidate path_input Exact), []))
  else
    match split_path_line path_input with
    | None => mret None
    | Some (path, line) =>
        found ← indexed path;
        if found : bool then answer ← resolve_path_line input path line o; mret (Some answer) else mret None
    end.

Definition resolve_feature_id (input : bytes) : T (option Answer) :=
  f ← query (load_feature input);
  mret (option_map (λ f, (one input KFeature (feature_candidate (feature_id f) (entry_path f) Exact), [])) f).

(** [route:] and [cmd:]. *)
Definition entry_of (trimmed : bytes) : option (TargetKind * bytes) :=
  match strip_prefix (bs "route:") trimmed with
  | Some route => Some (KRoute, trim route)
  | None => command ← strip_prefix (bs "cmd:") trimmed; Some (KCommand, trim command)
  end.

Definition resolve_entry (trimmed : bytes) (o : ResolveOptions) : T (option Answer) :=
  match entry_of trimmed with
  | Some (kind, entry) => r ← resolve_feature_entry trimmed entry kind o; mret (Some (r, []))
  | None => mret None
  end.

Definition resolve_symbols (input : bytes) (o : ResolveOptions) : T Answer :=
  let trimmed := trim input in
  if bytes_eqb trimmed [] then mret (Target.text trimmed, [])
  else match Handle.parse trimmed with
  | Some h => resolve_handle trimmed h o
  | None =>
      let path_input := strip_current_dir trimmed in
      answer ← or_else (on (allows_features o) (resolve_entry trimmed o))
        (or_else (on (allows_paths o) (resolve_path trimmed path_input o))
        (or_else (on (allows_symbols o) (resolve_symbol_name trimmed o))
        (or_else (on (allows_features o) (resolve_feature_id trimmed))
        (or_else (on (nearest o && allows_symbols o) (nearest_symbols trimmed o))
          (on (nearest o && allows_paths o)
            (r ← nearest_paths path_input o; mret (option_map (λ r, (with_input trimmed r, [])) r)))))));
      mret (default (Target.text trimmed, []) answer)
  end.

Definition resolve_target (input : bytes) (o : ResolveOptions) : T TargetResolution :=
  answer ← resolve_symbols input o; mret answer.1.
End resolver.
