(* ===== verification/ResolverProofs.v ===== *)
(** * ResolverProofs: what a resolution names

    The store behind the queries of Resolver, and what each arm of the grammar
    promises over it. *)
From stdpp Require Import gmap sorting.
From S2P Require Import Prelude Text Unicode Order Checked Handle Target CallPath Resolution Resolver.
From Stdlib Require Import Lia NArith.
Local Open Scope byte_scope.
Local Open Scope codesage_scope.

(** ** The store *)

(** The indexed paths, the stored definitions (whose overload mark is not stored) and
    the mapped features. *)
Record Store := { files : list bytes; rows : list Symbol; features : list Feature }.

(** [find_symbols] looks in the qualified or in the short name. *)
Definition named_as (n : bytes) (s : Symbol) : bool :=
  bytes_eqb (if is_qualified_symbol_name n then qualified_name s else sy_name s) n.

Definition in_file (p : bytes) (s : Symbol) : bool := bytes_eqb (file_path s) p.

(** The definitions that share the file and qualified name of [s]. *)
Definition mates (l : list Symbol) (s : Symbol) : list Symbol := filter (λ t, overload_key t = overload_key s) l.

Definition mark_in (l : list Symbol) (s : Symbol) : Symbol := set_overloaded s (1 <? length (mates l s)).

(** A stored definition, marked among all of the store. *)
Definition marked (st : Store) (s : Symbol) : Prop := ∃ row, row ∈ rows st ∧ s = mark_in (rows st) row.

(** What the queries promise of the store: the rows selected, in some order, with their
    overloads marked among the rows selected. *)
Class Reads {D : Database} (st : Store) : Prop := {
  reads_file p o : file_id_for_path p = Some o → is_Some o ↔ p ∈ files st;
  reads_in_file p l : symbols_for_file p = Some l → l ≡ₚ mark_overloads (List.filter (in_file p) (rows st));
  reads_named n l : find_symbols n = Some l → l ≡ₚ mark_overloads (List.filter (named_as n) (rows st));
  reads_prefix p l f : indexed_files_with_prefix p = Some l → starts_with p f = true → f ∈ l ↔ f ∈ files st;
  reads_paths l : all_file_paths = Some l → l ≡ₚ files st;
  reads_feature id f : load_feature id = Some (Some f) → f ∈ features st ∧ feature_id f = id;
  reads_no_feature id f : load_feature id = Some None → f ∈ features st → feature_id f ≠ id;
  reads_features k l : list_features k = Some l → l ≡ₚ List.filter (λ f, bool_decide (feature_kind f = k)) (features st);
  reads_callee f n t l t' s : resolve_callee_definitions f n t = inr (l, t') → s ∈ l → marked st s;
  reads_callee_fault f n t e : resolve_callee_definitions f n t = inl e → e = Cancelled ∨ e = QueryFailed }.

(** What indexing promises of the store: paths are repository-relative, definitions have a
    qualified name, those that share file and qualified name share the short name, no two
    of them start on one line, and features have distinct ids that read as handles. *)
Record store_ok (st : Store) : Prop := {
  ok_file p : p ∈ files st → valid_path p = true;
  ok_path s : s ∈ rows st → file_path s ∈ files st;
  ok_name s : s ∈ rows st → qualified_name s ≠ [];
  ok_line s : s ∈ rows st → (line_start s < u32_bound)%N;
  ok_mates s t : s ∈ rows st → t ∈ rows st → overload_key s = overload_key t → sy_name s = sy_name t;
  ok_distinct : NoDup (map identity (rows st));
  ok_feature f : f ∈ features st → well_formed (HFeature (feature_id f));
  ok_features f g : f ∈ features st → g ∈ features st → feature_id f = feature_id g → f = g }.

(** ** Marks *)

Lemma overload_key_set s b : overload_key (set_overloaded s b) = overload_key s.
Proof. done. Qed.

Lemma identity_set s b : identity (set_overloaded s b) = identity s.
Proof. done. Qed.

Lemma mark_overloads_map l : mark_overloads l = map (mark_in l) l.
Proof.
  apply list_eq. intros i. rewrite list_lookup_fmap. destruct (mark_overloads l !! i) as [s'|] eqn:E.
  - apply mark_overloads_lookup in E as (s & -> & ->). done.
  - unfold mark_overloads in E. cbv zeta in E. rewrite lookup_zip_with, list_lookup_fmap in E. by destruct (l !! i).
Qed.

Lemma elem_of_bool_filter {A} (f : A → bool) l x : x ∈ List.filter f l ↔ x ∈ l ∧ f x = true.
Proof. by rewrite list_elem_of_In, filter_In, <- list_elem_of_In. Qed.

(** Marking among the selected rows is marking among all, when the selection keeps mates
    together. *)
Lemma mates_filter f l s :
  (∀ t, t ∈ l → overload_key t = overload_key s → f t = true) → mates (List.filter f l) s = mates l s.
Proof.
  unfold mates. induction l as [|x l IH]; intros Hf; cbn [List.filter]; [done|].
  assert (∀ t, t ∈ l → overload_key t = overload_key s → f t = true) as Hl by (intros; apply Hf; [by right|done]).
  specialize (IH Hl). rewrite filter_cons. destruct (decide (overload_key x = overload_key s)) as [E|E].
  - rewrite (Hf x) by (by left || done). rewrite filter_cons, decide_True by done. by rewrite IH.
  - destruct (f x); [rewrite filter_cons, decide_False by done|]; done.
Qed.

Section marks.
Context (st : Store) (Hok : store_ok st).

Lemma marked_of_filter f l s :
  (∀ s t, s ∈ rows st → t ∈ rows st → overload_key s = overload_key t → f s = true → f t = true) →
  l ≡ₚ mark_overloads (List.filter f (rows st)) →
  s ∈ l ↔ ∃ row, row ∈ rows st ∧ f row = true ∧ s = mark_in (rows st) row.
Proof.
  intros Hf ->. rewrite mark_overloads_map. change (@map ?A ?B) with (@fmap list _ A B). rewrite list_elem_of_fmap.
  assert (∀ row, row ∈ rows st → f row = true → mark_in (List.filter f (rows st)) row = mark_in (rows st) row) as Hm.
  { intros row Hr Hfr. unfold mark_in. rewrite mates_filter; [done|]. intros t Ht Hk. by apply (Hf row t). }
  split.
  - intros (row & -> & [Hr Hfr]%elem_of_bool_filter). exists row. split_and!; [done|done|by apply Hm].
  - intros (row & Hr & Hfr & ->). exists row. split; [by rewrite Hm|by apply elem_of_bool_filter].
Qed.

Lemma named_as_mates n s t :
  s ∈ rows st → t ∈ rows st → overload_key s = overload_key t → named_as n s = true → named_as n t = true.
Proof using Hok.
  intros Hs Ht Hk. unfold named_as. destruct (is_qualified_symbol_name n).
  - unfold overload_key in Hk. injection Hk as _ ->. done.
  - by rewrite (ok_mates _ Hok s t Hs Ht Hk).
Qed.

Lemma in_file_mates p s t :
  s ∈ rows st → t ∈ rows st → overload_key s = overload_key t → in_file p s = true → in_file p t = true.
Proof. intros _ _ Hk. unfold in_file, overload_key in *. injection Hk as -> _. done. Qed.

(** A marked definition is determined by its identity. *)
Lemma marked_identity s t : marked st s → marked st t → identity s = identity t → s = t.
Proof using Hok.
  intros (a & Ha & ->) (b & Hb & ->) Hi. change (identity a = identity b) in Hi.
  apply list_elem_of_lookup in Ha as [i Ha], Hb as [j Hb].
  assert (i = j) as ->.
  { apply (NoDup_lookup (map identity (rows st)) i j (identity a)); [apply Hok| |];
      change (@map ?A ?B) with (@fmap list _ A B); rewrite list_lookup_fmap.
    - by rewrite Ha.
    - by rewrite Hb, Hi. }
  congruence.
Qed.
End marks.

(** ** What an answer promises *)

(** A candidate stands for an entity of the store. *)
Definition denotes {U : Unicode} (st : Store) (c : ResolvedTarget) : Prop :=
  (∃ s v, marked st s ∧ c = candidate_of s v)
  ∨ (∃ p v, p ∈ files st ∧ (c = file_candidate p v ∨ ∃ line, c = set_lines line (file_candidate p v)))
  ∨ (∃ p f, c = dir_candidate p ∧ valid_path p = true ∧ f ∈ files st ∧ starts_with (trim_end_matches (bs "/") p ++ ["/"%byte]) f = true)
  ∨ (∃ p a b, c = chunk_candidate p a b ∧ p ∈ files st ∧ (a <= b < u32_bound)%N)
  ∨ (∃ f v, f ∈ features st ∧ c = feature_candidate (feature_id f) (entry_path f) v).

Definition sure (c : ResolvedTarget) : Prop := confident c = true.
Definition lead (c : ResolvedTarget) : Prop := confident c = false.

Record sound {U : Unicode} (st : Store) (o : ResolveOptions) (a : TargetResolution * list Symbol) : Prop := {
  sd_denotes : Forall (denotes st) (resolved a.1);
  sd_marked : Forall (marked st) a.2;
  sd_symbols : match Target.kind a.1 with
               | KSymbol => Forall2 (λ c s, ∃ v, c = candidate_of s v) (resolved a.1) (take (length (resolved a.1)) a.2)
                            ∧ candidates_total a.1 = N.of_nat (length a.2)
               | _ => a.2 = []
               end;
  sd_flag : ambiguous a.1 = (1 <? candidates_total a.1)%N;
  sd_total : (N.of_nat (length (resolved a.1)) <= candidates_total a.1)%N;
  sd_shown : 0 < opt_limit o → (0 < candidates_total a.1)%N → resolved a.1 ≠ [];
  sd_sure : Forall sure (resolved a.1) ∨ nearest o = true ∧ Forall lead (resolved a.1) }.

Definition opt_sound {U : Unicode} (st : Store) (o : ResolveOptions) (r : option (TargetResolution * list Symbol)) : Prop :=
  ∀ a, r = Some a → sound st o a.

(** [v] is a match rather than a guess. *)
Definition sure_via (v : ResolveVia) : bool := SpecFloat.SFleb CONFIDENT (confidence_of v).

Lemma yields_or_else {A} (m k : T (option A)) (Q : option A → Prop) :
  yields m Q → yields k Q → yields (or_else m k) Q.
Proof. intros Hm Hk. eapply yields_bind; [exact Hm|]. intros [a|] Ha; [by apply yields_ret|done]. Qed.

Lemma yields_on {A} cond (m : T (option A)) (Q : option A → Prop) :
  Q None → (cond = true → yields m Q) → yields (on cond m) Q.
Proof. intros Hn Hm. unfold on. destruct cond; [by apply Hm|by apply yields_ret]. Qed.

Lemma take_shown {A} n (l : list A) : take (length (take n l)) l = take n l.
Proof.
  rewrite length_take. destruct (decide (n ≤ length l)); [by rewrite Nat.min_l|].
  rewrite Nat.min_r by lia. by rewrite !take_ge by lia.
Qed.

Section sound.
Context {U : Unicode} (st : Store) (o : ResolveOptions).

Lemma candidates_of l v n : Forall2 (λ c s, ∃ v, c = candidate_of s v) (candidates l v n) (take n l).
Proof. unfold candidates. induction (take n l) as [|s l' IH]; cbn; constructor; eauto. Qed.

Lemma candidates_Forall (P : ResolvedTarget → Prop) l v n : (∀ s, s ∈ l → P (candidate_of s v)) → Forall P (candidates l v n).
Proof.
  intros H. unfold candidates. apply Forall_map, Forall_forall. intros s Hs. apply H.
  eapply elem_of_sublist; [exact Hs|apply sublist_take].
Qed.

Lemma via_sure v (f : ResolveVia → ResolvedTarget) l :
  (∀ c, c ∈ l → via c = v ∧ confidence c = confidence_of v) → sure_via v = true ∨ nearest o = true →
  Forall sure l ∨ nearest o = true ∧ Forall lead l.
Proof.
  intros Hl Hv. destruct (sure_via v) eqn:E.
  - left. apply Forall_forall. intros c Hc. destruct (Hl c Hc) as [_ H2]. unfold sure, confident. by rewrite H2.
  - right. destruct Hv as [?|Hv]; [congruence|]. split; [done|]. apply Forall_forall. intros c Hc. destruct (Hl c Hc) as [_ H2].
    unfold lead, confident. by rewrite H2.
Qed.

Lemma sound_symbols input l v n :
  Forall (marked st) l → sure_via v = true ∨ nearest o = true →
  sound st o (symbol_resolution input l v (opt_limit o) n, l).
Proof.
  intros Hm Hv. unfold symbol_resolution. split; cbn [fst snd Target.kind resolved candidates_total ambiguous new_resolution].
  - apply candidates_Forall. intros s Hs. left. exists s, v. rewrite Forall_forall in Hm. eauto.
  - done.
  - split; [|done]. unfold candidates at 2. rewrite length_map, take_shown. apply candidates_of.
  - done.
  - unfold candidates. rewrite length_map, length_take. lia.
  - intros Hlim Ht. unfold candidates. destruct l as [|s l]; [done|]. by destruct (opt_limit o); [lia|].
  - apply (via_sure v (λ _, candidate_of (mkSymbol [] [] KFunction [] 0 0 false None false) v)); [|done].
    intros c Hc. unfold candidates in Hc. apply list_elem_of_In, in_map_iff in Hc as (s & <- & _). done.
Qed.

Lemma sound_none input k : sound st o (none input k, []).
Proof. split; cbn; try done; [by constructor..| |by left; constructor]. by destruct k; repeat constructor. Qed.

Lemma sound_one input k c : k ≠ KSymbol → denotes st c → sure c → sound st o (one input k c, []).
Proof.
  intros Hk Hd Hs. split; cbn; try done; [by apply Forall_singleton|by destruct k|by left; apply Forall_singleton].
Qed.

Lemma sound_with_input input a : sound st o a → sound st o (with_input input a.1, a.2).
Proof. intros []. by split. Qed.

(** Definitions kept by the options are still marked definitions. *)
Lemma retain_marked l : Forall (marked st) l → Forall (marked st) (retain o l).
Proof.
  assert (∀ f l, Forall (marked st) l → Forall (marked st) (List.filter f l)) as Hf.
  { intros f l' H. rewrite Forall_forall in *. by intros s [? _]%elem_of_bool_filter; apply H. }
  intros H. unfold retain, retain_kind, retain_definitions. destruct (opt_kind o), (include_modules o); auto.
Qed.

Lemma sort_marked l : Forall (marked st) l → Forall (marked st) (sort_definitions l).
Proof. intros H. unfold sort_definitions. by apply sort_by_Forall. Qed.
End sound.

Lemma opt_sound_some {U : Unicode} st o a : sound st o a → opt_sound st o (Some a).
Proof. by intros H b [= <-]. Qed.

Lemma elem_of_retain o l s : s ∈ retain o l ↔ s ∈ l ∧ s ∈ retain o [s].
Proof.
  unfold retain, retain_kind, retain_definitions.
  destruct (opt_kind o), (include_modules o); rewrite ?elem_of_bool_filter, ?list_elem_of_singleton; tauto.
Qed.

Lemma max_by_line_none l : max_by_line l = None → l = [].
Proof.
  unfold max_by_line. destruct l as [|y l _] using rev_ind; [done|]. rewrite fold_left_app. cbn.
  destruct (fold_left _ l None); [|done]. by destruct (_ <=? _)%N.
Qed.

Section arms.
Context {U : Unicode} {D : Database} (st : Store) (HR : Reads st) (Hok : store_ok st) (o : ResolveOptions).

Lemma find_marked n l : find_symbols n = Some l → Forall (marked st) l.
Proof using HR Hok.
  intros H. apply Forall_forall. intros s Hs. apply (reads_named n) in H.
  apply (marked_of_filter st (named_as n) l s (λ s t Hs Ht, named_as_mates st Hok n s t Hs Ht) H) in Hs as (row & Hr & _ & ->). by exists row.
Qed.

Lemma in_file_marked p l : symbols_for_file p = Some l → Forall (marked st) l.
Proof using HR.
  intros H. apply Forall_forall. intros s Hs. apply (reads_in_file p) in H.
  apply (marked_of_filter st (in_file p) l s (λ s t Hs Ht, in_file_mates st p s t Hs Ht) H) in Hs as (row & Hr & _ & ->). by exists row.
Qed.

Lemma indexed_yields p (Q : bool → Prop) : (∀ b, (b = true → p ∈ files st) → Q b) → yields (indexed p) Q.
Proof using HR.
  intros HQ. unfold indexed. apply yields_query. intros id Hid. apply yields_ret, HQ. intros Hb.
  apply (reads_file p id Hid). by apply bool_decide_eq_true in Hb.
Qed.

Definition leads_marked (acc : gset (bytes * bytes * N) * list (Symbol * ResolveVia)) : Prop :=
  Forall (λ p, marked st p.1 ∧ sure_via p.2 = false) acc.2.

Lemma lead_step_ok v acc name :
  sure_via v = false → leads_marked acc → yields (lead_step o v acc name) leads_marked.
Proof using HR Hok.
  intros Hv Hacc. unfold lead_step. apply yields_query. intros l Hl%find_marked. apply yields_ret.
  apply (retain_marked _ o) in Hl. revert acc Hacc. induction Hl as [|s l' Hs Hl IH]; intros acc Hacc; cbn [foldl]; [done|].
  apply IH. unfold seen_step. destruct acc as [seen found]. destruct (decide _); [done|]. unfold leads_marked in *. cbn [snd] in *.
  apply Forall_app. split; [done|]. by repeat constructor.
Qed.

Lemma leads_ok input found n :
  nearest o = true → Forall (λ p, marked st p.1 ∧ sure_via p.2 = false) found → found ≠ [] → 0 < n ∨ opt_limit o = 0 →
  sound st o (new_resolution input KSymbol (map (λ p, candidate_of p.1 p.2) (take n found)) (N.of_nat (length found)) 0,
    map fst found).
Proof.
  intros Hn Hf Hne Hlim. rewrite Forall_forall in Hf.
  assert (∀ p, p ∈ take n found → marked st p.1 ∧ sure_via p.2 = false) as Ht.
  { intros p Hp. apply Hf. eapply elem_of_sublist; [exact Hp|apply sublist_take]. }
  split; cbn [fst snd Target.kind resolved candidates_total ambiguous new_resolution].
  - apply Forall_map, Forall_forall. intros p Hp. left. exists p.1, p.2. split; [by apply Ht|done].
  - apply Forall_map, Forall_forall. intros p Hp. by apply Hf.
  - rewrite !length_map. split; [|done]. rewrite firstn_map, take_shown.
    change (@map ?A ?B) with (@fmap list _ A B). rewrite Forall2_fmap_l, Forall2_fmap_r. apply Forall_Forall2_diag, Forall_forall. eauto.
  - done.
  - rewrite length_map, length_take. lia.
  - intros Hl _. destruct found as [|p found]; [done|]. destruct n; [lia|done].
  - right. split; [done|]. apply Forall_map, Forall_forall. intros p Hp. by apply Ht.
Qed.

Lemma nearest_symbols_ok input : nearest o = true → yields (nearest_symbols input o) (opt_sound st o).
Proof using HR Hok.
  intros Hn. unfold nearest_symbols.
  eapply yields_bind with (P := leads_marked).
  { apply (yields_for_each _ (λ _, leads_marked)); [|constructor]. intros a x b s _ Hs. by apply lead_step_ok. }
  intros acc Hacc. eapply yields_bind with (P := leads_marked).
  { destruct acc.2, (last_segment input); try by apply yields_ret. by apply lead_step_ok. }
  clear acc Hacc. intros [seen found] Hacc. cbn [snd]. destruct found as [|p found]; [apply yields_ret; by intros ? [=]|].
  apply yields_ret, opt_sound_some, leads_ok; [done| | |].
  - by apply (sort_by_Forall lead_cmp _ (p :: found)).
  - intros E%(f_equal length). change (length (sort_by lead_cmp (p :: found)) = 0) in E. by rewrite length_sort_by in E.
  - unfold MAX_NEAREST. lia.
Qed.

Lemma moved_ok input qualified : nearest o = true → yields (moved_definition input qualified o) (opt_sound st o).
Proof using HR Hok.
  intros Hn. unfold moved_definition. apply yields_query. intros l Hl%find_marked. apply (retain_marked _ o) in Hl.
  destruct (retain o l) as [|s l'].
  - eapply yields_bind; [by apply nearest_symbols_ok|]. intros r Hr. apply yields_ret. intros a Ha.
    destruct r as [b|]; [|done]. injection Ha as <-. by apply sound_with_input, Hr.
  - apply yields_ret, opt_sound_some, sound_symbols; [by apply sort_marked|by right].
Qed.

Lemma symbol_handle_ok input path qualified line : yields (resolve_symbol_handle input path qualified line o) (sound st o).
Proof using HR Hok.
  unfold resolve_symbol_handle. apply yields_query. intros l Hl%in_file_marked.
  match goal with |- context [sort_definitions ?x] => set (found := sort_definitions x) end.
  assert (Forall (marked st) found) as Hf.
  { apply sort_marked. unfold retain_kind. rewrite Forall_forall in *. intros s Hs. apply Hl.
    destruct (opt_kind o); [apply elem_of_bool_filter in Hs as [Hs _]|]; by apply elem_of_bool_filter in Hs as [? _]. }
  eapply yields_bind with (P := opt_sound st o).
  { apply yields_on; [by intros ? [=]|]. intros [_ Hn]%andb_true_iff. by apply moved_ok. }
  intros [a|] Ha; apply yields_ret; [by apply Ha|]. apply sound_symbols; [done|by left].
Qed.

Lemma handle_ok input h : readable h → yields (resolve_handle input h o) (sound st o).
Proof using HR Hok.
  intros Hh. destruct h as [path q line|path|path|path a b|id]; cbn [resolve_handle].
  - apply symbol_handle_ok.
  - eapply yields_bind; [by apply (indexed_yields path (λ b, b = true → path ∈ files st)); auto|].
    intros [] Hb; apply yields_ret; [|apply sound_none]. apply sound_one; [done| |done]. right; left. exists path, Exact. auto.
  - apply yields_query. intros l Hl. apply yields_ret. destruct (existsb _ l) eqn:Ex; [|apply sound_none].
    apply existsb_exists in Ex as (f & Hf%list_elem_of_In & Hp). apply sound_one; [done| |done].
    right; right; left. exists path, f. split_and!; [done|done|by eapply (reads_prefix _ l)|done].
  - eapply yields_bind; [by apply (indexed_yields path (λ b, b = true → path ∈ files st)); auto|].
    intros [] Hb; apply yields_ret; [|apply sound_none]. apply sound_one; [done| |done].
    right; right; right; left. exists path, a, b. destruct Hh as (_ & ? & ?). auto.
  - apply yields_query. intros [f|] Hf; apply yields_ret; [|apply sound_none]. apply sound_one; [done| |done].
    right; right; right; right. exists f, Exact. apply reads_feature in Hf as [? _]. auto.
Qed.

Lemma max_by_line_spec l s :
  max_by_line l = Some s → s ∈ l ∧ ∀ t, t ∈ l → (line_start t <= line_start s)%N.
Proof.
  unfold max_by_line. revert s. induction l as [|x l IH] using rev_ind; intros s; [done|]. rewrite fold_left_app. cbn [fold_left].
  destruct (fold_left _ l None) as [m|] eqn:E.
  - specialize (IH m eq_refl) as [Hm Hmax]. destruct (N.leb_spec (line_start m) (line_start x)); intros [= <-].
    + split; [apply elem_of_app; right; by left|]. intros t [Ht| ->%list_elem_of_singleton]%elem_of_app; [|lia].
      specialize (Hmax t Ht). lia.
    + split; [apply elem_of_app; by left|]. intros t [Ht| ->%list_elem_of_singleton]%elem_of_app; [by apply Hmax|lia].
  - intros [= <-]. split; [apply elem_of_app; right; by left|].
    assert (l = []) as ->.
    { by apply max_by_line_none. }
    intros t [Ht| ->%list_elem_of_singleton]%elem_of_app; [by apply elem_of_nil in Ht|lia].
Qed.

Lemma path_line_ok input path line : path ∈ files st → yields (resolve_path_line input path line o) (sound st o).
Proof using HR.
  intros Hp. unfold resolve_path_line. apply yields_query. intros l Hl%in_file_marked. apply (retain_marked _ o) in Hl.
  destruct (max_by_line _) as [s|] eqn:Em; apply yields_ret.
  - apply sound_symbols; [|by left]. apply max_by_line_spec in Em as [[Hs _]%elem_of_bool_filter _].
    apply Forall_singleton. rewrite Forall_forall in Hl. by apply Hl.
  - apply sound_one; [done| |done]. right; left. exists path, Exact. eauto.
Qed.

Lemma path_ok input path_input : yields (resolve_path input path_input o) (opt_sound st o).
Proof using HR.
  unfold resolve_path. eapply yields_bind; [by apply (indexed_yields path_input (λ b, b = true → path_input ∈ files st)); auto|].
  intros [] Hb.
  - apply yields_ret. intros a [= <-]. apply sound_one; [done| |done]. right; left. exists path_input, Exact. auto.
  - destruct (split_path_line path_input) as [[path line]|]; [|apply yields_ret; by intros ? [=]].
    eapply yields_bind; [by apply (indexed_yields path (λ b, b = true → path ∈ files st)); auto|].
    intros [] Hf; [|apply yields_ret; by intros ? [=]]. eapply yields_bind; [by apply path_line_ok, Hf|].
    intros a Ha. apply yields_ret. by intros ? [= <-].
Qed.

Lemma narrow_ok f name l : yields (narrow_by_imports f name l) (λ r, ∀ s, r = Some s → marked st s).
Proof using HR.
  intros t. unfold narrow_by_imports, mbind, T_bind. destruct (resolve_callee_definitions f name t) as [e|[r t']] eqn:E.
  - by eapply reads_callee_fault.
  - cbn. destruct r as [|s [|? ?]]; try by intros ? [=]. destruct (existsb _ l); [|by intros ? [=]].
    intros ? [= <-]. eapply reads_callee; [exact E|by left].
Qed.

Lemma symbol_name_ok input : yields (resolve_symbol_name input o) (opt_sound st o).
Proof using HR Hok.
  unfold resolve_symbol_name. apply yields_query. intros l Hl%find_marked. apply (retain_marked _ o) in Hl.
  destruct (retain o l) as [|s0 l'] eqn:El; [apply yields_ret; by intros ? [=]|]. rewrite <- El in *.
  set (found := sort_definitions (retain o l)). assert (Forall (marked st) found) as Hf by by apply sort_marked.
  eapply yields_bind with (P := λ r, ∀ s, r = Some s → marked st s).
  { destruct (from_file o); [|by apply yields_ret]. apply yields_on; [done|]. intros _. apply narrow_ok. }
  intros [s|] Hs; apply yields_ret, opt_sound_some.
  - change (one input KSymbol (candidate_of s Import)) with (new_resolution input KSymbol [candidate_of s Import] 1 0).
    pose proof (Hs s eq_refl) as Hm. split; cbn; try done; [|by apply Forall_singleton| |by left; apply Forall_singleton].
    + apply Forall_singleton. left. by exists s, Import.
    + split; [|done]. constructor; [by exists Import|constructor].
  - apply sound_symbols; [done|]. left. by destruct (is_qualified_symbol_name input).
Qed.

Lemma nearest_paths_ok input : nearest o = true → yields (nearest_paths input o) (λ r, ∀ x, r = Some x → sound st o (x, [])).
Proof using HR.
  intros Hn. unfold nearest_paths. destruct (_ && _); [apply yields_ret; by intros ? [=]|]. apply yields_query.
  intros paths Hp. apply reads_paths in Hp.
  match goal with |- yields (let '(m, v) := ?x in _) _ => destruct x as [matched v] eqn:Em end.
  assert ((∀ p, p ∈ matched → p ∈ files st) ∧ sure_via v = false) as [Hin Hv].
  { destruct (List.filter (λ p, path_suffix_matches p input false) paths) as [|x xs] eqn:E; injection Em as <- <-;
      (split; [|done]); intros p; [|rewrite <- E]; intros [H _]%elem_of_bool_filter; by rewrite <- Hp. }
  destruct matched as [|m ms]; [apply yields_ret; by intros ? [=]|]. apply yields_ret. intros x Hx. apply (inj Some) in Hx as <-.
  assert (Forall (λ p, p ∈ files st) (take (opt_limit o `min` MAX_NEAREST) (m :: ms))) as Ht.
  { apply Forall_take, Forall_forall, Hin. }
  split; cbn [fst snd Target.kind resolved candidates_total ambiguous new_resolution]; try done.
  - apply Forall_map. eapply Forall_impl; [exact Ht|]. intros p Hpf. right; left. exists p, v. auto.
  - rewrite length_map, length_take. lia.
  - intros Hl _. unfold MAX_NEAREST. by destruct (opt_limit o); [lia|].
  - right. split; [done|]. apply Forall_map, Forall_true. intros p. unfold lead, confident. cbn [confidence file_candidate]. exact Hv.
Qed.

Lemma feature_entry_ok input entry kind : kind ≠ KSymbol →
  yields (resolve_feature_entry input entry kind o) (λ r, sound st o (r, [])).
Proof using HR.
  intros Hk. unfold resolve_feature_entry. apply yields_query. intros l Hl. apply reads_features in Hl. apply yields_ret.
  match goal with |- context [List.filter ?f l] => set (matches := List.filter f l) end.
  assert (Forall (λ f, f ∈ features st) (take (opt_limit o) matches)) as Ht.
  { apply Forall_take, Forall_forall. intros f [Hf _]%elem_of_bool_filter. rewrite Hl in Hf.
    by apply elem_of_bool_filter in Hf as [? _]. }
  split; cbn [fst snd Target.kind resolved candidates_total ambiguous new_resolution]; try done.
  - apply Forall_map. eapply Forall_impl; [exact Ht|]. intros f Hf. right; right; right; right. by exists f, Exact.
  - by destruct kind.
  - rewrite length_map, length_take. lia.
  - intros H1 H2. destruct matches; [done|]. by destruct (opt_limit o); [lia|].
  - left. by apply Forall_map, Forall_true.
Qed.

Lemma resolve_symbols_ok input : yields (resolve_symbols input o) (sound st o).
Proof using HR Hok.
  unfold resolve_symbols. destruct (bytes_eqb (trim input) []); [apply yields_ret, (sound_none st o (trim input) KText)|].
  destruct (Handle.parse (trim input)) as [h|] eqn:Eh; [by eapply handle_ok, parse_readable|].
  assert (opt_sound st o None) as HN by by intros ? [=].
  eapply yields_bind with (P := opt_sound st o).
  2:{ intros [a|] Ha; apply yields_ret; [by apply Ha|]. apply (sound_none st o (trim input) KText). }
  repeat apply yields_or_else; apply yields_on; try done; intros Hc.
  - unfold resolve_entry. destruct (entry_of (trim input)) as [[k e]|] eqn:Ee; [|by apply yields_ret].
    eapply yields_bind; [apply feature_entry_ok|intros r Hr; apply yields_ret; by intros ? [= <-]].
    unfold entry_of in Ee. destruct (strip_prefix _ _); [by injection Ee as <- _|].
    destruct (strip_prefix (bs "cmd:") _); [by injection Ee as <- _|done].
  - apply path_ok.
  - apply symbol_name_ok.
  - unfold resolve_feature_id. apply yields_query. intros f Hf. apply yields_ret. intros a Ha. destruct f as [f|]; [|done].
    injection Ha as <-. apply reads_feature in Hf as [? _]. apply sound_one; [done| |done]. right; right; right; right. by exists f, Exact.
  - apply andb_true_iff in Hc as [Hn _]. by apply nearest_symbols_ok.
  - apply andb_true_iff in Hc as [Hn _]. eapply yields_bind; [by apply nearest_paths_ok|]. intros r Hr. apply yields_ret.
    intros a Ha. destruct r as [r|]; [|done]. injection Ha as <-. apply (sound_with_input st o _ (r, [])). by apply Hr.
Qed.
End arms.
