(* ===== verification/ResolverTheorems.v ===== *)
(** * ResolverTheorems: what a target string names

    The properties of src/crates/graph/src/resolver.rs: an answer stands for entities of
    the index and says whether it is sure of them, and the handle of a candidate, fed
    back, names that candidate alone. *)
From stdpp Require Import gmap sorting.
From S2P Require Import Prelude Text Unicode Order Checked Handle Target CallPath Resolution Resolver ResolverProofs.
From Stdlib Require Import Lia NArith.
Local Open Scope byte_scope.
Local Open Scope codesage_scope.

Lemma all_equal_singleton {A} (l : list A) x : NoDup l → x ∈ l → (∀ y, y ∈ l → y = x) → l = [x].
Proof.
  intros Hn Hx Hall. destruct l as [|a [|b l]]; [by apply elem_of_nil in Hx| |].
  - by rewrite (Hall a) by by left.
  - exfalso. apply NoDup_cons in Hn as [Hn _]. apply Hn. rewrite (Hall a), (Hall b); [by left|right; by left|by left].
Qed.

Lemma require_one_sure input k c n : confident c = true → require_one (new_resolution input k [c] 1 n) = Done (inr c).
Proof. intros Hc. unfold require_one, refusal, guessed, sole. cbn. by rewrite Hc. Qed.

Section retry.
Context {U : Unicode} {D : Database} (st : Store) (HR : Reads st) (Hok : store_ok st) (o : ResolveOptions).
Context (Hkind : opt_kind o = None) (Hlimit : 0 < opt_limit o).

Lemma marked_valid s : marked st s →
  valid_path (file_path s) = true ∧ qualified_name s ≠ [] ∧ (line_start s < u32_bound)%N.
Proof using Hok.
  intros (row & Hr & ->). cbn. split_and!; [by eapply ok_file, ok_path|by eapply ok_name|by eapply ok_line].
Qed.

Lemma symbol_handle_marked s : marked st s →
  symbol_handle s = HSymbol (file_path s) (qualified_name s) (if overloaded s then Some (line_start s) else None).
Proof using Hok.
  intros (_ & Hq & _)%marked_valid. unfold symbol_handle, symbol. by destruct (bytes_eqb_spec (qualified_name s) []).
Qed.

Lemma symbol_handle_parses s : marked st s → Handle.parse (to_string (symbol_handle s)) = Some (symbol_handle s).
Proof using Hok.
  intros Hm. apply display_parses. rewrite symbol_handle_marked by done. destruct (marked_valid s Hm) as (Hp & Hq & Hl).
  split_and!; [done|done|]. destruct (overloaded s); [by intros ? [= <-]|done].
Qed.

(** The query of a handle selects its definition alone. *)
Lemma handle_selects s l : marked st s → symbols_for_file (file_path s) = Some l →
  List.filter (λ t, names t (qualified_name s)
    && match (if overloaded s then Some (line_start s) else None) with Some n => (line_start t =? n)%N | None => true end) l = [s].
Proof using HR Hok.
  intros Hm Hl. pose proof (in_file_marked st HR _ _ Hl) as Hall. apply reads_in_file in Hl.
  assert (NoDup l) as Hn.
  { rewrite Hl, mark_overloads_map. apply (NoDup_fmap_1 identity). change (@fmap list _) with @map. rewrite map_map.
    eapply sublist_NoDup; [apply (ok_distinct _ Hok)|]. apply (fmap_sublist identity). apply filter_symbols_sublist. }
  assert (s ∈ l) as Hin.
  { apply (marked_of_filter st (in_file (file_path s)) l s (λ s t Hs Ht, in_file_mates st _ s t Hs Ht) Hl).
    destruct Hm as (row & Hr & Es). exists row. split_and!; [done| |done]. unfold in_file. rewrite Es. cbn.
    by apply bytes_eqb_true. }
  apply all_equal_singleton.
  - eapply sublist_NoDup; [exact Hn|]. apply filter_symbols_sublist.
  - apply elem_of_bool_filter. split; [done|]. unfold names. rewrite (proj2 (bytes_eqb_true _ _)) by done. cbn.
    destruct (overloaded s); [apply N.eqb_refl|done].
  - intros t [Ht [Hnames Hline]%andb_true_iff]%elem_of_bool_filter. rewrite Forall_forall in Hall.
    pose proof (Hall t Ht) as Hmt. pose proof (marked_valid t Hmt) as (_ & Hq & _).
    assert (qualified_name t = qualified_name s) as Eq.
    { unfold names in Hnames. apply orb_true_iff in Hnames as [E%bytes_eqb_true|[E%bytes_eqb_true _]%andb_true_iff]; done. }
    assert (file_path t = file_path s) as Ef.
    { apply (marked_of_filter st (in_file (file_path s)) l t (λ s t Hs Ht, in_file_mates st _ s t Hs Ht) Hl) in Ht
        as (row & _ & Hf & ->). by apply bytes_eqb_true in Hf. }
    apply (marked_identity st Hok); [done..|]. unfold identity. rewrite Ef, Eq. f_equal.
    destruct Hm as (a & Ha & Es), Hmt as (b & Hb & Et). destruct (overloaded s) eqn:Eo; [by apply N.eqb_eq in Hline|].
    assert (a = b) as Hab; [|by rewrite Es, Et, Hab].
    assert (length (mates (rows st) a) ≤ 1) as Hle by (apply Nat.ltb_ge; by rewrite Es in Eo).
    assert (overload_key b = overload_key a) as Hk by (rewrite Es in Ef, Eq; rewrite Et in Ef, Eq; unfold overload_key; cbn in *; congruence).
    assert (a ∈ mates (rows st) a) as H1 by by apply list_elem_of_filter.
    assert (b ∈ mates (rows st) a) as H2 by by apply list_elem_of_filter.
    destruct (mates (rows st) a) as [|x [|y m]]; [by apply elem_of_nil in H1| |cbn in Hle; clear Hlimit; lia].
    apply list_elem_of_singleton in H1, H2. congruence.
Qed.

Lemma retry_parsed h text Q :
  Handle.parse text = Some h → trim text = text → yields (resolve_handle text h o) Q → yields (resolve_symbols text o) Q.
Proof using Type.
  intros Hp Ht HQ. unfold resolve_symbols. rewrite Ht, Hp. destruct (bytes_eqb_spec text []) as [->|]; [done|exact HQ].
Qed.

Lemma retry_symbol s : marked st s → trim (to_string (symbol_handle s)) = to_string (symbol_handle s) →
  yields (resolve_symbols (to_string (symbol_handle s)) o)
    (λ b, b.2 = [s] ∧ require_one b.1 = Done (inr (candidate_of s Exact))).
Proof using HR Hok Hkind Hlimit.
  intros Hm Ht. eapply retry_parsed; [by apply symbol_handle_parses|done|].
  rewrite (symbol_handle_marked s Hm) at 2. cbn [resolve_handle]. unfold resolve_symbol_handle.
  apply yields_query. intros l Hl. rewrite (handle_selects s l Hm Hl). unfold retain_kind. rewrite Hkind.
  change (sort_definitions [s]) with [s]. rewrite bool_decide_false by done. cbn [andb on]. apply yields_ret_bind, yields_ret.
  split; [done|]. unfold symbol_resolution, candidates. destruct (opt_limit o) as [|n]; [lia|]. cbn [take map].
  rewrite take_nil. by apply require_one_sure.
Qed.

(** A resolution of one entity, with the handle and path of [c]. *)
Definition names_again (c : ResolvedTarget) (b : TargetResolution * list Symbol) : Prop :=
  ∃ c', require_one b.1 = Done (inr c') ∧ handle c' = handle c ∧ target_path c' = target_path c ∧ target_kind c' = target_kind c.

Lemma names_again_one c c' text k l : confident c' = true →
  handle c' = handle c → target_path c' = target_path c → target_kind c' = target_kind c → names_again c (one text k c', l).
Proof using Type. intros Hc ? ? ?. exists c'. split; [by apply require_one_sure|done]. Qed.

Lemma indexed_again p (f : bool → T (TargetResolution * list Symbol)) Q :
  p ∈ files st → yields (f true) Q → yields (indexed p ≫= f) Q.
Proof using HR.
  intros Hp HQ. eapply yields_bind with (P := λ b, b = true); [|by intros ? ->]. unfold indexed. apply yields_query.
  intros id Hid. apply yields_ret. apply bool_decide_eq_true. by apply (reads_file p id Hid).
Qed.

Lemma retry_candidate c : denotes st c → trim (handle c) = handle c →
  (∀ p, c = dir_candidate p → ends_with (bs "/") p = false) →
  yields (resolve_symbols (handle c) o) (names_again c).
Proof using HR Hok Hkind Hlimit.
  intros Hd Ht Hdir.
  destruct Hd as [(s & v & Hm & ->)|[(p & v & Hp & Hc)|[(p & f & -> & Hv & Hf & Hpre)|[(p & a & b & -> & Hp & Hab)|(f & v & Hf & ->)]]]].
  - eapply yields_mono; [by apply (retry_symbol s Hm)|]. intros b [_ Hb]. by exists (candidate_of s Exact).
  - pose proof (ok_file _ Hok p Hp) as Hv. assert (handle c = to_string (HFile p)) as Hh.
    { destruct Hc as [->|[line ->]]; cbn; unfold Handle.file; by rewrite Hv. }
    assert (target_path c = Some p ∧ target_kind c = bs "file") as [Hpath Hk] by by destruct Hc as [->|[line ->]].
    rewrite Hh in *. eapply retry_parsed; [by apply (display_parses (HFile p))|done|]. cbn [resolve_handle].
    apply indexed_again; [done|]. apply yields_ret, names_again_one; [done| |done..].
    rewrite Hh. cbn. unfold Handle.file. by rewrite Hv.
  - specialize (Hdir p eq_refl). eapply retry_parsed; [by apply (display_parses (HDir p))|done|]. cbn [resolve_handle].
    apply yields_query. intros l Hl. apply yields_ret.
    assert (existsb (starts_with (trim_end_matches (bs "/") p ++ ["/"%byte])) l = true) as ->; [|by apply names_again_one].
    apply existsb_exists. exists f. split; [|done]. apply list_elem_of_In. by eapply (reads_prefix _ l f Hl Hpre).
  - eapply retry_parsed; [apply (display_parses (HChunk p a b))|done|].
    { split_and!; [by eapply ok_file|lia|lia]. }
    cbn [resolve_handle]. apply indexed_again; [done|]. by apply yields_ret, names_again_one.
  - eapply retry_parsed; [by apply (display_parses (HFeature (feature_id f))), (ok_feature _ Hok)|done|]. cbn [resolve_handle].
    apply yields_query. intros [g|] Hg; apply yields_ret.
    + apply reads_feature in Hg as [Hg Hid]. rewrite (ok_features _ Hok g f Hg Hf Hid). by apply names_again_one.
    + exfalso. by eapply reads_no_feature.
Qed.
End retry.

(** What a refusal, or the one entity, says of a sound answer. *)
Definition accountable {U : Unicode} (st : Store) (o : ResolveOptions) (a : TargetResolution * list Symbol)
    (r : TargetError + ResolvedTarget) : Prop :=
  match r with
  | inr c => resolved a.1 = [c] ∧ candidates_total a.1 = 1%N ∧ denotes st c ∧ sure c
             ∧ (Target.kind a.1 = KSymbol → ∃ s v, a.2 = [s] ∧ c = candidate_of s v)
  | inl (Ambiguous _ cs total _) => cs = resolved a.1 ∧ (1 < total)%N ∧ Forall sure cs
  | inl (NotFound _ leads) =>
      leads = resolved a.1
      ∧ (leads = [] ∧ (opt_limit o = 0 ∨ candidates_total a.1 = 0%N) ∨ leads ≠ [] ∧ nearest o = true ∧ Forall lead leads)
  | inl (Unsupported _ _ _) => False
  end.

Lemma sure_not_lead c : sure c → lead c → False.
Proof. unfold sure, lead. congruence. Qed.

Lemma sound_refusal {U : Unicode} st o a r : sound st o a → refusal_of a.1 r → accountable st o a r.
Proof.
  intros [Hd Hm Hsym Hflag Htot Hshown Hsure] Hr.
  destruct Hr as [c Ec Ea Hc|c Hc Hconf Ea|Ec Ea|Hall Hcut|c d l Ec Ea Hg]; cbn [accountable]; rewrite Hflag in *.
  - apply N.ltb_ge in Ea. rewrite Ec in *. cbn [length] in *. split; [done|]. split; [lia|]. apply Forall_cons in Hd as [Hd _].
    split; [done|]. split; [done|]. intros Hk. rewrite Hk in Hsym. destruct Hsym as [HF Hl]. destruct a.2 as [|s [|? ?]]; cbn [take] in *.
    + by apply Forall2_nil_inv_r in HF.
    + apply Forall2_cons in HF as [(v & ->) _]. by exists s, v.
    + exfalso. cbn [length] in Hl. lia.
  - apply N.ltb_lt in Ea. split_and!; [done|done|]. destruct Hsure as [|[_ Hl]]; [done|]. exfalso.
    rewrite Forall_forall in Hl. by eapply sure_not_lead, Hl.
  - apply N.ltb_lt in Ea. split_and!; [by rewrite Ec|done|constructor].
  - split; [done|]. destruct (resolved a.1) as [|c l] eqn:Er.
    + left. split; [done|]. destruct (decide (opt_limit o = 0)); [by left|]. right.
      destruct (decide (candidates_total a.1 = 0%N)); [done|]. exfalso. apply Hshown; [lia|lia|done].
    + right. split; [done|]. destruct Hsure as [Hs|[Hn Hl]]; [|done]. exfalso. apply Forall_cons in Hs as [Hs _], Hall as [Hl _].
      by eapply sure_not_lead.
  - exfalso. apply N.ltb_ge in Ea. rewrite Ec in Htot. cbn [length] in Htot. lia.
Qed.

(** ** One order *)

Lemma retain_perm o l l' : l ≡ₚ l' → retain o l ≡ₚ retain o l'.
Proof.
  assert (∀ (f : Symbol → bool) l l', l ≡ₚ l' → List.filter f l ≡ₚ List.filter f l') as Hf.
  { intros f a b H. induction H as [|x a b H IH|x y a|a b c H1 IH1 H2 IH2]; cbn; [done|by destruct (f x); rewrite IH| |by rewrite IH1].
    destruct (f x), (f y); try done. apply Permutation_swap. }
  intros H. unfold retain, retain_kind, retain_definitions. destruct (opt_kind o), (include_modules o); auto.
Qed.

Lemma definition_ordering : ordering definition_cmp.
Proof.
  unfold definition_cmp. apply ordering_then; [apply ordering_then|]; [apply (ordering_on file_path)|apply (ordering_on line_start)|
    apply (ordering_on qualified_name)]; (apply ordering_bytes || apply ordering_N).
Qed.

Lemma definition_cmp_eq a b : definition_cmp a b = Eq → identity a = identity b.
Proof.
  unfold definition_cmp, identity, then_with.
  destruct (bytes_cmp (file_path a) (file_path b)) eqn:E1; [|done..].
  destruct (N.compare (line_start a) (line_start b)) eqn:E2; [|done..]. intros E3.
  by apply bytes_cmp_eq in E1 as ->, E3 as ->; apply N.compare_eq in E2 as ->.
Qed.

Lemma sort_definitions_unique st l l' : store_ok st → Forall (marked st) l → l ≡ₚ l' → sort_definitions l = sort_definitions l'.
Proof.
  intros Hok Hm. rewrite Forall_forall in Hm. apply sort_by_unique; [apply definition_ordering|].
  intros x y Hx Hy E%definition_cmp_eq. by apply (marked_identity st Hok); [apply Hm..|].
Qed.

Section properties.
Context {U : Unicode} {D : Database} (st : Store).

(** The innermost definition of a line: the one that starts last among those that hold
    it and that the options keep, and the line of the file when there is none. *)
Theorem path_line_innermost (HR : Reads st) input path line o :
  yields (resolve_path_line input path line o) (λ a,
    let holds t := marked st t ∧ in_file path t = true ∧ t ∈ retain o [t] ∧ (line_start t <= line <= line_end t)%N in
    match a.2 with
    | [s] => holds s ∧ ∀ t, holds t → (line_start t <= line_start s)%N
    | [] => a.1 = one input KFile (set_lines line (file_candidate path Exact)) ∧ ∀ t, ¬ holds t
    | _ => False
    end).
Proof.
  unfold resolve_path_line. apply yields_query. intros l Hl. apply reads_in_file in Hl.
  assert (∀ t, t ∈ List.filter (λ s, (line_start s <=? line)%N && (line <=? line_end s)%N) (retain o l) ↔
    marked st t ∧ in_file path t = true ∧ t ∈ retain o [t] ∧ (line_start t <= line <= line_end t)%N) as Hin.
  { intros t. rewrite elem_of_bool_filter, elem_of_retain, andb_true_iff, !N.leb_le.
    rewrite (marked_of_filter st (in_file path) l t (λ s t Hs Ht, in_file_mates st _ s t Hs Ht) Hl). split.
    - intros [[(row & Hr & Hf & ->) Hk] Hb]. split_and!; [by exists row|done|done|lia|lia].
    - intros ((row & Hr & ->) & Hf & Hk & Hb). split; [split; [by exists row|done]|lia]. }
  destruct (max_by_line _) as [s|] eqn:Em; apply yields_ret; cbn [snd fst].
  - apply max_by_line_spec in Em as [Hs Hmax]. split; [by apply Hin|]. intros t Ht. by apply Hmax, Hin.
  - split; [done|]. intros t Ht%Hin. apply max_by_line_none in Em. rewrite Em in Ht. by apply elem_of_nil in Ht.
Qed.


End properties.


(** ** A database in memory

    The rows of a store, turned by [turn]; no import narrows a name. *)
Definition in_memory (st : Store) (turn : list Symbol → list Symbol) : Database := {|
  file_id_for_path := λ p, Some (if decide (p ∈ files st) then Some 1%Z else None);
  symbols_for_file := λ p, Some (turn (mark_overloads (List.filter (in_file p) (rows st))));
  find_symbols := λ n, Some (turn (mark_overloads (List.filter (named_as n) (rows st))));
  indexed_files_with_prefix := λ p, Some (List.filter (starts_with p) (files st));
  load_feature := λ id, Some (List.find (λ f, bytes_eqb (feature_id f) id) (features st));
  list_features := λ k, Some (List.filter (λ f, bool_decide (feature_kind f = k)) (features st));
  all_file_paths := Some (files st);
  resolve_callee_definitions := λ _ _, mret [] |}.

Lemma in_memory_reads st turn : (∀ l, turn l ≡ₚ l) → Reads (D := in_memory st turn) st.
Proof.
  intros Ht. split; cbn.
  - intros p o [= <-]. case_decide; (split; [intros Hs|intros Hp]); [done|done|by destruct Hs|done].
  - by intros p l [= <-].
  - by intros n l [= <-].
  - intros p l f [= <-] Hp. rewrite elem_of_bool_filter. tauto.
  - by intros l [= <-].
  - intros id f [= H]. apply List.find_some in H as [Hin E%bytes_eqb_true]. by rewrite list_elem_of_In.
  - intros id f [= H] Hin%list_elem_of_In E. apply (List.find_none _ _ H) in Hin. by rewrite E, (proj2 (bytes_eqb_true _ _)) in Hin.
  - by intros k l [= <-].
  - by intros f n t l t' s [= <- <-] ?%elem_of_nil.
  - done.
Qed.

Definition demo_row (name qualified file : string) (first last : N) : Symbol :=
  mkSymbol (bs name) (bs qualified) KFunction (bs file) first last false None false.

Definition demo_store : Store := {|
  files := map bs ["src/a.rs"; "src/b.rs"]%string;
  rows := [demo_row "open" "Db::open" "src/b.rs" 3 9; demo_row "open" "File::open" "src/a.rs" 1 4;
           demo_row "open" "File::open" "src/a.rs" 7 8];
  features := [] |}.

Lemma demo_store_ok : store_ok demo_store.
Proof.
  split; cbn.
  - intros p Hp. repeat (apply elem_of_cons in Hp as [->|Hp]; [by vm_compute|]). by apply elem_of_nil in Hp.
  - intros s Hs. repeat (apply elem_of_cons in Hs as [->|Hs]; [cbn; set_solver|]). by apply elem_of_nil in Hs.
  - intros s Hs. repeat (apply elem_of_cons in Hs as [->|Hs]; [done|]). by apply elem_of_nil in Hs.
  - intros s Hs. repeat (apply elem_of_cons in Hs as [->|Hs]; [done|]). by apply elem_of_nil in Hs.
  - intros s t Hs Ht _. assert (∀ s, s ∈ rows demo_store → sy_name s = bs "open") as Hn; [|by rewrite !Hn].
    intros r Hr. cbn in Hr. repeat (apply elem_of_cons in Hr as [->|Hr]; [done|]). by apply elem_of_nil in Hr.
  - apply (bool_decide_unpack _). by vm_compute.
  - by intros f ?%elem_of_nil.
  - by intros f g ?%elem_of_nil.
Qed.

Abbreviation demo turn := (in_memory demo_store turn).

(** The name is shared by three definitions, two of them overloads in one file; the
    handle of the last names it alone. *)
Example demo_ambiguous :
  match resolve_target (D := demo id) (bs " open ") default_options 0 with
  | inr (r, _) => (map handle (resolved r), ambiguous r, overloads r)
  | inl _ => ([], false, 0%N)
  end = (map bs ["sym:src/a.rs#File::open@1"; "sym:src/a.rs#File::open@7"; "sym:src/b.rs#Db::open"]%string, true, 2%N).
Proof. by vm_compute. Qed.

Lemma demo_reads : Reads (D := demo id) demo_store.
Proof. by apply in_memory_reads. Qed.

Lemma demo_reads_turned : Reads (D := demo (@rev Symbol)) demo_store.
Proof. apply in_memory_reads. intros l. symmetry. apply Permutation_rev. Qed.



