(* ===== verification/Float.v ===== *)
(** * Float: [f32] and [f64]

    A floating-point number is a [spec_float] of the Standard Library, its
    operations the correctly rounded ones of IEEE 754 on 24 or 53 bits, so that
    the modelled scores evaluate to the numbers the program computes.  A decimal
    literal is the correctly rounded quotient of two integers.  [powi] and
    [parse::<f32>] are not specified to the last bit by the language, and are a
    class of operations. *)
From Stdlib Require Import SpecFloat.
From stdpp Require Import sorting.
From S2P Require Import Prelude Order.
From Stdlib Require Import ZArith Lia.
Local Open Scope Z_scope.

Abbreviation f32 := spec_float (only parsing).
Abbreviation f64 := spec_float (only parsing).

(** ** Operations *)

Definition f32_add : f32 → f32 → f32 := SFadd 24 128.
Definition f32_sub : f32 → f32 → f32 := SFsub 24 128.
Definition f32_mul : f32 → f32 → f32 := SFmul 24 128.
Definition f32_div : f32 → f32 → f32 := SFdiv 24 128.
Definition f32_sqrt : f32 → f32 := SFsqrt 24 128.
Definition f64_add : f64 → f64 → f64 := SFadd 53 1024.
Definition f64_sub : f64 → f64 → f64 := SFsub 53 1024.
Definition f64_div : f64 → f64 → f64 := SFdiv 53 1024.

(** An integer [as f32] and [as f64]. *)
Definition f32_of_Z (z : Z) : f32 := binary_normalize 24 128 z 0 false.
Definition f64_of_Z (z : Z) : f64 := binary_normalize 53 1024 z 0 false.

(** The literal of value [n/d]. *)
Definition f32_lit (n d : Z) : f32 := f32_div (f32_of_Z n) (f32_of_Z d).
Definition f64_lit (n d : Z) : f64 := f64_div (f64_of_Z n) (f64_of_Z d).

(** [x as f32] of an [f64]. *)
Definition f32_of_f64 (x : f64) : f32 :=
  match x with S754_finite s m e => binary_round 24 128 s m e | _ => x end.

Definition is_nan (x : spec_float) : bool := match x with S754_nan => true | _ => false end.
Definition is_finite (x : spec_float) : bool :=
  match x with S754_zero _ | S754_finite _ _ _ => true | _ => false end.

(** [x < y], [x <= y] and [x.partial_cmp(&y)]; false or [None] on a NaN. *)
Definition fltb : spec_float → spec_float → bool := SFltb.
Definition fleb : spec_float → spec_float → bool := SFleb.
Definition partial_cmp : spec_float → spec_float → option comparison := SFcompare.

(** [x.min(y)] and [x.max(y)]: the other operand of a NaN. *)
Definition fmin (x y : spec_float) : spec_float :=
  if is_nan x then y else if is_nan y then x else if fltb y x then y else x.
Definition fmax (x y : spec_float) : spec_float :=
  if is_nan x then y else if is_nan y then x else if fltb x y then y else x.

(** [x.clamp(lo, hi)], for [lo <= hi]. *)
Definition clamp (x lo hi : spec_float) : spec_float :=
  if fltb x lo then lo else if fltb hi x then hi else x.

(** [x.total_cmp(&y)]; the only NaN here is the positive quiet one. *)
Definition total_cmp (x y : spec_float) : comparison :=
  match partial_cmp x y with
  | Some Eq => match x, y with
               | S754_zero true, S754_zero false => Lt
               | S754_zero false, S754_zero true => Gt
               | _, _ => Eq
               end
  | Some c => c
  | None => match is_nan x, is_nan y with true, true => Eq | true, false => Gt | _, _ => Lt end
  end.

(** The integer nearest to [m * 2^e], half away from zero. *)
Definition round_mantissa (m : positive) (e : Z) : Z :=
  if 0 <=? e then Z.pos m * 2 ^ e else (2 * Z.pos m + 2 ^ (- e)) / 2 ^ (1 - e).

(** [x.round()] on [f32]. *)
Definition f32_round (x : f32) : f32 :=
  match x with
  | S754_finite s m e =>
      let n := round_mantissa m e in
      match n with
      | Z0 => S754_zero s
      | _ => binary_normalize 24 128 (if s then - n else n) 0 s
      end
  | _ => x
  end.

(** [x as u8]: truncating, saturating, 0 for a NaN. *)
Definition as_u8 (x : spec_float) : Z :=
  match x with
  | S754_finite false m e => Z.min 255 (if 0 <=? e then Z.pos m * 2 ^ e else Z.pos m / 2 ^ (- e))
  | S754_infinity false => 255
  | _ => 0
  end.

Definition infinity : spec_float := S754_infinity false.
Definition neg_infinity : spec_float := S754_infinity true.
Definition f32_zero : f32 := S754_zero false.
Definition f32_one : f32 := f32_of_Z 1.
Definition f64_zero : f64 := S754_zero false.
(** [f32::MIN] and [f64::EPSILON]. *)
Definition F32_MIN : f32 := S754_finite true 16777215 104.
Definition F64_EPSILON : f64 := S754_finite false 4503599627370496 (-104).

(** [x.powi(n)] and [s.parse::<f32>()]. *)
Class FloatOps := {
  powi : f32 → Z → f32;
  parse_f32 : bytes → option f32 }.

(** Repeated multiplication. *)
Definition powi_mul (x : f32) (n : Z) : f32 := Nat.iter (Z.to_nat n) (f32_mul x) f32_one.

Example lit_tenth : f32_lit 1 10 = S754_finite false 13421773 (-27).
Proof. reflexivity. Qed.
Example round_half : as_u8 (f32_round (f32_mul (f32_lit 1 8) (f32_of_Z 100))) = 13.
Proof. reflexivity. Qed.
Example epsilon_value : F64_EPSILON = f64_lit 1 (2 ^ 52).
Proof. reflexivity. Qed.

(** ** The order of numbers *)

(** A number as a triple, in lexicographic order. *)
Definition sign (s : bool) : Z := if s then -1 else 1.
Definition fkey (x : spec_float) : Z * Z * Z :=
  match x with
  | S754_zero _ | S754_nan => (0, 0, 0)
  | S754_infinity s => (sign s * 2, 0, 0)
  | S754_finite s m e => (sign s, sign s * e, sign s * Z.pos m)
  end.

Definition key_cmp (a b : Z * Z * Z) : comparison :=
  match a.1.1 ?= b.1.1 with
  | Eq => match a.1.2 ?= b.1.2 with Eq => a.2 ?= b.2 | c => c end
  | c => c
  end.

Lemma partial_cmp_key x y :
  is_nan x = false → is_nan y = false → partial_cmp x y = Some (key_cmp (fkey x) (fkey y)).
Proof.
  unfold partial_cmp, key_cmp, fkey, sign.
  destruct x as [[]|[]| |[] m1 e1], y as [[]|[]| |[] m2 e2]; cbn -[Z.mul]; try done; intros _ _; f_equal.
  - destruct (Z.compare_spec e1 e2), (Z.compare_spec (-1 * e1) (-1 * e2)); try done; lia.
  - rewrite !Z.mul_1_l. destruct (e1 ?= e2); done.
Qed.

Lemma partial_cmp_nan x y : is_nan x = true ∨ is_nan y = true → partial_cmp x y = None.
Proof. destruct x as [| | |], y as [| | |]; cbn; naive_solver. Qed.

Definition key_le (a b : Z * Z * Z) : Prop := key_cmp a b ≠ Gt.

Lemma key_cmp_spec a b :
  match key_cmp a b with
  | Eq => a = b
  | Lt => a.1.1 < b.1.1 ∨ a.1.1 = b.1.1 ∧ (a.1.2 < b.1.2 ∨ a.1.2 = b.1.2 ∧ a.2 < b.2)
  | Gt => b.1.1 < a.1.1 ∨ a.1.1 = b.1.1 ∧ (b.1.2 < a.1.2 ∨ a.1.2 = b.1.2 ∧ b.2 < a.2)
  end.
Proof.
  destruct a as [[a1 a2] a3], b as [[b1 b2] b3]. unfold key_cmp; cbn.
  destruct (Z.compare_spec a1 b1) as [->| |]; [|lia..].
  destruct (Z.compare_spec a2 b2) as [->| |]; [|lia..].
  destruct (Z.compare_spec a3 b3) as [->| |]; [done|lia..].
Qed.

Lemma key_cmp_antisym a b : key_cmp b a = CompOpp (key_cmp a b).
Proof.
  pose proof (key_cmp_spec a b) as H1. pose proof (key_cmp_spec b a) as H2.
  destruct (key_cmp a b), (key_cmp b a); cbn; try done; subst; lia.
Qed.

Lemma key_le_trans a b c : key_le a b → key_le b c → key_le a c.
Proof.
  unfold key_le. pose proof (key_cmp_spec a b) as H1. pose proof (key_cmp_spec b c) as H2.
  pose proof (key_cmp_spec a c) as H3.
  destruct (key_cmp a b), (key_cmp b c), (key_cmp a c); subst; try done; intros; exfalso; lia.
Qed.

(** [x >= y] of two numbers, and its decision by [fltb]. *)
Definition fge (x y : spec_float) : Prop := fleb y x = true.

Lemma fleb_key x y : is_nan x = false → is_nan y = false → fleb x y = true ↔ key_le (fkey x) (fkey y).
Proof.
  intros Hx Hy. unfold fleb, SFleb, key_le. change (SFcompare x y) with (partial_cmp x y).
  rewrite partial_cmp_key by done. destruct (key_cmp (fkey x) (fkey y)); naive_solver.
Qed.

Lemma fltb_key x y : is_nan x = false → is_nan y = false → fltb x y = true ↔ key_cmp (fkey x) (fkey y) = Lt.
Proof.
  intros Hx Hy. unfold fltb, SFltb. change (SFcompare x y) with (partial_cmp x y).
  rewrite partial_cmp_key by done. destruct (key_cmp (fkey x) (fkey y)); naive_solver.
Qed.

Lemma fltb_nan x y : fltb x y = true → is_nan x = false ∧ is_nan y = false.
Proof. destruct x, y; cbn; try done; by destruct s. Qed.

Lemma fltb_fleb x y : fltb x y = true → fleb x y = true.
Proof.
  intros H. pose proof (fltb_nan _ _ H) as [? ?]. apply fleb_key; [done..|]. apply fltb_key in H; [|done..].
  unfold key_le. by rewrite H.
Qed.

Lemma fleb_refl x : is_nan x = false → fleb x x = true.
Proof.
  intros. apply fleb_key; [done..|]. unfold key_le. pose proof (key_cmp_spec (fkey x) (fkey x)).
  destruct (key_cmp _ _); try done. lia.
Qed.

Lemma fleb_not_nan x y : fleb x y = true → is_nan x = false ∧ is_nan y = false.
Proof. destruct x, y; cbn; try done; by destruct s. Qed.

Lemma fleb_trans x y z : fleb x y = true → fleb y z = true → fleb x z = true.
Proof.
  intros H1 H2. pose proof (fleb_not_nan _ _ H1) as [? ?]. pose proof (fleb_not_nan _ _ H2) as [? ?].
  apply fleb_key in H1; [|done..]. apply fleb_key in H2; [|done..]. apply fleb_key; [done..|]. by eapply key_le_trans.
Qed.

Lemma fleb_false x y : is_nan x = false → is_nan y = false → fleb x y = false ↔ fltb y x = true.
Proof.
  intros Hx Hy. rewrite fltb_key by done. rewrite <- not_true_iff_false, fleb_key by done. unfold key_le.
  rewrite (key_cmp_antisym (fkey x) (fkey y)). destruct (key_cmp _ _); cbn; naive_solver.
Qed.

(** [x.max(y)] is no less than either, when they are numbers. *)
Lemma fmax_nan x y : is_nan x = false → is_nan (fmax x y) = false.
Proof. intros Hx. unfold fmax. rewrite Hx. destruct (is_nan y) eqn:Hy; [done|]. by destruct (fltb x y). Qed.

Lemma fmax_le_l x y : is_nan x = false → fleb x (fmax x y) = true.
Proof.
  intros Hx. unfold fmax. rewrite Hx. destruct (is_nan y) eqn:Hy; [by apply fleb_refl|].
  destruct (fltb x y) eqn:E; [by apply fltb_fleb|by apply fleb_refl].
Qed.

(** Subtracting a number from itself, and what comes of zero. *)
Lemma f32_sub_diag x : is_finite x = true → f32_sub x x = S754_zero false.
Proof.
  destruct x as [[]|s| |[] m e]; try done; intros _; cbn -[binary_normalize];
    rewrite Z.min_id; cbn -[binary_normalize]; rewrite ?Z.sub_diag; done.
Qed.

Lemma f32_div_zero_l x : is_nan x = false → fltb f32_zero x = true → ∃ s, f32_div (S754_zero false) x = S754_zero s.
Proof. destruct x as [[]|[]| |[] m e]; cbn; try done; eauto. Qed.

(** The order of scores, best first: [b.partial_cmp(&a).unwrap_or(Equal)]. *)
Definition desc_cmp (a b : spec_float) : comparison := default Eq (partial_cmp b a).

Lemma desc_cmp_le a b : is_nan a = false → is_nan b = false → desc_cmp a b ≠ Gt → fge a b.
Proof.
  intros Ha Hb. unfold desc_cmp, fge. rewrite partial_cmp_key, fleb_key by done. done.
Qed.

Lemma desc_cmp_gt a b : is_nan a = false → is_nan b = false → desc_cmp a b = Gt → fge b a.
Proof.
  intros Ha Hb. unfold desc_cmp, fge. rewrite partial_cmp_key, fleb_key by done. cbn. intros H.
  unfold key_le. rewrite key_cmp_antisym, H. done.
Qed.

(** [<] is a strict order; nothing compares with a NaN. *)
Lemma fltb_irrefl x : fltb x x = false.
Proof.
  destruct (is_nan x) eqn:Hx; [by destruct x|]. apply not_true_iff_false. rewrite fltb_key by done.
  pose proof (key_cmp_spec (fkey x) (fkey x)). destruct (key_cmp _ _); try done. lia.
Qed.

Lemma fltb_trans x y z : fltb x y = true → fltb y z = true → fltb x z = true.
Proof.
  intros H1 H2. pose proof (fltb_nan _ _ H1) as [? ?]. pose proof (fltb_nan _ _ H2) as [? ?].
  apply fltb_key in H1; [|done..]. apply fltb_key in H2; [|done..]. apply fltb_key; [done..|].
  pose proof (key_cmp_spec (fkey x) (fkey y)) as K1. pose proof (key_cmp_spec (fkey y) (fkey z)) as K2.
  pose proof (key_cmp_spec (fkey x) (fkey z)) as K3. rewrite H1 in K1. rewrite H2 in K2.
  destruct (key_cmp (fkey x) (fkey z)); [rewrite K3 in *; exfalso; lia|done|exfalso; lia].
Qed.

Lemma fltb_asym x y : fltb x y = true → fltb y x = false.
Proof. intros H. apply not_true_iff_false. intros H'. pose proof (fltb_trans _ _ _ H H'). by rewrite fltb_irrefl in *. Qed.

(** What is not above [x] is not above anything above [x]. *)
Lemma fltb_above x y z : fltb x z = false → fltb x y = true → fltb y z = false.
Proof.
  intros H1 H2. apply not_true_iff_false. intros H3. by rewrite (fltb_trans _ _ _ H2 H3) in H1.
Qed.

(** The order of [total_cmp]: a zero by its sign, a NaN above all. *)
Definition tkey (x : spec_float) : Z * Z * Z :=
  match x with
  | S754_zero s => (0, 0, if s then -1 else 0)%Z
  | S754_nan => (3, 0, 0)%Z
  | _ => fkey x
  end.

Lemma total_cmp_key x y : total_cmp x y = key_cmp (tkey x) (tkey y).
Proof.
  unfold total_cmp. destruct (is_nan x) eqn:Hx.
  { rewrite partial_cmp_nan by (by left). destruct x; try done. by destruct y as [[]|[]| |[] ??]. }
  destruct (is_nan y) eqn:Hy.
  { rewrite partial_cmp_nan by (by right). destruct y; try done. by destruct x as [[]|[]| |[] ??]. }
  rewrite partial_cmp_key by done. destruct x as [[]|[]| |[] ??], y as [[]|[]| |[] ??]; cbn -[key_cmp] in *; try done;
    destruct (key_cmp _ _); done.
Qed.

Lemma ordering_total_cmp : ordering total_cmp.
Proof.
  split; [intros x y; rewrite !total_cmp_key; apply key_cmp_antisym|].
  intros x y z. rewrite !total_cmp_key. apply key_le_trans.
Qed.
