(* ===== verification/Rounding.v ===== *)
(** * Rounding: multiplying by a factor of at most one

    A machine [f32] is a [spec_float] with a canonical mantissa ([valid]).  The
    product of a non-negative one with a factor in [[0, 1]], rounded to nearest, is
    no greater than it: the penalties of search can only demote. *)
From Stdlib Require Import SpecFloat.
From S2P Require Import Prelude Float.
From Stdlib Require Import ZArith Lia.
Local Open Scope Z_scope.

Definition valid (x : f32) : Prop := valid_binary 24 128 x = true.

Definition f32_fexp : Z → Z := fexp 24 128.

(** ** Digits *)

Lemma digits_log2 p : Z.pos (digits2_pos p) = Z.log2 (Z.pos p) + 1.
Proof.
  induction p as [p IH|p IH|]; [| |done]; cbn [digits2_pos]; rewrite Pos2Z.inj_succ, IH.
  - rewrite Pos2Z.inj_xI, Z.log2_succ_double by lia. lia.
  - rewrite Pos2Z.inj_xO, Z.log2_double by lia. lia.
Qed.

Lemma digits_bound p : 2 ^ (Z.pos (digits2_pos p) - 1) <= Z.pos p < 2 ^ Z.pos (digits2_pos p).
Proof. rewrite digits_log2. pose proof (Z.log2_spec (Z.pos p) ltac:(lia)). replace (Z.log2 _ + 1 - 1) with (Z.log2 (Z.pos p)) by lia. lia. Qed.

(** ** Shifting right *)

(** The record [mrs] is [m] shifted right by [k]: the quotient, and whether anything
    was lost. *)
Definition shifted (m : Z) (k : nat) (mrs : shr_record) : Prop :=
  shr_m mrs = m / 2 ^ Z.of_nat k ∧ (shr_r mrs = false ∧ shr_s mrs = false ↔ m mod 2 ^ Z.of_nat k = 0).

Lemma shr_1_half mrs : 0 <= shr_m mrs →
  shr_m (shr_1 mrs) = shr_m mrs / 2 ∧
  (shr_r (shr_1 mrs) = false ∧ shr_s (shr_1 mrs) = false ↔ shr_r mrs = false ∧ shr_s mrs = false ∧ shr_m mrs mod 2 = 0).
Proof.
  destruct mrs as [[|[p|p|]|p] r s]; cbn [shr_m shr_r shr_s shr_1]; intros Hm; [| | | |lia].
  - split; [done|]. destruct r, s; cbn; naive_solver.
  - rewrite Pos2Z.inj_xI. split; [rewrite Z.add_comm, Z.mul_comm, Z.div_add by lia; done|].
    rewrite Z.add_comm, Z.mul_comm, Z.mod_add by lia. cbn. naive_solver.
  - rewrite Pos2Z.inj_xO. split; [rewrite Z.mul_comm, Z.div_mul by lia; done|].
    rewrite Z.mul_comm, Z.mod_mul by lia. destruct r, s; cbn; naive_solver.
  - split; [done|]. cbn. naive_solver.
Qed.

Lemma shifted_step m k mrs : 0 <= m → shifted m k mrs → shifted m (S k) (shr_1 mrs).
Proof.
  intros Hm [H1 H2]. unfold shifted. assert (0 < 2 ^ Z.of_nat k) by (apply Z.pow_pos_nonneg; lia).
  assert (0 <= shr_m mrs) as Hp by (rewrite H1; apply Z.div_pos; lia).
  destruct (shr_1_half mrs Hp) as [K1 K2]. rewrite Nat2Z.inj_succ, Z.pow_succ_r by lia. split.
  - rewrite K1, H1, Z.div_div by lia. f_equal. lia.
  - rewrite K2, H1. rewrite (Z.mul_comm 2). rewrite Z.rem_mul_r by lia.
    pose proof (Z.mod_pos_bound m (2 ^ Z.of_nat k)). pose proof (Z.mod_pos_bound (m / 2 ^ Z.of_nat k) 2).
    split; [intros (? & ? & ?)|intros Hz].
    + assert (m mod 2 ^ Z.of_nat k = 0) by (by apply H2). lia.
    + assert (m mod 2 ^ Z.of_nat k = 0 ∧ (m / 2 ^ Z.of_nat k) mod 2 = 0) as [Ha Hb] by nia.
      apply H2 in Ha as [? ?]. done.
Qed.

Lemma iter_pos_nat {A} (f : A → A) (p : positive) (x : A) : SpecFloat.iter_pos f p x = Nat.iter (Pos.to_nat p) f x.
Proof.
  revert x. induction p as [p IH|p IH|]; intros x; cbn [SpecFloat.iter_pos]; [| |done].
  - rewrite !IH, <- Nat.iter_add. rewrite Pos2Nat.inj_xI. replace (S (2 * Pos.to_nat p))%nat with (Pos.to_nat p + Pos.to_nat p + 1)%nat by lia.
    by rewrite (Nat.iter_add (Pos.to_nat p + Pos.to_nat p) 1).
  - rewrite !IH, <- Nat.iter_add. rewrite Pos2Nat.inj_xO. f_equal. lia.
Qed.

Lemma iter_shifted m k : 0 <= m → shifted m k (Nat.iter k shr_1 (Build_shr_record m false false)).
Proof.
  intros Hm. induction k as [|k IH]; cbn [Nat.iter].
  - split; cbn; [by rewrite Z.div_1_r|]. by rewrite Z.mod_1_r.
  - by apply shifted_step.
Qed.

(** Rounding the shifted mantissa stays under an integer bound. *)
Lemma round_shifted m k mrs K :
  0 <= m → shifted m k mrs → m <= K * 2 ^ Z.of_nat k →
  0 <= round_nearest_even (shr_m mrs) (loc_of_shr_record mrs) <= K.
Proof.
  intros Hm [H1 H2] HK. assert (0 < 2 ^ Z.of_nat k) by (apply Z.pow_pos_nonneg; lia).
  assert (0 <= shr_m mrs) by (rewrite H1; apply Z.div_pos; lia).
  pose proof (Z.div_mod m (2 ^ Z.of_nat k)). pose proof (Z.mod_pos_bound m (2 ^ Z.of_nat k)).
  assert (shr_m mrs <= K) by (rewrite H1; apply Z.div_le_upper_bound; nia).
  assert (shr_r mrs = true ∨ shr_s mrs = true → shr_m mrs + 1 <= K) as Hinc.
  { intros Hrs. assert (m mod 2 ^ Z.of_nat k ≠ 0) by (intros Hz; apply H2 in Hz as [Hr Hs]; rewrite Hr, Hs in Hrs; by destruct Hrs).
    rewrite H1. nia. }
  destruct mrs as [m' [] []]; cbn in *; try specialize (Hinc ltac:(auto)); try lia. destruct (Z.even m'); lia.
Qed.

(** ** The product *)

(** The record and exponent after a normalizing shift. *)
Lemma shr_fexp_spec m e : 0 <= m →
  ∃ k mrs, shr_fexp 24 128 m e loc_Exact = (mrs, e + Z.of_nat k) ∧ shifted m k mrs
    ∧ (e + Z.of_nat k = e ∨ e + Z.of_nat k = f32_fexp (Zdigits2 m + e)).
Proof.
  intros Hm. unfold shr_fexp, shr. fold f32_fexp. cbn [shr_record_of_loc].
  destruct (f32_fexp (Zdigits2 m + e) - e) as [|p|p] eqn:En.
  - exists 0%nat, (Build_shr_record m false false). rewrite Z.add_0_r. split_and!; [done|apply (iter_shifted m 0 Hm)|by left].
  - exists (Pos.to_nat p), (SpecFloat.iter_pos shr_1 p (Build_shr_record m false false)). rewrite positive_nat_Z.
    split_and!; [done|rewrite iter_pos_nat; by apply iter_shifted|right; lia].
  - exists 0%nat, (Build_shr_record m false false). rewrite Z.add_0_r. split_and!; [done|apply (iter_shifted m 0 Hm)|by left].
Qed.

Lemma fexp_mono a b : a <= b → f32_fexp a <= f32_fexp b.
Proof. unfold f32_fexp, fexp. lia. Qed.

Lemma digits_mono m e m' e' :
  Z.pos m * 2 ^ (e - Z.min e e') <= Z.pos m' * 2 ^ (e' - Z.min e e') → Z.pos (digits2_pos m) + e <= Z.pos (digits2_pos m') + e'.
Proof.
  intros Hle. destruct (digits_bound m) as [Hl _]. destruct (digits_bound m') as [_ Hu].
  assert (2 ^ (Z.pos (digits2_pos m) - 1 + (e - Z.min e e')) < 2 ^ (Z.pos (digits2_pos m') + (e' - Z.min e e'))) as Hlt.
  { rewrite !Z.pow_add_r by lia. pose proof (Z.pow_pos_nonneg 2 (e - Z.min e e')). pose proof (Z.pow_pos_nonneg 2 (e' - Z.min e e')). nia. }
  apply Z.pow_lt_mono_r_iff in Hlt; lia.
Qed.

(** [m * 2^e <= mx * 2^ex], with the exponents above a common one. *)
Definition below (m e mx ex : Z) : Prop := e <= ex ∧ m <= mx * 2 ^ (ex - e).

(** Normalizing and rounding keeps a mantissa below a canonical number. *)
Lemma normal_below m e mx ex :
  0 <= m → f32_fexp (Z.pos (digits2_pos mx) + ex) = ex → below m e (Z.pos mx) ex →
  ∃ m' e', (let '(mrs, e') := shr_fexp 24 128 m e loc_Exact in (round_nearest_even (shr_m mrs) (loc_of_shr_record mrs), e')) = (m', e')
    ∧ 0 <= m' ∧ below m' e' (Z.pos mx) ex.
Proof.
  intros Hm Hc [He Hle]. destruct (shr_fexp_spec m e Hm) as (k & mrs & -> & Hs & Hk).
  assert (e + Z.of_nat k <= ex) as Hek.
  { destruct Hk as [->| ->]; [done|]. rewrite <- Hc. apply fexp_mono. destruct m as [|m|m]; [|cbn [Zdigits2]|lia].
    - cbn [Zdigits2]. assert (0 < Z.pos (digits2_pos mx)) by lia. lia.
    - apply digits_mono. rewrite Z.min_l by lia. replace (e - e) with 0 by lia. lia. }
  eexists _, _. split; [done|]. assert (m <= Z.pos mx * 2 ^ (ex - (e + Z.of_nat k)) * 2 ^ Z.of_nat k) as HK.
  { rewrite <- Z.mul_assoc, <- Z.pow_add_r by lia. by replace (ex - (e + Z.of_nat k) + Z.of_nat k) with (ex - e) by lia. }
  pose proof (round_shifted m k mrs _ Hm Hs HK) as [? ?]. by split_and!.
Qed.

Lemma round_aux_below m e mx ex :
  bounded 24 128 mx ex = true → below (Z.pos m) e (Z.pos mx) ex →
  fleb (binary_round_aux 24 128 false (Z.pos m) e loc_Exact) (S754_finite false mx ex) = true
  ∧ fleb f32_zero (binary_round_aux 24 128 false (Z.pos m) e loc_Exact) = true.
Proof.
  unfold bounded, canonical_mantissa. fold f32_fexp. intros [Hc%Z.eqb_eq Hmax%Z.leb_le]%andb_true_iff Hb.
  destruct (normal_below (Z.pos m) e mx ex ltac:(lia) Hc Hb) as (m1 & e1 & E1 & Hm1 & Hb1). unfold binary_round_aux.
  destruct (shr_fexp 24 128 (Z.pos m) e loc_Exact) as [mrs1 e1']. injection E1 as E1 ->. rewrite E1.
  destruct (shr_fexp_spec m1 e1 Hm1) as (k & mrs & Esh & [Hs _] & Hk). rewrite Esh. destruct Hb1 as [He1 Hle1].
  assert (0 < 2 ^ Z.of_nat k) by (apply Z.pow_pos_nonneg; lia).
  assert (0 <= shr_m mrs) as Hp by (rewrite Hs; apply Z.div_pos; lia).
  destruct (shr_m mrs) as [|m2|m2] eqn:E2; [done| |lia].
  assert (0 < m1) by (destruct (Z.eq_dec m1 0) as [->|]; [rewrite Z.div_0_l in Hs by lia; lia|lia]).
  assert (e1 + Z.of_nat k <= ex) as Hek.
  { destruct Hk as [->| ->]; [done|]. rewrite <- Hc. apply fexp_mono. destruct m1 as [|m1|m1]; [lia|cbn [Zdigits2]|lia].
    apply digits_mono. rewrite Z.min_l by lia. replace (e1 - e1) with 0 by lia. lia. }
  rewrite (proj2 (Z.leb_le _ _)) by (unfold emin in *; lia). split; [|done].
  unfold fleb, SFleb, SFcompare. destruct (Z.compare_spec (e1 + Z.of_nat k) ex) as [Heq|Hlt|Hgt]; [|done|lia].
  assert (Z.pos m2 <= Z.pos mx) as Hmm.
  { pose proof (Z.mul_div_le m1 (2 ^ Z.of_nat k) ltac:(lia)) as Hd. rewrite <- Hs in Hd.
    replace (ex - e1) with (Z.of_nat k) in Hle1 by lia. nia. }
  assert (Pos.compare_cont Eq m2 mx ≠ Gt) as Hg; [|by destruct (Pos.compare_cont Eq m2 mx)].
  intros Hg. change ((Z.pos m2 ?= Z.pos mx) = Gt) in Hg. apply Z.compare_gt_iff in Hg. lia.
Qed.

(** A factor of at most one, as a mantissa and an exponent. *)
Lemma unit_factor my ey :
  bounded 24 128 my ey = true → fleb (S754_finite false my ey) f32_one = true → ey <= 0 ∧ Z.pos my <= 2 ^ (- ey).
Proof.
  unfold bounded, canonical_mantissa. fold f32_fexp. intros [Hc%Z.eqb_eq _]%andb_true_iff Hle.
  assert (f32_one = S754_finite false 8388608 (-23)) as Hone by by vm_compute. rewrite Hone in Hle.
  unfold fleb, SFleb, SFcompare in Hle. destruct (digits_bound my) as [_ Hu].
  assert (Z.pos (digits2_pos my) <= 24) as Hd by (unfold f32_fexp, fexp in Hc; lia).
  assert (Z.pos my < 2 ^ 24) by (eapply Z.lt_le_trans; [exact Hu|apply Z.pow_le_mono_r; lia]).
  destruct (Z.compare_spec ey (-23)) as [->|Hlt|Hgt]; [|split; [lia|]|done].
  - split; [lia|]. change (Z.pos my <= 8388608). destruct (Pos.compare_cont Eq my 8388608) eqn:Eg; [| |done].
    + change ((Z.pos my ?= 8388608) = Eq) in Eg. apply Z.compare_eq_iff in Eg. by rewrite Eg.
    + change ((Z.pos my ?= 8388608) = Lt) in Eg. apply Z.compare_lt_iff in Eg. by apply Z.lt_le_incl.
  - transitivity (2 ^ 24); [lia|]. apply Z.pow_le_mono_r; lia.
Qed.

Lemma f32_mul_unit x p :
  valid x → is_finite x = true → fleb f32_zero x = true → valid p → fleb f32_zero p = true → fleb p f32_one = true →
  fleb (f32_mul x p) x = true ∧ fleb f32_zero (f32_mul x p) = true.
Proof.
  unfold valid, f32_mul. intros Hx Hf Hx0 Hp Hp0 Hp1.
  destruct x as [sx|sx| |sx mx ex]; [|done|done|].
  - destruct p as [sp|[]| |sp my ey]; try done.
  - destruct sx; [done|]. destruct p as [sp|[]| |[] my ey]; try done.
    cbn [SFmul xorb]. cbn [valid_binary] in Hx, Hp. destruct (unit_factor my ey Hp Hp1) as [He Hm].
    apply round_aux_below; [done|]. rewrite Pos2Z.inj_mul. split; [lia|]. replace (ex - (ex + ey)) with (- ey) by lia. nia.
Qed.

(** ** Products are machine numbers *)

Lemma shr_fexp_exact m e :
  0 <= m → e <= f32_fexp (Zdigits2 m + e) →
  ∃ mrs, shr_fexp 24 128 m e loc_Exact = (mrs, f32_fexp (Zdigits2 m + e)) ∧ shifted m (Z.to_nat (f32_fexp (Zdigits2 m + e) - e)) mrs.
Proof.
  intros Hm He. unfold shr_fexp, shr. fold f32_fexp. cbn [shr_record_of_loc].
  destruct (f32_fexp (Zdigits2 m + e) - e) as [|p|p] eqn:En; [| |lia].
  - exists (Build_shr_record m false false). split; [f_equal; lia|apply (iter_shifted m 0 Hm)].
  - exists (SpecFloat.iter_pos shr_1 p (Build_shr_record m false false)). split; [f_equal; lia|].
    rewrite iter_pos_nat. by apply iter_shifted.
Qed.

Lemma digits_pos m : 0 < m → Zdigits2 m = Z.log2 m + 1.
Proof. destruct m as [|m|m]; [lia| |lia]. intros _. apply digits_log2. Qed.

Lemma digits_shifted m k : 0 < m → 0 < m / 2 ^ Z.of_nat k → Zdigits2 (m / 2 ^ Z.of_nat k) = Zdigits2 m - Z.of_nat k.
Proof.
  intros Hm Hq. rewrite !digits_pos by done. rewrite <- Z.shiftr_div_pow2 in * by lia. rewrite Z.log2_shiftr by done.
  rewrite Z.shiftr_div_pow2 in Hq by lia. assert (2 ^ Z.of_nat k <= m).
  { apply Z.nlt_ge. intros Hlt. rewrite Z.div_small in Hq by lia. lia. }
  assert (Z.of_nat k <= Z.log2 m) by (apply Z.log2_le_pow2; lia). lia.
Qed.

Lemma round_up_le m k mrs :
  0 <= m → shifted m k mrs →
  let q := m / 2 ^ Z.of_nat k in
  q <= round_nearest_even (shr_m mrs) (loc_of_shr_record mrs) <= q + 1.
Proof.
  intros Hm [H1 _]. cbv zeta. rewrite <- H1. destruct mrs as [m' [] []]; cbn; try lia. destruct (Z.even m'); lia.
Qed.

Lemma round_aux_valid s m e :
  e <= f32_fexp (Z.pos (digits2_pos m) + e) → valid (binary_round_aux 24 128 s (Z.pos m) e loc_Exact).
Proof.
  intros He. unfold binary_round_aux.
  destruct (shr_fexp_exact (Z.pos m) e ltac:(lia) He) as (mrs1 & -> & Hs1). cbn [Zdigits2] in *.
  set (e1 := f32_fexp (Z.pos (digits2_pos m) + e)) in *. set (k := Z.to_nat (e1 - e)) in *.
  pose proof (round_up_le (Z.pos m) k mrs1 ltac:(lia) Hs1) as Hr. cbv zeta in Hr.
  assert (0 < 2 ^ Z.of_nat k) by (apply Z.pow_pos_nonneg; lia).
  assert (0 <= Z.pos m / 2 ^ Z.of_nat k) by (apply Z.div_pos; lia).
  set (m1 := round_nearest_even _ _) in *. destruct (Z.eq_dec m1 0) as [E0|Hm1].
  { rewrite E0. unfold shr_fexp, shr. fold f32_fexp. cbn [shr_record_of_loc Zdigits2]. rewrite Z.add_0_l.
    assert (f32_fexp e1 <= Z.max e1 (-149)) as Hf by (unfold f32_fexp, fexp, emin; lia).
    destruct (f32_fexp e1 - e1) as [|p|p]; [done| |done]. rewrite iter_pos_nat.
    destruct (iter_shifted 0 (Pos.to_nat p) ltac:(lia)) as [Hz _]. rewrite Z.div_0_l in Hz by lia.
    destruct (Nat.iter _ _ _) as [mz rz sz]. cbn [shr_m] in Hz |- *. by subst mz. }
  assert (e1 <= f32_fexp (Zdigits2 m1 + e1)) as He1.
  { destruct (Z.eq_dec (Z.pos m / 2 ^ Z.of_nat k) 0) as [Hq|Hq].
    - assert (m1 = 1) as -> by lia. cbn [Zdigits2].
      assert (Z.pos m < 2 ^ Z.of_nat k) as Hlt by (by apply Z.div_small_iff in Hq as [?|?]; lia).
      assert (Z.pos (digits2_pos m) <= Z.of_nat k) as Hd.
      { destruct (digits_bound m) as [Hl _]. assert (2 ^ (Z.pos (digits2_pos m) - 1) < 2 ^ Z.of_nat k) as Hp by lia.
        apply Z.pow_lt_mono_r_iff in Hp; lia. }
      assert (e1 <= f32_fexp e1) as Hself by (apply fexp_mono; lia). unfold f32_fexp, fexp, emin in *. lia.
    - assert (Zdigits2 (Z.pos m / 2 ^ Z.of_nat k) <= Zdigits2 m1) as Hd
        by (rewrite !digits_pos by lia; apply Z.add_le_mono_r, Z.log2_le_mono; lia).
      rewrite digits_shifted in Hd by lia. cbn [Zdigits2] in Hd. unfold e1 at 1. apply fexp_mono. lia. }
  destruct (shr_fexp_exact m1 e1 ltac:(lia) He1) as (mrs2 & -> & [Hs2 _]).
  set (e2 := f32_fexp (Zdigits2 m1 + e1)) in *. set (k2 := Z.to_nat (e2 - e1)) in *.
  destruct (shr_m mrs2) as [|m2|m2] eqn:E2; [done| |]; [|exfalso; assert (0 <= m1 / 2 ^ Z.of_nat k2) by (apply Z.div_pos; lia); lia].
  destruct (Z.leb_spec e2 (128 - 24)) as [Hmax|]; [|done]. unfold valid, valid_binary, bounded, canonical_mantissa. fold f32_fexp.
  assert (Z.pos (digits2_pos m2) = Zdigits2 m1 - Z.of_nat k2) as Hd by (rewrite <- digits_shifted; [by rewrite <- Hs2|lia|lia]).
  rewrite Hd. replace (Zdigits2 m1 - Z.of_nat k2 + e2) with (Zdigits2 m1 + e1) by lia. fold e2.
  rewrite Z.eqb_refl. by apply Z.leb_le.
Qed.

Lemma f32_mul_valid x y : valid x → valid y → valid (f32_mul x y).
Proof.
  destruct x as [sx|sx| |sx mx ex], y as [sy|sy| |sy my ey]; try done. intros Hx Hy. apply round_aux_valid.
  unfold valid, valid_binary, bounded, canonical_mantissa in Hx, Hy. fold f32_fexp in Hx, Hy.
  apply andb_true_iff in Hx as [Hx%Z.eqb_eq _]. apply andb_true_iff in Hy as [Hy%Z.eqb_eq _].
  assert (Z.pos (digits2_pos mx) + Z.pos (digits2_pos my) - 1 <= Z.pos (digits2_pos (mx * my))) as Hd.
  { rewrite !digits_log2, Pos2Z.inj_mul. pose proof (Z.log2_mul_below (Z.pos mx) (Z.pos my) ltac:(lia) ltac:(lia)). lia. }
  unfold f32_fexp, fexp, emin in *. lia.
Qed.

(** Repeated multiplication of a factor gives a factor. *)
Lemma powi_mul_unit x n :
  valid x → fleb f32_zero x = true → fleb x f32_one = true →
  valid (powi_mul x n) ∧ fleb f32_zero (powi_mul x n) = true ∧ fleb (powi_mul x n) f32_one = true.
Proof.
  intros Hv H0 H1. unfold powi_mul. induction (Z.to_nat n) as [|k IH]; [by vm_compute|].
  destruct IH as (Hvn & H0n & H1n). change (Nat.iter (S k) ?f ?x) with (f (Nat.iter k f x)).
  assert (is_finite x = true) as Hf by (destruct x as [|[]| |]; done).
  destruct (f32_mul_unit x (Nat.iter k (f32_mul x) f32_one) Hv Hf H0 Hvn H0n H1n) as [Hle Hge].
  split_and!; [by apply f32_mul_valid|done|]. by eapply fleb_trans.
Qed.
