(* ===== verification/SearchConfig.v ===== *)
(** * SearchConfig: the switches of semantic search, and failures

    Models the environment variables [src/crates/graph/src/search.rs] reads, each
    once per process, and the [Result] its queries return. *)
From S2P Require Import Prelude Text Float.
From Stdlib Require Import ZArith.
Local Open Scope codesage_scope.

(** ** [anyhow::Result] *)

(** An error: its text, and whether a stopped request ([WorkStopped]) is among
    its causes. *)
Record Error := { message : bytes; work_stopped : bool }.

Inductive result (A : Type) := Ok (a : A) | Err (e : Error).
Arguments Ok {A} a.
Arguments Err {A} e.

(** [?]. *)
Definition try_ {A B} (r : result A) (f : A → result B) : result B :=
  match r with Ok a => f a | Err e => Err e end.

Notation "'let?' x := r 'in' k" := (try_ r (λ x, k)) (at level 10, x binder, r at level 100, k at level 200).

(** [r.map(f)]. *)
Definition result_map {A B} (f : A → B) (r : result A) : result B := match r with Ok a => Ok (f a) | Err e => Err e end.

(** [r.unwrap_or(d)]. *)
Definition unwrap_or {A} (r : result A) (d : A) : A := match r with Ok a => a | Err _ => d end.

Lemma try_Ok {A B} (r : result A) (f : A → result B) b : try_ r f = Ok b ↔ ∃ a, r = Ok a ∧ f a = Ok b.
Proof. destruct r; cbn; naive_solver. Qed.

Lemma Ok_inj {A} (a b : A) : Ok a = Ok b → a = b.
Proof. by intros [=]. Qed.

(** ** The switches *)

(** The environment: the value of a variable, if it is set to Unicode text. *)
Class Env := env_var : bytes → option bytes.

Section switches.
Context {E : Env}.

Definition env_in (values : list string) (var : string) : bool :=
  match env_var (bs var) with Some v => contains_word (map bs values) v | None => false end.

Definition env_default_on (var : string) : bool := negb (env_in ["0"; "false"]%string var).
Definition env_default_off (var : string) : bool := env_in ["1"; "true"]%string var.

Definition qualified_groups_enabled : bool := env_in ["1"]%string "CODESAGE_QUALIFIED_GROUPS".
Definition qualified_name_boost_enabled : bool :=
  env_in ["1"; "true"; "TRUE"; "True"; "yes"]%string "CODESAGE_QUALIFIED_NAME_BOOST".
Definition version_demote_enabled : bool := env_default_on "CODESAGE_VERSION_DEMOTE".
Definition platform_demote_enabled : bool := env_default_off "CODESAGE_PLATFORM_DEMOTE".
Definition php_declaration_demote_enabled : bool := env_default_off "CODESAGE_PHP_DECLARATION_DEMOTE".
Definition stem_match_boost_enabled : bool := env_default_off "CODESAGE_STEM_MATCH_BOOST".
Definition fused_rerank_enabled : bool := env_default_off "CODESAGE_FUSED_RERANK".
Definition definition_boost_enabled : bool := env_default_on "CODESAGE_DEFINITION_BOOST".
Definition stem_scan_enabled : bool := env_default_on "CODESAGE_STEM_SCAN".
Definition test_query_aware_enabled : bool := env_default_on "CODESAGE_TEST_QUERY_AWARE".
Definition path_penalty_enabled : bool := env_default_on "CODESAGE_PATH_PENALTY".
Definition dir_saturation_enabled : bool := env_default_on "CODESAGE_DIR_SATURATION".
Definition file_saturation_enabled : bool := env_default_on "CODESAGE_FILE_SATURATION".
Definition mention_anchor_enabled : bool := env_default_on "CODESAGE_MENTION_ANCHOR".
Definition adaptive_rerank_weight_enabled : bool := env_default_on "CODESAGE_ADAPTIVE_RERANK".

Inductive HybridMode := Gated | Always | Never.

Definition hybrid_mode : HybridMode :=
  if env_in ["always"]%string "CODESAGE_HYBRID" then Always
  else if env_in ["never"]%string "CODESAGE_HYBRID" then Never
  else Gated.

Definition DIR_SATURATION_THRESHOLD_DEFAULT : nat := 2.
Definition DIR_SATURATION_DECAY_DEFAULT {F : FloatOps} : f32 := f32_lit 3 4.

(** [s.parse::<usize>()]: an optional [+], then digits of a number that fits. *)
Definition parse_usize (s : bytes) : option N :=
  let digits := default s (strip_prefix (bs "+") s) in
  if negb (bytes_eqb digits []) && forallb is_ascii_digit digits && (dec_value digits <? 2 ^ 64)%N
  then Some (dec_value digits) else None.

Definition dir_saturation_threshold : N :=
  match s ← env_var (bs "CODESAGE_DIR_SATURATION_THRESHOLD"); parse_usize s with
  | Some n => if (1 <=? n)%N then n else N.of_nat DIR_SATURATION_THRESHOLD_DEFAULT
  | None => N.of_nat DIR_SATURATION_THRESHOLD_DEFAULT
  end.

Definition dir_saturation_decay {F : FloatOps} : f32 :=
  match s ← env_var (bs "CODESAGE_DIR_SATURATION_DECAY"); parse_f32 s with
  | Some v => if fltb f32_zero v && fleb v f32_one then v else DIR_SATURATION_DECAY_DEFAULT
  | None => DIR_SATURATION_DECAY_DEFAULT
  end.
End switches.

Lemma dir_saturation_threshold_pos `{Env} : (1 <= dir_saturation_threshold)%N.
Proof.
  unfold dir_saturation_threshold. destruct (s ← _; _); [|done]. destruct (1 <=? n)%N eqn:Hn; [by apply N.leb_le|done].
Qed.
