(* ===== verification/SearchText.v ===== *)
(** * SearchText: from a query to a full-text expression

    Models the query half of [src/crates/graph/src/search.rs]: which words of a
    query look like code, the names it qualifies, the FTS5 [MATCH] expression
    built of them, and the gate that decides whether lexical search runs. *)
From Stdlib Require Import SpecFloat.
From stdpp Require Import gmap.
From S2P Require Import Prelude Text Utf8 Unicode Order Float SearchConfig.
From Stdlib Require Import Lia ZArith.
Local Open Scope byte_scope.
Local Open Scope codesage_scope.

Definition QUOTE : byte := x22.
Definition quoted (t : bytes) : bytes := QUOTE :: t ++ [QUOTE].

(** [token_looks_code_shaped]. *)
Definition token_looks_code_shaped (tok : bytes) : bool :=
  has_byte "_" tok || existsb is_ascii_uppercase tok || existsb is_ascii_digit tok.

(** ** Dotted identifiers *)

Definition is_id_start (b : byte) : bool := is_ascii_alphabetic b || (b =? "_").
Definition is_id_body (b : byte) : bool := is_ascii_alphanumeric b || (b =? "_").

Definition starts_at (p : byte → bool) (s : bytes) (i : nat) : bool :=
  match s !! i with Some b => p b | None => false end.

(** One round per byte is enough: each goes on further in the query. *)
Fixpoint dotted_loop (fuel : nat) (query : bytes) (i : nat) : list bytes :=
  match fuel with
  | 0 => []
  | S fuel =>
      if length query <=? i then []
      else if negb (starts_at is_id_start query i) then dotted_loop fuel query (S i)
      else
        let start := i in
        let i := scan_while is_id_body query i in
        let first := slice start i query in
        if (length first <? 3) || negb (at_is query i ".") then dotted_loop fuel query i
        else if negb (starts_at is_id_start query (S i)) then dotted_loop fuel query i
        else
          let second_start := S i in
          let i := scan_while is_id_body query second_start in
          let second := slice second_start i query in
          if length second <? 3 then dotted_loop fuel query i
          else first :: second :: dotted_loop fuel query i
  end.

Definition extract_dotted_identifier_tokens (query : bytes) : list bytes := dotted_loop (length query) query 0.

Section query.
Context {U : Unicode}.

Definition one (b : byte) (c : char) : bool := bytes_eqb c [b].

(** [c.is_alphanumeric() || c == '_'], also [is_token_char]. *)
Definition is_token_char (c : char) : bool := is_alphanumeric c || one "_" c.
Definition is_sep (c : char) : bool := negb (is_alphanumeric c) && negb (one "_" c).

(** ** Qualified names *)

Definition extract_qualified_name_groups_legacy (query : bytes) : list (list bytes) :=
  omap (λ raw,
    if negb (contains (bs "::") raw) && negb (has_byte "\" raw) then None
    else
      let parts := List.filter (λ p, (2 <=? length p) && forallb is_token_char (chars p))
                     (split_by (λ c, one ":" c || one "\" c) raw) in
      if 2 <=? length parts then Some parts else None)
    (split_by (λ c, is_whitespace c || one "," c || one ";" c) query).

(** [identifier_end]: past the identifier at [start], or [start]. *)
Definition identifier_end (query : bytes) (start : nat) : nat :=
  match chars (drop start query) with
  | [] => start
  | c :: cs =>
      if negb (is_alphabetic c || one "_" c) then start
      else start + length (concat (c :: take (count_while is_token_char cs) cs))
  end.

Record QualifiedName := { qn_start : nat; qn_end : nat; qn_parts : list bytes }.

(** The separator at the head of a suffix. *)
Definition separator_len (suffix : bytes) : option nat :=
  if starts_with (bs "::") suffix then Some 2
  else if starts_with ["\"] suffix || starts_with ["."] suffix then Some 1
  else None.

(** The inner loop: the parts after [parts], and where they end. *)
Fixpoint group_loop (fuel : nat) (query : bytes) (end_ : nat) (parts : list bytes) : nat * list bytes :=
  match fuel with
  | 0 => (end_, parts)
  | S fuel =>
      let suffix := drop end_ query in
      match separator_len suffix with
      | None => (end_, parts)
      | Some n =>
          let next_start := end_ + n in
          let next_end := identifier_end query next_start in
          if Nat.eqb next_end next_start then (end_, parts)
          else
            let next := slice next_start next_end query in
            if starts_with ["."] suffix &&
               ((length (chars (default [] (last parts))) <? 3) || (length (chars next) <? 3))
            then (end_, parts)
            else group_loop fuel query next_end (parts ++ [next])
      end
  end.

(** The outer loop. *)
Fixpoint groups_loop (fuel : nat) (query : bytes) (cursor : nat) : list QualifiedName :=
  match fuel with
  | 0 => []
  | S fuel =>
      if length query <=? cursor then []
      else
        let start := cursor in
        let end_ := identifier_end query start in
        if Nat.eqb end_ start then
          groups_loop fuel query (cursor + length (default [] (head (chars (drop cursor query)))))
        else
          let '(end_, parts) := group_loop (length query) query end_ [slice start end_ query] in
          let rest := groups_loop fuel query end_ in
          if 2 <=? length parts then {| qn_start := start; qn_end := end_; qn_parts := parts |} :: rest else rest
  end.

Definition extract_qualified_name_groups (query : bytes) : list QualifiedName :=
  groups_loop (length query) query 0.

(** ** The [MATCH] expression *)

(** What the builders accumulate: the keys seen and the terms. *)
Record Terms := { seen : gset bytes; tokens : list bytes }.

(** [if seen.insert(key) { tokens.push(term) }]. *)
Definition push_term (st : Terms) (key term : bytes) : Terms :=
  if decide (key ∈ seen st) then st
  else {| seen := {[key]} ∪ seen st; tokens := tokens st ++ [term] |}.

Definition no_terms : Terms := {| seen := ∅; tokens := [] |}.

Definition legacy_group (acc : Terms * gset bytes) (parts : list bytes) : Terms * gset bytes :=
  let '(st, suppressed) := acc in
  match last parts with
  | Some tail =>
      if token_looks_code_shaped tail then
        (push_term st (to_lowercase tail) (quoted tail),
         suppressed ∪ list_to_set (map to_lowercase (removelast parts)))
      else (st, suppressed)
  | None => (st, suppressed)
  end.

(** The words of the query itself. *)
Definition plain_term (suppressed : gset bytes) (st : Terms) (raw : bytes) : Terms :=
  if (length raw <? 2) || negb (token_looks_code_shaped raw) then st
  else
    let key := to_lowercase raw in
    if decide (key ∈ suppressed) then st else push_term st key (quoted raw).

Definition OR : bytes := bs " OR ".
Definition AND : bytes := bs " AND ".

Definition legacy_terms (query : bytes) : Terms :=
  let '(st, suppressed) := fold_left legacy_group (extract_qualified_name_groups_legacy query) (no_terms, ∅) in
  let st := fold_left (λ st tok, push_term st (to_lowercase tok) (quoted tok))
              (extract_dotted_identifier_tokens query) st in
  fold_left (plain_term suppressed) (split_by is_sep query) st.

Definition build_fts_match_query_legacy (query : bytes) : bytes :=
  join_sub OR (tokens (legacy_terms query)).

Definition and_group (parts : list bytes) : bytes :=
  "(" :: join_sub AND (map quoted parts) ++ [")"].

Definition mode_group (query : bytes) (fallback : bool) (st : Terms) (g : QualifiedName) : Terms :=
  if fallback then
    let dotted := has_byte "." (slice (qn_start g) (qn_end g) query) in
    let parts :=
      if negb dotted && (match last (qn_parts g) with Some p => token_looks_code_shaped p | None => false end)
      then drop (length (qn_parts g) - 1) (qn_parts g) else qn_parts g in
    fold_left (λ st part, push_term st (to_lowercase part) (quoted part))
      (List.filter (λ part, dotted || token_looks_code_shaped part) parts) st
  else
    let expression := and_group (qn_parts g) in
    push_term st (to_lowercase expression) expression.

(** The text between the groups. *)
Fixpoint outside_groups (query : bytes) (cursor : nat) (groups : list QualifiedName) : list bytes :=
  match groups with
  | [] => [drop cursor query]
  | g :: groups => slice cursor (qn_start g) query :: outside_groups query (qn_end g) groups
  end.

Definition mode_terms (query : bytes) (fallback : bool) : Terms :=
  let groups := extract_qualified_name_groups query in
  let st := fold_left (mode_group query fallback) groups no_terms in
  fold_left (plain_term ∅) (concat (map (split_by is_sep) (outside_groups query 0 groups))) st.

Definition build_fts_match_query_mode (query : bytes) (fallback : bool) : bytes :=
  join_sub OR (tokens (mode_terms query fallback)).

Definition build_fts_match_query {E : Env} (query : bytes) : bytes :=
  if qualified_groups_enabled then build_fts_match_query_mode query false
  else build_fts_match_query_legacy query.

(** ** The lexical gate *)

Definition RARE_TOKEN_DF_THRESHOLD : f64 := f64_lit 1 100.
Definition RARE_TOKEN_MIN_LEN : nat := 8.

(** The tokens the gate looks up in the index. *)
Definition rare_candidates (query : bytes) : list bytes :=
  List.filter (λ tok, negb (length tok <? RARE_TOKEN_MIN_LEN) && token_looks_code_shaped tok)
    (map (trim_matches (λ c, negb (is_alphanumeric c) && negb (one "_" c)))
       (split_by (λ c, one "|" c || is_whitespace c || one "," c || one ";" c) query)).

(** [token_doc_frequency]: the chunks with a token, and all of them. *)
Fixpoint rare_token (token_doc_frequency : bytes → result (N * N)) (toks : list bytes) : result bool :=
  match toks with
  | [] => Ok false
  | tok :: toks =>
      let? counts := token_doc_frequency tok in
      let '(doc, total) := counts in
      if (total =? 0)%N then rare_token token_doc_frequency toks
      else
        let df := f64_div (f64_of_Z (Z.of_N doc)) (f64_of_Z (Z.of_N total)) in
        if (0 <? doc)%N && fltb df RARE_TOKEN_DF_THRESHOLD then Ok true
        else rare_token token_doc_frequency toks
  end.

Definition query_has_rare_literal_with_groups (token_doc_frequency : bytes → result (N * N))
    (query : bytes) (groups : bool) : result bool :=
  if contains (bs "::") query || has_byte "`" query || contains (bs "*.") query then Ok true
  else if (if groups then negb (Nat.eqb (length (extract_qualified_name_groups query)) 0)
           else negb (Nat.eqb (length (extract_dotted_identifier_tokens query)) 0)) then Ok true
  else rare_token token_doc_frequency (rare_candidates query).

Definition query_has_rare_literal {E : Env} (token_doc_frequency : bytes → result (N * N)) (query : bytes)
    : result bool :=
  query_has_rare_literal_with_groups token_doc_frequency query qualified_groups_enabled.

(** ** Known symbols, and whole tokens in text *)

Definition looks_like_identifier (s : bytes) : bool :=
  match chars s with
  | [] => false
  | first :: _ =>
      if negb (is_alphabetic first) && negb (one "_" first) then false
      else has_byte "_" s || existsb is_uppercase (chars s)
           || forallb is_token_char (chars s) && (4 <=? length s)
  end.

Fixpoint known_loop (symbol_exists : bytes → result bool) (toks : list bytes) : result (list bytes) :=
  match toks with
  | [] => Ok []
  | token :: toks =>
      let token := trim_matches (λ c, negb (is_alphanumeric c) && negb (one "_" c)) token in
      if (length token <? 3) || negb (looks_like_identifier token) then known_loop symbol_exists toks
      else
        let? found := symbol_exists token in
        let? known := known_loop symbol_exists toks in
        Ok (if found : bool then to_lowercase token :: known else known)
  end.

Definition extract_known_symbols (symbol_exists : bytes → result bool) (query : bytes) : result (list bytes) :=
  known_loop symbol_exists (split_by (λ c, is_whitespace c || one "," c || one ";" c) query).

(** [haystack.match_indices(needle)], for a non-empty needle: what is before
    and after each match; matches do not overlap. *)
Fixpoint match_indices (fuel : nat) (needle before after : list char) : list (list char * list char) :=
  match fuel with
  | 0 => []
  | S fuel =>
      if decide (take (length needle) after = needle) then
        (before, drop (length needle) after) ::
        match_indices fuel needle (before ++ needle) (drop (length needle) after)
      else match after with
           | [] => []
           | c :: after => match_indices fuel needle (before ++ [c]) after
           end
  end.

Definition boundary (c : option char) : bool :=
  match c with Some c => negb (is_token_char c) | None => true end.

Definition contains_token (haystack needle : bytes) : bool :=
  if bytes_eqb needle [] then false
  else existsb (λ m, boundary (last m.1) && boundary (head m.2))
         (match_indices (S (length (chars haystack))) (chars needle) [] (chars haystack)).
End query.

(** ** Splitting an expression on its quotes *)

(** The elements at even and at odd positions. *)
Fixpoint alternate {A} (l : list A) : list A * list A :=
  match l with [] => ([], []) | x :: l => let '(ev, od) := alternate l in (x :: od, ev) end.

Inductive chunk := Op (s : bytes) | Term (t : bytes).

Definition render_chunk (c : chunk) : bytes := match c with Op s => s | Term t => quoted t end.
Definition render (cs : list chunk) : bytes := concat (map render_chunk cs).
Definition ops (cs : list chunk) : bytes := concat (omap (λ c, match c with Op s => Some s | Term _ => None end) cs).
Definition terms (cs : list chunk) : list bytes := omap (λ c, match c with Op _ => None | Term t => Some t end) cs.

Definition OPERATORS : list bytes := [OR; AND; bs "("; bs ")"].

Lemma split_on_cons c seg rest : c ∉ seg → split_on c (seg ++ c :: rest) = seg :: split_on c rest.
Proof.
  induction seg as [|b seg IH]; intros Hc; cbn [app split_on]; [by rewrite beq_refl|].
  apply not_elem_of_cons in Hc as [? ?]. destruct (beq_spec b c); [congruence|]. by rewrite IH.
Qed.

Lemma split_on_prefix c o s : c ∉ o → ∃ h t, split_on c s = h :: t ∧ split_on c (o ++ s) = (o ++ h) :: t.
Proof.
  intros Hc. destruct (split_on c s) as [|h t] eqn:E; [by apply split_on_length in E|]. exists h, t. split; [done|].
  induction o as [|b o IH]; [done|]. apply not_elem_of_cons in Hc as [? ?]. cbn [app split_on].
  destruct (beq_spec b c); [congruence|]. by rewrite IH.
Qed.

(** What a reader that takes every other piece between quotes for a string
    literal makes of a rendering. *)
Lemma alternate_render cs :
  Forall (λ c, match c with Op s => QUOTE ∉ s | Term t => QUOTE ∉ t end) cs →
  (alternate (split_on QUOTE (render cs))).2 = terms cs ∧
  concat (alternate (split_on QUOTE (render cs))).1 = ops cs.
Proof.
  induction cs as [|c cs IH]; [done|]. intros [Hc H]%Forall_cons. specialize (IH H) as [IH1 IH2]. destruct c as [o|t].
  - change (render (Op o :: cs)) with (o ++ render cs).
    destruct (split_on_prefix QUOTE o (render cs) Hc) as (h & l & E1 & E2). rewrite E2. rewrite E1 in IH1, IH2.
    cbn in *. destruct (alternate l) as [ev od]; cbn in *. rewrite <- app_assoc. split; [done|]. by rewrite IH2.
  - change (render (Term t :: cs)) with (QUOTE :: ((t ++ [QUOTE]) ++ render cs)). rewrite <- app_assoc.
    change (QUOTE :: t ++ [QUOTE] ++ render cs) with ([] ++ QUOTE :: (t ++ QUOTE :: render cs)).
    rewrite split_on_cons by apply not_elem_of_nil. rewrite split_on_cons by done.
    cbn. destruct (alternate (split_on QUOTE (render cs))) as [ev od]; cbn in *. by rewrite IH1, IH2.
Qed.

Section theorems.
Context {U : Unicode} {UL : UnicodeLaws U}.

(** A word of the query: a part of it, of word characters only. *)
Definition word_of (query t : bytes) : Prop := sub_of t query ∧ t ≠ [] ∧ all_chars is_token_char t.

Lemma token_char_no_quote c : is_token_char c = true → QUOTE ∉ c.
Proof using UL.
  unfold is_token_char, one. intros [H| ->%bytes_eqb_true]%orb_true_iff; [|by intros ?%list_elem_of_singleton].
  intros Hq. destruct (alphanumeric_char _ H) as (lead & rest & -> & Hl & Hr & Ha & _).
  apply elem_of_cons in Hq as [<-|Hq]; [|rewrite Forall_forall in Hr; by apply Hr in Hq].
  rewrite (Ha eq_refl) in H. by rewrite alphanumeric_ascii in H.
Qed.

Lemma word_no_quote query t : word_of query t → QUOTE ∉ t.
Proof using UL.
  intros (_ & _ & cs & -> & H & _) (c & Hc & Hq)%elem_of_concat. rewrite Forall_forall in H.
  by eapply token_char_no_quote; [apply H|].
Qed.


Lemma identifier_end_word query start :
  identifier_end query start ≠ start →
  start < identifier_end query start ∧ word_of query (slice start (identifier_end query start) query).
Proof using UL.
  unfold identifier_end. pose proof (chars_concat (drop start query)) as Hcat.
  pose proof (chars_nonempty (drop start query)) as Hne.
  destruct (chars (drop start query)) as [|c cs]; [done|]. destruct (is_alphabetic c || one "_" c) eqn:Ha; [|done].
  cbn [negb]. intros _. set (n := count_while is_token_char cs). apply Forall_cons in Hne as [Hc Hne].
  assert (concat (c :: take n cs) ++ concat (drop n cs) = drop start query) as Hsplit.
  { rewrite <- Hcat. cbn. by rewrite <- app_assoc, <- concat_app, take_drop. }
  assert (0 < length (concat (c :: take n cs))) by (cbn; destruct c; [done|]; cbn; lia).
  split; [lia|]. assert (slice start (start + length (concat (c :: take n cs))) query = concat (c :: take n cs)) as E.
  { unfold slice. rewrite <- Hsplit. replace (start + _ - start) with (length (concat (c :: take n cs))) by lia.
    by rewrite take_app_length. }
  split_and!; [apply slice_sub_of|rewrite E; intros Hz; rewrite Hz in *; cbn in *; lia|]. rewrite E. eexists. split_and!; [done| |].
  - constructor.
    + unfold is_token_char. apply orb_true_iff in Ha as [Ha| ->]; [by rewrite alphabetic_alphanumeric|apply orb_true_r].
    + rewrite Forall_forall. intros d (j & Hj)%list_elem_of_lookup. apply lookup_take_Some in Hj as [Hj ?].
      by eapply (count_while_lookup is_token_char).
  - constructor; [done|]. by apply Forall_take.
Qed.

Lemma segment_word query raw : raw ∈ split_by is_sep query → raw ≠ [] → word_of query raw.
Proof using Type.
  intros H Hne. split_and!; [by eapply split_by_sub|done|]. destruct (split_by_segs _ _ _ H) as (seg & -> & Hs).
  exists seg. split_and!; [done| |].
  - eapply Forall_impl; [exact Hs|]. cbn. intros c [Hc _]. unfold is_sep in Hc. unfold is_token_char.
    by destruct (is_alphanumeric c), (one "_" c).
  - eapply Forall_impl; [exact Hs|]. cbn. intros c [_ Hc]. pose proof (chars_nonempty query) as Hn.
    rewrite Forall_forall in Hn. by apply Hn.
Qed.

Lemma ascii_word t : Forall (λ b, is_id_body b = true) t → all_chars is_token_char t.
Proof using UL.
  intros H. exists (map (λ b, [b]) t). split_and!.
  - clear H. induction t as [|b t IH]; cbn; congruence.
  - apply Forall_map. eapply Forall_impl; [exact H|]. cbn. intros b Hb. unfold is_token_char, one, is_id_body in *.
    apply orb_true_iff in Hb as [Hb|Hb%beq_true]; [|subst b; apply orb_true_r].
    rewrite alphanumeric_ascii, Hb; [done|]. by destruct b.
  - apply Forall_map. by apply Forall_true.
Qed.

Lemma slice_body_word query a : 1 ≤ length (slice a (scan_while is_id_body query a) query) →
  word_of query (slice a (scan_while is_id_body query a) query).
Proof using UL.
  intros Hl. split_and!; [apply slice_sub_of|by destruct (slice _ _ _); cbn in *; [lia|]|]. apply ascii_word.
  rewrite Forall_forall. intros b (j & Hj)%list_elem_of_lookup. unfold slice in Hj.
  apply lookup_take_Some in Hj as [Hb Hj]. rewrite lookup_drop in Hb. apply (scan_while_in _ query a (a + j)); [lia|done].
Qed.

Lemma dotted_words fuel query i t : t ∈ dotted_loop fuel query i → word_of query t ∧ 3 ≤ length t.
Proof using UL.
  revert i. induction fuel as [|fuel IH]; intros i; cbn [dotted_loop]; [intros []%elem_of_nil|].
  repeat case_match; try apply IH; [intros []%elem_of_nil|].
  repeat match goal with H : (_ || _) = false |- _ => apply orb_false_iff in H as [? ?] end.
  repeat match goal with H : (length _ <? 3) = false |- _ => apply Nat.ltb_ge in H end.
  intros [->|[->|Ht]%elem_of_cons]%elem_of_cons; [| |by eapply IH]; (split; [apply slice_body_word; lia|done]).
Qed.

Lemma legacy_group_words query parts :
  parts ∈ extract_qualified_name_groups_legacy query → 2 ≤ length parts ∧ Forall (word_of query) parts.
Proof using Type.
  unfold extract_qualified_name_groups_legacy. intros (raw & Hraw & H)%list_elem_of_omap.
  destruct (negb _ && negb _); [done|]. destruct (2 <=? _) eqn:Hl; [|done]. injection H as <-.
  split; [by apply Nat.leb_le|]. apply split_by_sub in Hraw. rewrite Forall_forall. intros t Ht.
  apply list_elem_of_In, filter_In in Ht as [Ht [Hlt Hw]%andb_true_iff].
  apply list_elem_of_In, split_by_sub in Ht. split_and!.
  - by eapply sub_of_trans.
  - by intros ->.
  - exists (chars t). split_and!; [by rewrite chars_concat| |apply chars_nonempty].
    by apply forallb_Forall_true.
Qed.

Lemma group_loop_words fuel query end_ parts :
  Forall (word_of query) parts → Forall (word_of query) (group_loop fuel query end_ parts).2.
Proof using UL.
  revert end_ parts. induction fuel as [|fuel IH]; intros end_ parts H; cbn [group_loop]; [done|].
  destruct (separator_len _) as [n|]; [|done]. destruct (Nat.eqb_spec (identifier_end query (end_ + n)) (end_ + n)); [done|].
  case_match; [done|]. apply IH. rewrite Forall_app, Forall_singleton. split; [done|].
  by apply identifier_end_word.
Qed.

Lemma groups_words fuel query cursor g :
  g ∈ groups_loop fuel query cursor → 2 ≤ length (qn_parts g) ∧ Forall (word_of query) (qn_parts g).
Proof using UL.
  revert cursor. induction fuel as [|fuel IH]; intros cursor; cbn [groups_loop]; [intros []%elem_of_nil|].
  destruct (_ <=? cursor); [intros []%elem_of_nil|].
  destruct (Nat.eqb_spec (identifier_end query cursor) cursor); [apply IH|].
  assert (Forall (word_of query) [slice cursor (identifier_end query cursor) query]) as H
    by (apply Forall_singleton, identifier_end_word; done).
  pose proof (group_loop_words (length query) query (identifier_end query cursor) _ H) as Hw.
  destruct (group_loop _ _ _ _) as [e parts]. cbn in Hw. destruct (2 <=? length parts) eqn:Hl; [|apply IH].
  apply Nat.leb_le in Hl. by intros [->|?%IH]%elem_of_cons.
Qed.

(** ** Terms are words between quotes *)

Definition chunk_ok (query : bytes) (c : chunk) : Prop :=
  match c with Op s => s ∈ OPERATORS | Term t => word_of query t end.

Definition rendered (query s : bytes) : Prop := ∃ cs, s = render cs ∧ Forall (chunk_ok query) cs.

Lemma rendered_app query s1 s2 : rendered query s1 → rendered query s2 → rendered query (s1 ++ s2).
Proof using Type.
  intros (c1 & -> & H1) (c2 & -> & H2). exists (c1 ++ c2). split; [|by apply Forall_app].
  unfold render. by rewrite map_app, concat_app.
Qed.

Lemma rendered_op query s : s ∈ OPERATORS → rendered query s.
Proof using Type. intros H. exists [Op s]. split; [by rewrite <- (app_nil_r s) at 1|by apply Forall_singleton]. Qed.

Lemma rendered_term query t : word_of query t → rendered query (quoted t).
Proof using Type. intros H. exists [Term t]. split; [cbn; by rewrite app_nil_r|by apply Forall_singleton]. Qed.

Lemma rendered_join query sep l :
  sep ∈ OPERATORS → Forall (rendered query) l → rendered query (join_sub sep l).
Proof using Type.
  intros Hs H. induction H as [|s l H Hl IH]; [by exists []|]. destruct l as [|s' l]; [done|].
  change (join_sub sep (s :: s' :: l)) with (s ++ sep ++ join_sub sep (s' :: l)).
  apply rendered_app; [done|]. apply rendered_app; [by apply rendered_op|done].
Qed.

Lemma rendered_read query s :
  rendered query s → ∃ cs, s = render cs ∧ Forall (chunk_ok query) cs
    ∧ (alternate (split_on QUOTE s)).2 = terms cs ∧ concat (alternate (split_on QUOTE s)).1 = ops cs.
Proof using UL.
  intros (cs & -> & H). exists cs. split; [done|]. split; [done|]. apply alternate_render.
  eapply Forall_impl; [exact H|]. intros [o|t]; cbn; [|by apply word_no_quote].
  intros Ho Hq. unfold OPERATORS in Ho. rewrite !elem_of_cons in Ho.
  destruct Ho as [->|[->|[->|[->|[]%elem_of_nil]]]]; revert Hq; by apply (bool_decide_unpack (_ ∉ _)).
Qed.

(** Every term pushed is rendered. *)
Definition terms_rendered (query : bytes) (st : Terms) : Prop := Forall (rendered query) (tokens st).

Lemma push_rendered query st key term :
  rendered query term → terms_rendered query st → terms_rendered query (push_term st key term).
Proof using Type.
  intros Ht H. unfold push_term. case_decide; [done|]. apply Forall_app. by rewrite Forall_singleton.
Qed.

Lemma fold_rendered {A} query (f : Terms → A → Terms) l st :
  (∀ st x, x ∈ l → terms_rendered query st → terms_rendered query (f st x)) →
  terms_rendered query st → terms_rendered query (fold_left f l st).
Proof using Type.
  revert st. induction l as [|x l IH]; intros st Hf H; [done|]. cbn. apply IH; [|by apply Hf; [left|]].
  intros. apply Hf; [by right|done].
Qed.

Lemma plain_rendered query sup st raw :
  (raw ≠ [] → word_of query raw) → terms_rendered query st → terms_rendered query (plain_term sup st raw).
Proof using Type.
  intros Hw H. unfold plain_term. destruct (_ || _) eqn:E; [done|]. case_decide; [done|].
  apply push_rendered; [|done]. apply rendered_term, Hw. by intros ->.
Qed.

Lemma legacy_rendered query : terms_rendered query (legacy_terms query).
Proof using UL.
  unfold legacy_terms.
  assert (∀ l acc, (∀ parts, parts ∈ l → Forall (word_of query) parts) → terms_rendered query acc.1 →
    terms_rendered query (fold_left legacy_group l acc).1) as Hg.
  { intros l. induction l as [|parts l IH]; intros [st sup] Hl Ha; [done|]. cbn [fold_left].
    apply IH; [intros; apply Hl; by right|]. unfold legacy_group. destruct (last parts) as [tail|] eqn:E; [|done].
    destruct (token_looks_code_shaped tail); [|done]. apply push_rendered; [|done]. apply rendered_term.
    specialize (Hl parts ltac:(by left)). rewrite Forall_forall in Hl. apply Hl. by apply last_Some_elem_of. }
  specialize (Hg (extract_qualified_name_groups_legacy query) (no_terms, ∅)).
  destruct (fold_left legacy_group _ _) as [st sup]. cbn in Hg.
  apply fold_rendered; [intros st' raw Hr; apply plain_rendered, segment_word, Hr|].
  apply fold_rendered.
  - intros st' t Ht. apply push_rendered, rendered_term. by eapply dotted_words.
  - apply Hg; [|constructor]. intros parts Hp. by apply legacy_group_words in Hp as [_ ?].
Qed.

Lemma and_group_rendered query parts : Forall (word_of query) parts → rendered query (and_group parts).
Proof using Type.
  intros H. change (and_group parts) with (bs "(" ++ join_sub AND (map quoted parts) ++ bs ")").
  apply rendered_app; [apply rendered_op; by apply contains_word_true|].
  apply rendered_app; [|apply rendered_op; by apply contains_word_true].
  apply rendered_join; [by apply contains_word_true|]. apply Forall_map. eapply Forall_impl; [exact H|].
  intros t. by apply rendered_term.
Qed.

Lemma outside_sub query cursor gs f : f ∈ outside_groups query cursor gs → sub_of f query.
Proof using Type.
  revert cursor. induction gs as [|g gs IH]; intros cursor; cbn.
  - intros ->%list_elem_of_singleton. exists (take cursor query), []. by rewrite app_nil_r, take_drop.
  - intros [->|?%IH]%elem_of_cons; [apply slice_sub_of|done].
Qed.

Lemma mode_rendered query fallback : terms_rendered query (mode_terms query fallback).
Proof using UL.
  unfold mode_terms. apply fold_rendered.
  - intros st raw (segs & (f & -> & Hf)%list_elem_of_fmap & Hr)%elem_of_concat. apply plain_rendered.
    intros Hne. destruct (segment_word _ _ Hr Hne) as (Hs & ? & ?). split_and!; [|done..]. eapply sub_of_trans; [exact Hs|].
    by eapply outside_sub.
  - apply fold_rendered; [|constructor]. intros st g [_ Hw]%groups_words H. unfold mode_group.
    destruct fallback; [|by apply push_rendered; [apply and_group_rendered|]].
    apply fold_rendered; [|done]. intros st' t Ht. apply push_rendered, rendered_term.
    apply list_elem_of_In, filter_In in Ht as [Ht%list_elem_of_In _]. rewrite Forall_forall in Hw. apply Hw.
    destruct (_ && _); [|done]. eapply elem_of_sublist; [exact Ht|apply sublist_drop].
Qed.

Lemma fts_rendered {E : Env} query fallback :
  rendered query (if fallback : bool then build_fts_match_query_mode query true else build_fts_match_query query).
Proof using UL.
  unfold build_fts_match_query, build_fts_match_query_mode, build_fts_match_query_legacy.
  pose proof (legacy_rendered query). pose proof (mode_rendered query false). pose proof (mode_rendered query true).
  repeat case_match; apply rendered_join; try done; by left.
Qed.
End theorems.

(** ** What the default expression asks for *)

Section legacy.
Context {U : Unicode}.

(** The terms pushed, as words: each under its own lower-case key. *)
Definition pushed (st : Terms) (ts : list bytes) : Prop :=
  tokens st = map quoted ts ∧ seen st = list_to_set (map to_lowercase ts) ∧ NoDup (map to_lowercase ts).

Lemma push_pushed st ts t : pushed st ts →
  ∃ more, pushed (push_term st (to_lowercase t) (quoted t)) (ts ++ more)
    ∧ to_lowercase t ∈ map to_lowercase (ts ++ more) ∧ ∀ x, x ∈ more → x = t.
Proof.
  intros (Ht & Hs & Hn). unfold push_term. rewrite Hs. case_decide as Hd.
  - exists []. rewrite app_nil_r. apply elem_of_list_to_set in Hd. by split_and!; [|done|intros ? []%elem_of_nil].
  - exists [t]. rewrite elem_of_list_to_set in Hd. split_and!; [split_and!| |].
    + cbn. by rewrite Ht, map_app.
    + cbn. rewrite map_app, list_to_set_app_L. cbn. set_solver.
    + rewrite map_app. apply NoDup_app. split_and!; [done| |apply NoDup_singleton].
      intros x Hx ->%list_elem_of_singleton. done.
    + rewrite map_app, elem_of_app. right. by left.
    + by intros x ->%list_elem_of_singleton.
Qed.

(** A loop of pushes: what it adds satisfies [P], and what each element asks
    for ([C], which more terms keep) is there in the end. *)
Lemma fold_pushed {A} (f : Terms → A → Terms) (P : bytes → Prop) (C : A → list bytes → Prop) l st ts :
  (∀ x ts more, C x ts → C x (ts ++ more)) →
  (∀ st ts x, x ∈ l → pushed st ts →
    ∃ more, pushed (f st x) (ts ++ more) ∧ Forall P more ∧ C x (ts ++ more)) →
  pushed st ts →
  ∃ more, pushed (fold_left f l st) (ts ++ more) ∧ Forall P more ∧ ∀ x, x ∈ l → C x (ts ++ more).
Proof.
  intros HC. revert st ts. induction l as [|x l IH]; intros st ts Hf H.
  { exists []. rewrite app_nil_r. split_and!; [done|constructor|intros ? []%elem_of_nil]. }
  destruct (Hf st ts x ltac:(by left) H) as (m1 & H1 & P1 & C1).
  destruct (IH (f st x) (ts ++ m1)) as (m2 & H2 & P2 & C2); [intros; apply Hf; [by right|done]|done|].
  exists (m1 ++ m2). rewrite app_assoc. cbn. split_and!; [done|by apply Forall_app|].
  intros y [->|Hy]%elem_of_cons; [by apply HC|by apply C2].
Qed.

(** The key [k] names a prefix of a qualified name whose selective tail is a
    term. *)
Definition suppressed_by (query : bytes) (ts : list bytes) (k : bytes) : Prop :=
  ∃ parts tail, parts ∈ extract_qualified_name_groups_legacy query ∧ last parts = Some tail
    ∧ token_looks_code_shaped tail = true ∧ to_lowercase tail ∈ map to_lowercase ts
    ∧ k ∈ map to_lowercase (removelast parts).

Lemma map_lower_app t ts more : t ∈ map to_lowercase ts → t ∈ map to_lowercase (ts ++ more).
Proof. rewrite map_app, elem_of_app. by left. Qed.

Lemma groups_pushed query l st sup ts :
  (∀ parts, parts ∈ l → parts ∈ extract_qualified_name_groups_legacy query) →
  pushed st ts → Forall (λ t, token_looks_code_shaped t = true) ts → (∀ k, k ∈ sup → suppressed_by query ts k) →
  ∃ ts', pushed (fold_left legacy_group l (st, sup)).1 ts' ∧ Forall (λ t, token_looks_code_shaped t = true) ts'
    ∧ ∀ k, k ∈ (fold_left legacy_group l (st, sup)).2 → suppressed_by query ts' k.
Proof.
  revert st sup ts. induction l as [|parts l IH]; intros st sup ts Hl H Hc Hs; [by exists ts|].
  cbn [fold_left]. unfold legacy_group at 2 4. destruct (last parts) as [tail|] eqn:El; [|by eapply IH; [intros; apply Hl; right| | |]].
  destruct (token_looks_code_shaped tail) eqn:Et; [|by eapply IH; [intros; apply Hl; right| | |]].
  destruct (push_pushed _ _ tail H) as (more & H' & Hin & Hm).
  apply (IH _ _ (ts ++ more)); [intros; apply Hl; by right|done| |].
  - apply Forall_app. split; [done|]. rewrite Forall_forall. by intros x ->%Hm.
  - intros k [Hk|Hk%elem_of_list_to_set]%elem_of_union.
    + destruct (Hs _ Hk) as (p & t & ? & ? & ? & ? & ?). exists p, t. split_and!; [done..|by apply map_lower_app|done].
    + exists parts, tail. split_and!; [apply Hl; by left|done..].
Qed.

Lemma legacy_pushed query :
  ∃ ts, pushed (legacy_terms query) ts
    ∧ Forall (λ t, token_looks_code_shaped t = true ∨ t ∈ extract_dotted_identifier_tokens query) ts
    ∧ (∀ t, t ∈ extract_dotted_identifier_tokens query → to_lowercase t ∈ map to_lowercase ts)
    ∧ ∀ raw, raw ∈ split_by is_sep query → 2 ≤ length raw → token_looks_code_shaped raw = true →
        to_lowercase raw ∈ map to_lowercase ts ∨ suppressed_by query ts (to_lowercase raw).
Proof.
  unfold legacy_terms.
  destruct (groups_pushed query (extract_qualified_name_groups_legacy query) no_terms ∅ []) as (t1 & H1 & P1 & S1);
    [done|by split_and!; [..|constructor]|constructor|set_solver|].
  destruct (fold_left legacy_group _ _) as [st sup]. cbn in H1, S1.
  destruct (fold_pushed (λ st tok, push_term st (to_lowercase tok) (quoted tok))
    (λ t, t ∈ extract_dotted_identifier_tokens query) (λ tok ts, to_lowercase tok ∈ map to_lowercase ts)
    (extract_dotted_identifier_tokens query) st t1) as (t2 & H2 & P2 & C2); [by intros; apply map_lower_app| |done|].
  { intros st' ts x Hx H. destruct (push_pushed _ _ x H) as (more & ? & ? & Hm). exists more. split_and!; [done| |done].
    rewrite Forall_forall. by intros y ->%Hm. }
  edestruct (fold_pushed (plain_term sup) (λ t, token_looks_code_shaped t = true)
    (λ raw ts, 2 ≤ length raw → token_looks_code_shaped raw = true →
       to_lowercase raw ∈ map to_lowercase ts ∨ to_lowercase raw ∈ sup)
    (split_by is_sep query)) as (t3 & H3 & P3 & C3); [| |exact H2|].
  { intros x ts more HC Hl Hc. destruct (HC Hl Hc); [left; by apply map_lower_app|by right]. }
  { intros st' ts x Hx H. unfold plain_term. destruct (_ || _) eqn:E.
    { exists []. rewrite app_nil_r. split_and!; [done|constructor|]. intros Hl Hc. exfalso.
      rewrite Hc, orb_false_r in E. apply Nat.ltb_lt in E. lia. }
    apply orb_false_iff in E as [_ E%negb_false_iff]. case_decide as Hd.
    { exists []. rewrite app_nil_r. split_and!; [done|constructor|]. by right. }
    destruct (push_pushed _ _ x H) as (more & ? & ? & Hm). exists more. split_and!; [done| |by left].
    rewrite Forall_forall. by intros y ->%Hm. }
  exists ((t1 ++ t2) ++ t3). split_and!; [done| | |].
  - rewrite !Forall_app. split_and!; [eapply Forall_impl; [exact P1|]|eapply Forall_impl; [exact P2|]|
      eapply Forall_impl; [exact P3|]]; cbn; tauto.
  - intros t Ht. by apply map_lower_app, C2.
  - intros raw Hr Hl Hc. destruct (C3 _ Hr Hl Hc) as [?|Hs]; [by left|right].
    destruct (S1 _ Hs) as (p & t & ? & ? & ? & ? & ?). exists p, t. split_and!; [done..| |done].
    by do 2 apply map_lower_app.
Qed.
End legacy.

(** ** The scans end *)

Lemma dotted_loop_fuel query f1 f2 i :
  length query - i ≤ f1 → length query - i ≤ f2 → dotted_loop f1 query i = dotted_loop f2 query i.
Proof.
  revert f2 i. induction f1 as [|f1 IH]; intros [|f2] i H1 H2; cbn [dotted_loop];
    [done|by rewrite (proj2 (Nat.leb_le _ _)) by lia..|].
  destruct (length query <=? i) eqn:Hl; [done|]. apply Nat.leb_gt in Hl.
  destruct (starts_at is_id_start query i) eqn:Hst; cbn [negb]; [|apply IH; lia].
  assert (i < scan_while is_id_body query i).
  { unfold starts_at in Hst. destruct (query !! i) as [b|] eqn:Hb; [|done]. eapply scan_while_step; [exact Hb|].
    unfold is_id_start, is_id_body, is_ascii_alphanumeric in *. apply orb_true_iff in Hst as [Hb'|Hb'].
    - by rewrite Hb'.
    - rewrite Hb'. apply orb_true_r. }
  destruct (_ || _); [apply IH; lia|]. destruct (starts_at is_id_start query (S _)) eqn:Hs2; cbn [negb]; [|apply IH; lia].
  pose proof (scan_while_ge is_id_body query (S (scan_while is_id_body query i))).
  destruct (_ <? 3); [apply IH; lia|]. do 2 f_equal. apply IH; lia.
Qed.

Section scans.
Context {U : Unicode}.

Lemma identifier_end_ge query i : i ≤ identifier_end query i.
Proof. unfold identifier_end. destruct (chars _); [done|]. destruct (negb _); lia. Qed.

Lemma group_loop_ge fuel query e parts : e ≤ (group_loop fuel query e parts).1.
Proof.
  revert e parts. induction fuel as [|fuel IH]; intros e parts; cbn [group_loop]; [done|].
  destruct (separator_len _) as [n|]; [|done]. destruct (Nat.eqb _ _); [done|]. case_match; [done|].
  etrans; [|apply IH]. pose proof (identifier_end_ge query (e + n)). lia.
Qed.

Lemma separator_pos s n : separator_len s = Some n → 0 < n.
Proof. unfold separator_len. repeat case_match; intros [= <-]; lia. Qed.

Lemma group_loop_fuel query f1 f2 e parts :
  length query - e ≤ f1 → length query - e ≤ f2 → group_loop f1 query e parts = group_loop f2 query e parts.
Proof.
  revert f2 e parts. induction f1 as [|f1 IH]; intros [|f2] e parts H1 H2; cbn [group_loop];
    [done|by rewrite drop_ge by lia..|].
  destruct (separator_len _) as [k|] eqn:Hk; [|done]. apply separator_pos in Hk.
  destruct (Nat.eqb _ _); [done|]. case_match; [done|].
  pose proof (identifier_end_ge query (e + k)). apply IH; lia.
Qed.

Lemma head_char_pos query c : c < length query → 0 < length (default [] (head (chars (drop c query)))).
Proof.
  intros Hc. pose proof (chars_concat (drop c query)) as Hcat. pose proof (chars_nonempty (drop c query)) as Hn.
  destruct (chars (drop c query)) as [|ch cs].
  - apply (f_equal length) in Hcat. rewrite length_drop in Hcat. cbn in Hcat. lia.
  - apply Forall_cons in Hn as [Hn _]. destruct ch; [done|]. cbn. lia.
Qed.

Lemma groups_loop_fuel query f1 f2 c :
  length query - c ≤ f1 → length query - c ≤ f2 → groups_loop f1 query c = groups_loop f2 query c.
Proof.
  revert f2 c. induction f1 as [|f1 IH]; intros [|f2] c H1 H2; cbn [groups_loop];
    [done|by rewrite (proj2 (Nat.leb_le _ _)) by lia..|].
  destruct (length query <=? c) eqn:Hl; [done|]. apply Nat.leb_gt in Hl.
  destruct (Nat.eqb_spec (identifier_end query c) c) as [E|Hne].
  - assert (0 < length (default [] (head (chars (drop c query))))) by by apply head_char_pos. apply IH; lia.
  - pose proof (identifier_end_ge query c).
    pose proof (group_loop_ge (length query) query (identifier_end query c) [slice c (identifier_end query c) query]).
    destruct (group_loop _ _ _ _) as [e parts]. cbn in *. rewrite (IH f2) by lia. done.
Qed.
End scans.

(** ** Whole tokens *)

Section whole_tokens.
Context {U : Unicode}.

Lemma match_indices_sound fuel n before after m :
  m ∈ match_indices fuel n before after → before ++ after = m.1 ++ n ++ m.2.
Proof.
  revert before after. induction fuel as [|fuel IH]; intros before after; cbn [match_indices]; [intros []%elem_of_nil|].
  case_decide as E.
  - assert (after = n ++ drop (length n) after) as Ha by (rewrite <- E at 1; by rewrite take_drop).
    intros [->|Hm%IH]%elem_of_cons; [cbn [fst snd]; by rewrite <- Ha|]. by rewrite <- Hm, <- app_assoc, <- Ha.
  - destruct after as [|c after]; [intros []%elem_of_nil|]. intros Hm%IH. by rewrite <- Hm, <- app_assoc.
Qed.

Lemma match_indices_complete fuel n l r before after :
  n ≠ [] → Forall (λ c, is_token_char c = true) n → boundary (last l) = true →
  before ++ after = l ++ n ++ r → length before ≤ length l → length after < fuel →
  (l, r) ∈ match_indices fuel n before after.
Proof.
  intros Hn Hw Hb. revert before after. induction fuel as [|fuel IH]; intros before after E Hl Hf; [lia|].
  cbn [match_indices]. case_decide as Ht.
  - assert (after = n ++ drop (length n) after) as Ha by (rewrite <- Ht at 1; by rewrite take_drop).
    destruct (decide (length before = length l)) as [Hlen|Hlen].
    { apply app_inj_1 in E as [<- E]; [|done]. rewrite E, drop_app_length. by left. }
    assert (length n ≤ length after) by (apply (f_equal length) in Ha; rewrite length_app in Ha; lia).
    right. apply IH; [by rewrite <- app_assoc, <- Ha| |rewrite length_drop; destruct n; cbn in *; [done|lia]].
    rewrite length_app. destruct (decide (length before + length n ≤ length l)) as [|Hov]; [done|exfalso].
    assert (length before ≤ length l - 1) as Hge by lia.
    destruct (last l) as [c|] eqn:Hlast; [|apply last_None in Hlast; subst; cbn in *; lia].
    rewrite last_lookup in Hlast. replace (pred (length l)) with (length l - 1) in Hlast by lia.
    assert ((before ++ after) !! (length l - 1) = Some c) as Hc.
    { rewrite E, lookup_app_l; [done|]. by apply lookup_lt_Some in Hlast. }
    rewrite lookup_app_r, Ha, lookup_app_l in Hc by lia. apply list_elem_of_lookup_2 in Hc.
    rewrite Forall_forall in Hw. cbn in Hb. by rewrite Hw in Hb.
  - assert (length before ≠ length l) as Hlen.
    { intros Hlen. apply app_inj_1 in E as [-> ->]; [|done]. by rewrite take_app_length in Ht. }
    destruct after as [|c after].
    + apply (f_equal length) in E. rewrite !length_app in E. cbn in E. lia.
    + apply IH; [by rewrite <- app_assoc|rewrite length_app; cbn; lia|cbn in Hf; lia].
Qed.

Lemma contains_token_ok haystack needle :
  needle ≠ [] → Forall (λ c, is_token_char c = true) (chars needle) →
  contains_token haystack needle = true ↔
  ∃ l r, chars haystack = l ++ chars needle ++ r ∧ boundary (last l) = true ∧ boundary (head r) = true.
Proof.
  intros Hne Hw. unfold contains_token. destruct (bytes_eqb_spec needle []); [done|].
  assert (chars needle ≠ []) as Hc by (intros Hc; pose proof (chars_concat needle) as Hcat; by rewrite Hc in Hcat).
  rewrite existsb_exists. split.
  - intros ([l r] & Hin%list_elem_of_In%match_indices_sound & [? ?]%andb_true_iff). by exists l, r.
  - intros (l & r & E & Hl & Hr). exists (l, r). split; [|cbn; by rewrite Hl, Hr].
    apply list_elem_of_In, match_indices_complete; [done..|cbn; lia|lia].
Qed.
End whole_tokens.

(** ** Properties *)

(** C21. The full-text expression is data, never syntax.  Whatever the query holds,
    the expression handed to FTS5 is made of quoted terms, each a word of the query
    (letters, digits and [_] only), joined by the operators the builder writes; a
    reader that takes the pieces between quotes for strings recovers exactly the
    terms, and outside them reads only operators.  This holds of the default
    expression, of the experimental one and of its fallback. *)
Theorem fts_query_quoted {U : Unicode} {UL : UnicodeLaws U} {E : Env} (query : bytes) (fallback : bool) :
  let fts := if fallback then build_fts_match_query_mode query true else build_fts_match_query query in
  ∃ cs, fts = render cs ∧ Forall (chunk_ok query) cs
    ∧ (alternate (split_on QUOTE fts)).2 = terms cs ∧ concat (alternate (split_on QUOTE fts)).1 = ops cs.
Proof. cbv zeta. apply rendered_read, fts_rendered. Qed.

Lemma fts_query_quoted_witness :
  let query := bs "use `Mode::default` OR "++[QUOTE]++bs ")) NEAR doc_cfg" in
  let fts := build_fts_match_query (E := λ _, None) query in
  (∃ cs, fts = render cs ∧ Forall (chunk_ok query) cs
    ∧ (alternate (split_on QUOTE fts)).2 = terms cs ∧ concat (alternate (split_on QUOTE fts)).1 = ops cs)
  ∧ (alternate (split_on QUOTE fts)).2 = [bs "Mode"; bs "OR"; bs "NEAR"; bs "doc_cfg"]
  ∧ (alternate (split_on QUOTE fts)).1 = [[]; OR; OR; OR; []].
Proof.
  split; [|by vm_compute].
  exact (fts_query_quoted (U := ascii_only) (UL := ascii_only_laws) (E := λ _, None)
    (bs "use `Mode::default` OR "++[QUOTE]++bs ")) NEAR doc_cfg") false).
Defined.

(** C0. The default expression asks for what the query names.  It is an [OR] of
    terms, no two the same in lower case, each code-shaped or part of a dotted
    identifier; every dotted identifier part has a term, and every code-shaped word
    of at least two bytes has one unless it is a prefix of a [::] or [\] name whose
    selective tail has. *)
Theorem fts_terms_complete {U : Unicode} (query : bytes) :
  ∃ ts, build_fts_match_query_legacy query = join_sub OR (map quoted ts)
    ∧ NoDup (map to_lowercase ts)
    ∧ Forall (λ t, token_looks_code_shaped t = true ∨ t ∈ extract_dotted_identifier_tokens query) ts
    ∧ (∀ t, t ∈ extract_dotted_identifier_tokens query → to_lowercase t ∈ map to_lowercase ts)
    ∧ ∀ raw, raw ∈ split_by is_sep query → 2 ≤ length raw → token_looks_code_shaped raw = true →
        to_lowercase raw ∈ map to_lowercase ts ∨ suppressed_by query ts (to_lowercase raw).
Proof.
  destruct (legacy_pushed query) as (ts & (Ht & _ & Hn) & H). exists ts. split; [|done].
  unfold build_fts_match_query_legacy. by rewrite Ht.
Qed.

(** C0. [contains_token] finds whole tokens: for a needle of word characters it
    answers whether the needle occurs in the text with no word character on either
    side (searching on past each match loses no such occurrence). *)
Theorem contains_token_spec {U : Unicode} (haystack needle : bytes)
    (Hne : needle ≠ []) (Hw : Forall (λ c, is_token_char c = true) (chars needle)) :
  contains_token haystack needle = true ↔
  ∃ l r, chars haystack = l ++ chars needle ++ r ∧ boundary (last l) = true ∧ boundary (head r) = true.
Proof. by apply contains_token_ok. Qed.

Lemma contains_token_spec_witness :
  (contains_token (bs "latest test") (bs "test") = true ↔
   ∃ l r, chars (bs "latest test") = l ++ chars (bs "test") ++ r ∧ boundary (last l) = true ∧ boundary (head r) = true)
  ∧ contains_token (bs "latest") (bs "test") = false.
Proof.
  split; [|by vm_compute]. apply (contains_token_spec (bs "latest test") (bs "test")); [done|].
  apply forallb_Forall_true. by vm_compute.
Defined.

(** A needle with a separator in it can be missed: the search resumes after each
    match, and this occurrence overlaps an earlier one. *)
Example contains_token_overlap :
  contains_token (bs "xa.a.a") (bs "a.a") = false ∧ bs "xa.a.a" = bs "xa." ++ bs "a.a" ∧
  boundary (last (chars (bs "xa."))) = true.
Proof. by vm_compute. Qed.

(** C0. The scans of a query end within one round per byte: more fuel than the
    query has bytes changes neither the dotted identifiers nor the qualified names
    found. *)
Theorem query_scans_terminate {U : Unicode} (query : bytes) (fuel : nat) (Hf : length query ≤ fuel) :
  dotted_loop fuel query 0 = extract_dotted_identifier_tokens query
  ∧ groups_loop fuel query 0 = extract_qualified_name_groups query
  ∧ ∀ e parts, group_loop fuel query e parts = group_loop (length query) query e parts.
Proof.
  split_and!; [apply dotted_loop_fuel; lia|apply groups_loop_fuel; lia|intros; apply group_loop_fuel; lia].
Qed.

Lemma query_scans_terminate_witness :
  let q := bs "ModuleRef::create in app.module" in
  (dotted_loop 100 q 0 = extract_dotted_identifier_tokens q
   ∧ groups_loop 100 q 0 = extract_qualified_name_groups q
   ∧ ∀ e parts, group_loop 100 q e parts = group_loop (length q) q e parts)
  ∧ extract_dotted_identifier_tokens q = [bs "app"; bs "module"]
  ∧ map qn_parts (extract_qualified_name_groups q) = [[bs "ModuleRef"; bs "create"]; [bs "app"; bs "module"]].
Proof.
  split; [|by vm_compute]. apply (query_scans_terminate (bs "ModuleRef::create in app.module") 100). cbn. lia.
Defined.
