(* ===== verification/SearchQuery.v ===== *)
(** * SearchQuery: what a query and a path say about ranking

    Models the predicates of [src/crates/graph/src/search.rs] that read intent out
    of a query (tests, versions, platforms, explicit mentions) and the penalties
    that follow from a path.  Globs and regular expressions are third-party code:
    the compiled sets and patterns are classes of operations. *)
From Stdlib Require Import SpecFloat.
From S2P Require Import Prelude Text Unicode Detect Handle Order Float SearchConfig SearchText.
From Stdlib Require Import Lia ZArith.
Local Open Scope byte_scope.
Local Open Scope codesage_scope.

(** The [regex] crate: [symbol_query_re] and [embedded_symbol_re] are the compiled
    literals of the source. *)
Class Regexes := {
  Regex : Type;
  regex_new : bytes → option Regex;
  is_match : Regex → bytes → bool;
  find_iter : Regex → bytes → list bytes;
  regex_escape : bytes → bytes;
  symbol_query_re : Regex;
  embedded_symbol_re : Regex }.

(** The [globset] crate: a set built of patterns, and the discovery patterns of
    test files. *)
Class Globs := {
  GlobSet : Type;
  path_globset : list bytes → result GlobSet;
  glob_match : GlobSet → bytes → bool;
  is_test_like_path : bytes → bool }.

(** [Path::file_stem]. *)
Definition file_stem (path : bytes) : option bytes :=
  name ← file_name path;
  match rsplit_once "." name with
  | Some (stem, _) => if bytes_eqb stem [] then Some name else Some stem
  | None => Some name
  end.

(** ** Names and stems *)

Definition ANTI_TRIGGER_TOKENS : list bytes := map bs
  ["default"; "new"; "clone"; "drop"; "from"; "into"; "as"; "eq"; "cmp"; "hash"; "partial_eq"; "partial_cmp";
   "get"; "set"; "has"; "is"; "len"; "size"; "init"; "build"; "run"; "start"; "stop"; "open"; "close"; "load";
   "save"; "parse"; "format"; "print"; "read"; "write"; "clear"; "reset"; "update"; "delete"; "remove"; "next";
   "iter"; "test"; "config"]%string.

Definition is_anti_trigger (token : bytes) : bool := contains_word ANTI_TRIGGER_TOKENS token.

Definition nonempty_segment (s : bytes) : bool := negb (bytes_eqb s []).

Definition qualified_name_segments (qn : bytes) : list bytes :=
  List.filter nonempty_segment (split_by (λ c, one "." c || one ":" c || one "\" c) qn).

Definition qualified_name_matches (token qn name : bytes) : bool :=
  let segments := qualified_name_segments qn in
  match segments with
  | [] => negb (is_anti_trigger token) && bytes_eqb name token
  | _ =>
      if is_anti_trigger token then
        if length segments <? 2 then false else contains_word (removelast segments) token
      else contains_word segments token
  end.

(** [q.rfind(sep)] for each separator in turn; what is after the first found. *)
Fixpoint after_separator (seps : list bytes) (q : bytes) : bytes :=
  match seps with
  | [] => q
  | sep :: seps =>
      match rfind_sub sep q with
      | Some idx => drop (idx + length sep) q
      | None => after_separator seps q
      end
  end.

Definition extract_symbol_name (query : bytes) : bytes :=
  after_separator [bs "::"; bs "\"; bs "->"; bs "."] (trim query).

(** ** Paths *)

Definition SOFT_PENALTY_STRONG : f32 := f32_lit 3 10.
Definition SOFT_PENALTY_MODERATE : f32 := f32_lit 1 2.
Definition SOFT_PENALTY_MILD : f32 := f32_lit 7 10.
Definition EXTRA_TEST_DEMOTE_NON_TEST_QUERY : f32 := f32_lit 1 2.

Definition COMPAT_DIR_NAMES : list bytes := map bs ["compat"; "_compat"; "legacy"; "_legacy"]%string.
Definition EXAMPLES_DIR_NAMES : list bytes := map bs ["examples"; "_examples"]%string.
Definition REEXPORT_BASENAMES : list bytes := map bs ["__init__.py"; "package-info.java"]%string.

Definition has_dir_segment (path : bytes) (names : list bytes) : bool :=
  existsb (contains_word names) (split_on "/" path).

(** [path.replace('\\', "/")]. *)
Definition normalize_slashes (path : bytes) : bytes := map (λ b, if b =? "\" then "/" else b) path.

(** [path.rsplit('/').next()]. *)
Definition basename (path : bytes) : bytes :=
  match rsplit_once "/" path with Some (_, name) => name | None => path end.

Definition path_penalty (path : bytes) (is_test_file query_is_test_shaped : bool) : f32 :=
  let normalized := if has_byte "\" path then normalize_slashes path else path in
  let penalty := f32_one in
  let penalty := if negb query_is_test_shaped && is_test_file
    then f32_mul penalty (f32_mul SOFT_PENALTY_STRONG EXTRA_TEST_DEMOTE_NON_TEST_QUERY) else penalty in
  let penalty := if has_dir_segment normalized COMPAT_DIR_NAMES then f32_mul penalty SOFT_PENALTY_STRONG else penalty in
  let penalty := if has_dir_segment normalized EXAMPLES_DIR_NAMES then f32_mul penalty SOFT_PENALTY_STRONG else penalty in
  let penalty := if contains_word REEXPORT_BASENAMES (basename normalized) then f32_mul penalty SOFT_PENALTY_MODERATE else penalty in
  if ends_with (bs ".d.ts") normalized then f32_mul penalty SOFT_PENALTY_MILD else penalty.

Definition declaration_header_penalty (path : bytes) (language : Language) : f32 :=
  if negb (bool_decide (language = C)) then f32_one
  else
    let name := basename (normalize_slashes path) in
    if negb (ends_with (bs ".h") name) then f32_one
    else if ends_with (bs "-inl.h") name || ends_with (bs "_inl.h") name then f32_one
    else SOFT_PENALTY_MILD.

Definition WINDOWS_PLATFORM_DIR_NAMES : list bytes := map bs ["win"; "win32"; "windows"]%string.
Definition UNIX_PLATFORM_DIR_NAMES : list bytes := map bs ["unix"; "posix"; "linux"; "darwin"; "macos"; "bsd"]%string.

Definition foreign_platform_penalty (path : bytes) (windows_host : bool) : f32 :=
  let names := if windows_host then UNIX_PLATFORM_DIR_NAMES else WINDOWS_PLATFORM_DIR_NAMES in
  if has_dir_segment (normalize_slashes path) names then SOFT_PENALTY_MILD else f32_one.

Definition auxiliary_path (path : bytes) : bool :=
  match rsplit_once "/" (normalize_slashes path) with
  | Some (parent, _) => has_dir_segment parent [bs "bench"; bs "scripts"]
  | None => false
  end.

(** [version_dir_of]: the highest [vN] among the segments of a path. *)
Definition version_dir_of (path : bytes) : option N :=
  fold_left (λ acc n, match acc with Some m => Some (N.max m n) | None => Some n end)
    (omap (λ seg,
       rest ← (match strip_prefix ["v"] seg with Some r => Some r | None => strip_prefix ["V"] seg end);
       if nonempty_segment rest && forallb is_ascii_digit rest then parse_u32 rest else None)
     (split_on "/" (normalize_slashes path))) None.

Definition parent_dir_for_saturation (file_path : bytes) : bytes :=
  match rsplit_once "/" file_path with Some (dir, _) => dir | None => [] end.

Section query.
Context {U : Unicode}.

(** [normalize_stem]. *)
Definition normalize_stem (s : bytes) : bytes :=
  concat (List.filter (λ c, negb (one "_" c) && negb (one "-" c)) (chars (to_lowercase s))).

(** ** Symbols in a query *)

Definition is_symbol_query {R : Regexes} (query : bytes) : bool :=
  let q := trim query in nonempty_segment q && is_match symbol_query_re q.

(** A [BTreeSet] of the matches, in its order. *)
Definition extract_embedded_symbols {R : Regexes} (query : bytes) : list bytes :=
  sorted_keys (list_to_set (find_iter embedded_symbol_re query)).

(** ** Intent words *)

(** [query.split(|c| !c.is_alphanumeric())], the non-empty pieces, in ASCII lower
    case. *)
Definition intent_words (query : bytes) : list bytes :=
  map (map to_ascii_lowercase)
    (List.filter nonempty_segment (split_by (λ c, negb (is_alphanumeric c)) query)).

Definition TEST_INTENT_KEYWORDS : list bytes := map bs
  ["test"; "tests"; "testing"; "spec"; "specs"; "fixture"; "fixtures"; "phpt"]%string.
Definition WINDOWS_INTENT_KEYWORDS : list bytes := map bs
  ["windows"; "win32"; "win64"; "iocp"; "msvc"; "mingw"; "winapi"]%string.
Definition UNIX_INTENT_KEYWORDS : list bytes := map bs
  ["unix"; "posix"; "linux"; "darwin"; "macos"; "bsd"; "epoll"; "kqueue"; "inotify"; "pthread"; "pthreads"]%string.

Definition query_is_test_shaped {E : Env} (query : bytes) : bool :=
  test_query_aware_enabled && existsb (contains_word TEST_INTENT_KEYWORDS) (intent_words query).

Definition query_names_foreign_platform (query : bytes) (windows_host : bool) : bool :=
  let keywords := if windows_host then UNIX_INTENT_KEYWORDS else WINDOWS_INTENT_KEYWORDS in
  existsb (λ t, contains_word keywords t
                || contains_word (map bs ["platform"; "platforms"; "portable"; "portability"]%string) t)
    (intent_words query).

Definition query_names_version (query : bytes) : bool :=
  existsb (λ t, contains_word (map bs ["legacy"; "compat"; "deprecated"]%string) t
                || match strip_prefix ["v"] t with
                   | Some rest => nonempty_segment rest && forallb is_ascii_digit rest
                   | None => false
                   end)
    (intent_words query).

(** ** Tokens that may name a file *)

Definition STEM_MATCH_MIN_TOKEN_LEN : nat := 4.

Definition stem_match_tokens (query : bytes) : list bytes :=
  sorted_keys (list_to_set (map normalize_stem (List.filter (λ token,
    negb (length (chars token) <? STEM_MATCH_MIN_TOKEN_LEN)
    && (has_byte "_" token || existsb is_ascii_digit token
        || existsb is_uppercase (chars token) && existsb is_lowercase (chars token)))
    (split_by (λ c, negb (is_alphanumeric c || one "_" c)) query)))).

(** ** Explicit mentions *)

Inductive QueryMention :=
| MPath (path : bytes)
| MSymbol (owner member : bytes) (stem_fallback : bool).

#[export] Instance query_mention_eq : EqDecision QueryMention.
Proof using Type. solve_decision. Defined.

Definition MENTION_NON_CODE_EXTENSIONS : list bytes := map bs
  ["toml"; "md"; "json"; "yaml"; "yml"; "lock"; "txt"; "graphql"; "proto"; "sql"; "csv"; "xml"; "html"; "css"]%string.
Definition MENTION_DOTTED_MEMBER_AMBIGUOUS_LEN : nat := 4.
Definition MENTION_TRIM_LEADING : list byte := ["`"; "'"; QUOTE; "("; "["; "{"; "<"; "*"].
Definition MENTION_TRIM_TRAILING : list byte :=
  ["`"; "'"; QUOTE; "("; ")"; "]"; "}"; ">"; ","; ";"; ":"; "."; "!"; "?"; "*"].

(** Up to two trailing [:digits] groups. *)
Fixpoint strip_line_loop (n : nat) (out : bytes) : bytes :=
  match n with
  | 0 => out
  | S n =>
      match rsplit_once ":" out with
      | Some (head, tail) =>
          if nonempty_segment tail && forallb is_ascii_digit tail then strip_line_loop n head else out
      | None => out
      end
  end.

Definition strip_line_suffix (token : bytes) : bytes := strip_line_loop 2 token.

Definition path_mention (token : bytes) : option bytes :=
  let t := strip_line_suffix token in
  let t := default t (strip_prefix (bs "./") t) in
  if negb (nonempty_segment t) || ends_with (bs "/") t || has_byte "\" t || contains (bs "://") t || contains (bs "::") t
  then None
  else if has_byte "/" t && (match detect_language t with Some _ => true | None => false end) then Some t else None.

Definition is_mention_segment (s : bytes) : bool :=
  match chars s with
  | [] => false
  | first :: rest =>
      (2 <=? length (chars s)) && (is_alphabetic first || one "_" first) && forallb is_token_char rest
  end.

Definition symbol_mention (token : bytes) : option QueryMention :=
  '(owner, member, stem_fallback) ←
    (match rsplit_once_sub (bs "::") token with
     | Some (o, m) => Some (o, m, true)
     | None =>
         match rsplit_once "\" token with
         | Some (o, m) => Some (o, m, true)
         | None =>
             '(o, m) ← rsplit_once "." token;
             if contains_word MENTION_NON_CODE_EXTENSIONS m then None
             else if (length (chars m) <=? MENTION_DOTTED_MEMBER_AMBIGUOUS_LEN) && forallb is_ascii_lowercase m then None
             else Some (o, m, false)
         end
     end);
  let owner := default owner (last (split_by (λ c, one "." c || one ":" c || one "\" c) owner)) in
  if is_mention_segment owner && is_mention_segment member then Some (MSymbol owner member stem_fallback) else None.

Definition mention_of (raw : bytes) : option QueryMention :=
  let token := trim_end_by (one_byte (λ b, has_byte b MENTION_TRIM_TRAILING))
                 (trim_start_by (one_byte (λ b, has_byte b MENTION_TRIM_LEADING)) raw) in
  if negb (nonempty_segment token) then None
  else match path_mention token with
       | Some path => Some (MPath path)
       | None => symbol_mention token
       end.

Definition extract_query_mentions (query : bytes) : list QueryMention :=
  fold_left (λ out raw,
    match mention_of raw with
    | Some m => if decide (m ∈ out) then out else out ++ [m]
    | None => out
    end) (split_whitespace query) [].

(** The candidate's and the mention's components agree from the end. *)
Definition path_matches_mention (file_path mention : bytes) : bool :=
  let candidate := rev (split_on "/" file_path) in
  let wanted := List.filter (λ c, nonempty_segment c && negb (bytes_eqb c (bs "."))) (rev (split_on "/" mention)) in
  if (length wanted <? 2) || (length candidate <? 2) then false
  else forallb (λ p, bytes_eqb p.1 p.2) (zip wanted candidate).

Definition query_names_path_or_platform (query : bytes) : bool :=
  let normalized := normalize_slashes query in
  existsb (λ m, match m with MPath _ => true | MSymbol _ _ _ => false end) (extract_query_mentions normalized)
  || existsb (λ token,
       let token := trim_matches (one_byte (λ b, has_byte b ["`"; "'"; QUOTE; ","; ";"])) token in
       ends_with (bs "/") token || starts_with (bs "./") token || starts_with (bs "../") token
       || starts_with (bs "/") token
       || (match token with b :: rest => is_ascii_alphabetic b && bytes_eqb (take 2 rest) (bs ":/") | [] => false end)
       || contains (bs "/*") token || contains (bs "/?") token
       || (has_byte "/" token && has_dir_segment token [bs "bench"; bs "scripts"]))
     (split_whitespace normalized)
  || query_names_foreign_platform query false || query_names_foreign_platform query true.

(** ** The reranker's share *)

Definition RERANK_WEIGHT_DEFAULT : f32 := f32_lit 1 2.
Definition RERANK_WEIGHT_SHORT_ID : f32 := f32_lit 35 100.
Definition RERANK_WEIGHT_NATLANG : f32 := f32_lit 6 10.

Definition looks_like_short_identifier (s : bytes) : bool :=
  match chars s with
  | [] => false
  | first :: _ =>
      if negb (is_alphabetic first) && negb (one "_" first) then false
      else has_byte "_" s || has_byte "-" s || contains (bs "::") s || existsb is_uppercase (chars s)
           || existsb is_ascii_digit s
  end.

Definition adaptive_rerank_weight {E : Env} (query : bytes) : f32 :=
  if negb adaptive_rerank_weight_enabled then RERANK_WEIGHT_DEFAULT
  else
    let trimmed := trim query in
    if negb (nonempty_segment trimmed) then RERANK_WEIGHT_DEFAULT
    else if negb (existsb is_whitespace (chars trimmed)) && looks_like_short_identifier trimmed then RERANK_WEIGHT_SHORT_ID
    else
      let alpha_words := List.filter (λ s, forallb is_alphabetic (chars s) && (2 <=? length s))
        (split_by (λ c, is_whitespace c || one "," c || one "." c || one ";" c) trimmed) in
      if 3 <=? length alpha_words then RERANK_WEIGHT_NATLANG else RERANK_WEIGHT_DEFAULT.
End query.
