(* ===== verification/SearchRank.v ===== *)
(** * SearchRank: rows, and the stages that score them

    Models the ranking stages of [src/crates/graph/src/search.rs]: each rescales or
    lifts the scores of the candidates, sorts them, and records what it did in the
    trace of a request that asked for an explanation. *)
From Stdlib Require Import SpecFloat.
From stdpp Require Import gmap.
From S2P Require Import Prelude Text Unicode Detect Handle Order Float SearchConfig SearchText SearchQuery.
From Stdlib Require Import Lia ZArith.
Local Open Scope byte_scope.
Local Open Scope codesage_scope.

(** ** Rows (protocol/src/lib.rs, storage/src/db/semantic.rs) *)

Record SearchScoreSignals := mkSignals {
  dense_rank : option nat;
  dense_score : option f32;
  bm25_rank : option nat;
  bm25_score : option f32;
  fused_score : option f64;
  reranker_raw : option f32;
  reranker_normalized : option f32;
  reranker_weight : option f32 }.

Definition no_signals : SearchScoreSignals := mkSignals None None None None None None None None.

Record RawSearchRow := mkRaw {
  raw_path : bytes;
  raw_language : bytes;
  raw_content : bytes;
  raw_start : N;
  raw_end : N;
  distance : f32;
  retrieval : SearchScoreSignals }.

(** A reason is a text of the source, with the values formatted into it. *)
Inductive arg := AFloat (x : f32) | ANat (n : nat) | AInt (z : Z) | ABool (b : bool) | AText (t : bytes).
Record Reason := { format : string; args : list arg }.
Definition plain (text : string) : Reason := {| format := text; args := [] |}.

Record SearchTrace := mkTrace {
  stage : string;
  before : option f32;
  after : f32;
  reason : Reason;
  signals : option SearchScoreSignals }.

Record SymbolSummary := mkSummary { ss_name : bytes; ss_qualified_name : bytes; ss_kind : SymbolKind }.

Record SearchResult := mkResult {
  sr_path : bytes;
  language : Language;
  content : bytes;
  start_line : N;
  end_line : N;
  score : f32;
  symbols : list SymbolSummary;
  trace : option (list SearchTrace) }.

Definition set_score (x : f32) (r : SearchResult) : SearchResult :=
  mkResult (sr_path r) (language r) (content r) (start_line r) (end_line r) x (symbols r) (trace r).
Definition set_symbols (ss : list SymbolSummary) (r : SearchResult) : SearchResult :=
  mkResult (sr_path r) (language r) (content r) (start_line r) (end_line r) (score r) ss (trace r).
Definition set_trace (t : option (list SearchTrace)) (r : SearchResult) : SearchResult :=
  mkResult (sr_path r) (language r) (content r) (start_line r) (end_line r) (score r) (symbols r) t.

Definition l2_to_score (d : f32) : f32 :=
  fmax (f32_sub f32_one (f32_div (f32_mul d d) (f32_of_Z 2))) f32_zero.

(** ** Tracing *)

Definition push_trace (t : SearchTrace) (r : SearchResult) : SearchResult :=
  match trace r with Some ts => set_trace (Some (ts ++ [t])) r | None => r end.

Definition record_score (st : string) (bef : f32) (why : Reason) (r : SearchResult) : SearchResult :=
  push_trace (mkTrace st (Some bef) (score r) why None) r.

Definition has_stage (st : string) (ts : list SearchTrace) : bool :=
  existsb (λ t, String.eqb (stage t) st) ts.

Definition finish_row (st why : string) (r : SearchResult) : SearchResult :=
  match trace r with
  | Some ts => if has_stage st ts then r else record_score st (score r) (plain why) r
  | None => r
  end.

Definition finish_trace_stage (st why : string) (rs : list SearchResult) : list SearchResult := map (finish_row st why) rs.

(** [results.sort_by(|a, b| b.score.partial_cmp(&a.score).unwrap_or(Equal))]. *)
Definition score_cmp (a b : SearchResult) : comparison := desc_cmp (score a) (score b).
Definition sort_scores (rs : list SearchResult) : list SearchResult := sort_by score_cmp rs.

(** A row rescored by [f], and the change recorded. *)
Definition rescore (f : f32 → f32) (st : string) (why : Reason) (r : SearchResult) : SearchResult :=
  record_score st (score r) why (set_score (f (score r)) r).

Section stages.
Context {U : Unicode} {R : Regexes} {G : Globs} {F : FloatOps} {E : Env}.

(** ** Symbols the query names *)

Definition symbol_boost_of (known : list bytes) (content : bytes) : f32 :=
  let content_lower := to_lowercase content in
  fold_left (λ boost sym, if contains_token content_lower sym then f32_add boost (f32_lit 1 10) else boost)
    known f32_zero.

Definition symbol_boost_row (known : list bytes) (r : SearchResult) : SearchResult :=
  let boost := symbol_boost_of known (content r) in
  rescore (λ s, f32_add s boost) "symbol_boost"
    {| format := "Whole-token matches for known query symbols: additive boost {boost}"; args := [AFloat boost] |} r.

Definition apply_symbol_boost (known : list bytes) (rs : list SearchResult) : list SearchResult :=
  sort_scores (map (symbol_boost_row known) rs).

Definition QUALIFIED_NAME_BOOST_FACTOR : f32 := f32_of_Z 2.

Definition qualified_hit (known : list bytes) (r : SearchResult) : bool :=
  existsb (λ s, existsb (λ k, qualified_name_matches k (to_lowercase (ss_qualified_name s)) (to_lowercase (ss_name s))) known)
    (symbols r).

Definition qualified_row (known : list bytes) (r : SearchResult) : SearchResult :=
  if qualified_hit known r then
    rescore (λ s, f32_mul s QUALIFIED_NAME_BOOST_FACTOR) "qualified_name_boost"
      {| format := "Annotated qualified name matches a known query symbol; factor {QUALIFIED_NAME_BOOST_FACTOR}"; args := [] |} r
  else r.

Definition apply_qualified_name_boost (known : list bytes) (rs : list SearchResult) : list SearchResult :=
  match known with [] => rs | _ => sort_scores (map (qualified_row known) rs) end.

(** ** Declarations *)

Definition DEFINITION_KEYWORDS : list bytes := map bs
  ["abstract class"; "data class"; "defmodule"; "function"; "interface"; "namespace"; "package"; "protocol";
   "module"; "object"; "record"; "struct"; "trait"; "class"; "enum"; "func"; "type"; "def"; "fun"; "fn"]%string.

Definition definition_pattern (symbol_name : bytes) : bytes :=
  bs "(?m)(?:^|\s)(?:" ++ join_sub (bs "|") (map regex_escape DEFINITION_KEYWORDS) ++
  bs ")\s+(?:[A-Za-z_]\w*(?:\.|::))*" ++ regex_escape symbol_name ++ bs "(?:\s|[<({:\[;]|$)".

Definition compile_definition_pattern (symbol_name : bytes) : option Regex := regex_new (definition_pattern symbol_name).

Definition DEFINITION_PATTERN_CACHE_CAP : nat := 64.

Abbreviation PatternCache := (gmap bytes Regex).

(** [meanwhile] is what other threads do to the cache while the pattern compiles,
    outside the lock. *)
Definition build_definition_pattern (meanwhile : PatternCache → PatternCache) (cache : PatternCache) (symbol_name : bytes)
    : PatternCache * option Regex :=
  if bytes_eqb symbol_name [] then (cache, None)
  else match cache !! symbol_name with
       | Some re => (cache, Some re)
       | None =>
           match compile_definition_pattern symbol_name with
           | None => (cache, None)
           | Some re =>
               let cache := meanwhile cache in
               let cache := if DEFINITION_PATTERN_CACHE_CAP <=? size cache then ∅ else cache in
               (<[symbol_name := re]> cache, Some re)
           end
       end.

Definition DEFINITION_BOOST_MULTIPLIER : f32 := f32_of_Z 3.
Definition DEFINITION_FILE_STEM_BONUS : f32 := f32_lit 3 2.
Definition EMBEDDED_SYMBOL_BOOST_SCALE : f32 := f32_lit 1 2.

Definition max_score (init : f32) (rs : list SearchResult) : f32 := fold_left (λ m r, fmax m (score r)) rs init.

(** The symbols a query asks the declaration of. *)
Definition definition_symbols (query : bytes) : list bytes :=
  if is_symbol_query query then
    let name := extract_symbol_name query in if length name <? 2 then [] else [name]
  else extract_embedded_symbols query.

(** What a declaration of [symbol_lower] in the file of [r] adds. *)
Definition definition_boost_of (boost_unit : f32) (symbol_lower : bytes) (r : SearchResult) : f32 :=
  match file_stem (sr_path r) with
  | Some stem =>
      if bytes_eqb (to_lowercase stem) symbol_lower || bytes_eqb (normalize_stem stem) symbol_lower
      then f32_mul boost_unit DEFINITION_FILE_STEM_BONUS else boost_unit
  | None => boost_unit
  end.

(** One symbol over every row; a row carries the symbols that matched it so far. *)
Definition boost_symbol (re : Regex) (boost_unit : f32) (symbol_lower : bytes) (p : SearchResult * nat) : SearchResult * nat :=
  let '(r, matches) := p in
  if is_match re (content r) then (set_score (f32_add (score r) (definition_boost_of boost_unit symbol_lower r)) r, S matches)
  else (r, matches).

Fixpoint boost_symbols (meanwhile : PatternCache → PatternCache) (cache : PatternCache) (boost_unit : f32)
    (symbols : list bytes) (rows : list (SearchResult * nat)) : PatternCache * list (SearchResult * nat) :=
  match symbols with
  | [] => (cache, rows)
  | s :: symbols =>
      let '(cache, re) := build_definition_pattern meanwhile cache s in
      let rows := match re with
                  | Some re => map (boost_symbol re boost_unit (to_lowercase s)) rows
                  | None => rows
                  end in
      boost_symbols meanwhile cache boost_unit symbols rows
  end.

(** The observation of a row: its score before the stage, and its matches. *)
Definition observe_definition (before_row : SearchResult) (p : SearchResult * nat) : SearchResult :=
  let '(r, matches) := p in
  if 0 <? matches then
    record_score "definition_boost" (score before_row)
      {| format := "{matches} query symbols matched declarations; cumulative additive boost {boost}, including any matching file-stem bonus";
         args := [ANat matches; AFloat (f32_sub (score r) (score before_row))] |} r
  else r.

Definition apply_definition_boost (meanwhile : PatternCache → PatternCache) (cache : PatternCache) (query : bytes)
    (rs : list SearchResult) : PatternCache * list SearchResult :=
  match rs with
  | [] => (cache, rs)
  | _ =>
      let top := max_score neg_infinity rs in
      if negb (is_finite top) || fleb top f32_zero then (cache, rs)
      else match definition_symbols query with
           | [] => (cache, rs)
           | symbols =>
               let scale := if is_symbol_query query then f32_one else EMBEDDED_SYMBOL_BOOST_SCALE in
               let boost_unit := f32_mul (f32_mul top DEFINITION_BOOST_MULTIPLIER) scale in
               let observing := existsb (λ r, match trace r with Some _ => true | None => false end) rs in
               let '(cache, rows) := boost_symbols meanwhile cache boost_unit symbols (map (λ r, (r, 0)) rs) in
               let results := if observing then zip_with observe_definition rs rows else map fst rows in
               (cache, sort_scores results)
           end
  end.

(** ** Reranking *)

Definition rerank_row (weight : f32) (ce_min ce_range : f32) (r : SearchResult) (ce_raw : f32) : SearchResult :=
  let ce_norm := if fltb (f32_lit 1 1000000) ce_range then f32_div (f32_sub ce_raw ce_min) ce_range else f32_lit 1 2 in
  let bef := score r in
  let r := set_score (f32_add (f32_mul (f32_sub f32_one weight) (score r)) (f32_mul weight ce_norm)) r in
  push_trace (mkTrace "rerank_blend" (Some bef) (score r)
    (plain "Blend of pre-rerank score and min-max normalized cross-encoder score")
    (Some (mkSignals None None None None None (Some ce_raw) (Some ce_norm) (Some weight)))) r.

(** Rows beyond the scores the reranker returned keep theirs. *)
Fixpoint rerank_rows (weight ce_min ce_range : f32) (rs : list SearchResult) (ce : list f32) : list SearchResult :=
  match rs, ce with
  | r :: rs, c :: ce => rerank_row weight ce_min ce_range r c :: rerank_rows weight ce_min ce_range rs ce
  | rs, _ => rs
  end.

Definition apply_reranking (rerank : bytes → list bytes → result (list f32)) (query : bytes)
    (weight_override : option f32) (rs : list SearchResult) : result (list SearchResult) :=
  match rs with
  | [] => Ok rs
  | _ =>
      match rerank query (map content rs) with
      | Err e =>
          if work_stopped e then Err e
          else Ok (finish_trace_stage "rerank_blend" "Cross-encoder failed; retained pre-rerank score" rs)
      | Ok ce_scores =>
          let ce_min := fold_left fmin ce_scores infinity in
          let ce_max := fold_left fmax ce_scores neg_infinity in
          let ce_range := f32_sub ce_max ce_min in
          let weight := default (adaptive_rerank_weight query) weight_override in
          Ok (sort_scores (rerank_rows weight ce_min ce_range rs ce_scores))
      end
  end.

(** ** Penalties *)

(** [TestFileFlags]. *)
Definition STRUCTURAL_INTERPRETATION : bytes :=
  bs "codesage/structural/v1;parser-queries=9;extraction=20;trust-boundaries=8".

Definition file_is_test (path : bytes) (stored : bool) (interpretation : option bytes) : bool :=
  stored || (negb (bool_decide (interpretation = Some STRUCTURAL_INTERPRETATION)) && is_test_like_path path).

Abbreviation TestFileFlags := (gmap bytes bool).

Definition load_test_flags (file_test_flags : list bytes → result (gmap bytes (bool * option bytes)))
    (rs : list SearchResult) : result TestFileFlags :=
  let? flags := file_test_flags (sorted_keys (list_to_set (map sr_path rs))) in
  Ok (map_imap (λ path p, Some (file_is_test path p.1 p.2)) flags).

Definition is_test (flags : TestFileFlags) (path : bytes) : bool := default (is_test_like_path path) (flags !! path).

Definition php_declaration_penalty (query : bytes) (r : SearchResult) : f32 :=
  if negb (bool_decide (language r = Php)) then f32_one
  else
    let normalized := normalize_slashes (sr_path r) in
    match strip_suffix (bs ".php") (basename normalized) with
    | None => f32_one
    | Some stem =>
        if negb (ends_with (bs "Interface") stem) && negb (has_dir_segment normalized [bs "Contracts"; bs "Facades"])
        then f32_one
        else
          let explicit := existsb (λ token,
            let lower := map to_ascii_lowercase token in
            contains_word (map bs ["interface"; "interfaces"; "contract"; "contracts"; "facade"; "facades"]%string) lower
            || bytes_eqb lower (map to_ascii_lowercase stem)
            || existsb (λ s, bytes_eqb lower (map to_ascii_lowercase (ss_name s))) (symbols r))
            (split_by (λ c, negb (is_alphanumeric c) && negb (one "_" c)) query) in
          if explicit then f32_one else SOFT_PENALTY_MODERATE
    end.

Definition apply_foreign_platform_penalties (query : bytes) (windows_host : bool) (rs : list SearchResult) : list SearchResult :=
  if query_names_foreign_platform query windows_host
     || negb (existsb (λ r, fltb (foreign_platform_penalty (sr_path r) (negb windows_host)) f32_one) rs)
  then rs
  else map (λ r, rescore (λ s, f32_mul s (foreign_platform_penalty (sr_path r) windows_host)) "platform_penalty"
         {| format := "Host-platform preference; windows_host={windows_host}"; args := [ABool windows_host] |} r) rs.

Definition row_penalty (query : bytes) (flags : TestFileFlags) (auxiliary has_c_implementation : bool) (r : SearchResult) : f32 :=
  let is_test_query := query_is_test_shaped query in
  let is_test_file := is_test flags (sr_path r) in
  let penalty := path_penalty (sr_path r) is_test_file is_test_query in
  let penalty := if auxiliary && auxiliary_path (sr_path r) && (negb is_test_file || is_test_query)
    then f32_mul penalty (f32_mul SOFT_PENALTY_STRONG EXTRA_TEST_DEMOTE_NON_TEST_QUERY) else penalty in
  let penalty := if has_c_implementation then f32_mul penalty (declaration_header_penalty (sr_path r) (language r)) else penalty in
  if php_declaration_demote_enabled then f32_mul penalty (php_declaration_penalty query r) else penalty.

(** [unix_or_windows], [windows]: the [cfg!] of the target. *)
Definition apply_path_penalties (unix_or_windows windows : bool) (query : bytes) (flags : TestFileFlags)
    (rs : list SearchResult) : list SearchResult :=
  let auxiliary := negb (query_names_path_or_platform query) in
  let has_c_implementation := existsb (λ r, bool_decide (language r = C) && ends_with (bs ".c") (sr_path r)) rs in
  let rs := map (λ r,
    let penalty := row_penalty query flags auxiliary has_c_implementation r in
    rescore (λ s, f32_mul s penalty) "path_penalty"
      {| format := "Combined path/declaration multiplier {penalty}; test-shaped query={is_test_query}";
         args := [AFloat penalty; ABool (query_is_test_shaped query)] |} r) rs in
  let rs := if unix_or_windows && platform_demote_enabled then apply_foreign_platform_penalties query windows rs else rs in
  sort_scores rs.

Definition max_version (rs : list SearchResult) : option N :=
  fold_left (λ acc n, match acc with Some m => Some (N.max m n) | None => Some n end)
    (omap (λ r, version_dir_of (sr_path r)) rs) None.

Definition older_version (newest : N) (r : SearchResult) : bool :=
  match version_dir_of (sr_path r) with Some v => (v <? newest)%N | None => false end.

Definition apply_version_demote (query : bytes) (rs : list SearchResult) : list SearchResult :=
  if query_names_version query then rs
  else match max_version rs with
       | None => rs
       | Some newest =>
           let demoted := existsb (older_version newest) rs in
           let rs := map (λ r, if older_version newest r then
               rescore (λ s, f32_mul s SOFT_PENALTY_MILD) "version_penalty"
                 {| format := "Candidate is older than v{max_version}; factor {SOFT_PENALTY_MILD}"; args := [AInt (Z.of_N newest)] |} r
             else r) rs in
           if demoted then sort_scores rs else rs
       end.

Definition STEM_MATCH_BOOST : f32 := f32_lit 12 10.

Definition stem_matches (tokens : list bytes) (r : SearchResult) : bool :=
  match file_stem (sr_path r) with Some stem => contains_word tokens (normalize_stem stem) | None => false end.

Definition apply_stem_match_boost (query : bytes) (rs : list SearchResult) : list SearchResult :=
  match stem_match_tokens query with
  | [] => rs
  | tokens =>
      let boosted := existsb (stem_matches tokens) rs in
      let rs := map (λ r, if stem_matches tokens r then
          rescore (λ s, f32_mul s STEM_MATCH_BOOST) "stem_boost"
            {| format := "Identifier-shaped query token matches file stem; factor {STEM_MATCH_BOOST}"; args := [] |} r
        else r) rs in
      if boosted then sort_scores rs else rs
  end.

(** ** Saturation *)

(** [i as i32]: wrapping. *)
Definition as_i32 (n : N) : Z := ((Z.of_N n + 2 ^ 31) mod 2 ^ 32 - 2 ^ 31)%Z.

(** The rows in order, with the rows of the same key counted before each. *)
Fixpoint saturate (key : SearchResult → bytes) (threshold : N) (decay : f32) (st : string) (why : nat → Z → Reason)
    (counts : gmap bytes nat) (rs : list SearchResult) : list SearchResult :=
  match rs with
  | [] => []
  | r :: rs =>
      let k := key r in
      let already := default 0 (counts !! k) in
      let r' := if (threshold <=? N.of_nat already)%N then
          let excess := as_i32 (N.of_nat already - threshold + 1) in
          rescore (λ s, f32_mul s (powi decay excess)) st (why already excess) r
        else r in
      r' :: saturate key threshold decay st why (<[k := S already]> counts) rs
  end.

Definition FILE_SATURATION_THRESHOLD : N := 1.
Definition FILE_SATURATION_DECAY : f32 := f32_lit 1 2.

Definition apply_file_saturation (rs : list SearchResult) : list SearchResult :=
  match rs with
  | [] => rs
  | _ => sort_scores (saturate sr_path FILE_SATURATION_THRESHOLD FILE_SATURATION_DECAY "file_saturation"
           (λ already excess, {| format := "Repeated file: occurrence {}; factor {FILE_SATURATION_DECAY}^{excess}";
                                 args := [ANat (S already); AInt excess] |}) ∅ (sort_scores rs))
  end.

Definition apply_directory_saturation (rs : list SearchResult) : list SearchResult :=
  match rs with
  | [] => rs
  | _ => sort_scores (saturate (λ r, parent_dir_for_saturation (sr_path r)) dir_saturation_threshold dir_saturation_decay
           "directory_saturation"
           (λ already excess, {| format := "Repeated directory: occurrence {}, threshold {threshold}, factor {decay}^{excess}";
                                 args := [ANat (S already); AInt (Z.of_N dir_saturation_threshold); AFloat dir_saturation_decay; AInt excess] |})
           ∅ (sort_scores rs))
  end.

(** ** Mentions *)

Definition MENTION_TOP_GAP_FRAC : f32 := f32_lit 5 100.
Definition MENTION_MAX_FILES : nat := 4.
Definition MENTION_MAX_CHUNKS_PER_FILE : nat := 3.
Definition MENTION_MAX_ANCHORED : nat := 5.

Definition symbols_match_mention (owner member : bytes) (stem_fallback : bool) (r : SearchResult) : bool :=
  let members := List.filter (λ s, bytes_eqb (ss_name s) member) (symbols r) in
  match members with
  | [] => false
  | _ =>
      existsb (λ s,
        let segments := qualified_name_segments (ss_qualified_name s) in
        (2 <=? length segments)
        && bytes_eqb (default [] (segments !! (length segments - 1))) member
        && bytes_eqb (default [] (segments !! (length segments - 2))) owner) members
      || (stem_fallback && bool_decide (file_stem (sr_path r) = Some owner))
  end.

Record AnchorLedger := { anchored : list nat; per_file : gmap bytes nat }.

Definition try_anchor (idx : nat) (file_path : bytes) (l : AnchorLedger) : AnchorLedger :=
  if (MENTION_MAX_ANCHORED <=? length (anchored l)) || bool_decide (idx ∈ anchored l) then l
  else
    let count := default 0 (per_file l !! file_path) in
    if Nat.eqb count 0 && (MENTION_MAX_FILES <=? size (per_file l)) then l
    else if MENTION_MAX_CHUNKS_PER_FILE <=? count then l
    else {| anchored := anchored l ++ [idx]; per_file := <[file_path := S count]> (per_file l) |}.

(** The positions of the rows that satisfy [p]. *)
Definition hits (p : SearchResult → bool) (window : list SearchResult) : list nat :=
  List.filter (λ i, match window !! i with Some r => p r | None => false end) (seq 0 (length window)).

Definition path_at (window : list SearchResult) (i : nat) : bytes :=
  match window !! i with Some r => sr_path r | None => [] end.

Definition anchor_mention (window : list SearchResult) (l : AnchorLedger) (m : QueryMention) : AnchorLedger :=
  match m with
  | MPath path =>
      let hs := hits (λ r, path_matches_mention (sr_path r) path) window in
      if 1 <? size (list_to_set (map (path_at window) hs) : gset bytes) then l
      else fold_left (λ l i, try_anchor i (path_at window i) l) hs l
  | MSymbol owner member stem_fallback =>
      fold_left (λ l i,
        if MENTION_MAX_ANCHORED <=? length (anchored l) then l
        else if (match window !! i with Some r => symbols_match_mention owner member stem_fallback r | None => false end)
        then try_anchor i (path_at window i) l else l) (seq 0 (length window)) l
  end.

Definition anchors (window : list SearchResult) (mentions : list QueryMention) : list nat :=
  anchored (fold_left (anchor_mention window) mentions {| anchored := []; per_file := ∅ |}).

(** The row at an anchor slot, lifted to its target when it is below. *)
Definition lift_row (target : f32) (slot : nat) (r : SearchResult) : SearchResult :=
  let bef := score r in
  let r := if fltb (score r) target then set_score target r else r in
  record_score "mention_anchor" bef
    {| format := "Explicit query mention, anchor slot {}, minimum score {target}"; args := [ANat (S slot); AFloat target] |} r.

Definition anchor_target (top : f32) (slot : nat) : f32 :=
  f32_mul top (powi (f32_sub f32_one MENTION_TOP_GAP_FRAC) (Z.of_nat slot + 1)).

Fixpoint lift_loop (top : f32) (slot : nat) (idxs : list nat) (rs : list SearchResult) : list SearchResult * bool :=
  match idxs with
  | [] => (rs, false)
  | i :: idxs =>
      let target := anchor_target top slot in
      let lifted := match rs !! i with Some r => fltb (score r) target | None => false end in
      let '(rs, more) := lift_loop top (S slot) idxs (alter (lift_row target slot) i rs) in
      (rs, lifted || more)
  end.

(** The indices in ascending order: [anchored.sort_unstable()]. *)
Definition sort_indices (l : list nat) : list nat := sort_by Nat.compare l.

Definition apply_mention_anchor (query : bytes) (scan_limit offset : N) (enabled : bool) (rs : list SearchResult)
    : list SearchResult :=
  if negb enabled || negb (offset =? 0)%N || bool_decide (rs = []) then rs
  else match extract_query_mentions query with
       | [] => rs
       | mentions =>
           let window := take (N.to_nat (N.min scan_limit (N.of_nat (length rs)))) rs in
           match window with
           | [] => rs
           | _ =>
               match anchors window mentions with
               | [] => rs
               | idxs =>
                   let top := max_score F32_MIN window in
                   let '(rs, lifted) := lift_loop top 0 (sort_indices idxs) rs in
                   if lifted then sort_scores rs else rs
               end
           end
       end.
End stages.
