(* ===== verification/SearchPage.v ===== *)
(** * SearchPage: retrieval, fusion and the page

    Models the pipeline of [src/crates/graph/src/search.rs]: the dense candidates,
    the lexical ones and their reciprocal rank fusion, the scan for declarations in
    files of the right name, the composition of the stages of SearchRank, and the
    cut of the page at its relevance cliff. *)
From Stdlib Require Import SpecFloat.
From stdpp Require Import gmap sorting.
From S2P Require Import Prelude Text Unicode Detect Handle Order Float SearchConfig SearchText SearchQuery SearchRank.
From Stdlib Require Import Lia ZArith.
Local Open Scope codesage_scope.

(** [usize]. *)
Definition usize_max : N := 2 ^ 64 - 1.
Definition saturating_add (a b : N) : N := N.min (a + b) usize_max.
Definition saturating_mul (a b : N) : N := N.min (a * b) usize_max.
(** [v.truncate(n)]. *)
Definition truncate {A} (n : N) (l : list A) : list A := take (N.to_nat (N.min n (N.of_nat (length l)))) l.

(** ** The index *)

Definition Token : Type := Z * Z * Z * Z * Z.

(** The queries of [codesage_storage::Database] a search makes. *)
Class SearchIndex := {
  search_knn : bytes → N → option bytes → result (list RawSearchRow);
  search_bm25 : bytes → N → option (list bytes) → option (list bytes) → result (list RawSearchRow);
  token_doc_frequency : bytes → result (N * N);
  symbol_exists : bytes → result bool;
  all_chunk_file_paths : result (list bytes);
  chunks_for_file : bytes → result (list RawSearchRow);
  semantic_cache_key : option (bytes * bytes);
  semantic_files_validity_token : result Token;
  file_test_flags : list bytes → result (gmap bytes (bool * option bytes));
  symbols_for_files : list bytes → result (gmap bytes (list Symbol)) }.

(** ** Requests and pages *)

Record SearchRequest := {
  query : bytes;
  req_limit : option N;
  req_offset : option N;
  req_languages : option (list Language);
  req_paths : option (list bytes);
  adaptive_limit : bool;
  explain : bool }.

Inductive SearchConfidence := High | Low.

Record SearchResults := {
  results : list SearchResult;
  lexical_fallback_reason : option Reason;
  confidence : option SearchConfidence;
  margin_pct : option Z;
  cliff_at : option nat }.

(** [Language::as_str] and [Language::parse]. *)
Definition as_str (l : Language) : bytes :=
  bs (match l with Php => "php" | Python => "python" | C => "c" | Cpp => "cpp" | Java => "java" | Rust => "rust"
      | JavaScript => "javascript" | TypeScript => "typescript" | Go => "go" end)%string.

Definition parse_language (s : bytes) : option Language :=
  let one_of (l : list string) := contains_word (map bs l) s in
  if one_of ["php"]%string then Some Php
  else if one_of ["python"]%string then Some Python
  else if one_of ["c"]%string then Some C
  else if one_of ["cpp"; "c++"; "cxx"]%string then Some Cpp
  else if one_of ["java"]%string then Some Java
  else if one_of ["rust"]%string then Some Rust
  else if one_of ["javascript"; "js"]%string then Some JavaScript
  else if one_of ["typescript"; "ts"]%string then Some TypeScript
  else if one_of ["go"]%string then Some Go
  else None.

(** [parse_db_language]: an unknown tag is shown as Rust. *)
Definition parse_db_language (s : bytes) : Language := default Rust (parse_language s).

(** ** The relevance cliff *)

Definition MIN_CLIFF_DROP : f32 := f32_lit 20 100.

Record CliffCut := { cut : nat; drop_pct : Z; cliff_confidence : SearchConfidence }.

Definition relative_drop (hi lo : f32) : f32 := fmin (f32_div (f32_sub hi lo) hi) f32_one.

(** The adjacent pairs of [scores], from index [i]; the best drop and cut so far. *)
Fixpoint cliff_loop (i : nat) (best : f32 * nat) (scores : list f32) : f32 * nat :=
  match scores with
  | hi :: (lo :: _) as rest =>
      let best :=
        if negb (is_finite hi) || negb (is_finite lo) || fleb hi f32_zero then best
        else
          let drop := relative_drop hi lo in
          if fltb best.1 drop then (drop, S i) else best in
      cliff_loop (S i) best rest
  | _ => best
  end.

Definition relevance_cliff (scores : list f32) : CliffCut :=
  let '(best_drop, best_cut) := cliff_loop 0 (f32_zero, length scores) scores in
  let drop_pct := as_u8 (f32_round (f32_mul best_drop (f32_of_Z 100))) in
  let min_drop_pct := as_u8 (f32_round (f32_mul MIN_CLIFF_DROP (f32_of_Z 100))) in
  if (min_drop_pct <=? drop_pct)%Z
  then {| cut := best_cut; drop_pct := drop_pct; cliff_confidence := High |}
  else {| cut := length scores; drop_pct := drop_pct; cliff_confidence := Low |}.

Definition apply_offset_and_limit {A} (rows : list A) (offset limit : N) : list A :=
  let rows := if (N.of_nat (length rows) <=? offset)%N then []
              else if (0 <? offset)%N then drop (N.to_nat offset) rows else rows in
  truncate limit rows.

(** ** Fusion *)

Definition RRF_K : f64 := f64_of_Z 60.
Definition BM25_WEIGHT : f64 := f64_of_Z 2.
Definition MIN_FUSED_RESCALE_SPAN : f32 := f32_lit 5 100.

(** The region of text a row stands for. *)
Definition row_key (r : RawSearchRow) : bytes * N * N := (raw_path r, raw_start r, raw_end r).

(** [weight / (RRF_K + rank as f64 + 1.0)]. *)
Definition contribution (weight : f64) (rank : nat) : f64 :=
  f64_div weight (f64_add (f64_add RRF_K (f64_of_Z (Z.of_nat rank))) (f64_of_Z 1)).

Definition set_retrieval (s : SearchScoreSignals) (r : RawSearchRow) : RawSearchRow :=
  mkRaw (raw_path r) (raw_language r) (raw_content r) (raw_start r) (raw_end r) (distance r) s.
Definition set_distance (d : f32) (r : RawSearchRow) : RawSearchRow :=
  mkRaw (raw_path r) (raw_language r) (raw_content r) (raw_start r) (raw_end r) d (retrieval r).

Definition with_dense (rank : nat) (r : RawSearchRow) : RawSearchRow :=
  let s := retrieval r in
  set_retrieval (mkSignals (Some (S rank)) (Some (l2_to_score (distance r))) (bm25_rank s) (bm25_score s) (fused_score s)
    (reranker_raw s) (reranker_normalized s) (reranker_weight s)) r.

Definition with_bm25 (rank : option nat) (sc : option f32) (r : RawSearchRow) : RawSearchRow :=
  let s := retrieval r in
  set_retrieval (mkSignals (dense_rank s) (dense_score s) rank sc (fused_score s)
    (reranker_raw s) (reranker_normalized s) (reranker_weight s)) r.

Definition with_fused (sc : f64) (r : RawSearchRow) : RawSearchRow :=
  let s := retrieval r in
  set_retrieval (mkSignals (dense_rank s) (dense_score s) (bm25_rank s) (bm25_score s) (Some sc)
    (reranker_raw s) (reranker_normalized s) (reranker_weight s)) r.

Abbreviation Scores := (gmap (bytes * N * N) (f64 * RawSearchRow)).

Definition add_dense (scores : Scores) (p : nat * RawSearchRow) : Scores :=
  let '(rank, row) := p in
  let row := with_dense rank row in
  let contrib := contribution (f64_of_Z 1) rank in
  match scores !! row_key row with
  | Some (s, existing) => <[row_key row := (f64_add s contrib, existing)]> scores
  | None => <[row_key row := (contrib, row)]> scores
  end.

Definition add_bm25 (scores : Scores) (p : nat * RawSearchRow) : Scores :=
  let '(rank, row) := p in
  let row := with_bm25 (Some (S rank)) (Some (distance row)) row in
  let contrib := contribution BM25_WEIGHT rank in
  match scores !! row_key row with
  | Some (s, existing) =>
      <[row_key row := (f64_add s contrib, with_bm25 (bm25_rank (retrieval row)) (bm25_score (retrieval row)) existing)]> scores
  | None => <[row_key row := (contrib, row)]> scores
  end.

Definition enumerate {A} (l : list A) : list (nat * A) := zip (seq 0 (length l)) l.

Definition fuse (semantic bm25 : list RawSearchRow) : Scores :=
  fold_left add_bm25 (enumerate bm25) (fold_left add_dense (enumerate semantic) ∅).

(** [b.0.total_cmp(&a.0)], then the path, then the first line. *)
Definition ranked_cmp (a b : f64 * RawSearchRow) : comparison :=
  then_with (total_cmp b.1 a.1)
    (then_with (bytes_cmp (raw_path a.2) (raw_path b.2)) (N.compare (raw_start a.2) (raw_start b.2))).

(** The dense scores' span, or a synthetic one when they are nearly tied. *)
Definition dense_span (semantic : list RawSearchRow) : f32 * f32 :=
  let '(lo, hi) := fold_left (λ '(lo, hi) r, let s := l2_to_score (distance r) in (fmin lo s, fmax hi s))
                     semantic (infinity, neg_infinity) in
  let '(lo, hi) := if is_finite lo && is_finite hi then (lo, hi) else (f32_zero, f32_one) in
  if fltb (f32_sub hi lo) MIN_FUSED_RESCALE_SPAN
  then (clamp (f32_sub hi (f32_lit 2 10)) f32_zero f32_one, clamp hi f32_zero f32_one) else (lo, hi).

Definition rescaled_row (sem_min sem_max : f32) (fused_lo fused_range : f64) (p : f64 * RawSearchRow) : RawSearchRow :=
  let '(sc, row) := p in
  let rescaled := if fltb F64_EPSILON fused_range
    then f32_add sem_min (f32_mul (f32_of_f64 (f64_div (f64_sub sc fused_lo) fused_range)) (f32_sub sem_max sem_min))
    else sem_max in
  set_distance (f32_sqrt (f32_mul (f32_of_Z 2) (f32_sub f32_one (clamp rescaled f32_zero f32_one)))) (with_fused sc row).

Section rrf.
Context {H : HashOrder}.

Definition ranked (semantic bm25 : list RawSearchRow) (limit : N) : list (f64 * RawSearchRow) :=
  truncate limit (sort_by ranked_cmp (hash_order (map snd (map_to_list (fuse semantic bm25))))).

Definition rrf_merge (semantic bm25 : list RawSearchRow) (limit : N) : list RawSearchRow :=
  let '(sem_min, sem_max) := dense_span semantic in
  let rows := ranked semantic bm25 limit in
  let fused_hi := match head rows with Some p => p.1 | None => f64_zero end in
  let fused_lo := match last rows with Some p => p.1 | None => f64_zero end in
  map (rescaled_row sem_min sem_max fused_lo (f64_sub fused_hi fused_lo)) rows.
End rrf.

(** ** Candidates *)

Definition RERANK_OVERFETCH : N := 5.
Definition MAX_SEMANTIC_FETCH : N := 500.
Definition PATH_FILTER_KNN_OVERFETCH : N := 10.
Definition MAX_PATH_FILTER_KNN_FETCH : N := 5000.

Definition distance_cmp (a b : RawSearchRow) : comparison := default Eq (partial_cmp (distance a) (distance b)).

(** [StemIndex], and [STEM_CACHE]. *)
Record StemIndex := { stem_token : Token; by_lower : gmap bytes (list bytes); by_norm : gmap bytes (list bytes) }.

Abbreviation StemCache := (gmap (bytes * bytes) StemIndex).

Section candidates.
Context {G : Globs} {I : SearchIndex}.

Fixpoint knn_each (embedding : bytes) (fetch : N) (langs : list Language) : result (list RawSearchRow) :=
  match langs with
  | [] => Ok []
  | l :: langs =>
      let? rows := search_knn embedding fetch (Some (as_str l)) in
      let? more := knn_each embedding fetch langs in
      Ok (rows ++ more)
  end.

Definition semantic_knn_candidates (embedding : bytes) (fetch : N) (languages : option (list Language))
    : result (list RawSearchRow) :=
  if (fetch =? 0)%N then Ok []
  else match languages with
       | None => search_knn embedding fetch None
       | Some [l] => search_knn embedding fetch (Some (as_str l))
       | Some langs =>
           let? merged := knn_each embedding fetch langs in
           Ok (truncate fetch (sort_by distance_cmp merged))
       end.

Definition path_filtered_knn_candidates (embedding : bytes) (semantic_fetch : N) (languages : option (list Language))
    (path_patterns : list bytes) : result (list RawSearchRow) :=
  if (semantic_fetch =? 0)%N then Ok []
  else
    let? globset := path_globset path_patterns in
    let fetch := N.min (saturating_mul semantic_fetch PATH_FILTER_KNN_OVERFETCH) MAX_PATH_FILTER_KNN_FETCH in
    let? rows := semantic_knn_candidates embedding fetch languages in
    Ok (truncate semantic_fetch (List.filter (λ r, glob_match globset (raw_path r)) rows)).

Context {U : Unicode}.

Definition bm25_candidates_with_fallback (match_expr query : bytes) (fetch_limit : N)
    (languages paths : option (list bytes)) : result (list RawSearchRow) :=
  let? rows := search_bm25 match_expr fetch_limit languages paths in
  match rows with
  | _ :: _ => Ok rows
  | [] =>
      let fallback := build_fts_match_query_mode query true in
      if bytes_eqb fallback [] || bytes_eqb fallback match_expr then Ok rows
      else search_bm25 fallback fetch_limit languages paths
  end.

(** ** Files of the right name *)

Definition push_stem (m : gmap bytes (list bytes)) (k v : bytes) : gmap bytes (list bytes) :=
  <[k := default [] (m !! k) ++ [v]]> m.

Definition add_stem (idx : StemIndex) (file_path : bytes) : StemIndex :=
  match file_stem file_path with
  | None => idx
  | Some stem =>
      {| stem_token := stem_token idx;
         by_lower := push_stem (by_lower idx) (to_lowercase stem) file_path;
         by_norm := push_stem (by_norm idx) (normalize_stem stem) file_path |}
  end.

Definition build_stem_index (token : Token) : result StemIndex :=
  let? paths := all_chunk_file_paths in
  Ok (fold_left add_stem paths {| stem_token := token; by_lower := ∅; by_norm := ∅ |}).

(** [out.sort(); out.dedup()]. *)
Definition matching_paths (idx : StemIndex) (symbol_lower symbol_norm : bytes) : list bytes :=
  sorted_keys (list_to_set (default [] (by_lower idx !! symbol_lower) ++ default [] (by_norm idx !! symbol_norm))).


Definition cached_index (cache : StemCache) (key : bytes * bytes) (token : Token) : option StemIndex :=
  hit ← cache !! key; if decide (stem_token hit = token) then Some hit else None.

(** The index is built outside the lock; [meanwhile] is what other threads do to
    the cache while it is. *)
Definition stem_index_from_cache (meanwhile : StemCache → StemCache) (cache : StemCache) (key : bytes * bytes)
    : StemCache * result StemIndex :=
  match semantic_files_validity_token with
  | Err e => (cache, Err e)
  | Ok token =>
      match cached_index cache key token with
      | Some hit => (cache, Ok hit)
      | None =>
          match build_stem_index token with
          | Err e => (cache, Err e)
          | Ok built =>
              let cache := meanwhile cache in
              match cached_index cache key token with
              | Some hit => (cache, Ok hit)
              | None => (<[key := built]> cache, Ok built)
              end
          end
      end
  end.

Definition stem_index_for (meanwhile : StemCache → StemCache) (cache : StemCache) : StemCache * result StemIndex :=
  match semantic_cache_key with
  | Some key => stem_index_from_cache meanwhile cache key
  | None => (cache, let? token := semantic_files_validity_token in build_stem_index token)
  end.
End candidates.

(** ** The pipeline *)

(** The caches of the process, and the state with failures over them. *)
Record Caches {R : Regexes} := { patterns : gmap bytes Regex; stems : StemCache }.
Arguments Caches {R}.

Definition stateful {R : Regexes} (A : Type) : Type := Caches → Caches * result A.
Definition ret {R : Regexes} {A} (r : result A) : stateful A := λ c, (c, r).
Definition bind {R : Regexes} {A B} (m : stateful A) (f : A → stateful B) : stateful B :=
  λ c, match m c with (c, Ok a) => f a c | (c, Err e) => (c, Err e) end.
Notation "'let!' x := m 'in' k" := (bind m (λ x, k)) (at level 10, x binder, m at level 100, k at level 200).

(** What the other threads of the process do to the caches outside the locks, and
    the target's [cfg!]. *)
Class Process {R : Regexes} := {
  other_patterns : gmap bytes Regex → gmap bytes Regex;
  other_stems : StemCache → StemCache;
  cfg_unix_or_windows : bool;
  cfg_windows : bool }.

Section pipeline.
Context {U : Unicode} {R : Regexes} {G : Globs} {F : FloatOps} {E : Env} {I : SearchIndex} {H : HashOrder} {P : Process}.

(** What lexical search made of the dense candidates. *)
Record Fusion := {
  fusion_rows : list RawSearchRow;
  fused : bool;
  fusion_reason : Reason;
  fallback_reason : option Reason }.

Definition not_fused (rows : list RawSearchRow) (why : Reason) : Fusion :=
  {| fusion_rows := rows; fused := false; fusion_reason := why; fallback_reason := None |}.

Definition hybrid_gate (q : bytes) : bool :=
  match hybrid_mode with
  | Always => true
  | Never => false
  | Gated => unwrap_or (query_has_rare_literal token_doc_frequency q) false
  end.

Definition lexical (req : SearchRequest) (semantic_fetch : N) (rows : list RawSearchRow) : Fusion :=
  let gate_reason := plain "Hybrid retrieval gate did not enable lexical lookup" in
  if negb (hybrid_gate (query req)) then not_fused rows gate_reason
  else
    let match_expr := build_fts_match_query (query req) in
    if bytes_eqb match_expr [] then not_fused rows (plain "No usable code terms in the lexical MATCH expression")
    else
      let bm25_languages := option_map (map as_str) (req_languages req) in
      let bm25_rows :=
        if qualified_groups_enabled
        then bm25_candidates_with_fallback match_expr (query req) semantic_fetch bm25_languages (req_paths req)
        else search_bm25 match_expr semantic_fetch bm25_languages (req_paths req) in
      match bm25_rows with
      | Ok ((_ :: _) as bm25_rows) =>
          {| fusion_rows := rrf_merge rows bm25_rows semantic_fetch; fused := true; fusion_reason := gate_reason;
             fallback_reason := None |}
      | Ok [] => not_fused rows (plain "Lexical lookup returned no candidates")
      | Err error =>
          let why := {| format := "Lexical lookup failed; retained dense candidates: {error}"; args := [AText (message error)] |} in
          {| fusion_rows := rows; fused := false; fusion_reason := why; fallback_reason := Some why |}
      end.

Definition retain_languages (languages : option (list Language)) (rows : list RawSearchRow) : list RawSearchRow :=
  match languages with
  | Some ls => List.filter (λ r, contains_word (map as_str ls) (raw_language r)) rows
  | None => rows
  end.

(** A candidate as a row of the answer, its admission traced. *)
Definition admitted (explain : bool) (f : Fusion) (p : nat * RawSearchRow) : SearchResult :=
  let '(rank, r) := p in
  let r := if fused f then r else with_dense rank r in
  let sc := l2_to_score (distance r) in
  let dense := dense_score (retrieval r) in
  mkResult (raw_path r) (parse_db_language (raw_language r)) (raw_content r) (raw_start r) (raw_end r) sc []
    (if explain then Some
      [mkTrace "dense" None (default f32_zero dense)
         (plain (match dense with
                 | Some _ => "Cosine-like similarity: max(0, 1 - L2² / 2)"
                 | None => "Absent from bounded dense candidates; admitted by BM25"
                 end))
         (Some (mkSignals (dense_rank (retrieval r)) dense None None None None None None));
       mkTrace "bm25_fusion" (Some (default f32_zero dense)) sc
         (if fused f then plain "RRF (k={RRF_K}, BM25 weight={BM25_WEIGHT}), rescaled onto the dense score span"
          else fusion_reason f)
         (if fused f then Some (retrieval r) else None)]
     else None).

(** [limit], [offset] and the depth of retrieval. *)
Definition limit_of (req : SearchRequest) : N := default 10%N (req_limit req).
Definition offset_of (req : SearchRequest) : N := default 0%N (req_offset req).

Definition overfetch_of (has_reranker has_symbols : bool) : N :=
  if has_reranker then RERANK_OVERFETCH else if has_symbols then 3 else 1.

Definition semantic_fetch_of (req : SearchRequest) (overfetch : N) : N :=
  N.min (saturating_mul (saturating_add (limit_of req) (offset_of req)) overfetch) (N.max (limit_of req) MAX_SEMANTIC_FETCH).

(** The dense candidates of a request. *)
Definition dense_candidates (embedding : bytes) (req : SearchRequest) (semantic_fetch : N) : result (list RawSearchRow) :=
  match req_paths req with
  | Some patterns => path_filtered_knn_candidates embedding semantic_fetch (req_languages req) patterns
  | None => semantic_knn_candidates embedding semantic_fetch (req_languages req)
  end.

(** The candidates of a request, and what lexical search did. *)
Definition retrieve (embedding : bytes) (req : SearchRequest) (overfetch : N) : result (Fusion * list SearchResult) :=
  let semantic_fetch := semantic_fetch_of req overfetch in
  let? rows := dense_candidates embedding req semantic_fetch in
  let f := lexical req semantic_fetch rows in
  let rows := retain_languages (req_languages req) (fusion_rows f) in
  Ok (f, map (admitted (explain req) f) (enumerate rows)).

(** ** The stem scan *)

Definition language_allowed (languages : option (list Language)) (tag : bytes) : bool :=
  match languages with Some ls => existsb (λ l, bytes_eqb (as_str l) tag) ls | None => true end.

Definition injected_row (explain : bool) (chunk : RawSearchRow) : SearchResult :=
  mkResult (raw_path chunk) (parse_db_language (raw_language chunk)) (raw_content chunk) (raw_start chunk) (raw_end chunk)
    f32_zero []
    (if explain then Some [mkTrace "stem_scan" None f32_zero
      (plain "Definition admitted by matching file stem outside dense/BM25 candidates") None] else None).

(** The files in turn: the first chunk of each that declares the symbol. *)
Fixpoint scan_files (re : Regex) (explain : bool) (languages : option (list Language)) (allowed : bytes → bool)
    (candidates : gset bytes) (files : list bytes) : result (list SearchResult) :=
  match files with
  | [] => Ok []
  | f :: files =>
      if bool_decide (f ∈ candidates) || negb (allowed f) then scan_files re explain languages allowed candidates files
      else
        let? chunks := chunks_for_file f in
        let found := List.find (λ c, language_allowed languages (raw_language c) && is_match re (raw_content c)) chunks in
        let? more := scan_files re explain languages allowed candidates files in
        Ok (match found with Some c => injected_row explain c :: more | None => more end)
  end.

Definition path_filter (paths : option (list bytes)) : result (bytes → bool) :=
  match paths with
  | None => Ok (λ _, true)
  | Some patterns => let? set := path_globset patterns in Ok (glob_match set)
  end.

Definition apply_non_candidate_stem_scan (req : SearchRequest) (rs : list SearchResult) : stateful (list SearchResult) :=
  λ c,
  if bool_decide (rs = []) || negb (is_symbol_query (query req)) then (c, Ok rs)
  else
    let symbol_name := extract_symbol_name (query req) in
    if length symbol_name <? 3 then (c, Ok rs)
    else
      let '(cache, re) := build_definition_pattern other_patterns (patterns c) symbol_name in
      let c := {| patterns := cache; stems := stems c |} in
      match re with
      | None => (c, Ok rs)
      | Some re =>
          match path_filter (req_paths req) with
          | Err e => (c, Err e)
          | Ok allowed =>
              let '(cache, idx) := stem_index_for other_stems (stems c) in
              let c := {| patterns := patterns c; stems := cache |} in
              (c, let? idx := idx in
                  let? injected := scan_files re (explain req) (req_languages req) allowed (list_to_set (map sr_path rs))
                    (matching_paths idx (to_lowercase symbol_name) (normalize_stem symbol_name)) in
                  Ok (rs ++ injected))
          end
      end.

(** ** Annotation *)

Definition overlapping (r : SearchResult) (syms : list Symbol) : list SymbolSummary :=
  map (λ s, mkSummary (sy_name s) (qualified_name s) (sy_kind s))
    (List.filter (λ s, (line_start s <=? end_line r)%N && (start_line r <=? line_end s)%N) syms).

Definition annotate_with_symbols (rs : list SearchResult) : result (list SearchResult) :=
  match rs with
  | [] => Ok rs
  | _ =>
      let? by_file := symbols_for_files (hash_order (elements (list_to_set (map sr_path rs) : gset bytes))) in
      Ok (map (λ r, set_symbols (overlapping r (default [] (by_file !! sr_path r))) r) rs)
  end.

Definition trace_annotation (r : SearchResult) : SearchResult :=
  record_score "symbol_annotation" (score r)
    {| format := "{count} overlapping indexed symbols; feature ownership and graph risk do not affect search scores";
       args := [ANat (length (symbols r))] |} r.

(** ** The stages, in order *)

Definition when (b : bool) (f : list SearchResult → list SearchResult) (rs : list SearchResult) : list SearchResult :=
  if b then f rs else rs.

Definition definition_stage (q : bytes) (rs : list SearchResult) : stateful (list SearchResult) :=
  λ c, if definition_boost_enabled then
         let '(cache, rs) := apply_definition_boost other_patterns (patterns c) q rs in
         ({| patterns := cache; stems := stems c |}, Ok rs)
       else (c, Ok rs).

Definition rerank_stage (rerank : option (bytes → list bytes → result (list f32))) (q : bytes) (is_fused : bool)
    (rs : list SearchResult) : result (list SearchResult) :=
  match rerank with
  | Some rerank =>
      if negb is_fused || fused_rerank_enabled
      then apply_reranking rerank q (if is_fused then Some RERANK_WEIGHT_SHORT_ID else None) rs
      else Ok rs
  | None => Ok rs
  end.

Definition penalty_stage (q : bytes) (rs : list SearchResult) : result (list SearchResult) :=
  if path_penalty_enabled then
    let? flags := load_test_flags file_test_flags rs in
    Ok (apply_path_penalties cfg_unix_or_windows cfg_windows q flags rs)
  else Ok rs.

Definition rerank_reason (has_reranker is_fused : bool) : string :=
  if negb has_reranker then "No cross-encoder reranker configured"
  else if is_fused && negb fused_rerank_enabled then "Cross-encoder skipped after BM25 fusion"
  else "Cross-encoder returned no score for this candidate".

Definition before_rerank (req : SearchRequest) (known : list bytes) (rs : list SearchResult) : stateful (list SearchResult) :=
  let has_symbols := negb (bool_decide (known = [])) in
  let rs := when has_symbols (apply_symbol_boost known) rs in
  let rs := finish_trace_stage "symbol_boost" "No matching known query symbol" rs in
  let! rs := (if stem_scan_enabled then apply_non_candidate_stem_scan req rs else ret (Ok rs)) in
  let! rs := ret (annotate_with_symbols rs) in
  let rs := map trace_annotation rs in
  let rs := when (qualified_name_boost_enabled && has_symbols) (apply_qualified_name_boost known) rs in
  let rs := finish_trace_stage "qualified_name_boost" "Disabled or no matching qualified name" rs in
  let! rs := definition_stage (query req) rs in
  ret (Ok (finish_trace_stage "definition_boost" "Disabled or no eligible declaration match" rs)).

Definition after_rerank (req : SearchRequest) (overfetch : N) (rs : list SearchResult) : result (list SearchResult) :=
  let? rs := penalty_stage (query req) rs in
  let rs := finish_trace_stage "path_penalty" "Path penalties disabled" rs in
  let rs := when version_demote_enabled (apply_version_demote (query req)) rs in
  let rs := finish_trace_stage "version_penalty" "Disabled or no competing newer version" rs in
  let rs := when stem_match_boost_enabled (apply_stem_match_boost (query req)) rs in
  let rs := finish_trace_stage "stem_boost" "Disabled or no matching identifier-shaped file stem" rs in
  let rs := when file_saturation_enabled apply_file_saturation rs in
  let rs := finish_trace_stage "file_saturation" "Disabled or file repetition below threshold" rs in
  let rs := when dir_saturation_enabled apply_directory_saturation rs in
  let rs := finish_trace_stage "directory_saturation" "Disabled or directory repetition below threshold" rs in
  let rs := apply_mention_anchor (query req) (saturating_mul (limit_of req) overfetch) (offset_of req) mention_anchor_enabled rs in
  Ok (finish_trace_stage "mention_anchor" "Disabled, later page, or no eligible unambiguous mention in the anchor window" rs).

Definition rank_rows (req : SearchRequest) (rerank : option (bytes → list bytes → result (list f32))) (known : list bytes)
    (is_fused : bool) (overfetch : N) (rs : list SearchResult) : stateful (list SearchResult) :=
  let has_reranker := match rerank with Some _ => true | None => false end in
  let! rs := before_rerank req known rs in
  let! rs := ret (rerank_stage rerank (query req) is_fused rs) in
  let rs := finish_trace_stage "rerank_blend" (rerank_reason has_reranker is_fused) rs in
  ret (after_rerank req overfetch rs).

(** The page cut out of the ranked rows. *)
Definition page_of (req : SearchRequest) (fallback : option Reason) (rs : list SearchResult) : SearchResults :=
  let rs := apply_offset_and_limit rs (offset_of req) (limit_of req) in
  let cliff := relevance_cliff (map score rs) in
  let high := match cliff_confidence cliff with High => true | Low => false end in
  {| results := if adaptive_limit req && high then truncate (N.of_nat (cut cliff)) rs else rs;
     lexical_fallback_reason := fallback;
     confidence := Some (cliff_confidence cliff);
     margin_pct := Some (drop_pct cliff);
     cliff_at := Some (cut cliff) |}.

Definition search_page (embedding : bytes) (rerank : option (bytes → list bytes → result (list f32)))
    (req : SearchRequest) : stateful SearchResults :=
  let! known := ret (extract_known_symbols symbol_exists (query req)) in
  let overfetch := overfetch_of (match rerank with Some _ => true | None => false end) (negb (bool_decide (known = []))) in
  let! found := ret (retrieve embedding req overfetch) in
  let! rs := rank_rows req rerank known (fused found.1) overfetch found.2 in
  ret (Ok (page_of req (fallback_reason found.1) rs)).

Definition search (embedding : bytes) (rerank : option (bytes → list bytes → result (list f32)))
    (req : SearchRequest) (c : Caches) : Caches * result (list SearchResult) :=
  let '(c', page) := search_page embedding rerank req c in (c', result_map results page).
End pipeline.
