(* ===== verification/SearchSmall.v ===== *)
(** * SearchSmall: a small index to search

    Text patterns in place of regular expressions and globs, one Rust file of two
    chunks, a test and a file of another language: the instances on which the
    properties of the search are shown to hold. *)
From Stdlib Require Import SpecFloat.
From stdpp Require Import gmap sorting.
From S2P Require Import Prelude Text Unicode Detect Handle Order Float SearchConfig SearchText SearchQuery SearchRank SearchPage.
From Stdlib Require Import Lia ZArith.
Local Open Scope codesage_scope.

Module Small.
#[export] Instance regexes : Regexes := {
  Regex := bytes → bool;
  regex_new := λ p, Some (λ s, contains (bs "fn open") s);
  is_match := λ re s, re s;
  find_iter := λ _ _, [];
  regex_escape := id;
  symbol_query_re := λ s, forallb is_id_body s && existsb is_ascii_uppercase s;
  embedded_symbol_re := λ _, false }.

#[export] Instance globs : Globs := {
  GlobSet := list bytes;
  path_globset := λ ps, Ok ps;
  glob_match := λ ps path, existsb (λ p, starts_with p path) ps;
  is_test_like_path := λ path, contains (bs "test") path }.

#[export] Instance floats : FloatOps := { powi := powi_mul; parse_f32 := λ _, None }.

(** The defaults: no variable is set. *)
#[export] Instance env : Env := λ _, None.

Definition chunk (path : string) (lang : string) (text : string) (line : N) (d : f32) : RawSearchRow :=
  mkRaw (bs path) (bs lang) (bs text) line (line + 9) d no_signals.

Definition chunks : list RawSearchRow :=
  [chunk "src/db.rs" "rust" "fn open_db() {}" 1 (f32_lit 1 2); chunk "src/db.rs" "rust" "fn close() {}" 20 (f32_lit 6 10);
   chunk "tests/db.rs" "rust" "fn open_db() { test }" 1 (f32_lit 4 10); chunk "src/db.py" "python" "open_db" 1 (f32_lit 1 10)].

#[export] Instance index : SearchIndex := {
  search_knn := λ _ k lang, Ok (truncate k (List.filter (λ r, match lang with Some l => bytes_eqb (raw_language r) l | None => true end) chunks));
  search_bm25 := λ _ k langs _, Ok (truncate k (List.filter (λ r,
    match langs with Some ls => contains_word ls (raw_language r) | None => true end && contains (bs "open_db") (raw_content r)) chunks));
  token_doc_frequency := λ _, Ok (1%N, 1000%N);
  symbol_exists := λ t, Ok (bytes_eqb t (bs "open_db"));
  all_chunk_file_paths := Ok [bs "src/db.rs"];
  chunks_for_file := λ f, Ok (List.filter (λ r, bytes_eqb (raw_path r) f) chunks);
  semantic_cache_key := None;
  semantic_files_validity_token := Ok (1, 1, 1, 1, 1)%Z;
  file_test_flags := λ _, Ok ∅;
  symbols_for_files := λ _, Ok ∅ }.

#[export] Instance order : HashOrder := { hash_order := λ A l, l }.
#[export] Instance order_laws : HashOrderLaws order.
Proof. by constructor. Qed.

#[export] Instance process : Process := {
  other_patterns := λ c, c; other_stems := λ c, c; cfg_unix_or_windows := true; cfg_windows := false }.

Definition no_caches : Caches := {| patterns := ∅; stems := ∅ |}.

Definition request (q : string) : SearchRequest :=
  {| query := bs q; req_limit := Some 2%N; req_offset := None; req_languages := Some [Rust]; req_paths := None;
     adaptive_limit := false; explain := true |}.

Abbreviation page q := (search_page [] None (request q) no_caches).

(** The caches another request may have left: a compiled pattern and no stem index. *)
Definition warm_caches : Caches :=
  {| patterns := {[ bs "open_db" := λ s, contains (bs "fn open") s ]}; stems := ∅ |}.
End Small.
