(* ===== verification/SearchStages.v ===== *)
(** * SearchStages: what a ranking stage may do to the rows

    Every stage of SearchRank and SearchPage touches rows in one way: it keeps
    which chunk each row is, changes at most its score, and explains each change in
    the trace of a traced row; then it reorders.  [staged] is that relation; the
    properties of the pipeline follow from it. *)
From Stdlib Require Import SpecFloat.
From stdpp Require Import gmap sorting.
From S2P Require Import Prelude Text Unicode Detect Handle Order Float SearchConfig SearchText SearchQuery SearchRank SearchPage.
From Stdlib Require Import Lia ZArith.
Local Open Scope codesage_scope.

(** The chunk a row stands for. *)
Definition ident (r : SearchResult) : bytes * Language * bytes * N * N :=
  (sr_path r, language r, content r, start_line r, end_line r).

(** The row [r] is [r0] after a stage named [st]: an untraced row may have another
    score; a traced one has the same score, or one more entry that tells the
    change. *)
Definition explained (st : string) (r0 r : SearchResult) : Prop :=
  match trace r0 with
  | None => trace r = None
  | Some ts =>
      trace r = Some ts ∧ score r = score r0 ∨
      ∃ e, trace r = Some (ts ++ [e]) ∧ stage e = st ∧ before e = Some (score r0) ∧ after e = score r
  end.

Definition touched (st : string) (r0 r : SearchResult) : Prop :=
  ident r = ident r0 ∧ symbols r = symbols r0 ∧ explained st r0 r.

(** The rows of [rs'] are those of [rs], touched, in some order. *)
Definition staged (st : string) (rs rs' : list SearchResult) : Prop :=
  ∃ mid, Forall2 (touched st) rs mid ∧ rs' ≡ₚ mid.

Lemma touched_refl st r : touched st r r.
Proof. split_and!; [done..|]. unfold explained. destruct (trace r); [by left|done]. Qed.

Lemma staged_refl st rs : staged st rs rs.
Proof. exists rs. split; [|done]. induction rs; constructor; [apply touched_refl|done]. Qed.

Lemma staged_map st f rs : (∀ r, r ∈ rs → touched st r (f r)) → staged st rs (map f rs).
Proof.
  intros H. exists (map f rs). split; [|done]. induction rs as [|r rs IH]; cbn; constructor; [apply H; by left|].
  apply IH. intros. apply H. by right.
Qed.

Lemma staged_sort st rs rs' : staged st rs rs' → staged st rs (sort_scores rs').
Proof. intros (mid & H & Hp). exists mid. split; [done|]. unfold sort_scores. by rewrite sort_by_perm. Qed.

Lemma staged_sorted_first st rs rs' : staged st (sort_scores rs) rs' → staged st rs rs'.
Proof.
  intros (mid & H & Hp). unfold sort_scores in H.
  destruct (Permutation_Forall2 (sort_by_perm score_cmp rs) H) as (mid' & Hm & H').
  exists mid'. split; [done|]. by rewrite Hp.
Qed.

(** A new score, recorded. *)
Lemma rescore_touched f st why r : touched st r (rescore f st why r).
Proof.
  unfold rescore, record_score, push_trace, set_trace. split_and!; unfold explained; cbn; destruct (trace r) eqn:E; try done.
  right. eexists. by split_and!.
Qed.

Lemma record_touched st why r : touched st r (record_score st (score r) why r).
Proof.
  unfold record_score, push_trace, set_trace. split_and!; unfold explained; cbn; destruct (trace r) eqn:E; try done.
  right. eexists. by split_and!.
Qed.

Lemma finish_touched st why r : touched st r (finish_row st why r).
Proof.
  unfold finish_row. destruct (trace r) as [ts|] eqn:E; [|apply touched_refl].
  destruct (has_stage st ts); [apply touched_refl|apply record_touched].
Qed.

Lemma finish_staged st why rs : staged st rs (finish_trace_stage st why rs).
Proof. apply staged_map. intros. apply finish_touched. Qed.

Section stages.
Context {U : Unicode} {R : Regexes} {G : Globs} {F : FloatOps} {E : Env}.

Lemma symbol_boost_staged known rs : staged "symbol_boost" rs (apply_symbol_boost known rs).
Proof. apply staged_sort, staged_map. intros. apply rescore_touched. Qed.

Lemma qualified_staged known rs : staged "qualified_name_boost" rs (apply_qualified_name_boost known rs).
Proof.
  unfold apply_qualified_name_boost. destruct known as [|k known]; [apply staged_refl|].
  apply staged_sort, staged_map. intros r _. unfold qualified_row.
  destruct (qualified_hit _ r); [apply rescore_touched|apply touched_refl].
Qed.

(** A row with its matches: the same chunk and trace, and the same score while
    nothing matched. *)
Definition counted (r0 : SearchResult) (p : SearchResult * nat) : Prop :=
  ident p.1 = ident r0 ∧ symbols p.1 = symbols r0 ∧ trace p.1 = trace r0 ∧ (p.2 = 0 → p.1 = r0).

Lemma boost_symbol_counted re u s r0 p : counted r0 p → counted r0 (boost_symbol re u s p).
Proof. destruct p as [r n]. intros (? & ? & ? & ?). unfold boost_symbol. by destruct (is_match re (content r)). Qed.

Lemma boost_symbols_counted meanwhile cache u symbols rs rows :
  Forall2 counted rs rows → Forall2 counted rs (boost_symbols meanwhile cache u symbols rows).2.
Proof.
  revert cache rows. induction symbols as [|s symbols IH]; intros cache rows H; cbn [boost_symbols]; [done|].
  destruct (build_definition_pattern meanwhile cache s) as [cache' [re|]]; [|by apply IH].
  apply IH. clear IH. induction H; cbn; constructor; [by apply boost_symbol_counted|done].
Qed.

Lemma observe_touched r0 p : counted r0 p → touched "definition_boost" r0 (observe_definition r0 p).
Proof.
  destruct p as [r n]. intros (Hi & Hs & Ht & H0). unfold observe_definition. cbn in *.
  destruct n as [|n]; cbn; [rewrite H0 by done; apply touched_refl|].
  unfold record_score, push_trace, set_trace. rewrite Ht. split_and!.
  - by destruct (trace r0).
  - by destruct (trace r0).
  - unfold explained. destruct (trace r0); [|done]. right. eexists. by split_and!.
Qed.

Lemma unobserved_touched rs rows :
  Forall2 counted rs rows → existsb (λ r, match trace r with Some _ => true | None => false end) rs = false →
  Forall2 (touched "definition_boost") rs (map fst rows).
Proof.
  induction 1 as [|r0 p rs rows (Hi & Hs & Ht & _) H IH]; cbn; [constructor|].
  intros [Hn Hf]%orb_false_iff. constructor; [|by apply IH]. split_and!; [done..|].
  unfold explained. rewrite Ht. by destruct (trace r0).
Qed.

Lemma definition_staged meanwhile cache q rs :
  staged "definition_boost" rs (apply_definition_boost meanwhile cache q rs).2.
Proof.
  unfold apply_definition_boost. destruct rs as [|r rs]; [apply staged_refl|].
  case_match; [apply staged_refl|]. destruct (definition_symbols q) as [|s symbols]; [apply staged_refl|].
  set (rows0 := map (λ r, (r, 0)) (r :: rs)).
  assert (Forall2 counted (r :: rs) rows0) as H0.
  { unfold rows0. generalize (r :: rs) as l. intros l. induction l; cbn; constructor; [done|done]. }
  match goal with |- context [boost_symbols _ _ ?u _ _] => pose proof (boost_symbols_counted meanwhile cache u (s :: symbols) _ _ H0) as Hc end.
  destruct (boost_symbols _ _ _ _ _) as [cache' rows]. cbn [snd] in *. apply staged_sort.
  destruct (existsb _ (r :: rs)) eqn:Ho.
  - eexists. split; [|reflexivity]. clear -Hc. induction Hc; cbn; constructor; [by apply observe_touched|done].
  - eexists. split; [by apply unobserved_touched|done].
Qed.

Lemma rerank_row_touched w lo range r ce : touched "rerank_blend" r (rerank_row w lo range r ce).
Proof.
  unfold rerank_row, push_trace, set_trace. split_and!; unfold explained; cbn; destruct (trace r) eqn:Et; try done.
  right. eexists. by split_and!.
Qed.

Lemma rerank_rows_touched w lo range rs ce : Forall2 (touched "rerank_blend") rs (rerank_rows w lo range rs ce).
Proof.
  assert (∀ l, Forall2 (touched "rerank_blend") l l) as Hr by (intros l; induction l; constructor; [apply touched_refl|done]).
  revert ce. induction rs as [|x l IH]; intros [|c ce]; cbn [rerank_rows]; [constructor..|apply Hr|].
  constructor; [apply rerank_row_touched|apply IH].
Qed.

Lemma reranking_staged rerank q w rs rs' : apply_reranking rerank q w rs = Ok rs' → staged "rerank_blend" rs rs'.
Proof.
  unfold apply_reranking. destruct rs as [|r rs]; [intros <-%Ok_inj; apply staged_refl|].
  destruct (rerank q _) as [ce|e]; [|destruct (work_stopped e); [done|]; intros <-%Ok_inj; apply finish_staged].
  intros <-%Ok_inj. apply staged_sort. eexists. split; [apply rerank_rows_touched|done].
Qed.

Lemma version_staged q rs : staged "version_penalty" rs (apply_version_demote q rs).
Proof.
  unfold apply_version_demote. destruct (query_names_version q); [apply staged_refl|].
  destruct (max_version rs) as [newest|]; [|apply staged_refl].
  assert (∀ f, (∀ r, touched "version_penalty" r (f r)) → ∀ b : bool,
    staged "version_penalty" rs (if b then sort_scores (map f rs) else map f rs)) as H.
  { intros f Hf []; [apply staged_sort|]; by apply staged_map. }
  apply H. intros r. destruct (older_version newest r); [apply rescore_touched|apply touched_refl].
Qed.

Lemma stem_match_staged q rs : staged "stem_boost" rs (apply_stem_match_boost q rs).
Proof.
  unfold apply_stem_match_boost. destruct (stem_match_tokens q) as [|t tokens]; [apply staged_refl|].
  assert (∀ f, (∀ r, touched "stem_boost" r (f r)) → ∀ b : bool,
    staged "stem_boost" rs (if b then sort_scores (map f rs) else map f rs)) as H.
  { intros f Hf []; [apply staged_sort|]; by apply staged_map. }
  apply H. intros r. destruct (stem_matches _ r); [apply rescore_touched|apply touched_refl].
Qed.

Lemma saturate_touched key threshold decay st why counts rs :
  Forall2 (touched st) rs (saturate key threshold decay st why counts rs).
Proof.
  revert counts. induction rs as [|r rs IH]; intros counts; cbn; constructor; [|apply IH].
  destruct (_ <=? _)%N; [apply rescore_touched|apply touched_refl].
Qed.

Lemma file_saturation_staged rs : staged "file_saturation" rs (apply_file_saturation rs).
Proof.
  unfold apply_file_saturation. destruct rs as [|r rs]; [apply staged_refl|].
  apply staged_sort, staged_sorted_first. eexists. split; [apply saturate_touched|done].
Qed.

Lemma directory_saturation_staged rs : staged "directory_saturation" rs (apply_directory_saturation rs).
Proof.
  unfold apply_directory_saturation. destruct rs as [|r rs]; [apply staged_refl|].
  apply staged_sort, staged_sorted_first. eexists. split; [apply saturate_touched|done].
Qed.

(** Path penalties are two stages: the platform penalty, when it applies, is
    traced under its own name. *)
Lemma path_penalties_staged b w q flags rs :
  ∃ mid, staged "path_penalty" rs mid ∧ staged "platform_penalty" mid (apply_path_penalties b w q flags rs).
Proof.
  unfold apply_path_penalties. set (f := λ r, rescore _ _ _ r). exists (map f rs). split.
  - apply staged_map. intros. apply rescore_touched.
  - apply staged_sort. destruct (b && platform_demote_enabled); [|apply staged_refl].
    unfold apply_foreign_platform_penalties. case_match; [apply staged_refl|].
    apply staged_map. intros. apply rescore_touched.
Qed.
End stages.
