(* ===== verification/SearchMention.v ===== *)
(** * SearchMention: the anchors of an explicit mention

    The caps of [AnchorLedger] and what [apply_mention_anchor] does to the rows
    (src/crates/graph/src/search.rs). *)
From Stdlib Require Import SpecFloat.
From stdpp Require Import gmap sorting.
From S2P Require Import Prelude Text Unicode Detect Handle Order Float SearchConfig SearchText SearchQuery SearchRank SearchPage SearchStages.
From Stdlib Require Import Lia ZArith.
Local Open Scope codesage_scope.

Section ledger.
Context {U : Unicode} (window : list SearchResult).

(** The anchored rows of a file. *)
Definition anchored_in (path : bytes) (l : list nat) : list nat :=
  List.filter (λ i, bytes_eqb (path_at window i) path) l.

(** Rows of the window, none twice, five at most; at most three of a file, of at
    most four files; each satisfies [Q]. *)
Definition within_caps (Q : nat → Prop) (l : list nat) : Prop :=
  NoDup l ∧ Forall (λ i, i < length window ∧ Q i) l ∧ length l ≤ MENTION_MAX_ANCHORED
  ∧ (∀ path, length (anchored_in path l) ≤ MENTION_MAX_CHUNKS_PER_FILE)
  ∧ size (list_to_set (map (path_at window) l) : gset bytes) ≤ MENTION_MAX_FILES.

Definition ledger_ok (Q : nat → Prop) (l : AnchorLedger) : Prop :=
  within_caps Q (anchored l)
  ∧ (∀ path, default 0 (per_file l !! path) = length (anchored_in path (anchored l)))
  ∧ (∀ path, per_file l !! path ≠ Some 0).

Lemma ledger_files Q l : ledger_ok Q l → dom (per_file l) = list_to_set (map (path_at window) (anchored l)).
Proof.
  intros (_ & Hc & Hz). apply set_eq. intros path. rewrite elem_of_dom, elem_of_list_to_set, list_elem_of_fmap.
  specialize (Hc path). specialize (Hz path). split.
  - intros [n Hn]. rewrite Hn in *. cbn in Hc. destruct (anchored_in path (anchored l)) as [|i t] eqn:Ei.
    + cbn in Hc. congruence.
    + assert (i ∈ anchored_in path (anchored l)) as Hi by (rewrite Ei; left).
      apply list_elem_of_In, filter_In in Hi as [Hi Hp]. exists i. split; [|by apply list_elem_of_In].
      by destruct (bytes_eqb_spec (path_at window i) path).
  - intros (i & -> & Hi). destruct (per_file l !! _) eqn:Hn; [done|]. cbn in Hc.
    assert (i ∈ anchored_in (path_at window i) (anchored l)) as Hin.
    { apply list_elem_of_In, filter_In. split; [by apply list_elem_of_In|].
      by destruct (bytes_eqb_spec (path_at window i) (path_at window i)). }
    destruct (anchored_in _ _); [by apply elem_of_nil in Hin|done].
Qed.

Lemma try_anchor_ok Q i l :
  i < length window → Q i → ledger_ok Q l → ledger_ok Q (try_anchor i (path_at window i) l).
Proof.
  intros Hi HQ Hok. pose proof (ledger_files Q l Hok) as Hdom. destruct Hok as ((Hn & Hf & Hl & Hp & Hs) & Hc & Hz).
  unfold try_anchor. destruct (_ || _) eqn:E1; [done|]. apply orb_false_iff in E1 as [E1%Nat.leb_gt E2%bool_decide_eq_false].
  set (path := path_at window i) in *. destruct (Nat.eqb _ 0 && _) eqn:E3; [done|].
  destruct (_ <=? default 0 _) eqn:E4; [done|]. apply Nat.leb_gt in E4.
  assert (∀ p, anchored_in p (anchored l ++ [i]) = anchored_in p (anchored l) ++ (if bytes_eqb path p then [i] else [])) as Hin.
  { intros p. unfold anchored_in. rewrite List.filter_app. cbn [List.filter]. fold path. by destruct (bytes_eqb path p). }
  split_and!; [split_and!| |].
  - cbn [anchored per_file]. apply NoDup_app. split_and!; [done| |apply NoDup_singleton]. intros j Hj ->%list_elem_of_singleton. done.
  - cbn [anchored per_file]. apply Forall_app. by rewrite Forall_singleton.
  - cbn [anchored per_file]. rewrite length_app. cbn. lia.
  - cbn [anchored per_file]. intros p. rewrite Hin, length_app. destruct (bytes_eqb_spec path p) as [<-|]; cbn; [|specialize (Hp p); lia].
    rewrite <- Hc. lia.
  - cbn [anchored per_file]. rewrite map_app, list_to_set_app_L. cbn. rewrite union_empty_r_L, <- Hdom.
    apply andb_false_iff in E3 as [E3%Nat.eqb_neq|E3%Nat.leb_gt].
    + assert (path ∈ dom (per_file l)) as Hd.
      { apply elem_of_dom. destruct (per_file l !! path); [done|]. cbn in E3. lia. }
      replace (dom (per_file l) ∪ {[path]}) with (dom (per_file l)) by set_solver. by rewrite Hdom.
    + fold path. rewrite size_union_alt, size_dom.
      assert (size ({[path]} ∖ dom (per_file l) : gset bytes) ≤ 1) by (rewrite <- (size_singleton (C := gset bytes) path); apply subseteq_size; set_solver).
      lia.
  - cbn [anchored per_file]. intros p. rewrite Hin, length_app. destruct (bytes_eqb_spec path p) as [<-|Hne].
    + rewrite lookup_insert_eq. cbn. rewrite Hc. lia.
    + rewrite lookup_insert_ne by done. cbn. rewrite Hc. lia.
  - cbn [anchored per_file]. intros p. destruct (decide (path = p)) as [<-|Hne]; [by rewrite lookup_insert_eq|by rewrite lookup_insert_ne].
Qed.

(** A mention is of a row when the row's path, or a symbol of it, matches. *)
Definition mentioned (m : QueryMention) (r : SearchResult) : Prop :=
  match m with
  | MPath path => path_matches_mention (sr_path r) path = true
  | MSymbol owner member fallback => symbols_match_mention owner member fallback r = true
  end.

Definition mentioned_at (mentions : list QueryMention) (i : nat) : Prop :=
  ∃ r m, window !! i = Some r ∧ m ∈ mentions ∧ mentioned m r.

Lemma fold_ledger_ok {A} Q (f : AnchorLedger → A → AnchorLedger) l xs :
  (∀ l x, x ∈ xs → ledger_ok Q l → ledger_ok Q (f l x)) → ledger_ok Q l → ledger_ok Q (fold_left f xs l).
Proof.
  revert l. induction xs as [|x xs IH]; intros l Hf H; [done|]. cbn. apply IH; [|by apply Hf; [left|]].
  intros. apply Hf; [by right|done].
Qed.

Lemma anchor_mention_ok mentions l m :
  m ∈ mentions → ledger_ok (mentioned_at mentions) l → ledger_ok (mentioned_at mentions) (anchor_mention window l m).
Proof.
  intros Hm Hok. destruct m as [path|owner member fallback]; cbn [anchor_mention].
  - destruct (_ <? _); [done|]. apply fold_ledger_ok; [|done]. intros l' i Hi Hl.
    unfold hits in Hi. apply list_elem_of_In, filter_In in Hi as [Hi Hp].
    destruct (window !! i) as [r|] eqn:Hr; [|done].
    apply try_anchor_ok; [by apply lookup_lt_Some in Hr|by exists r, (MPath path)|done].
  - apply fold_ledger_ok; [|done]. intros l' i Hi Hl. destruct (_ <=? _); [done|].
    destruct (window !! i) as [r|] eqn:Hr; [|done]. destruct (symbols_match_mention owner member fallback r) eqn:Hs; [|done].
    apply try_anchor_ok; [by apply lookup_lt_Some in Hr|by exists r, (MSymbol owner member fallback)|done].
Qed.

Lemma anchors_ok mentions : within_caps (mentioned_at mentions) (anchors window mentions).
Proof.
  unfold anchors. apply fold_ledger_ok; [intros l m; apply anchor_mention_ok|]. split_and!; [split_and!| |]; cbn.
  - constructor.
  - constructor.
  - unfold MENTION_MAX_ANCHORED. lia.
  - intros. lia.
  - unfold MENTION_MAX_FILES. rewrite size_empty. lia.
  - done.
  - done.
Qed.
End ledger.

Section lift.
Context {U : Unicode} {F : FloatOps}.

(** A lift at the indices [idxs], from slot [slot] on: each anchored row becomes
    its lifted self, no other row changes. *)
Lemma lift_loop_spec top slot idxs rs :
  NoDup idxs →
  length (lift_loop top slot idxs rs).1 = length rs ∧
  ∀ j, (lift_loop top slot idxs rs).1 !! j =
    match list_find (eq j) idxs with
    | Some (k, _) => lift_row (anchor_target top (slot + k)) (slot + k) <$> rs !! j
    | None => rs !! j
    end.
Proof.
  revert slot rs. induction idxs as [|i idxs IH]; intros slot rs; cbn [lift_loop list_find]; [done|].
  intros [Hi Hn]%NoDup_cons. specialize (IH (S slot) (alter (lift_row (anchor_target top slot) slot) i rs) Hn).
  destruct (lift_loop _ _ idxs _) as [rs' more]. cbn [fst] in *. destruct IH as [Hlen IH].
  split; [by rewrite Hlen, length_alter|]. intros j. rewrite IH. destruct (decide (j = i)) as [->|Hne].
  - destruct (list_find (eq i) idxs) as [[k x]|] eqn:E.
    + apply list_find_Some in E as (Hx & <- & _). by apply list_elem_of_lookup_2 in Hx.
    + by rewrite list_lookup_alter_eq, Nat.add_0_r.
  - rewrite list_lookup_alter_ne by done. destruct (list_find (eq j) idxs) as [[k x]|]; cbn; [|done].
    by rewrite Nat.add_succ_r.
Qed.

Lemma lift_loop_lifted top slot idxs rs :
  NoDup idxs → (lift_loop top slot idxs rs).2 = false →
  ∀ j r, rs !! j = Some r → ∃ r', (lift_loop top slot idxs rs).1 !! j = Some r' ∧ score r' = score r.
Proof.
  intros Hn. revert slot rs. induction idxs as [|i idxs IH]; intros slot rs; cbn [lift_loop]; [eauto|].
  apply NoDup_cons in Hn as [Hi Hn]. specialize (IH Hn (S slot) (alter (lift_row (anchor_target top slot) slot) i rs)).
  destruct (lift_loop _ _ idxs _) as [rs' more]. cbn [fst snd] in *. intros [Hl Hm]%orb_false_iff j r Hj.
  destruct (decide (j = i)) as [->|Hne].
  - rewrite Hj in Hl. destruct (IH Hm i (lift_row (anchor_target top slot) slot r)) as (r' & ? & Hs).
    { by rewrite list_lookup_alter_eq, Hj. }
    exists r'. split; [done|]. rewrite Hs. unfold lift_row. rewrite Hl. unfold record_score, push_trace, set_trace.
    by destruct (trace r).
  - apply (IH Hm). by rewrite list_lookup_alter_ne.
Qed.

Lemma score_record st b w r : score (record_score st b w r) = score r.
Proof. unfold record_score, push_trace, set_trace. by destruct (trace r). Qed.

(** A lift never lowers a score, and leaves a number no less than the target. *)
Lemma lift_row_score t slot r :
  score (lift_row t slot r) = (if fltb (score r) t then t else score r).
Proof. unfold lift_row. rewrite score_record. by destruct (fltb (score r) t). Qed.

Lemma lift_row_touched t slot r : touched "mention_anchor" r (lift_row t slot r).
Proof.
  unfold lift_row. destruct (fltb (score r) t); [|apply record_touched]. apply (rescore_touched (λ _, t)).
Qed.

Lemma sort_indices_perm l : sort_indices l ≡ₚ l.
Proof. apply sort_by_perm. Qed.

Lemma lift_loop_touched top slot idxs rs :
  NoDup idxs → Forall2 (touched "mention_anchor") rs (lift_loop top slot idxs rs).1.
Proof.
  intros Hn. destruct (lift_loop_spec top slot idxs rs Hn) as [Hlen Hl]. apply Forall2_same_length_lookup.
  split; [done|]. intros j r r' Hr. rewrite Hl, Hr. destruct (list_find (eq j) idxs) as [[k x]|]; cbn; intros [= <-].
  - apply lift_row_touched.
  - apply touched_refl.
Qed.

Lemma mention_anchor_staged q scan offset enabled rs :
  staged "mention_anchor" rs (apply_mention_anchor q scan offset enabled rs).
Proof.
  unfold apply_mention_anchor. destruct (_ || _); [apply staged_refl|].
  destruct (extract_query_mentions q) as [|m ms]; [apply staged_refl|].
  destruct (take _ rs) as [|w ws] eqn:Ew; [apply staged_refl|].
  destruct (anchors (w :: ws) (m :: ms)) as [|i is_] eqn:Ea; [apply staged_refl|].
  assert (NoDup (sort_indices (i :: is_))) as Hn.
  { rewrite sort_indices_perm, <- Ea. apply anchors_ok. }
  pose proof (lift_loop_touched (max_score F32_MIN (w :: ws)) 0 _ rs Hn) as Ht.
  destruct (lift_loop _ _ _ rs) as [rs' lifted]. cbn [fst] in Ht.
  assert (staged "mention_anchor" rs rs') as Hs by (by exists rs').
  destruct lifted; [by apply staged_sort|done].
Qed.
End lift.
