(* ===== verification/SearchProofs.v ===== *)
(** * SearchProofs: invariants of the ranking pipeline

    What [rank_rows] keeps of the rows: any predicate of a row that the stages
    respect ([rank_rows_keeps]), the chain of each trace, and the stages it
    names. *)
From Stdlib Require Import SpecFloat.
From stdpp Require Import gmap sorting.
From S2P Require Import Prelude Text Unicode Detect Handle Order Float SearchConfig SearchText SearchQuery SearchRank SearchPage SearchStages SearchMention.
From Stdlib Require Import Lia ZArith.
Local Open Scope codesage_scope.

(** ** Sequencing *)

Lemma bind_Ok {R : Regexes} {A B} (m : stateful A) (f : A → stateful B) c c' b :
  bind m f c = (c', Ok b) → ∃ c1 a, m c = (c1, Ok a) ∧ f a c1 = (c', Ok b).
Proof. unfold bind. destruct (m c) as [c1 [a|e]] eqn:E; [eauto|done]. Qed.

Lemma ret_Ok {R : Regexes} {A} (r : result A) c c' a : ret r c = (c', Ok a) → r = Ok a ∧ c' = c.
Proof. by intros [= <- ->]. Qed.

(** ** Traces *)

(** Each entry starts where the one before it ended, and the last ends at [x]. *)
Fixpoint chained (prev : option f32) (ts : list SearchTrace) (x : f32) : Prop :=
  match ts with
  | [] => prev = Some x
  | e :: ts => before e = prev ∧ chained (Some (after e)) ts x
  end.

Definition trace_ok (r : SearchResult) : Prop :=
  match trace r with None => True | Some ts => chained None ts (score r) end.

Lemma chained_snoc p ts x e : chained p ts x → before e = Some x → chained p (ts ++ [e]) (after e).
Proof.
  revert p. induction ts as [|t ts IH]; intros p; cbn; [by intros -> <-|]. intros [<- H] He. split; [done|]. by apply IH.
Qed.

Lemma explained_trace_ok st r0 r : explained st r0 r → trace_ok r0 → trace_ok r.
Proof.
  unfold explained, trace_ok. destruct (trace r0) as [ts|]; [|by intros ->].
  intros [[-> ->]|(e & -> & _ & Hb & <-)] H; [done|]. by apply chained_snoc with (score r0).
Qed.

Lemma staged_Forall (P : SearchResult → Prop) st rs rs' :
  (∀ r0 r, touched st r0 r → P r0 → P r) → staged st rs rs' → Forall P rs → Forall P rs'.
Proof.
  intros HP (mid & H & Hp) HF. rewrite Hp. clear Hp. induction H; [constructor|].
  apply Forall_cons in HF as [? ?]. constructor; eauto.
Qed.

Lemma staged_ident st rs rs' : staged st rs rs' → map ident rs' ≡ₚ map ident rs.
Proof.
  intros (mid & H & Hp). rewrite Hp. clear Hp. induction H as [|r0 r rs mid (Hi & _) H IH]; cbn; [done|]. by rewrite Hi, IH.
Qed.

(** ** The stages of a trace *)

Definition stages_of (r : SearchResult) : option (list string) := map stage <$> trace r.

(** Every row names one of the lists of stages [ls]. *)
Definition at_stages (ls : list (list string)) (rs : list SearchResult) : Prop :=
  Forall (λ r, ∃ l, stages_of r = Some l ∧ l ∈ ls) rs.

Definition and_then (st : string) (ls : list (list string)) : list (list string) := map (λ l, l ++ [st]) ls.

Lemma touched_stages st r0 r l :
  touched st r0 r → stages_of r0 = Some l → stages_of r = Some l ∨ stages_of r = Some (l ++ [st]).
Proof.
  intros (_ & _ & He). unfold explained, stages_of in *. destruct (trace r0) as [ts|]; cbn; [|done]. intros [= <-].
  destruct He as [[-> _]|(e & -> & <- & _)]; [by left|right]. cbn. by rewrite map_app.
Qed.

Lemma staged_stages st rs rs' ls : staged st rs rs' → at_stages ls rs → at_stages (ls ++ and_then st ls) rs'.
Proof.
  intros (mid & Hm & Hp) H. unfold at_stages in *. rewrite Hp. clear Hp. induction Hm as [|r0 r rs mid Ht Hm IH]; [constructor|].
  apply Forall_cons in H as [(l & Hl & Hin) H]. constructor; [|by apply IH].
  destruct (touched_stages _ _ _ _ Ht Hl) as [E|E]; eexists; (split; [exact E|]); apply elem_of_app; [by left|right].
  apply list_elem_of_fmap. eauto.
Qed.

Lemma has_stage_true st ts : has_stage st ts = true ↔ st ∈ map stage ts.
Proof.
  unfold has_stage. rewrite existsb_exists. setoid_rewrite String.eqb_eq. setoid_rewrite <- list_elem_of_In.
  split; [intros (t & Ht & <-); apply list_elem_of_fmap; eauto|intros (t & -> & Ht)%list_elem_of_fmap; eauto].
Qed.

Lemma finish_row_stages st why r l :
  stages_of r = Some l → stages_of (finish_row st why r) = Some (if bool_decide (st ∈ l) then l else l ++ [st]).
Proof.
  unfold stages_of, finish_row. destruct (trace r) as [ts|] eqn:E; cbn; [|done]. intros [= <-].
  destruct (has_stage st ts) eqn:Hs.
  - rewrite bool_decide_true by by apply has_stage_true. by rewrite E.
  - rewrite bool_decide_false; [|by rewrite <- has_stage_true, Hs].
    unfold record_score, push_trace. rewrite E. cbn. by rewrite map_app.
Qed.

(** A stage and its finish add its name, once. *)
Lemma finished_stages st why rs rs' ls :
  staged st rs rs' → Forall (λ l, st ∉ l) ls → at_stages ls rs →
  at_stages (and_then st ls) (finish_trace_stage st why rs').
Proof.
  intros (mid & Hm & Hp) Hn H. unfold at_stages, finish_trace_stage in *. rewrite Forall_map, Hp. clear Hp.
  rewrite Forall_forall in Hn. induction Hm as [|r0 r rs mid Ht Hm IH]; [constructor|].
  apply Forall_cons in H as [(l & Hl & Hin) H]. constructor; [|by apply IH]. cbn.
  exists (l ++ [st]). split; [|apply list_elem_of_fmap; eauto]. specialize (Hn _ Hin).
  destruct (touched_stages _ _ _ _ Ht Hl) as [E|E]; rewrite (finish_row_stages _ _ _ _ E).
  - by rewrite bool_decide_false.
  - rewrite bool_decide_true; [done|]. apply elem_of_app. right. by left.
Qed.

Lemma map_touched_stages st f rs ls :
  (∀ r, ∃ e, stage e = st ∧ ∀ ts, trace r = Some ts → trace (f r) = Some (ts ++ [e])) → at_stages ls rs → at_stages (and_then st ls) (map f rs).
Proof.
  intros Hf H. unfold at_stages in *. rewrite Forall_map. eapply Forall_impl; [exact H|]. cbn. intros r (l & Hl & Hin).
  destruct (Hf r) as (e & <- & He). unfold stages_of in *. destruct (trace r) as [ts|]; [|done]. injection Hl as <-.
  rewrite (He ts eq_refl). cbn. rewrite map_app. exists (map stage ts ++ [stage e]). split; [done|].
  apply list_elem_of_fmap. eauto.
Qed.

(** ** The pipeline, stage by stage *)

Section pipeline.
Context {U : Unicode} {R : Regexes} {G : Globs} {F : FloatOps} {E : Env} {I : SearchIndex} {H : HashOrder} {P : Process}.

(** A chunk the stem scan may add to the answer to [req]. *)
Definition injectable (req : SearchRequest) (chunk : RawSearchRow) : Prop :=
  ∃ f chunks allowed, chunks_for_file f = Ok chunks ∧ chunk ∈ chunks
    ∧ path_filter (req_paths req) = Ok allowed ∧ allowed f = true
    ∧ language_allowed (req_languages req) (raw_language chunk) = true.

Definition injected_by (req : SearchRequest) (inj : list SearchResult) : Prop :=
  Forall (λ r, ∃ chunk, injectable req chunk ∧ r = injected_row (explain req) chunk) inj.

Lemma scan_files_injected req re allowed cands files inj :
  path_filter (req_paths req) = Ok allowed →
  scan_files re (explain req) (req_languages req) allowed cands files = Ok inj → injected_by req inj.
Proof using Type.
  intros Ha. revert inj. induction files as [|f files IH]; intros inj; cbn [scan_files]; [by intros <-%Ok_inj; constructor|].
  destruct (bool_decide _ || negb (allowed f)) eqn:Hf; [apply IH|]. apply orb_false_iff in Hf as [_ Hf%negb_false_iff].
  intros (chunks & Hc & Hrest)%try_Ok. apply try_Ok in Hrest as (more & Hm & Hrest).
  apply Ok_inj in Hrest as <-. apply IH in Hm.
  destruct (List.find _ chunks) as [chunk|] eqn:Hfind; [|done]. apply find_some in Hfind as [Hin [Hl _]%andb_true_iff].
  constructor; [|done]. exists chunk. split; [|done]. exists f, chunks, allowed. split_and!; try done. by apply list_elem_of_In.
Qed.

Lemma stem_scan_inv req rs c c' rs' :
  apply_non_candidate_stem_scan req rs c = (c', Ok rs') → ∃ inj, rs' = rs ++ inj ∧ injected_by req inj.
Proof using Type.
  assert (∀ A (x y : A) B (a b : B), (x, Ok a) = (y, Ok b) → b = a) as Hp by (by intros ? ? ? ? ? ? [=]).
  unfold apply_non_candidate_stem_scan.
  destruct (_ || _); [intros ->%Hp; exists []; by rewrite app_nil_r; split; [|constructor]|].
  destruct (_ <? 3); [intros ->%Hp; exists []; by rewrite app_nil_r; split; [|constructor]|].
  destruct (build_definition_pattern _ _ _) as [cache [re|]];
    [|intros ->%Hp; exists []; by rewrite app_nil_r; split; [|constructor]].
  destruct (path_filter (req_paths req)) as [allowed|e] eqn:Ha; [|done].
  destruct (stem_index_for _ _) as [cache' idx]. intros [= _ Hr].
  apply try_Ok in Hr as (idx' & _ & Hr). apply try_Ok in Hr as (inj & Hs & Hr). apply Ok_inj in Hr as <-.
  exists inj. split; [done|]. by eapply scan_files_injected.
Qed.

(** Annotation gives every row its symbols. *)
Lemma annotate_inv rs rs' : annotate_with_symbols rs = Ok rs' → ∃ f, rs' = map (λ r, set_symbols (f r) r) rs.
Proof using Type.
  unfold annotate_with_symbols. destruct rs as [|r rs]; [intros <-%Ok_inj; by exists (λ _, [])|].
  intros (by_file & _ & <-%Ok_inj)%try_Ok. by exists (λ r, overlapping r (default [] (by_file !! sr_path r))).
Qed.

Lemma when_staged st b f rs : (∀ rs, staged st rs (f rs)) → staged st rs (when b f rs).
Proof using Type. intros Hf. unfold when. destruct b; [apply Hf|apply staged_refl]. Qed.

Lemma definition_stage_inv q rs c c' rs' : definition_stage q rs c = (c', Ok rs') → staged "definition_boost" rs rs'.
Proof using Type.
  unfold definition_stage. destruct definition_boost_enabled; [|intros [= _ <-]; apply staged_refl].
  pose proof (definition_staged other_patterns (patterns c) q rs) as Hd.
  destruct (apply_definition_boost _ _ q rs) as [cache rs1]. by intros [= _ <-].
Qed.

Lemma rerank_stage_inv rr q fu rs rs' : rerank_stage rr q fu rs = Ok rs' → staged "rerank_blend" rs rs'.
Proof using Type.
  unfold rerank_stage. destruct rr as [rr|]; [|intros <-%Ok_inj; apply staged_refl].
  destruct (_ || _); [apply reranking_staged|intros <-%Ok_inj; apply staged_refl].
Qed.

(** The penalty stage: path penalties, then platform penalties. *)
Lemma penalty_stage_inv q rs rs' :
  penalty_stage q rs = Ok rs' → ∃ mid, staged "path_penalty" rs mid ∧ staged "platform_penalty" mid rs'.
Proof using Type.
  unfold penalty_stage. destruct path_penalty_enabled.
  - intros (flags & _ & <-%Ok_inj)%try_Ok. apply path_penalties_staged.
  - intros <-%Ok_inj. exists rs. split; apply staged_refl.
Qed.


(** A predicate of a row that touching it, its symbols and the stem scan keep,
    holds of every ranked row. *)
Section keeps.
Context (Pr : SearchResult → Prop) (req : SearchRequest).
Hypothesis keep_touched : ∀ st r0 r, touched st r0 r → Pr r0 → Pr r.
Hypothesis keep_symbols : ∀ ss r, Pr r → Pr (set_symbols ss r).
Hypothesis keep_injected : ∀ chunk, injectable req chunk → Pr (injected_row (explain req) chunk).

Lemma keep_staged st rs rs' : staged st rs rs' → Forall Pr rs → Forall Pr rs'.
Proof using keep_touched. apply staged_Forall. intros r0 r. apply keep_touched. Qed.

Lemma keep_finish st why rs : Forall Pr rs → Forall Pr (finish_trace_stage st why rs).
Proof using keep_touched. apply (keep_staged st), finish_staged. Qed.

Lemma before_rerank_keeps known rs c c' rs' :
  before_rerank req known rs c = (c', Ok rs') → Forall Pr rs → Forall Pr rs'.
Proof using keep_touched keep_symbols keep_injected.
  intros Hr Hrs. unfold before_rerank in Hr.
  apply bind_Ok in Hr as (c1 & rs1 & Hscan & Hr).
  assert (Forall Pr rs1) as H1.
  { assert (Forall Pr (finish_trace_stage "symbol_boost" "No matching known query symbol"
      (when (negb (bool_decide (known = []))) (apply_symbol_boost known) rs))) as H0.
    { apply keep_finish. eapply keep_staged; [|exact Hrs]. apply when_staged. intros. apply symbol_boost_staged. }
    destruct stem_scan_enabled; [|apply ret_Ok in Hscan as [<-%Ok_inj _]; exact H0].
    apply stem_scan_inv in Hscan as (inj & -> & Hinj). apply Forall_app. split; [exact H0|].
    eapply Forall_impl; [exact Hinj|]. cbn. intros r (chunk & Hc & ->). by apply keep_injected. }
  apply bind_Ok in Hr as (c2 & rs2 & Ha & Hr). apply ret_Ok in Ha as [Ha ->].
  apply annotate_inv in Ha as (f & ->).
  apply bind_Ok in Hr as (c3 & rs3 & Hd & Hr). apply ret_Ok in Hr as [<-%Ok_inj ->]. apply keep_finish.
  apply definition_stage_inv in Hd. eapply keep_staged; [exact Hd|]. apply keep_finish.
  eapply keep_staged; [apply when_staged; intros; apply qualified_staged|].
  apply Forall_map, Forall_map. eapply Forall_impl; [exact H1|]. cbn. intros r Hpr.
  eapply (keep_touched "symbol_annotation"); [apply record_touched|]. by apply keep_symbols.
Qed.

Lemma after_rerank_keeps overfetch rs rs' : after_rerank req overfetch rs = Ok rs' → Forall Pr rs → Forall Pr rs'.
Proof using keep_touched.
  unfold after_rerank. intros (rs1 & Hp & <-%Ok_inj)%try_Ok Hrs.
  apply penalty_stage_inv in Hp as (mid & Hm1 & Hm2).
  apply keep_finish. eapply keep_staged; [apply mention_anchor_staged|].
  apply keep_finish. eapply keep_staged; [apply when_staged; intros; apply directory_saturation_staged|].
  apply keep_finish. eapply keep_staged; [apply when_staged; intros; apply file_saturation_staged|].
  apply keep_finish. eapply keep_staged; [apply when_staged; intros; apply stem_match_staged|].
  apply keep_finish. eapply keep_staged; [apply when_staged; intros; apply version_staged|].
  apply keep_finish. eapply keep_staged; [exact Hm2|]. by eapply keep_staged.
Qed.

Lemma rank_rows_keeps rr known fu overfetch rs c c' rs' :
  rank_rows req rr known fu overfetch rs c = (c', Ok rs') → Forall Pr rs → Forall Pr rs'.
Proof using keep_touched keep_symbols keep_injected.
  unfold rank_rows. intros (c1 & rs1 & H1 & Hr)%bind_Ok Hrs.
  apply bind_Ok in Hr as (c2 & rs2 & H2 & Hr). apply ret_Ok in H2 as [H2 ->]. apply ret_Ok in Hr as [Hr ->].
  eapply after_rerank_keeps; [exact Hr|]. apply keep_finish. eapply keep_staged; [by eapply rerank_stage_inv|].
  by eapply before_rerank_keeps.
Qed.
End keeps.

(** The rows ranked are the candidates and what the stem scan injected, each
    once. *)
Lemma staged_finish_ident st why rs rs' : staged st rs rs' → map ident (finish_trace_stage st why rs') ≡ₚ map ident rs.
Proof using Type. intros Hs. rewrite (staged_ident _ _ _ (finish_staged st why rs')). by eapply staged_ident. Qed.

Lemma before_rerank_rows req known rs c c' rs' :
  before_rerank req known rs c = (c', Ok rs') →
  ∃ inj, injected_by req inj ∧ map ident rs' ≡ₚ map ident (rs ++ inj).
Proof using Type.
  intros Hr. unfold before_rerank in Hr. apply bind_Ok in Hr as (c1 & rs1 & Hscan & Hr).
  assert (∃ inj, injected_by req inj ∧ map ident rs1 ≡ₚ map ident (rs ++ inj)) as (inj & Hi & H1).
  { assert (map ident (finish_trace_stage "symbol_boost" "No matching known query symbol"
        (when (negb (bool_decide (known = []))) (apply_symbol_boost known) rs)) ≡ₚ map ident rs) as H0.
    { apply staged_finish_ident, when_staged. intros. apply symbol_boost_staged. }
    destruct stem_scan_enabled.
    - apply stem_scan_inv in Hscan as (inj & -> & Hinj). exists inj. split; [done|]. by rewrite !map_app, H0.
    - apply ret_Ok in Hscan as [<-%Ok_inj _]. exists []. rewrite app_nil_r. split; [constructor|exact H0]. }
  exists inj. split; [done|]. rewrite <- H1.
  apply bind_Ok in Hr as (c2 & rs2 & Ha & Hr). apply ret_Ok in Ha as [Ha ->]. apply annotate_inv in Ha as (f & ->).
  apply bind_Ok in Hr as (c3 & rs3 & Hd & Hr). apply ret_Ok in Hr as [<-%Ok_inj ->].
  apply definition_stage_inv in Hd. rewrite (staged_finish_ident _ _ _ _ Hd).
  rewrite staged_finish_ident by (apply when_staged; intros; apply qualified_staged).
  rewrite (staged_ident "symbol_annotation" (map (λ r, set_symbols (f r) r) rs1))
    by (apply staged_map; intros; apply record_touched).
  by rewrite map_map.
Qed.

Lemma rank_rows_rows req rr known fu overfetch rs c c' rs' :
  rank_rows req rr known fu overfetch rs c = (c', Ok rs') →
  ∃ inj, injected_by req inj ∧ map ident rs' ≡ₚ map ident (rs ++ inj).
Proof using Type.
  unfold rank_rows. intros (c1 & rs1 & H1 & Hr)%bind_Ok.
  apply bind_Ok in Hr as (c2 & rs2 & H2 & Hr). apply ret_Ok in H2 as [H2 ->]. apply ret_Ok in Hr as [Hr ->].
  apply before_rerank_rows in H1 as (inj & Hi & H1). exists inj. split; [done|]. rewrite <- H1. clear H1.
  unfold after_rerank in Hr. apply try_Ok in Hr as (rs3 & Hp & <-%Ok_inj).
  apply penalty_stage_inv in Hp as (mid & Hm1 & Hm2). apply rerank_stage_inv in H2.
  rewrite staged_finish_ident by apply mention_anchor_staged.
  rewrite staged_finish_ident by (apply when_staged; intros; apply directory_saturation_staged).
  rewrite staged_finish_ident by (apply when_staged; intros; apply file_saturation_staged).
  rewrite staged_finish_ident by (apply when_staged; intros; apply stem_match_staged).
  rewrite staged_finish_ident by (apply when_staged; intros; apply version_staged).
  rewrite (staged_ident _ _ _ (finish_staged _ _ _)), (staged_ident _ _ _ Hm2), (staged_ident _ _ _ Hm1).
  by rewrite (staged_finish_ident _ _ _ _ H2).
Qed.

(** ** The stages a trace names *)

Lemma at_stages_perm ls rs rs' : rs' ≡ₚ rs → at_stages ls rs → at_stages ls rs'.
Proof using Type. intros Hp. unfold at_stages. by rewrite Hp. Qed.

Lemma at_stages_mono ls ls' rs : ls ⊆ ls' → at_stages ls rs → at_stages ls' rs.
Proof using Type. intros Hs Ha. eapply Forall_impl; [exact Ha|]. cbn. intros r (l & ? & ?). exists l. auto. Qed.

Lemma finish_noop st why ls rs : Forall (λ l, st ∈ l) ls → at_stages ls rs → at_stages ls (finish_trace_stage st why rs).
Proof using Type.
  intros Hl Ha. unfold at_stages, finish_trace_stage in *. rewrite Forall_map. eapply Forall_impl; [exact Ha|].
  cbn. intros r (l & Hr & Hin). exists l. rewrite Forall_forall in Hl.
  rewrite (finish_row_stages _ _ _ _ Hr), bool_decide_true by auto. done.
Qed.

Definition OPENINGS : list (list string) := [["dense"; "bm25_fusion"; "symbol_boost"]; ["stem_scan"]]%string.
Definition MIDDLE : list string :=
  ["symbol_annotation"; "qualified_name_boost"; "definition_boost"; "rerank_blend"; "path_penalty"]%string.
Definition CLOSING : list string :=
  ["version_penalty"; "stem_boost"; "file_saturation"; "directory_saturation"; "mention_anchor"]%string.

(** The stages of a traced row: how it was admitted, then each stage once, the
    platform penalty only when there was one. *)
Definition TRACES : list (list string) :=
  map (λ o, o ++ MIDDLE ++ CLOSING) OPENINGS ++ map (λ o, o ++ MIDDLE ++ ["platform_penalty"%string] ++ CLOSING) OPENINGS.

Lemma penalty_stages q why ls rs rs' :
  penalty_stage q rs = Ok rs' → Forall (λ l, "path_penalty"%string ∉ l) ls → at_stages ls rs →
  at_stages (and_then "path_penalty" ls ++ and_then "platform_penalty" (and_then "path_penalty" ls))
    (finish_trace_stage "path_penalty" why rs').
Proof using Type.
  intros Hp Hn Ha. unfold penalty_stage in Hp. destruct path_penalty_enabled.
  - apply try_Ok in Hp as (flags & _ & <-%Ok_inj). apply finish_noop.
    { apply Forall_app. split; unfold and_then; rewrite !Forall_map; apply Forall_forall; intros l _; cbn; set_solver. }
    unfold apply_path_penalties. set (f := λ r, rescore _ _ _ r).
    assert (at_stages (and_then "path_penalty" ls) (map f rs)) as Hf.
    { apply map_touched_stages; [|done]. intros r. eexists. split; [|intros ts Ht; unfold f, rescore, record_score, push_trace; cbn; by rewrite Ht].
      done. }
    eapply staged_stages; [|exact Hf]. apply staged_sort. destruct (_ && _); [|apply staged_refl].
    unfold apply_foreign_platform_penalties. case_match; [apply staged_refl|].
    apply staged_map. intros. apply rescore_touched.
  - apply Ok_inj in Hp as <-. eapply at_stages_mono; [|by eapply finished_stages; [apply staged_refl|..]].
    intros l. rewrite elem_of_app. by left.
Qed.

Ltac stage_step :=
  match goal with
  | Ha : at_stages ?ls ?rs |- at_stages _ (finish_trace_stage ?st ?why ?rs') =>
      apply (finished_stages st why rs rs' ls); [|repeat constructor; by apply (bool_decide_unpack (_ ∉ _))|exact Ha]
  end.

Lemma before_rerank_stages req known rs c c' rs' :
  explain req = true → before_rerank req known rs c = (c', Ok rs') → at_stages [["dense"; "bm25_fusion"]%string] rs →
  at_stages (map (λ o, o ++ ["symbol_annotation"; "qualified_name_boost"; "definition_boost"]%string) OPENINGS) rs'.
Proof using Type.
  intros He Hr Ha. unfold before_rerank in Hr. apply bind_Ok in Hr as (c1 & rs1 & Hscan & Hr).
  assert (at_stages OPENINGS rs1) as H1.
  { match type of Hscan with context [finish_trace_stage ?st ?why (when ?b ?f rs)] =>
      assert (at_stages [["dense"; "bm25_fusion"; "symbol_boost"]%string] (finish_trace_stage st why (when b f rs))) as H0 end.
    { stage_step. apply when_staged. intros. apply symbol_boost_staged. }
    destruct stem_scan_enabled.
    - apply stem_scan_inv in Hscan as (inj & -> & Hinj). unfold at_stages. apply Forall_app. split.
      + eapply at_stages_mono; [|exact H0]. intros l ->%list_elem_of_singleton. by left.
      + eapply Forall_impl; [exact Hinj|]. cbn. intros r (chunk & _ & ->). unfold injected_row, stages_of. rewrite He.
        eexists. split; [done|]. right. by left.
    - apply ret_Ok in Hscan as [<-%Ok_inj _]. eapply at_stages_mono; [|exact H0].
      intros l ->%list_elem_of_singleton. by left. }
  apply bind_Ok in Hr as (c2 & rs2 & Han & Hr). apply ret_Ok in Han as [Han ->]. apply annotate_inv in Han as (f & ->).
  apply bind_Ok in Hr as (c3 & rs3 & Hd & Hr). apply ret_Ok in Hr as [<-%Ok_inj ->].
  apply definition_stage_inv in Hd.
  assert (at_stages (and_then "symbol_annotation" OPENINGS) (map trace_annotation (map (λ r, set_symbols (f r) r) rs1))) as H2.
  { apply map_touched_stages.
    - intros r. eexists. split; [|intros ts Ht; unfold trace_annotation, record_score, push_trace; by rewrite Ht]. done.
    - unfold at_stages. rewrite Forall_map. exact H1. }
  match type of Hd with staged _ ?rsq _ =>
    assert (at_stages (and_then "qualified_name_boost" (and_then "symbol_annotation" OPENINGS)) rsq) as H3 end.
  { stage_step. apply when_staged. intros. apply qualified_staged. }
  change (map _ OPENINGS) with (and_then "definition_boost" (and_then "qualified_name_boost" (and_then "symbol_annotation" OPENINGS))).
  stage_step. exact Hd.
Qed.

Lemma rank_rows_stages req rr known fu overfetch rs c c' rs' :
  explain req = true → rank_rows req rr known fu overfetch rs c = (c', Ok rs') →
  at_stages [["dense"; "bm25_fusion"]%string] rs → at_stages TRACES rs'.
Proof using Type.
  intros He. unfold rank_rows. intros (c1 & rs1 & H1 & Hr)%bind_Ok Ha.
  apply bind_Ok in Hr as (c2 & rs2 & H2 & Hr). apply ret_Ok in H2 as [H2 ->]. apply ret_Ok in Hr as [Hr ->].
  eapply before_rerank_stages in H1; [|done..]. apply rerank_stage_inv in H2.
  unfold after_rerank in Hr. apply try_Ok in Hr as (rs3 & Hp & <-%Ok_inj).
  match type of Hp with penalty_stage _ ?rsq = _ =>
    assert (at_stages (map (λ o, o ++ ["symbol_annotation"; "qualified_name_boost"; "definition_boost"; "rerank_blend"]%string) OPENINGS) rsq) as H3 end.
  { stage_step. exact H2. }
  eapply (penalty_stages _ "Path penalties disabled") in Hp; [| |exact H3]; [|repeat constructor; by apply (bool_decide_unpack (_ ∉ _))].
  match type of Hp with at_stages ?ls _ => change TRACES with
    (and_then "mention_anchor" (and_then "directory_saturation" (and_then "file_saturation"
      (and_then "stem_boost" (and_then "version_penalty" ls))))) end.
  repeat first [exact Hp|eapply finished_stages;
    [first [apply mention_anchor_staged|apply when_staged; intros;
       first [apply directory_saturation_staged|apply file_saturation_staged|apply stem_match_staged|apply version_staged]]
    |repeat constructor; by apply (bool_decide_unpack (_ ∉ _))|]].
Qed.
End pipeline.
