(* ===== verification/SearchErase.v ===== *)
(** * SearchErase: an explanation changes nothing

    Dropping the traces of the rows commutes with every stage of the pipeline, so
    a request that asks for an explanation ranks as one that does not. *)
From Stdlib Require Import SpecFloat.
From stdpp Require Import gmap sorting.
From S2P Require Import Prelude Text Unicode Detect Handle Order Float SearchConfig SearchText SearchQuery SearchRank SearchPage SearchStages SearchMention SearchProofs.
From Stdlib Require Import Lia ZArith.
Local Open Scope codesage_scope.

Definition erase (r : SearchResult) : SearchResult := set_trace None r.

Lemma erase_push t r : erase (push_trace t r) = erase r.
Proof. unfold push_trace. by destruct (trace r). Qed.

Lemma erase_record st b w r : erase (record_score st b w r) = erase r.
Proof. apply erase_push. Qed.

Lemma push_erased t r : push_trace t (erase r) = erase r.
Proof. done. Qed.

Lemma erase_rescore f st w r : erase (rescore f st w r) = rescore f st w (erase r).
Proof. unfold rescore. rewrite erase_record. done. Qed.

Lemma erase_sort rs : map erase (sort_scores rs) = sort_scores (map erase rs).
Proof. symmetry. by apply sort_by_map. Qed.

Lemma erase_map f rs : (∀ r, erase (f r) = f (erase r)) → map erase (map f rs) = map f (map erase rs).
Proof. intros H. rewrite !map_map. apply map_ext. done. Qed.

Lemma erase_finish st w rs : map erase (finish_trace_stage st w rs) = map erase rs.
Proof.
  unfold finish_trace_stage. rewrite map_map. apply map_ext. intros r. unfold finish_row.
  destruct (trace r) as [ts|]; [|done]. destruct (has_stage st ts); [done|]. apply erase_record.
Qed.

Lemma finish_erased st w rs : finish_trace_stage st w (map erase rs) = map erase rs.
Proof. unfold finish_trace_stage. rewrite map_map. by apply map_ext. Qed.

Lemma existsb_erase (p : SearchResult → bool) rs : (∀ r, p (erase r) = p r) → existsb p (map erase rs) = existsb p rs.
Proof. intros H. induction rs as [|r rs IH]; cbn; [done|]. by rewrite H, IH. Qed.

Lemma map_erase {A} (f : SearchResult → A) rs : (∀ r, f (erase r) = f r) → map f (map erase rs) = map f rs.
Proof. intros H. rewrite map_map. by apply map_ext. Qed.

Lemma omap_erase {A} (f : SearchResult → option A) rs : (∀ r, f (erase r) = f r) → omap f (map erase rs) = omap f rs.
Proof. intros H. induction rs as [|r rs IH]; [done|]. cbn. rewrite H, <- IH. done. Qed.

Lemma max_score_erase x rs : max_score x (map erase rs) = max_score x rs.
Proof. unfold max_score. revert x. induction rs as [|r rs IH]; intros x; cbn; [done|]. apply IH. Qed.

Section stages.
Context {U : Unicode} {R : Regexes} {G : Globs} {F : FloatOps} {E : Env}.

(** A stage that traces do not steer. *)
Definition blind (f : list SearchResult → list SearchResult) : Prop := ∀ rs, map erase (f rs) = f (map erase rs).

Lemma symbol_boost_blind known : blind (apply_symbol_boost known).
Proof. intros rs. unfold apply_symbol_boost. rewrite erase_sort, erase_map; [done|]. intros r. apply erase_rescore. Qed.

Lemma qualified_blind known : blind (apply_qualified_name_boost known).
Proof.
  intros rs. unfold apply_qualified_name_boost. destruct known as [|k known]; [done|].
  rewrite erase_sort, erase_map; [done|]. intros r. unfold qualified_row.
  change (qualified_hit (k :: known) (erase r)) with (qualified_hit (k :: known) r).
  destruct (qualified_hit _ r); [apply erase_rescore|done].
Qed.

Lemma version_blind q : blind (apply_version_demote q).
Proof.
  intros rs. unfold apply_version_demote. destruct (query_names_version q); [done|].
  assert (max_version (map erase rs) = max_version rs) as -> by (unfold max_version; by rewrite omap_erase).
  destruct (max_version rs) as [newest|]; [|done]. rewrite existsb_erase by done.
  destruct (existsb _ rs); rewrite ?erase_sort; rewrite erase_map; try done; intros r;
    (change (older_version newest (erase r)) with (older_version newest r));
    destruct (older_version newest r); try done; apply erase_rescore.
Qed.

Lemma stem_match_blind q : blind (apply_stem_match_boost q).
Proof.
  intros rs. unfold apply_stem_match_boost. destruct (stem_match_tokens q) as [|t ts]; [done|].
  rewrite existsb_erase by done.
  destruct (existsb _ rs); rewrite ?erase_sort; rewrite erase_map; try done; intros r;
    (change (stem_matches (t :: ts) (erase r)) with (stem_matches (t :: ts) r));
    destruct (stem_matches _ r); try done; apply erase_rescore.
Qed.

Lemma saturate_erase key threshold decay st why counts rs :
  (∀ r, key (erase r) = key r) →
  map erase (saturate key threshold decay st why counts rs) = saturate key threshold decay st why counts (map erase rs).
Proof.
  intros Hk. revert counts. induction rs as [|r rs IH]; intros counts; cbn [saturate map]; [done|].
  rewrite IH, Hk. f_equal. destruct (_ <=? _)%N; [apply erase_rescore|done].
Qed.

Lemma file_saturation_blind : blind apply_file_saturation.
Proof.
  intros rs. unfold apply_file_saturation. destruct rs as [|r rs]; [done|]. cbn [map].
  rewrite erase_sort, saturate_erase by done. by rewrite erase_sort.
Qed.

Lemma directory_saturation_blind : blind apply_directory_saturation.
Proof.
  intros rs. unfold apply_directory_saturation. destruct rs as [|r rs]; [done|]. cbn [map].
  rewrite erase_sort, saturate_erase by done. by rewrite erase_sort.
Qed.

Lemma path_penalties_blind b w q flags : blind (apply_path_penalties b w q flags).
Proof.
  intros rs. unfold apply_path_penalties. rewrite erase_sort. rewrite (existsb_erase _ rs) by done. f_equal.
  set (f := λ r, rescore _ "path_penalty" _ r).
  assert (map erase (map f rs) = map f (map erase rs)) as Hf by (apply erase_map; intros r; apply erase_rescore).
  destruct (b && platform_demote_enabled); [|exact Hf]. rewrite <- Hf. unfold apply_foreign_platform_penalties.
  rewrite existsb_erase by done. destruct (_ || _); [done|]. apply erase_map. intros r. apply erase_rescore.
Qed.

(** ** Declarations *)

Definition erase_count (p : SearchResult * nat) : SearchResult * nat := (erase p.1, p.2).

Lemma boost_symbols_erase meanwhile cache u symbols rows :
  boost_symbols meanwhile cache u symbols (map erase_count rows) =
  ((boost_symbols meanwhile cache u symbols rows).1, map erase_count (boost_symbols meanwhile cache u symbols rows).2).
Proof.
  revert cache rows. induction symbols as [|s symbols IH]; intros cache rows; cbn [boost_symbols]; [done|].
  destruct (build_definition_pattern meanwhile cache s) as [cache' [re|]]; [|apply IH].
  rewrite <- IH. f_equal. rewrite !map_map. apply map_ext. intros [r n]. unfold boost_symbol, erase_count. cbn.
  by destruct (is_match re (content r)).
Qed.

Lemma observe_erase rs rows :
  length rs = length rows → map erase (zip_with observe_definition rs rows) = map erase (map fst rows).
Proof.
  revert rows. induction rs as [|r rs IH]; intros [|[r' n] rows]; cbn; try done. intros [= Hl]. f_equal; [|by apply IH].
  destruct n; cbn; [done|]. apply erase_record.
Qed.

Lemma definition_blind meanwhile cache q rs :
  apply_definition_boost meanwhile cache q (map erase rs) =
  ((apply_definition_boost meanwhile cache q rs).1, map erase (apply_definition_boost meanwhile cache q rs).2).
Proof.
  unfold apply_definition_boost. destruct rs as [|r rs]; [done|]. cbn [map].
  change (erase r :: map erase rs) with (map erase (r :: rs)). rewrite max_score_erase. set (l := r :: rs).
  destruct (_ || _); [done|]. destruct (definition_symbols q) as [|s ss]; [done|].
  change ((erase r, 0) :: map (λ r0 : SearchResult, (r0, 0)) (map erase rs)) with (map (λ r0, (r0, 0)) (map erase l)).
  change ((r, 0) :: map (λ r0 : SearchResult, (r0, 0)) rs) with (map (λ r0, (r0, 0)) l).
  assert (map (λ r, (r, 0)) (map erase l) = map erase_count (map (λ r, (r, 0)) l)) as -> by by rewrite !map_map.
  rewrite boost_symbols_erase.
  match goal with |- context [boost_symbols ?m ?c ?u ?ss ?rows] =>
    assert (Forall2 counted l (boost_symbols m c u ss rows).2) as Hc
      by (apply boost_symbols_counted; clear; induction l; constructor; [done|exact IHl]);
    destruct (boost_symbols m c u ss rows) as [cache' rows'] end.
  cbn [fst snd] in *. f_equal. rewrite erase_sort. f_equal.
  assert (existsb (λ r, match trace r with Some _ => true | None => false end) (map erase l) = false) as ->.
  { clear. induction l; [done|exact IHl]. }
  rewrite map_map. destruct (existsb _ l); [|by rewrite map_map].
  rewrite observe_erase by (by eapply Forall2_length). by rewrite map_map.
Qed.

(** ** Reranking *)

Lemma rerank_rows_erase w lo range rs ce :
  map erase (rerank_rows w lo range rs ce) = rerank_rows w lo range (map erase rs) ce.
Proof.
  revert ce. induction rs as [|r rs IH]; intros [|c ce]; cbn [map rerank_rows]; [done..|].
  rewrite IH. f_equal. unfold rerank_row. by rewrite erase_push.
Qed.


Lemma reranking_blind rerank q w rs :
  apply_reranking rerank q w (map erase rs) = result_map (map erase) (apply_reranking rerank q w rs).
Proof.
  unfold apply_reranking. destruct rs as [|r rs]; [done|]. set (l := r :: rs).
  change (map erase l) with (erase r :: map erase rs). cbv iota. change (erase r :: map erase rs) with (map erase l).
  unfold l at 3. cbv iota. fold l. rewrite map_erase by done. destruct (rerank q (map content l)) as [ce|e].
  - cbn [result_map]. by rewrite erase_sort, rerank_rows_erase.
  - destruct (work_stopped e); [done|]. cbn [result_map]. by rewrite finish_erased, erase_finish.
Qed.

(** ** Mentions *)

Lemma hits_erase p rs : (∀ r, p (erase r) = p r) → hits p (map erase rs) = hits p rs.
Proof.
  intros Hp. unfold hits. rewrite length_map. apply List.filter_ext. intros i. rewrite list_lookup_fmap.
  destruct (rs !! i); cbn; [apply Hp|done].
Qed.

Lemma path_at_erase rs i : path_at (map erase rs) i = path_at rs i.
Proof. unfold path_at. rewrite list_lookup_fmap. by destruct (rs !! i). Qed.

Lemma anchor_mention_erase rs l m : anchor_mention (map erase rs) l m = anchor_mention rs l m.
Proof.
  destruct m as [path|owner member fallback]; cbn [anchor_mention].
  - rewrite hits_erase by done. rewrite (map_ext _ _ (path_at_erase rs)). destruct (_ <? _); [done|].
    generalize (hits (λ r, path_matches_mention (sr_path r) path) rs) as hs. intros hs. revert l.
    induction hs as [|i hs IH]; intros l; cbn [fold_left]; [done|]. by rewrite path_at_erase, IH.
  - rewrite length_map. generalize (seq 0 (length rs)) as ks. intros ks. revert l.
    induction ks as [|i ks IH]; intros l; cbn [fold_left]; [done|]. rewrite path_at_erase, list_lookup_fmap.
    destruct (rs !! i) as [r|]; cbn [fmap option_fmap option_map]; [|apply IH].
    change (symbols_match_mention owner member fallback (erase r)) with (symbols_match_mention owner member fallback r). apply IH.
Qed.

Lemma anchors_erase rs ms : anchors (map erase rs) ms = anchors rs ms.
Proof.
  unfold anchors. f_equal. generalize ({| anchored := []; per_file := ∅ |}) as l. intros l. revert l.
  induction ms as [|m ms IH]; intros l; cbn [fold_left]; [done|]. by rewrite anchor_mention_erase.
Qed.

Lemma lift_row_erase t slot r : erase (lift_row t slot r) = lift_row t slot (erase r).
Proof. unfold lift_row. rewrite erase_record. cbn. by destruct (fltb (score r) t). Qed.

Lemma lift_loop_erase top slot idxs rs :
  lift_loop top slot idxs (map erase rs) = (map erase (lift_loop top slot idxs rs).1, (lift_loop top slot idxs rs).2).
Proof.
  revert slot rs. induction idxs as [|i idxs IH]; intros slot rs; cbn [lift_loop]; [done|].
  rewrite list_lookup_fmap.
  assert (alter (lift_row (anchor_target top slot) slot) i (map erase rs) = map erase (alter (lift_row (anchor_target top slot) slot) i rs)) as ->.
  { apply list_eq. intros j. rewrite list_lookup_fmap. destruct (decide (j = i)) as [->|Hne]; [rewrite !list_lookup_alter_eq, list_lookup_fmap; by destruct (rs !! i) as [r|]; cbn; rewrite ?lift_row_erase|]. by rewrite !list_lookup_alter_ne, list_lookup_fmap. }
  rewrite IH. destruct (lift_loop _ _ idxs _) as [rs' more]. cbn [fst snd]. by destruct (rs !! i).
Qed.

Lemma mention_anchor_blind q scan offset enabled : blind (apply_mention_anchor q scan offset enabled).
Proof.
  intros rs. unfold apply_mention_anchor. rewrite length_map.
  assert (bool_decide (map erase rs = []) = bool_decide (rs = [])) as -> by by destruct rs.
  destruct (_ || _); [done|]. destruct (extract_query_mentions q) as [|m ms]; [done|].
  rewrite firstn_map. destruct (take _ rs) as [|x w]; [done|]. cbn [map].
  change (erase x :: map erase w) with (map erase (x :: w)).
  rewrite anchors_erase, max_score_erase. destruct (anchors (x :: w) (m :: ms)) as [|i ks]; [done|].
  rewrite lift_loop_erase. destruct (lift_loop _ _ _ rs) as [rs' lifted]. cbn [fst snd].
  destruct lifted; [apply erase_sort|done].
Qed.
End stages.

(** ** The pipeline *)

(** The same request, without the explanation; the same page, without traces. *)
Definition unexplained (req : SearchRequest) : SearchRequest :=
  {| query := query req; req_limit := req_limit req; req_offset := req_offset req; req_languages := req_languages req;
     req_paths := req_paths req; adaptive_limit := adaptive_limit req; explain := false |}.

Definition erase_page (p : SearchResults) : SearchResults :=
  {| results := map erase (results p); lexical_fallback_reason := lexical_fallback_reason p; confidence := confidence p;
     margin_pct := margin_pct p; cliff_at := cliff_at p |}.

Section pipeline.
Context {U : Unicode} {R : Regexes} {G : Globs} {F : FloatOps} {E : Env} {I : SearchIndex} {H : HashOrder} {P : Process}.

(** The computation [m'] is [m] with its value mapped by [f]. *)
Definition erased {A} (f : A → A) (m' m : stateful A) : Prop := ∀ c, m' c = ((m c).1, result_map f (m c).2).

Lemma erased_ret {A} (f : A → A) r : erased f (ret (result_map f r)) (ret r).
Proof using Type. by intros c. Qed.

Lemma erased_bind {A B} (f : A → A) (g : B → B) m' m k' k :
  erased f m' m → (∀ a, erased g (k' (f a)) (k a)) → erased g (bind m' k') (bind m k).
Proof using Type. intros Hm Hk c. unfold bind. rewrite Hm. destruct (m c) as [c1 [a|e]]; cbn; [apply Hk|done]. Qed.

Lemma admitted_erase ex f p : admitted false f p = erase (admitted ex f p).
Proof using Type. by destruct p as [rank r], ex. Qed.

Lemma retrieve_erase emb req overfetch :
  retrieve emb (unexplained req) overfetch = result_map (λ p, (p.1, map erase p.2)) (retrieve emb req overfetch).
Proof using Type.
  unfold retrieve. change (dense_candidates emb (unexplained req)) with (dense_candidates emb req).
  change (semantic_fetch_of (unexplained req)) with (semantic_fetch_of req).
  destruct (dense_candidates emb req _) as [rows|e]; cbn [try_ result_map fst snd]; [|done].
  change (lexical (unexplained req)) with (lexical req). rewrite map_map. do 2 f_equal. apply map_ext. intros p. apply admitted_erase.
Qed.

Lemma scan_files_erase re ex languages allowed cands files :
  scan_files re false languages allowed cands files = result_map (map erase) (scan_files re ex languages allowed cands files).
Proof using Type.
  induction files as [|f files IH]; cbn [scan_files]; [done|]. destruct (_ || _); [done|].
  destruct (chunks_for_file f) as [chunks|e]; cbn [try_]; [|done]. rewrite IH.
  destruct (scan_files re ex languages allowed cands files) as [more|e]; cbn [try_ result_map]; [|done].
  by destruct (List.find _ chunks), ex.
Qed.

Lemma stem_scan_erase req rs :
  erased (map erase) (apply_non_candidate_stem_scan (unexplained req) (map erase rs)) (apply_non_candidate_stem_scan req rs).
Proof using Type.
  intros c. unfold apply_non_candidate_stem_scan. cbn [unexplained query req_paths req_languages explain].
  assert (bool_decide (map erase rs = []) = bool_decide (rs = [])) as -> by by destruct rs.
  destruct (_ || _); [done|]. destruct (_ <? 3); [done|].
  destruct (build_definition_pattern _ _ _) as [cache [re|]]; [|done]. destruct (path_filter (req_paths req)) as [allowed|e]; [|done].
  destruct (stem_index_for _ _) as [cache' [idx|e]]; cbn [try_ fst snd result_map]; [|done].
  rewrite map_erase by done. rewrite (scan_files_erase re (explain req)).
  destruct (scan_files re (explain req) _ _ _ _) as [inj|e]; cbn [try_ result_map]; [|done]. by rewrite map_app.
Qed.

Lemma annotate_erase rs : annotate_with_symbols (map erase rs) = result_map (map erase) (annotate_with_symbols rs).
Proof using Type.
  unfold annotate_with_symbols. destruct rs as [|r rs]; [done|]. cbn [map]. set (l := r :: rs).
  change (erase r :: map erase rs) with (map erase l).
  change (sr_path (erase r) :: map sr_path (map erase rs)) with (map sr_path (map erase l)). rewrite map_erase by done.
  change (map sr_path l) with (sr_path r :: map sr_path rs).
  destruct (symbols_for_files _) as [by_file|e]; cbn [try_ result_map]; [|done].
  cbn [map]. do 2 f_equal. by rewrite !map_map.
Qed.

Lemma when_blind b f : blind f → blind (when b f).
Proof using Type. intros Hf rs. unfold when. by destruct b. Qed.

Lemma finish_when st w b f rs : blind f →
  finish_trace_stage st w (when b f (map erase rs)) = map erase (finish_trace_stage st w (when b f rs)).
Proof using Type. intros Hf. rewrite erase_finish, <- (when_blind b f Hf rs). apply finish_erased. Qed.

Lemma before_rerank_erase req known rs :
  erased (map erase) (before_rerank (unexplained req) known (map erase rs)) (before_rerank req known rs).
Proof using Type.
  unfold before_rerank. rewrite (finish_when _ _ _ _ _ (symbol_boost_blind known)).
  apply (erased_bind (map erase)).
  { destruct stem_scan_enabled; [apply stem_scan_erase|apply (erased_ret (map erase) (Ok _))]. }
  intros rs1. apply (erased_bind (map erase)); [rewrite annotate_erase; apply erased_ret|].
  intros rs2. cbn [unexplained query].
  assert (map trace_annotation (map erase rs2) = map erase (map trace_annotation rs2)) as ->.
  { rewrite !map_map. apply map_ext. intros r. unfold trace_annotation. by rewrite erase_record. }
  rewrite (finish_when _ _ _ _ _ (qualified_blind known)).
  apply (erased_bind (map erase)).
  { intros c. unfold definition_stage. destruct definition_boost_enabled; [|done]. rewrite definition_blind.
    by destruct (apply_definition_boost _ _ _ _). }
  intros rs3 c. cbn. by rewrite finish_erased, erase_finish.
Qed.

Lemma penalty_stage_erase q rs : penalty_stage q (map erase rs) = result_map (map erase) (penalty_stage q rs).
Proof using Type.
  unfold penalty_stage. destruct path_penalty_enabled; [|done]. unfold load_test_flags. rewrite map_erase by done.
  destruct (file_test_flags _) as [flags|e]; cbn [try_ result_map]; [|done]. by rewrite path_penalties_blind.
Qed.

Lemma after_rerank_erase req overfetch rs :
  after_rerank (unexplained req) overfetch (map erase rs) = result_map (map erase) (after_rerank req overfetch rs).
Proof using Type.
  unfold after_rerank. cbn [unexplained query]. rewrite penalty_stage_erase.
  destruct (penalty_stage (query req) rs) as [rs1|e]; cbn [try_ result_map]; [|done]. f_equal.
  rewrite finish_erased, <- (erase_finish "path_penalty" "Path penalties disabled").
  rewrite (finish_when _ _ _ _ _ (version_blind _)), (finish_when _ _ _ _ _ (stem_match_blind _)),
    (finish_when _ _ _ _ _ file_saturation_blind), (finish_when _ _ _ _ _ directory_saturation_blind).
  by rewrite <- mention_anchor_blind, finish_erased, erase_finish.
Qed.

Lemma rank_rows_erase req rr known fu overfetch rs :
  erased (map erase) (rank_rows (unexplained req) rr known fu overfetch (map erase rs)) (rank_rows req rr known fu overfetch rs).
Proof using Type.
  unfold rank_rows. apply (erased_bind (map erase)); [apply before_rerank_erase|]. intros rs1.
  apply (erased_bind (map erase)).
  - cbn [unexplained query].
    assert (rerank_stage rr (query req) fu (map erase rs1) = result_map (map erase) (rerank_stage rr (query req) fu rs1)) as ->.
    { unfold rerank_stage. destruct rr; [|done]. destruct (_ || _); [apply reranking_blind|done]. }
    apply erased_ret.
  - intros rs2 c. unfold ret. cbn [fst snd]. rewrite finish_erased.
    rewrite <- (erase_finish "rerank_blend" (rerank_reason (match rr with Some _ => true | None => false end) fu)).
    by rewrite after_rerank_erase.
Qed.

Lemma truncate_map {A B} (f : A → B) n l : truncate n (map f l) = map f (truncate n l).
Proof using Type. unfold truncate. by rewrite length_map, firstn_map. Qed.

Lemma page_of_erase req fb rs : page_of (unexplained req) fb (map erase rs) = erase_page (page_of req fb rs).
Proof using Type.
  unfold page_of. change (offset_of (unexplained req)) with (offset_of req). change (limit_of (unexplained req)) with (limit_of req).
  assert (apply_offset_and_limit (map erase rs) (offset_of req) (limit_of req) =
    map erase (apply_offset_and_limit rs (offset_of req) (limit_of req))) as ->.
  { unfold apply_offset_and_limit. rewrite length_map, <- truncate_map. f_equal.
    destruct (_ <=? _)%N; [done|]. destruct (_ <? _)%N; [apply skipn_map|done]. }
  rewrite map_erase by done. unfold erase_page. cbn [results]. f_equal. cbn [unexplained adaptive_limit].
  destruct (_ && _); [apply truncate_map|done].
Qed.

Lemma search_page_erase emb rr req :
  erased erase_page (search_page emb rr (unexplained req)) (search_page emb rr req).
Proof using Type.
  unfold search_page. cbn [unexplained query].
  apply (erased_bind id); [intros c; cbn; by destruct (extract_known_symbols _ _)|]. intros known. unfold id.
  apply (erased_bind (λ p, (p.1, map erase p.2))); [rewrite retrieve_erase; apply erased_ret|]. intros [f cands]. cbn [fst snd].
  apply (erased_bind (map erase)); [apply rank_rows_erase|]. intros rs c. cbn. by rewrite page_of_erase.
Qed.
End pipeline.
