(* ===== verification/SearchFusion.v ===== *)
(** * SearchFusion: reciprocal rank fusion and the relevance cliff

    What [rrf_merge] and [relevance_cliff] of src/crates/graph/src/search.rs
    compute, against the definitions of a fused score and of the largest drop. *)
From Stdlib Require Import SpecFloat.
From stdpp Require Import gmap sorting.
From S2P Require Import Prelude Text Unicode Detect Handle Order Float SearchConfig SearchText SearchQuery SearchRank SearchPage.
From Stdlib Require Import Lia ZArith.
Local Open Scope codesage_scope.

(** ** Truncation *)

Lemma truncate_take {A} n (l : list A) : truncate n l = take (N.to_nat n) l.
Proof.
  unfold truncate. destruct (decide (n <= N.of_nat (length l))%N).
  - by rewrite N.min_l.
  - rewrite N.min_r by lia. rewrite Nat2N.id, firstn_all, take_ge by lia. done.
Qed.

Lemma length_truncate {A} n (l : list A) : length (truncate n l) = min (N.to_nat n) (length l).
Proof. rewrite truncate_take. apply length_take. Qed.

(** ** The cliff *)

(** Two adjacent scores that are compared: both finite, the leader positive. *)
Definition comparable (scores : list f32) (i : nat) (hi lo : f32) : Prop :=
  scores !! i = Some hi ∧ scores !! S i = Some lo ∧ is_finite hi = true ∧ is_finite lo = true ∧ fleb hi f32_zero = false.

Lemma cliff_step i best hi lo scores :
  cliff_loop i best (hi :: lo :: scores) =
  cliff_loop (S i) (if negb (is_finite hi) || negb (is_finite lo) || fleb hi f32_zero then best
    else if fltb best.1 (relative_drop hi lo) then (relative_drop hi lo, S i) else best) (lo :: scores).
Proof. done. Qed.

(** [d] is the drop of the first pair no other exceeds; or [best] stands. *)
Lemma cliff_loop_spec i best scores :
  is_nan best.1 = false →
  (cliff_loop i best scores = best ∧ ∀ j hi lo, comparable scores j hi lo → fltb best.1 (relative_drop hi lo) = false) ∨
  ∃ j hi lo, comparable scores j hi lo ∧ cliff_loop i best scores = (relative_drop hi lo, S (i + j))
    ∧ fltb best.1 (relative_drop hi lo) = true
    ∧ ∀ j' hi' lo', comparable scores j' hi' lo' → fltb (relative_drop hi lo) (relative_drop hi' lo') = false.
Proof.
  revert i best. induction scores as [|hi [|lo scores] IH]; intros i best Hb.
  - left. split; [done|]. by intros j hi lo (? & _).
  - left. split; [done|]. intros [|j] h l (_ & Hl & _); cbn in Hl; [done|by destruct j].
  - rewrite cliff_step. assert (∀ j h l, comparable (hi :: lo :: scores) j h l → j = 0 ∧ h = hi ∧ l = lo ∨ ∃ k, j = S k ∧ comparable (lo :: scores) k h l) as Hcase.
    { intros [|j] h l (H1 & H2 & H3); [left; cbn in H1, H2; naive_solver|right; exists j; by split]. }
    assert (∀ k h l, comparable (lo :: scores) k h l → comparable (hi :: lo :: scores) (S k) h l) as Hup by done.
    destruct (negb (is_finite hi) || negb (is_finite lo) || fleb hi f32_zero) eqn:Hskip.
    { assert (∀ h l, ¬ comparable (hi :: lo :: scores) 0 h l) as Hno.
      { intros h l (H1 & H2 & H3 & H4 & H5). cbn in H1, H2. injection H1 as <-. injection H2 as <-. by rewrite H3, H4, H5 in Hskip. }
      destruct (IH (S i) best Hb) as [[-> H]|(j & h & l & Hc & -> & Hlt & Hmax)].
      - left. split; [done|]. intros j h l Hc. destruct (Hcase _ _ _ Hc) as [(-> & -> & ->)|(k & -> & Hk)]; [by apply Hno in Hc|by eapply H].
      - right. exists (S j), h, l. split_and!; [by apply Hup|f_equal; lia|done|].
        intros j' h' l' Hc'. destruct (Hcase _ _ _ Hc') as [(-> & -> & ->)|(k & -> & Hk)]; [by apply Hno in Hc'|by eapply Hmax]. }
    apply orb_false_iff in Hskip as [[H1%negb_false_iff H2%negb_false_iff]%orb_false_iff H3].
    assert (comparable (hi :: lo :: scores) 0 hi lo) as H0 by by split_and!.
    destruct (fltb best.1 (relative_drop hi lo)) eqn:Hd.
    + pose proof (fltb_nan _ _ Hd) as [_ Hn].
      destruct (IH (S i) (relative_drop hi lo, S i) Hn) as [[-> H]|(j & h & l & Hc & -> & Hlt & Hmax)]; right.
      * exists 0, hi, lo. split_and!; [done|f_equal; lia|done|]. intros j' h' l' Hc'.
        destruct (Hcase _ _ _ Hc') as [(-> & -> & ->)|(k & -> & Hk)]; [by apply fltb_irrefl|by eapply H].
      * exists (S j), h, l. split_and!; [by apply Hup|f_equal; lia| |].
        { eapply fltb_trans; [exact Hd|exact Hlt]. }
        intros j' h' l' Hc'. destruct (Hcase _ _ _ Hc') as [(-> & -> & ->)|(k & -> & Hk)]; [|by eapply Hmax].
        by apply fltb_asym.
    + destruct (IH (S i) best Hb) as [[-> H]|(j & h & l & Hc & -> & Hlt & Hmax)].
      * left. split; [done|]. intros j h l Hc. destruct (Hcase _ _ _ Hc) as [(-> & -> & ->)|(k & -> & Hk)]; [done|by eapply H].
      * right. exists (S j), h, l. split_and!; [by apply Hup|f_equal; lia|done|].
        intros j' h' l' Hc'. destruct (Hcase _ _ _ Hc') as [(-> & -> & ->)|(k & -> & Hk)]; [|by eapply Hmax].
        by apply (fltb_above best.1).
Qed.

Lemma cliff_ok scores :
  let c := relevance_cliff scores in
  (cliff_confidence c = High ↔ (20 <= drop_pct c)%Z)
  ∧ (cliff_confidence c = Low → cut c = length scores)
  ∧ (cliff_confidence c = High →
     ∃ i hi lo, cut c = S i ∧ comparable scores i hi lo ∧ hi ≠ lo
       ∧ ∀ j hi' lo', comparable scores j hi' lo' → fltb (relative_drop hi lo) (relative_drop hi' lo') = false).
Proof.
  unfold relevance_cliff.
  assert (as_u8 (f32_round (f32_mul MIN_CLIFF_DROP (f32_of_Z 100))) = 20%Z) as -> by by vm_compute.
  destruct (cliff_loop_spec 0 (f32_zero, length scores) scores eq_refl) as [[-> _]|(i & hi & lo & Hc & -> & Hd & Hmax)].
  - assert (as_u8 (f32_round (f32_mul f32_zero (f32_of_Z 100))) = 0%Z) as -> by by vm_compute. done.
  - cbn zeta. set (pct := as_u8 _). destruct (Z.leb_spec 20 pct) as [Hp|Hp]; cbn; [|split_and!; [split; [done|lia]|done|done]].
    split_and!; [split; [lia|done]|done|]. intros _. exists i, hi, lo. split_and!; [done|done| |done].
    intros <-. destruct Hc as (_ & _ & Hf & _ & Hp0). unfold relative_drop in Hd.
    rewrite f32_sub_diag in Hd by done. assert (is_nan hi = false) as Hn by by destruct hi.
    destruct (f32_div_zero_l hi Hn) as [s Hs]; [by apply fleb_false|]. rewrite Hs in Hd. by destruct s.
Qed.

(** ** The fused score *)

(** A row's region, language and text. *)
Definition raw_ident (r : RawSearchRow) : bytes * bytes * bytes * N * N :=
  (raw_path r, raw_language r, raw_content r, raw_start r, raw_end r).

(** What a ranked list contributes to a region: the weight over the rank of each of
    its rows there. *)
Definition contributions (weight : f64) (rows : list RawSearchRow) (k : bytes * N * N) : list f64 :=
  omap (λ p, if decide (row_key p.2 = k) then Some (contribution weight p.1) else None) (enumerate rows).

(** The sum, from the first contribution on. *)
Definition sum_from (acc : option f64) (cs : list f64) : option f64 :=
  fold_left (λ acc c, Some (match acc with Some s => f64_add s c | None => c end)) cs acc.

(** The reciprocal-rank score of a region: weight 1 for each dense rank, 2 for each
    lexical one. *)
Definition rrf_score (semantic bm25 : list RawSearchRow) (k : bytes * N * N) : option f64 :=
  sum_from None (contributions (f64_of_Z 1) semantic k ++ contributions BM25_WEIGHT bm25 k).

(** The first row of a region: the dense one, if there is one. *)
Definition first_row (rows : list RawSearchRow) (k : bytes * N * N) : option RawSearchRow :=
  List.find (λ r, bool_decide (row_key r = k)) rows.

(** An entry of the table agrees with a score and the first row. *)
Definition entry_is (e : option (f64 * RawSearchRow)) (sc : option f64) (r : option RawSearchRow) : Prop :=
  match e, sc, r with
  | Some (s, row), Some s', Some r => s = s' ∧ raw_ident row = raw_ident r
  | None, None, None => True
  | _, _, _ => False
  end.

Definition or_else {A} (a b : option A) : option A := match a with Some _ => a | None => b end.

(** One more row: the score and first row of its region move, no other does. *)
Definition adds (weight : f64) (add : Scores → nat * RawSearchRow → Scores) : Prop :=
  ∀ m p k sc r, entry_is (m !! k) sc r →
    entry_is (add m p !! k)
      (if decide (row_key p.2 = k) then sum_from sc [contribution weight p.1] else sc)
      (if decide (row_key p.2 = k) then or_else r (Some p.2) else r).

Lemma add_dense_adds : adds (f64_of_Z 1) add_dense.
Proof.
  intros m [rank row] k sc r He. unfold add_dense. change (row_key (with_dense rank row)) with (row_key row). cbn [fst snd].
  destruct (decide (row_key row = k)) as [<-|Hne].
  - destruct (m !! row_key row) as [[s e]|]; rewrite lookup_insert_eq; destruct sc, r; cbn in *; try done. destruct He as [-> ?]. done.
  - destruct (m !! row_key row) as [[s e]|]; by rewrite lookup_insert_ne.
Qed.

Lemma add_bm25_adds : adds BM25_WEIGHT add_bm25.
Proof.
  intros m [rank row] k sc r He. unfold add_bm25.
  change (row_key (with_bm25 _ _ row)) with (row_key row). cbn [fst snd].
  destruct (decide (row_key row = k)) as [<-|Hne].
  - destruct (m !! row_key row) as [[s e]|]; rewrite lookup_insert_eq; destruct sc, r; cbn in *; try done. destruct He as [-> ?]. done.
  - destruct (m !! row_key row) as [[s e]|]; by rewrite lookup_insert_ne.
Qed.

Lemma fold_adds weight add l m k sc r :
  adds weight add → entry_is (m !! k) sc r →
  entry_is (fold_left add l m !! k)
    (sum_from sc (omap (λ p, if decide (row_key p.2 = k) then Some (contribution weight p.1) else None) l))
    (or_else r (first_row (map snd l) k)).
Proof.
  intros Ha. revert m sc r. induction l as [|p l IH]; intros m sc r He; cbn [fold_left omap list_omap map].
  - cbn. by destruct r.
  - specialize (IH _ _ _ (Ha m p k sc r He)). unfold first_row. cbn [List.find].
    destruct (decide (row_key p.2 = k)) as [E|Hne]; cbn in IH |- *.
    + rewrite bool_decide_true by done. by destruct r.
    + rewrite bool_decide_false by done. exact IH.
Qed.

Lemma snd_enumerate {A} (l : list A) : map snd (enumerate l) = l.
Proof. unfold enumerate. generalize 0. induction l as [|x l IH]; intros n; cbn; [done|]. by rewrite IH. Qed.

Lemma sum_from_app acc a b : sum_from acc (a ++ b) = sum_from (sum_from acc a) b.
Proof. unfold sum_from. apply fold_left_app. Qed.

Lemma first_row_app a b k : or_else (first_row a k) (first_row b k) = first_row (a ++ b) k.
Proof. unfold first_row. induction a as [|x a IH]; cbn; [done|]. by destruct (bool_decide _). Qed.

(** The table of [rrf_merge] holds exactly the regions of the two lists, each with
    its score and its first row. *)
Lemma fuse_spec semantic bm25 k :
  entry_is (fuse semantic bm25 !! k) (rrf_score semantic bm25 k) (first_row (semantic ++ bm25) k).
Proof.
  unfold fuse, rrf_score. rewrite sum_from_app, <- first_row_app.
  pose proof (fold_adds (f64_of_Z 1) add_dense (enumerate semantic) ∅ k None None add_dense_adds I) as H1.
  rewrite snd_enumerate in H1. cbn [or_else] in H1.
  pose proof (fold_adds BM25_WEIGHT add_bm25 (enumerate bm25) _ k _ _ add_bm25_adds H1) as H2.
  by rewrite snd_enumerate in H2.
Qed.

Lemma first_row_key rows k r : first_row rows k = Some r → row_key r = k ∧ r ∈ rows.
Proof. unfold first_row. intros [Hin Hb]%find_some. apply bool_decide_eq_true in Hb. by rewrite list_elem_of_In. Qed.

Lemma fuse_key semantic bm25 k s row : fuse semantic bm25 !! k = Some (s, row) → row_key row = k.
Proof.
  intros Hk. pose proof (fuse_spec semantic bm25 k) as Hs. rewrite Hk in Hs. cbn in Hs.
  destruct (rrf_score _ _ _); [|done]. destruct (first_row _ k) as [r|] eqn:Hr; [|done]. destruct Hs as [_ Hi].
  apply first_row_key in Hr as [<- _]. unfold raw_ident in Hi. unfold row_key. congruence.
Qed.

(** ** The ranking *)

(** [a] scores no less than [b]. *)
Definition scores_ge (a b : f64) : Prop := total_cmp b a ≠ Gt.

Lemma scores_ge_trans a b c : scores_ge a b → scores_ge b c → scores_ge a c.
Proof. unfold scores_ge. rewrite !total_cmp_key. intros H1 H2. by eapply key_le_trans. Qed.

Lemma ranked_cmp_ge a b : ranked_cmp a b ≠ Gt → scores_ge a.1 b.1.
Proof. unfold ranked_cmp, scores_ge. by destruct (total_cmp b.1 a.1). Qed.

Lemma ranked_cmp_gt a b : ranked_cmp a b = Gt → scores_ge b.1 a.1.
Proof.
  unfold ranked_cmp, scores_ge. rewrite (total_cmp_key a.1 b.1), (key_cmp_antisym (tkey b.1)), <- total_cmp_key.
  by destruct (total_cmp b.1 a.1).
Qed.

Section rrf.
Context {H : HashOrder} {HL : HashOrderLaws H}.

(** Every region, ranked; [ranked] is its prefix. *)
Definition ranking (semantic bm25 : list RawSearchRow) : list (f64 * RawSearchRow) :=
  sort_by ranked_cmp (hash_order (map snd (map_to_list (fuse semantic bm25)))).

Lemma ranking_perm semantic bm25 : ranking semantic bm25 ≡ₚ map snd (map_to_list (fuse semantic bm25)).
Proof using HL. unfold ranking. by rewrite sort_by_perm, hash_order_perm. Qed.

Lemma ranking_sorted semantic bm25 : StronglySorted (λ a b, scores_ge a.1 b.1) (ranking semantic bm25).
Proof using Type.
  apply (sort_by_sorted _ (λ _, True)); [by intros; apply ranked_cmp_ge|by intros; apply ranked_cmp_gt| |by apply Forall_true].
  intros x y z _ _ _. apply scores_ge_trans.
Qed.

Lemma elem_of_ranking semantic bm25 p :
  p ∈ ranking semantic bm25 ↔ fuse semantic bm25 !! row_key p.2 = Some p.
Proof using HL.
  rewrite ranking_perm, list_elem_of_fmap. split.
  - intros ([k [s row]] & -> & Hk%elem_of_map_to_list). cbn. by rewrite (fuse_key _ _ _ _ _ Hk).
  - intros Hk. exists (row_key p.2, p). split; [done|]. by apply elem_of_map_to_list.
Qed.

Lemma ranking_nodup semantic bm25 : NoDup (map (λ p, row_key p.2) (ranking semantic bm25)).
Proof using HL.
  rewrite ranking_perm, map_map.
  assert (map (λ x, row_key (x.2).2) (map_to_list (fuse semantic bm25)) = map fst (map_to_list (fuse semantic bm25))) as ->.
  { apply map_ext_Forall, Forall_forall. intros [k [s row]] Hk%elem_of_map_to_list. by apply fuse_key in Hk. }
  apply NoDup_fst_map_to_list.
Qed.

Lemma ranked_take semantic bm25 limit : ranked semantic bm25 limit = take (N.to_nat limit) (ranking semantic bm25).
Proof using Type. apply truncate_take. Qed.

Lemma rescaled_key mn mx lo rg p : row_key (rescaled_row mn mx lo rg p) = row_key p.2.
Proof using Type. by destruct p. Qed.

Lemma rescaled_ident mn mx lo rg p : raw_ident (rescaled_row mn mx lo rg p) = raw_ident p.2.
Proof using Type. by destruct p. Qed.

Lemma rescaled_score mn mx lo rg p : fused_score (retrieval (rescaled_row mn mx lo rg p)) = Some p.1.
Proof using Type. by destruct p. Qed.

(** Best first, by the fused score recorded. *)
Definition fused_ge (a b : RawSearchRow) : Prop :=
  ∀ s t, fused_score (retrieval a) = Some s → fused_score (retrieval b) = Some t → scores_ge s t.

Lemma rescaled_sorted mn mx lo rg l :
  StronglySorted (λ a b, scores_ge a.1 b.1) l → StronglySorted fused_ge (map (rescaled_row mn mx lo rg) l).
Proof using Type.
  induction 1 as [|p l Hs IH Hf]; cbn; constructor; [done|]. rewrite Forall_map.
  eapply Forall_impl; [exact Hf|]. cbn. intros q Hq s t. rewrite !rescaled_score. by intros [= <-] [= <-].
Qed.

Lemma rrf_ok semantic bm25 limit :
  let rows := rrf_merge semantic bm25 limit in
  NoDup (map row_key rows) ∧ length rows ≤ N.to_nat limit
  ∧ (∀ r, r ∈ rows → ∃ s, fused_score (retrieval r) = Some s ∧ rrf_score semantic bm25 (row_key r) = Some s
       ∧ ∃ r0, first_row (semantic ++ bm25) (row_key r) = Some r0 ∧ raw_ident r = raw_ident r0)
  ∧ StronglySorted fused_ge rows
  ∧ (∀ c, c ∈ semantic ++ bm25 → row_key c ∉ map row_key rows →
       length rows = N.to_nat limit
       ∧ ∀ r s t, r ∈ rows → fused_score (retrieval r) = Some s → rrf_score semantic bm25 (row_key c) = Some t → scores_ge s t).
Proof using HL.
  cbn zeta. unfold rrf_merge. destruct (dense_span semantic) as [mn mx]. rewrite ranked_take.
  set (rk := ranking semantic bm25). set (n := N.to_nat limit). set (f := rescaled_row _ _ _ _).
  assert (map row_key (map f (take n rk)) = map (λ p, row_key p.2) (take n rk)) as Hkeys.
  { rewrite map_map. apply map_ext. intros p. apply rescaled_key. }
  assert (∀ p, p ∈ take n rk → fuse semantic bm25 !! row_key p.2 = Some p) as Hin.
  { intros p Hp. apply elem_of_ranking. eapply elem_of_sublist; [exact Hp|apply sublist_take]. }
  split_and!.
  - rewrite Hkeys. eapply sublist_NoDup; [apply ranking_nodup|]. apply fmap_sublist, sublist_take.
  - rewrite length_map, length_take. lia.
  - intros r (p & -> & Hp)%list_elem_of_fmap. exists p.1. unfold f. rewrite rescaled_score, rescaled_key, rescaled_ident.
    pose proof (fuse_spec semantic bm25 (row_key p.2)) as Hs. rewrite (Hin _ Hp) in Hs. destruct p as [s row]. cbn in *.
    destruct (rrf_score _ _ _); [|done]. destruct (first_row _ _) as [r0|]; [|done]. destruct Hs as [-> ?]. eauto.
  - assert (StronglySorted (λ a b, scores_ge a.1 b.1) (take n rk)) as Hsort.
    { pose proof (ranking_sorted semantic bm25) as Hr. fold rk in Hr. rewrite <- (take_drop n rk) in Hr.
      by apply StronglySorted_app_1_l in Hr. }
    by apply rescaled_sorted.
  - intros c Hc Hno. rewrite Hkeys in Hno.
    assert (∃ p, fuse semantic bm25 !! row_key c = Some p) as [p Hp].
    { pose proof (fuse_spec semantic bm25 (row_key c)) as Hs.
      destruct (first_row (semantic ++ bm25) (row_key c)) as [r0|] eqn:Hr.
      - destruct (fuse semantic bm25 !! row_key c) as [[s row]|]; [eauto|]. by destruct (rrf_score _ _ _).
      - exfalso. unfold first_row in Hr. apply list_elem_of_In in Hc. apply (find_none _ _ Hr) in Hc.
        by rewrite bool_decide_true in Hc. }
    assert (p ∈ rk) as Hrk by (destruct p as [s row]; apply elem_of_ranking; cbn; by rewrite (fuse_key _ _ _ _ _ Hp)).
    rewrite <- (take_drop n rk) in Hrk. apply elem_of_app in Hrk as [Hrk|Hrk].
    { exfalso. apply Hno. apply list_elem_of_fmap. exists p. split; [|done]. destruct p as [s row]. cbn. by rewrite (fuse_key _ _ _ _ _ Hp). }
    split.
    + rewrite length_map, length_take. destruct (decide (n ≤ length rk)); [lia|]. rewrite drop_ge in Hrk by lia. by apply elem_of_nil in Hrk.
    + intros r s t (q & -> & Hq)%list_elem_of_fmap. unfold f. rewrite rescaled_score. intros [= <-] Ht.
      pose proof (fuse_spec semantic bm25 (row_key c)) as Hs. rewrite Hp, Ht in Hs. destruct p as [s' row].
      destruct (first_row _ _); [|done]. destruct Hs as [-> _].
      pose proof (ranking_sorted semantic bm25) as Hr. fold rk in Hr. rewrite <- (take_drop n rk) in Hr.
      by apply (StronglySorted_app_1_elem_of _ _ _ q (t, row) Hr).
Qed.
End rrf.
