(* ===== verification/SearchCaches.v ===== *)
(** * SearchCaches: the caches of a process change no answer

    [DEFINITION_PATTERN_CACHE] and [STEM_CACHE] of src/crates/graph/src/search.rs
    are shared by every request of the process.  Whatever other threads insert of
    the same kind, a search gives what it gives with empty caches. *)
From Stdlib Require Import SpecFloat.
From stdpp Require Import gmap sorting.
From S2P Require Import Prelude Text Unicode Detect Handle Order Float SearchConfig SearchText SearchQuery SearchRank SearchPage SearchStages SearchProofs.
From Stdlib Require Import Lia ZArith.
Local Open Scope codesage_scope.

Section caches.
Context {U : Unicode} {R : Regexes} {G : Globs} {F : FloatOps} {E : Env} {I : SearchIndex} {H : HashOrder} {P : Process}.

(** Every pattern in the cache is the one compiled for its name, and there are at
    most [DEFINITION_PATTERN_CACHE_CAP]. *)
Definition patterns_ok (cache : gmap bytes Regex) : Prop :=
  (∀ s re, cache !! s = Some re → compile_definition_pattern s = Some re) ∧ size cache ≤ DEFINITION_PATTERN_CACHE_CAP.

(** An index in the cache under the current token is the one built now (the
    limits of the token are documented at [SemanticValidityToken]). *)
Definition stems_ok (cache : StemCache) : Prop :=
  ∀ key idx token, cache !! key = Some idx → semantic_files_validity_token = Ok token → stem_token idx = token →
    build_stem_index token = Ok idx.

Definition caches_ok (c : Caches) : Prop := patterns_ok (patterns c) ∧ stems_ok (stems c).

(** The other threads keep the caches so. *)
Record process_ok := {
  other_patterns_ok : ∀ c, patterns_ok c → patterns_ok (other_patterns c);
  other_stems_ok : ∀ c, stems_ok c → stems_ok (other_stems c) }.

Definition pattern_for (s : bytes) : option Regex := if bytes_eqb s [] then None else compile_definition_pattern s.

Lemma build_pattern_ok meanwhile cache s :
  (∀ c, patterns_ok c → patterns_ok (meanwhile c)) → patterns_ok cache →
  (build_definition_pattern meanwhile cache s).2 = pattern_for s ∧ patterns_ok (build_definition_pattern meanwhile cache s).1.
Proof using Type.
  intros Hm Hc. unfold build_definition_pattern, pattern_for. destruct (bytes_eqb s []); [done|].
  destruct (cache !! s) as [re|] eqn:Es; [split; [cbn; symmetry; by apply Hc|done]|].
  destruct (compile_definition_pattern s) as [re|] eqn:Ec; [|done]. split; [done|]. cbn [fst].
  specialize (Hm _ Hc) as [Hv Hs]. destruct (_ <=? size (meanwhile cache)) eqn:Hfull.
  - split; [|rewrite map_size_insert_None, map_size_empty by done; unfold DEFINITION_PATTERN_CACHE_CAP; lia].
    intros k re' [[<- <-]|[Hne Hk]]%lookup_insert_Some; [done|by rewrite lookup_empty in Hk].
  - apply Nat.leb_gt in Hfull. split; [|rewrite map_size_insert; destruct (meanwhile cache !! s); cbn; lia].
    intros k re' [[<- <-]|[Hne Hk]]%lookup_insert_Some; [done|by apply Hv].
Qed.

(** The index now, built afresh. *)
Definition stem_index_now : result StemIndex := let? token := semantic_files_validity_token in build_stem_index token.

Lemma build_stem_token token idx : build_stem_index token = Ok idx → stem_token idx = token.
Proof using Type.
  unfold build_stem_index. intros (paths & _ & <-%Ok_inj)%try_Ok.
  assert (∀ l i, stem_token (fold_left add_stem l i) = stem_token i) as Hf.
  { intros l. induction l as [|f l IH]; intros i; cbn; [done|]. rewrite IH. unfold add_stem. by destruct (file_stem f). }
  by rewrite Hf.
Qed.

Lemma cached_index_ok cache key token idx :
  stems_ok cache → semantic_files_validity_token = Ok token → cached_index cache key token = Some idx →
  build_stem_index token = Ok idx.
Proof using Type.
  intros Hc Ht. unfold cached_index. destruct (cache !! key) as [hit|] eqn:Ek; cbn; [|done].
  case_decide as Hd; [|done]. intros [= <-]. by apply (Hc key hit token).
Qed.

Lemma stem_index_ok meanwhile cache :
  (∀ c, stems_ok c → stems_ok (meanwhile c)) → stems_ok cache →
  (stem_index_for meanwhile cache).2 = stem_index_now ∧ stems_ok (stem_index_for meanwhile cache).1.
Proof using Type.
  intros Hm Hc. unfold stem_index_for, stem_index_now. destruct semantic_cache_key as [key|]; [|done].
  unfold stem_index_from_cache. destruct semantic_files_validity_token as [token|e] eqn:Et; cbn [try_]; [|done].
  destruct (cached_index cache key token) as [hit|] eqn:Eh.
  { cbn. split; [|done]. symmetry. by eapply cached_index_ok. }
  destruct (build_stem_index token) as [built|e] eqn:Eb; [|done].
  destruct (cached_index (meanwhile cache) key token) as [hit|] eqn:Eh2.
  { cbn. split; [|by apply Hm]. rewrite <- Eb. symmetry. eapply cached_index_ok; [by apply Hm|done|exact Eh2]. }
  cbn. split; [done|]. intros k idx t [[<- <-]|[Hne Hk]]%lookup_insert_Some Ht Hi.
  - rewrite Et in Ht. apply Ok_inj in Ht as <-. done.
  - by apply (Hm _ Hc k).
Qed.

(** ** The pipeline *)

(** A computation whose value does not depend on which good caches it has, and
    leaves them good. *)
Definition oblivious {A} (m : stateful A) : Prop :=
  ∀ c1 c2, caches_ok c1 → caches_ok c2 → (m c1).2 = (m c2).2 ∧ caches_ok (m c1).1.

Lemma oblivious_ret {A} (r : result A) : oblivious (ret r).
Proof using Type. by intros c1 c2. Qed.

Lemma oblivious_bind {A B} (m : stateful A) (f : A → stateful B) :
  oblivious m → (∀ a, oblivious (f a)) → oblivious (bind m f).
Proof using Type.
  intros Hm Hf c1 c2 H1 H2. destruct (Hm c1 c2 H1 H2) as [Hv Hk1]. destruct (Hm c2 c1 H2 H1) as [_ Hk2]. unfold bind.
  destruct (m c1) as [d1 [a|e]], (m c2) as [d2 [a'|e']]; cbn in *; try done; injection Hv as <-; [by apply Hf|done].
Qed.

Context (Hproc : process_ok).

Lemma stem_scan_oblivious req rs : oblivious (apply_non_candidate_stem_scan req rs).
Proof using Hproc.
  intros c1 c2 [Hp1 Hs1] [Hp2 Hs2]. unfold apply_non_candidate_stem_scan. destruct (_ || _); [done|]. destruct (_ <? 3); [done|].
  destruct (build_pattern_ok other_patterns (patterns c1) (extract_symbol_name (query req)) (other_patterns_ok Hproc) Hp1) as [E1 K1].
  destruct (build_pattern_ok other_patterns (patterns c2) (extract_symbol_name (query req)) (other_patterns_ok Hproc) Hp2) as [E2 K2].
  destruct (build_definition_pattern _ (patterns c1) _) as [p1 o1], (build_definition_pattern _ (patterns c2) _) as [p2 o2].
  cbn in E1, E2, K1, K2. subst o1 o2. destruct (pattern_for _) as [re|]; [|done].
  destruct (path_filter (req_paths req)) as [allowed|e]; [|done]. cbn [stems patterns].
  destruct (stem_index_ok other_stems (stems c1) (other_stems_ok Hproc) Hs1) as [F1 L1].
  destruct (stem_index_ok other_stems (stems c2) (other_stems_ok Hproc) Hs2) as [F2 L2].
  destruct (stem_index_for _ (stems c1)) as [s1 i1], (stem_index_for _ (stems c2)) as [s2 i2].
  cbn in F1, F2, L1, L2. by subst i1 i2.
Qed.

Lemma boost_symbols_oblivious c1 c2 u ss rows :
  patterns_ok c1 → patterns_ok c2 →
  (boost_symbols other_patterns c1 u ss rows).2 = (boost_symbols other_patterns c2 u ss rows).2
  ∧ patterns_ok (boost_symbols other_patterns c1 u ss rows).1.
Proof using Hproc.
  revert c1 c2 rows. induction ss as [|s ss IH]; intros c1 c2 rows H1 H2; cbn [boost_symbols]; [done|].
  destruct (build_pattern_ok other_patterns c1 s (other_patterns_ok Hproc) H1) as [E1 K1].
  destruct (build_pattern_ok other_patterns c2 s (other_patterns_ok Hproc) H2) as [E2 K2].
  destruct (build_definition_pattern _ c1 s) as [p1 o1], (build_definition_pattern _ c2 s) as [p2 o2].
  cbn in E1, E2, K1, K2. subst o1 o2. by apply IH.
Qed.

Lemma definition_oblivious q rs : oblivious (definition_stage q rs).
Proof using Hproc.
  intros c1 c2 [Hp1 Hs1] [Hp2 Hs2]. unfold definition_stage. destruct definition_boost_enabled; [|done].
  unfold apply_definition_boost. destruct rs as [|r rs]; [done|]. destruct (_ || _); [done|].
  destruct (definition_symbols q) as [|s ss]; [done|].
  match goal with |- context [boost_symbols _ (patterns c1) ?u _ ?rows] =>
    destruct (boost_symbols_oblivious (patterns c1) (patterns c2) u (s :: ss) rows Hp1 Hp2) as [E1 K1] end.
  destruct (boost_symbols _ (patterns c1) _ _ _) as [p1 r1], (boost_symbols _ (patterns c2) _ _ _) as [p2 r2].
  cbn in E1, K1 |- *. by subst r2.
Qed.

Lemma search_page_oblivious emb rr req : oblivious (search_page emb rr req).
Proof using Hproc.
  unfold search_page. apply oblivious_bind; [apply oblivious_ret|]. intros known.
  apply oblivious_bind; [apply oblivious_ret|]. intros [f cands].
  apply oblivious_bind; [|intros; apply oblivious_ret]. unfold rank_rows, before_rerank.
  apply oblivious_bind; [|intros; apply oblivious_bind; [apply oblivious_ret|intros; apply oblivious_ret]].
  apply oblivious_bind; [destruct stem_scan_enabled; [apply stem_scan_oblivious|apply oblivious_ret]|]. intros rs1.
  apply oblivious_bind; [apply oblivious_ret|]. intros rs2.
  apply oblivious_bind; [apply definition_oblivious|]. intros; apply oblivious_ret.
Qed.
End caches.
