(* ===== verification/SearchPenalties.v ===== *)
(** * SearchPenalties: penalties only demote

    The multiplicative stages of src/crates/graph/src/search.rs multiply a
    non-negative score by a factor in [[0, 1]], so no row gains by one. *)
From Stdlib Require Import SpecFloat.
From stdpp Require Import gmap sorting.
From S2P Require Import Prelude Text Unicode Detect Handle Order Float Rounding SearchConfig SearchText SearchQuery SearchRank SearchPage SearchSmall SearchStages.
From Stdlib Require Import Lia ZArith.
Local Open Scope codesage_scope.

(** A factor: a machine number in [[0, 1]]. *)
Definition factor (p : f32) : Prop := valid p ∧ fleb f32_zero p = true ∧ fleb p f32_one = true.

(** A score a penalty may apply to. *)
Definition proper (x : f32) : Prop := valid x ∧ is_finite x = true ∧ fleb f32_zero x = true.

Lemma demote x p : proper x → factor p → fleb (f32_mul x p) x = true ∧ proper (f32_mul x p).
Proof.
  intros (Hx & Hf & H0) (Hp & H0p & H1p). destruct (f32_mul_unit x p Hx Hf H0 Hp H0p H1p) as [Hle Hge].
  split; [done|]. split_and!; [by apply f32_mul_valid| |done]. destruct (f32_mul x p) as [|[]| |]; try done. by destruct x.
Qed.

Lemma l2_to_score_nonneg d : fleb f32_zero (l2_to_score d) = true.
Proof.
  unfold l2_to_score, fmax. set (x := f32_sub _ _). change (is_nan f32_zero) with false.
  destruct (is_nan x) eqn:Hx; [done|]. destruct (fltb x f32_zero) eqn:Hlt; [done|].
  destruct (fleb f32_zero x) eqn:Hle; [done|]. apply fleb_false in Hle; [congruence|done|done].
Qed.

(** [powi] of a factor, and what [parse] returns. *)
Class FloatLaws (F : FloatOps) := {
  powi_factor x n : factor x → (0 <= n)%Z → factor (powi x n);
  parse_f32_valid s x : parse_f32 s = Some x → valid x }.

Section penalties.
Context {U : Unicode} {R : Regexes} {G : Globs} {F : FloatOps} {FL : FloatLaws F} {E : Env}.

Definition factorb (p : f32) : bool := valid_binary 24 128 p && fleb f32_zero p && fleb p f32_one.

Lemma factorb_true p : factorb p = true → factor p.
Proof using Type. unfold factorb, factor, valid. by intros [[? ?]%andb_true_iff ?]%andb_true_iff. Qed.

(** Every product of penalties the code can form. *)
Lemma row_penalty_factor q flags aux c r : factor (row_penalty q flags aux c r).
Proof using Type.
  apply factorb_true. unfold row_penalty, path_penalty, declaration_header_penalty, php_declaration_penalty.
  set (is_test_query := query_is_test_shaped q). set (t := is_test flags (sr_path r)).
  generalize (aux && auxiliary_path (sr_path r) && (negb t || is_test_query)) as b1. intros b1.
  generalize (negb is_test_query && t) as b2. intros b2.
  set (path := if has_byte _ _ then _ else _).
  generalize (has_dir_segment path COMPAT_DIR_NAMES) as b3. intros b3.
  generalize (has_dir_segment path EXAMPLES_DIR_NAMES) as b4. intros b4.
  generalize (contains_word REEXPORT_BASENAMES (basename path)) as b5. intros b5.
  generalize (ends_with (bs ".d.ts") path) as b6. intros b6.
  assert (∀ x y : f32, (x = f32_one ∨ x = SOFT_PENALTY_MILD) → (y = f32_one ∨ y = SOFT_PENALTY_MODERATE) → ∀ d : bool,
    factorb (let penalty := f32_one in
      let penalty := if b2 then f32_mul penalty (f32_mul SOFT_PENALTY_STRONG EXTRA_TEST_DEMOTE_NON_TEST_QUERY) else penalty in
      let penalty := if b3 then f32_mul penalty SOFT_PENALTY_STRONG else penalty in
      let penalty := if b4 then f32_mul penalty SOFT_PENALTY_STRONG else penalty in
      let penalty := if b5 then f32_mul penalty SOFT_PENALTY_MODERATE else penalty in
      let penalty := if b6 then f32_mul penalty SOFT_PENALTY_MILD else penalty in
      let penalty := if b1 then f32_mul penalty (f32_mul SOFT_PENALTY_STRONG EXTRA_TEST_DEMOTE_NON_TEST_QUERY) else penalty in
      let penalty := if c then f32_mul penalty x else penalty in
      if d then f32_mul penalty y else penalty) = true) as Hall.
  { intros x y [->| ->] [->| ->] d; destruct b1, b2, b3, b4, b5, b6, c, d; by vm_compute. }
  apply Hall.
  - repeat case_match; auto.
  - repeat case_match; auto.
Qed.

(** A row after a penalty: the same chunk, a score no greater and still not negative. *)
Definition demoted (r r' : SearchResult) : Prop :=
  ident r' = ident r ∧ fleb (score r') (score r) = true ∧ proper (score r').

Definition demotes (rs rs' : list SearchResult) : Prop := ∃ mid, Forall2 demoted rs mid ∧ rs' ≡ₚ mid.

Definition proper_rows (rs : list SearchResult) : Prop := Forall (λ r, proper (score r)) rs.

Lemma demoted_rescore p st w r : proper (score r) → factor p → demoted r (rescore (λ s, f32_mul s p) st w r).
Proof using Type.
  intros Hs Hp. destruct (demote _ _ Hs Hp) as [H1 H2]. unfold demoted, rescore, record_score, push_trace, set_trace.
  destruct (trace _); by split_and!.
Qed.

Lemma demoted_refl r : proper (score r) → demoted r r.
Proof using Type. intros Hp. split_and!; [done| |done]. destruct Hp as (Hv & Hf & H0). apply fleb_refl. by destruct (score r). Qed.

Lemma demoted_trans r1 r2 r3 : demoted r1 r2 → demoted r2 r3 → demoted r1 r3.
Proof using Type. intros (H1 & H2 & H3) (H4 & H5 & H6). split_and!; [congruence| |done]. by eapply fleb_trans. Qed.

Lemma demotes_proper rs rs' : demotes rs rs' → proper_rows rs'.
Proof using Type.
  intros (mid & Hm & Hp). unfold proper_rows. rewrite Hp. clear Hp rs'. induction Hm as [|r r' rs mid (_ & _ & Hr)]; by constructor.
Qed.

Lemma demotes_refl rs : proper_rows rs → demotes rs rs.
Proof using Type. intros Hp. exists rs. split; [|done]. unfold proper_rows in Hp. induction Hp; constructor; [by apply demoted_refl|done]. Qed.

Lemma demotes_trans rs1 rs2 rs3 : demotes rs1 rs2 → demotes rs2 rs3 → demotes rs1 rs3.
Proof using Type.
  intros (m1 & Hm1 & Hp1) (m2 & Hm2 & Hp2). destruct (Permutation_Forall2 Hp1 Hm2) as (m3 & Hp3 & Hm3).
  exists m3. split; [|by rewrite Hp2]. clear Hp1 Hp2 Hp3 Hm2 m2. revert m3 Hm3. induction Hm1 as [|a b ? ? H1 Hm IH]; intros m3 H3.
  - by apply Forall2_nil_inv_l in H3 as ->.
  - apply Forall2_cons_inv_l in H3 as (c & m & H & Hr & ->). constructor; [by eapply demoted_trans|by apply IH].
Qed.

Lemma demotes_map f rs : (∀ r, r ∈ rs → proper (score r) → demoted r (f r)) → proper_rows rs → demotes rs (map f rs).
Proof using Type.
  intros Hf Hp. exists (map f rs). split; [|done]. unfold proper_rows in Hp.
  induction rs as [|r rs IH]; cbn; constructor; apply Forall_cons in Hp as [Hr Hp]; [apply Hf; [by left|done]|].
  apply IH; [intros; apply Hf; [by right|done]|done].
Qed.

Lemma demotes_sort rs rs' : demotes rs rs' → demotes rs (sort_scores rs').
Proof using Type. intros (mid & Hm & Hp). exists mid. split; [done|]. unfold sort_scores. by rewrite sort_by_perm. Qed.

Lemma demotes_sorted_first rs rs' : demotes (sort_scores rs) rs' → demotes rs rs'.
Proof using Type.
  intros (mid & Hm & Hp). destruct (Permutation_Forall2 (sort_by_perm score_cmp rs) Hm) as (mid' & Hm' & H').
  exists mid'. split; [done|]. by rewrite Hp.
Qed.

Lemma platform_factor path w : factor (foreign_platform_penalty path w).
Proof using Type. apply factorb_true. unfold foreign_platform_penalty. repeat case_match; by vm_compute. Qed.

Lemma platform_demotes q w rs : proper_rows rs → demotes rs (apply_foreign_platform_penalties q w rs).
Proof using Type.
  intros Hp. unfold apply_foreign_platform_penalties. destruct (_ || _); [by apply demotes_refl|].
  apply demotes_map; [|done]. intros r _ Hr. apply demoted_rescore; [done|apply platform_factor].
Qed.

Lemma path_penalties_demote b w q flags rs :
  proper_rows rs → demotes rs (apply_path_penalties b w q flags rs).
Proof using Type.
  intros Hp. unfold apply_path_penalties.
  match goal with |- context [map ?f rs] => set (rs1 := map f rs); assert (demotes rs rs1) as H1 end.
  { apply demotes_map; [|done]. intros r _ Hr. apply demoted_rescore; [done|apply row_penalty_factor]. }
  apply demotes_sort. destruct (_ && _); [|done]. eapply demotes_trans; [done|]. by eapply platform_demotes, demotes_proper.
Qed.

Lemma version_demotes q rs : proper_rows rs → demotes rs (apply_version_demote q rs).
Proof using Type.
  intros Hp. pose proof (demotes_refl rs Hp) as Hid.
  unfold apply_version_demote. destruct (query_names_version q); [done|]. destruct (max_version rs) as [newest|]; [|done].
  assert (∀ f, (∀ r, proper (score r) → demoted r (f r)) → ∀ b : bool, demotes rs (if b then sort_scores (map f rs) else map f rs)) as Hm.
  { intros f Hf []; [apply demotes_sort|]; apply demotes_map; auto. }
  apply Hm. intros r Hr. destruct (older_version newest r); [|by apply demoted_refl].
  apply demoted_rescore; [done|]. by apply factorb_true; vm_compute.
Qed.

Lemma as_i32_small n : (n < 2 ^ 31)%N → as_i32 n = Z.of_N n.
Proof using Type. intros Hn. unfold as_i32. rewrite Z.mod_small; lia. Qed.

(** Rows seen so far, with their counts below the rows there are. *)
Lemma saturate_demotes key threshold decay st w counts rs n :
  factor decay → proper_rows rs → (∀ k c, counts !! k = Some c → c ≤ n) →
  (N.of_nat (n + length rs) < 2 ^ 31)%N →
  Forall2 demoted rs (saturate key threshold decay st w counts rs).
Proof using FL.
  intros Hd Hp Hc Hn. unfold proper_rows in Hp. revert n counts Hc Hn. induction Hp as [|r rs Hr Hp IH]; intros n counts Hc Hn; cbn [saturate]; constructor.
  - destruct (N.leb_spec threshold (N.of_nat (default 0 (counts !! key r)))); [|by apply demoted_refl].
    apply demoted_rescore; [done|]. apply powi_factor; [done|].
    assert (default 0 (counts !! key r) ≤ n) by (destruct (counts !! key r) as [c|] eqn:Ek; cbn; [by eapply Hc|lia]).
    cbn [length] in Hn. rewrite as_i32_small by lia. lia.
  - apply (IH (S n)); [|cbn [length] in Hn; lia]. intros k c [[<- <-]|[_ Hk]]%lookup_insert_Some.
    + destruct (counts !! key r) as [c|] eqn:Ek; cbn; [apply le_n_S; by eapply Hc|lia].
    + etrans; [by eapply Hc|lia].
Qed.

Lemma dir_saturation_decay_factor : factor dir_saturation_decay.
Proof using FL.
  unfold dir_saturation_decay. destruct (s ← _; _) as [v|] eqn:Ev; [|by apply factorb_true; vm_compute].
  destruct (fltb f32_zero v && fleb v f32_one) eqn:Hv; [|by apply factorb_true; vm_compute].
  apply andb_true_iff in Hv as [H1 H2]. destruct (env_var _) as [t|]; cbn in Ev; [|done].
  split_and!; [by eapply parse_f32_valid|by apply fltb_fleb|done].
Qed.

Lemma saturation_demotes rs :
  proper_rows rs → (N.of_nat (length rs) < 2 ^ 31)%N →
  demotes rs (apply_file_saturation rs) ∧ demotes rs (apply_directory_saturation rs).
Proof using FL.
  intros Hp Hn. unfold apply_file_saturation, apply_directory_saturation.
  destruct rs as [|r rs]; [split; exists []; by split; [constructor|]|].
  assert (proper_rows (sort_scores (r :: rs))) as Hps by (unfold proper_rows, sort_scores; by rewrite sort_by_perm).
  split; apply demotes_sort, demotes_sorted_first; eexists; (split; [|done]);
    (eapply (saturate_demotes _ _ _ _ _ _ _ 0); [|done|by intros k c Hk; rewrite lookup_empty in Hk|unfold sort_scores; by rewrite length_sort_by]).
  - by apply factorb_true; vm_compute.
  - apply dir_saturation_decay_factor.
Qed.
End penalties.

(** C7. A penalty never promotes.  On rows whose scores are finite and not negative, as
    [l2_to_score] makes them whatever the distance, each penalty stage (path, declaration
    and platform penalties, older versions, repeated files, repeated directories) keeps
    the rows and gives each a score no greater than it had and still not negative,
    rounding included. *)
Theorem penalties_only_demote {U : Unicode} {R : Regexes} {G : Globs} {F : FloatOps} (FL : FloatLaws F) {E : Env}
    b w q flags rs
    (Hp : proper_rows rs) (Hn : (N.of_nat (length rs) < 2 ^ 31)%N) :
  demotes rs (apply_path_penalties b w q flags rs) ∧ demotes rs (apply_version_demote q rs)
  ∧ demotes rs (apply_file_saturation rs) ∧ demotes rs (apply_directory_saturation rs)
  ∧ ∀ d, fleb f32_zero (l2_to_score d) = true.
Proof.
  split_and!; [by apply path_penalties_demote|by apply version_demotes|by apply saturation_demotes..|apply l2_to_score_nonneg].
Qed.

(** ** An instance: the rows of the small index *)

Import Small.

Lemma small_laws : FloatLaws floats.
Proof. split; [|done]. intros x n (Hv & H0 & H1) Hn. cbn [powi floats]. unfold factor. by apply powi_mul_unit. Qed.

Definition small_rows : list SearchResult := map (λ r, admitted true (not_fused chunks (plain "Lexical off")) (0, r)) chunks.

Lemma small_rows_proper : proper_rows small_rows.
Proof. repeat constructor. Qed.

Lemma penalties_only_demote_witness :
  demotes small_rows (apply_path_penalties true false (bs "open_db") ∅ small_rows)
  ∧ demotes small_rows (apply_file_saturation small_rows).
Proof.
  split.
  - exact (proj1 (penalties_only_demote small_laws true false (bs "open_db") ∅ small_rows small_rows_proper eq_refl)).
  - exact (proj1 (proj2 (proj2 (penalties_only_demote small_laws true false (bs "open_db") ∅ small_rows small_rows_proper eq_refl)))).
Defined.
