(* ===== verification/SearchTheorems.v ===== *)
(** * SearchTheorems: what a search page promises

    The properties of the search pipeline of src/crates/graph/src/search.rs, each
    with an instance on a small index. *)
From Stdlib Require Import SpecFloat.
From stdpp Require Import gmap sorting.
From S2P Require Import Prelude Text Unicode Detect Handle Order Float SearchConfig SearchText SearchQuery SearchRank SearchPage SearchSmall SearchStages SearchMention SearchProofs SearchErase SearchFusion SearchCaches.
From Stdlib Require Import Lia ZArith.
Local Open Scope codesage_scope.

(** ** Languages *)

Lemma parse_as_str l : parse_language (as_str l) = Some l.
Proof. by destruct l. Qed.

Lemma parse_db_as_str ls tag : contains_word (map as_str ls) tag = true → parse_db_language tag ∈ ls.
Proof.
  rewrite contains_word_true. intros (l & -> & Hl)%list_elem_of_fmap. unfold parse_db_language. by rewrite parse_as_str.
Qed.

Section theorems.
Context {U : Unicode} {R : Regexes} {G : Globs} {F : FloatOps} {E : Env} {I : SearchIndex} {H : HashOrder} {P : Process}.

(** ** Where rows come from *)

(** A row of the index that may answer [req]: a dense neighbour whose path passes
    the filter, a lexical hit of a lookup given the filters, or a chunk the stem
    scan admits. *)
Inductive origin (embedding : bytes) (req : SearchRequest) (raw : RawSearchRow) : Prop :=
| from_dense k lang rows :
    search_knn embedding k lang = Ok rows → raw ∈ rows →
    (∀ ps, req_paths req = Some ps → ∃ set, path_globset ps = Ok set ∧ glob_match set (raw_path raw) = true) →
    origin embedding req raw
| from_lexical expr k rows :
    search_bm25 expr k (option_map (map as_str) (req_languages req)) (req_paths req) = Ok rows → raw ∈ rows →
    origin embedding req raw
| from_stem : injectable req raw → origin embedding req raw.

(** The row shows the chunk. *)
Definition shows (r : SearchResult) (raw : RawSearchRow) : Prop :=
  ident r = (raw_path raw, parse_db_language (raw_language raw), raw_content raw, raw_start raw, raw_end raw).

Lemma knn_each_in emb fetch langs rows raw :
  knn_each emb fetch langs = Ok rows → raw ∈ rows → ∃ l rows', search_knn emb fetch (Some (as_str l)) = Ok rows' ∧ raw ∈ rows'.
Proof using Type.
  revert rows. induction langs as [|l langs IH]; intros rows; cbn [knn_each]; [intros <-%Ok_inj []%elem_of_nil|].
  intros (r1 & H1 & H2)%try_Ok. apply try_Ok in H2 as (r2 & H2 & <-%Ok_inj). intros [Hr|Hr]%elem_of_app; [eauto|by eapply IH].
Qed.

Lemma elem_of_truncate {A} n (l : list A) x : x ∈ truncate n l → x ∈ l.
Proof using Type. rewrite truncate_take. intros Hx. eapply elem_of_sublist; [exact Hx|apply sublist_take]. Qed.

Lemma knn_origin emb fetch languages rows raw :
  semantic_knn_candidates emb fetch languages = Ok rows → raw ∈ rows →
  ∃ k lang rows', search_knn emb k lang = Ok rows' ∧ raw ∈ rows'.
Proof using Type.
  unfold semantic_knn_candidates. destruct (_ =? 0)%N; [intros <-%Ok_inj []%elem_of_nil|].
  assert (∀ ls, (let? merged := knn_each emb fetch ls in Ok (truncate fetch (sort_by distance_cmp merged))) = Ok rows →
    raw ∈ rows → ∃ k lang rows', search_knn emb k lang = Ok rows' ∧ raw ∈ rows') as Hm.
  { intros ls (merged & Hk & <-%Ok_inj)%try_Ok Hr%elem_of_truncate. rewrite sort_by_perm in Hr.
    destruct (knn_each_in _ _ _ _ _ Hk Hr) as (l & rows' & ? & ?). eauto. }
  destruct languages as [[|l [|l' ls]]|]; eauto.
Qed.

Lemma dense_origin emb req fetch rows raw : dense_candidates emb req fetch = Ok rows → raw ∈ rows → origin emb req raw.
Proof using Type.
  unfold dense_candidates. destruct (req_paths req) as [ps|] eqn:Hp.
  - unfold path_filtered_knn_candidates. destruct (_ =? 0)%N; [intros <-%Ok_inj []%elem_of_nil|].
    intros (set & Hset & Hr)%try_Ok. apply try_Ok in Hr as (rows0 & Hk & <-%Ok_inj).
    intros [Hin Hm]%elem_of_truncate%list_elem_of_In%filter_In. apply list_elem_of_In in Hin.
    destruct (knn_origin _ _ _ _ _ Hk Hin) as (k & lang & rows' & ? & ?). eapply from_dense; [done..|].
    rewrite Hp. intros ps' [= <-]. eauto.
  - intros Hk Hin. destruct (knn_origin _ _ _ _ _ Hk Hin) as (k & lang & rows' & ? & ?).
    eapply from_dense; [done..|]. by rewrite Hp.
Qed.

Lemma bm25_rows_origin emb req fetch expr rows raw :
  (if qualified_groups_enabled
   then bm25_candidates_with_fallback expr (query req) fetch (option_map (map as_str) (req_languages req)) (req_paths req)
   else search_bm25 expr fetch (option_map (map as_str) (req_languages req)) (req_paths req)) = Ok rows →
  raw ∈ rows → origin emb req raw.
Proof using Type.
  destruct qualified_groups_enabled; [|intros; by eapply from_lexical]. unfold bm25_candidates_with_fallback.
  intros (rows0 & H0 & Hr)%try_Ok. destruct rows0 as [|x xs]; [|apply Ok_inj in Hr as <-; intros; by eapply from_lexical].
  destruct (_ || _); [apply Ok_inj in Hr as <-|]; intros; by eapply from_lexical.
Qed.

(** A candidate is, but for its scores, a row of the index. *)
Lemma lexical_origin `{!HashOrderLaws H} emb req fetch rows r :
  (∀ raw, raw ∈ rows → origin emb req raw) → r ∈ fusion_rows (lexical req fetch rows) →
  ∃ raw, origin emb req raw ∧ raw_ident r = raw_ident raw.
Proof using Type.
  intros Hd. assert (r ∈ rows → ∃ raw, origin emb req raw ∧ raw_ident r = raw_ident raw) as Hrow by (intros; exists r; auto).
  unfold lexical. destruct (negb _); [exact Hrow|]. destruct (bytes_eqb _ []); [exact Hrow|].
  match goal with |- context [match ?b with Ok _ => _ | Err _ => _ end] => destruct b as [[|x xs]|e] eqn:Hb end; [exact Hrow| |exact Hrow].
  cbn [fusion_rows]. intros Hr. destruct (rrf_ok rows (x :: xs) fetch) as (_ & _ & Hok & _).
  destruct (Hok _ Hr) as (s & _ & _ & r0 & Hf & Hi). apply first_row_key in Hf as [_ Hin]. exists r0. split; [|done].
  apply elem_of_app in Hin as [Hin|Hin]; [by apply Hd|]. by eapply bm25_rows_origin.
Qed.

(** The chunk behind a row of the answer, of a language asked for. *)
Definition answers (embedding : bytes) (req : SearchRequest) (r : SearchResult) : Prop :=
  (∃ raw, origin embedding req raw ∧ shows r raw) ∧ ∀ ls, req_languages req = Some ls → language r ∈ ls.

Lemma retrieve_answers `{!HashOrderLaws H} emb req overfetch f cands :
  retrieve emb req overfetch = Ok (f, cands) → Forall (answers emb req) cands.
Proof using Type.
  unfold retrieve. intros (rows & Hd & Hr)%try_Ok. apply Ok_inj in Hr. injection Hr as <- <-.
  apply Forall_forall. intros r ([rank raw] & -> & Hin)%list_elem_of_fmap.
  apply (list_elem_of_fmap_2 snd) in Hin. fold (@map (nat * RawSearchRow) RawSearchRow snd) in Hin.
  change (snd <$> ?l) with (map snd l) in Hin. rewrite snd_enumerate in Hin. cbn [snd] in Hin.
  assert (raw ∈ fusion_rows (lexical req (semantic_fetch_of req overfetch) rows)
    ∧ ∀ ls, req_languages req = Some ls → contains_word (map as_str ls) (raw_language raw) = true) as [Hf Hl].
  { unfold retain_languages in Hin. destruct (req_languages req) as [ls|]; [|done].
    apply list_elem_of_In, filter_In in Hin as [Hin Hc]. split; [by apply list_elem_of_In|]. by intros ? [= <-]. }
  destruct (lexical_origin emb req _ rows raw (λ x, dense_origin _ _ _ _ x Hd) Hf) as (raw0 & Ho & Hi).
  unfold raw_ident in Hi. injection Hi as H1 H2 H3 H4 H5. split.
  - exists raw0. split; [done|]. unfold shows, ident, admitted. destruct (fused _); cbn; congruence.
  - intros ls Hls. specialize (Hl _ Hls). apply parse_db_as_str in Hl. unfold admitted. by destruct (fused _).
Qed.

Lemma injected_answers emb req chunk : injectable req chunk → answers emb req (injected_row (explain req) chunk).
Proof using Type.
  intros Hi. split; [exists chunk; split; [by apply from_stem|done]|]. intros ls Hls.
  destruct Hi as (? & ? & ? & _ & _ & _ & _ & Hl). rewrite Hls in Hl. apply (parse_db_as_str ls). apply contains_word_true.
  unfold language_allowed in Hl. apply existsb_exists in Hl as (l & Hin & Hl). apply list_elem_of_fmap. exists l.
  split; [|by apply list_elem_of_In]. by destruct (bytes_eqb_spec (as_str l) (raw_language chunk)).
Qed.

Lemma touched_answers emb req st r0 r : touched st r0 r → answers emb req r0 → answers emb req r.
Proof using Type.
  intros (Hi & _) [(raw & Ho & Hs) Hl]. split; [exists raw; split; [done|]; unfold shows in *; congruence|].
  unfold ident in Hi. injection Hi as _ -> _ _ _. done.
Qed.

(** ** The page and the ranking *)

(** A successful search: the candidates, what the stem scan adds, and the ranking
    the page is cut from. *)
Lemma search_page_inv emb rr req c c' page :
  search_page emb rr req c = (c', Ok page) →
  ∃ known overfetch f cands inj ranked c1,
    retrieve emb req overfetch = Ok (f, cands) ∧ injected_by req inj
    ∧ rank_rows req rr known (fused f) overfetch cands c1 = (c', Ok ranked)
    ∧ map ident ranked ≡ₚ map ident (cands ++ inj) ∧ page = page_of req (fallback_reason f) ranked.
Proof using Type.
  unfold search_page. intros (c1 & known & Hk & Hr)%bind_Ok. apply ret_Ok in Hk as [Hk ->].
  apply bind_Ok in Hr as (c2 & [f cands] & Hf & Hr). apply ret_Ok in Hf as [Hf ->].
  apply bind_Ok in Hr as (c3 & rs & Hrank & Hr). apply ret_Ok in Hr as [<-%Ok_inj ->].
  pose proof (rank_rows_rows _ _ _ _ _ _ _ _ _ Hrank) as (inj & Hi & Hp).
  exists known. eexists. exists f, cands, inj, rs, c. by split_and!.
Qed.

Lemma page_of_results req fb rs :
  ∃ n, results (page_of req fb rs) = take n (drop (N.to_nat (offset_of req)) rs) ∧ n ≤ N.to_nat (limit_of req).
Proof using Type.
  assert (apply_offset_and_limit rs (offset_of req) (limit_of req)
    = take (N.to_nat (limit_of req)) (drop (N.to_nat (offset_of req)) rs)) as Ha.
  { unfold apply_offset_and_limit. rewrite truncate_take. f_equal.
    destruct (N.leb_spec (N.of_nat (length rs)) (offset_of req)); [by rewrite drop_ge by lia|].
    destruct (N.ltb_spec 0 (offset_of req)) as [|Hz]; [done|]. by replace (offset_of req) with 0%N by lia. }
  unfold page_of. rewrite Ha. cbn [results]. destruct (_ && _).
  - rewrite truncate_take, take_take. eexists. split; [done|]. lia.
  - eexists. split; [done|]. lia.
Qed.

(** ** Order *)

Definition no_nan (rs : list SearchResult) : Prop := Forall (λ x, is_nan x = false) (map score rs).
Definition descending (rs : list SearchResult) : Prop := StronglySorted fge (map score rs).

Lemma no_nan_scores rs rs' : map score rs = map score rs' → no_nan rs → no_nan rs'.
Proof using Type. unfold no_nan. by intros ->. Qed.

Lemma sort_scores_descending rs : no_nan rs → descending (sort_scores rs).
Proof using Type.
  intros Hn. unfold descending.
  assert (map score (sort_scores rs) = sort_by desc_cmp (map score rs)) as -> by (symmetry; by apply sort_by_map).
  apply (sort_by_sorted _ (λ x, is_nan x = false)); [apply desc_cmp_le|apply desc_cmp_gt| |done].
  intros x y z _ _ _ H1 H2. unfold fge in *. by eapply fleb_trans.
Qed.

Lemma no_nan_sort rs : no_nan (sort_scores rs) ↔ no_nan rs.
Proof using Type. unfold no_nan, sort_scores. by rewrite sort_by_perm. Qed.

Lemma finish_scores st w rs : map score (finish_trace_stage st w rs) = map score rs.
Proof using Type.
  unfold finish_trace_stage. rewrite map_map. apply map_ext. intros r. unfold finish_row.
  destruct (trace r) as [ts|]; [|done]. destruct (has_stage st ts); [done|apply score_record].
Qed.

(** The anchor sorts, or leaves every score. *)
Lemma anchor_scores q scan offset enabled rs :
  (∃ ws, apply_mention_anchor q scan offset enabled rs = sort_scores ws)
  ∨ map score (apply_mention_anchor q scan offset enabled rs) = map score rs.
Proof using Type.
  unfold apply_mention_anchor. destruct (_ || _); [by right|].
  destruct (extract_query_mentions q) as [|m ms]; [by right|]. destruct (take _ rs) as [|w ws] eqn:Ew; [by right|].
  destruct (anchors (w :: ws) (m :: ms)) as [|i ks] eqn:Ea; [by right|].
  assert (NoDup (sort_indices (i :: ks))) as Hn by (rewrite sort_indices_perm, <- Ea; apply anchors_ok).
  pose proof (lift_loop_lifted (max_score F32_MIN (w :: ws)) 0 _ rs Hn) as Hl.
  destruct (lift_loop_spec (max_score F32_MIN (w :: ws)) 0 _ rs Hn) as [Hlen _].
  destruct (lift_loop _ _ _ rs) as [rs' lifted]. cbn [fst snd] in *. destruct lifted; [left; eauto|right].
  apply list_eq. intros j. rewrite !list_lookup_fmap. destruct (rs !! j) as [r|] eqn:Hj.
  - destruct (Hl eq_refl _ _ Hj) as (r' & -> & Hs). cbn. by rewrite Hs.
  - apply lookup_ge_None in Hj. by rewrite lookup_ge_None_2 by lia.
Qed.

Lemma descending_scores rs rs' : map score rs = map score rs' → descending rs → descending rs'.
Proof using Type. unfold descending. by intros ->. Qed.

Lemma after_rerank_descending req overfetch rs rs' :
  dir_saturation_enabled = true → after_rerank req overfetch rs = Ok rs' → no_nan rs' → descending rs'.
Proof using Type.
  intros Hd. unfold after_rerank. intros (rs1 & _ & <-%Ok_inj)%try_Ok Hn.
  match goal with |- descending (finish_trace_stage _ _ (apply_mention_anchor ?q ?s ?o ?e (finish_trace_stage _ _ (when _ _ ?x)))) =>
    rewrite Hd in *; set (X := x) in * end. cbn [when] in *.
  apply (no_nan_scores _ _ (finish_scores _ _ _)) in Hn. eapply descending_scores; [symmetry; apply finish_scores|].
  destruct (anchor_scores (query req) (saturating_mul (limit_of req) overfetch) (offset_of req) mention_anchor_enabled
    (finish_trace_stage "directory_saturation" "Disabled or directory repetition below threshold" (apply_directory_saturation X)))
    as [[ws Ew]|Es].
  - rewrite Ew in *. apply sort_scores_descending. by apply no_nan_sort.
  - apply (no_nan_scores _ _ Es) in Hn. eapply descending_scores; [symmetry; exact Es|].
    apply (no_nan_scores _ _ (finish_scores _ _ _)) in Hn. eapply descending_scores; [symmetry; apply finish_scores|].
    unfold apply_directory_saturation in *. destruct X as [|x X']; [constructor|].
    apply sort_scores_descending. by apply no_nan_sort.
Qed.

(** ** The trace of a page *)

Lemma retrieve_traces emb req overfetch f cands :
  retrieve emb req overfetch = Ok (f, cands) → Forall trace_ok cands
    ∧ (explain req = true → at_stages [["dense"; "bm25_fusion"]%string] cands).
Proof using Type.
  unfold retrieve. intros (rows & _ & Hr)%try_Ok. apply Ok_inj in Hr. injection Hr as <- <-. split.
  - apply Forall_map, Forall_forall. intros [rank raw] _. unfold trace_ok, admitted. destruct (explain req); [|done]. cbn. done.
  - intros ->. apply Forall_map, Forall_forall. intros [rank raw] _. eexists. split; [done|by left].
Qed.

Lemma rank_rows_traces req rr known fu overfetch rs c c' rs' :
  rank_rows req rr known fu overfetch rs c = (c', Ok rs') → Forall trace_ok rs → Forall trace_ok rs'.
Proof using Type.
  apply rank_rows_keeps.
  - intros st r0 r (_ & _ & He). by eapply explained_trace_ok.
  - done.
  - intros chunk _. unfold trace_ok, injected_row. by destruct (explain req).
Qed.
End theorems.

(** ** Properties *)

Section properties.
Context {U : Unicode} {R : Regexes} {G : Globs} {F : FloatOps} {E : Env} {I : SearchIndex} {H : HashOrder} {P : Process}.

(** C5. A page holds only what was asked for.  Every row of a successful search is,
    text and lines, a chunk of the index that answers the request: a dense neighbour
    whose path passes the path filter, a hit of a lexical lookup made with the
    request's filters, or a chunk of a matching file that passes them; when the
    request names languages its language is one of them; and there are at most
    [limit] rows.  No stage of the ranking makes up a row or changes its text. *)
Theorem search_page_sound `{!HashOrderLaws H} emb rr req c c' page
    (Hs : search_page emb rr req c = (c', Ok page)) :
  Forall (answers emb req) (results page) ∧ length (results page) ≤ N.to_nat (limit_of req).
Proof using Type.
  destruct (search_page_inv _ _ _ _ _ _ Hs) as (known & overfetch & f & cands & inj & ranked & c1 & Hf & Hi & Hr & Hp & ->).
  destruct (page_of_results req (fallback_reason f) ranked) as (n & -> & Hn). split; [|rewrite length_take; lia].
  apply Forall_take, Forall_drop. eapply (rank_rows_keeps (answers emb req)); [| | |exact Hr|by eapply retrieve_answers].
  - intros st r0 r. apply touched_answers.
  - intros ss r [(raw & Ho & Hsh) Hl]. split; [by exists raw|done].
  - apply injected_answers.
Qed.

(** Asking for an explanation changes nothing else.  With the traces dropped,
    the page, its order, its scores, its confidence and its cliff are those of the
    same request without [explain], failures included, and the caches end the same. *)
Theorem explanation_changes_nothing emb rr req c :
  search_page emb rr (unexplained req) c =
  ((search_page emb rr req c).1, result_map erase_page (search_page emb rr req c).2).
Proof using Type. apply search_page_erase. Qed.

(** C22. An explanation accounts for the score.  In an explained page every row has a
    trace; it starts with the row's admission, each entry starts from the score the
    one before it ended with, the last ends at the row's score, and it names the
    stages of the pipeline, each once and in their order. *)
Theorem explanation_accounts emb rr req c c' page
    (Hs : search_page emb rr req c = (c', Ok page)) (He : explain req = true) :
  Forall (λ r, ∃ ts, trace r = Some ts ∧ chained None ts (score r) ∧ map stage ts ∈ TRACES) (results page).
Proof using Type.
  destruct (search_page_inv _ _ _ _ _ _ Hs) as (known & overfetch & f & cands & inj & ranked & c1 & Hf & Hi & Hr & Hp & ->).
  destruct (page_of_results req (fallback_reason f) ranked) as (n & -> & Hn). apply Forall_take, Forall_drop.
  destruct (retrieve_traces _ _ _ _ _ Hf) as [Ht Ha].
  pose proof (rank_rows_traces _ _ _ _ _ _ _ _ _ Hr Ht) as Hok.
  pose proof (rank_rows_stages _ _ _ _ _ _ _ _ _ He Hr (Ha He)) as Hst. unfold at_stages in Hst.
  rewrite Forall_forall in Hok, Hst |- *. intros r Hin. destruct (Hst r Hin) as (l & Hl & Hl').
  specialize (Hok r Hin). unfold stages_of, trace_ok in *. destruct (trace r) as [ts|]; [|done]. injection Hl as <-. eauto.
Qed.

(** A page is ranked.  With directory saturation on, as it is by default, the rows
    of a page whose ranking holds no NaN are in descending order of score, so the
    relevance cliff is computed on scores in the order its definition assumes. *)
Theorem search_page_ranked emb rr req c c' page
    (Hs : search_page emb rr req c = (c', Ok page)) (Hd : dir_saturation_enabled = true) :
  ∃ ranked n, results page = take n (drop (N.to_nat (offset_of req)) ranked)
    ∧ (no_nan ranked → descending ranked ∧ descending (results page)).
Proof using Type.
  destruct (search_page_inv _ _ _ _ _ _ Hs) as (known & overfetch & f & cands & inj & ranked & c1 & Hf & Hi & Hr & Hp & ->).
  destruct (page_of_results req (fallback_reason f) ranked) as (n & Hres & Hn). exists ranked, n. split; [done|].
  intros Hnn. assert (descending ranked) as Hdesc.
  { unfold rank_rows in Hr. apply bind_Ok in Hr as (c2 & rs1 & _ & Hr). apply bind_Ok in Hr as (c3 & rs2 & _ & Hr).
    apply ret_Ok in Hr as [Hr _]. by eapply after_rerank_descending. }
  split; [done|]. rewrite Hres. unfold descending in *. rewrite <- firstn_map, <- skipn_map.
  rewrite <- (take_drop (N.to_nat (offset_of req)) (map score ranked)) in Hdesc. apply StronglySorted_app_1_r in Hdesc.
  rewrite <- (take_drop n (drop _ _)) in Hdesc. by apply StronglySorted_app_1_l in Hdesc.
Qed.


(** What a failing part costs.  A stopped request is an error of the reranker's
    caller, never a degraded ranking; any other failure of the reranker leaves rows,
    order and scores as they were; a failing lexical lookup leaves exactly the dense
    candidates, unfused, and says why; a failing gate runs no lexical lookup. *)
Theorem search_failures rerank q w rs e req fetch rows :
  (rs ≠ [] → rerank q (map content rs) = Err e →
   apply_reranking rerank q w rs =
     if work_stopped e then Err e
     else Ok (finish_trace_stage "rerank_blend" "Cross-encoder failed; retained pre-rerank score" rs))
  ∧ map score (finish_trace_stage "rerank_blend" "Cross-encoder failed; retained pre-rerank score" rs) = map score rs
  ∧ (hybrid_gate (query req) = true → build_fts_match_query (query req) ≠ [] → qualified_groups_enabled = false →
     search_bm25 (build_fts_match_query (query req)) fetch (option_map (map as_str) (req_languages req)) (req_paths req) = Err e →
     fusion_rows (lexical req fetch rows) = rows ∧ fused (lexical req fetch rows) = false
     ∧ ∃ why, fallback_reason (lexical req fetch rows) = Some why ∧ args why = [AText (message e)])
  ∧ (query_has_rare_literal token_doc_frequency (query req) = Err e → hybrid_mode = Gated →
     fusion_rows (lexical req fetch rows) = rows ∧ fallback_reason (lexical req fetch rows) = None).
Proof using Type.
  split_and!.
  - intros Hne Hr. unfold apply_reranking. destruct rs as [|r rs]; [done|]. rewrite Hr. by destruct (work_stopped e).
  - apply finish_scores.
  - intros Hg Hq Hgr Hb. unfold lexical. rewrite Hg, Hgr. cbn [negb]. rewrite Hb.
    destruct (bytes_eqb_spec (build_fts_match_query (query req)) []); [done|]. cbn. eauto.
  - intros Hg Hm. unfold lexical, hybrid_gate. rewrite Hm, Hg. done.
Qed.

(** A mention lifts few rows, and lowers none.  The anchored rows are rows of the
    window that match a mention, at most five, at most three of a file, of at most four
    files, none twice; the stage reorders the rows, keeps every other row as it is,
    gives an anchored row a score no lower than it had, and does nothing on a later
    page. *)
Theorem mention_anchor_bounded q scan offset enabled rs :
  ∃ window idxs mid, window `prefix_of` rs ∧ within_caps window (mentioned_at window (extract_query_mentions q)) idxs
    ∧ (enabled = false ∨ offset ≠ 0%N → idxs = [])
    ∧ apply_mention_anchor q scan offset enabled rs ≡ₚ mid ∧ length mid = length rs
    ∧ ∀ i r, rs !! i = Some r → ∃ r', mid !! i = Some r' ∧ ident r' = ident r ∧ (i ∉ idxs → r' = r)
        ∧ (score r' = score r ∨ fltb (score r) (score r') = true).
Proof using Type.
  assert (∀ window, within_caps window (mentioned_at window (extract_query_mentions q)) []) as Hnil.
  { intros window. pose proof (anchors_ok window []) as (_ & _ & _ & _ & _). split_and!; try constructor; cbn.
    - unfold MENTION_MAX_ANCHORED. lia.
    - intros. lia.
    - rewrite size_empty. unfold MENTION_MAX_FILES. lia. }
  assert (apply_mention_anchor q scan offset enabled rs = rs → ∃ window idxs mid, window `prefix_of` rs
    ∧ within_caps window (mentioned_at window (extract_query_mentions q)) idxs ∧ (enabled = false ∨ offset ≠ 0%N → idxs = [])
    ∧ apply_mention_anchor q scan offset enabled rs ≡ₚ mid ∧ length mid = length rs
    ∧ ∀ i r, rs !! i = Some r → ∃ r', mid !! i = Some r' ∧ ident r' = ident r ∧ (i ∉ idxs → r' = r)
        ∧ (score r' = score r ∨ fltb (score r) (score r') = true)) as Hid.
  { intros E'. exists [], [], rs. rewrite E'. split_and!; [apply prefix_nil|apply Hnil|done|done|done|]. intros i r Hr. exists r. auto. }
  unfold apply_mention_anchor in *. destruct (_ || _) eqn:Hoff; [by apply Hid|].
  destruct (extract_query_mentions q) as [|m ms]; [by apply Hid|]. destruct (take _ rs) as [|w ws] eqn:Ew; [by apply Hid|].
  destruct (anchors (w :: ws) (m :: ms)) as [|i ks] eqn:Ea; [by apply Hid|].
  pose proof (anchors_ok (w :: ws) (m :: ms)) as Hcaps. rewrite Ea in Hcaps.
  assert (NoDup (sort_indices (i :: ks))) as Hn by (rewrite sort_indices_perm; apply Hcaps).
  destruct (lift_loop_spec (max_score F32_MIN (w :: ws)) 0 _ rs Hn) as [Hlen Hl].
  exists (w :: ws), (i :: ks), (lift_loop (max_score F32_MIN (w :: ws)) 0 (sort_indices (i :: ks)) rs).1.
  split_and!; [rewrite <- Ew; apply prefix_take|done| | |done|].
  - intros Hor. exfalso. apply orb_false_iff in Hoff as [[H1%negb_false_iff H2%negb_false_iff]%orb_false_iff _].
    apply N.eqb_eq in H2. destruct Hor; congruence.
  - destruct (lift_loop _ _ _ rs) as [rs' []]; cbn [fst]; [apply sort_by_perm|done].
  - intros j r Hr. rewrite Hl, Hr. destruct (list_find (eq j) (sort_indices (i :: ks))) as [[k x]|] eqn:Ef.
    + cbn. eexists. split; [done|]. split_and!.
      * unfold lift_row, record_score, push_trace, set_trace. destruct (fltb _ _); cbn; by destruct (trace r).
      * intros Hno. exfalso. apply Hno. apply list_find_Some in Ef as (Hx & <- & _). apply list_elem_of_lookup_2 in Hx.
        by rewrite sort_indices_perm in Hx.
      * rewrite lift_row_score. destruct (fltb (score r) _) eqn:Hlt; auto.
    + exists r. split_and!; auto.
Qed.
End properties.

(** ** The cliff and fusion *)

Section cliff.

(** C8. Fusion ranks every region once, by its reciprocal-rank score.  The merged rows
    are distinct regions, at most [limit]; each records the score its ranks in the two
    lists give (weight 1 dense, 2 lexical, over 60 plus the rank) and shows its first
    row; they are in descending order of that score, and a region left out means that
    the limit is full of regions that score no less, whatever order the hash table
    iterates in. *)
Theorem rrf_merge_ranks {H : HashOrder} (HL : HashOrderLaws H) semantic bm25 limit :
  let rows := rrf_merge semantic bm25 limit in
  NoDup (map row_key rows) ∧ length rows ≤ N.to_nat limit
  ∧ (∀ r, r ∈ rows → ∃ s, fused_score (retrieval r) = Some s ∧ rrf_score semantic bm25 (row_key r) = Some s
       ∧ ∃ r0, first_row (semantic ++ bm25) (row_key r) = Some r0 ∧ raw_ident r = raw_ident r0)
  ∧ StronglySorted fused_ge rows
  ∧ (∀ c, c ∈ semantic ++ bm25 → row_key c ∉ map row_key rows →
       length rows = N.to_nat limit
       ∧ ∀ r s t, r ∈ rows → fused_score (retrieval r) = Some s → rrf_score semantic bm25 (row_key c) = Some t → scores_ge s t).
Proof using Type. apply rrf_ok. Qed.
End cliff.

(** ** Instances *)

Import Small.

Lemma process_laws : process_ok.
Proof. by constructor. Qed.

Lemma no_caches_ok : caches_ok no_caches.
Proof.
  split; [split|]; cbn [patterns stems no_caches].
  - by intros s re ?%lookup_empty_Some.
  - rewrite map_size_empty. lia.
  - by intros key idx token ?%lookup_empty_Some.
Qed.

Lemma warm_caches_ok : caches_ok warm_caches.
Proof.
  split; [split|]; cbn [patterns stems warm_caches].
  - by intros s re [<- <-]%lookup_singleton_Some.
  - rewrite map_size_singleton. unfold DEFINITION_PATTERN_CACHE_CAP. lia.
  - by intros key idx token ?%lookup_empty_Some.
Qed.

(** What the small page shows: the definition first, and its test demoted off the page,
    although the test is nearer. *)
Definition shown (p : Caches * result SearchResults) : option (list (bytes * N)) :=
  match p.2 with Ok page => Some (map (λ r, (sr_path r, start_line r)) (results page)) | Err _ => None end.

Lemma shown_found p l : shown p = Some l → ∃ c' pg, p = (c', Ok pg).
Proof. destruct p as [c [pg|e]]; [eauto|done]. Qed.

Example small_page : shown (page "where is open_db") = Some [(bs "src/db.rs", 1%N); (bs "src/db.rs", 20%N)].
Proof. by vm_compute. Qed.

Lemma small_found : ∃ c' p, page "where is open_db" = (c', Ok p).
Proof.
  exact (shown_found _ _ small_page).
Qed.

Lemma search_page_sound_witness :
  match (page "where is open_db").2 with
  | Ok p => Forall (answers [] (request "where is open_db")) (results p) ∧ length (results p) ≤ 2
  | Err _ => False
  end.
Proof.
  destruct small_found as (c' & p & Ep). rewrite Ep.
  exact (search_page_sound [] None (request "where is open_db") no_caches c' p Ep).
Defined.

Lemma explanation_accounts_witness :
  match (page "where is open_db").2 with
  | Ok p => Forall (λ r, ∃ ts, trace r = Some ts ∧ chained None ts (score r) ∧ map stage ts ∈ TRACES) (results p)
  | Err _ => False
  end.
Proof.
  destruct small_found as (c' & p & Ep). rewrite Ep.
  exact (explanation_accounts [] None (request "where is open_db") no_caches c' p Ep eq_refl).
Defined.

Lemma search_page_ranked_witness :
  match (page "where is open_db").2 with
  | Ok p => ∃ ranked n, results p = take n (drop 0 ranked) ∧ (no_nan ranked → descending ranked ∧ descending (results p))
  | Err _ => False
  end.
Proof.
  destruct small_found as (c' & p & Ep). rewrite Ep.
  exact (search_page_ranked [] None (request "where is open_db") no_caches c' p Ep eq_refl).
Defined.


(** A stopped reranker, and one that fails of itself. *)
Lemma search_failures_witness :
  let rows := map (λ r, admitted true (not_fused chunks (plain "Lexical off")) (0, r)) chunks in
  let stop := {| message := bs "stopped"; work_stopped := true |} in
  apply_reranking (λ _ _, Err stop) (bs "open_db") (Some f32_one) rows = Err stop.
Proof.
  intros rows stop.
  exact (proj1 (search_failures (λ _ _, Err stop) (bs "open_db") (Some f32_one) rows stop (request "open_db") 10 [])
    ltac:(discriminate) eq_refl).
Defined.

Lemma rrf_merge_ranks_witness : length (rrf_merge chunks (take 1 chunks) 3) ≤ 3.
Proof. exact (proj1 (proj2 (rrf_merge_ranks order_laws chunks (take 1 chunks) 3))). Defined.
