(* ===== verification/GitLog.v ===== *)
(** * GitLog: reading [git log]

    Models [parse_log] of [src/crates/graph/src/git_history/indexer.rs] and
    [normalized_author] of [git_history/bus_factor.rs], the classification of commit
    subjects, and what [git log --numstat -z] prints ([print_log]).  The skipped counts
    that [parse_log] only writes to a warning are kept in its state. *)
From stdpp Require Import base list.
From S2P Require Import Prelude Text Unicode.
From Stdlib Require Import Lia ZArith NArith.
Local Open Scope byte_scope.
Local Open Scope codesage_scope.

Abbreviation TAB := x09 (only parsing).
Abbreviation NUL := x00 (only parsing).
Abbreviation UNIT_SEP := x1f (only parsing).

(** ** Fields *)

(** [s.splitn(n, c)]. *)
Fixpoint splitn (n : nat) (c : byte) (s : bytes) : list bytes :=
  match n with
  | 0 => []
  | 1 => [s]
  | S n => match split_once c s with Some (a, b) => a :: splitn n c b | None => [s] end
  end.

(** [str::parse] of unsigned integers below [bound]. *)
Definition parse_unsigned (bound : N) (s : bytes) : option N :=
  let digits := default s (strip_prefix (bs "+") s) in
  if negb (bytes_eqb digits []) && forallb is_ascii_digit digits && (dec_value digits <? bound)%N
  then Some (dec_value digits) else None.

(** [str::parse::<i64>]. *)
Definition parse_i64 (s : bytes) : option Z :=
  match strip_prefix (bs "-") s with
  | Some digits =>
      if negb (bytes_eqb digits []) && forallb is_ascii_digit digits && (dec_value digits <=? 2 ^ 63)%N
      then Some (- Z.of_N (dec_value digits))%Z else None
  | None => n ← parse_unsigned (2 ^ 63) s; Some (Z.of_N n)
  end.

(** ** Commits *)

Record FileChange := mkChange { path : bytes; added : N; deleted : N }.

Record Commit := mkCommit {
  sha : bytes;
  author : bytes;
  timestamp : Z;
  subject : bytes;
  changes : list FileChange;
  renames : list (bytes * bytes) }.

Definition normalized_author {U : Unicode} (email name : bytes) : option bytes :=
  let email := to_lowercase (trim email) in
  if negb (bytes_eqb email []) then Some (bs "email:" ++ email)
  else
    let name := join_with SP (split_whitespace name) in
    if negb (bytes_eqb name []) then Some (bs "name:" ++ to_lowercase name) else None.

(** Numstat's added-lines field. *)
Definition is_numstat_count (field : bytes) : bool :=
  bytes_eqb field (bs "-") || negb (bytes_eqb field []) && forallb is_ascii_digit field.

(** A record that is neither a header nor a numstat line, up to 120 characters of it. *)
Inductive LogError := InjectedRecord (excerpt : bytes).

Record Reading := mkReading {
  commits : list Commit;
  current : option Commit;
  skipped_commits : nat;
  skipped_changes : nat;
  skipped_shas : list bytes }.

Definition take_current (r : Reading) : list Commit :=
  match current r with Some c => commits r ++ [c] | None => commits r end.

Section parse.
Context {U : Unicode}.

(** [commit\t..]: the current commit ends, and the next begins unless its time is
    malformed. *)
Definition read_header (rest : bytes) (r : Reading) : Reading :=
  let done := take_current r in
  let parts := splitn 3 TAB rest in
  let sha := default [] (parts !! 0) in
  match s ← parts !! 1; parse_i64 s with
  | None =>
      mkReading done None (S (skipped_commits r)) (skipped_changes r)
        (if (length (skipped_shas r) <? 20) && negb (bytes_eqb sha []) then skipped_shas r ++ [sha] else skipped_shas r)
  | Some ts =>
      let remaining := default [] (parts !! 2) in
      let '(author, subject) :=
        match splitn 3 UNIT_SEP remaining with
        | [email; name; subject] => (default [] (normalized_author email name), subject)
        | _ => ([], remaining)
        end in
      mkReading done (Some (mkCommit sha author ts subject [] [])) (skipped_commits r) (skipped_changes r) (skipped_shas r)
  end.

Definition with_current (c : Commit) (r : Reading) : Reading :=
  mkReading (commits r) (Some c) (skipped_commits r) (skipped_changes r) (skipped_shas r).

Definition push_rename (old new : bytes) (c : Commit) : Commit :=
  mkCommit (sha c) (author c) (timestamp c) (subject c) (changes c) (renames c ++ [(old, new)]).

Definition push_change (x : FileChange) (c : Commit) : Commit :=
  mkCommit (sha c) (author c) (timestamp c) (subject c) (changes c ++ [x]) (renames c).

Definition skip_change (r : Reading) : Reading :=
  mkReading (commits r) (current r) (skipped_commits r) (S (skipped_changes r)) (skipped_shas r).

(** A numstat record of the current commit, its path and the path it was renamed from. *)
Definition read_numstat (added_s deleted_s path : bytes) (renamed_from : option bytes) (r : Reading) : Reading :=
  match current r with
  | None => r
  | Some c =>
      let c := match renamed_from with
        | Some old => if negb (bytes_eqb old []) && negb (bytes_eqb path []) then push_rename old path c else c
        | None => c
        end in
      let r := with_current c r in
      if bytes_eqb path [] || bytes_eqb added_s (bs "-") || bytes_eqb deleted_s (bs "-") then r
      else match parse_unsigned u32_bound added_s, parse_unsigned u32_bound deleted_s with
           | Some a, Some d => with_current (push_change (mkChange path a d) c) r
           | _, _ => skip_change r
           end
  end.

Fixpoint read_records (records : list bytes) (r : Reading) : LogError + Reading :=
  match records with
  | [] => inr r
  | record :: records =>
      let line := drop (count_while (Byte.eqb LF) record) record in
      match strip_prefix (bs "commit" ++ [TAB]) line with
      | Some rest => read_records records (read_header rest r)
      | None =>
          if bytes_eqb line [] then read_records records r
          else
            let parts := splitn 3 TAB line in
            let added_s := default (bs "-") (parts !! 0) in
            let deleted_s := default (bs "-") (parts !! 1) in
            if negb (is_numstat_count added_s) then inl (InjectedRecord (concat (take 120 (chars line))))
            else
              match parts !! 2 with
              | None => read_records records r
              | Some [] =>
                  match records with
                  | old :: new :: records => read_records records (read_numstat added_s deleted_s new (Some old) r)
                  | _ => inr r
                  end
              | Some path => read_records records (read_numstat added_s deleted_s path None r)
              end
      end
  end.

Definition parse_log (raw : bytes) : LogError + list Commit :=
  match read_records (split_on NUL raw) (mkReading [] None 0 0 []) with
  | inl e => inl e
  | inr r => inr (take_current r)
  end.
End parse.

(** ** Subjects *)

Definition starts_any (words : list string) (s : bytes) : bool := existsb (λ w, starts_with (bs w) s) words.
Definition contains_any (words : list string) (s : bytes) : bool := existsb (λ w, contains (bs w) s) words.

Definition is_fix_commit (subject : bytes) : bool :=
  let s := map to_ascii_lowercase subject in
  starts_any ["fix:"; "fix("; "bugfix:"; "hotfix:"]%string s
  || contains_any [" fix "; " fixes "; "fixes #"; "fixes gh-"; "closes #"]%string s.

Definition soft_skip (subject : bytes) : bool :=
  let s := map to_ascii_lowercase subject in
  if negb (starts_any ["chore:"; "chore("; "build:"; "build("; "ci:"; "style:"; "docs:"]%string s) then false
  else negb (contains_any ["migrate"; "refactor"; "adopt"; "deprecate"; "upgrade"]%string s).

(** ** What git prints

    [--pretty=format:commit%x09%H%x09%ct%x09%ae%x1f%an%x1f%s%x00 --numstat -z]: NUL
    ends every field, a line feed precedes the first numstat line, and a rename leaves
    the path of its line empty and appends both paths. *)
Record Stat := mkStat { counts : option (N * N); target : bytes; origin : option bytes }.

Record LogCommit := mkLogCommit {
  l_sha : bytes;
  l_time : Z;
  l_email : bytes;
  l_name : bytes;
  l_subject : bytes;
  l_stats : list Stat }.

Definition show_i64 (z : Z) : bytes :=
  if (z <? 0)%Z then bs "-" ++ show_u64 (Z.to_N (- z)) else show_u64 (Z.to_N z).

Definition header_record (c : LogCommit) : bytes :=
  bs "commit" ++ [TAB] ++ l_sha c ++ [TAB] ++ show_i64 (l_time c) ++ [TAB]
  ++ l_email c ++ [UNIT_SEP] ++ l_name c ++ [UNIT_SEP] ++ l_subject c.

Definition counts_text (s : Stat) : bytes :=
  match counts s with
  | Some (a, d) => show_u32 a ++ [TAB] ++ show_u32 d ++ [TAB]
  | None => bs "-" ++ [TAB] ++ bs "-" ++ [TAB]
  end.

Definition stat_records (lead : bytes) (s : Stat) : list bytes :=
  match origin s with
  | None => [lead ++ counts_text s ++ target s]
  | Some old => [lead ++ counts_text s; old; target s]
  end.

Definition stats_records (l : list Stat) : list bytes :=
  match l with
  | [] => []
  | s :: l => stat_records [LF] s ++ concat (map (stat_records []) l)
  end.

Definition commit_records (c : LogCommit) : list bytes := header_record c :: stats_records (l_stats c) ++ [[]].

Definition log_records (cs : list LogCommit) : list bytes := concat (map commit_records cs).

Definition print_log (cs : list LogCommit) : bytes := join_with NUL (log_records cs).

(** What a commit is read as: binary changes carry no counts and only their renames
    matter. *)
Definition change_of (s : Stat) : option FileChange := option_map (λ p, mkChange (target s) p.1 p.2) (counts s).
Definition rename_of (s : Stat) : option (bytes * bytes) := option_map (λ old, (old, target s)) (origin s).

Definition commit_of {U : Unicode} (c : LogCommit) : Commit :=
  mkCommit (l_sha c) (default [] (normalized_author (l_email c) (l_name c))) (l_time c) (l_subject c)
    (omap change_of (l_stats c)) (omap rename_of (l_stats c)).

(** The text git can put in each field. *)
Record stat_ok (s : Stat) : Prop := {
  ok_counts a d : counts s = Some (a, d) → ((a < u32_bound) ∧ (d < u32_bound))%N;
  ok_target : target s ≠ [] ∧ NUL ∉ target s;
  ok_origin old : origin s = Some old → old ≠ [] ∧ NUL ∉ old }.

Record commit_ok (c : LogCommit) : Prop := {
  ok_sha : (NUL ∉ l_sha c) ∧ (TAB ∉ l_sha c);
  ok_time : (- 2 ^ 63 <= l_time c < 2 ^ 63)%Z;
  ok_email : (NUL ∉ l_email c) ∧ (UNIT_SEP ∉ l_email c);
  ok_author : (NUL ∉ l_name c) ∧ (UNIT_SEP ∉ l_name c);
  ok_subject : NUL ∉ l_subject c;
  ok_stats : Forall stat_ok (l_stats c) }.

(** ** Proofs *)

Lemma parse_unsigned_digits bound s :
  s ≠ [] → Forall (λ b, is_ascii_digit b = true) s → (dec_value s < bound)%N → parse_unsigned bound s = Some (dec_value s).
Proof.
  intros Hne Hd Hv. unfold parse_unsigned. assert (strip_prefix (bs "+") s = None) as ->.
  { destruct (strip_prefix (bs "+") s) as [r|] eqn:E; [|done]. apply strip_prefix_Some in E as ->. cbn in Hd. by apply Forall_cons in Hd as [? _]. }
  cbn [default]. destruct (bytes_eqb_spec s []); [done|]. assert (forallb is_ascii_digit s = true) as ->.
  { apply forallb_forall. rewrite Forall_forall in Hd. intros x Hx. apply Hd. by apply list_elem_of_In. }
  cbn. by rewrite (proj2 (N.ltb_lt _ _)).
Qed.

Lemma show_loop_nonempty n v : show_loop (S n) v ≠ [].
Proof. cbn [show_loop]. destruct (v <? 10)%N; [done|]. intros H. by apply app_eq_nil in H as [_ ?]. Qed.

Lemma show_u64_value v : (v < 10 ^ 20)%N → dec_value (show_u64 v) = v.
Proof. intros H. by apply (show_loop_value 20). Qed.

Lemma parse_unsigned_u64 bound v : (v < bound)%N → (bound <= 10 ^ 20)%N → parse_unsigned bound (show_u64 v) = Some v.
Proof.
  intros Hv Hb. assert (dec_value (show_u64 v) = v) as E by (apply show_u64_value; lia).
  rewrite parse_unsigned_digits; [by rewrite E|apply show_loop_nonempty|apply show_loop_digits|by rewrite E].
Qed.

Lemma parse_unsigned_u32 v : (v < u32_bound)%N → parse_unsigned u32_bound (show_u32 v) = Some v.
Proof.
  intros Hv. assert (dec_value (show_u32 v) = v) as E by (apply show_loop_value; unfold u32_bound, U32_DIGITS in *; simpl; lia).
  rewrite parse_unsigned_digits; [by rewrite E|apply show_u32_nonempty|apply show_u32_digits|by rewrite E].
Qed.

Lemma parse_show_i64 z : (- 2 ^ 63 <= z < 2 ^ 63)%Z → parse_i64 (show_i64 z) = Some z.
Proof.
  intros Hz. unfold parse_i64, show_i64. destruct (Z.ltb_spec z 0).
  - rewrite strip_prefix_app. assert (dec_value (show_u64 (Z.to_N (- z))) = Z.to_N (- z)) as -> by (apply show_u64_value; lia).
    destruct (bytes_eqb_spec (show_u64 (Z.to_N (- z))) []) as [E|_]; [by apply show_loop_nonempty in E|].
    assert (forallb is_ascii_digit (show_u64 (Z.to_N (- z))) = true) as ->.
    { apply forallb_forall. intros x Hx. pose proof (show_loop_digits 20 (Z.to_N (- z))) as Hd. rewrite Forall_forall in Hd.
      apply Hd. by apply list_elem_of_In. }
    cbn [negb andb]. rewrite (proj2 (N.leb_le _ _)) by lia. f_equal. lia.
  - assert (strip_prefix (bs "-") (show_u64 (Z.to_N z)) = None) as ->.
    { destruct (strip_prefix (bs "-") (show_u64 (Z.to_N z))) as [r|] eqn:E; [|done]. apply strip_prefix_Some in E.
      pose proof (show_loop_digits 20 (Z.to_N z)) as Hd. change (show_loop 20 (Z.to_N z)) with (show_u64 (Z.to_N z)) in Hd.
      rewrite E in Hd. by apply Forall_cons in Hd as [? _]. }
    rewrite parse_unsigned_u64 by lia. cbn. f_equal. lia.
Qed.

Lemma show_i64_lacks b z : is_ascii_digit b = false → b ≠ "-" → b ∉ show_i64 z.
Proof.
  intros Hb Hm. unfold show_i64. destruct (z <? 0)%Z; [|by apply digits_lack, show_loop_digits].
  rewrite elem_of_app. intros [H|H]; [by apply list_elem_of_singleton in H|]. revert H. by apply digits_lack, show_loop_digits.
Qed.

Lemma splitn_cut n c a b : c ∉ a → splitn (S (S n)) c (a ++ c :: b) = a :: splitn (S n) c b.
Proof. intros H. cbn [splitn]. by rewrite split_once_app. Qed.

Lemma count_text_lacks b v : is_ascii_digit b = false → b ∉ show_u32 v.
Proof. intros Hb. by apply digits_lack, show_u32_digits. Qed.

Section reading.
Context {U : Unicode}.

Lemma read_header_record c r records : commit_ok c →
  read_records (header_record c :: records) r
  = read_records records (mkReading (take_current r)
      (Some (mkCommit (l_sha c) (default [] (normalized_author (l_email c) (l_name c))) (l_time c) (l_subject c) [] []))
      (skipped_commits r) (skipped_changes r) (skipped_shas r)).
Proof.
  intros [[_ Hsha] Htime [_ Hemail] [_ Hname] _ _]. unfold header_record.
  set (rest := l_sha c ++ [TAB] ++ show_i64 (l_time c) ++ [TAB] ++ l_email c ++ [UNIT_SEP] ++ l_name c ++ [UNIT_SEP] ++ l_subject c).
  change (read_records ((bs "commit" ++ [TAB] ++ rest) :: records) r = read_records records
    (mkReading (take_current r) (Some (mkCommit (l_sha c) (default [] (normalized_author (l_email c) (l_name c))) (l_time c) (l_subject c) [] []))
      (skipped_commits r) (skipped_changes r) (skipped_shas r))).
  rewrite app_assoc. cbn [read_records]. change (count_while (Byte.eqb LF) ((bs "commit" ++ [TAB]) ++ rest)) with 0. rewrite drop_0.
  rewrite strip_prefix_app. f_equal. unfold read_header.
  assert (splitn 3 TAB rest = [l_sha c; show_i64 (l_time c); l_email c ++ [UNIT_SEP] ++ l_name c ++ [UNIT_SEP] ++ l_subject c]) as ->.
  { unfold rest. cbn [app]. rewrite splitn_cut by done. f_equal. by rewrite splitn_cut by by apply show_i64_lacks. }
  change (match parse_i64 (show_i64 (l_time c)) with
    | None => mkReading (take_current r) None (S (skipped_commits r)) (skipped_changes r)
        (if (length (skipped_shas r) <? 20) && negb (bytes_eqb (l_sha c) []) then skipped_shas r ++ [l_sha c] else skipped_shas r)
    | Some ts => let '(a, s) := match splitn 3 UNIT_SEP (l_email c ++ [UNIT_SEP] ++ l_name c ++ [UNIT_SEP] ++ l_subject c) with
        | [email; name; subject] => (default [] (normalized_author email name), subject)
        | _ => ([], l_email c ++ [UNIT_SEP] ++ l_name c ++ [UNIT_SEP] ++ l_subject c)
        end in mkReading (take_current r) (Some (mkCommit (l_sha c) a ts s [] [])) (skipped_commits r) (skipped_changes r) (skipped_shas r)
    end = mkReading (take_current r) (Some (mkCommit (l_sha c) (default [] (normalized_author (l_email c) (l_name c))) (l_time c) (l_subject c) [] []))
      (skipped_commits r) (skipped_changes r) (skipped_shas r)).
  rewrite parse_show_i64 by done.
  assert (splitn 3 UNIT_SEP (l_email c ++ [UNIT_SEP] ++ l_name c ++ [UNIT_SEP] ++ l_subject c) = [l_email c; l_name c; l_subject c]) as ->.
  { cbn [app]. rewrite splitn_cut by done. f_equal. by rewrite splitn_cut by done. }
  done.
Qed.

(** The fields of a numstat line. *)
Lemma counts_fields s p : stat_ok s →
  ∃ a d, splitn 3 TAB (counts_text s ++ p) = [a; d; p] ∧ is_numstat_count a = true
    ∧ (∃ b t, counts_text s = b :: t ∧ b ≠ LF ∧ b ≠ "c")
    ∧ match counts s with
      | Some (x, y) => parse_unsigned u32_bound a = Some x ∧ parse_unsigned u32_bound d = Some y
          ∧ bytes_eqb a (bs "-") = false ∧ bytes_eqb d (bs "-") = false
      | None => bytes_eqb a (bs "-") = true
      end.
Proof.
  intros Hs. unfold counts_text. destruct (counts s) as [[x y]|] eqn:E.
  - destruct (ok_counts s Hs x y E) as [Hx Hy]. exists (show_u32 x), (show_u32 y).
    assert (∀ v, bytes_eqb (show_u32 v) (bs "-") = false) as Hdash.
    { intros v. destruct (bytes_eqb_spec (show_u32 v) (bs "-")) as [Ev|]; [|done]. pose proof (show_u32_digits v) as Hd. rewrite Ev in Hd.
      by apply Forall_cons in Hd as [? _]. }
    split_and!; [|unfold is_numstat_count| |by apply parse_unsigned_u32|by apply parse_unsigned_u32|done|done].
    + rewrite <- !app_assoc. cbn [app]. rewrite splitn_cut by by apply count_text_lacks.
      f_equal. by rewrite splitn_cut by by apply count_text_lacks.
    + rewrite Hdash. destruct (bytes_eqb_spec (show_u32 x) []) as [Ex|_]; [by apply show_u32_nonempty in Ex|].
      cbn. apply forallb_forall. intros b Hb. pose proof (show_u32_digits x) as Hd. rewrite Forall_forall in Hd. apply Hd. by apply list_elem_of_In.
    + pose proof (show_u32_digits x) as Hd. destruct (show_u32 x) as [|b t] eqn:Ex; [by apply show_u32_nonempty in Ex|].
      apply Forall_cons in Hd as [Hb _]. eexists b, _. split; [done|]. by split; intros ->.
  - exists (bs "-"), (bs "-"). split_and!; [done|done| |done]. by eexists _, _.
Qed.

(** One numstat record, whatever line feeds lead it. *)
Lemma read_stat s lead r c records :
  stat_ok s → lead = [] ∨ lead = [LF] → current r = Some c →
  read_records (stat_records lead s ++ records) r
  = read_records records (with_current (mkCommit (sha c) (author c) (timestamp c) (subject c)
      (changes c ++ option_list (change_of s)) (renames c ++ option_list (rename_of s))) r).
Proof.
  intros Hs Hlead Hc. pose proof (ok_target s Hs) as [Ht _].
  assert (∀ p, drop (count_while (Byte.eqb LF) (lead ++ counts_text s ++ p)) (lead ++ counts_text s ++ p) = counts_text s ++ p
    ∧ strip_prefix (bs "commit" ++ [TAB]) (counts_text s ++ p) = None ∧ bytes_eqb (counts_text s ++ p) [] = false) as Hline.
  { intros p. destruct (counts_fields s p Hs) as (_ & _ & _ & _ & (b & t & -> & Hlf & Hcm) & _).
    assert (Byte.eqb LF b = false) as Hb by (apply beq_false; congruence). split_and!.
    - destruct Hlead as [-> | ->]; cbn [app count_while]; rewrite ?beq_refl, Hb; done.
    - destruct (strip_prefix _ _) as [q|] eqn:E; [|done]. apply strip_prefix_Some in E. cbn in E. congruence.
    - done. }
  unfold stat_records. destruct (origin s) as [old|] eqn:Eo.
  - destruct (ok_origin s Hs old Eo) as [Hold _]. cbn [app read_records]. destruct (Hline []) as (Hd & Hp & He). rewrite app_nil_r in Hd, Hp, He.
    rewrite Hd, Hp, He. destruct (counts_fields s [] Hs) as (a & d & Hsp & Ha & _ & Hcase). rewrite app_nil_r in Hsp. rewrite Hsp.
    change (default (bs "-") ([a; d; []] !! 0)) with a. change (default (bs "-") ([a; d; []] !! 1)) with d.
    change ([a; d; []] !! 2) with (Some ([] : bytes)). rewrite Ha. cbn [negb]. f_equal. unfold read_numstat. rewrite Hc.
    destruct (bytes_eqb_spec old []); [done|]. destruct (bytes_eqb_spec (target s) []); [done|]. cbn [negb andb orb].
    unfold change_of, rename_of. rewrite Eo. destruct (counts s) as [[x y]|].
    + destruct Hcase as (-> & -> & -> & ->). done.
    + rewrite Hcase. cbn. by rewrite app_nil_r.
  - cbn [app read_records]. destruct (Hline (target s)) as (Hd & Hp & He). rewrite Hd, Hp, He.
    destruct (counts_fields s (target s) Hs) as (a & d & -> & Ha & _ & Hcase).
    change (default (bs "-") ([a; d; target s] !! 0)) with a. change (default (bs "-") ([a; d; target s] !! 1)) with d.
    change ([a; d; target s] !! 2) with (Some (target s)). rewrite Ha. cbn [negb]. destruct (target s) as [|b t] eqn:Et; [done|]. f_equal. unfold read_numstat. rewrite Hc. cbn [bytes_eqb orb].
    unfold change_of, rename_of. rewrite Eo, Et. cbn [option_map option_list]. rewrite app_nil_r. destruct (counts s) as [[x y]|].
    + destruct Hcase as (-> & -> & -> & ->). done.
    + rewrite Hcase. cbn [orb option_map option_list]. rewrite app_nil_r. by destruct c.
Qed.

Lemma read_stats l r c records :
  Forall stat_ok l → current r = Some c →
  read_records (concat (map (stat_records []) l) ++ records) r
  = read_records records (with_current (mkCommit (sha c) (author c) (timestamp c) (subject c)
      (changes c ++ omap change_of l) (renames c ++ omap rename_of l)) r).
Proof.
  revert r c. induction l as [|s l IH]; intros r c Hl Hc.
  - cbn. rewrite !app_nil_r. destruct r; cbn in *. subst. by destruct c.
  - apply Forall_cons in Hl as [Hs Hl]. cbn [map concat]. rewrite <- app_assoc, (read_stat s [] r c) by (by auto).
    erewrite IH by done. cbn. f_equal. unfold with_current. cbn. rewrite <- !app_assoc.
    assert (∀ B (f : Stat → option B), option_list (f s) ++ omap f l = omap f (s :: l)) as Ho by (intros B f; cbn; by destruct (f s)).
    by rewrite !Ho.
Qed.

Lemma read_commit c r records : commit_ok c →
  read_records (commit_records c ++ records) r
  = read_records records (mkReading (take_current r) (Some (commit_of c)) (skipped_commits r) (skipped_changes r) (skipped_shas r)).
Proof.
  intros Hc. unfold commit_records. cbn [app]. rewrite read_header_record by done. rewrite <- app_assoc.
  set (r' := mkReading _ _ _ _ _).
  assert (∀ r, read_records ([[]] ++ records) r = read_records records r) as Hempty by done.
  destruct (l_stats c) as [|s l] eqn:El; cbn [stats_records].
  - rewrite app_nil_l, Hempty. unfold r', commit_of. by rewrite El.
  - pose proof (ok_stats c Hc) as Hl. rewrite El in Hl. apply Forall_cons in Hl as [Hs Hl].
    rewrite <- app_assoc. erewrite read_stat by (done || by right). erewrite read_stats by done. rewrite Hempty.
    f_equal. unfold r', with_current, commit_of. cbn. rewrite El. cbn. do 3 f_equal; [by destruct (change_of s)|by destruct (rename_of s)].
Qed.

Lemma read_log cs r records : Forall commit_ok cs →
  ∃ r', read_records (log_records cs ++ records) r = read_records records r'
    ∧ take_current r' = take_current r ++ map commit_of cs.
Proof.
  revert r. induction cs as [|c cs IH]; intros r Hcs; [by exists r; rewrite app_nil_r|].
  apply Forall_cons in Hcs as [Hc Hcs]. change (log_records (c :: cs)) with (commit_records c ++ log_records cs). rewrite <- app_assoc, read_commit by done.
  destruct (IH (mkReading (take_current r) (Some (commit_of c)) (skipped_commits r) (skipped_changes r) (skipped_shas r)) Hcs) as (r' & -> & E).
  exists r'. split; [done|]. rewrite E. cbn. by rewrite <- app_assoc.
Qed.
End reading.

Lemma log_records_clean cs : Forall commit_ok cs → Forall (λ r, NUL ∉ r) (log_records cs).
Proof.
  assert (∀ lead s, NUL ∉ lead → stat_ok s → Forall (λ r, NUL ∉ r) (stat_records lead s)) as Hstat.
  { intros lead s Hlead Hs. assert (NUL ∉ counts_text s) as Hc.
    { unfold counts_text. destruct (counts s) as [[a d]|]; [|by apply (bool_decide_unpack _)].
      rewrite !not_elem_of_app. split_and!; (by apply count_text_lacks) || by rewrite not_elem_of_cons; split; [|apply not_elem_of_nil]. }
    pose proof (ok_target s Hs) as [_ Ht]. unfold stat_records. destruct (origin s) as [old|] eqn:Eo.
    - destruct (ok_origin s Hs old Eo) as [_ Hold]. repeat constructor; rewrite ?not_elem_of_app; done.
    - repeat constructor. by rewrite !not_elem_of_app. }
  intros Hcs. unfold log_records. apply Forall_concat, Forall_map. eapply Forall_impl; [exact Hcs|].
  intros c Hc. destruct (ok_sha c Hc) as [Hsha _], (ok_email c Hc) as [Hemail _], (ok_author c Hc) as [Hname _].
  unfold commit_records. constructor; [|apply Forall_app; split; [|by repeat constructor; apply not_elem_of_nil]].
  - unfold header_record. rewrite !not_elem_of_app.
    assert (∀ b : byte, NUL ≠ b → NUL ∉ [b]) as H1 by (intros b Hb; by rewrite not_elem_of_cons; split; [|apply not_elem_of_nil]).
    split_and!; auto; try (by apply show_i64_lacks); [by apply (bool_decide_unpack _)|apply (ok_subject c Hc)].
  - pose proof (ok_stats c Hc) as Hl. destruct (l_stats c) as [|s l]; [constructor|]. apply Forall_cons in Hl as [Hs Hl].
    cbn. apply Forall_app. split; [apply Hstat; [by apply (bool_decide_unpack _)|done]|].
    apply Forall_concat, Forall_map. eapply Forall_impl; [exact Hl|]. intros s' Hs'. apply Hstat; [apply not_elem_of_nil|done].
Qed.

(** A record git prints only when something else writes to its output: no header, and
    no count where a numstat line has one. *)
Definition injected (t : bytes) : Prop :=
  (NUL ∉ t) ∧ head t ≠ Some LF ∧ t ≠ [] ∧ strip_prefix (bs "commit" ++ [TAB]) t = None
  ∧ is_numstat_count (default (bs "-") (head (splitn 3 TAB t))) = false.

Section properties.
Context {U : Unicode}.

Lemma read_print cs more r : Forall commit_ok cs → Forall (λ t, NUL ∉ t) more →
  ∃ r', read_records (split_on NUL (join_with NUL (log_records cs ++ more))) r = read_records more r'
    ∧ take_current r' = take_current r ++ map commit_of cs.
Proof.
  intros Hcs Hmore. destruct (decide (log_records cs ++ more = [])) as [E|Hne].
  - apply app_eq_nil in E as [E ->]. destruct cs as [|c cs]; [|done]. exists r. split; [done|]. cbn. by rewrite app_nil_r.
  - rewrite split_join; [by apply read_log|done|]. apply Forall_app. split; [by apply log_records_clean|done].
Qed.


(** Text injected into the log fails the pass.  Wherever between two commits a line
    appears that is neither a header nor a numstat line, and whatever follows it,
    reading stops with an error that quotes the line, so no commit is hidden and no
    change counted for the commit before. *)
Theorem injected_log_refused cs t more :
  Forall commit_ok cs → injected t → Forall (λ t, NUL ∉ t) more →
  parse_log (join_with NUL (log_records cs ++ t :: more)) = inl (InjectedRecord (concat (take 120 (chars t)))).
Proof.
  intros Hcs (Hnul & Hlf & Hne & Hcommit & Hcount) Hmore. unfold parse_log.
  destruct (read_print cs (t :: more) (mkReading [] None 0 0 []) Hcs) as (r' & -> & _); [by constructor|].
  cbn [read_records]. assert (drop (count_while (Byte.eqb LF) t) t = t) as ->.
  { destruct t as [|b t]; [done|]. assert (Byte.eqb LF b = false) as Hb by (apply beq_false; cbn in Hlf; congruence).
    cbn [count_while]. by rewrite Hb. }
  rewrite Hcommit. destruct (bytes_eqb_spec t []); [done|].
  assert (∀ l : list bytes, l !! 0 = head l) as -> by by intros []. by rewrite Hcount.
Qed.
End properties.

Definition demo_log : list LogCommit := [
  mkLogCommit (bs "c2") 1700000000 (bs " Dev@Example.com") (bs "Dev") (bs "feat: tabs	and all")
    [mkStat (Some (3, 1)%N) (bs "src/new name.rs") (Some (bs "src/old.rs")); mkStat None (bs "logo.png") None];
  mkLogCommit (bs "c1") (-5) [] (bs "A  B") (bs "fix: x") [mkStat (Some (10, 0)%N) (bs "src/old.rs") None] ].

Example demo_parsed : parse_log (print_log demo_log) = inr [
  mkCommit (bs "c2") (bs "email:dev@example.com") 1700000000 (bs "feat: tabs	and all")
    [mkChange (bs "src/new name.rs") 3 1] [(bs "src/old.rs", bs "src/new name.rs")];
  mkCommit (bs "c1") (bs "name:a b") (-5) (bs "fix: x") [mkChange (bs "src/old.rs") 10 0] [] ].
Proof. by vm_compute. Qed.

Lemma demo_log_ok : Forall commit_ok demo_log.
Proof.
  assert (∀ n o p, (∀ a d, n = Some (a, d) → ((a < u32_bound) ∧ (d < u32_bound))%N) → p ≠ [] ∧ (NUL ∉ p) →
    (∀ old, o = Some old → old ≠ [] ∧ (NUL ∉ old)) → stat_ok (mkStat n p o)) as Hs by (by split).
  assert (∀ p, bool_decide (p ≠ [] ∧ (NUL ∉ p)) = true → p ≠ [] ∧ (NUL ∉ p)) as Hp by (by intros p ?%bool_decide_eq_true).
  constructor; [|constructor; [|constructor]]; split; cbn;
    try (split; apply (bool_decide_unpack _); by vm_compute); try (by apply (bool_decide_unpack _)); try lia.
  - constructor; [|constructor; [|constructor]]; apply Hs; try (by intros ? [=]); try (by intros ? ? [=]); try (by apply Hp; vm_compute).
    + by intros ? ? [= <- <-].
    + intros ? [= <-]. by apply Hp; vm_compute.
  - constructor; [|constructor]. apply Hs; [by intros ? ? [= <- <-]|by apply Hp; vm_compute|by intros ? [=]].
Qed.


Lemma injected_log_refused_witness :
  parse_log (join_with NUL (log_records demo_log ++ [bs "No signature"; []])) = inl (InjectedRecord (bs "No signature")).
Proof.
  refine (injected_log_refused demo_log (bs "No signature") [[]] demo_log_ok _ _).
  - split_and!; [by apply (bool_decide_unpack _)|done..].
  - repeat constructor. apply not_elem_of_nil.
Defined.
