(* ===== verification/GitRenames.v ===== *)
(** * GitRenames: the path a change is recorded under

    Models [follow_renames], [merge_same_path], the loop of [remap_dead_paths] and [filter_kept] of
    [src/crates/graph/src/git_history/indexer.rs].  A log lists children before parents;
    every change is keyed to the name its file carries at the newest commit. *)
From stdpp Require Import gmap list.
From S2P Require Import Prelude Text GitLog.
From Stdlib Require Import Lia NArith.
Local Open Scope codesage_scope.

Definition with_changes (l : list FileChange) (c : Commit) : Commit :=
  mkCommit (sha c) (author c) (timestamp c) (subject c) l (renames c).

Definition at_path (p : bytes) (x : FileChange) : FileChange := mkChange p (added x) (deleted x).

(** [u32::saturating_add]. *)
Definition saturating_add (a b : N) : N := (a + b) `min` (u32_bound - 1).

(** ** Merging *)

Definition add_counts (x y : FileChange) : FileChange :=
  mkChange (path y) (saturating_add (added y) (added x)) (saturating_add (deleted y) (deleted x)).

Definition merge_step (acc : list FileChange * gmap bytes nat) (x : FileChange) : list FileChange * gmap bytes nat :=
  let '(merged, slot) := acc in
  match slot !! path x with
  | Some i => (alter (add_counts x) i merged, slot)
  | None => (merged ++ [x], <[path x := length merged]> slot)
  end.

Definition merge_same_path (l : list FileChange) : list FileChange := (foldl merge_step ([], ∅) l).1.

(** ** Following renames *)

Definition current_name (successor : gmap bytes bytes) (p : bytes) : bytes := default p (successor !! p).

Definition move (successor : gmap bytes bytes) (m : bytes * bytes) : gmap bytes bytes :=
  let '(old, now) := m in
  if decide (old = now) then delete old successor else <[old := now]> successor.

Section excludes.
Context (is_excluded : bytes → bool).

Definition keyed_changes (successor : gmap bytes bytes) (l : list FileChange) : list FileChange :=
  merge_same_path (map (λ x, at_path (current_name successor (path x)) x) (List.filter (λ x, negb (is_excluded (path x))) l)).

Definition follow_commit (successor : gmap bytes bytes) (c : Commit) : Commit * gmap bytes bytes :=
  let moves := map (λ r, (r.1, current_name successor r.2)) (renames c) in
  (with_changes (keyed_changes successor (changes c)) c, foldl move successor moves).

Fixpoint follow_loop (successor : gmap bytes bytes) (commits : list Commit) : list Commit * gmap bytes bytes :=
  match commits with
  | [] => ([], successor)
  | c :: commits =>
      let '(c, successor) := follow_commit successor c in
      let '(commits, successor) := follow_loop successor commits in
      (c :: commits, successor)
  end.

Definition follow_renames (commits : list Commit) : list Commit * gmap bytes bytes := follow_loop ∅ commits.

Definition filter_kept (c : Commit) : option (list FileChange) :=
  if soft_skip (subject c) then None
  else
    match List.filter (λ x, negb (is_excluded (path x))) (changes c) with
    | [] => None
    | kept => Some kept
    end.
End excludes.

(** ** Paths HEAD does not hold *)

Section remap.
Context (successor : gmap bytes bytes) (live : gset bytes).

(** [for _ in 0..successor.len()]. *)
Fixpoint follow_live (n : nat) (p : bytes) : bytes :=
  match n with
  | 0 => p
  | S n =>
      match successor !! p with
      | None => p
      | Some next => if decide (next ∈ live) then next else follow_live n next
      end
  end.

Definition remap_change (x : FileChange) : FileChange * bool :=
  if decide (path x ∈ live) then (x, false)
  else
    let p := follow_live (size successor) (path x) in
    if decide (p ∈ live) then (at_path p x, true) else (x, false).

Definition remap_commit (c : Commit) : Commit :=
  let l := map remap_change (changes c) in
  let changes := map fst l in
  with_changes (if existsb snd l then merge_same_path changes else changes) c.
End remap.

(** ** What merging does *)

(** The counts of [p] over a list, saturating at [u32::MAX]. *)
Definition total_of (get : FileChange → N) (p : bytes) (l : list FileChange) : N :=
  foldr (λ x n, saturating_add (get x) n) 0%N (filter (λ x, path x = p) l).

Definition in_u32 (x : FileChange) : Prop := (added x < u32_bound)%N ∧ (deleted x < u32_bound)%N.

Lemma saturating_comm a b : saturating_add a b = saturating_add b a.
Proof. unfold saturating_add. by rewrite N.add_comm. Qed.

Lemma saturating_assoc a b c : saturating_add a (saturating_add b c) = saturating_add (saturating_add a b) c.
Proof. unfold saturating_add. lia. Qed.

Lemma saturating_zero a : (a < u32_bound)%N → saturating_add a 0 = a.
Proof. unfold saturating_add, u32_bound. lia. Qed.

Lemma saturating_bound a b : (saturating_add a b < u32_bound)%N.
Proof. unfold saturating_add, u32_bound. lia. Qed.

Lemma total_of_app get p l l' : total_of get p (l ++ l') = foldr (λ x n, saturating_add (get x) n) (total_of get p l') (filter (λ x, path x = p) l).
Proof. unfold total_of. by rewrite filter_app, foldr_app. Qed.

(** Each path once, in the order first seen, with the sums of its counts. *)
Record merged (l out : list FileChange) : Prop := {
  merged_paths : NoDup (map path out);
  merged_same p : p ∈ map path out ↔ p ∈ map path l;
  merged_counts x : x ∈ out → added x = total_of added (path x) l ∧ deleted x = total_of deleted (path x) l;
  merged_u32 : Forall in_u32 out }.

Lemma total_of_snoc get p l x : (total_of get p l < u32_bound)%N → (get x < u32_bound)%N →
  total_of get p (l ++ [x]) = if decide (path x = p) then saturating_add (total_of get p l) (get x) else total_of get p l.
Proof.
  intros Hl Hx. rewrite total_of_app. unfold total_of at 1. rewrite filter_cons. case_decide; cbn [foldr filter list_filter].
  - rewrite saturating_zero by done. unfold total_of. clear Hl. induction (filter (λ y, path y = p) l) as [|y l' IH]; cbn [foldr].
    + rewrite saturating_comm, saturating_zero; done.
    + by rewrite IH, saturating_assoc.
  - done.
Qed.

Lemma total_of_bound get p l : (total_of get p l < u32_bound)%N.
Proof. unfold total_of. destruct (filter _ l); [done|apply saturating_bound]. Qed.

Definition slots (out : list FileChange) (slot : gmap bytes nat) : Prop :=
  ∀ p i, slot !! p = Some i ↔ ∃ x, out !! i = Some x ∧ path x = p.

Lemma merge_step_ok l out slot x : in_u32 x → merged l out → slots out slot →
  merged (l ++ [x]) (merge_step (out, slot) x).1 ∧ slots (merge_step (out, slot) x).1 (merge_step (out, slot) x).2.
Proof.
  intros [Ha Hd] [Hn Hs Hc Hu] Hsl. cbn. destruct (slot !! path x) as [i|] eqn:E; cbn [fst snd].
  - apply Hsl in E as (y & Hy & Hp).
    assert (map path (alter (add_counts x) i out) = map path out) as Hpaths.
    { apply list_eq. intros j. change (@map FileChange bytes) with (@fmap list _ FileChange bytes). rewrite !list_lookup_fmap.
      destruct (decide (i = j)) as [<-|Hne]; [rewrite list_lookup_alter_eq, Hy; done|by rewrite list_lookup_alter_ne]. }
    split; [split|].
    + by rewrite Hpaths.
    + intros p. rewrite Hpaths, Hs, map_app, elem_of_app. cbn. rewrite list_elem_of_singleton. split; [by left|].
      intros [| ->]; [done|]. rewrite <- Hs, <- Hp. change (@map FileChange bytes) with (@fmap list _ FileChange bytes).
      apply list_elem_of_fmap_2, (list_elem_of_lookup_2 _ _ _ Hy).
    + intros z (j & Hj)%list_elem_of_lookup. rewrite !total_of_snoc by (done || apply total_of_bound).
      destruct (decide (i = j)) as [<-|Hne].
      * rewrite list_lookup_alter_eq, Hy in Hj. cbn in Hj. injection Hj as <-. cbn. rewrite !decide_True by done.
        apply list_elem_of_lookup_2 in Hy. destruct (Hc y Hy) as [-> ->]. done.
      * rewrite list_lookup_alter_ne in Hj by done. assert (path x ≠ path z); [|rewrite !decide_False by done; by apply Hc, (list_elem_of_lookup_2 _ _ _ Hj)].
        intros Hpz. apply Hne. eapply (NoDup_lookup (map path out) i j (path x)); [done|..];
          change (@map FileChange bytes) with (@fmap list _ FileChange bytes); rewrite list_lookup_fmap; [rewrite Hy|rewrite Hj]; cbn; congruence.
    + rewrite Forall_forall in Hu |- *. intros z (j & Hj)%list_elem_of_lookup.
      destruct (decide (i = j)) as [<-|Hne].
      * rewrite list_lookup_alter_eq, Hy in Hj. cbn in Hj. injection Hj as <-. split; apply saturating_bound.
      * rewrite list_lookup_alter_ne in Hj by done. apply Hu. by apply list_elem_of_lookup_2 in Hj.
    + intros p j. rewrite (Hsl p j). destruct (decide (i = j)) as [<-|Hne]; [|by rewrite list_lookup_alter_ne].
      rewrite list_lookup_alter_eq, Hy. cbn. naive_solver.
  - assert (path x ∉ map path out) as Hfresh.
    { change (@map FileChange bytes) with (@fmap list _ FileChange bytes). intros (y & Hpy & (i & Hi)%list_elem_of_lookup)%list_elem_of_fmap.
      assert (slot !! path x = Some i) by (apply Hsl; by eauto). congruence. }
    split; [split|].
    + rewrite map_app. apply NoDup_app. split_and!; [done| |apply NoDup_singleton]. intros p Hp1 Hp2. cbn in Hp2. apply list_elem_of_singleton in Hp2 as ->. done.
    + intros p. rewrite !map_app, !elem_of_app, Hs. done.
    + intros z Hz. rewrite !total_of_snoc by (done || apply total_of_bound). apply elem_of_app in Hz as [Hz|Hz%list_elem_of_singleton].
      * assert (path x ≠ path z); [|rewrite !decide_False by done; by apply Hc].
        intros E2. apply Hfresh. rewrite E2. change (@map FileChange bytes) with (@fmap list _ FileChange bytes).
        by apply list_elem_of_fmap_2.
      * subst z. rewrite !decide_True by done.
        assert (∀ get, total_of get (path x) l = 0%N) as Hz.
        { intros get. unfold total_of. destruct (filter (λ y, path y = path x) l) as [|y l'] eqn:El; [done|].
          assert (y ∈ filter (λ y, path y = path x) l) as [Hp Hy]%list_elem_of_filter by (rewrite El; by left).
          exfalso. apply Hfresh, Hs. rewrite <- Hp. change (@map FileChange bytes) with (@fmap list _ FileChange bytes). by apply list_elem_of_fmap_2. }
        rewrite !Hz, !(saturating_comm 0), !saturating_zero by done. done.
    + apply Forall_app. split; [done|]. by apply Forall_singleton.
    + intros p i. destruct (decide (p = path x)) as [->|Hne].
      * rewrite lookup_insert_eq. split; [intros [= <-]; exists x; by rewrite list_lookup_middle|].
        intros (y & Hy & Hp). f_equal. apply lookup_app_Some in Hy as [Hy|[Hle Hy]].
        -- exfalso. apply Hfresh. rewrite <- Hp. change (@map FileChange bytes) with (@fmap list _ FileChange bytes).
           apply list_elem_of_fmap_2, (list_elem_of_lookup_2 _ _ _ Hy).
        -- apply list_lookup_singleton_Some in Hy as [? _]. lia.
      * rewrite lookup_insert_ne, (Hsl p i) by done. split; intros (y & Hy & Hp); exists y; (split; [|done]).
        -- by apply lookup_app_l_Some.
        -- apply lookup_app_Some in Hy as [|[_ Hy]]; [done|]. apply list_lookup_singleton_Some in Hy as [_ <-]. done.
Qed.

Lemma merge_same_path_ok l : Forall in_u32 l → merged l (merge_same_path l).
Proof.
  intros Hl. unfold merge_same_path.
  enough (merged l (foldl merge_step ([], ∅) l).1 ∧ slots (foldl merge_step ([], ∅) l).1 (foldl merge_step ([], ∅) l).2) as [? _] by done.
  induction l as [|x l IH] using rev_ind.
  - split; [split; cbn; [constructor|done|by intros ? ?%elem_of_nil|constructor]|]. intros p i. cbn. rewrite lookup_empty.
    split; [done|by intros (? & ? & _)].
  - apply Forall_app in Hl as [Hl Hx]. apply Forall_cons in Hx as [Hx _]. rewrite foldl_app. cbn [foldl].
    destruct (IH Hl) as [Hm Hs]. destruct (foldl merge_step ([], ∅) l) as [out slot]. exact (merge_step_ok l out slot x Hx Hm Hs).
Qed.

(** ** Names

    What a file called [p] before a commit is called after it, and after a list of
    commits, newest first. *)
Definition renamed (c : Commit) (p : bytes) : bytes :=
  foldl (λ q r, if decide (r.1 = p) then r.2 else q) p (renames c).

Definition name_after (newer : list Commit) (p : bytes) : bytes := foldr renamed p newer.

(** The map from each superseded path to its current name. *)
Definition names_map (name : bytes → bytes) (m : gmap bytes bytes) : Prop :=
  ∀ p, m !! p = if decide (name p = p) then None else Some (name p).

Lemma names_map_current name m p : names_map name m → current_name m p = name p.
Proof. intros H. unfold current_name. rewrite H. by case_decide. Qed.

Lemma move_names name m old now : names_map name m → names_map (λ p, if decide (p = old) then now else name p) (move m (old, now)).
Proof.
  intros H p. unfold move. destruct (decide (p = old)) as [->|Hne]; [|case_decide; by rewrite ?lookup_delete_ne, ?lookup_insert_ne by done].
  case_decide; case_decide; subst; try done; [by rewrite lookup_delete_eq|by rewrite lookup_insert_eq].
Qed.

Lemma follow_commit_names name m c ex : names_map name m →
  names_map (λ p, name (renamed c p)) (follow_commit ex m c).2.
Proof.
  intros H. cbn. unfold renamed.
  assert (∀ l name' m', names_map name' m' →
    names_map (λ p, foldl (λ q r, if decide (r.1 = p) then name r.2 else q) (name' p) l) (foldl move m' (map (λ r, (r.1, current_name m r.2)) l))) as Hl.
  { intros l. induction l as [|[old new] l IH]; intros name' m' Hm'; [done|]. cbn [map foldl fst snd].
    rewrite (names_map_current name m new H).
    pose proof (IH _ _ (move_names name' m' old (name new) Hm')) as IH'. intros p. rewrite (IH' p).
    assert ((if decide (p = old) then name new else name' p) = (if decide (old = p) then name new else name' p)) as ->; [|done].
    destruct (decide (p = old)), (decide (old = p)); congruence. }
  intros p. rewrite (Hl (renames c) name m H p).
  assert (∀ q, foldl (λ q r, if decide (r.1 = p) then name r.2 else q) (name q) (renames c)
    = name (foldl (λ q r, if decide (r.1 = p) then r.2 else q) q (renames c))) as ->; [|done].
  induction (renames c) as [|r l IH]; intros q; [done|]. cbn [foldl]. rewrite <- IH. by case_decide.
Qed.

Lemma names_map_ext f g m : (∀ p, f p = g p) → names_map f m → names_map g m.
Proof. intros Hfg H p. rewrite (H p), Hfg. done. Qed.

(** The changes of a commit with newer commits after it. *)
Definition named_changes (ex : bytes → bool) (newer : list Commit) (c : Commit) : list FileChange :=
  map (λ x, at_path (name_after newer (path x)) x) (List.filter (λ x, negb (ex (path x))) (changes c)).

Lemma follow_loop_spec ex newer m commits :
  names_map (name_after newer) m →
  (∀ i c, commits !! i = Some c →
     (follow_loop ex m commits).1 !! i = Some (with_changes (merge_same_path (named_changes ex (newer ++ take i commits) c)) c))
  ∧ length (follow_loop ex m commits).1 = length commits
  ∧ names_map (name_after (newer ++ commits)) (follow_loop ex m commits).2.
Proof.
  revert newer m. induction commits as [|c commits IH]; intros newer m Hm; [by rewrite app_nil_r|].
  cbn [follow_loop]. pose proof (follow_commit_names _ _ c ex Hm) as Hm'.
  assert (names_map (name_after (newer ++ [c])) (follow_commit ex m c).2) as Hm''.
  { eapply names_map_ext; [|exact Hm']. intros p. unfold name_after. by rewrite foldr_app. }
  destruct (IH (newer ++ [c]) _ Hm'') as (H1 & H2 & H3). unfold follow_commit in *. cbn [snd] in *.
  destruct (follow_loop ex _ commits) as [cs m'] eqn:E. cbn [fst snd] in *. split_and!.
  - intros [|i] c' Hc'; cbn in Hc'.
    + injection Hc' as <-. cbn. rewrite app_nil_r. do 2 f_equal. unfold keyed_changes, named_changes. f_equal.
      apply map_ext. intros x. by rewrite (names_map_current _ _ _ Hm).
    + pose proof (H1 i c' Hc') as E1. by rewrite <- app_assoc in E1.
  - cbn. by rewrite H2.
  - by rewrite <- app_assoc in H3.
Qed.

(** Every change keyed to the name its file carries after all newer commits. *)
Lemma follow_renames_spec ex commits :
  (∀ i c, commits !! i = Some c →
     (follow_renames ex commits).1 !! i = Some (with_changes (merge_same_path (named_changes ex (take i commits) c)) c))
  ∧ length (follow_renames ex commits).1 = length commits
  ∧ names_map (name_after commits) (follow_renames ex commits).2.
Proof. apply (follow_loop_spec ex []). intros p. cbn. rewrite lookup_empty. by case_decide. Qed.
