(* ===== verification/GitStore.v ===== *)
(** * GitStore: the tables of git history

    Models [src/crates/storage/src/db/git_hist.rs] and [db/git_authors.rs]: the rows the
    history passes keep, and the effect of each SQL statement on them, with the savepoints
    and the transaction ([Database::execute_batch]) around them.  A table is a map from
    its primary key to the other columns.

    Counters are unbounded: there are fewer than 2^32 commits in any history.  A failed
    [ROLLBACK] is not modelled: the code ignores its result, and SQLite has then lost the
    connection.

    [M] is a computation over the database that can fail; [statement_fails] says which
    statements do, and [clock] what the time is, by the number of steps taken. *)
From stdpp Require Import gmap sorting.
From S2P Require Import Prelude Text Order Float.
From Stdlib Require Import Lia ZArith NArith Floats.SpecFloat.
Local Open Scope codesage_scope.

(** ** Rows *)

Record GitFileRow := mkFileRow {
  churn_score : f64;
  fix_count : N;
  total_commits : N;
  last_commit_at : option Z }.

(** [window_mask] is a [u64], stored as the [i64] of the same bits. *)
Record CoChangeWrite := mkWrite {
  weight : f64;
  count : N;
  window_mask : N;
  first_observed_at : option Z;
  last_observed_at : option Z }.

Record CoChange := mkCoChange { counters : CoChangeWrite; windows : N }.

(** The single row of [git_index_state]; the two anchor columns are set together. *)
Record IndexState := mkIndexState {
  last_sha : bytes;
  last_indexed_at : Z;
  anchor_columns : option (bytes * Z);
  exclude_fingerprint : option bytes }.

Record Db := mkDb {
  git_files : gmap bytes GitFileRow;
  git_co_changes : gmap (bytes * bytes) CoChange;
  git_author_events : gmap (bytes * bytes) (bytes * Z);
  authors_complete : bool;
  index_state : option IndexState }.

Definition set_files f (d : Db) : Db := mkDb (f (git_files d)) (git_co_changes d) (git_author_events d) (authors_complete d) (index_state d).
Definition set_pairs f (d : Db) : Db := mkDb (git_files d) (f (git_co_changes d)) (git_author_events d) (authors_complete d) (index_state d).
Definition set_events f (d : Db) : Db := mkDb (git_files d) (git_co_changes d) (f (git_author_events d)) (authors_complete d) (index_state d).
Definition set_complete b (d : Db) : Db := mkDb (git_files d) (git_co_changes d) (git_author_events d) b (index_state d).
Definition set_state f (d : Db) : Db := mkDb (git_files d) (git_co_changes d) (git_author_events d) (authors_complete d) (f (index_state d)).

(** [u64::count_ones]. *)
Fixpoint pos_ones (p : positive) : N :=
  match p with xH => 1 | xO p => pos_ones p | xI p => N.succ (pos_ones p) end.
Definition count_ones (n : N) : N := match n with N0 => 0 | Npos p => pos_ones p end.

Definition windows_of (mask : N) : N := count_ones mask `max` 1.

(** ** Computations *)

Inductive HistoryError :=
  | DatabaseFailed
  | SelfPair (file : bytes)
  | GitFailed
  | NotUtf8
  | NotAnEpoch (text : bytes)
  | BadPattern
  | BadLog (excerpt : bytes)
  | Panicked.

(** The database and what the process keeps beside it: the memo of commit dates. *)
Record World := mkWorld { db : Db; steps : nat; epoch_memo : gmap (bytes * bytes) Z }.

Definition set_db (d : Db) (w : World) : World := mkWorld d (steps w) (epoch_memo w).
Definition next (w : World) : World := mkWorld (db w) (S (steps w)) (epoch_memo w).

Definition M (A : Type) : Type := World → (HistoryError + A) * World.

#[export] Instance M_ret : MRet M := λ A a w, (inr a, w).
#[export] Instance M_bind : MBind M := λ A B f m w,
  match m w with (inl e, w) => (inl e, w) | (inr a, w) => f a w end.

Definition fail {A} (e : HistoryError) : M A := λ w, (inl e, w).

Fixpoint each {A} (body : A → M ()) (l : list A) : M () :=
  match l with
  | [] => mret ()
  | x :: l => _ ← body x; each body l
  end.

Fixpoint gather {A B} (body : A → M (list B)) (l : list A) : M (list B) :=
  match l with
  | [] => mret []
  | x :: l => b ← body x; bs ← gather body l; mret (b ++ bs)
  end.

Class Sqlite := { statement_fails : nat → bool; clock : nat → Z }.

Section statements.
Context {Q : Sqlite}.

(** One statement: it changes the database, or fails and changes nothing. *)
Definition statement {A} (f : Db → A * Db) : M A := λ w,
  if statement_fails (steps w) then (inl DatabaseFailed, next w)
  else let '(a, d) := f (db w) in (inr a, set_db d (next w)).

Definition exec (f : Db → Db) : M () := statement (λ d, ((), f d)).
Definition read {A} (f : Db → A) : M A := statement (λ d, (f d, d)).

Definition unix_now : M Z := λ w, (inr (clock (steps w)), next w).

(** [SAVEPOINT] .. [RELEASE], or [ROLLBACK TO] when the body fails. *)
Definition savepoint {A} (m : M A) : M A := λ w,
  match exec id w with
  | (inl e, w) => (inl e, w)
  | (inr _, w) =>
      match m w with
      | (inr a, w') => (_ ← exec id; mret a) w'
      | (inl e, w') => (inl e, set_db (db w) w')
      end
  end.

(** [BEGIN] .. [COMMIT], or [ROLLBACK] when the body or the commit fails. *)
Definition execute_batch {A} (m : M A) : M A := λ w,
  match exec id w with
  | (inl e, w) => (inl e, w)
  | (inr _, w) =>
      match m w with
      | (inr a, w') =>
          match exec id w' with
          | (inr _, w'') => (inr a, w'')
          | (inl e, w'') => (inl e, set_db (db w) w'')
          end
      | (inl e, w') => (inl e, set_db (db w) w')
      end
  end.

(** ** Files *)

(** [ON CONFLICT(path) DO UPDATE SET column = excluded.column, ..]. *)
Definition upsert_git_file (path : bytes) (row : GitFileRow) : M () := exec (set_files (<[path := row]>)).

Definition git_file (path : bytes) : M (option GitFileRow) := read (λ d, git_files d !! path).

(** [CASE WHEN b IS NULL THEN a WHEN a IS NULL THEN b ELSE MAX(a, b) END]. *)
Definition newer (a b : option Z) : option Z :=
  match a, b with Some x, Some y => Some (Z.max x y) | None, _ => b | _, None => a end.

Definition add_file (delta row : GitFileRow) : GitFileRow :=
  mkFileRow (f64_add (churn_score row) (churn_score delta)) (fix_count row + fix_count delta)
    (total_commits row + total_commits delta) (newer (last_commit_at row) (last_commit_at delta)).

Definition upsert_with {K V} `{Countable K} (merge : V → V → V) (k : K) (v : V) (m : gmap K V) : gmap K V :=
  <[k := match m !! k with Some old => merge v old | None => v end]> m.

Definition incr_git_file (path : bytes) (delta : GitFileRow) : M () := exec (set_files (upsert_with add_file path delta)).

(** ** Pairs *)

Definition order_co_change_pair (a b : bytes) : M (bytes * bytes) :=
  if decide (a = b) then fail (SelfPair a) else mret (if bytes_leb a b then (a, b) else (b, a)).

Definition pair_row (w : CoChangeWrite) : CoChange := mkCoChange w (windows_of (window_mask w)).

Definition upsert_git_co_change_full (a b : bytes) (w : CoChangeWrite) : M () :=
  key ← order_co_change_pair a b; exec (set_pairs (<[key := pair_row w]>)).

(** [windows] of a row whose mask was merged, from its mask. *)
Definition set_windows (key : bytes * bytes) (d : Db) : Db := set_pairs (alter (λ r, pair_row (counters r)) key) d.

Definition add_pair (delta row : CoChange) : CoChange :=
  let d := counters delta in
  let r := counters row in
  mkCoChange (mkWrite (f64_add (weight r) (weight d)) (count r + count d)
    (match first_observed_at r with None => window_mask r | _ => N.lor (window_mask r) (window_mask d) end)
    (match first_observed_at r, first_observed_at d with Some x, Some y => Some (Z.min x y) | None, _ => None | x, None => x end)
    (newer (last_observed_at r) (last_observed_at d))) (windows row).

Definition incr_git_co_change_full (a b : bytes) (w : CoChangeWrite) : M () :=
  key ← order_co_change_pair a b;
  _ ← exec (set_pairs (upsert_with add_pair key (pair_row w)));
  exec (set_windows key).

(** Either side's unknown span makes the merged span unknown. *)
Definition merge_pair (delta row : CoChange) : CoChange :=
  let d := counters delta in
  let r := counters row in
  let known := match first_observed_at r, first_observed_at d with Some _, Some _ => true | _, _ => false end in
  mkCoChange (mkWrite (f64_add (weight r) (weight d)) (count r + count d)
    (if known then N.lor (window_mask r) (window_mask d) else 0)
    (match first_observed_at r, first_observed_at d with Some x, Some y => Some (Z.min x y) | _, _ => None end)
    (newer (last_observed_at r) (last_observed_at d))) (windows row).

Definition merge_git_co_change (a b : bytes) (w : CoChangeWrite) : M () :=
  key ← order_co_change_pair a b;
  _ ← exec (set_pairs (upsert_with merge_pair key (pair_row w)));
  exec (set_windows key).

Definition co_change_pair_exists (a b : bytes) : M bool :=
  key ← order_co_change_pair a b;
  read (λ d, match git_co_changes d !! key with Some r => (3 <=? count (counters r))%N | None => false end).

(** ** Decay *)

Definition f64_mul : f64 → f64 → f64 := SFmul 53 1024.

Definition scale_file (factor : f64) (r : GitFileRow) : GitFileRow :=
  mkFileRow (f64_mul (churn_score r) factor) (fix_count r) (total_commits r) (last_commit_at r).

Definition scale_pair (factor : f64) (r : CoChange) : CoChange :=
  let w := counters r in
  mkCoChange (mkWrite (f64_mul (weight w) factor) (count w) (window_mask w) (first_observed_at w) (last_observed_at w)) (windows r).

Definition scale_git_decay (factor : f64) : M () :=
  savepoint (_ ← exec (set_files (fmap (scale_file factor))); exec (set_pairs (fmap (scale_pair factor)))).

(** ** State *)

Definition clear_git_data : M () :=
  _ ← exec (set_files (λ _, ∅)); _ ← exec (set_pairs (λ _, ∅)); exec (set_state (λ _, None)).

Definition get_git_index_state : M (option (bytes * Z)) :=
  read (λ d, s ← index_state d; if bytes_eqb (last_sha s) [] then None else Some (last_sha s, last_indexed_at s)).

(** The columns exist: migration 0021 has run. *)
Definition git_history_anchor : M (option (bytes * Z)) :=
  _ ← read (λ _, true); read (λ d, s ← index_state d; anchor_columns s).

Definition git_index_exclusion_fingerprint : M (option bytes) := read (λ d, s ← index_state d; exclude_fingerprint s).

(** A write of the state clears what the triggers clear: the anchor and the fingerprint. *)
Definition set_index_state (sha : bytes) : M () :=
  now ← unix_now; exec (set_state (λ _, Some (mkIndexState sha now None None))).

Definition set_anchor_columns (anchor : option (bytes * Z)) (s : IndexState) : IndexState :=
  mkIndexState (last_sha s) (last_indexed_at s) anchor (exclude_fingerprint s).

Definition set_git_index_state_with_anchor (sha : bytes) (anchor : option (bytes * Z)) : M () :=
  savepoint (_ ← set_index_state sha; exec (set_state (fmap (set_anchor_columns anchor)))).

Definition set_fingerprint (f : bytes) (s : IndexState) : IndexState :=
  mkIndexState (last_sha s) (last_indexed_at s) (anchor_columns s) (Some f).

Definition set_git_index_exclusion_fingerprint (f : bytes) : M () := exec (set_state (fmap (set_fingerprint f))).

(** ** Author events *)

Definition reset_git_authors : M () := _ ← exec (set_events (λ _, ∅)); exec (set_complete true).

Definition upsert_git_author_event (file_path commit_sha author : bytes) (committed_at : Z) : M () :=
  exec (set_events (<[(file_path, commit_sha) := (author, committed_at)]>)).

Definition prune_git_author_events (cutoff : Z) : M () := exec (set_events (filter (λ e, (cutoff <= e.2.2)%Z))).

(** ** Re-keying *)

Context {H : HashOrder}.

Definition moved_events (m : bytes * option bytes) : M (list (bytes * bytes * (bytes * Z))) :=
  match m.2 with
  | None => mret []
  | Some to =>
      read (λ d, map (λ e, (to, e.1.2, e.2)) (hash_order (map_to_list (filter (λ e, e.1.1 = m.1) (git_author_events d)))))
  end.

Definition rekey_git_author_events (moves : list (bytes * option bytes)) : M () :=
  moved ← gather moved_events moves;
  _ ← each (λ m, exec (set_events (filter (λ e, e.1.1 ≠ m.1)))) moves;
  each (λ e, exec (set_events (λ t, match t !! e.1 with Some _ => t | None => <[e.1 := e.2]> t end))) moved.

(** Where a path goes: [None] drops it. *)
Definition successor_in (targets : gmap bytes (option bytes)) (path : bytes) : option bytes :=
  match targets !! path with Some to => to | None => Some path end.

Definition touches (p : bytes) (key : bytes * bytes) : bool := bool_decide (key.1 = p) || bool_decide (key.2 = p).

(** Pairs found under one path and not seen before. *)
Definition unseen (acc : gset (bytes * bytes) * list ((bytes * bytes) * CoChange)) (row : (bytes * bytes) * CoChange)
    : gset (bytes * bytes) * list ((bytes * bytes) * CoChange) :=
  let '(seen, rows) := acc in
  if decide (row.1 ∈ seen) then acc else ({[row.1]} ∪ seen, rows ++ [row]).

Definition file_rows_of (from : bytes) : M (list (bytes * GitFileRow)) :=
  row ← git_file from; mret (match row with Some r => [(from, r)] | None => [] end).

Definition pair_rows_of (from : bytes) : M (list ((bytes * bytes) * CoChange)) :=
  read (λ d, hash_order (map_to_list (filter (λ r, touches from r.1 = true) (git_co_changes d)))).

Definition rekey_file (targets : gmap bytes (option bytes)) (r : bytes * GitFileRow) : M () :=
  match successor_in targets r.1 with Some to => incr_git_file to r.2 | None => mret () end.

Definition rekey_pair (targets : gmap bytes (option bytes)) (r : (bytes * bytes) * CoChange) : M () :=
  match successor_in targets r.1.1, successor_in targets r.1.2 with
  | Some a, Some b => if decide (a = b) then mret () else merge_git_co_change a b (counters r.2)
  | _, _ => mret ()
  end.

Definition rekey_git_history_inner (moves : list (bytes * option bytes)) : M () :=
  let targets := list_to_map (reverse moves) in
  let keys := hash_order (map fst (map_to_list targets)) in
  rows ← gather (λ from, f ← file_rows_of from; p ← pair_rows_of from; mret [(f, p)]) keys;
  let file_rows := concat (map fst rows) in
  let pair_rows := (foldl unseen (∅, []) (concat (map snd rows))).2 in
  _ ← each (λ from,
    _ ← exec (set_files (delete from)); exec (set_pairs (filter (λ r, touches from r.1 = false)))) keys;
  _ ← each (rekey_file targets) file_rows;
  _ ← each (rekey_pair targets) pair_rows;
  rekey_git_author_events moves.

Definition rekey_git_history (moves : list (bytes * option bytes)) : M () :=
  match moves with [] => mret () | _ => savepoint (rekey_git_history_inner moves) end.
End statements.
