(* ===== verification/GitHistory.v ===== *)
(** * GitHistory: the git history passes

    Models [src/crates/graph/src/git_history/indexer.rs]: the anchor a pass measures
    from, the policy fingerprint, what one commit adds to files and pairs, and the full
    and incremental passes over the tables of GitStore.  The output of git and the
    [globset] crate are parameters, as is [f64::exp], whose last bits are unspecified. *)
From stdpp Require Import gmap.
From S2P Require Import Prelude Text Utf8 Unicode Order Float GitLog GitRenames GitStore.
From Stdlib Require Import Lia ZArith NArith Floats.SpecFloat.
Local Open Scope byte_scope.
Local Open Scope codesage_scope.

(** ** Text *)

Definition in_range (lo hi : N) (b : byte) : bool := ((lo <=? Byte.to_N b) && (Byte.to_N b <=? hi))%N.

(** The second byte a leading byte of a character of three or four bytes admits. *)
Definition second_of_three (a b : byte) : bool :=
  in_range 224 224 a && in_range 160 191 b || in_range 225 236 a && is_continuation b
  || in_range 237 237 a && in_range 128 159 b || in_range 238 239 a && is_continuation b.
Definition second_of_four (a b : byte) : bool :=
  in_range 240 240 a && in_range 144 191 b || in_range 241 243 a && is_continuation b || in_range 244 244 a && in_range 128 143 b.

(** [str::from_utf8] succeeds. *)
Fixpoint is_utf8 (s : bytes) : bool :=
  match s with
  | [] => true
  | a :: s1 =>
      if is_ascii a then is_utf8 s1
      else match s1 with
      | [] => false
      | b :: s2 =>
          if in_range 194 223 a then is_continuation b && is_utf8 s2
          else match s2 with
          | [] => false
          | c :: s3 =>
              if second_of_three a b then is_continuation c && is_utf8 s3
              else match s3 with
              | [] => false
              | d :: s4 => second_of_four a b && is_continuation c && is_continuation d && is_utf8 s4
              end
          end
      end
  end.

Definition from_utf8 (s : bytes) : M bytes := if is_utf8 s then mret s else fail NotUtf8.

(** ** Surroundings *)

(** What git prints; [None] when it fails. *)
Class Git := {
  git_rev_parse_head : option bytes;
  git_commit_date : bytes → option bytes;
  git_log : option bytes → Z → option bytes;
  git_ls_tree : bytes → option bytes;
  git_is_ancestor : bytes → bytes → option bool }.

Class GlobSets := { build_exclude_set : list bytes → option (bytes → bool) }.
Class Exp := { f64_exp : f64 → f64 }.

Definition git {A} (out : option A) : M A := match out with Some a => mret a | None => fail GitFailed end.

(** ** Constants *)

Definition DECAY_TAU_DAYS : Z := 180.
Definition SECONDS_PER_DAY : Z := 86400.
Definition CHURN_CLAMP : Z := 3.
Definition CHURN_DIVISOR : Z := 100.
Definition MIN_CO_CHANGE_COUNT : N := 3.
Definition HISTORY_WINDOW_DAYS : Z := 730.
Definition MAX_FILES_PER_COMMIT_FOR_COCHANGE : nat := 30.
Definition RECURRENCE_WINDOW_DAYS : Z := 90.
Definition RECURRENCE_WINDOW_SECS : Z := RECURRENCE_WINDOW_DAYS * SECONDS_PER_DAY.
Definition RECURRENCE_RING : Z := 64.
Definition COMMIT_EPOCH_MEMO_CAP : nat := 256.
Definition HISTORY_POLICY_VERSION : N := 2.

Example history_fits_ring : (HISTORY_WINDOW_DAYS / RECURRENCE_WINDOW_DAYS + 2 < RECURRENCE_RING)%Z.
Proof. done. Qed.

(** ** Windows *)

Definition recurrence_window (timestamp : Z) : N :=
  Z.to_N ((Z.max timestamp 0 / RECURRENCE_WINDOW_SECS) mod RECURRENCE_RING).

Definition window_bit (timestamp : Z) : N := N.shiftl 1 (recurrence_window timestamp).

Definition history_window_cutoff (anchor : Z) : Z := Z.max (anchor - HISTORY_WINDOW_DAYS * SECONDS_PER_DAY) 0.

Definition history_predates_wall_clock_window (newest_commit_at now : Z) : bool :=
  (newest_commit_at <? history_window_cutoff now)%Z.

(** ** Anchors *)

Inductive HistoryAnchorSource := HeadCommit | WallClock.

#[export] Instance anchor_source_eq_decision : EqDecision HistoryAnchorSource.
Proof. solve_decision. Defined.

Record HistoryAnchor := mkAnchor { epoch : Z; source : HistoryAnchorSource }.

Definition source_column (s : HistoryAnchorSource) : bytes := bs match s with HeadCommit => "HEAD" | WallClock => "now" end.

Definition cutoff (a : HistoryAnchor) : Z := history_window_cutoff (epoch a).

Definition window_stamp (a : HistoryAnchor) : bytes :=
  show_u64 (Z.to_N HISTORY_WINDOW_DAYS) ++ bs "d@" ++ source_column (source a).

(** ** Policy *)

Definition TEST_LIKE_EXCLUDE_PATTERNS : list bytes := map bs [
  "**/tests/**"; "**/test/**"; "**/__tests__/**"; "**/Tests/**"; "**/*Test.php"; "**/*_test.php"; "**/*.test.ts";
  "**/*.test.tsx"; "**/*.test.js"; "**/*.test.jsx"; "**/*.spec.ts"; "**/*.spec.tsx"; "**/*.spec.js"; "**/*.spec.jsx";
  "**/test_*.py"; "**/*_test.py"; "**/*_test.rs"; "**/*_test.go"; "**/*_test.cc"; "**/*_test.cpp"; "**/*_test.cxx";
  "**/*_test.h"; "**/*_test.hpp"; "**/*_benchmark.cc"; "**/*_benchmark.cpp"; "**/*_bench.cc"; "**/*.phpt";
  "**/benches/**"; "**/benchmarks/**"]%string.

Definition HARD_EXCLUDE_PATTERNS : list bytes := map bs [
  "**/vendor/**"; "**/node_modules/**"; "**/bower_components/**"; "**/jspm_packages/**"; "**/.bundle/**";
  "**/dist/**"; "**/build/**"; "**/out/**"; "**/target/**"; "**/_build/**"; "**/.next/**"; "**/.nuxt/**";
  "**/.svelte-kit/**"; "**/.turbo/**"; "**/.vercel/**"; "**/.parcel-cache/**"; "**/.angular/**"; "**/.gradle/**";
  "**/cmake-build-*/**"; "**/CMakeFiles/**"; "**/public/js/**"; "**/public/build/**";
  "**/storage/framework/views/**"; "**/__pycache__/**"; "**/*.pyc"; "**/*.pyo"; "**/*.class"; "**/*.o"; "**/*.obj";
  "**/*.a"; "**/*.lib"; "**/*.so"; "**/*.dylib"; "**/*.dll"; "**/*.exe"; "**/*.egg-info/**"; "**/coverage/**";
  "**/.coverage"; "**/htmlcov/**"; "**/.nyc_output/**"; "**/*.lcov"; "**/.cache/**"; "**/.pytest_cache/**";
  "**/.ruff_cache/**"; "**/.mypy_cache/**"; "**/.tox/**"; "**/.eslintcache"; "**/*.min.js"; "**/*.min.css";
  "**/*.min.mjs"; "**/*.bundle.js"; "**/*.chunk.js"; "**/*.generated.*"; "**/*.gen.ts"; "**/*.gen.tsx";
  "**/*.gen.js"; "**/*.gen.go"; "**/*embeddings*.json"; "**/package-lock.json"; "**/yarn.lock"; "**/pnpm-lock.yaml";
  "**/bun.lockb"; "**/composer.lock"; "**/Cargo.lock"; "**/poetry.lock"; "**/Pipfile.lock"; "**/uv.lock";
  "**/Gemfile.lock"; "**/go.sum"; "**/mix.lock"; "**/docs/**"; "**/doc/**"; "**/site/**"; "**/_site/**"; "**/NEWS";
  "**/NEWS.md"; "**/UPGRADING"; "**/UPGRADING.md"; "**/UPGRADING.INTERNALS"; "**/CHANGELOG"; "**/CHANGELOG.md";
  "**/CHANGELOG.txt"; "**/CHANGES"; "**/CHANGES.md"; "**/HISTORY"; "**/HISTORY.md"; "**/RELEASE_NOTES";
  "**/RELEASE_NOTES.md"; "**/.idea/**"; "**/.vscode/**"; "**/.vs/**"; "**/*.swp"; "**/*.swo"; "**/.DS_Store"]%string.

Definition DEFAULT_EXCLUDE_PATTERNS : list bytes := HARD_EXCLUDE_PATTERNS.

(** A pattern behind its length in bytes. *)
Definition encode_pattern (p : bytes) : bytes := show_u64 (N.of_nat (length p)) ++ [":"] ++ p ++ [NUL].

Definition effective_exclusion_fingerprint (extra_excludes : list bytes) : bytes :=
  bs "policy:" ++ show_u64 HISTORY_POLICY_VERSION ++ [NUL] ++ bs "cap:" ++ show_u64 (N.of_nat MAX_FILES_PER_COMMIT_FOR_COCHANGE) ++ [NUL]
  ++ concat (map (λ p, bs "test:" ++ encode_pattern p) TEST_LIKE_EXCLUDE_PATTERNS)
  ++ concat (map encode_pattern (sorted_keys (list_to_set (DEFAULT_EXCLUDE_PATTERNS ++ extra_excludes)))).

(** Files and pairs of a pass, before they are written. *)
Abbreviation Totals := (gmap bytes GitFileRow * gmap (bytes * bytes) CoChangeWrite)%type.

Section passes.
Context {U : Unicode} {Q : Sqlite} {H : HashOrder} {G : Git} {GS : GlobSets} {E : Exp}.

Definition indexed : M (option HistoryAnchor) :=
  a ← git_history_anchor;
  mret ('(source, epoch) ← a;
        if bytes_eqb source (bs "HEAD") then Some (mkAnchor epoch HeadCommit)
        else if bytes_eqb source (bs "now") then Some (mkAnchor epoch WallClock)
        else None).

Definition persist (a : HistoryAnchor) (sha : bytes) (full : bool) : M () :=
  established ← (if full : bool then mret true
                 else old ← indexed; mret (match old with Some o => bool_decide (GitHistory.source o = source a) | None => false end));
  set_git_index_state_with_anchor sha (if established : bool then Some (source_column (source a), epoch a) else None).

Definition parse_commit_epoch (stdout : bytes) : M Z :=
  text ← from_utf8 stdout;
  match parse_i64 (trim text) with Some z => mret z | None => fail (NotAnEpoch (trim text)) end.

Definition read_commit_epoch (sha : bytes) : M (option Z) :=
  match git_commit_date sha with
  | None => mret None
  | Some stdout => z ← parse_commit_epoch stdout; mret (Some z)
  end.

Definition remember (key : bytes * bytes) (z : Z) : M () := λ w,
  let memo := if COMMIT_EPOCH_MEMO_CAP <=? size (epoch_memo w) then ∅ else epoch_memo w in
  (inr (), mkWorld (db w) (steps w) (<[key := z]> memo)).

Definition commit_epoch (root sha : bytes) : M (option Z) :=
  if starts_with (bs "-") sha then mret None
  else
    hit ← ((λ w, (inr (epoch_memo w !! (root, sha)), w)) : M (option Z));
    match hit with
    | Some z => mret (Some z)
    | None =>
        read ← read_commit_epoch sha;
        match read with
        | None => mret None
        | Some z => _ ← remember (root, sha) z; mret (Some z)
        end
    end.

Definition wall_clock_anchor : M HistoryAnchor := now ← unix_now; mret (mkAnchor now WallClock).

Definition anchor_at_commit (root sha : bytes) : M HistoryAnchor :=
  z ← commit_epoch root sha;
  match z with Some z => mret (mkAnchor z HeadCommit) | None => wall_clock_anchor end.

Definition previous_anchor (root last_sha : bytes) (last_indexed_at : Z) (current : HistoryAnchor) : M Z :=
  match source current with
  | HeadCommit => z ← commit_epoch root last_sha; mret (default last_indexed_at z)
  | WallClock => mret last_indexed_at
  end.

(** ** One commit *)

(** [f64::from] of a count, and the decay of a commit's age. *)
Definition decay_of (age_seconds : Z) : f64 :=
  let age_days := f64_div (f64_of_Z age_seconds) (f64_of_Z SECONDS_PER_DAY) in
  f64_exp (f64_div (SFopp age_days) (f64_of_Z DECAY_TAU_DAYS)).

Definition no_stats : GitFileRow := mkFileRow f64_zero 0 0 None.
Definition no_pair : CoChangeWrite := mkWrite f64_zero 0 0 None None.

(** [added + deleted] of two [u32]s wraps in a release build. *)
Definition churn_of (decay : f64) (x : FileChange) : f64 :=
  let churn_units := f64_div (f64_of_Z (Z.of_N ((added x + deleted x) mod u32_bound))) (f64_of_Z CHURN_DIVISOR) in
  f64_mul decay (fmin churn_units (f64_of_Z CHURN_CLAMP)).

Definition later (t : Z) (o : option Z) : option Z := match o with Some x => if (x <? t)%Z then Some t else o | None => Some t end.
Definition earlier (t : Z) (o : option Z) : option Z := match o with Some x => if (t <? x)%Z then Some t else o | None => Some t end.

Definition touch_file (c : Commit) (decay : f64) (files : gmap bytes GitFileRow) (x : FileChange) : gmap bytes GitFileRow :=
  let stats := default no_stats (files !! path x) in
  <[path x := mkFileRow (f64_add (churn_score stats) (churn_of decay x))
      (if is_fix_commit (subject c) then N.succ (fix_count stats) else fix_count stats)
      (N.succ (total_commits stats)) (later (timestamp c) (last_commit_at stats))]> files.

Definition touch_pair (c : Commit) (decay : f64) (pairs : gmap (bytes * bytes) CoChangeWrite) (key : bytes * bytes)
    : gmap (bytes * bytes) CoChangeWrite :=
  let pair := default no_pair (pairs !! key) in
  <[key := mkWrite (f64_add (weight pair) decay) (N.succ (count pair)) (N.lor (window_mask pair) (window_bit (timestamp c)))
      (earlier (timestamp c) (first_observed_at pair)) (later (timestamp c) (last_observed_at pair))]> pairs.

(** [for i in 0..n { for j in i + 1..n { .. } }]. *)
Fixpoint each_pair {A} (l : list A) : list (A * A) :=
  match l with [] => [] | x :: l => map (pair x) l ++ each_pair l end.

Definition ordered (p : bytes * bytes) : bytes * bytes := if bytes_leb p.1 p.2 then p else (p.2, p.1).

Definition admitted (test_like : bytes → bool) (kept : list FileChange) : list (bytes * bytes) :=
  if length kept <=? MAX_FILES_PER_COMMIT_FOR_COCHANGE
  then map ordered (List.filter (λ p, negb (test_like p.1 && test_like p.2)) (each_pair (map path kept)))
  else [].

Definition accumulate (anchor : Z) (test_like : bytes → bool) (t : Totals) (c : Commit) (kept : list FileChange) : Totals :=
  let decay := decay_of (Z.max (anchor - timestamp c) 0) in
  (foldl (touch_file c decay) t.1 kept, foldl (touch_pair c decay) t.2 (admitted test_like kept)).

Definition scan_step (exclude test_like : bytes → bool) (anchor : Z) (acc : Totals * nat) (c : Commit) : Totals * nat :=
  match filter_kept exclude c with
  | None => acc
  | Some kept => (accumulate anchor test_like acc.1 c kept, S acc.2)
  end.

(** The loop over the commits of a pass, with [commits_scanned]. *)
Definition scan (exclude test_like : bytes → bool) (anchor : Z) (commits : list Commit) : Totals * nat :=
  foldl (scan_step exclude test_like anchor) ((∅, ∅), 0) commits.

(** ** Passes *)

Definition head_paths (sha : bytes) : M (gset bytes) :=
  out ← git (git_ls_tree sha);
  mret (list_to_set (List.filter (λ e, negb (bytes_eqb e []) && is_utf8 e) (split_on NUL out))).

Definition remap_dead_paths (head_sha : bytes) (commits : list Commit) (successor : gmap bytes bytes) : M (list Commit) :=
  if bool_decide (successor = ∅) then mret commits
  else live ← head_paths head_sha; mret (map (remap_commit successor live) commits).

Definition run_git_log (range : option bytes) (since : Z) : M bytes := out ← git (git_log range since); from_utf8 out.

(** The commits of a range, every change keyed to a current path, and the renames. *)
Definition pass_commits (exclude : bytes → bool) (range : option bytes) (since : Z) (head_sha : bytes)
    : M (list Commit * gmap bytes bytes) :=
  raw ← run_git_log range since;
  parsed ← (match parse_log raw with inr cs => mret cs | inl (InjectedRecord e) => fail (BadLog e) end);
  let '(commits, successor) := follow_renames exclude parsed in
  commits ← remap_dead_paths head_sha commits successor;
  mret (commits, successor).

Definition write_author_events (exclude : bytes → bool) (commits : list Commit) : M () :=
  each (λ c, match filter_kept exclude c with
    | None => mret ()
    | Some kept => each (λ x, upsert_git_author_event (path x) (sha c) (author c) (timestamp c)) kept
    end) commits.

Definition decay_git_history_between (from_anchor to_anchor : Z) : M () :=
  let delta := Z.max (to_anchor - from_anchor) 0 in
  if (0 <? delta)%Z
  then scale_git_decay (f64_exp (f64_div (SFopp (f64_of_Z delta)) (f64_of_Z (DECAY_TAU_DAYS * SECONDS_PER_DAY))))
  else mret ().

Record GitIndexStats := mkStats { commits_scanned : nat; files_tracked : nat; co_change_pairs : nat }.

Definition kept_pairs (pairs : gmap (bytes * bytes) CoChangeWrite) : nat :=
  size (filter (λ p, (MIN_CO_CHANGE_COUNT <= count p.2)%N) pairs).

Definition write_full (commits : list Commit) (exclude : bytes → bool) (t : Totals) (anchor : HistoryAnchor) (head_sha fingerprint : bytes)
    : M () :=
  _ ← clear_git_data;
  _ ← reset_git_authors;
  _ ← write_author_events exclude commits;
  _ ← each (λ p, upsert_git_file p.1 p.2) (hash_order (map_to_list t.1));
  _ ← each (λ p, upsert_git_co_change_full p.1.1 p.1.2 p.2) (hash_order (map_to_list t.2));
  _ ← persist anchor head_sha true;
  set_git_index_exclusion_fingerprint fingerprint.

Definition run_full (exclude test_like : bytes → bool) (head_sha : bytes) (anchor : HistoryAnchor) (fingerprint : bytes)
    : M GitIndexStats :=
  pass ← pass_commits exclude None (cutoff anchor) head_sha;
  let '(t, scanned) := scan exclude test_like (epoch anchor) pass.1 in
  _ ← execute_batch (write_full pass.1 exclude t anchor head_sha fingerprint);
  mret (mkStats scanned (size t.1) (kept_pairs t.2)).

Record PassAnchors := mkAnchors { current : HistoryAnchor; previous : Z; exclusion_fingerprint : bytes }.

(** Counts of the recorded sources of each successor. *)
Fixpoint diverges_loop (test_like : bytes → bool) (sources : gset bytes) (recorded : gmap bytes nat)
    (moves : list (bytes * option bytes)) : M bool :=
  match moves with
  | [] => mret false
  | (from, None) :: moves => diverges_loop test_like sources recorded moves
  | (from, Some to) :: moves =>
      if negb (Bool.eqb (test_like from) (test_like to)) then mret true
      else
        held ← (if decide (to ∈ sources) then mret false else r ← git_file to; mret (bool_decide (is_Some r)));
        if held : bool then mret true
        else
          r ← git_file from;
          match r with
          | None => diverges_loop test_like sources recorded moves
          | Some _ =>
              let n := S (default 0 (recorded !! to)) in
              if 1 <? n then mret true else diverges_loop test_like sources (<[to := n]> recorded) moves
          end
  end.

Definition rekey_diverges_from_full_scan (moves : list (bytes * option bytes)) (test_like : bytes → bool) : M bool :=
  diverges_loop test_like (list_to_set (map fst moves)) ∅ moves.

Definition moves_of (exclude : bytes → bool) (successor : gmap bytes bytes) : list (bytes * option bytes) :=
  map (λ m, (m.1, if negb (exclude m.1) && negb (exclude m.2) then Some m.2 else None)) (hash_order (map_to_list successor)).

(** The deltas of the pairs, with the count of those that are visible after theirs. *)
Fixpoint incr_pairs (l : list ((bytes * bytes) * CoChangeWrite)) (kept : nat) : M nat :=
  match l with
  | [] => mret kept
  | ((a, b), w) :: l =>
      _ ← incr_git_co_change_full a b w;
      visible ← co_change_pair_exists a b;
      incr_pairs l (if visible : bool then S kept else kept)
  end.

Definition write_incremental (commits : list Commit) (exclude : bytes → bool) (t : Totals) (moves : list (bytes * option bytes))
    (head_sha : bytes) (anchors : PassAnchors) : M nat :=
  _ ← decay_git_history_between (previous anchors) (epoch (current anchors));
  _ ← rekey_git_history moves;
  _ ← prune_git_author_events (cutoff (current anchors));
  _ ← write_author_events exclude commits;
  _ ← each (λ p, incr_git_file p.1 p.2) (hash_order (map_to_list t.1));
  kept ← incr_pairs (hash_order (map_to_list t.2)) 0;
  _ ← persist (current anchors) head_sha false;
  _ ← set_git_index_exclusion_fingerprint (exclusion_fingerprint anchors);
  mret kept.

Definition run_incremental (exclude test_like : bytes → bool) (head_sha last_sha : bytes) (anchors : PassAnchors)
    : M GitIndexStats :=
  let anchor := current anchors in
  pass ← pass_commits exclude (Some (last_sha ++ bs ".." ++ head_sha)) (cutoff anchor) head_sha;
  let moves := moves_of exclude pass.2 in
  diverges ← rekey_diverges_from_full_scan moves test_like;
  if diverges : bool then run_full exclude test_like head_sha anchor (exclusion_fingerprint anchors)
  else
    let '(t, scanned) := scan exclude test_like (epoch anchor) pass.1 in
    kept ← execute_batch (write_incremental pass.1 exclude t moves head_sha anchors);
    mret (mkStats scanned (size t.1) kept).

(** ** The entry point *)

Inductive IndexMode := Full | Incremental | Auto.

Definition compile (patterns : list bytes) : M (bytes → bool) :=
  match build_exclude_set patterns with Some set => mret set | None => fail BadPattern end.

Definition compile_excludes (extra : list bytes) : M ((bytes → bool) * (bytes → bool)) :=
  hard ← compile (DEFAULT_EXCLUDE_PATTERNS ++ extra);
  test_like ← compile TEST_LIKE_EXCLUDE_PATTERNS;
  mret (hard, test_like).

Definition resolve_head_sha : M bytes := out ← git git_rev_parse_head; text ← from_utf8 out; mret (trim text).

(** HEAD is where the last pass left it: only the clock may have moved. *)
Definition refresh (root head_sha : bytes) (last_indexed_at : Z) (anchor : HistoryAnchor) (fingerprint : bytes) : M GitIndexStats :=
  previous ← previous_anchor root head_sha last_indexed_at anchor;
  _ ← execute_batch (
    _ ← decay_git_history_between previous (epoch anchor);
    _ ← prune_git_author_events (cutoff anchor);
    _ ← persist anchor head_sha false;
    set_git_index_exclusion_fingerprint fingerprint);
  mret (mkStats 0 0 0).

Definition incremental (exclude test_like : bytes → bool) (root head_sha : bytes) (anchor : HistoryAnchor) (fingerprint : bytes)
    : M GitIndexStats :=
  state ← get_git_index_state;
  match state with
  | None => fail Panicked
  | Some (last_sha, last_at) =>
      previous ← previous_anchor root last_sha last_at anchor;
      run_incremental exclude test_like head_sha last_sha (mkAnchors anchor previous fingerprint)
  end.

Definition git_history_index_with_options (root : bytes) (extra_excludes : list bytes) (mode : IndexMode) : M GitIndexStats :=
  sets ← compile_excludes extra_excludes;
  let '(exclude, test_like) := sets in
  let fingerprint := effective_exclusion_fingerprint extra_excludes in
  stored ← git_index_exclusion_fingerprint;
  let policy_changed := bool_decide (stored ≠ Some fingerprint) in
  head_sha ← resolve_head_sha;
  anchor ← anchor_at_commit root head_sha;
  let full := run_full exclude test_like head_sha anchor fingerprint in
  match mode with
  | Full => full
  | Incremental | Auto =>
      state ← get_git_index_state;
      match state with
      | None => full
      | Some (last_sha, last_indexed_at) =>
          if policy_changed then full
          else if bytes_eqb last_sha head_sha then refresh root last_sha last_indexed_at anchor fingerprint
          else
            ancestor ← git (git_is_ancestor last_sha head_sha);
            if ancestor : bool then incremental exclude test_like root head_sha anchor fingerprint else full
      end
  end.

Definition git_history_index (root : bytes) : M GitIndexStats := git_history_index_with_options root [] Full.
End passes.
