(* ===== verification/GitScan.v ===== *)
(** * GitScan: what a scan of the commits adds up to

    The loop of a git history pass against a reference that counts: the commits that touch
    a file, and those that touch both files of a pair. *)
From stdpp Require Import gmap sorting.
From S2P Require Import Prelude Text Unicode Order Float GitLog GitRenames GitStore GitHistory.
From Stdlib Require Import Lia ZArith NArith.
Local Open Scope codesage_scope.

(** A commit and the changes of it that count. *)
Abbreviation Kept := (Commit * list FileChange)%type.

Definition paths (k : Kept) : list bytes := map path k.2.

(** ** The reference *)

Definition older (a b : option Z) : option Z :=
  match a, b with Some x, Some y => Some (Z.min x y) | None, _ => b | _, None => a end.

Definition newest (l : list Kept) : option Z := foldr (λ k, newer (Some (timestamp k.1))) None l.
Definition oldest (l : list Kept) : option Z := foldr (λ k, older (Some (timestamp k.1))) None l.
Definition mask_of (l : list Kept) : N := foldr (λ k, N.lor (window_bit (timestamp k.1))) 0%N l.

Definition touching (p : bytes) (l : list Kept) : list Kept := filter (λ k, p ∈ paths k) l.

(** The commits that touch both, of at most thirty files, unless both are tests. *)
Definition together (test_like : bytes → bool) (key : bytes * bytes) (l : list Kept) : list Kept :=
  filter (λ k, length (paths k) ≤ MAX_FILES_PER_COMMIT_FOR_COCHANGE ∧ key.1 ∈ paths k ∧ key.2 ∈ paths k
    ∧ test_like key.1 && test_like key.2 = false) l.

(** The columns that are counted: fixes, commits and the last date of a file; the count,
    windows and dates of a pair. *)
Definition file_counts (r : GitFileRow) : N * N * option Z := (fix_count r, total_commits r, last_commit_at r).
Definition pair_counts (w : CoChangeWrite) : N * N * option Z * option Z :=
  (count w, window_mask w, first_observed_at w, last_observed_at w).

Definition file_totals (l : list Kept) : option (N * N * option Z) :=
  match l with
  | [] => None
  | _ => Some (N.of_nat (length (filter (λ k, is_fix_commit (subject k.1) = true) l)), N.of_nat (length l), newest l)
  end.

Definition pair_totals (l : list Kept) : option (N * N * option Z * option Z) :=
  match l with [] => None | _ => Some (N.of_nat (length l), mask_of l, oldest l, newest l) end.

Definition proper_pair (key : bytes * bytes) : Prop := bytes_leb key.1 key.2 = true ∧ key.1 ≠ key.2.

#[export] Instance proper_pair_decision key : Decision (proper_pair key).
Proof. unfold proper_pair. apply _. Defined.

(** The tables hold the totals of the commits [l]. *)
Definition totals_right (test_like : bytes → bool) (l : list Kept) (files : gmap bytes GitFileRow)
    (pairs : gmap (bytes * bytes) CoChangeWrite) : Prop :=
  (∀ p, file_counts <$> files !! p = file_totals (touching p l))
  ∧ ∀ key, pair_counts <$> pairs !! key = if decide (proper_pair key) then pair_totals (together test_like key l) else None.

(** ** Dates and masks *)

Lemma newer_assoc a b c : newer a (newer b c) = newer (newer a b) c.
Proof. destruct a, b, c; cbn; try done. f_equal. lia. Qed.
Lemma newer_comm a b : newer a b = newer b a.
Proof. destruct a, b; cbn; try done. f_equal. lia. Qed.
Lemma older_assoc a b c : older a (older b c) = older (older a b) c.
Proof. destruct a, b, c; cbn; try done. f_equal. lia. Qed.
Lemma older_comm a b : older a b = older b a.
Proof. destruct a, b; cbn; try done. f_equal. lia. Qed.
Lemma newer_none a : newer a None = a.
Proof. by destruct a. Qed.
Lemma older_none a : older a None = a.
Proof. by destruct a. Qed.

Lemma later_newer t o : later t o = newer o (Some t).
Proof. destruct o as [x|]; cbn; [|done]. destruct (Z.ltb_spec x t); f_equal; lia. Qed.
Lemma earlier_older t o : earlier t o = older o (Some t).
Proof. destruct o as [x|]; cbn; [|done]. destruct (Z.ltb_spec t x); f_equal; lia. Qed.

Lemma newest_app l l' : newest (l ++ l') = newer (newest l) (newest l').
Proof. induction l as [|k l IH]; [done|]. cbn [app newest foldr]. unfold newest in IH. by rewrite IH, newer_assoc. Qed.
Lemma oldest_app l l' : oldest (l ++ l') = older (oldest l) (oldest l').
Proof. induction l as [|k l IH]; [done|]. cbn [app oldest foldr]. unfold oldest in IH. by rewrite IH, older_assoc. Qed.
Lemma mask_of_app l l' : mask_of (l ++ l') = N.lor (mask_of l) (mask_of l').
Proof. induction l as [|k l IH]; [done|]. cbn [app mask_of foldr]. unfold mask_of in IH. by rewrite IH, N.lor_assoc. Qed.

(** The totals of the last commit added, and of two lists. *)
Definition add_file_counts (a b : N * N * option Z) : N * N * option Z :=
  (a.1.1 + b.1.1, a.1.2 + b.1.2, newer a.2 b.2)%N.
Definition add_pair_counts (a b : N * N * option Z * option Z) : N * N * option Z * option Z :=
  (a.1.1.1 + b.1.1.1, N.lor a.1.1.2 b.1.1.2, older a.1.2 b.1.2, newer a.2 b.2)%N.

Lemma file_totals_app l l' : file_totals (l ++ l') = union_with (λ a b, Some (add_file_counts a b)) (file_totals l) (file_totals l').
Proof.
  destruct l as [|k l]; [by destruct l'|]. destruct l' as [|k' l']; [by rewrite app_nil_r|].
  change (file_totals ((k :: l) ++ k' :: l')) with (Some (N.of_nat (length (filter (λ k, is_fix_commit (subject k.1) = true) ((k :: l) ++ k' :: l'))),
    N.of_nat (length ((k :: l) ++ k' :: l')), newest ((k :: l) ++ k' :: l'))).
  rewrite filter_app, !length_app, newest_app. unfold file_totals, add_file_counts. cbn [union_with option_union_with fst snd].
  by rewrite !Nat2N.inj_add.
Qed.

Lemma pair_totals_app l l' : pair_totals (l ++ l') = union_with (λ a b, Some (add_pair_counts a b)) (pair_totals l) (pair_totals l').
Proof.
  destruct l as [|k l]; [by destruct l'|]. destruct l' as [|k' l']; [by rewrite app_nil_r|].
  change (pair_totals ((k :: l) ++ k' :: l')) with (Some (N.of_nat (length ((k :: l) ++ k' :: l')), mask_of ((k :: l) ++ k' :: l'),
    oldest ((k :: l) ++ k' :: l'), newest ((k :: l) ++ k' :: l'))).
  rewrite length_app, mask_of_app, oldest_app, newest_app. unfold pair_totals, add_pair_counts. cbn [union_with option_union_with fst snd].
  by rewrite Nat2N.inj_add.
Qed.

Lemma touching_app p l l' : touching p (l ++ l') = touching p l ++ touching p l'.
Proof. apply filter_app. Qed.
Lemma together_app t key l l' : together t key (l ++ l') = together t key l ++ together t key l'.
Proof. apply filter_app. Qed.

(** ** The loop *)

(** One step per key, each its own. *)
Lemma fold_upserts {A K V} `{Countable K} (key : A → K) (g : A → option V → V) l (m : gmap K V) :
  NoDup (map key l) →
  (∀ x, x ∈ l → foldl (λ m x, <[key x := g x (m !! key x)]> m) m l !! key x = Some (g x (m !! key x)))
  ∧ ∀ k, k ∉ map key l → foldl (λ m x, <[key x := g x (m !! key x)]> m) m l !! k = m !! k.
Proof.
  revert m. induction l as [|x l IH]; intros m; cbn; [by split; [intros ? ?%elem_of_nil|]|].
  intros [Hx Hn]%NoDup_cons. destruct (IH (<[key x := g x (m !! key x)]> m) Hn) as [H1 H2]. split.
  - intros y [->|Hy]%elem_of_cons; [by rewrite H2, lookup_insert_eq|]. rewrite (H1 y Hy), lookup_insert_ne; [done|].
    intros E. apply Hx. rewrite E. change (@map A K) with (@fmap list _ A K). by apply list_elem_of_fmap_2.
  - intros k [Hk1 Hk2]%not_elem_of_cons. by rewrite H2, lookup_insert_ne.
Qed.

Lemma elem_of_each_pair {A} (l : list A) a b : NoDup l →
  (a, b) ∈ each_pair l ↔ ∃ i j, i < j ∧ l !! i = Some a ∧ l !! j = Some b.
Proof.
  induction l as [|x l IH]; intros Hn; cbn [each_pair].
  - split; [by intros ?%elem_of_nil|]. intros (i & j & _ & Hi & _). by rewrite lookup_nil in Hi.
  - apply NoDup_cons in Hn as [Hx Hn]. rewrite elem_of_app, (IH Hn). change (@map A (A * A)) with (@fmap list _ A (A * A)).
    rewrite list_elem_of_fmap. split.
    + intros [(y & [= -> ->] & (j & Hj)%list_elem_of_lookup)|(i & j & Hij & Hi & Hj)]; [exists 0, (S j)|exists (S i), (S j)]; split_and!; done || lia.
    + intros ([|i] & [|j] & Hij & Hi & Hj); try lia; cbn in Hi, Hj.
      * injection Hi as ->. left. exists b. split; [done|]. by apply list_elem_of_lookup_2 in Hj.
      * right. exists i, j. split_and!; [lia|done|done].
Qed.

Lemma each_pair_unordered {A} (l : list A) a b : NoDup l → a ≠ b →
  (a, b) ∈ each_pair l ∨ (b, a) ∈ each_pair l ↔ a ∈ l ∧ b ∈ l.
Proof.
  intros Hn Hab. rewrite !elem_of_each_pair by done. split.
  - intros [(i & j & _ & Hi & Hj)|(i & j & _ & Hi & Hj)]; apply list_elem_of_lookup_2 in Hi, Hj; done.
  - intros [(i & Hi)%list_elem_of_lookup (j & Hj)%list_elem_of_lookup]. destruct (Nat.lt_trichotomy i j) as [|[->|]];
      [left; by exists i, j|congruence|right; by exists j, i].
Qed.

Lemma ordered_cases p : ordered p = p ∧ bytes_leb p.1 p.2 = true ∨ ordered p = (p.2, p.1) ∧ bytes_leb p.2 p.1 = true.
Proof.
  unfold ordered. destruct (bytes_leb p.1 p.2) eqn:E; [by left|right]. split; [done|].
  destruct (total bytes_le p.1 p.2) as [H|H]; unfold bytes_le in H; congruence.
Qed.

Lemma ordered_proper p : p.1 ≠ p.2 → proper_pair (ordered p).
Proof. intros Hne. destruct (ordered_cases p) as [[-> ?]|[-> ?]]; split; cbn; done || congruence. Qed.

Lemma ordered_self key : proper_pair key → ordered key = key.
Proof. intros [H _]. unfold ordered. by rewrite H. Qed.

Lemma ordered_swap a b : a ≠ b → ordered (a, b) = ordered (b, a).
Proof.
  intros Hne. unfold ordered. cbn. destruct (bytes_leb a b) eqn:E1, (bytes_leb b a) eqn:E2; try done.
  - exfalso. apply Hne. by apply (anti_symm bytes_le).
  - destruct (total bytes_le a b) as [H|H]; unfold bytes_le in H; congruence.
Qed.

Lemma ordered_either key a b : a ≠ b → ordered (a, b) = key ↔ proper_pair key ∧ (key = (a, b) ∨ key = (b, a)).
Proof.
  intros Hne. split.
  - intros <-. split; [by apply ordered_proper|]. destruct (ordered_cases (a, b)) as [[-> _]|[-> _]]; [by left|by right].
  - intros [Hp [-> | ->]]; [by apply ordered_self|]. rewrite ordered_swap by done. by apply ordered_self.
Qed.

Lemma NoDup_each_pair {A} (l : list A) : NoDup l → NoDup (each_pair l).
Proof.
  induction l as [|x l IH]; intros Hn; [constructor|]. apply NoDup_cons in Hn as [Hx Hn]. cbn. apply NoDup_app. split_and!.
  - change (NoDup (pair x <$> l)). apply NoDup_fmap_2; [by intros ? ? [= ->]|done].
  - intros [a b]. change (@map A (A * A)) with (@fmap list _ A (A * A)). rewrite list_elem_of_fmap. intros (y & [= -> ->] & Hy).
    rewrite elem_of_each_pair by done. intros (i & j & _ & Hi & _). by apply Hx, (list_elem_of_lookup_2 _ _ _ Hi).
  - by apply IH.
Qed.

Lemma elem_of_List_filter {A} (f : A → bool) l x : x ∈ List.filter f l ↔ x ∈ l ∧ f x = true.
Proof. rewrite !list_elem_of_In, filter_In. done. Qed.

Lemma NoDup_List_filter {A} (f : A → bool) l : NoDup l → NoDup (List.filter f l).
Proof.
  induction l as [|x l IH]; intros Hn; [constructor|]. apply NoDup_cons in Hn as [Hx Hn]. cbn. destruct (f x); [|by apply IH].
  constructor; [|by apply IH]. by intros [? _]%elem_of_List_filter.
Qed.

Lemma elem_of_admitted test_like kept key : NoDup (map path kept) →
  key ∈ admitted test_like kept ↔ proper_pair key ∧ length kept ≤ MAX_FILES_PER_COMMIT_FOR_COCHANGE
    ∧ key.1 ∈ map path kept ∧ key.2 ∈ map path kept ∧ test_like key.1 && test_like key.2 = false.
Proof.
  intros Hn. unfold admitted. destruct (Nat.leb_spec (length kept) MAX_FILES_PER_COMMIT_FOR_COCHANGE) as [Hle|Hgt];
    [|split; [by intros ?%elem_of_nil|intros (_ & ? & _); lia]].
  change (@map (bytes * bytes) (bytes * bytes)) with (@fmap list _ (bytes * bytes) (bytes * bytes)). rewrite list_elem_of_fmap.
  assert (∀ a b, (a, b) ∈ each_pair (map path kept) → a ≠ b) as Hne.
  { intros a b (i & j & Hij & Hi & Hj)%elem_of_each_pair ->; [|done]. pose proof (NoDup_lookup _ _ _ _ Hn Hi Hj). lia. }
  split.
  - intros ([a b] & -> & [Hab Hf]%elem_of_List_filter). pose proof (Hne a b Hab) as Hd.
    assert (a ∈ map path kept ∧ b ∈ map path kept) as [Ha Hb] by (apply each_pair_unordered; [done|done|by left]).
    apply negb_true_iff in Hf. cbn in Hf. split; [by apply ordered_proper|]. split; [done|].
    destruct (ordered_cases (a, b)) as [[-> _]|[-> _]]; cbn; split_and!; try done. by rewrite andb_comm.
  - intros (Hp & _ & H1 & H2 & Ht). destruct key as [a b]. cbn in *. destruct Hp as [Hle' Hab]. cbn in Hle', Hab.
    destruct (proj2 (each_pair_unordered (map path kept) a b Hn Hab) (conj H1 H2)) as [H|H].
    + exists (a, b). split; [symmetry; by apply ordered_self|]. apply elem_of_List_filter. split; [done|]. cbn. by rewrite Ht.
    + exists (b, a). split; [rewrite ordered_swap by done; symmetry; by apply ordered_self|]. apply elem_of_List_filter. split; [done|].
      cbn. by rewrite andb_comm, Ht.
Qed.

Lemma NoDup_admitted test_like kept : NoDup (map path kept) → NoDup (admitted test_like kept).
Proof.
  intros Hn. unfold admitted. destruct (length kept <=? MAX_FILES_PER_COMMIT_FOR_COCHANGE); [|constructor].
  change (@map (bytes * bytes) (bytes * bytes)) with (@fmap list _ (bytes * bytes) (bytes * bytes)).
  apply NoDup_fmap_2_strong; [|by apply NoDup_List_filter, NoDup_each_pair].
  intros [a b] [c d] [H1 _]%elem_of_List_filter [H2 _]%elem_of_List_filter E.
  apply elem_of_each_pair in H1 as (i & j & Hij & Hi & Hj); [|done]. apply elem_of_each_pair in H2 as (k & m & Hkm & Hk & Hm); [|done].
  destruct (ordered_cases (a, b)) as [[E1 _]|[E1 _]], (ordered_cases (c, d)) as [[E2 _]|[E2 _]]; rewrite E1, E2 in E; cbn in E;
    injection E as -> ->; try done; exfalso; rewrite (NoDup_lookup _ _ _ _ Hn Hi Hm) in Hij; rewrite (NoDup_lookup _ _ _ _ Hn Hj Hk) in Hij; lia.
Qed.

Lemma lookup_of_fmap {A B} (f : A → B) (o : option A) (d : A) b : f <$> o = Some b → f (default d o) = b.
Proof. destruct o as [a|]; [by intros [= <-]|done]. Qed.

Section scan.
Context {E : Exp} (exclude test_like : bytes → bool) (anchor : Z).

Definition kept_of (commits : list Commit) : list Kept := omap (λ c, pair c <$> filter_kept exclude c) commits.

Definition wf_kept (k : Kept) : Prop := NoDup (paths k).

Lemma file_totals_single k : file_totals [k] = Some (if is_fix_commit (subject k.1) then 1%N else 0%N, 1%N, Some (timestamp k.1)).
Proof. unfold file_totals. rewrite filter_cons. by destruct (is_fix_commit (subject k.1)). Qed.

Lemma pair_totals_single k : pair_totals [k] = Some (1%N, window_bit (timestamp k.1), Some (timestamp k.1), Some (timestamp k.1)).
Proof. unfold pair_totals, mask_of, oldest, newest. cbn. by rewrite N.lor_0_r. Qed.

Lemma accumulate_right l files pairs k : wf_kept k → totals_right test_like l files pairs →
  totals_right test_like (l ++ [k]) (accumulate anchor test_like (files, pairs) k.1 k.2).1 (accumulate anchor test_like (files, pairs) k.1 k.2).2.
Proof.
  intros Hk [Hf Hp]. destruct k as [c kept]. unfold wf_kept, paths in Hk. cbn in Hk. split.
  - intros p. rewrite touching_app, file_totals_app, <- Hf. unfold accumulate. cbn [fst snd].
    set (g := λ x o, let stats := default no_stats o in
      mkFileRow (f64_add (churn_score stats) (churn_of (decay_of (Z.max (anchor - timestamp c) 0)) x))
        (if is_fix_commit (subject c) then N.succ (fix_count stats) else fix_count stats)
        (N.succ (total_commits stats)) (later (timestamp c) (last_commit_at stats))).
    destruct (fold_upserts path g kept files Hk) as [H1 H2].
    change (foldl (touch_file c (decay_of (Z.max (anchor - timestamp c) 0))) files kept) with (foldl (λ m x, <[path x := g x (m !! path x)]> m) files kept).
    unfold touching. rewrite filter_cons. unfold paths at 1. cbn [snd]. case_decide as Hin; cbn [filter list_filter].
    + change (@map FileChange bytes) with (@fmap list _ FileChange bytes) in Hin. apply list_elem_of_fmap in Hin as (x & -> & Hx).
      rewrite (H1 x Hx). change (filter (λ k : Kept, path x ∈ paths k) []) with (@nil Kept). rewrite file_totals_single. cbn [fst].
      destruct (files !! path x) as [[ch fx tot last]|]; unfold file_counts, g; cbn; unfold add_file_counts; cbn; rewrite ?later_newer; cbn;
        destruct (is_fix_commit (subject c)); do 2 f_equal; f_equal; lia.
    + rewrite H2 by done. by destruct (files !! p).
  - intros key. rewrite together_app. unfold accumulate. cbn [fst snd].
    set (g := λ (x : bytes * bytes) o, let pair := default no_pair o in
      mkWrite (f64_add (weight pair) (decay_of (Z.max (anchor - timestamp c) 0))) (N.succ (count pair)) (N.lor (window_mask pair) (window_bit (timestamp c)))
        (earlier (timestamp c) (first_observed_at pair)) (later (timestamp c) (last_observed_at pair))).
    assert (NoDup (map id (admitted test_like kept))) as Hn by (rewrite map_id; by apply NoDup_admitted).
    destruct (fold_upserts id g (admitted test_like kept) pairs Hn) as [H1 H2]. rewrite map_id in H2. unfold id in H1.
    change (foldl (touch_pair c (decay_of (Z.max (anchor - timestamp c) 0))) pairs (admitted test_like kept))
      with (foldl (λ m x, <[id x := g x (m !! id x)]> m) pairs (admitted test_like kept)).
    specialize (Hp key). destruct (decide (proper_pair key)) as [Hpr|Hpr].
    + rewrite pair_totals_app, <- Hp. unfold together. rewrite filter_cons. cbn [filter list_filter].
      change (filter _ []) with (@nil Kept). case_decide as Hc.
      * destruct Hc as (Hlen & Ha & Hb & Ht). rewrite H1 by (apply elem_of_admitted; [done|]; unfold paths in *; rewrite length_map in Hlen; done).
        rewrite pair_totals_single. cbn [fst].
        destruct (pairs !! key) as [[wt n mask fst' last]|]; unfold pair_counts, g; cbn; unfold add_pair_counts; cbn;
          rewrite ?later_newer, ?earlier_older; cbn; do 3 f_equal; try f_equal; try lia; by rewrite ?N.lor_0_l.
      * rewrite H2; [by destruct (pairs !! key)|]. intros (_ & Hlen & Ha & Hb & Ht)%elem_of_admitted; [|done]. apply Hc.
        unfold paths. rewrite length_map. done.
    + rewrite H2; [done|]. by intros (? & _)%elem_of_admitted.
Qed.

Lemma kept_of_snoc l c : kept_of (l ++ [c]) = kept_of l ++ option_list (pair c <$> filter_kept exclude c).
Proof. unfold kept_of. rewrite omap_app. cbn. by destruct (filter_kept exclude c). Qed.

Lemma scan_snoc l c : scan exclude test_like anchor (l ++ [c]) = scan_step exclude test_like anchor (scan exclude test_like anchor l) c.
Proof. unfold scan. by rewrite foldl_app. Qed.

(** The totals of a scan, and the commits it counts. *)
Lemma scan_right commits : Forall wf_kept (kept_of commits) →
  totals_right test_like (kept_of commits) (scan exclude test_like anchor commits).1.1 (scan exclude test_like anchor commits).1.2
  ∧ (scan exclude test_like anchor commits).2 = length (kept_of commits).
Proof.
  induction commits as [|c l IH] using rev_ind; intros Hwf.
  - split; [|done]. split; intros; cbn; rewrite lookup_empty; cbn; [done|by case_decide].
  - rewrite scan_snoc. rewrite kept_of_snoc in Hwf |- *. apply Forall_app in Hwf as [Hl Hk]. destruct (IH Hl) as [Hr Hn].
    unfold scan_step. destruct (scan exclude test_like anchor l) as [[files pairs] n] eqn:Es. cbn [fst snd] in *.
    destruct (filter_kept exclude c) as [kept|]; cbn [fmap option_fmap option_map option_list] in *.
    + apply Forall_cons in Hk as [Hk _]. cbn [fst snd]. split; [by apply (accumulate_right _ _ _ (c, kept))|]. rewrite length_app. cbn. lia.
    + by rewrite app_nil_r.
Qed.
End scan.
