(* ===== verification/GitLogic.v ===== *)
(** * GitLogic: reasoning about history passes

    [wp m Q d]: run on the database [d], [m] leaves a database of which [Q] holds with
    its result, or it fails for a reason of its surroundings ([blamed]): it never
    panics, and never offers the store a pair of a file with itself. *)
From stdpp Require Import gmap.
From S2P Require Import Prelude Order Float GitStore.
From Stdlib Require Import Lia.
Local Open Scope codesage_scope.

Section logic.
Context {Q : Sqlite}.

Definition blamed (e : HistoryError) : Prop :=
  match e with
  | DatabaseFailed => ∃ n, statement_fails n = true
  | SelfPair _ | Panicked => False
  | _ => True
  end.

Definition wp {A} (m : M A) (Post : A → Db → Prop) (d : Db) : Prop :=
  ∀ w, db w = d → match m w with (inr a, w') => Post a (db w') | (inl e, w') => blamed e end.

Section run.
Context {A B : Type}.
Implicit Types (m : M A) (d : Db).

Lemma wp_ret (a : A) (Post : A → Db → Prop) d : Post a d → wp (mret a) Post d.
Proof. by intros H w <-. Qed.

Lemma wp_bind m (f : A → M B) (Post : B → Db → Prop) d : wp m (λ a d, wp (f a) Post d) d → wp (m ≫= f) Post d.
Proof.
  intros H w Hw. specialize (H w Hw). unfold mbind, M_bind. destruct (m w) as [[e|a] w']; [done|]. by apply (H w').
Qed.

Lemma wp_mono m (P1 P2 : A → Db → Prop) d : wp m P1 d → (∀ a d, P1 a d → P2 a d) → wp m P2 d.
Proof. intros H HP w Hw. specialize (H w Hw). destruct (m w) as [[e|a] w']; auto. Qed.

Lemma wp_fail e (Post : A → Db → Prop) d : blamed e → wp (fail e) Post d.
Proof. intros H w _. exact H. Qed.

Lemma wp_statement (f : Db → A * Db) (Post : A → Db → Prop) d : Post (f d).1 (f d).2 → wp (statement f) Post d.
Proof.
  intros H w <-. unfold statement. destruct (statement_fails (steps w)) eqn:E; [by exists (steps w)|].
  by destruct (f (db w)).
Qed.

End run.

Lemma wp_exec (f : Db → Db) (Post : () → Db → Prop) d : Post () (f d) → wp (exec f) Post d.
Proof. intros H. by apply (wp_statement (λ d, ((), f d))). Qed.

Lemma wp_read {A} (f : Db → A) (Post : A → Db → Prop) d : Post (f d) d → wp (read f) Post d.
Proof. intros H. by apply (wp_statement (λ d, (f d, d))). Qed.

Lemma wp_now (Post : Z → Db → Prop) d : (∀ t, Post t d) → wp unix_now Post d.
Proof. intros H w <-. apply H. Qed.

Lemma wp_each {A} (body : A → M ()) (step : Db → A → Db) l (Post : () → Db → Prop) d :
  (∀ x d (P : () → Db → Prop), x ∈ l → P () (step d x) → wp (body x) P d) → Post () (foldl step d l) → wp (each body l) Post d.
Proof.
  revert d. induction l as [|x l IH]; intros d Hb HP; [by apply wp_ret|]. cbn [each]. apply wp_bind, Hb; [by left|].
  apply IH; [|done]. intros y d' P Hy. apply Hb. by right.
Qed.

(** Queries only. *)
Lemma wp_gather {A B} (body : A → M (list B)) (f : Db → A → list B) l (Post : list B → Db → Prop) d :
  (∀ x (P : list B → Db → Prop), x ∈ l → P (f d x) d → wp (body x) P d) → Post (concat (map (f d) l)) d → wp (gather body l) Post d.
Proof.
  revert Post. induction l as [|x l IH]; intros Post Hb HP; [by apply wp_ret|]. cbn [gather]. apply wp_bind, Hb; [by left|].
  apply wp_bind, IH; [intros y P Hy; apply Hb; by right|]. by apply wp_ret.
Qed.

Lemma wp_savepoint {A} (m : M A) (Post : A → Db → Prop) d : wp m Post d → wp (savepoint m) Post d.
Proof.
  intros H w Hw. unfold savepoint, exec, statement. destruct (statement_fails (steps w)) eqn:E; [by exists (steps w)|].
  cbn. specialize (H (set_db (db w) (next w)) Hw). destruct (m _) as [[e|a] w']; [done|].
  unfold mbind, M_bind, exec, statement. destruct (statement_fails (steps w')) eqn:E'; [by exists (steps w')|]. done.
Qed.

Lemma wp_execute_batch {A} (m : M A) (Post : A → Db → Prop) d : wp m Post d → wp (execute_batch m) Post d.
Proof.
  intros H w Hw. unfold execute_batch, exec, statement. destruct (statement_fails (steps w)) eqn:E; [by exists (steps w)|].
  cbn. specialize (H (set_db (db w) (next w)) Hw). destruct (m _) as [[e|a] w']; [done|].
  unfold exec, statement. destruct (statement_fails (steps w')) eqn:E'; [by exists (steps w')|]. done.
Qed.

(** A computation that changes no database, whatever happens. *)
Definition readonly {C} (m : M C) : Prop := ∀ w, db (m w).2 = db w.

(** A computation that fails leaves the database as it was. *)
Definition atomic {C} (m : M C) : Prop := ∀ w e w', m w = (inl e, w') → db w' = db w.

Lemma readonly_atomic {C} (m : M C) : readonly m → atomic m.
Proof. intros H w e w' Hm. specialize (H w). by rewrite Hm in H. Qed.

Lemma readonly_bind {C D} (m : M C) (f : C → M D) : readonly m → (∀ c, readonly (f c)) → readonly (m ≫= f).
Proof.
  intros Hm Hf w. unfold mbind, M_bind. specialize (Hm w). destruct (m w) as [[e|c] w']; [done|]. cbn in Hm. by rewrite (Hf c w').
Qed.

Lemma atomic_bind {C D} (m : M C) (f : C → M D) : readonly m → (∀ c, atomic (f c)) → atomic (m ≫= f).
Proof.
  intros Hm Hf w e w'. unfold mbind, M_bind. specialize (Hm w). destruct (m w) as [[e0|c] w0]; [by intros [= <- <-]|].
  cbn in Hm. intros H. by rewrite (Hf _ _ _ _ H).
Qed.

Lemma atomic_ret_after {C D} (m : M C) (f : C → D) : atomic m → atomic (c ← m; mret (f c)).
Proof.
  intros Hm w e w'. unfold mbind, M_bind. destruct (m w) as [[e0|c] w0] eqn:E; [|done]. intros [= <- <-]. by eapply Hm.
Qed.

Lemma readonly_ret {C} (c : C) : readonly (mret c).
Proof. done. Qed.

Lemma readonly_fail {C} e : readonly (fail (A := C) e).
Proof. done. Qed.

Lemma readonly_read {C} (f : Db → C) : readonly (read f).
Proof. intros w. unfold read, statement. by destruct (statement_fails (steps w)). Qed.

Lemma readonly_now : readonly unix_now.
Proof. done. Qed.

Lemma atomic_batch {C} (m : M C) : atomic (execute_batch m).
Proof.
  intros w e w'. unfold execute_batch, exec, statement. destruct (statement_fails (steps w)); [by intros [= <- <-]|].
  cbn. destruct (m _) as [[e0|a] w0]; [by intros [= <- <-]|]. destruct (statement_fails (steps w0)); [by intros [= <- <-]|done].
Qed.
End logic.
