(* ===== verification/GitRekey.v ===== *)
(** * GitRekey: moving recorded history to new paths

    [Database::rekey_git_history] as one simultaneous substitution: when no two recorded
    paths land on one, every row is found under the path its own went to, unchanged. *)
From stdpp Require Import gmap sorting.
From S2P Require Import Prelude Order Float GitStore GitLogic GitHistory GitScan.
From Stdlib Require Import Lia.
Local Open Scope codesage_scope.

(** Every entry of [m] under its key's image, and nothing else. *)
Definition moved_table {K V} `{Countable K} (σ : K → option K) (m m' : gmap K V) : Prop :=
  ∀ k v, m' !! k = Some v ↔ ∃ k0, σ k0 = Some k ∧ m !! k0 = Some v.

Definition separates {K V} `{Countable K} (σ : K → option K) (m : gmap K V) : Prop :=
  ∀ k1 k2 k, is_Some (m !! k1) → is_Some (m !! k2) → σ k1 = Some k → σ k2 = Some k → k1 = k2.

Lemma foldl_proj {A B C} (proj : A → B) (step : A → C → A) (step' : B → C → B) l d :
  (∀ d x, proj (step d x) = step' (proj d) x) → proj (foldl step d l) = foldl step' (proj d) l.
Proof. intros H. revert d. induction l as [|x l IH]; intros d; [done|]. cbn. by rewrite IH, H. Qed.

Section moving.
Context {K V : Type} `{Countable K} (σ : K → option K) (m : gmap K V).

(** The rows taken out, and put back one by one where no row is. *)
Lemma fold_moves (gone : K → Prop) (m1 : gmap K V) (rows : list (K * V)) (step : gmap K V → K * V → gmap K V) :
  (∀ k, Decision (gone k)) →
  separates σ m →
  (∀ k v, m1 !! k = Some v ↔ ¬ gone k ∧ m !! k = Some v) →
  (∀ k v, (k, v) ∈ rows ↔ gone k ∧ m !! k = Some v) →
  NoDup (map fst rows) →
  (∀ k, is_Some (m !! k) → ¬ gone k → σ k = Some k) →
  (∀ t r k, r ∈ rows → σ r.1 = Some k → t !! k = None → step t r = <[k := r.2]> t) →
  (∀ t r, r ∈ rows → σ r.1 = None → step t r = t) →
  moved_table σ m (foldl step m1 rows).
Proof.
  intros Hdec Hsep H1 Hrows Hnd Hstay Hput Hdrop.
  enough (∀ k v, foldl step m1 rows !! k = Some v ↔ m1 !! k = Some v ∨ ∃ k0, (k0, v) ∈ rows ∧ σ k0 = Some k) as Hf.
  { intros k v. rewrite Hf, H1. split.
    - intros [[Hg Hm]|(k0 & Hk0 & Hs)]; [exists k; split; [by apply Hstay|done]|exists k0; split; [done|by apply Hrows]].
    - intros (k0 & Hs & Hm). destruct (decide (gone k0)) as [Hg|Hg]; [right; exists k0; by rewrite Hrows|left].
      assert (σ k0 = Some k0) as E by by apply Hstay. assert (k0 = k) as -> by congruence. done. }
  assert (∀ k v k0 v0, m1 !! k = Some v → (k0, v0) ∈ rows → σ k0 = Some k → False) as Hfree.
  { intros k v k0 v0 [Hg Hm]%H1 [Hg0 Hm0]%Hrows Hs. apply Hg. rewrite <- (Hsep k0 k k); [done|by eexists..| |]; [done|by apply Hstay]. }
  clear H1 Hstay. assert (∀ k v, (k, v) ∈ rows → is_Some (m !! k)) as Hin by (intros k v [_ ?]%Hrows; by eexists). clear Hrows.
  induction rows as [|[k0 v0] rows IH] using rev_ind.
  - intros k v. cbn. split; [by left|]. intros [|(? & ?%elem_of_nil & _)]; done.
  - intros k v. rewrite foldl_app. cbn [foldl]. rewrite map_app in Hnd. apply NoDup_app in Hnd as (Hnd & Hfresh & _).
    assert ((k0, v0) ∈ rows ++ [(k0, v0)]) as Hlast by (apply elem_of_app; right; by left).
    assert (∀ k v, foldl step m1 rows !! k = Some v ↔ m1 !! k = Some v ∨ ∃ k0, (k0, v) ∈ rows ∧ σ k0 = Some k) as IH'.
    { apply IH; [done|..]; intros; [apply Hput|apply Hdrop|eapply Hfree|eapply Hin]; try (apply elem_of_app; by left); done. }
    clear IH. destruct (σ k0) as [k1|] eqn:Es.
    + assert (foldl step m1 rows !! k1 = None) as Hn.
      { apply eq_None_not_Some. intros [u [Hu|(k2 & Hk2 & Hs2)]%IH']; [by eapply Hfree|].
        assert (k0 = k2) as <-.
        { eapply (Hsep k0 k2 k1); [by eapply Hin| |done..]. eapply Hin. apply elem_of_app. left. exact Hk2. }
        apply (Hfresh k0); [|by left]. change (@map (K * V) K) with (@fmap list _ (K * V) K). apply list_elem_of_fmap. by exists (k0, u). }
      rewrite (Hput _ _ k1) by done. cbn [snd]. destruct (decide (k1 = k)) as [->|Hne].
      * rewrite lookup_insert_eq. split.
        -- intros [= <-]. right. by exists k0.
        -- intros [Hm|(k2 & [Hk2|Hk2%list_elem_of_singleton]%elem_of_app & Hs2)].
           ++ exfalso. by eapply Hfree.
           ++ exfalso. assert (foldl step m1 rows !! k = Some v) as Hc by (apply IH'; right; by exists k2). congruence.
           ++ congruence.
      * rewrite lookup_insert_ne, IH' by done. split.
        -- intros [?|(k2 & ? & ?)]; [by left|right]. exists k2. by rewrite elem_of_app; split; [left|].
        -- intros [?|(k2 & [?|Hk2%list_elem_of_singleton]%elem_of_app & Hs2)]; [by left|right; by exists k2|]. congruence.
    + rewrite Hdrop, IH' by done. split.
      * intros [?|(k2 & ? & ?)]; [by left|right]. exists k2. by rewrite elem_of_app; split; [left|].
      * intros [?|(k2 & [?|Hk2%list_elem_of_singleton]%elem_of_app & Hs2)]; [by left|right; by exists k2|]. congruence.
Qed.
End moving.

(** Keys removed one after the other. *)
Lemma fold_deletes {K V A} `{Countable K} (remove : A → gmap K V → gmap K V) (hit : A → K → Prop) (l : list A) (m : gmap K V) :
  (∀ x t k v, remove x t !! k = Some v ↔ ¬ hit x k ∧ t !! k = Some v) →
  ∀ k v, foldl (λ t x, remove x t) m l !! k = Some v ↔ (¬ ∃ x, x ∈ l ∧ hit x k) ∧ m !! k = Some v.
Proof.
  intros Hr. induction l as [|x l IH] using rev_ind; intros k v.
  - cbn. split; [|by intros [_ ?]]. intros ?. split; [|done]. by intros (? & ?%elem_of_nil & _).
  - rewrite foldl_app. cbn. rewrite Hr, IH. split.
    + intros (Hx & Hl & Hm). split; [|done]. intros (y & [Hy|Hy%list_elem_of_singleton]%elem_of_app & Hh); [apply Hl; by exists y|by subst].
    + intros (Hl & Hm). split_and!; [| |done]; intros Hh; apply Hl; [exists x; by rewrite elem_of_app, list_elem_of_singleton; split; [right|]|].
      destruct Hh as (y & Hy & Hh). exists y. by rewrite elem_of_app; split; [left|].
Qed.

Lemma unseen_keys (l : list ((bytes * bytes) * CoChange)) k :
  k ∈ (foldl unseen (∅, []) l).1 ↔ k ∈ map fst (foldl unseen (∅, []) l).2.
Proof.
  revert k. induction l as [|x l IH] using rev_ind; intros k; [cbn; set_solver|]. rewrite foldl_app. cbn [foldl].
  destruct (foldl unseen (∅, []) l) as [seen rows]. cbn [fst snd] in IH. unfold unseen. case_decide; cbn [fst snd]; [apply IH|].
  rewrite map_app, elem_of_app, <- IH. cbn. set_solver.
Qed.

(** Rows met more than once are taken once. *)
Lemma unseen_ok (l : list ((bytes * bytes) * CoChange)) (m : gmap (bytes * bytes) CoChange) :
  (∀ r, r ∈ l → m !! r.1 = Some r.2) →
  NoDup (map fst (foldl unseen (∅, []) l).2) ∧ ∀ r, r ∈ (foldl unseen (∅, []) l).2 ↔ r ∈ l.
Proof.
  intros Hm. induction l as [|x l IH] using rev_ind; [split; [constructor|done]|].
  pose proof (unseen_keys l) as Hseen. destruct IH as [Hn Hin]; [intros r Hr; apply Hm, elem_of_app; by left|]. rewrite foldl_app. cbn [foldl].
  destruct (foldl unseen (∅, []) l) as [seen rows]. cbn [fst snd] in *. unfold unseen. case_decide as Hd; cbn [fst snd].
  - split; [done|]. intros r. rewrite Hin, elem_of_app, list_elem_of_singleton. split; [by left|]. intros [? | ->]; [done|].
    apply Hseen, list_elem_of_fmap in Hd as (y & Hy & Hyr). apply Hin in Hyr as Hyl.
    assert (m !! y.1 = Some y.2) as H1 by (apply Hm, elem_of_app; by left).
    assert (m !! x.1 = Some x.2) as H2 by (apply Hm, elem_of_app; right; by left).
    assert (x = y) as -> by (destruct x, y; cbn in *; congruence). done.
  - split.
    + rewrite map_app. apply NoDup_app. split_and!; [done| |apply NoDup_singleton]. intros k Hk Hk'. cbn in Hk'.
      apply list_elem_of_singleton in Hk' as ->. by apply Hd, Hseen.
    + intros r. by rewrite !elem_of_app, Hin.
Qed.

Lemma touches_true p key : touches p key = true ↔ key.1 = p ∨ key.2 = p.
Proof. unfold touches. by rewrite orb_true_iff, !bool_decide_eq_true. Qed.

Lemma elem_of_fmap_map {A B} (f : A → B) l x : x ∈ map f l ↔ ∃ y, x = f y ∧ y ∈ l.
Proof. apply list_elem_of_fmap. Qed.

(** ** The substitution *)

Section rekey.
Context {Q : Sqlite} {H : HashOrder} {HL : HashOrderLaws H}.
Context (moves : list (bytes * option bytes)) (Hmoves : NoDup (map fst moves)).

Definition destination (p : bytes) : option bytes := successor_in (list_to_map (reverse moves)) p.

Definition pair_destination (key : bytes * bytes) : option (bytes * bytes) :=
  match destination key.1, destination key.2 with
  | Some a, Some b => if decide (a = b) then None else Some (ordered (a, b))
  | _, _ => None
  end.

Definition event_destination (key : bytes * bytes) : option (bytes * bytes) := (λ p, (p, key.2)) <$> destination key.1.

Lemma targets_lookup p to : list_to_map (M := gmap bytes (option bytes)) (reverse moves) !! p = Some to ↔ (p, to) ∈ moves.
Proof using Hmoves.
  rewrite <- elem_of_list_to_map; [by rewrite elem_of_reverse|].
  change (NoDup (fst <$> reverse moves)). by rewrite (reverse_Permutation moves).
Qed.

Lemma destination_move p to : (p, to) ∈ moves → destination p = to.
Proof using Hmoves. intros Hp%targets_lookup. unfold destination, successor_in. by rewrite Hp. Qed.

Lemma destination_stay p : p ∉ map fst moves → destination p = Some p.
Proof using Hmoves.
  intros Hp. unfold destination, successor_in. destruct (_ !! p) as [to|] eqn:E; [|done]. apply targets_lookup in E.
  exfalso. apply Hp. apply elem_of_fmap_map. by exists (p, to).
Qed.

Definition sources : list bytes := hash_order (map fst (map_to_list (list_to_map (M := gmap bytes (option bytes)) (reverse moves)))).

Lemma elem_of_sources p : p ∈ sources ↔ p ∈ map fst moves.
Proof using Hmoves HL.
  unfold sources. rewrite hash_order_perm, !elem_of_fmap_map. split.
  - intros ([q to] & -> & Hq%elem_of_map_to_list%targets_lookup). by exists (q, to).
  - intros ([q to] & -> & Hq). exists (q, to). split; [done|]. by apply elem_of_map_to_list, targets_lookup.
Qed.

Lemma NoDup_sources : NoDup sources.
Proof using HL. unfold sources. rewrite hash_order_perm. apply NoDup_fst_map_to_list. Qed.

(** What must hold of the tables for the moves to be exact. *)
Record recorded_ok (d : Db) : Prop := {
  rec_separate : separates destination (git_files d);
  rec_pairs key row : git_co_changes d !! key = Some row →
    proper_pair key ∧ is_Some (git_files d !! key.1) ∧ is_Some (git_files d !! key.2) ∧ row = pair_row (counters row);
  rec_events key v : git_author_events d !! key = Some v → is_Some (git_files d !! key.1) }.

Definition rekeyed (d d' : Db) : Prop :=
  moved_table destination (git_files d) (git_files d')
  ∧ moved_table pair_destination (git_co_changes d) (git_co_changes d')
  ∧ moved_table event_destination (git_author_events d) (git_author_events d')
  ∧ authors_complete d' = authors_complete d ∧ index_state d' = index_state d.

Lemma pair_separates d : recorded_ok d → separates pair_destination (git_co_changes d).
Proof using Type.
  intros [Hsep Hp _] k1 k2 k [r1 H1] [r2 H2]. apply Hp in H1 as ([Hle1 Hne1] & Ha1 & Hb1 & _), H2 as ([Hle2 Hne2] & Ha2 & Hb2 & _).
  unfold pair_destination. destruct k1 as [a1 b1], k2 as [a2 b2]. cbn in *.
  destruct (destination a1) as [c1|] eqn:E1; [|done]. destruct (destination b1) as [d1|] eqn:E2; [|done]. case_decide as Hd1; [done|].
  destruct (destination a2) as [c2|] eqn:E3; [|done]. destruct (destination b2) as [d2|] eqn:E4; [|done]. case_decide as Hd2; [done|].
  intros [= <-] [= E]. assert ((c1 = c2 ∧ d1 = d2) ∨ (c1 = d2 ∧ d1 = c2)) as [[-> ->]|[-> ->]].
  { destruct (ordered_cases (c1, d1)) as [[F1 _]|[F1 _]], (ordered_cases (c2, d2)) as [[F2 _]|[F2 _]]; rewrite F1, F2 in E; cbn in E;
      injection E as -> ->; auto. }
  - by rewrite (Hsep a1 a2 c2 Ha1 Ha2 E1 E3), (Hsep b1 b2 d2 Hb1 Hb2 E2 E4).
  - exfalso. pose proof (Hsep a1 b2 d2 Ha1 Hb2 E1 E4) as ->. pose proof (Hsep b1 a2 c2 Hb1 Ha2 E2 E3) as ->.
    apply Hne1. by apply (anti_symm bytes_le).
Qed.

Lemma wp_order (a b : bytes) (Post : bytes * bytes → Db → Prop) d : a ≠ b → Post (ordered (a, b)) d → wp (order_co_change_pair a b) Post d.
Proof using Type. intros Hne HP. unfold order_co_change_pair. rewrite decide_False by done. by apply wp_ret. Qed.

(** ** Its steps *)

Definition step_delete (d : Db) (from : bytes) : Db :=
  set_pairs (filter (λ r, touches from r.1 = false)) (set_files (delete from) d).

Definition step_file (d : Db) (r : bytes * GitFileRow) : Db :=
  match destination r.1 with Some to => set_files (upsert_with add_file to r.2) d | None => d end.

Definition step_pair (d : Db) (r : (bytes * bytes) * CoChange) : Db :=
  match pair_destination r.1 with
  | Some key => set_windows key (set_pairs (upsert_with merge_pair key (pair_row (counters r.2))) d)
  | None => d
  end.

Definition file_rows (d : Db) : list (bytes * GitFileRow) :=
  concat (map (λ from, match git_files d !! from with Some r => [(from, r)] | None => [] end) sources).

Definition pair_rows (d : Db) : list ((bytes * bytes) * CoChange) :=
  (foldl unseen (∅, []) (concat (map (λ from, hash_order (map_to_list (filter (λ r, touches from r.1 = true) (git_co_changes d)))) sources))).2.

Definition step_event_delete (d : Db) (m : bytes * option bytes) : Db := set_events (filter (λ e, e.1.1 ≠ m.1)) d.

Definition step_event (d : Db) (e : bytes * bytes * (bytes * Z)) : Db :=
  set_events (λ t, match t !! e.1 with Some _ => t | None => <[e.1 := e.2]> t end) d.

Definition event_rows (d : Db) : list (bytes * bytes * (bytes * Z)) :=
  concat (map (λ m : bytes * option bytes, match m.2 with
    | None => []
    | Some to => map (λ e, (to, e.1.2, e.2)) (hash_order (map_to_list (filter (λ e, e.1.1 = m.1) (git_author_events d))))
    end) moves).

Definition rekey_tables (d : Db) : Db :=
  foldl step_pair (foldl step_file (foldl step_delete d sources) (file_rows d)) (pair_rows d).

Definition rekey_events (d : Db) : Db := foldl step_event (foldl step_event_delete d moves) (event_rows d).

Lemma wp_rekey_events (Post : () → Db → Prop) d : Post () (rekey_events d) → wp (rekey_git_author_events moves) Post d.
Proof using Type.
  intros HP. unfold rekey_git_author_events. apply wp_bind.
  apply (wp_gather moved_events (λ d (m : bytes * option bytes), match m.2 with
    | None => []
    | Some to => map (λ e, (to, e.1.2, e.2)) (hash_order (map_to_list (filter (λ e, e.1.1 = m.1) (git_author_events d))))
    end)).
  { intros [from [to|]] P _ Hx; cbn in *; [by apply wp_read|by apply wp_ret]. }
  apply wp_bind, (wp_each _ step_event_delete); [intros x d' P _ Hx; by apply wp_exec|].
  apply (wp_each _ step_event); [intros x d' P _ Hx; by apply wp_exec|]. exact HP.
Qed.

Lemma wp_rekey (Post : () → Db → Prop) d : Post () (rekey_events (rekey_tables d)) → wp (rekey_git_history_inner moves) Post d.
Proof using Type.
  intros HP. unfold rekey_git_history_inner. apply wp_bind.
  apply (wp_gather _ (λ d from, [(match git_files d !! from with Some r => [(from, r)] | None => [] end,
    hash_order (map_to_list (filter (λ r, touches from r.1 = true) (git_co_changes d))))])).
  { intros from P _ Hx. apply wp_bind. unfold file_rows_of. apply wp_bind. apply wp_read, wp_ret, wp_bind, wp_read, wp_ret, Hx. }
  apply wp_bind, (wp_each _ step_delete); [intros x d' P _ Hx; by apply wp_bind, wp_exec, wp_exec|].
  apply wp_bind, (wp_each _ step_file).
  { intros x d' P _ Hx. unfold rekey_file. unfold step_file, destination in Hx. destruct (successor_in _ _); [by apply wp_exec|by apply wp_ret]. }
  apply wp_bind, (wp_each _ step_pair).
  { intros x d' P _ Hx. unfold rekey_pair. unfold step_pair, pair_destination, destination in Hx.
    destruct (successor_in _ x.1.1) as [a|]; [|by apply wp_ret]. destruct (successor_in _ x.1.2) as [b|]; [|by apply wp_ret].
    case_decide as Hd; [by apply wp_ret|]. unfold merge_git_co_change. apply wp_bind, wp_order; [done|]. by apply wp_bind, wp_exec, wp_exec. }
  apply wp_rekey_events.
  assert (∀ (l : list bytes) (f : bytes → list (bytes * GitFileRow)) (g : bytes → list ((bytes * bytes) * CoChange)),
    concat (map fst (concat (map (λ x, [(f x, g x)]) l))) = concat (map f l) ∧ concat (map snd (concat (map (λ x, [(f x, g x)]) l))) = concat (map g l)) as Hpairs.
  { intros l f g. induction l as [|x l [IH1 IH2]]; [done|]. cbn. by rewrite IH1, IH2. }
  destruct (Hpairs sources (λ from, match git_files d !! from with Some r => [(from, r)] | None => [] end)
    (λ from, hash_order (map_to_list (filter (λ r, touches from r.1 = true) (git_co_changes d))))) as [E1 E2].
  unfold rekey_tables, file_rows, pair_rows in HP. rewrite <- E1, <- E2 in HP. exact HP.
Qed.

(** ** What they amount to *)

Lemma foldl_same {A B C} (proj : A → B) (step : A → C → A) l d : (∀ d x, proj (step d x) = proj d) → proj (foldl step d l) = proj d.
Proof using Type. intros Hs. revert d. induction l as [|x l IH]; intros d; [done|]. cbn. by rewrite IH, Hs. Qed.

Lemma rekey_events_same d :
  git_files (rekey_events d) = git_files d ∧ git_co_changes (rekey_events d) = git_co_changes d
  ∧ authors_complete (rekey_events d) = authors_complete d ∧ index_state (rekey_events d) = index_state d.
Proof using Type. unfold rekey_events. split_and!; rewrite !foldl_same; done. Qed.

Lemma step_pair_same d r :
  git_files (step_pair d r) = git_files d ∧ git_author_events (step_pair d r) = git_author_events d
  ∧ authors_complete (step_pair d r) = authors_complete d ∧ index_state (step_pair d r) = index_state d.
Proof using Type. unfold step_pair. by destruct (pair_destination r.1). Qed.

Lemma step_file_same d r :
  git_co_changes (step_file d r) = git_co_changes d ∧ git_author_events (step_file d r) = git_author_events d
  ∧ authors_complete (step_file d r) = authors_complete d ∧ index_state (step_file d r) = index_state d.
Proof using Type. unfold step_file. by destruct (destination r.1). Qed.

Lemma rekey_tables_same d :
  git_author_events (rekey_tables d) = git_author_events d ∧ authors_complete (rekey_tables d) = authors_complete d
  ∧ index_state (rekey_tables d) = index_state d.
Proof using Type.
  unfold rekey_tables. split_and!; rewrite !foldl_same; try done; intros; (apply step_pair_same || apply step_file_same).
Qed.

Lemma files_rekeyed d : recorded_ok d → moved_table destination (git_files d) (git_files (rekey_tables d)).
Proof using Hmoves HL.
  intros Hok. unfold rekey_tables. rewrite foldl_same by apply step_pair_same.
  rewrite (foldl_proj git_files step_file (λ m r, match destination r.1 with Some to => upsert_with add_file to r.2 m | None => m end))
    by (intros d0 r; unfold step_file; by destruct (destination r.1)).
  rewrite (foldl_proj git_files step_delete (λ m x, delete x m)) by done.
  apply (fold_moves destination _ (λ p, p ∈ sources)).
  - intros p. apply _.
  - apply (rec_separate d Hok).
  - intros p v. rewrite (fold_deletes (λ x m, delete x m) (λ x p, p = x)).
    + split; intros [Hn ?]; (split; [|done]); [intros Hp; apply Hn; by exists p|intros (x & Hx & ->); done].
    + intros x t k v'. rewrite lookup_delete_Some. naive_solver.
  - intros p v. unfold file_rows. rewrite elem_of_concat. setoid_rewrite elem_of_fmap_map. split.
    + intros (l & (x & -> & Hx) & Hl). destruct (git_files d !! x) eqn:E; [|by apply elem_of_nil in Hl].
      apply list_elem_of_singleton in Hl as [= -> ->]. done.
    + intros [Hp Hv]. exists [(p, v)]. split; [|by left]. exists p. by rewrite Hv.
  - unfold file_rows. pose proof NoDup_sources as Hn. induction sources as [|x l IH]; [constructor|]. apply NoDup_cons in Hn as [Hx Hn].
    cbn. destruct (git_files d !! x) eqn:E; cbn; [|by apply IH]. constructor; [|by apply IH].
    rewrite elem_of_fmap_map. intros ([y r] & -> & (l' & (z & -> & Hz)%elem_of_fmap_map & Hl)%elem_of_concat).
    destruct (git_files d !! z); [|by apply elem_of_nil in Hl]. apply list_elem_of_singleton in Hl as [= -> ->]. done.
  - intros p _ Hp. apply destination_stay. by rewrite <- elem_of_sources.
  - intros t r k _ -> Ht. unfold upsert_with. by rewrite Ht.
  - by intros t r _ ->.
Qed.

Lemma pairs_rekeyed d : recorded_ok d → moved_table pair_destination (git_co_changes d) (git_co_changes (rekey_tables d)).
Proof using Hmoves HL.
  intros Hok. unfold rekey_tables.
  rewrite (foldl_proj git_co_changes step_pair (λ m r, match pair_destination r.1 with
    | Some key => alter (λ r, pair_row (counters r)) key (upsert_with merge_pair key (pair_row (counters r.2)) m) | None => m end))
    by (intros d0 r; unfold step_pair; by destruct (pair_destination r.1)).
  rewrite (foldl_same git_co_changes step_file) by apply step_file_same.
  rewrite (foldl_proj git_co_changes step_delete (λ m x, filter (λ r, touches x r.1 = false) m)) by done.
  assert (∀ r, r ∈ concat (map (λ from, hash_order (map_to_list (filter (λ r, touches from r.1 = true) (git_co_changes d)))) sources)
    ↔ (∃ x, x ∈ sources ∧ touches x r.1 = true) ∧ git_co_changes d !! r.1 = Some r.2) as Hin.
  { intros [key row]. rewrite elem_of_concat. setoid_rewrite elem_of_fmap_map. split.
    - intros (l & (x & -> & Hx) & Hl). rewrite hash_order_perm, elem_of_map_to_list, map_lookup_filter_Some in Hl. destruct Hl as [Hk Ht].
      split; [by exists x|done].
    - intros [(x & Hx & Ht) Hk]. eexists. split; [by exists x|]. by rewrite hash_order_perm, elem_of_map_to_list, map_lookup_filter_Some. }
  destruct (unseen_ok _ (git_co_changes d) (λ r Hr, proj2 (proj1 (Hin r) Hr))) as [Hnd Hsame].
  apply (fold_moves pair_destination _ (λ key, Exists (λ x, touches x key = true) sources)).
  - intros key. apply _.
  - by apply pair_separates.
  - intros key v. rewrite (fold_deletes (λ x m, filter (λ r, touches x r.1 = false) m) (λ x key, touches x key = true)).
    + rewrite Exists_exists. done.
    + intros x t k v'. rewrite map_lookup_filter_Some. cbn. destruct (touches x k); naive_solver.
  - intros key v. unfold pair_rows. rewrite Hsame, Hin, Exists_exists. done.
  - exact Hnd.
  - intros key [row Hrow] Hno. destruct (rec_pairs d Hok key row Hrow) as (Hp & _). unfold pair_destination.
    assert (∀ p, (key.1 = p ∨ key.2 = p) → destination p = Some p) as Hs.
    { intros p Hp'. apply destination_stay. rewrite <- elem_of_sources. intros Hin'. apply Hno, Exists_exists. exists p. by rewrite touches_true. }
    rewrite !Hs by auto. rewrite decide_False by apply Hp. destruct key as [a b]. f_equal. by apply ordered_self.
  - intros t r k Hr -> Ht. unfold upsert_with. rewrite Ht. apply map_eq. intros k'. destruct (decide (k = k')) as [<-|Hne].
    + rewrite lookup_alter_eq, !lookup_insert_eq. cbn. f_equal. symmetry. apply Hsame, Hin in Hr as [_ Hr]. by apply (rec_pairs d Hok) in Hr as (_ & _ & _ & ?).
    + by rewrite lookup_alter_ne, !lookup_insert_ne.
  - by intros t r _ ->.
Qed.

Lemma event_separates d : recorded_ok d → separates event_destination (git_author_events d).
Proof using Type.
  intros [Hsep _ He] [p1 h1] [p2 h2] k [v1 H1%He] [v2 H2%He]. unfold event_destination. cbn in *.
  destruct (destination p1) as [q1|] eqn:E1; [|done]. destruct (destination p2) as [q2|] eqn:E2; [|done]. intros [= <-] [= <- <-].
  by rewrite (Hsep p1 p2 q2 H1 H2 E1 E2).
Qed.

Lemma events_rekeyed d : separates event_destination (git_author_events d) → moved_table event_destination (git_author_events d) (git_author_events (rekey_events d)).
Proof using Hmoves HL.
  intros Hok. unfold rekey_events.
  rewrite (foldl_proj git_author_events step_event (λ t e, match t !! e.1 with Some _ => t | None => <[e.1 := e.2]> t end)) by done.
  rewrite (foldl_proj git_author_events step_event_delete (λ m x, filter (λ e, e.1.1 ≠ x.1) m)) by done.
  set (rows := concat (map (λ m : bytes * option bytes, map (λ e, (m.1, e.1.2, e.2)) (hash_order (map_to_list (filter (λ e, e.1.1 = m.1) (git_author_events d))))) moves)).
  set (step := λ (t : gmap (bytes * bytes) (bytes * Z)) (e : bytes * bytes * (bytes * Z)), match event_destination e.1 with
    | Some k => match t !! k with Some _ => t | None => <[k := e.2]> t end | None => t end).
  assert (∀ t, foldl (λ t e, match t !! e.1 with Some _ => t | None => <[e.1 := e.2]> t end) t (event_rows d) = foldl step t rows) as ->.
  { unfold event_rows, rows. assert (∀ m, m ∈ moves → destination m.1 = m.2) as Hd by (intros [p to]; apply destination_move).
    induction moves as [|[from to] l IH]; intros t; [done|]. cbn [map concat]. rewrite !foldl_app.
    assert (destination from = to) as Hto by (apply (Hd (from, to)); by left).
    assert (∀ t l, foldl (λ t e, match t !! e.1 with Some _ => t | None => <[e.1 := e.2]> t end) t
      (match to with None => [] | Some to => map (λ e : bytes * bytes * (bytes * Z), (to, e.1.2, e.2)) l end)
      = foldl step t (map (λ e : bytes * bytes * (bytes * Z), (from, e.1.2, e.2)) l)) as Hone.
    { intros t' l'. assert (∀ h, event_destination (from, h) = (λ p, (p, h)) <$> to) as Hev by (intros h; unfold event_destination; cbn; by rewrite Hto).
      revert t'. induction l' as [|e l' IHl]; intros t'; [by destruct to|]. cbn [map foldl]. unfold step at 2. cbn [fst snd]. rewrite Hev.
      rewrite <- IHl. by destruct to. }
    cbn [fst snd]. rewrite Hone. apply IH; [|intros m Hm; apply Hd; by right]. by apply NoDup_cons in Hmoves as [_ ?]. }
  assert (∀ r, r ∈ rows ↔ r.1.1 ∈ map fst moves ∧ git_author_events d !! r.1 = Some r.2) as Hin.
  { intros [[p h] v]. unfold rows. rewrite elem_of_concat. setoid_rewrite elem_of_fmap_map. cbn. split.
    - intros (l & ([q to] & -> & Hm) & (e & Ee & He)%elem_of_fmap_map). rewrite hash_order_perm, elem_of_map_to_list', map_lookup_filter_Some in He.
      destruct e as [[q' h'] v']. cbn in *. injection Ee as -> -> ->. destruct He as [He ->]. split; [by exists (q, to)|done].
    - intros [([q to] & -> & Hm) Hv]. eexists. split; [by exists (q, to)|]. apply elem_of_fmap_map. exists (q, h, v). split; [done|].
      by rewrite hash_order_perm, elem_of_map_to_list, map_lookup_filter_Some. }
  apply (fold_moves event_destination _ (λ key, key.1 ∈ map fst moves)).
  - intros key. apply _.
  - exact Hok.
  - intros key v. rewrite (fold_deletes (λ x m, filter (λ e, e.1.1 ≠ x.1) m) (λ (x : bytes * option bytes) key, key.1 = x.1)).
    + rewrite elem_of_fmap_map. split; intros [Hn ?]; (split; [|done]); [intros (x & ? & ?); apply Hn; by exists x|intros (x & ? & ?); apply Hn; by exists x].
    + intros x t k v'. rewrite map_lookup_filter_Some. cbn. naive_solver.
  - intros key v. apply (Hin (key, v)).
  - unfold rows. clear Hin step rows. induction moves as [|[from to] l IH]; [constructor|]. cbn [map concat fst] in *. apply NoDup_cons in Hmoves as [Hf Hl].
    rewrite map_app. apply NoDup_app. split_and!.
    + rewrite map_map. cbn. set (f := λ x : bytes * bytes * (bytes * Z), (from, x.1.2)). change (NoDup (f <$> hash_order (map_to_list (filter (λ e, e.1.1 = from) (git_author_events d))))).
      rewrite hash_order_perm. apply NoDup_fmap_2_strong; [|apply NoDup_map_to_list].
      intros [[p h] v] [[p' h'] v'] [E1 Hp]%elem_of_map_to_list%map_lookup_filter_Some [E2 Hp']%elem_of_map_to_list%map_lookup_filter_Some. cbn in *. intros [= ->].
      subst. congruence.
    + intros [p h] (e & Ee & (e' & -> & _)%elem_of_fmap_map)%elem_of_fmap_map. cbn in Ee. injection Ee as -> ->. rewrite elem_of_fmap_map.
      intros (e2 & E2 & (l2 & ([q to2] & -> & Hm) %elem_of_fmap_map & (e3 & -> & _)%elem_of_fmap_map)%elem_of_concat). cbn in E2. injection E2 as -> _.
      apply Hf, elem_of_fmap_map. by exists (q, to2).
    + apply IH. done.
  - intros [p h] _ Hp. unfold event_destination. cbn in *. by rewrite destination_stay.
  - intros t [k0 v] k _ Hk Ht. cbn in *. unfold step. cbn. by rewrite Hk, Ht.
  - intros t [k0 v] _ Hk. cbn in *. unfold step. cbn. by rewrite Hk.
Qed.

(** Re-keying is one substitution of paths. *)
Lemma rekey_substitutes d : recorded_ok d → rekeyed d (rekey_events (rekey_tables d)).
Proof using Hmoves HL.
  intros Hok. destruct (rekey_events_same (rekey_tables d)) as (E1 & E2 & E3 & E4). destruct (rekey_tables_same d) as (T1 & T2 & T3).
  unfold rekeyed. rewrite E1, E2, E3, E4, T2, T3. split_and!; [by apply files_rekeyed|by apply pairs_rekeyed| |done|done].
  rewrite <- T1. apply events_rekeyed. rewrite T1. by apply event_separates.
Qed.
End rekey.
