(* ===== verification/GitPasses.v ===== *)
(** * GitPasses: what the passes leave in the tables

    [holds test_like l d]: the tables of [d] are those of the commits [l].  A full pass
    establishes it for the commits of the log; an incremental pass carries it from the
    commits of the last pass to the longer log. *)
From stdpp Require Import gmap sorting.
From S2P Require Import Prelude Text Unicode Order Float GitLog GitRenames GitStore GitLogic GitHistory GitScan GitRekey.
From Stdlib Require Import Lia ZArith NArith.
Local Open Scope codesage_scope.

(** ** Reading *)

Lemma parse_unsigned_bound bound s n : parse_unsigned bound s = Some n → (n < bound)%N.
Proof.
  unfold parse_unsigned. destruct (negb _ && _ && _) eqn:E; [|done]. intros [= <-].
  by apply andb_true_iff in E as [_ ?%N.ltb_lt].
Qed.

Definition counts_in_u32 (c : Commit) : Prop := Forall in_u32 (changes c).

Section reading.
Context {U : Unicode}.

Definition reading_ok (r : Reading) : Prop := Forall counts_in_u32 (take_current r).

Lemma read_header_u32 rest r : reading_ok r → reading_ok (read_header rest r).
Proof.
  intros Hr. unfold read_header, reading_ok. destruct (_ ≫= _) as [ts|]; [|exact Hr].
  destruct (match splitn 3 UNIT_SEP _ with [email; name; subject] => _ | _ => _ end) as [a s].
  cbn [take_current GitLog.current commits]. apply Forall_app. split; [exact Hr|]. by repeat constructor.
Qed.

Lemma read_numstat_u32 a d p from r : reading_ok r → reading_ok (read_numstat a d p from r).
Proof.
  intros Hr. unfold read_numstat. destruct (GitLog.current r) as [c|] eqn:Ec; [|done].
  assert (∀ c', changes c' = changes c → reading_ok (with_current c' r)) as Hsame.
  { intros c' E. unfold reading_ok, take_current in *. cbn. rewrite Ec in Hr. apply Forall_app in Hr as [Hl Hc].
    apply Forall_cons in Hc as [Hc _]. apply Forall_app. split; [done|]. constructor; [|done]. unfold counts_in_u32. by rewrite E. }
  assert (∃ c', changes c' = changes c ∧ (match from with
    | Some old => if negb (bytes_eqb old []) && negb (bytes_eqb p []) then push_rename old p c else c
    | None => c
    end) = c') as (c' & E & ->) by (eexists; split; [|done]; destruct from; [destruct (_ && _)|]; done).
  destruct (_ || _); [by apply Hsame|].
  destruct (parse_unsigned u32_bound a) as [x|] eqn:Ex; [destruct (parse_unsigned u32_bound d) as [y|] eqn:Ey|]; try by apply (Hsame c').
  unfold reading_ok, take_current in *. cbn. rewrite Ec in Hr. apply Forall_app in Hr as [Hl Hc]. apply Forall_cons in Hc as [Hc _].
  apply Forall_app. split; [done|]. constructor; [|done]. unfold counts_in_u32. cbn. rewrite E. apply Forall_app. split; [done|].
  constructor; [|done]. split; cbn; by eapply parse_unsigned_bound.
Qed.

Lemma read_records_u32 n records r r' : length records ≤ n → reading_ok r → read_records records r = inr r' → reading_ok r'.
Proof.
  revert records r. induction n as [|n IH]; intros [|record records] r Hn Hr; cbn [length] in Hn; try lia; cbn [read_records];
    [by intros [= <-]..|]. assert (length records ≤ n) as Hle by lia.
  destruct (strip_prefix _ _); [by apply IH, read_header_u32|]. destruct (bytes_eqb _ []); [by apply IH|].
  destruct (negb _); [done|]. destruct (_ !! 2) as [[|b p]|]; [| |by apply IH].
  - destruct records as [|old [|new records]]; [by intros [= <-]..|]. apply IH; [cbn in Hle; lia|by apply read_numstat_u32].
  - by apply IH, read_numstat_u32.
Qed.

Lemma parse_log_u32 raw cs : parse_log raw = inr cs → Forall counts_in_u32 cs.
Proof.
  unfold parse_log. destruct (read_records _ _) as [e|r] eqn:E; [done|]. intros [= <-].
  by apply (read_records_u32 _ _ _ _ (le_n _)) in E; [|constructor].
Qed.
End reading.

(** ** Followed commits *)

Definition followed (ex : bytes → bool) (newer cs : list Commit) : list Commit :=
  imap (λ i c, with_changes (merge_same_path (named_changes ex (newer ++ take i cs) c)) c) cs.

Lemma followed_app ex new old : followed ex [] (new ++ old) = followed ex [] new ++ followed ex new old.
Proof.
  unfold followed. rewrite imap_app. f_equal.
  - apply imap_ext. intros i c Hi. cbn. rewrite take_app_le; [done|]. apply lookup_lt_Some in Hi. lia.
  - apply imap_ext. intros i c _. cbn. by rewrite take_app_add.
Qed.

Lemma follow_renames_followed ex cs : (follow_renames ex cs).1 = followed ex [] cs.
Proof.
  destruct (follow_renames_spec ex cs) as (Hi & Hl & _). apply list_eq. intros i. unfold followed. rewrite list_lookup_imap.
  destruct (cs !! i) as [c|] eqn:E; cbn; [by apply Hi|]. apply lookup_ge_None. rewrite Hl. by apply lookup_ge_None.
Qed.

Lemma name_after_app new old p : name_after (new ++ old) p = name_after new (name_after old p).
Proof. unfold name_after. by rewrite foldr_app. Qed.

Definition same_commit (c c' : Commit) : Prop :=
  sha c = sha c' ∧ author c = author c' ∧ timestamp c = timestamp c' ∧ subject c = subject c'.

(** The paths one commit of the earlier log has, and those of the same commit of the
    longer log: their images. *)
Definition renamed_kept (s : bytes → bytes) (k k' : Kept) : Prop :=
  same_commit k.1 k'.1 ∧ NoDup (paths k) ∧ NoDup (paths k') ∧ ∀ p', p' ∈ paths k' ↔ ∃ p, p ∈ paths k ∧ p' = s p.

Section keeping.
Context (ex : bytes → bool).

Lemma in_u32_named newer c : counts_in_u32 c → Forall in_u32 (named_changes ex newer c).
Proof.
  unfold counts_in_u32, named_changes. rewrite !Forall_forall. intros H x (y & -> & [Hy _]%elem_of_List_filter)%elem_of_fmap_map.
  apply (H y Hy).
Qed.

Lemma followed_merged newer cs i c : Forall counts_in_u32 cs → cs !! i = Some c →
  merged (named_changes ex (newer ++ take i cs) c) (merge_same_path (named_changes ex (newer ++ take i cs) c)).
Proof.
  intros Hu Hi. apply merge_same_path_ok, in_u32_named. rewrite Forall_forall in Hu. by apply Hu, (list_elem_of_lookup_2 _ _ _ Hi).
Qed.

(** Every path a commit of the log is keyed to. *)
Definition keyed_paths (newer cs : list Commit) : list bytes := concat (map (λ c, map path (changes c)) (followed ex newer cs)).

Lemma filter_kept_Some c kept : filter_kept ex c = Some kept ↔
  soft_skip (subject c) = false ∧ kept = List.filter (λ x, negb (ex (path x))) (changes c) ∧ kept ≠ [].
Proof.
  unfold filter_kept. destruct (soft_skip (subject c)); [naive_solver|]. destruct (List.filter _ _) as [|x l]; naive_solver.
Qed.

Lemma filter_kept_is_Some_1 c kept : filter_kept ex c = Some kept →
  soft_skip (subject c) = false ∧ ∃ p, p ∈ map path (changes c) ∧ ex p = false.
Proof.
  intros (Hs & -> & Hne)%filter_kept_Some. split; [done|]. destruct (List.filter _ _) as [|x l] eqn:El; [done|].
  assert (x ∈ List.filter (λ x, negb (ex (path x))) (changes c)) as [Hx He%negb_true_iff]%elem_of_List_filter by (rewrite El; by left).
  exists (path x). split; [by apply list_elem_of_fmap_2|done].
Qed.

Lemma filter_kept_is_Some_2 c p : soft_skip (subject c) = false → p ∈ map path (changes c) → ex p = false → is_Some (filter_kept ex c).
Proof.
  intros Hs (x & -> & Hx)%elem_of_fmap_map He. unfold filter_kept. rewrite Hs.
  assert (x ∈ List.filter (λ x, negb (ex (path x))) (changes c)) as Hin by (apply elem_of_List_filter; by rewrite He).
  destruct (List.filter _ _); [by apply elem_of_nil in Hin|by eexists].
Qed.

Lemma elem_of_kept_paths c kept p : filter_kept ex c = Some kept → p ∈ map path kept ↔ p ∈ map path (changes c) ∧ ex p = false.
Proof.
  intros (_ & -> & _)%filter_kept_Some. rewrite !elem_of_fmap_map. setoid_rewrite elem_of_List_filter. setoid_rewrite negb_true_iff. naive_solver.
Qed.

Lemma NoDup_kept_paths c kept : filter_kept ex c = Some kept → NoDup (map path (changes c)) → NoDup (map path kept).
Proof.
  intros (_ & -> & _)%filter_kept_Some. induction (changes c) as [|x l IH]; [done|]. cbn. intros [Hx Hn]%NoDup_cons.
  destruct (negb _); [|by apply IH]. cbn. constructor; [|by apply IH].
  intros (y & E & [Hy _]%elem_of_List_filter)%elem_of_fmap_map. apply Hx. rewrite E. by apply list_elem_of_fmap_2.
Qed.

(** The commits of the earlier log, keyed there and in the longer log. *)
Lemma followed_renamed new old :
  Forall counts_in_u32 old →
  (∀ p, p ∈ keyed_paths [] old → ex (name_after new p) = ex p) →
  Forall2 (renamed_kept (name_after new)) (kept_of ex (followed ex [] old)) (kept_of ex (followed ex new old)).
Proof.
  intros Hu Hb. unfold kept_of.
  assert (Forall2 (λ c c', option_Forall2 (renamed_kept (name_after new)) (pair c <$> filter_kept ex c) (pair c' <$> filter_kept ex c'))
    (followed ex [] old) (followed ex new old)) as HF.
  { apply Forall2_same_length_lookup_2; [unfold followed; by rewrite !length_imap|]. intros i f f' Hf Hf'.
    unfold followed in Hf, Hf'. rewrite list_lookup_imap in Hf, Hf'. destruct (old !! i) as [c|] eqn:Ei; [|done].
    cbn in Hf, Hf'. injection Hf as <-. injection Hf' as <-.
    pose proof (followed_merged [] old i c Hu Ei) as M1. pose proof (followed_merged new old i c Hu Ei) as M2. cbn [app] in M1.
    set (f := with_changes (merge_same_path (named_changes ex (take i old) c)) c).
    set (f' := with_changes (merge_same_path (named_changes ex (new ++ take i old) c)) c).
    assert (∀ p', p' ∈ map path (changes f') ↔ ∃ p, p ∈ map path (changes f) ∧ p' = name_after new p) as Himg.
    { intros p'. unfold f, f'. cbn [changes with_changes]. rewrite (merged_same _ _ M2). setoid_rewrite (merged_same _ _ M1).
      unfold named_changes. rewrite !map_map. rewrite elem_of_fmap_map. setoid_rewrite elem_of_fmap_map. cbn.
      setoid_rewrite name_after_app. naive_solver. }
    assert (∀ p, p ∈ map path (changes f) → ex (name_after new p) = ex p) as Hbf.
    { intros p Hp. apply Hb. unfold keyed_paths. apply elem_of_concat. exists (map path (changes f)). split; [|done].
      apply elem_of_fmap_map. exists f. split; [done|]. apply list_elem_of_lookup. exists i. unfold followed. by rewrite list_lookup_imap, Ei. }
    destruct (filter_kept ex f) as [kept|] eqn:K1, (filter_kept ex f') as [kept'|] eqn:K2; cbn; [constructor| | |constructor].
    - split_and!; [done|eapply NoDup_kept_paths; [exact K1|apply (merged_paths _ _ M1)]|eapply NoDup_kept_paths; [exact K2|apply (merged_paths _ _ M2)]|].
      intros p'. unfold paths. cbn [snd]. rewrite (elem_of_kept_paths f' kept' p' K2), Himg. setoid_rewrite (elem_of_kept_paths f kept _ K1).
      split; [intros [(p & Hp & ->) He]|intros (p & [Hp He] & ->)].
      + exists p. rewrite <- (Hbf p Hp). done.
      + split; [by exists p|]. by rewrite (Hbf p Hp).
    - apply filter_kept_is_Some_1 in K1 as (Hs & p & Hp & He). exfalso.
      assert (is_Some (filter_kept ex f')) as [? ?]; [|congruence].
      apply (filter_kept_is_Some_2 _ (name_after new p)); [done|apply Himg; by exists p|by rewrite Hbf].
    - apply filter_kept_is_Some_1 in K2 as (Hs & p' & Hp' & He). exfalso. apply Himg in Hp' as (p & Hp & ->).
      assert (is_Some (filter_kept ex f)) as [? ?]; [|congruence].
      apply (filter_kept_is_Some_2 _ p); [done|done|by rewrite <- (Hbf p)]. }
  induction HF as [|c c' l l' Hc _ IH]; [constructor|]. cbn. destruct Hc as [k k' Hk|]; [by constructor|done].
Qed.

Lemma followed_wf newer cs : Forall counts_in_u32 cs → Forall wf_kept (kept_of ex (followed ex newer cs)).
Proof.
  intros Hu. rewrite Forall_forall. intros [c kept] Hk. unfold kept_of in Hk. apply list_elem_of_omap in Hk as (f & Hf & E).
  destruct (filter_kept ex f) as [kept'|] eqn:K; [|done]. cbn in E. injection E as -> ->.
  apply list_elem_of_lookup in Hf as [i Hi]. unfold followed in Hi. rewrite list_lookup_imap in Hi. destruct (cs !! i) as [c0|] eqn:Ei; [|done].
  cbn in Hi. injection Hi as <-. eapply NoDup_kept_paths; [exact K|]. apply (merged_paths _ _ (followed_merged newer cs i c0 Hu Ei)).
Qed.
End keeping.

(** ** The tables of a list of commits *)

Definition event_of (l : list Kept) (key : bytes * bytes) (v : bytes * Z) : Prop :=
  ∃ k, k ∈ l ∧ key.1 ∈ paths k ∧ key.2 = sha k.1 ∧ v = (author k.1, timestamp k.1).

Record holds (test_like : bytes → bool) (l : list Kept) (d : Db) : Prop := {
  holds_files p : file_counts <$> git_files d !! p = file_totals (touching p l);
  holds_pairs key : (pair_counts ∘ counters) <$> git_co_changes d !! key =
    if decide (proper_pair key) then pair_totals (together test_like key l) else None;
  holds_windows key r : git_co_changes d !! key = Some r → r = pair_row (counters r);
  holds_events key v : git_author_events d !! key = Some v ↔ event_of l key v }.

(** A path recorded in the tables. *)
Definition recorded (l : list Kept) (p : bytes) : Prop := ∃ k, k ∈ l ∧ p ∈ paths k.

Lemma touching_nil p l : touching p l = [] ↔ ¬ recorded l p.
Proof.
  unfold touching, recorded. split.
  - intros E (k & Hk & Hp). assert (k ∈ filter (λ k, p ∈ paths k) l) as Hin by by apply list_elem_of_filter. rewrite E in Hin. by apply elem_of_nil in Hin.
  - intros Hn. destruct (filter _ l) as [|k l'] eqn:E; [done|]. assert (k ∈ filter (λ k, p ∈ paths k) l) as [Hp Hk]%list_elem_of_filter by (rewrite E; by left).
    exfalso. apply Hn. by exists k.
Qed.

Lemma file_totals_none l : file_totals l = None ↔ l = [].
Proof. by destruct l. Qed.

Lemma holds_recorded t l d p : holds t l d → is_Some (git_files d !! p) ↔ recorded l p.
Proof.
  intros Hd. rewrite <- (fmap_is_Some file_counts), (holds_files _ _ _ Hd), <- not_eq_None_Some, file_totals_none, touching_nil.
  split; [|tauto]. intros Hn. unfold recorded. destruct (decide (Exists (λ k, p ∈ paths k) l)) as [He|He]; rewrite Exists_exists in He; [done|].
  exfalso. by apply Hn.
Qed.

Lemma together_recorded t key l : together t key l ≠ [] → recorded l key.1 ∧ recorded l key.2.
Proof.
  intros Hne. destruct (together t key l) as [|k l'] eqn:E; [done|].
  assert (k ∈ together t key l) as [(_ & H1 & H2 & _) Hk]%list_elem_of_filter by (rewrite E; by left). split; by exists k.
Qed.

Lemma pair_totals_none l : pair_totals l = None ↔ l = [].
Proof. by destruct l. Qed.

Lemma holds_pair_recorded t l d key r : holds t l d → git_co_changes d !! key = Some r →
  proper_pair key ∧ is_Some (git_files d !! key.1) ∧ is_Some (git_files d !! key.2) ∧ r = pair_row (counters r).
Proof.
  intros Hd Hr. pose proof (holds_pairs _ _ _ Hd key) as Hp. rewrite Hr in Hp. cbn in Hp. destruct (decide (proper_pair key)) as [Hpr|]; [|done].
  split; [done|]. destruct (together_recorded t key l) as [H1 H2]; [by intros E; rewrite E in Hp|].
  rewrite !(holds_recorded t l d) by done. split_and!; [done..|by eapply holds_windows].
Qed.

(** ** Totals after renaming *)

Section renaming.
Context (s : bytes → bytes) (l l' : list Kept) (Hl : Forall2 (renamed_kept s) l l').
Context (Hinj : ∀ p q, recorded l p → recorded l q → s p = s q → p = q).

Lemma renamed_totals (P P' : Kept → Prop) `{∀ k, Decision (P k)} `{∀ k, Decision (P' k)} :
  (∀ k k', k ∈ l → renamed_kept s k k' → P k ↔ P' k') →
  file_totals (filter P' l') = file_totals (filter P l) ∧ pair_totals (filter P' l') = pair_totals (filter P l).
Proof using Hl.
  intros HP. assert (Forall2 (λ k k', same_commit k.1 k'.1) (filter P l) (filter P' l')) as HF.
  { clear Hinj. induction Hl as [|k k' m m' Hk Hrest IH]; [constructor|]. rewrite !filter_cons.
    assert (Forall2 (λ k k', same_commit k.1 k'.1) (filter P m) (filter P' m')) as Hm.
    { apply IH; [done|]. intros a a' Ha. apply HP. by right. }
    pose proof (HP k k' (list_elem_of_here _ _) Hk) as Hiff. do 2 case_decide; [constructor; [apply Hk|done]|tauto|tauto|done]. }
  assert (∀ m m', Forall2 (λ k k' : Kept, same_commit k.1 k'.1) m m' →
    length m = length m' ∧ newest m = newest m' ∧ oldest m = oldest m' ∧ mask_of m = mask_of m'
    ∧ length (filter (λ k, is_fix_commit (subject k.1) = true) m) = length (filter (λ k, is_fix_commit (subject k.1) = true) m')) as Hsame.
  { induction 1 as [|k k' m m' (_ & _ & Ht & Hs) _ (E1 & E2 & E3 & E4 & E5)]; [done|]. split_and!.
    - cbn. by rewrite E1.
    - change (newer (Some (timestamp k.1)) (newest m) = newer (Some (timestamp k'.1)) (newest m')). by rewrite Ht, E2.
    - change (older (Some (timestamp k.1)) (oldest m) = older (Some (timestamp k'.1)) (oldest m')). by rewrite Ht, E3.
    - change (N.lor (window_bit (timestamp k.1)) (mask_of m) = N.lor (window_bit (timestamp k'.1)) (mask_of m')). by rewrite Ht, E4.
    - rewrite !filter_cons, Hs. case_decide; cbn [length]; by rewrite E5. }
  destruct (Hsame _ _ HF) as (E1 & E2 & E3 & E4 & E5). destruct (filter P l) as [|a m], (filter P' l') as [|b m']; [done|discriminate..|].
  unfold file_totals, pair_totals. by rewrite E1, E2, E3, E4, E5.
Qed.

Lemma renamed_path p k k' : k ∈ l → recorded l p → renamed_kept s k k' → p ∈ paths k ↔ s p ∈ paths k'.
Proof using Hinj.
  intros Hk Hp (_ & _ & _ & Himg). rewrite Himg. split; [by intros ?; exists p|]. intros (q & Hq & E).
  by rewrite (Hinj p q Hp (ex_intro _ k (conj Hk Hq)) E).
Qed.

Lemma renamed_recorded p' : recorded l' p' → ∃ p, recorded l p ∧ p' = s p.
Proof using Hl.
  intros (k' & Hk' & Hp'). apply list_elem_of_lookup in Hk' as [i Hi]. destruct (Forall2_lookup_r _ _ _ _ _ Hl Hi) as (k & Hk & HR).
  destruct HR as (_ & _ & _ & Himg). destruct (proj1 (Himg p') Hp') as (p & Hp & ->). exists p. split; [|done]. exists k.
  split; [by apply list_elem_of_lookup_2 in Hk|done].
Qed.

Lemma touching_renamed p : recorded l p → file_totals (touching (s p) l') = file_totals (touching p l).
Proof using Hl Hinj. intros Hp. apply renamed_totals. intros k k' Hk HR. by apply renamed_path. Qed.

Lemma renamed_length k k' : k ∈ l → renamed_kept s k k' → length (paths k') = length (paths k).
Proof using Hinj.
  intros Hk (_ & Hn & Hn' & Himg). rewrite <- (length_map s (paths k)). apply Permutation_length, NoDup_Permutation; [done| |].
  - change (NoDup (s <$> paths k)). apply NoDup_fmap_2_strong; [|done]. intros a b Ha Hb E. apply Hinj; [by exists k..|done].
  - intros p'. rewrite Himg, elem_of_fmap_map. naive_solver.
Qed.

Lemma together_renamed t a b : recorded l a → recorded l b → t (s a) = t a → t (s b) = t b →
  pair_totals (together t (ordered (s a, s b)) l') = pair_totals (together t (a, b) l).
Proof using Hl Hinj.
  intros Ha Hb Hta Htb. apply renamed_totals. intros k k' Hk HR. rewrite (renamed_length k k' Hk HR). cbn [fst snd].
  rewrite (renamed_path a k k'), (renamed_path b k k') by done.
  destruct (ordered_cases (s a, s b)) as [[-> _]|[-> _]]; cbn [fst snd]; rewrite Hta, Htb; [done|]. rewrite (andb_comm (t b)). naive_solver.
Qed.

Lemma event_renamed p h v : recorded l p → event_of l' (s p, h) v ↔ event_of l (p, h) v.
Proof using Hl Hinj.
  intros Hp. unfold event_of. cbn. split; intros (k & Hk & Hpk & -> & ->); apply list_elem_of_lookup in Hk as [i Hi].
  - destruct (Forall2_lookup_r _ _ _ _ _ Hl Hi) as (k0 & Hk0 & HR). pose proof (list_elem_of_lookup_2 _ _ _ Hk0) as Hin.
    exists k0. apply (renamed_path p k0 k) in Hpk; [|done..]. destruct HR as ((-> & -> & -> & _) & _). done.
  - destruct (Forall2_lookup_l _ _ _ _ _ Hl Hi) as (k' & Hk' & HR). pose proof (list_elem_of_lookup_2 _ _ _ Hi) as Hin.
    exists k'. apply (renamed_path p k k') in Hpk; [|done..]. apply list_elem_of_lookup_2 in Hk'. destruct HR as ((-> & -> & -> & _) & _). done.
Qed.
End renaming.

(** ** The tables after the moves *)

Section moved.
Context {H : HashOrder} (moves : list (bytes * option bytes)) (t : bytes → bool) (s : bytes → bytes) (l l' : list Kept).
Context (Hl : Forall2 (renamed_kept s) l l').
Context (Hinj : ∀ p q, recorded l p → recorded l q → s p = s q → p = q).
Context (Hdest : ∀ p, recorded l p → destination moves p = Some (s p)).
Context (Htest : ∀ p, recorded l p → t (s p) = t p).

Lemma moved_recorded_ok d : holds t l d → recorded_ok moves d.
Proof using Hinj Hdest.
  intros Hd. split.
  - intros p q r Hp Hq. apply (holds_recorded _ _ _ _ Hd) in Hp, Hq. rewrite (Hdest p Hp), (Hdest q Hq). intros [= <-] [= E].
    by apply Hinj.
  - intros key row. by apply (holds_pair_recorded t l).
  - intros key v Hv. apply (holds_events _ _ _ Hd) in Hv as (k & Hk & Hp & _). apply (holds_recorded _ _ _ _ Hd). by exists k.
Qed.

Lemma inj_ordered a b c d : recorded l a → recorded l b → recorded l c → recorded l d →
  proper_pair (a, b) → proper_pair (c, d) → ordered (s a, s b) = ordered (s c, s d) → (a, b) = (c, d).
Proof using Hinj.
  intros Ha Hb Hc Hd [Hab Hne] [Hcd Hne'] E. cbn in *.
  assert ((s a = s c ∧ s b = s d) ∨ (s a = s d ∧ s b = s c)) as [[E1 E2]|[E1 E2]].
  { destruct (ordered_cases (s a, s b)) as [[F1 _]|[F1 _]], (ordered_cases (s c, s d)) as [[F2 _]|[F2 _]]; rewrite F1, F2 in E; cbn in E;
      injection E as -> ->; auto. }
  - by rewrite (Hinj a c), (Hinj b d).
  - exfalso. apply Hinj in E1 as ->, E2 as ->; [|done..]. apply Hne. by apply (anti_symm bytes_le).
Qed.

Lemma moved_pair_destination a b : recorded l a → recorded l b → a ≠ b → pair_destination moves (a, b) = Some (ordered (s a, s b)).
Proof using Hinj Hdest.
  intros Ha Hb Hne. unfold pair_destination. cbn. rewrite (Hdest a Ha), (Hdest b Hb). rewrite decide_False; [done|]. intros E. by apply Hne, Hinj.
Qed.

Lemma holds_moved d d' : holds t l d → rekeyed moves d d' → holds t l' d'.
Proof using Hl Hinj Hdest Htest.
  intros Hd (Hf & Hp & He & _). pose proof (moved_recorded_ok d Hd) as Hok. split.
  - intros p'. destruct (git_files d' !! p') as [row|] eqn:E.
    + apply Hf in E as (p & Hp' & Hrow). assert (recorded l p) as Hr by (apply (holds_recorded _ _ _ _ Hd); by eexists).
      rewrite (Hdest p Hr) in Hp'. injection Hp' as <-. rewrite (touching_renamed s l l' Hl Hinj p Hr), <- (holds_files _ _ _ Hd), Hrow. done.
    + cbn. symmetry. apply file_totals_none, touching_nil. intros (p & Hr & ->)%(renamed_recorded s l l' Hl).
      apply (holds_recorded _ _ _ _ Hd) in Hr as Hrow. destruct Hrow as [row Hrow].
      assert (git_files d' !! s p = Some row) by (apply Hf; exists p; by rewrite Hdest). congruence.
  - intros key'. destruct (git_co_changes d' !! key') as [row|] eqn:E.
    + apply Hp in E as ([a b] & Hk & Hrow). pose proof (holds_pair_recorded _ _ _ _ _ Hd Hrow) as ([Hle Hne] & Ha & Hb & _). cbn in Hle, Hne, Ha, Hb.
      apply (holds_recorded _ _ _ _ Hd) in Ha, Hb. rewrite moved_pair_destination in Hk by done. injection Hk as <-.
      rewrite decide_True by (apply ordered_proper; cbn; intros Es; by apply Hne, Hinj).
      rewrite (together_renamed s l l' Hl Hinj t a b Ha Hb) by by apply Htest.
      pose proof (holds_pairs _ _ _ Hd (a, b)) as Hr. rewrite Hrow, decide_True in Hr by done. exact Hr.
    + cbn. case_decide as Hpr; [|done]. symmetry. apply pair_totals_none. destruct (together t key' l') as [|k' rest] eqn:Et; [done|]. exfalso.
      destruct (together_recorded t key' l') as [Hr1 Hr2]; [by rewrite Et|]. destruct key' as [a' b']. cbn in Hr1, Hr2.
      apply (renamed_recorded s l l' Hl) in Hr1 as (a & Ha & ->), Hr2 as (b & Hb & ->). destruct Hpr as [Hle Hne]. cbn in Hle, Hne.
      assert (a ≠ b) as Hab by congruence.
      assert (ordered (s a, s b) = (s a, s b)) as Eo by (unfold ordered; cbn; by rewrite Hle).
      (* the pair the rows of [a] and [b] are under *)
      assert (∃ row, git_co_changes d !! ordered (a, b) = Some row) as [row Hrow].
      { pose proof (holds_pairs _ _ _ Hd (ordered (a, b))) as Hr. rewrite decide_True in Hr by by apply ordered_proper.
        destruct (git_co_changes d !! ordered (a, b)) as [row|]; [by exists row|]. cbn in Hr. symmetry in Hr.
        exfalso. assert (pair_totals (together t (s a, s b) l') = None) as Hn; [|rewrite Et in Hn; done].
        destruct (ordered_cases (a, b)) as [[F _]|[F _]]; rewrite F in Hr; cbn in Hr.
        - rewrite <- Eo, (together_renamed s l l' Hl Hinj t a b); auto.
        - rewrite <- Eo, ordered_swap, (together_renamed s l l' Hl Hinj t b a); auto. }
      assert (git_co_changes d' !! (s a, s b) = Some row); [|congruence]. apply Hp. exists (ordered (a, b)). split; [|done]. rewrite <- Eo.
      destruct (ordered_cases (a, b)) as [[F _]|[F _]]; rewrite F; cbn [fst snd].
      * by apply moved_pair_destination.
      * rewrite (ordered_swap (s a) (s b)) by done. by apply moved_pair_destination.
  - intros key' r (key & _ & Hr)%Hp. by eapply holds_windows.
  - intros [p' h] v. rewrite (He (p', h) v). split.
    + intros ([p h'] & Hk & Hv). apply (holds_events _ _ _ Hd) in Hv as Hev. assert (recorded l p) as Hr by (destruct Hev as (k & ? & ? & _); by exists k).
      unfold event_destination in Hk. cbn in Hk. rewrite (Hdest p Hr) in Hk. injection Hk as <- <-. by apply (event_renamed s l l' Hl Hinj).
    + intros Hev. assert (recorded l' p') as (p & Hr & ->)%(renamed_recorded s l l' Hl) by (destruct Hev as (k & ? & ? & _); by exists k).
      exists (p, h). unfold event_destination. cbn. rewrite (Hdest p Hr). split; [done|]. apply (holds_events _ _ _ Hd). by apply (event_renamed s l l' Hl Hinj).
Qed.
End moved.

(** ** Decay and pruning *)

Lemma holds_scaled t l d factor : holds t l d →
  holds t l (set_pairs (fmap (scale_pair factor)) (set_files (fmap (scale_file factor)) d)).
Proof.
  intros Hd. split.
  - intros p. cbn. rewrite lookup_fmap, <- option_fmap_compose. apply (holds_files _ _ _ Hd).
  - intros key. cbn. rewrite lookup_fmap, <- option_fmap_compose. apply (holds_pairs _ _ _ Hd).
  - intros key r. cbn. rewrite lookup_fmap, fmap_Some. intros (r0 & Hr & ->). apply (holds_windows _ _ _ Hd) in Hr. by rewrite Hr.
  - apply (holds_events _ _ _ Hd).
Qed.

Lemma holds_pruned t l d cut : (∀ k, k ∈ l → (cut <= timestamp k.1)%Z) → holds t l d → holds t l (set_events (filter (λ e, (cut <= e.2.2)%Z)) d).
Proof.
  intros Hcut Hd. split; [apply (holds_files _ _ _ Hd)|apply (holds_pairs _ _ _ Hd)|apply (holds_windows _ _ _ Hd)|].
  intros key v. cbn. rewrite map_lookup_filter_Some, (holds_events _ _ _ Hd). split; [by intros [? _]|]. intros Hev. split; [done|].
  destruct Hev as (k & Hk & _ & _ & ->). by apply Hcut.
Qed.

(** ** Writing *)

Definition event_step (d : Db) (k : Kept) : Db :=
  foldl (λ d x, set_events (<[(path x, sha k.1) := (author k.1, timestamp k.1)]>) d) d k.2.

Lemma event_step_spec d k :
  (∀ key, git_author_events (event_step d k) !! key =
     if decide (key.1 ∈ paths k ∧ key.2 = sha k.1) then Some (author k.1, timestamp k.1) else git_author_events d !! key)
  ∧ git_files (event_step d k) = git_files d ∧ git_co_changes (event_step d k) = git_co_changes d
  ∧ index_state (event_step d k) = index_state d.
Proof.
  unfold event_step, paths. induction k.2 as [|x l IH] using rev_ind.
  - split; [|done]. intros key. cbn. rewrite decide_False; [done|]. by intros [?%elem_of_nil _].
  - rewrite foldl_app. cbn [foldl]. destruct IH as (IH & E1 & E2 & E3). split; [|done]. intros key. cbn [git_author_events set_events].
    destruct (decide (key = (path x, sha k.1))) as [->|Hne].
    + rewrite lookup_insert_eq, decide_True; [done|]. cbn. rewrite map_app, elem_of_app. split; [right; by left|done].
    + rewrite lookup_insert_ne, IH by done. rewrite map_app. destruct key as [p h]. cbn in *.
      case_decide as H1; case_decide as H2; try done; exfalso.
      * apply H2. destruct H1. split; [apply elem_of_app; by left|done].
      * destruct H2 as [[Hp|Hp%list_elem_of_singleton]%elem_of_app ->]; [by apply H1|congruence].
Qed.

Definition shas (l : list Kept) : list bytes := map (λ k, sha k.1) l.

Lemma events_written l d :
  NoDup (shas l) →
  (∀ key v, git_author_events (foldl event_step d l) !! key = Some v ↔
     event_of l key v ∨ ((∀ v', ¬ event_of l key v') ∧ git_author_events d !! key = Some v))
  ∧ git_files (foldl event_step d l) = git_files d ∧ git_co_changes (foldl event_step d l) = git_co_changes d
  ∧ index_state (foldl event_step d l) = index_state d.
Proof.
  induction l as [|k l IH] using rev_ind.
  - intros _. split; [|done]. intros key v. cbn. split.
    + intros Hv. right. split; [|done]. by intros v' (k & ?%elem_of_nil & _).
    + intros [(k & ?%elem_of_nil & _)|[_ ?]]; done.
  - unfold shas. rewrite map_app. intros (Hn & Hfresh & _)%NoDup_app. destruct (IH Hn) as (He & E1 & E2 & E3). clear IH.
    rewrite foldl_app. cbn [foldl]. destruct (event_step_spec (foldl event_step d l) k) as (Hk & F1 & F2 & F3).
    rewrite F1, F2, F3. split; [|done]. intros key v. rewrite Hk. case_decide as Hd.
    + assert (∀ v', ¬ event_of l key v') as Hno.
      { intros v' (k' & Hk' & _ & Hs & _). apply (Hfresh (sha k.1)); [|by left]. apply elem_of_fmap_map. exists k'. destruct Hd. split; [congruence|done]. }
      split.
      * intros [= <-]. left. exists k. destruct Hd. split_and!; try done. apply elem_of_app. right. by left.
      * intros [(k' & [Hk'|Hk'%list_elem_of_singleton]%elem_of_app & Hp & Hs & ->)|[Hn' _]].
        -- exfalso. by apply (Hno (author k'.1, timestamp k'.1)); exists k'.
        -- by subst.
        -- exfalso. apply (Hn' (author k.1, timestamp k.1)). exists k. destruct Hd. split_and!; try done. apply elem_of_app. right. by left.
    + assert (∀ v', event_of (l ++ [k]) key v' ↔ event_of l key v') as Heq.
      { intros v'. unfold event_of. split.
        - intros (k' & [Hk'|Hk'%list_elem_of_singleton]%elem_of_app & Hp & Hs & ->); [by exists k'|]. subst. exfalso. by apply Hd.
        - intros (k' & Hk' & Hr). exists k'. split; [apply elem_of_app; by left|done]. }
      rewrite He. setoid_rewrite Heq. done.
Qed.

Section writing.
Context {H : HashOrder} {HL : HashOrderLaws H}.

Lemma NoDup_ordered_entries {V} `{Countable K} (m : gmap K V) : NoDup (map fst (hash_order (map_to_list m))).
Proof using HL. change (NoDup (fst <$> hash_order (map_to_list m))). rewrite hash_order_perm. apply NoDup_fst_map_to_list. Qed.

(** Every entry put in with [g], on top of what was there. *)
Lemma fold_entries {V W} `{Countable K} (g : V → option W → W) (m : gmap K V) (base : gmap K W) k :
  foldl (λ t p, <[p.1 := g p.2 (t !! p.1)]> t) base (hash_order (map_to_list m)) !! k =
  match m !! k with Some v => Some (g v (base !! k)) | None => base !! k end.
Proof using HL.
  destruct (fold_upserts (A := K * V) fst (λ p, g p.2) (hash_order (map_to_list m)) base (NoDup_ordered_entries m)) as [H1 H2].
  destruct (m !! k) as [v|] eqn:E.
  - apply (H1 (k, v)). rewrite hash_order_perm. by apply elem_of_map_to_list.
  - apply H2. intros ([k' v'] & -> & Hin)%elem_of_fmap_map. rewrite hash_order_perm, elem_of_map_to_list in Hin. cbn in E. congruence.
Qed.

Definition put_file (delta : GitFileRow) (old : option GitFileRow) : GitFileRow :=
  match old with Some r => add_file delta r | None => delta end.

Definition put_pair (w : CoChangeWrite) (old : option CoChange) : CoChange :=
  pair_row (counters (match old with Some r => add_pair (pair_row w) r | None => pair_row w end)).

Definition step_incr_pair (d : Db) (p : (bytes * bytes) * CoChangeWrite) : Db :=
  set_windows p.1 (set_pairs (upsert_with add_pair p.1 (pair_row p.2)) d).

Lemma step_incr_pair_map d p : git_co_changes (step_incr_pair d p) = <[p.1 := put_pair p.2 (git_co_changes d !! p.1)]> (git_co_changes d).
Proof using Type.
  unfold step_incr_pair, set_windows, set_pairs, upsert_with, put_pair. cbn. apply map_eq. intros k. destruct (decide (p.1 = k)) as [<-|Hne].
  - rewrite lookup_alter_eq, !lookup_insert_eq. done.
  - by rewrite lookup_alter_ne, !lookup_insert_ne.
Qed.

(** The deltas of a scan, written over the tables. *)
Definition add_totals (t : Totals) (d : Db) : Db :=
  foldl step_incr_pair
    (foldl (λ d p, set_files (upsert_with add_file p.1 p.2) d) d (hash_order (map_to_list t.1))) (hash_order (map_to_list t.2)).

Lemma add_totals_spec t d :
  (∀ p, git_files (add_totals t d) !! p = match t.1 !! p with Some r => Some (put_file r (git_files d !! p)) | None => git_files d !! p end)
  ∧ (∀ key, git_co_changes (add_totals t d) !! key =
      match t.2 !! key with Some w => Some (put_pair w (git_co_changes d !! key)) | None => git_co_changes d !! key end)
  ∧ git_author_events (add_totals t d) = git_author_events d ∧ index_state (add_totals t d) = index_state d.
Proof using HL.
  unfold add_totals. split_and!.
  - intros p. rewrite (foldl_same git_files step_incr_pair) by done.
    rewrite (foldl_proj git_files _ (λ m (p : bytes * GitFileRow), <[p.1 := put_file p.2 (m !! p.1)]> m)) by done. apply fold_entries.
  - intros key. rewrite (foldl_proj git_co_changes step_incr_pair (λ m p, <[p.1 := put_pair p.2 (m !! p.1)]> m)) by apply step_incr_pair_map.
    rewrite (foldl_same git_co_changes) by done. apply fold_entries.
  - by rewrite !foldl_same.
  - by rewrite !foldl_same.
Qed.

Lemma put_file_counts r o : file_counts (put_file r o) = match o with Some q => add_file_counts (file_counts q) (file_counts r) | None => file_counts r end.
Proof using Type. by destruct o. Qed.

Lemma put_pair_counts w o :
  is_Some (first_observed_at w) → (∀ r, o = Some r → is_Some (first_observed_at (counters r))) →
  pair_counts (counters (put_pair w o)) = match o with Some r => add_pair_counts (pair_counts (counters r)) (pair_counts w) | None => pair_counts w end.
Proof using Type.
  intros [x Hx] Ho. destruct o as [r|]; [|done]. destruct (Ho r eq_refl) as [y Hy]. unfold put_pair, add_pair, pair_counts, add_pair_counts. cbn.
  by rewrite Hx, Hy.
Qed.

Lemma pair_totals_first l c : pair_totals l = Some c → is_Some c.1.2.
Proof using Type. destruct l as [|k l]; [done|]. intros [= <-]. cbn. by destruct (oldest l). Qed.

Lemma union_file_comm (a b : option (N * N * option Z)) :
  union_with (λ a b, Some (add_file_counts a b)) a b = union_with (λ a b, Some (add_file_counts a b)) b a.
Proof using Type.
  destruct a, b; try done. cbn. unfold add_file_counts. f_equal. f_equal; [f_equal; lia|apply newer_comm].
Qed.

Lemma union_pair_comm (a b : option (N * N * option Z * option Z)) :
  union_with (λ a b, Some (add_pair_counts a b)) a b = union_with (λ a b, Some (add_pair_counts a b)) b a.
Proof using Type.
  destruct a, b; try done. cbn. unfold add_pair_counts. f_equal. f_equal; [|apply newer_comm]. f_equal; [|apply older_comm].
  f_equal; [lia|apply N.lor_comm].
Qed.

(** The totals of [l], written over the tables of [m]. *)
Lemma holds_added t l m tot d d1 :
  totals_right t l tot.1 tot.2 → holds t m d1 → NoDup (shas (l ++ m)) →
  d = foldl event_step d1 l → holds t (l ++ m) (add_totals tot d).
Proof using HL.
  intros [Hf Hp] Hd Hn ->. destruct (add_totals_spec tot (foldl event_step d1 l)) as (Sf & Sp & Se & _).
  unfold shas in Hn. rewrite map_app in Hn. apply NoDup_app in Hn as (Hn1 & Hdisj & Hn2).
  destruct (events_written l d1 Hn1) as (He & Ef & Ep & _). rewrite Ef in Sf. rewrite Ep in Sp. split.
  - intros p. rewrite touching_app, file_totals_app, union_file_comm, <- (holds_files _ _ _ Hd), <- Hf, Sf.
    destruct (tot.1 !! p) as [r|], (git_files d1 !! p) as [q|]; done.
  - intros key. rewrite Sp. specialize (Hp key). pose proof (holds_pairs _ _ _ Hd key) as Hm. destruct (decide (proper_pair key)) as [Hpr|].
    + rewrite together_app, pair_totals_app, union_pair_comm, <- Hm, <- Hp.
      destruct (tot.2 !! key) as [w|], (git_co_changes d1 !! key) as [r|]; cbn [fmap option_fmap option_map union_with option_union_with]; try done;
        f_equal; unfold compose; (rewrite put_pair_counts; [done|..]).
      * by eapply (pair_totals_first _ (pair_counts w)).
      * intros r' [= <-]. by eapply (pair_totals_first _ (pair_counts (counters r))).
    + destruct (tot.2 !! key); [done|]. by destruct (git_co_changes d1 !! key).
  - intros key r. rewrite Sp. destruct (tot.2 !! key) as [w|]; [by intros [= <-]|]. apply (holds_windows _ _ _ Hd).
  - intros key v. rewrite Se, He, (holds_events _ _ _ Hd). split.
    + intros [(k & Hk & Hr)|[_ (k & Hk & Hr)]]; exists k; (split; [|done]); apply elem_of_app; [by left|by right].
    + intros (k & [Hk|Hk]%elem_of_app & Hp1 & Hs & ->); [left; by exists k|right]. split; [|by exists k].
      intros v' (k' & Hk' & _ & Hs' & _). apply (Hdisj (sha k.1)); apply elem_of_fmap_map; [exists k'|exists k]; split; congruence || done.
Qed.
End writing.
