(* ===== verification/GitRuns.v ===== *)
(** * GitRuns: the history passes, run

    Each pass of GitHistory in the logic of GitLogic, and the exactness of an incremental
    one. *)
From stdpp Require Import gmap sorting.
From S2P Require Import Prelude Text Utf8 Unicode Order Float GitLog GitRenames GitStore GitLogic GitHistory GitScan GitRekey GitPasses.
From Stdlib Require Import Lia ZArith NArith.
Local Open Scope codesage_scope.

Lemma foldl_omap {A B D} (step : D → B → D) (f : A → option B) l d :
  foldl (λ d x, match f x with Some y => step d y | None => d end) d l = foldl step d (omap f l).
Proof. revert d. induction l as [|x l IH]; intros d; [done|]. cbn. destruct (f x); cbn; apply IH. Qed.

Section runs.
Context {U : Unicode} {Q : Sqlite} {H : HashOrder} {HL : HashOrderLaws H} {G : Git} {GS : GlobSets} {E : Exp}.

Lemma wp_git {A} (out : option A) (Post : A → Db → Prop) d : (∀ a, out = Some a → Post a d) → wp (git out) Post d.
Proof using Type. intros HP. destruct out; [by apply wp_ret, HP|by apply wp_fail]. Qed.

(** ** Anchors *)

Lemma wp_commit_epoch root sha (Post : option Z → Db → Prop) d : (∀ z, Post z d) → wp (commit_epoch root sha) Post d.
Proof using Type.
  intros HP. unfold commit_epoch. destruct (starts_with _ _); [by apply wp_ret|]. apply wp_bind.
  intros w <-. cbn. destruct (epoch_memo w !! (root, sha)) as [z|]; [by apply wp_ret|]. apply wp_bind.
  unfold read_commit_epoch. destruct (git_commit_date sha) as [out|]; [|by apply wp_ret, wp_ret].
  apply wp_bind. unfold parse_commit_epoch. apply wp_bind. unfold from_utf8. destruct (is_utf8 out); [apply wp_ret|by apply wp_fail].
  destruct (parse_i64 _) as [z|]; [|by apply wp_fail]. apply wp_ret, wp_ret, wp_bind. intros w' Ew. cbn. rewrite Ew. by apply wp_ret.
Qed.

Lemma wp_anchor_at_commit root sha (Post : HistoryAnchor → Db → Prop) d : (∀ a, Post a d) → wp (anchor_at_commit root sha) Post d.
Proof using Type.
  intros HP. apply wp_bind, wp_commit_epoch. intros [z|]; [by apply wp_ret|]. apply wp_bind, wp_now. intros now. by apply wp_ret.
Qed.

Lemma wp_previous_anchor root sha at_ cur (Post : Z → Db → Prop) d : (∀ z, Post z d) → wp (previous_anchor root sha at_ cur) Post d.
Proof using Type.
  intros HP. unfold previous_anchor. destruct (source cur); [|by apply wp_ret]. apply wp_bind, wp_commit_epoch. intros z. by apply wp_ret.
Qed.

(** ** Writes *)

Definition stamp (sha : bytes) (at_ : Z) (anchor : option (bytes * Z)) (fp : option bytes) (d : Db) : Db :=
  set_state (λ _, Some (mkIndexState sha at_ anchor fp)) d.

Definition anchor_entry (a : HistoryAnchor) : bytes * Z := (source_column (source a), epoch a).

Lemma wp_persist a sha full (Post : () → Db → Prop) d :
  (∀ at_ anc, (full = true → anc = Some (anchor_entry a)) → anc = None ∨ anc = Some (anchor_entry a) → Post () (stamp sha at_ anc None d)) →
  wp (persist a sha full) Post d.
Proof using Type.
  intros HP. unfold persist. apply wp_bind.
  assert (∀ b : bool, (full = true → b = true) →
    wp (set_git_index_state_with_anchor sha (if b then Some (anchor_entry a) else None)) Post d) as Hset.
  { intros b Hb. unfold set_git_index_state_with_anchor. apply wp_savepoint, wp_bind. unfold set_index_state. apply wp_bind, wp_now.
    intros now. apply wp_exec, wp_exec. apply HP; [intros Hf; by rewrite (Hb Hf)|destruct b; [by right|by left]]. }
  destruct full; [by apply wp_ret, (Hset true)|]. apply wp_bind. unfold indexed. apply wp_bind. unfold git_history_anchor.
  apply wp_bind, wp_read, wp_read, wp_ret, wp_ret. by apply Hset.
Qed.

Lemma wp_write_author_events ex commits (Post : () → Db → Prop) d :
  Post () (foldl event_step d (kept_of ex commits)) → wp (write_author_events ex commits) Post d.
Proof using Type.
  intros HP. unfold write_author_events.
  apply (wp_each _ (λ d c, match pair c <$> filter_kept ex c with Some k => event_step d k | None => d end)).
  - intros c d' P _ Hc. destruct (filter_kept ex c) as [kept|]; [|by apply wp_ret]. cbn in Hc.
    apply (wp_each _ (λ d x, set_events (<[(path x, sha c) := (author c, timestamp c)]>) d)); [|exact Hc].
    intros x d'' P' _ Hx. by apply wp_exec.
  - by rewrite (foldl_omap event_step (λ c, pair c <$> filter_kept ex c)).
Qed.

Lemma wp_decay from to (Post : () → Db → Prop) d :
  Post () d → (∀ f, Post () (set_pairs (fmap (scale_pair f)) (set_files (fmap (scale_file f)) d))) → wp (decay_git_history_between from to) Post d.
Proof using Type.
  intros H0 Hf. unfold decay_git_history_between. destruct (0 <? _)%Z; [|by apply wp_ret].
  apply wp_savepoint, wp_bind, wp_exec, wp_exec. apply Hf.
Qed.

Definition proper_totals (t : Totals) : Prop := ∀ key, is_Some (t.2 !! key) → proper_pair key.

Lemma proper_entry t a b w : proper_totals t → ((a, b), w) ∈ hash_order (map_to_list t.2) → a ≠ b ∧ ordered (a, b) = (a, b).
Proof using HL.
  intros Ht Hin. rewrite hash_order_perm, elem_of_map_to_list in Hin. destruct (Ht (a, b)) as [Hle Hne]; [by eexists|].
  split; [done|]. by apply ordered_self.
Qed.

(** What a full pass leaves. *)
Lemma wp_write_full commits ex t a sha fp (Post : () → Db → Prop) d :
  proper_totals t →
  (∀ d' at_, git_files d' = t.1 → git_co_changes d' = pair_row <$> t.2 →
     git_author_events d' = git_author_events (foldl event_step (mkDb ∅ ∅ ∅ true None) (kept_of ex commits)) → authors_complete d' = true →
     index_state d' = Some (mkIndexState sha at_ (Some (anchor_entry a)) (Some fp)) → Post () d') →
  wp (write_full commits ex t a sha fp) Post d.
Proof using HL.
  intros Ht HP. unfold write_full. apply wp_bind. unfold clear_git_data. apply wp_bind, wp_exec, wp_bind, wp_exec, wp_exec.
  apply wp_bind. unfold reset_git_authors. apply wp_bind, wp_exec, wp_exec. apply wp_bind, wp_write_author_events.
  set (d0 := foldl event_step _ _).
  assert (d0 = foldl event_step (mkDb ∅ ∅ ∅ true None) (kept_of ex commits)) as E0 by done.
  assert (∀ l d, git_files (foldl event_step d l) = git_files d ∧ git_co_changes (foldl event_step d l) = git_co_changes d
    ∧ authors_complete (foldl event_step d l) = authors_complete d) as Hev.
  { intros l. induction l as [|k l IH] using rev_ind; intros d1; [done|]. rewrite foldl_app. cbn [foldl]. destruct (IH d1) as (<- & <- & <-).
    destruct (event_step_spec (foldl event_step d1 l) k) as (_ & -> & -> & _). split_and!; try done.
    unfold event_step. by rewrite foldl_same. }
  destruct (Hev (kept_of ex commits) (mkDb ∅ ∅ ∅ true None)) as (Ef & Ep & Ec). rewrite <- E0 in Ef, Ep, Ec. cbn in Ef, Ep, Ec.
  apply wp_bind, (wp_each _ (λ d p, set_files (<[p.1 := p.2]>) d)); [intros x d' P _ Hx; by apply wp_exec|].
  apply wp_bind, (wp_each _ (λ d p, set_pairs (<[p.1 := pair_row p.2]>) d)).
  { intros [[x y] w] d' P Hin Hx. destruct (proper_entry t x y w Ht Hin) as [Hne Ho]. unfold upsert_git_co_change_full.
    apply wp_bind, wp_order; [done|]. apply wp_exec. cbn in *. by rewrite Ho. }
  set (d1 := foldl _ d0 _). set (d2 := foldl _ d1 _). apply wp_bind, wp_persist. intros at_ anc Hanc _. rewrite (Hanc eq_refl).
  apply wp_exec. apply (HP _ at_); cbn.
  - unfold d2. rewrite (foldl_same git_files) by done. unfold d1.
    rewrite (foldl_proj git_files _ (λ m (p : bytes * GitFileRow), <[p.1 := (λ v (_ : option GitFileRow), v) p.2 (m !! p.1)]> m)) by done.
    apply map_eq. intros k. etrans; [exact (fold_entries (λ v (_ : option GitFileRow), v) t.1 (git_files d0) k)|].
    rewrite Ef. destruct (t.1 !! k); [done|by rewrite lookup_empty].
  - unfold d2. rewrite (foldl_proj git_co_changes _ (λ m (p : (bytes * bytes) * CoChangeWrite), <[p.1 := (λ v (_ : option CoChange), pair_row v) p.2 (m !! p.1)]> m)) by done.
    unfold d1. rewrite (foldl_same git_co_changes) by done. apply map_eq. intros k.
    etrans; [exact (fold_entries (λ v (_ : option CoChange), pair_row v) t.2 (git_co_changes d0) k)|]. rewrite Ep, lookup_fmap.
    destruct (t.2 !! k); [done|by rewrite lookup_empty].
  - unfold d2, d1. rewrite !(foldl_same git_author_events) by done. by rewrite E0.
  - unfold d2, d1. rewrite !(foldl_same authors_complete) by done. exact Ec.
  - done.
Qed.

Lemma wp_rekey_history moves (Post : () → Db → Prop) d :
  (moves = [] → Post () d) → Post () (rekey_events moves (rekey_tables moves d)) → wp (rekey_git_history moves) Post d.
Proof using HL.
  intros H0 HP. unfold rekey_git_history. destruct moves as [|m moves]; [by apply wp_ret, H0|]. by apply wp_savepoint, wp_rekey.
Qed.

Lemma wp_incr_pairs l n (Post : nat → Db → Prop) d :
  (∀ a b w, ((a, b), w) ∈ l → a ≠ b ∧ ordered (a, b) = (a, b)) →
  (∀ k, Post k (foldl step_incr_pair d l)) → wp (incr_pairs l n) Post d.
Proof using Type.
  revert n d. induction l as [|[[a b] w] l IH]; intros n d Hl HP; [by apply wp_ret|]. cbn [incr_pairs].
  destruct (Hl a b w) as [Hne Ho]; [by left|]. unfold incr_git_co_change_full. apply wp_bind, wp_bind, wp_order; [done|]. rewrite Ho.
  apply wp_bind, wp_exec, wp_exec. unfold co_change_pair_exists. apply wp_bind, wp_bind, wp_order; [done|]. apply wp_read.
  apply IH; [intros a' b' w' Hin; apply (Hl a' b' w'); by right|exact HP].
Qed.

(** What an incremental pass leaves. *)
Lemma wp_write_incremental commits ex t moves sha anchors (Post : nat → Db → Prop) d :
  proper_totals t →
  (∀ d0 d1 at_ anc n,
     d0 = d ∨ (∃ f, d0 = set_pairs (fmap (scale_pair f)) (set_files (fmap (scale_file f)) d)) →
     (moves = [] ∧ d1 = d0) ∨ d1 = rekey_events moves (rekey_tables moves d0) →
     anc = None ∨ anc = Some (anchor_entry (current anchors)) →
     Post n (stamp sha at_ anc (Some (exclusion_fingerprint anchors))
       (add_totals t (foldl event_step (set_events (filter (λ e, (cutoff (current anchors) <= e.2.2)%Z)) d1) (kept_of ex commits))))) →
  wp (write_incremental commits ex t moves sha anchors) Post d.
Proof using HL.
  intros Ht HP. unfold write_incremental.
  assert (∀ d0, d0 = d ∨ (∃ f, d0 = set_pairs (fmap (scale_pair f)) (set_files (fmap (scale_file f)) d)) →
    wp (_ ← rekey_git_history moves; _ ← prune_git_author_events (cutoff (current anchors)); _ ← write_author_events ex commits;
        _ ← each (λ p, incr_git_file p.1 p.2) (hash_order (map_to_list t.1)); kept ← incr_pairs (hash_order (map_to_list t.2)) 0;
        _ ← persist (current anchors) sha false; _ ← set_git_index_exclusion_fingerprint (exclusion_fingerprint anchors); mret kept) Post d0) as Hgo.
  { intros d0 Hd0. apply wp_bind.
    assert (∀ d1, (moves = [] ∧ d1 = d0) ∨ d1 = rekey_events moves (rekey_tables moves d0) →
      wp (_ ← prune_git_author_events (cutoff (current anchors)); _ ← write_author_events ex commits;
        _ ← each (λ p, incr_git_file p.1 p.2) (hash_order (map_to_list t.1)); kept ← incr_pairs (hash_order (map_to_list t.2)) 0;
        _ ← persist (current anchors) sha false; _ ← set_git_index_exclusion_fingerprint (exclusion_fingerprint anchors); mret kept) Post d1) as Hrest.
    { intros d1 Hd1. apply wp_bind, wp_exec, wp_bind, wp_write_author_events.
      apply wp_bind, (wp_each _ (λ d p, set_files (upsert_with add_file p.1 p.2) d)); [intros x d' P _ Hx; by apply wp_exec|].
      apply wp_bind, wp_incr_pairs; [intros a b w; by apply proper_entry|]. intros n.
      apply wp_bind, wp_persist. intros at_ anc _ Hanc. apply wp_bind, wp_exec, wp_ret. by apply (HP d0 d1 at_ anc n). }
    apply wp_rekey_history; [intros Hm; apply Hrest; by left|apply Hrest; by right]. }
  apply wp_bind, wp_decay; [apply Hgo; by left|]. intros f. apply Hgo. right. by exists f.
Qed.
End runs.
