(* ===== verification/GitExact.v ===== *)
(** * GitExact: the commits of a pass, and the moves they imply

    What git's output gives a pass, the tables a full pass leaves, and what it means that
    the renames of an incremental one do not diverge from a full scan. *)
From stdpp Require Import gmap sorting.
From S2P Require Import Prelude Text Utf8 Unicode Order Float GitLog GitRenames GitStore GitLogic GitHistory GitScan GitRekey GitPasses GitRuns.
From Stdlib Require Import Lia ZArith NArith.
Local Open Scope byte_scope.
Local Open Scope codesage_scope.

(** ** The commits of a pass *)

Section pass.
Context {U : Unicode} {Q : Sqlite} {H : HashOrder} {HL : HashOrderLaws H} {G : Git} {GS : GlobSets} {E : Exp}.
Context (ex t : bytes → bool).

(** A computation of the output of git alone. *)
Definition stateless {A} (m : M A) : Prop := ∃ r, (∀ w, m w = (r, w)) ∧ match r with inl e => blamed e | inr _ => True end.

Lemma stateless_ret {A} (a : A) : stateless (mret a).
Proof. by exists (inr a). Qed.

Lemma stateless_bind {A B} (m : M A) (f : A → M B) : stateless m → (∀ a, stateless (f a)) → stateless (m ≫= f).
Proof.
  intros ([e|a] & Hm & He) Hf; [exists (inl e); split; [|done]; intros w; unfold mbind, M_bind; by rewrite Hm|].
  destruct (Hf a) as (r & Hr & Hb). exists r. split; [|done]. intros w. unfold mbind, M_bind. by rewrite Hm, Hr.
Qed.

Lemma stateless_git {A} (out : option A) : stateless (git out).
Proof. destruct out as [a|]; [by exists (inr a)|by exists (inl GitFailed)]. Qed.

Lemma stateless_utf8 s : stateless (from_utf8 s).
Proof. unfold from_utf8. destruct (is_utf8 s); [by exists (inr s)|by exists (inl NotUtf8)]. Qed.

Lemma wp_stateless {A} (m : M A) (Post : A → Db → Prop) d : stateless m → (∀ a, (∀ w, m w = (inr a, w)) → Post a d) → wp m Post d.
Proof. intros ([e|a] & Hm & He) HP w <-; rewrite Hm; [done|]. by apply HP. Qed.

Lemma stateless_pass range since head : stateless (pass_commits ex range since head).
Proof.
  apply stateless_bind; [apply stateless_bind; [apply stateless_git|apply stateless_utf8]|]. intros raw.
  apply stateless_bind.
  { destruct (parse_log raw) as [[e]|cs]; [by exists (inl (BadLog e))|by exists (inr cs)]. }
  intros cs. destruct (follow_renames ex cs) as [commits succ]. apply stateless_bind; [|intros ?; apply stateless_ret].
  unfold remap_dead_paths. case_bool_decide; [apply stateless_ret|].
  apply stateless_bind; [|intros ?; apply stateless_ret]. unfold head_paths. apply stateless_bind; [apply stateless_git|]. intros ?. apply stateless_ret.
Qed.

Lemma bound {A B} (m : M A) (f : A → M B) w b w' : (m ≫= f) w = (inr b, w') → ∃ a w1, m w = (inr a, w1) ∧ f a w1 = (inr b, w').
Proof. unfold mbind, M_bind. destruct (m w) as [[e|a] w1]; [done|]. intros Hf. by exists a, w1. Qed.

Lemma through {A B} (m : M A) (f : A → M B) w a w' : m w = (inr a, w') → (m ≫= f) w = f a w'.
Proof. unfold mbind, M_bind. by intros ->. Qed.

(** The commits, keyed to current paths, that git's output gives, and its renames. *)
Definition yields_pass (range : option bytes) (since : Z) (head : bytes) (cs : list Commit) (succ : gmap bytes bytes) : Prop :=
  ∀ w, pass_commits ex range since head w = (inr (cs, succ), w).

Definition logged (range : option bytes) (since : Z) (cs : list Commit) : Prop :=
  ∃ raw, git_log range since = Some raw ∧ is_utf8 raw = true ∧ parse_log raw = inr cs.

Definition live_of (out : bytes) : gset bytes :=
  list_to_set (List.filter (λ e, negb (bytes_eqb e []) && is_utf8 e) (split_on NUL out)).

Definition some_world : World := mkWorld (mkDb ∅ ∅ ∅ false None) 0 ∅.

Lemma pass_inv range since head cs succ : yields_pass range since head cs succ →
  ∃ parsed, logged range since parsed ∧ succ = (follow_renames ex parsed).2
    ∧ (cs = followed ex [] parsed ∨ ∃ live, cs = map (remap_commit succ live) (followed ex [] parsed)).
Proof.
  intros Hy. specialize (Hy some_world). apply bound in Hy as (raw & w1 & Hraw & Hy).
  apply bound in Hraw as (out & w2 & Hout & Hraw). unfold git in Hout. destruct (git_log range since) as [r|] eqn:Er; [|done].
  injection Hout as <- <-. unfold from_utf8 in Hraw. destruct (is_utf8 r) eqn:Eu; [|done]. injection Hraw as <- <-.
  apply bound in Hy as (parsed & w3 & Hp & Hy). destruct (parse_log r) as [[e]|cs'] eqn:Ep; [done|]. injection Hp as <- <-.
  exists cs'. split; [by exists r|]. rewrite <- follow_renames_followed. destruct (follow_renames ex cs') as [commits succ'].
  apply bound in Hy as (commits' & w4 & Hc & Hy). injection Hy as -> -> ->. split; [done|]. unfold remap_dead_paths in Hc.
  case_bool_decide; [injection Hc as ->; by left|]. right. apply bound in Hc as (live & w5 & _ & Hc). injection Hc as <- _. by exists live.
Qed.

(** Each change is on a path HEAD holds, or on one that was never renamed away. *)
Definition settled (head : bytes) (cs : list Commit) : Prop :=
  (follow_renames ex cs).2 = ∅ ∨
  ∃ out, git_ls_tree head = Some out ∧ ∀ p, p ∈ keyed_paths ex [] cs → p ∈ live_of out ∨ (follow_renames ex cs).2 !! p = None.

Lemma remap_settled succ live c : (∀ p, p ∈ map path (changes c) → p ∈ live ∨ succ !! p = None) → remap_commit succ live c = c.
Proof.
  intros Hs. unfold remap_commit.
  assert (map (remap_change succ live) (changes c) = map (λ x, (x, false)) (changes c)) as ->.
  { apply map_ext_in. intros x Hx. unfold remap_change. case_decide as Hl; [done|]. destruct (Hs (path x)) as [?|Hn]; [|done|].
    - apply list_elem_of_fmap_2. by apply list_elem_of_In.
    - assert (follow_live succ live (size succ) (path x) = path x) as -> by (destruct (size succ); cbn; [done|by rewrite Hn]).
      by rewrite decide_False. }
  rewrite map_map, map_id. assert (existsb snd (map (λ x : FileChange, (x, false)) (changes c)) = false) as ->
    by (clear Hs; induction (changes c) as [|? ? IH]; [done|exact IH]).
  by destruct c.
Qed.

Lemma settled_pass range since head cs : logged range since cs → settled head cs →
  yields_pass range since head (followed ex [] cs) (follow_renames ex cs).2.
Proof.
  intros (raw & Hr & Hu & Hp) Hs w. unfold pass_commits.
  rewrite (through _ _ w raw w) by (unfold run_git_log; rewrite Hr, (through _ _ w raw w) by done; unfold from_utf8; by rewrite Hu).
  rewrite (through _ _ w cs w) by by rewrite Hp.
  pose proof (follow_renames_followed ex cs) as Ef. unfold settled in Hs. destruct (follow_renames ex cs) as [commits succ]. cbn [fst snd] in *. subst commits.
  rewrite (through _ _ w (followed ex [] cs) w); [done|]. unfold remap_dead_paths. case_bool_decide as Hd; [done|]. destruct Hs as [?|(out & Hout & Hl)]; [done|].
  rewrite (through _ _ w (live_of out) w) by (unfold head_paths; by rewrite Hout, (through _ _ w out w)).
  unfold mret, M_ret. f_equal. f_equal. rewrite <- (map_id (followed ex [] cs)) at 2. apply map_ext_in. intros c Hc. apply remap_settled. intros p Hp'. apply Hl.
  unfold keyed_paths. apply elem_of_concat. exists (map path (changes c)). split; [|done].
  apply elem_of_fmap_map. exists c. split; [done|by apply list_elem_of_In].
Qed.

(** ** Well-formed passes *)

Definition tidy (c : Commit) : Prop := NoDup (map path (changes c)) ∧ Forall in_u32 (changes c).

Lemma tidy_followed newer cs : Forall counts_in_u32 cs → Forall tidy (followed ex newer cs).
Proof.
  intros Hu. rewrite Forall_forall. intros f (i & Hi)%list_elem_of_lookup. unfold followed in Hi. rewrite list_lookup_imap in Hi.
  destruct (cs !! i) as [c|] eqn:Ei; [|done]. cbn in Hi. injection Hi as <-. pose proof (followed_merged ex newer cs i c Hu Ei) as M.
  split; [apply (merged_paths _ _ M)|apply (merged_u32 _ _ M)].
Qed.

Lemma tidy_remapped succ live c : tidy c → tidy (remap_commit succ live c).
Proof.
  intros [Hn Hu]. unfold remap_commit, tidy. cbn [changes with_changes].
  assert (Forall in_u32 (map fst (map (remap_change succ live) (changes c)))) as Hm.
  { rewrite map_map. apply Forall_map. eapply Forall_impl; [exact Hu|]. intros x Hx. unfold remap_change. repeat case_decide; done. }
  destruct (existsb snd _) eqn:Eb.
  - pose proof (merge_same_path_ok _ Hm) as M. split; [apply (merged_paths _ _ M)|apply (merged_u32 _ _ M)].
  - split; [|done]. assert (map fst (map (remap_change succ live) (changes c)) = changes c) as ->; [|done].
    clear Hn Hu Hm. induction (changes c) as [|x l IH]; [done|]. cbn in *. apply orb_false_iff in Eb as [Ex El]. rewrite IH by done.
    unfold remap_change in *. repeat case_decide; done.
Qed.

Lemma tidy_pass range since head cs succ : yields_pass range since head cs succ → Forall tidy cs.
Proof.
  intros (parsed & (raw & _ & _ & Hp) & _ & Hcs)%pass_inv. pose proof (tidy_followed [] parsed (parse_log_u32 _ _ Hp)) as Ht.
  destruct Hcs as [-> |[live ->]]; [done|]. apply Forall_map. eapply Forall_impl; [exact Ht|]. intros c. apply tidy_remapped.
Qed.

Lemma tidy_kept cs : Forall tidy cs → Forall wf_kept (kept_of ex cs).
Proof.
  rewrite !Forall_forall. intros Ht k Hk. unfold kept_of in Hk. apply list_elem_of_omap in Hk as (c & Hc & Ek).
  destruct (filter_kept ex c) as [kept|] eqn:K; [|done]. cbn in Ek. injection Ek as <-. eapply NoDup_kept_paths; [exact K|]. by apply Ht.
Qed.

Lemma kept_shas cs : NoDup (map sha cs) → NoDup (shas (kept_of ex cs)).
Proof.
  unfold shas, kept_of. induction cs as [|c cs IH]; [done|]. cbn. intros [Hc Hn]%NoDup_cons. destruct (filter_kept ex c) as [kept|]; cbn; [|by apply IH].
  constructor; [|by apply IH]. intros (k & Ek & Hk)%elem_of_fmap_map. apply list_elem_of_omap in Hk as (c' & Hc' & E').
  destruct (filter_kept ex c'); [|done]. cbn in E'. injection E' as <-. cbn in Ek. apply Hc. rewrite Ek. by apply list_elem_of_fmap_2.
Qed.

Lemma scan_proper anchor cs : Forall wf_kept (kept_of ex cs) → proper_totals (scan ex t anchor cs).1.
Proof.
  intros Hwf key [w Hw]. destruct (scan_right ex t anchor cs Hwf) as [[_ Hp] _]. specialize (Hp key). rewrite Hw in Hp. by case_decide.
Qed.

(** ** A full pass *)

Lemma holds_full cs anchor d' :
  Forall wf_kept (kept_of ex cs) → NoDup (map sha cs) →
  git_files d' = (scan ex t anchor cs).1.1 → git_co_changes d' = pair_row <$> (scan ex t anchor cs).1.2 →
  git_author_events d' = git_author_events (foldl event_step (mkDb ∅ ∅ ∅ true None) (kept_of ex cs)) → holds t (kept_of ex cs) d'.
Proof.
  intros Hwf Hn Ef Ep Ee. destruct (scan_right ex t anchor cs Hwf) as [[Hf Hp] _]. split.
  - intros p. by rewrite Ef.
  - intros key. rewrite Ep, lookup_fmap, <- option_fmap_compose, <- Hp. by destruct (_ !! key).
  - intros key r. rewrite Ep, lookup_fmap, fmap_Some. by intros (w & _ & ->).
  - intros key v. rewrite Ee. destruct (events_written (kept_of ex cs) (mkDb ∅ ∅ ∅ true None) (kept_shas cs Hn)) as (He & _). rewrite He. cbn.
    rewrite lookup_empty. naive_solver.
Qed.

Lemma wp_run_full head a fp (Post : GitIndexStats → Db → Prop) d :
  (∀ cs succ stats d' at_, yields_pass None (cutoff a) head cs succ → Forall wf_kept (kept_of ex cs) →
     git_files d' = (scan ex t (epoch a) cs).1.1 → git_co_changes d' = pair_row <$> (scan ex t (epoch a) cs).1.2 →
     git_author_events d' = git_author_events (foldl event_step (mkDb ∅ ∅ ∅ true None) (kept_of ex cs)) → authors_complete d' = true →
     index_state d' = Some (mkIndexState head at_ (Some (anchor_entry a)) (Some fp)) →
     stats = mkStats (length (kept_of ex cs)) (size (scan ex t (epoch a) cs).1.1) (kept_pairs (scan ex t (epoch a) cs).1.2) →
     Post stats d') →
  wp (run_full ex t head a fp) Post d.
Proof using HL.
  intros HP. unfold run_full. apply wp_bind, wp_stateless; [apply stateless_pass|]. intros [cs succ] Hy. cbn [fst].
  pose proof (tidy_kept cs (tidy_pass _ _ _ _ _ Hy)) as Hwf. pose proof (scan_proper (epoch a) cs Hwf) as Hpr.
  destruct (scan_right ex t (epoch a) cs Hwf) as [_ Hn]. destruct (scan ex t (epoch a) cs) as [tot n] eqn:Es. cbn in Hn, Hpr. subst n.
  apply wp_bind, wp_execute_batch, wp_write_full; [done|]. intros d' at_ Hf Hp He Hc Hs. apply wp_ret.
  apply (HP cs succ _ d' at_); rewrite ?Es; done.
Qed.
End pass.

(** ** Divergence *)

Definition moved_to (d : Db) (to : bytes) (m : bytes * option bytes) : Prop := m.2 = Some to ∧ is_Some (git_files d !! m.1).

#[local] Instance moved_to_decision d to m : Decision (moved_to d to m).
Proof. unfold moved_to. apply _. Defined.

(** The moves keep test files tests, and give no recorded file the path of another. *)
Record converges (test_like : bytes → bool) (sources : gset bytes) (counted : gmap bytes nat) (d : Db) (moves : list (bytes * option bytes)) : Prop := {
  conv_test from to : (from, Some to) ∈ moves → test_like from = test_like to;
  conv_free from to : (from, Some to) ∈ moves → to ∈ sources ∨ git_files d !! to = None;
  conv_once to : default 0 (counted !! to) + length (filter (moved_to d to) moves) ≤ 1 }.

Section diverges.
Context {Q : Sqlite}.

Lemma wp_diverges_loop t sources counted moves (Post : bool → Db → Prop) d :
  (∀ to, default 0 (counted !! to) ≤ 1) →
  Post true d → (converges t sources counted d moves → Post false d) → wp (diverges_loop t sources counted moves) Post d.
Proof.
  revert counted. induction moves as [|[from [to|]] moves IH]; intros counted Hle Ht Hf; cbn [diverges_loop].
  - apply wp_ret, Hf. split; [by intros ? ? ?%elem_of_nil..|]. intros to. cbn. rewrite Nat.add_0_r. apply Hle.
  - destruct (Bool.eqb (t from) (t to)) eqn:Et; [apply Bool.eqb_prop in Et; cbn [negb]|by apply wp_ret].
    assert (∀ counted', (∀ to, default 0 (counted' !! to) ≤ 1) → to ∈ sources ∨ git_files d !! to = None →
      (∀ to', default 0 (counted !! to') + length (filter (moved_to d to') ((from, Some to) :: moves))
        = default 0 (counted' !! to') + length (filter (moved_to d to') moves)) →
      wp (diverges_loop t sources counted' moves) Post d) as Hgo.
    { intros counted' Hle' Hfree Hc. apply IH; [done..|]. intros [C1 C2 C3]. apply Hf. split.
      - intros f o [[= -> ->]|Hin]%elem_of_cons; [done|by apply C1].
      - intros f o [[= -> ->]|Hin]%elem_of_cons; [done|by apply (C2 f)].
      - intros to'. rewrite Hc. apply C3. }
    assert (to ∈ sources ∨ git_files d !! to = None →
      wp (r ← git_file from; match r with
        | Some _ => if 1 <? S (default 0 (counted !! to)) then mret true
                    else diverges_loop t sources (<[to:=S (default 0 (counted !! to))]> counted) moves
        | None => diverges_loop t sources counted moves
        end) Post d) as Hrow.
    { intros Hfree. apply wp_bind, wp_read. destruct (git_files d !! from) as [row|] eqn:Er.
      - destruct (1 <? _) eqn:El; [by apply wp_ret|]. apply Nat.ltb_ge in El. apply Hgo; [|done|].
        + intros to'. destruct (decide (to = to')) as [<-|Hne]; [by rewrite lookup_insert_eq|rewrite lookup_insert_ne by done; apply Hle].
        + intros to'. rewrite filter_cons. destruct (decide (to = to')) as [<-|Hne].
          * rewrite decide_True by (split; [done|by eexists]). rewrite lookup_insert_eq. cbn. lia.
          * rewrite decide_False by (intros [[= ?] _]; done). by rewrite lookup_insert_ne.
      - apply Hgo; [done..|]. intros to'. rewrite filter_cons, decide_False; [done|]. intros [_ [? ?]]. cbn in *. congruence. }
    apply wp_bind. case_decide as Hs; [apply wp_ret, Hrow; by left|]. apply wp_bind, wp_read, wp_ret.
    case_bool_decide as Hh; [by apply wp_ret|]. apply Hrow. right. by apply eq_None_not_Some.
  - apply IH; [done..|]. intros [C1 C2 C3]. apply Hf. split.
    + intros f o [[=]|Hin]%elem_of_cons. by apply C1.
    + intros f o [[=]|Hin]%elem_of_cons. by apply (C2 f).
    + intros to. rewrite filter_cons, decide_False by (intros [[=] _]). apply C3.
Qed.

Lemma wp_diverges t moves (Post : bool → Db → Prop) d :
  Post true d → (converges t (list_to_set (map fst moves)) ∅ d moves → Post false d) → wp (rekey_diverges_from_full_scan moves t) Post d.
Proof. intros Ht Hf. apply wp_diverges_loop; [|done..]. intros to. rewrite lookup_empty. cbn. lia. Qed.
End diverges.

(** ** The moves of a pass *)

Section moves.
Context {H : HashOrder} {HL : HashOrderLaws H}.
Context (ex : bytes → bool) (new : list Commit).
Let succ := (follow_renames ex new).2.
Let moves := moves_of ex succ.

Lemma moves_sources : NoDup (map fst moves) ∧ ∀ p, p ∈ map fst moves ↔ name_after new p ≠ p.
Proof using HL.
  assert (map fst moves = map fst (hash_order (map_to_list succ))) as -> by (unfold moves, moves_of; by rewrite map_map).
  split; [apply NoDup_ordered_entries|]. intros p. destruct (follow_renames_spec ex new) as (_ & _ & Hm).
  change (p ∈ fst <$> hash_order (map_to_list succ) ↔ name_after new p ≠ p). rewrite hash_order_perm, list_elem_of_fmap. split.
  - intros ([q now] & -> & Hq%elem_of_map_to_list). cbn in *. unfold succ in Hq. rewrite Hm in Hq. by case_decide.
  - intros Hne. exists (p, name_after new p). split; [done|]. apply elem_of_map_to_list. unfold succ. by rewrite Hm, decide_False.
Qed.

Lemma moves_entry p : name_after new p ≠ p → ex p = false → ex (name_after new p) = false → (p, Some (name_after new p)) ∈ moves.
Proof using HL.
  intros Hne Hp Hn. unfold moves, moves_of. apply elem_of_fmap_map. exists (p, name_after new p). cbn. rewrite Hp, Hn. split; [done|].
  rewrite hash_order_perm. apply elem_of_map_to_list. destruct (follow_renames_spec ex new) as (_ & _ & Hm). unfold succ. by rewrite Hm, decide_False.
Qed.

Lemma moves_destination p : ex p = false → ex (name_after new p) = false → destination moves p = Some (name_after new p).
Proof using HL.
  intros Hp Hn. destruct moves_sources as [Hnd Hs]. destruct (decide (name_after new p = p)) as [E|Hne].
  - rewrite E. apply destination_stay; [done|]. by intros Hin%Hs.
  - apply destination_move; [done|]. by apply moves_entry.
Qed.

Lemma moves_nil d : moves = [] → rekey_events moves (rekey_tables moves d) = d.
Proof using HL.
  intros ->. assert (GitRekey.sources [] = []) as Hs.
  { apply Permutation_nil. symmetry. unfold GitRekey.sources. by rewrite hash_order_perm. }
  unfold rekey_tables, file_rows, pair_rows. by rewrite Hs.
Qed.

Lemma converges_moves t d (p q : bytes) :
  converges t (list_to_set (map fst moves)) ∅ d moves → (∀ r, r = p ∨ r = q → is_Some (git_files d !! r) ∧ ex r = false ∧ ex (name_after new r) = false) →
  t (name_after new p) = t p ∧ (name_after new p = name_after new q → p = q).
Proof using HL.
  intros [C1 C2 C3] Hr. destruct (Hr p) as (Rp & Ep & Np), (Hr q) as (Rq & Eq & Nq); auto. destruct moves_sources as [Hnd Hs]. split.
  - destruct (decide (name_after new p = p)) as [->|Hne]; [done|]. symmetry. by apply C1, moves_entry.
  - intros E. destruct (decide (name_after new p = p)) as [Hp|Hp], (decide (name_after new q = q)) as [Hq|Hq]; [congruence|..].
    + exfalso. destruct (C2 q (name_after new q)) as [Hin|Hn]; [by apply moves_entry|..].
      * apply elem_of_list_to_set, Hs in Hin. congruence.
      * rewrite <- E, Hp in Hn. rewrite Hn in Rp. by destruct Rp.
    + exfalso. destruct (C2 p (name_after new p)) as [Hin|Hn]; [by apply moves_entry|..].
      * apply elem_of_list_to_set, Hs in Hin. congruence.
      * rewrite E, Hq in Hn. rewrite Hn in Rq. by destruct Rq.
    + specialize (C3 (name_after new p)). rewrite lookup_empty in C3. cbn in C3.
      assert ((p, Some (name_after new p)) ∈ filter (moved_to d (name_after new p)) moves) as H1 by (apply list_elem_of_filter; split; [done|by apply moves_entry]).
      assert ((q, Some (name_after new p)) ∈ filter (moved_to d (name_after new p)) moves) as H2
        by (apply list_elem_of_filter; split; [done|rewrite E; by apply moves_entry]).
      destruct (filter _ moves) as [|x [|y l]]; [by apply elem_of_nil in H1| |cbn in C3; lia].
      apply list_elem_of_singleton in H1, H2. congruence.
Qed.
End moves.
