(* ===== verification/GitSmall.v ===== *)
(** * GitSmall: a small repository

    Three commits, the last of which renames a file, the database before any pass, and
    concrete parameters: the inputs the theorems of GitTheorems are tried on. *)
From stdpp Require Import gmap.
From S2P Require Import Prelude Text Utf8 Unicode Order Float GitLog GitRenames GitStore GitHistory GitPasses GitExact.
From Stdlib Require Import Lia ZArith NArith.
Local Open Scope codesage_scope.

#[export] Instance in_order : HashOrder := { hash_order := λ A l, l }.
#[export] Instance in_order_laws : HashOrderLaws in_order.
Proof. by constructor. Qed.

#[export] Instance sound_disk : Sqlite := { statement_fails := λ _, false; clock := λ n, (1700000100 + Z.of_nat n)%Z }.
#[export] Instance no_globs : GlobSets := { build_exclude_set := λ _, Some (λ _, false) }.
#[export] Instance flat : Exp := { f64_exp := λ _, f64_of_Z 1 }.

Definition older_commits : list LogCommit := [
  mkLogCommit (bs "c1") 1700000000 (bs "dev@example.com") (bs "Dev") (bs "feat: both")
    [mkStat (Some (1, 0)%N) (bs "a.rs") None; mkStat (Some (2, 2)%N) (bs "b.rs") None];
  mkLogCommit (bs "c0") 1699990000 (bs "dev@example.com") (bs "Dev") (bs "fix: first") [mkStat (Some (5, 0)%N) (bs "a.rs") None] ].

Definition newer_commits : list LogCommit := [
  mkLogCommit (bs "c2") 1700000050 (bs "ann@example.com") (bs "Ann") (bs "refactor: rename")
    [mkStat (Some (3, 1)%N) (bs "c.rs") (Some (bs "a.rs")); mkStat (Some (1, 0)%N) (bs "b.rs") None] ].

Definition paths_nul (l : list bytes) : bytes := concat (map (λ p, p ++ [NUL]) l).

(** The repository at [c1], and at [c2]. *)
Definition at_c1 : Git := {|
  git_rev_parse_head := Some (bs "c1");
  git_commit_date := λ _, Some (bs "1700000000");
  git_log := λ _ _, Some (print_log older_commits);
  git_ls_tree := λ _, Some (paths_nul [bs "a.rs"; bs "b.rs"]);
  git_is_ancestor := λ _ _, Some true |}.

Definition at_c2 : Git := {|
  git_rev_parse_head := Some (bs "c2");
  git_commit_date := λ _, Some (bs "1700000050");
  git_log := λ range _, Some (print_log (match range with Some _ => newer_commits | None => newer_commits ++ older_commits end));
  git_ls_tree := λ _, Some (paths_nul [bs "b.rs"; bs "c.rs"]);
  git_is_ancestor := λ _ _, Some true |}.

Definition nothing (_ : bytes) : bool := false.
Definition no_rows : Db := mkDb ∅ ∅ ∅ false None.
Definition fresh : World := mkWorld no_rows 0 ∅.

Definition old_log : list Commit := map commit_of older_commits.
Definition new_log : list Commit := map commit_of newer_commits.

Definition anchor1 : HistoryAnchor := mkAnchor 1700000000 HeadCommit.
Definition anchor2 : HistoryAnchor := mkAnchor 1700000050 HeadCommit.

(** A full pass at [c1], an incremental one at [c2], and what it counts of [c.rs] and of
    the pair. *)
Definition two_passes : option (nat * option (N * N) * option N) :=
  match run_full (G := at_c1) nothing nothing (bs "c1") anchor1 [] fresh with
  | (inr _, w) =>
      match run_incremental (G := at_c2) nothing nothing (bs "c2") (bs "c1") (mkAnchors anchor2 1700000000 []) w with
      | (inr s, w) => Some (commits_scanned s, (λ r, (fix_count r, total_commits r)) <$> git_files (db w) !! bs "c.rs",
          (λ r, count (counters r)) <$> git_co_changes (db w) !! (bs "b.rs", bs "c.rs"))
      | _ => None
      end
  | _ => None
  end.

Example two_passes_counted : two_passes = Some (1, Some (1, 3)%N, Some 2%N).
Proof. by vm_compute. Qed.

Lemma small_settled1 : settled (G := at_c1) nothing (bs "c1") old_log.
Proof. left. apply (bool_decide_unpack _). by vm_compute. Qed.

Lemma small_settled (cs : list Commit) :
  bool_decide (Forall (λ p, p ∈ live_of (paths_nul [bs "b.rs"; bs "c.rs"]) ∨ (follow_renames nothing cs).2 !! p = None) (keyed_paths nothing [] cs)) = true →
  settled (G := at_c2) nothing (bs "c2") cs.
Proof.
  intros Hcs%bool_decide_eq_true. right. exists (paths_nul [bs "b.rs"; bs "c.rs"]). split; [done|]. by rewrite Forall_forall in Hcs.
Qed.

Lemma small_logged (G : Git) range since log :
  git_log range since = Some (print_log log) → is_utf8 (print_log log) = true → parse_log (print_log log) = inr (map commit_of log) →
  logged range since (map commit_of log).
Proof. by exists (print_log log). Qed.

(** ** A file that passes through an excluded directory *)

Definition under_gen (p : bytes) : bool := starts_with (bs "gen/") p.

Definition detour_older : list LogCommit := [
  mkLogCommit (bs "d1") 1700000000 (bs "dev@example.com") (bs "Dev") (bs "move away") [mkStat (Some (1, 0)%N) (bs "gen/x.rs") (Some (bs "x.rs"))];
  mkLogCommit (bs "d0") 1699990000 (bs "dev@example.com") (bs "Dev") (bs "first") [mkStat (Some (5, 0)%N) (bs "x.rs") None] ].

Definition detour_newer : list LogCommit := [
  mkLogCommit (bs "d2") 1700000050 (bs "dev@example.com") (bs "Dev") (bs "move back") [mkStat (Some (1, 0)%N) (bs "y.rs") (Some (bs "gen/x.rs"))] ].

Definition at_d1 : Git := {|
  git_rev_parse_head := Some (bs "d1"); git_commit_date := λ _, Some (bs "1700000000"); git_log := λ _ _, Some (print_log detour_older);
  git_ls_tree := λ _, Some (paths_nul [bs "gen/x.rs"]); git_is_ancestor := λ _ _, Some true |}.

Definition at_d2 : Git := {|
  git_rev_parse_head := Some (bs "d2"); git_commit_date := λ _, Some (bs "1700000050");
  git_log := λ range _, Some (print_log (match range with Some _ => detour_newer | None => detour_newer ++ detour_older end));
  git_ls_tree := λ _, Some (paths_nul [bs "y.rs"]); git_is_ancestor := λ _ _, Some true |}.

Definition commits_of (p : bytes) (r : (HistoryError + GitIndexStats) * World) : option N :=
  match r.1 with inr _ => total_commits <$> git_files (db r.2) !! p | inl _ => None end.

(** An incremental pass misses the commits from before the file entered the excluded
    directory, which a full pass counts. *)
Example excluded_detour_undercounted :
  commits_of (bs "y.rs") (run_incremental (G := at_d2) under_gen nothing (bs "d2") (bs "d1") (mkAnchors anchor2 1700000000 [])
    (run_full (G := at_d1) under_gen nothing (bs "d1") anchor1 [] fresh).2) = Some 1%N
  ∧ commits_of (bs "y.rs") (run_full (G := at_d2) under_gen nothing (bs "d2") anchor2 [] fresh) = Some 2%N.
Proof. by vm_compute. Qed.
