(* ===== verification/GitTheorems.v ===== *)
(** * GitTheorems: what git history indexing guarantees

    The properties of src/crates/graph/src/git_history/indexer.rs: a full pass counts every
    commit for the path its file has at HEAD, an incremental pass leaves the counts of a
    full one, and no pass leaves half its work. *)
From stdpp Require Import gmap sorting.
From S2P Require Import Prelude Text Utf8 Unicode Order Float GitLog GitRenames GitStore GitLogic GitHistory GitScan GitRekey GitPasses GitRuns GitExact GitSmall.
From Stdlib Require Import Lia ZArith NArith.
Local Open Scope byte_scope.
Local Open Scope codesage_scope.

(** The same rows, but for the decayed scores. *)
Definition same_counts (d d' : Db) : Prop :=
  (∀ p, file_counts <$> git_files d !! p = file_counts <$> git_files d' !! p)
  ∧ (∀ key, (λ r, (pair_counts (counters r), windows r)) <$> git_co_changes d !! key
       = (λ r, (pair_counts (counters r), windows r)) <$> git_co_changes d' !! key)
  ∧ git_author_events d = git_author_events d'.

Lemma holds_same_counts t l d d' : holds t l d → holds t l d' → same_counts d d'.
Proof.
  intros [F P W E] [F' P' W' E']. split_and!.
  - intros p. by rewrite F, F'.
  - intros key. specialize (P key). specialize (P' key). specialize (W key). specialize (W' key). rewrite <- P' in P. clear P' F F' E E'.
    destruct (git_co_changes d !! key) as [r|], (git_co_changes d' !! key) as [r'|]; try done. cbn in *. injection P as E1 E2 E3 E4.
    rewrite (W r), (W' r') by done. cbn. unfold pair_counts, windows_of. by rewrite E1, E2, E3, E4.
  - apply map_eq. intros key. apply option_eq. intros v. by rewrite E, E'.
Qed.

Lemma holds_tables t l d d' :
  git_files d' = git_files d → git_co_changes d' = git_co_changes d → git_author_events d' = git_author_events d → holds t l d → holds t l d'.
Proof. intros E1 E2 E3 [F P W E]. split; [by rewrite E1|by rewrite E2|by rewrite E2|by rewrite E3]. Qed.

(** ** Runs on a settled history *)

Section exact.
Context {U : Unicode} {Q : Sqlite} {H : HashOrder} {HL : HashOrderLaws H} {GS : GlobSets} {E : Exp}.
Context (ex t : bytes → bool).

Lemma sha_followed newer cs : map sha (followed ex newer cs) = map sha cs.
Proof using Type.
  apply list_eq. intros i. change (@map Commit bytes) with (@fmap list _ Commit bytes). unfold followed. rewrite !list_lookup_fmap, list_lookup_imap.
  by destruct (cs !! i).
Qed.

Lemma kept_of_app a b : kept_of ex (a ++ b) = kept_of ex a ++ kept_of ex b.
Proof using Type. unfold kept_of. by rewrite omap_app. Qed.

Lemma logged_u32 {G : Git} range since cs : logged range since cs → Forall counts_in_u32 cs.
Proof using Type. intros (raw & _ & _ & Hp). by eapply parse_log_u32. Qed.

Lemma yields_functional {G : Git} range since head cs succ cs' succ' :
  yields_pass ex range since head cs succ → yields_pass ex range since head cs' succ' → cs = cs' ∧ succ = succ'.
Proof using Type. intros H1 H2. specialize (H1 some_world). rewrite (H2 some_world) in H1. by injection H1 as -> ->. Qed.

(** A full pass over the log [cs]. *)
Lemma wp_full_settled {G : Git} head a fp cs (Post : GitIndexStats → Db → Prop) d :
  logged None (cutoff a) cs → settled ex head cs → NoDup (map sha cs) →
  (∀ stats d', holds t (kept_of ex (followed ex [] cs)) d' → Post stats d') →
  wp (run_full ex t head a fp) Post d.
Proof using HL.
  intros Hl Hs Hn HP. apply wp_run_full. intros cs' succ stats d' at_ Hy Hwf Ef Ep Ee _ _ _. apply HP.
  destruct (yields_functional _ _ _ _ _ _ _ Hy (settled_pass ex None (cutoff a) head cs Hl Hs)) as [-> _].
  eapply holds_full; [exact Hwf|by rewrite sha_followed|done..].
Qed.

(** The kept commits of an older log, keyed by a newer one. *)
Lemma kept_timestamps newer cs k cut : Forall (λ c, (cut <= timestamp c)%Z) cs → k ∈ kept_of ex (followed ex newer cs) → (cut <= timestamp k.1)%Z.
Proof using Type.
  intros Hc Hk. unfold kept_of in Hk. apply list_elem_of_omap in Hk as (f & Hf & Ek). destruct (filter_kept ex f) as [kept|]; [|done].
  cbn in Ek. injection Ek as <-. apply list_elem_of_lookup in Hf as [i Hi]. unfold followed in Hi. rewrite list_lookup_imap in Hi.
  destruct (cs !! i) as [c|] eqn:Ei; [|done]. cbn in Hi. injection Hi as <-. rewrite Forall_forall in Hc.
  apply (Hc c), (list_elem_of_lookup_2 _ _ _ Ei).
Qed.

Lemma recorded_keyed cs p : recorded (kept_of ex (followed ex [] cs)) p → p ∈ keyed_paths ex [] cs ∧ ex p = false.
Proof using Type.
  intros ([c kept] & Hk & Hp). unfold kept_of in Hk. apply list_elem_of_omap in Hk as (f & Hf & Ek). destruct (filter_kept ex f) as [kept'|] eqn:K; [|done].
  cbn in Ek. injection Ek as -> ->. apply (elem_of_kept_paths ex _ _ _ K) in Hp as [Hp He]. split; [|done]. unfold keyed_paths. apply elem_of_concat.
  exists (map path (changes c)). split; [|done]. apply elem_of_fmap_map. by exists c.
Qed.

(** ** An incremental pass after a full one *)

Context (old new : list Commit).
Context (Hu : Forall counts_in_u32 old) (Hnd : NoDup (map sha (new ++ old))).
Context (Hkeep : ∀ p, p ∈ keyed_paths ex [] old → ex (name_after new p) = ex p).

(** The tables of the old commits, moved to the names of the new ones, with the new ones
    added. *)
Lemma holds_incremental d d0 d1 anchor cut :
  let moves := moves_of ex (follow_renames ex new).2 in
  Forall counts_in_u32 new → Forall (λ c, (cut <= timestamp c)%Z) old →
  holds t (kept_of ex (followed ex [] old)) d →
  converges t (list_to_set (map fst moves)) ∅ d moves →
  holds t (kept_of ex (followed ex [] old)) d0 →
  d1 = rekey_events moves (rekey_tables moves d0) →
  holds t (kept_of ex (followed ex [] (new ++ old)))
    (add_totals (scan ex t anchor (followed ex [] new)).1
      (foldl event_step (set_events (filter (λ e, (cut <= e.2.2)%Z)) d1) (kept_of ex (followed ex [] new)))).
Proof using HL Hu Hnd Hkeep.
  intros moves Hun Hcut Hd Hconv Hd0 ->. rewrite followed_app, kept_of_app.
  set (l := kept_of ex (followed ex [] old)) in *. set (s := name_after new).
  assert (Forall2 (renamed_kept s) l (kept_of ex (followed ex new old))) as HF by by apply followed_renamed.
  assert (∀ p, recorded l p → is_Some (git_files d !! p) ∧ ex p = false ∧ ex (s p) = false) as Hrec.
  { intros p Hp. destruct (recorded_keyed old p Hp) as [Hk He]. split; [by apply (holds_recorded t l d)|]. unfold s. by rewrite Hkeep. }
  assert (∀ p q, recorded l p → recorded l q → t (s p) = t p ∧ (s p = s q → p = q)) as Hpq.
  { intros p q Hp Hq. apply (converges_moves ex new t d p q Hconv). intros r [-> | ->]; by apply Hrec. }
  assert (∀ p q, recorded l p → recorded l q → s p = s q → p = q) as Hinj by (intros p q Hp Hq; by apply Hpq).
  assert (∀ p, recorded l p → destination moves p = Some (s p)) as Hdest by (intros p (_ & ? & ?)%Hrec; by apply moves_destination).
  assert (∀ p, recorded l p → t (s p) = t p) as Htest by (intros p Hp; by apply (Hpq p p)).
  destruct (moves_sources ex new) as [Hnm _].
  pose proof (moved_recorded_ok moves t s l Hinj Hdest d0 Hd0) as Hok.
  pose proof (holds_moved moves t s l _ HF Hinj Hdest Htest d0 _ Hd0 (rekey_substitutes moves Hnm d0 Hok)) as Hm.
  eapply holds_added; [by apply (scan_right ex t anchor), followed_wf|eapply (holds_pruned t _ _ cut)| |done].
  - intros k. by apply kept_timestamps.
  - exact Hm.
  - rewrite <- kept_of_app, <- followed_app. apply kept_shas. by rewrite sha_followed.
Qed.
End exact.

(** ** Passes that fail leave nothing *)

Section atomicity.
Context {U : Unicode} {Q : Sqlite} {H : HashOrder} {G : Git} {GS : GlobSets} {E : Exp}.

Lemma readonly_stateless {A} (m : M A) : stateless m → readonly m.
Proof. intros (r & Hm & _) w. by rewrite Hm. Qed.

Lemma readonly_git {A} (out : option A) : readonly (git out).
Proof. by destruct out. Qed.

Lemma readonly_compile ps : readonly (compile ps).
Proof. unfold compile. by destruct (build_exclude_set ps). Qed.

Lemma readonly_head : readonly resolve_head_sha.
Proof. apply readonly_stateless, stateless_bind; [apply stateless_git|]. intros out. apply stateless_bind; [apply stateless_utf8|]. intros ?. apply stateless_ret. Qed.

Lemma readonly_commit_epoch root sha : readonly (commit_epoch root sha).
Proof.
  unfold commit_epoch. destruct (starts_with _ _); [apply readonly_ret|]. apply readonly_bind; [done|]. intros [z|]; [apply readonly_ret|].
  apply readonly_bind; [|intros [z|]; [apply readonly_bind; [done|]; intros; apply readonly_ret|apply readonly_ret]].
  unfold read_commit_epoch. destruct (git_commit_date sha) as [out|]; [|apply readonly_ret].
  apply readonly_bind; [|intros ?; apply readonly_ret]. apply readonly_bind; [apply readonly_stateless, stateless_utf8|].
  intros text. destruct (parse_i64 _); [apply readonly_ret|apply readonly_fail].
Qed.

Lemma readonly_anchor root sha : readonly (anchor_at_commit root sha).
Proof.
  apply readonly_bind; [apply readonly_commit_epoch|]. intros [z|]; [apply readonly_ret|]. apply readonly_bind; [apply readonly_now|]. intros now. apply readonly_ret.
Qed.

Lemma readonly_previous root sha at_ a : readonly (previous_anchor root sha at_ a).
Proof.
  unfold previous_anchor. destruct (source a); [|apply readonly_ret]. apply readonly_bind; [apply readonly_commit_epoch|]. intros z. apply readonly_ret.
Qed.

Lemma readonly_diverges t sources counted moves : readonly (diverges_loop t sources counted moves).
Proof.
  revert counted. induction moves as [|[from [to|]] moves IH]; intros counted; cbn [diverges_loop]; [apply readonly_ret| |apply IH].
  destruct (negb _); [apply readonly_ret|]. apply readonly_bind.
  { case_decide; [apply readonly_ret|]. apply readonly_bind; [apply readonly_read|]. intros r. apply readonly_ret. }
  intros [|]; [apply readonly_ret|]. apply readonly_bind; [apply readonly_read|]. intros [r|]; [|apply IH].
  destruct (1 <? _); [apply readonly_ret|apply IH].
Qed.

Lemma atomic_full ex t head a fp : atomic (run_full ex t head a fp).
Proof.
  apply atomic_bind; [apply readonly_stateless, stateless_pass|]. intros pass. destruct (scan _ _ _ _) as [tot n].
  apply (atomic_ret_after _ (λ _, _)), atomic_batch.
Qed.

Lemma atomic_incremental ex t head last anchors : atomic (run_incremental ex t head last anchors).
Proof.
  apply atomic_bind; [apply readonly_stateless, stateless_pass|]. intros pass. apply atomic_bind; [apply readonly_diverges|].
  intros [|]; [apply atomic_full|]. destruct (scan _ _ _ _) as [tot n]. apply (atomic_ret_after _ (λ _, _)), atomic_batch.
Qed.

(** C13. An index of git history is all or nothing: whatever fails (git, the text it
    prints, a pattern, any one statement, or the commit of the transaction), the
    database is what it was before. *)
Theorem index_atomic root extra mode : atomic (git_history_index_with_options root extra mode).
Proof.
  apply atomic_bind.
  { apply readonly_bind; [apply readonly_compile|]. intros hard. apply readonly_bind; [apply readonly_compile|]. intros tests. apply readonly_ret. }
  intros [ex t]. apply atomic_bind; [apply readonly_read|]. intros stored. apply atomic_bind; [apply readonly_head|]. intros head.
  apply atomic_bind; [apply readonly_anchor|]. intros a.
  assert (atomic (state ← get_git_index_state; match state with
    | None => run_full ex t head a (effective_exclusion_fingerprint extra)
    | Some (last_sha, last_indexed_at) =>
        if bool_decide (stored ≠ Some (effective_exclusion_fingerprint extra)) then run_full ex t head a (effective_exclusion_fingerprint extra)
        else if bytes_eqb last_sha head then refresh root last_sha last_indexed_at a (effective_exclusion_fingerprint extra)
        else ancestor ← git (git_is_ancestor last_sha head);
             if ancestor : bool then incremental ex t root head a (effective_exclusion_fingerprint extra)
             else run_full ex t head a (effective_exclusion_fingerprint extra)
    end)) as Hauto.
  { apply atomic_bind; [apply readonly_read|]. intros [[last at_]|]; [|apply atomic_full]. case_bool_decide; [apply atomic_full|].
    destruct (bytes_eqb last head).
    - apply atomic_bind; [apply readonly_previous|]. intros p. apply (atomic_ret_after _ (λ _, _)), atomic_batch.
    - apply atomic_bind; [apply readonly_git|]. intros [|]; [|apply atomic_full]. apply atomic_bind; [apply readonly_read|].
      intros [[l z]|]; [|apply readonly_atomic, readonly_fail]. apply atomic_bind; [apply readonly_previous|]. intros p. apply atomic_incremental. }
  destruct mode; [apply atomic_full|exact Hauto..].
Qed.
End atomicity.

(** ** What a pass that succeeds leaves *)

Section passes.
Context {U : Unicode} {Q : Sqlite} {H : HashOrder} {HL : HashOrderLaws H} {GS : GlobSets} {E : Exp}.



(** ** The state of the index *)

(** The index is of [head] under the policy [fp]. *)
Definition indexed_at (head fp : bytes) (d : Db) : Prop :=
  ∃ at_ anc, index_state d = Some (mkIndexState head at_ anc (Some fp)).

Context {G : Git}.

Lemma wp_full_indexed ex t head a fp d : wp (run_full ex t head a fp) (λ _ d', indexed_at head fp d') d.
Proof. apply wp_run_full. intros cs succ stats d' at_ _ _ _ _ _ _ Es _. by do 2 eexists. Qed.

Lemma wp_incremental_indexed ex t head last anchors d :
  wp (run_incremental ex t head last anchors) (λ _ d', indexed_at head (exclusion_fingerprint anchors) d') d.
Proof.
  apply wp_bind, wp_stateless; [apply stateless_pass|]. intros [cs succ] Hy. apply wp_bind, wp_diverges; [apply wp_full_indexed|]. intros _.
  pose proof (scan_proper ex t (epoch (current anchors)) _ (tidy_kept ex _ (tidy_pass ex _ _ _ _ _ Hy))) as Hpr. cbn [fst snd].
  destruct (scan _ _ _ _) as [tot n]. apply wp_bind, wp_execute_batch, wp_write_incremental; [done|]. intros d0 d1 at_ anc k _ _ _. apply wp_ret. by do 2 eexists.
Qed.

Lemma wp_refresh_indexed root head at_ a fp d : wp (refresh root head at_ a fp) (λ _ d', indexed_at head fp d') d.
Proof.
  apply wp_bind, wp_previous_anchor. intros z. apply wp_bind, wp_execute_batch, wp_bind.
  assert (∀ d, wp (_ ← prune_git_author_events (cutoff a); _ ← persist a head false; set_git_index_exclusion_fingerprint fp)
    (λ _ d', wp (mret (mkStats 0 0 0)) (λ _ d', indexed_at head fp d') d') d) as Hrest.
  { intros d0. apply wp_bind, wp_exec, wp_bind, wp_persist. intros at' anc _ _. apply wp_exec, wp_ret. by do 2 eexists. }
  apply wp_decay; [apply Hrest|intros f; apply Hrest].
Qed.

Lemma wp_compile ps (Post : (bytes → bool) → Db → Prop) d : (∀ set, Post set d) → wp (compile ps) Post d.
Proof. intros HP. unfold compile. destruct (build_exclude_set ps); [by apply wp_ret|by apply wp_fail]. Qed.

(** C39. An index that succeeds, in any mode, records HEAD as the commit indexed and the
    fingerprint of the exclusion policy it was made under; one that fails has git, its
    output, a pattern or the database to blame: it never panics, and never offers the
    store a file paired with itself. *)
Theorem index_stamped root extra mode d :
  wp (git_history_index_with_options root extra mode) (λ _ d',
    ∃ out, git_rev_parse_head = Some out ∧ indexed_at (trim out) (effective_exclusion_fingerprint extra) d') d.
Proof.
  apply wp_bind, wp_bind, wp_compile. intros hard. apply wp_bind, wp_compile. intros tests. apply wp_ret.
  apply wp_bind, wp_read, wp_bind. unfold resolve_head_sha. apply wp_bind, wp_git. intros out Hout. apply wp_bind, wp_stateless; [apply stateless_utf8|].
  intros text Ht. assert (text = out) as -> by (specialize (Ht some_world); unfold from_utf8 in Ht; destruct (is_utf8 out); [by injection Ht|done]).
  apply wp_ret, wp_bind, wp_anchor_at_commit. intros a.
  assert (∀ d (m : M GitIndexStats), wp m (λ _ d', indexed_at (trim out) (effective_exclusion_fingerprint extra) d') d →
    wp m (λ _ d', ∃ out, git_rev_parse_head = Some out ∧ indexed_at (trim out) (effective_exclusion_fingerprint extra) d') d) as Hpost.
  { intros d0 m Hm. eapply wp_mono; [exact Hm|]. intros ? d' Hd'. by exists out. }
  pose proof (wp_full_indexed hard tests (trim out) a (effective_exclusion_fingerprint extra)) as Hfull.
  apply Hpost. destruct mode; [apply Hfull|..].
  all: apply wp_bind, wp_read; destruct (index_state d ≫= _) as [[last at_]|] eqn:Es; [|apply Hfull]; case_bool_decide; [apply Hfull|].
  all: destruct (bytes_eqb_spec last (trim out)) as [->|]; [apply wp_refresh_indexed|].
  all: apply wp_bind, wp_git; intros [|] _; [|apply Hfull]; apply wp_bind, wp_read; rewrite Es.
  all: apply wp_bind, wp_previous_anchor; intros z; apply (wp_incremental_indexed _ _ _ _ (mkAnchors a z _)).
Qed.
End passes.

(** ** On the small repository *)



Lemma index_stamped_witness :
  wp (git_history_index_with_options (G := at_c2) [] [] Auto) (λ _ d',
    ∃ out, git_rev_parse_head (Git := at_c2) = Some out ∧ indexed_at (trim out) (effective_exclusion_fingerprint []) d') no_rows
  ∧ match (git_history_index_with_options (G := at_c2) [] [] Auto fresh).1 with inr s => commits_scanned s = 3 | inl _ => False end.
Proof. split; [exact (index_stamped (G := at_c2) [] [] Auto no_rows)|by vm_compute]. Defined.
