(* ===== verification/Fingerprint.v ===== *)
(** * Fingerprint: the shape of a function

    Models [src/crates/parser/src/fingerprint.rs]: MinHash fingerprints over the node
    kinds of a syntax tree, their similarity and the band keys candidates are found by,
    and the blobs of [storage/src/db/structural.rs] they are stored as.  Trees are
    the tree-sitter library's; [Tree] records what is read of them.  The captures of the
    symbol query, after the filters of extract.rs, are an argument. *)
From stdpp Require Import gmap.
From S2P Require Import Prelude Text Order Float Detect Handle CallPath.
From Stdlib Require Import Lia ZArith NArith.
Local Open Scope codesage_scope.

(** ** Words *)

Definition U64_BOUND : N := 2 ^ 64.
Definition u64_wrap (n : N) : N := n mod U64_BOUND.
Definition U64_MAX : N := U64_BOUND - 1.

Definition splitmix64 (x : N) : N :=
  let x := u64_wrap (x + 0x9e3779b97f4a7c15) in
  let z := x in
  let z := u64_wrap (N.lxor z (N.shiftr z 30) * 0xbf58476d1ce4e5b9) in
  let z := u64_wrap (N.lxor z (N.shiftr z 27) * 0x94d049bb133111eb) in
  N.lxor z (N.shiftr z 31).

Example splitmix64_1 : splitmix64 1 = 0x910a2dec89025cc1%N.
Proof. by vm_compute. Qed.

Definition MINHASH_K : nat := 64.
Definition MIN_LEAF_NODES : nat := 30.
Definition LSH_BANDS : nat := 16.
Definition LSH_ROWS : nat := MINHASH_K / LSH_BANDS.

(** [[u64; MINHASH_K]]. *)
Abbreviation Fingerprint := (list N) (only parsing).

Definition SEEDS : list N := map (λ i, splitmix64 (N.of_nat i + 1)) (seq 0 MINHASH_K).

(** ** Trees *)

Inductive Tree := mkTree { kind_id : N; children : list Tree }.

(** [control.check()], given how many times it was called before. *)
Definition Poll (A : Type) : Type := nat → option A * nat.

#[export] Instance Poll_ret : MRet Poll := λ A a t, (Some a, t).
#[export] Instance Poll_bind : MBind Poll := λ A B f m t,
  match m t with (None, t) => (None, t) | (Some a, t) => f a t end.

Section control.
Context (stopped : nat → bool).

Definition check : Poll () := λ t, (if stopped t then None else Some (), S t).

(** [if n.is_multiple_of(period) { control.check().ok()? }]. *)
Definition check_every (period n : nat) : Poll () := if Nat.eqb (n mod period) 0 then check else mret ().

(** The top of the stack is the head of the list. *)
Fixpoint preorder_loop (fuel : nat) (stack : list Tree) (kinds : list N) (leaves : nat) : Poll (list N * nat) :=
  match fuel, stack with
  | _, [] | 0, _ => mret (kinds, leaves)
  | S fuel, node :: stack =>
      _ ← check_every 1024 (length kinds);
      let kinds := kinds ++ [kind_id node] in
      match children node with
      | [] => preorder_loop fuel stack kinds (S leaves)
      | l => preorder_loop fuel (l ++ stack) kinds leaves
      end
  end.

Fixpoint tree_size (t : Tree) : nat := S (list_sum (map tree_size (children t))).

Definition collect_preorder (root : Tree) : Poll (list N * nat) := preorder_loop (tree_size root) [root] [] 0.

(** ** MinHash *)

(** [kinds.windows(3)]. *)
Fixpoint windows3 (l : list N) : list (N * N * N) :=
  match l with
  | a :: (b :: c :: _) as l' => (a, b, c) :: windows3 l'
  | _ => []
  end.

Definition trigram (w : N * N * N) : N := N.lor (N.lor (N.shiftl w.1.1 32) (N.shiftl w.1.2 16)) w.2.

Definition lower (v : N) (mins : Fingerprint) : Fingerprint :=
  zip_with (λ m seed, let h := splitmix64 (N.lxor v seed) in if (h <? m)%N then h else m) mins SEEDS.

Fixpoint minhash_loop (n : nat) (ws : list (N * N * N)) (mins : Fingerprint) : Poll Fingerprint :=
  match ws with
  | [] => mret mins
  | w :: ws => _ ← check_every 256 n; minhash_loop (S n) ws (lower (trigram w) mins)
  end.

Definition minhash (kinds : list N) : Poll Fingerprint := minhash_loop 0 (windows3 kinds) (replicate MINHASH_K U64_MAX).

(** [None] inside: too small. *)
Definition fingerprint_def_with_control (def : Tree) : Poll (option (Fingerprint * nat)) :=
  '(kinds, leaves) ← collect_preorder def;
  if (leaves <? MIN_LEAF_NODES) || (length kinds <? 3) then mret None
  else fp ← minhash kinds; mret (Some (fp, leaves)).

(** ** The functions of a file *)

(** A capture that names a function or method of the index. *)
Record Captured := mkCaptured { cap_name : bytes; cap_kind : SymbolKind; cap_start : N; cap_end : N; cap_def : Tree }.

Record FunctionFingerprint := mkFunction {
  ff_name : bytes; ff_kind : SymbolKind; ff_language : Language; ff_start : N; ff_end : N; ff_leaves : nat; ff_fp : Fingerprint }.

Definition key_of_capture (c : Captured) : bytes * SymbolKind * N * N := (cap_name c, cap_kind c, cap_start c, cap_end c).

(** The query cursor polls before its next match too; it ends when stopped.
    [control.check().is_err()] and [None] of a fingerprint never leave the loop with
    an error. *)
Context (progress : Captured → nat).

Fixpoint polls (n : nat) : Poll () := match n with 0 => mret () | S n => _ ← check; polls n end.

Fixpoint file_loop (language : Language) (matches : list Captured) (seen : list (bytes * SymbolKind * N * N))
    (out : list FunctionFingerprint) (t : nat) : list FunctionFingerprint * nat :=
  match matches with
  | [] => (out, t)
  | m :: matches =>
      match (_ ← polls (progress m); check) t with
      | (None, t) => (out, t)
      | (Some _, t) =>
          if decide (key_of_capture m ∈ seen) then file_loop language matches seen out t
          else match fingerprint_def_with_control (cap_def m) t with
               | (Some (Some (fp, leaves)), t) =>
                   file_loop language matches (key_of_capture m :: seen)
                     (out ++ [mkFunction (cap_name m) (cap_kind m) language (cap_start m) (cap_end m) leaves fp]) t
               | (_, t) => file_loop language matches seen out t
               end
      end
  end.

(** [checkpoint()?] before and after. *)
Definition file_fingerprints_cancellable (language : Language) (matches : list Captured) (t : nat)
    : option (list FunctionFingerprint) * nat :=
  match check t with
  | (None, t) => (None, t)
  | (Some _, t) =>
      let '(out, t) := file_loop language matches [] [] t in
      match check t with (None, t) => (None, t) | (Some _, t) => (Some out, t) end
  end.
End control.

(** ** Similarity *)

Definition agree (a b : Fingerprint) : nat := length (List.filter (λ p, (p.1 =? p.2)%N) (zip a b)).

Definition jaccard (a b : Fingerprint) : f32 := f32_div (f32_of_Z (Z.of_nat (agree a b))) (f32_of_Z (Z.of_nat MINHASH_K)).

Definition jaccard_checked (a b : FunctionFingerprint) : option f32 :=
  if decide (ff_language a = ff_language b) then Some (jaccard (ff_fp a) (ff_fp b)) else None.

Definition fnv_step (h row : N) : N := u64_wrap (N.lxor h row * 0x100000001b3).

Definition band (b : nat) (fp : Fingerprint) : list N := take LSH_ROWS (drop (b * LSH_ROWS) fp).

Definition band_key (fp : Fingerprint) (b : nat) : N :=
  N.lxor (foldl fnv_step 0xcbf29ce484222325%N (band b fp)) (splitmix64 (N.of_nat b)).

Definition band_keys (fp : Fingerprint) : list N := map (band_key fp) (seq 0 LSH_BANDS).

(** ** Blobs *)

Fixpoint to_le_bytes (n : nat) (x : N) : bytes :=
  match n with 0 => [] | S n => default x00 (Byte.of_N (x mod 256)) :: to_le_bytes n (x / 256) end.

Fixpoint from_le_bytes (l : bytes) : N :=
  match l with [] => 0 | b :: l => Byte.to_N b + 256 * from_le_bytes l end.

Definition fp_to_blob (fp : list N) : bytes := concat (map (to_le_bytes 8) fp).

(** [as_chunks::<8>()] of a whole number of chunks. *)
Fixpoint chunks8 (n : nat) (b : bytes) : list bytes :=
  match n with 0 => [] | S n => take 8 b :: chunks8 n (drop 8 b) end.

Definition blob_to_fp (b : bytes) : list N :=
  if negb (Nat.eqb (length b mod 8) 0) then [] else map from_le_bytes (chunks8 (length b / 8) b).

(** ** What they compute *)

Fixpoint preorder (t : Tree) : list N := kind_id t :: concat (map preorder (children t)).

Fixpoint leaf_count (t : Tree) : nat :=
  match children t with [] => 1 | _ => list_sum (map leaf_count (children t)) end.

Definition trigrams (t : Tree) : list N := map trigram (windows3 (preorder t)).

Definition min_hash (vs : list N) (seed : N) : N := foldr (λ v, N.min (splitmix64 (N.lxor v seed))) U64_MAX vs.

Definition minimums (vs : list N) : Fingerprint := map (min_hash vs) SEEDS.

Definition fingerprint_of (t : Tree) : option (Fingerprint * nat) :=
  if (leaf_count t <? MIN_LEAF_NODES) || (length (preorder t) <? 3) then None else Some (minimums (trigrams t), leaf_count t).

Section settles.
Context (stopped : nat → bool).

(** [m] is [a], unless a check on the way was told to stop. *)
Definition settles {A} (m : Poll A) (a : A) : Prop :=
  ∀ t, match m t with
       | (Some b, t') => b = a ∧ t ≤ t'
       | (None, t') => t ≤ t' ∧ ∃ s, t ≤ s < t' ∧ stopped s = true
       end.

Lemma settles_ret {A} (a : A) : settles (mret a) a.
Proof. intros t. by split. Qed.

Lemma poll_settles_then {A B} (m : Poll A) (f : A → Poll B) a b : settles m a → settles (f a) b → settles (m ≫= f) b.
Proof.
  intros Hm Hf t. specialize (Hm t). unfold mbind, Poll_bind. destruct (m t) as [[x|] t1]; [|done].
  destruct Hm as [-> Hle]. specialize (Hf t1). destruct (f a t1) as [[y|] t2].
  - destruct Hf as [-> ?]. split; [done|lia].
  - destruct Hf as (? & s & ? & ?). split; [lia|]. exists s. split; [lia|done].
Qed.

Lemma settles_check : settles (check stopped) ().
Proof. intros t. unfold check. destruct (stopped t) eqn:E; [|split; [done|lia]]. split; [lia|]. exists t. split; [lia|done]. Qed.

Lemma settles_every period n : settles (check_every stopped period n) ().
Proof. unfold check_every. case_match; [apply settles_check|apply settles_ret]. Qed.

Lemma settles_polls n : settles (polls stopped n) ().
Proof. induction n as [|n IH]; [apply settles_ret|]. by eapply poll_settles_then; [apply settles_check|]. Qed.

Lemma tree_size_pos t : 0 < tree_size t.
Proof. destruct t. cbn. lia. Qed.

Lemma settles_preorder fuel stack kinds leaves :
  list_sum (map tree_size stack) ≤ fuel →
  settles (preorder_loop stopped fuel stack kinds leaves) (kinds ++ concat (map preorder stack), leaves + list_sum (map leaf_count stack)).
Proof.
  revert stack kinds leaves. induction fuel as [|fuel IH]; intros [|node stack] kinds leaves Hf.
  - cbn. rewrite app_nil_r, Nat.add_0_r. apply settles_ret.
  - exfalso. cbn in Hf. pose proof (tree_size_pos node). lia.
  - cbn. rewrite app_nil_r, Nat.add_0_r. apply settles_ret.
  - cbn [preorder_loop]. eapply poll_settles_then; [apply settles_every|]. destruct node as [k cs]. cbn [children kind_id].
    change (list_sum (map tree_size (mkTree k cs :: stack))) with (S (list_sum (map tree_size cs)) + list_sum (map tree_size stack)) in Hf.
    destruct cs as [|c cs].
    + specialize (IH stack (kinds ++ [k]) (S leaves)). rewrite <- app_assoc in IH.
      change (list_sum (map leaf_count (mkTree k [] :: stack))) with (1 + list_sum (map leaf_count stack)).
      rewrite Nat.add_assoc, Nat.add_1_r. apply IH. change (S (list_sum (map tree_size stack)) ≤ S fuel) in Hf. lia.
    + specialize (IH ((c :: cs) ++ stack) (kinds ++ [k]) leaves). rewrite !map_app, !list_sum_app, concat_app, <- app_assoc in IH.
      change (concat (map preorder (mkTree k (c :: cs) :: stack))) with ((k :: concat (map preorder (c :: cs))) ++ concat (map preorder stack)).
      change (list_sum (map leaf_count (mkTree k (c :: cs) :: stack))) with (list_sum (map leaf_count (c :: cs)) + list_sum (map leaf_count stack)).
      apply IH. lia.
Qed.

Lemma zip_with_min vs v : lower v (minimums vs) = minimums (v :: vs).
Proof.
  unfold lower, minimums. induction SEEDS as [|s l IH]; [done|]. cbn [map zip_with]. rewrite IH. f_equal. cbn.
  destruct (N.ltb_spec (splitmix64 (N.lxor v s)) (min_hash vs s)); unfold min_hash in *; lia.
Qed.

Lemma min_hash_le vs seed x : (min_hash vs seed <= x)%N ↔ (U64_MAX <= x)%N ∨ ∃ v, v ∈ vs ∧ (splitmix64 (N.lxor v seed) <= x)%N.
Proof.
  unfold min_hash. induction vs as [|v vs IH]; cbn.
  - split; [by left|]. intros [?|(? & ?%elem_of_nil & _)]; done.
  - rewrite N.min_le_iff, IH. setoid_rewrite elem_of_cons. naive_solver.
Qed.

(** MinHash sees the set of trigrams only. *)
Lemma minimums_set vs vs' : (∀ v, v ∈ vs ↔ v ∈ vs') → minimums vs = minimums vs'.
Proof.
  intros Hs. unfold minimums. apply map_ext. intros seed. apply N.le_antisymm; apply min_hash_le.
  - destruct (proj1 (min_hash_le vs' seed _) (N.le_refl _)) as [?|(v & Hv & ?)]; [by left|]. right. exists v. by rewrite Hs.
  - destruct (proj1 (min_hash_le vs seed _) (N.le_refl _)) as [?|(v & Hv & ?)]; [by left|]. right. exists v. by rewrite <- Hs.
Qed.

Lemma settles_minhash n ws done_ : settles (minhash_loop stopped n ws (minimums done_)) (minimums (done_ ++ map trigram ws)).
Proof.
  revert n done_. induction ws as [|w ws IH]; intros n d; cbn [minhash_loop]; [rewrite app_nil_r; apply settles_ret|].
  eapply poll_settles_then; [apply settles_every|]. rewrite zip_with_min.
  replace (minimums (d ++ map trigram (w :: ws))) with (minimums ((trigram w :: d) ++ map trigram ws)); [apply IH|].
  apply minimums_set. intros v. rewrite !elem_of_app, !elem_of_cons. cbn [map]. rewrite elem_of_cons. tauto.
Qed.

Lemma settles_collect t : settles (collect_preorder stopped t) (preorder t, leaf_count t).
Proof.
  pose proof (settles_preorder (tree_size t) [t] [] 0) as Hp. change (concat (map preorder [t])) with (preorder t ++ []) in Hp.
  change (list_sum (map leaf_count [t])) with (leaf_count t + 0) in Hp. rewrite app_nil_r, Nat.add_0_r in Hp. apply Hp.
  change (tree_size t + 0 ≤ tree_size t). lia.
Qed.

Lemma settles_fingerprint t : settles (fingerprint_def_with_control stopped t) (fingerprint_of t).
Proof.
  unfold fingerprint_def_with_control, fingerprint_of. eapply poll_settles_then; [apply settles_collect|]. cbn beta iota.
  destruct (_ || _); [apply settles_ret|]. eapply poll_settles_then; [|apply settles_ret].
  unfold minhash, trigrams. change (replicate MINHASH_K U64_MAX) with (minimums []). apply settles_minhash.
Qed.
End settles.
