(* ===== verification/FingerprintTheorems.v ===== *)
(** * FingerprintTheorems: what fingerprints guarantee

    The properties of src/crates/parser/src/fingerprint.rs and of the blobs fingerprints
    are stored as. *)
From stdpp Require Import gmap sorting.
From S2P Require Import Prelude Text Order Float Detect Handle CallPath Fingerprint.
From Stdlib Require Import Lia ZArith NArith.
Local Open Scope codesage_scope.

(** ** The functions of a file *)

Section file.
Context (stopped : nat → bool) (progress : Captured → nat) (language : Language).

(** The first capture of each key whose body is large enough, in order. *)
Fixpoint all_functions (matches : list Captured) (seen : list (bytes * SymbolKind * N * N)) : list FunctionFingerprint :=
  match matches with
  | [] => []
  | m :: matches =>
      if decide (key_of_capture m ∈ seen) then all_functions matches seen
      else match fingerprint_of (cap_def m) with
           | Some (fp, leaves) =>
               mkFunction (cap_name m) (cap_kind m) language (cap_start m) (cap_end m) leaves fp
               :: all_functions matches (key_of_capture m :: seen)
           | None => all_functions matches seen
           end
  end.

Lemma file_loop_complete matches seen out t :
  match file_loop stopped progress language matches seen out t with
  | (r, t') => t ≤ t' ∧ (r = out ++ all_functions matches seen ∨ ∃ s, t ≤ s < t' ∧ stopped s = true)
  end.
Proof.
  revert seen out t. induction matches as [|m matches IH]; intros seen out t; cbn [file_loop all_functions].
  { split; [done|left]. by rewrite app_nil_r. }
  pose proof (poll_settles_then stopped (polls stopped (progress m)) (λ _, check stopped) () () (settles_polls stopped _) (settles_check stopped) t) as Hp.
  destruct ((_ ← polls stopped (progress m); check stopped) t) as [[[]|] t1]; [|destruct Hp as (? & s & ? & ?); split; [lia|right; exists s; split; [lia|done]]].
  destruct Hp as [_ Ht1].
  assert (∀ seen out t2 r, t1 ≤ t2 → r = out ++ all_functions matches seen ∨ (∃ s, t1 ≤ s < t2 ∧ stopped s = true) →
    match file_loop stopped progress language matches seen out t2 with
    | (r', t') => t ≤ t' ∧ (r' = r ∨ ∃ s, t ≤ s < t' ∧ stopped s = true)
    end) as Hgo.
  { intros seen' out' t2 r Ht2 Hr. specialize (IH seen' out' t2). destruct (file_loop _ _ _ _ _ _ _) as [r' t']. destruct IH as [Hle IH]. split; [lia|].
    destruct Hr as [->|(s & ? & ?)]; [|right; exists s; split; [lia|done]]. destruct IH as [->|(s & ? & ?)]; [by left|right; exists s; split; [lia|done]]. }
  case_decide as Hs; [apply Hgo; [done|by left]|].
  pose proof (settles_fingerprint stopped (cap_def m) t1) as Hf. destruct (fingerprint_def_with_control stopped (cap_def m) t1) as [[f|] t2].
  - destruct Hf as [-> Ht2]. destruct (fingerprint_of (cap_def m)) as [[fp leaves]|]; apply Hgo; [done| |done|by left]. left. by rewrite <- app_assoc.
  - destruct Hf as (Ht2 & s & Hs2 & Hst). apply Hgo; [done|]. right. by exists s.
Qed.
End file.

(** C40. Cancellation never yields a partial file: whenever the fingerprints of a file
    are returned at all, they are those of every function and method of the captures
    with a body large enough, the first of each name, kind and lines, however often
    the work was polled. *)
Theorem cancelled_file_refused stopped progress language matches t out t' :
  (∀ s s', s ≤ s' → stopped s = true → stopped s' = true) →
  file_fingerprints_cancellable stopped progress language matches t = (Some out, t') → out = all_functions language matches [].
Proof.
  intros Hmono. unfold file_fingerprints_cancellable, check at 1. destruct (stopped t); [done|].
  pose proof (file_loop_complete stopped progress language matches [] [] (S t)) as Hl. destruct (file_loop _ _ _ _ _ _ _) as [r t1].
  unfold check. destruct (stopped t1) eqn:E; [done|]. intros [= <- _]. destruct Hl as [_ [->|(s & Hs & Hst)]]; [done|].
  exfalso. rewrite (Hmono s t1) in E; [done|lia|done].
Qed.

(** ** Bands *)

Lemma agree_app a a' b b' : length a = length b → agree (a ++ a') (b ++ b') = agree a b + agree a' b'.
Proof. intros Hl. unfold agree. by rewrite zip_with_app, List.filter_app, length_app. Qed.

Lemma agree_all a b : length a = length b → length a ≤ agree a b → a = b.
Proof.
  revert b. induction a as [|x a IH]; intros [|y b] Hl Ha; try done. unfold agree in *. cbn in *.
  assert (∀ l : list (N * N), length (List.filter (λ p, (p.1 =? p.2)%N) l) ≤ length l) as Hle by apply List.filter_length_le.
  specialize (Hle (zip a b)). rewrite length_zip_with_l_eq in Hle by lia.
  destruct (N.eqb_spec x y) as [->|]; cbn in Ha; [|lia]. f_equal. apply IH; lia.
Qed.

Lemma band_parts k (fp : list N) : length fp = k * LSH_ROWS → fp = concat (map (λ b, band b fp) (seq 0 k)).
Proof.
  intros Hl. assert (∀ j, j ≤ k → take (j * LSH_ROWS) fp = concat (map (λ b, band b fp) (seq 0 j))) as Hj.
  { intros j. induction j as [|j IH]; intros Hjk; [done|]. rewrite seq_S, map_app, concat_app, <- IH by lia. cbn [map concat Nat.add].
    rewrite app_nil_r. unfold band. rewrite take_take_drop. f_equal. cbn. lia. }
  rewrite <- Hj by done. by rewrite <- Hl, firstn_all.
Qed.

(** Fewer disagreements than bands leave a band without any. *)
Lemma band_agrees k a b : length a = k * LSH_ROWS → length b = k * LSH_ROWS → k * LSH_ROWS < agree a b + k →
  ∃ i, i < k ∧ band i a = band i b.
Proof.
  intros Ha Hb Hagree. destruct (decide (Exists (λ i, band i a = band i b) (seq 0 k))) as [He|He].
  { apply Exists_exists in He as (i & Hi & E). exists i. split; [|done]. apply elem_of_seq in Hi. lia. }
  exfalso. apply not_Exists_Forall in He; [|intros i; solve_decision].
  assert (∀ j, j ≤ k → agree (concat (map (λ i, band i a) (seq 0 j))) (concat (map (λ i, band i b) (seq 0 j))) + j ≤ j * LSH_ROWS
    ∧ length (concat (map (λ i, band i a) (seq 0 j))) = length (concat (map (λ i, band i b) (seq 0 j)))) as Hj.
  { intros j. induction j as [|j IH]; intros Hjk; [done|]. destruct IH as [IH Hlen]; [lia|].
    rewrite seq_S, !map_app, !concat_app. cbn [map concat Nat.add]. rewrite !app_nil_r, agree_app by done.
    assert (length (band j a) = LSH_ROWS ∧ length (band j b) = LSH_ROWS) as [La Lb].
    { assert (S j * LSH_ROWS ≤ k * LSH_ROWS) by (apply Nat.mul_le_mono_r; lia). unfold band. rewrite !length_take, !length_drop. change LSH_ROWS with 4 in *. lia. }
    split; [|by rewrite !length_app, Hlen, La, Lb]. rewrite Forall_forall in He. specialize (He j). cbn beta in He.
    assert (agree (band j a) (band j b) < LSH_ROWS) as Hlt.
    { apply Nat.nle_gt. intros Hle. apply He; [apply elem_of_seq; lia|]. apply agree_all; [congruence|by rewrite La]. }
    rewrite Nat.mul_succ_l. lia. }
  specialize (Hj k (le_n _)) as [Hj _]. rewrite <- !band_parts in Hj by done. lia.
Qed.

(** Two fingerprints that agree on at least 49 of their 64 positions have a band key in
    common. *)
Lemma share_band a b : length a = MINHASH_K → length b = MINHASH_K → 49 ≤ agree a b →
  ∃ key, key ∈ band_keys a ∧ key ∈ band_keys b.
Proof.
  intros Ha Hb Hagree. destruct (band_agrees LSH_BANDS a b) as (i & Hi & E); [done..|change (64 < agree a b + 16); lia|].
  exists (band_key a i). unfold band_keys. split; apply list_elem_of_fmap; exists i; (split; [|apply elem_of_seq; lia]); [done|].
  unfold band_key. by rewrite E.
Qed.

(** ** Blobs *)

Lemma from_to_le n x : (x < 256 ^ N.of_nat n)%N → from_le_bytes (to_le_bytes n x) = x.
Proof.
  revert x. induction n as [|n IH]; intros x Hx; cbn [to_le_bytes from_le_bytes]; [cbn in Hx; lia|].
  rewrite Nat2N.inj_succ, N.pow_succ_r' in Hx. rewrite IH by (apply N.Div0.div_lt_upper_bound; lia).
  assert (x mod 256 < 256)%N as Hm by (apply N.mod_lt; done). destruct (Byte.of_N (x mod 256)) as [c|] eqn:E.
  - cbn. apply Byte.to_of_N in E. rewrite E. pose proof (N.div_mod x 256). lia.
  - exfalso. apply Byte.of_N_None_iff in E. lia.
Qed.

Lemma length_to_le n x : length (to_le_bytes n x) = n.
Proof. revert x. induction n as [|n IH]; intros x; cbn; [done|by rewrite IH]. Qed.

Lemma length_blob fp : length (fp_to_blob fp) = length fp * 8.
Proof. unfold fp_to_blob. induction fp as [|x fp IH]; [done|]. cbn [map concat]. rewrite length_app, length_to_le, IH. cbn. lia. Qed.

(** C0. A fingerprint is read back from its blob as it was written. *)
Theorem blob_round_trip fp : Forall (λ x, (x < U64_BOUND)%N) fp → blob_to_fp (fp_to_blob fp) = fp.
Proof.
  intros Hfp. unfold blob_to_fp. rewrite length_blob, Nat.Div0.mod_mul, Nat.div_mul by done. cbn [Nat.eqb negb].
  induction Hfp as [|x fp Hx _ IH]; [done|]. cbn [length chunks8 map]. unfold fp_to_blob in *. cbn [map concat].
  rewrite take_app_length', drop_app_length' by (by rewrite length_to_le). rewrite IH. f_equal. by apply from_to_le.
Qed.

(** ** A file of two functions *)

Definition demo_body (leaves : nat) : Tree := mkTree 7 (map (λ i, mkTree (N.of_nat i) []) (seq 1 leaves)).

(** The first is too small, the second is captured twice. *)
Definition demo_captures : list Captured :=
  [mkCaptured (bs "tiny") KFunction 1 1 (demo_body 3); mkCaptured (bs "run") KMethod 3 9 (demo_body 35);
   mkCaptured (bs "run") KMethod 3 9 (demo_body 40)].

Lemma cancelled_file_refused_witness :
  map ff_name (all_functions Rust demo_captures []) = [bs "run"]
  ∧ fst (file_fingerprints_cancellable (λ s, 30 <=? s) (λ _, 2) Rust demo_captures 0) = Some (all_functions Rust demo_captures [])
  ∧ fst (file_fingerprints_cancellable (λ s, 10 <=? s) (λ _, 2) Rust demo_captures 0) = None.
Proof.
  split; [by vm_compute|]. split; [|by vm_compute].
  destruct (file_fingerprints_cancellable (λ s, 30 <=? s) (λ _, 2) Rust demo_captures 0) as [[out|] t'] eqn:E; [|by vm_compute in E].
  cbn [fst]. f_equal. refine (cancelled_file_refused (λ s, 30 <=? s) (λ _, 2) Rust demo_captures 0 out t' _ E).
  intros s s' Hle Hs%Nat.leb_le. apply Nat.leb_le. lia.
Defined.
