(* ===== verification/Similar.v ===== *)
(** * Similar: near clones of a symbol

    Models [src/crates/graph/src/similar.rs]: the fingerprints of the definitions a target
    names, the candidates their band keys select in each language, their scores, and
    the process-wide cache of a language's rows.  [meanwhile] is what other threads do to
    the cache between the two times its lock is held. *)
From stdpp Require Import gmap sorting.
From S2P Require Import Prelude Text Unicode Order Float Checked Handle Target CallPath Impact Resolver Fingerprint.
From Stdlib Require Import Lia ZArith NArith Floats.SpecFloat.
Local Open Scope codesage_scope.

Record StoredFingerprint := mkStored {
  sf_path : bytes; sf_language : bytes; sf_name : bytes; sf_kind : bytes;
  sf_start : N; sf_end : N; sf_leaves : N; sf_fp : list N }.

Record SimilarSymbol := mkSimilar {
  si_name : bytes; si_path : bytes; si_start : N; si_end : N; si_kind : bytes; si_jaccard : f32 }.

Definition as_sig (fp : list N) : option Fingerprint := if Nat.eqb (length fp) MINHASH_K then Some fp else None.

(** Connection, local changes, data version. *)
Abbreviation FingerprintToken := (N * N * Z)%type.

Class FingerprintDb := {
  fingerprints_named : bytes → option (list StoredFingerprint);
  fingerprints_for_language : bytes → option (list StoredFingerprint);
  fingerprint_cache_key : option bytes;
  structural_cache_token : option (option FingerprintToken) }.

(** ** The cache *)

Definition FINGERPRINT_CACHE_CAP : nat := 32.

Abbreviation FingerprintCache := (gmap bytes (FingerprintToken * list StoredFingerprint)).

Definition language_key (key language : bytes) : bytes := key ++ bs "::" ++ language.

Definition cached_rows (cache : FingerprintCache) (key : bytes) (token : FingerprintToken) : option (list StoredFingerprint) :=
  match cache !! key with Some (t, rows) => if decide (t = token) then Some rows else None | None => None end.

Definition remember_rows (cache : FingerprintCache) (key : bytes) (token : FingerprintToken) (rows : list StoredFingerprint)
    : FingerprintCache :=
  let cache := if FINGERPRINT_CACHE_CAP <=? size cache then ∅ else cache in
  <[key := (token, rows)]> cache.

Section similar.
Context {U : Unicode} {D : Database} {F : FingerprintDb} {H : HashOrder}.
Context (stopped : nat → bool) (meanwhile : FingerprintCache → FingerprintCache).

Definition fingerprints_for_language_cached (language : bytes) (cache : FingerprintCache) : T (list StoredFingerprint * FingerprintCache) :=
  token ← query structural_cache_token;
  match fingerprint_cache_key, token with
  | Some key, Some token =>
      let key := language_key key language in
      match cached_rows cache key token with
      | Some rows => mret (rows, cache)
      | None =>
          all ← query (fingerprints_for_language language);
          mret (all, remember_rows (meanwhile cache) key token all)
      end
  | _, _ => rows ← query (fingerprints_for_language language); mret (rows, cache)
  end.

(** ** Candidates *)

Record LanguageIndex := mkIndex { rows : list StoredFingerprint; buckets : gmap N (list nat) }.

Definition push_bucket (i : nat) (buckets : gmap N (list nat)) (key : N) : gmap N (list nat) :=
  <[key := default [] (buckets !! key) ++ [i]]> buckets.

Definition index_row (buckets : gmap N (list nat)) (r : nat * StoredFingerprint) : gmap N (list nat) :=
  if is_test_path (sf_path r.2) then buckets
  else match as_sig (sf_fp r.2) with
       | Some sig => foldl (push_bucket r.1) buckets (band_keys sig)
       | None => buckets
       end.

Definition build_language_index (rows : list StoredFingerprint) : LanguageIndex :=
  mkIndex rows (foldl index_row ∅ (imap pair rows)).

Definition candidates_of (index : LanguageIndex) (sig : Fingerprint) : gset nat :=
  list_to_set (concat (map (λ key, default [] (buckets index !! key)) (band_keys sig))).

(** ** Scores *)

Definition place (c : StoredFingerprint) : bytes * N := (sf_path c, sf_start c).

Abbreviation Best := (gmap (bytes * N) SimilarSymbol).

Definition set_jaccard (score : f32) (s : SimilarSymbol) : SimilarSymbol :=
  mkSimilar (si_name s) (si_path s) (si_start s) (si_end s) (si_kind s) score.

Definition similar_of (c : StoredFingerprint) : SimilarSymbol :=
  mkSimilar (sf_name c) (sf_path c) (sf_start c) (sf_end c) (sf_kind c) f32_zero.

Definition offer (c : StoredFingerprint) (score : f32) (best : Best) : Best :=
  let entry := default (similar_of c) (best !! place c) in
  <[place c := if fltb (si_jaccard entry) score then set_jaccard score entry else entry]> best.

Definition candidate_step (index : LanguageIndex) (seed : StoredFingerprint) (tsig : Fingerprint) (min_jaccard : f32) (best : Best) (ci : nat)
    : T Best :=
  _ ← check_at stopped;
  c ← vget (rows index) ci;
  if decide (place c = place seed) then mret best
  else match as_sig (sf_fp c) with
       | None => mret best
       | Some csig =>
           let score := jaccard tsig csig in
           mret (if fltb score min_jaccard then best else offer c score best)
       end.

Abbreviation Indexes := (gmap bytes LanguageIndex).

Definition seed_step (min_jaccard : f32) (s : Best * Indexes * FingerprintCache) (seed : StoredFingerprint)
    : T (Best * Indexes * FingerprintCache) :=
  let '(best, indexes, cache) := s in
  _ ← check_at stopped;
  match as_sig (sf_fp seed) with
  | None => mret (best, indexes, cache)
  | Some tsig =>
      '(indexes, cache) ← match indexes !! sf_language seed with
        | Some _ => mret (indexes, cache)
        | None =>
            '(rows, cache) ← fingerprints_for_language_cached (sf_language seed) cache;
            mret (<[sf_language seed := build_language_index rows]> indexes, cache)
        end;
      match indexes !! sf_language seed with
      | None => mret (best, indexes, cache)
      | Some index =>
          best ← for_each (candidate_step index seed tsig min_jaccard) (hash_order (elements (candidates_of index tsig))) best;
          mret (best, indexes, cache)
      end
  end.

(** ** The seeds *)

Definition seed_cmp (a b : StoredFingerprint) : comparison :=
  then_with (bytes_cmp (sf_path a) (sf_path b)) (then_with (sf_start a ?= sf_start b)%N (bytes_cmp (sf_name a) (sf_name b))).

Definition same_seed (a b : StoredFingerprint) : bool :=
  bool_decide (sf_path a = sf_path b) && (sf_start a =? sf_start b)%N && bool_decide (sf_name a = sf_name b).

(** [dedup_by]: each element against the last one kept. *)
Fixpoint dedup_after (last : StoredFingerprint) (l : list StoredFingerprint) : list StoredFingerprint :=
  match l with
  | [] => []
  | x :: l => if same_seed x last then dedup_after last l else x :: dedup_after x l
  end.

Definition dedup_seeds (l : list StoredFingerprint) : list StoredFingerprint :=
  match l with [] => [] | x :: l => x :: dedup_after x l end.

Definition seeds_of (named : list StoredFingerprint) : list StoredFingerprint :=
  dedup_seeds (sort_by seed_cmp (List.filter (λ s, bool_decide (is_Some (as_sig (sf_fp s)))) named)).

Definition seed_names (symbol_name : bytes) (matched : list Symbol) : list bytes :=
  match dedup_sorted (sort_by bytes_cmp (map sy_name matched)) with [] => [trim symbol_name] | names => names end.

Definition named_step (found : list StoredFingerprint) (name : bytes) : T (list StoredFingerprint) :=
  more ← query (fingerprints_named name); mret (found ++ more).

(** ** The answer *)

Definition similar_cmp (a b : SimilarSymbol) : comparison :=
  then_with (total_cmp (si_jaccard b) (si_jaccard a))
    (then_with (bytes_cmp (si_path a) (si_path b)) (si_start a ?= si_start b)%N).

Definition threshold (min_jaccard : f32) : f32 :=
  if is_finite min_jaccard then clamp min_jaccard f32_zero f32_one else f32_lit 85 100.

Record FindSimilarResults := mkResults { results : list SimilarSymbol; target : option TargetResolution }.

Definition find_similar_with_seeds (symbol_name : bytes) (min_jaccard : f32) (limit : nat) (cache : FingerprintCache)
    : T (FindSimilarResults * list StoredFingerprint * FingerprintCache) :=
  '(target, symbols) ← resolve_symbols symbol_name symbol_options;
  let min_jaccard := threshold min_jaccard in
  let names := seed_names symbol_name (matched_symbols target symbols) in
  named ← for_each named_step names [];
  match seeds_of named with
  | [] => mret (mkResults [] (Some target), [], cache)
  | targets =>
      '(best, _, cache) ← for_each (seed_step min_jaccard) targets (∅, ∅, cache);
      let out := sort_by similar_cmp (hash_order (map snd (map_to_list best))) in
      mret (mkResults (take limit out) (Some target), targets, cache)
  end.

Definition find_similar (symbol_name : bytes) (min_jaccard : f32) (limit : nat) (cache : FingerprintCache)
    : T (FindSimilarResults * FingerprintCache) :=
  '(results, _, cache) ← find_similar_with_seeds symbol_name min_jaccard limit cache;
  mret (results, cache).
End similar.
