(* ===== verification/SimilarTheorems.v ===== *)
(** * SimilarTheorems: near clones are found

    The properties of src/crates/graph/src/similar.rs: at any threshold above three
    quarters the answer has every function of the index that similar to a seed, best
    first, whatever the process-wide cache holds. *)
From stdpp Require Import gmap sorting.
From S2P Require Import Prelude Text Unicode Order Float Checked Handle Target CallPath Resolution Resolver ResolverProofs ResolverTheorems Fingerprint FingerprintTheorems Similar.
From Stdlib Require Import Lia ZArith NArith Floats.SpecFloat.
Local Open Scope codesage_scope.

(** ** Scores *)

Definition similarity (n : nat) : f32 := f32_div (f32_of_Z (Z.of_nat n)) (f32_of_Z (Z.of_nat MINHASH_K)).

Lemma similarity_ltb m n : m ≤ MINHASH_K → n ≤ MINHASH_K → fltb (similarity m) (similarity n) = (m <? n).
Proof.
  intros Hm Hn. assert (forallb (λ m, forallb (λ n, Bool.eqb (fltb (similarity m) (similarity n)) (m <? n)) (seq 0 65)) (seq 0 65) = true) as Hall by by vm_compute.
  rewrite forallb_forall in Hall. specialize (Hall m). rewrite forallb_forall in Hall. apply Bool.eqb_prop, Hall; apply in_seq; unfold MINHASH_K in *; lia.
Qed.

Lemma similarity_0 : similarity 0 = f32_zero.
Proof. done. Qed.

Lemma agree_bound a b : length a = MINHASH_K → agree a b ≤ MINHASH_K.
Proof.
  intros <-. unfold agree. etrans; [apply List.filter_length_le|]. rewrite length_zip_with. lia.
Qed.

Lemma jaccard_similarity a b : jaccard a b = similarity (agree a b).
Proof. done. Qed.

Definition THREE_QUARTERS : f32 := f32_lit 3 4.

Lemma above_three_quarters n m : fltb THREE_QUARTERS m = true → fltb (similarity n) m = false → n ≤ MINHASH_K → 49 ≤ n.
Proof.
  intros Hm Hn Hle. destruct (decide (49 ≤ n)) as [|Hlt]; [done|]. exfalso.
  assert (n = 48 ∨ fltb (similarity n) THREE_QUARTERS = true) as [->|Hs].
  { assert (n = 48 ∨ n < 48) as [->|H48] by lia; [by left|right]. change THREE_QUARTERS with (similarity 48). rewrite similarity_ltb by (unfold MINHASH_K; lia).
    by apply Nat.ltb_lt. }
  - change (similarity 48) with THREE_QUARTERS in Hn. congruence.
  - rewrite (fltb_trans _ _ _ Hs Hm) in Hn. done.
Qed.

(** ** The index of a language *)

Lemma elem_of_bucket i key key' (b : gmap N (list nat)) j :
  j ∈ default [] (push_bucket i b key' !! key) ↔ (j = i ∧ key' = key) ∨ j ∈ default [] (b !! key).
Proof.
  unfold push_bucket. destruct (decide (key' = key)) as [->|Hne].
  - rewrite lookup_insert_eq. change (j ∈ default [] (b !! key) ++ [i] ↔ (j = i ∧ key = key) ∨ j ∈ default [] (b !! key)).
    rewrite elem_of_app, list_elem_of_singleton. tauto.
  - rewrite lookup_insert_ne by done. tauto.
Qed.

Lemma elem_of_buckets i keys key (b : gmap N (list nat)) j :
  j ∈ default [] (foldl (push_bucket i) b keys !! key) ↔ (j = i ∧ key ∈ keys) ∨ j ∈ default [] (b !! key).
Proof.
  revert b. induction keys as [|k keys IH]; intros b; cbn [foldl].
  - split; [by right|]. intros [[_ ?%elem_of_nil]|]; done.
  - rewrite IH, elem_of_bucket, elem_of_cons. split; [|naive_solver]. intros [[? ?]|[[? ?]|?]]; [left; tauto|left; subst; tauto|by right].
Qed.

Section clones.
Context {U : Unicode}.

Definition indexed_under (c : StoredFingerprint) (key : N) : Prop :=
  is_test_path (sf_path c) = false ∧ ∃ sig, as_sig (sf_fp c) = Some sig ∧ key ∈ band_keys sig.

Lemma elem_of_index (rows : list StoredFingerprint) key i :
  i ∈ default [] (buckets (build_language_index rows) !! key) ↔ ∃ c, rows !! i = Some c ∧ indexed_under c key.
Proof.
  unfold build_language_index. cbn [buckets]. induction rows as [|c rows IH] using rev_ind.
  - cbn. rewrite lookup_empty. cbn. split; [by intros ?%elem_of_nil|]. by intros (c & ? & _).
  - rewrite imap_app, foldl_app. cbn [imap foldl]. unfold index_row at 1. cbn [fst snd Nat.add]. rewrite Nat.add_0_r.
    assert (∀ P : Prop, (i ∈ default [] (foldl index_row ∅ (imap pair rows) !! key) ∨ (i = length rows ∧ P) ↔
      (∃ c', rows !! i = Some c' ∧ indexed_under c' key) ∨ (i = length rows ∧ P))) as Hold by (intros P; by rewrite IH).
    assert ((∃ c', (rows ++ [c]) !! i = Some c' ∧ indexed_under c' key) ↔
      (∃ c', rows !! i = Some c' ∧ indexed_under c' key) ∨ (i = length rows ∧ indexed_under c key)) as ->.
    { split.
      - intros (c' & Hc & Hi). apply lookup_app_Some in Hc as [Hc|[Hle Hc]]; [left; by exists c'|]. apply list_lookup_singleton_Some in Hc as [? <-].
        right. split; [lia|done].
      - intros [(c' & Hc & Hi)|[-> Hi]]; [exists c'; split; [by apply lookup_app_l_Some|done]|]. exists c. split; [|done]. by apply list_lookup_middle. }
    rewrite <- Hold. unfold indexed_under at 1. destruct (is_test_path (sf_path c)); [naive_solver|]. destruct (as_sig (sf_fp c)) as [sig|]; [|naive_solver].
    rewrite elem_of_buckets. naive_solver.
Qed.

Lemma elem_of_candidates rows sig i :
  i ∈ candidates_of (build_language_index rows) sig ↔
  ∃ c key, rows !! i = Some c ∧ indexed_under c key ∧ key ∈ band_keys sig.
Proof.
  unfold candidates_of. rewrite elem_of_list_to_set, elem_of_concat. split.
  - intros (l & (key & -> & Hk)%list_elem_of_fmap & Hi). apply elem_of_index in Hi as (c & Hc & Hu). by exists c, key.
  - intros (c & key & Hc & Hu & Hk). eexists. split; [apply list_elem_of_fmap; exists key; split; [done|exact Hk]|]. apply elem_of_index. by exists c.
Qed.

(** ** The best score of each place *)

(** What one comparison contributes. *)
Record Pairing := mkPairing { pair_seed : StoredFingerprint; pair_row : StoredFingerprint }.

Definition pair_agree (p : Pairing) : nat := agree (sf_fp (pair_seed p)) (sf_fp (pair_row p)).

Definition describes (x : SimilarSymbol) (c : StoredFingerprint) : Prop :=
  si_name x = sf_name c ∧ si_path x = sf_path c ∧ si_start x = sf_start c ∧ si_end x = sf_end c ∧ si_kind x = sf_kind c.

Record best_of (ps : Pairing → Prop) (best : gmap (bytes * N) SimilarSymbol) : Prop := {
  best_has p : ps p → ∃ x n, best !! place (pair_row p) = Some x ∧ si_jaccard x = similarity n ∧ n ≤ MINHASH_K ∧ pair_agree p ≤ n;
  best_from pl x : best !! pl = Some x →
    (∃ p, ps p ∧ place (pair_row p) = pl ∧ si_jaccard x = similarity (pair_agree p)) ∧ ∃ p, ps p ∧ place (pair_row p) = pl ∧ describes x (pair_row p) }.

Definition sized (c : StoredFingerprint) : Prop := length (sf_fp c) = MINHASH_K.

Lemma as_sig_sized c sig : as_sig (sf_fp c) = Some sig ↔ sig = sf_fp c ∧ sized c.
Proof. unfold as_sig, sized. destruct (Nat.eqb_spec (length (sf_fp c)) MINHASH_K); naive_solver. Qed.

Lemma best_of_ext ps ps' best : (∀ p, ps p ↔ ps' p) → best_of ps best → best_of ps' best.
Proof.
  intros Hps [Hh Hf]. split.
  - intros p Hp%Hps. by apply Hh.
  - intros pl x Hx. destruct (Hf pl x Hx) as [(p & Hp & ?) (p' & Hp' & ?)]. split; [exists p; by rewrite <- Hps|exists p'; by rewrite <- Hps].
Qed.

Lemma best_of_none : best_of (λ _, False) ∅.
Proof. split; [done|]. intros pl x. by rewrite lookup_empty. Qed.

Lemma offer_best ps best p : sized (pair_seed p) → best_of ps best →
  best_of (λ q, ps q ∨ q = p) (offer (pair_row p) (similarity (pair_agree p)) best).
Proof.
  intros Hs [Hh Hf]. pose proof (agree_bound _ (sf_fp (pair_row p)) Hs) as Hb. fold (pair_agree p) in Hb.
  set (old := default (similar_of (pair_row p)) (best !! place (pair_row p))).
  set (new := if fltb (si_jaccard old) (similarity (pair_agree p)) then set_jaccard (similarity (pair_agree p)) old else old).
  assert (∃ n, si_jaccard old = similarity n ∧ n ≤ MINHASH_K
    ∧ (best !! place (pair_row p) = Some old ∨ (best !! place (pair_row p) = None ∧ n = 0 ∧ old = similar_of (pair_row p)))) as (n & Hn & Hnb & Hold).
  { unfold old. destruct (best !! place (pair_row p)) as [x|] eqn:E; cbn.
    - destruct (Hf _ _ E) as [(q & Hq & Hpl & Hj) _]. destruct (Hh q Hq) as (y & k & Hy & Hk & Hkb & _). rewrite Hpl, E in Hy. injection Hy as <-.
      exists k. split_and!; [done|done|by left].
    - exists 0. split_and!; [done|lia|by right]. }
  assert (offer (pair_row p) (similarity (pair_agree p)) best = <[place (pair_row p) := new]> best) as -> by done.
  assert (∃ k, si_jaccard new = similarity k ∧ k ≤ MINHASH_K ∧ n ≤ k ∧ pair_agree p ≤ k ∧ (k = n ∨ k = pair_agree p)) as (k & Hk & Hkb & Hnk & Hpk & Hkk).
  { unfold new. rewrite Hn, similarity_ltb by done. destruct (Nat.ltb_spec n (pair_agree p)); cbn; [exists (pair_agree p)|exists n]; split_and!; auto; lia. }
  assert (∀ c, describes old c → describes new c) as Hdesc by (unfold new; intros c; by destruct (fltb _ _)).
  split.
  - intros q Hq. destruct (decide (place (pair_row q) = place (pair_row p))) as [Epl|Hne].
    + rewrite Epl, lookup_insert_eq. exists new, k. split_and!; [done|done|done|]. destruct Hq as [Hq| ->]; [|done].
      destruct (Hh q Hq) as (y & m & Hy & Hm & Hmb & Hqm). rewrite Epl in Hy. destruct Hold as [E|[E _]]; [|congruence].
      rewrite E in Hy. injection Hy as <-. rewrite Hn in Hm.
      assert (m ≤ n); [|lia]. apply Nat.nlt_ge. intros Hlt%Nat.ltb_lt. rewrite <- similarity_ltb in Hlt by done. rewrite Hm in Hlt. by rewrite fltb_irrefl in Hlt.
    + destruct Hq as [Hq| ->]; [|done]. rewrite lookup_insert_ne by congruence. by apply Hh.
  - intros pl x. destruct (decide (place (pair_row p) = pl)) as [<-|Hne].
    + rewrite lookup_insert_eq. intros [= <-]. split.
      * destruct Hkk as [-> | ->]; [|exists p; split_and!; [by right|done|done]]. destruct Hold as [E|(E & -> & _)].
        -- destruct (Hf _ _ E) as [(q & Hq & Hpl & Hj) _]. exists q. split_and!; [by left|done|congruence].
        -- exists p. split_and!; [by right|done|]. rewrite Hk. f_equal. lia.
      * destruct Hold as [E|(E & _ & Eo)].
        -- destruct (Hf _ _ E) as [_ (q & Hq & Hpl & Hd)]. exists q. split_and!; [by left|done|by apply Hdesc].
        -- exists p. split_and!; [by right|done|]. apply Hdesc. by rewrite Eo.
    + rewrite lookup_insert_ne by done. intros Hx. destruct (Hf _ _ Hx) as [(q & Hq & ?) (q' & Hq' & ?)]. split; [exists q|exists q']; tauto.
Qed.
End clones.

(** ** The loops *)

Section loops.
Context {U : Unicode} {D : Database} {F : FingerprintDb} {H : HashOrder} {HL : HashOrderLaws H}.
Context (stopped : nat → bool) (meanwhile : gmap bytes (FingerprintToken * list StoredFingerprint) → gmap bytes (FingerprintToken * list StoredFingerprint)).

(** What the rows under a key were at each token. *)
Context (truth : FingerprintToken → bytes → option (list StoredFingerprint)).

Definition coherent (cache : gmap bytes (FingerprintToken * list StoredFingerprint)) : Prop :=
  ∀ key token rows, cache !! key = Some (token, rows) → truth token key = Some rows.

(** The token of this connection names the version its queries read, and other threads
    record what they read. *)
Record versioned : Prop := {
  now_read key token language : fingerprint_cache_key = Some key → structural_cache_token = Some (Some token) →
    truth token (language_key key language) = fingerprints_for_language language;
  others_coherent cache : coherent cache → coherent (meanwhile cache) }.

Context (HV : versioned).

Lemma remember_coherent cache key token rows : coherent cache → truth token key = Some rows → coherent (remember_rows cache key token rows).
Proof using Type.
  intros Hc Ht key' token' rows'. unfold remember_rows. destruct (decide (key = key')) as [<-|Hne].
  - rewrite lookup_insert_eq. by intros [= <- <-].
  - rewrite lookup_insert_ne by done. destruct (_ <=? _); [by rewrite lookup_empty|apply Hc].
Qed.

Lemma cached_ok language cache : coherent cache →
  yields (fingerprints_for_language_cached meanwhile language cache) (λ r, fingerprints_for_language language = Some r.1 ∧ coherent r.2).
Proof using HV.
  intros Hc. unfold fingerprints_for_language_cached. apply yields_query. intros token Ht.
  assert (yields (rows ← query (fingerprints_for_language language); mret (rows, cache)) (λ r, fingerprints_for_language language = Some r.1 ∧ coherent r.2)) as Hplain.
  { apply yields_query. intros l Hl. by apply yields_ret. }
  destruct fingerprint_cache_key as [key|] eqn:Ek; [|done]. destruct token as [token|]; [|done].
  pose proof (now_read HV key token language Ek Ht) as Hnow. unfold cached_rows.
  assert (yields (all ← query (fingerprints_for_language language); mret (all, remember_rows (meanwhile cache) (language_key key language) token all))
    (λ r, fingerprints_for_language language = Some r.1 ∧ coherent r.2)) as Hmiss.
  { apply yields_query. intros l Hl. apply yields_ret. split; [done|]. apply remember_coherent; [by apply (others_coherent HV)|congruence]. }
  destruct (cache !! language_key key language) as [[t rows]|] eqn:Eh; [|exact Hmiss]. case_decide as Hd; [|exact Hmiss].
  apply yields_ret. split; [|done]. subst. apply Hc in Eh. cbn. congruence.
Qed.

(** The comparisons of a run: rows of the seed's language, not tests, found elsewhere,
    that share a band with it and are as similar as asked. *)
Record compared (low : f32) (p : Pairing) : Prop := {
  cmp_rows : ∃ rows, fingerprints_for_language (sf_language (pair_seed p)) = Some rows ∧ pair_row p ∈ rows;
  cmp_sized : sized (pair_seed p) ∧ sized (pair_row p);
  cmp_source : is_test_path (sf_path (pair_row p)) = false;
  cmp_place : place (pair_row p) ≠ place (pair_seed p);
  cmp_band : ∃ key, key ∈ band_keys (sf_fp (pair_seed p)) ∧ key ∈ band_keys (sf_fp (pair_row p));
  cmp_score : fltb (similarity (pair_agree p)) low = false }.

Lemma candidate_step_ok rows seed low ps best ci c :
  sized seed → rows !! ci = Some c → best_of ps best →
  yields (candidate_step stopped (build_language_index rows) seed (sf_fp seed) low best ci)
    (best_of (λ p, ps p ∨ (p = mkPairing seed c ∧ place c ≠ place seed ∧ sized c ∧ fltb (similarity (pair_agree p)) low = false))).
Proof using Type.
  intros Hs Hc Hb. unfold candidate_step. apply yields_check. eapply yields_vget; [exact Hc|].
  assert (∀ P : Pairing → Prop, (∀ p, ¬ P p) → best_of (λ p, ps p ∨ P p) best) as Hnone.
  { intros P HP. eapply best_of_ext; [|exact Hb]. intros p. specialize (HP p). tauto. }
  case_decide as Hpl; [apply yields_ret, Hnone; tauto|]. destruct (as_sig (sf_fp c)) as [sig|] eqn:Es.
  2: { apply yields_ret, Hnone. intros p (_ & _ & Hsz & _). unfold as_sig in Es. by rewrite (proj2 (Nat.eqb_eq _ _) Hsz) in Es. }
  apply as_sig_sized in Es as [-> Hsz]. apply yields_ret. rewrite jaccard_similarity.
  change (agree (sf_fp seed) (sf_fp c)) with (pair_agree (mkPairing seed c)).
  destruct (fltb (similarity (pair_agree (mkPairing seed c))) low) eqn:El; [apply Hnone; intros p (-> & _ & _ & ?); congruence|].
  eapply best_of_ext; [|apply (offer_best ps best (mkPairing seed c) Hs Hb)]. intros p. split; [|naive_solver]. intros [?| ->]; [by left|by right].
Qed.

Lemma candidates_ok rows seed low ps best l :
  sized seed → best_of ps best → (∀ i, i ∈ l → is_Some (rows !! i)) →
  yields (for_each (candidate_step stopped (build_language_index rows) seed (sf_fp seed) low) l best)
    (best_of (λ p, ps p ∨ (pair_seed p = seed ∧ (∃ i, i ∈ l ∧ rows !! i = Some (pair_row p)) ∧ place (pair_row p) ≠ place seed ∧ sized (pair_row p)
      ∧ fltb (similarity (pair_agree p)) low = false))).
Proof using Type.
  intros Hs Hb Hin. apply (yields_for_each _ (λ done_, best_of (λ p, ps p ∨ (pair_seed p = seed ∧ (∃ i, i ∈ done_ ∧ rows !! i = Some (pair_row p))
    ∧ place (pair_row p) ≠ place seed ∧ sized (pair_row p) ∧ fltb (similarity (pair_agree p)) low = false)))).
  - intros a i b best' -> Hb'. destruct (Hin i) as [c Hc]; [apply elem_of_app; right; by left|].
    eapply yields_mono; [by eapply candidate_step_ok|]. intros best''. apply best_of_ext. intros p. split.
    + intros [[?|(? & (j & Hj & ?) & ?)]|(-> & ? & ? & ?)]; [by left|right; split; [done|]; split; [exists j; split; [apply elem_of_app; by left|done]|done]|].
      right. split; [done|]. split; [|done]. exists i. split; [apply elem_of_app; right; by left|done].
    + intros [?|(Hsd & (j & [Hj|Hj%list_elem_of_singleton]%elem_of_app & Hr) & ? & ? & ?)]; [by left; left| |].
      * left. right. split; [done|]. split; [by exists j|done].
      * subst j. rewrite Hc in Hr. injection Hr as ->. right. destruct p. cbn in *. by subst.
  - eapply best_of_ext; [|exact Hb]. intros p. split; [by left|]. intros [?|(_ & (i & ?%elem_of_nil & _) & _)]; done.
Qed.

Definition known (indexes : gmap bytes LanguageIndex) : Prop :=
  ∀ language index, indexes !! language = Some index → ∃ rows, fingerprints_for_language language = Some rows ∧ index = build_language_index rows.

Lemma seed_step_ok low ps best indexes cache seed : sized seed → best_of ps best → known indexes → coherent cache →
  yields (seed_step stopped meanwhile low (best, indexes, cache) seed)
    (λ r, best_of (λ p, ps p ∨ (pair_seed p = seed ∧ compared low p)) r.1.1 ∧ known r.1.2 ∧ coherent r.2).
Proof using HV HL.
  intros Hs Hb Hk Hc. unfold seed_step. apply yields_check. assert (as_sig (sf_fp seed) = Some (sf_fp seed)) as -> by by apply as_sig_sized.
  apply (yields_bind _ _ (λ r, (∃ rows, fingerprints_for_language (sf_language seed) = Some rows ∧ r.1 !! sf_language seed = Some (build_language_index rows))
    ∧ known r.1 ∧ coherent r.2)).
  { destruct (indexes !! sf_language seed) as [index|] eqn:Ei.
    - apply yields_ret. split_and!; [|done|done]. destruct (Hk _ _ Ei) as (rows & Hr & ->). by exists rows.
    - eapply yields_bind; [by apply cached_ok|]. intros [rows cache'] [Hr Hc']. cbn in Hr, Hc'. apply yields_ret. cbn. split_and!; [|..|done].
      + exists rows. by rewrite lookup_insert_eq.
      + intros language index. destruct (decide (sf_language seed = language)) as [<-|Hne]; [rewrite lookup_insert_eq; intros [= <-]; by exists rows|].
        rewrite lookup_insert_ne by done. apply Hk. }
  intros [indexes' cache'] ((rows & Hr & Hi) & Hk' & Hc'). cbn in Hi, Hk', Hc'. rewrite Hi.
  eapply yields_bind; [apply (candidates_ok rows seed low ps best); [done|done|]|].
  - intros i Hi'. rewrite hash_order_perm, elem_of_elements in Hi'. apply elem_of_candidates in Hi' as (c & key & Hcr & _). by exists c.
  - intros best' Hb'. apply yields_ret. cbn. split_and!; [|done|done]. eapply best_of_ext; [|exact Hb']. intros p.
    assert (compared low p ∧ pair_seed p = seed ↔ pair_seed p = seed ∧ (∃ i, i ∈ hash_order (elements (candidates_of (build_language_index rows) (sf_fp seed))) ∧ rows !! i = Some (pair_row p))
      ∧ place (pair_row p) ≠ place seed ∧ sized (pair_row p) ∧ fltb (similarity (pair_agree p)) low = false) as Heq; [|tauto].
    setoid_rewrite hash_order_perm. setoid_rewrite elem_of_elements. setoid_rewrite elem_of_candidates. split.
    + intros [[(rows' & Hr' & Hin) [_ Hsz] Htest Hpl (key & Hk1 & Hk2) Hsc] <-]. split; [done|]. rewrite Hr in Hr'. injection Hr' as <-.
      apply list_elem_of_lookup in Hin as [i Hin]. split_and!; [|done..]. exists i. split; [|done]. exists (pair_row p), key. split_and!; [done| |done].
      split; [done|]. exists (sf_fp (pair_row p)). split; [by apply as_sig_sized|done].
    + intros (<- & (i & (c & key & Hc1 & (Htest & sig & Hsig & Hks) & Hkey) & Hc2) & Hpl & Hsz & Hsc). rewrite Hc1 in Hc2. injection Hc2 as ->.
      apply as_sig_sized in Hsig as [-> _]. split; [|done]. split; [|done|done|done|by exists key|done]. exists rows. split; [done|]. by eapply list_elem_of_lookup_2.
Qed.

Lemma seeds_ok low seeds cache : Forall sized seeds → coherent cache →
  yields (for_each (seed_step stopped meanwhile low) seeds (∅, ∅, cache))
    (λ r, best_of (λ p, pair_seed p ∈ seeds ∧ compared low p) r.1.1 ∧ coherent r.2).
Proof using HV HL.
  intros Hs Hc. eapply yields_mono;
    [apply (yields_for_each _ (λ done_ r, best_of (λ p, pair_seed p ∈ done_ ∧ compared low p) r.1.1 ∧ known r.1.2 ∧ coherent r.2))|by intros r (? & _ & ?)].
  - intros a seed b [[best indexes] cache'] -> (Hb & Hk & Hc'). apply Forall_app in Hs as [_ Hs]. apply Forall_cons in Hs as [Hs _].
    eapply yields_mono; [by apply seed_step_ok|]. intros r (Hb' & Hk' & Hc''). split_and!; [|done|done]. eapply best_of_ext; [|exact Hb'].
    intros p. rewrite elem_of_app, list_elem_of_singleton. tauto.
  - split_and!; [|intros ? ? Hl; cbn in Hl; by apply lookup_empty_Some in Hl|done]. eapply best_of_ext; [|apply best_of_none]. intros p. rewrite elem_of_nil. tauto.
Qed.

(** ** The seeds *)

Lemma dedup_after_elem last l x : x ∈ dedup_after last l → x ∈ l.
Proof using Type.
  revert last. induction l as [|y l IH]; intros last; cbn; [done|]. destruct (same_seed y last); [intros ?%IH; by right|].
  intros [->|?%IH]%elem_of_cons; [by left|by right].
Qed.

Lemma dedup_after_covers last l x : x ∈ l → same_seed x last = true ∨ ∃ s, s ∈ dedup_after last l ∧ same_seed x s = true.
Proof using Type.
  revert last. induction l as [|y l IH]; intros last; cbn; [by intros ?%elem_of_nil|]. intros [->|Hx]%elem_of_cons.
  - destruct (same_seed y last) eqn:E; [by left|]. right. exists y. split; [by left|]. unfold same_seed. by rewrite !bool_decide_true, N.eqb_refl.
  - destruct (same_seed y last) eqn:E; [by apply IH|]. right. destruct (IH y Hx) as [?|(s & ? & ?)]; [exists y; split; [by left|done]|exists s; split; [by right|done]].
Qed.

Lemma elem_of_seeds named s : s ∈ seeds_of named → s ∈ named ∧ sized s.
Proof using Type.
  unfold seeds_of. intros Hs. assert (s ∈ sort_by seed_cmp (List.filter (λ s, bool_decide (is_Some (as_sig (sf_fp s)))) named)) as Hin.
  { destruct (sort_by _ _) as [|x l]; [done|]. cbn in Hs. apply elem_of_cons in Hs as [->|Hs]; [by left|]. right. by eapply dedup_after_elem. }
  rewrite sort_by_perm in Hin. apply elem_of_bool_filter in Hin as [Hin [sig Hsig]%bool_decide_eq_true]. split; [done|]. by apply as_sig_sized in Hsig as [_ ?].
Qed.

Lemma seeds_cover named c : c ∈ named → sized c → ∃ s, s ∈ seeds_of named ∧ same_seed c s = true.
Proof using Type.
  intros Hc Hs. unfold seeds_of. assert (c ∈ sort_by seed_cmp (List.filter (λ s, bool_decide (is_Some (as_sig (sf_fp s)))) named)) as Hin.
  { rewrite sort_by_perm. apply elem_of_bool_filter. split; [done|]. apply bool_decide_eq_true. exists (sf_fp c). by apply as_sig_sized. }
  destruct (sort_by _ _) as [|x l]; [by apply elem_of_nil in Hin|]. cbn. apply elem_of_cons in Hin as [->|Hin].
  - exists x. split; [by left|]. unfold same_seed. by rewrite !bool_decide_true, N.eqb_refl.
  - destruct (dedup_after_covers x l c Hin) as [?|(s & ? & ?)]; [exists x; split; [by left|done]|exists s; split; [by right|done]].
Qed.
End loops.

(** ** The answer *)

Lemma ordering_flip {A} (c : A → A → comparison) : ordering c → ordering (λ x y, c y x).
Proof. intros [Hs Ht]. split; [intros x y; apply Hs|]. intros x y z H1 H2. by apply (Ht z y x). Qed.

Lemma ordering_similar : ordering similar_cmp.
Proof.
  apply ordering_then; [apply (ordering_flip (λ x y, total_cmp (si_jaccard x) (si_jaccard y))), ordering_on, ordering_total_cmp|].
  apply ordering_then; [apply ordering_on, ordering_bytes|apply ordering_on, ordering_N].
Qed.

Lemma similar_cmp_score x y m n : si_jaccard x = similarity m → si_jaccard y = similarity n → m ≤ MINHASH_K → n ≤ MINHASH_K →
  similar_cmp x y ≠ Gt → n ≤ m.
Proof.
  intros Hx Hy Hm Hn Hc. apply Nat.nlt_ge. intros Hlt%Nat.ltb_lt. rewrite <- similarity_ltb in Hlt by done. apply Hc. unfold similar_cmp.
  rewrite Hx, Hy. assert (total_cmp (similarity n) (similarity m) = Gt) as ->; [|done].
  destruct (fltb_nan _ _ Hlt) as [N1 N2]. pose proof (partial_cmp_key _ _ N1 N2) as E1. pose proof (partial_cmp_key _ _ N2 N1) as E2.
  unfold total_cmp, fltb, SFltb, partial_cmp in *.
  destruct (SFcompare (similarity m) (similarity n)) as [[]|] eqn:E; try done.
  injection E1 as E1. rewrite E2, key_cmp_antisym, <- E1. done.
Qed.

Definition place_of (x : SimilarSymbol) : bytes * N := (si_path x, si_start x).

(** As similar as asked, whatever its bands. *)
Record near {F : FingerprintDb} {U : Unicode} (low : f32) (p : Pairing) : Prop := {
  near_rows : ∃ rows, fingerprints_for_language (sf_language (pair_seed p)) = Some rows ∧ pair_row p ∈ rows;
  near_sized : sized (pair_row p);
  near_source : is_test_path (sf_path (pair_row p)) = false;
  near_place : place (pair_row p) ≠ place (pair_seed p);
  near_score : fltb (similarity (pair_agree p)) low = false }.

Lemma near_compared {F : FingerprintDb} {U : Unicode} low p : fltb THREE_QUARTERS low = true → sized (pair_seed p) → near low p → compared low p.
Proof.
  intros Hlow Hs [Hr Hz Ht Hp Hsc]. split; [done|done|done|done| |done]. apply share_band; [done|done|].
  apply (above_three_quarters _ _ Hlow Hsc), agree_bound, Hs.
Qed.

Section answer.
Context {U : Unicode} {D : Database} {F : FingerprintDb} {H : HashOrder} {HL : HashOrderLaws H}.
Context (stopped : nat → bool) (meanwhile : gmap bytes (FingerprintToken * list StoredFingerprint) → gmap bytes (FingerprintToken * list StoredFingerprint)).

(** The rows of [best], sorted and cut. *)
Record ranked (ps : Pairing → Prop) (limit : nat) (out : list SimilarSymbol) : Prop := {
  ranked_cut : length out ≤ limit;
  ranked_sorted : StronglySorted (λ x y, similar_cmp x y ≠ Gt) out;
  ranked_places : NoDup (map place_of out);
  ranked_from x : x ∈ out → (∃ p, ps p ∧ place (pair_row p) = place_of x ∧ si_jaccard x = similarity (pair_agree p))
    ∧ ∃ p, ps p ∧ describes x (pair_row p);
  ranked_has p : ps p → (∃ x, x ∈ out ∧ place_of x = place (pair_row p) ∧ fltb (si_jaccard x) (similarity (pair_agree p)) = false)
    ∨ length out = limit ∧ ∀ x, x ∈ out → fltb (si_jaccard x) (similarity (pair_agree p)) = false }.

Lemma NoDup_take {A} n (l : list A) : NoDup l → NoDup (take n l).
Proof. intros Hl. rewrite <- (take_drop n l) in Hl. by apply NoDup_app in Hl as (? & _ & _). Qed.

Lemma best_ranked ps best limit : best_of ps best → (∀ p, ps p → sized (pair_seed p)) →
  ranked ps limit (take limit (sort_by similar_cmp (hash_order (map snd (map_to_list best))))).
Proof using HL.
  intros [Hh Hf] Hsz. set (all := sort_by similar_cmp (hash_order (map snd (map_to_list best)))).
  assert (all ≡ₚ map snd (map_to_list best)) as Hperm by (unfold all; by rewrite sort_by_perm, hash_order_perm).
  assert (StronglySorted (λ x y, similar_cmp x y ≠ Gt) all) as Hsort by apply sort_by_ordered, ordering_similar.
  assert (∀ pl x, best !! pl = Some x → place_of x = pl) as Hpl.
  { intros pl x Hx. destruct (Hf pl x Hx) as [_ (p & _ & <- & (_ & E1 & E2 & _))]. unfold place_of, place. by rewrite E1, E2. }
  assert (∀ x, x ∈ all ↔ best !! place_of x = Some x) as Hall.
  { intros x. rewrite Hperm. change (x ∈ snd <$> map_to_list best ↔ best !! place_of x = Some x). rewrite list_elem_of_fmap. split.
    - intros ([pl y] & -> & Hy%elem_of_map_to_list). cbn. by rewrite (Hpl _ _ Hy).
    - intros Hx. exists (place_of x, x). split; [done|]. by apply elem_of_map_to_list. }
  assert (NoDup (map place_of all)) as Hnd.
  { change (NoDup (place_of <$> all)). rewrite Hperm. assert (place_of <$> map snd (map_to_list best) = fst <$> map_to_list best) as ->.
    { change (place_of <$> (snd <$> map_to_list best) = fst <$> map_to_list best). rewrite <- list_fmap_compose. apply list_fmap_ext.
      intros i [pl x] Hx%list_elem_of_lookup_2%elem_of_map_to_list. cbn. by apply Hpl. }
    apply NoDup_fst_map_to_list. }
  assert (all = take limit all ++ drop limit all) as Hcut by by rewrite take_drop.
  split.
  - rewrite length_take. lia.
  - rewrite Hcut in Hsort. by apply StronglySorted_app in Hsort as (_ & ? & _).
  - change (NoDup (place_of <$> take limit all)). rewrite fmap_take. by apply NoDup_take.
  - intros x Hx. assert (best !! place_of x = Some x) as Hb by (apply Hall; rewrite Hcut; apply elem_of_app; by left).
    destruct (Hf _ _ Hb) as [(p & ? & ? & ?) (p' & ? & _ & ?)]. split; [by exists p|by exists p'].
  - intros p Hp. destruct (Hh p Hp) as (x & n & Hx & Hn & Hnb & Hpn). pose proof (agree_bound _ (sf_fp (pair_row p)) (Hsz p Hp)) as Hb. fold (pair_agree p) in Hb.
    assert (fltb (si_jaccard x) (similarity (pair_agree p)) = false) as Hge by (rewrite Hn, similarity_ltb by done; apply Nat.ltb_ge; done).
    pose proof (Hpl _ _ Hx) as Epl. assert (x ∈ all) as Hin by (apply Hall; by rewrite Epl). rewrite Hcut in Hin. apply elem_of_app in Hin as [Hin|Hin]; [left; by exists x|right].
    assert (limit < length all) as Hlim by (destruct (decide (limit < length all)); [done|]; rewrite drop_ge in Hin by lia; by apply elem_of_nil in Hin).
    split; [rewrite length_take; lia|]. intros y Hy. rewrite Hcut in Hsort. apply StronglySorted_app in Hsort as (Hbefore & _ & _).
    assert (best !! place_of y = Some y) as Hyb by (apply Hall; rewrite Hcut; apply elem_of_app; by left).
    destruct (Hf _ _ Hyb) as [(q & Hq & _ & Hqj) _]. pose proof (agree_bound _ (sf_fp (pair_row q)) (Hsz q Hq)) as Hqb. fold (pair_agree q) in Hqb.
    assert (n ≤ pair_agree q) by (eapply (similar_cmp_score y x); [done..|by apply Hbefore]).
    rewrite Hqj, similarity_ltb by done. apply Nat.ltb_ge. lia.
Qed.

(** The fingerprints the target stands for. *)
Definition seeded (symbol_name : bytes) (target : TargetResolution) (seeds : list StoredFingerprint) : Prop :=
  ∃ symbols t t', resolve_symbols symbol_name symbol_options t = inr ((target, symbols), t') ∧
  let names := seed_names symbol_name (matched_symbols target symbols) in
  (∀ s, s ∈ seeds → sized s ∧ ∃ n rows, n ∈ names ∧ fingerprints_named n = Some rows ∧ s ∈ rows)
  ∧ ∀ n rows c, n ∈ names → fingerprints_named n = Some rows → c ∈ rows → sized c → ∃ s, s ∈ seeds ∧ same_seed c s = true.

Lemma named_ok names (found : list StoredFingerprint) :
  yields (for_each named_step names found) (λ named, ∀ c, c ∈ named ↔ c ∈ found ∨ ∃ n rows, n ∈ names ∧ fingerprints_named n = Some rows ∧ c ∈ rows).
Proof using Type.
  apply (yields_for_each _ (λ done_ named, ∀ c, c ∈ named ↔ c ∈ found ∨ ∃ n rows, n ∈ done_ ∧ fingerprints_named n = Some rows ∧ c ∈ rows)).
  - intros a n b named -> Hn. apply yields_query. intros rows Hr. apply yields_ret. intros c. rewrite elem_of_app, Hn. setoid_rewrite elem_of_app.
    setoid_rewrite list_elem_of_singleton. split; [|naive_solver].
    intros [[?|(n' & rows' & ? & ? & ?)]|?]; [by left|right; exists n', rows'; tauto|right; exists n, rows; tauto].
  - intros c. split; [by left|]. intros [?|(n & rows & ?%elem_of_nil & _)]; done.
Qed.

(** C12. The answer of [find_similar] has every near clone, and nothing else.  Its rows are
    functions of the index, outside tests, of a seed's language and at another place, each
    place once with its best score, best first.  At a threshold above three quarters
    (the default is 0.85) each function that similar to a seed is in the answer, unless it
    is cut at the limit by rows no less similar: banding loses none.  All of it holds
    whatever coherent cache the daemon holds and other threads change. *)
Theorem near_clones_found st truth symbol_name min_jaccard limit cache :
  Reads st → store_ok st → versioned meanwhile truth → coherent truth cache →
  yields (find_similar_with_seeds stopped meanwhile symbol_name min_jaccard limit cache) (λ a,
    coherent truth a.2
    ∧ (∃ r, target a.1.1 = Some r ∧ seeded symbol_name r a.1.2)
    ∧ ranked (λ p, pair_seed p ∈ a.1.2 ∧ compared (threshold min_jaccard) p) limit (results a.1.1)
    ∧ (fltb THREE_QUARTERS (threshold min_jaccard) = true →
       ranked (λ p, pair_seed p ∈ a.1.2 ∧ near (threshold min_jaccard) p) limit (results a.1.1))).
Proof.
  intros HR Hok HV Hc. set (low := threshold min_jaccard).
  assert (∀ r seeds out cache', coherent truth cache' → seeded symbol_name r seeds →
    ranked (λ p, pair_seed p ∈ seeds ∧ compared low p) limit out →
    coherent truth cache' ∧ (∃ r', Some r = Some r' ∧ seeded symbol_name r' seeds)
    ∧ ranked (λ p, pair_seed p ∈ seeds ∧ compared low p) limit out
    ∧ (fltb THREE_QUARTERS low = true → ranked (λ p, pair_seed p ∈ seeds ∧ near low p) limit out)) as Hend.
  { intros r seeds out cache' Hc' Hs Hr. split_and!; [done|by exists r|done|]. intros Hlow.
    destruct Hs as (symbols & t & t' & _ & Hsz & _). destruct Hr as [R1 R2 R3 R4 R5].
    assert (∀ p, compared low p → near low p) as Hcn by (intros p [? [? ?] ? ? ? ?]; by split).
    assert (∀ p, pair_seed p ∈ seeds → near low p → compared low p) as Hnc by (intros p Hp Hn; apply near_compared; [done| |done]; by apply Hsz).
    split; [done|done|done| |].
    - intros x Hx. destruct (R4 x Hx) as [(p & [? ?] & ?) (q & [? ?] & ?)]. split; [exists p|exists q]; auto.
    - intros p [Hp Hn]. apply R5. auto. }
  pose proof (resolve_symbols_ok st HR Hok symbol_options symbol_name) as Hres.
  intros t. unfold find_similar_with_seeds, mbind at 1, T_bind at 1. specialize (Hres t).
  destruct (resolve_symbols symbol_name symbol_options t) as [e|[[target symbols] t']] eqn:Et; [done|]. cut (yields
    (named ← for_each named_step (seed_names symbol_name (matched_symbols target symbols)) [];
     match seeds_of named with
     | [] => mret (mkResults [] (Some target), [], cache)
     | targets => '(best, _, cache) ← for_each (seed_step stopped meanwhile low) targets (∅, ∅, cache);
         mret (mkResults (take limit (sort_by similar_cmp (hash_order (map snd (map_to_list best))))) (Some target), targets, cache)
     end) (λ a, coherent truth a.2 ∧ (∃ r, Similar.target a.1.1 = Some r ∧ seeded symbol_name r a.1.2)
       ∧ ranked (λ p, pair_seed p ∈ a.1.2 ∧ compared low p) limit (results a.1.1)
       ∧ (fltb THREE_QUARTERS low = true → ranked (λ p, pair_seed p ∈ a.1.2 ∧ near low p) limit (results a.1.1)))).
  { intros Hy. apply Hy. }
  assert (∀ named, (∀ c, c ∈ named ↔ c ∈ [] ∨ ∃ n rows, n ∈ seed_names symbol_name (matched_symbols target symbols) ∧ fingerprints_named n = Some rows ∧ c ∈ rows) →
    seeded symbol_name target (seeds_of named)) as Hseeds.
  { intros named Hn. eexists symbols, t, _. split; [exact Et|]. split.
    - intros s Hs. apply elem_of_seeds in Hs as [Hin Hz]. split; [done|]. by apply Hn in Hin as [?%elem_of_nil|?].
    - intros n rows c Hnn Hr Hcr Hz. apply seeds_cover; [|done]. apply Hn. right. by exists n, rows. }
  eapply yields_bind; [apply named_ok|]. intros named Hn. specialize (Hseeds named Hn). destruct (seeds_of named) as [|s seeds] eqn:Es.
  - apply yields_ret. apply Hend; [done|done|]. split; [cbn; lia|constructor|constructor|by intros x ?%elem_of_nil|]. by intros p [?%elem_of_nil _].
  - rewrite <- Es in *. clear Es. assert (Forall sized (seeds_of named)) as Hz by (apply Forall_forall; intros x Hx; by destruct (elem_of_seeds _ _ Hx)).
    eapply yields_bind; [by apply (seeds_ok stopped meanwhile truth HV low)|]. intros [[best indexes] cache'] [Hb Hc']. apply yields_ret.
    apply Hend; [done|done|]. apply best_ranked; [done|]. intros p [Hp _]. rewrite Forall_forall in Hz. by apply Hz.
Qed.
End answer.

(** ** A concrete index *)

Definition demo_fp (changed : N) : list N := map (λ i, if (i <? changed)%N then (i + 1000)%N else i) (map N.of_nat (seq 0 64)).

Definition demo_stored (file name : string) (line changed : N) : StoredFingerprint :=
  mkStored (bs file) (bs "rust") (bs name) (bs "function") line (line + 9) 40 (demo_fp changed).

(** Two definitions of [open], one near clone of both, one that changed too much, and a
    copy in a test. *)
Definition demo_stored_rows : list StoredFingerprint :=
  [demo_stored "src/a.rs" "open" 1 0; demo_stored "src/b.rs" "open" 3 2; demo_stored "src/c.rs" "load" 5 6;
   demo_stored "src/c.rs" "save" 30 40; demo_stored "tests/a.rs" "open_again" 1 0].

#[local] Instance demo_fingerprints : FingerprintDb := {|
  fingerprints_named n := Some (List.filter (λ r, bytes_eqb (sf_name r) n) demo_stored_rows);
  fingerprints_for_language l := Some (List.filter (λ r, bytes_eqb (sf_language r) l) demo_stored_rows);
  fingerprint_cache_key := Some (bs "p");
  structural_cache_token := Some (Some (1%N, 0%N, 0%Z)) |}.

#[local] Instance as_inserted : HashOrder := {| hash_order := λ A l, l |}.
#[local] Instance as_inserted_laws : HashOrderLaws as_inserted.
Proof. by split. Qed.

Definition demo_truth (token : FingerprintToken) (key : bytes) : option (list StoredFingerprint) :=
  fingerprints_for_language (drop 3 key).

Lemma demo_versioned : versioned id demo_truth.
Proof. split; [by intros key token language [= <-] _|done]. Qed.

Abbreviation demo turn := (in_memory demo_store turn).
Abbreviation demo_run := (find_similar_with_seeds (D := demo id) (λ _, false) id (bs "open") (f32_lit 85 100) 10 ∅).

Example demo_clones :
  match demo_run 0 with
  | inr (r, seeds, cache, _) => (map place_of (results r), length seeds, size cache)
  | inl _ => ([], 0, 0)
  end = ([(bs "src/a.rs", 1%N); (bs "src/b.rs", 3%N); (bs "src/c.rs", 5%N)], 2, 1).
Proof. by vm_compute. Qed.

(** Two functions that start on one line share an entry: it is named after whichever
    candidate the set yields first, and scored by the better one. *)
Example one_line_twins :
  let F : FingerprintDb := {|
    fingerprints_named n := fingerprints_named n;
    fingerprints_for_language _ := Some [demo_stored "src/d.rs" "load" 5 6; demo_stored "src/d.rs" "save" 5 2];
    fingerprint_cache_key := None; structural_cache_token := Some None |} in
  let names (H : HashOrder) := match find_similar (D := demo id) (F := F) (H := H) (λ _, false) id (bs "open") (f32_lit 85 100) 10 ∅ 0 with
    | inr (r, _, _) => map (λ x, (si_name x, fltb (si_jaccard x) (similarity 62))) (results r)
    | inl _ => []
    end in
  names as_inserted = [(bs "save", false)] ∧ names {| hash_order := @rev |} = [(bs "load", false)].
Proof. by vm_compute. Qed.

Lemma near_clones_found_witness :
  yields demo_run (λ a,
    coherent demo_truth a.2
    ∧ (∃ r, target a.1.1 = Some r ∧ seeded (D := demo id) (bs "open") r a.1.2)
    ∧ ranked (λ p, pair_seed p ∈ a.1.2 ∧ compared (threshold (f32_lit 85 100)) p) 10 (results a.1.1)
    ∧ (fltb THREE_QUARTERS (threshold (f32_lit 85 100)) = true →
       ranked (λ p, pair_seed p ∈ a.1.2 ∧ near (threshold (f32_lit 85 100)) p) 10 (results a.1.1)))
  ∧ fltb THREE_QUARTERS (threshold (f32_lit 85 100)) = true.
Proof.
  split; [|by vm_compute].
  exact (near_clones_found (D := demo id) (λ _, false) id demo_store demo_truth (bs "open") (f32_lit 85 100) 10 ∅
    demo_reads demo_store_ok demo_versioned (λ key token rows E, match eq_trans (eq_sym (lookup_empty key)) E with end)).
Defined.
